(* ===== verification/_CoqProject ===== *)
-Q . S2P
Prelude.v
GoBase.v
Json.v
Codec.v
Core.v
CoreProps.v
Driver.v
Memory.v
MemoryInv.v
MemoryFetch.v
MemoryProps.v
MemoryKeys.v
Listing.v
MemoryLeases.v
Maintenance.v
MaintenanceProps.v
RateLimit.v
RateLimitProps.v
MemoryLimiter.v
Sha256.v
Client.v
ClientProps.v
MemoryClient.v
Cron.v
CronProps.v
CronGroup.v
CronDemo.v
WorkerConfig.v
WorkerConfigProps.v
WorkerRate.v
WorkerRateProps.v
WorkerRun.v
WorkerRunProps.v
WorkerLeases.v
WorkerSemaphores.v
WorkerMachine.v
WorkerMachineInv.v
WorkerMachineShape.v
WorkerMachineProps.v
WorkerLiveness.v
WorkerPipelines.v
WorkerDispatch.v
WorkerLoops.v
WorkerLoopsProps.v
WorkerDemo.v
ManualClock.v
Moves.v
TimeText.v
Firestore.v
FirestoreLaws.v
FirestoreRefine.v
FirestoreSafety.v
FirestoreKeys.v
FirestoreDemo.v
Mongo.v
MongoLaws.v
MongoRefine.v
MongoSafety.v
MongoDemo.v
Dynamo.v
DynamoLaws.v
DynamoRefine.v
DynamoSafety.v
DynamoDemo.v
Sql.v
SqlLaws.v
SqlSafety.v
SqlSim.v
SqlPgx.v
SqlPgxRefine.v
SqlPgxDemo.v
SqlStd.v
SqlStdRefine.v
SqlStdDemo.v
Redis.v
RedisLaws.v
RedisRefine.v
RedisSafety.v
RedisStores.v
RedisDemo.v
