(* ===== verification/Prelude.v ===== *)
(** * goncordia: a Rocq model of the job-queue engine

    goncordia (Go) queues jobs in a database and runs them in worker pools.  A
    _client_ validates a request, derives its unique key and writes rows through
    a _driver_; a _worker pool_ claims due rows through the same driver, waits for
    whatever its policies demand, calls the registered handler and writes the
    outcome back; maintenance tools prune, retry and replay.  Every backend
    implements one contract, of which the in-memory backend is the executable
    reference.  The model follows that structure.

    ** Files and what they model

    - [Prelude], [GoBase]: generic lemmas, sorting, tactics; the Go runtime the
      code relies on.  An [int64] is a [Z] with its wrap-around written out
      ([wrap64]); an instant is a number of nanoseconds; a map range is a class
      ([MapRange]) that lists a map in an unspecified order; the few [float64]
      conversions are abstract where Go leaves them to the implementation.
    - [Json], [Codec], [Sha256]: encoding/json as far as payload envelopes, unique keys
      and page cursors use it, with Go's treatment of bytes that are not UTF-8; base64
      and hex; SHA-256 as a function.
    - [Core], [CoreProps]: src/core.  Retry policies, schedules, the registry with
      payload envelopes, upcasters and type-erased dispatch.
    - [Driver]: src/driver/driver.go, errors.go, pagination.go.  Rows, parameters,
      errors, page cursors, and the store interfaces as classes.
    - [Memory] and [MemoryInv], [MemoryFetch], [MemoryProps], [MemoryKeys],
      [Listing], [MemoryLeases]: src/driver/memory.  Every operation of the backend
      as a function on its state ([Driver]); [run] executes a history of
      operations.  Each call holds the backend's mutex throughout, so a history is
      a sequence of whole operations.
    - [RateLimit], [RateLimitProps], [MemoryLimiter]: src/driver/rate_limit.go over
      any store of schedule cursors.  A round of the smooth limiter is a sequence of
      store calls ([gcraCall]): a [Group] lets those of many participants interleave,
      and for one acquisition what others do between its calls is a function of the
      call's number.
    - [Client], [ClientProps], [MemoryClient]: src/client.go, src/admission.go and
      the events of src/telemetry.go; then the client on the memory backend.
    - [Maintenance], [MaintenanceProps]: src/maintenance.go over an admin store.
    - [Cron], [CronProps], [CronGroup], [CronDemo]: src/cron.go.  A tick is a
      program of calls on the store, a schedule and the client ([Cron]); a group is
      several processes whose ticks interleave call by call and may crash between
      any two calls ([CronGroup]).
    - [WorkerConfig], [WorkerConfigProps]: validation, normalisation and the
      policies of src/worker.go.
    - [WorkerRate], [WorkerRateProps]: its local and global rate limits.
    - [WorkerRun], [WorkerRunProps], [WorkerLeases]: the execution of one claimed
      job, its outcome, heartbeats and rescue.
    - [WorkerSemaphores], [WorkerMachine]: the pool as a concurrent machine.  A
      state holds what the pool's goroutines share and where each of them stands;
      [mstep] is one atomic step of one goroutine (a channel operation, a locked
      section, a store call), chosen by an event, and has no successor where the
      code would block.  Deferred calls are data ([frame]).
      [WorkerMachineInv], [WorkerMachineShape], [WorkerMachineProps],
      [WorkerLiveness], [WorkerPipelines], [WorkerDispatch] prove its properties
      over every interleaving; [WorkerDemo] runs it, and the loops, on the memory
      backend.
    - [WorkerLoops], [WorkerLoopsProps]: the loops of [Start] over
      that machine: polling, notifications, rescues, [Stop], and the deferred
      cleanup, as a step relation of its own.
    - [Firestore]: src/driver/firestore.  Every operation of the executor over a
      class of the service's calls; a transaction is a function of a snapshot that
      may run several times and keeps what it has captured.  [FirestoreLaws] states
      the service's documented behaviour, the atomic moves programs make, and a
      logic of programs; [FirestoreRefine] what each operation promises;
      [FirestoreSafety], [FirestoreKeys] what no sequence of moves breaks.
      [FirestoreDemo] has a service that keeps the laws, runs on it, and puts the
      backend behind the client's, the pool's and the scheduler's interfaces.
    - [Moves]: what the backends of a shared service have in common: atomic moves, the
      traces of a program among the moves of others, and the logic [does] of such
      programs; and the operations of an executor as data.
    - [Mongo]: src/driver/mongodb.  Every operation of the executor, in or out of a
      session, over the one call [mg_call] of the server; filters and updates are
      data, as in the code.  [MongoLaws] says what the server's documentation says
      of each request, [MongoRefine] what each operation promises, [MongoSafety]
      what no sequence of moves breaks.  [MongoDemo] has a server that keeps the laws,
      the backend behind the interfaces, and runs.
    - [Redis]: src/driver/redis.  The keys by kind, the Lua scripts as functions of
      them, and every operation of the executor over single requests and pipelines;
      only a script, a command or a transaction under WATCH is atomic.  [RedisLaws],
      [RedisRefine] and [RedisSafety] as for the others; [RedisStores] has the
      interfaces and the listener with its goroutines, [RedisDemo] a server and runs.
    - [TimeText]: an instant as the text that [time.RFC3339Nano] makes of it, and how
      far the order of the texts is the order of time.
    - [Dynamo]: src/driver/dynamodb.  Conditions and update expressions are data;
      every operation of the executor over single requests.  Reads may be stale, so
      [DynamoLaws] keeps every item that there ever was, and an invariant says that
      an id and a version determine the item.  [DynamoRefine], [DynamoSafety],
      [DynamoDemo] as for the others.
    - [Sql]: what src/driver/pgxv5 and src/driver/stdlib have in common: the tables,
      the statements as data, and the client libraries as a class whose calls may
      belong to a transaction.  [SqlLaws] gives the statements their meaning, with
      what differs between PostgreSQL, MySQL and SQLite as parameters, and says what
      the documentation says of transactions; it also has programs and transactions for
      any executor that keeps its promises.  [SqlSafety] holds of both backends,
      [SqlSim] is a database for each dialect.  [SqlPgx], [SqlPgxRefine], [SqlPgxDemo]:
      driver/pgxv5.  [SqlStd], [SqlStdRefine], [SqlStdDemo]: driver/stdlib.
    - [ManualClock]: src/clock/clock.go.  The manual clock with its timers, and the
      contexts made by [WithTimeout] as a small machine.

    ** What the theorems show

    - Backend: every history keeps the job table consistent (C1); a fetch takes
      exactly the best due jobs (C2); a claim is exclusive until it is released
      and a worker that lost it is refused (C3, C4); inserts are accounted for (C5),
      unique keys are unique until a finished job is rescheduled (C6), listeners are
      woken (C7); pagination visits every row once (C8); leases exclude
      ([lease_exclusive]).
    - Firestore: every operation is a sequence of atomic moves that its answer
      describes, under any interference and any rerun of its transactions (C20);
      claims and leases exclude ([firestore_claims_exclusive],
      [firestore_lease_exclusive]); keys are unique while nobody frees that of a live
      job, reschedules a finished job, or invents a state (C18).
    - MongoDB: every operation is a sequence of atomic moves that its answer
      describes, and nothing of a session is seen (C11); claims, leases and unique keys
      exclude ([mongo_claims_exclusive], [mongo_lease_exclusive], [mongo_keys_unique]).
    - Redis: every operation is a sequence of atomic moves that its answer describes
      (C40); a job that is not rescheduled is claimed again only after something has
      put it back (C12); a unique key is taken until a command deletes it
      ([redis_keys_apart]), a lease until it is resigned or time passes
      ([redis_lease_stays]); the listener never sends on a closed channel and leaves
      nothing open ([redis_listener_sound]).
    - DynamoDB: every operation ends and is a sequence of atomic moves that its answer
      describes (C28); claims are exclusive and show what was in the table, however
      stale the index (C10); an outcome is written to the very claim it names (C19);
      keys and leases are kept apart ([dynamo_keys_apart], [dynamo_lease_exclusive]).
    - PostgreSQL: a transaction happens at one moment or not at all, and each of its
      operations has kept its promise (C25); claims are exclusive
      ([pgx_claims_exclusive]), outcomes are fenced ([pgx_outcome_fenced]).  database/sql: every operation is the statements
      that its answer describes ([std_operations_refine]); a committed fetch has claimed what was due
      ([std_transaction_claims]), one outside of a transaction need not have.  Of
      both: unique keys are unique ([sql_keys_unique]), leases are taken over when
      they have run out ([sql_elections_apart]).
    - Clock: the manual clock fires exactly what is due ([manual_set_fires]), and a
      context with a deadline is closed once, never early ([timeout_context]).
    - Maintenance: retention deletes exactly what has expired, bulk actions
      account for every job (C9, [bulk_acts_once_and_accounts]).
    - Core: back-off without jitter is bounded and never overflows (C13); payloads come back from
      their envelope and reach the right handler (C14, C15).
    - Rate limits: what all participants of a GCRA limiter are granted together, under
      any interleaving of their store calls (C16); the bound of fixed windows
      ([fixed_window_bound]).
    - Client: unique keys identify what their options select, as JSON has it, up to a
      collision of the very texts that are hashed (C21), accepted
      arguments reach the handler (C22), batches are all or nothing (C23),
      admission keeps the queue depth (C24).
    - Worker: validation is exact ([ValidateWorkerConfig_complete]) and every pool is
      normalised (C26); local
      limits delay exactly as long as they must and are never exceeded
      ([local_delay_exact], [local_gcra_bound]);
      the outcome of a job, its retry budget over a fleet of pools as long as it is not
      rescheduled by hand, and the protection heartbeats give (C29 to C31); no channel of the pool is ever
      overfilled, policies hold, a drained pool is clean (C32 to C34), nothing
      deadlocks (C35), pipelines run one at a time (C36), the dispatcher ends and
      is fair (C37, C38).  [Start] returns once it is asked to (C17) and then has
      given back its tickers, its subscriptions and the listener (C27).
    - Cron: a group of schedulers inserts every occurrence of a durable schedule at
      most once, whatever crashes, and those that the policy asks for once, as long as
      jobs are not deleted or rescheduled by hand (C39); a tick that is not disturbed catches up
      as its policy says ([tick_catches_up]).

    Theorems about counters assume that fewer than 2^63 jobs, attempts or
    dispatcher steps have happened, which is where Go's arithmetic would wrap.

    ** Fuel

    Loops that Go bounds by its data take a measure of it as fuel and the theorems
    show that it is enough: decimal digits, JSON nesting, the doublings of a retry
    delay (sixty-four), pages of a listing.  A cron tick looks at 100000
    occurrences at most, as the code does ([scanLimit]).  The compare-and-swap loops of the rate
    limiter and the wait for permits have no bound in the code; their definitions
    return [None] when the fuel runs out, and the theorems about them speak of what
    has been granted so far, or give the round in which they return.

    The pages of a DynamoDB query or scan are read with fuel; [dy_left] says how many
    the service can still answer, and any fuel above that is enough (C28).

    ** Not modelled

    - The Cassandra and ClickHouse backends, and the adapters for bun and gorm.  Of the
      SQL backends: [Migrate], whose tables and indexes are assumed, and the listener
      of driver/pgxv5.  Of the Redis
      backend: the JSON text of a document, which is known by what it decodes to.  Of
      the MongoDB backend: [Migrate], whose indexes are assumed, and
      the listener, a change stream.  The worker and the client are verified against the
      store classes, with laws where a theorem needs them.
    - The admin console, OpenTelemetry export and the test helpers.
    - Goroutine scheduling is arbitrary; timers are events. *)

From stdpp Require Export prelude strings gmap list sorting.
From Stdlib Require Import Ascii ZArith Lia.
From Stdlib Require String.
#[global] Open Scope Z_scope.
#[global] Open Scope bool_scope.

Declare Scope go_scope.
Delimit Scope go_scope with go.

(** ** Hint databases *)
Create HintDb go_time.
Create HintDb go_sort.
Create HintDb mem.

(** ** Tactics of the development *)

(** Case split on every boolean test or match in the goal and clean up. *)
Ltac split_ifs :=
  repeat (case_match; simplify_eq/=; try done).

(** [setter eta proj] builds the function that replaces one field of a record:
    [eta] rebuilds a record from its projections, and the occurrence of [proj]
    in it is abstracted. *)
Ltac setter eta proj :=
  let e := eval unfold eta in eta in
  let s := eval pattern proj in e in
  match s with
  | ?f _ => let t := eval cbv beta in (fun v => f (fun _ => v)) in exact t
  end.

(** Turn boolean comparisons on [Z] and [decide]d facts into propositions. *)
Ltac bool_to_prop :=
  repeat match goal with
  | H : _ && _ = true |- _ => apply andb_true_iff in H as [? ?]
  | H : _ || _ = false |- _ => apply orb_false_iff in H as [? ?]
  | H : negb _ = true |- _ => apply negb_true_iff in H
  | H : negb _ = false |- _ => apply negb_false_iff in H
  | H : (_ <? _) = true |- _ => apply Z.ltb_lt in H
  | H : (_ <? _) = false |- _ => apply Z.ltb_ge in H
  | H : (_ <=? _) = true |- _ => apply Z.leb_le in H
  | H : (_ <=? _) = false |- _ => apply Z.leb_gt in H
  | H : (_ =? _) = true |- _ => apply Z.eqb_eq in H
  | H : (_ =? _) = false |- _ => apply Z.eqb_neq in H
  | H : bool_decide _ = true |- _ => apply bool_decide_eq_true in H
  | H : bool_decide _ = false |- _ => apply bool_decide_eq_false in H
  end.

(** ** Machine integers: Go's [int], [int64] and [uint64] *)

Definition int64_min : Z := - 2 ^ 63.
Definition int64_max : Z := 2 ^ 63 - 1.

(** Two's-complement wrap-around of a 64-bit signed operation. *)
Definition wrap64 (z : Z) : Z := (z + 2 ^ 63) mod 2 ^ 64 - 2 ^ 63.

(** Wrap-around of a 64-bit unsigned operation. *)
Definition wrapu64 (z : Z) : Z := z mod 2 ^ 64.

Definition is_int64 (z : Z) : Prop := int64_min ≤ z ≤ int64_max.

#[export] Instance is_int64_dec z : Decision (is_int64 z).
Proof. unfold is_int64. apply _. Defined.

Lemma wrap64_id z : is_int64 z → wrap64 z = z.
Proof.
  unfold is_int64, int64_min, int64_max, wrap64. intros.
  rewrite Z.mod_small by lia. lia.
Qed.

Lemma wrap64_range z : is_int64 (wrap64 z).
Proof.
  unfold is_int64, int64_min, int64_max, wrap64.
  pose proof (Z.mod_pos_bound (z + 2 ^ 63) (2 ^ 64) ltac:(lia)). lia.
Qed.

Lemma wrap64_sub_add z : is_int64 z → wrap64 (wrap64 (z + 1) - 1) = z.
Proof.
  unfold is_int64, int64_min, int64_max, wrap64. intros Hz.
  destruct (decide (z = 2 ^ 63 - 1)) as [->|].
  - vm_compute. done.
  - rewrite (Z.mod_small (z + 1 + 2 ^ 63)) by lia.
    rewrite Z.mod_small by lia. lia.
Qed.

Lemma wrap64_succ_ne z : is_int64 z → wrap64 (z + 1) ≠ z.
Proof.
  unfold is_int64, int64_min, int64_max, wrap64. intros Hz.
  destruct (decide (z = 2 ^ 63 - 1)) as [->|].
  - vm_compute. done.
  - rewrite Z.mod_small by lia. lia.
Qed.

Lemma wrap64_add_small z k :
  is_int64 (z + k) → wrap64 (z + k) = z + k.
Proof. apply wrap64_id. Qed.
#[export] Hint Resolve wrap64_range : go_time.

(** ** Byte strings: Go's [<] on strings *)

(** Go compares strings byte-wise, a proper prefix being smaller. *)
Definition str_lt (a b : string) : bool := String.ltb a b.

Lemma ascii_compare_trans_lt a b c :
  Ascii.compare a b = Lt → Ascii.compare b c = Lt → Ascii.compare a c = Lt.
Proof.
  unfold Ascii.compare. rewrite !N.compare_lt_iff. lia.
Qed.

Lemma string_compare_refl s : String.compare s s = Eq.
Proof.
  induction s as [|a s IH]; simpl; [done|].
  unfold Ascii.compare. by rewrite N.compare_refl.
Qed.

Lemma string_compare_trans_lt a : ∀ b c,
  String.compare a b = Lt → String.compare b c = Lt → String.compare a c = Lt.
Proof.
  induction a as [|x a IH]; intros [|y b] [|z c]; simpl; try done.
  destruct (Ascii.compare x y) eqn:Exy; try done;
  destruct (Ascii.compare y z) eqn:Eyz; try done; intros H1 H2.
  - apply Ascii.compare_eq_iff in Exy as ->. rewrite Eyz. eauto.
  - apply Ascii.compare_eq_iff in Exy as ->. by rewrite Eyz.
  - apply Ascii.compare_eq_iff in Eyz as ->. by rewrite Exy.
  - by rewrite (ascii_compare_trans_lt _ _ _ Exy Eyz).
Qed.

Lemma str_lt_irrefl a : str_lt a a = false.
Proof. unfold str_lt, String.ltb. by rewrite string_compare_refl. Qed.

Lemma str_lt_trans a b c : str_lt a b = true → str_lt b c = true → str_lt a c = true.
Proof.
  unfold str_lt, String.ltb. intros.
  destruct (String.compare a b) eqn:E1; try done.
  destruct (String.compare b c) eqn:E2; try done.
  by rewrite (string_compare_trans_lt _ _ _ E1 E2).
Qed.

Lemma str_lt_total a b : str_lt a b = false → str_lt b a = false → a = b.
Proof.
  unfold str_lt, String.ltb. rewrite (String.compare_antisym b a).
  destruct (String.compare a b) eqn:E; simpl; try done.
  intros _ _. by apply String.compare_eq_iff.
Qed.

Lemma str_lt_asym a b : str_lt a b = true → str_lt b a = false.
Proof.
  intros H. destruct (str_lt b a) eqn:E; [|done].
  pose proof (str_lt_trans _ _ _ H E) as Hc. by rewrite str_lt_irrefl in Hc.
Qed.
#[export] Hint Resolve str_lt_irrefl str_lt_asym : go_sort.

(** [strings.HasPrefix]. *)
Fixpoint HasPrefix (s prefix : string) : bool :=
  match prefix, s with
  | EmptyString, _ => true
  | String p prefix', String c s' => Ascii.eqb p c && HasPrefix s' prefix'
  | String _ _, EmptyString => false
  end.

(** ** [sort.Slice] with a [less] function *)

Section sort_by.
Context {A : Type} (less : A → A → bool).

Definition not_after (x y : A) : Prop := less y x = false.
#[export] Instance not_after_dec x y : Decision (not_after x y).
Proof. unfold not_after. apply _. Defined.

(** Go's [sort.Slice] returns some ordering in which no element precedes a
    smaller one; where [less] separates distinct elements that ordering is
    unique ([sort_by_unique]), so the algorithm does not matter. *)
Definition sort_by (l : list A) : list A := merge_sort not_after l.

Lemma sort_by_perm l : sort_by l ≡ₚ l.
Proof. apply merge_sort_Permutation. Qed.

Lemma sort_by_length l : length (sort_by l) = length l.
Proof. by rewrite sort_by_perm. Qed.

(** What a [less] function must satisfy for [sort.Slice] to be meaningful. *)
Class StrictWeak : Prop := {
  less_asym : ∀ x y, less x y = true → less y x = false;
  less_negtrans : ∀ x y z, less x y = false → less y z = false → less x z = false
}.

Context `{!StrictWeak}.

Lemma not_after_trans : Transitive not_after.
Proof. intros x y z Hxy Hyz. unfold not_after in *. by eapply less_negtrans. Qed.

Lemma not_after_total : Total not_after.
Proof.
  intros x y. unfold not_after.
  destruct (less y x) eqn:E; [right|left]; eauto using less_asym.
Qed.

Lemma sort_by_strongly_sorted l : StronglySorted not_after (sort_by l).
Proof.
  apply Sorted.Sorted_StronglySorted; [apply not_after_trans|].
  apply Sorted_merge_sort. apply not_after_total.
Qed.

Lemma sort_by_unique l1 l2 :
  l1 ≡ₚ l2 →
  (∀ x y, x ∈ l1 → y ∈ l1 → less x y = false → less y x = false → x = y) →
  sort_by l1 = sort_by l2.
Proof.
  intros Hp Hanti.
  apply (StronglySorted_unique_strong not_after).
  - intros x y Hx Hy Hxy Hyx. apply Hanti; [| |done|done].
    + by rewrite <-(sort_by_perm l1).
    + rewrite Hp. by rewrite <-(sort_by_perm l2).
  - apply sort_by_strongly_sorted.
  - apply sort_by_strongly_sorted.
  - by rewrite !sort_by_perm.
Qed.
End sort_by.

Arguments not_after {A} less x y /.

(** In a sorted list nothing in a dropped suffix goes before a kept prefix. *)
Lemma strongly_sorted_take_drop {A} (R : relation A) (l : list A) n x y :
  StronglySorted R l → x ∈ take n l → y ∈ drop n l → R x y.
Proof.
  intros Hs Hx Hy. rewrite <-(take_drop n l) in Hs.
  by eapply StronglySorted_app_1_elem_of.
Qed.

Lemma strongly_sorted_take {A} (R : relation A) (l : list A) n :
  StronglySorted R l → StronglySorted R (take n l).
Proof.
  intros Hs. rewrite <-(take_drop n l) in Hs. by eapply StronglySorted_app_1_l.
Qed.

(** ** Ranging over a Go map *)

(** [for k, v := range m] visits every entry once, in an order the language
    leaves open.  The development is parametric in that order: every theorem
    quantifies over [MapRange], and [map_to_list] is the executable instance. *)
Class MapRange := {
  range_map : ∀ {A : Type}, gmap string A → list (string * A);
  range_map_perm : ∀ {A : Type} (m : gmap string A), range_map m ≡ₚ map_to_list m
}.

Definition map_to_list_range : MapRange.
Proof. refine {| range_map := λ A m, map_to_list m |}. done. Defined.

Section range.
Context `{MapRange} {A : Type}.
Implicit Types m : gmap string A.

Lemma elem_of_range m k v : (k, v) ∈ range_map m ↔ m !! k = Some v.
Proof. rewrite range_map_perm. apply elem_of_map_to_list. Qed.

Lemma range_fst_nodup m : NoDup (range_map m).*1.
Proof. rewrite range_map_perm. apply NoDup_fst_map_to_list. Qed.

Lemma range_nodup m : NoDup (range_map m).
Proof. rewrite range_map_perm. apply NoDup_map_to_list. Qed.
End range.

(** ** Lists *)

Lemma filter_fst_nodup {A} (P : string * A → Prop) `{∀ x, Decision (P x)} (l : list (string * A)) :
  NoDup l.*1 → NoDup (filter P l).*1.
Proof.
  induction l as [|x l IH]; simpl; [done|].
  rewrite NoDup_cons. intros [Hx Hl]. rewrite filter_cons.
  case_decide; [|by apply IH].
  simpl. apply NoDup_cons. split; [|by apply IH].
  rewrite list_elem_of_fmap. intros (y & Hy & Hin).
  apply list_elem_of_filter in Hin as [_ Hin].
  apply Hx. rewrite Hy. by apply list_elem_of_fmap_2.
Qed.

Lemma filter_all {A} (P : A → Prop) `{∀ x, Decision (P x)} (l : list A) :
  Forall P l → filter P l = l.
Proof.
  induction 1 as [|x l Hx Hl IH]; [done|]. rewrite filter_cons, decide_True by done. by rewrite IH.
Qed.

Lemma filter_none {A} (P : A → Prop) `{∀ x, Decision (P x)} (l : list A) :
  Forall (λ x, ¬ P x) l → filter P l = [].
Proof.
  induction 1 as [|x l Hx Hl IH]; [done|]. by rewrite filter_cons, decide_False.
Qed.

(** Reachability through a step relation. *)
Section reachable.
Context {S : Type} (init : S → Prop) (step : S → S → Prop).
Inductive reachable : S → Prop :=
| reach_init s : init s → reachable s
| reach_step s s' : reachable s → step s s' → reachable s'.

Lemma reachable_invariant (I : S → Prop) :
  (∀ s, init s → I s) → (∀ s s', I s → step s s' → I s') →
  ∀ s, reachable s → I s.
Proof. intros Hi Hs s Hr. induction Hr; eauto. Qed.
End reachable.

(** A property that every step keeps holds along a run. *)
Lemma rtc_keeps {A} (R : relation A) (P : A → Prop) x y :
  (∀ a b, R a b → P a → P b) → rtc R x y → P x → P y.
Proof. intros HR. induction 1; eauto. Qed.
