(* ===== verification/GoBase.v ===== *)
(** * Go runtime pieces the engine relies on: [time], [errors], channels of time

    [time.Time] is an instant: nanoseconds since 0001-01-01T00:00:00Z, so that
    Go's zero time is [0] and [Truncate] is a floor to a multiple.  Locations
    and monotonic readings are not represented ([UTC] is the identity).
    [time.Duration] is a 64-bit count of nanoseconds.

    [float64]: IEEE binary64 with round-to-nearest-even, from the Standard Library's
    executable [SpecFloat].  Each Go operation rounds on its own (no fused
    multiply-add, as on amd64).  Converting a float outside the range of [int64]
    (or a NaN) to an integer is implementation-dependent in Go; the result is
    the parameter [f64_invalid]. *)

From S2P Require Import Prelude.
From Stdlib Require Import Ascii ZArith Lia Floats.SpecFloat.

Abbreviation Instant := Z (only parsing).
Abbreviation Duration := Z (only parsing).

(** ** package time *)

Definition zeroTime : Instant := 0.
Definition IsZero (t : Instant) : bool := t =? 0.
Definition Before (t u : Instant) : bool := t <? u.
Definition After (t u : Instant) : bool := u <? t.
Definition TimeEqual (t u : Instant) : bool := t =? u.
Definition Add (t : Instant) (d : Duration) : Instant := t + d.

(** [t.Sub(u)] saturates at the ends of [Duration]. *)
Definition Sub (t u : Instant) : Duration :=
  Z.max int64_min (Z.min int64_max (t - u)).

(** [t.Truncate(d)]: the largest multiple of [d] since the zero time that is
    not after [t]; [t] itself when [d <= 0]. *)
Definition Truncate (t : Instant) (d : Duration) : Instant :=
  if d <=? 0 then t else t - t mod d.

Definition UTC (t : Instant) : Instant := t.

Definition Nanosecond : Duration := 1.
Definition Millisecond : Duration := 1000000.
Definition Second : Duration := 1000000000.
Definition Minute : Duration := 60 * Second.
Definition Hour : Duration := 60 * Minute.

(** 1970-01-01T00:00:00Z on the scale above (62135596800 seconds after year 1). *)
Definition unixEpoch : Instant := 62135596800 * Second.
(** [t.UnixNano()] and [time.Unix(0, n)]. *)
Definition UnixNano (t : Instant) : Z := wrap64 (t - unixEpoch).
Definition UnixFromNano (n : Z) : Instant := unixEpoch + n.
Definition UnixMilli (t : Instant) : Z := (t - unixEpoch) / Millisecond.
Definition UnixFromMilli (ms : Z) : Instant := unixEpoch + ms * Millisecond.

(** Duration arithmetic wraps like any [int64] arithmetic. *)
Definition durMul (a b : Z) : Duration := wrap64 (a * b).
(** Go's integer division truncates toward zero. *)
Definition durDiv (a b : Z) : Z := Z.quot a b.

Lemma After_true t u : After t u = true ↔ u < t.
Proof. apply Z.ltb_lt. Qed.
Lemma After_false t u : After t u = false ↔ t ≤ u.
Proof. apply Z.ltb_ge. Qed.
Lemma Before_true t u : Before t u = true ↔ t < u.
Proof. apply Z.ltb_lt. Qed.
Lemma Before_false t u : Before t u = false ↔ u ≤ t.
Proof. apply Z.ltb_ge. Qed.
Lemma TimeEqual_true t u : TimeEqual t u = true ↔ t = u.
Proof. apply Z.eqb_eq. Qed.
Lemma TimeEqual_false t u : TimeEqual t u = false ↔ t ≠ u.
Proof. apply Z.eqb_neq. Qed.
Lemma IsZero_true t : IsZero t = true ↔ t = 0.
Proof. apply Z.eqb_eq. Qed.
Lemma IsZero_false t : IsZero t = false ↔ t ≠ 0.
Proof. apply Z.eqb_neq. Qed.

Ltac time_to_prop :=
  repeat (bool_to_prop; match goal with
  | H : After _ _ = true |- _ => apply After_true in H
  | H : After _ _ = false |- _ => apply After_false in H
  | H : Before _ _ = true |- _ => apply Before_true in H
  | H : Before _ _ = false |- _ => apply Before_false in H
  | H : TimeEqual _ _ = true |- _ => apply TimeEqual_true in H
  | H : TimeEqual _ _ = false |- _ => apply TimeEqual_false in H
  | H : IsZero _ = true |- _ => apply IsZero_true in H
  | H : IsZero _ = false |- _ => apply IsZero_false in H
  end); bool_to_prop.

Lemma Truncate_spec t d :
  0 < d → Truncate t d ≤ t < Truncate t d + d ∧ (d | Truncate t d).
Proof.
  intros Hd. unfold Truncate. rewrite (proj2 (Z.leb_gt d 0)) by lia.
  pose proof (Z.mod_pos_bound t d Hd). split; [lia|].
  exists (t / d). pose proof (Z.div_mod t d ltac:(lia)). lia.
Qed.

Lemma Truncate_unique t d w :
  0 < d → (d | w) → w ≤ t < w + d → Truncate t d = w.
Proof.
  intros Hd [q Hq] Hw. unfold Truncate. rewrite (proj2 (Z.leb_gt d 0)) by lia.
  assert (t / d = q) as Hdiv.
  { symmetry. apply (Z.div_unique t d q (t - w)); lia. }
  pose proof (Z.div_mod t d ltac:(lia)). lia.
Qed.

Lemma Sub_exact t u : is_int64 (t - u) → Sub t u = t - u.
Proof. unfold Sub, is_int64, int64_min, int64_max. lia. Qed.

Lemma UnixNano_roundtrip t :
  is_int64 (t - unixEpoch) → UnixFromNano (UnixNano t) = t.
Proof. intros H. unfold UnixFromNano, UnixNano. rewrite wrap64_id by done. lia. Qed.

(** ** A clock as the sequence of readings it hands out

    [Clock.Now()] may return a different instant at each call; a clock is the
    list of its readings, kept as a function of the call number. *)
Record Clock := mkClock { clk_reading : nat → Instant; clk_calls : nat }.

Definition Now (c : Clock) : Instant * Clock :=
  (clk_reading c (clk_calls c), mkClock (clk_reading c) (S (clk_calls c))).

(** A clock that stands still, as a manual clock does between two [Advance]s. *)
Definition frozenClock (t : Instant) : Clock := mkClock (λ _, t) 0.

(** ** package context

    A context is known by how it was derived; whether it is done at some moment
    is up to its surroundings.  [CtxTimeout] carries its deadline. *)
Inductive Ctx :=
| CtxBackground
| CtxRoot (n : nat)
| CtxCancel (parent : Ctx)
| CtxTimeout (parent : Ctx) (deadline : Instant).

(** ** package errors *)

Inductive sentinel :=
| ErrUnsupported | ErrNotFound | ErrConflict | ErrStaleClaim | ErrInvalidCursor
| ErrAdmissionRejected | ErrJobGone
| ErrUnauthenticated | ErrForbidden | ErrReadOnly | ErrConfirmationRequired
| ContextCanceled | ContextDeadlineExceeded.

#[export] Instance sentinel_eq_dec : EqDecision sentinel.
Proof. solve_decision. Defined.

(** Error values.  [EWrap pre e post] is [fmt.Errorf] with one [%w] verb,
    [EJoin] is [errors.Join]; the directive errors of core/retry.go, the panic
    error of worker.go and the queue-full error of admission.go are themselves. *)
Inductive error :=
| ENew (msg : string)
| ESentinel (s : sentinel)
| EWrap (pre : string) (e : error) (post : string)
| EDiscard (e : option error)
| ERetry (e : option error) (At : Instant) (After : Duration)
| EPanic (msg stack : string)
| EQueueFull (queue : string) (active incoming maxActive : Z)
| EJoin (es : list error).

Definition sentinelText (s : sentinel) : string :=
  match s with
  | ErrUnsupported => "goncordia: operation unsupported"
  | ErrNotFound => "goncordia: not found"
  | ErrConflict => "goncordia: conflict"
  | ErrStaleClaim => "goncordia: stale claim"
  | ErrInvalidCursor => "goncordia: invalid cursor"
  | ErrAdmissionRejected => "goncordia: enqueue admission rejected"
  | ErrJobGone => "job no longer available"
  | ErrUnauthenticated => "admin: unauthenticated"
  | ErrForbidden => "admin: forbidden"
  | ErrReadOnly => "admin: read-only mode"
  | ErrConfirmationRequired => "admin: explicit confirmation required"
  | ContextCanceled => "context canceled"
  | ContextDeadlineExceeded => "context deadline exceeded"
  end.

(** [errors.Is(err, s)] for a sentinel [s]: some error of the tree is [s]. *)
Fixpoint errorsIs (e : error) (s : sentinel) : bool :=
  match e with
  | ESentinel s' => bool_decide (s' = s)
  | EWrap _ e' _ | EDiscard (Some e') | ERetry (Some e') _ _ => errorsIs e' s
  | EQueueFull _ _ _ _ => bool_decide (ErrAdmissionRejected = s)
  | EJoin es =>
      (fix go (l : list error) : bool :=
         match l with [] => false | e' :: l' => errorsIs e' s || go l' end) es
  | ENew _ | EPanic _ _ | EDiscard None | ERetry None _ _ => false
  end.

(** Outcome of a fallible call: Go's [(value, error)] pair where the value is
    meaningless when the error is not nil. *)
Inductive result (A : Type) :=
| Ok (a : A)
| Err (e : error).
Arguments Ok {A} a.
Arguments Err {A} e.

Definition is_ok {A} (r : result A) : bool := match r with Ok _ => true | Err _ => false end.

(** How a call of foreign code ends: it returns an error or none, or panics;
    a panic is recorded with the text of its value and the stack at the recovery. *)
Inductive outcome :=
| Returns (err : option error)
| Panics (value stack : string).

(** [%q] of a string without characters that need escaping. *)
Definition dquote : string := String (Ascii.ascii_of_nat 34) EmptyString.
Definition quoted (s : string) : string := dquote +:+ s +:+ dquote.
Definition nul : string := String (Ascii.ascii_of_nat 0) EmptyString.

(** ** Decimal numbers: [strconv.Itoa] and friends *)

Definition digit_char (d : Z) : ascii := Ascii.ascii_of_N (Z.to_N (48 + d)).

Fixpoint digits_fuel (fuel : nat) (n : Z) (acc : string) : string :=
  match fuel with
  | O => acc
  | S f => let acc' := String (digit_char (n mod 10)) acc in
           if n <? 10 then acc' else digits_fuel f (n / 10) acc'
  end.

(** Decimal rendering; the fuel (the bit length) bounds the number of digits. *)
Definition FormatInt (n : Z) : string :=
  if n <? 0 then "-" +:+ digits_fuel (S (Z.to_nat (Z.log2 (- n)))) (- n) ""
  else digits_fuel (S (Z.to_nat (Z.log2 n))) n "".

(** Reading the digits back, used to show that [FormatInt] is injective. *)
Definition char_digit (c : ascii) : option Z :=
  let n := Z.of_N (Ascii.N_of_ascii c) in
  if (48 <=? n) && (n <=? 57) then Some (n - 48) else None.

Fixpoint parse_digits (s : string) (acc : Z) : option Z :=
  match s with
  | EmptyString => Some acc
  | String c s' => match char_digit c with
                   | Some d => parse_digits s' (acc * 10 + d)
                   | None => None
                   end
  end.

Lemma char_digit_char d : 0 ≤ d < 10 → char_digit (digit_char d) = Some d.
Proof.
  intros Hd. unfold char_digit, digit_char.
  rewrite Ascii.N_ascii_embedding by lia.
  rewrite Z2N.id by lia.
  rewrite (proj2 (Z.leb_le _ _)) by lia. rewrite (proj2 (Z.leb_le _ _)) by lia.
  simpl. f_equal. lia.
Qed.

Lemma parse_digits_fuel fuel : ∀ n acc a,
  0 ≤ n < 2 ^ Z.of_nat fuel →
  ∃ k, 0 ≤ k ∧ n < 10 ^ k ∧
       parse_digits (digits_fuel fuel n acc) a = parse_digits acc (a * 10 ^ k + n).
Proof.
  induction fuel as [|f IH]; intros n acc a Hn.
  - exists 0. simpl in *. split_and!; [lia|lia|]. f_equal. lia.
  - cbn [digits_fuel].
    assert (0 ≤ n mod 10 < 10) by (apply Z.mod_pos_bound; lia).
    destruct (n <? 10) eqn:E; bool_to_prop.
    + exists 1. split_and!; [lia|lia|]. cbn [parse_digits].
      rewrite char_digit_char by done. f_equal. rewrite Z.mod_small by lia. lia.
    + destruct (IH (n / 10) (String (digit_char (n mod 10)) acc) a) as (k & Hk & Hlt & Heq).
      { split; [apply Z.div_pos; lia|].
        apply Z.div_lt_upper_bound; [lia|].
        rewrite Nat2Z.inj_succ, Z.pow_succ_r in Hn by lia. lia. }
      exists (k + 1). pose proof (Z.div_mod n 10 ltac:(lia)).
      rewrite Z.pow_add_r by lia. split_and!; [lia|lia|].
      rewrite Heq. cbn [parse_digits]. rewrite char_digit_char by done.
      f_equal. lia.
Qed.

Lemma parse_digits_FormatInt n : 0 ≤ n → parse_digits (FormatInt n) 0 = Some n.
Proof.
  intros Hn. unfold FormatInt. rewrite (proj2 (Z.ltb_ge _ _)) by lia.
  destruct (parse_digits_fuel (S (Z.to_nat (Z.log2 n))) n "" 0) as (k & _ & _ & ->).
  { split; [lia|]. rewrite Nat2Z.inj_succ.
    rewrite Z2Nat.id by apply Z.log2_nonneg.
    destruct (decide (n = 0)) as [->|]; [vm_compute; done|].
    apply Z.log2_spec. lia. }
  cbn [parse_digits]. f_equal; lia.
Qed.

Lemma FormatInt_inj_nonneg a b :
  0 ≤ a → 0 ≤ b → FormatInt a = FormatInt b → a = b.
Proof.
  intros Ha Hb Heq. apply parse_digits_FormatInt in Ha, Hb.
  rewrite Heq in Ha. congruence.
Qed.

Example FormatInt_2026 : FormatInt 2026 = "2026" ∧ FormatInt (-30) = "-30" ∧ FormatInt 0 = "0".
Proof. repeat split. Qed.

(** ** [err.Error()] *)

Definition newline : string := String (Ascii.ascii_of_nat 10) EmptyString.

Fixpoint joinLines (l : list string) : string :=
  match l with
  | [] => ""
  | [s] => s
  | s :: l' => s +:+ newline +:+ joinLines l'
  end.

Fixpoint errorText (e : error) : string :=
  match e with
  | ENew msg => msg
  | ESentinel s => sentinelText s
  | EWrap pre e' post => pre +:+ errorText e' +:+ post
  | EDiscard (Some e') | ERetry (Some e') _ _ => errorText e'
  | EDiscard None => "discard job"
  | ERetry None _ _ => "retry job"
  | EPanic msg _ => "panic: " +:+ msg
  | EQueueFull queue active incoming maxActive =>
      sentinelText ErrAdmissionRejected +:+ ": queue " +:+ quoted queue +:+ " has " +:+ FormatInt active
      +:+ " active jobs; adding " +:+ FormatInt incoming +:+ " exceeds limit " +:+ FormatInt maxActive
  | EJoin es => joinLines (map errorText es)
  end.

(** [errors.Join] of a list without nil entries: nil when the list is empty. *)
Definition errorsJoin (es : list error) : option error :=
  match es with [] => None | _ => Some (EJoin es) end.

(** * Floats *)

Abbreviation float64 := spec_float (only parsing).

Class FloatConv := {
  f64_invalid : float64 → Z;
  f64_invalid_range : ∀ f, is_int64 (f64_invalid f)
}.

(** What amd64 does. *)
Definition amd64_conv : FloatConv.
Proof.
  refine {| f64_invalid := λ _, int64_min |}.
  intros _. vm_compute. split; discriminate.
Defined.

Definition f64_of_int (z : Z) : float64 := binary_normalize 53 1024 z 0 false.
Definition f64_add : float64 → float64 → float64 := SFadd 53 1024.
Definition f64_sub : float64 → float64 → float64 := SFsub 53 1024.
Definition f64_mul : float64 → float64 → float64 := SFmul 53 1024.
Definition f64_div : float64 → float64 → float64 := SFdiv 53 1024.
Definition f64_lt (a b : float64) : bool := SFltb a b.
Definition f64_le (a b : float64) : bool := SFleb a b.
Definition f64_zero : float64 := S754_zero false.
Definition f64_one : float64 := f64_of_int 1.

(** The integer part, toward zero; [None] for infinities and NaN. *)
Definition f64_trunc (f : float64) : option Z :=
  match f with
  | S754_zero _ => Some 0
  | S754_finite s m e =>
      let a := if 0 <=? e then Z.shiftl (Z.pos m) e else Z.shiftr (Z.pos m) (- e) in
      Some (if s then - a else a)
  | _ => None
  end.

(** [int64(f)]. *)
Definition f64_to_int64 `{FloatConv} (f : float64) : Z :=
  match f64_trunc f with
  | Some z => if decide (is_int64 z) then z else f64_invalid f
  | None => f64_invalid f
  end.

Lemma f64_to_int64_range `{FloatConv} f : is_int64 (f64_to_int64 f).
Proof.
  unfold f64_to_int64. destruct (f64_trunc f); [case_decide; [done|]|]; apply f64_invalid_range.
Qed.

Example f64_half : f64_trunc (f64_div (f64_of_int 1000000000) (f64_of_int 3)) = Some 333333333.
Proof. vm_compute. reflexivity. Qed.
