(* ===== verification/Json.v ===== *)
(** * encoding/json and base64 as the engine uses them

    JSON texts are byte strings.  [jsonText] is what [json.Marshal] emits for a Go
    string: Go's escapes, with a byte that starts no UTF-8 encoding written as an
    escaped U+FFFD.  [print] is what it emits for a [json.RawMessage], which is a
    [json] tree (two texts that differ in white space only are not told apart): its
    strings have the same escapes, and bytes that are not UTF-8 are copied; page cursors
    use it for their documents too, which is exact for valid UTF-8.  [parse]
    is the grammar [json.Unmarshal] accepts.  Bytes from 128 up are copied when
    reading, which is what Go does for valid UTF-8.  The main results are the round
    trip [parse_print], and [reads_peel]: a value at the front of two equal texts is
    the same text in both. *)

From S2P Require Import Prelude GoBase.
From Stdlib Require Import Ascii ZArith Lia.

Inductive json :=
| JNull
| JBool (b : bool)
| JNum (lit : string)
| JStr (s : string)
| JArr (l : list json)
| JObj (l : list (string * json)).

(** Induction through the lists. *)
Section json_ind'.
Variable P : json → Prop.
Hypothesis Hnull : P JNull.
Hypothesis Hbool : ∀ b, P (JBool b).
Hypothesis Hnum : ∀ s, P (JNum s).
Hypothesis Hstr : ∀ s, P (JStr s).
Hypothesis Harr : ∀ l, Forall P l → P (JArr l).
Hypothesis Hobj : ∀ l, Forall (λ kv, P kv.2) l → P (JObj l).
Fixpoint json_ind' (j : json) : P j :=
  match j with
  | JNull => Hnull | JBool b => Hbool b | JNum s => Hnum s | JStr s => Hstr s
  | JArr l => Harr l ((fix go l : Forall P l :=
      match l with [] => Forall_nil_2 _ | x :: l' => Forall_cons_2 _ _ _ (json_ind' x) (go l') end) l)
  | JObj l => Hobj l ((fix go l : Forall (λ kv, P kv.2) l :=
      match l with [] => Forall_nil_2 _ | kv :: l' => Forall_cons_2 _ _ _ (json_ind' kv.2) (go l') end) l)
  end.
End json_ind'.

(** ** Characters *)

Definition code (c : ascii) : N := Ascii.N_of_ascii c.
Definition chr (n : N) : ascii := Ascii.ascii_of_N n.
Definition dq : ascii := chr 34.
Definition bslash : ascii := chr 92.

Definition hex_digit (n : N) : ascii := if (n <? 10)%N then chr (48 + n) else chr (87 + n).
Definition hex_val (c : ascii) : option N :=
  let n := code c in
  if ((48 <=? n) && (n <=? 57))%N then Some (n - 48)%N
  else if ((97 <=? n) && (n <=? 102))%N then Some (n - 87)%N
  else if ((65 <=? n) && (n <=? 70))%N then Some (n - 55)%N
  else None.

(** ** Printing *)

Definition esc_char (c : ascii) : string :=
  let n := code c in
  if (n =? 34)%N then String bslash (String dq "")
  else if (n =? 92)%N then String bslash (String bslash "")
  else if (n =? 8)%N then String bslash "b"
  else if (n =? 12)%N then String bslash "f"
  else if (n =? 10)%N then String bslash "n"
  else if (n =? 13)%N then String bslash "r"
  else if (n =? 9)%N then String bslash "t"
  else if ((n <? 32) || (n =? 60) || (n =? 62) || (n =? 38))%N
  then String bslash ("u00" +:+ String (hex_digit (n / 16)) (String (hex_digit (n mod 16)) ""))
  else String c "".

(** ** UTF-8 *)

(** What ranging over the bytes of a string meets: an ASCII character, the encoding of
    another one, or a byte at which no encoding starts. *)
Inductive rune := RAscii (c : ascii) | RMulti (bytes : string) | RInvalid (c : ascii).

Definition between (lo hi : N) (c : ascii) : bool := ((lo <=? code c) && (code c <=? hi))%N.
Definition continues : ascii → bool := between 128 191.

(** The first two bytes of an encoding of two, three and four bytes: no overlong
    encodings, no surrogates, nothing above U+10FFFF. *)
Definition lead2 (c1 c2 : ascii) : bool := between 194 223 c1 && continues c2.
Definition lead3 (c1 c2 : ascii) : bool :=
  if (code c1 =? 224)%N then between 160 191 c2
  else if (code c1 =? 237)%N then between 128 159 c2
  else between 225 239 c1 && continues c2.
Definition lead4 (c1 c2 : ascii) : bool :=
  if (code c1 =? 240)%N then between 144 191 c2
  else if (code c1 =? 244)%N then between 128 143 c2
  else between 241 243 c1 && continues c2.

Fixpoint runes (s : string) : list rune :=
  match s with
  | EmptyString => []
  | String c1 s1 =>
      if (code c1 <? 128)%N then RAscii c1 :: runes s1
      else match s1 with
      | String c2 s2 =>
          if lead2 c1 c2 then RMulti (String c1 (String c2 "")) :: runes s2
          else match s2 with
          | String c3 s3 =>
              if lead3 c1 c2 && continues c3 then RMulti (String c1 (String c2 (String c3 ""))) :: runes s3
              else match s3 with
              | String c4 s4 =>
                  if lead4 c1 c2 && continues c3 && continues c4
                  then RMulti (String c1 (String c2 (String c3 (String c4 "")))) :: runes s4
                  else RInvalid c1 :: runes s1
              | EmptyString => RInvalid c1 :: runes s1
              end
          | EmptyString => RInvalid c1 :: runes s1
          end
      | EmptyString => RInvalid c1 :: runes s1
      end
  end.

Definition runeBytes (r : rune) : string :=
  match r with RAscii c | RInvalid c => String c "" | RMulti b => b end.

Fixpoint flat {A} (f : A → string) (l : list A) : string :=
  match l with [] => "" | x :: l' => f x +:+ flat f l' end.

(** U+FFFD, the replacement character, as bytes. *)
Definition replacement : string := String (chr 239) (String (chr 191) (String (chr 189) "")).
Definition lineSeparator : string := String (chr 226) (String (chr 128) (String (chr 168) "")).
Definition paragraphSeparator : string := String (chr 226) (String (chr 128) (String (chr 169) "")).

(** A string as [json.Unmarshal] gives it back: bytes that are not UTF-8 replaced. *)
Definition validUTF8 (s : string) : string :=
  flat (λ r, match r with RInvalid _ => replacement | _ => runeBytes r end) (runes s).
Definition isUTF8 (s : string) : bool :=
  forallb (λ r, match r with RInvalid _ => false | _ => true end) (runes s).

(** How one of them is written, [bad] being the text of an invalid byte. *)
Definition escRune (bad : ascii → string) (r : rune) : string :=
  match r with
  | RAscii c => esc_char c
  | RMulti b =>
      if String.eqb b lineSeparator then String bslash "u2028"
      else if String.eqb b paragraphSeparator then String bslash "u2029"
      else b
  | RInvalid c => bad c
  end.

(** A Go string, and the text of a string inside a [json.RawMessage]. *)
Definition jsonBody (s : string) : string := flat (escRune (λ _, String bslash "ufffd")) (runes s).
Definition jsonText (s : string) : string := String dq (jsonBody s +:+ String dq "").

Definition esc_string (s : string) : string := flat (escRune (λ c, String c "")) (runes s).
Definition print_str (s : string) : string := String dq (esc_string s +:+ String dq "").

(** Comma-separated list of printed items. *)
Fixpoint commas (l : list string) : string :=
  match l with
  | [] => ""
  | [x] => x
  | x :: l' => x +:+ "," +:+ commas l'
  end.

Fixpoint print (j : json) : string :=
  match j with
  | JNull => "null"
  | JBool true => "true"
  | JBool false => "false"
  | JNum lit => lit
  | JStr s => print_str s
  | JArr l => "[" +:+ commas ((fix go l := match l with [] => [] | x :: l' => print x :: go l' end) l) +:+ "]"
  | JObj l => "{" +:+ commas ((fix go l := match l with
                | [] => [] | (k, x) :: l' => (print_str k +:+ ":" +:+ print x) :: go l' end) l) +:+ "}"
  end.

(** ** Parsing *)

(** UTF-8 encoding of a code point, for [\u] escapes. *)
Definition utf8 (r : N) : string :=
  if (r <? 128)%N then String (chr r) ""
  else if (r <? 2048)%N then String (chr (192 + r / 64)) (String (chr (128 + r mod 64)) "")
  else if (r <? 65536)%N then
    String (chr (224 + r / 4096)) (String (chr (128 + r / 64 mod 64)) (String (chr (128 + r mod 64)) ""))
  else String (chr (240 + r / 262144)) (String (chr (128 + r / 4096 mod 64))
         (String (chr (128 + r / 64 mod 64)) (String (chr (128 + r mod 64)) ""))).

Definition hex4 (a b c d : ascii) : option N :=
  match hex_val a, hex_val b, hex_val c, hex_val d with
  | Some a', Some b', Some c', Some d' => Some (4096 * a' + 256 * b' + 16 * c' + d')%N
  | _, _, _, _ => None
  end.

Definition simple_escape (e : ascii) : option ascii :=
  let n := code e in
  if (n =? 34)%N then Some dq else if (n =? 92)%N then Some bslash
  else if (n =? 47)%N then Some e else if (n =? 98)%N then Some (chr 8)
  else if (n =? 102)%N then Some (chr 12) else if (n =? 110)%N then Some (chr 10)
  else if (n =? 114)%N then Some (chr 13) else if (n =? 116)%N then Some (chr 9) else None.

Definition is_surrogate (r : N) : bool := ((55296 <=? r) && (r <? 57344))%N.

(** The characters after the opening quote, up to the closing one.  A surrogate
    half that is not followed by its partner becomes U+FFFD, as in Go. *)
Fixpoint parse_str (s : string) : option (string * string) :=
  match s with
  | EmptyString => None
  | String c s1 =>
      if (code c =? 34)%N then Some ("", s1)
      else if (code c =? 92)%N then
        match s1 with
        | EmptyString => None
        | String e s2 =>
            if (code e =? 117)%N then
              match s2 with
              | String a (String b (String c' (String d rest))) =>
                  match hex4 a b c' d with
                  | None => None
                  | Some r =>
                      if is_surrogate r then
                        match rest with
                        | String b1 (String u1 (String a2 (String b2 (String c2 (String d2 rest2))))) =>
                            match hex4 a2 b2 c2 d2 with
                            | Some r2 =>
                                if ((code b1 =? 92) && (code u1 =? 117) && (r <? 56320)
                                    && (56320 <=? r2) && (r2 <? 57344))%N
                                then match parse_str rest2 with
                                     | Some (t, k) => Some (utf8 (65536 + (r - 55296) * 1024 + (r2 - 56320)) +:+ t, k)
                                     | None => None end
                                else match parse_str rest with
                                     | Some (t, k) => Some (utf8 65533 +:+ t, k) | None => None end
                            | None => match parse_str rest with
                                      | Some (t, k) => Some (utf8 65533 +:+ t, k) | None => None end
                            end
                        | _ => match parse_str rest with
                               | Some (t, k) => Some (utf8 65533 +:+ t, k) | None => None end
                        end
                      else match parse_str rest with
                           | Some (t, k) => Some (utf8 r +:+ t, k) | None => None end
                  end
              | _ => None
              end
            else match simple_escape e with
                 | Some x => match parse_str s2 with
                             | Some (t, k) => Some (String x t, k) | None => None end
                 | None => None
                 end
        end
      else if (code c <? 32)%N then None
      else match parse_str s1 with
           | Some (t, k) => Some (String c t, k)
           | None => None
           end
  end.

Definition is_ws (c : ascii) : bool :=
  let n := code c in ((n =? 32) || (n =? 9) || (n =? 10) || (n =? 13))%N.
Fixpoint skip_ws (s : string) : string :=
  match s with String c s' => if is_ws c then skip_ws s' else s | EmptyString => "" end.

(** Numbers: maximal munch over the characters of a literal, then the grammar. *)
Definition is_num_char (c : ascii) : bool :=
  let n := code c in
  (((48 <=? n) && (n <=? 57)) || (n =? 43) || (n =? 45) || (n =? 46) || (n =? 69) || (n =? 101))%N.
Definition is_digit (c : ascii) : bool := let n := code c in ((48 <=? n) && (n <=? 57))%N.

Fixpoint munch (s : string) : string * string :=
  match s with
  | String c s' => if is_num_char c then let '(a, b) := munch s' in (String c a, b) else ("", s)
  | EmptyString => ("", "")
  end.

Inductive num_state := NStart | NMinus | NZero | NInt | NDot | NFrac | NE | NESign | NExp.
Definition num_step (q : num_state) (c : ascii) : option num_state :=
  let n := code c in
  match q with
  | NStart => if (n =? 45)%N then Some NMinus else if (n =? 48)%N then Some NZero
              else if is_digit c then Some NInt else None
  | NMinus => if (n =? 48)%N then Some NZero else if is_digit c then Some NInt else None
  | NZero => if (n =? 46)%N then Some NDot else if ((n =? 69) || (n =? 101))%N then Some NE else None
  | NInt => if is_digit c then Some NInt else if (n =? 46)%N then Some NDot
            else if ((n =? 69) || (n =? 101))%N then Some NE else None
  | NDot => if is_digit c then Some NFrac else None
  | NFrac => if is_digit c then Some NFrac else if ((n =? 69) || (n =? 101))%N then Some NE else None
  | NE => if ((n =? 43) || (n =? 45))%N then Some NESign else if is_digit c then Some NExp else None
  | NESign | NExp => if is_digit c then Some NExp else None
  end.
Fixpoint num_run (q : num_state) (s : string) : bool :=
  match s with
  | EmptyString => match q with NZero | NInt | NFrac | NExp => true | _ => false end
  | String c s' => match num_step q c with Some q' => num_run q' s' | None => false end
  end.
Definition valid_number (s : string) : bool := num_run NStart s.

Fixpoint drop_prefix (p s : string) : option string :=
  match p, s with
  | EmptyString, _ => Some s
  | String a p', String c s' => if Ascii.eqb a c then drop_prefix p' s' else None
  | String _ _, EmptyString => None
  end.

(** Recursive descent.  Each call that recurses has consumed a character, so
    the length of the text is enough fuel ([parse]). *)
Fixpoint parse_value (fuel : nat) (s : string) : option (json * string) :=
  match fuel with
  | O => None
  | S f =>
      match skip_ws s with
      | EmptyString => None
      | String c s1 =>
          let n := code c in
          if (n =? 123)%N then
            match skip_ws s1 with
            | String c2 s2 =>
                if (code c2 =? 125)%N then Some (JObj [], s2)
                else match parse_members f (String c2 s2) with
                     | Some (ms, k) => Some (JObj ms, k) | None => None end
            | EmptyString => None
            end
          else if (n =? 91)%N then
            match skip_ws s1 with
            | String c2 s2 =>
                if (code c2 =? 93)%N then Some (JArr [], s2)
                else match parse_elems f (String c2 s2) with
                     | Some (es, k) => Some (JArr es, k) | None => None end
            | EmptyString => None
            end
          else if (n =? 34)%N then
            match parse_str s1 with Some (t, k) => Some (JStr t, k) | None => None end
          else if (n =? 116)%N then
            match drop_prefix "rue" s1 with Some k => Some (JBool true, k) | None => None end
          else if (n =? 102)%N then
            match drop_prefix "alse" s1 with Some k => Some (JBool false, k) | None => None end
          else if (n =? 110)%N then
            match drop_prefix "ull" s1 with Some k => Some (JNull, k) | None => None end
          else
            let '(lit, k) := munch (String c s1) in
            if valid_number lit then Some (JNum lit, k) else None
      end
  end
with parse_members (fuel : nat) (s : string) : option (list (string * json) * string) :=
  match fuel with
  | O => None
  | S f =>
      match skip_ws s with
      | String c s1 =>
          if (code c =? 34)%N then
            match parse_str s1 with
            | Some (key, s2) =>
                match skip_ws s2 with
                | String c3 s3 =>
                    if (code c3 =? 58)%N then
                      match parse_value f s3 with
                      | Some (v, s4) =>
                          match skip_ws s4 with
                          | String c5 s5 =>
                              if (code c5 =? 125)%N then Some ([(key, v)], s5)
                              else if (code c5 =? 44)%N then
                                match parse_members f s5 with
                                | Some (ms, k) => Some ((key, v) :: ms, k) | None => None end
                              else None
                          | EmptyString => None
                          end
                      | None => None
                      end
                    else None
                | EmptyString => None
                end
            | None => None
            end
          else None
      | EmptyString => None
      end
  end
with parse_elems (fuel : nat) (s : string) : option (list json * string) :=
  match fuel with
  | O => None
  | S f =>
      match parse_value f s with
      | Some (v, s4) =>
          match skip_ws s4 with
          | String c5 s5 =>
              if (code c5 =? 93)%N then Some ([v], s5)
              else if (code c5 =? 44)%N then
                match parse_elems f s5 with
                | Some (es, k) => Some (v :: es, k) | None => None end
              else None
          | EmptyString => None
          end
      | None => None
      end
  end.

Definition parse (s : string) : option json :=
  match parse_value (S (2 * String.length s)) s with
  | Some (j, k) => match skip_ws k with EmptyString => Some j | _ => None end
  | None => None
  end.

(** ** The round trip *)

#[local] Arguments String.append : simpl nomatch.

Lemma str_app_assoc (a b c : string) : (a +:+ b) +:+ c = a +:+ (b +:+ c).
Proof. induction a as [|x a IH]; simpl; [done|]. by rewrite IH. Qed.

Lemma str_app_nil_r (a : string) : a +:+ "" = a.
Proof. induction a as [|x a IH]; simpl; [done|]. by rewrite IH. Qed.

Lemma str_length_app (a b : string) :
  String.length (a +:+ b) = (String.length a + String.length b)%nat.
Proof. induction a as [|x a IH]; simpl; [done|]. by rewrite IH. Qed.

(** *** The runes of a string *)

Definition highByte (c : ascii) : Prop := (128 ≤ code c)%N.
Fixpoint highBytes (s : string) : Prop :=
  match s with EmptyString => True | String c s' => highByte c ∧ highBytes s' end.
Definition goodRune (r : rune) : Prop :=
  match r with RAscii _ => True | RMulti b => b ≠ "" ∧ highBytes b | RInvalid c => highByte c end.

Lemma between_high lo hi c : (128 ≤ lo)%N → between lo hi c = true → highByte c.
Proof. unfold between, highByte. intros Hlo [H%N.leb_le _]%andb_true_iff. lia. Qed.
Lemma continues_high c : continues c = true → highByte c.
Proof. by apply between_high. Qed.
Lemma lead_high c1 c2 : (lead2 c1 c2 || lead3 c1 c2 || lead4 c1 c2)%bool = true → highByte c2.
Proof.
  unfold lead2, lead3, lead4. intros [[H|H]%orb_true_iff|H]%orb_true_iff; repeat case_match;
    first [by (eapply between_high; [|exact H]; lia)|apply andb_true_iff in H as [_ H]; by apply continues_high].
Qed.

(** The first rune of a string, and those of the rest. *)
Lemma runes_cons c s : ∃ r s', String c s = runeBytes r +:+ s' ∧ goodRune r ∧
  runes (String c s) = r :: runes s' ∧ (String.length s' ≤ String.length s)%nat.
Proof.
  cbn [runes]. destruct (code c <? 128)%N eqn:Ec; [by exists (RAscii c), s|].
  assert (highByte c) as Hc by (by apply N.ltb_ge).
  destruct s as [|c2 s2]; [by exists (RInvalid c), ""|].
  destruct (lead2 c c2) eqn:E2.
  { exists (RMulti (String c (String c2 ""))), s2. pose proof (lead_high c c2) as Hh. rewrite E2 in Hh.
    split_and!; [done|..|done|simpl; lia]. simpl. split_and!; auto. }
  destruct s2 as [|c3 s3]; [by exists (RInvalid c), (String c2 "")|].
  destruct (lead3 c c2 && continues c3) eqn:E3.
  { apply andb_true_iff in E3 as [E3 H3%continues_high]. pose proof (lead_high c c2) as Hh. rewrite E3, orb_true_r in Hh.
    exists (RMulti (String c (String c2 (String c3 "")))), s3. split_and!; [done|..|done|simpl; lia]. simpl. split_and!; auto. }
  destruct s3 as [|c4 s4]; [by exists (RInvalid c), (String c2 (String c3 ""))|].
  destruct (lead4 c c2 && continues c3 && continues c4) eqn:E4; [|by exists (RInvalid c), (String c2 (String c3 (String c4 s4)))].
  apply andb_true_iff in E4 as [[E4 H3%continues_high]%andb_true_iff H4%continues_high].
  pose proof (lead_high c c2) as Hh. rewrite E4, orb_true_r in Hh.
  exists (RMulti (String c (String c2 (String c3 (String c4 ""))))), s4.
  split_and!; [done|..|done|simpl; lia]. simpl. split_and!; auto.
Qed.

(** Induction along the runes. *)
Lemma runes_ind (P : string → Prop) :
  P "" → (∀ r s, goodRune r → runes (runeBytes r +:+ s) = r :: runes s → P s → P (runeBytes r +:+ s)) → ∀ s, P s.
Proof.
  intros H0 Hs s. remember (String.length s) as n eqn:En. revert s En.
  induction (lt_wf n) as [n _ IH]. intros [|c s] ->; [done|].
  destruct (runes_cons c s) as (r & s' & He & Hr & Hrs & Hl). rewrite He in *. apply Hs; [done..|].
  eapply IH; [|done]. rewrite <-He. simpl. lia.
Qed.

Lemma validUTF8_id s : isUTF8 s = true → validUTF8 s = s.
Proof.
  unfold validUTF8, isUTF8. induction s as [|r s Hr Hrs IH] using runes_ind; [done|]. rewrite Hrs. cbn [flat forallb].
  intros [Hv ?]%andb_true_iff. rewrite IH by done. by destruct r.
Qed.

Lemma jsonBody_nil s : jsonBody s = "" → s = "".
Proof.
  destruct s as [|c s]; [done|]. unfold jsonBody. destruct (runes_cons c s) as (r & s' & _ & Hr & -> & _). cbn [flat].
  destruct r as [x|b|x]; cbn [escRune]; [|repeat case_match; try done; by destruct b, Hr|done].
  by destruct x as [[] [] [] [] [] [] [] []].
Qed.

(** *** Reading strings *)

(** The rest of a string after some of its characters. *)
Definition prepend (p : string) (r : option (string * string)) : option (string * string) :=
  match r with Some (t, k) => Some (p +:+ t, k) | None => None end.

Lemma parse_str_high b : ∀ rest, highBytes b → parse_str (b +:+ rest) = prepend b (parse_str rest).
Proof.
  induction b as [|c b IH]; intros rest Hb; [by change ("" +:+ rest) with rest; destruct (parse_str rest) as [[]|]|]. destruct Hb as [Hc Hb]. unfold highByte in Hc.
  cbn [String.append parse_str]. rewrite (proj2 (N.eqb_neq (code c) 34)), (proj2 (N.eqb_neq (code c) 92)), (proj2 (N.ltb_ge (code c) 32)) by lia.
  rewrite IH by done. by destruct (parse_str rest) as [[]|].
Qed.

(** A rune that was written, read again: [bad] may be any text that reads as [good]. *)
Lemma parse_str_rune bad good r rest : goodRune r →
  (∀ c rest', highByte c → parse_str (bad c +:+ rest') = prepend (good c) (parse_str rest')) →
  parse_str (escRune bad r +:+ rest) = prepend (match r with RInvalid c => good c | _ => runeBytes r end) (parse_str rest).
Proof.
  intros Hr Hbad. destruct r as [c|b|c]; cbn [escRune runeBytes goodRune] in *; [|destruct Hr as [_ Hr]|by apply Hbad].
  - destruct c as [[] [] [] [] [] [] [] []]; reflexivity.
  - destruct (String.eqb b lineSeparator) eqn:E1; [by apply String.eqb_eq in E1 as ->|].
    destruct (String.eqb b paragraphSeparator) eqn:E2; [by apply String.eqb_eq in E2 as ->|]. by apply parse_str_high.
Qed.

Lemma parse_str_body s k : parse_str (jsonBody s +:+ String dq k) = Some (validUTF8 s, k).
Proof.
  unfold jsonBody, validUTF8. induction s as [|r s Hr Hrs IH] using runes_ind; [reflexivity|].
  rewrite Hrs. cbn [flat]. rewrite str_app_assoc, (parse_str_rune _ (λ _, replacement)), IH by done. done.
Qed.

Lemma parse_str_print s k : parse_str (esc_string s +:+ String dq k) = Some (s, k).
Proof.
  unfold esc_string. induction s as [|r s Hr Hrs IH] using runes_ind; [reflexivity|].
  rewrite Hrs. cbn [flat]. rewrite str_app_assoc, (parse_str_rune _ (λ c, String c "")), IH; [by destruct r|done|].
  intros c rest Hc. by apply (parse_str_high (String c "")).
Qed.

(** A text a number literal may be followed by. *)
Definition delimited (s : string) : Prop :=
  match s with EmptyString => True | String c _ => is_num_char c = false end.

(** Boolean tests on [N] in the hypotheses as propositions. *)
Ltac nbool :=
  repeat match goal with
  | H : (_ || _)%bool = true |- _ => apply orb_true_iff in H
  | H : (_ || _)%bool = false |- _ => apply orb_false_iff in H as [? ?]
  | H : (_ && _)%bool = true |- _ => apply andb_true_iff in H as [? ?]
  | H : (_ && _)%bool = false |- _ => apply andb_false_iff in H
  | H : (_ =? _)%N = true |- _ => apply N.eqb_eq in H
  | H : (_ =? _)%N = false |- _ => apply N.eqb_neq in H
  | H : (_ <=? _)%N = true |- _ => apply N.leb_le in H
  | H : (_ <=? _)%N = false |- _ => apply N.leb_gt in H
  | H : _ ∨ _ |- _ => destruct H
  end.

Lemma num_step_char q c q' : num_step q c = Some q' → is_num_char c = true.
Proof.
  unfold num_step, is_num_char, is_digit. generalize (code c) as n. intros n H.
  match goal with |- ?b = true => destruct b eqn:E; [done|exfalso] end.
  destruct q; simpl in H; split_ifs; nbool; lia.
Qed.

Lemma munch_number lit : ∀ q rest,
  num_run q lit = true → delimited rest → munch (lit +:+ rest) = (lit, rest).
Proof.
  induction lit as [|c lit IH]; intros q rest Hrun Hd.
  - destruct rest as [|c rest]; [reflexivity|]. simpl in *. by rewrite Hd.
  - simpl in *. destruct (num_step q c) as [q'|] eqn:Hs; [|done].
    rewrite (num_step_char _ _ _ Hs). by rewrite (IH q' rest).
Qed.

Fixpoint wf_json (j : json) : bool :=
  match j with
  | JNum lit => valid_number lit
  | JArr l => (fix go l := match l with [] => true | x :: l' => wf_json x && go l' end) l
  | JObj l => (fix go l := match l with [] => true | (_, x) :: l' => wf_json x && go l' end) l
  | _ => true
  end.

(** The first character of a printed value: not white space, not a closing bracket. *)
Definition starts_value (c : ascii) : bool :=
  negb (is_ws c) && negb (code c =? 93)%N && negb (code c =? 125)%N.

(** A number literal starts with a minus sign or a digit, so with none of the
    characters the parser dispatches on. *)
Lemma num_start c s : num_run NStart (String c s) = true →
  is_ws c = false ∧
  Forall (λ n, (code c =? n)%N = false) [123; 91; 34; 116; 102; 110; 93; 125]%N.
Proof.
  simpl. intros H.
  assert (((code c =? 45) || is_digit c)%N = true) as Hc.
  { unfold num_step in H. destruct (code c =? 45)%N; [done|]. simpl.
    destruct (code c =? 48)%N eqn:E48.
    - apply N.eqb_eq in E48. unfold is_digit. by rewrite E48.
    - by destruct (is_digit c). }
  clear H. revert Hc. unfold is_ws, is_digit. generalize (code c) as n. intros n Hc.
  apply orb_true_iff in Hc as [Hc|Hc];
    [apply N.eqb_eq in Hc as ->; split; [done|by repeat constructor]|].
  apply andb_true_iff in Hc as [H1%N.leb_le H2%N.leb_le].
  split.
  - repeat (apply orb_false_iff; split); apply N.eqb_neq; lia.
  - repeat constructor; apply N.eqb_neq; lia.
Qed.

Lemma print_head j : wf_json j = true →
  ∃ c s, print j = String c s ∧ starts_value c = true.
Proof.
  destruct j as [|[]|lit|s|l|l]; simpl; intros Hwf; try (eexists _, _; split; reflexivity).
  destruct lit as [|c lit]; [done|].
  apply num_start in Hwf as [Hws Hf]. exists c, lit. split; [done|].
  unfold starts_value. rewrite Hws. rewrite Forall_forall in Hf.
  rewrite (Hf 93%N), (Hf 125%N); [done|set_solver..].
Qed.

Lemma skip_ws_head c s : is_ws c = false → skip_ws (String c s) = String c s.
Proof. simpl. by intros ->. Qed.

Lemma skip_ws_print j rest : wf_json j = true →
  skip_ws (print j +:+ rest) = print j +:+ rest.
Proof.
  intros (c & s & -> & Hc)%print_head. apply skip_ws_head.
  unfold starts_value in Hc. by destruct (is_ws c).
Qed.

(** A text that is read as a value, whatever follows it. *)
Definition reads (t : string) (j : json) : Prop := ∀ fuel rest,
  (2 * String.length t < fuel)%nat → delimited rest → parse_value fuel (t +:+ rest) = Some (j, rest).
Definition parses (j : json) : Prop := reads (print j) j.

Definition elems_text (l : list json) : list string := print <$> l.
(** The members of an object, given by their names and their texts. *)
Definition memberTexts (ms : list (string * string)) : list string := (λ m, print_str m.1 +:+ ":" +:+ m.2) <$> ms.
Definition objText (ms : list (string * string)) : string := "{" +:+ commas (memberTexts ms) +:+ "}".
Definition texts (l : list (string * json)) : list (string * string) := (λ kv, (kv.1, print kv.2)) <$> l.

Lemma print_arr l : print (JArr l) = "[" +:+ commas (elems_text l) +:+ "]".
Proof. reflexivity. Qed.
Lemma print_obj l : print (JObj l) = objText (texts l).
Proof.
  cbn [print]. unfold objText. do 2 f_equal. f_equal. unfold memberTexts, texts.
  induction l as [|[k x] l IH]; [done|]. exact (f_equal (cons _) IH).
Qed.

Lemma wf_arr l : wf_json (JArr l) = true → Forall (λ x, wf_json x = true) l.
Proof.
  cbn [wf_json]. induction l as [|x l IH]; [by constructor|].
  intros [? ?]%andb_true_iff. constructor; auto.
Qed.
Lemma wf_obj l : wf_json (JObj l) = true → Forall (λ kv, wf_json kv.2 = true) l.
Proof.
  cbn [wf_json]. induction l as [|[k x] l IH]; [by constructor|].
  intros [? ?]%andb_true_iff. constructor; auto.
Qed.

Lemma parse_elems_print l : ∀ fuel rest,
  l ≠ [] → Forall (λ x, wf_json x = true ∧ parses x) l →
  (2 * String.length (commas (elems_text l)) + 1 < fuel)%nat →
  parse_elems fuel (commas (elems_text l) +:+ String "]"%char rest) = Some (l, rest).
Proof.
  induction l as [|x l IH]; intros fuel rest Hne Hf Hfuel; [done|].
  apply Forall_cons in Hf as [[Hwf Hx] Hf].
  destruct fuel as [|fuel]; [lia|].
  destruct l as [|y l].
  - cbn -[print] in *. rewrite Hx by (done || lia). done.
  - change (commas (elems_text (x :: y :: l)))
      with (print x +:+ "," +:+ commas (elems_text (y :: l))) in *.
    rewrite !str_length_app in Hfuel. cbn [String.length] in Hfuel.
    cbn [parse_elems].
    rewrite !str_app_assoc. rewrite Hx by (done || lia).
    cbn -[print commas elems_text parse_elems String.append].
    change (skip_ws ("," +:+ ?t)) with ("," +:+ t). cbn -[print commas elems_text parse_elems].
    rewrite IH; [done|done|done|lia].
Qed.

Lemma parse_members_str fuel t : parse_members (S fuel) (String dq t) =
  match parse_str t with
  | Some (key, s2) =>
      match skip_ws s2 with
      | String c3 s3 =>
          if (code c3 =? 58)%N then
            match parse_value fuel s3 with
            | Some (v, s4) =>
                match skip_ws s4 with
                | String c5 s5 =>
                    if (code c5 =? 125)%N then Some ([(key, v)], s5)
                    else if (code c5 =? 44)%N then
                      match parse_members fuel s5 with
                      | Some (ms, k) => Some ((key, v) :: ms, k) | None => None end
                    else None
                | EmptyString => None
                end
            | None => None
            end
          else None
      | EmptyString => None
      end
  | None => None
  end.
Proof. reflexivity. Qed.

Lemma parse_value_str fuel t : parse_value (S fuel) (String dq t) =
  match parse_str t with Some (u, k) => Some (JStr u, k) | None => None end.
Proof. reflexivity. Qed.

Lemma parse_value_arr fuel c t : is_ws c = false → (code c =? 93)%N = false →
  parse_value (S fuel) (String "["%char (String c t)) =
  match parse_elems fuel (String c t) with Some (es, k) => Some (JArr es, k) | None => None end.
Proof.
  intros Hws Hc.
  change (parse_value (S fuel) (String "["%char (String c t))) with
    (match skip_ws (String c t) with
     | String c2 s2 =>
         if (code c2 =? 93)%N then Some (JArr [], s2)
         else match parse_elems fuel (String c2 s2) with
              | Some (es, k) => Some (JArr es, k) | None => None end
     | EmptyString => None
     end).
  rewrite skip_ws_head by done. by rewrite Hc.
Qed.

Lemma parse_value_obj fuel t :
  parse_value (S fuel) (String "{"%char (String dq t)) =
  match parse_members fuel (String dq t) with Some (ms, k) => Some (JObj ms, k) | None => None end.
Proof. reflexivity. Qed.

Lemma print_str_app s t : print_str s +:+ t = String dq (esc_string s +:+ String dq t).
Proof. unfold print_str. cbn. f_equal. by rewrite str_app_assoc. Qed.

Lemma commas_head (f : string) l : commas (f :: l) = f +:+ match l with [] => "" | _ => "," +:+ commas l end.
Proof. destruct l; simpl; [by rewrite str_app_nil_r|done]. Qed.

(** Members whose texts are read as values. *)
Definition readsAll (ms : list (string * string)) (l : list (string * json)) : Prop :=
  Forall2 (λ m kv, m.1 = kv.1 ∧ reads m.2 kv.2) ms l.

Lemma parse_members_reads ms l : readsAll ms l → ∀ fuel rest, ms ≠ [] →
  (2 * String.length (commas (memberTexts ms)) + 1 < fuel)%nat →
  parse_members fuel (commas (memberTexts ms) +:+ String "}"%char rest) = Some (l, rest).
Proof.
  induction 1 as [|[key x] [key' j] ms l [Hk Hx] Hl IH]; intros fuel rest Hne Hfuel; [done|]. cbn [fst snd] in *. subst key'.
  destruct fuel as [|fuel]; [lia|].
  change (memberTexts ((key, x) :: ms)) with ((print_str key +:+ ":" +:+ x) :: memberTexts ms) in *.
  rewrite commas_head, str_app_assoc in *. rewrite !str_length_app in Hfuel. cbn [String.length] in Hfuel.
  rewrite str_app_assoc, print_str_app, parse_members_str, parse_str_print.
  match goal with |- context [skip_ws ((":" +:+ x) +:+ ?t)] =>
    change (skip_ws ((":" +:+ x) +:+ t)) with (String ":"%char (x +:+ t)) end.
  cbv iota beta. change (code ":" =? 58)%N with true. cbv iota.
  destruct ms as [|m ms]; [apply Forall2_nil_inv_l in Hl as ->; rewrite Hx by (done || lia); reflexivity|].
  rewrite Hx; [|lia|done]. cbn [memberTexts fmap list_fmap] in *. rewrite str_app_assoc. change (skip_ws ("," +:+ ?t)) with ("," +:+ t).
  cbn -[commas parse_members print_str memberTexts] in *. rewrite IH; [done|done|lia].
Qed.

(** An object whose members are read is read. *)
Lemma reads_obj ms l : readsAll ms l → ms ≠ [] → reads (objText ms) (JObj l).
Proof.
  intros Hms Hne fuel rest Hfuel _. unfold objText in *. rewrite !str_length_app in Hfuel. cbn [String.length] in Hfuel.
  destruct fuel as [|fuel]; [lia|].
  assert (∃ s', commas (memberTexts ms) = String dq s') as [s' Hs].
  { destruct ms as [|m ms]; [done|]. cbn [memberTexts fmap list_fmap]. rewrite commas_head. by eexists. }
  rewrite !str_app_assoc. change ("}" +:+ rest) with (String "}"%char rest).
  pose proof (parse_members_reads ms l Hms fuel rest Hne ltac:(lia)) as Hel. rewrite Hs in Hel |- *. cbn [String.append] in *.
  rewrite parse_value_obj. by rewrite Hel.
Qed.

Lemma reads_jsonText s : reads (jsonText s) (JStr (validUTF8 s)).
Proof.
  intros [|fuel] rest Hfuel _; [lia|]. unfold jsonText. cbn [String.append]. rewrite str_app_assoc, parse_value_str.
  change (String dq "" +:+ rest) with (String dq rest). by rewrite parse_str_body.
Qed.

(** A value at the front of two equal texts is the same text in both. *)
Lemma append_inj_r (a b rest : string) : a +:+ rest = b +:+ rest → a = b.
Proof.
  revert b. induction a as [|x a IH]; intros [|y b] He; [done|..].
  - apply (f_equal String.length) in He. rewrite !str_length_app in He. simpl in He. lia.
  - apply (f_equal String.length) in He. rewrite !str_length_app in He. simpl in He. lia.
  - simpl in He. simplify_eq. f_equal. by apply IH.
Qed.

Lemma reads_peel t j t' j' rest rest' : reads t j → reads t' j' → delimited rest → delimited rest' →
  t +:+ rest = t' +:+ rest' → t = t' ∧ j = j' ∧ rest = rest'.
Proof.
  intros Ht Ht' Hr Hr' He.
  pose proof (Ht (S (2 * (String.length t + String.length t'))) rest ltac:(lia) Hr) as H1.
  pose proof (Ht' (S (2 * (String.length t + String.length t'))) rest' ltac:(lia) Hr') as H2.
  rewrite He, H2 in H1. simplify_eq. split_and!; [by eapply append_inj_r|done..].
Qed.

(** Two objects with the same text have the same members, text by text. *)
Definition readable (m : string * string) : Prop := ∃ j, reads m.2 j.

Lemma members_inj ms : ∀ ms' rest rest', Forall readable ms → Forall readable ms' → ms ≠ [] → ms' ≠ [] →
  commas (memberTexts ms) +:+ String "}"%char rest = commas (memberTexts ms') +:+ String "}"%char rest' → ms = ms'.
Proof.
  induction ms as [|[k x] ms IH]; intros [|[k' x'] ms'] rest rest' Hf Hf' Hne Hne' He; [done..|].
  apply Forall_cons in Hf as [[j Hj] Hf], Hf' as [[j' Hj'] Hf']. clear Hne Hne'.
  change (memberTexts ((k, x) :: ms)) with ((print_str k +:+ ":" +:+ x) :: memberTexts ms) in He.
  change (memberTexts ((k', x') :: ms')) with ((print_str k' +:+ ":" +:+ x') :: memberTexts ms') in He.
  rewrite !commas_head, !str_app_assoc, !print_str_app in He. injection He as He.
  apply (f_equal parse_str) in He. rewrite !parse_str_print in He. simpl in He. injection He as -> He.
  apply (reads_peel x j x' j') in He as (-> & _ & He); [|done|done|by destruct ms|by destruct ms'].
  destruct ms as [|m ms], ms' as [|m' ms']; [done|by simplify_eq/=..|].
  f_equal. injection He as He. by eapply IH.
Qed.

Lemma objText_inj ms ms' : Forall readable ms → Forall readable ms' → ms ≠ [] → ms' ≠ [] → objText ms = objText ms' → ms = ms'.
Proof. intros ???? He. apply (inj (String.append "{")) in He. by eapply members_inj. Qed.

(** Strings that are valid UTF-8 have texts of their own. *)
Lemma jsonText_inj s s' : isUTF8 s = true → isUTF8 s' = true → jsonText s = jsonText s' → s = s'.
Proof.
  intros Hs Hs' He. rewrite <-(validUTF8_id s), <-(validUTF8_id s') by done.
  injection He as He. apply (f_equal parse_str) in He. rewrite !parse_str_body in He. by injection He.
Qed.

Lemma jsonText_nil s : jsonText s = jsonText "" → s = "".
Proof. intros [= He]. by apply jsonBody_nil, (append_inj_r _ "" (String dq "")). Qed.

Lemma parses_wf j : wf_json j = true → parses j.
Proof.
  induction j as [|b|lit|s|l IH|l IH] using json_ind'; intros Hwf fuel rest Hfuel Hd;
    (destruct fuel as [|fuel]; [lia|]).
  - done.
  - by destruct b.
  - cbn [print] in *. destruct lit as [|c lit]; [done|].
    destruct (num_start _ _ Hwf) as [Hws Hf]. rewrite Forall_forall in Hf.
    change (String c lit +:+ rest) with (String c (lit +:+ rest)).
    cbn [parse_value]. rewrite skip_ws_head by done. cbv zeta.
    rewrite (Hf 123%N), (Hf 91%N), (Hf 34%N), (Hf 116%N), (Hf 102%N), (Hf 110%N) by set_solver.
    change (String c (lit +:+ rest)) with (String c lit +:+ rest).
    rewrite (munch_number _ NStart) by done.
    change (valid_number (String c lit) = true) in Hwf. by rewrite Hwf.
  - cbn [print] in *. by rewrite print_str_app, parse_value_str, parse_str_print.
  - rewrite print_arr in *. rewrite !str_length_app in Hfuel. cbn [String.length] in Hfuel.
    apply wf_arr in Hwf. destruct l as [|x l]; [done|].
    assert (Forall (λ x, wf_json x = true ∧ parses x) (x :: l)) as Hall.
    { rewrite Forall_forall in *. intros y Hy. split; [by apply Hwf|]. apply IH; auto. }
    destruct (print_head x) as (c & s & Hp & Hc); [by apply Forall_cons in Hwf as [? _]|].
    assert (∃ s', commas (elems_text (x :: l)) = String c s') as [s' Hs].
    { cbn [elems_text fmap list_fmap]. rewrite commas_head, Hp. by eexists. }
    unfold starts_value in Hc. apply andb_true_iff in Hc as [[Hc1 Hc2]%andb_true_iff _].
    apply negb_true_iff in Hc1, Hc2.
    rewrite !str_app_assoc. change ("]" +:+ rest) with (String "]"%char rest).
    pose proof (parse_elems_print (x :: l) fuel rest ltac:(done) Hall ltac:(lia)) as Hel.
    rewrite Hs in Hel |- *. cbn [String.append] in *.
    rewrite parse_value_arr by done. by rewrite Hel.
  - rewrite print_obj in *. apply wf_obj in Hwf. destruct l as [|kv l]; [done|]. apply reads_obj; [|done|done|done].
    unfold readsAll, texts. apply Forall2_fmap_l, Forall_Forall2_diag. rewrite Forall_forall in *.
    intros y Hy. split; [done|]. apply IH; [done|]. by apply Hwf.
Qed.

(** Parsing what was printed gives the value back. *)
Lemma parse_print j : wf_json j = true → parse (print j) = Some j.
Proof.
  intros Hwf. unfold parse. rewrite <-(str_app_nil_r (print j)) at 2.
  rewrite parses_wf; [done|done|lia|done].
Qed.

Lemma print_inj j1 j2 : wf_json j1 = true → wf_json j2 = true → print j1 = print j2 → j1 = j2.
Proof. intros H1%parse_print H2%parse_print Heq. rewrite Heq in H1. congruence. Qed.
