(* ===== verification/Codec.v ===== *)
(** * base64.RawURLEncoding, integer literals and struct decoding

    The byte-level helpers behind the opaque cursors of driver/pagination.go:
    unpadded URL-safe base64 (with Go's rule that carriage returns and line
    feeds are skipped), [strconv.ParseInt] on a JSON number, and the way
    [json.Unmarshal] assigns object members to struct fields (exact or ASCII
    case-insensitive name, members in order, [null] leaving the field alone). *)

From S2P Require Import Prelude GoBase Json.
From Stdlib Require Import Ascii ZArith Lia.
#[local] Arguments String.append : simpl nomatch.

(** ** base64.RawURLEncoding *)

Definition b64_char (n : N) : ascii :=
  if (n <? 26)%N then chr (65 + n)
  else if (n <? 52)%N then chr (71 + n)
  else if (n <? 62)%N then chr (n - 4)
  else if (n =? 62)%N then chr 45 else chr 95.

Definition b64_val (c : ascii) : option N :=
  let n := code c in
  if ((65 <=? n) && (n <=? 90))%N then Some (n - 65)%N
  else if ((97 <=? n) && (n <=? 122))%N then Some (n - 71)%N
  else if ((48 <=? n) && (n <=? 57))%N then Some (n + 4)%N
  else if (n =? 45)%N then Some 62%N
  else if (n =? 95)%N then Some 63%N else None.

Fixpoint EncodeToString (s : string) : string :=
  match s with
  | EmptyString => ""
  | String a EmptyString =>
      String (b64_char (code a / 4)) (String (b64_char (code a mod 4 * 16)) "")
  | String a (String b EmptyString) =>
      String (b64_char (code a / 4)) (String (b64_char (code a mod 4 * 16 + code b / 16))
        (String (b64_char (code b mod 16 * 4)) ""))
  | String a (String b (String c r)) =>
      String (b64_char (code a / 4)) (String (b64_char (code a mod 4 * 16 + code b / 16))
        (String (b64_char (code b mod 16 * 4 + code c / 64))
          (String (b64_char (code c mod 64)) (EncodeToString r))))
  end.

Definition byte3 (v1 v2 v3 v4 : N) : ascii * ascii * ascii :=
  (chr (v1 * 4 + v2 / 16), chr (v2 mod 16 * 16 + v3 / 4), chr (v3 mod 4 * 64 + v4))%N.

Fixpoint b64_decode (s : string) : option string :=
  match s with
  | EmptyString => Some ""
  | String _ EmptyString => None
  | String a (String b EmptyString) =>
      match b64_val a, b64_val b with
      | Some v1, Some v2 => Some (String (byte3 v1 v2 0 0).1.1 "")
      | _, _ => None
      end
  | String a (String b (String c EmptyString)) =>
      match b64_val a, b64_val b, b64_val c with
      | Some v1, Some v2, Some v3 =>
          Some (String (byte3 v1 v2 v3 0).1.1 (String (byte3 v1 v2 v3 0).1.2 ""))
      | _, _, _ => None
      end
  | String a (String b (String c (String d r))) =>
      match b64_val a, b64_val b, b64_val c, b64_val d, b64_decode r with
      | Some v1, Some v2, Some v3, Some v4, Some t =>
          Some (String (byte3 v1 v2 v3 v4).1.1 (String (byte3 v1 v2 v3 v4).1.2
                 (String (byte3 v1 v2 v3 v4).2 t)))
      | _, _, _, _, _ => None
      end
  end.

(** Line breaks are ignored by the decoder. *)
Fixpoint strip_crlf (s : string) : string :=
  match s with
  | EmptyString => ""
  | String c s' => if ((code c =? 10) || (code c =? 13))%N then strip_crlf s' else String c (strip_crlf s')
  end.

Definition DecodeString (s : string) : option string := b64_decode (strip_crlf s).

Lemma code_lt c : (code c < 256)%N.
Proof. apply Ascii.N_ascii_bounded. Qed.
Lemma chr_code c : chr (code c) = c.
Proof. apply Ascii.ascii_N_embedding. Qed.

Lemma b64_table :
  forallb (λ k, bool_decide (b64_val (b64_char k) = Some k)) (N.of_nat <$> seq 0 64) = true.
Proof. vm_compute. reflexivity. Qed.

Lemma b64_val_char n : (n < 64)%N → b64_val (b64_char n) = Some n.
Proof.
  intros Hn. pose proof b64_table as Hall. rewrite forallb_forall in Hall.
  apply (bool_decide_eq_true _), Hall, list_elem_of_In, list_elem_of_fmap.
  exists (N.to_nat n). split; [lia|]. apply elem_of_seq. lia.
Qed.

Ltac Zify.zify_post_hook ::= Z.to_euclidean_division_equations.

Lemma byte3_encode a b c : (a < 256 → b < 256 → c < 256 →
  byte3 (a / 4) (a mod 4 * 16 + b / 16) (b mod 16 * 4 + c / 64) (c mod 64) = (chr a, chr b, chr c))%N.
Proof. intros. unfold byte3. rewrite !pair_equal_spec. split_and!; f_equal; lia. Qed.

Lemma b64_roundtrip_len n : ∀ s, (String.length s ≤ n)%nat → b64_decode (EncodeToString s) = Some s.
Proof.
  induction n as [|n IH]; intros s Hlen; [by destruct s; simpl in *; [|lia]|].
  destruct s as [|a [|b [|c r]]]; [done|..]; pose proof (code_lt a);
    cbn [EncodeToString b64_decode].
  - rewrite !b64_val_char by lia.
    pose proof (byte3_encode (code a) 0 0 ltac:(lia) ltac:(lia) ltac:(lia)) as Hb.
    change (0 / 16)%N with 0%N in Hb. change (0 mod 16 * 4 + 0 / 64)%N with 0%N in Hb.
    change (0 mod 64)%N with 0%N in Hb. rewrite N.add_0_r in Hb. rewrite Hb. cbn. by rewrite chr_code.
  - pose proof (code_lt b). rewrite !b64_val_char by lia.
    pose proof (byte3_encode (code a) (code b) 0 ltac:(lia) ltac:(lia) ltac:(lia)) as Hb.
    change (0 / 64)%N with 0%N in Hb. change (0 mod 64)%N with 0%N in Hb.
    rewrite N.add_0_r in Hb. rewrite Hb. cbn. by rewrite !chr_code.
  - pose proof (code_lt b). pose proof (code_lt c). rewrite !b64_val_char by lia.
    rewrite IH by (simpl in Hlen; lia). rewrite byte3_encode by lia. cbn. by rewrite !chr_code.
Qed.

(** The alphabet contains no line break, so encoded text is not stripped. *)
Definition no_crlf (c : ascii) : bool := negb ((code c =? 10) || (code c =? 13))%N.

Lemma b64_char_no_crlf n : no_crlf (b64_char n) = true.
Proof.
  unfold no_crlf, b64_char.
  assert (∀ k, (14 ≤ k < 256)%N → negb ((code (chr k) =? 10) || (code (chr k) =? 13))%N = true) as Hk.
  { intros k Hk. unfold code, chr. rewrite Ascii.N_ascii_embedding by lia.
    rewrite (proj2 (N.eqb_neq k 10)), (proj2 (N.eqb_neq k 13)) by lia. done. }
  destruct (n <? 26)%N eqn:E1; [apply N.ltb_lt in E1; apply Hk; lia|].
  destruct (n <? 52)%N eqn:E2; [apply N.ltb_lt in E2; apply Hk; lia|].
  destruct (n <? 62)%N eqn:E3; [apply N.ltb_lt in E3; apply N.ltb_ge in E2; apply Hk; lia|].
  destruct (n =? 62)%N; apply Hk; lia.
Qed.

Lemma strip_cons c s : no_crlf c = true → strip_crlf (String c s) = String c (strip_crlf s).
Proof.
  unfold no_crlf. intros Hc%negb_true_iff. cbn [strip_crlf]. by rewrite Hc.
Qed.

Lemma strip_encode n : ∀ s, (String.length s ≤ n)%nat → strip_crlf (EncodeToString s) = EncodeToString s.
Proof.
  induction n as [|n IH]; intros s Hlen; [by destruct s; simpl in *; [|lia]|].
  destruct s as [|a [|b [|c r]]]; [done|..]; cbn [EncodeToString];
    rewrite !strip_cons by apply b64_char_no_crlf; cbn [strip_crlf]; try done.
  rewrite IH by (simpl in Hlen; lia). done.
Qed.

Lemma DecodeString_EncodeToString s : DecodeString (EncodeToString s) = Some s.
Proof.
  unfold DecodeString. rewrite (strip_encode (String.length s)) by done.
  by apply (b64_roundtrip_len (String.length s)).
Qed.

(** ** Integers in JSON *)

(** [strconv.ParseInt(lit, 10, 64)] on a JSON number literal. *)
Definition parse_signed (lit : string) : option Z :=
  match lit with
  | String c s => if (code c =? 45)%N
                  then match s with EmptyString => None | _ => Z.opp <$> parse_digits s 0 end
                  else parse_digits lit 0
  | EmptyString => None
  end.
Definition ParseInt64 (lit : string) : option Z :=
  match parse_signed lit with
  | Some z => if decide (is_int64 z) then Some z else None
  | None => None
  end.

Definition jint (z : Z) : json := JNum (FormatInt z).

Lemma code_digit_char d : 0 ≤ d < 10 → code (digit_char d) = Z.to_N (48 + d).
Proof. intros. unfold code, digit_char. apply Ascii.N_ascii_embedding. lia. Qed.

Lemma is_digit_digit_char d : 0 ≤ d < 10 → is_digit (digit_char d) = true.
Proof.
  intros Hd. unfold is_digit. rewrite code_digit_char by done.
  apply andb_true_iff. split; apply N.leb_le; lia.
Qed.

Lemma digits_fuel_run fuel : ∀ n acc,
  0 < n < 2 ^ Z.of_nat fuel → num_run NInt acc = true →
  ∃ d rest, 1 ≤ d < 10 ∧ digits_fuel fuel n acc = String (digit_char d) rest
            ∧ num_run NInt rest = true.
Proof.
  induction fuel as [|f IH]; intros n acc Hn Hacc; [simpl in Hn; lia|].
  cbn [digits_fuel].
  destruct (n <? 10) eqn:E; bool_to_prop.
  - exists (n mod 10), acc. split_and!; [lia|lia|done|done].
  - apply IH.
    + rewrite Nat2Z.inj_succ, Z.pow_succ_r in Hn by lia. lia.
    + cbn [num_run]. unfold num_step. rewrite is_digit_digit_char by lia. done.
Qed.

Lemma digits_valid n : 0 ≤ n →
  num_run NStart (digits_fuel (S (Z.to_nat (Z.log2 n))) n "") = true ∧
  num_run NMinus (digits_fuel (S (Z.to_nat (Z.log2 n))) n "") = true ∧
  ∃ c s, digits_fuel (S (Z.to_nat (Z.log2 n))) n "" = String c s ∧ (code c =? 45)%N = false.
Proof.
  intros Hn. destruct (decide (n = 0)) as [->|Hne]; [vm_compute; split_and!; eauto|].
  destruct (digits_fuel_run (S (Z.to_nat (Z.log2 n))) n "") as (d & rest & Hd & -> & Hr); [|done|].
  { split; [lia|]. rewrite Nat2Z.inj_succ, Z2Nat.id by apply Z.log2_nonneg.
    apply Z.log2_spec. lia. }
  assert ((code (digit_char d) =? 45)%N = false) as H45.
  { rewrite code_digit_char by lia. apply N.eqb_neq. lia. }
  assert ((code (digit_char d) =? 48)%N = false) as H48.
  { rewrite code_digit_char by lia. apply N.eqb_neq. lia. }
  cbn [num_run]. unfold num_step. rewrite H45, H48, is_digit_digit_char by lia.
  split_and!; [done|done|eauto].
Qed.

Lemma valid_FormatInt z : valid_number (FormatInt z) = true.
Proof.
  unfold FormatInt. destruct (z <? 0) eqn:E; bool_to_prop.
  - unfold valid_number. exact (proj1 (proj2 (digits_valid (- z) ltac:(lia)))).
  - exact (proj1 (digits_valid z ltac:(lia))).
Qed.

Lemma parse_signed_FormatInt z : parse_signed (FormatInt z) = Some z.
Proof.
  destruct (decide (z < 0)) as [Hneg|Hpos].
  - pose proof (parse_digits_FormatInt (- z) ltac:(lia)) as Hp.
    destruct (digits_valid (- z) ltac:(lia)) as (_ & _ & c & s & Hd & _).
    unfold FormatInt in *. rewrite (proj2 (Z.ltb_lt z 0)) by lia.
    rewrite (proj2 (Z.ltb_ge (- z) 0)) in Hp by lia. rewrite Hd in *.
    change (parse_signed ("-" +:+ String c s)) with (Z.opp <$> parse_digits (String c s) 0).
    rewrite Hp. simpl. f_equal. lia.
  - pose proof (parse_digits_FormatInt z ltac:(lia)) as Hp.
    destruct (digits_valid z ltac:(lia)) as (_ & _ & c & s & Hd & H45).
    unfold FormatInt in *. rewrite (proj2 (Z.ltb_ge z 0)) in * by lia. rewrite Hd in *.
    unfold parse_signed. by rewrite H45.
Qed.

Lemma ParseInt64_FormatInt z : is_int64 z → ParseInt64 (FormatInt z) = Some z.
Proof.
  intros Hz. unfold ParseInt64. rewrite parse_signed_FormatInt. by rewrite decide_True.
Qed.

(** ** Struct fields *)

Definition fold_char (c : ascii) : ascii :=
  let n := code c in if ((97 <=? n) && (n <=? 122))%N then chr (n - 32) else c.
Fixpoint fold_name (s : string) : string :=
  match s with EmptyString => "" | String c s' => String (fold_char c) (fold_name s') end.
Definition key_matches (field key : string) : bool :=
  bool_decide (fold_name field = fold_name key).

(** An [int] field: [None] is an unmarshal error.  [JNull] leaves the field. *)
Definition assign_int (cur : option Z) (v : json) : option Z :=
  match cur, v with
  | None, _ => None
  | Some z, JNull => Some z
  | Some _, JNum lit => ParseInt64 lit
  | Some _, _ => None
  end.
Definition assign_str (cur : option string) (v : json) : option string :=
  match cur, v with
  | None, _ => None
  | Some s, JNull => Some s
  | Some _, JStr s => Some s
  | Some _, _ => None
  end.

Fixpoint field_int (name : string) (ms : list (string * json)) (cur : option Z) : option Z :=
  match ms with
  | [] => cur
  | (k, v) :: ms' => field_int name ms' (if key_matches name k then assign_int cur v else cur)
  end.
Fixpoint field_str (name : string) (ms : list (string * json)) (cur : option string) : option string :=
  match ms with
  | [] => cur
  | (k, v) :: ms' => field_str name ms' (if key_matches name k then assign_str cur v else cur)
  end.
