(* ===== verification/Core.v ===== *)
(** * core/: jobs, retry policies, schedules and the worker registry

    [Retry]: the exponential, fixed and no-retry policies and the directive
    errors [Discard], [RetryAt], [RetryAfter].  [Registry]: the payload envelope
    and the type-erased dispatch with its upcaster chain.  A worker's argument
    type, its JSON decoding and its [Process] method are the application's:
    they are the arguments [T], [decode] and [work] of [RegisterWorker].  The
    cron expression parser of a third party is the argument of [Cron]. *)

From S2P Require Import Prelude GoBase Json Codec.
From Stdlib Require Import ZArith Lia.

(** ** core/job.go *)

Record Job (T : Type) := mkJob {
  job_ID : string;
  job_Queue : string;
  job_Args : T;
  job_AttemptNum : Z;
  job_MaxRetry : Z;
  job_CreatedAt : Instant;
  job_RunAt : Instant;
  job_WorkerID : string;
  job_Tags : list string;
  job_PipelineID : string;
  job_PayloadVersion : Z
}.
Arguments mkJob {T}.
Arguments job_ID {T}.
Arguments job_Args {T}.
Arguments job_AttemptNum {T}.
Arguments job_PayloadVersion {T}.

Record UniqueOpts := mkUniqueOpts {
  uo_ByArgs : bool;
  uo_Key : string;
  uo_ByQueue : bool;
  uo_ByPeriod : Duration;
  uo_Forever : bool
}.

Record InsertOpts := mkInsertOpts {
  io_Queue : string;
  io_Priority : Z;
  io_RunAt : Instant;
  io_UniqueOpts : option UniqueOpts;
  io_MaxRetry : option Z;
  io_Timeout : option Duration;
  io_Tags : list string;
  io_PipelineID : string;
  io_PayloadVersion : Z
}.

(** A JSON text rewritten to the next version. *)
Definition PayloadUpcaster : Type := string → result string.

(** The deprecated, ignored [Queue] field is kept for the shape only. *)
Record WorkerOpts := mkWorkerOpts {
  wo_Queue : string;
  wo_MaxRetry : Z;
  wo_Timeout : Duration;
  wo_Concurrency : Z;
  wo_PayloadVersion : Z;
  wo_Upcasters : gmap Z PayloadUpcaster
}.

Definition zeroWorkerOpts : WorkerOpts := mkWorkerOpts "" 0 0 0 0 ∅.

(** ** core/retry.go *)

(** A policy consults the clock at most once. *)
Definition RetryPolicy : Type := Z → error → Clock → Instant * Clock.

Record ExponentialRetry := mkExponentialRetry {
  er_Base : Duration;
  er_Max : Duration;
  er_Jitter : float64
}.

Definition DefaultRetryPolicy : ExponentialRetry := mkExponentialRetry Second (24 * Hour) f64_zero.

(** The doubling loop, at counter [n].  Each round doubles [delay], which starts
    at 1 or more and stays below [max], so 64 rounds always suffice. *)
Fixpoint retryLoop (fuel : nat) (n attempt max delay : Z) : Duration :=
  match fuel with
  | O => delay
  | S fuel' =>
      if (n <? attempt) && (delay <? max) then
        if durDiv max 2 <? delay then max
        else retryLoop fuel' (wrap64 (n + 1)) attempt max (durMul delay 2)
      else delay
  end.

Definition clampUnit (f : float64) : float64 :=
  let f := if f64_lt f f64_zero then f64_zero else f in
  if f64_lt f64_one f then f64_one else f.

(** [value] is what the random source returns, if it is asked. *)
Definition exponentialDelay `{FloatConv} (r : ExponentialRetry) (value : float64) (attempt : Z) : Duration :=
  let base := if er_Base r <=? 0 then Second else er_Base r in
  let max := if er_Max r <=? 0 then 24 * Hour else er_Max r in
  let delay := retryLoop 64 1 attempt max base in
  let delay := if max <? delay then max else delay in
  let jitter := clampUnit (er_Jitter r) in
  if f64_lt f64_zero jitter then
    let value := clampUnit value in
    let factor := f64_add (f64_sub f64_one jitter) (f64_mul (f64_mul (f64_of_int 2) jitter) value) in
    let jittered := f64_mul (f64_of_int delay) factor in
    if f64_le (f64_of_int max) jittered then max else f64_to_int64 jittered
  else delay.

Definition ExponentialNextRetryAt `{FloatConv} (r : ExponentialRetry) (value : float64) : RetryPolicy :=
  λ attempt _ clk, let '(now, clk') := Now clk in (Add now (exponentialDelay r value attempt), clk').

Definition FixedNextRetryAt (delay : Duration) : RetryPolicy :=
  λ _ _ clk, let '(now, clk') := Now clk in (Add now delay, clk').

Definition NoNextRetryAt : RetryPolicy := λ _ _ clk, (zeroTime, clk).

Definition Discard (err : option error) : error := EDiscard err.
Definition RetryAt (at_ : Instant) (err : option error) : error := ERetry err at_ 0.
Definition RetryAfter (delay : Duration) (err : option error) : error := ERetry err zeroTime delay.

(** [errors.As] walks the tree depth first. *)
Fixpoint AsDiscard (e : error) : bool :=
  match e with
  | EDiscard _ => true
  | EWrap _ e' _ | ERetry (Some e') _ _ => AsDiscard e'
  | EJoin es => (fix go (l : list error) : bool :=
      match l with [] => false | e' :: l' => AsDiscard e' || go l' end) es
  | _ => false
  end.

Fixpoint AsRetry (e : error) : option (Instant * Duration) :=
  match e with
  | ERetry _ at_ after => Some (at_, after)
  | EWrap _ e' _ | EDiscard (Some e') => AsRetry e'
  | EJoin es => (fix go (l : list error) : option (Instant * Duration) :=
      match l with
      | [] => None
      | e' :: l' => match AsRetry e' with Some r => Some r | None => go l' end
      end) es
  | _ => None
  end.

(** ** core/schedule.go *)

Definition Schedule : Type := Instant → Instant.

Definition Every (d : Duration) : Schedule :=
  λ last, if IsZero last then zeroTime else Add last d.

(** [parse] is the third-party parser; evaluation in a location is part of what
    the schedule it returns does. *)
Definition Cron (parse : string → result (Instant → Instant)) (expression : string) : result Schedule :=
  match parse expression with
  | Err e => Err (EWrap ("parse cron expression " +:+ quoted expression +:+ ": ") e "")
  | Ok next => Ok (λ last, if IsZero last then zeroTime else next last)
  end.

(** ** core/registry.go: the payload envelope *)

Definition versionField : string := "_goncordia_payload_version".
Definition payloadField : string := "payload".

(** A [*int] field: [None] is an unmarshal error; [null] resets the pointer. *)
Definition assign_intptr (cur : option (option Z)) (v : json) : option (option Z) :=
  match cur, v with
  | None, _ => None
  | Some _, JNull => Some None
  | Some _, JNum lit => Some <$> ParseInt64 lit
  | Some _, _ => None
  end.
Fixpoint field_intptr (name : string) (ms : list (string * json)) (cur : option (option Z))
  : option (option Z) :=
  match ms with
  | [] => cur
  | (k, v) :: ms' => field_intptr name ms' (if key_matches name k then assign_intptr cur v else cur)
  end.

(** A [json.RawMessage] field keeps the last value, [null] included. *)
Fixpoint field_raw (name : string) (ms : list (string * json)) (cur : option json) : option json :=
  match ms with
  | [] => cur
  | (k, v) :: ms' => field_raw name ms' (if key_matches name k then Some v else cur)
  end.

Definition EncodePayload (payload : string) (version : Z) : result string :=
  if version <=? 0 then Err (ENew "payload version must be positive")
  else if version =? 1 then Ok payload
  else match parse payload with
       | Some v => Ok (print (JObj [(versionField, jint version); (payloadField, v)]))
       | None => Err (ENew "json: error calling MarshalJSON for type json.RawMessage")
       end.

Definition DecodePayload (payload : string) : result (Z * string) :=
  match parse payload with
  | None => Err (ENew "invalid JSON")
  | Some JNull => Ok (1, payload)
  | Some (JObj ms) =>
      match field_intptr versionField ms (Some None) with
      | None => Err (ENew "json: cannot unmarshal payload version")
      | Some None => Ok (1, payload)
      | Some (Some version) =>
          match field_raw payloadField ms None with
          | Some v => if version <=? 0 then Err (ENew "invalid versioned payload envelope")
                      else Ok (version, print v)
          | None => Err (ENew "invalid versioned payload envelope")
          end
      end
  | Some _ => Err (ENew "json: cannot unmarshal into Go value of type core.payloadEnvelope")
  end.

(** ** core/registry.go: dispatch *)

Record RawJob := mkRawJob {
  rj_ID : string;
  rj_Queue : string;
  rj_Kind : string;
  rj_Args : string;
  rj_AttemptNum : Z;
  rj_MaxRetry : Z;
  rj_CreatedAt : Instant;
  rj_RunAt : Instant;
  rj_WorkerID : string;
  rj_Tags : list string;
  rj_PipelineID : string;
  rj_PayloadVersion : Z
}.

Definition setPayloadVersion (v : Z) (r : RawJob) : RawJob :=
  mkRawJob (rj_ID r) (rj_Queue r) (rj_Kind r) (rj_Args r) (rj_AttemptNum r) (rj_MaxRetry r)
    (rj_CreatedAt r) (rj_RunAt r) (rj_WorkerID r) (rj_Tags r) (rj_PipelineID r) v.

(** The upcaster loop, one round per version. *)
Fixpoint upcastLoop (fuel : nat) (kind : string) (opts : WorkerOpts) (current version : Z) (payload : string)
  : result string :=
  match fuel with
  | O => Ok payload
  | S fuel' =>
      if version <? current then
        match wo_Upcasters opts !! version with
        | None => Err (Discard (Some (ENew ("missing payload upcaster for kind " +:+ quoted kind
                         +:+ " from version " +:+ FormatInt version))))
        | Some upcast =>
            match upcast payload with
            | Err e => Err (Discard (Some (EWrap ("upcast job payload for kind " +:+ quoted kind
                         +:+ " from version " +:+ FormatInt version +:+ ": ") e "")))
            | Ok payload' => upcastLoop fuel' kind opts current (version + 1) payload'
            end
        end
      else Ok payload
  end.

Section worker.
Context {T : Type} (kind : string) (decode : string → result T) (opts : WorkerOpts).

(** Everything [process] does before the handler runs. *)
Definition prepare (rawJob : RawJob) : RawJob * result (Job T) :=
  match DecodePayload (rj_Args rawJob) with
  | Err e => (rawJob, Err (Discard (Some (EWrap ("decode job payload for kind " +:+ quoted kind +:+ ": ") e ""))))
  | Ok (version, payload) =>
      let current := if wo_PayloadVersion opts <=? 0 then 1 else wo_PayloadVersion opts in
      if current <? version then
        (rawJob, Err (Discard (Some (ENew ("job payload for kind " +:+ quoted kind +:+ " has version "
          +:+ FormatInt version +:+ ", worker supports " +:+ FormatInt current)))))
      else
        match upcastLoop (Z.to_nat (current - version)) kind opts current version payload with
        | Err e => (rawJob, Err e)
        | Ok payload' =>
            let rawJob1 := setPayloadVersion current rawJob in
            match decode payload' with
            | Err e => (rawJob1, Err (Discard (Some (EWrap ("unmarshal job args for kind "
                          +:+ quoted kind +:+ ": ") e ""))))
            | Ok args =>
                (rawJob1, Ok (mkJob (rj_ID rawJob) (rj_Queue rawJob) args (rj_AttemptNum rawJob)
                   (rj_MaxRetry rawJob) (rj_CreatedAt rawJob) (rj_RunAt rawJob) (rj_WorkerID rawJob)
                   (rj_Tags rawJob) (rj_PipelineID rawJob) current))
            end
        end
  end.

Context (work : Ctx → Job T → outcome).

Definition process (ctx : Ctx) (rawJob : RawJob) : RawJob * outcome :=
  match prepare rawJob with
  | (r, Err e) => (r, Returns (Some e))
  | (r, Ok job) => (r, work ctx job)
  end.
End worker.

Record workerEntry := mkWorkerEntry {
  we_opts : WorkerOpts;
  we_process : Ctx → RawJob → RawJob * outcome
}.
Abbreviation Registry := (gmap string workerEntry) (only parsing).

Definition RegisterWorker {T} (r : Registry) (kind : string) (decode : string → result T)
    (work : Ctx → Job T → outcome) (opts : WorkerOpts) : Registry :=
  <[kind := mkWorkerEntry opts (process kind decode opts work)]> r.

Definition Process (r : Registry) (ctx : Ctx) (rawJob : RawJob) : RawJob * outcome :=
  match r !! rj_Kind rawJob with
  | None => (rawJob, Returns (Some (ENew ("no worker registered for job kind " +:+ quoted (rj_Kind rawJob)))))
  | Some entry => we_process entry ctx rawJob
  end.

Definition Opts (r : Registry) (kind : string) : option WorkerOpts := we_opts <$> r !! kind.

Definition Kinds `{MapRange} (r : Registry) : list string := (range_map r).*1.
