(* ===== verification/CoreProps.v ===== *)
(** * What retry policies and the registry guarantee

    The exponential policy is the closed formula it is meant to be, for every
    attempt number and without overflow; a payload survives its envelope; and
    dispatch reaches the handler exactly when the payload decodes and the
    upcasters lead to the current version, every other outcome being a permanent
    failure. *)

From S2P Require Import Prelude GoBase Json Codec Core.
From Stdlib Require Import ZArith Lia.

(** ** Exponential backoff *)

Lemma half_spec max delay : 0 < max → (durDiv max 2 <? delay) = true ↔ max < 2 * delay.
Proof.
  intros Hm. unfold durDiv. rewrite Z.quot_div_nonneg by lia. rewrite Z.ltb_lt. lia.
Qed.

Lemma retryLoop_spec fuel : ∀ n attempt max delay,
  1 ≤ n → is_int64 n → is_int64 attempt → 0 < delay → 0 < max ≤ int64_max →
  max ≤ delay * 2 ^ Z.of_nat fuel →
  Z.min (retryLoop fuel n attempt max delay) max = Z.min (delay * 2 ^ Z.max 0 (attempt - n)) max.
Proof.
  induction fuel as [|fuel IH]; intros n attempt max delay Hn Hin Hia Hd Hm Hf; cbn [retryLoop].
  - change (2 ^ Z.of_nat 0) with 1 in Hf.
    pose proof (Z.pow_pos_nonneg 2 (Z.max 0 (attempt - n)) ltac:(lia) ltac:(lia)). nia.
  - destruct (n <? attempt) eqn:En; bool_to_prop; simpl.
    2: { rewrite Z.max_l by lia. by rewrite Z.mul_1_r. }
    assert (2 ^ Z.max 0 (attempt - n) = 2 * 2 ^ Z.max 0 (attempt - (n + 1))) as Ep.
    { rewrite !Z.max_r by lia. rewrite <-Z.pow_succ_r by lia. f_equal. lia. }
    pose proof (Z.pow_pos_nonneg 2 (Z.max 0 (attempt - (n + 1))) ltac:(lia) ltac:(lia)) as Hpos.
    destruct (delay <? max) eqn:Ed; bool_to_prop.
    2: { rewrite Ep. nia. }
    destruct (durDiv max 2 <? delay) eqn:Eh.
    + apply half_spec in Eh; [|lia]. rewrite Ep. nia.
    + assert (2 * delay ≤ max) as Hle.
      { apply not_true_iff_false in Eh. rewrite half_spec in Eh by lia. lia. }
      unfold is_int64, int64_min, int64_max in *.
      assert (wrap64 (n + 1) = n + 1) as -> by (apply wrap64_id; unfold is_int64, int64_min, int64_max; lia).
      assert (durMul delay 2 = 2 * delay) as ->.
      { unfold durMul. rewrite wrap64_id; unfold is_int64, int64_min, int64_max; lia. }
      rewrite IH; [|unfold is_int64, int64_min, int64_max; try lia..].
      * rewrite Ep. f_equal. lia.
      * rewrite Nat2Z.inj_succ, Z.pow_succ_r in Hf by lia. lia.
Qed.

Lemma effective_range b d :
  is_int64 b → 0 < d ≤ int64_max → 0 < (if b <=? 0 then d else b) ≤ int64_max.
Proof. unfold is_int64. intros Hb Hd. destruct (b <=? 0) eqn:E; bool_to_prop; lia. Qed.

Section retry.
Context `{FloatConv}.

(** C13: without jitter the exponential policy waits exactly
    [min (base * 2^(attempt-1)) max] (with the documented defaults for
    unset parameters), so the delay is positive, never exceeds the maximum and
    never overflows, however large the attempt number. *)
Theorem exponential_backoff r value attempt e clk :
  is_int64 attempt → is_int64 (er_Base r) → is_int64 (er_Max r) →
  f64_lt f64_zero (clampUnit (er_Jitter r)) = false →
  let base := if er_Base r <=? 0 then Second else er_Base r in
  let max := if er_Max r <=? 0 then 24 * Hour else er_Max r in
  let delay := Z.min (base * 2 ^ Z.max 0 (attempt - 1)) max in
  ExponentialNextRetryAt r value attempt e clk = (Add (Now clk).1 delay, (Now clk).2) ∧
  0 < delay ≤ max.
Proof.
  intros Ha Hb Hm Hj base max delay.
  assert (0 < base ≤ int64_max) as Hbase by (apply effective_range; [done|split; vm_compute; done]).
  assert (0 < max ≤ int64_max) as Hmax by (apply effective_range; [done|split; vm_compute; done]).
  unfold ExponentialNextRetryAt, exponentialDelay. rewrite Hj. fold base max.
  clearbody base max.
  pose proof (Z.pow_pos_nonneg 2 (Z.max 0 (attempt - 1)) ltac:(lia) ltac:(lia)) as Hpos.
  assert (Z.min (retryLoop 64 1 attempt max base) max = delay) as Hl.
  { apply retryLoop_spec; [lia|split; vm_compute; done|done|lia|lia|].
    unfold int64_max in Hmax. change (2 ^ Z.of_nat 64) with (2 * 2 ^ 63). nia. }
  split; [|subst delay; nia].
  unfold Now. cbn [fst snd]. do 2 f_equal.
  subst delay.
  destruct (max <? retryLoop 64 1 attempt max base) eqn:E; bool_to_prop; lia.
Qed.
End retry.

Lemma exponential_backoff_witness :
  (ExponentialNextRetryAt (H := amd64_conv) DefaultRetryPolicy f64_zero 5 (ENew "boom") (frozenClock 1000)).1
    = 1000 + 16 * Second.
Proof.
  destruct (exponential_backoff (H := amd64_conv) DefaultRetryPolicy f64_zero 5 (ENew "boom") (frozenClock 1000))
    as [-> _]; [vm_compute; split; discriminate..|reflexivity|reflexivity].
Defined.

(** Jitter computed in floating point, on a few inputs. *)
Example exponential_jitter :
  (λ v, exponentialDelay (H := amd64_conv) (mkExponentialRetry Second (10 * Second) (f64_div f64_one (f64_of_int 2))) v 2)
    <$> [f64_zero; f64_div f64_one (f64_of_int 2); f64_one] = [Second; 2 * Second; 3 * Second].
Proof. vm_compute. reflexivity. Qed.

(** ** The payload envelope *)

Lemma field_intptr_envelope version v :
  is_int64 version →
  field_intptr versionField [(versionField, jint version); (payloadField, v)] (Some None) = Some (Some version).
Proof.
  intros Hv. unfold field_intptr.
  change (key_matches versionField versionField) with true.
  change (key_matches versionField payloadField) with false. cbv iota.
  unfold jint, assign_intptr. by rewrite ParseInt64_FormatInt.
Qed.

(** C14: a payload comes back from its envelope: whatever [EncodePayload] accepts
    for version 2 or later decodes to the same version and the same JSON value,
    and version 1 is stored byte for byte; such a text decodes unchanged as
    version 1 when it is an object without a version member. *)
Theorem payload_roundtrip v version :
  wf_json v = true → is_int64 version →
  (1 < version →
     ∃ stored, EncodePayload (print v) version = Ok stored ∧ DecodePayload stored = Ok (version, print v)) ∧
  EncodePayload (print v) 1 = Ok (print v) ∧
  (∀ ms, v = JObj ms → field_intptr versionField ms (Some None) = Some None →
     DecodePayload (print v) = Ok (1, print v)) ∧
  (version ≤ 0 → ∃ e, EncodePayload (print v) version = Err e).
Proof.
  intros Hwf Hv. split_and!.
  - intros Hgt. unfold EncodePayload.
    rewrite (proj2 (Z.leb_gt version 0)) by lia. rewrite (proj2 (Z.eqb_neq version 1)) by lia.
    rewrite parse_print by done. eexists. split; [done|]. unfold DecodePayload.
    rewrite parse_print.
    2: { unfold jint. cbn [wf_json forallb]. rewrite valid_FormatInt. simpl. by rewrite Hwf. }
    rewrite field_intptr_envelope by done.
    change (field_raw payloadField [(versionField, jint version); (payloadField, v)] None) with (Some v).
    cbv iota. by rewrite (proj2 (Z.leb_gt version 0)) by lia.
  - done.
  - intros ms -> Hms. unfold DecodePayload. rewrite parse_print by done. by rewrite Hms.
  - intros Hle. unfold EncodePayload. rewrite (proj2 (Z.leb_le version 0)) by lia. by eexists.
Qed.

Definition demoPayload : json := JObj [("user", JNum "42"); ("note", JStr "a b")].

Lemma payload_roundtrip_witness :
  ∃ stored, EncodePayload (print demoPayload) 3 = Ok stored ∧ DecodePayload stored = Ok (3, print demoPayload).
Proof.
  destruct (payload_roundtrip demoPayload 3) as (Hr & _); [reflexivity|vm_compute; split; discriminate|].
  apply Hr. reflexivity.
Defined.

(** ** Dispatch *)

(** [upcasts opts v current p q]: the registered upcasters lead from payload [p]
    at version [v] to [q] at version [current]. *)
Inductive upcasts (opts : WorkerOpts) (current : Z) : Z → string → string → Prop :=
| upcasts_done p : upcasts opts current current p p
| upcasts_step v p p' q f :
    v < current → wo_Upcasters opts !! v = Some f → f p = Ok p' →
    upcasts opts current (v + 1) p' q → upcasts opts current v p q.

Lemma upcastLoop_sound fuel kind opts current : ∀ version payload q,
  version ≤ current → current - version ≤ Z.of_nat fuel →
  upcastLoop fuel kind opts current version payload = Ok q ↔ upcasts opts current version payload q.
Proof.
  induction fuel as [|fuel IH]; intros version payload q Hle Hf; simpl.
  - assert (version = current) as -> by lia. split; [intros [= ->]; constructor|].
    inversion 1; subst; [done|lia].
  - destruct (version <? current) eqn:E; bool_to_prop.
    + destruct (wo_Upcasters opts !! version) as [f|] eqn:Ef.
      2: { split; [done|]. inversion 1; subst; [lia|congruence]. }
      destruct (f payload) as [p'|e] eqn:Ep.
      * rewrite IH by lia. split; [intros Hu; by econstructor|].
        inversion 1; subst; [lia|]. congruence.
      * split; [done|]. inversion 1; subst; [lia|congruence].
    + assert (version = current) as -> by lia. split; [intros [= ->]; constructor|].
      inversion 1; subst; [done|lia].
Qed.

Lemma upcastLoop_error fuel kind opts current : ∀ version payload e,
  upcastLoop fuel kind opts current version payload = Err e → AsDiscard e = true.
Proof.
  induction fuel as [|fuel IH]; intros version payload e; simpl; [done|].
  repeat case_match; intros; simplify_eq; eauto.
Qed.

Definition acceptedVersion (opts : WorkerOpts) : Z :=
  if wo_PayloadVersion opts <=? 0 then 1 else wo_PayloadVersion opts.

(** What the handler is given. *)
Definition jobOf {T} (rawJob : RawJob) (args : T) (version : Z) : Job T :=
  mkJob (rj_ID rawJob) (rj_Queue rawJob) args (rj_AttemptNum rawJob) (rj_MaxRetry rawJob)
    (rj_CreatedAt rawJob) (rj_RunAt rawJob) (rj_WorkerID rawJob) (rj_Tags rawJob) (rj_PipelineID rawJob) version.

Lemma prepare_ok {T} kind (decode : string → result T) opts rawJob r job :
  prepare kind decode opts rawJob = (r, Ok job) ↔
    ∃ version payload payload' args,
      DecodePayload (rj_Args rawJob) = Ok (version, payload) ∧ version ≤ acceptedVersion opts ∧
      upcasts opts (acceptedVersion opts) version payload payload' ∧ decode payload' = Ok args ∧
      job = jobOf rawJob args (acceptedVersion opts) ∧ r = setPayloadVersion (acceptedVersion opts) rawJob.
Proof.
  unfold prepare. fold (acceptedVersion opts).
  destruct (DecodePayload (rj_Args rawJob)) as [[version payload]|e]; [|naive_solver].
  destruct (acceptedVersion opts <? version) eqn:Ev; bool_to_prop; [naive_solver lia|].
  pose proof (upcastLoop_sound (Z.to_nat (acceptedVersion opts - version)) kind opts
    (acceptedVersion opts) version payload) as Hu.
  destruct (upcastLoop _ _ _ _ _ _) as [payload'|e] eqn:El.
  - assert (upcasts opts (acceptedVersion opts) version payload payload') as Hup by (apply Hu; [lia|lia|done]).
    assert (∀ q, upcasts opts (acceptedVersion opts) version payload q → q = payload') as Hq.
    { intros q Hq. apply Hu in Hq; [congruence|lia|lia]. }
    destruct (decode payload') as [args|e] eqn:Ed.
    + split; [intros [= <- <-]; eauto 10|].
      intros (v0 & p0 & p1 & a0 & [= <- <-] & _ & Hup1 & Hd & -> & ->).
      apply Hq in Hup1 as ->. rewrite Ed in Hd. by simplify_eq.
    + split; [done|]. intros (v0 & p0 & p1 & a0 & [= <- <-] & _ & Hup1 & Hd & _).
      apply Hq in Hup1 as ->. congruence.
  - split; [done|]. intros (v0 & p0 & p1 & a0 & [= <- <-] & _ & Hup1 & _).
    apply Hu in Hup1; [congruence|lia|lia].
Qed.

Lemma prepare_err {T} kind (decode : string → result T) opts rawJob r e :
  prepare kind decode opts rawJob = (r, Err e) → AsDiscard e = true.
Proof.
  unfold prepare. repeat case_match; intros; simplify_eq; try done; by eapply upcastLoop_error.
Qed.

(** C15: dispatch.  Processing a job of a registered kind either calls the
    handler exactly once, with the arguments decoded from the payload upcast to
    the accepted version, and returns what it returns; or, when the payload does
    not decode, comes from a newer version, has no path of upcasters to the
    accepted version or does not fit the argument type, it fails permanently
    without calling the handler.  An unregistered kind is an ordinary,
    retryable, error. *)
Theorem dispatch_spec {T} (reg : Registry) kind (decode : string → result T) work opts ctx rawJob :
  let reg' := RegisterWorker reg kind decode work opts in
  let runs args := ∃ version payload payload',
      DecodePayload (rj_Args rawJob) = Ok (version, payload) ∧ version ≤ acceptedVersion opts ∧
      upcasts opts (acceptedVersion opts) version payload payload' ∧ decode payload' = Ok args in
  (rj_Kind rawJob = kind → ∀ args, runs args →
     Process reg' ctx rawJob =
       (setPayloadVersion (acceptedVersion opts) rawJob, work ctx (jobOf rawJob args (acceptedVersion opts)))) ∧
  (rj_Kind rawJob = kind → (∀ args, ¬ runs args) →
     ∃ r e, Process reg' ctx rawJob = (r, Returns (Some e)) ∧ AsDiscard e = true) ∧
  (reg' !! rj_Kind rawJob = None → ∃ e, Process reg' ctx rawJob = (rawJob, Returns (Some e)) ∧ AsDiscard e = false).
Proof.
  intros reg' runs. unfold Process. split_and!.
  - intros <- args (version & payload & payload' & H1 & H2 & H3 & H4). unfold reg', RegisterWorker.
    rewrite lookup_insert_eq. cbn [we_process]. unfold process.
    assert (prepare (rj_Kind rawJob) decode opts rawJob =
      (setPayloadVersion (acceptedVersion opts) rawJob, Ok (jobOf rawJob args (acceptedVersion opts)))) as ->; [|done].
    apply prepare_ok. eauto 10.
  - intros <- Hno. unfold reg', RegisterWorker. rewrite lookup_insert_eq. cbn [we_process]. unfold process.
    destruct (prepare (rj_Kind rawJob) decode opts rawJob) as [r [job|e]] eqn:E.
    + apply prepare_ok in E as (v & p & p' & args & H1 & H2 & H3 & H4 & _). exfalso. apply (Hno args). unfold runs. eauto 10.
    + exists r, e. split; [done|]. by eapply prepare_err.
  - intros ->. by eexists.
Qed.

(** A two-step upgrade: version 1 to version 3. *)
Definition demoWorkerOpts : WorkerOpts :=
  mkWorkerOpts "" 3 0 0 3 {[ 1 := (λ p, Ok p); 2 := (λ p, Ok (print (JObj [("wrapped", default JNull (parse p))]))) ]}.
Definition demoRaw : RawJob := mkRawJob "j1" "q" "email" (print demoPayload) 1 3 0 0 "w" [] "" 0.

Lemma dispatch_spec_witness :
  Process (RegisterWorker ∅ "email" (λ p, Ok p) (λ _ job, Returns (Some (ENew (job_Args job)))) demoWorkerOpts)
      CtxBackground demoRaw =
    (setPayloadVersion 3 demoRaw, Returns (Some (ENew (print (JObj [("wrapped", demoPayload)]))))).
Proof.
  destruct (dispatch_spec ∅ "email" (λ p : string, Ok p) (λ _ job, Returns (Some (ENew (job_Args job))))
    demoWorkerOpts CtxBackground demoRaw)
    as [Hrun _].
  apply (Hrun eq_refl (print (JObj [("wrapped", demoPayload)]))).
  exists 1, (print demoPayload), (print (JObj [("wrapped", demoPayload)])).
  split; [vm_compute; reflexivity|]. split; [vm_compute; discriminate|]. split; [|reflexivity].
  eapply (upcasts_step demoWorkerOpts 3 1); [reflexivity|reflexivity|reflexivity|].
  eapply (upcasts_step demoWorkerOpts 3 2); [reflexivity|reflexivity| |].
  - vm_compute. reflexivity.
  - constructor.
Defined.
