(* ===== verification/Driver.v ===== *)
(** * driver/driver.go, driver/errors.go and driver/pagination.go

    The vocabulary every backend shares: parameters, rows, job states, the
    claim fence [MatchesClaim], queue statistics, the opaque pagination cursors
    and the executor interface.  Go's [*time.Time] is [option Instant]; a nil
    pointer is [None].  [[]byte] payloads are byte strings. *)

From S2P Require Import Prelude GoBase Json Codec.
From Stdlib Require Import ZArith Lia.

(** ** Unique keys that outlive their job *)

Definition permanentUniqueKeyPrefix : string := "uf2_".
Definition IsPermanentUniqueKey (key : string) : bool := HasPrefix key permanentUniqueKeyPrefix.

Record Capabilities := mkCapabilities {
  NativeTx : bool;
  ListenNotify : bool;
  ChangeStreams : bool;
  SkipLocked : bool;
  UniqueJobs : bool;
  AdvisoryLocks : bool;
  LinearizableLeases : bool;
  LinearizableCAS : bool;
  LifecycleTimestamps : bool;
  BoundedFetch : bool;
  StrictFetchOrdering : bool
}.

(** ** Parameter and result types *)

(** [type JobState string] and its constants. *)
Abbreviation JobState := string (only parsing).
Definition JobStateAvailable : JobState := "available".
Definition JobStateRunning : JobState := "running".
Definition JobStateCompleted : JobState := "completed".
Definition JobStateRetryable : JobState := "retryable".
Definition JobStateDiscarded : JobState := "discarded".
Definition JobStateCancelled : JobState := "cancelled".
Definition JobStateScheduled : JobState := "scheduled".

Record JobInsertParams := mkJobInsertParams {
  ip_Queue : string;
  ip_Kind : string;
  ip_Args : string;
  ip_Priority : Z;
  ip_RunAt : Instant;
  ip_UniqueKey : string;
  ip_MaxRetry : Z;
  ip_Timeout : Duration;
  ip_Tags : list string;
  ip_PipelineID : string
}.

Record AttemptError := mkAttemptError {
  ae_At : Instant;
  ae_Attempt : Z;
  ae_Error : string;
  ae_Trace : string
}.

Record JobRow := mkJobRow {
  ID : string;
  Queue : string;
  Kind : string;
  Args : string;
  State : JobState;
  Priority : Z;
  RunAt : Instant;
  CreatedAt : Instant;
  AttemptedAt : option Instant;
  StartedAt : option Instant;
  LeaseExpiresAt : option Instant;
  FinalizedAt : option Instant;
  AttemptNum : Z;
  MaxRetry : Z;
  Timeout : Duration;
  Tags : list string;
  Errors : list AttemptError;
  UniqueKey : string;
  WorkerID : string;
  PipelineID : string
}.

#[export] Instance AttemptError_eq_dec : EqDecision AttemptError.
Proof. solve_decision. Defined.
#[export] Instance JobRow_eq_dec : EqDecision JobRow.
Proof. solve_decision. Defined.

Definition eta_row (r : JobRow) : JobRow :=
  mkJobRow (ID r) (Queue r) (Kind r) (Args r) (State r) (Priority r) (RunAt r) (CreatedAt r)
    (AttemptedAt r) (StartedAt r) (LeaseExpiresAt r) (FinalizedAt r) (AttemptNum r) (MaxRetry r)
    (Timeout r) (Tags r) (Errors r) (UniqueKey r) (WorkerID r) (PipelineID r).

Definition set_Args : string → JobRow → JobRow := ltac:(setter eta_row Args).
Definition set_State : JobState → JobRow → JobRow := ltac:(setter eta_row State).
Definition set_RunAt : Instant → JobRow → JobRow := ltac:(setter eta_row RunAt).
Definition set_AttemptedAt : option Instant → JobRow → JobRow := ltac:(setter eta_row AttemptedAt).
Definition set_StartedAt : option Instant → JobRow → JobRow := ltac:(setter eta_row StartedAt).
Definition set_LeaseExpiresAt : option Instant → JobRow → JobRow := ltac:(setter eta_row LeaseExpiresAt).
Definition set_FinalizedAt : option Instant → JobRow → JobRow := ltac:(setter eta_row FinalizedAt).
Definition set_AttemptNum : Z → JobRow → JobRow := ltac:(setter eta_row AttemptNum).
Definition set_Errors : list AttemptError → JobRow → JobRow := ltac:(setter eta_row Errors).
Definition set_UniqueKey : string → JobRow → JobRow := ltac:(setter eta_row UniqueKey).
Definition set_WorkerID : string → JobRow → JobRow := ltac:(setter eta_row WorkerID).

Record JobInsertResult := mkJobInsertResult {
  ir_Job : option JobRow;
  ir_UniqueSkip : bool
}.

Record FetchParams := mkFetchParams {
  fp_Queue : string;
  fp_Limit : Z;
  fp_WorkerID : string;
  fp_LeaseDuration : Duration
}.

Record JobRescueParams := mkJobRescueParams {
  rp_Queue : string;
  rp_At : Instant;
  rp_Before : Instant
}.

Record JobHeartbeatParams := mkJobHeartbeatParams {
  hp_ID : string;
  hp_WorkerID : string;
  hp_Attempt : Z;
  hp_At : Instant;
  hp_LeaseExpiresAt : Instant
}.

Record JobMarkStartedParams := mkJobMarkStartedParams {
  ms_ID : string;
  ms_WorkerID : string;
  ms_Attempt : Z;
  ms_At : Instant
}.

Record JobSetStateParams := mkJobSetStateParams {
  sp_ID : string;
  sp_State : JobState;
  sp_Err : option string;
  sp_Trace : option string;
  sp_Attempt : Z;
  sp_RetryAt : Instant;
  sp_ExpectedWorkerID : string;
  sp_ExpectedAttempt : Z;
  sp_Yield : bool
}.

(** The fence of a state transition: an unset expectation matches any claim. *)
Definition MatchesClaim (p : JobSetStateParams) (workerID : string) (attempt : Z) : bool :=
  (bool_decide (sp_ExpectedWorkerID p = "") || bool_decide (sp_ExpectedWorkerID p = workerID)) &&
  ((sp_ExpectedAttempt p <=? 0) || (sp_ExpectedAttempt p =? attempt)).

Record RescheduleParams := mkRescheduleParams {
  rs_ID : string;
  rs_RunAt : Instant
}.

Record QueueListParams := mkQueueListParams {
  ql_Limit : Z;
  ql_Cursor : string
}.

Record JobListParams := mkJobListParams {
  jl_Queue : string;
  jl_State : JobState;
  jl_Kind : string;
  jl_Limit : Z;
  jl_Cursor : string
}.

Record QueueStats := mkQueueStats {
  qs_Queue : string;
  qs_States : gmap string Z;
  qs_Total : Z
}.

(** One row of the counting loop: [stats.States[row.State]++; stats.Total++]. *)
Definition count_row (stats : QueueStats) (row : JobRow) : QueueStats :=
  mkQueueStats (qs_Queue stats)
    (<[State row := default 0 (qs_States stats !! State row) + 1]> (qs_States stats))
    (qs_Total stats + 1).

Definition CountQueueStats (queue : string) (rows : list JobRow) : QueueStats :=
  foldl count_row (mkQueueStats queue ∅ 0) rows.

(** [stats.States[s]]: a missing key reads as zero. *)
Definition stat (stats : QueueStats) (s : JobState) : Z := default 0 (qs_States stats !! s).

Record LeaderElectParams := mkLeaderElectParams {
  le_Name : string;
  le_WorkerID : string;
  le_TTL : Duration
}.

Record LeaderResignParams := mkLeaderResignParams {
  lr_Name : string;
  lr_WorkerID : string
}.

Record ScheduleCursorCreateParams := mkScheduleCursorCreateParams {
  cc_ID : string;
  cc_InitialAt : Instant
}.

Record ScheduleCursorResult := mkScheduleCursorResult {
  cr_At : Instant;
  cr_Created : bool
}.

Record ScheduleCursorAdvanceParams := mkScheduleCursorAdvanceParams {
  ca_ID : string;
  ca_Expected : Instant;
  ca_Next : Instant
}.

Record QueueRow := mkQueueRow {
  q_Name : string;
  q_Paused : bool;
  q_CreatedAt : Instant;
  q_UpdatedAt : Instant
}.

(** ** driver/pagination.go *)

Definition EncodeJobCursor (row : JobRow) : string :=
  EncodeToString (print (JObj [("v", jint 1); ("created_at", jint (UnixNano (UTC (CreatedAt row))));
                               ("id", JStr (ID row))])).

Definition DecodeJobCursor (cursor : string) : result (Instant * string) :=
  match DecodeString cursor with
  | None => Err (EWrap "" (ESentinel ErrInvalidCursor) ": malformed encoding")
  | Some payload =>
      let bad := Err (EWrap "" (ESentinel ErrInvalidCursor) ": unsupported or malformed payload") in
      match parse payload with
      | Some (JObj ms) =>
          match field_int "v" ms (Some 0), field_int "created_at" ms (Some 0), field_str "id" ms (Some "") with
          | Some version, Some createdAt, Some id =>
              if negb (version =? 1) || (createdAt =? 0) || bool_decide (id = "") then bad
              else Ok (UTC (UnixFromNano createdAt), id)
          | _, _, _ => bad
          end
      | _ => bad
      end
  end.

Definition JobFollowsCursor (row : JobRow) (createdAt : Instant) (id : string) : bool :=
  Before (CreatedAt row) createdAt || TimeEqual (CreatedAt row) createdAt && str_lt (ID row) id.

Record JobPage := mkJobPage {
  jp_Items : list JobRow;
  jp_NextCursor : string;
  jp_HasMore : bool
}.

Definition EncodeQueueCursor (row : QueueRow) : string :=
  EncodeToString (print (JObj [("v", jint 1); ("name", JStr (q_Name row))])).

Definition DecodeQueueCursor (cursor : string) : result string :=
  match DecodeString cursor with
  | None => Err (EWrap "" (ESentinel ErrInvalidCursor) ": malformed encoding")
  | Some payload =>
      let bad := Err (EWrap "" (ESentinel ErrInvalidCursor) ": unsupported or malformed payload") in
      match parse payload with
      | Some (JObj ms) =>
          match field_int "v" ms (Some 0), field_str "name" ms (Some "") with
          | Some version, Some name =>
              if negb (version =? 1) || bool_decide (name = "") then bad else Ok name
          | _, _ => bad
          end
      | _ => bad
      end
  end.

(** The cursor round trips: what a page hands out is what the next request
    reads back.  The creation time must fit [UnixNano] and not be the epoch
    itself, which the decoder reserves for a missing field. *)
Lemma DecodeJobCursor_Encode row :
  is_int64 (CreatedAt row - unixEpoch) → CreatedAt row ≠ unixEpoch → ID row ≠ "" →
  DecodeJobCursor (EncodeJobCursor row) = Ok (CreatedAt row, ID row).
Proof.
  intros Hr Hne Hid. unfold DecodeJobCursor, EncodeJobCursor.
  rewrite DecodeString_EncodeToString. rewrite parse_print.
  2: { unfold jint. cbn [wf_json]. rewrite !valid_FormatInt. done. }
  change (field_int "v" ?ms (Some 0)) with (ParseInt64 (FormatInt 1)).
  change (field_int "created_at" ?ms (Some 0)) with (ParseInt64 (FormatInt (UnixNano (UTC (CreatedAt row))))).
  change (field_str "id" ?ms (Some "")) with (Some (ID row)).
  rewrite (ParseInt64_FormatInt 1) by (split; vm_compute; discriminate).
  rewrite ParseInt64_FormatInt by apply wrap64_range.
  unfold UTC. rewrite UnixNano_roundtrip by done.
  cbv iota. rewrite bool_decide_eq_false_2 by done.
  destruct (UnixNano (CreatedAt row) =? 0) eqn:E; [|done].
  apply Z.eqb_eq in E. exfalso. apply Hne.
  rewrite <-(UnixNano_roundtrip (CreatedAt row)) by done. rewrite E. done.
Qed.

Lemma DecodeQueueCursor_Encode row :
  q_Name row ≠ "" → DecodeQueueCursor (EncodeQueueCursor row) = Ok (q_Name row).
Proof.
  intros Hid. unfold DecodeQueueCursor, EncodeQueueCursor.
  rewrite DecodeString_EncodeToString. rewrite parse_print.
  2: { unfold jint. cbn [wf_json]. by rewrite valid_FormatInt. }
  change (field_int "v" ?ms (Some 0)) with (Some 1).
  change (field_str "name" ?ms (Some "")) with (Some (q_Name row)).
  cbv iota. by rewrite bool_decide_eq_false_2.
Qed.

(** Every decoding failure is an [ErrInvalidCursor]. *)
Lemma DecodeJobCursor_error cursor e :
  DecodeJobCursor cursor = Err e → errorsIs e ErrInvalidCursor = true.
Proof. unfold DecodeJobCursor. intros H. split_ifs; by simplify_eq. Qed.
