(* ===== verification/Memory.v ===== *)
(** * driver/memory/memory.go: the in-memory backend

    The driver's fields become the record [Driver]; every exported executor
    method holds the mutex for its whole body, so each one is one atomic
    function from the driver state to a new state and a result.  Rows are
    reached through pointers in Go; an update of [*row] is an update of the
    entry of [d_jobs].  Ranging over [jobs] and [queues] follows an arbitrary
    order ([MapRange]).  Notification channels live in [d_heap]; a send on, or a
    second close of, a closed channel would set [d_panicked]. *)

From S2P Require Import Prelude GoBase Json Codec Driver.
From Stdlib Require Import ZArith Lia.

(** ** State *)

Record memoryLeader := mkMemoryLeader { ml_workerID : string; ml_expiresAt : Instant }.

(** A [chan driver.Notification] made with capacity 16. *)
Record chan := mkChan { ch_buf : list string; ch_closed : bool }.
Definition chan_cap : nat := 16.

Record Driver := mkDriver {
  d_jobs : gmap string JobRow;
  d_queues : gmap string QueueRow;
  d_seq : Z;
  d_notify : gmap string (list nat);
  d_leaders : gmap string memoryLeader;
  d_cursors : gmap string Instant;
  d_clk : Clock;
  d_heap : list chan;
  d_panicked : bool
}.

Definition eta_driver (d : Driver) : Driver :=
  mkDriver (d_jobs d) (d_queues d) (d_seq d) (d_notify d) (d_leaders d) (d_cursors d)
    (d_clk d) (d_heap d) (d_panicked d).
Definition set_jobs : gmap string JobRow → Driver → Driver := ltac:(setter eta_driver d_jobs).
Definition set_queues : gmap string QueueRow → Driver → Driver := ltac:(setter eta_driver d_queues).
Definition set_seq : Z → Driver → Driver := ltac:(setter eta_driver d_seq).
Definition set_notify : gmap string (list nat) → Driver → Driver := ltac:(setter eta_driver d_notify).
Definition set_leaders : gmap string memoryLeader → Driver → Driver := ltac:(setter eta_driver d_leaders).
Definition set_cursors : gmap string Instant → Driver → Driver := ltac:(setter eta_driver d_cursors).
Definition set_clk : Clock → Driver → Driver := ltac:(setter eta_driver d_clk).
Definition set_heap : list chan → Driver → Driver := ltac:(setter eta_driver d_heap).
Definition set_panicked : bool → Driver → Driver := ltac:(setter eta_driver d_panicked).

(** [New(WithClock(c))]. *)
Definition New (c : Clock) : Driver := mkDriver ∅ ∅ 0 ∅ ∅ ∅ c [] false.

Definition Name : string := "memory".

Definition MemoryCapabilities : Capabilities := {|
  NativeTx := false; SkipLocked := true; UniqueJobs := true; ListenNotify := true;
  ChangeStreams := false; AdvisoryLocks := false; LinearizableLeases := true;
  LinearizableCAS := true; LifecycleTimestamps := true; BoundedFetch := true;
  StrictFetchOrdering := true |}.

(** Reading the driver's clock. *)
Definition dNow (d : Driver) : Instant * Driver :=
  let '(t, c) := Now (d_clk d) in (t, set_clk c d).

(** [driver.ErrNotFound] and friends with the id they mention. *)
Definition jobError (s : sentinel) (id : string) : error :=
  EWrap "" (ESentinel s) (": job " +:+ quoted id).

Definition Begin : error := EWrap "" (ESentinel ErrUnsupported) ": memory transactions".

(** ** Helpers *)

Definition ensureQueue (name : string) (now : Instant) (d : Driver) : Driver :=
  match d_queues d !! name with
  | Some _ => d
  | None => set_queues (<[name := mkQueueRow name false now now]> (d_queues d)) d
  end.

(** [select { case ch <- n: default: }] on channel [c]. *)
Definition trySend (queue : string) (d : Driver) (c : nat) : Driver :=
  match d_heap d !! c with
  | Some ch =>
      if ch_closed ch then set_panicked true d
      else if bool_decide (length (ch_buf ch) < chan_cap)%nat
      then set_heap (<[c := mkChan (ch_buf ch ++ [queue]) false]> (d_heap d)) d
      else d
  | None => d
  end.

Definition broadcastNotify (queue : string) (d : Driver) : Driver :=
  foldl (trySend queue) d (default [] (d_notify d !! queue)).

Definition isTerminal (s : JobState) : bool :=
  bool_decide (s = JobStateCompleted) || bool_decide (s = JobStateDiscarded)
  || bool_decide (s = JobStateCancelled).

(** Whether a row blocks an insert with the same unique key. *)
Definition blocksKey (uniqueKey : string) (j : JobRow) : bool :=
  bool_decide (UniqueKey j = uniqueKey) &&
  (IsPermanentUniqueKey uniqueKey || negb (isTerminal (State j))).

Section ops.
Context `{MapRange}.

Definition findUniqueJob (d : Driver) (uniqueKey : string) : option JobRow :=
  snd <$> find (λ kv, blocksKey uniqueKey kv.2) (range_map (d_jobs d)).

Definition AllJobs (d : Driver) : list JobRow := (range_map (d_jobs d)).*2.

(** ** Jobs *)

(** The row a fresh insert stores. *)
Definition newRow (p : JobInsertParams) (id : string) (now : Instant) : JobRow :=
  let runAt := if IsZero (ip_RunAt p) then now else ip_RunAt p in
  let state := if After runAt now then JobStateScheduled else JobStateAvailable in
  mkJobRow id (ip_Queue p) (ip_Kind p) (ip_Args p) state (ip_Priority p) runAt now
    None None None None 0 (ip_MaxRetry p) (ip_Timeout p) (ip_Tags p) []
    (ip_UniqueKey p) "" (ip_PipelineID p).

Definition insertFresh (d : Driver) (p : JobInsertParams) : Driver * JobInsertResult :=
  let d1 := set_seq (wrapu64 (d_seq d + 1)) d in
  let id := "mem_" +:+ FormatInt (d_seq d1) in
  let '(now, d2) := dNow d1 in
  let row := newRow p id now in
  let d3 := set_jobs (<[id := row]> (d_jobs d2)) d2 in
  let d4 := ensureQueue (ip_Queue p) now d3 in
  let d5 := broadcastNotify (ip_Queue p) d4 in
  (d5, mkJobInsertResult (Some row) false).

Definition insertOne (d : Driver) (p : JobInsertParams) : Driver * JobInsertResult :=
  if bool_decide (ip_UniqueKey p ≠ "") then
    match findUniqueJob d (ip_UniqueKey p) with
    | Some dup => (d, mkJobInsertResult (Some dup) true)
    | None => insertFresh d p
    end
  else insertFresh d p.

Fixpoint insertLoop (d : Driver) (params : list JobInsertParams) : Driver * list JobInsertResult :=
  match params with
  | [] => (d, [])
  | p :: ps =>
      let '(d1, r) := insertOne d p in
      let '(d2, rs) := insertLoop d1 ps in
      (d2, r :: rs)
  end.

Definition JobInsertMany (d : Driver) (params : list JobInsertParams)
  : Driver * result (list JobInsertResult) :=
  let '(d', rs) := insertLoop d params in (d', Ok rs).

Definition JobGetByID (d : Driver) (id : string) : result JobRow :=
  match d_jobs d !! id with
  | Some row => Ok row
  | None => Err (jobError ErrNotFound id)
  end.

(** The filter of [JobList]; [cur] is the decoded cursor, if any. *)
Definition listSkips (params : JobListParams) (cur : option (Instant * string)) (row : JobRow) : bool :=
  bool_decide (jl_Queue params ≠ "") && bool_decide (Queue row ≠ jl_Queue params)
  || bool_decide (jl_State params ≠ "") && bool_decide (State row ≠ jl_State params)
  || bool_decide (jl_Kind params ≠ "") && bool_decide (Kind row ≠ jl_Kind params)
  || match cur with Some (at_, id) => negb (JobFollowsCursor row at_ id) | None => false end.

(** created_at DESC, id DESC. *)
Definition listLess (a b : JobRow) : bool :=
  if negb (TimeEqual (CreatedAt a) (CreatedAt b)) then After (CreatedAt a) (CreatedAt b)
  else str_lt (ID b) (ID a).

Definition pageLimit (limit : Z) : Z :=
  if (limit <=? 0) || (1000 <? limit) then 100 else limit.

Definition JobList (d : Driver) (params : JobListParams) : result (list JobRow) :=
  let go cur :=
    let rows := filter (λ row, listSkips params cur row = false) (AllJobs d) in
    take (Z.to_nat (pageLimit (jl_Limit params))) (sort_by listLess rows) in
  if bool_decide (jl_Cursor params = "") then Ok (go None)
  else match DecodeJobCursor (jl_Cursor params) with
       | Ok cur => Ok (go (Some cur))
       | Err e => Err e
       end.

Definition QueueStatsOf (d : Driver) (queue : string) : QueueStats :=
  foldl (λ stats row, if bool_decide (Queue row = queue) then count_row stats row else stats)
    (mkQueueStats queue ∅ 0) (AllJobs d).

(** Promotion of a scheduled job whose time has come. *)
Definition promote (queue : string) (now : Instant) (j : JobRow) : JobRow :=
  if bool_decide (Queue j = queue) && bool_decide (State j = JobStateScheduled)
     && negb (After (RunAt j) now)
  then set_State JobStateAvailable j else j.

Definition isCandidate (queue : string) (now : Instant) (j : JobRow) : bool :=
  bool_decide (Queue j = queue) && bool_decide (State j = JobStateAvailable)
  && negb (After (RunAt j) now).

(** priority DESC, run_at ASC, created_at ASC, id ASC. *)
Definition fetchLess (a b : JobRow) : bool :=
  if negb (Priority a =? Priority b) then Priority b <? Priority a
  else if negb (TimeEqual (RunAt a) (RunAt b)) then Before (RunAt a) (RunAt b)
  else if negb (TimeEqual (CreatedAt a) (CreatedAt b)) then Before (CreatedAt a) (CreatedAt b)
  else str_lt (ID a) (ID b).

Definition claim (params : FetchParams) (now : Instant) (j : JobRow) : JobRow :=
  set_WorkerID (fp_WorkerID params)
    (set_AttemptNum (wrap64 (AttemptNum j + 1))
      (set_LeaseExpiresAt
        (if 0 <? fp_LeaseDuration params then Some (Add now (fp_LeaseDuration params)) else None)
        (set_StartedAt None (set_AttemptedAt (Some now) (set_State JobStateRunning j))))).

(** How many of [n] candidates one fetch takes. *)
Definition fetchLimit (limit : Z) (n : nat) : nat :=
  if (limit <=? 0) || (Z.of_nat n <? limit) then n else Z.to_nat limit.

Definition fetchCandidates (queue : string) (now : Instant) (m : gmap string JobRow)
  : list (string * JobRow) :=
  sort_by (λ a b, fetchLess a.2 b.2)
    (filter (λ kv, isCandidate queue now kv.2 = true) (range_map m)).

Definition claimAll (params : FetchParams) (now : Instant) (chosen : list (string * JobRow))
    (m : gmap string JobRow) : gmap string JobRow :=
  foldl (λ m kv, <[kv.1 := claim params now kv.2]> m) m chosen.

Definition JobFetchBatch (d : Driver) (params : FetchParams) : Driver * result (list JobRow) :=
  match d_queues d !! fp_Queue params with
  | None => (d, Ok [])
  | Some q =>
      if q_Paused q then (d, Ok []) else
      let '(now, d1) := dNow d in
      let promoted := promote (fp_Queue params) now <$> d_jobs d1 in
      let candidates := fetchCandidates (fp_Queue params) now promoted in
      let chosen := take (fetchLimit (fp_Limit params) (length candidates)) candidates in
      (set_jobs (claimAll params now chosen promoted) d1,
       Ok ((λ kv, claim params now kv.2) <$> chosen))
  end.

(** The test shared by the fenced updates: the row is running under exactly
    this claim. *)
Definition ownsClaim (row : JobRow) (workerID : string) (attempt : Z) : bool :=
  bool_decide (State row = JobStateRunning) && bool_decide (WorkerID row = workerID)
  && (AttemptNum row =? attempt).

Definition JobMarkStarted (d : Driver) (params : JobMarkStartedParams) : Driver * result bool :=
  match d_jobs d !! ms_ID params with
  | Some row =>
      if ownsClaim row (ms_WorkerID params) (ms_Attempt params)
      then (set_jobs (<[ms_ID params := set_StartedAt (Some (UTC (ms_At params))) row]> (d_jobs d)) d,
            Ok true)
      else (d, Ok false)
  | None => (d, Ok false)
  end.

Definition isStuck (params : JobRescueParams) (row : JobRow) : bool :=
  bool_decide (Queue row = rp_Queue params) && bool_decide (State row = JobStateRunning) &&
  match LeaseExpiresAt row with
  | Some lease => negb (IsZero (rp_At params)) && negb (After lease (rp_At params))
  | None => match AttemptedAt row with
            | Some at_ => negb (After at_ (rp_Before params))
            | None => false
            end
  end.

Definition releaseRow (row : JobRow) : JobRow :=
  set_WorkerID "" (set_LeaseExpiresAt None (set_AttemptedAt None (set_State JobStateAvailable row))).

Definition rescueRow (params : JobRescueParams) (row : JobRow) : JobRow :=
  if isStuck params row then releaseRow row else row.

Definition JobRescueStuck (d : Driver) (params : JobRescueParams) : Driver * result Z :=
  (set_jobs (rescueRow params <$> d_jobs d) d,
   Ok (Z.of_nat (length (filter (λ row, isStuck params row = true) (AllJobs d))))).

Definition JobHeartbeat (d : Driver) (params : JobHeartbeatParams) : Driver * result bool :=
  match d_jobs d !! hp_ID params with
  | Some row =>
      if ownsClaim row (hp_WorkerID params) (hp_Attempt params)
      then let expiresAt := UTC (hp_LeaseExpiresAt params) in
           let expiresAt := if IsZero expiresAt then UTC (hp_At params) else expiresAt in
           (set_jobs (<[hp_ID params := set_LeaseExpiresAt (Some expiresAt) row]> (d_jobs d)) d, Ok true)
      else (d, Ok false)
  | None => (d, Ok false)
  end.

(** The yield branch of a transition. *)
Definition yieldRow (row : JobRow) : JobRow :=
  set_WorkerID "" (set_LeaseExpiresAt None (set_AttemptedAt None
    (set_AttemptNum (wrap64 (AttemptNum row - 1)) (set_State JobStateAvailable row)))).

(** The other branch; [nowErr] and [nowFin] are the two clock readings. *)
Definition transitionRow (params : JobSetStateParams) (nowErr nowFin : Instant) (row : JobRow) : JobRow :=
  let row1 := set_LeaseExpiresAt None (set_WorkerID "" (set_State (sp_State params) row)) in
  let row2 := match sp_Err params with
              | Some e => set_Errors (Errors row1 ++
                  [mkAttemptError nowErr (AttemptNum row1) e (default "" (sp_Trace params))]) row1
              | None => row1
              end in
  let row3 := if bool_decide (sp_State params = JobStateRetryable) && negb (IsZero (sp_RetryAt params))
              then set_State JobStateAvailable (set_RunAt (sp_RetryAt params) row2) else row2 in
  if isTerminal (sp_State params) then set_FinalizedAt (Some nowFin) row3 else row3.

Definition JobSetStateIfRunning (d : Driver) (params : JobSetStateParams) : Driver * result unit :=
  match d_jobs d !! sp_ID params with
  | Some row =>
      if bool_decide (State row = JobStateRunning) && MatchesClaim params (WorkerID row) (AttemptNum row)
      then
        if sp_Yield params then (set_jobs (<[sp_ID params := yieldRow row]> (d_jobs d)) d, Ok tt)
        else
          let '(nowErr, d1) := match sp_Err params with Some _ => dNow d | None => (zeroTime, d) end in
          let '(nowFin, d2) := if isTerminal (sp_State params) then dNow d1 else (zeroTime, d1) in
          (set_jobs (<[sp_ID params := transitionRow params nowErr nowFin row]> (d_jobs d2)) d2, Ok tt)
      else (d, Err (jobError ErrStaleClaim (sp_ID params)))
  | None => (d, Err (jobError ErrStaleClaim (sp_ID params)))
  end.

Definition JobCancel (d : Driver) (id : string) : Driver * result unit :=
  match d_jobs d !! id with
  | None => (d, Err (jobError ErrNotFound id))
  | Some row =>
      if bool_decide (State row ≠ JobStateAvailable) && bool_decide (State row ≠ JobStateScheduled)
      then (d, Err (EWrap "" (ESentinel ErrConflict)
              (": job " +:+ quoted id +:+ " is in state " +:+ State row
               +:+ ", can only cancel available/scheduled")))
      else let '(now, d1) := dNow d in
           (set_jobs (<[id := set_FinalizedAt (Some now) (set_State JobStateCancelled row)]> (d_jobs d1)) d1,
            Ok tt)
  end.

Definition JobDelete (d : Driver) (id : string) : Driver * result unit :=
  match d_jobs d !! id with
  | None => (d, Err (jobError ErrNotFound id))
  | Some _ => (set_jobs (delete id (d_jobs d)) d, Ok tt)
  end.

Definition JobReschedule (d : Driver) (params : RescheduleParams) : Driver * result unit :=
  match d_jobs d !! rs_ID params with
  | None => (d, Err (jobError ErrNotFound (rs_ID params)))
  | Some row =>
      (set_jobs (<[rs_ID params := set_State JobStateScheduled (set_RunAt (rs_RunAt params) row)]> (d_jobs d)) d,
       Ok tt)
  end.

(** ** Queues *)

Definition QueueGet (d : Driver) (name : string) : result QueueRow :=
  match d_queues d !! name with
  | Some q => Ok q
  | None => Err (EWrap "" (ESentinel ErrNotFound) (": queue " +:+ quoted name))
  end.

Definition setPaused (paused : bool) (q : QueueRow) : QueueRow :=
  mkQueueRow (q_Name q) paused (q_CreatedAt q) (q_UpdatedAt q).

Definition queueSetPaused (d : Driver) (name : string) (paused : bool) : Driver * result unit :=
  let '(now, d1) := dNow d in
  let d2 := ensureQueue name now d1 in
  (set_queues (alter (setPaused paused) name (d_queues d2)) d2, Ok tt).
Definition QueuePause (d : Driver) (name : string) : Driver * result unit := queueSetPaused d name true.
Definition QueueResume (d : Driver) (name : string) : Driver * result unit := queueSetPaused d name false.

Definition queueLess (a b : QueueRow) : bool := str_lt (q_Name a) (q_Name b).

Definition QueueList (d : Driver) (params : QueueListParams) : result (list QueueRow) :=
  let go cursor :=
    let rows := filter (λ q, str_lt cursor (q_Name q) = true) (range_map (d_queues d)).*2 in
    take (Z.to_nat (pageLimit (ql_Limit params))) (sort_by queueLess rows) in
  if bool_decide (ql_Cursor params = "") then Ok (go "")
  else match DecodeQueueCursor (ql_Cursor params) with
       | Ok cursor => Ok (go cursor)
       | Err e => Err e
       end.

(** ** Leases and schedule cursors *)

Definition LeaderAttemptElect (d : Driver) (params : LeaderElectParams) : Driver * result bool :=
  let '(now, d1) := dNow d in
  let free := match d_leaders d1 !! le_Name params with
              | Some current => negb (After (ml_expiresAt current) now
                                      && bool_decide (ml_workerID current ≠ le_WorkerID params))
              | None => true
              end in
  if free
  then (set_leaders (<[le_Name params := mkMemoryLeader (le_WorkerID params) (Add now (le_TTL params))]>
          (d_leaders d1)) d1, Ok true)
  else (d1, Ok false).

Definition LeaderResign (d : Driver) (params : LeaderResignParams) : Driver * result unit :=
  match d_leaders d !! lr_Name params with
  | Some current =>
      if bool_decide (ml_workerID current = lr_WorkerID params)
      then (set_leaders (delete (lr_Name params) (d_leaders d)) d, Ok tt)
      else (d, Ok tt)
  | None => (d, Ok tt)
  end.

Definition ScheduleCursorGetOrCreate (d : Driver) (params : ScheduleCursorCreateParams)
  : Driver * result ScheduleCursorResult :=
  match d_cursors d !! cc_ID params with
  | Some at_ => (d, Ok (mkScheduleCursorResult at_ false))
  | None => let at_ := UTC (cc_InitialAt params) in
            (set_cursors (<[cc_ID params := at_]> (d_cursors d)) d, Ok (mkScheduleCursorResult at_ true))
  end.

Definition ScheduleCursorAdvance (d : Driver) (params : ScheduleCursorAdvanceParams)
  : Driver * result bool :=
  match d_cursors d !! ca_ID params with
  | Some current =>
      if negb (TimeEqual current (ca_Expected params)) then (d, Ok false)
      else (set_cursors (<[ca_ID params := UTC (ca_Next params)]> (d_cursors d)) d, Ok true)
  | None => (d, Ok false)
  end.

(** ** Listener *)

Record listener := mkListener { l_subs : gmap string nat }.

Definition Listen (d : Driver) (l : listener) (queue : string) : Driver * listener * nat :=
  let ch := length (d_heap d) in
  let d1 := set_heap (d_heap d ++ [mkChan [] false]) d in
  let d2 := set_notify (<[queue := default [] (d_notify d1 !! queue) ++ [ch]]> (d_notify d1)) d1 in
  (d2, mkListener (<[queue := ch]> (l_subs l)), ch).

Definition closeChan (c : nat) (d : Driver) : Driver :=
  match d_heap d !! c with
  | Some ch => if ch_closed ch then set_panicked true d
               else set_heap (<[c := mkChan (ch_buf ch) true]> (d_heap d)) d
  | None => d
  end.

(** The first occurrence of [owned] is spliced out of the slice. *)
Fixpoint removeFirst (owned : nat) (l : list nat) : list nat :=
  match l with
  | [] => []
  | c :: l' => if bool_decide (c = owned) then l' else c :: removeFirst owned l'
  end.

Definition removeSub (d : Driver) (l : listener) (queue : string) : Driver * listener :=
  match l_subs l !! queue with
  | None => (d, l)
  | Some owned =>
      let channels := removeFirst owned (default [] (d_notify d !! queue)) in
      let d1 := set_notify (if bool_decide (channels = []) then delete queue (d_notify d)
                            else <[queue := channels]> (d_notify d)) d in
      (closeChan owned d1, mkListener (delete queue (l_subs l)))
  end.
Definition Unlisten (d : Driver) (l : listener) (queue : string) : Driver * listener := removeSub d l queue.
Definition CloseListener (d : Driver) (l : listener) : Driver * listener :=
  foldl (λ '(d, l) kv, removeSub d l kv.1) (d, l) (range_map (l_subs l)).
End ops.
