(* ===== verification/MemoryInv.v ===== *)
(** * The memory backend as a running system: traces and invariants

    A [World] is the driver together with the listeners its users hold.  [op]
    lists every state-changing call of the backend plus the receive a consumer
    of a notification channel performs; [run] executes a list of calls.  Since
    every call holds the driver mutex, a concurrent execution is one such list.
    The counters [seq] ([uint64]) and [AttemptNum] ([int]) are machine integers,
    so the invariant is stated for traces of total [cost] below [2^63]. *)

From S2P Require Import Prelude GoBase Json Codec Driver Memory.
From Stdlib Require Import ZArith Lia.

Arguments set_jobs _ _ /.
Arguments set_queues _ _ /.
Arguments set_seq _ _ /.
Arguments set_notify _ _ /.
Arguments set_leaders _ _ /.
Arguments set_cursors _ _ /.
Arguments set_clk _ _ /.
Arguments set_heap _ _ /.
Arguments set_panicked _ _ /.

(** ** Worlds and traces *)

Record World := mkWorld { w_driver : Driver; w_listeners : list listener }.

Inductive op :=
| OInsert (params : list JobInsertParams)
| OFetch (params : FetchParams)
| OMarkStarted (params : JobMarkStartedParams)
| ORescue (params : JobRescueParams)
| OHeartbeat (params : JobHeartbeatParams)
| OSetState (params : JobSetStateParams)
| OCancel (id : string)
| ODelete (id : string)
| OReschedule (params : RescheduleParams)
| OPause (name : string)
| OResume (name : string)
| OElect (params : LeaderElectParams)
| OResign (params : LeaderResignParams)
| OCursorCreate (params : ScheduleCursorCreateParams)
| OCursorAdvance (params : ScheduleCursorAdvanceParams)
| OListener
| OListen (i : nat) (queue : string)
| OUnlisten (i : nat) (queue : string)
| OClose (i : nat)
| OReceive (c : nat).

(** A consumer takes the oldest notification of its channel. *)
Definition receive (c : nat) (d : Driver) : Driver :=
  match d_heap d !! c with
  | Some ch => set_heap (<[c := mkChan (tail (ch_buf ch)) (ch_closed ch)]> (d_heap d)) d
  | None => d
  end.

Section world.
Context `{MapRange}.

(** The calls that concern the driver only. *)
Definition exec_driver (o : op) (d : Driver) : Driver :=
  match o with
  | OInsert ps => (JobInsertMany d ps).1
  | OFetch p => (JobFetchBatch d p).1
  | OMarkStarted p => (JobMarkStarted d p).1
  | ORescue p => (JobRescueStuck d p).1
  | OHeartbeat p => (JobHeartbeat d p).1
  | OSetState p => (JobSetStateIfRunning d p).1
  | OCancel id => (JobCancel d id).1
  | ODelete id => (JobDelete d id).1
  | OReschedule p => (JobReschedule d p).1
  | OPause n => (QueuePause d n).1
  | OResume n => (QueueResume d n).1
  | OElect p => (LeaderAttemptElect d p).1
  | OResign p => (LeaderResign d p).1
  | OCursorCreate p => (ScheduleCursorGetOrCreate d p).1
  | OCursorAdvance p => (ScheduleCursorAdvance d p).1
  | OReceive c => receive c d
  | OListener | OListen _ _ | OUnlisten _ _ | OClose _ => d
  end.

Definition exec (o : op) (w : World) : World :=
  let d := w_driver w in
  let ls := w_listeners w in
  match o with
  | OListener => mkWorld d (ls ++ [mkListener ∅])
  | OListen i q =>
      match ls !! i with
      | Some l => let '(d', l', _) := Listen d l q in mkWorld d' (<[i := l']> ls)
      | None => w
      end
  | OUnlisten i q =>
      match ls !! i with
      | Some l => let '(d', l') := Unlisten d l q in mkWorld d' (<[i := l']> ls)
      | None => w
      end
  | OClose i =>
      match ls !! i with
      | Some l => let '(d', l') := CloseListener d l in mkWorld d' (<[i := l']> ls)
      | None => w
      end
  | _ => mkWorld (exec_driver o d) ls
  end.

Definition run (ops : list op) (w : World) : World := foldl (λ w o, exec o w) w ops.

Definition init_world (c : Clock) : World := mkWorld (New c) [].
End world.

(** What a call can add to the machine counters. *)
Definition cost (o : op) : Z :=
  match o with OInsert ps => Z.of_nat (length ps) | OFetch _ => 1 | _ => 0 end.
Definition total_cost (ops : list op) : Z := foldr (λ o n, cost o + n) 0 ops.

(** ** The job-table invariant *)

Definition jobID (n : Z) : string := "mem_" +:+ FormatInt n.

(** [k] bounds the attempt counter. *)
Record row_wf (k : Z) (row : JobRow) : Prop := {
  wf_attempt : 0 ≤ AttemptNum row ≤ k;
  wf_running : State row = JobStateRunning → is_Some (AttemptedAt row) ∧ 1 ≤ AttemptNum row;
  wf_terminal : isTerminal (State row) = true → is_Some (FinalizedAt row)
}.

Record jobs_inv (k : Z) (d : Driver) : Prop := {
  ji_seq : 0 ≤ d_seq d ≤ k;
  ji_id : ∀ id row, d_jobs d !! id = Some row → ID row = id;
  ji_fresh : ∀ id row, d_jobs d !! id = Some row → ∃ n, 1 ≤ n ≤ d_seq d ∧ id = jobID n;
  ji_queue : ∀ id row, d_jobs d !! id = Some row → is_Some (d_queues d !! Queue row);
  ji_wf : ∀ id row, d_jobs d !! id = Some row → row_wf k row;
  ji_qname : ∀ name q, d_queues d !! name = Some q → q_Name q = name
}.

(** Channels registered for delivery are open and registered once; a listener
    owns the channels of its subscriptions. *)
Definition registered (d : Driver) (q : string) (c : nat) : Prop :=
  c ∈ default [] (d_notify d !! q).

Record chan_inv (w : World) : Prop := {
  ci_open : ∀ q c, registered (w_driver w) q c →
    ∃ b, d_heap (w_driver w) !! c = Some (mkChan b false);
  ci_once : ∀ q, NoDup (default [] (d_notify (w_driver w) !! q));
  ci_queue : ∀ q1 q2 c, registered (w_driver w) q1 c → registered (w_driver w) q2 c → q1 = q2;
  ci_subs : ∀ i l q c, w_listeners w !! i = Some l → l_subs l !! q = Some c →
    registered (w_driver w) q c;
  ci_owner : ∀ i j l1 l2 q1 q2 c,
    w_listeners w !! i = Some l1 → w_listeners w !! j = Some l2 →
    l_subs l1 !! q1 = Some c → l_subs l2 !! q2 = Some c → i = j;
  ci_cap : ∀ c ch, d_heap (w_driver w) !! c = Some ch → (length (ch_buf ch) ≤ chan_cap)%nat;
  ci_panic : d_panicked (w_driver w) = false
}.

(** ** Preservation: the job table *)

(** How an operation that creates no job may change the table: every row of the
    new table comes from a row of the old one with the same identity. *)
Record rows_from (k k' : Z) (d d' : Driver) : Prop := {
  rf_seq : d_seq d' = d_seq d;
  rf_queues : d_queues d' = d_queues d;
  rf_row : ∀ id row', d_jobs d' !! id = Some row' → ∃ row,
    d_jobs d !! id = Some row ∧ ID row' = ID row ∧ Queue row' = Queue row ∧
    (row_wf k row → row_wf k' row')
}.

Lemma row_wf_mono k k' row : k ≤ k' → row_wf k row → row_wf k' row.
Proof. intros Hk [H1 H2 H3]. split; [lia|done|done]. Qed.

Lemma jobs_inv_rows_from k k' d d' :
  k ≤ k' → jobs_inv k d → rows_from k k' d d' → jobs_inv k' d'.
Proof.
  intros Hk [Hs Hi Hf Hq Hw Hn] [Es Eq Hr]. split.
  - rewrite Es. lia.
  - intros id row' E. destruct (Hr _ _ E) as (row & E0 & -> & _). eauto.
  - intros id row' E. destruct (Hr _ _ E) as (row & E0 & _). rewrite Es. eauto.
  - intros id row' E. destruct (Hr _ _ E) as (row & E0 & _ & -> & _). rewrite Eq. eauto.
  - intros id row' E. destruct (Hr _ _ E) as (row & E0 & _ & _ & W). eauto.
  - rewrite Eq. done.
Qed.

Lemma rows_from_refl k d d' :
  d_seq d' = d_seq d → d_queues d' = d_queues d → d_jobs d' = d_jobs d → rows_from k k d d'.
Proof. intros Es Eq Ej. split; [done|done|]. rewrite Ej. eauto 10. Qed.

(** An update of one row. *)
Lemma rows_from_insert k d d' id row row' :
  d_seq d' = d_seq d → d_queues d' = d_queues d →
  d_jobs d !! id = Some row → d_jobs d' = <[id := row']> (d_jobs d) →
  ID row' = ID row → Queue row' = Queue row → (row_wf k row → row_wf k row') →
  rows_from k k d d'.
Proof.
  intros Es Eq Hrow Ej Hid Hqu Hwf. split; [done|done|].
  intros id' r. rewrite Ej, lookup_insert_Some.
  intros [[-> ->]|[_ Hr]]; eauto 10.
Qed.
#[export] Hint Resolve rows_from_refl : mem.

Lemma isTerminal_running : isTerminal JobStateRunning = false.
Proof. done. Qed.

(** Row-level facts: each update keeps the row well formed. *)
Lemma promote_wf k q now row : row_wf k row → row_wf k (promote q now row).
Proof.
  unfold promote. intros Hw. case_match; [|done]. destruct Hw as [H1 H2 H3]. by split.
Qed.

Lemma claim_wf k p now row :
  0 ≤ k → k + 1 < 2 ^ 63 → row_wf k row → row_wf (k + 1) (claim p now row).
Proof.
  intros Hk Hb [H1 H2 H3].
  assert (wrap64 (AttemptNum row + 1) = AttemptNum row + 1) as E.
  { apply wrap64_id. unfold is_int64, int64_min, int64_max. lia. }
  split; simpl; rewrite ?E; [lia|..|done]. intros _. split; [eauto|lia].
Qed.

Lemma release_wf k row : row_wf k row → row_wf k (releaseRow row).
Proof. intros [H1 H2 H3]. by split. Qed.

Lemma yield_wf k row :
  k < 2 ^ 63 → State row = JobStateRunning → row_wf k row → row_wf k (yieldRow row).
Proof.
  intros Hb Hs [H1 H2 H3]. destruct (H2 Hs) as [_ Ha].
  assert (wrap64 (AttemptNum row - 1) = AttemptNum row - 1) as E.
  { apply wrap64_id. unfold is_int64, int64_min, int64_max. lia. }
  split; simpl; rewrite ?E; [lia|done..].
Qed.

Lemma transition_fields p t1 t2 row :
  ID (transitionRow p t1 t2 row) = ID row ∧ Queue (transitionRow p t1 t2 row) = Queue row ∧
  UniqueKey (transitionRow p t1 t2 row) = UniqueKey row ∧
  AttemptNum (transitionRow p t1 t2 row) = AttemptNum row ∧
  AttemptedAt (transitionRow p t1 t2 row) = AttemptedAt row.
Proof. unfold transitionRow. by repeat case_match. Qed.

(** The state a transition leaves behind. *)
Definition resultState (p : JobSetStateParams) : JobState :=
  if bool_decide (sp_State p = JobStateRetryable) && negb (IsZero (sp_RetryAt p))
  then JobStateAvailable else sp_State p.

Lemma transition_state p t1 t2 row : State (transitionRow p t1 t2 row) = resultState p.
Proof. unfold transitionRow, resultState. by repeat case_match. Qed.

Lemma transition_final p t1 t2 row :
  FinalizedAt (transitionRow p t1 t2 row) =
    if isTerminal (sp_State p) then Some t2 else FinalizedAt row.
Proof. unfold transitionRow. by repeat case_match. Qed.

Lemma transition_wf k p t1 t2 row :
  State row = JobStateRunning → row_wf k row → row_wf k (transitionRow p t1 t2 row).
Proof.
  intros Hs [H1 H2 H3]. destruct (H2 Hs) as [Ha Hn].
  destruct (transition_fields p t1 t2 row) as (_ & _ & _ & En & Ea).
  split; rewrite ?En, ?Ea; [done|done|].
  rewrite transition_state, transition_final. unfold resultState.
  case_match eqn:E; [done|]. by intros ->.
Qed.

Section inv.
Context `{MapRange}.

(** *** The rows a fetch claims *)

Lemma claimAll_notin p now chosen m id :
  id ∉ chosen.*1 → claimAll p now chosen m !! id = m !! id.
Proof.
  unfold claimAll. revert m. induction chosen as [|[i r] l IH]; intros m Hid; [done|].
  simpl in *. rewrite IH by set_solver. rewrite lookup_insert_ne by set_solver. done.
Qed.

Lemma claimAll_in p now chosen m id row :
  NoDup chosen.*1 → (id, row) ∈ chosen →
  claimAll p now chosen m !! id = Some (claim p now row).
Proof.
  revert m. induction chosen as [|[i r] l IH]; intros m Hnd Hin; [set_solver|].
  simpl in Hnd. apply NoDup_cons in Hnd as [Hi Hnd].
  apply elem_of_cons in Hin as [[= <- <-]|Hin].
  - change (claimAll p now l (<[id:=claim p now row]> m) !! id = Some (claim p now row)).
    rewrite claimAll_notin by done. apply lookup_insert_eq.
  - apply (IH (<[i:=claim p now r]> m) Hnd Hin).
Qed.

Lemma elem_of_candidates q now m id row :
  (id, row) ∈ fetchCandidates q now m ↔ m !! id = Some row ∧ isCandidate q now row = true.
Proof.
  unfold fetchCandidates. rewrite sort_by_perm, list_elem_of_filter, elem_of_range. naive_solver.
Qed.

Lemma candidates_nodup q now m : NoDup (fetchCandidates q now m).*1.
Proof.
  unfold fetchCandidates. rewrite sort_by_perm. apply filter_fst_nodup, range_fst_nodup.
Qed.

(** What one fetch picks. *)
Definition fetchChosen (d : Driver) (p : FetchParams) (now : Instant) : list (string * JobRow) :=
  let candidates := fetchCandidates (fp_Queue p) now (promote (fp_Queue p) now <$> d_jobs d) in
  take (fetchLimit (fp_Limit p) (length candidates)) candidates.

Lemma chosen_nodup d p now : NoDup (fetchChosen d p now).*1.
Proof.
  unfold fetchChosen. rewrite fmap_take.
  eapply sublist_NoDup; [apply candidates_nodup|apply sublist_take].
Qed.

Lemma elem_of_chosen d p now id row :
  (id, row) ∈ fetchChosen d p now →
  (promote (fp_Queue p) now <$> d_jobs d) !! id = Some row ∧
  isCandidate (fp_Queue p) now row = true.
Proof.
  intros Hin. apply elem_of_candidates.
  unfold fetchChosen in Hin. eapply elem_of_take in Hin as (i & Hi & _).
  by eapply list_elem_of_lookup_2.
Qed.

(** The table after a fetch, entry by entry. *)
Definition fetched (d : Driver) (p : FetchParams) (now : Instant) : gmap string JobRow :=
  claimAll p now (fetchChosen d p now) (promote (fp_Queue p) now <$> d_jobs d).

Lemma fetched_lookup d p now id row' :
  fetched d p now !! id = Some row' →
  ∃ row, d_jobs d !! id = Some row ∧
    (row' = promote (fp_Queue p) now row ∧ id ∉ (fetchChosen d p now).*1 ∨
     row' = claim p now (promote (fp_Queue p) now row) ∧
     (id, promote (fp_Queue p) now row) ∈ fetchChosen d p now).
Proof.
  unfold fetched. destruct (decide (id ∈ (fetchChosen d p now).*1)) as [Hin|Hni].
  - apply list_elem_of_fmap in Hin as ([i r] & -> & Hin). simpl.
    rewrite (claimAll_in _ _ _ _ _ r) by (done || apply chosen_nodup).
    intros [= <-]. pose proof (elem_of_chosen _ _ _ _ _ Hin) as [Hl _].
    rewrite lookup_fmap, fmap_Some in Hl. destruct Hl as (row & Hrow & ->). eauto.
  - rewrite claimAll_notin by done. rewrite lookup_fmap, fmap_Some.
    intros (row & Hrow & ->). eauto.
Qed.

Lemma JobFetchBatch_eq d p :
  JobFetchBatch d p =
    match d_queues d !! fp_Queue p with
    | Some q =>
        if q_Paused q then (d, Ok []) else
        let now := (dNow d).1 in
        (set_jobs (fetched d p now) (dNow d).2, Ok ((λ kv, claim p now kv.2) <$> fetchChosen d p now))
    | None => (d, Ok [])
    end.
Proof. done. Qed.

Lemma promote_fields q now row :
  ID (promote q now row) = ID row ∧ Queue (promote q now row) = Queue row ∧
  UniqueKey (promote q now row) = UniqueKey row.
Proof. unfold promote. by case_match. Qed.

Lemma fetch_rows_from k d p :
  0 ≤ k → k + 1 < 2 ^ 63 → rows_from k (k + 1) d (JobFetchBatch d p).1.
Proof.
  intros Hk Hb. rewrite JobFetchBatch_eq.
  assert (rows_from k (k + 1) d d) as Hsame.
  { split; [done..|]. intros id row' Hr. exists row'. split_and!; [done..|].
    apply row_wf_mono. lia. }
  destruct (d_queues d !! fp_Queue p) as [qr|]; [|done].
  destruct (q_Paused qr); [done|]. split; [done..|].
  intros id row' Hr. destruct (fetched_lookup _ _ _ _ _ Hr) as (row & Hrow & Hc).
  destruct (promote_fields (fp_Queue p) (dNow d).1 row) as (E1 & E2 & _).
  exists row. split; [done|].
  destruct Hc as [[-> _]|[-> _]]; split_and!; try done.
  - intros. apply (row_wf_mono k); [lia|]. by apply promote_wf.
  - intros. apply claim_wf; [lia|lia|]. by apply promote_wf.
Qed.

(** *** The other updates of existing rows *)

Lemma markStarted_rows_from k d p : rows_from k k d (JobMarkStarted d p).1.
Proof.
  unfold JobMarkStarted. destruct (d_jobs d !! ms_ID p) as [row|] eqn:E; [|eauto with mem].
  case_match; [|eauto with mem].
  eapply rows_from_insert; try done. intros [H1 H2 H3]. by split.
Qed.

Lemma heartbeat_rows_from k d p : rows_from k k d (JobHeartbeat d p).1.
Proof.
  unfold JobHeartbeat. destruct (d_jobs d !! hp_ID p) as [row|] eqn:E; [|eauto with mem].
  case_match; [|eauto with mem].
  eapply rows_from_insert; try done. intros [H1 H2 H3]. by split.
Qed.

Lemma rescue_rows_from k d p : rows_from k k d (JobRescueStuck d p).1.
Proof.
  split; [done..|]. intros id row'. simpl. rewrite lookup_fmap, fmap_Some.
  intros (row & Hrow & ->). exists row. unfold rescueRow.
  case_match; split_and!; try done. apply release_wf.
Qed.

Lemma setState_rows_from k d p :
  k < 2 ^ 63 → rows_from k k d (JobSetStateIfRunning d p).1.
Proof.
  intros Hk. unfold JobSetStateIfRunning.
  destruct (d_jobs d !! sp_ID p) as [row|] eqn:E; [|eauto with mem].
  destruct (bool_decide (State row = JobStateRunning)) eqn:Es; [|eauto with mem].
  bool_to_prop. simpl. case_match; [|eauto with mem].
  destruct (sp_Yield p).
  - eapply rows_from_insert; try done. by apply yield_wf.
  - destruct (sp_Err p), (isTerminal (sp_State p)); simpl;
      (eapply rows_from_insert; [done..|apply transition_fields|apply transition_fields|
         by apply transition_wf]).
Qed.

Lemma cancel_rows_from k d id : rows_from k k d (JobCancel d id).1.
Proof.
  unfold JobCancel. destruct (d_jobs d !! id) as [row|] eqn:E; [|eauto with mem].
  case_match; [eauto with mem|].
  eapply rows_from_insert; try done. intros [H1 H2 H3]. by split.
Qed.

Lemma delete_rows_from k d id : rows_from k k d (JobDelete d id).1.
Proof.
  unfold JobDelete. destruct (d_jobs d !! id) as [row|] eqn:E; [|eauto with mem].
  split; [done..|]. intros id' row'. simpl. rewrite lookup_delete_Some. intros [_ Hr]. eauto 10.
Qed.

Lemma reschedule_rows_from k d p : rows_from k k d (JobReschedule d p).1.
Proof.
  unfold JobReschedule. destruct (d_jobs d !! rs_ID p) as [row|] eqn:E; [|eauto with mem].
  eapply rows_from_insert; try done. intros [H1 H2 H3]. by split.
Qed.

(** *** Inserts *)

Lemma trySend_frame q d c :
  d_jobs (trySend q d c) = d_jobs d ∧ d_seq (trySend q d c) = d_seq d ∧
  d_queues (trySend q d c) = d_queues d ∧ d_notify (trySend q d c) = d_notify d.
Proof. unfold trySend. by repeat case_match. Qed.

Lemma broadcast_frame q d :
  d_jobs (broadcastNotify q d) = d_jobs d ∧ d_seq (broadcastNotify q d) = d_seq d ∧
  d_queues (broadcastNotify q d) = d_queues d ∧ d_notify (broadcastNotify q d) = d_notify d.
Proof.
  unfold broadcastNotify. generalize (default [] (d_notify d !! q)) as l. intros l.
  revert d. induction l as [|c l IH]; intros d; [done|]. simpl.
  destruct (IH (trySend q d c)) as (-> & -> & -> & ->). apply trySend_frame.
Qed.

Lemma ensureQueue_frame name now d :
  d_jobs (ensureQueue name now d) = d_jobs d ∧ d_seq (ensureQueue name now d) = d_seq d ∧
  d_notify (ensureQueue name now d) = d_notify d ∧ d_heap (ensureQueue name now d) = d_heap d ∧
  d_panicked (ensureQueue name now d) = d_panicked d.
Proof. unfold ensureQueue. by case_match. Qed.

Lemma ensureQueue_lookup name now d n :
  d_queues (ensureQueue name now d) !! n =
    if decide (n = name)
    then Some (default (mkQueueRow name false now now) (d_queues d !! name))
    else d_queues d !! n.
Proof.
  unfold ensureQueue. destruct (d_queues d !! name) as [q|] eqn:E; simpl; case_decide; subst.
  - done.
  - done.
  - apply lookup_insert_eq.
  - by apply lookup_insert_ne.
Qed.

(** The job table, counter and queues after a fresh insert. *)
Lemma insertFresh_frame d p (row := newRow p (jobID (wrapu64 (d_seq d + 1))) (dNow d).1) :
  d_jobs (insertFresh d p).1 = <[ID row := row]> (d_jobs d) ∧
  d_seq (insertFresh d p).1 = wrapu64 (d_seq d + 1) ∧
  d_queues (insertFresh d p).1 = d_queues (ensureQueue (ip_Queue p) (dNow d).1 d) ∧
  (insertFresh d p).2 = mkJobInsertResult (Some row) false.
Proof.
  unfold insertFresh. simpl.
  match goal with |- context [broadcastNotify _ ?x] => set (d4 := x) end.
  destruct (broadcast_frame (ip_Queue p) d4) as (-> & -> & -> & _).
  subst d4. unfold ensureQueue. simpl. by case_match.
Qed.

Lemma newRow_wf k p id now : 0 ≤ k → row_wf k (newRow p id now).
Proof. intros Hk. split; simpl; [lia|..]; by case_match. Qed.

Lemma insertFresh_inv k d p :
  jobs_inv k d → k + 1 < 2 ^ 63 → jobs_inv (k + 1) (insertFresh d p).1.
Proof.
  intros [Hs Hi Hf Hq Hw Hn] Hb.
  destruct (insertFresh_frame d p) as (Ej & Es & Eq & _).
  assert (wrapu64 (d_seq d + 1) = d_seq d + 1) as Eu.
  { unfold wrapu64. apply Z.mod_small. lia. }
  rewrite Eu in *. split; rewrite ?Ej, ?Es, ?Eq.
  - lia.
  - intros id row. rewrite lookup_insert_Some. intros [[<- <-]|[_ Hr]]; eauto.
  - intros id row. rewrite lookup_insert_Some. intros [[<- <-]|[_ Hr]].
    + exists (d_seq d + 1). split; [lia|done].
    + destruct (Hf _ _ Hr) as (n & Hn' & ->). exists n. split; [lia|done].
  - intros id row. rewrite lookup_insert_Some, ensureQueue_lookup. intros [[<- <-]|[_ Hr]].
    + rewrite decide_True by done. eauto.
    + case_decide; eauto.
  - intros id row. rewrite lookup_insert_Some. intros [[<- <-]|[_ Hr]].
    + apply newRow_wf. lia.
    + eapply row_wf_mono; [|eauto]. lia.
  - intros name q. rewrite ensureQueue_lookup. case_decide; subst; eauto.
    intros [= <-]. destruct (d_queues d !! ip_Queue p) eqn:E; simpl; eauto.
Qed.

Lemma jobs_inv_mono k k' d : k ≤ k' → jobs_inv k d → jobs_inv k' d.
Proof.
  intros Hk Hinv. eapply jobs_inv_rows_from; [done..|].
  split; [done..|]. intros id row Hr. exists row. split_and!; try done.
  by apply row_wf_mono.
Qed.

Lemma insertOne_inv k d p :
  jobs_inv k d → k + 1 < 2 ^ 63 → jobs_inv (k + 1) (insertOne d p).1.
Proof.
  intros Hinv Hb. unfold insertOne. repeat case_match; try by apply insertFresh_inv.
  apply (jobs_inv_mono k); [lia|done].
Qed.

Lemma insertMany_inv ps : ∀ k d,
  jobs_inv k d → k + Z.of_nat (length ps) < 2 ^ 63 →
  jobs_inv (k + Z.of_nat (length ps)) (JobInsertMany d ps).1.
Proof.
  unfold JobInsertMany. induction ps as [|p ps IH]; intros k d Hinv Hb; simpl in *.
  - by rewrite Z.add_0_r.
  - pose proof (insertOne_inv k d p Hinv ltac:(lia)) as H1.
    destruct (insertOne d p) as [d1 r]. simpl in *.
    specialize (IH (k + 1) d1 H1 ltac:(lia)).
    destruct (insertLoop d1 ps) as [d2 rs]. simpl in *.
    by replace (k + Z.of_nat (S (length ps))) with (k + 1 + Z.of_nat (length ps)) by lia.
Qed.

(** Calls that do not touch jobs or queues. *)
Lemma jobs_inv_frame k d d' :
  d_seq d' = d_seq d → d_queues d' = d_queues d → d_jobs d' = d_jobs d →
  jobs_inv k d → jobs_inv k d'.
Proof. intros. eapply jobs_inv_rows_from; [done..|]. eauto with mem. Qed.

Lemma setPaused_inv k d n b : jobs_inv k d → jobs_inv k (queueSetPaused d n b).1.
Proof.
  intros [Hs Hi Hf Hq Hw Hn]. unfold queueSetPaused. simpl.
  match goal with |- context [ensureQueue n ?t ?x] => set (d1 := x); set (t0 := t) end.
  destruct (ensureQueue_frame n t0 d1) as (Ej & Es & _).
  split; simpl; rewrite ?Ej, ?Es; try done.
  - intros id row Hr. specialize (Hq _ _ Hr). apply lookup_alter_is_Some.
    rewrite ensureQueue_lookup. case_decide; eauto.
  - intros name q. rewrite lookup_alter_Some, ensureQueue_lookup.
    intros [(-> & q0 & Hq0 & ->)|[Hne Hq0]].
    + rewrite decide_True in Hq0 by done. injection Hq0 as <-. simpl.
      destruct (d_queues d !! name) eqn:E; simpl; eauto.
    + rewrite decide_False in Hq0 by done. eauto.
Qed.

(** Every driver call preserves the invariant, with the counters growing by
    at most its cost. *)
Lemma exec_driver_inv k o d :
  jobs_inv k d → k + cost o < 2 ^ 63 → jobs_inv (k + cost o) (exec_driver o d).
Proof.
  intros Hinv Hb. pose proof (ji_seq _ _ Hinv).
  destruct o; simpl in *; rewrite ?Z.add_0_r in *;
    first [ by apply insertMany_inv
          | by apply setPaused_inv
          | eapply jobs_inv_rows_from; [|exact Hinv|
              first [ apply fetch_rows_from; lia | apply setState_rows_from; lia
                    | apply markStarted_rows_from | apply heartbeat_rows_from
                    | apply rescue_rows_from | apply cancel_rows_from
                    | apply delete_rows_from | apply reschedule_rows_from ]]; lia
          | done
          | eapply jobs_inv_frame; [..|exact Hinv] ].
  all: unfold LeaderAttemptElect, LeaderResign, ScheduleCursorGetOrCreate,
         ScheduleCursorAdvance, receive; simpl; by repeat case_match.
Qed.
End inv.

(** ** Preservation: notification channels *)

(** A call that sends and receives but opens and closes nothing. *)
Record chans_kept (d d' : Driver) : Prop := {
  ck_notify : d_notify d' = d_notify d;
  ck_panic : d_panicked d' = d_panicked d;
  ck_heap : ∀ c, match d_heap d !! c, d_heap d' !! c with
                 | Some ch, Some ch' => ch_closed ch' = ch_closed ch ∧
                     ((length (ch_buf ch) ≤ chan_cap)%nat → (length (ch_buf ch') ≤ chan_cap)%nat)
                 | None, None => True
                 | _, _ => False
                 end
}.

Lemma chans_kept_same d d' :
  d_notify d' = d_notify d → d_panicked d' = d_panicked d → d_heap d' = d_heap d → chans_kept d d'.
Proof. intros E1 E2 E3. split; [done..|]. intros c. rewrite E3. by case_match. Qed.

#[export] Instance chans_kept_refl : Reflexive chans_kept.
Proof. intros d. by apply chans_kept_same. Qed.

#[export] Instance chans_kept_trans : Transitive chans_kept.
Proof.
  intros d1 d2 d3 [N1 P1 H1] [N2 P2 H2]. split; [congruence..|].
  intros c. specialize (H1 c). specialize (H2 c). repeat case_match; naive_solver congruence.
Qed.

Lemma chans_kept_set_heap d c ch ch' :
  d_heap d !! c = Some ch → ch_closed ch' = ch_closed ch →
  ((length (ch_buf ch) ≤ chan_cap)%nat → (length (ch_buf ch') ≤ chan_cap)%nat) →
  chans_kept d (set_heap (<[c := ch']> (d_heap d)) d).
Proof.
  intros Hc Hcl Hb. split; [done..|]. intros c'. simpl.
  destruct (decide (c' = c)) as [->|].
  - rewrite Hc, list_lookup_insert_eq by (by eapply lookup_lt_Some). done.
  - rewrite list_lookup_insert_ne by done. by case_match.
Qed.

Definition open_chan (d : Driver) (c : nat) : Prop :=
  ∃ ch, d_heap d !! c = Some ch ∧ ch_closed ch = false.

Lemma open_chan_kept d d' c : chans_kept d d' → open_chan d c → open_chan d' c.
Proof.
  intros [_ _ Hh] (ch & Hc & Hcl). specialize (Hh c). rewrite Hc in Hh.
  unfold open_chan. destruct (d_heap d' !! c); naive_solver congruence.
Qed.

Lemma trySend_kept q d c : open_chan d c → chans_kept d (trySend q d c).
Proof.
  intros (ch & Hc & Hcl). unfold trySend. rewrite Hc, Hcl. case_bool_decide; [|done].
  eapply chans_kept_set_heap; [done..|]. simpl. rewrite length_app. simpl. lia.
Qed.

Lemma broadcast_kept q d :
  (∀ c, registered d q c → open_chan d c) → chans_kept d (broadcastNotify q d).
Proof.
  unfold broadcastNotify, registered. generalize (default [] (d_notify d !! q)) as l.
  intros l. revert d. induction l as [|c l IH]; intros d Ho; [done|]. simpl.
  assert (chans_kept d (trySend q d c)) as Hk by (apply trySend_kept, Ho; set_solver).
  etrans; [exact Hk|]. apply IH. intros c' Hc'. eapply open_chan_kept; [done|].
  apply Ho. set_solver.
Qed.

Definition delivers (d : Driver) : Prop := ∀ q c, registered d q c → open_chan d c.

Lemma delivers_kept d d' : chans_kept d d' → delivers d → delivers d'.
Proof.
  intros Hk Hd q c. unfold registered. rewrite (ck_notify _ _ Hk). intros Hc.
  eapply open_chan_kept; [done|]. by eapply Hd.
Qed.

Section chans.
Context `{MapRange}.

Lemma insertFresh_kept d p : delivers d → chans_kept d (insertFresh d p).1.
Proof.
  intros Hd. unfold insertFresh. simpl.
  match goal with |- context [broadcastNotify _ ?x] => set (d4 := x) end.
  assert (chans_kept d d4) as Hk.
  { subst d4. unfold ensureQueue. simpl. by case_match; apply chans_kept_same. }
  etrans; [exact Hk|]. apply broadcast_kept. eapply delivers_kept; eauto.
Qed.

Lemma insertOne_kept d p : delivers d → chans_kept d (insertOne d p).1.
Proof. intros Hd. unfold insertOne. repeat case_match; try done; by apply insertFresh_kept. Qed.

Lemma insertMany_kept ps : ∀ d, delivers d → chans_kept d (JobInsertMany d ps).1.
Proof.
  unfold JobInsertMany. induction ps as [|p ps IH]; intros d Hd; [done|]. simpl.
  pose proof (insertOne_kept d p Hd) as Hk. destruct (insertOne d p) as [d1 r]. simpl in *.
  specialize (IH d1 (delivers_kept _ _ Hk Hd)). destruct (insertLoop d1 ps). simpl in *.
  by etrans.
Qed.

Lemma exec_driver_kept o d : delivers d → chans_kept d (exec_driver o d).
Proof.
  intros Hd. destruct o; simpl; try done; try by apply insertMany_kept.
  all: unfold JobFetchBatch, JobMarkStarted, JobHeartbeat, JobSetStateIfRunning, JobCancel,
    JobDelete, JobReschedule, LeaderAttemptElect, LeaderResign, ScheduleCursorGetOrCreate,
    ScheduleCursorAdvance, QueuePause, QueueResume, queueSetPaused, ensureQueue, receive, dNow;
    simpl.
  all: repeat case_match; simplify_eq/=; try done; try by apply chans_kept_same.
  eapply chans_kept_set_heap; [done..|]. simpl. destruct (ch_buf _); simpl; lia.
Qed.

Lemma chan_inv_kept d d' ls :
  chans_kept d d' → chan_inv (mkWorld d ls) → chan_inv (mkWorld d' ls).
Proof.
  intros Hk [Ho Hn Hq Hs Hw Hc Hp]. unfold registered in *. simpl in *.
  pose proof (ck_notify _ _ Hk) as En. pose proof (ck_heap _ _ Hk) as Eh.
  split; unfold registered; simpl; rewrite ?En; try done.
  - intros q c Hr. destruct (Ho _ _ Hr) as [b Hb]. specialize (Eh c). rewrite Hb in Eh.
    destruct (d_heap d' !! c) as [[b' cl]|]; [|done]. simpl in Eh. destruct Eh as [-> _]. eauto.
  - intros c ch Hch. specialize (Eh c). rewrite Hch in Eh.
    destruct (d_heap d !! c) eqn:E; [|done]. apply Eh. eauto.
  - rewrite (ck_panic _ _ Hk). done.
Qed.

Lemma chan_inv_delivers w : chan_inv w → delivers (w_driver w).
Proof. intros Hi q c Hr. destruct (ci_open _ Hi _ _ Hr) as [b Hb]. unfold open_chan. eauto. Qed.
End chans.

(** *** Subscribing and unsubscribing *)

Lemma removeFirst_elem o l c : NoDup l → c ∈ removeFirst o l ↔ c ∈ l ∧ c ≠ o.
Proof.
  induction l as [|x l IH]; intros Hnd; simpl; [set_solver|].
  apply NoDup_cons in Hnd as [Hx Hnd]. case_bool_decide; subst; [set_solver|].
  rewrite !elem_of_cons, IH by done. naive_solver.
Qed.

Lemma removeFirst_sublist o l : removeFirst o l `sublist_of` l.
Proof.
  induction l as [|x l IH]; simpl; [constructor|].
  case_bool_decide; [by constructor|]. by constructor.
Qed.

Section subs.
Context `{MapRange}.

Lemma Listen_registered d l q q' c :
  registered (Listen d l q).1.1 q' c ↔ registered d q' c ∨ q' = q ∧ c = length (d_heap d).
Proof.
  unfold registered, Listen. simpl. destruct (decide (q' = q)) as [->|].
  - rewrite lookup_insert_eq. simpl. set_solver.
  - rewrite lookup_insert_ne by done. naive_solver.
Qed.

Lemma Listen_inv d ls i l q :
  ls !! i = Some l → chan_inv (mkWorld d ls) →
  chan_inv (mkWorld (Listen d l q).1.1 (<[i := (Listen d l q).1.2]> ls)).
Proof.
  intros Hi [Ho Hn Hq Hs Hw Hc Hp].
  assert (∀ q' c, registered d q' c → (c < length (d_heap d))%nat) as Hlt.
  { intros q' c Hr. destruct (Ho _ _ Hr). by eapply lookup_lt_Some. }
  assert (∀ j l' q' c, <[i := (Listen d l q).1.2]> ls !! j = Some l' → l_subs l' !! q' = Some c →
    (∃ l0, ls !! j = Some l0 ∧ l_subs l0 !! q' = Some c) ∨
    (j = i ∧ q' = q ∧ c = length (d_heap d))) as Hsub.
  { intros j l' q' c. rewrite list_lookup_insert_Some. intros [(<- & <- & _)|[_ Hj]]; [|eauto].
    simpl. rewrite lookup_insert_Some. naive_solver. }
  split; cbn [w_driver w_listeners].
  - intros q' c. rewrite Listen_registered. intros [Hr|[-> ->]].
    + destruct (Ho _ _ Hr) as [b Hb]. exists b. simpl. rewrite lookup_app_l by eauto. done.
    + exists []. simpl. by rewrite list_lookup_middle.
  - intros q'. simpl. destruct (decide (q' = q)) as [->|].
    + rewrite lookup_insert_eq. simpl. apply NoDup_app. split_and!; [apply Hn| |apply NoDup_singleton].
      intros c Hc' ->%list_elem_of_singleton. specialize (Hlt q _ Hc'). lia.
    + rewrite lookup_insert_ne by done. apply Hn.
  - intros q1 q2 c. rewrite !Listen_registered. intros [H1|[-> ->]] [H2|[-> ?]]; try done.
    + by eapply Hq.
    + subst. apply Hlt in H1. lia.
    + apply Hlt in H2. lia.
  - intros j l' q' c Hj Hc'. rewrite Listen_registered.
    destruct (Hsub _ _ _ _ Hj Hc') as [(l0 & ? & ?)|(-> & -> & ->)]; [left; by eapply Hs|by right].
  - intros j1 j2 l1 l2 q1 q2 c H1 H2 E1 E2.
    destruct (Hsub _ _ _ _ H1 E1) as [(l0 & ? & ?)|(-> & -> & ->)];
    destruct (Hsub _ _ _ _ H2 E2) as [(l0' & ? & ?)|(-> & -> & Ec)]; try done.
    + by eapply (Hw j1 j2).
    + subst. pose proof (Hlt _ _ (Hs _ _ _ _ ltac:(done) ltac:(done))). simpl in *. lia.
    + pose proof (Hlt _ _ (Hs _ _ _ _ ltac:(done) ltac:(done))). simpl in *. lia.
  - intros c ch. simpl. rewrite lookup_app_Some. intros [Hh|[_ Hh]]; [eauto|].
    apply list_lookup_singleton_Some in Hh as [_ <-]. simpl. lia.
  - done.
Qed.

(** The table of registrations after a removal. *)
Lemma removeSub_registered d l q o q' c :
  l_subs l !! q = Some o → (∀ q, NoDup (default [] (d_notify d !! q))) →
  registered (removeSub d l q).1 q' c ↔ registered d q' c ∧ (q' = q → c ≠ o).
Proof.
  intros Ho Hnd. unfold registered, removeSub. rewrite Ho. simpl.
  set (chs := removeFirst o _).
  assert (∀ d, d_notify (closeChan o d) = d_notify d) as Ecl.
  { intros d0. unfold closeChan. by repeat case_match. }
  rewrite Ecl. simpl. destruct (decide (q' = q)) as [->|Hne].
  - assert (c ∈ chs ↔ c ∈ default [] (d_notify d !! q) ∧ c ≠ o) as Hel by (by apply removeFirst_elem).
    case_bool_decide as Hnil; [rewrite lookup_delete_eq; simpl; rewrite Hnil in Hel|
      rewrite lookup_insert_eq; simpl]; naive_solver.
  - case_bool_decide; [rewrite lookup_delete_ne by done|rewrite lookup_insert_ne by done]; naive_solver.
Qed.

Lemma removeSub_notify_nodup d l q q' :
  (∀ q, NoDup (default [] (d_notify d !! q))) →
  NoDup (default [] (d_notify (removeSub d l q).1 !! q')).
Proof.
  intros Hnd. unfold removeSub. destruct (l_subs l !! q) as [o|]; [|done]. simpl.
  assert (∀ d, d_notify (closeChan o d) = d_notify d) as Ecl.
  { intros d0. unfold closeChan. by repeat case_match. }
  rewrite Ecl. simpl. pose proof (removeFirst_sublist o (default [] (d_notify d !! q))) as Hsl.
  apply sublist_NoDup in Hsl; [|done]. destruct (decide (q' = q)) as [->|].
  - case_bool_decide; [rewrite lookup_delete_eq|rewrite lookup_insert_eq]; [constructor|done].
  - case_bool_decide; [rewrite lookup_delete_ne by done|rewrite lookup_insert_ne by done]; done.
Qed.

Lemma removeSub_heap d l q o b :
  l_subs l !! q = Some o → d_heap d !! o = Some (mkChan b false) →
  d_heap (removeSub d l q).1 = <[o := mkChan b true]> (d_heap d) ∧
  d_panicked (removeSub d l q).1 = d_panicked d.
Proof. intros Ho Hb. unfold removeSub, closeChan. rewrite Ho. simpl. rewrite Hb. done. Qed.

Lemma removeSub_inv d ls i l q :
  ls !! i = Some l → chan_inv (mkWorld d ls) →
  chan_inv (mkWorld (removeSub d l q).1 (<[i := (removeSub d l q).2]> ls)).
Proof.
  intros Hi Hinv. destruct (l_subs l !! q) as [o|] eqn:Eo.
  2: { unfold removeSub. rewrite Eo. simpl. by rewrite list_insert_id. }
  destruct Hinv as [Ho Hn Hq Hs Hw Hc Hp]; simpl in *.
  pose proof (Hs _ _ _ _ Hi Eo) as Hreg. destruct (Ho _ _ Hreg) as [b Hb].
  destruct (removeSub_heap _ _ _ _ _ Eo Hb) as [Eh Ep].
  pose proof (λ q' c, removeSub_registered d l q o q' c Eo Hn) as Hrs.
  assert (∀ q' c, registered (removeSub d l q).1 q' c → registered d q' c ∧ c ≠ o) as Hrs'.
  { intros q' c [Hr Hne]%Hrs. split; [done|]. intros ->. by apply (Hne (Hq _ _ _ Hr Hreg)). }
  assert (∀ j l' q' c, <[i := (removeSub d l q).2]> ls !! j = Some l' → l_subs l' !! q' = Some c →
    (j = i → q' ≠ q) ∧ ∃ l0, ls !! j = Some l0 ∧ l_subs l0 !! q' = Some c) as Hsub.
  { intros j l' q' c. rewrite list_lookup_insert_Some. intros [(<- & <- & _)|[Hne Hj]]; [|naive_solver].
    unfold removeSub. rewrite Eo. simpl. rewrite lookup_delete_Some. naive_solver. }
  split; simpl; rewrite ?Eh, ?Ep; try done.
  - intros q' c [Hr Hne]%Hrs'. rewrite list_lookup_insert_ne by done. eauto.
  - intros q'. by apply removeSub_notify_nodup.
  - intros q1 q2 c [H1 _]%Hrs' [H2 _]%Hrs'. eauto.
  - intros j l' q' c Hj Hc'. destruct (Hsub _ _ _ _ Hj Hc') as (Hne & l0 & Hl0 & Hc0).
    apply Hrs. split; [by eapply Hs|]. intros -> ->.
    pose proof (Hw _ _ _ _ _ _ _ Hl0 Hi Hc0 Eo) as ->. by apply Hne.
  - intros j1 j2 l1 l2 q1 q2 c H1 H2 E1 E2.
    destruct (Hsub _ _ _ _ H1 E1) as (_ & l0 & ? & ?).
    destruct (Hsub _ _ _ _ H2 E2) as (_ & l0' & ? & ?). by eapply (Hw j1 j2).
  - intros c ch. rewrite list_lookup_insert_Some. intros [(-> & <- & _)|[_ Hh]]; [|eauto].
    by apply (Hc _ _ Hb).
Qed.

Lemma Close_inv d ls i l :
  ls !! i = Some l → chan_inv (mkWorld d ls) →
  chan_inv (mkWorld (CloseListener d l).1 (<[i := (CloseListener d l).2]> ls)).
Proof.
  unfold CloseListener. generalize (range_map (l_subs l)) as qs. intros qs.
  revert d ls l. induction qs as [|[q c] qs IH]; intros d ls l Hi Hinv; simpl.
  - by rewrite list_insert_id.
  - pose proof (removeSub_inv d ls i l q Hi Hinv) as H1.
    destruct (removeSub d l q) as [d1 l1]. simpl in *.
    specialize (IH d1 (<[i := l1]> ls) l1).
    rewrite list_insert_insert in IH. rewrite decide_True in IH by done. apply IH; [|done].
    apply list_lookup_insert_eq. by eapply lookup_lt_Some.
Qed.
End subs.

(** ** The invariant of a world *)

Definition world_inv (k : Z) (w : World) : Prop := jobs_inv k (w_driver w) ∧ chan_inv w.

Section runs.
Context `{MapRange}.

Lemma removeSub_jobs d l q :
  d_jobs (removeSub d l q).1 = d_jobs d ∧ d_seq (removeSub d l q).1 = d_seq d ∧
  d_queues (removeSub d l q).1 = d_queues d.
Proof. unfold removeSub, closeChan. by repeat case_match; simplify_eq/=. Qed.

Lemma Close_jobs d l :
  d_jobs (CloseListener d l).1 = d_jobs d ∧ d_seq (CloseListener d l).1 = d_seq d ∧
  d_queues (CloseListener d l).1 = d_queues d.
Proof.
  unfold CloseListener. generalize (range_map (l_subs l)) as qs. intros qs.
  revert d l. induction qs as [|[q c] qs IH]; intros d l; [done|]. simpl.
  pose proof (removeSub_jobs d l q) as (E1 & E2 & E3).
  destruct (removeSub d l q) as [d1 l1]. destruct (IH d1 l1) as (-> & -> & ->). done.
Qed.

Lemma exec_other_inv k o d ls :
  world_inv k (mkWorld d ls) → k + cost o < 2 ^ 63 →
  world_inv (k + cost o) (mkWorld (exec_driver o d) ls).
Proof.
  intros [Hj Hc] Hb. split; [by apply exec_driver_inv|].
  eapply chan_inv_kept; [|exact Hc]. apply exec_driver_kept. by apply chan_inv_delivers in Hc.
Qed.

Lemma exec_inv k o w :
  world_inv k w → k + cost o < 2 ^ 63 → world_inv (k + cost o) (exec o w).
Proof.
  intros Hw Hb. destruct w as [d ls].
  destruct o; try (by apply exec_other_inv); simpl in *; rewrite Z.add_0_r in *;
    destruct Hw as [Hj Hc].
  - split; [done|]. destruct Hc as [Ho Hn Hq Hs Hw Hc Hp]. split; try done.
    + intros i l q c. simpl. rewrite lookup_app_Some, list_lookup_singleton_Some.
      intros [Hi|(_ & _ & <-)]; [by eapply Hs|done].
    + intros i j l1 l2 q1 q2 c. simpl. rewrite !lookup_app_Some, !list_lookup_singleton_Some.
      intros [Hi|(_ & _ & <-)] [Hi'|(_ & _ & <-)]; try done. by apply (Hw i j).
  - destruct (ls !! i) as [l|] eqn:E; [|by split]. split; [|by apply Listen_inv].
    eapply jobs_inv_frame; [..|exact Hj]; done.
  - destruct (ls !! i) as [l|] eqn:E; [|by split]. unfold Unlisten.
    pose proof (removeSub_inv d ls i l queue E Hc) as H1.
    pose proof (removeSub_jobs d l queue) as (E1 & E2 & E3).
    destruct (removeSub d l queue). split; [|done].
    eapply jobs_inv_frame; [..|exact Hj]; done.
  - destruct (ls !! i) as [l|] eqn:E; [|by split].
    pose proof (Close_inv d ls i l E Hc) as H1.
    pose proof (Close_jobs d l) as (E1 & E2 & E3).
    destruct (CloseListener d l). split; [|done].
    eapply jobs_inv_frame; [..|exact Hj]; done.
Qed.

Lemma init_inv c : world_inv 0 (init_world c).
Proof.
  split; split; unfold registered; simpl; try done; intros *; rewrite ?lookup_empty; simpl;
    try set_solver; try done. constructor.
Qed.

Lemma cost_nonneg o : 0 ≤ cost o.
Proof. destruct o; simpl; lia. Qed.

Lemma total_cost_nonneg ops : 0 ≤ total_cost ops.
Proof. induction ops as [|o ops IH]; simpl; [lia|]. pose proof (cost_nonneg o). lia. Qed.

Lemma run_inv_from ops : ∀ k w,
  world_inv k w → k + total_cost ops < 2 ^ 63 → world_inv (k + total_cost ops) (run ops w).
Proof.
  induction ops as [|o ops IH]; intros k w Hw Hb; simpl in *; [by rewrite Z.add_0_r|].
  rewrite Z.add_assoc. pose proof (total_cost_nonneg ops).
  apply IH; [|lia]. apply exec_inv; [done|lia].
Qed.

Lemma run_inv ops c :
  total_cost ops < 2 ^ 63 → world_inv (total_cost ops) (run ops (init_world c)).
Proof. intros Hb. apply (run_inv_from ops 0); [apply init_inv|lia]. Qed.
End runs.
