(* ===== verification/MemoryFetch.v ===== *)
(** * Fetching from the memory backend: specification and refinement

    [fetch_spec] says what one [JobFetchBatch] promises, without mentioning map
    iteration or the sorting algorithm: the due jobs of the queue, the best
    [limit] of them in claim order, each claimed, and the new job table.  The
    theorems show that [Memory.JobFetchBatch] implements it, that the
    specification leaves no choice, and hence that Go's random map order never
    shows. *)

From S2P Require Import Prelude GoBase Json Codec Driver Memory MemoryInv.
From Stdlib Require Import ZArith Lia.

(** ** Specification *)

(** A job a fetch on queue [q] may take. *)
Definition due (q : string) (now : Instant) (row : JobRow) : bool :=
  bool_decide (Queue row = q)
  && (bool_decide (State row = JobStateAvailable) || bool_decide (State row = JobStateScheduled))
  && negb (After (RunAt row) now).

Definition dueJobs (q : string) (now : Instant) (m : gmap string JobRow) : gmap string JobRow :=
  filter (λ kv, due q now kv.2 = true) m.

(** The row at [id] after a fetch that took [ids]. *)
Definition afterFetch (p : FetchParams) (now : Instant) (ids : list string) (id : string)
    (row : JobRow) : JobRow :=
  if bool_decide (id ∈ ids) then claim p now row
  else if due (fp_Queue p) now row then set_State JobStateAvailable row else row.

Record fetch_spec (p : FetchParams) (now : Instant) (m m' : gmap string JobRow)
    (rows : list JobRow) : Prop := {
  fs_claimed : ∀ r, r ∈ rows → ∃ row,
    m !! ID r = Some row ∧ due (fp_Queue p) now row = true ∧ r = claim p now row;
  fs_count : length rows = fetchLimit (fp_Limit p) (size (dueJobs (fp_Queue p) now m));
  fs_sorted : StronglySorted (λ a b, fetchLess a b = true) rows;
  fs_first : ∀ id row r, m !! id = Some row → due (fp_Queue p) now row = true →
    id ∉ ID <$> rows → r ∈ rows → fetchLess r row = true;
  fs_table : ∀ id, m' !! id = afterFetch p now (ID <$> rows) id <$> m !! id
}.

(** Rows are stored under their own id. *)
Definition keyed (m : gmap string JobRow) : Prop := ∀ id row, m !! id = Some row → ID row = id.

(** ** The claim order is a strict total order on rows with distinct ids *)

Lemma fetchLess_true a b :
  fetchLess a b = true ↔
    Priority b < Priority a ∨ Priority a = Priority b ∧
    (RunAt a < RunAt b ∨ RunAt a = RunAt b ∧
     (CreatedAt a < CreatedAt b ∨ CreatedAt a = CreatedAt b ∧ str_lt (ID a) (ID b) = true)).
Proof.
  unfold fetchLess. split.
  - intros. repeat case_match; time_to_prop; intuition lia.
  - intros. repeat case_match; time_to_prop; try lia.
    all: first [ apply Before_true; lia | destruct (str_lt (ID a) (ID b)); [done|lia] ].
Qed.

Lemma str_lt_negtrans a b c : str_lt a b = false → str_lt b c = false → str_lt a c = false.
Proof.
  intros H1 H2. destruct (str_lt a c) eqn:E; [|done].
  destruct (str_lt b a) eqn:E2.
  - by rewrite (str_lt_trans _ _ _ E2 E) in H2.
  - pose proof (str_lt_total _ _ H1 E2). congruence.
Qed.

#[export] Instance fetchLess_strict_weak : StrictWeak fetchLess.
Proof.
  split.
  - intros a b Hab. destruct (fetchLess b a) eqn:Hba; [|done].
    apply fetchLess_true in Hab, Hba.
    pose proof (str_lt_asym (ID a) (ID b)). destruct (str_lt (ID a) (ID b)); intuition (congruence || lia).
  - intros a b c Hab Hbc. destruct (fetchLess a c) eqn:Hac; [|done].
    apply not_true_iff_false in Hab, Hbc. rewrite fetchLess_true in Hab, Hbc.
    apply fetchLess_true in Hac. pose proof (str_lt_negtrans (ID a) (ID b) (ID c)).
    destruct (str_lt (ID a) (ID b)), (str_lt (ID b) (ID c)), (str_lt (ID a) (ID c));
      intuition (congruence || lia).
Qed.

Lemma fetchLess_total a b :
  fetchLess a b = false → fetchLess b a = false → ID a = ID b.
Proof.
  intros Hab Hba. apply not_true_iff_false in Hab, Hba. rewrite fetchLess_true in Hab, Hba.
  apply str_lt_total; apply not_true_iff_false; intros Hlt; rewrite Hlt in *; intuition lia.
Qed.

(** Claiming a row does not move it in the claim order. *)
Lemma fetchLess_claim p now a b :
  fetchLess (claim p now a) (claim p now b) = fetchLess a b.
Proof. done. Qed.

(** ** The implementation meets the specification *)

Section refine.
Context `{MapRange}.

Lemma due_promote q now row :
  isCandidate q now (promote q now row) = due q now row.
Proof.
  unfold isCandidate, promote, due.
  destruct (bool_decide (Queue row = q)) eqn:Eq,
    (bool_decide (State row = JobStateScheduled)) eqn:Es, (After (RunAt row) now) eqn:Ea;
    simpl; rewrite ?Eq, ?Ea; simpl; by rewrite ?orb_false_r, ?orb_true_r, ?andb_false_r.
Qed.

Lemma due_promoted q now row : due q now row = true → promote q now row = set_State JobStateAvailable row.
Proof.
  unfold promote, due. intros Hd. case_match eqn:E; [done|].
  destruct (bool_decide (State row = JobStateAvailable)) eqn:Ea.
  - bool_to_prop. destruct row; simpl in *. by subst.
  - exfalso. simpl in Hd. congruence.
Qed.

Lemma notdue_promoted q now row : due q now row = false → promote q now row = row.
Proof.
  unfold promote, due. intros Hd. case_match eqn:E; [|done].
  exfalso. apply andb_true_iff in E as [[E1 E2]%andb_true_iff E3].
  by rewrite E1, E2, E3, orb_true_r in Hd.
Qed.

Lemma claim_promote p q now row : claim p now (promote q now row) = claim p now row.
Proof. unfold promote. by case_match. Qed.

(** The candidate list is the due part of the table, promoted. *)
Lemma candidates_due q now m id row :
  (id, row) ∈ fetchCandidates q now (promote q now <$> m) ↔
  ∃ row0, m !! id = Some row0 ∧ due q now row0 = true ∧ row = promote q now row0.
Proof.
  rewrite elem_of_candidates, lookup_fmap, fmap_Some. split.
  - intros [(row0 & Hm & ->) Hc]. rewrite due_promote in Hc. eauto.
  - intros (row0 & Hm & Hd & ->). rewrite due_promote. eauto.
Qed.

Lemma candidates_length q now m :
  length (fetchCandidates q now (promote q now <$> m)) = size (dueJobs q now m).
Proof.
  rewrite <-(length_fmap fst).
  rewrite <-(size_list_to_set (C:=gset string)) by apply candidates_nodup.
  rewrite <-size_dom. f_equal. apply leibniz_equiv. intros id.
  rewrite elem_of_list_to_set, elem_of_dom, list_elem_of_fmap. unfold dueJobs. split.
  - intros ([i r] & -> & Hin). apply candidates_due in Hin as (row0 & Hm & Hd & _). simpl.
    exists row0. by apply map_lookup_filter_Some.
  - intros [row0 [Hm Hd]%map_lookup_filter_Some].
    exists (id, promote q now row0). split; [done|]. apply candidates_due. eauto.
Qed.

Lemma candidates_sorted q now m :
  StronglySorted (not_after (λ a b : string * JobRow, fetchLess a.2 b.2)) (fetchCandidates q now m).
Proof.
  apply sort_by_strongly_sorted. split; intros *; [apply (less_asym fetchLess)|apply (less_negtrans fetchLess)].
Qed.

Lemma chosen_due d p now id row :
  (id, row) ∈ fetchChosen d p now →
  ∃ row0, d_jobs d !! id = Some row0 ∧ due (fp_Queue p) now row0 = true ∧
          row = promote (fp_Queue p) now row0.
Proof.
  intros Hin. apply candidates_due.
  unfold fetchChosen in Hin. apply elem_of_take in Hin as (i & Hi & _).
  by eapply list_elem_of_lookup_2.
Qed.

Lemma fetchLimit_le l n : (fetchLimit l n ≤ n)%nat.
Proof. unfold fetchLimit. case_match; bool_to_prop; lia. Qed.

Lemma claimed_ids d p now :
  keyed (d_jobs d) →
  ID <$> ((λ kv, claim p now kv.2) <$> fetchChosen d p now) = (fetchChosen d p now).*1.
Proof.
  intros Hk. rewrite <-list_fmap_compose. apply list_fmap_ext. intros i [id row] Hi.
  apply list_elem_of_lookup_2, chosen_due in Hi as (row0 & Hm & _ & ->). simpl.
  destruct (promote_fields (fp_Queue p) now row0) as (-> & _). by apply Hk.
Qed.

Lemma chosen_strictly_sorted d p now :
  keyed (d_jobs d) →
  StronglySorted (λ a b, fetchLess a b = true) ((λ kv, claim p now kv.2) <$> fetchChosen d p now).
Proof.
  intros Hk. pose proof (chosen_nodup d p now) as Hnd. rewrite <-claimed_ids in Hnd by done.
  assert (StronglySorted (not_after fetchLess) ((λ kv, claim p now kv.2) <$> fetchChosen d p now)) as Hs.
  { eapply (StronglySorted_fmap _ (not_after (λ a b : string * JobRow, fetchLess a.2 b.2)));
      [|apply strongly_sorted_take, candidates_sorted]. done. }
  revert Hnd Hs. generalize ((λ kv, claim p now kv.2) <$> fetchChosen d p now) as l.
  induction l as [|a l IH]; intros Hnd Hs; [constructor|].
  rewrite fmap_cons, NoDup_cons in Hnd. destruct Hnd as [Ha Hnd].
  inversion Hs as [|? ? Hs' Hf]; subst. constructor; [by apply IH|].
  apply Forall_forall. intros b Hb. rewrite Forall_forall in Hf. specialize (Hf b Hb). simpl in Hf.
  destruct (fetchLess a b) eqn:E; [done|]. exfalso. apply Ha.
  rewrite (fetchLess_total a b) by done. by apply list_elem_of_fmap_2.
Qed.

Lemma fetched_spec d p now :
  keyed (d_jobs d) →
  fetch_spec p now (d_jobs d) (fetched d p now) ((λ kv, claim p now kv.2) <$> fetchChosen d p now).
Proof.
  intros Hk. split.
  - intros r Hr. apply list_elem_of_fmap in Hr as ([id row] & -> & Hin).
    destruct (chosen_due _ _ _ _ _ Hin) as (row0 & Hm & Hd & ->). exists row0. simpl.
    rewrite claim_promote. split_and!; [|done..].
    destruct (promote_fields (fp_Queue p) now row0) as (-> & _). by rewrite (Hk _ _ Hm).
  - rewrite length_fmap. unfold fetchChosen. rewrite length_take, <-candidates_length.
    apply Nat.min_l, fetchLimit_le.
  - by apply chosen_strictly_sorted.
  - intros id row r Hm Hd Hni Hr. rewrite claimed_ids in Hni by done.
    apply list_elem_of_fmap in Hr as ([id' row'] & -> & Hin).
    set (cs := fetchCandidates (fp_Queue p) now (promote (fp_Queue p) now <$> d_jobs d)) in *.
    assert ((id, promote (fp_Queue p) now row) ∈ cs) as Hc by (apply candidates_due; eauto).
    assert (fetchLess (promote (fp_Queue p) now row) row' = false) as Hnot.
    { pose proof (candidates_sorted (fp_Queue p) now (promote (fp_Queue p) now <$> d_jobs d)) as Hs.
      apply (strongly_sorted_take_drop _ _ (fetchLimit (fp_Limit p) (length cs)) (id', row') (id, promote (fp_Queue p) now row)) in Hs; [done|done|].
      rewrite <-(take_drop (fetchLimit (fp_Limit p) (length cs)) cs) in Hc.
      apply elem_of_app in Hc as [Hc|Hc]; [|done]. exfalso. apply Hni.
      apply list_elem_of_fmap. by eexists (_, _). }
    destruct (chosen_due _ _ _ _ _ Hin) as (row0 & Hm0 & Hd0 & ->).
    rewrite !due_promoted in Hnot by done. simpl. rewrite claim_promote.
    destruct (fetchLess (claim p now row0) row) eqn:E; [done|]. exfalso. apply Hni.
    pose proof (fetchLess_total _ _ Hnot E) as Heq.
    apply Hk in Hm, Hm0. simpl in Heq. rewrite <-Hm, Heq, Hm0.
    apply list_elem_of_fmap. exists (id', promote (fp_Queue p) now row0). done.
  - intros id. rewrite claimed_ids by done. unfold fetched, afterFetch.
    case_bool_decide as Hin.
    + apply list_elem_of_fmap in Hin as ([i r] & -> & Hin). simpl.
      rewrite (claimAll_in _ _ _ _ _ r) by (done || apply chosen_nodup).
      destruct (chosen_due _ _ _ _ _ Hin) as (row0 & -> & _ & ->). simpl. by rewrite claim_promote.
    + rewrite claimAll_notin by done. rewrite lookup_fmap.
      destruct (d_jobs d !! id) as [row|]; [|done]. simpl. f_equal.
      destruct (due (fp_Queue p) now row) eqn:E; [by apply due_promoted|by apply notdue_promoted].
Qed.
End refine.

(** ** The specification leaves no choice *)

Lemma fetch_spec_keys p now m m' rows r :
  fetch_spec p now m m' rows → r ∈ rows → ∃ row, m !! ID r = Some row ∧
    due (fp_Queue p) now row = true ∧ r = claim p now row.
Proof. intros Hs. apply (fs_claimed _ _ _ _ _ Hs). Qed.

Lemma strict_sorted_nodup l :
  StronglySorted (λ a b, fetchLess a b = true) l → NoDup l.
Proof.
  induction 1 as [|a l Hs IH Hf]; constructor; [|done].
  intros Hin. rewrite Forall_forall in Hf. specialize (Hf a Hin). simpl in Hf.
  apply (less_asym fetchLess) in Hf as Hf'. congruence.
Qed.

Lemma fetch_spec_subset p now m m1 m2 rows1 rows2 :
  fetch_spec p now m m1 rows1 → fetch_spec p now m m2 rows2 → ∀ r, r ∈ rows1 → r ∈ rows2.
Proof.
  intros H1 H2 r Hr. destruct (decide (r ∈ rows2)) as [|Hn]; [done|]. exfalso.
  pose proof (strict_sorted_nodup _ (fs_sorted _ _ _ _ _ H1)) as N1.
  pose proof (strict_sorted_nodup _ (fs_sorted _ _ _ _ _ H2)) as N2.
  assert (∃ r', r' ∈ rows2 ∧ r' ∉ rows1) as (r' & Hr' & Hn').
  { destruct (decide (Exists (λ x, x ∉ rows1) rows2)) as [He|He].
    - apply Exists_exists in He as (x & ? & ?). eauto.
    - exfalso. apply not_Exists_Forall in He; [|intros x; apply _].
      assert (rows2 ⊆ rows1) as Hsub.
      { intros x Hx. rewrite Forall_forall in He. specialize (He x Hx).
        by destruct (decide (x ∈ rows1)). }
      assert (S (length rows2) ≤ length rows1)%nat as Hlen.
      { change (length (r :: rows2) ≤ length rows1)%nat. apply submseteq_length.
        apply NoDup_submseteq; [by constructor|]. set_solver. }
      rewrite (fs_count _ _ _ _ _ H1), (fs_count _ _ _ _ _ H2) in Hlen. lia. }
  destruct (fs_claimed _ _ _ _ _ H1 _ Hr) as (row & Hm & Hd & Er).
  destruct (fs_claimed _ _ _ _ _ H2 _ Hr') as (row' & Hm' & Hd' & Er').
  assert (∀ (x : JobRow) mm rs, fetch_spec p now m mm rs → x ∉ rs →
     ∀ xr, m !! ID x = Some xr → x = claim p now xr → ID x ∉ ID <$> rs) as Hid.
  { intros x mm rs Hs Hx xr Hxr -> Hin. apply list_elem_of_fmap in Hin as (y & Ey & Hy).
    destruct (fs_claimed _ _ _ _ _ Hs _ Hy) as (yr & Hyr & _ & ->).
    rewrite <-Ey, Hxr in Hyr. by simplify_eq. }
  pose proof (fs_first _ _ _ _ _ H1 _ _ _ Hm' Hd' (Hid _ _ _ H1 Hn' _ Hm' Er') Hr) as L1.
  pose proof (fs_first _ _ _ _ _ H2 _ _ _ Hm Hd (Hid _ _ _ H2 Hn _ Hm Er) Hr') as L2.
  rewrite Er in L1. rewrite Er' in L2.
  change (fetchLess row row' = true) in L1. change (fetchLess row' row = true) in L2.
  apply (less_asym fetchLess) in L1. congruence.
Qed.

Lemma fetch_spec_unique p now m m1 m2 rows1 rows2 :
  fetch_spec p now m m1 rows1 → fetch_spec p now m m2 rows2 → rows1 = rows2 ∧ m1 = m2.
Proof.
  intros H1 H2.
  assert (rows1 = rows2) as ->.
  { assert (rows1 ≡ₚ rows2) as Hp.
    { apply NoDup_Permutation.
      - by eapply strict_sorted_nodup, fs_sorted.
      - by eapply strict_sorted_nodup, fs_sorted.
      - intros r. split; eapply fetch_spec_subset; eauto. }
    eapply (StronglySorted_unique_strong (λ a b, fetchLess a b = true));
      [|by eapply fs_sorted|by eapply fs_sorted|done].
    intros x y _ _ Hx Hy. apply (less_asym fetchLess) in Hx. congruence. }
  split; [done|]. apply map_eq. intros id.
  by rewrite (fs_table _ _ _ _ _ H1), (fs_table _ _ _ _ _ H2).
Qed.
