(* ===== verification/MemoryProps.v ===== *)
(** * What the memory backend guarantees

    The properties of [Memory] that its clients rely on: the global invariant,
    the fetch contract, exclusive and fenced claims, unique keys, leases and
    schedule cursors, pagination, statistics and wake-ups.  Every theorem
    speaks about the driver operations themselves or about traces of them. *)

From S2P Require Import Prelude GoBase Json Codec Driver Memory MemoryInv MemoryFetch.
From Stdlib Require Import ZArith Lia.

(** ** A small concrete history, used by the witnesses *)

Definition demoT0 : Instant := UnixFromMilli 1700000000000.
Definition demoClock : Clock := frozenClock demoT0.
Definition demoInsert (queue key : string) (prio : Z) (runAt : Instant) : JobInsertParams :=
  mkJobInsertParams queue "email" "{}" prio runAt key 3 0 [] "".
Definition demoOps : list op :=
  [ OListener; OListen 0 "mail";
    OInsert [demoInsert "mail" "" 1 0; demoInsert "mail" "k1" 5 0; demoInsert "other" "" 0 0;
             demoInsert "mail" "" 9 (demoT0 + Hour); demoInsert "mail" "" 1 0];
    OFetch (mkFetchParams "other" 1 "w0" Second) ].
Definition demoWorld : World := run (H := map_to_list_range) demoOps (init_world demoClock).
Definition demoFetch : FetchParams := mkFetchParams "mail" 2 "w1" Minute.

Lemma demo_inv : world_inv 6 demoWorld.
Proof. exact (run_inv (H := map_to_list_range) demoOps demoClock eq_refl). Qed.

(** ** The global invariant *)

Section props.
Context `{MapRange}.
Implicit Types (d : Driver).

(** C1: in every history the job table stays well formed (rows under their
    own fresh ids, an existing queue for every row, attempt counters in range
    and positive while running, a finalization time on every terminal row),
    channel registrations stay consistent, and no send on or close of a closed
    channel ever happens. *)
Theorem memory_invariant ops c :
  total_cost ops < 2 ^ 63 → world_inv (total_cost ops) (run ops (init_world c)).
Proof. apply run_inv. Qed.

(** ** Fetching *)

Lemma run_keyed ops c :
  total_cost ops < 2 ^ 63 → keyed (d_jobs (w_driver (run ops (init_world c)))).
Proof. intros Hb. destruct (run_inv ops c Hb) as [Hj _]. exact (ji_id _ _ Hj). Qed.

(** C2: a fetch on a missing or paused queue returns nothing and changes
    nothing; any other fetch takes exactly the best [limit] due jobs in
    (priority desc, run_at, created_at, id) order, claims each of them and
    only promotes the rest, as [fetch_spec] states. *)
Theorem fetch_refines_spec ops c p :
  total_cost ops < 2 ^ 63 →
  let d := w_driver (run ops (init_world c)) in
  match d_queues d !! fp_Queue p with
  | None => JobFetchBatch d p = (d, Ok [])
  | Some q =>
      if q_Paused q then JobFetchBatch d p = (d, Ok [])
      else ∃ rows, (JobFetchBatch d p).2 = Ok rows ∧
             fetch_spec p (dNow d).1 (d_jobs d) (d_jobs (JobFetchBatch d p).1) rows
  end.
Proof.
  intros Hb d. rewrite JobFetchBatch_eq. destruct (d_queues d !! fp_Queue p) as [q|]; [|done].
  destruct (q_Paused q); [done|]. simpl. eexists. split; [done|].
  by apply fetched_spec, run_keyed.
Qed.

(** ** Claims *)

(** Worker [w] holds job [id] under attempt [a]. *)
Definition held d (id w : string) (a : Z) : Prop :=
  ∃ row, d_jobs d !! id = Some row ∧ ownsClaim row w a = true.

(** The calls that end a claim. *)
Definition releases d (id w : string) (a : Z) (o : op) : Prop :=
  match o with
  | OSetState p => sp_ID p = id ∧ MatchesClaim p w a = true
  | ORescue p => ∃ row, d_jobs d !! id = Some row ∧ isStuck p row = true
  | ODelete i => i = id
  | OReschedule p => rs_ID p = id
  | _ => False
  end.

Lemma ownsClaim_spec row w a :
  ownsClaim row w a = true ↔ State row = JobStateRunning ∧ WorkerID row = w ∧ AttemptNum row = a.
Proof.
  unfold ownsClaim. rewrite !andb_true_iff, !bool_decide_eq_true, Z.eqb_eq. tauto.
Qed.

Lemma held_frame d d' id w a : d_jobs d' !! id = d_jobs d !! id → held d id w a ↔ held d' id w a.
Proof. unfold held. by intros ->. Qed.

Lemma insertFresh_lookup k d p id row :
  jobs_inv k d → k + 1 < 2 ^ 63 → d_jobs d !! id = Some row →
  d_jobs (insertFresh d p).1 !! id = Some row.
Proof.
  intros Hinv Hb Hrow. destruct (insertFresh_frame d p) as (-> & _).
  pose proof (ji_seq _ _ Hinv). rewrite lookup_insert_ne; [done|].
  destruct (ji_fresh _ _ Hinv _ _ Hrow) as (n & Hn & ->). cbn [ID newRow].
  unfold wrapu64. rewrite Z.mod_small by lia. unfold jobID.
  intros Heq%(inj (String.append "mem_")). apply FormatInt_inj_nonneg in Heq; lia.
Qed.

Lemma insertMany_lookup ps : ∀ k d id row,
  jobs_inv k d → k + Z.of_nat (length ps) < 2 ^ 63 → d_jobs d !! id = Some row →
  d_jobs (JobInsertMany d ps).1 !! id = Some row.
Proof.
  unfold JobInsertMany. induction ps as [|p ps IH]; intros k d id row Hinv Hb Hrow; [done|].
  simpl in *. pose proof (insertOne_inv k d p Hinv ltac:(lia)) as H1.
  assert (d_jobs (insertOne d p).1 !! id = Some row) as H2.
  { unfold insertOne. repeat case_match; try done; eapply insertFresh_lookup; (done || lia). }
  destruct (insertOne d p) as [d1 r]. simpl in *.
  specialize (IH (k + 1) d1 id row H1 ltac:(lia) H2). by destruct (insertLoop d1 ps).
Qed.

(** A running row is not due, so a fetch leaves it alone. *)
Lemma running_fetch d p id row :
  keyed (d_jobs d) → d_jobs d !! id = Some row → State row = JobStateRunning →
  d_jobs (JobFetchBatch d p).1 !! id = Some row ∧
  ∀ rows, (JobFetchBatch d p).2 = Ok rows → id ∉ ID <$> rows.
Proof.
  intros Hk Hrow Hs. rewrite JobFetchBatch_eq.
  destruct (d_queues d !! fp_Queue p) as [q|]; [destruct (q_Paused q)|].
  2: { pose proof (fetched_spec d p (dNow d).1 Hk) as Hf.
    cbv zeta. cbn [fst snd d_jobs set_jobs].
    assert (due (fp_Queue p) (dNow d).1 row = false) as Hd.
    { unfold due. rewrite Hs. by rewrite andb_false_r. }
    assert (id ∉ ID <$> ((λ kv, claim p (dNow d).1 kv.2) <$> fetchChosen d p (dNow d).1)) as Hni.
    { intros (r & -> & Hin)%list_elem_of_fmap.
      destruct (fs_claimed _ _ _ _ _ Hf r Hin) as (row' & Hrow' & Hd' & _).
      rewrite Hrow in Hrow'. simplify_eq. congruence. }
    rewrite (fs_table _ _ _ _ _ Hf), Hrow. cbn [fmap option_fmap option_map]. unfold afterFetch.
    rewrite bool_decide_eq_false_2, Hd by done. split; [done|]. by intros rows [= <-]. }
  all: split; [done|]; intros rows [= <-]; set_solver.
Qed.

Lemma setState_other d p id :
  sp_ID p ≠ id → d_jobs (JobSetStateIfRunning d p).1 !! id = d_jobs d !! id.
Proof.
  intros Hne. unfold JobSetStateIfRunning.
  destruct (d_jobs d !! sp_ID p); [|done]. case_match; [|done].
  destruct (sp_Yield p); [simpl; by rewrite lookup_insert_ne|].
  destruct (sp_Err p), (isTerminal (sp_State p)); simpl; by rewrite lookup_insert_ne.
Qed.

Lemma setState_rejected d p :
  (∀ row, d_jobs d !! sp_ID p = Some row → State row = JobStateRunning →
     MatchesClaim p (WorkerID row) (AttemptNum row) = false) →
  JobSetStateIfRunning d p = (d, Err (jobError ErrStaleClaim (sp_ID p))).
Proof.
  intros Hm. unfold JobSetStateIfRunning. destruct (d_jobs d !! sp_ID p) as [row|] eqn:E; [|done].
  case_bool_decide as Hs; [|done]. by rewrite (Hm _ eq_refl Hs).
Qed.

Lemma claim_kept k d o id w a :
  jobs_inv k d → k + cost o < 2 ^ 63 → held d id w a → ¬ releases d id w a o →
  held (exec_driver o d) id w a.
Proof.
  intros Hinv Hb (row & Hrow & Ho) Hr. pose proof Ho as (Hs & Hw & Ha)%ownsClaim_spec.
  assert (d_jobs (exec_driver o d) !! id = d_jobs d !! id → held (exec_driver o d) id w a) as Hsame.
  { intros E. exists row. by rewrite E. }
  destruct o; simpl in *; try (by apply Hsame).
  - apply Hsame. rewrite Hrow. by eapply insertMany_lookup.
  - apply Hsame. rewrite Hrow. eapply running_fetch; [|done..]. exact (ji_id _ _ Hinv).
  - unfold JobMarkStarted in *. destruct (d_jobs d !! ms_ID params) as [row'|] eqn:E; [|by eexists].
    case_match; [|by eexists]. simpl. destruct (decide (ms_ID params = id)) as [<-|].
    + simplify_eq. eexists. simpl. rewrite lookup_insert_eq. split; [done|].
      exact Ho.
    + apply (held_frame d); [simpl; by rewrite lookup_insert_ne|by eexists].
  - exists row. simpl. rewrite lookup_fmap, Hrow. simpl. unfold rescueRow.
    destruct (isStuck params row) eqn:E; [|done]. exfalso. eauto.
  - unfold JobHeartbeat in *. destruct (d_jobs d !! hp_ID params) as [row'|] eqn:E; [|by eexists].
    case_match; [|by eexists]. simpl. destruct (decide (hp_ID params = id)) as [<-|].
    + simplify_eq. eexists. simpl. rewrite lookup_insert_eq. split; [done|].
      exact Ho.
    + apply (held_frame d); [simpl; by rewrite lookup_insert_ne|by eexists].
  - destruct (decide (sp_ID params = id)) as [<-|Hne]; [|by apply Hsame, setState_other].
    rewrite setState_rejected; [by eexists|]. intros row' Hrow' _. simplify_eq.
    destruct (MatchesClaim _ _ _) eqn:E; [|done]. by exfalso; apply Hr.
  - unfold JobCancel in *. destruct (d_jobs d !! id0) as [row'|] eqn:E; [|by eexists].
    destruct (decide (id0 = id)) as [->|].
    + simplify_eq. rewrite Hs in *. simpl. by eexists.
    + case_match; [by eexists|]. apply (held_frame d); [simpl; by rewrite lookup_insert_ne|by eexists].
  - unfold JobDelete in *. destruct (d_jobs d !! id0) as [row'|] eqn:E; [|by eexists].
    apply (held_frame d); [simpl; by rewrite lookup_delete_ne|by eexists].
  - unfold JobReschedule in *. destruct (d_jobs d !! rs_ID params) as [row'|] eqn:E; [|by eexists].
    apply (held_frame d); [simpl; by rewrite lookup_insert_ne|by eexists].
  - apply Hsame. unfold QueuePause, queueSetPaused, ensureQueue. simpl. by case_match.
  - apply Hsame. unfold QueueResume, queueSetPaused, ensureQueue. simpl. by case_match.
  - apply Hsame. unfold LeaderAttemptElect. simpl. by repeat case_match.
  - apply Hsame. unfold LeaderResign. simpl. by repeat case_match.
  - apply Hsame. unfold ScheduleCursorGetOrCreate. simpl. by repeat case_match.
  - apply Hsame. unfold ScheduleCursorAdvance. simpl. by repeat case_match.
  - apply Hsame. unfold receive. simpl. by repeat case_match.
Qed.

(** Histories seen from the holder of a claim. *)
Definition fetchedIDs (o : op) (w : World) : list string :=
  match o with
  | OFetch p => match (JobFetchBatch (w_driver w) p).2 with Ok rows => ID <$> rows | Err _ => [] end
  | _ => []
  end.

Fixpoint historyFetches (ops : list op) (w : World) : list string :=
  match ops with
  | [] => []
  | o :: ops' => fetchedIDs o w ++ historyFetches ops' (exec o w)
  end.

Fixpoint undisturbed (id wk : string) (a : Z) (ops : list op) (w : World) : Prop :=
  match ops with
  | [] => True
  | o :: ops' => ¬ releases (w_driver w) id wk a o ∧ undisturbed id wk a ops' (exec o w)
  end.

(** Listener calls leave the jobs alone. *)
Lemma exec_jobs o w : d_jobs (w_driver (exec o w)) = d_jobs (exec_driver o (w_driver w)).
Proof.
  destruct o; try done; simpl; destruct (w_listeners w !! i) as [l|]; try done.
  - unfold Unlisten. pose proof (removeSub_jobs (w_driver w) l queue) as (E & _).
    by destruct (removeSub (w_driver w) l queue).
  - pose proof (Close_jobs (w_driver w) l) as (E & _). by destruct (CloseListener (w_driver w) l).
Qed.

Lemma undisturbed_held ops : ∀ k w id wk a,
  world_inv k w → k + total_cost ops < 2 ^ 63 →
  held (w_driver w) id wk a → undisturbed id wk a ops w →
  held (w_driver (run ops w)) id wk a ∧ id ∉ historyFetches ops w.
Proof.
  induction ops as [|o ops IH]; intros k w id wk a Hw Hb Hh Hu; simpl in *; [set_solver|].
  destruct Hu as [Hr Hu]. pose proof (total_cost_nonneg ops).
  pose proof (exec_inv k o w Hw ltac:(lia)) as Hw'.
  assert (held (w_driver (exec o w)) id wk a) as Hh'.
  { apply (held_frame (exec_driver o (w_driver w))); [by rewrite exec_jobs|].
    destruct Hw as [Hj _]. eapply claim_kept; try done. lia. }
  destruct (IH (k + cost o) (exec o w) id wk a Hw' ltac:(lia) Hh' Hu) as [Hend Hnf].
  split; [done|]. rewrite not_elem_of_app. split; [|done].
  destruct Hh as (row & Hrow & (Hs & _)%ownsClaim_spec).
  destruct o; simpl; try set_solver. destruct Hw as [Hj _].
  destruct (running_fetch (w_driver w) params id row (ji_id _ _ Hj) Hrow Hs) as [_ Hf].
  destruct (JobFetchBatch (w_driver w) params).2; [by apply Hf|set_solver].
Qed.

(** C3: exclusive claims.  Once a worker holds a job, it keeps holding it, and
    no fetch by anybody returns the job, for as long as nobody completes that
    claim, reschedules or deletes the job, or rescues it as stuck. *)
Theorem claim_exclusive ops1 ops2 c id wk a :
  total_cost (ops1 ++ ops2) < 2 ^ 63 →
  let w := run ops1 (init_world c) in
  held (w_driver w) id wk a → undisturbed id wk a ops2 w →
  held (w_driver (run ops2 w)) id wk a ∧ id ∉ historyFetches ops2 w.
Proof.
  intros Hb w Hh Hu.
  assert (total_cost (ops1 ++ ops2) = total_cost ops1 + total_cost ops2) as Ec.
  { clear. induction ops1 as [|o ops IH]; simpl; lia. }
  pose proof (total_cost_nonneg ops2). rewrite Ec in Hb.
  eapply undisturbed_held; try done. apply run_inv. lia.
Qed.

Lemma insertMany_gain ps : ∀ d id row,
  d_jobs (JobInsertMany d ps).1 !! id = Some row → State row = JobStateRunning →
  d_jobs d !! id = Some row.
Proof.
  unfold JobInsertMany. induction ps as [|p ps IH]; intros d id row Hrow Hs; [done|].
  simpl in *. specialize (IH (insertOne d p).1 id row).
  assert (d_jobs (insertOne d p).1 !! id = Some row → d_jobs d !! id = Some row) as H1.
  { assert (d_jobs (insertFresh d p).1 !! id = Some row → d_jobs d !! id = Some row) as H2.
    { destruct (insertFresh_frame d p) as (-> & _). rewrite lookup_insert_Some.
      intros [[_ <-]|[_ ?]]; [|done]. unfold newRow in Hs. simpl in Hs. by repeat case_match. }
    unfold insertOne. repeat case_match; done. }
  destruct (insertOne d p) as [d1 r]. simpl in *. destruct (insertLoop d1 ps). eauto.
Qed.

(** Only a fetch by the worker itself gives it a claim. *)
Lemma held_gain o d id wk a :
  wk ≠ "" → (∀ p, o = OFetch p → fp_WorkerID p ≠ wk) →
  held (exec_driver o d) id wk a → held d id wk a.
Proof.
  intros Hwk Hf (row & Hrow & Ho). pose proof Ho as (Hs & Hw & Ha)%ownsClaim_spec.
  assert (∀ i row', d_jobs (exec_driver o d) = <[i := row']> (d_jobs d) →
    (State row' = JobStateRunning → WorkerID row' ≠ "" → ∃ row0, d_jobs d !! i = Some row0 ∧
       State row0 = State row' ∧ WorkerID row0 = WorkerID row' ∧ AttemptNum row0 = AttemptNum row') →
    held d id wk a) as Hins.
  { intros i row' E Hr'. rewrite E, lookup_insert_Some in Hrow. destruct Hrow as [[-> ->]|[_ Hrow]].
    - destruct Hr' as (row0 & Hr0 & ? & ? & ?); [done|congruence|].
      exists row0. split; [done|]. apply ownsClaim_spec. split_and!; congruence.
    - by exists row. }
  assert (d_jobs (exec_driver o d) = d_jobs d → held d id wk a) as Hsame.
  { intros E. rewrite E in Hrow. by exists row. }
  destruct o; simpl in *; try (by apply Hsame).
  - exists row. split; [|done]. by eapply insertMany_gain.
  - rewrite JobFetchBatch_eq in Hrow. repeat case_match; try by exists row.
    simpl in Hrow. destruct (fetched_lookup _ _ _ _ _ Hrow) as (row0 & Hr0 & [[-> _]|[-> _]]).
    + exists row0. split; [done|]. unfold promote in Ho, Hs. case_match; [|done].
      by change (JobStateAvailable = JobStateRunning) in Hs.
    + exfalso. by eapply Hf.
  - unfold JobMarkStarted in *. destruct (d_jobs d !! ms_ID params) as [row'|] eqn:E; [|by apply Hsame].
    case_match; [|by apply Hsame]. eapply Hins; [done|]. eauto.
  - rewrite lookup_fmap, fmap_Some in Hrow. destruct Hrow as (row0 & Hr0 & ->).
    exists row0. split; [done|]. unfold rescueRow in Ho, Hs. case_match; [|done].
    by change (JobStateAvailable = JobStateRunning) in Hs.
  - unfold JobHeartbeat in *. destruct (d_jobs d !! hp_ID params) as [row'|] eqn:E; [|by apply Hsame].
    case_match; [|by apply Hsame]. eapply Hins; [done|]. eauto.
  - unfold JobSetStateIfRunning in *. destruct (d_jobs d !! sp_ID params) as [row'|] eqn:E; [|by apply Hsame].
    case_match; [|by apply Hsame]. destruct (sp_Yield params); [by eapply Hins|].
    assert (∀ t1 t2, WorkerID (transitionRow params t1 t2 row') = "") as Ew.
    { intros. unfold transitionRow. by repeat case_match. }
    destruct (sp_Err params), (isTerminal (sp_State params)); simpl in *;
      (eapply Hins; [done|]; intros _; by rewrite Ew).
  - unfold JobCancel in *. destruct (d_jobs d !! id0) as [row'|] eqn:E; [|by apply Hsame].
    case_match; [by apply Hsame|]. by eapply Hins.
  - unfold JobDelete in *. destruct (d_jobs d !! id0) as [row'|] eqn:E; [|by apply Hsame].
    simpl in Hrow. apply lookup_delete_Some in Hrow as [_ Hrow]. by exists row.
  - unfold JobReschedule in *. destruct (d_jobs d !! rs_ID params) as [row'|] eqn:E; [|by apply Hsame].
    by eapply Hins.
  - apply Hsame. unfold QueuePause, queueSetPaused, ensureQueue. simpl. by case_match.
  - apply Hsame. unfold QueueResume, queueSetPaused, ensureQueue. simpl. by case_match.
  - apply Hsame. unfold LeaderAttemptElect. simpl. by repeat case_match.
  - apply Hsame. unfold LeaderResign. simpl. by repeat case_match.
  - apply Hsame. unfold ScheduleCursorGetOrCreate. simpl. by repeat case_match.
  - apply Hsame. unfold ScheduleCursorAdvance. simpl. by repeat case_match.
  - apply Hsame. unfold receive. simpl. by repeat case_match.
Qed.

Lemma lost_stays_lost ops : ∀ w id wk a,
  wk ≠ "" → ¬ held (w_driver w) id wk a → (∀ p, OFetch p ∈ ops → fp_WorkerID p ≠ wk) →
  ¬ held (w_driver (run ops w)) id wk a.
Proof.
  induction ops as [|o ops IH]; intros w id wk a Hwk Hl Hf; [done|]. simpl.
  apply IH; [done| |set_solver]. intros Hh. apply Hl.
  apply (held_gain o); [done|set_solver|].
  eapply held_frame; [|exact Hh]. by rewrite exec_jobs.
Qed.

(** C4: fencing.  A worker whose claim is gone (its lease expired and the job
    was rescued, perhaps claimed again by another worker) cannot act on the job
    any more, however long it keeps trying: until it fetches again itself,
    its completion is refused as stale, its heartbeat and its start mark
    report the loss, and none of them changes the store. *)
Theorem stale_worker_fenced ops w id wk a p hb ms :
  wk ≠ "" → 0 < a → ¬ held (w_driver w) id wk a →
  (∀ f, OFetch f ∈ ops → fp_WorkerID f ≠ wk) →
  sp_ID p = id → sp_ExpectedWorkerID p = wk → sp_ExpectedAttempt p = a →
  hp_ID hb = id → hp_WorkerID hb = wk → hp_Attempt hb = a →
  ms_ID ms = id → ms_WorkerID ms = wk → ms_Attempt ms = a →
  let d := w_driver (run ops w) in
  JobSetStateIfRunning d p = (d, Err (jobError ErrStaleClaim id)) ∧
  JobHeartbeat d hb = (d, Ok false) ∧ JobMarkStarted d ms = (d, Ok false).
Proof.
  intros Hwk Ha Hl Hf <- E2 E3 E4 E5 E6 E7 E8 E9 d.
  pose proof (lost_stays_lost ops w _ wk a Hwk Hl Hf) as Hno. fold d in Hno.
  assert (∀ row, d_jobs d !! sp_ID p = Some row → ownsClaim row wk a = false) as Hown.
  { intros row Hrow. destruct (ownsClaim row wk a) eqn:E; [|done]. exfalso. apply Hno. by exists row. }
  split_and!.
  - apply setState_rejected. intros row Hrow Hs. specialize (Hown row Hrow).
    destruct (MatchesClaim p _ _) eqn:E; [|done]. unfold MatchesClaim in E.
    rewrite E2, E3 in E. bool_to_prop. rewrite bool_decide_eq_false_2 in * by done. simpl in *.
    rewrite (proj2 (Z.leb_gt _ _)) in * by lia. simpl in *. bool_to_prop.
    exfalso. apply not_true_iff_false in Hown. apply Hown, ownsClaim_spec. done.
  - unfold JobHeartbeat. rewrite E4, E5, E6. destruct (d_jobs d !! sp_ID p) as [row|]; [|done].
    by rewrite (Hown row).
  - unfold JobMarkStarted. rewrite E7, E8, E9. destruct (d_jobs d !! sp_ID p) as [row|]; [|done].
    by rewrite (Hown row).
Qed.
End props.

(** ** Witnesses *)

Lemma memory_invariant_witness : world_inv 6 demoWorld.
Proof. exact (memory_invariant (H := map_to_list_range) demoOps demoClock eq_refl). Defined.

(** The two fetched jobs are the high-priority one and the older of the tied ones. *)
Lemma fetch_refines_spec_witness :
  ∃ rows, (JobFetchBatch (H := map_to_list_range) (w_driver demoWorld) demoFetch).2 = Ok rows ∧
    ID <$> rows = ["mem_2"; "mem_1"] ∧
    StronglySorted (λ a b, fetchLess a b = true) rows.
Proof.
  pose proof (fetch_refines_spec (H := map_to_list_range) demoOps demoClock demoFetch eq_refl) as Hf.
  cbv zeta in Hf. fold demoWorld in Hf.
  assert (d_queues (w_driver demoWorld) !! fp_Queue demoFetch = Some (mkQueueRow "mail" false demoT0 demoT0))
    as E by (vm_compute; reflexivity).
  rewrite E in Hf. cbv beta iota delta [q_Paused] in Hf.
  destruct Hf as (rows & Hr & Hs). exists rows. split; [exact Hr|]. split; [|exact (fs_sorted _ _ _ _ _ Hs)].
  vm_compute in Hr. injection Hr as <-. reflexivity.
Defined.

Definition demoHeld : list op := demoOps ++ [OFetch demoFetch].
Definition demoLater : list op :=
  [OFetch (mkFetchParams "mail" 5 "w2" Minute);
   OSetState (mkJobSetStateParams "mem_2" JobStateCompleted None None 1 0 "w9" 1 false);
   OHeartbeat (mkJobHeartbeatParams "mem_2" "w1" 1 demoT0 (demoT0 + Hour))].

Lemma claim_exclusive_witness :
  held (w_driver (run (H := map_to_list_range) demoLater
          (run (H := map_to_list_range) demoHeld (init_world demoClock)))) "mem_2" "w1" 1.
Proof.
  apply (claim_exclusive (H := map_to_list_range) demoHeld demoLater demoClock "mem_2" "w1" 1).
  - reflexivity.
  - eexists. split; vm_compute; reflexivity.
  - split; [intros []|]. split; [|split; [intros []|exact I]].
    intros [_ Hm]. vm_compute in Hm. discriminate.
Defined.

Definition demoLost : World :=
  run (H := map_to_list_range)
    (demoHeld ++ [ORescue (mkJobRescueParams "mail" (demoT0 + Hour) 0); OFetch (mkFetchParams "mail" 1 "w2" Minute)])
    (init_world demoClock).

Lemma stale_worker_fenced_witness :
  let d := w_driver (run (H := map_to_list_range) demoLater demoLost) in
  JobSetStateIfRunning d (mkJobSetStateParams "mem_2" JobStateCompleted None None 1 0 "w1" 1 false) =
    (d, Err (jobError ErrStaleClaim "mem_2")).
Proof.
  apply (stale_worker_fenced (H := map_to_list_range) demoLater demoLost "mem_2" "w1" 1
    (mkJobSetStateParams "mem_2" JobStateCompleted None None 1 0 "w1" 1 false)
    (mkJobHeartbeatParams "mem_2" "w1" 1 0 0) (mkJobMarkStartedParams "mem_2" "w1" 1 0));
    try reflexivity; try discriminate.
  - intros (row & Hrow & Ho). vm_compute in Hrow. injection Hrow as <-. vm_compute in Ho. discriminate.
  - intros f Hf Heq. unfold demoLater in Hf.
    repeat (apply elem_of_cons in Hf as [Hf|Hf]; [try discriminate; injection Hf as ->; discriminate|]).
    by apply not_elem_of_nil in Hf.
Defined.
