(* ===== verification/MemoryKeys.v ===== *)
(** * Inserting into the memory backend: accounting, unique keys, wake-ups

    What [JobInsertMany] returns and stores for every parameter; that a unique
    key blocks a second active job in every history that does not reschedule a
    finished job, and that rescheduling one breaks it; and that every
    listener of the queue finds a notification after an insert. *)

From S2P Require Import Prelude GoBase Json Codec Driver Memory MemoryInv MemoryFetch MemoryProps.
From Stdlib Require Import ZArith Lia.

Section keys.
Context `{MapRange}.
Implicit Types (d : Driver).

(** ** Insert accounting *)

(** What a caller may conclude from the result of one parameter. *)
Definition insert_result_ok d d' (p : JobInsertParams) (res : JobInsertResult) : Prop :=
  ∃ row, ir_Job res = Some row ∧ d_jobs d' !! ID row = Some row ∧
    if ir_UniqueSkip res
    then ip_UniqueKey p ≠ "" ∧ blocksKey (ip_UniqueKey p) row = true
    else d_jobs d !! ID row = None ∧ row = newRow p (ID row) (CreatedAt row).

Definition freshRows (rs : list JobInsertResult) : list JobRow :=
  omap (λ r, if ir_UniqueSkip r then None else ir_Job r) rs.

Lemma findUniqueJob_Some d key row :
  findUniqueJob d key = Some row → ∃ id, d_jobs d !! id = Some row ∧ blocksKey key row = true.
Proof.
  unfold findUniqueJob. rewrite fmap_Some. intros ([id row'] & Hf & ->). simpl.
  apply List.find_some in Hf as [Hin Hb]. exists id. split; [|done].
  apply elem_of_range. by apply list_elem_of_In.
Qed.

Lemma findUniqueJob_None d key id row :
  findUniqueJob d key = None → d_jobs d !! id = Some row → blocksKey key row = false.
Proof.
  unfold findUniqueJob. rewrite fmap_None. intros Hf Hrow.
  apply (List.find_none _ _ Hf (id, row)). by apply list_elem_of_In, elem_of_range.
Qed.

Lemma fresh_id k d : jobs_inv k d → k + 1 < 2 ^ 63 → d_jobs d !! jobID (wrapu64 (d_seq d + 1)) = None.
Proof.
  intros Hinv Hb. destruct (d_jobs d !! _) as [row|] eqn:E; [|done].
  pose proof (ji_seq _ _ Hinv). destruct (ji_fresh _ _ Hinv _ _ E) as (n & Hn & Heq).
  unfold wrapu64, jobID in Heq. rewrite Z.mod_small in Heq by lia.
  apply (inj (String.append "mem_")), FormatInt_inj_nonneg in Heq; lia.
Qed.

(** One parameter: the result, the rows kept and the rows added. *)
Lemma insertOne_spec k d p :
  jobs_inv k d → k + 1 < 2 ^ 63 →
  let '(d', res) := insertOne d p in
  insert_result_ok d d' p res ∧
  d_jobs d' = (match freshRows [res] with row :: _ => <[ID row := row]> (d_jobs d) | [] => d_jobs d end).
Proof.
  intros Hinv Hb.
  assert (let '(d', res) := insertFresh d p in
    insert_result_ok d d' p res ∧
    d_jobs d' = (match freshRows [res] with row :: _ => <[ID row := row]> (d_jobs d) | [] => d_jobs d end))
    as Hfresh.
  { destruct (insertFresh_frame d p) as (Ej & _ & _ & Er). pose proof (fresh_id k d Hinv Hb) as Hnone.
    destruct (insertFresh d p) as [d' res]. cbn [fst snd] in *. subst res. simpl. split; [|done].
    eexists. split; [done|]. rewrite Ej. split; [by rewrite lookup_insert_eq|]. done. }
  unfold insertOne. case_bool_decide; [|done].
  destruct (findUniqueJob d (ip_UniqueKey p)) as [dup|] eqn:E; [|done].
  apply findUniqueJob_Some in E as (id & Hid & Hbk). split; [|done].
  exists dup. simpl. split_and!; try done. by rewrite (ji_id _ _ Hinv _ _ Hid).
Qed.

Lemma freshRows_cons r rs : freshRows (r :: rs) = freshRows [r] ++ freshRows rs.
Proof. unfold freshRows. simpl. by case_match. Qed.

Lemma freshRows_single r :
  freshRows [r] = [] ∨ ∃ row, freshRows [r] = [row] ∧ ir_Job r = Some row ∧ ir_UniqueSkip r = false.
Proof. unfold freshRows. simpl. repeat case_match; simplify_eq; eauto. Qed.

Lemma insertMany_spec ps : ∀ k d d' r,
  jobs_inv k d → k + Z.of_nat (length ps) < 2 ^ 63 → JobInsertMany d ps = (d', r) →
  ∃ rs, r = Ok rs ∧ Forall2 (insert_result_ok d d') ps rs ∧
    d_jobs d' = foldl (λ m row, <[ID row := row]> m) (d_jobs d) (freshRows rs) ∧
    NoDup (ID <$> freshRows rs) ∧
    (∀ row, row ∈ freshRows rs → d_jobs d !! ID row = None) ∧
    (∀ id row, d_jobs d !! id = Some row → d_jobs d' !! id = Some row).
Proof.
  unfold JobInsertMany. induction ps as [|p ps IH]; intros k d d' r Hinv Hb Hrun.
  { simpl in Hrun. simplify_eq. exists []. split_and!; try done; [constructor|set_solver]. }
  simpl in *. pose proof (insertOne_spec k d p Hinv ltac:(lia)) as H1.
  pose proof (insertOne_inv k d p Hinv ltac:(lia)) as Hinv1.
  destruct (insertOne d p) as [d1 res]. destruct H1 as [Hok Hj1]. cbn [fst] in *.
  destruct (insertLoop d1 ps) as [d2 rs0] eqn:El. simplify_eq.
  destruct (IH (k + 1) d1 d' (Ok rs0)) as (rs & [= <-] & Hall & Hfold & Hnd & Hnone & Hkeep);
    [done|lia|by rewrite El|].
  assert (∀ id row, d_jobs d !! id = Some row → d_jobs d1 !! id = Some row) as Hkeep1.
  { intros id row Hrow. rewrite Hj1. destruct Hok as (row' & Er & _ & Hc). unfold freshRows. simpl.
    destruct (ir_UniqueSkip res); [done|]. rewrite Er. simpl. destruct Hc as [Hn _].
    rewrite lookup_insert_ne; [done|]. intros <-. congruence. }
  exists (res :: rs0). split_and!; [done| | | | |eauto].
  - constructor.
    + destruct Hok as (row & Er & Hl & Hc). exists row. split_and!; eauto.
    + eapply Forall2_impl; [exact Hall|]. intros p' r' (row & Er & Hl & Hc). exists row.
      split_and!; [done|done|]. destruct (ir_UniqueSkip r'); [done|]. destruct Hc as [Hn Hc].
      split; [|done]. destruct (d_jobs d !! ID row) eqn:E; [|done]. apply Hkeep1 in E. congruence.
  - rewrite freshRows_cons, foldl_app, Hfold, Hj1. f_equal. unfold freshRows. simpl.
    by destruct (freshRows_single res) as [E|(row & E & _)]; unfold freshRows in E; simpl in E; rewrite E.
  - rewrite freshRows_cons, fmap_app. apply NoDup_app. split_and!; [|intros id Hin Hin'|done].
    + destruct (freshRows_single res) as [->|(row & -> & _)]; [constructor|apply NoDup_singleton].
    + apply list_elem_of_fmap in Hin' as (row' & -> & Hrow'). specialize (Hnone _ Hrow').
      destruct (freshRows_single res) as [E|(row & E & _)]; rewrite E in *; [set_solver|].
      apply list_elem_of_singleton in Hin as Hid. rewrite Hj1, Hid in Hnone.
      by rewrite lookup_insert_eq in Hnone.
  - intros row. rewrite freshRows_cons, elem_of_app. intros [Hin|Hin].
    + destruct Hok as (row' & Er & _ & Hc).
      destruct (freshRows_single res) as [E|(row0 & E & Er0 & Es)]; rewrite E in Hin; [set_solver|].
      apply list_elem_of_singleton in Hin as ->. rewrite Es in Hc. destruct Hc. congruence.
    + specialize (Hnone _ Hin). destruct (d_jobs d !! ID row) eqn:E; [|done].
      apply Hkeep1 in E. congruence.
Qed.

(** C5: inserting a batch returns one result per parameter, in order.  A
    skipped parameter carries a unique key and the stored job that blocks it;
    every other one is stored as a new row under an id that was free and is
    different from every other id of the batch; no stored row changes. *)
Theorem insert_accounts_for_every_job ops c ps d' r :
  total_cost ops + Z.of_nat (length ps) < 2 ^ 63 →
  let d := w_driver (run ops (init_world c)) in
  JobInsertMany d ps = (d', r) →
  ∃ rs, r = Ok rs ∧ Forall2 (insert_result_ok d d') ps rs ∧
    NoDup (ID <$> freshRows rs) ∧
    (∀ id row, d_jobs d !! id = Some row → d_jobs d' !! id = Some row) ∧
    (∀ id row, d_jobs d' !! id = Some row → d_jobs d !! id = Some row ∨ row ∈ freshRows rs).
Proof.
  intros Hb d Hrun. destruct (run_inv ops c) as [Hj _]; [lia|].
  destruct (insertMany_spec ps _ _ _ _ Hj Hb Hrun) as (rs & -> & Hall & Hfold & Hnd & Hnone & Hkeep).
  exists rs. split_and!; [done..|]. intros id row Hrow. rewrite Hfold in Hrow.
  clear -Hrow. revert Hrow. fold d. generalize (d_jobs d) as m. induction (freshRows rs) as [|r l IH]; [by left|].
  intros m Hm. simpl in Hm. apply IH in Hm as [Hm|]; [|set_solver].
  apply lookup_insert_Some in Hm as [[_ <-]|[_ ?]]; [set_solver|by left].
Qed.

(** ** Unique keys *)

(** At most one stored job blocks a given unique key. *)
Definition active_unique d : Prop := ∀ key id1 id2 row1 row2,
  key ≠ "" → d_jobs d !! id1 = Some row1 → d_jobs d !! id2 = Some row2 →
  blocksKey key row1 = true → blocksKey key row2 = true → id1 = id2.

(** The call does not put a finished job with a releasable key back in line. *)
Definition no_revival d (o : op) : Prop :=
  match o with
  | OReschedule p => ∀ row, d_jobs d !! rs_ID p = Some row →
      isTerminal (State row) = false ∨ UniqueKey row = "" ∨ IsPermanentUniqueKey (UniqueKey row) = true
  | _ => True
  end.

Fixpoint never_revives (ops : list op) (w : World) : Prop :=
  match ops with
  | [] => True
  | o :: ops' => no_revival (w_driver w) o ∧ never_revives ops' (exec o w)
  end.

(** Every blocking row comes from a blocking row with the same id. *)
Definition blocks_from d d' : Prop := ∀ key id row', key ≠ "" →
  d_jobs d' !! id = Some row' → blocksKey key row' = true →
  ∃ row, d_jobs d !! id = Some row ∧ blocksKey key row = true.

Lemma blocks_from_unique d d' : blocks_from d d' → active_unique d → active_unique d'.
Proof.
  intros Hf Hu key id1 id2 row1 row2 Hk H1 H2 B1 B2.
  destruct (Hf _ _ _ Hk H1 B1) as (r1 & ? & ?). destruct (Hf _ _ _ Hk H2 B2) as (r2 & ? & ?).
  by eapply (Hu key).
Qed.

Lemma blocks_from_same d d' : d_jobs d' = d_jobs d → blocks_from d d'.
Proof. intros E key id row' _ Hr Hb. rewrite E in Hr. eauto. Qed.

Lemma blocks_from_insert d d' id row row' :
  d_jobs d !! id = Some row → d_jobs d' = <[id := row']> (d_jobs d) →
  (∀ key, key ≠ "" → blocksKey key row' = true → blocksKey key row = true) → blocks_from d d'.
Proof.
  intros Hrow E Hb key i r Hk. rewrite E, lookup_insert_Some.
  intros [[-> ->]|[_ Hr]] Hbk; eauto.
Qed.

(** Keeping the key, a live row blocks what any version of it blocks. *)
Lemma blocksKey_live key row row' :
  UniqueKey row' = UniqueKey row → isTerminal (State row) = false →
  blocksKey key row' = true → blocksKey key row = true.
Proof.
  unfold blocksKey. intros -> ->. rewrite !andb_true_iff. simpl. rewrite orb_true_r. tauto.
Qed.

Lemma blocksKey_same key row row' :
  UniqueKey row' = UniqueKey row → State row' = State row →
  blocksKey key row' = blocksKey key row.
Proof. unfold blocksKey. by intros -> ->. Qed.

Lemma blocksKey_terminal key row row' :
  UniqueKey row' = UniqueKey row → isTerminal (State row') = true →
  blocksKey key row' = true → blocksKey key row = true.
Proof.
  unfold blocksKey. intros -> ->. rewrite !andb_true_iff, orb_false_r. intros [-> ->]. done.
Qed.

Lemma insertOne_unique d p : active_unique d → active_unique (insertOne d p).1.
Proof.
  intros Hu.
  assert ((ip_UniqueKey p ≠ "" → findUniqueJob d (ip_UniqueKey p) = None) →
    active_unique (insertFresh d p).1) as Hfresh.
  { intros Hnone key id1 id2 row1 row2 Hk.
    destruct (insertFresh_frame d p) as (-> & _). rewrite !lookup_insert_Some.
    assert (∀ id t row, blocksKey key (newRow p id t) = true → blocksKey key row = true →
      ∀ i, d_jobs d !! i = Some row → False) as Hno.
    { intros id t row Hb Hb' i Hr. unfold blocksKey in Hb at 1.
      apply andb_true_iff in Hb as [Hkey _]. apply bool_decide_eq_true in Hkey.
      change (ip_UniqueKey p = key) in Hkey. subst key.
      pose proof (findUniqueJob_None _ _ _ _ (Hnone Hk) Hr). congruence. }
    intros [[<- <-]|[_ H1]] [[<- <-]|[_ H2]] B1 B2; [done| | |by eapply (Hu key)].
    - by destruct (Hno _ _ _ B1 B2 _ H2).
    - by destruct (Hno _ _ _ B2 B1 _ H1). }
  unfold insertOne. case_bool_decide; [|by apply Hfresh].
  destruct (findUniqueJob d (ip_UniqueKey p)) eqn:E; [done|by apply Hfresh].
Qed.

Lemma insertMany_unique ps : ∀ d, active_unique d → active_unique (JobInsertMany d ps).1.
Proof.
  unfold JobInsertMany. induction ps as [|p ps IH]; intros d Hu; [done|]. simpl.
  pose proof (insertOne_unique d p Hu) as H1. destruct (insertOne d p) as [d1 r]. simpl in *.
  specialize (IH d1 H1). by destruct (insertLoop d1 ps).
Qed.

Lemma exec_blocks_from o d :
  no_revival d o → (∀ ps, o ≠ OInsert ps) → blocks_from d (exec_driver o d).
Proof.
  intros Hn Hi. destruct o; simpl in *; try (by apply blocks_from_same); try (by exfalso; eapply Hi).
  - intros key id row' Hk. rewrite JobFetchBatch_eq.
    destruct (d_queues d !! fp_Queue params) as [q|]; [destruct (q_Paused q)|]; simpl; eauto.
    intros Hr Hb. destruct (fetched_lookup _ _ _ _ _ Hr) as (row & Hrow & Hc).
    exists row. split; [done|]. unfold promote in Hc.
    destruct Hc as [[-> _]|[-> Hin]].
    + case_match eqn:Ep; [|done]. eapply (blocksKey_live _ row); [| |exact Hb]; [done|].
      by apply andb_true_iff in Ep as [[_ ->%bool_decide_eq_true]%andb_true_iff _].
    + apply elem_of_chosen in Hin as [_ Hcand]. unfold isCandidate in Hcand.
      apply andb_true_iff in Hcand as [[_ Hs%bool_decide_eq_true]%andb_true_iff _].
      revert Hb Hs. unfold promote. case_match eqn:Ep; intros Hb Hs.
      * eapply (blocksKey_live _ row); [| |exact Hb]; [done|].
        by apply andb_true_iff in Ep as [[_ ->%bool_decide_eq_true]%andb_true_iff _].
      * eapply (blocksKey_live _ row); [| |exact Hb]; [done|]. by rewrite Hs.
  - unfold JobMarkStarted. destruct (d_jobs d !! ms_ID params) as [row|] eqn:E; [|by apply blocks_from_same].
    case_match; [|by apply blocks_from_same]. by eapply blocks_from_insert.
  - intros key id row' Hk. simpl. rewrite lookup_fmap, fmap_Some. intros (row & Hrow & ->).
    unfold rescueRow. case_match eqn:Es; [|eauto]. intros Hb. exists row. split; [done|].
    eapply (blocksKey_live _ row); [| |exact Hb]; [done|].
    unfold isStuck in Es. apply andb_true_iff in Es as [[_ ->%bool_decide_eq_true]%andb_true_iff _]. done.
  - unfold JobHeartbeat. destruct (d_jobs d !! hp_ID params) as [row|] eqn:E; [|by apply blocks_from_same].
    case_match; [|by apply blocks_from_same]. by eapply blocks_from_insert.
  - unfold JobSetStateIfRunning. destruct (d_jobs d !! sp_ID params) as [row|] eqn:E; [|by apply blocks_from_same].
    case_match eqn:Ec; [|by apply blocks_from_same].
    apply andb_true_iff in Ec as [Hs%bool_decide_eq_true _].
    assert (∀ row' key, UniqueKey row' = UniqueKey row → blocksKey key row' = true → blocksKey key row = true) as Hl.
    { intros row' key Eu. apply blocksKey_live; [done|]. by rewrite Hs. }
    destruct (sp_Yield params); [|destruct (sp_Err params), (isTerminal (sp_State params))]; simpl;
      (eapply blocks_from_insert; [done..|intros key _; apply Hl; try apply transition_fields; done]).
  - unfold JobCancel. destruct (d_jobs d !! id) as [row|] eqn:E; [|by apply blocks_from_same].
    case_match; [by apply blocks_from_same|]. simpl. eapply blocks_from_insert; [done..|].
    intros key _. by apply blocksKey_terminal.
  - unfold JobDelete. destruct (d_jobs d !! id) as [row|] eqn:E; [|by apply blocks_from_same].
    intros key i r _. simpl. rewrite lookup_delete_Some. intros [_ ?]. eauto.
  - unfold JobReschedule. destruct (d_jobs d !! rs_ID params) as [row|] eqn:E; [|by apply blocks_from_same].
    eapply blocks_from_insert; [done..|]. intros key Hk Hb.
    destruct (Hn _ eq_refl) as [Hl|[Hl|Hl]]; [by eapply (blocksKey_live _ row); [|exact Hl|exact Hb]| |].
    + exfalso. unfold blocksKey in Hb. apply andb_true_iff in Hb as [Hb%bool_decide_eq_true _].
      change (UniqueKey row = key) in Hb. congruence.
    + unfold blocksKey in *. apply andb_true_iff in Hb as [Hb%bool_decide_eq_true _].
      change (UniqueKey row = key) in Hb. subst key. by rewrite Hl, bool_decide_eq_true_2.
  - apply blocks_from_same. unfold QueuePause, queueSetPaused, ensureQueue. simpl. by case_match.
  - apply blocks_from_same. unfold QueueResume, queueSetPaused, ensureQueue. simpl. by case_match.
  - apply blocks_from_same. unfold LeaderAttemptElect. simpl. by repeat case_match.
  - apply blocks_from_same. unfold LeaderResign. simpl. by repeat case_match.
  - apply blocks_from_same. unfold ScheduleCursorGetOrCreate. simpl. by repeat case_match.
  - apply blocks_from_same. unfold ScheduleCursorAdvance. simpl. by repeat case_match.
  - apply blocks_from_same. unfold receive. simpl. by repeat case_match.
Qed.

Lemma active_unique_frame d d' : d_jobs d' = d_jobs d → active_unique d → active_unique d'.
Proof. intros E. apply blocks_from_unique, blocks_from_same, E. Qed.

Lemma run_unique ops : ∀ w, active_unique (w_driver w) → never_revives ops w →
  active_unique (w_driver (run ops w)).
Proof.
  induction ops as [|o ops IH]; intros w Hu Hn; [done|]. destruct Hn as [Ho Hn].
  apply IH; [|done]. apply (active_unique_frame (exec_driver o (w_driver w))); [by rewrite exec_jobs|].
  assert ((∃ ps, o = OInsert ps) ∨ (∀ ps, o ≠ OInsert ps)) as [[ps ->]|Hne]
    by (destruct o; first [left; by eexists|right; by intros]); [by apply insertMany_unique|].
  apply (blocks_from_unique (w_driver w)); [|done]. by apply exec_blocks_from.
Qed.

(** C6: unique keys.  In a history in which no call reschedules a finished job whose
    key is releasable, at most one job that is not finished (at most one job
    at all for a permanent key) carries a given unique key.  The condition is needed:
    see [reschedule_duplicates_unique_key]. *)
Theorem unique_key_single_active ops c :
  never_revives ops (init_world c) → active_unique (w_driver (run ops (init_world c))).
Proof.
  apply run_unique. intros key id1 id2 r1 r2 _ H1. simpl in H1. by rewrite lookup_empty in H1.
Qed.

(** ** Wake-ups *)

Definition woken d (c : nat) : Prop := ∃ ch, d_heap d !! c = Some ch ∧ ch_buf ch ≠ [].

Lemma trySend_woken q d c : open_chan d c → woken (trySend q d c) c.
Proof.
  intros (ch & Hc & Ho). unfold trySend, woken. rewrite Hc, Ho. case_bool_decide as Hl.
  - simpl. rewrite list_lookup_insert_eq by (by eapply lookup_lt_Some).
    eexists. split; [done|]. simpl. by destruct (ch_buf ch).
  - exists ch. split; [done|]. intros E. rewrite E in Hl. apply Hl. simpl. unfold chan_cap. lia.
Qed.

Lemma trySend_keeps_woken q d c c' : woken d c → woken (trySend q d c') c.
Proof.
  intros (ch & Hc & Hne). unfold trySend, woken. destruct (d_heap d !! c') as [ch'|] eqn:E; [|eauto].
  destruct (ch_closed ch'); [simpl; eauto|]. case_bool_decide; [|eauto]. simpl.
  destruct (decide (c = c')) as [->|].
  - rewrite list_lookup_insert_eq by (by eapply lookup_lt_Some). eexists. split; [done|].
    simpl. by destruct (ch_buf ch').
  - rewrite list_lookup_insert_ne by done. eauto.
Qed.

Lemma foldl_trySend_keeps q l : ∀ d c, woken d c → woken (foldl (trySend q) d l) c.
Proof. induction l as [|c' l IH]; intros d c Hw; [done|]. apply IH. by apply trySend_keeps_woken. Qed.

Lemma foldl_trySend_wakes q l : ∀ d c,
  c ∈ l → (∀ c, c ∈ l → open_chan d c) → woken (foldl (trySend q) d l) c.
Proof.
  induction l as [|c' l IH]; intros d c Hc Ho; [set_solver|]. simpl.
  apply elem_of_cons in Hc as [->|Hc].
  - apply foldl_trySend_keeps, trySend_woken, Ho. set_solver.
  - apply IH; [done|]. intros c0 Hc0.
    eapply (open_chan_kept d); [apply trySend_kept, Ho; set_solver|]. apply Ho. set_solver.
Qed.

Lemma broadcast_wakes q d c : delivers d → registered d q c → woken (broadcastNotify q d) c.
Proof. intros Hd Hc. apply foldl_trySend_wakes; [done|]. intros. by eapply Hd. Qed.

Lemma insertFresh_wakes d p c :
  delivers d → registered d (ip_Queue p) c → woken (insertFresh d p).1 c.
Proof.
  intros Hd Hc. unfold insertFresh. simpl.
  match goal with |- context [broadcastNotify _ ?x] => set (d4 := x) end.
  assert (chans_kept d d4) as Hk.
  { subst d4. unfold ensureQueue. simpl. by case_match; apply chans_kept_same. }
  apply broadcast_wakes; [by eapply delivers_kept|].
  unfold registered. by rewrite (ck_notify _ _ Hk).
Qed.

Lemma insertMany_keeps_woken ps : ∀ d c, woken d c → woken (JobInsertMany d ps).1 c.
Proof.
  unfold JobInsertMany. induction ps as [|p ps IH]; intros d c Hw; [done|]. simpl.
  assert (woken (insertOne d p).1 c) as H1.
  { assert (woken (insertFresh d p).1 c) as H2.
    { unfold insertFresh. simpl. apply foldl_trySend_keeps.
      unfold ensureQueue. simpl. by case_match. }
    unfold insertOne. by repeat case_match. }
  destruct (insertOne d p) as [d1 r]. specialize (IH d1 c H1). by destruct (insertLoop d1 ps).
Qed.

Lemma insertMany_wakes ps : ∀ d d' rs p res c i,
  delivers d → JobInsertMany d ps = (d', Ok rs) → ps !! i = Some p → rs !! i = Some res →
  ir_UniqueSkip res = false → registered d (ip_Queue p) c → woken d' c.
Proof.
  unfold JobInsertMany.
  induction ps as [|p0 ps IH]; intros d d' rs p res c i Hd Hrun Hp Hres Hs Hc; [done|].
  simpl in Hrun. pose proof (insertOne_kept d p0 Hd) as Hk.
  destruct (insertOne d p0) as [d1 r] eqn:E1. destruct (insertLoop d1 ps) as [d2 rs0] eqn:E2.
  simpl in Hk. simplify_eq. destruct i as [|i]; simpl in *.
  - simplify_eq. assert (woken d1 c) as Hw.
    { pose proof (insertFresh_wakes d p c Hd Hc) as Hf. unfold insertOne in E1.
      repeat case_match; simplify_eq; rewrite ?E1 in *; simpl in *; done. }
    pose proof (insertMany_keeps_woken ps d1 c Hw) as Hw'.
    unfold JobInsertMany in Hw'. by rewrite E2 in Hw'.
  - eapply (IH d1); [by eapply delivers_kept|by rewrite E2|done..|].
    unfold registered. by rewrite (ck_notify _ _ Hk).
Qed.

(** C7: no lost wake-up.  After a batch that stored a job in a queue, every
    channel subscribed to that queue holds a pending notification. *)
Theorem insert_wakes_listeners ops c ps d' rs p res i ch :
  total_cost ops < 2 ^ 63 →
  let d := w_driver (run ops (init_world c)) in
  JobInsertMany d ps = (d', Ok rs) → ps !! i = Some p → rs !! i = Some res →
  ir_UniqueSkip res = false → registered d (ip_Queue p) ch → woken d' ch.
Proof.
  intros Hb d. apply insertMany_wakes. apply chan_inv_delivers. by apply run_inv.
Qed.
End keys.

(** ** Witnesses *)

Definition demoBatch : list JobInsertParams :=
  [demoInsert "mail" "k1" 0 0; demoInsert "mail" "k2" 0 0; demoInsert "mail" "k2" 0 0].

Lemma insert_accounts_for_every_job_witness : ∃ d' rs,
  JobInsertMany (H := map_to_list_range) (w_driver demoWorld) demoBatch = (d', Ok rs) ∧
  ir_UniqueSkip <$> rs = [true; false; true] ∧ NoDup (ID <$> freshRows rs).
Proof.
  destruct (JobInsertMany (H := map_to_list_range) (w_driver demoWorld) demoBatch) as [d' r] eqn:E.
  destruct (insert_accounts_for_every_job (H := map_to_list_range) demoOps demoClock demoBatch d' r
    ltac:(vm_compute; reflexivity) E) as (rs & -> & _ & Hnd & _).
  exists d', rs. split_and!; [done| |done].
  assert (rs = match (JobInsertMany (H := map_to_list_range) (w_driver demoWorld) demoBatch).2 with
               | Ok rs => rs | Err _ => [] end) as -> by (by rewrite E).
  vm_compute. reflexivity.
Defined.

Definition reviveOps : list op :=
  [ OInsert [demoInsert "q" "k" 0 0]; OFetch (mkFetchParams "q" 1 "w" Second);
    OSetState (mkJobSetStateParams "mem_1" JobStateCompleted None None 1 0 "w" 1 false);
    OInsert [demoInsert "q" "k" 0 0] ].

Lemma unique_key_single_active_witness :
  active_unique (w_driver (run (H := map_to_list_range) reviveOps (init_world demoClock))) ∧
  size (d_jobs (w_driver (run (H := map_to_list_range) reviveOps (init_world demoClock)))) = 2%nat.
Proof.
  split; [|vm_compute; reflexivity].
  apply (unique_key_single_active (H := map_to_list_range) reviveOps demoClock). repeat split.
Defined.

(** The exception in [unique_key_single_active] is real: rescheduling the
    finished first job makes two active jobs share the key. *)
Lemma reschedule_duplicates_unique_key :
  ¬ active_unique (w_driver (run (H := map_to_list_range)
      (reviveOps ++ [OReschedule (mkRescheduleParams "mem_1" demoT0)]) (init_world demoClock))).
Proof.
  intros Hu.
  set (d := w_driver _) in Hu.
  destruct (d_jobs d !! "mem_1") as [r1|] eqn:E1; [|vm_compute in E1; discriminate].
  destruct (d_jobs d !! "mem_2") as [r2|] eqn:E2; [|vm_compute in E2; discriminate].
  assert (blocksKey "k" r1 = true) as B1.
  { vm_compute in E1. injection E1 as <-. reflexivity. }
  assert (blocksKey "k" r2 = true) as B2.
  { vm_compute in E2. injection E2 as <-. reflexivity. }
  assert ("k" ≠ "") as Hne by done.
  pose proof (Hu _ _ _ _ _ Hne E1 E2 B1 B2) as Hbad. discriminate Hbad.
Qed.

Lemma insert_wakes_listeners_witness : ∃ d' rs,
  JobInsertMany (H := map_to_list_range) (w_driver demoWorld) demoBatch = (d', Ok rs) ∧ woken d' 0.
Proof.
  destruct (JobInsertMany (H := map_to_list_range) (w_driver demoWorld) demoBatch) as [d' r] eqn:E.
  destruct r as [rs|e]; [|vm_compute in E; discriminate].
  exists d', rs. split; [done|].
  eapply (insert_wakes_listeners (H := map_to_list_range) demoOps demoClock demoBatch d' rs
    (demoInsert "mail" "k2" 0 0) _ 1 0).
  - reflexivity.
  - exact E.
  - reflexivity.
  - vm_compute in E. injection E as <- <-. reflexivity.
  - reflexivity.
  - vm_compute. apply elem_of_cons. by left.
Defined.
