(* ===== verification/Listing.v ===== *)
(** * Listing and administering jobs: the interface and its memory instance

    [AdminStore] is the part of [driver.Executor] and [driver.AdminExecutor]
    that maintenance and the admin handler use, as state-passing operations.
    [AdminStoreLaws] is its contract: [JobList] pages through the rows that
    match, newest first ([listing]), resuming strictly after the row the cursor
    was made from, whether or not that row still exists.  The memory backend is
    shown to satisfy the contract, and [walk], the client loop that follows
    cursors, is shown to visit every matching row exactly once. *)

From S2P Require Import Prelude GoBase Json Codec Driver Memory MemoryInv MemoryFetch MemoryProps.
From Stdlib Require Import ZArith Lia.

(** ** The order of a listing *)

Lemma listLess_true a b :
  listLess a b = true ↔
    CreatedAt b < CreatedAt a ∨ CreatedAt a = CreatedAt b ∧ str_lt (ID b) (ID a) = true.
Proof.
  unfold listLess. split; intros; repeat case_match; time_to_prop; try lia;
    first [ by right | apply After_true; lia | destruct (str_lt (ID b) (ID a)); [done|lia] ].
Qed.

#[export] Instance listLess_strict_weak : StrictWeak listLess.
Proof.
  split.
  - intros a b Hab. destruct (listLess b a) eqn:Hba; [|done].
    apply listLess_true in Hab, Hba. pose proof (str_lt_asym (ID b) (ID a)).
    destruct (str_lt (ID b) (ID a)); intuition (congruence || lia).
  - intros a b c Hab Hbc. destruct (listLess a c) eqn:Hac; [|done].
    apply not_true_iff_false in Hab, Hbc. rewrite listLess_true in Hab, Hbc.
    apply listLess_true in Hac. pose proof (str_lt_negtrans (ID c) (ID b) (ID a)).
    destruct (str_lt (ID c) (ID b)), (str_lt (ID b) (ID a)), (str_lt (ID c) (ID a));
      intuition (congruence || lia).
Qed.

Lemma listLess_total a b : listLess a b = false → listLess b a = false → ID a = ID b.
Proof.
  intros Hab Hba. apply not_true_iff_false in Hab, Hba. rewrite listLess_true in Hab, Hba.
  apply str_lt_total; apply not_true_iff_false; intros Hlt; rewrite Hlt in *; intuition lia.
Qed.

(** The cursor test of pagination.go is the listing order. *)
Lemma JobFollowsCursor_listLess r row :
  JobFollowsCursor row (CreatedAt r) (ID r) = listLess r row.
Proof.
  unfold JobFollowsCursor, listLess, Before, After, TimeEqual.
  destruct (CreatedAt row <? CreatedAt r) eqn:E1, (CreatedAt row =? CreatedAt r) eqn:E2;
    destruct (CreatedAt r =? CreatedAt row) eqn:E3; simpl; bool_to_prop; try lia; done.
Qed.

(** ** Listings *)

Definition rowMatches (p : JobListParams) (row : JobRow) : bool :=
  (bool_decide (jl_Queue p = "") || bool_decide (Queue row = jl_Queue p))
  && (bool_decide (jl_State p = "") || bool_decide (State row = jl_State p))
  && (bool_decide (jl_Kind p = "") || bool_decide (Kind row = jl_Kind p)).

(** All rows that match, newest first. *)
Definition listing (p : JobListParams) (m : gmap string JobRow) : list JobRow :=
  sort_by listLess (filter (λ row, rowMatches p row = true) (map_to_list m).*2).

Definition withCursor (cursor : string) (p : JobListParams) : JobListParams :=
  mkJobListParams (jl_Queue p) (jl_State p) (jl_Kind p) (jl_Limit p) cursor.

Definition withLimit (limit : Z) (p : JobListParams) : JobListParams :=
  mkJobListParams (jl_Queue p) (jl_State p) (jl_Kind p) limit (jl_Cursor p).

(** A row whose cursor can be decoded again. *)
Definition encodable (row : JobRow) : Prop :=
  is_int64 (CreatedAt row - unixEpoch) ∧ CreatedAt row ≠ unixEpoch ∧ ID row ≠ "".

#[export] Instance encodable_dec row : Decision (encodable row).
Proof. unfold encodable. apply _. Defined.

Lemma all_encodable (m : gmap string JobRow) :
  forallb (λ kv, bool_decide (encodable kv.2)) (map_to_list m) = true →
  ∀ id row, m !! id = Some row → encodable row.
Proof.
  intros Hall id row Hrow%elem_of_map_to_list. rewrite forallb_forall in Hall.
  apply list_elem_of_In in Hrow. apply Hall in Hrow. by apply bool_decide_eq_true in Hrow.
Qed.

Lemma listing_elem p m row :
  keyed m → row ∈ listing p m ↔ m !! ID row = Some row ∧ rowMatches p row = true.
Proof.
  intros Hk. unfold listing. rewrite sort_by_perm, list_elem_of_filter, list_elem_of_fmap. split.
  - intros [Hm ([id r] & -> & Hin)]. apply elem_of_map_to_list in Hin. simpl in *.
    by rewrite (Hk _ _ Hin).
  - intros [Hl Hm]. split; [done|]. exists (ID row, row). by rewrite elem_of_map_to_list.
Qed.

Lemma values_nodup (m : gmap string JobRow) : keyed m → NoDup (map_to_list m).*2.
Proof.
  intros Hk. apply NoDup_fmap_2_strong; [|apply NoDup_map_to_list].
  intros [i1 r1] [i2 r2] H1 H2 Heq. apply elem_of_map_to_list in H1, H2. simpl in *. subst.
  by rewrite <-(Hk _ _ H1), <-(Hk _ _ H2).
Qed.

Lemma listing_nodup p m : keyed m → NoDup (listing p m).
Proof. intros Hk. unfold listing. rewrite sort_by_perm. by apply NoDup_filter, values_nodup. Qed.

(** Sorted strictly: no two rows of a table are tied. *)
Lemma strictly_sorted_by_id (l : list JobRow) :
  NoDup (ID <$> l) → StronglySorted (not_after listLess) l →
  StronglySorted (λ a b, listLess a b = true) l.
Proof.
  induction l as [|a l IH]; intros Hnd Hs; [constructor|].
  rewrite fmap_cons, NoDup_cons in Hnd. destruct Hnd as [Ha Hnd].
  inversion Hs as [|? ? Hs' Hf]; subst. constructor; [by apply IH|].
  apply Forall_forall. intros b Hb. rewrite Forall_forall in Hf. specialize (Hf b Hb). simpl in Hf.
  destruct (listLess a b) eqn:E; [done|]. exfalso. apply Ha.
  rewrite (listLess_total a b) by done. by apply list_elem_of_fmap_2.
Qed.

Lemma listing_ids_nodup p m : keyed m → NoDup (ID <$> listing p m).
Proof.
  intros Hk. apply NoDup_fmap_2_strong; [|by apply listing_nodup].
  intros a b Ha%listing_elem Hb%listing_elem Heq; [|done..].
  destruct Ha as [Ha _], Hb as [Hb _]. rewrite Heq in Ha. congruence.
Qed.

Lemma listing_sorted p m : keyed m → StronglySorted (λ a b, listLess a b = true) (listing p m).
Proof.
  intros Hk. apply strictly_sorted_by_id; [by apply listing_ids_nodup|]. apply sort_by_strongly_sorted, _.
Qed.

(** A strictly sorted list is determined by its elements. *)
Lemma sorted_ext (l1 l2 : list JobRow) :
  StronglySorted (λ a b, listLess a b = true) l1 → StronglySorted (λ a b, listLess a b = true) l2 →
  (∀ x, x ∈ l1 ↔ x ∈ l2) → l1 = l2.
Proof.
  intros H1 H2 Hx.
  assert (∀ l, StronglySorted (λ a b, listLess a b = true) l → NoDup l) as Hnd.
  { induction 1 as [|a l Hs IH Hf]; constructor; [|done]. intros Hin.
    rewrite Forall_forall in Hf. specialize (Hf a Hin). simpl in Hf.
    pose proof (less_asym listLess _ _ Hf). congruence. }
  eapply (StronglySorted_unique_strong (λ a b, listLess a b = true)); [|done..|].
  - intros x y _ _ Hxy Hyx. apply (less_asym listLess) in Hxy. congruence.
  - apply NoDup_Permutation; auto.
Qed.

Lemma sorted_filter (P : JobRow → Prop) `{∀ x, Decision (P x)} (l : list JobRow) :
  StronglySorted (λ a b, listLess a b = true) l →
  StronglySorted (λ a b, listLess a b = true) (filter P l).
Proof.
  induction 1 as [|a l Hs IH Hf]; [constructor|]. rewrite filter_cons. case_decide; [|done].
  constructor; [done|]. apply Forall_forall. intros b [_ Hb]%list_elem_of_filter.
  rewrite Forall_forall in Hf. by apply Hf.
Qed.

(** What follows a row of a strictly sorted list. *)
Lemma sorted_after (l1 l2 : list JobRow) r :
  StronglySorted (λ a b, listLess a b = true) (l1 ++ r :: l2) →
  filter (λ row, listLess r row = true) (l1 ++ r :: l2) = l2.
Proof.
  intros Hs. rewrite filter_app, filter_cons.
  assert (listLess r r = false) as Hrr.
  { destruct (listLess r r) eqn:E; [|done]. by rewrite (less_asym listLess _ _ E) in E. }
  rewrite decide_False by congruence.
  rewrite (filter_none _ l1), (filter_all _ l2); [done|..].
  - apply Forall_forall. intros x Hx.
    apply StronglySorted_app_1_r in Hs. inversion Hs as [|? ? _ Hf]; subst.
    rewrite Forall_forall in Hf. by apply Hf.
  - apply Forall_forall. intros x Hx Hc.
    eapply StronglySorted_app_1_elem_of in Hs; [|exact Hx|by left].
    simpl in Hs. apply (less_asym listLess) in Hs. congruence.
Qed.

(** ** The interface *)

Class AdminStore (S : Type) := {
  as_list : S → JobListParams → S * result (list JobRow);
  as_get : S → string → S * result JobRow;
  as_delete : S → string → S * result unit;
  as_cancel : S → string → S * result unit;
  as_reschedule : S → RescheduleParams → S * result unit
}.

(** The contract.  [as_jobs] is the table a store stands for; [as_valid] the
    states in which it is well formed. *)
Class AdminStoreLaws (S : Type) `{AdminStore S} := {
  as_jobs : S → gmap string JobRow;
  as_valid : S → Prop;
  as_keyed s : as_valid s → keyed (as_jobs s);
  as_list_first s p : as_valid s → jl_Cursor p = "" →
    as_list s p = (s, Ok (take (Z.to_nat (pageLimit (jl_Limit p))) (listing p (as_jobs s))));
  as_list_next s p r : as_valid s → encodable r → jl_Cursor p = EncodeJobCursor r →
    as_list s p = (s, Ok (take (Z.to_nat (pageLimit (jl_Limit p)))
                           (filter (λ row, listLess r row = true) (listing p (as_jobs s)))));
  as_get_spec s id : as_valid s →
    (as_get s id).1 = s ∧
    match as_jobs s !! id with
    | Some row => (as_get s id).2 = Ok row
    | None => ∃ e, (as_get s id).2 = Err e ∧ errorsIs e ErrNotFound = true
    end;
  as_delete_spec s id : as_valid s →
    as_valid (as_delete s id).1 ∧ as_jobs (as_delete s id).1 = delete id (as_jobs s) ∧
    match as_jobs s !! id with
    | Some _ => (as_delete s id).2 = Ok tt
    | None => ∃ e, (as_delete s id).2 = Err e ∧ errorsIs e ErrNotFound = true
    end;
  as_reschedule_spec s p : as_valid s →
    as_valid (as_reschedule s p).1 ∧
    match as_jobs s !! rs_ID p with
    | Some row => (as_reschedule s p).2 = Ok tt ∧
        as_jobs (as_reschedule s p).1 =
          <[rs_ID p := set_State JobStateScheduled (set_RunAt (rs_RunAt p) row)]> (as_jobs s)
    | None => (∃ e, (as_reschedule s p).2 = Err e ∧ errorsIs e ErrNotFound = true) ∧
        as_jobs (as_reschedule s p).1 = as_jobs s
    end
}.

(** ** The memory backend implements it *)

Section memory.
Context `{MapRange}.

#[export] Instance memoryAdminStore : AdminStore Driver := {|
  as_list d p := (d, JobList d p);
  as_get d id := (d, JobGetByID d id);
  as_delete := JobDelete;
  as_cancel := JobCancel;
  as_reschedule := JobReschedule
|}.

Definition followsOpt (cur : option (Instant * string)) (row : JobRow) : bool :=
  match cur with Some (at_, id) => JobFollowsCursor row at_ id | None => true end.

Lemma listSkips_matches p cur row :
  listSkips p cur row = false ↔ rowMatches p row = true ∧ followsOpt cur row = true.
Proof.
  unfold listSkips, rowMatches, followsOpt. rewrite !bool_decide_not, <-!negb_orb.
  generalize (bool_decide (jl_Queue p = "") || bool_decide (Queue row = jl_Queue p)) as b1.
  generalize (bool_decide (jl_State p = "") || bool_decide (State row = jl_State p)) as b2.
  generalize (bool_decide (jl_Kind p = "") || bool_decide (Kind row = jl_Kind p)) as b3.
  intros [] [] []; destruct cur as [[at_ id]|]; simpl; try (intuition congruence);
    destruct (JobFollowsCursor row at_ id); simpl; intuition congruence.
Qed.

Lemma AllJobs_perm d : AllJobs d ≡ₚ (map_to_list (d_jobs d)).*2.
Proof. unfold AllJobs. by rewrite range_map_perm. Qed.

Lemma AllJobs_elem d row : keyed (d_jobs d) → row ∈ AllJobs d ↔ d_jobs d !! ID row = Some row.
Proof.
  intros Hk. rewrite AllJobs_perm, list_elem_of_fmap. split.
  - intros ([id r] & -> & Hin%elem_of_map_to_list). simpl. by rewrite (Hk _ _ Hin).
  - intros Hl. exists (ID row, row). by rewrite elem_of_map_to_list.
Qed.

Lemma JobList_sorted d p cur :
  keyed (d_jobs d) →
  sort_by listLess (filter (λ row, listSkips p cur row = false) (AllJobs d)) =
  filter (λ row, followsOpt cur row = true) (listing p (d_jobs d)).
Proof.
  intros Hk. apply sorted_ext.
  - apply strictly_sorted_by_id; [|apply sort_by_strongly_sorted, _].
    rewrite sort_by_perm. apply NoDup_fmap_2_strong.
    + intros a b [_ Ha]%list_elem_of_filter [_ Hb]%list_elem_of_filter Heq.
      apply AllJobs_elem in Ha, Hb; [|done..]. rewrite Heq in Ha. congruence.
    + apply NoDup_filter. rewrite AllJobs_perm. by apply values_nodup.
  - by apply sorted_filter, listing_sorted.
  - intros x. rewrite sort_by_perm, !list_elem_of_filter, listing_elem, AllJobs_elem by done.
    rewrite listSkips_matches. tauto.
Qed.

(** A valid memory state, for the purposes of listing. *)
Definition memory_valid (d : Driver) : Prop := keyed (d_jobs d).

Program Instance memoryAdminLaws : AdminStoreLaws Driver := {|
  as_jobs := d_jobs;
  as_valid := memory_valid
|}.
Next Obligation. done. Qed.
Next Obligation.
  intros d p Hk Hc. simpl. unfold JobList. rewrite Hc. simpl. do 3 f_equal.
  rewrite JobList_sorted by done. simpl. apply filter_all. by apply Forall_true.
Qed.
Next Obligation.
  intros d p r Hk (Hr1 & Hr2 & Hr3) Hc. simpl. unfold JobList. rewrite Hc.
  rewrite DecodeJobCursor_Encode by done. case_bool_decide as Hnil.
  - exfalso. pose proof (DecodeJobCursor_Encode r Hr1 Hr2 Hr3) as Hd. rewrite Hnil in Hd.
    vm_compute in Hd. discriminate.
  - do 3 f_equal. rewrite JobList_sorted by done.
    apply list_filter_iff. intros row. unfold followsOpt. by rewrite JobFollowsCursor_listLess.
Qed.
Next Obligation.
  intros d id Hk. simpl. split; [done|]. unfold JobGetByID. case_match; [done|]. by eexists.
Qed.
Next Obligation.
  intros d id Hk. simpl. unfold JobDelete. destruct (d_jobs d !! id) eqn:E; simpl.
  - split_and!; try done. intros i row. simpl. rewrite lookup_delete_Some. intros [_ Hr]. by apply Hk.
  - split_and!; [done|by rewrite delete_id|by eexists].
Qed.
Next Obligation.
  intros d p Hk. simpl. unfold JobReschedule. destruct (d_jobs d !! rs_ID p) eqn:E; simpl.
  - split_and!; try done. intros i row. simpl. rewrite lookup_insert_Some. intros [[<- <-]|[_ Hr]]; [exact (Hk _ _ E)|by apply Hk].
  - split_and!; [done| |done]. by eexists.
Qed.
End memory.

#[export] Existing Instance memoryAdminLaws.

(** ** Following the cursors *)

Section walk.
Context {S : Type} `{AdminStoreLaws S}.

(** The client loop: ask for a page, stop at a short one, otherwise continue
    from the cursor of its last row. *)
Fixpoint walk (fuel : nat) (s : S) (p : JobListParams) : option (list JobRow) :=
  match fuel with
  | O => None
  | Datatypes.S f =>
      match (as_list s p).2 with
      | Ok rows =>
          if (length rows <? Z.to_nat (pageLimit (jl_Limit p)))%nat then Some rows
          else match last rows with
               | Some r => app rows <$> walk f s (withCursor (EncodeJobCursor r) p)
               | None => Some rows
               end
      | Err _ => None
      end
  end.

Lemma pageLimit_pos l : (0 < Z.to_nat (pageLimit l))%nat.
Proof. unfold pageLimit. case_match; bool_to_prop; lia. Qed.

(** One page of the unread rest. *)
Lemma as_list_rest s p done_ rest r :
  as_valid s → encodable r → listing p (as_jobs s) = done_ ++ r :: rest →
  as_list s (withCursor (EncodeJobCursor r) p) =
    (s, Ok (take (Z.to_nat (pageLimit (jl_Limit p))) rest)).
Proof.
  intros Hv He Hl. rewrite (as_list_next s _ r) by done. do 3 f_equal.
  change (listing (withCursor _ p) (as_jobs s)) with (listing p (as_jobs s)). rewrite Hl.
  apply sorted_after. rewrite <-Hl. by apply listing_sorted, as_keyed.
Qed.

Lemma walk_rest s p : as_valid s → (∀ id row, as_jobs s !! id = Some row → encodable row) →
  ∀ fuel done_ r rest,
    listing p (as_jobs s) = done_ ++ r :: rest → (length rest < fuel)%nat →
    walk fuel s (withCursor (EncodeJobCursor r) p) = Some rest.
Proof.
  intros Hv He. pose proof (pageLimit_pos (jl_Limit p)) as Hpos.
  induction fuel as [|fuel IH]; intros done_ r rest Hl Hf; [lia|]. simpl.
  assert (∀ x, x ∈ listing p (as_jobs s) → encodable x) as Henc.
  { intros x [Hx _]%listing_elem; [eauto|by apply as_keyed]. }
  rewrite (as_list_rest s p done_ rest r) by (done || apply Henc; rewrite Hl; set_solver).
  cbn [snd]. change (jl_Limit (withCursor _ p)) with (jl_Limit p).
  set (n := Z.to_nat (pageLimit (jl_Limit p))) in *. rewrite length_take.
  destruct (Nat.ltb (Nat.min n (length rest)) n) eqn:E.
  - apply Nat.ltb_lt in E. f_equal. apply take_ge. lia.
  - apply Nat.ltb_ge in E. assert (n ≤ length rest)%nat as Hle by lia.
    destruct (last (take n rest)) as [r'|] eqn:El.
    + apply last_Some in El as [l' Hl'].
      change (withCursor _ (withCursor _ p)) with (withCursor (EncodeJobCursor r') p).
      rewrite (IH (done_ ++ r :: l') r' (drop n rest)).
      * simpl. by rewrite take_drop.
      * rewrite Hl. rewrite <-app_assoc. f_equal. simpl. f_equal.
        rewrite <-(take_drop n rest) at 1. rewrite Hl'. by rewrite <-app_assoc.
      * rewrite length_drop. lia.
    + apply last_None in El. apply (f_equal length) in El. rewrite length_take in El. simpl in El. lia.
Qed.

Lemma walk_all s p fuel : as_valid s → (∀ id row, as_jobs s !! id = Some row → encodable row) →
  jl_Cursor p = "" → (length (listing p (as_jobs s)) < fuel)%nat →
  walk fuel s p = Some (listing p (as_jobs s)).
Proof.
  intros Hv He Hc Hf. pose proof (pageLimit_pos (jl_Limit p)) as Hpos.
  destruct fuel as [|fuel]; [lia|]. simpl. rewrite as_list_first by done. cbn [snd].
  set (n := Z.to_nat (pageLimit (jl_Limit p))) in *. set (L := listing p (as_jobs s)) in *.
  rewrite length_take. destruct (Nat.ltb (Nat.min n (length L)) n) eqn:E.
  - apply Nat.ltb_lt in E. f_equal. apply take_ge. lia.
  - apply Nat.ltb_ge in E. destruct (last (take n L)) as [r'|] eqn:El.
    + apply last_Some in El as [l' Hl'].
      rewrite (walk_rest s p Hv He fuel l' r' (drop n L)).
      * simpl. by rewrite take_drop.
      * fold L. rewrite <-(take_drop n L) at 1. rewrite Hl'. by rewrite <-app_assoc.
      * rewrite length_drop. lia.
    + apply last_None in El. apply (f_equal length) in El. rewrite length_take in El. simpl in El. lia.
Qed.

(** C8: following the cursors of [JobList] to the end yields every matching
    row exactly once, newest first, whatever the page size; one request more
    than there are rows is always enough. *)
Theorem walk_lists_everything_once s p fuel :
  as_valid s → (∀ id row, as_jobs s !! id = Some row → encodable row) →
  jl_Cursor p = "" → (size (as_jobs s) < fuel)%nat →
  ∃ rows, walk fuel s p = Some rows ∧ NoDup (ID <$> rows) ∧
    StronglySorted (λ a b, listLess a b = true) rows ∧
    ∀ row, row ∈ rows ↔ as_jobs s !! ID row = Some row ∧ rowMatches p row = true.
Proof.
  intros Hv He Hc Hf. exists (listing p (as_jobs s)). pose proof (as_keyed s Hv) as Hk. split_and!.
  - apply walk_all; try done. eapply Nat.le_lt_trans; [|exact Hf].
    unfold listing. rewrite sort_by_length.
    etrans; [apply length_filter|]. by rewrite length_fmap, length_map_to_list.
  - by apply listing_ids_nodup.
  - by apply listing_sorted.
  - intros row. by apply listing_elem.
Qed.
End walk.

(** ** Witness *)

Definition demoParams : JobListParams := mkJobListParams "mail" "" "" 2 "".

Lemma walk_lists_everything_once_witness :
  ∃ rows, walk (S := Driver) (H := memoryAdminStore (H := map_to_list_range)) 10
            (w_driver demoWorld) demoParams = Some rows ∧ length rows = 4%nat.
Proof.
  destruct (walk_lists_everything_once (H := memoryAdminStore (H := map_to_list_range))
    (H0 := memoryAdminLaws (H := map_to_list_range))
    (w_driver demoWorld) demoParams 10) as (rows & Hw & _).
  - exact (ji_id _ _ (proj1 demo_inv)).
  - apply all_encodable. vm_compute. reflexivity.
  - reflexivity.
  - vm_compute. lia.
  - exists rows. split; [exact Hw|]. vm_compute in Hw. injection Hw as <-. reflexivity.
Defined.
