(* ===== verification/MemoryLeases.v ===== *)
(** * Leases, statistics and queue listings of the memory backend *)

From S2P Require Import Prelude GoBase Json Codec Driver Memory MemoryInv MemoryFetch MemoryProps Listing.
From Stdlib Require Import ZArith Lia.

Section leases.
Context `{MapRange}.

(** ** Leases *)

(** Calls that may legitimately end or change the lease of [wk]. *)
Definition leaseOp (name wk : string) (o : op) : Prop :=
  match o with
  | OResign p => lr_Name p = name ∧ lr_WorkerID p = wk
  | OElect p => le_Name p = name ∧ le_WorkerID p = wk
  | _ => False
  end.

(** The answers other candidates get during a history. *)
Fixpoint otherElections (name : string) (ops : list op) (w : World) : list bool :=
  match ops with
  | [] => []
  | o :: ops' =>
      match o with
      | OElect p => if bool_decide (le_Name p = name)
                    then match (LeaderAttemptElect (w_driver w) p).2 with Ok b => [b] | Err _ => [] end
                    else []
      | _ => []
      end ++ otherElections name ops' (exec o w)
  end.

(** The clock only moves by being read. *)
Definition sameReadings (d d' : Driver) : Prop := clk_reading (d_clk d') = clk_reading (d_clk d).

Lemma foldl_trySend_frame q l : ∀ d,
  d_leaders (foldl (trySend q) d l) = d_leaders d ∧ d_clk (foldl (trySend q) d l) = d_clk d.
Proof.
  induction l as [|c l IH]; intros d; [done|]. simpl. destruct (IH (trySend q d c)) as [-> ->].
  unfold trySend. by repeat case_match.
Qed.

Lemma insertMany_leaders ps : ∀ d,
  d_leaders (JobInsertMany d ps).1 = d_leaders d ∧ sameReadings d (JobInsertMany d ps).1.
Proof.
  unfold JobInsertMany. induction ps as [|p ps IH]; intros d; [done|]. simpl.
  assert (d_leaders (insertOne d p).1 = d_leaders d ∧ sameReadings d (insertOne d p).1) as [E1 E2].
  { assert (d_leaders (insertFresh d p).1 = d_leaders d ∧ sameReadings d (insertFresh d p).1) as Hf.
    { unfold insertFresh, broadcastNotify, sameReadings. simpl.
      match goal with |- context [foldl (trySend ?q) ?x ?l] => destruct (foldl_trySend_frame q l x) as [-> ->] end.
      unfold ensureQueue. simpl. by case_match. }
    unfold insertOne. by repeat case_match. }
  destruct (insertOne d p) as [d1 r]. simpl in *. specialize (IH d1). unfold sameReadings in *.
  destruct (insertLoop d1 ps). simpl in *. destruct IH as [-> ->]. by rewrite E1, E2.
Qed.

Lemma removeSub_leaders d l q :
  d_leaders (removeSub d l q).1 = d_leaders d ∧ sameReadings d (removeSub d l q).1.
Proof. unfold removeSub, closeChan, sameReadings. by repeat case_match; simplify_eq/=. Qed.

Lemma exec_leaders o w name wk exp :
  d_leaders (w_driver w) !! name = Some (mkMemoryLeader wk exp) →
  (∀ n, clk_reading (d_clk (w_driver w)) n < exp) → ¬ leaseOp name wk o →
  d_leaders (w_driver (exec o w)) !! name = Some (mkMemoryLeader wk exp) ∧
  sameReadings (w_driver w) (w_driver (exec o w)) ∧
  ∀ p, o = OElect p → le_Name p = name → (LeaderAttemptElect (w_driver w) p).2 = Ok false.
Proof.
  intros Hl Hclk Hno. destruct w as [d ls]. cbn [w_driver] in *.
  assert (∀ d', d_leaders d' = d_leaders d → sameReadings d d' →
    d_leaders d' !! name = Some (mkMemoryLeader wk exp) ∧ sameReadings d d') as Hsame by (by intros d' ->).
  destruct o as [ps| | | | | | | | | | |p|p| | | |i q|i q|i|c];
    try (split; [|split; [|by intros]]; simpl;
      unfold JobFetchBatch, JobMarkStarted, JobHeartbeat, JobSetStateIfRunning, JobCancel, JobDelete,
        JobReschedule, QueuePause, QueueResume, queueSetPaused, ensureQueue, ScheduleCursorGetOrCreate,
        ScheduleCursorAdvance, receive, dNow, sameReadings; simpl; repeat case_match; simplify_eq/=; done).
  - destruct (insertMany_leaders ps d) as [E1 E2]. simpl. rewrite E1. split_and!; [done|done|by intros].
  - simpl. unfold LeaderAttemptElect, dNow, Now, sameReadings. cbn [d_leaders set_clk d_clk clk_reading].
    destruct (decide (le_Name p = name)) as [<-|Hne].
    + cbn [d_leaders]. rewrite Hl. cbn [ml_expiresAt ml_workerID].
      assert (le_WorkerID p ≠ wk) as Hw by (intros Hw; apply Hno; by split).
      assert (After exp (clk_reading (d_clk d) (clk_calls (d_clk d))) = true) as -> by (apply After_true, Hclk).
      rewrite bool_decide_eq_true_2 by done. simpl. split_and!; [done|done|]. intros p' [= <-] _.
      rewrite Hl. simpl.
      assert (After exp (clk_reading (d_clk d) (clk_calls (d_clk d))) = true) as -> by (apply After_true, Hclk).
      rewrite bool_decide_eq_true_2 by done. done.
    + split_and!; [| |by intros p' [= <-]].
      * case_match; simpl; rewrite ?lookup_insert_ne by done; done.
      * by case_match.
  - simpl. unfold LeaderResign, sameReadings. split_and!; [| |by intros].
    + destruct (d_leaders d !! lr_Name p) as [cur|] eqn:E; [|done]. case_bool_decide as Hw; [|done]. simpl.
      destruct (decide (lr_Name p = name)) as [<-|Hne]; [|by rewrite lookup_delete_ne].
      simplify_eq. simpl in Hw. exfalso. by apply Hno.
    + by repeat case_match.
  - simpl. destruct (ls !! i) as [l|]; [|unfold sameReadings; split_and!; try done; by intros]. unfold Unlisten.
    destruct (removeSub_leaders d l q) as [E1 E2]. destruct (removeSub d l q). simpl in *. rewrite E1.
    split_and!; try done; by intros.
  - simpl. destruct (ls !! i) as [l|]; [|unfold sameReadings; split_and!; try done; by intros].
    assert (∀ qs d l, d_leaders (foldl (λ '(d, l) kv, removeSub d l kv.1) (d, l) qs : Driver * listener).1 = d_leaders d
      ∧ sameReadings d (foldl (λ '(d, l) kv, removeSub d l kv.1) (d, l) (qs : list (string * nat)) : Driver * listener).1) as Hf.
    { clear. induction qs as [|[q c] qs IH]; intros d l; [done|]. simpl.
      destruct (removeSub_leaders d l q) as [E1 E2]. destruct (removeSub d l q) as [d1 l1]. simpl in *.
      destruct (IH d1 l1) as [E3 E4]. rewrite E3, E1. split; [done|]. unfold sameReadings in *. congruence. }
    specialize (Hf (range_map (l_subs l)) d l). unfold CloseListener.
    destruct (foldl _ _ _) as [d' l']. simpl in *. destruct Hf as [-> Hf]. split_and!; try done; by intros.
Qed.

(** Leases exclude.  While the lease of [wk] has not expired on the store's
    clock, and [wk] neither resigns nor renews it, no call whatever takes it
    away and every other candidate's election fails. *)
Theorem lease_exclusive ops : ∀ w name wk exp,
  d_leaders (w_driver w) !! name = Some (mkMemoryLeader wk exp) →
  (∀ n, clk_reading (d_clk (w_driver w)) n < exp) →
  Forall (λ o, ¬ leaseOp name wk o) ops →
  d_leaders (w_driver (run ops w)) !! name = Some (mkMemoryLeader wk exp) ∧
  Forall (λ b, b = false) (otherElections name ops w).
Proof.
  induction ops as [|o ops IH]; intros w name wk exp Hl Hclk Hno; [by split|].
  apply Forall_cons in Hno as [Ho Hno].
  destruct (exec_leaders o w name wk exp Hl Hclk Ho) as (Hl' & Hr & He).
  destruct (IH (exec o w) name wk exp Hl') as [Hend Hall]; [by rewrite Hr|done|].
  split; [done|]. cbn [otherElections]. apply Forall_app. split; [|done].
  destruct o; try constructor. case_bool_decide; [|constructor].
  rewrite (He _ eq_refl) by done. by repeat constructor.
Qed.

(** ** Statistics *)

Definition inQueue (queue : string) (row : JobRow) : bool := bool_decide (Queue row = queue).

Lemma count_rows_spec queue l : ∀ stats,
  let stats' := foldl (λ st row, if bool_decide (Queue row = queue) then count_row st row else st) stats l in
  qs_Queue stats' = qs_Queue stats ∧
  qs_Total stats' = qs_Total stats + Z.of_nat (length (filter (λ row, Queue row = queue) l)) ∧
  ∀ s, stat stats' s = stat stats s + Z.of_nat (length (filter (λ row, Queue row = queue ∧ State row = s) l)).
Proof.
  induction l as [|row l IH]; intros stats; cbv zeta in *.
  { simpl. split_and!; [done|lia|intros; simpl; lia]. }
  simpl. rewrite !filter_cons. case_bool_decide as Hq.
  - rewrite decide_True by done. destruct (IH (count_row stats row)) as (E1 & E2 & E3).
    split_and!; [done|rewrite E2; simpl; lia|]. intros s. rewrite E3, filter_cons. unfold stat. simpl.
    case_decide as Hs.
    + destruct Hs as [_ <-]. rewrite lookup_insert_eq. simpl. lia.
    + rewrite lookup_insert_ne by naive_solver. done.
  - rewrite decide_False by done. destruct (IH stats) as (E1 & E2 & E3). split_and!; [done|done|].
    intros s. rewrite E3, filter_cons, decide_False by naive_solver. done.
Qed.

(** Statistics count: for every queue the total is the number of its jobs
    and each state's figure is the number of its jobs in that state. *)
Theorem QueueStats_counts d queue :
  qs_Queue (QueueStatsOf d queue) = queue ∧
  qs_Total (QueueStatsOf d queue) = Z.of_nat (size (filter (λ kv, Queue kv.2 = queue) (d_jobs d))) ∧
  ∀ s, stat (QueueStatsOf d queue) s =
         Z.of_nat (size (filter (λ kv, Queue kv.2 = queue ∧ State kv.2 = s) (d_jobs d))).
Proof.
  assert (∀ (P : JobRow → Prop) `{∀ r, Decision (P r)},
    length (filter P (AllJobs d)) = size (filter (λ kv, P kv.2) (d_jobs d))) as Hlen.
  { intros P HP. rewrite <-length_map_to_list.
    assert (map_to_list (filter (λ kv, P kv.2) (d_jobs d)) ≡ₚ
            filter (λ kv, P kv.2) (map_to_list (d_jobs d))) as ->.
    { apply NoDup_Permutation; [apply NoDup_map_to_list|apply NoDup_filter, NoDup_map_to_list|].
      intros [i r]. rewrite list_elem_of_filter, !elem_of_map_to_list, map_lookup_filter_Some. simpl. tauto. }
    unfold AllJobs. rewrite range_map_perm. generalize (map_to_list (d_jobs d)) as l.
    induction l as [|[i r] l IH]; [done|]. csimpl. rewrite !filter_cons. simpl.
    case_decide; csimpl; by rewrite IH. }
  unfold QueueStatsOf. destruct (count_rows_spec queue (AllJobs d) (mkQueueStats queue ∅ 0)) as (E1 & E2 & E3).
  split_and!; [done| |].
  - rewrite E2. simpl. by rewrite Hlen.
  - intros s. rewrite E3. unfold stat at 1. simpl. rewrite lookup_empty. simpl.
    by rewrite (Hlen (λ row, Queue row = queue ∧ State row = s)).
Qed.
End leases.

(** ** Witness *)

Definition leaseWorld : World :=
  run (H := map_to_list_range) [OElect (mkLeaderElectParams "cron" "w1" Minute)] (init_world demoClock).
Definition leaseOps : list op :=
  [OElect (mkLeaderElectParams "cron" "w2" Hour); OResign (mkLeaderResignParams "cron" "w2");
   OElect (mkLeaderElectParams "cron" "w3" Hour)].

Lemma lease_exclusive_witness :
  d_leaders (w_driver (run (H := map_to_list_range) leaseOps leaseWorld)) !! "cron" =
    Some (mkMemoryLeader "w1" (demoT0 + Minute)) ∧
  otherElections (H := map_to_list_range) "cron" leaseOps leaseWorld = [false; false].
Proof.
  split; [|vm_compute; reflexivity].
  apply (lease_exclusive (H := map_to_list_range) leaseOps leaseWorld "cron" "w1" (demoT0 + Minute)).
  - vm_compute. reflexivity.
  - intros n. vm_compute. reflexivity.
  - repeat constructor; simpl; intros [_ Hw]; discriminate.
Defined.
