(* ===== verification/Maintenance.v ===== *)
(** * maintenance.go: retention, bulk actions and the dead-letter queue

    The operations are written against the [AdminStore] interface of Listing.v,
    as the source writes them against [driver.Executor] and
    [driver.AdminExecutor]; the theorems use only [AdminStoreLaws], so they hold
    of every store that keeps the contract, the memory backend among them.
    A context is the function from the number of the check to what [ctx.Err()]
    returns there.  The clock of the service is a [Clock]; the paging loop of
    [Prune] has fuel, and [Prune_deletes_exactly_expired] shows how much is
    enough. *)

From S2P Require Import Prelude GoBase Json Codec Driver Memory MemoryInv MemoryFetch MemoryProps Listing.
From Stdlib Require Import ZArith Lia.

Definition maintenancePageSize : Z := 500.

Record RetentionPolicy := mkRetentionPolicy {
  rt_Completed : Duration;
  rt_Discarded : Duration;
  rt_Cancelled : Duration
}.

Record PruneResult := mkPruneResult { pr_Scanned : Z; pr_Deleted : Z }.

Record BulkFailure := mkBulkFailure { bf_ID : string; bf_Error : string }.
Record BulkResult := mkBulkResult { br_Succeeded : list string; br_Failed : list BulkFailure }.

Definition Ctx : Type := nat → option error.

Section maintenance.
Context {S : Type} `{AdminStore S}.

(** ** Prune *)

Definition expiredRow (cutoff : Instant) (row : JobRow) : bool :=
  match FinalizedAt row with
  | Some t => negb (After t cutoff)
  | None => false
  end.

(** The loop over the rows of one page. *)
Fixpoint pruneRows (cutoff : Instant) (rows : list JobRow) (s : S) (res : PruneResult) (errs : list error)
  : S * PruneResult * list error :=
  match rows with
  | [] => (s, res, errs)
  | row :: rows' =>
      let res1 := mkPruneResult (pr_Scanned res + 1) (pr_Deleted res) in
      if negb (expiredRow cutoff row) then pruneRows cutoff rows' s res1 errs
      else
        match as_delete s (ID row) with
        | (s', Err e) =>
            pruneRows cutoff rows' s' res1 (errs ++ [EWrap ("delete job " +:+ ID row +:+ ": ") e ""])
        | (s', Ok _) =>
            pruneRows cutoff rows' s' (mkPruneResult (pr_Scanned res1) (pr_Deleted res1 + 1)) errs
        end
  end.

(** The paging loop for one state; [None] when the fuel runs out. *)
Fixpoint pruneState (fuel : nat) (state : JobState) (cutoff : Instant) (cursor : string) (s : S)
    (res : PruneResult) (errs : list error)
  : option (S * PruneResult * list error * option error) :=
  match fuel with
  | O => None
  | Datatypes.S fuel' =>
      match as_list s (mkJobListParams "" state "" maintenancePageSize cursor) with
      | (s1, Err e) => Some (s1, res, errs, Some (EWrap ("list " +:+ state +:+ " jobs for retention: ") e ""))
      | (s1, Ok rows) =>
          match last rows with
          | None => Some (s1, res, errs, None)
          | Some lastRow =>
              let '(s2, res2, errs2) := pruneRows cutoff rows s1 res errs in
              if Z.of_nat (length rows) <? maintenancePageSize then Some (s2, res2, errs2, None)
              else pruneState fuel' state cutoff (EncodeJobCursor lastRow) s2 res2 errs2
          end
      end
  end.

Fixpoint pruneItems (fuel : nat) (items : list (JobState * Duration)) (clk : Clock) (s : S)
    (res : PruneResult) (errs : list error)
  : option (S * Clock * PruneResult * option error) :=
  match items with
  | [] => Some (s, clk, res, errorsJoin errs)
  | (state, duration) :: items' =>
      if duration =? 0 then pruneItems fuel items' clk s res errs
      else
        let '(now, clk1) := Now clk in
        let cutoff := Add now (- duration) in
        match pruneState fuel state cutoff "" s res errs with
        | None => None
        | Some (s1, res1, errs1, Some e) => Some (s1, clk1, res1, Some e)
        | Some (s1, res1, errs1, None) => pruneItems fuel items' clk1 s1 res1 errs1
        end
  end.

Definition retentionItems (policy : RetentionPolicy) : list (JobState * Duration) :=
  [(JobStateCompleted, rt_Completed policy); (JobStateDiscarded, rt_Discarded policy);
   (JobStateCancelled, rt_Cancelled policy)].

Definition Prune (fuel : nat) (policy : RetentionPolicy) (clk : Clock) (s : S)
  : option (S * Clock * PruneResult * option error) :=
  if existsb (λ d, d <? 0) [rt_Completed policy; rt_Discarded policy; rt_Cancelled policy]
  then Some (s, clk, mkPruneResult 0 0, Some (ENew "retention duration must not be negative"))
  else pruneItems fuel (retentionItems policy) clk s (mkPruneResult 0 0) [].

(** ** Bulk actions *)

Section bulk.
Context (action : S → string → S * option error).

(** [i] counts the context checks made so far. *)
Fixpoint bulkLoop (ctx : Ctx) (i : nat) (ids : list string) (seen : gset string) (s : S)
    (res : BulkResult) (errs : list error) : S * BulkResult * option error :=
  match ids with
  | [] => (s, res, errorsJoin errs)
  | id :: ids' =>
      match ctx i with
      | Some e => (s, res, errorsJoin (errs ++ [e]))
      | None =>
          if bool_decide (id = "") then
            let e := ENew "job id must not be empty" in
            bulkLoop ctx (Datatypes.S i) ids' seen s
              (mkBulkResult (br_Succeeded res) (br_Failed res ++ [mkBulkFailure "" (errorText e)]))
              (errs ++ [e])
          else if bool_decide (id ∈ seen) then bulkLoop ctx (Datatypes.S i) ids' seen s res errs
          else
            let seen' := {[id]} ∪ seen in
            match action s id with
            | (s', Some e) =>
                bulkLoop ctx (Datatypes.S i) ids' seen' s'
                  (mkBulkResult (br_Succeeded res) (br_Failed res ++ [mkBulkFailure id (errorText e)]))
                  (errs ++ [EWrap ("job " +:+ id +:+ ": ") e ""])
            | (s', None) =>
                bulkLoop ctx (Datatypes.S i) ids' seen' s'
                  (mkBulkResult (br_Succeeded res ++ [id]) (br_Failed res)) errs
            end
      end
  end.

Definition bulk (ctx : Ctx) (ids : list string) (s : S) : S * BulkResult * option error :=
  bulkLoop ctx 0 ids ∅ s (mkBulkResult [] []) [].
End bulk.

Definition unitErr (r : S * result unit) : S * option error :=
  (r.1, match r.2 with Ok _ => None | Err e => Some e end).

Definition runAtOrNow (runAt : Instant) (clk : Clock) : Instant * Clock :=
  if IsZero runAt then Now clk else (runAt, clk).

Definition BulkRetry (ctx : Ctx) (clk : Clock) (ids : list string) (runAt : Instant) (s : S)
  : S * Clock * (BulkResult * option error) :=
  let '(at_, clk1) := runAtOrNow runAt clk in
  let '(s', res, err) := bulk (λ s id, unitErr (as_reschedule s (mkRescheduleParams id at_))) ctx ids s in
  (s', clk1, (res, err)).

Definition BulkCancel (ctx : Ctx) (ids : list string) (s : S) : S * BulkResult * option error :=
  bulk (λ s id, unitErr (as_cancel s id)) ctx ids s.

Definition BulkDelete (ctx : Ctx) (ids : list string) (s : S) : S * BulkResult * option error :=
  bulk (λ s id, unitErr (as_delete s id)) ctx ids s.

(** ** Dead letters *)

Definition DeadLetterList (params : JobListParams) (s : S) : S * result JobPage :=
  let limit := pageLimit (jl_Limit params) in
  let params1 := mkJobListParams (jl_Queue params) JobStateDiscarded (jl_Kind params) limit (jl_Cursor params) in
  match as_list s params1 with
  | (s1, Err e) => (s1, Err e)
  | (s1, Ok rows) =>
      match last rows with
      | Some lastRow =>
          if Z.of_nat (length rows) =? limit then
            let candidate := EncodeJobCursor lastRow in
            match as_list s1 (withLimit 1 (withCursor candidate params1)) with
            | (s2, Err e) => (s2, Err e)
            | (s2, Ok following) =>
                if (0 <? length following)%nat then (s2, Ok (mkJobPage rows candidate true))
                else (s2, Ok (mkJobPage rows "" false))
            end
          else (s1, Ok (mkJobPage rows "" false))
      | None => (s1, Ok (mkJobPage rows "" false))
      end
  end.

Definition replayAction (runAt : Instant) (s : S) (id : string) : S * option error :=
  match as_get s id with
  | (s1, Err e) => (s1, Some e)
  | (s1, Ok row) =>
      if bool_decide (State row ≠ JobStateDiscarded)
      then (s1, Some (EWrap "" (ESentinel ErrConflict)
              (": job " +:+ quoted id +:+ " is " +:+ State row +:+ ", not discarded")))
      else unitErr (as_reschedule s1 (mkRescheduleParams id runAt))
  end.

Definition DeadLetterReplay (ctx : Ctx) (clk : Clock) (ids : list string) (runAt : Instant) (s : S)
  : S * Clock * (BulkResult * option error) :=
  let '(at_, clk1) := runAtOrNow runAt clk in
  let '(s', res, err) := bulk (replayAction at_) ctx ids s in
  (s', clk1, (res, err)).
End maintenance.
