(* ===== verification/MaintenanceProps.v ===== *)
(** * What the maintenance service guarantees

    Retention deletes exactly the expired finished jobs, bulk actions treat
    every distinct id once and account for it, and the dead-letter queue lists
    and replays discarded jobs only.  The theorems are about any store that
    satisfies [AdminStoreLaws]. *)

From S2P Require Import Prelude GoBase Json Codec Driver Memory MemoryInv MemoryFetch MemoryProps Listing Maintenance.
From Stdlib Require Import ZArith Lia.

Section maintenance.
Context {S : Type} `{AdminStoreLaws S}.

(** ** Retention *)

(** The table without the expired rows among [rows]. *)
Definition dropExpired (cutoff : Instant) (rows : list JobRow) (m : gmap string JobRow)
  : gmap string JobRow :=
  filter (λ kv, kv.1 ∉ ID <$> filter (λ row, expiredRow cutoff row = true) rows) m.

Lemma dropExpired_lookup cutoff rows m id row :
  dropExpired cutoff rows m !! id = Some row ↔
    m !! id = Some row ∧ id ∉ ID <$> filter (λ row, expiredRow cutoff row = true) rows.
Proof. unfold dropExpired. by rewrite map_lookup_filter_Some. Qed.

Lemma dropExpired_nil cutoff m : dropExpired cutoff [] m = m.
Proof. unfold dropExpired. apply map_filter_id. intros i x _. set_solver. Qed.

Lemma dropExpired_app cutoff rows1 rows2 m :
  dropExpired cutoff (rows1 ++ rows2) m = dropExpired cutoff rows2 (dropExpired cutoff rows1 m).
Proof.
  apply map_eq. intros id. apply option_eq. intros row.
  rewrite !dropExpired_lookup, filter_app, fmap_app, not_elem_of_app. tauto.
Qed.

Lemma dropExpired_cons cutoff row rows m :
  dropExpired cutoff (row :: rows) m =
    dropExpired cutoff rows (if expiredRow cutoff row then delete (ID row) m else m).
Proof.
  change (row :: rows) with ([row] ++ rows). rewrite dropExpired_app. f_equal.
  apply map_eq. intros id. apply option_eq. intros r. rewrite dropExpired_lookup, filter_cons.
  destruct (expiredRow cutoff row).
  - rewrite decide_True by done. rewrite lookup_delete_Some.
    change (filter _ []) with (@nil JobRow). set_solver.
  - rewrite decide_False by done. change (filter _ []) with (@nil JobRow). set_solver.
Qed.

Definition countExpired (cutoff : Instant) (rows : list JobRow) : Z :=
  Z.of_nat (length (filter (λ row, expiredRow cutoff row = true) rows)).

Lemma pruneRows_spec cutoff rows : ∀ s res errs,
  as_valid s → NoDup (ID <$> rows) → (∀ row, row ∈ rows → is_Some (as_jobs s !! ID row)) →
  ∃ s', pruneRows cutoff rows s res errs =
      (s', mkPruneResult (pr_Scanned res + Z.of_nat (length rows))
             (pr_Deleted res + countExpired cutoff rows), errs) ∧
    as_valid s' ∧ as_jobs s' = dropExpired cutoff rows (as_jobs s).
Proof.
  induction rows as [|row rows IH]; intros s [sc de] errs Hv Hnd Hin.
  { exists s. split_and!; [|done|by rewrite dropExpired_nil].
    unfold countExpired. simpl. by rewrite !Z.add_0_r. }
  rewrite fmap_cons, NoDup_cons in Hnd. destruct Hnd as [Hr Hnd].
  simpl. rewrite dropExpired_cons. unfold countExpired. rewrite filter_cons.
  destruct (expiredRow cutoff row); simpl.
  - destruct (as_delete_spec s (ID row) Hv) as (Hv' & Hj & Hres).
    destruct (Hin row) as [x Hx]; [by left|]. rewrite Hx in Hres.
    destruct (as_delete s (ID row)) as [s1 r1]. simpl in *. subst r1.
    destruct (IH s1 (mkPruneResult (sc + 1) (de + 1)) errs Hv' Hnd) as (s' & Hrun & Hv'' & Hj').
    { intros row' Hrow'. rewrite Hj. rewrite lookup_delete_ne; [apply Hin; by right|].
      intros Heq. apply Hr. rewrite Heq. by apply list_elem_of_fmap_2. }
    exists s'. rewrite Hrun, <-Hj. split_and!; [|done..]. unfold countExpired. simpl.
    do 2 f_equal; f_equal; lia.
  - destruct (IH s (mkPruneResult (sc + 1) de) errs Hv Hnd) as (s' & Hrun & Hv' & Hj').
    { intros row' Hrow'. apply Hin. by right. }
    exists s'. rewrite Hrun. split_and!; [|done..]. unfold countExpired. simpl.
    do 2 f_equal; f_equal; lia.
Qed.

Definition stateParams (state : JobState) (cursor : string) : JobListParams :=
  mkJobListParams "" state "" maintenancePageSize cursor.

(** Deleting rows already passed does not disturb the rest of the listing. *)
Lemma listing_rest_after_drop p cutoff m0 done_ r rest :
  keyed m0 → listing p m0 = done_ ++ r :: rest →
  filter (λ row, listLess r row = true) (listing p (dropExpired cutoff (done_ ++ [r]) m0)) = rest.
Proof.
  intros Hk Hl.
  assert (keyed (dropExpired cutoff (done_ ++ [r]) m0)) as Hk'.
  { intros id row [Hrow _]%dropExpired_lookup. by apply Hk. }
  pose proof (listing_sorted p m0 Hk) as Hs. rewrite Hl in Hs.
  pose proof (listing_ids_nodup p m0 Hk) as Hnd. rewrite Hl in Hnd.
  apply sorted_ext.
  - by apply sorted_filter, listing_sorted.
  - apply StronglySorted_app_1_r in Hs. by inversion Hs.
  - intros x. rewrite list_elem_of_filter, listing_elem, dropExpired_lookup by done.
    assert (x ∈ rest ↔ listLess r x = true ∧ x ∈ listing p m0) as Hrest.
    { rewrite Hl. rewrite <-(sorted_after done_ rest r Hs) at 1. by rewrite list_elem_of_filter. }
    rewrite Hrest, listing_elem by done. split; [tauto|].
    intros (Hlt & Hx & Hm). split_and!; try done. intros Hin.
    apply list_elem_of_fmap in Hin as (y & Hy & [_ Hyin]%list_elem_of_filter).
    assert (x ∈ rest) as Hxr by (apply Hrest; split; [done|by apply listing_elem]).
    change (done_ ++ r :: rest) with (done_ ++ [r] ++ rest) in Hnd.
    rewrite app_assoc, fmap_app in Hnd. apply NoDup_app in Hnd as (_ & Hdis & _).
    apply (Hdis (ID x)); [|by apply list_elem_of_fmap_2]. rewrite Hy. by apply list_elem_of_fmap_2.
Qed.

Lemma page_rows_present p cutoff m0 done_ rest :
  keyed m0 → listing p m0 = done_ ++ rest →
  ∀ row, row ∈ rest → is_Some (dropExpired cutoff done_ m0 !! ID row).
Proof.
  intros Hk Hl row Hrow. exists row. apply dropExpired_lookup.
  assert (row ∈ listing p m0) as Hm by (rewrite Hl; set_solver).
  apply listing_elem in Hm as [Hm _]; [|done]. split; [done|]. intros (y & Hy & [_ Hyin]%list_elem_of_filter)%list_elem_of_fmap.
  pose proof (listing_ids_nodup p m0 Hk) as Hnd. rewrite Hl, fmap_app in Hnd.
  apply NoDup_app in Hnd as (_ & Hdis & _).
  apply (Hdis (ID row)); [|by apply list_elem_of_fmap_2]. rewrite Hy. by apply list_elem_of_fmap_2.
Qed.

(** One page, given what remains to be read. *)
Definition readsRest (s : S) (state : JobState) (cursor : string) (rest : list JobRow) : Prop :=
  as_list s (stateParams state cursor) = (s, Ok (take 500 rest)).

Lemma pruneState_spec state cutoff m0 :
  keyed m0 → (∀ id row, m0 !! id = Some row → encodable row) →
  ∀ fuel s done_ rest cursor res errs,
    listing (stateParams state "") m0 = done_ ++ rest →
    as_valid s → as_jobs s = dropExpired cutoff done_ m0 →
    readsRest s state cursor rest → (length rest < fuel)%nat →
    ∃ s', pruneState fuel state cutoff cursor s res errs =
        Some (s', mkPruneResult (pr_Scanned res + Z.of_nat (length rest))
                    (pr_Deleted res + countExpired cutoff rest), errs, None) ∧
      as_valid s' ∧ as_jobs s' = dropExpired cutoff (done_ ++ rest) m0.
Proof.
  intros Hk He. induction fuel as [|fuel IH]; intros s done_ rest cursor res errs Hl Hv Hj Hread Hf; [lia|].
  simpl. unfold readsRest, stateParams in Hread. rewrite Hread.
  destruct (last (take 500 rest)) as [r|] eqn:El.
  2: { apply last_None in El. destruct rest as [|x rest]; [|done]. rewrite app_nil_r. exists s.
       unfold countExpired. simpl. destruct res. rewrite !Z.add_0_r. done. }
  pose proof (listing_ids_nodup (stateParams state "") m0 Hk) as Hnd. rewrite Hl in Hnd.
  rewrite fmap_app in Hnd. apply NoDup_app in Hnd as (_ & _ & Hnd).
  destruct (pruneRows_spec cutoff (take 500 rest) s res errs Hv) as (s2 & Hrun & Hv2 & Hj2).
  { rewrite fmap_take. eapply sublist_NoDup; [exact Hnd|apply sublist_take]. }
  { intros row Hrow. rewrite Hj. eapply page_rows_present; [done..|].
    apply elem_of_take in Hrow as (i & Hi & _). by eapply list_elem_of_lookup_2. }
  rewrite Hrun. rewrite Hj, <-dropExpired_app in Hj2.
  destruct (Z.of_nat (length (take 500 rest)) <? maintenancePageSize) eqn:Ep; bool_to_prop.
  - unfold maintenancePageSize in Ep. rewrite length_take in Ep.
    rewrite take_ge in * by lia. exists s2. done.
  - unfold maintenancePageSize in Ep. rewrite length_take in Ep.
    pose proof El as El'. apply last_Some in El' as [l' Hl'].
    assert (rest = l' ++ r :: drop 500 rest) as Hrest.
    { rewrite <-(take_drop 500 rest) at 1. rewrite Hl'. by rewrite <-app_assoc. }
    assert (encodable r) as Her.
    { assert (r ∈ listing (stateParams state "") m0) as [Hm _]%listing_elem; [|by eapply He|done].
      rewrite Hl, Hrest. set_solver. }
    destruct (IH s2 (done_ ++ take 500 rest) (drop 500 rest) (EncodeJobCursor r)
      (mkPruneResult (pr_Scanned res + Z.of_nat (length (take 500 rest)))
        (pr_Deleted res + countExpired cutoff (take 500 rest))) errs) as (s' & Hs' & Hv' & Hj').
    + by rewrite <-app_assoc, take_drop.
    + done.
    + done.
    + unfold readsRest. rewrite (as_list_next s2 _ r) by done. do 3 f_equal.
      rewrite Hj2, Hl', app_assoc.
      apply (listing_rest_after_drop (stateParams state "")); [done|].
      rewrite Hl, Hrest at 1. by rewrite <-app_assoc.
    + rewrite length_drop. lia.
    + exists s'. rewrite Hs'. rewrite <-app_assoc, take_drop in Hj'. split_and!; [|done..].
      assert (length rest = length (take 500 rest) + length (drop 500 rest))%nat as El1
        by (rewrite <-length_app; by rewrite take_drop).
      assert (countExpired cutoff rest = countExpired cutoff (take 500 rest) + countExpired cutoff (drop 500 rest)) as El2.
      { unfold countExpired. rewrite <-Nat2Z.inj_add, <-length_app, <-filter_app. by rewrite take_drop. }
      rewrite El1, El2. cbn [pr_Scanned pr_Deleted]. by rewrite Nat2Z.inj_add, !Z.add_assoc.
Qed.

Lemma dropExpired_size cutoff rows : ∀ m,
  NoDup (ID <$> rows) → (∀ row, row ∈ rows → is_Some (m !! ID row)) →
  Z.of_nat (size (dropExpired cutoff rows m)) + countExpired cutoff rows = Z.of_nat (size m).
Proof.
  induction rows as [|row rows IH]; intros m Hnd Hin.
  { rewrite dropExpired_nil. unfold countExpired. simpl. lia. }
  rewrite fmap_cons, NoDup_cons in Hnd. destruct Hnd as [Hr Hnd].
  rewrite dropExpired_cons. unfold countExpired. rewrite filter_cons.
  destruct (expiredRow cutoff row); [rewrite decide_True by done|rewrite decide_False by done].
  - destruct (Hin row) as [x Hx]; [by left|].
    pose proof (map_size_delete_Some (ID row) m (mk_is_Some _ _ Hx)) as Hs.
    assert (size m ≠ 0%nat) as Hne.
    { intros E%map_size_empty_inv. rewrite E in Hx. by rewrite lookup_empty in Hx. }
    rewrite length_cons, Nat2Z.inj_succ. unfold countExpired in IH.
    specialize (IH (delete (ID row) m) Hnd).
    assert (∀ row0, row0 ∈ rows → is_Some (delete (ID row) m !! ID row0)) as Hin'.
    { intros row' Hrow'. rewrite lookup_delete_ne; [apply Hin; by right|].
      intros Heq. apply Hr. rewrite Heq. by apply list_elem_of_fmap_2. }
    specialize (IH Hin'). lia.
  - apply IH; [done|]. intros row' Hrow'. apply Hin. by right.
Qed.

(** Pruning one state removes its expired rows and nothing else. *)
Lemma dropExpired_state state cutoff m :
  keyed m → state ≠ "" →
  dropExpired cutoff (listing (stateParams state "") m) m =
    filter (λ kv, bool_decide (State kv.2 = state) && expiredRow cutoff kv.2 = false) m.
Proof.
  intros Hk Hst. apply map_eq. intros id. apply option_eq. intros row.
  rewrite dropExpired_lookup, map_lookup_filter_Some. simpl.
  assert (m !! id = Some row → id ∈ ID <$> filter (λ row, expiredRow cutoff row = true)
            (listing (stateParams state "") m) ↔
          bool_decide (State row = state) && expiredRow cutoff row = true) as Hiff.
  { intros Hrow. rewrite list_elem_of_fmap.
    assert (rowMatches (stateParams state "") row = bool_decide (State row = state)) as Hm.
    { unfold rowMatches. simpl. rewrite (bool_decide_eq_false_2 (state = "")) by done.
      by rewrite andb_true_r. }
    rewrite andb_true_iff, <-Hm. split.
    - intros (y & -> & [He Hy]%list_elem_of_filter). apply listing_elem in Hy as [Hy Hmy]; [|done].
      by simplify_eq.
    - intros [Hmm He]. exists row. split; [by rewrite (Hk _ _ Hrow)|]. apply list_elem_of_filter.
      split; [done|]. apply listing_elem; [done|]. by rewrite (Hk _ _ Hrow). }
  split; intros [Hrow Hn]; (split; [done|]); specialize (Hiff Hrow).
  - apply not_true_iff_false. by rewrite <-Hiff.
  - rewrite Hiff. by rewrite Hn.
Qed.

(** The cutoffs a pass uses: one clock reading per enabled state. *)
Fixpoint pruneCutoffs (items : list (JobState * Duration)) (clk : Clock) : list (JobState * Instant) :=
  match items with
  | [] => []
  | (state, d) :: items' =>
      if d =? 0 then pruneCutoffs items' clk
      else (state, Add (Now clk).1 (- d)) :: pruneCutoffs items' (Now clk).2
  end.

Definition expiredBy (cs : list (JobState * Instant)) (row : JobRow) : bool :=
  existsb (λ sc, bool_decide (State row = sc.1) && expiredRow sc.2 row) cs.

Lemma size_filter_le (P : string * JobRow → Prop) `{∀ x, Decision (P x)} (m : gmap string JobRow) :
  (size (filter P m) ≤ size m)%nat.
Proof. apply map_subseteq_size, map_filter_subseteq. Qed.

Lemma pruneItems_spec fuel items : ∀ clk s res errs,
  as_valid s → (∀ id row, as_jobs s !! id = Some row → encodable row) →
  (size (as_jobs s) < fuel)%nat → Forall (λ it, it.1 ≠ "") items →
  ∃ s' clk' res', pruneItems fuel items clk s res errs = Some (s', clk', res', errorsJoin errs) ∧
    as_valid s' ∧
    as_jobs s' = filter (λ kv, expiredBy (pruneCutoffs items clk) kv.2 = false) (as_jobs s) ∧
    pr_Deleted res' = pr_Deleted res + (Z.of_nat (size (as_jobs s)) - Z.of_nat (size (as_jobs s'))).
Proof.
  induction items as [|[state d] items IH]; intros clk s res errs Hv He Hf Hst; simpl.
  { exists s, clk, res. split_and!; [done|done| |lia]. symmetry. by apply map_filter_id. }
  apply Forall_cons in Hst as [Hs0 Hst]. simpl in Hs0.
  destruct (d =? 0); [by apply IH|].
  set (cutoff := Add _ (- d)). set (L := listing (stateParams state "") (as_jobs s)).
  pose proof (as_keyed s Hv) as Hk.
  assert (length L ≤ size (as_jobs s))%nat as HL.
  { unfold L, listing. rewrite sort_by_length. etrans; [apply length_filter|].
    by rewrite length_fmap, length_map_to_list. }
  destruct (pruneState_spec state cutoff (as_jobs s) Hk He fuel s [] L "" res errs)
    as (s1 & Hrun & Hv1 & Hj1); [done|done|by rewrite dropExpired_nil| |lia|].
  { unfold readsRest. by rewrite as_list_first. }
  simpl in Hj1. rewrite Hrun.
  assert (∀ id row, as_jobs s1 !! id = Some row → as_jobs s !! id = Some row) as Hsub.
  { intros id row. rewrite Hj1, dropExpired_lookup. tauto. }
  assert (as_jobs s1 ⊆ as_jobs s) as Hss by (apply map_subseteq_spec; done).
  pose proof (map_subseteq_size _ _ Hss) as Hsz.
  assert (Z.of_nat (size (as_jobs s1)) + countExpired cutoff L = Z.of_nat (size (as_jobs s))) as Hcnt.
  { rewrite Hj1. apply dropExpired_size; [by apply listing_ids_nodup|].
    intros row [Hrow _]%listing_elem; [by eexists|done]. }
  destruct (IH (mkClock (clk_reading clk) (Datatypes.S (clk_calls clk))) s1
    (mkPruneResult (pr_Scanned res + Z.of_nat (length L)) (pr_Deleted res + countExpired cutoff L)) errs Hv1)
    as (s' & clk' & res' & Hs' & Hv' & Hj' & Hd'); [by eauto|lia|done|].
  exists s', clk', res'. split_and!; [done|done| |simpl in Hd'; lia].
  rewrite Hj', Hj1. unfold L. rewrite dropExpired_state by done. fold cutoff.
  apply map_eq. intros id. apply option_eq. intros row.
  rewrite !map_lookup_filter_Some. simpl. rewrite orb_false_iff. tauto.
Qed.

(** C9: a retention pass whose durations are not negative terminates without
    error and deletes exactly the jobs of an enabled state finalized on or
    before that state's cutoff; [Deleted] is their number.  One page request
    more than there are jobs is enough fuel. *)
Theorem Prune_deletes_exactly_expired fuel policy clk s :
  as_valid s → (∀ id row, as_jobs s !! id = Some row → encodable row) →
  0 ≤ rt_Completed policy → 0 ≤ rt_Discarded policy → 0 ≤ rt_Cancelled policy →
  (size (as_jobs s) < fuel)%nat →
  ∃ s' clk' res, Prune fuel policy clk s = Some (s', clk', res, None) ∧
    as_jobs s' = filter (λ kv, expiredBy (pruneCutoffs (retentionItems policy) clk) kv.2 = false) (as_jobs s) ∧
    pr_Deleted res = Z.of_nat (size (as_jobs s)) - Z.of_nat (size (as_jobs s')).
Proof.
  intros Hv He H1 H2 H3 Hf. unfold Prune.
  assert (existsb (λ d, d <? 0) [rt_Completed policy; rt_Discarded policy; rt_Cancelled policy] = false) as ->.
  { simpl. by rewrite !(proj2 (Z.ltb_ge _ _)) by lia. }
  destruct (pruneItems_spec fuel (retentionItems policy) clk s (mkPruneResult 0 0) [] Hv He Hf)
    as (s' & clk' & res & Hrun & _ & Hj & Hd); [by repeat constructor|].
  exists s', clk', res. by rewrite Hrun.
Qed.

(** ** Dead letters *)

(** A dead-letter page holds the next discarded jobs in listing order, and
    its flag and cursor tell exactly whether and where more follow. *)
Theorem DeadLetterList_first_page params s :
  as_valid s → (∀ id row, as_jobs s !! id = Some row → encodable row) →
  jl_Cursor params = "" →
  let L := listing (mkJobListParams (jl_Queue params) JobStateDiscarded (jl_Kind params) 0 "") (as_jobs s) in
  ∃ page, DeadLetterList params s = (s, Ok page) ∧
    jp_Items page = take (Z.to_nat (pageLimit (jl_Limit params))) L ∧
    (jp_HasMore page = true ↔ (Z.to_nat (pageLimit (jl_Limit params)) < length L)%nat) ∧
    (jp_HasMore page = true → ∃ r, last (jp_Items page) = Some r ∧ jp_NextCursor page = EncodeJobCursor r) ∧
    (jp_HasMore page = false → jp_NextCursor page = "").
Proof.
  intros Hv He Hc L. unfold DeadLetterList.
  set (n := pageLimit (jl_Limit params)).
  assert (1 ≤ n ≤ 1000) as Hn by (subst n; unfold pageLimit; case_match; bool_to_prop; lia).
  assert (pageLimit n = n) as Hpn.
  { unfold pageLimit. rewrite (proj2 (Z.leb_gt _ _)), (proj2 (Z.ltb_ge _ _)) by lia. done. }
  set (p1 := mkJobListParams _ _ _ _ _).
  change (L) with (listing p1 (as_jobs s)) in *. clear L. set (L := listing p1 (as_jobs s)).
  rewrite as_list_first by done. change (jl_Limit p1) with n. rewrite Hpn. fold L.
  destruct (last (take (Z.to_nat n) L)) as [r|] eqn:El.
  2: { eexists. split; [done|]. simpl. apply last_None in El as Hnil. split_and!; try done.
       split; [done|]. intros Hlt. apply (f_equal length) in Hnil. rewrite length_take in Hnil.
       simpl in Hnil. lia. }
  pose proof El as El'. apply last_Some in El' as [l' Hl'].
  assert (L = l' ++ r :: drop (Z.to_nat n) L) as HL.
  { rewrite <-(take_drop (Z.to_nat n) L) at 1. rewrite Hl'. by rewrite <-app_assoc. }
  rewrite length_take. destruct (Z.of_nat (Nat.min (Z.to_nat n) (length L)) =? n) eqn:E; bool_to_prop.
  - assert (encodable r) as Her.
    { assert (r ∈ L) as Hin by (rewrite HL; set_solver).
      apply listing_elem in Hin as [Hm _]; [by eapply He|by apply as_keyed]. }
    rewrite (as_list_next s _ r) by done.
    change (listing (withLimit _ _) (as_jobs s)) with L.
    replace (filter (λ row, listLess r row = true) L) with (drop (Z.to_nat n) L).
    2: { rewrite HL at 2. symmetry. apply sorted_after. rewrite <-HL. by apply listing_sorted, as_keyed. }
    simpl. destruct (drop (Z.to_nat n) L) as [|x rest] eqn:Ed; simpl.
    + eexists. split; [done|]. simpl. split_and!; try done. split; [done|]. intros Hlt.
      apply (f_equal length) in Ed. rewrite length_drop in Ed. simpl in Ed. lia.
    + eexists. split; [done|]. simpl. split_and!; try done; [|by eauto].
      split; [|done]. intros _. apply (f_equal length) in Ed. rewrite length_drop in Ed. simpl in Ed. lia.
  - eexists. split; [done|]. simpl. split_and!; try done. split; [done|]. intros Hlt. lia.
Qed.

(** ** Bulk actions *)

(** The ids a bulk call acts on: each non-empty id at its first occurrence. *)
Fixpoint distinctIDs (seen : gset string) (ids : list string) : list string :=
  match ids with
  | [] => []
  | id :: ids' =>
      if bool_decide (id = "") || bool_decide (id ∈ seen) then distinctIDs seen ids'
      else id :: distinctIDs ({[id]} ∪ seen) ids'
  end.

(** Acting on each id in turn. *)
Fixpoint actAll (action : S → string → S * option error) (s : S) (ids : list string)
  : S * list (string * option error) :=
  match ids with
  | [] => (s, [])
  | id :: ids' =>
      let '(s1, e) := action s id in
      let '(s2, l) := actAll action s1 ids' in
      (s2, (id, e) :: l)
  end.

Definition succeededIDs (l : list (string * option error)) : list string :=
  omap (λ r, match r.2 with None => Some r.1 | Some _ => None end) l.
Definition failedIDs (l : list (string * option error)) : list string :=
  omap (λ r, match r.2 with None => None | Some _ => Some r.1 end) l.

Definition namedFailures (res : BulkResult) : list string :=
  filter (λ id, id ≠ "") (bf_ID <$> br_Failed res).

Lemma distinctIDs_nonempty ids : ∀ seen id, id ∈ distinctIDs seen ids → id ≠ "" ∧ id ∉ seen ∧ id ∈ ids.
Proof.
  induction ids as [|x ids IH]; intros seen id; simpl; [set_solver|].
  case_match eqn:E.
  - intros (? & ? & ?)%IH. set_solver.
  - apply orb_false_iff in E as [E1 E2]. bool_to_prop.
    intros [->|(? & ? & ?)%IH]%elem_of_cons; set_solver.
Qed.

Lemma distinctIDs_nodup ids : ∀ seen, NoDup (distinctIDs seen ids).
Proof.
  induction ids as [|x ids IH]; intros seen; simpl; [constructor|].
  case_match; [done|]. constructor; [|done].
  intros (_ & Hn & _)%distinctIDs_nonempty. set_solver.
Qed.

Lemma distinctIDs_complete ids : ∀ seen id,
  id ∈ ids → id ≠ "" → id ∉ seen → id ∈ distinctIDs seen ids.
Proof.
  induction ids as [|x ids IH]; intros seen id Hin Hne Hs; simpl; [set_solver|].
  case_match eqn:E.
  - apply orb_true_iff in E as [E|E]; apply bool_decide_eq_true in E; apply IH; set_solver.
  - destruct (decide (x = id)) as [->|]; [by left|]. right. apply IH; set_solver.
Qed.

Lemma bulkLoop_spec action ctx ids : ∀ i seen s res errs,
  (∀ i, ctx i = None) →
  let '(s', l) := actAll action s (distinctIDs seen ids) in
  ∃ res' errs', bulkLoop action ctx i ids seen s res errs = (s', res', errorsJoin (errs ++ errs')) ∧
    br_Succeeded res' = br_Succeeded res ++ succeededIDs l ∧
    namedFailures res' = namedFailures res ++ failedIDs l ∧
    (errs' = [] ↔ "" ∉ ids ∧ failedIDs l = []).
Proof.
  induction ids as [|id ids IH]; intros i seen s res errs Hctx; simpl.
  { exists res, []. rewrite !app_nil_r. split_and!; try done. split; [|done]. intros _. set_solver. }
  rewrite Hctx. case_bool_decide as Hid; simpl.
  - set (res1 := mkBulkResult _ _). set (e := ENew _).
    specialize (IH (Datatypes.S i) seen s res1 (errs ++ [e]) Hctx).
    destruct (actAll action s (distinctIDs seen ids)) as [s' l].
    destruct IH as (res' & errs' & -> & Hs & Hf & _). exists res', (e :: errs').
    rewrite <-app_assoc. split_and!; try done.
    + rewrite Hf. unfold namedFailures. simpl. rewrite fmap_app, filter_app. simpl. by rewrite app_nil_r.
    + split; [done|]. intros [Hne _]. subst id. set_solver.
  - case_bool_decide as Hseen.
    + specialize (IH (Datatypes.S i) seen s res errs Hctx).
      destruct (actAll action s (distinctIDs seen ids)) as [s' l].
      destruct IH as (res' & errs' & Hrun & Hs & Hf & He). exists res', errs'.
      split_and!; try done. rewrite He. set_solver.
    + simpl. destruct (action s id) as [s1 [e|]].
      * set (res1 := mkBulkResult _ _). set (e1 := EWrap _ _ _).
        specialize (IH (Datatypes.S i) ({[id]} ∪ seen) s1 res1 (errs ++ [e1]) Hctx).
        destruct (actAll action s1 (distinctIDs ({[id]} ∪ seen) ids)) as [s' l].
        destruct IH as (res' & errs' & -> & Hs & Hf & _). exists res', (e1 :: errs').
        rewrite <-app_assoc. split_and!; try done.
        { rewrite Hf. unfold namedFailures. simpl. rewrite fmap_app, filter_app. simpl.
          rewrite filter_cons, decide_True by done. simpl. by rewrite <-app_assoc. }
        simpl. split; [done|]. intros [_ ?]. done.
      * set (res1 := mkBulkResult _ _).
        specialize (IH (Datatypes.S i) ({[id]} ∪ seen) s1 res1 errs Hctx).
        destruct (actAll action s1 (distinctIDs ({[id]} ∪ seen) ids)) as [s' l].
        destruct IH as (res' & errs' & -> & Hs & Hf & He). exists res', errs'.
        split_and!; try done.
        -- rewrite Hs. simpl. by rewrite <-app_assoc.
        -- rewrite He. simpl. set_solver.
Qed.

Lemma failed_or_succeeded l id : id ∈ l.*1 ↔ id ∈ succeededIDs l ∨ id ∈ failedIDs l.
Proof.
  unfold succeededIDs, failedIDs in *.
  induction l as [|[i [e|]] l IH]; csimpl; [set_solver|..]; rewrite !elem_of_cons, IH; naive_solver.
Qed.

Lemma actAll_ids action ids : ∀ s, (actAll action s ids).2.*1 = ids.
Proof.
  induction ids as [|id ids IH]; intros s; [done|]. simpl. destruct (action s id) as [s1 e].
  specialize (IH s1). destruct (actAll action s1 ids). cbn [snd] in *. rewrite fmap_cons. by rewrite IH.
Qed.

(** A bulk action under a live context performs its action once, in
    order, on each distinct non-empty id; every such id is reported exactly
    once, as succeeded or as failed; and the call returns no error exactly
    when no id was empty and nothing failed. *)
Theorem bulk_acts_once_and_accounts action ctx ids s :
  (∀ i, ctx i = None) →
  let '(s', l) := actAll action s (distinctIDs ∅ ids) in
  ∃ res err, bulk action ctx ids s = (s', res, err) ∧
    br_Succeeded res = succeededIDs l ∧ namedFailures res = failedIDs l ∧
    (∀ id, id ∈ ids → id ≠ "" → id ∈ br_Succeeded res ∨ id ∈ namedFailures res) ∧
    NoDup l.*1 ∧
    (err = None ↔ "" ∉ ids ∧ namedFailures res = []).
Proof.
  intros Hctx. pose proof (bulkLoop_spec action ctx ids 0 ∅ s (mkBulkResult [] []) [] Hctx) as Hl.
  pose proof (actAll_ids action (distinctIDs ∅ ids) s) as Hids.
  destruct (actAll action s (distinctIDs ∅ ids)) as [s' l]. simpl in Hids.
  destruct Hl as (res & errs & Hrun & Hs & Hf & He). exists res, (errorsJoin errs).
  unfold bulk. rewrite Hrun. split_and!; try done.
  - intros id Hin Hne. rewrite Hs, Hf. apply failed_or_succeeded. rewrite Hids.
    by apply distinctIDs_complete; [..|set_solver].
  - rewrite Hids. apply distinctIDs_nodup.
  - rewrite Hf, <-He. by destruct errs.
Qed.

(** ** Replaying dead letters *)

Definition replayRow (runAt : Instant) (row : JobRow) : JobRow :=
  if bool_decide (State row = JobStateDiscarded)
  then set_State JobStateScheduled (set_RunAt runAt row) else row.

Lemma replayAction_spec runAt s id :
  as_valid s →
  as_valid (replayAction runAt s id).1 ∧
  as_jobs (replayAction runAt s id).1 = alter (replayRow runAt) id (as_jobs s) ∧
  ((replayAction runAt s id).2 = None ↔
    ∃ row, as_jobs s !! id = Some row ∧ State row = JobStateDiscarded).
Proof.
  intros Hv. unfold replayAction. destruct (as_get_spec s id Hv) as [Hs Hg].
  destruct (as_get s id) as [s1 r]. simpl in *. subst s1.
  destruct (as_jobs s !! id) as [row|] eqn:E.
  - subst r. case_bool_decide as Hst; simpl.
    + split_and!; [done| |naive_solver]. symmetry. apply map_eq. intros i.
      rewrite lookup_alter. case_decide; [subst|done]. rewrite E. simpl. f_equal. unfold replayRow.
      by rewrite bool_decide_eq_false_2.
    + destruct (as_reschedule_spec s (mkRescheduleParams id runAt) Hv) as [Hv' Hr]. simpl in Hr.
      rewrite E in Hr. destruct Hr as [Hr Hj]. unfold unitErr. simpl. rewrite Hr, Hj.
      split_and!; [done| |split; [intros _; by exists row|done]]. apply map_eq. intros i.
      destruct (decide (id = i)) as [->|Hi].
      * rewrite lookup_alter_eq, lookup_insert_eq, E. simpl. f_equal. unfold replayRow.
        by rewrite bool_decide_eq_true_2.
      * by rewrite lookup_alter_ne, lookup_insert_ne by done.
  - destruct Hg as (e & -> & _). simpl. split_and!; [done| |naive_solver].
    symmetry. apply map_eq. intros i. rewrite lookup_alter. case_decide; [subst; by rewrite E|done].
Qed.

Lemma replayAll_spec runAt ids : ∀ s, as_valid s → NoDup ids →
  let '(s', l) := actAll (replayAction runAt) s ids in
  (∀ id, as_jobs s' !! id =
     (if bool_decide (id ∈ ids) then replayRow runAt else λ r, r) <$> as_jobs s !! id) ∧
  ∀ id, id ∈ succeededIDs l ↔
    id ∈ ids ∧ ∃ row, as_jobs s !! id = Some row ∧ State row = JobStateDiscarded.
Proof.
  induction ids as [|x ids IH]; intros s Hv Hnd; simpl.
  { split; [|set_solver]. intros id. by destruct (as_jobs s !! id). }
  apply NoDup_cons in Hnd as [Hx Hnd].
  destruct (replayAction_spec runAt s x Hv) as (Hv1 & Hj1 & He1).
  destruct (replayAction runAt s x) as [s1 e]. simpl in *.
  specialize (IH s1 Hv1 Hnd). destruct (actAll (replayAction runAt) s1 ids) as [s' l].
  destruct IH as [Hj' Hs']. split.
  - intros id. rewrite Hj', Hj1, lookup_alter. case_decide as Heq.
    + subst id. rewrite (bool_decide_eq_false_2 (x ∈ ids)), (bool_decide_eq_true_2 (x ∈ x :: ids)) by set_solver.
      by destruct (as_jobs s !! x).
    + rewrite (bool_decide_ext (id ∈ ids) (id ∈ x :: ids)) by set_solver. done.
  - intros id. unfold succeededIDs. simpl.
    assert (id ≠ x → as_jobs s1 !! id = as_jobs s !! id) as Hne.
    { intros Hne. rewrite Hj1. by rewrite lookup_alter_ne. }
    destruct (decide (id = x)) as [->|Hneq].
    + assert (x ∉ succeededIDs l) as Hno by (rewrite Hs'; tauto).
      destruct e; simpl.
      * split; [intros Hin; by destruct Hno|]. intros [_ Hex]. by apply He1 in Hex.
      * rewrite !elem_of_cons. split; [|by left]. intros _. split; [by left|]. by apply He1.
    + specialize (Hs' id). rewrite Hne in Hs' by done. unfold succeededIDs in Hs'.
      destruct e; simpl; rewrite ?elem_of_cons, Hs'.
      * split; intros [Hin Hex]; (split; [|done]); [by right|by destruct Hin].
      * split; [intros [?|[Hin Hex]]; [done|]|intros [[?|Hin] Hex]; [done|]]; [split; [by right|done]|by right].
Qed.

(** Replaying dead letters makes exactly the discarded jobs among the
    given ids scheduled at the chosen time (now, if none is given), reports
    exactly those as succeeded, and leaves every other job untouched. *)
Theorem DeadLetterReplay_only_discarded ctx clk ids runAt s :
  as_valid s → (∀ i, ctx i = None) →
  let at_ := if IsZero runAt then (Now clk).1 else runAt in
  ∃ s' clk' res err, DeadLetterReplay ctx clk ids runAt s = (s', clk', (res, err)) ∧
    (∀ id, as_jobs s' !! id =
       (if bool_decide (id ∈ ids ∧ id ≠ "") then replayRow at_ else λ r, r) <$> as_jobs s !! id) ∧
    ∀ id, id ∈ br_Succeeded res ↔
      (id ∈ ids ∧ id ≠ "") ∧ ∃ row, as_jobs s !! id = Some row ∧ State row = JobStateDiscarded.
Proof.
  intros Hv Hctx at_. unfold DeadLetterReplay.
  assert (∃ clk', runAtOrNow runAt clk = (at_, clk')) as [clk' ->].
  { unfold runAtOrNow, at_. case_match; by eexists. }
  pose proof (bulkLoop_spec (replayAction at_) ctx ids 0 ∅ s (mkBulkResult [] []) [] Hctx) as Hl.
  pose proof (replayAll_spec at_ (distinctIDs ∅ ids) s Hv (distinctIDs_nodup ids ∅)) as Hr.
  destruct (actAll (replayAction at_) s (distinctIDs ∅ ids)) as [s' l].
  destruct Hl as (res & errs & Hrun & Hs & _). destruct Hr as [Hj Hsucc].
  assert (∀ id, id ∈ distinctIDs ∅ ids ↔ id ∈ ids ∧ id ≠ "") as Hd.
  { intros id. split; [intros (? & ? & ?)%distinctIDs_nonempty; done|].
    intros [? ?]. apply distinctIDs_complete; set_solver. }
  unfold bulk. rewrite Hrun. eexists _, _, _, _. split; [done|]. split.
  - intros id. rewrite Hj. by rewrite (bool_decide_ext _ _ (Hd id)).
  - intros id. rewrite Hs. simpl. by rewrite Hsucc, Hd.
Qed.
End maintenance.

(** ** Witnesses, on the memory backend *)

Section witnesses.
(* the executable map order *)
Local Instance theRange : MapRange := map_to_list_range.

Definition doneOps : list op := demoHeld ++
  [OSetState (mkJobSetStateParams "mem_2" JobStateCompleted None None 1 0 "w1" 1 false);
   OSetState (mkJobSetStateParams "mem_1" JobStateDiscarded None None 1 0 "w1" 1 false)].
Definition doneDriver : Driver := w_driver (run doneOps (init_world demoClock)).

Lemma doneDriver_valid : memory_valid doneDriver.
Proof. exact (run_keyed doneOps demoClock eq_refl). Qed.

Definition laterClock : Clock := frozenClock (demoT0 + 2 * Hour).
Definition hourPolicy : RetentionPolicy := mkRetentionPolicy Hour 0 Hour.

Lemma Prune_deletes_exactly_expired_witness : ∃ s' clk' res,
  Prune 10 hourPolicy laterClock doneDriver = Some (s', clk', res, None) ∧ pr_Deleted res = 1 ∧
  d_jobs s' !! "mem_2" = None ∧ size (d_jobs s') = 4%nat.
Proof.
  destruct (Prune_deletes_exactly_expired (H0 := memoryAdminLaws) 10 hourPolicy laterClock doneDriver) as (s' & clk' & res & Hrun & _).
  - exact doneDriver_valid.
  - apply all_encodable. vm_compute. reflexivity.
  - vm_compute. discriminate.
  - vm_compute. discriminate.
  - vm_compute. discriminate.
  - vm_compute. lia.
  - exists s', clk', res. split; [exact Hrun|]. vm_compute in Hrun. injection Hrun as <- <- <-.
    repeat split.
Defined.

Lemma DeadLetterList_first_page_witness : ∃ page,
  DeadLetterList (mkJobListParams "" "" "" 1 "") doneDriver = (doneDriver, Ok page) ∧
  ID <$> jp_Items page = ["mem_1"] ∧ jp_HasMore page = false.
Proof.
  destruct (DeadLetterList_first_page (H0 := memoryAdminLaws) (mkJobListParams "" "" "" 1 "") doneDriver) as (page & Hrun & Hi & _).
  - exact doneDriver_valid.
  - apply all_encodable. vm_compute. reflexivity.
  - reflexivity.
  - exists page. split; [exact Hrun|]. vm_compute in Hrun. injection Hrun as <-. split; reflexivity.
Defined.

Definition liveCtx : Ctx := λ _, None.

Lemma bulk_acts_once_and_accounts_witness : ∃ s' res err,
  bulk (λ s id, unitErr (as_delete s id)) liveCtx ["mem_1"; ""; "nope"; "mem_1"] doneDriver = (s', res, err) ∧
  br_Succeeded res = ["mem_1"] ∧ namedFailures res = ["nope"] ∧ err ≠ None.
Proof.
  pose proof (bulk_acts_once_and_accounts (λ s id, unitErr (as_delete s id)) liveCtx
    ["mem_1"; ""; "nope"; "mem_1"] doneDriver (λ _, eq_refl)) as Hb.
  destruct (actAll _ _ _) as [s' l] eqn:E. destruct Hb as (res & err & Hrun & Hs & Hf & _ & _ & He).
  exists s', res, err. split; [exact Hrun|]. rewrite Hs, Hf. vm_compute in E. injection E as <- <-.
  split; [reflexivity|]. split; [reflexivity|].
  intros Hn. apply He in Hn as [Hn _]. apply Hn. apply elem_of_cons. right. apply elem_of_cons. by left.
Defined.

Lemma DeadLetterReplay_only_discarded_witness : ∃ s' clk' res err,
  DeadLetterReplay liveCtx laterClock ["mem_1"; "mem_2"; "gone"] 0 doneDriver = (s', clk', (res, err)) ∧
  br_Succeeded res = ["mem_1"] ∧
  (State <$> d_jobs s' !! "mem_1") = Some JobStateScheduled.
Proof.
  destruct (DeadLetterReplay_only_discarded (H0 := memoryAdminLaws) liveCtx laterClock ["mem_1"; "mem_2"; "gone"] 0 doneDriver
    doneDriver_valid (λ _, eq_refl)) as (s' & clk' & res & err & Hrun & _).
  exists s', clk', res, err. split; [exact Hrun|].
  vm_compute in Hrun. injection Hrun as <- <- <- <-. split; reflexivity.
Defined.
End witnesses.
