(* ===== verification/RateLimit.v ===== *)
(** * driver/rate_limit.go: the distributed rate limiter

    The portable limiter keeps one timestamp per key in the schedule-cursor
    store and moves it by compare-and-swap.  The store is the interface
    [CursorStore]; [CursorStoreLaws] is the linearizable contract the code asks
    of it, in which a call may also fail, with or without having taken effect.
    A request is a sequence of store calls, each of them atomic: [gcraCall] is one call
    of the GCRA loop and what the code decides on its answer.  Other participants act
    between any two calls: [env n] is what they do before the [n]-th call of this
    request.  Each retry round uses fuel.  RateLimitProps.v lets the calls of a whole
    group of participants interleave. *)

From S2P Require Import Prelude GoBase Json Codec Driver.
From Stdlib Require Import ZArith Lia.

Inductive RateLimitMode := RateLimitModeGCRA | RateLimitModeFixedWindow | RateLimitModeOther (mode : Z).

Record RateLimitAcquireParams := mkRateLimitAcquireParams {
  rl_Key : string;
  rl_Now : Instant;
  rl_Limit : Z;
  rl_Period : Duration;
  rl_Burst : Z;
  rl_Mode : RateLimitMode
}.

Record RateLimitAcquireResult := mkRateLimitAcquireResult {
  ra_Acquired : bool;
  ra_RetryAt : Instant
}.

Definition acquired : RateLimitAcquireResult := mkRateLimitAcquireResult true zeroTime.
Definition refused (retryAt : Instant) : RateLimitAcquireResult := mkRateLimitAcquireResult false retryAt.

Class CursorStore (S : Type) := {
  cs_getOrCreate : S → ScheduleCursorCreateParams → S * result ScheduleCursorResult;
  cs_advance : S → ScheduleCursorAdvanceParams → S * result bool;
  (* a driver may bring its own atomic primitive *)
  cs_native : option (S → RateLimitAcquireParams → S * result RateLimitAcquireResult)
}.

Class CursorStoreLaws (S : Type) `{CursorStore S} := {
  cs_cursor : S → string → option Instant;
  cs_getOrCreate_spec s p :
    match (cs_getOrCreate s p).2 with
    | Ok res =>
        match cs_cursor s (cc_ID p) with
        | Some at_ => res = mkScheduleCursorResult at_ false ∧ cs_cursor (cs_getOrCreate s p).1 (cc_ID p) = Some at_
        | None => res = mkScheduleCursorResult (UTC (cc_InitialAt p)) true ∧
                  cs_cursor (cs_getOrCreate s p).1 (cc_ID p) = Some (UTC (cc_InitialAt p))
        end
    | Err _ =>
        cs_cursor (cs_getOrCreate s p).1 (cc_ID p) = cs_cursor s (cc_ID p) ∨
        (cs_cursor s (cc_ID p) = None ∧
         cs_cursor (cs_getOrCreate s p).1 (cc_ID p) = Some (UTC (cc_InitialAt p)))
    end;
  cs_advance_spec s p :
    match (cs_advance s p).2 with
    | Ok true => cs_cursor s (ca_ID p) = Some (ca_Expected p) ∧
                 cs_cursor (cs_advance s p).1 (ca_ID p) = Some (UTC (ca_Next p))
    | Ok false => cs_cursor s (ca_ID p) ≠ Some (ca_Expected p) ∧
                  cs_cursor (cs_advance s p).1 (ca_ID p) = cs_cursor s (ca_ID p)
    | Err _ =>
        cs_cursor (cs_advance s p).1 (ca_ID p) = cs_cursor s (ca_ID p) ∨
        (cs_cursor s (ca_ID p) = Some (ca_Expected p) ∧
         cs_cursor (cs_advance s p).1 (ca_ID p) = Some (UTC (ca_Next p)))
    end
}.

(** ** Durations *)

Definition rateInterval `{FloatConv} (period : Duration) (limit : Z) : Duration :=
  let interval := f64_to_int64 (f64_div (f64_of_int period) (f64_of_int limit)) in
  if interval <? Nanosecond then Nanosecond else interval.

Definition multiplyDuration (duration : Duration) (multiplier : Z) : Duration :=
  if multiplier <=? 0 then 0
  else if durDiv int64_max multiplier <? duration then int64_max
  else durMul duration multiplier.

(** The count unit of the fixed-window encoding. *)
Definition countUnit : Duration := Millisecond.

(** ** The parameters *)

(** The checks of [AcquireRateLimit], and its default for the burst. *)
Definition checkRateLimit (params : RateLimitAcquireParams) : result RateLimitAcquireParams :=
  if bool_decide (rl_Key params = "") || (rl_Limit params <=? 0) || (rl_Period params <=? 0)
  then Err (ENew "invalid rate-limit parameters")
  else
    let burst := if rl_Burst params <=? 0 then 1 else rl_Burst params in
    if rl_Limit params <? burst then
      Err (ENew ("rate-limit burst " +:+ FormatInt burst +:+ " exceeds limit " +:+ FormatInt (rl_Limit params)))
    else Ok (mkRateLimitAcquireParams (rl_Key params) (rl_Now params) (rl_Limit params) (rl_Period params) burst (rl_Mode params)).

(** ** GCRA *)

(** What a round of the loop does next: read the cursor, or move it from the instant
    that was read. *)
Inductive gcraTodo := ReadCursor | MoveFrom (at_ : Instant).

Section call.
Context {S : Type} `{CursorStore S}.

(** One store call: what to do next, or the result.  A cursor that somebody else moved
    starts another round. *)
Definition gcraCall (key : string) (now : Instant) (interval tolerance : Duration) (todo : gcraTodo) (s : S)
  : S * (gcraTodo + result RateLimitAcquireResult) :=
  match todo with
  | ReadCursor =>
      match cs_getOrCreate s (mkScheduleCursorCreateParams key now) with
      | (s1, Err e) => (s1, inr (Err e))
      | (s1, Ok cursor) =>
          let retryAt := Add (cr_At cursor) (- tolerance) in
          if Before now retryAt then (s1, inr (Ok (refused retryAt))) else (s1, inl (MoveFrom (cr_At cursor)))
      end
  | MoveFrom at_ =>
      let base := if Before at_ now then now else at_ in
      let next := Add base interval in
      match cs_advance s (mkScheduleCursorAdvanceParams key at_ next) with
      | (s1, Err e) => (s1, inr (Err e))
      | (s1, Ok true) => (s1, inr (Ok acquired))
      | (s1, Ok false) => (s1, inl ReadCursor)
      end
  end.
End call.

Section acquire.
Context {S : Type} `{CursorStore S}.
Context (ctxDone : nat → option error) (env : nat → S → S).

Fixpoint gcraLoop (fuel : nat) (i : nat) (key : string) (now : Instant) (interval tolerance : Duration) (s : S)
  : option (S * result RateLimitAcquireResult) :=
  match fuel with
  | O => None
  | Datatypes.S fuel' =>
      match gcraCall key now interval tolerance ReadCursor (env i s) with
      | (s1, inr r) => Some (s1, r)
      | (s1, inl todo) =>
          match gcraCall key now interval tolerance todo (env (i + 1)%nat s1) with
          | (s3, inr r) => Some (s3, r)
          | (s3, inl _) =>
              match ctxDone i with
              | Some e => Some (s3, Err e)
              | None => gcraLoop fuel' (i + 2)%nat key now interval tolerance s3
              end
          end
      end
  end.

(** ** Fixed windows *)

Definition windowCount (at_ : Instant) (period : Duration) : Z :=
  durDiv (Sub at_ (Truncate at_ period)) countUnit.

Fixpoint fixedLoop (fuel : nat) (i : nat) (key : string) (window : Instant) (period : Duration) (limit : Z) (s : S)
  : option (S * result RateLimitAcquireResult) :=
  match fuel with
  | O => None
  | Datatypes.S fuel' =>
      let initial := Add window countUnit in
      match cs_getOrCreate (env i s) (mkScheduleCursorCreateParams key initial) with
      | (s1, Err e) => Some (s1, Err e)
      | (s1, Ok cursor) =>
          if cr_Created cursor then Some (s1, Ok acquired)
          else if negb (TimeEqual (Truncate (cr_At cursor) period) window) then
            match cs_advance (env (i + 1)%nat s1) (mkScheduleCursorAdvanceParams key (cr_At cursor) initial) with
            | (s3, Err e) => Some (s3, Err e)
            | (s3, Ok true) => Some (s3, Ok acquired)
            | (s3, Ok false) => fixedLoop fuel' (i + 2)%nat key window period limit s3
            end
          else if limit <=? windowCount (cr_At cursor) period then Some (s1, Ok (refused (Add window period)))
          else
            match cs_advance (env (i + 1)%nat s1)
                    (mkScheduleCursorAdvanceParams key (cr_At cursor) (Add (cr_At cursor) countUnit)) with
            | (s3, Err e) => Some (s3, Err e)
            | (s3, Ok true) => Some (s3, Ok acquired)
            | (s3, Ok false) =>
                match ctxDone i with
                | Some e => Some (s3, Err e)
                | None => fixedLoop fuel' (i + 2)%nat key window period limit s3
                end
            end
      end
  end.

Definition acquireFixedWindow (fuel : nat) (params : RateLimitAcquireParams) (s : S)
  : option (S * result RateLimitAcquireResult) :=
  if durDiv (rl_Period params) countUnit <=? rl_Limit params
  then Some (s, Err (ENew "fixed-window limit must be smaller than period milliseconds"))
  else fixedLoop fuel 0 (rl_Key params) (Truncate (UTC (rl_Now params)) (rl_Period params))
         (rl_Period params) (rl_Limit params) s.

Context `{FloatConv}.

Definition AcquireRateLimit (fuel : nat) (params : RateLimitAcquireParams) (s : S)
  : option (S * result RateLimitAcquireResult) :=
  match cs_native with
  | Some native => Some (native s params)
  | None =>
      match checkRateLimit params with
      | Err e => Some (s, Err e)
      | Ok params =>
          match rl_Mode params with
          | RateLimitModeFixedWindow => acquireFixedWindow fuel params s
          | RateLimitModeOther m => Some (s, Err (ENew ("unknown rate-limit mode " +:+ FormatInt m)))
          | RateLimitModeGCRA =>
              let interval := rateInterval (rl_Period params) (rl_Limit params) in
              gcraLoop fuel 0 (rl_Key params) (UTC (rl_Now params)) interval
                (multiplyDuration interval (rl_Burst params - 1)) s
          end
      end
  end.
End acquire.
