(* ===== verification/RateLimitProps.v ===== *)
(** * What the rate limiter guarantees

    Both algorithms are refined to abstract moves of the one shared timestamp,
    which are valid whatever the other participants do in between; from the
    moves alone follow the GCRA bound (over any time span, whatever the clocks)
    and the fixed-window bound (for clocks that agree on the order of windows,
    and only for those). *)

From S2P Require Import Prelude GoBase Json Codec Driver Memory RateLimit.
From Stdlib Require Import ZArith Lia.

(** ** Durations *)

Lemma multiplyDuration_spec d m :
  0 < d ≤ int64_max → multiplyDuration d m = Z.min (d * Z.max 0 m) int64_max.
Proof.
  intros Hd. unfold multiplyDuration.
  destruct (m <=? 0) eqn:Em; bool_to_prop.
  { rewrite Z.max_l by lia. unfold int64_max. lia. }
  rewrite Z.max_r by lia. unfold durDiv. rewrite Z.quot_div_nonneg; [|unfold int64_max; lia|lia].
  pose proof (Z.div_mod int64_max m ltac:(lia)). pose proof (Z.mod_pos_bound int64_max m ltac:(lia)).
  destruct (int64_max / m <? d) eqn:E; bool_to_prop.
  - rewrite Z.min_r; [done|]. nia.
  - unfold durMul. rewrite wrap64_id; [rewrite Z.min_l; [done|nia]|].
    unfold is_int64, int64_min in *. nia.
Qed.

Lemma rateInterval_range `{FloatConv} period limit :
  0 < rateInterval period limit ≤ int64_max.
Proof.
  unfold rateInterval. pose proof (f64_to_int64_range (f64_div (f64_of_int period) (f64_of_int limit))) as Hr.
  unfold is_int64, Nanosecond in *. case_match; bool_to_prop; [unfold int64_max; lia|lia].
Qed.

(** ** Abstract moves of a GCRA cursor *)

Section gcra.
Context (interval tolerance : Duration).

(** [gcra_moves c evs c']: participants took the cursor from [c] to [c'], the
    claimed slots being at the clock readings [evs], in order.  Permits may also
    be wasted, which moves the cursor further without a start. *)
Inductive gcra_moves : option Instant → list Instant → option Instant → Prop :=
| gm_none c : gcra_moves c [] c
| gm_waste c evs c1 c2 : gcra_moves c evs (Some c1) → c1 ≤ c2 → gcra_moves c evs (Some c2)
| gm_create c evs now : gcra_moves c evs None → gcra_moves c evs (Some now)
| gm_slot c evs c1 now :
    gcra_moves c evs (Some c1) → c1 - tolerance ≤ now →
    gcra_moves c (evs ++ [now]) (Some (Z.max c1 now + interval)).

Lemma gcra_moves_trans c1 l1 c2 l2 c3 :
  gcra_moves c1 l1 c2 → gcra_moves c2 l2 c3 → gcra_moves c1 (l1 ++ l2) c3.
Proof.
  intros H1 H2. induction H2 as [c|c evs c' c'' H2 IH Hle|c evs now H2 IH|c evs c' now H2 IH Hle].
  - by rewrite app_nil_r.
  - by eapply gm_waste; [apply IH|].
  - by apply gm_create, IH.
  - rewrite app_assoc. by apply gm_slot; [apply IH|].
Qed.

(** Readings that fall in [[t, t + D]]. *)
Definition inSpan (t D : Z) (l : list Instant) : list Instant := filter (λ x, t ≤ x ≤ t + D) l.

Lemma inSpan_snoc t D l x :
  inSpan t D (l ++ [x]) = if decide (t ≤ x ≤ t + D) then inSpan t D l ++ [x] else inSpan t D l.
Proof.
  unfold inSpan. rewrite filter_app, filter_cons. change (filter _ []) with (@nil Instant).
  case_decide; [done|by rewrite app_nil_r].
Qed.

(** After [k] slots in the span the cursor is at least [k] intervals into it,
    and the last of them was only granted within the tolerance. *)
Lemma gcra_moves_span t D c evs c' :
  0 < interval → 0 ≤ tolerance → 0 ≤ D → gcra_moves c evs c' →
  let k := Z.of_nat (length (inSpan t D evs)) in
  (0 < k → ∃ x, c' = Some x ∧ t + k * interval ≤ x) ∧ (k - 1) * interval ≤ D + tolerance.
Proof.
  intros Hi Ht HD Hm. induction Hm as [c|c evs c1 c2 Hm IH Hle|c evs now Hm IH|c evs c1 now Hm IH Hle]; cbv zeta in *.
  - simpl. split; [lia|]. lia.
  - destruct IH as [IH1 IH2]. split; [|done]. intros Hk. destruct (IH1 Hk) as (x & [= <-] & ?).
    eexists. split; [done|]. lia.
  - destruct IH as [IH1 IH2]. split; [|done]. intros Hk. destruct (IH1 Hk) as (x & ? & _). done.
  - rewrite inSpan_snoc. destruct IH as [IH1 IH2]. case_decide as Hin.
    + rewrite length_app, Nat2Z.inj_add. change (Z.of_nat (length [now])) with 1.
      set (k := Z.of_nat (length (inSpan t D evs))) in *.
      assert (0 ≤ k) by lia. destruct (decide (k = 0)) as [->|].
      * split; [intros _; eexists; split; [done|]; lia|lia].
      * destruct (IH1 ltac:(lia)) as (x & [= <-] & Hx).
        split; [intros _; eexists; split; [done|]; nia|nia].
    + split; [|done]. intros Hk. destruct (IH1 Hk) as (x & [= <-] & Hx). eexists. split; [done|]. lia.
Qed.
End gcra.

Section refine.
Context {S : Type} `{CursorStoreLaws S}.

(** The other participants of key [key] also move the cursor as the algorithm
    does. *)
Definition env_gcra (key : string) (interval tolerance : Duration) (env : nat → S → S) : Prop :=
  ∀ i s, ∃ evs, gcra_moves interval tolerance (cs_cursor s key) evs (cs_cursor (env i s) key).

Lemma getOrCreate_cursor s key init s1 (res : ScheduleCursorResult) :
  cs_getOrCreate s (mkScheduleCursorCreateParams key init) = (s1, Ok res) →
  cs_cursor s1 key = Some (cr_At res) ∧
  (cs_cursor s key = Some (cr_At res) ∧ cr_Created res = false ∨
   cs_cursor s key = None ∧ cr_At res = init ∧ cr_Created res = true).
Proof.
  intros E. pose proof (cs_getOrCreate_spec s (mkScheduleCursorCreateParams key init)) as Hs.
  rewrite E in Hs. simpl in Hs. destruct (cs_cursor s key); destruct Hs as [-> Hs]; simpl; eauto.
Qed.

(** One call of a participant moves the cursor as the algorithm does.  A participant that
    is about to move the cursor has seen an instant that it may move it from. *)
Definition todo_ok (now : Instant) (tolerance : Duration) (todo : gcraTodo) : Prop :=
  match todo with ReadCursor => True | MoveFrom at_ => at_ - tolerance ≤ now end.

(** What a result says about the slots that were taken. *)
Definition grants (now : Instant) (r : result RateLimitAcquireResult) : list Instant :=
  match r with Ok res => if ra_Acquired res then [now] else [] | Err _ => [] end.

Lemma gcraCall_moves key now interval tolerance todo s s1 out : todo_ok now tolerance todo →
  gcraCall key now interval tolerance todo s = (s1, out) →
  ∃ evs, gcra_moves interval tolerance (cs_cursor s key) evs (cs_cursor s1 key) ∧
    match out with inl todo' => todo_ok now tolerance todo' | inr r => grants now r `sublist_of` evs end.
Proof.
  intros Hok. destruct todo as [|at_]; unfold gcraCall.
  - destruct (cs_getOrCreate s (mkScheduleCursorCreateParams key now)) as [s1' [cur|e]] eqn:Eg.
    2: { intros [= <- <-]. pose proof (cs_getOrCreate_spec s (mkScheduleCursorCreateParams key now)) as Hs.
         rewrite Eg in Hs. simpl in Hs. exists []. split; [|done].
         destruct Hs as [->|[Hn ->]]; [constructor|]. rewrite Hn. apply gm_create. constructor. }
    destruct (getOrCreate_cursor _ _ _ _ _ Eg) as [Hc1 Hcase].
    assert (gcra_moves interval tolerance (cs_cursor s key) [] (cs_cursor s1' key)) as Hm1.
    { rewrite Hc1. destruct Hcase as [[Hc _]|(Hc & Hat & _)]; rewrite Hc; [constructor|].
      apply gm_create. constructor. }
    destruct (Before now (Add (cr_At cur) (- tolerance))) eqn:Eb; intros [= <- <-]; exists []; split; [done..|done|].
    simpl. unfold Add in Eb. time_to_prop. lia.
  - simpl in Hok. set (next := Add _ interval).
    assert (next = Z.max at_ now + interval) as En.
    { subst next. unfold Add. destruct (Before at_ now) eqn:E; time_to_prop; lia. }
    pose proof (cs_advance_spec s (mkScheduleCursorAdvanceParams key at_ next)) as Ha.
    assert (∀ s3, cs_cursor s key = Some at_ → cs_cursor s3 key = Some next →
      gcra_moves interval tolerance (cs_cursor s key) ([] ++ [now]) (cs_cursor s3 key)) as Hslot.
    { intros s3 -> ->. rewrite En. apply gm_slot; [constructor|done]. }
    destruct (cs_advance _ _) as [s3 [[]|e]]; simpl in Ha; intros [= <- <-].
    + destruct Ha as [Hex Hnew]. exists [now]. split; [by apply Hslot|done].
    + destruct Ha as [_ ->]. exists []. split; [constructor|done].
    + destruct Ha as [->|[Hex Hnew]]; [exists []; split; [constructor|done]|]. exists [now]. split; [by apply Hslot|apply sublist_nil_l].
Qed.

(** A request of one participant, whatever the others do. *)
Lemma gcraLoop_moves ctxDone env key now interval tolerance fuel :
  env_gcra key interval tolerance env →
  ∀ i s s' r, gcraLoop ctxDone env fuel i key now interval tolerance s = Some (s', r) →
  ∃ evs, gcra_moves interval tolerance (cs_cursor s key) evs (cs_cursor s' key) ∧ grants now r `sublist_of` evs.
Proof.
  intros Henv. induction fuel as [|fuel IH]; intros i s s' r Hrun; [done|]. cbn [gcraLoop] in Hrun.
  destruct (Henv i s) as [ev0 Hm0].
  destruct (gcraCall key now interval tolerance ReadCursor (env i s)) as [s1 [todo|r1]] eqn:E1;
    apply gcraCall_moves in E1 as (ev1 & Hm1 & H1); [|done| |done];
    pose proof (gcra_moves_trans _ _ _ _ _ _ _ Hm0 Hm1) as Hm01.
  2: { simplify_eq. eexists. split; [exact Hm01|]. by apply sublist_inserts_l. }
  destruct (Henv (i + 1)%nat s1) as [ev2 Hm2].
  destruct (gcraCall key now interval tolerance todo (env (i + 1)%nat s1)) as [s3 [todo'|r3]] eqn:E3;
    apply gcraCall_moves in E3 as (ev3 & Hm3 & H3); [|done| |done];
    pose proof (gcra_moves_trans _ _ _ _ _ _ _ (gcra_moves_trans _ _ _ _ _ _ _ Hm01 Hm2) Hm3) as Hm.
  2: { simplify_eq. eexists. split; [exact Hm|]. by apply sublist_inserts_l. }
  destruct (ctxDone i); [simplify_eq; eexists; split; [exact Hm|apply sublist_nil_l]|].
  destruct (IH _ _ _ _ Hrun) as (ev4 & Hm4 & Hr). eexists. split; [eapply gcra_moves_trans; [exact Hm|exact Hm4]|].
  by apply sublist_inserts_l.
Qed.
End refine.

(** ** Sequences of requests *)

Section requests.
Context {S : Type} `{CursorStoreLaws S} `{FloatConv}.
Context (ctxDone : nat → option error).

Definition atTime (now : Instant) (p : RateLimitAcquireParams) : RateLimitAcquireParams :=
  mkRateLimitAcquireParams (rl_Key p) now (rl_Limit p) (rl_Period p) (rl_Burst p) (rl_Mode p).

(** One participant's requests for the limiter [p], each with its clock reading
    and what the others do meanwhile; the result lists the granted readings. *)
Fixpoint permits (fuel : nat) (p : RateLimitAcquireParams) (reqs : list (Instant * (nat → S → S))) (s : S)
  : option (S * list Instant) :=
  match reqs with
  | [] => Some (s, [])
  | (now, env) :: reqs' =>
      match AcquireRateLimit ctxDone env fuel (atTime now p) s with
      | None => None
      | Some (s1, r) =>
          match permits fuel p reqs' s1 with
          | None => None
          | Some (s2, l) =>
              Some (s2, match r with Ok res => if ra_Acquired res then now :: l else l | Err _ => l end)
          end
      end
  end.

Definition effectiveBurst (p : RateLimitAcquireParams) : Z := if rl_Burst p <=? 0 then 1 else rl_Burst p.
Definition limiterInterval (p : RateLimitAcquireParams) : Duration := rateInterval (rl_Period p) (rl_Limit p).
Definition limiterTolerance (p : RateLimitAcquireParams) : Duration :=
  multiplyDuration (limiterInterval p) (effectiveBurst p - 1).

Lemma checkRateLimit_ok p q : checkRateLimit p = Ok q →
  q = mkRateLimitAcquireParams (rl_Key p) (rl_Now p) (rl_Limit p) (rl_Period p) (effectiveBurst p) (rl_Mode p).
Proof. unfold checkRateLimit. destruct (_ || _ || _); [done|]. case_match; [done|]. by intros [= <-]. Qed.

Lemma acquire_gcra_moves env fuel p now s s' r :
  cs_native = None → rl_Mode p = RateLimitModeGCRA →
  env_gcra (rl_Key p) (limiterInterval p) (limiterTolerance p) env →
  AcquireRateLimit ctxDone env fuel (atTime now p) s = Some (s', r) →
  ∃ evs, gcra_moves (limiterInterval p) (limiterTolerance p) (cs_cursor s (rl_Key p)) evs (cs_cursor s' (rl_Key p)) ∧
    grants now r `sublist_of` evs.
Proof.
  intros Hn Hm Henv. unfold AcquireRateLimit. rewrite Hn.
  destruct (checkRateLimit (atTime now p)) as [q|e] eqn:Ec; [|intros [= <- <-]; exists []; split; constructor].
  apply checkRateLimit_ok in Ec as ->. cbn [atTime rl_Key rl_Limit rl_Period rl_Burst rl_Mode rl_Now].
  rewrite Hm. intros Hrun. by eapply gcraLoop_moves.
Qed.

Lemma inSpan_sublist t D l1 l2 : l1 `sublist_of` l2 → (length (inSpan t D l1) ≤ length (inSpan t D l2))%nat.
Proof.
  unfold inSpan. induction 1 as [|x l1 l2 Hs IH|x l1 l2 Hs IH]; [done|..]; rewrite !filter_cons;
    case_decide; simpl; lia.
Qed.

(** The bound that the moves keep to. *)
Lemma gcra_moves_bound p c evs c' t D : 0 ≤ D →
  gcra_moves (limiterInterval p) (limiterTolerance p) c evs c' →
  Z.of_nat (length (inSpan t D evs)) ≤ effectiveBurst p + D / limiterInterval p.
Proof.
  intros HD Hmoves. pose proof (rateInterval_range (rl_Period p) (rl_Limit p)) as Hi. fold (limiterInterval p) in Hi.
  assert (1 ≤ effectiveBurst p) as Hb by (unfold effectiveBurst; case_match; bool_to_prop; lia).
  assert (0 ≤ limiterTolerance p ≤ (effectiveBurst p - 1) * limiterInterval p) as Ht.
  { unfold limiterTolerance. rewrite multiplyDuration_spec by done.
    rewrite Z.max_r by lia. split; [apply Z.min_glb; [nia|lia]|lia]. }
  destruct (gcra_moves_span _ _ t D _ _ _ (proj1 Hi) (proj1 Ht) HD Hmoves) as [_ Hk].
  assert (Z.of_nat (length (inSpan t D evs)) - effectiveBurst p ≤ D / limiterInterval p); [|lia].
  apply Z.div_le_lower_bound; [lia|]. nia.
Qed.
End requests.

(** ** A group of participants *)

Section group.
Context {S : Type} `{CursorStoreLaws S} `{FloatConv}.

(** The requests under way, by who makes them, with what is left of their round; and the
    clock readings of all the permits that were granted, to whomever, in the order in
    which the store granted them. *)
Record Group := mkGroup {
  gr_store : S;
  gr_pending : gmap nat (RateLimitAcquireParams * gcraTodo);
  gr_granted : list Instant
}.

(** What can happen.  Every participant asks with the same key, limit, period and burst,
    and with its own clock's reading. *)
Inductive GroupEvent :=
| Ask (who : nat) (now : Instant)                 (* starts a request, when it has none *)
| Call (who : nat)                                (* makes the next store call of its request *)
| Leave (who : nat)                               (* its context ends, or its process *)
| Elsewhere (f : S → S).                          (* other use of the store *)

Definition groupStep (p : RateLimitAcquireParams) (ev : GroupEvent) (g : Group) : option Group :=
  match ev with
  | Ask who now =>
      match gr_pending g !! who, checkRateLimit (atTime now p) with
      | Some _, _ => None
      | None, Err _ => Some g
      | None, Ok q => Some (mkGroup (gr_store g) (<[who := (q, ReadCursor)]> (gr_pending g)) (gr_granted g))
      end
  | Call who =>
      match gr_pending g !! who with
      | None => None
      | Some (q, todo) =>
          let interval := rateInterval (rl_Period q) (rl_Limit q) in
          match gcraCall (rl_Key q) (UTC (rl_Now q)) interval (multiplyDuration interval (rl_Burst q - 1)) todo (gr_store g) with
          | (s, inl todo') => Some (mkGroup s (<[who := (q, todo')]> (gr_pending g)) (gr_granted g))
          | (s, inr r) => Some (mkGroup s (delete who (gr_pending g)) (gr_granted g ++ grants (rl_Now q) r))
          end
      end
  | Leave who => Some (mkGroup (gr_store g) (delete who (gr_pending g)) (gr_granted g))
  | Elsewhere f => Some (mkGroup (f (gr_store g)) (gr_pending g) (gr_granted g))
  end.

Fixpoint groupRun (p : RateLimitAcquireParams) (evs : list GroupEvent) (g : Group) : option Group :=
  match evs with
  | [] => Some g
  | ev :: evs' => match groupStep p ev g with None => None | Some g' => groupRun p evs' g' end
  end.

(** Other use of the store leaves the cursor of the limiter alone. *)
Definition elsewhere (key : string) (ev : GroupEvent) : Prop :=
  match ev with Elsewhere f => ∀ s, cs_cursor (f s) key = cs_cursor s key | _ => True end.

(** The requests under way are the group's, and may make the moves they are about to make. *)
Definition group_inv (p : RateLimitAcquireParams) (c : option Instant) (g : Group) : Prop :=
  (∀ who q todo, gr_pending g !! who = Some (q, todo) →
     ∃ now, checkRateLimit (atTime now p) = Ok q ∧ todo_ok now (limiterTolerance p) todo) ∧
  ∃ evs, gcra_moves (limiterInterval p) (limiterTolerance p) c evs (cs_cursor (gr_store g) (rl_Key p)) ∧
    gr_granted g `sublist_of` evs.

Lemma groupStep_inv p c ev g g' : elsewhere (rl_Key p) ev → groupStep p ev g = Some g' → group_inv p c g → group_inv p c g'.
Proof.
  intros Hev Hs (Hp & evs & Hm & Hsub). destruct ev as [who now|who|who|f]; simpl in Hs, Hev.
  - destruct (gr_pending g !! who); [done|]. destruct (checkRateLimit (atTime now p)) as [q|e] eqn:Ec; simplify_eq; [|by split; [|exists evs]].
    split; [|by exists evs]. intros who' q' todo. cbn [gr_pending]. rewrite lookup_insert_Some.
    intros [[_ [= <- <-]]|[_ Hl]]; [by exists now|by eapply Hp].
  - destruct (gr_pending g !! who) as [[q todo]|] eqn:Eq; [|done]. destruct (Hp _ _ _ Eq) as (now & Hq & Hok).
    pose proof (checkRateLimit_ok _ _ Hq) as Hqe. subst q. cbn [atTime rl_Key rl_Limit rl_Period rl_Burst rl_Mode rl_Now] in Hs.
    change (multiplyDuration (rateInterval (rl_Period p) (rl_Limit p)) (effectiveBurst (atTime now p) - 1)) with (limiterTolerance p) in Hs.
    change (rateInterval (rl_Period p) (rl_Limit p)) with (limiterInterval p) in Hs. unfold UTC in Hs.
    destruct (gcraCall _ _ _ _ _ _) as [s1 [todo'|r]] eqn:E; apply gcraCall_moves in E as (ev1 & Hm1 & Hr1); [|done| |done];
      simplify_eq; pose proof (gcra_moves_trans _ _ _ _ _ _ _ Hm Hm1) as Hm01.
    + split; [|exists (evs ++ ev1); split; [done|by apply sublist_inserts_r]].
      intros who' q' todo''. cbn [gr_pending]. rewrite lookup_insert_Some. intros [[_ [= <- <-]]|[_ Hl]]; [by exists now|by eapply Hp].
    + split; [|exists (evs ++ ev1); split; [done|by apply sublist_app]].
      intros who' q' todo''. cbn [gr_pending]. rewrite lookup_delete_Some. intros [_ Hl]. by eapply Hp.
  - simplify_eq. split; [|by exists evs]. intros who' q' todo''. cbn [gr_pending]. rewrite lookup_delete_Some. intros [_ Hl]. by eapply Hp.
  - simplify_eq. split; [done|]. exists evs. cbn [gr_store gr_granted]. by rewrite Hev.
Qed.

Lemma groupRun_inv p c evs : ∀ g g', Forall (elsewhere (rl_Key p)) evs → groupRun p evs g = Some g' → group_inv p c g → group_inv p c g'.
Proof.
  induction evs as [|ev evs IH]; intros g g' Hev Hr; simpl in Hr; [by simplify_eq|]. apply Forall_cons in Hev as [He Hev].
  destruct (groupStep p ev g) as [g1|] eqn:E; [|done]. intros Hi. eapply IH; [done..|]. by eapply groupStep_inv.
Qed.

(** C16: the GCRA bound.  Any number of participants share one limiter: they start
    requests when they like, with whatever clock readings, and their store calls
    interleave in any order, also with other use of the store; a store call may fail,
    with or without effect, and a participant may stop between two calls.  Then the
    number of permits granted to all of them together, at clock readings inside any span
    of length [D], is at most [burst + D / interval]. *)
Theorem gcra_rate_bound p evs s g t D :
  0 ≤ D → Forall (elsewhere (rl_Key p)) evs →
  groupRun p evs (mkGroup s ∅ []) = Some g →
  Z.of_nat (length (inSpan t D (gr_granted g))) ≤ effectiveBurst p + D / limiterInterval p.
Proof.
  intros HD Hev Hrun.
  destruct (groupRun_inv p (cs_cursor s (rl_Key p)) _ _ _ Hev Hrun) as (_ & ms & Hmoves & Hsub).
  { split; [done|]. exists []. split; constructor. }
  etrans; [apply Nat2Z.inj_le, inSpan_sublist, Hsub|]. by apply (gcra_moves_bound _ _ _ _ _ _ HD Hmoves).
Qed.
(** A request as the code makes it, with [env] between its calls, is such a run: it asks,
    makes its calls, and leaves when its context ends. *)
Definition ofRequest (who : nat) (env : nat → S → S) (ev : GroupEvent) : Prop :=
  ev = Call who ∨ ev = Leave who ∨ ∃ i, ev = Elsewhere (env i).

Lemma gcraLoop_in_group ctxDone env p now q who fuel : checkRateLimit (atTime now p) = Ok q →
  ∀ i g s' r, gr_pending g !! who = Some (q, ReadCursor) →
  gcraLoop ctxDone env fuel i (rl_Key q) (UTC (rl_Now q)) (limiterInterval q)
    (multiplyDuration (limiterInterval q) (rl_Burst q - 1)) (gr_store g) = Some (s', r) →
  ∃ evs, Forall (ofRequest who env) evs ∧
    groupRun p evs g = Some (mkGroup s' (delete who (gr_pending g)) (gr_granted g ++ grants now r)).
Proof.
  intros Hq. assert (rl_Now q = now) as Hnow by (by apply checkRateLimit_ok in Hq as ->).
  assert (∀ j, ofRequest who env (Elsewhere (env j))) as He by (intros j; right; right; eauto).
  assert (ofRequest who env (Call who)) as Hc by (by left).
  induction fuel as [|fuel IH]; intros i g s' r Hp Hrun; [done|]. cbn [gcraLoop] in Hrun.
  destruct (gcraCall _ _ _ _ ReadCursor _) as [s1 [todo|r1]] eqn:E1.
  2: { simplify_eq. exists [Elsewhere (env i); Call who]. split; [repeat (apply Forall_cons_2; [by auto|]); apply Forall_nil_2|]. simpl. rewrite Hp.
       unfold limiterInterval in E1. by rewrite E1. }
  destruct (gcraCall _ _ _ _ todo _) as [s3 [todo'|r3]] eqn:E3.
  2: { simplify_eq. exists [Elsewhere (env i); Call who; Elsewhere (env (i + 1)%nat); Call who]. split; [repeat (apply Forall_cons_2; [by auto|]); apply Forall_nil_2|].
       simpl. rewrite Hp. unfold limiterInterval in E1, E3. rewrite E1. simpl. rewrite lookup_insert_eq, E3. simpl. by rewrite delete_insert_eq. }
  assert (todo' = ReadCursor) as ->.
  { revert E1 E3. unfold gcraCall. clear. repeat case_match; intros; simplify_eq; done. }
  set (g3 := mkGroup s3 (<[who := (q, ReadCursor)]> (<[who := (q, todo)]> (gr_pending g))) (gr_granted g)).
  assert (∀ rest, groupRun p ([Elsewhere (env i); Call who; Elsewhere (env (i + 1)%nat); Call who] ++ rest) g = groupRun p rest g3) as Hg3.
  { intros rest. simpl. rewrite Hp. unfold limiterInterval in E1, E3. rewrite E1. simpl. by rewrite lookup_insert_eq, E3. }
  assert (delete who (gr_pending g3) = delete who (gr_pending g)) as Hdel by (simpl; by rewrite insert_insert_eq, delete_insert_eq).
  destruct (ctxDone i) as [e|].
  { simplify_eq. exists ([Elsewhere (env i); Call who; Elsewhere (env (i + 1)%nat); Call who] ++ [Leave who]).
    split; [repeat (apply Forall_cons_2; [first [by auto|by right; left]|]); apply Forall_nil_2|]. rewrite Hg3. cbn [groupRun groupStep]. rewrite Hdel. simpl. by rewrite app_nil_r. }
  destruct (IH (i + 2)%nat g3 s' r) as (evs & Hevs & Hr); [simpl; by rewrite lookup_insert_eq|done|].
  exists ([Elsewhere (env i); Call who; Elsewhere (env (i + 1)%nat); Call who] ++ evs).
  split; [apply Forall_app; split; [repeat (apply Forall_cons_2; [by auto|]); apply Forall_nil_2|done]|]. by rewrite Hg3, Hr, Hdel.
Qed.

Lemma acquire_in_group ctxDone env fuel p now who g s' r :
  cs_native = None → rl_Mode p = RateLimitModeGCRA → gr_pending g !! who = None →
  AcquireRateLimit ctxDone env fuel (atTime now p) (gr_store g) = Some (s', r) →
  ∃ evs, Forall (ofRequest who env) evs ∧
    groupRun p (Ask who now :: evs) g = Some (mkGroup s' (gr_pending g) (gr_granted g ++ grants now r)).
Proof.
  intros Hn Hm Hp. unfold AcquireRateLimit. rewrite Hn. cbn [groupRun groupStep]. rewrite Hp.
  destruct (checkRateLimit (atTime now p)) as [q|e] eqn:Eq.
  2: { intros [= <- <-]. exists []. split; [done|]. simpl. rewrite app_nil_r. by destruct g. }
  assert (rl_Mode q = RateLimitModeGCRA) as -> by (by apply checkRateLimit_ok in Eq as ->).
  intros Hrun. edestruct (gcraLoop_in_group ctxDone env p now q who fuel Eq 0%nat
    (mkGroup (gr_store g) (<[who := (q, ReadCursor)]> (gr_pending g)) (gr_granted g))) as (evs & Hevs & Hr);
    [simpl; by rewrite lookup_insert_eq|exact Hrun|]. exists evs. split; [done|]. rewrite Hr. simpl.
  by rewrite delete_insert_eq, delete_id.
Qed.
End group.
Arguments Group : clear implicits.
Arguments GroupEvent : clear implicits.

(** ** Fixed windows *)

Section fixed.
Context (period : Duration) (limit : Z).

(** Moves of a fixed-window cursor; the events are the windows of the permits. *)
Inductive fixed_moves : option Instant → list Instant → option Instant → Prop :=
| fm_none c : fixed_moves c [] c
| fm_create c evs w : fixed_moves c evs None → fixed_moves c (evs ++ [w]) (Some (w + countUnit))
| fm_switch c evs c1 w :
    fixed_moves c evs (Some c1) → Truncate c1 period ≠ w →
    fixed_moves c (evs ++ [w]) (Some (w + countUnit))
| fm_count c evs c1 :
    fixed_moves c evs (Some c1) → windowCount c1 period < limit →
    fixed_moves c (evs ++ [Truncate c1 period]) (Some (c1 + countUnit)).

Lemma fixed_moves_trans c1 l1 c2 l2 c3 :
  fixed_moves c1 l1 c2 → fixed_moves c2 l2 c3 → fixed_moves c1 (l1 ++ l2) c3.
Proof.
  intros H1 H2. induction H2; rewrite ?app_nil_r, ?app_assoc;
    [done|eapply fm_create|eapply fm_switch|eapply fm_count]; eauto.
Qed.

Definition countWindow (w : Instant) (l : list Instant) : Z := Z.of_nat (length (filter (λ x, x = w) l)).

Lemma countWindow_snoc w l x : countWindow w (l ++ [x]) = countWindow w l + if decide (x = w) then 1 else 0.
Proof.
  unfold countWindow. rewrite filter_app, filter_cons. change (filter _ []) with (@nil Instant).
  case_decide; rewrite length_app; simpl; lia.
Qed.

Lemma countWindow_le l w x : Sorted.StronglySorted Z.le (l ++ [x]) → x < w → countWindow w l = 0.
Proof.
  intros Hs Hlt. unfold countWindow. rewrite filter_none; [done|].
  apply Forall_forall. intros y Hy ->. eapply StronglySorted_app_1_elem_of in Hs; [|exact Hy|by left].
  simpl in Hs. lia.
Qed.

(** The encoding: [k] permits in window [w] is the cursor [w + k] units. *)
Lemma encoded_window w k :
  0 < period < 2 ^ 63 → (period | w) → 1 ≤ k → k * countUnit < period →
  Truncate (w + k * countUnit) period = w ∧ windowCount (w + k * countUnit) period = k.
Proof.
  intros Hp Hd Hk Hlt. assert (Truncate (w + k * countUnit) period = w) as Et.
  { apply Truncate_unique; [lia|done|]. unfold countUnit, Millisecond in *. lia. }
  split; [done|]. unfold windowCount. rewrite Et.
  rewrite Sub_exact by (unfold is_int64, int64_min, int64_max, countUnit, Millisecond in *; lia).
  replace (w + k * countUnit - w) with (k * countUnit) by lia.
  unfold durDiv, countUnit, Millisecond. by rewrite Z.quot_mul by lia.
Qed.

(** The cursor counts the permits of the current window; windows in order. *)
Lemma fixed_moves_bound evs c :
  0 < period < 2 ^ 63 → 1 ≤ limit → limit * countUnit < period →
  fixed_moves None evs c → Forall (λ w, (period | w)) evs → Sorted.StronglySorted Z.le evs →
  (∀ w, countWindow w evs ≤ limit) ∧
  match c with
  | None => evs = []
  | Some x => ∃ w k, x = w + k * countUnit ∧ (period | w) ∧ 1 ≤ k ≤ limit ∧ countWindow w evs = k ∧
                     ∀ w', w' ∈ evs → w' ≤ w
  end.
Proof.
  intros Hp Hl Hlp Hm Hdiv Hs. remember None as c0 eqn:E0.
  induction Hm as [c|c evs w Hm IH|c evs c1 w Hm IH Hne|c evs c1 Hm IH Hlt]; subst.
  - split; [|done]. intros w. unfold countWindow. simpl. lia.
  - apply Forall_app in Hdiv as [Hdiv Hw]. rewrite Forall_singleton in Hw.
    destruct (IH eq_refl Hdiv (StronglySorted_app_1_l _ _ _ Hs)) as [_ ->]. split.
    + intros w'. rewrite countWindow_snoc. unfold countWindow. simpl. case_decide; lia.
    + exists w, 1. rewrite countWindow_snoc. unfold countWindow. simpl. rewrite decide_True by done.
      split_and!; try done; try lia. intros w' Hw'.
      apply list_elem_of_singleton in Hw' as ->. lia.
  - apply Forall_app in Hdiv as [Hdiv Hw]. rewrite Forall_singleton in Hw.
    destruct (IH eq_refl Hdiv (StronglySorted_app_1_l _ _ _ Hs)) as [Hb (w0 & k & -> & Hd0 & Hk & Hc & Hmax)].
    destruct (encoded_window w0 k Hp Hd0 ltac:(lia) ltac:(unfold countUnit, Millisecond in *; nia)) as [Et _].
    rewrite Et in Hne.
    assert (w0 ∈ evs) as Hin.
    { unfold countWindow in Hc. destruct (filter (λ x, x = w0) evs) as [|y l] eqn:Ef; [simpl in Hc; lia|].
      assert (y ∈ filter (λ x, x = w0) evs) as [-> Hy]%list_elem_of_filter by (rewrite Ef; by left). done. }
    assert (w0 < w) as Hlt.
    { eapply StronglySorted_app_1_elem_of in Hs; [|exact Hin|by left]. simpl in Hs. lia. }
    assert (countWindow w evs = 0) as Hz.
    { unfold countWindow. rewrite filter_none; [done|]. apply Forall_forall. intros y Hy ->.
      specialize (Hmax _ Hy). lia. }
    split.
    + intros w'. rewrite countWindow_snoc. specialize (Hb w'). case_decide; subst; lia.
    + exists w, 1. rewrite countWindow_snoc, decide_True, Hz by done. split_and!; try done; try lia; try exact Hw.
      intros w' [Hw'|Hw']%elem_of_app; [specialize (Hmax _ Hw'); lia|].
      apply list_elem_of_singleton in Hw' as ->. lia.
  - apply Forall_app in Hdiv as [Hdiv Hw]. rewrite Forall_singleton in Hw.
    destruct (IH eq_refl Hdiv (StronglySorted_app_1_l _ _ _ Hs)) as [Hb (w0 & k & -> & Hd0 & Hk & Hc & Hmax)].
    destruct (encoded_window w0 k Hp Hd0 ltac:(lia) ltac:(unfold countUnit, Millisecond in *; nia)) as [Et Ec].
    rewrite Ec in Hlt. rewrite Et in *. split.
    + intros w'. rewrite countWindow_snoc. specialize (Hb w'). case_decide; subst; lia.
    + exists w0, (k + 1). rewrite countWindow_snoc, decide_True, Hc by done. split_and!; try done; try lia.
      intros w' [Hw'|Hw']%elem_of_app; [by apply Hmax|].
      apply list_elem_of_singleton in Hw' as ->. lia.
Qed.
End fixed.

Section fixed_refine.
Context {S : Type} `{CursorStoreLaws S} `{FloatConv}.
Context (ctxDone : nat → option error).

(** While a request for window [w] runs, the others also ask in window [w]. *)
Definition env_fixed (key : string) (period limit w : Z) (env : nat → S → S) : Prop :=
  ∀ i s, ∃ n, fixed_moves period limit (cs_cursor s key) (replicate n w) (cs_cursor (env i s) key).

Lemma replicate_snoc (n : nat) (w : Z) : replicate n w ++ [w] = replicate (Datatypes.S n) w.
Proof. by rewrite <-replicate_cons_app. Qed.

Lemma fixedLoop_moves env key w period limit fuel :
  env_fixed key period limit w env →
  ∀ i s s' r, fixedLoop ctxDone env fuel i key w period limit s = Some (s', r) →
  ∃ n, fixed_moves period limit (cs_cursor s key) (replicate n w) (cs_cursor s' key) ∧
    match r with Ok res => if ra_Acquired res then (1 ≤ n)%nat else True | Err _ => True end.
Proof.
  intros Henv. induction fuel as [|fuel IH]; intros i s s' r Hrun; [done|]. simpl in Hrun.
  destruct (Henv i s) as [n0 Hm0]. set (init := Add w countUnit) in *.
  destruct (cs_getOrCreate (env i s) (mkScheduleCursorCreateParams key init)) as [s1 [cur|e]] eqn:Eg.
  2: { simplify_eq. pose proof (cs_getOrCreate_spec (env i s) (mkScheduleCursorCreateParams key init)) as Hs.
       rewrite Eg in Hs. simpl in Hs. destruct Hs as [->|[Hn ->]]; [by exists n0|].
       rewrite Hn in Hm0. exists (Datatypes.S n0). rewrite <-replicate_snoc. split; [by apply fm_create|done]. }
  destruct (getOrCreate_cursor _ _ _ _ _ Eg) as [Hc1 Hcase].
  destruct (cr_Created cur) eqn:Ecr.
  { simplify_eq. destruct Hcase as [[_ ?]|(Hn & Hat & _)]; [congruence|].
    rewrite Hn in Hm0. rewrite Hc1, Hat. exists (Datatypes.S n0). rewrite <-replicate_snoc.
    split; [by apply fm_create|simpl; lia]. }
  destruct Hcase as [[Hc _]|(_ & _ & ?)]; [|congruence].
  rewrite Hc, <-Hc1 in Hm0. destruct (Henv (i + 1)%nat s1) as [n1 Hm1].
  pose proof (fixed_moves_trans _ _ _ _ _ _ _ Hm0 Hm1) as Hm. rewrite <-replicate_add in Hm.
  assert (∀ next,
    (cs_cursor (env (i + 1)%nat s1) key = Some (cr_At cur) →
      fixed_moves period limit (cs_cursor s key) (replicate (Datatypes.S (n0 + n1)) w) (Some next)) →
    match cs_advance (env (i + 1)%nat s1) (mkScheduleCursorAdvanceParams key (cr_At cur) next) with
    | (s3, Ok true) => ∃ n, fixed_moves period limit (cs_cursor s key) (replicate n w) (cs_cursor s3 key) ∧ (1 ≤ n)%nat
    | (s3, _) => ∃ n, fixed_moves period limit (cs_cursor s key) (replicate n w) (cs_cursor s3 key)
    end) as Hadv.
  { intros next Hnext.
    pose proof (cs_advance_spec (env (i + 1)%nat s1) (mkScheduleCursorAdvanceParams key (cr_At cur) next)) as Ha.
    destruct (cs_advance (env (i + 1)%nat s1) (mkScheduleCursorAdvanceParams key (cr_At cur) next))
      as [s3 [[]|e]]; simpl in Ha.
    - destruct Ha as [Hex ->]. exists (Datatypes.S (n0 + n1)). split; [by apply Hnext|lia].
    - destruct Ha as [_ ->]. by exists (n0 + n1)%nat.
    - destruct Ha as [->|[Hex ->]]; [by exists (n0 + n1)%nat|].
      exists (Datatypes.S (n0 + n1)). by apply Hnext. }
  assert (∀ s3 n r', fixed_moves period limit (cs_cursor s key) (replicate n w) (cs_cursor s3 key) →
    fixedLoop ctxDone env fuel (i + 2) key w period limit s3 = Some (s', r') → r' = r →
    ∃ n, fixed_moves period limit (cs_cursor s key) (replicate n w) (cs_cursor s' key) ∧
      match r with Ok res => if ra_Acquired res then (1 ≤ n)%nat else True | Err _ => True end) as Hagain.
  { intros s3 n r' Hm3 Hrun3 ->. destruct (IH _ _ _ _ Hrun3) as (n3 & Hm4 & Hr).
    exists (n + n3)%nat. rewrite replicate_add. split; [by eapply fixed_moves_trans|].
    destruct r as [res|]; [|done]. destruct (ra_Acquired res); [lia|done]. }
  destruct (negb (TimeEqual (Truncate (cr_At cur) period) w)) eqn:Ew.
  - assert (cs_cursor (env (i + 1)%nat s1) key = Some (cr_At cur) →
      fixed_moves period limit (cs_cursor s key) (replicate (Datatypes.S (n0 + n1)) w) (Some init)) as Hnext.
    { intros Hex. rewrite Hex in Hm. rewrite <-replicate_snoc. apply fm_switch with (cr_At cur); [done|].
      by time_to_prop. }
    specialize (Hadv init Hnext). destruct (cs_advance _ _) as [s3 [[]|e]].
    + simplify_eq. destruct Hadv as (n & Hn & ?). by exists n.
    + destruct Hadv as [n Hn]. by eapply Hagain.
    + simplify_eq. destruct Hadv as [n Hn]. by exists n.
  - time_to_prop. destruct (limit <=? windowCount (cr_At cur) period) eqn:El.
    { simplify_eq. by exists n0. }
    bool_to_prop.
    assert (cs_cursor (env (i + 1)%nat s1) key = Some (cr_At cur) →
      fixed_moves period limit (cs_cursor s key) (replicate (Datatypes.S (n0 + n1)) w)
        (Some (Add (cr_At cur) countUnit))) as Hnext.
    { intros Hex. rewrite Hex in Hm. rewrite <-replicate_snoc, <-Ew at 1.
      rewrite Ew. rewrite <-Ew at 2. by apply fm_count. }
    specialize (Hadv _ Hnext). destruct (cs_advance _ _) as [s3 [[]|e]].
    + simplify_eq. destruct Hadv as (n & Hn & ?). by exists n.
    + destruct Hadv as [n Hn]. destruct (ctxDone i); [simplify_eq; by exists n|by eapply Hagain].
    + simplify_eq. destruct Hadv as [n Hn]. by exists n.
Qed.

Definition windowOf (p : RateLimitAcquireParams) (now : Instant) : Instant := Truncate now (rl_Period p).

Lemma acquire_fixed_moves env fuel p now s s' r :
  cs_native = None → rl_Mode p = RateLimitModeFixedWindow →
  env_fixed (rl_Key p) (rl_Period p) (rl_Limit p) (windowOf p now) env →
  AcquireRateLimit ctxDone env fuel (atTime now p) s = Some (s', r) →
  ∃ n, fixed_moves (rl_Period p) (rl_Limit p) (cs_cursor s (rl_Key p)) (replicate n (windowOf p now))
         (cs_cursor s' (rl_Key p)) ∧
    match r with Ok res => if ra_Acquired res then (1 ≤ n)%nat else True | Err _ => True end.
Proof.
  intros Hn Hm Henv. unfold AcquireRateLimit. rewrite Hn.
  destruct (checkRateLimit (atTime now p)) as [q|e] eqn:Ec; [|intros [= <- <-]; exists 0%nat; split; [constructor|done]].
  apply checkRateLimit_ok in Ec as ->. cbn [atTime rl_Key rl_Limit rl_Period rl_Burst rl_Mode rl_Now].
  rewrite Hm. unfold acquireFixedWindow. cbn [rl_Key rl_Limit rl_Period rl_Burst rl_Mode rl_Now].
  destruct (durDiv _ _ <=? _).
  { intros [= <- <-]. exists 0%nat. split; [constructor|done]. }
  intros Hrun. by eapply fixedLoop_moves.
Qed.

Lemma permits_fixed_moves fuel p reqs : ∀ s s' granted,
  cs_native = None → rl_Mode p = RateLimitModeFixedWindow →
  Forall (λ rq, env_fixed (rl_Key p) (rl_Period p) (rl_Limit p) (windowOf p rq.1) rq.2) reqs →
  Sorted.StronglySorted Z.le (windowOf p ∘ fst <$> reqs) →
  permits ctxDone fuel p reqs s = Some (s', granted) →
  ∃ evs, fixed_moves (rl_Period p) (rl_Limit p) (cs_cursor s (rl_Key p)) evs (cs_cursor s' (rl_Key p)) ∧
    (windowOf p <$> granted) `sublist_of` evs ∧ Sorted.StronglySorted Z.le evs ∧
    Forall (λ w, ∃ rq, rq ∈ reqs ∧ w = windowOf p rq.1) evs.
Proof.
  induction reqs as [|[now env] reqs IH]; intros s s' granted Hn Hm Henv Hs Hrun; simpl in Hrun.
  - simplify_eq. exists []. split_and!; try constructor.
  - apply Forall_cons in Henv as [He Henv]. simpl in He.
    rewrite fmap_cons in Hs. apply StronglySorted_cons in Hs as [Hle Hs].
    destruct (AcquireRateLimit ctxDone env fuel (atTime now p) s) as [[s1 r]|] eqn:Ea; [|done].
    destruct (permits ctxDone fuel p reqs s1) as [[s2 l]|] eqn:Ep; [|done].
    destruct (acquire_fixed_moves _ _ _ _ _ _ _ Hn Hm He Ea) as (n & Hm1 & Hr).
    destruct (IH _ _ _ Hn Hm Henv Hs Ep) as (ev2 & Hm2 & Hsub & Hsort & Hin).
    simplify_eq. exists (replicate n (windowOf p now) ++ ev2).
    split_and!; [by eapply fixed_moves_trans| | |].
    + destruct r as [res|]; [destruct (ra_Acquired res)|]; try by apply sublist_inserts_l.
      destruct n as [|n]; [lia|]. rewrite fmap_cons. simpl. apply sublist_skip. by apply sublist_inserts_l.
    + apply StronglySorted_app. split_and!; [|clear; induction n; simpl; constructor; [done|]|done].
      * intros x y Hx Hy. apply elem_of_replicate in Hx as [-> _].
        rewrite Forall_forall in Hin. destruct (Hin _ Hy) as (rq & Hrq & ->).
        rewrite Forall_forall in Hle. apply (Hle (windowOf p rq.1)).
        by apply (list_elem_of_fmap_2 (windowOf p ∘ fst)).
      * apply Forall_forall. intros y Hy. apply elem_of_replicate in Hy as [-> _]. done.
    + apply Forall_app. split.
      * apply Forall_forall. intros x [-> _]%elem_of_replicate. exists (now, env). split; [by left|done].
      * eapply Forall_impl; [exact Hin|]. intros w (rq & Hrq & ->). exists rq. split; [by right|done].
Qed.

Lemma countWindow_sublist w l1 l2 : l1 `sublist_of` l2 → countWindow w l1 ≤ countWindow w l2.
Proof.
  unfold countWindow. intros Hs. apply Nat2Z.inj_le.
  induction Hs as [|x l1 l2 Hs IH|x l1 l2 Hs IH]; [done|..]; rewrite !filter_cons; case_decide; simpl; lia.
Qed.

(** The fixed-window bound.  Starting without a cursor, when requests reach
    the store in the order of their windows (and those of the others fall in the
    same window as the request they interrupt), no window ever grants more than
    [limit] permits. *)
Theorem fixed_window_bound fuel p reqs s s' granted w :
  cs_native = None → rl_Mode p = RateLimitModeFixedWindow →
  0 < rl_Period p < 2 ^ 63 → 1 ≤ rl_Limit p → rl_Limit p * countUnit < rl_Period p →
  cs_cursor s (rl_Key p) = None →
  Forall (λ rq, env_fixed (rl_Key p) (rl_Period p) (rl_Limit p) (windowOf p rq.1) rq.2) reqs →
  Sorted.StronglySorted Z.le (windowOf p ∘ fst <$> reqs) →
  permits ctxDone fuel p reqs s = Some (s', granted) →
  countWindow w (windowOf p <$> granted) ≤ rl_Limit p.
Proof.
  intros Hn Hm Hp Hl Hlp Hnone Henv Hs Hrun.
  destruct (permits_fixed_moves _ _ _ _ _ _ Hn Hm Henv Hs Hrun) as (evs & Hmoves & Hsub & Hsort & Hin).
  rewrite Hnone in Hmoves.
  destruct (fixed_moves_bound (rl_Period p) (rl_Limit p) evs _ Hp Hl Hlp Hmoves) as [Hb _]; [|done|].
  - eapply Forall_impl; [exact Hin|]. intros x (rq & _ & ->). apply Truncate_spec; lia.
  - etrans; [apply countWindow_sublist; exact Hsub|apply Hb].
Qed.
End fixed_refine.
