(* ===== verification/MemoryLimiter.v ===== *)
(** * The rate limiter on the memory backend

    The memory driver satisfies the cursor-store contract, so the bounds of
    RateLimitProps.v hold of it; an uncontended request is decided in one round,
    by the rule stated here; and a participant whose clock reading belongs to an
    earlier window makes a fixed window grant more than its limit. *)

From S2P Require Import Prelude GoBase Json Codec Driver Memory RateLimit RateLimitProps.
From Stdlib Require Import ZArith Lia.

#[export] Instance memoryCursorStore : CursorStore Driver := {|
  cs_getOrCreate := ScheduleCursorGetOrCreate;
  cs_advance := ScheduleCursorAdvance;
  cs_native := None
|}.

#[export] Program Instance memoryCursorLaws : CursorStoreLaws Driver := {|
  cs_cursor d key := d_cursors d !! key
|}.
Next Obligation.
  intros d p. simpl. unfold ScheduleCursorGetOrCreate.
  destruct (d_cursors d !! cc_ID p) eqn:E; simpl; [done|]. by rewrite lookup_insert_eq.
Qed.
Next Obligation.
  intros d p. simpl. unfold ScheduleCursorAdvance.
  destruct (d_cursors d !! ca_ID p) as [c|] eqn:E; simpl; [|done].
  destruct (TimeEqual c (ca_Expected p)) eqn:Et; simpl; time_to_prop.
  - rewrite lookup_insert_eq. by subst.
  - split; [congruence|done].
Qed.

Section decision.
Context `{FloatConv}.

(** Nobody interferes. *)
Definition alone (i : nat) (d : Driver) : Driver := d.
Definition liveCtx (i : nat) : option error := None.

Definition validParams (p : RateLimitAcquireParams) : Prop :=
  rl_Key p ≠ "" ∧ 0 < rl_Limit p ∧ 0 < rl_Period p ∧ effectiveBurst p ≤ rl_Limit p.

(** An uncontended GCRA request is decided in one round.  With [c] the
    stored arrival time (the clock reading itself for a new key), it is granted
    exactly when the reading is not before [c - tolerance], moving the cursor to
    [max c now + interval]; otherwise it is told to come back at
    [c - tolerance] and the cursor stays. *)
Theorem gcra_decision fuel p d :
  validParams p → rl_Mode p = RateLimitModeGCRA → (0 < fuel)%nat →
  let c := default (rl_Now p) (d_cursors d !! rl_Key p) in
  let retryAt := c - limiterTolerance p in
  ∃ d', AcquireRateLimit liveCtx alone fuel p d =
      Some (d', Ok (if rl_Now p <? retryAt then refused retryAt else acquired)) ∧
    d_cursors d' !! rl_Key p =
      Some (if rl_Now p <? retryAt then c else Z.max c (rl_Now p) + limiterInterval p).
Proof.
  intros (Hk & Hl & Hp & Hb) Hm Hf c retryAt. unfold AcquireRateLimit. cbn [cs_native memoryCursorStore].
  assert (checkRateLimit p = Ok (mkRateLimitAcquireParams (rl_Key p) (rl_Now p) (rl_Limit p) (rl_Period p) (effectiveBurst p) (rl_Mode p))) as ->.
  { unfold checkRateLimit. rewrite bool_decide_eq_false_2 by done.
    rewrite (proj2 (Z.leb_gt (rl_Limit p) 0)), (proj2 (Z.leb_gt (rl_Period p) 0)) by lia. cbn [orb]. fold (effectiveBurst p).
    by rewrite (proj2 (Z.ltb_ge (rl_Limit p) (effectiveBurst p))) by lia. }
  cbn [rl_Key rl_Limit rl_Period rl_Burst rl_Mode rl_Now]. rewrite Hm. fold (limiterInterval p) (limiterTolerance p).
  destruct fuel as [|fuel]; [lia|]. cbn [gcraLoop]. unfold alone, UTC. cbn [gcraCall].
  assert (∃ d1 b, cs_getOrCreate d (mkScheduleCursorCreateParams (rl_Key p) (rl_Now p)) =
    (d1, Ok (mkScheduleCursorResult c b)) ∧ d_cursors d1 !! rl_Key p = Some c) as (d1 & b & -> & Hc).
  { cbn [cs_getOrCreate memoryCursorStore]. unfold ScheduleCursorGetOrCreate. cbn [cc_ID cc_InitialAt].
    subst c. destruct (d_cursors d !! rl_Key p) as [x|] eqn:E; simpl; [by eauto|].
    eexists _, _. split; [done|]. simpl. by rewrite lookup_insert_eq. }
  cbn [cr_At]. unfold Before, Add. change (c + - limiterTolerance p) with retryAt.
  destruct (rl_Now p <? retryAt) eqn:E; [by exists d1|]. cbn [gcraCall]. unfold Before, Add.
  cbn [cs_advance memoryCursorStore]. unfold ScheduleCursorAdvance. cbn [ca_ID ca_Expected ca_Next].
  rewrite Hc. unfold TimeEqual. rewrite Z.eqb_refl. cbn [negb].
  eexists. split; [done|]. simpl. rewrite lookup_insert_eq. f_equal. unfold UTC. f_equal.
  destruct (c <? rl_Now p) eqn:E2; bool_to_prop; lia.
Qed.
End decision.

(** ** Witnesses *)

(** Ten permits a second, bursts of two. *)
Definition demoLimiter : RateLimitAcquireParams :=
  mkRateLimitAcquireParams "limit" (5 * Second) 10 Second 2 RateLimitModeGCRA.

Lemma gcra_decision_witness : ∃ d',
  AcquireRateLimit (H0 := amd64_conv) liveCtx alone 1 demoLimiter (New (frozenClock 0)) = Some (d', Ok acquired) ∧
  d_cursors d' !! "limit" = Some (5 * Second + 100 * Millisecond).
Proof.
  destruct (gcra_decision (H := amd64_conv) 1 demoLimiter (New (frozenClock 0))) as (d' & Hr & Hc).
  - split; [discriminate|]. vm_compute. split_and!; done.
  - reflexivity.
  - lia.
  - exists d'. split; [exact Hr|]. etrans; [exact Hc|]. vm_compute. reflexivity.
Defined.

(** Two participants read the cursor before either moves it; one loses the race and
    goes through another round.  The store is also used elsewhere.  A third one is refused. *)
Definition otherCursor (d : Driver) : Driver := (ScheduleCursorGetOrCreate d (mkScheduleCursorCreateParams "other" 0)).1.
Lemma otherCursor_elsewhere d : d_cursors (otherCursor d) !! "limit" = d_cursors d !! "limit".
Proof. unfold otherCursor, ScheduleCursorGetOrCreate. case_match; [done|]. simpl. by rewrite lookup_insert_ne. Qed.

Definition demoRace : list (GroupEvent Driver) :=
  [Ask 1 (5 * Second); Ask 2 (5 * Second); Call 1; Call 2; Elsewhere otherCursor; Call 2; Call 1; Ask 3 (5 * Second); Call 1; Call 3; Call 1; Call 3;
   Call 3; Ask 2 (5 * Second + 100 * Millisecond); Call 2; Ask 1 (5 * Second + 100 * Millisecond); Call 2; Call 1; Leave 1].

Lemma gcra_rate_bound_witness : ∃ g,
  groupRun (S := Driver) (H1 := amd64_conv) demoLimiter demoRace (mkGroup (New (frozenClock 0)) ∅ []) = Some g ∧
  gr_granted g = [5 * Second; 5 * Second; 5 * Second + 100 * Millisecond] ∧
  Z.of_nat (length (inSpan (5 * Second) (99 * Millisecond) (gr_granted g))) ≤ 2.
Proof.
  destruct (groupRun (S := Driver) (H1 := amd64_conv) demoLimiter demoRace (mkGroup (New (frozenClock 0)) ∅ []))
    as [g|] eqn:E; [|vm_compute in E; discriminate].
  exists g. split; [reflexivity|]. split; [vm_compute in E; by injection E as <-|].
  pose proof (gcra_rate_bound (S := Driver) (H1 := amd64_conv) demoLimiter demoRace
    (New (frozenClock 0)) g (5 * Second) (99 * Millisecond)) as Hb.
  etrans; [apply Hb; [vm_compute; discriminate| |exact E]|vm_compute; discriminate].
  unfold demoRace. repeat (apply Forall_cons_2; [first [exact I|exact otherCursor_elsewhere]|]). apply Forall_nil_2.
Defined.

Definition demoWindow : RateLimitAcquireParams :=
  mkRateLimitAcquireParams "window" 0 2 Second 1 RateLimitModeFixedWindow.
Definition windowReqs : list (Instant * (nat → Driver → Driver)) :=
  (λ t, (t, alone)) <$> [5 * Second; 5 * Second + 1; 5 * Second + 2; 6 * Second; 6 * Second].

Lemma fixed_window_bound_witness : ∃ s' granted,
  permits (S := Driver) (H1 := amd64_conv) liveCtx 1 demoWindow windowReqs (New (frozenClock 0)) = Some (s', granted) ∧
  length granted = 4%nat ∧ countWindow (5 * Second) (windowOf demoWindow <$> granted) ≤ 2.
Proof.
  destruct (permits (S := Driver) (H1 := amd64_conv) liveCtx 1 demoWindow windowReqs (New (frozenClock 0)))
    as [[s' granted]|] eqn:E; [|vm_compute in E; discriminate].
  exists s', granted. split; [reflexivity|]. split.
  - vm_compute in E. injection E as <- <-. reflexivity.
  - apply (fixed_window_bound (S := Driver) (H1 := amd64_conv) liveCtx 1 demoWindow windowReqs
      (New (frozenClock 0)) s' granted (5 * Second)).
    + reflexivity.
    + reflexivity.
    + vm_compute. split; reflexivity.
    + vm_compute. discriminate.
    + vm_compute. reflexivity.
    + reflexivity.
    + unfold windowReqs. apply Forall_fmap, Forall_true. intros t i s. exists 0%nat. constructor.
    + vm_compute. repeat constructor; discriminate.
    + exact E.
Defined.

(** The order hypothesis of [fixed_window_bound] is needed: with a limit of two,
    a participant that read its clock in the previous window and reaches the
    store late rewinds the cursor, and the current window grants four. *)
Definition rewindReqs : list (Instant * (nat → Driver → Driver)) :=
  (λ t, (t, alone)) <$> [6 * Second; 6 * Second; 6 * Second - 1; 6 * Second; 6 * Second].

Lemma fixed_window_rewind :
  (λ r, countWindow (6 * Second) (windowOf demoWindow <$> r.2)) <$>
    permits (S := Driver) (H1 := amd64_conv) liveCtx 1 demoWindow rewindReqs (New (frozenClock 0)) = Some 4.
Proof. vm_compute. reflexivity. Qed.
