(* ===== verification/Sha256.v ===== *)
(** * crypto/sha256 and the hexadecimal rendering of its digest

    An executable SHA-256 (FIPS 180-4) over byte strings, used for unique keys;
    checked against published test vectors. *)

From S2P Require Import Prelude GoBase.
From Stdlib Require Import Ascii ZArith Lia.

Definition w32 (z : Z) : Z := Z.land z 4294967295.
Definition rotr (n x : Z) : Z := Z.lor (Z.shiftr x n) (w32 (Z.shiftl x (32 - n))).

Definition sha_k : list Z :=
  [1116352408; 1899447441; 3049323471; 3921009573; 961987163; 1508970993;
   2453635748; 2870763221; 3624381080; 310598401; 607225278; 1426881987;
   1925078388; 2162078206; 2614888103; 3248222580; 3835390401; 4022224774;
   264347078; 604807628; 770255983; 1249150122; 1555081692; 1996064986;
   2554220882; 2821834349; 2952996808; 3210313671; 3336571891; 3584528711;
   113926993; 338241895; 666307205; 773529912; 1294757372; 1396182291;
   1695183700; 1986661051; 2177026350; 2456956037; 2730485921; 2820302411;
   3259730800; 3345764771; 3516065817; 3600352804; 4094571909; 275423344;
   430227734; 506948616; 659060556; 883997877; 958139571; 1322822218;
   1537002063; 1747873779; 1955562222; 2024104815; 2227730452; 2361852424;
   2428436474; 2756734187; 3204031479; 3329325298].

Definition sha_h0 : list Z :=
  [1779033703; 3144134277; 1013904242; 2773480762; 1359893119; 2600822924;
   528734635; 1541459225].

Definition bytes_of (s : string) : list Z := (λ c, Z.of_N (Ascii.N_of_ascii c)) <$> String.list_ascii_of_string s.

(** The [n] low bytes of [z], most significant first. *)
Fixpoint be_bytes (n : nat) (z : Z) : list Z :=
  match n with
  | O => []
  | S n' => Z.land (Z.shiftr z (8 * Z.of_nat n')) 255 :: be_bytes n' z
  end.

Definition pad (msg : list Z) : list Z :=
  let len := Z.of_nat (length msg) in
  msg ++ [128] ++ replicate (Z.to_nat ((55 - len) mod 64)) 0 ++ be_bytes 8 (8 * len).

Fixpoint words_of (l : list Z) : list Z :=
  match l with
  | a :: b :: c :: d :: l' =>
      Z.lor (Z.shiftl a 24) (Z.lor (Z.shiftl b 16) (Z.lor (Z.shiftl c 8) d)) :: words_of l'
  | _ => []
  end.

(** The message schedule, kept in reverse: the head is the latest word. *)
Fixpoint extend (n : nat) (rev_w : list Z) : list Z :=
  match n with
  | O => rev_w
  | S n' =>
      let w2 := nth 1 rev_w 0 in let w7 := nth 6 rev_w 0 in
      let w15 := nth 14 rev_w 0 in let w16 := nth 15 rev_w 0 in
      let s0 := Z.lxor (rotr 7 w15) (Z.lxor (rotr 18 w15) (Z.shiftr w15 3)) in
      let s1 := Z.lxor (rotr 17 w2) (Z.lxor (rotr 19 w2) (Z.shiftr w2 10)) in
      extend n' (w32 (w16 + s0 + w7 + s1) :: rev_w)
  end.

Definition schedule (block : list Z) : list Z := rev (extend 48 (rev block)).

Definition sha_round (st : list Z) (kw : Z * Z) : list Z :=
  match st with
  | [a; b; c; d; e; f; g; h] =>
      let s1 := Z.lxor (rotr 6 e) (Z.lxor (rotr 11 e) (rotr 25 e)) in
      let ch := Z.lxor (Z.land e f) (Z.land (Z.lxor e 4294967295) g) in
      let t1 := w32 (h + s1 + ch + kw.1 + kw.2) in
      let s0 := Z.lxor (rotr 2 a) (Z.lxor (rotr 13 a) (rotr 22 a)) in
      let maj := Z.lxor (Z.land a b) (Z.lxor (Z.land a c) (Z.land b c)) in
      let t2 := w32 (s0 + maj) in
      [w32 (t1 + t2); a; b; c; w32 (d + t1); e; f; g]
  | _ => st
  end.

Definition compress (st block : list Z) : list Z :=
  zip_with (λ x y, w32 (x + y)) st (foldl sha_round st (zip sha_k (schedule block))).

Fixpoint blocks (n : nat) (st ws : list Z) : list Z :=
  match n with
  | O => st
  | S n' => blocks n' (compress st (take 16 ws)) (drop 16 ws)
  end.

(** [sha256.Sum256]: the 32 digest bytes. *)
Definition Sum256 (s : string) : list Z :=
  let ws := words_of (pad (bytes_of s)) in
  mjoin (be_bytes 4 <$> blocks (length ws / 16) sha_h0 ws).

(** [%x] of a byte slice. *)
Definition hexChar (n : Z) : ascii :=
  Ascii.ascii_of_N (Z.to_N (if n <? 10 then 48 + n else 87 + n)).
Fixpoint hexBytes (l : list Z) : string :=
  match l with
  | [] => ""
  | b :: l' => String (hexChar (b / 16)) (String (hexChar (b mod 16)) (hexBytes l'))
  end.

Example sha256_empty :
  hexBytes (Sum256 "") = "e3b0c44298fc1c149afbf4c8996fb92427ae41e4649b934ca495991b7852b855".
Proof. vm_compute. reflexivity. Qed.

Example sha256_abc :
  hexBytes (Sum256 "abc") = "ba7816bf8f01cfea414140de5dae2223b00361a396177a9cb410ff61f20015ad".
Proof. vm_compute. reflexivity. Qed.

Example sha256_two_blocks :
  hexBytes (Sum256 "abcdbcdecdefdefgefghfghighijhijkijkljklmklmnlmnomnopnopq") =
    "248d6a61d20638b8e5c026930c3e6039a33ce45964ff2167f6ecedd419db06c1".
Proof. vm_compute. reflexivity. Qed.

(** ** Hexadecimal text determines the bytes *)

Definition is_byte (b : Z) : Prop := 0 ≤ b < 256.

Lemma hexChar_inj a b : 0 ≤ a < 16 → 0 ≤ b < 16 → hexChar a = hexChar b → a = b.
Proof.
  unfold hexChar. intros Ha Hb Heq. apply (f_equal Ascii.N_of_ascii) in Heq.
  rewrite !Ascii.N_ascii_embedding in Heq; repeat case_match; bool_to_prop; lia.
Qed.

Lemma hexBytes_inj l1 : ∀ l2,
  Forall is_byte l1 → Forall is_byte l2 → hexBytes l1 = hexBytes l2 → l1 = l2.
Proof.
  induction l1 as [|a l1 IH]; intros [|b l2] H1 H2 Heq; try done.
  apply Forall_cons in H1 as [Ha H1], H2 as [Hb H2]. unfold is_byte in *. cbn [hexBytes] in Heq.
  injection Heq as Hhi Hlo Hrest.
  pose proof (Z.div_mod a 16 ltac:(lia)). pose proof (Z.div_mod b 16 ltac:(lia)).
  pose proof (Z.mod_pos_bound a 16 ltac:(lia)). pose proof (Z.mod_pos_bound b 16 ltac:(lia)).
  apply hexChar_inj in Hhi, Hlo; [|lia..]. f_equal; [lia|by apply IH].
Qed.

Lemma be_bytes_range n z : Forall is_byte (be_bytes n z).
Proof.
  induction n as [|n IH]; simpl; constructor; [|done].
  unfold is_byte. change 255 with (Z.ones 8). rewrite Z.land_ones by lia. apply Z.mod_pos_bound. lia.
Qed.

Lemma Sum256_bytes s : Forall is_byte (Sum256 s).
Proof.
  unfold Sum256. generalize (blocks (length (words_of (pad (bytes_of s))) / 16) sha_h0 (words_of (pad (bytes_of s)))).
  intros l. induction l as [|x l IH]; [constructor|].
  rewrite fmap_cons. change (mjoin (?a :: ?b)) with (a ++ mjoin b). apply Forall_app. split; [apply be_bytes_range|done].
Qed.
