(* ===== verification/Client.v ===== *)
(** * client.go, admission.go, telemetry.go: enqueueing jobs

    Job arguments are the application's: a [JobArgs] value records what its
    methods and [json.Marshal] return.  The backend is the interface
    [EnqueueStore].  [Env] is what an enqueue call can see and change: the store,
    the client's clock and, when an observer is configured, the log of its
    callbacks.  Contexts are not represented here: they are only passed on. *)

From S2P Require Import Prelude GoBase Json Codec Core Driver Sha256.
From Stdlib Require Import ZArith Lia.

Record JobArgs := mkJobArgs {
  ja_Kind : string;
  ja_Marshal : result json;
  ja_PayloadVersion : option Z
}.

(** ** telemetry.go, the client's part *)

Record EnqueueStart := mkEnqueueStart {
  st_Driver : string;
  st_Count : Z;
  st_Transactional : bool;
  st_Queue : string;
  st_Kind : string
}.
Record EnqueueFinish := mkEnqueueFinish {
  fi_Inserted : Z;
  fi_UniqueSkipped : Z;
  fi_Err : option error
}.
Inductive ClientEvent := EvStart (s : EnqueueStart) | EvFinish (f : EnqueueFinish).

(** ** The backend as the client sees it *)

Definition inserted : Type := list JobInsertResult * option error.

Class EnqueueStore (S Tx : Type) := {
  es_Name : string;
  es_Capabilities : Capabilities;
  es_JobInsertMany : S → list JobInsertParams → S * inserted;
  es_JobInsertManyTx : Tx → S → list JobInsertParams → S * inserted;
  es_JobCancel : S → string → S * option error;
  (* [None] when the executor is not an [AdminExecutor] *)
  es_QueueStats : option (S → string → result QueueStats)
}.

(** ** admission.go *)

Record AdmissionRequest := mkAdmissionRequest {
  ar_Jobs : list JobInsertParams;
  ar_Transactional : bool
}.

Section admission.
Context {S : Type}.

Definition AdmissionController : Type := S → AdmissionRequest → option error.

Record QueueDepthAdmission := mkQueueDepthAdmission {
  qa_stats : S → string → result QueueStats;
  qa_MaxActive : gmap string Z
}.

Definition NewQueueDepthAdmission {Tx} `{EnqueueStore S Tx} (limits : gmap string Z)
  : result QueueDepthAdmission :=
  match es_QueueStats with
  | None => Err (EWrap "" (ESentinel ErrUnsupported) (": driver " +:+ quoted es_Name
                  +:+ " does not expose queue statistics"))
  | Some stats => Ok (mkQueueDepthAdmission stats limits)
  end.

(** [incoming[job.Queue]++] over the request. *)
Definition countIncoming (jobs : list JobInsertParams) : gmap string Z :=
  foldl (λ m p, <[ip_Queue p := default 0 (m !! ip_Queue p) + 1]> m) ∅ jobs.

Definition activeJobs (stats : QueueStats) : Z :=
  wrap64 (stat stats JobStateAvailable + stat stats JobStateScheduled
          + stat stats JobStateRetryable + stat stats JobStateRunning).

(** One round of the loop: [None] when the queue has room. *)
Definition admitQueue (a : QueueDepthAdmission) (s : S) (queue : string) (count : Z) : option error :=
  let limit := default 0 (qa_MaxActive a !! queue) in
  if limit <=? 0 then None
  else match qa_stats a s queue with
       | Err e => Some (EWrap ("admission stats for queue " +:+ quoted queue +:+ ": ") e "")
       | Ok stats =>
           let active := activeJobs stats in
           if limit <? wrap64 (active + count) then Some (EQueueFull queue active count limit) else None
       end.

Fixpoint admitLoop (a : QueueDepthAdmission) (s : S) (incoming : list (string * Z)) : option error :=
  match incoming with
  | [] => None
  | (queue, count) :: rest =>
      match admitQueue a s queue count with
      | Some e => Some e
      | None => admitLoop a s rest
      end
  end.

Definition Admit `{MapRange} (a : QueueDepthAdmission) : AdmissionController :=
  λ s request, admitLoop a s (range_map (countIncoming (ar_Jobs request))).
End admission.
Arguments AdmissionController : clear implicits.
Arguments QueueDepthAdmission : clear implicits.

(** ** client.go: configuration *)

Record ClientConfig (S : Type) := mkClientConfig {
  cl_DefaultQueue : string;
  cl_Clock : option Clock;
  cl_Now : option Clock;
  cl_Observer : bool;
  cl_Admission : option (AdmissionController S)
}.
Arguments mkClientConfig {S}.
Arguments cl_DefaultQueue {S}.
Arguments cl_Clock {S}.
Arguments cl_Now {S}.
Arguments cl_Observer {S}.
Arguments cl_Admission {S}.

Definition NewClient {S} (realClock : Clock) (cfg : ClientConfig S) : ClientConfig S :=
  mkClientConfig
    (if bool_decide (cl_DefaultQueue cfg = "") then "default" else cl_DefaultQueue cfg)
    (match cl_Clock cfg, cl_Now cfg with None, None => Some realClock | c, _ => c end)
    (cl_Now cfg) (cl_Observer cfg) (cl_Admission cfg).

(** The clock a client reads: [Clock] if set, else [Now]. *)
Definition clientClock {S} (cfg : ClientConfig S) : option Clock :=
  match cl_Clock cfg with Some c => Some c | None => cl_Now cfg end.

(** ** Unique keys *)

(** A member with [omitempty]: its name and the text of its value. *)
Definition optMember (name : string) (present : bool) (text : string) : list (string * string) :=
  if present then [(name, text)] else [].

(** The canonical struct as [json.Marshal] writes it. *)
Definition canonicalMembers (kind queue callerKey : string) (args : option json) (periodStart : Z) : list (string * string) :=
  [("version", FormatInt 2); ("kind", jsonText kind)]
  ++ optMember "queue" (bool_decide (queue ≠ "")) (jsonText queue)
  ++ optMember "caller_key" (bool_decide (callerKey ≠ "")) (jsonText callerKey)
  ++ match args with Some a => [("args", print a)] | None => [] end
  ++ optMember "period_start" (bool_decide (periodStart ≠ 0)) (FormatInt periodStart).

Definition canonicalKey (kind queue callerKey : string) (args : option json) (periodStart : Z) : string :=
  objText (canonicalMembers kind queue callerKey args periodStart).

(** The text that is hashed. *)
Definition canonicalPayload (args : JobArgs) (queue : string) (opts : UniqueOpts) (now : Instant) : result string :=
  let canonQueue := if uo_ByQueue opts then queue else "" in
  let periodStart := if 0 <? uo_ByPeriod opts then UnixNano (Truncate now (uo_ByPeriod opts)) else 0 in
  if uo_ByArgs opts then
    match ja_Marshal args with
    | Err e => Err (EWrap "marshal args for unique key: " e "")
    | Ok b => Ok (canonicalKey (ja_Kind args) canonQueue (uo_Key opts) (Some b) periodStart)
    end
  else Ok (canonicalKey (ja_Kind args) canonQueue (uo_Key opts) None periodStart).

Definition buildUniqueKey (args : JobArgs) (queue : string) (opts : UniqueOpts) (now : Instant) : result string :=
  match canonicalPayload args queue opts now with
  | Err e => Err e
  | Ok payload =>
      let digest := Sum256 payload in
      let prefix := if uo_Forever opts then "uf2_" else "u2_" in
      Ok (prefix +:+ hexBytes digest)
  end.

(** ** buildInsertParams *)

(** The argument checks before the options are looked at: kind, payload and
    the version the type declares. *)
Definition checkArgs (args : option JobArgs) : result (JobArgs * json * Z) :=
  match args with
  | None => Err (ENew "job args must not be nil")
  | Some a =>
      if bool_decide (ja_Kind a = "") then Err (ENew "job kind must not be empty")
      else match ja_Marshal a with
           | Err e => Err (EWrap "marshal job args: " e "")
           | Ok j =>
               match ja_PayloadVersion a with
               | Some v => if v <=? 0 then Err (ENew "payload version must be positive") else Ok (a, j, v)
               | None => Ok (a, j, 1)
               end
           end
  end.

(** The option checks, in the order of the code. *)
Definition checkOpts (o : InsertOpts) : option error :=
  if io_PayloadVersion o <? 0 then Some (ENew "payload version must not be negative")
  else if default 0 (io_MaxRetry o) <? 0 then Some (ENew "max retry must not be negative")
  else if default 0 (io_Timeout o) <? 0 then Some (ENew "timeout must not be negative")
  else if match io_UniqueOpts o with Some u => uo_ByPeriod u <? 0 | None => false end
  then Some (ENew "unique period must not be negative")
  else None.

Section client.
Context {S Tx : Type} `{EnqueueStore S Tx}.
Context (cfg : ClientConfig S).

Definition buildInsertParams (args : option JobArgs) (opts : option InsertOpts) (clk : Clock)
  : Clock * result JobInsertParams :=
  match checkArgs args with
  | Err e => (clk, Err e)
  | Ok (a, argsJSON, typeVersion) =>
      let encode clk (o : InsertOpts) queue version uniqueKey :=
        match EncodePayload (print argsJSON) version with
        | Err e => (clk, Err (EWrap "encode job payload: " e ""))
        | Ok stored =>
            (clk, Ok (mkJobInsertParams queue (ja_Kind a) stored (io_Priority o) (io_RunAt o) uniqueKey
                        (default 0 (io_MaxRetry o)) (default 0 (io_Timeout o)) (io_Tags o) (io_PipelineID o)))
        end in
      match opts with
      | None => encode clk (mkInsertOpts "" 0 0 None None None [] "" 0) (cl_DefaultQueue cfg) typeVersion ""
      | Some o =>
          match checkOpts o with
          | Some e => (clk, Err e)
          | None =>
              let version := if 0 <? io_PayloadVersion o then io_PayloadVersion o else typeVersion in
              let queue := if bool_decide (io_Queue o ≠ "") then io_Queue o else cl_DefaultQueue cfg in
              match io_UniqueOpts o with
              | None => encode clk o queue version ""
              | Some u =>
                  let '(now, clk') := Now clk in
                  match buildUniqueKey a queue u now with
                  | Err e => (clk', Err e)
                  | Ok key => encode clk' o queue version key
                  end
              end
          end
      end
  end.

(** ** Enqueueing *)

Record Env := mkEnv { en_store : S; en_clk : Clock; en_events : list ClientEvent }.

Definition admitBatch (s : S) (params : list JobInsertParams) (transactional : bool) : option error :=
  match cl_Admission cfg, params with
  | Some controller, _ :: _ =>
      match controller s (mkAdmissionRequest params transactional) with
      | Some e => Some (EWrap "enqueue admission: " e "")
      | None => None
      end
  | _, _ => None
  end.

Definition common (f : JobInsertParams → string) (params : list JobInsertParams) : string :=
  match params with
  | [] => ""
  | p :: rest => if forallb (λ q, bool_decide (f q = f p)) rest then f p else ""
  end.

Definition emit (ev : ClientEvent) (e : Env) : Env :=
  if cl_Observer cfg then mkEnv (en_store e) (en_clk e) (en_events e ++ [ev]) else e.

Definition startEvent (params : list JobInsertParams) (transactional : bool) : ClientEvent :=
  EvStart (mkEnqueueStart es_Name (Z.of_nat (length params)) transactional
             (common ip_Queue params) (common ip_Kind params)).

Definition finishEvent (results : list JobInsertResult) (err : option error) : ClientEvent :=
  EvFinish (mkEnqueueFinish
    (Z.of_nat (length (filter (λ r, ir_UniqueSkip r = false ∧ is_Some (ir_Job r)) results)))
    (Z.of_nat (length (filter (λ r, ir_UniqueSkip r = true) results))) err).

(** The insert an entry point performs, inside or outside a transaction. *)
Definition doInsert (tx : option Tx) (s : S) (params : list JobInsertParams) : S * inserted :=
  match tx with
  | Some t => es_JobInsertManyTx t s params
  | None => es_JobInsertMany s params
  end.

Definition isTx (tx : option Tx) : bool := match tx with Some _ => true | None => false end.

(** The result of a batch call: the results come with the error, as in Go. *)
Definition refuse (e : Env) (err : error) : Env * inserted := (e, ([], Some err)).

(** From admission to the completion callback, for the batch entry points. *)
Definition submitMany (tx : option Tx) (params : list JobInsertParams) (e : Env) : Env * inserted :=
  match admitBatch (en_store e) params (isTx tx) with
  | Some err => refuse e err
  | None =>
      let e1 := emit (startEvent params (isTx tx)) e in
      let '(s2, (results, err)) := doInsert tx (en_store e1) params in
      (emit (finishEvent results err) (mkEnv s2 (en_clk e1) (en_events e1)), (results, err))
  end.

(** The same for one job: the driver must return exactly one result. *)
Definition submitOne (tx : option Tx) (p : JobInsertParams) (e : Env) : Env * result JobInsertResult :=
  match admitBatch (en_store e) [p] (isTx tx) with
  | Some err => (e, Err err)
  | None =>
      let e1 := emit (startEvent [p] (isTx tx)) e in
      let '(s2, (results, err)) := doInsert tx (en_store e1) [p] in
      let e2 := mkEnv s2 (en_clk e1) (en_events e1) in
      match err, results with
      | Some err, _ => (emit (finishEvent results (Some err)) e2, Err err)
      | None, [r] => (emit (finishEvent results None) e2, Ok r)
      | None, _ =>
          let err := ENew ("driver " +:+ quoted es_Name +:+ " returned " +:+ FormatInt (Z.of_nat (length results))
                       +:+ (if isTx tx then " results for one transactional insert" else " results for one insert")) in
          (emit (finishEvent results (Some err)) e2, Err err)
      end
  end.

Definition Enqueue (args : option JobArgs) (opts : option InsertOpts) (e : Env) : Env * result JobInsertResult :=
  match buildInsertParams args opts (en_clk e) with
  | (clk', Err err) => (mkEnv (en_store e) clk' (en_events e), Err err)
  | (clk', Ok p) => submitOne None p (mkEnv (en_store e) clk' (en_events e))
  end.

Definition txUnsupported : error :=
  EWrap "" (ESentinel ErrUnsupported) (": driver " +:+ quoted es_Name +:+ " does not support transactional inserts").

Definition EnqueueTx (tx : Tx) (args : option JobArgs) (opts : option InsertOpts) (e : Env)
  : Env * result JobInsertResult :=
  if negb (NativeTx es_Capabilities) then (e, Err txUnsupported)
  else match buildInsertParams args opts (en_clk e) with
       | (clk', Err err) => (mkEnv (en_store e) clk' (en_events e), Err err)
       | (clk', Ok p) => submitOne (Some tx) p (mkEnv (en_store e) clk' (en_events e))
       end.

(** The loop that builds the parameters of a batch; it stops at the first error. *)
Fixpoint buildAll (requests : list (option JobArgs * option InsertOpts)) (clk : Clock)
  : Clock * result (list JobInsertParams) :=
  match requests with
  | [] => (clk, Ok [])
  | (args, opts) :: rest =>
      match buildInsertParams args opts clk with
      | (clk1, Err err) => (clk1, Err err)
      | (clk1, Ok p) =>
          match buildAll rest clk1 with
          | (clk2, Err err) => (clk2, Err err)
          | (clk2, Ok ps) => (clk2, Ok (p :: ps))
          end
      end
  end.

Definition enqueueAll (tx : option Tx) (requests : list (option JobArgs * option InsertOpts)) (e : Env)
  : Env * inserted :=
  match buildAll requests (en_clk e) with
  | (clk', Err err) => refuse (mkEnv (en_store e) clk' (en_events e)) err
  | (clk', Ok ps) => submitMany tx ps (mkEnv (en_store e) clk' (en_events e))
  end.

Definition EnqueueBatch (requests : list (option JobArgs * option InsertOpts)) (e : Env) : Env * inserted :=
  enqueueAll None requests e.

Definition EnqueueBatchTx (tx : Tx) (requests : list (option JobArgs * option InsertOpts)) (e : Env) : Env * inserted :=
  if negb (NativeTx es_Capabilities) then refuse e txUnsupported else enqueueAll (Some tx) requests e.

Definition EnqueueMany (args : list (option JobArgs)) (opts : option InsertOpts) (e : Env) : Env * inserted :=
  enqueueAll None ((λ a, (a, opts)) <$> args) e.

Definition EnqueueManyTx (tx : Tx) (args : list (option JobArgs)) (opts : option InsertOpts) (e : Env)
  : Env * inserted :=
  if negb (NativeTx es_Capabilities) then refuse e txUnsupported
  else enqueueAll (Some tx) ((λ a, (a, opts)) <$> args) e.

Definition Cancel (id : string) (e : Env) : Env * option error :=
  let '(s', err) := es_JobCancel (en_store e) id in (mkEnv s' (en_clk e) (en_events e), err).
End client.
