(* ===== verification/ClientProps.v ===== *)
(** * What enqueueing guarantees

    Unique keys identify exactly what the options select; a payload a client
    stores reaches the handler of a registered worker; an entry point either
    refuses and leaves the store alone or performs exactly one insert of what
    it was given; and queue-depth admission keeps the limits it is given when
    nobody else writes. *)

From S2P Require Import Prelude GoBase Json Codec Core CoreProps Driver Memory MemoryInv MemoryFetch MemoryProps.
From S2P Require Import MemoryKeys MemoryLeases Sha256 Client.
From Stdlib Require Import ZArith Lia.

(** ** Unique keys *)

(** What the options select of a request. *)
Definition identity (args : JobArgs) (queue : string) (opts : UniqueOpts) (now : Instant)
  : string * string * string * option (result json) * Z :=
  (ja_Kind args, if uo_ByQueue opts then queue else "", uo_Key opts,
   if uo_ByArgs opts then Some (ja_Marshal args) else None,
   if 0 <? uo_ByPeriod opts then UnixNano (Truncate now (uo_ByPeriod opts)) else 0).

(** It, with the three strings as JSON has them: strings that differ in bytes that are
    not UTF-8 only have the same text. *)
Definition inJson (i : string * string * string * option (result json) * Z) :=
  let '(kind, queue, key, args, period) := i in (jsonText kind, jsonText queue, jsonText key, args, period).
Definition validStrings (i : string * string * string * option (result json) * Z) : bool :=
  let '(kind, queue, key, _, _) := i in isUTF8 kind && isUTF8 queue && isUTF8 key.

#[local] Opaque jsonText.

Lemma inJson_inj i i' : validStrings i = true → validStrings i' = true → inJson i = inJson i' → i = i'.
Proof.
  destruct i as [[[[k q] c] a] p], i' as [[[[k' q'] c'] a'] p'].
  intros [[]%andb_true_iff ?]%andb_true_iff [[]%andb_true_iff ?]%andb_true_iff.
  unfold inJson. rewrite !pair_equal_spec. intros [[[[]]]]. split_and!; [by apply jsonText_inj..|done|done].
Qed.

Definition wfMarshal (args : JobArgs) : Prop := ∀ j, ja_Marshal args = Ok j → wf_json j = true.

Lemma reads_FormatInt z : reads (FormatInt z) (JNum (FormatInt z)).
Proof. apply (parses_wf (JNum (FormatInt z))). apply valid_FormatInt. Qed.

Lemma canonicalMembers_readable k q c a p : (∀ j, a = Some j → wf_json j = true) → Forall readable (canonicalMembers k q c a p).
Proof.
  intros Ha. unfold canonicalMembers, optMember.
  repeat (apply Forall_app_2 || apply Forall_cons_2 || apply Forall_nil_2 || case_bool_decide);
    try (eexists; first [apply reads_FormatInt|apply reads_jsonText]).
  destruct a as [j|]; repeat constructor. exists j. by apply parses_wf, Ha.
Qed.

Lemma canonicalKey_inj k q c a p k' q' c' a' p' :
  is_int64 p → is_int64 p' → (∀ j, a = Some j → wf_json j = true) → (∀ j, a' = Some j → wf_json j = true) →
  canonicalKey k q c a p = canonicalKey k' q' c' a' p' →
  (jsonText k, jsonText q, jsonText c, a, p) = (jsonText k', jsonText q', jsonText c', a', p').
Proof.
  intros Hp Hp' Ha Ha' Heq. apply objText_inj in Heq; [|by apply canonicalMembers_readable..|done|done].
  assert (∀ x y, is_int64 x → is_int64 y → FormatInt x = FormatInt y → x = y) as Hinj.
  { intros x y Hx Hy He. apply ParseInt64_FormatInt in Hx, Hy. congruence. }
  assert (∀ j j', a = Some j → a' = Some j' → print j = print j' → j = j') as Hpr.
  { intros j j' -> -> Hj. by apply print_inj; [apply Ha|apply Ha'|]. }
  revert Heq. unfold canonicalMembers, optMember.
  repeat case_bool_decide; subst;
    repeat match goal with |- context [jsonText ?x] => generalize (jsonText x); intros ? end;
    destruct a as [j|], a' as [j'|]; simpl; intros Heq; try discriminate Heq;
    simplify_eq; repeat match goal with
    | H : FormatInt ?x = FormatInt ?y |- _ => apply (Hinj x y) in H; [subst|done|done]
    | H : print ?x = print ?y |- _ => apply (Hpr x y eq_refl eq_refl) in H; subst
    end; congruence.
Qed.

(** Conversely the text is a function of the strings' texts. *)
Lemma canonicalKey_proper k q c a p k' q' c' : jsonText k = jsonText k' → jsonText q = jsonText q' → jsonText c = jsonText c' →
  canonicalKey k q c a p = canonicalKey k' q' c' a p.
Proof.
  assert (∀ x y, jsonText x = jsonText y → bool_decide (x ≠ "") = bool_decide (y ≠ "")) as Hnil.
  { intros x y He. apply bool_decide_ext. split; intros Hne ->; apply Hne, jsonText_nil; congruence. }
  intros Hk Hq Hc. unfold canonicalKey, canonicalMembers. by rewrite Hk, Hq, Hc, (Hnil _ _ Hq), (Hnil _ _ Hc).
Qed.

Lemma append_inj (p s t : string) : p +:+ s = p +:+ t → s = t.
Proof. apply (inj (String.append p)). Qed.

(** The period start is an [int64]. *)
Lemma period_start_range now d : is_int64 (if 0 <? d then UnixNano (Truncate now d) else 0).
Proof. case_match; [apply wrap64_range|split; vm_compute; discriminate]. Qed.

Lemma canonicalPayload_ok args queue opts now payload :
  canonicalPayload args queue opts now = Ok payload ↔
    ∃ a, identity args queue opts now =
        (ja_Kind args, if uo_ByQueue opts then queue else "", uo_Key opts, Ok <$> a,
         if 0 <? uo_ByPeriod opts then UnixNano (Truncate now (uo_ByPeriod opts)) else 0) ∧
      payload = canonicalKey (ja_Kind args) (if uo_ByQueue opts then queue else "")
          (uo_Key opts) a (if 0 <? uo_ByPeriod opts then UnixNano (Truncate now (uo_ByPeriod opts)) else 0).
Proof.
  unfold canonicalPayload, identity.
  destruct (uo_ByArgs opts) eqn:Eb; [destruct (ja_Marshal args) as [j|e] eqn:Ej|].
  - split; [intros [= <-]; by exists (Some j)|]. by intros ([j'|] & [= <-] & ->).
  - split; [done|]. by intros ([j'|] & [=] & _).
  - split; [intros [= <-]; by exists None|]. by intros ([j'|] & [=] & ->).
Qed.

(** The text is the identity in JSON. *)
Lemma canonicalPayload_inj args queue opts now x args' queue' opts' now' y :
  wfMarshal args → wfMarshal args' →
  canonicalPayload args queue opts now = Ok x → canonicalPayload args' queue' opts' now' = Ok y →
  x = y ↔ inJson (identity args queue opts now) = inJson (identity args' queue' opts' now').
Proof.
  intros Hw Hw' (a & Hi & ->)%canonicalPayload_ok (a' & Hi' & ->)%canonicalPayload_ok.
  assert (∀ ar q o n b, wfMarshal ar → identity ar q o n =
    (ja_Kind ar, if uo_ByQueue o then q else "", uo_Key o, Ok <$> b,
     if 0 <? uo_ByPeriod o then UnixNano (Truncate n (uo_ByPeriod o)) else 0) →
    ∀ j, b = Some j → wf_json j = true) as Hwf.
  { intros ar q o n b Hb Hid j ->. apply Hb. unfold identity in Hid. destruct (uo_ByArgs o); by simplify_eq/=. }
  rewrite Hi, Hi'. unfold inJson. split.
  - intros He. apply canonicalKey_inj in He; [congruence|apply period_start_range..|by eauto|by eauto].
  - rewrite !pair_equal_spec. intros [[[[Hk Hq] Hc] Ha] Hp]. rewrite Hp. assert (a = a') as -> by (destruct a, a'; by simplify_eq/=). by apply canonicalKey_proper.
Qed.

Lemma key_prefix (b b' : bool) s s' :
  (if b then "uf2_" else "u2_") +:+ s = (if b' then "uf2_" else "u2_") +:+ s' → b = b' ∧ s = s'.
Proof. destruct b, b'; simpl; intros; simplify_eq; done. Qed.

Lemma buildUniqueKey_ok args queue opts now key :
  buildUniqueKey args queue opts now = Ok key ↔ ∃ payload, canonicalPayload args queue opts now = Ok payload ∧
    key = (if uo_Forever opts then "uf2_" else "u2_") +:+ hexBytes (Sum256 payload).
Proof. unfold buildUniqueKey. destruct (canonicalPayload _ _ _ _) as [x|e]; [|naive_solver]. split; [intros [= <-]; eauto|]. by intros (? & [= <-] & ->). Qed.

(** C21: a unique key identifies exactly what its options select.  A request that has a
    key has a canonical text, and the key is made of its lifetime and the hash of that
    text.  Two requests have the same canonical text exactly if they agree on the kind,
    the caller's key and whichever of queue, arguments and time bucket the options name
    (the strings as JSON has them, which for valid UTF-8 is the strings themselves).  So
    requests that agree and have the same lifetime get the same key; and equal keys mean
    just that, unless the canonical texts of these two requests are different and have
    the same SHA-256 hash.  A key is recognised as permanent exactly when it was asked
    to be. *)
Theorem unique_key_identifies args queue opts now key args' queue' opts' now' key' :
  wfMarshal args → wfMarshal args' →
  buildUniqueKey args queue opts now = Ok key → buildUniqueKey args' queue' opts' now' = Ok key' →
  let i := identity args queue opts now in
  let i' := identity args' queue' opts' now' in
  ∃ x y, canonicalPayload args queue opts now = Ok x ∧ canonicalPayload args' queue' opts' now' = Ok y ∧
  (x = y ↔ inJson i = inJson i') ∧
  (validStrings i = true → validStrings i' = true → inJson i = inJson i' ↔ i = i') ∧
  (uo_Forever opts = uo_Forever opts' → inJson i = inJson i' → key = key') ∧
  (key = key' → uo_Forever opts = uo_Forever opts' ∧ (inJson i = inJson i' ∨ x ≠ y ∧ Sum256 x = Sum256 y)) ∧
  IsPermanentUniqueKey key = uo_Forever opts.
Proof.
  intros Hw Hw' (x & Hx & ->)%buildUniqueKey_ok (y & Hy & ->)%buildUniqueKey_ok i i'. exists x, y.
  pose proof (canonicalPayload_inj _ _ _ _ _ _ _ _ _ _ Hw Hw' Hx Hy) as Hxy. fold i i' in Hxy. split_and!; [done..| | | |].
  - intros Hv Hv'. split; [by apply inJson_inj|congruence].
  - intros -> He. by rewrite (proj2 Hxy He).
  - intros [Hf Heq]%key_prefix. apply hexBytes_inj in Heq; [|apply Sum256_bytes..]. split; [done|].
    destruct (decide (x = y)) as [Hp|Hp]; [left; by apply Hxy|by right].
  - unfold IsPermanentUniqueKey. generalize (hexBytes (Sum256 x)). intros s. destruct (uo_Forever opts); [|done]. by destruct s.
Qed.

(** ** From the client to the handler *)

(** The version a request is stored under. *)
Definition requestVersion (args : JobArgs) (opts : option InsertOpts) : Z :=
  let typeVersion := default 1 (ja_PayloadVersion args) in
  match opts with
  | Some o => if 0 <? io_PayloadVersion o then io_PayloadVersion o else typeVersion
  | None => typeVersion
  end.

(** A payload that cannot be taken for an envelope: an object without a version
    member.  Only such payloads are stored bare. *)
Definition plainPayload (v : json) : Prop :=
  ∃ ms, v = JObj ms ∧ field_intptr versionField ms (Some None) = Some None.

Section dispatch.
Context {S Tx : Type} `{EnqueueStore S Tx} (cfg : ClientConfig S).

Lemma checkArgs_ok args a j v :
  checkArgs args = Ok (a, j, v) →
  args = Some a ∧ ja_Kind a ≠ "" ∧ ja_Marshal a = Ok j ∧ v = default 1 (ja_PayloadVersion a) ∧ 0 < v.
Proof.
  unfold checkArgs. destruct args as [a0|]; [|done]. case_bool_decide; [done|].
  destruct (ja_Marshal a0) eqn:Em; [|done]. destruct (ja_PayloadVersion a0) as [z|] eqn:Ev.
  - destruct (z <=? 0) eqn:E; [done|]. intros [= -> -> ->]. bool_to_prop. by rewrite Ev.
  - intros [= -> -> <-]. by rewrite Ev.
Qed.

(** What an accepted request is turned into. *)
Lemma buildInsertParams_ok args opts clk clk' p :
  buildInsertParams cfg args opts clk = (clk', Ok p) →
  ∃ a j, args = Some a ∧ ja_Marshal a = Ok j ∧ ip_Kind p = ja_Kind a ∧ ja_Kind a ≠ "" ∧
    0 < requestVersion a opts ∧ EncodePayload (print j) (requestVersion a opts) = Ok (ip_Args p) ∧
    ip_Queue p = (match opts with
                  | Some o => if bool_decide (io_Queue o ≠ "") then io_Queue o else cl_DefaultQueue cfg
                  | None => cl_DefaultQueue cfg end) ∧
    0 ≤ ip_MaxRetry p ∧ 0 ≤ ip_Timeout p ∧
    match opts with
    | Some (mkInsertOpts _ prio runAt uo mr tmo tags pipe _) =>
        ip_Priority p = prio ∧ ip_RunAt p = runAt ∧ ip_MaxRetry p = default 0 mr ∧
        ip_Timeout p = default 0 tmo ∧ ip_Tags p = tags ∧ ip_PipelineID p = pipe ∧
        match uo with
        | Some u => buildUniqueKey a (ip_Queue p) u (Now clk).1 = Ok (ip_UniqueKey p)
        | None => ip_UniqueKey p = ""
        end
    | None => ip_UniqueKey p = ""
    end.
Proof.
  unfold buildInsertParams. destruct (checkArgs args) as [[[a j] v]|e] eqn:Ec; [|done].
  apply checkArgs_ok in Ec as (-> & Hk & Hj & -> & Hv). unfold requestVersion.
  destruct opts as [o|]; cbn [io_Priority io_RunAt io_MaxRetry io_Timeout io_Tags io_PipelineID].
  2: { destruct (EncodePayload (print j) _) as [st|e] eqn:Ee; intros [= <- <-]. exists a, j. simpl. split_and!; try done; lia. }
  destruct (checkOpts o) eqn:Eo; [done|]. unfold checkOpts in Eo.
  destruct (io_PayloadVersion o <? 0) eqn:E1; [done|]. destruct (default 0 (io_MaxRetry o) <? 0) eqn:E2; [done|].
  destruct (default 0 (io_Timeout o) <? 0) eqn:E3; [done|]. bool_to_prop.
  assert (0 < (if 0 <? io_PayloadVersion o then io_PayloadVersion o else default 1 (ja_PayloadVersion a))) as Hpos.
  { destruct (0 <? io_PayloadVersion o) eqn:E4; [by apply Z.ltb_lt|done]. }
  destruct o as [oq prio runAt [u|] mr tmo tags pipe pv];
    cbn [io_Queue io_PayloadVersion io_UniqueOpts io_Priority io_RunAt io_MaxRetry io_Timeout io_Tags io_PipelineID] in *.
  - destruct (Now clk) as [now clk1] eqn:Ec.
    destruct (buildUniqueKey a _ u now) as [key|e] eqn:Eu; [|done].
    destruct (EncodePayload (print j) _) as [st|e] eqn:Ee; intros [= <- <-]. exists a, j. simpl. split_and!; done.
  - destruct (EncodePayload (print j) _) as [st|e] eqn:Ee; intros [= <- <-]. exists a, j. simpl. split_and!; done.
Qed.

(** The stored bytes decode to what was marshalled. *)
Lemma stored_payload j version stored :
  wf_json j = true → is_int64 version → (version = 1 → plainPayload j) →
  EncodePayload (print j) version = Ok stored → DecodePayload stored = Ok (version, print j).
Proof.
  intros Hwf Hv Hplain. unfold EncodePayload.
  destruct (version <=? 0) eqn:E0; [done|]. destruct (version =? 1) eqn:E1; bool_to_prop.
  - intros [= <-]. subst. destruct Hplain as (ms & -> & Hms); [done|]. unfold DecodePayload.
    rewrite parse_print by done. by rewrite Hms.
  - rewrite parse_print by done. intros Hs.
    assert (stored = print (JObj [(versionField, jint version); (payloadField, j)])) as -> by congruence.
    unfold DecodePayload. rewrite parse_print.
    2: { unfold jint. cbn [wf_json forallb]. rewrite valid_FormatInt. simpl. by rewrite Hwf. }
    rewrite field_intptr_envelope by done.
    change (field_raw payloadField [(versionField, jint version); (payloadField, j)] None) with (Some j).
    cbv iota. by rewrite (proj2 (Z.leb_gt version 0)) by lia.
Qed.

(** C22: what a client enqueues is what the handler gets.  If a request is
    accepted, a job row carrying the resulting parameters and processed by a
    registry whose worker for that kind accepts the stored version or a newer
    one reachable through its upcasters, calls the handler with the arguments
    decoded from the upcast of exactly the JSON the client marshalled. *)
Theorem enqueued_args_reach_handler {T} a opts clk clk' p j reg (decode : string → result T) work wopts ctx raw payload' args :
  buildInsertParams cfg (Some a) opts clk = (clk', Ok p) →
  ja_Marshal a = Ok j → wf_json j = true → is_int64 (requestVersion a opts) →
  (requestVersion a opts = 1 → plainPayload j) →
  rj_Kind raw = ip_Kind p → rj_Args raw = ip_Args p →
  requestVersion a opts ≤ acceptedVersion wopts →
  upcasts wopts (acceptedVersion wopts) (requestVersion a opts) (print j) payload' → decode payload' = Ok args →
  Process (RegisterWorker reg (ja_Kind a) decode work wopts) ctx raw =
    (setPayloadVersion (acceptedVersion wopts) raw, work ctx (jobOf raw args (acceptedVersion wopts))).
Proof.
  intros (a0 & j0 & [= <-] & Hj & Hk & _ & Hpos & Henc & _)%buildInsertParams_ok Hm Hwf Hv Hplain Hrk Hra Hle Hup Hd.
  assert (j0 = j) as -> by congruence. unfold Process, RegisterWorker. rewrite Hrk, Hk, lookup_insert_eq. cbn [we_process]. unfold process.
  assert (prepare (ja_Kind a) decode wopts raw =
    (setPayloadVersion (acceptedVersion wopts) raw, Ok (jobOf raw args (acceptedVersion wopts)))) as ->; [|done].
  apply prepare_ok. exists (requestVersion a opts), (print j), payload', args.
  split_and!; try done. rewrite Hra. by apply stored_payload.
Qed.
End dispatch.

(** ** The entry points *)

Section entry.
Context {S Tx : Type} `{EnqueueStore S Tx} (cfg : ClientConfig S).

(** The requests are turned into these parameters, one by one. *)
Inductive builds : list (option JobArgs * option InsertOpts) → Clock → Clock → list JobInsertParams → Prop :=
| builds_nil clk : builds [] clk clk []
| builds_cons args opts rest clk clk1 clk2 p ps :
    buildInsertParams cfg args opts clk = (clk1, Ok p) → builds rest clk1 clk2 ps →
    builds ((args, opts) :: rest) clk clk2 (p :: ps).

(** Some request is not acceptable, all those before it are. *)
Inductive refuses : list (option JobArgs * option InsertOpts) → Clock → error → Prop :=
| refuses_here args opts rest clk clk1 e :
    buildInsertParams cfg args opts clk = (clk1, Err e) → refuses ((args, opts) :: rest) clk e
| refuses_later args opts rest clk clk1 p e :
    buildInsertParams cfg args opts clk = (clk1, Ok p) → refuses rest clk1 e →
    refuses ((args, opts) :: rest) clk e.

Lemma buildAll_spec reqs : ∀ clk clk' r,
  buildAll cfg reqs clk = (clk', r) →
  match r with Ok ps => builds reqs clk clk' ps | Err e => refuses reqs clk e end.
Proof.
  induction reqs as [|[args opts] rest IH]; intros clk clk' r; simpl.
  { intros [= <- <-]. constructor. }
  destruct (buildInsertParams cfg args opts clk) as [clk1 [p|e]] eqn:E.
  - specialize (IH clk1). destruct (buildAll cfg rest clk1) as [clk2 [ps|e]]; intros [= <- <-];
      specialize (IH _ _ eq_refl); by econstructor.
  - intros [= <- <-]. by econstructor.
Qed.

Definition refusal (reqs : list (option JobArgs * option InsertOpts)) (tx : bool) (e : Env) (err : error) : Prop :=
  refuses reqs (en_clk e) err ∨
  ∃ clk' ps, builds reqs (en_clk e) clk' ps ∧ admitBatch cfg (en_store e) ps tx = Some err.

(** The callbacks of a call that reached the store. *)
Definition logged (tx : bool) ps (out : inserted) : list ClientEvent :=
  if cl_Observer cfg then [startEvent (S := S) (Tx := Tx) ps tx; finishEvent out.1 out.2] else [].

(** C23: a batch is all or nothing at the client.  Either the call is refused,
    because a request is malformed or admission control rejects the batch, and
    then the store was not called, no callback ran and no result is returned; or
    every request was accepted and the store was asked exactly once, with
    the parameters of all of them in order, its answer being the call's, and the
    observer saw one start and one completion.  Transactional calls on a
    backend without transactions are refused with [ErrUnsupported]. *)
Theorem batch_all_or_nothing tx reqs e e' out :
  (NativeTx (es_Capabilities (S := S) (Tx := Tx)) = true →
    EnqueueBatchTx cfg tx reqs e = enqueueAll cfg (Some tx) reqs e) ∧
  (NativeTx (es_Capabilities (S := S) (Tx := Tx)) = false →
    ∃ err, EnqueueBatchTx cfg tx reqs e = (e, ([], Some err)) ∧ errorsIs err ErrUnsupported = true) ∧
  ∀ mtx, enqueueAll cfg mtx reqs e = (e', out) →
    (∃ err, refusal reqs (isTx mtx) e err ∧ out = ([], Some err) ∧
       en_store e' = en_store e ∧ en_events e' = en_events e) ∨
    (∃ ps, builds reqs (en_clk e) (en_clk e') ps ∧ admitBatch cfg (en_store e) ps (isTx mtx) = None ∧
       doInsert mtx (en_store e) ps = (en_store e', out) ∧
       en_events e' = en_events e ++ logged (isTx mtx) ps out).
Proof.
  unfold EnqueueBatchTx. split_and!.
  - by intros ->.
  - intros ->. by eexists.
  - intros mtx. unfold enqueueAll. destruct (buildAll cfg reqs (en_clk e)) as [clk' [ps|err]] eqn:Eb.
    all: apply buildAll_spec in Eb.
    2: { intros [= <- <-]. left. exists err. split_and!; try done. by left. }
    unfold submitMany. cbn [en_store]. destruct (admitBatch cfg (en_store e) ps (isTx mtx)) as [err|] eqn:Ea.
    { intros [= <- <-]. left. exists err. split_and!; try done. right. eauto. }
    intros Hr. right. exists ps. unfold emit, logged in *.
    destruct (cl_Observer cfg); cbn [en_store en_clk en_events] in *;
      destruct (doInsert mtx (en_store e) ps) as [s2 [res err]]; simplify_eq/=.
    + split_and!; try done. by rewrite <-app_assoc.
    + split_and!; try done. by rewrite app_nil_r.
Qed.

(** A single insert follows the same discipline, and only a store answer of
    exactly one result counts as success: any other count is reported as an
    error although the store was called. *)
Lemma single_insert_spec mtx p e e' r :
  submitOne cfg mtx p e = (e', r) →
  (∃ err, admitBatch cfg (en_store e) [p] (isTx mtx) = Some err ∧ r = Err err ∧ e' = e) ∨
  (∃ results err, doInsert mtx (en_store e) [p] = (en_store e', (results, err)) ∧
     (∀ x, r = Ok x ↔ err = None ∧ results = [x]) ∧
     (∀ err0, err = Some err0 → r = Err err0) ∧ en_clk e' = en_clk e ∧
     en_events e' = en_events e ++
       logged (isTx mtx) [p] (results, match r with Ok _ => None | Err err => Some err end)).
Proof.
  unfold submitOne. destruct (admitBatch cfg (en_store e) [p] (isTx mtx)) as [err|] eqn:Ea.
  { intros [= <- <-]. left. eauto. }
  intros Hr. right. unfold emit, logged in *.
  destruct (cl_Observer cfg); cbn [en_store en_clk en_events] in *;
    destruct (doInsert mtx (en_store e) [p]) as [s2 [res err]]; exists res, err;
    repeat (case_match; simplify_eq/=); split_and!; try done; try naive_solver;
    rewrite ?app_nil_r, <-?app_assoc; done.
Qed.

(** What the completion callback counts. *)
Lemma finish_counts results err :
  ∃ i u, finishEvent results err = EvFinish (mkEnqueueFinish i u err) ∧
    0 ≤ i ∧ 0 ≤ u ∧ i + u ≤ Z.of_nat (length results) ∧
    (Forall (λ r, is_Some (ir_Job r)) results → i + u = Z.of_nat (length results)).
Proof.
  unfold finishEvent. eexists _, _. split; [done|]. split_and!; [lia|lia|..].
  all: induction results as [|r l IH]; simpl; [lia|]; rewrite !filter_cons.
  - case_decide as H1; case_decide as H2; simpl in *; try lia. destruct H1. congruence.
  - intros [Hs Hl]%Forall_cons. specialize (IH Hl).
    case_decide as H1; case_decide as H2; simpl in *; try lia; [destruct H1; congruence|].
    exfalso. destruct (ir_UniqueSkip r) eqn:E; naive_solver.
Qed.
End entry.

(** ** Queue-depth admission *)

Section admission.
Context {S : Type} `{MapRange} (a : QueueDepthAdmission S).

(** How many jobs of a request go to a queue. *)
Definition incoming (queue : string) (jobs : list JobInsertParams) : Z :=
  Z.of_nat (length (filter (λ p, ip_Queue p = queue) jobs)).

Definition limitOf (queue : string) : Z := default 0 (qa_MaxActive a !! queue).

Lemma countIncoming_from jobs : ∀ (m : gmap string Z) queue,
  foldl (λ m p, <[ip_Queue p := default 0 (m !! ip_Queue p) + 1]> m) m jobs !! queue =
    if decide (incoming queue jobs = 0) then m !! queue else Some (default 0 (m !! queue) + incoming queue jobs).
Proof.
  unfold incoming. induction jobs as [|p jobs IH]; intros m queue; simpl; [done|]. rewrite IH, !filter_cons. cbv beta.
  destruct (decide (ip_Queue p = queue)) as [<-|Hne].
  - rewrite lookup_insert_eq. csimpl.
    repeat case_decide; try (f_equal; lia); lia.
  - rewrite lookup_insert_ne by done. done.
Qed.

Lemma elem_of_incoming jobs queue n :
  (queue, n) ∈ range_map (countIncoming jobs) ↔ n = incoming queue jobs ∧ 0 < n.
Proof.
  rewrite elem_of_range. unfold countIncoming. rewrite countIncoming_from, lookup_empty. simpl.
  case_decide as Hz; split; intros Hn; simplify_eq; try lia.
  - unfold incoming in *. split; [done|]. lia.
  - by destruct Hn as [-> _].
Qed.

Lemma admitLoop_None s l : admitLoop a s l = None ↔ ∀ queue n, (queue, n) ∈ l → admitQueue a s queue n = None.
Proof.
  induction l as [|[queue n] l IH]; simpl; [set_solver|]. split.
  - destruct (admitQueue a s queue n) eqn:E; [done|]. intros Hl queue' n' [[= -> ->]|Hin]%elem_of_cons; [done|].
    by apply IH.
  - intros Hall. rewrite (Hall queue n) by set_solver. apply IH. set_solver.
Qed.

Lemma admitLoop_Some s l e : admitLoop a s l = Some e → ∃ queue n, (queue, n) ∈ l ∧ admitQueue a s queue n = Some e.
Proof.
  induction l as [|[queue n] l IH]; simpl; [done|]. destruct (admitQueue a s queue n) eqn:E.
  - intros [= <-]. exists queue, n. set_solver.
  - intros (q & k & Hin & Hq)%IH. exists q, k. set_solver.
Qed.

(** The decision: everything fits, whatever the order of the checks. *)
Lemma Admit_None s jobs tx :
  Admit a s (mkAdmissionRequest jobs tx) = None ↔
    ∀ queue, 0 < incoming queue jobs → 0 < limitOf queue →
      ∃ stats, qa_stats a s queue = Ok stats ∧ wrap64 (activeJobs stats + incoming queue jobs) ≤ limitOf queue.
Proof.
  unfold Admit. rewrite admitLoop_None. simpl. unfold admitQueue, limitOf. split.
  - intros Hall queue Hn Hl. specialize (Hall queue (incoming queue jobs)).
    rewrite elem_of_incoming in Hall. specialize (Hall (conj eq_refl Hn)).
    rewrite (proj2 (Z.leb_gt _ 0)) in Hall by lia. destruct (qa_stats a s queue) as [stats|e]; [|done].
    exists stats. split; [done|]. by split_ifs; bool_to_prop.
  - intros Hall queue n [-> Hn]%elem_of_incoming. destruct (_ <=? 0) eqn:El; [done|]. bool_to_prop.
    destruct (Hall queue Hn El) as (stats & -> & Hle). by rewrite (proj2 (Z.ltb_ge _ _)).
Qed.

(** A rejection names a queue that is really over its limit. *)
Lemma Admit_Some s jobs tx e :
  Admit a s (mkAdmissionRequest jobs tx) = Some e →
  ∃ queue, 0 < incoming queue jobs ∧ 0 < limitOf queue ∧
    match qa_stats a s queue with
    | Ok stats => limitOf queue < wrap64 (activeJobs stats + incoming queue jobs) ∧
        e = EQueueFull queue (activeJobs stats) (incoming queue jobs) (limitOf queue) ∧
        errorsIs e ErrAdmissionRejected = true
    | Err e' => e = EWrap ("admission stats for queue " +:+ quoted queue +:+ ": ") e' ""
    end.
Proof.
  unfold Admit. intros (queue & n & [-> Hn]%elem_of_incoming & Hq)%admitLoop_Some.
  exists queue. unfold admitQueue in Hq. split; [done|]. fold (limitOf queue) in Hq. simpl in Hq.
  destruct (limitOf queue <=? 0) eqn:El; [done|]. bool_to_prop. split; [done|].
  destruct (qa_stats a s queue) as [stats|e']; [|by simplify_eq].
  destruct (limitOf queue <? _) eqn:E; [|done]. bool_to_prop. by simplify_eq.
Qed.
End admission.
