(* ===== verification/MemoryClient.v ===== *)
(** * The client on the memory backend

    The memory driver as the store of a client; queue-depth admission keeps
    every limit there when nothing else writes in between; and the concrete
    runs that witness the theorems of ClientProps.v. *)

From S2P Require Import Prelude GoBase Json Codec Core CoreProps Driver Memory MemoryInv MemoryFetch MemoryProps.
From S2P Require Import MemoryKeys MemoryLeases Sha256 Client ClientProps.
From Stdlib Require Import ZArith Lia.

Section instance.
Context `{MapRange}.

Definition insertedOf (r : Driver * result (list JobInsertResult)) : Driver * inserted :=
  (r.1, match r.2 with Ok rs => (rs, None) | Err e => ([], Some e) end).

(** [UnwrapTx] ignores the transaction: it returns the same executor. *)
#[export] Instance memoryEnqueueStore : EnqueueStore Driver unit := {|
  es_Name := Name;
  es_Capabilities := MemoryCapabilities;
  es_JobInsertMany d ps := insertedOf (JobInsertMany d ps);
  es_JobInsertManyTx _ d ps := insertedOf (JobInsertMany d ps);
  es_JobCancel d id := let '(d', r) := JobCancel d id in
    (d', match r with Ok _ => None | Err e => Some e end);
  es_QueueStats := Some (λ d queue, Ok (QueueStatsOf d queue))
|}.

Definition memoryDepthAdmission (limits : gmap string Z) : QueueDepthAdmission Driver :=
  mkQueueDepthAdmission (λ d queue, Ok (QueueStatsOf d queue)) limits.

(** ** The active jobs of a queue *)

Definition isActive (row : JobRow) : bool :=
  bool_decide (State row = JobStateAvailable) || bool_decide (State row = JobStateScheduled)
  || bool_decide (State row = JobStateRetryable) || bool_decide (State row = JobStateRunning).

Definition activeIn (queue : string) (rows : list JobRow) : Z :=
  Z.of_nat (length (filter (λ row, Queue row = queue ∧ isActive row = true) rows)).

Definition depth (d : Driver) (queue : string) : Z := activeIn queue (AllJobs d).

Lemma activeIn_cons queue row rows :
  activeIn queue (row :: rows) =
    (if bool_decide (Queue row = queue) && isActive row then 1 else 0) + activeIn queue rows.
Proof.
  unfold activeIn. rewrite filter_cons. case_bool_decide; case_decide; destruct (isActive row); simpl; try lia; naive_solver.
Qed.

Lemma activeIn_bound queue rows : 0 ≤ activeIn queue rows ≤ Z.of_nat (length rows).
Proof. unfold activeIn. split; [lia|]. apply inj_le. apply length_filter. Qed.

Lemma activeIn_app queue l1 l2 : activeIn queue (l1 ++ l2) = activeIn queue l1 + activeIn queue l2.
Proof. unfold activeIn. rewrite filter_app, length_app. lia. Qed.

Lemma activeIn_perm queue l1 l2 : l1 ≡ₚ l2 → activeIn queue l1 = activeIn queue l2.
Proof. unfold activeIn. by intros ->. Qed.

(** The sum of the four figures is the number of active jobs. *)
Lemma four_states queue rows :
  Z.of_nat (length (filter (λ row, Queue row = queue ∧ State row = JobStateAvailable) rows)) +
  Z.of_nat (length (filter (λ row, Queue row = queue ∧ State row = JobStateScheduled) rows)) +
  Z.of_nat (length (filter (λ row, Queue row = queue ∧ State row = JobStateRetryable) rows)) +
  Z.of_nat (length (filter (λ row, Queue row = queue ∧ State row = JobStateRunning) rows)) =
  activeIn queue rows.
Proof.
  induction rows as [|row rows IH]; [done|]. rewrite activeIn_cons, <-IH, !filter_cons. cbv beta.
  unfold isActive. destruct (decide (Queue row = queue)) as [Hq|Hq].
  - rewrite (bool_decide_eq_true_2 (Queue row = queue)) by done. repeat case_bool_decide;
      repeat (case_decide; [|]); simpl; try lia; try naive_solver; exfalso; unfold JobStateAvailable, JobStateScheduled,
      JobStateRetryable, JobStateRunning in *; naive_solver congruence.
  - rewrite bool_decide_eq_false_2, !decide_False by naive_solver. simpl. lia.
Qed.

Lemma activeJobs_depth d queue : depth d queue < 2 ^ 63 → activeJobs (QueueStatsOf d queue) = depth d queue.
Proof.
  intros Hb. unfold activeJobs, QueueStatsOf.
  destruct (count_rows_spec queue (AllJobs d) (mkQueueStats queue ∅ 0)) as (_ & _ & E).
  rewrite !E. unfold stat at 1 2 3 4. simpl. rewrite !lookup_empty. simpl.
  transitivity (wrap64 (depth d queue)); [f_equal; unfold depth; rewrite <-four_states; lia|]. apply wrap64_id.
  pose proof (activeIn_bound queue (AllJobs d)). unfold is_int64, int64_min, int64_max. fold (depth d queue) in *. lia.
Qed.

(** ** What an insert adds *)

Lemma AllJobs_inserted d' (m : gmap string JobRow) fresh :
  d_jobs d' = foldl (λ m row, <[ID row := row]> m) m fresh →
  NoDup (ID <$> fresh) → (∀ row, row ∈ fresh → m !! ID row = None) →
  AllJobs d' ≡ₚ fresh ++ (map_to_list m).*2.
Proof.
  unfold AllJobs. rewrite range_map_perm. intros ->. revert m.
  induction fresh as [|row fresh IH]; intros m Hnd Hn; [done|]. simpl in *.
  apply NoDup_cons in Hnd as [Hrow Hnd]. rewrite IH; [|done|].
  - rewrite map_to_list_insert by (apply Hn; set_solver). simpl. by rewrite Permutation_middle.
  - intros row' Hr. rewrite lookup_insert_ne; [apply Hn; set_solver|].
    intros He. apply Hrow. rewrite He. by apply list_elem_of_fmap_2.
Qed.

Lemma fresh_incoming d d' ps rs queue :
  Forall2 (insert_result_ok d d') ps rs → activeIn queue (freshRows rs) ≤ incoming queue ps.
Proof.
  induction 1 as [|p r ps rs (row & Er & _ & Hc) _ IH]; [done|].
  rewrite freshRows_cons, activeIn_app. unfold incoming in *. rewrite filter_cons.
  unfold freshRows at 1. simpl. destruct (ir_UniqueSkip r); simpl.
  - case_decide; simpl; unfold activeIn at 1; simpl; lia.
  - rewrite Er. simpl. destruct Hc as [_ Hrow]. rewrite activeIn_cons. unfold activeIn at 1. simpl.
    assert (Queue row = ip_Queue p) as -> by (by rewrite Hrow).
    case_bool_decide; case_decide; try done; destruct (isActive row); simpl; lia.
Qed.

Lemma insertMany_depth k d ps d' r queue :
  jobs_inv k d → k + Z.of_nat (length ps) < 2 ^ 63 → JobInsertMany d ps = (d', r) →
  depth d' queue ≤ depth d queue + incoming queue ps.
Proof.
  intros Hi Hb Hr. destruct (insertMany_spec ps k d d' r Hi Hb Hr) as (rs & -> & Hall & Hm & Hnd & Hn & _).
  unfold depth. rewrite (activeIn_perm _ _ _ (AllJobs_inserted d' _ _ Hm Hnd Hn)), activeIn_app.
  assert (activeIn queue (map_to_list (d_jobs d)).*2 = activeIn queue (AllJobs d)) as ->.
  { apply activeIn_perm. unfold AllJobs. by rewrite range_map_perm. }
  pose proof (fresh_incoming d d' ps rs queue Hall). lia.
Qed.

Lemma size_list_to_set_le (l : list string) : (size (list_to_set l : gset string) ≤ length l)%nat.
Proof.
  induction l as [|x l IH]; [done|]. simpl. rewrite size_union_alt, size_singleton.
  assert (size ((list_to_set l : gset string) ∖ {[x]}) ≤ size (list_to_set l : gset string))%nat
    by (apply subseteq_size; set_solver). lia.
Qed.

(** There are never more jobs than ids handed out. *)
Lemma jobs_bounded k d : jobs_inv k d → Z.of_nat (length (AllJobs d)) ≤ k.
Proof.
  intros Hi. unfold AllJobs. rewrite length_fmap, range_map_perm, length_map_to_list, <-size_dom.
  pose proof (ji_seq _ _ Hi) as Hs. set (ids := list_to_set (jobID <$> seqZ 1 (d_seq d)) : gset string).
  assert (dom (d_jobs d) ⊆ ids) as Hsub.
  { intros id [row Hrow]%elem_of_dom. destruct (ji_fresh _ _ Hi _ _ Hrow) as (n & Hn & ->).
    apply elem_of_list_to_set, list_elem_of_fmap_2, elem_of_seqZ. lia. }
  apply subseteq_size in Hsub. etrans; [apply inj_le, Hsub|]. unfold ids.
  etrans; [apply inj_le, size_list_to_set_le|]. rewrite length_fmap, length_seqZ. lia.
Qed.

(** ** The limits hold *)

Lemma emit_store {S} (cfg : ClientConfig S) ev (e : Env (S := S)) : en_store (emit cfg ev e) = en_store e.
Proof. unfold emit. by destruct (cl_Observer cfg). Qed.

(** C24: queue-depth admission is exact when nobody else writes.  On a memory
    backend reached by any history, a batch that passed its argument checks is
    inserted iff every limited queue it feeds has room for all of the jobs the
    batch sends there; no queue is over its limit afterwards; and a rejection
    satisfies [errors.Is(err, ErrAdmissionRejected)] and leaves the store as it
    was.  The order in which the queues are checked does not matter. *)
Theorem queue_depth_respected cfg limits ops c e e' rs err reqs clk' ps :
  cl_Admission cfg = Some (Admit (memoryDepthAdmission limits)) →
  en_store e = w_driver (run ops (init_world c)) →
  total_cost ops + Z.of_nat (length ps) < 2 ^ 63 →
  builds cfg reqs (en_clk e) clk' ps →
  EnqueueBatch cfg reqs e = (e', (rs, err)) →
  let fits queue := limitOf (memoryDepthAdmission limits) queue <= 0 ∨ incoming queue ps = 0 ∨
    depth (en_store e) queue + incoming queue ps ≤ limitOf (memoryDepthAdmission limits) queue in
  (err = None ↔ ∀ queue, fits queue) ∧
  (err = None → ∀ queue, 0 < limitOf (memoryDepthAdmission limits) queue → 0 < incoming queue ps →
     depth (en_store e') queue ≤ limitOf (memoryDepthAdmission limits) queue) ∧
  (∀ e0, err = Some e0 → errorsIs e0 ErrAdmissionRejected = true ∧ en_store e' = en_store e ∧ rs = []).
Proof.
  intros Hadm Hst Hb Hps Hrun fits.
  destruct (run_inv ops c) as [Hj _]; [lia|]. rewrite <-Hst in Hj.
  assert (∀ queue, 0 < incoming queue ps → activeJobs (QueueStatsOf (en_store e) queue) = depth (en_store e) queue ∧
    wrap64 (depth (en_store e) queue + incoming queue ps) = depth (en_store e) queue + incoming queue ps) as Hdepth.
  { intros queue _. pose proof (jobs_bounded _ _ Hj) as Hn.
    pose proof (activeIn_bound queue (AllJobs (en_store e))) as Hd. fold (depth (en_store e) queue) in Hd.
    assert (incoming queue ps ≤ Z.of_nat (length ps)) by (apply inj_le, length_filter).
    assert (0 ≤ incoming queue ps) by (unfold incoming; lia).
    split; [apply activeJobs_depth; lia|apply wrap64_id; unfold is_int64, int64_min, int64_max; lia]. }
  assert (buildAll cfg reqs (en_clk e) = (clk', Ok ps)) as Hbuild.
  { clear -Hps. induction Hps as [|? ? ? ? ? ? ? ? E ? IH]; simpl; [done|]. by rewrite E, IH. }
  assert (admitBatch cfg (en_store e) ps false = None ↔ ∀ queue, fits queue) as Hiff.
  { unfold admitBatch. rewrite Hadm. destruct ps as [|p ps'].
    { split; [|done]. intros _ queue. right. left. done. }
    set (q := p :: ps') in *. transitivity (Admit (memoryDepthAdmission limits) (en_store e) (mkAdmissionRequest q false) = None).
    { destruct (Admit _ _ _); naive_solver. }
    rewrite Admit_None. split.
    - intros Hall queue. destruct (decide (0 < limitOf (memoryDepthAdmission limits) queue)); [|left; lia].
      destruct (decide (0 < incoming queue q)) as [Hin|]; [|right; left; unfold incoming in *; lia].
      destruct (Hall queue) as (stats & [= <-] & Hle); [done..|]. destruct (Hdepth queue Hin) as [E1 E2].
      rewrite E1, E2 in Hle. by right; right.
    - intros Hall queue Hin Hl. eexists. split; [done|]. destruct (Hdepth queue Hin) as [-> ->].
      destruct (Hall queue) as [?|[?|?]]; lia. }
  unfold EnqueueBatch, enqueueAll in Hrun. rewrite Hbuild in Hrun. unfold submitMany in Hrun. cbn [en_store isTx] in Hrun.
  destruct (admitBatch cfg (en_store e) ps false) as [e0|] eqn:Ea.
  - unfold refuse in Hrun. simplify_eq/=. split_and!; [naive_solver|done|]. intros e1 [= <-].
    split_and!; [|done|done]. unfold admitBatch in Ea. rewrite Hadm in Ea. destruct ps as [|p ps']; [done|].
    destruct (Admit _ _ _) as [e1|] eqn:E; [|done]. simplify_eq. simpl.
    apply Admit_Some in E as (queue & _ & _ & _ & _ & He). done.
  - cbn [doInsert] in Hrun. unfold es_JobInsertMany, memoryEnqueueStore, insertedOf in Hrun.
    rewrite emit_store in Hrun. cbn [en_store] in Hrun.
    destruct (JobInsertMany (en_store e) ps) as [d2 r2] eqn:Ei. cbn [fst snd] in Hrun.
    destruct (insertMany_spec ps _ _ _ _ Hj Hb Ei) as (rs2 & -> & _). simplify_eq/=.
    split_and!; [naive_solver| |done]. intros _ queue Hl Hin.
    rewrite emit_store. cbn [en_store].
    pose proof (insertMany_depth _ _ _ _ _ queue Hj Hb Ei).
    destruct (proj1 Hiff eq_refl queue) as [?|[?|?]]; lia.
Qed.
End instance.

(** ** Witnesses *)

Definition demoArgs : JobArgs :=
  mkJobArgs "email" (Ok (JObj [("user", JNum "42"); ("note", JStr "a b")])) (Some 2).
Definition demoUnique : UniqueOpts := mkUniqueOpts true "" true Minute false.
Definition demoOpts : InsertOpts := mkInsertOpts "mail" 5 0 (Some demoUnique) (Some 3) None [] "" 0.

(** Strings that are not UTF-8 share their key. *)
Example invalid_keys_shared :
  let opts key := mkUniqueOpts false key false 0 false in
  buildUniqueKey demoArgs "mail" (opts (String (chr 255) "")) unixEpoch = buildUniqueKey demoArgs "mail" (opts (String (chr 254) "")) unixEpoch.
Proof. vm_compute. reflexivity. Qed.

(** Two requests of the same minute share their key. *)
Lemma unique_key_identifies_witness :
  buildUniqueKey demoArgs "mail" demoUnique (unixEpoch + 5 * Second) =
  buildUniqueKey demoArgs "mail" demoUnique (unixEpoch + 59 * Second).
Proof.
  assert (wfMarshal demoArgs) as Hw by (intros j [= <-]; reflexivity).
  destruct (buildUniqueKey demoArgs "mail" demoUnique (unixEpoch + 5 * Second)) as [k1|] eqn:E1; [|vm_compute in E1; discriminate].
  destruct (buildUniqueKey demoArgs "mail" demoUnique (unixEpoch + 59 * Second)) as [k2|] eqn:E2; [|vm_compute in E2; discriminate].
  destruct (unique_key_identifies _ _ _ _ _ _ _ _ _ _ Hw Hw E1 E2) as (x & y & _ & _ & _ & _ & Hsame & _).
  f_equal. apply Hsame; [reflexivity|vm_compute; reflexivity].
Defined.

Definition demoClient (limits : gmap string Z) : ClientConfig Driver :=
  mkClientConfig "default" (Some (frozenClock unixEpoch)) None true
    (Some (Admit (H := map_to_list_range) (memoryDepthAdmission (H := map_to_list_range) limits))).

Definition demoRawOf (p : JobInsertParams) : RawJob :=
  mkRawJob "mem_1" (ip_Queue p) (ip_Kind p) (ip_Args p) 1 3 0 0 "w" [] "" 0.

Lemma enqueued_args_reach_handler_witness : ∃ clk' p,
  buildInsertParams (demoClient ∅) (Some demoArgs) (Some demoOpts) (frozenClock unixEpoch) = (clk', Ok p) ∧
  (Process (RegisterWorker ∅ "email" (λ s, Ok s) (λ _ job, Returns (Some (ENew (job_Args job)))) demoWorkerOpts)
      CtxBackground (demoRawOf p)).2 =
    Returns (Some (ENew (print (JObj [("wrapped", JObj [("user", JNum "42"); ("note", JStr "a b")])])))).
Proof.
  destruct (buildInsertParams (demoClient ∅) (Some demoArgs) (Some demoOpts) (frozenClock unixEpoch))
    as [clk' [p|e]] eqn:E; [|vm_compute in E; discriminate].
  exists clk', p. split; [reflexivity|].
  rewrite (enqueued_args_reach_handler (demoClient ∅) demoArgs (Some demoOpts) (frozenClock unixEpoch) clk' p
    (JObj [("user", JNum "42"); ("note", JStr "a b")]) ∅ (λ s : string, Ok s) (λ _ job, Returns (Some (ENew (job_Args job))))
    demoWorkerOpts CtxBackground (demoRawOf p) (print (JObj [("wrapped", JObj [("user", JNum "42"); ("note", JStr "a b")])]))
    (print (JObj [("wrapped", JObj [("user", JNum "42"); ("note", JStr "a b")])])) E); try reflexivity.
  - vm_compute. split; discriminate.
  - intros Hv. vm_compute in Hv. discriminate Hv.
  - vm_compute. discriminate.
  - eapply (upcasts_step demoWorkerOpts 3 2); [reflexivity|reflexivity| |].
    + vm_compute. reflexivity.
    + constructor.
Defined.

Definition demoRequests : list (option JobArgs * option InsertOpts) :=
  [(Some demoArgs, Some demoOpts); (Some (mkJobArgs "sms" (Ok (JObj [])) None), None)].

Definition demoEnv : Env (S := Driver) := mkEnv (New (frozenClock unixEpoch)) (frozenClock unixEpoch) [].

Lemma batch_all_or_nothing_witness :
  let '(e', out) := enqueueAll (H := memoryEnqueueStore (H := map_to_list_range)) (demoClient ∅) None demoRequests demoEnv in
  ∃ ps, builds (demoClient ∅) demoRequests (en_clk demoEnv) (en_clk e') ps ∧ length ps = 2%nat ∧
    length (en_events e') = 2%nat.
Proof.
  destruct (enqueueAll (H := memoryEnqueueStore (H := map_to_list_range)) (demoClient ∅) None demoRequests demoEnv) as [e' out] eqn:E.
  destruct (batch_all_or_nothing (H := memoryEnqueueStore (H := map_to_list_range)) (demoClient ∅) tt demoRequests demoEnv e' out)
    as (_ & _ & Hb).
  destruct (Hb None E) as [(err & _ & Ho & _)|(ps & Hps & _ & _ & Hev)].
  - rewrite Ho in E. vm_compute in E. discriminate E.
  - exists ps. split; [exact Hps|]. split.
    + inversion Hps as [|? ? ? ? ? ? ? ? ? Hr]; subst. inversion Hr as [|? ? ? ? ? ? ? ? ? Hr']; subst. by inversion Hr'.
    + rewrite Hev. reflexivity.
Defined.

(** A limit of one: the second of two jobs for the queue makes the batch too large. *)
Lemma queue_depth_respected_witness :
  let reqs := [(Some demoArgs, Some demoOpts); (Some (mkJobArgs "sms" (Ok (JObj [])) None), Some (mkInsertOpts "mail" 0 0 None None None [] "" 0))] in
  ∃ e0, (EnqueueBatch (H := memoryEnqueueStore (H := map_to_list_range)) (demoClient {[ "mail" := 1 ]}) reqs demoEnv).2 = ([], Some e0) ∧
    errorsIs e0 ErrAdmissionRejected = true.
Proof.
  cbv zeta. set (reqs := [_; _]).
  destruct (buildAll (demoClient {[ "mail" := 1 ]}) reqs (en_clk demoEnv)) as [clk' [ps|e]] eqn:Eb;
    [|vm_compute in Eb; discriminate].
  destruct (EnqueueBatch (H := memoryEnqueueStore (H := map_to_list_range)) (demoClient {[ "mail" := 1 ]}) reqs demoEnv)
    as [e' [rs err]] eqn:E.
  pose proof (buildAll_spec (demoClient {[ "mail" := 1 ]}) reqs _ _ _ Eb) as Hps.
  destruct (queue_depth_respected (H := map_to_list_range) (demoClient {[ "mail" := 1 ]}) {[ "mail" := 1 ]} []
    (frozenClock unixEpoch) demoEnv e' rs err reqs clk' ps eq_refl eq_refl) as (_ & _ & Hrej); [|exact Hps|exact E|].
  - vm_compute in Eb. injection Eb as <- <-. reflexivity.
  - destruct err as [e0|].
    + exists e0. destruct (Hrej e0 eq_refl) as (Hi & _ & ->). split; [reflexivity|exact Hi].
    + vm_compute in E. discriminate E.
Defined.
