(* ===== verification/Cron.v ===== *)
(** * cron.go: the periodic scheduler

    A tick of the scheduler is a program: a tree whose inner nodes are the calls
    it makes (to the store, the client, the clock, the error handler) and whose
    branches are the answers.  So one definition of the code serves a scheduler
    that runs alone ([perform] all of it) and any number of schedulers whose calls
    interleave ([perform] the next call of one of them).  Schedules are functions;
    [Args] is never nil here.  How a [time.Time] is printed in an error is the
    argument [timeString]. *)

From S2P Require Import Prelude GoBase Json Codec Core Driver Sha256 Client RateLimit.
From Stdlib Require Import ZArith Lia.

(** ** Programs *)

Inductive cronCall :=
| CNow
| CElect (params : LeaderElectParams)
| CResign (params : LeaderResignParams)
| CGetOrCreate (params : ScheduleCursorCreateParams)
| CAdvance (params : ScheduleCursorAdvanceParams)
| CEnqueue (args : JobArgs) (opts : option InsertOpts)
| CReport (err : error).

Definition answer (c : cronCall) : Type :=
  match c with
  | CNow => Instant
  | CElect _ => result bool
  | CResign _ => option error
  | CGetOrCreate _ => result ScheduleCursorResult
  | CAdvance _ => result bool
  | CEnqueue _ _ => result JobInsertResult
  | CReport _ => unit
  end.

Inductive prog (A : Type) : Type :=
| Ret (a : A)
| Call (c : cronCall) (k : answer c → prog A).
Arguments Ret {A}.
Arguments Call {A}.

#[export] Instance prog_ret : MRet prog := λ A, @Ret A.
#[export] Instance prog_bind : MBind prog := λ A B f, fix bind p :=
  match p with
  | Ret a => f a
  | Call c k => Call c (λ x, bind (k x))
  end.

Definition call (c : cronCall) : prog (answer c) := Call c Ret.
Definition report (err : error) : prog unit := call (CReport err).

(** ** Types *)

Definition CronCatchUpAll : Z := 0.
Definition CronCatchUpLatest : Z := 1.
Definition CronSkipMissed : Z := 2.

Record PeriodicJob := mkPeriodicJob {
  pj_ID : string;
  pj_Schedule : option Schedule;
  pj_Args : JobArgs;
  pj_Opts : option InsertOpts;
  pj_StartAt : Instant;
  pj_CatchUp : Z;              (* a uint8 *)
  pj_MaxCatchUp : Z
}.

Record CronConfig := mkCronConfig {
  cg_TickInterval : Duration;
  cg_Clock : option Clock;
  cg_LeaderName : string;
  cg_WorkerID : string;
  cg_LeaderTTL : Duration;
  cg_MaxCatchUp : Z
}.

Record cronEntry := mkCronEntry {
  ce_job : PeriodicJob;
  ce_lastRun : Instant
}.

Record CronScheduler (S : Type) := mkCronScheduler {
  sc_client : ClientConfig S;
  sc_entries : list cronEntry;
  sc_config : CronConfig;
  sc_configErr : option error
}.
Arguments mkCronScheduler {S}.
Arguments sc_client {S}.
Arguments sc_entries {S}.
Arguments sc_config {S}.
Arguments sc_configErr {S}.

(** ** Validation *)

(** What is wrong with one job, given the IDs seen before it. *)
Definition periodicProblem (seenIDs : gset string) (job : PeriodicJob) : option error :=
  let id := quoted (pj_ID job) in
  match pj_Schedule job with
  | None => Some (ENew ("periodic job " +:+ id +:+ " has no schedule"))
  | Some _ =>
      if bool_decide (pj_ID job = "") then None
      else if IsZero (pj_StartAt job) then Some (ENew ("periodic job " +:+ id +:+ " requires StartAt for durable scheduling"))
      else if CronSkipMissed <? pj_CatchUp job
      then Some (ENew ("periodic job " +:+ id +:+ " has invalid catch-up policy " +:+ FormatInt (pj_CatchUp job)))
      else if pj_MaxCatchUp job <? 0 then Some (ENew ("periodic job " +:+ id +:+ " has negative MaxCatchUp"))
      else if bool_decide (pj_ID job ∈ seenIDs) then Some (ENew ("duplicate periodic job ID " +:+ id))
      else None
  end.

Fixpoint periodicProblems (seenIDs : gset string) (jobs : list PeriodicJob) : option error :=
  match jobs with
  | [] => None
  | job :: rest =>
      match periodicProblem seenIDs job with
      | Some err => Some err
      | None => periodicProblems (if bool_decide (pj_ID job = "") then seenIDs else {[pj_ID job]} ∪ seenIDs) rest
      end
  end.

Definition ValidateCronConfig (name : string) (caps : Capabilities) (jobs : list PeriodicJob) (cfg : CronConfig) : option error :=
  if negb (LinearizableLeases caps)
  then Some (ENew ("cron scheduling requires linearizable leases, unsupported by driver " +:+ quoted name))
  else
    match periodicProblems ∅ jobs with
    | Some err => Some err
    | None =>
        if (cg_TickInterval cfg <? 0) || (cg_LeaderTTL cfg <? 0) || (cg_MaxCatchUp cfg <? 0)
        then Some (ENew "cron durations and MaxCatchUp must not be negative")
        else None
    end.

(** ** Construction *)

Definition normalizeCron (randomID : string) (realClock : Clock) (cfg : CronConfig) : CronConfig :=
  mkCronConfig
    (if cg_TickInterval cfg <=? 0 then Second else cg_TickInterval cfg)
    (match cg_Clock cfg with None => Some realClock | c => c end)
    (if bool_decide (cg_LeaderName cfg = "") then "goncordia-cron" else cg_LeaderName cfg)
    (if bool_decide (cg_WorkerID cfg = "") then randomID else cg_WorkerID cfg)
    (if cg_LeaderTTL cfg <=? 0 then 30 * Second else cg_LeaderTTL cfg)
    (if cg_MaxCatchUp cfg <=? 0 then 100 else cg_MaxCatchUp cfg).

Definition newCronScheduler {S} (name : string) (caps : Capabilities) (randomID : string) (realClock : Clock)
    (jobs : list PeriodicJob) (cfg : CronConfig) : CronScheduler S :=
  let configErr := ValidateCronConfig name caps jobs cfg in
  let cfg := normalizeCron randomID realClock cfg in
  mkCronScheduler (NewClient realClock (mkClientConfig "" (cg_Clock cfg) None false None))
    ((λ job, mkCronEntry job zeroTime) <$> jobs) cfg configErr.

Definition NewCronSchedulerChecked {S} (name : string) (caps : Capabilities) (randomID : string) (realClock : Clock)
    (jobs : list PeriodicJob) (cfg : CronConfig) : result (CronScheduler S) :=
  let scheduler := newCronScheduler name caps randomID realClock jobs cfg in
  match sc_configErr scheduler with Some err => Err err | None => Ok scheduler end.

(** ** Durable schedules *)

Definition durableScheduleCursorID (group id : string) : string :=
  "c1_" +:+ hexBytes (Sum256 (group +:+ nul +:+ id)).

Definition scanLimit : nat := N.to_nat 100000.

Inductive scanned :=
| NoAdvance (cursor : Instant)                       (* the schedule did not advance *)
| Scanned (due : list Instant) (scanComplete : bool).

(** The search for due occurrences, [limit] rounds at most. *)
Fixpoint scan (next : Schedule) (now : Instant) (enough : list Instant → bool) (limit : nat) (cursor : Instant)
    (due : list Instant) : scanned :=
  match limit with
  | O => Scanned due false
  | S limit' =>
      let t := next cursor in
      if IsZero t || negb (After t cursor) then NoAdvance cursor
      else if After t now then Scanned due true
      else
        let due := due ++ [t] in
        if enough due then Scanned due false else scan next now enough limit' t due
  end.

Section scheduler.
Context (timeString : Instant → string) (config : CronConfig).

Definition maxCatchUp (job : PeriodicJob) : Z :=
  if 0 <? pj_MaxCatchUp job then pj_MaxCatchUp job else cg_MaxCatchUp config.

Definition occurrenceKey (job : PeriodicJob) (occurrence : Instant) : string :=
  "cron:" +:+ cg_LeaderName config +:+ ":" +:+ pj_ID job +:+ ":" +:+ FormatInt (UnixNano (UTC occurrence)).

Definition emptyOpts : InsertOpts := mkInsertOpts "" 0 zeroTime None None None [] "" 0.

Definition occurrenceOpts (job : PeriodicJob) (occurrence : Instant) : InsertOpts :=
  let opts := default emptyOpts (pj_Opts job) in
  mkInsertOpts (io_Queue opts) (io_Priority opts) (io_RunAt opts)
    (Some (mkUniqueOpts false (occurrenceKey job occurrence) false 0 true))
    (io_MaxRetry opts) (io_Timeout opts) (io_Tags opts) (io_PipelineID opts) (io_PayloadVersion opts).

Definition enqueueOccurrence (job : PeriodicJob) (occurrence : Instant) : prog bool :=
  r ← call (CEnqueue (pj_Args job) (Some (occurrenceOpts job occurrence)));
  match r with
  | Err err =>
      _ ← report (EWrap ("enqueue periodic job " +:+ quoted (pj_ID job) +:+ " occurrence " +:+ timeString occurrence +:+ ": ") err "");
      mret false
  | Ok _ => mret true
  end.

Definition advanceCursor (jobID cursorID : string) (expected next : Instant) : prog bool :=
  r ← call (CAdvance (mkScheduleCursorAdvanceParams cursorID (UTC expected) (UTC next)));
  match r with
  | Err err => _ ← report (EWrap ("advance periodic cursor " +:+ quoted jobID +:+ ": ") err ""); mret false
  | Ok advanced => mret advanced
  end.

(** The default policy: every due occurrence, the cursor moved past each. *)
Fixpoint catchUp (job : PeriodicJob) (cursorID : string) (expected : Instant) (due : list Instant) : prog unit :=
  match due with
  | [] => mret tt
  | occurrence :: rest =>
      ok ← enqueueOccurrence job occurrence;
      if negb ok then mret tt
      else
        ok ← advanceCursor (pj_ID job) cursorID expected occurrence;
        if negb ok then mret tt else catchUp job cursorID occurrence rest
  end.

(** What a tick does with the due occurrences. *)
Definition applyDue (job : PeriodicJob) (cursorID : string) (now original : Instant) (due : list Instant) : prog unit :=
  match last due with
  | None => mret tt
  | Some latest =>
      if pj_CatchUp job =? CronCatchUpLatest then
        ok ← enqueueOccurrence job latest;
        if negb ok then mret tt
        else _ ← advanceCursor (pj_ID job) cursorID original latest; mret tt
      else if pj_CatchUp job =? CronSkipMissed then
        ok ← (if Sub now latest <=? cg_TickInterval config then enqueueOccurrence job latest else mret true);
        if negb ok then mret tt
        else _ ← advanceCursor (pj_ID job) cursorID original latest; mret tt
      else catchUp job cursorID original due
  end.

Definition tickDurable (next : Schedule) (job : PeriodicJob) (now : Instant) : prog unit :=
  let cursorID := durableScheduleCursorID (cg_LeaderName config) (pj_ID job) in
  r ← call (CGetOrCreate (mkScheduleCursorCreateParams cursorID (UTC (pj_StartAt job))));
  match r with
  | Err err => report (EWrap ("load periodic cursor " +:+ quoted (pj_ID job) +:+ ": ") err "")
  | Ok cursorResult =>
      let original := cr_At cursorResult in
      let enough due := (pj_CatchUp job =? CronCatchUpAll) && (maxCatchUp job <=? Z.of_nat (length due)) in
      match scan next now enough scanLimit original [] with
      | NoAdvance cursor =>
          report (ENew ("periodic job " +:+ quoted (pj_ID job) +:+ " schedule did not advance after " +:+ timeString cursor))
      | Scanned due scanComplete =>
          if negb scanComplete && negb (pj_CatchUp job =? CronCatchUpAll)
          then report (ENew ("periodic job " +:+ quoted (pj_ID job) +:+ " exceeded 100000 missed occurrences; move StartAt forward"))
          else applyDue job cursorID now original due
      end
  end.

(** A schedule kept in the process. *)
Definition tickLocal (next : Schedule) (e : cronEntry) (now : Instant) : prog cronEntry :=
  let t := next (ce_lastRun e) in
  if IsZero t || negb (Before now t) then
    r ← call (CEnqueue (pj_Args (ce_job e)) (pj_Opts (ce_job e)));
    match r with
    | Err err => _ ← report (EWrap ("enqueue periodic job " +:+ quoted (ja_Kind (pj_Args (ce_job e))) +:+ ": ") err ""); mret e
    | Ok _ => mret (mkCronEntry (ce_job e) now)
    end
  else mret e.

(** One entry; validation has made sure that it has a schedule. *)
Definition tickEntry (e : cronEntry) (now : Instant) : prog cronEntry :=
  match pj_Schedule (ce_job e) with
  | None => mret e
  | Some next =>
      if bool_decide (pj_ID (ce_job e) ≠ "") then _ ← tickDurable next (ce_job e) now; mret e
      else tickLocal next e now
  end.

Fixpoint tickEntries (entries : list cronEntry) (now : Instant) : prog (list cronEntry) :=
  match entries with
  | [] => mret []
  | e :: rest => e' ← tickEntry e now; rest' ← tickEntries rest now; mret (e' :: rest')
  end.

Definition tick (entries : list cronEntry) : prog (list cronEntry) :=
  r ← call (CElect (mkLeaderElectParams (cg_LeaderName config) (cg_WorkerID config) (cg_LeaderTTL config)));
  match r with
  | Err err => _ ← report (EWrap "cron leader election: " err ""); mret entries
  | Ok false => mret entries
  | Ok true => now ← call CNow; tickEntries entries now
  end.

(** The scheduling loop: [ticks] ticks before the context ends, then the
    deferred resignation. *)
Fixpoint runTicks (ticks : nat) (entries : list cronEntry) : prog (list cronEntry) :=
  match ticks with
  | O => mret entries
  | S ticks' => entries' ← tick entries; runTicks ticks' entries'
  end.

Definition resign : prog unit :=
  err ← call (CResign (mkLeaderResignParams (cg_LeaderName config) (cg_WorkerID config)));
  match err with
  | Some err => report (EWrap "cron leader resignation: " err "")
  | None => mret tt
  end.

Definition StartCron (configErr : option error) (started : bool) (ctxErr : error) (ticks : nat) (entries : list cronEntry) : prog error :=
  match configErr with
  | Some err => mret err
  | None =>
      if started then mret (ENew "cron scheduler already started")
      else _ ← runTicks ticks entries; _ ← resign; mret ctxErr
  end.
End scheduler.

(** ** Performing calls *)

Class LeaseStore (S : Type) := {
  ls_elect : S → LeaderElectParams → S * result bool;
  ls_resign : S → LeaderResignParams → S * option error
}.

Section perform.
Context {S Tx : Type} `{EnqueueStore S Tx} `{CursorStore S} `{LeaseStore S}.
Context (client : ClientConfig S).

(** The store, the scheduler's clock and what its error handler has received. *)
Record CronEnv := mkCronEnv { ve_store : S; ve_clk : Clock; ve_reports : list error }.

Definition onStore {A} (r : S * A) (e : CronEnv) : CronEnv * A := (mkCronEnv r.1 (ve_clk e) (ve_reports e), r.2).

Definition performCall (c : cronCall) (e : CronEnv) : CronEnv * answer c :=
  match c with
  | CNow => let '(now, clk) := Now (ve_clk e) in (mkCronEnv (ve_store e) clk (ve_reports e), now)
  | CElect p => onStore (ls_elect (ve_store e) p) e
  | CResign p => onStore (ls_resign (ve_store e) p) e
  | CGetOrCreate p => onStore (cs_getOrCreate (ve_store e) p) e
  | CAdvance p => onStore (cs_advance (ve_store e) p) e
  | CEnqueue args opts =>
      let '(env, r) := Enqueue client (Some args) opts (mkEnv (ve_store e) (ve_clk e) []) in
      (mkCronEnv (en_store env) (en_clk env) (ve_reports e), r)
  | CReport err => (mkCronEnv (ve_store e) (ve_clk e) (ve_reports e ++ [err]), tt)
  end.

(** All calls of a program, one after the other. *)
Fixpoint perform {A} (p : prog A) (e : CronEnv) : CronEnv * A :=
  match p with
  | Ret a => (e, a)
  | Call c k => let '(e', x) := performCall c e in perform (k x) e'
  end.
End perform.
