(* ===== verification/CronProps.v ===== *)
(** * cron.go on the memory backend

    Any number of schedulers of one group tick concurrently over one store; their
    calls interleave with each other and with every other use of the store.  What
    a scheduler must know before it makes a call is tracked by a small program
    logic over its calls ([wp]): the occurrences it has seen enqueued. *)

From S2P Require Import Prelude GoBase Json Codec Core Driver Sha256 Memory MemoryInv MemoryFetch MemoryProps MemoryKeys MemoryLeases.
From S2P Require Import RateLimit MemoryLimiter Client ClientProps MemoryClient Cron.
From Stdlib Require Import ZArith Lia.

#[export] Instance memoryLeaseStore : LeaseStore Driver := {|
  ls_elect := LeaderAttemptElect;
  ls_resign d p := let '(d', r) := LeaderResign d p in (d', match r with Ok _ => None | Err e => Some e end)
|}.

(** ** Schedules *)

(** The [n]-th occurrence after [start]. *)
Definition occ (next : Schedule) (start : Instant) (n : nat) : Instant := Nat.iter n next start.

(** The [m] occurrences after [start]. *)
Definition occs (next : Schedule) (start : Instant) (m : nat) : list Instant := (λ i, occ next start (S i)) <$> seq 0 m.

Lemma occ_S next start n : occ next start (S n) = next (occ next start n).
Proof. done. Qed.

Lemma occ_add next start n m : occ next (occ next start n) m = occ next start (n + m).
Proof. unfold occ. by rewrite (Nat.add_comm n m), Nat.iter_add. Qed.

Lemma occs_cons next start m : occs next start (S m) = next start :: occs next (next start) m.
Proof.
  unfold occs. rewrite <-cons_seq, fmap_cons. f_equal. rewrite <-fmap_S_seq, <-list_fmap_compose.
  apply list_fmap_ext. intros i k _. simpl. change (next start) with (occ next start 1). by rewrite (occ_add next start 1).
Qed.

Lemma occs_snoc next start m : occs next start (S m) = occs next start m ++ [occ next start (S m)].
Proof. unfold occs. by rewrite seq_S, fmap_app. Qed.

Lemma occs_last next start m : last (occs next start (S m)) = Some (occ next start (S m)).
Proof. by rewrite occs_snoc, last_snoc. Qed.

Lemma length_occs next start m : length (occs next start m) = m.
Proof. unfold occs. by rewrite length_fmap, length_seq. Qed.

(** What the search finds are the next occurrences, none of them late. *)
Lemma scan_spec next now enough limit : ∀ c acc due complete,
  scan next now enough limit c acc = Scanned due complete →
  ∃ m, due = acc ++ occs next c m ∧ Forall (λ t, t ≤ now) (occs next c m).
Proof.
  induction limit as [|limit IH]; intros c acc due complete; simpl.
  - intros [= <- <-]. exists 0%nat. by rewrite app_nil_r.
  - destruct (_ || _); [done|]. destruct (After (next c) now) eqn:Ea.
    + intros [= <- <-]. exists 0%nat. by rewrite app_nil_r.
    + assert (next c ≤ now) by (time_to_prop; lia). destruct (enough (acc ++ [next c])).
      * intros [= <- <-]. exists 1%nat. split; [done|]. by apply Forall_singleton.
      * intros (m & -> & Hm)%IH. exists (S m). rewrite occs_cons, <-app_assoc. split; [done|]. by constructor.
Qed.

(** ** Rows keep their keys *)

Definition hasKey (d : Driver) (key : string) : Prop := ∃ id row, d_jobs d !! id = Some row ∧ UniqueKey row = key.

Definition keepsKeys (d d' : Driver) : Prop :=
  ∀ id row, d_jobs d !! id = Some row → ∃ row', d_jobs d' !! id = Some row' ∧ UniqueKey row' = UniqueKey row.

Lemma keepsKeys_refl d : keepsKeys d d.
Proof. intros id row. eauto. Qed.

Lemma keepsKeys_jobs d d' : d_jobs d' = d_jobs d → keepsKeys d d'.
Proof. intros E id row. rewrite E. eauto. Qed.

Lemma keepsKeys_has d d' key : keepsKeys d d' → hasKey d key → hasKey d' key.
Proof. intros Hk (id & row & Hr & <-). destruct (Hk _ _ Hr) as (row' & Hr' & E). by exists id, row'. Qed.

Lemma keepsKeys_insert d d' id row row' :
  d_jobs d !! id = Some row → d_jobs d' = <[id := row']> (d_jobs d) → UniqueKey row' = UniqueKey row → keepsKeys d d'.
Proof.
  intros Hr E Hk i r Hi. rewrite E. destruct (decide (id = i)) as [<-|].
  - rewrite lookup_insert_eq. simplify_eq. eauto.
  - rewrite lookup_insert_ne by done. eauto.
Qed.

Lemma keepsKeys_map d d' f : d_jobs d' = f <$> d_jobs d → (∀ r, UniqueKey (f r) = UniqueKey r) → keepsKeys d d'.
Proof. intros E Hf i r Hi. rewrite E, lookup_fmap, Hi. simpl. eauto. Qed.

(** Other users of the store: they do not delete or reschedule jobs by hand and
    leave the cursor alone. *)
Definition bystands (cursorID : string) (o : op) : Prop :=
  match o with
  | ODelete _ | OReschedule _ => False
  | OCursorCreate p => cc_ID p ≠ cursorID
  | OCursorAdvance p => ca_ID p ≠ cursorID
  | _ => True
  end.

Section store.
Context `{MapRange}.

Lemma insertMany_keeps k ps d : jobs_inv k d → k + Z.of_nat (length ps) < 2 ^ 63 → keepsKeys d (JobInsertMany d ps).1.
Proof.
  intros Hi Hb. destruct (JobInsertMany d ps) as [d' r] eqn:E.
  destruct (insertMany_spec ps k d d' r Hi Hb E) as (rs & _ & _ & _ & _ & _ & Hkeep). intros id row Hr. simpl. eauto.
Qed.

Lemma fetch_keeps k p d : jobs_inv k d → keepsKeys d (JobFetchBatch d p).1.
Proof.
  intros Hi. rewrite JobFetchBatch_eq. destruct (d_queues d !! fp_Queue p) as [q|]; [|apply keepsKeys_refl].
  destruct (q_Paused q); [apply keepsKeys_refl|]. intros id row Hr. simpl.
  rewrite (fs_table _ _ _ _ _ (fetched_spec d p _ (ji_id _ _ Hi))), Hr. simpl. eexists. split; [done|].
  unfold afterFetch. repeat case_match; done.
Qed.

Lemma exec_keeps cursorID k o d :
  jobs_inv k d → k + cost o < 2 ^ 63 → bystands cursorID o → keepsKeys d (exec_driver o d).
Proof.
  intros Hi Hb Ho. destruct o; simpl in *; try done; try (apply keepsKeys_refl).
  - by apply insertMany_keeps with k.
  - by apply fetch_keeps with k.
  - unfold JobMarkStarted. destruct (d_jobs d !! ms_ID params) as [row|] eqn:E; [|apply keepsKeys_refl].
    case_match; [|apply keepsKeys_refl]. by eapply keepsKeys_insert.
  - eapply keepsKeys_map; [done|]. intros r. unfold rescueRow. by case_match.
  - unfold JobHeartbeat. destruct (d_jobs d !! hp_ID params) as [row|] eqn:E; [|apply keepsKeys_refl].
    case_match; [|apply keepsKeys_refl]. by eapply keepsKeys_insert.
  - unfold JobSetStateIfRunning. destruct (d_jobs d !! sp_ID params) as [row|] eqn:E; [|apply keepsKeys_refl].
    case_match; [|apply keepsKeys_refl].
    destruct (sp_Yield params); [|destruct (sp_Err params), (isTerminal (sp_State params))]; simpl;
      (eapply keepsKeys_insert; [done..|]; try apply transition_fields; done).
  - unfold JobCancel. destruct (d_jobs d !! id) as [row|] eqn:E; [|apply keepsKeys_refl].
    case_match; [apply keepsKeys_refl|]. by eapply keepsKeys_insert.
  - apply keepsKeys_jobs. unfold QueuePause, queueSetPaused, ensureQueue. simpl. by case_match.
  - apply keepsKeys_jobs. unfold QueueResume, queueSetPaused, ensureQueue. simpl. by case_match.
  - apply keepsKeys_jobs. unfold LeaderAttemptElect. simpl. by repeat case_match.
  - apply keepsKeys_jobs. unfold LeaderResign. simpl. by repeat case_match.
  - apply keepsKeys_jobs. unfold ScheduleCursorGetOrCreate. simpl. by repeat case_match.
  - apply keepsKeys_jobs. unfold ScheduleCursorAdvance. simpl. by repeat case_match.
  - apply keepsKeys_jobs. unfold receive. simpl. by repeat case_match.
Qed.

(** ** Cursors of others *)

Lemma foldl_trySend_cursors q l : ∀ d, d_cursors (foldl (trySend q) d l) = d_cursors d.
Proof. induction l as [|c l IH]; intros d; [done|]. simpl. rewrite IH. unfold trySend. by repeat case_match. Qed.

Lemma insertMany_cursors ps : ∀ d, d_cursors (JobInsertMany d ps).1 = d_cursors d.
Proof.
  unfold JobInsertMany. induction ps as [|p ps IH]; intros d; [done|]. simpl.
  assert (d_cursors (insertOne d p).1 = d_cursors d) as E.
  { assert (d_cursors (insertFresh d p).1 = d_cursors d) as Hf.
    { unfold insertFresh, broadcastNotify. simpl. rewrite foldl_trySend_cursors. unfold ensureQueue. simpl. by case_match. }
    unfold insertOne. by repeat case_match. }
  destruct (insertOne d p) as [d1 r]. simpl in *. specialize (IH d1). destruct (insertLoop d1 ps). simpl in *. congruence.
Qed.

Lemma exec_cursor cursorID o d : bystands cursorID o → d_cursors (exec_driver o d) !! cursorID = d_cursors d !! cursorID.
Proof.
  intros Ho. destruct o; simpl in *; try done.
  - by rewrite insertMany_cursors.
  - rewrite JobFetchBatch_eq. by repeat case_match.
  - unfold JobMarkStarted. by repeat case_match.
  - unfold JobHeartbeat. by repeat case_match.
  - unfold JobSetStateIfRunning. destruct (d_jobs d !! sp_ID params); [|done]. case_match; [|done].
    by destruct (sp_Yield params); [|destruct (sp_Err params), (isTerminal (sp_State params))].
  - unfold JobCancel. destruct (d_jobs d !! id); [|done]. by case_match.
  - unfold QueuePause, queueSetPaused, ensureQueue. simpl. by case_match.
  - unfold QueueResume, queueSetPaused, ensureQueue. simpl. by case_match.
  - unfold LeaderAttemptElect. simpl. by repeat case_match.
  - unfold LeaderResign. by repeat case_match.
  - unfold ScheduleCursorGetOrCreate. case_match; [done|]. simpl. by rewrite lookup_insert_ne.
  - unfold ScheduleCursorAdvance. case_match; [|done]. case_match; [done|]. simpl. by rewrite lookup_insert_ne.
  - unfold receive. by repeat case_match.
Qed.

Lemma exec_unique cursorID o d : bystands cursorID o → active_unique d → active_unique (exec_driver o d).
Proof.
  intros Ho Hu. assert ((∃ ps, o = OInsert ps) ∨ (∀ ps, o ≠ OInsert ps)) as [[ps ->]|Hn]
    by (clear Ho; destruct o; first [left; by eexists|right; by intros]); [exact (insertMany_unique ps d Hu)|].
  refine (blocks_from_unique d _ _ Hu). apply exec_blocks_from; [by destruct o|done].
Qed.
End store.

(** ** What a scheduler knows *)

Section group.
Context `{MapRange} (timeString : Instant → string) (group : CronConfig) (job : PeriodicJob) (next : Schedule).
Context (has_schedule : pj_Schedule job = Some next).

Definition cursorOf : string := durableScheduleCursorID (cg_LeaderName group) (pj_ID job).
Abbreviation start := (pj_StartAt job) (only parsing).

(** The unique key of the job for an occurrence. *)
Definition keyOf (t : Instant) : string :=
  "uf2_" +:+ hexBytes (Sum256 (canonicalKey (ja_Kind (pj_Args job)) "" (occurrenceKey group job t) None 0)).

(** With the policy of catching up on everything, a cursor stands for every
    occurrence up to it; with the policy of the latest, for that one only. *)
Definition covers (W : Instant → Prop) (n : nat) : Prop :=
  if pj_CatchUp job =? CronCatchUpLatest then (0 < n)%nat → W (occ next start n)
  else if pj_CatchUp job =? CronSkipMissed then True
  else ∀ i, (1 ≤ i ≤ n)%nat → W (occ next start i).

Lemma covers_mono (W W' : Instant → Prop) n : (∀ t, W t → W' t) → covers W n → covers W' n.
Proof. unfold covers. intros HW. repeat case_match; eauto. Qed.

(** The calls a scheduler may make on the strength of what it knows. *)
Definition permitted (W : Instant → Prop) (c : cronCall) : Prop :=
  match c with
  | CGetOrCreate p => cc_ID p = cursorOf → cc_InitialAt p = start
  | CAdvance p => ca_ID p = cursorOf → ∃ j m, ca_Expected p = occ next start j ∧ ca_Next p = occ next start (j + S m) ∧
      if pj_CatchUp job =? CronCatchUpLatest then W (ca_Next p)
      else if pj_CatchUp job =? CronSkipMissed then True
      else m = 0%nat ∧ W (ca_Next p)
  | _ => True
  end.

(** What an answer can be, and what it tells. *)
Definition possible (c : cronCall) : answer c → Prop :=
  match c with
  | CGetOrCreate p => λ r, cc_ID p = cursorOf → ∀ cursor, r = Ok cursor → ∃ n, cr_At cursor = occ next start n
  | _ => λ _, True
  end.

Definition learn (W : Instant → Prop) (c : cronCall) : answer c → Instant → Prop :=
  match c with
  | CEnqueue args opts => λ r t, W t ∨
      (args = pj_Args job ∧ opts = Some (occurrenceOpts group job t) ∧ ∃ res, r = Ok res)
  | _ => λ _, W
  end.

Fixpoint wp {A} (p : prog A) (W : Instant → Prop) (Q : A → (Instant → Prop) → Prop) : Prop :=
  match p with
  | Ret a => Q a W
  | Call c k => permitted W c ∧ ∀ x, possible c x → wp (k x) (learn W c x) Q
  end.

Lemma learn_le W c x t : W t → learn W c x t.
Proof. destruct c; simpl; auto. Qed.

Lemma learn_mono (W W' : Instant → Prop) c x : (∀ t, W t → W' t) → ∀ t, learn W c x t → learn W' c x t.
Proof. intros HW t. destruct c; simpl; eauto. intros [?|?]; auto. Qed.

Lemma permitted_mono (W W' : Instant → Prop) c : (∀ t, W t → W' t) → permitted W c → permitted W' c.
Proof.
  intros HW. destruct c as [| | | |p| |]; simpl; try done. intros Hp E. destruct (Hp E) as (j & m & ? & ? & Hc). exists j, m.
  split_and!; [done..|]. repeat case_match; naive_solver.
Qed.

Lemma wp_conseq {A} (p : prog A) : ∀ (W : Instant → Prop) (Q Q' : A → (Instant → Prop) → Prop),
  (∀ a V, (∀ t, W t → V t) → Q a V → Q' a V) → wp p W Q → wp p W Q'.
Proof.
  induction p as [a|c k IH]; intros W Q Q' HQ; simpl; [by apply HQ|].
  intros [Hp Hk]. split; [done|]. intros x Hx. refine (IH x _ _ _ _ (Hk x Hx)). intros a V HV. apply HQ. intros t Ht. by apply HV, learn_le.
Qed.

Lemma wp_bind {A B} (p : prog A) (f : A → prog B) : ∀ W Q, wp p W (λ a V, wp (f a) V Q) → wp (p ≫= f) W Q.
Proof.
  induction p as [a|c k IH]; intros W Q; [done|]. simpl. intros [Hp Hk]. split; [done|]. intros x Hx. by apply IH, Hk.
Qed.

(** The first part of a program hands what it has learned to the second. *)
Lemma wp_step {A B} (p : prog A) (f : A → prog B) W (R : A → (Instant → Prop) → Prop) Q :
  wp p W R → (∀ a V, (∀ t, W t → V t) → R a V → wp (f a) V Q) → wp (p ≫= f) W Q.
Proof. intros Hp Hf. apply wp_bind. by apply (wp_conseq p W R). Qed.

Lemma wp_call c W (Q : answer c → (Instant → Prop) → Prop) :
  permitted W c → (∀ x, possible c x → Q x (learn W c x)) → wp (call c) W Q.
Proof. intros Hp Hq. split; [done|]. exact Hq. Qed.

Definition anyway {A} : A → (Instant → Prop) → Prop := λ _ _, True.

(** Knowing more does no harm. *)
Lemma safe_mono {A} (p : prog A) (R : A → Prop) : ∀ W W' : Instant → Prop, (∀ t, W t → W' t) →
  wp p W (λ a _, R a) → wp p W' (λ a _, R a).
Proof.
  induction p as [a|c k IH]; intros W W' HW; simpl; [done|]. intros [Hp Hk]. split; [by eapply permitted_mono|].
  intros x Hx. refine (IH x _ _ _ (Hk x Hx)). by apply learn_mono.
Qed.

(** A program that only reports from here on. *)
Ltac wp_reports := simpl; repeat first [done | exact I | by split; auto | split; [done|] | intros ? _].

(** A scheduler of the group. *)
Context (config : CronConfig) (same_group : cg_LeaderName config = cg_LeaderName group).

Lemma wp_enqueue t W : wp (enqueueOccurrence timeString config job t) W (λ ok V, (∀ u, W u → V u) ∧ (ok = true → V t)).
Proof.
  unfold enqueueOccurrence. apply wp_bind, wp_call; [done|]. intros [r|err] _; simpl.
  - split; [auto|]. intros _. right. split; [done|]. split; [|eauto]. unfold occurrenceOpts, occurrenceKey. by rewrite same_group.
  - wp_reports.
Qed.

Lemma wp_advance id cursorID expected t W Q :
  permitted W (CAdvance (mkScheduleCursorAdvanceParams cursorID expected t)) → (∀ ok, Q ok W) →
  wp (advanceCursor id cursorID expected t) W Q.
Proof.
  intros Hp HQ. unfold advanceCursor. apply wp_bind, wp_call; [done|]. intros [b|err] _; simpl; [apply HQ|]. wp_reports.
Qed.

(** Every due occurrence in turn. *)
Lemma wp_catchUp cursorID m : (pj_CatchUp job =? CronCatchUpLatest) = false → (pj_CatchUp job =? CronSkipMissed) = false →
  ∀ j W, wp (catchUp timeString config job cursorID (occ next start j) (occs next (occ next start j) m)) W anyway.
Proof.
  intros H1 H2. induction m as [|m IH]; intros j W; [done|]. rewrite occs_cons. cbn [catchUp].
  eapply wp_step; [apply wp_enqueue|]. intros ok V _ [_ Hok]. destruct ok; [|done]. cbn [negb]. apply wp_bind, wp_advance.
  - intros _. exists j, 0%nat. simpl. rewrite H1, H2. rewrite <-(occ_add next start j 1). auto.
  - intros ok. destruct ok; [|done]. cbn [negb]. apply (IH (S j)).
Qed.

Lemma wp_applyDue cursorID now j m W : wp (applyDue timeString config job cursorID now (occ next start j) (occs next (occ next start j) m)) W anyway.
Proof.
  unfold applyDue. destruct m as [|m]; [done|]. rewrite occs_last. rewrite occ_add.
  destruct (pj_CatchUp job =? CronCatchUpLatest) eqn:E1; [|destruct (pj_CatchUp job =? CronSkipMissed) eqn:E2].
  - eapply wp_step; [apply wp_enqueue|]. intros ok V _ [_ Hok]. destruct ok; [|done]. cbn [negb]. apply wp_bind, wp_advance; [|done].
    intros _. exists j, m. simpl. rewrite E1. auto.
  - eapply (wp_step _ _ _ anyway); [case_match; [eapply wp_conseq; [|apply wp_enqueue]; done|done]|]. intros ok V _ _.
    destruct ok; [|done]. cbn [negb]. apply wp_bind, wp_advance; [|done]. intros _. exists j, m. simpl. by rewrite E1, E2.
  - by apply wp_catchUp.
Qed.

Lemma wp_tickDurable now W : wp (tickDurable timeString config next job now) W anyway.
Proof.
  unfold tickDurable. rewrite same_group. fold cursorOf. apply wp_bind, wp_call; [done|].
  intros [cursor|err] Hx; [|by apply wp_call]. destruct (Hx eq_refl cursor eq_refl) as [n ->].
  destruct (scan _ _ _ _ _ _) as [c|due complete] eqn:Es; [by apply wp_call|].
  apply scan_spec in Es as (m & -> & _). destruct (_ && _); [by apply wp_call|]. apply wp_applyDue.
Qed.

(** Entries that concern other cursors. *)
Lemma wp_otherDurable next' job' now W :
  durableScheduleCursorID (cg_LeaderName group) (pj_ID job') ≠ cursorOf → wp (tickDurable timeString config next' job' now) W anyway.
Proof.
  intros Hne. unfold tickDurable. rewrite same_group. set (cid := durableScheduleCursorID _ _) in *.
  assert (∀ W t, wp (enqueueOccurrence timeString config job' t) W anyway) as Henq.
  { intros V t. unfold enqueueOccurrence. apply wp_bind, wp_call; [done|]. intros [r|err] _; [done|]. wp_reports. }
  assert (∀ W e t, wp (advanceCursor (pj_ID job') cid e t) W anyway) as Hadv by (intros V e t; apply wp_advance; [by intros E; destruct Hne|done]).
  assert (∀ due e W, wp (catchUp timeString config job' cid e due) W anyway) as Hcatch.
  { intros due. induction due as [|t due IH]; intros e V; [done|]. cbn [catchUp]. eapply wp_step; [apply Henq|]. intros ok V' _ _.
    destruct ok; [|done]. cbn [negb]. eapply wp_step; [apply Hadv|]. intros ok V'' _ _. destruct ok; [|done]. apply IH. }
  apply wp_bind, wp_call; [by intros E; destruct Hne|]. intros [cursor|err] _; [|by apply wp_call].
  destruct (scan _ _ _ _ _ _) as [c|due complete]; [by apply wp_call|]. destruct (_ && _); [by apply wp_call|].
  unfold applyDue. destruct (last due) as [latest|]; [|done]. repeat case_match; try apply Hcatch.
  - eapply wp_step; [apply Henq|]. intros ok V _ _. destruct ok; [|done]. cbn [negb]. eapply wp_step; [apply Hadv|]. done.
  - eapply wp_step; [apply Henq|]. intros ok V _ _. destruct ok; [|done]. cbn [negb]. eapply wp_step; [apply Hadv|]. done.
  - eapply (wp_step _ _ _ anyway); [done|]. intros ok V _ _. destruct ok; [|done]. cbn [negb]. eapply wp_step; [apply Hadv|]. done.
Qed.

Definition inGroup (j : PeriodicJob) : Prop :=
  pj_ID j = "" ∨ j = job ∨ durableScheduleCursorID (cg_LeaderName group) (pj_ID j) ≠ cursorOf.

Definition ours (e : cronEntry) : Prop := inGroup (ce_job e).

Lemma wp_tickEntry e now W : ours e → wp (tickEntry timeString config e now) W (λ e' _, ours e').
Proof.
  intros Hin. unfold tickEntry. destruct (pj_Schedule (ce_job e)) as [next'|] eqn:Es; [|done]. case_bool_decide as Hid.
  - destruct (id Hin) as [?|[Ej|Hne]]; [done| |].
    + rewrite Ej in *. rewrite has_schedule in Es. simplify_eq. by eapply wp_step; [apply wp_tickDurable|].
    + by eapply wp_step; [apply wp_otherDurable|].
  - unfold tickLocal. destruct (_ || _); [|done]. apply wp_bind, wp_call; [done|]. intros [r|err] _; [done|]. wp_reports.
Qed.

Lemma wp_tick entries W : Forall ours entries → wp (tick timeString config entries) W (λ es _, Forall ours es).
Proof.
  intros Hf. unfold tick. apply wp_bind, wp_call; [done|]. intros [[]|err] _; [|done|wp_reports].
  apply wp_bind, wp_call; [done|]. intros now _. change (wp (tickEntries timeString config entries now) W (λ es _, Forall ours es)).
  revert W. induction Hf as [|e entries He Hf IH]; intros W; [constructor|]. cbn [tickEntries].
  eapply wp_step; [by apply wp_tickEntry|]. intros e' V _ He'. eapply wp_step; [apply IH|]. intros es V' _ Hes. by constructor.
Qed.
End group.
