(* ===== verification/CronGroup.v ===== *)
(** * cron.go: a group of schedulers over one store

    The schedulers of a group, each with its own clock and somewhere in a tick,
    and the rest of the world share the memory backend.  An event starts a tick,
    performs the next call of one scheduler, or is another use of the store. *)

From S2P Require Import Prelude GoBase Json Codec Core Driver Sha256 Memory MemoryInv MemoryFetch MemoryProps MemoryKeys MemoryLeases.
From S2P Require Import RateLimit MemoryLimiter Client ClientProps MemoryClient Cron CronProps.
From Stdlib Require Import ZArith Lia.

Record Process := mkProcess {
  ps_scheduler : CronScheduler Driver;
  ps_clk : Clock;
  ps_reports : list error;
  ps_tick : option (prog (list cronEntry))    (* what is left of the tick it is in *)
}.

Inductive cronEvent :=
| VTick (i : nat)
| VCall (i : nat)
| VOther (o : op).

Section group.
Context `{MapRange} (timeString : Instant → string).

Definition afterCall (pr : Process) (e : CronEnv (S := Driver)) (p : prog (list cronEntry)) : Process :=
  let sc := ps_scheduler pr in
  match p with
  | Ret entries =>
      mkProcess (mkCronScheduler (sc_client sc) entries (sc_config sc) (sc_configErr sc)) (ve_clk e) (ve_reports e) None
  | p => mkProcess sc (ve_clk e) (ve_reports e) (Some p)
  end.

Definition cronStep (ev : cronEvent) (w : Driver * list Process) : option (Driver * list Process) :=
  let '(d, ps) := w in
  match ev with
  | VTick i =>
      pr ← ps !! i;
      match ps_tick pr with
      | Some _ => None
      | None =>
          let sc := ps_scheduler pr in
          Some (d, <[i := mkProcess sc (ps_clk pr) (ps_reports pr) (Some (tick timeString (sc_config sc) (sc_entries sc)))]> ps)
      end
  | VCall i =>
      pr ← ps !! i;
      match ps_tick pr with
      | Some (Call c k) =>
          let '(e, x) := performCall (Tx := unit) (sc_client (ps_scheduler pr)) c (mkCronEnv d (ps_clk pr) (ps_reports pr)) in
          Some (ve_store e, <[i := afterCall pr e (k x)]> ps)
      | _ => None
      end
  | VOther o => Some (exec_driver o d, ps)
  end.

Fixpoint cronRun (evs : list cronEvent) (w : Driver * list Process) : option (Driver * list Process) :=
  match evs with
  | [] => Some w
  | ev :: rest => w' ← cronStep ev w; cronRun rest w'
  end.

Definition eventCost (ev : cronEvent) : Z := match ev with VTick _ => 0 | VCall _ => 1 | VOther o => cost o end.
Definition cronCost (evs : list cronEvent) : Z := foldr (λ ev n, eventCost ev + n) 0 evs.

(** A scheduler that has just been made. *)
Definition newProcess (name : string) (caps : Capabilities) (randomID : string) (clk : Clock) (jobs : list PeriodicJob)
    (cfg : CronConfig) : Process :=
  mkProcess (newCronScheduler name caps randomID clk jobs cfg) clk [] None.

(** ** One call *)

Context (group : CronConfig) (job : PeriodicJob) (next : Schedule) (has_schedule : pj_Schedule job = Some next).
Abbreviation cursorID := (cursorOf group job) (only parsing).
Abbreviation key := (keyOf group job) (only parsing).

Definition known (d : Driver) (t : Instant) : Prop := hasKey d (key t).

Record store_inv (k : Z) (d : Driver) : Prop := {
  st_jobs : jobs_inv k d;
  st_unique : active_unique d;
  st_cursor : ∀ c, d_cursors d !! cursorID = Some c → ∃ n, c = occ next (pj_StartAt job) n ∧ covers job next (known d) n
}.

Lemma known_mono d d' t : keepsKeys d d' → known d t → known d' t.
Proof. apply keepsKeys_has. Qed.

(** Whatever keeps the rows and the cursor keeps the invariant. *)
Lemma store_inv_keep k k' d d' :
  store_inv k d → jobs_inv k' d' → active_unique d' → keepsKeys d d' → d_cursors d' !! cursorID = d_cursors d !! cursorID → store_inv k' d'.
Proof.
  intros [H1 H2 H3] Hj Hu Hk Hc. split; [done..|]. intros c. rewrite Hc. intros (n & -> & Hn)%H3. exists n. split; [done|].
  eapply covers_mono; [|done]. intros t. by apply known_mono.
Qed.

Lemma occurrence_unique_key a q t now :
  a = pj_Args job → buildUniqueKey a q (mkUniqueOpts false (occurrenceKey group job t) false 0 true) now = Ok (key t).
Proof. by intros ->. Qed.

(** Enqueueing inserts one job or none; when it succeeds there is a job with the key. *)
Lemma enqueue_store (client : ClientConfig Driver) args opts k d clk env r :
  cl_Admission client = None → jobs_inv k d → k + 1 < 2 ^ 63 →
  Enqueue (Tx := unit) client (Some args) opts (mkEnv d clk []) = (env, r) →
  (en_store env = d ∨ ∃ p, en_store env = (JobInsertMany d [p]).1) ∧
  (∀ t res, args = pj_Args job → opts = Some (occurrenceOpts group job t) → r = Ok res → hasKey (en_store env) (key t)).
Proof.
  intros Had Hi Hb. unfold Enqueue. simpl. destruct (buildInsertParams client (Some args) opts clk) as [clk' [p|err]] eqn:Eb.
  2: { intros [= <- <-]. split; [by left|done]. }
  intros Hs. apply single_insert_spec in Hs as [(err & Ha & _)|(results & err & Hd & Hr & Herr & _)];
    [unfold admitBatch in Ha; by rewrite Had in Ha|].
  simpl in Hd. unfold insertedOf in Hd. injection Hd as Hst Hres. split; [right; by exists p|].
  intros t res -> -> ->. destruct (proj1 (Hr res) eq_refl) as [-> ->].
  apply buildInsertParams_ok in Eb as (a & j & [= <-] & _ & _ & _ & _ & _ & _ & _ & _ & Ho). unfold occurrenceOpts in Ho. cbv beta iota zeta in Ho.
  destruct Ho as (_ & _ & _ & _ & _ & _ & Hkey). rewrite occurrence_unique_key in Hkey by done. injection Hkey as Hkey.
  destruct (JobInsertMany d [p]) as [d' r'] eqn:Ei.
  destruct (insertMany_spec [p] k d d' r' Hi) as (rs & -> & Hall & _); [simpl; lia|done|]. simpl in Hres. simplify_eq.
  apply Forall2_cons in Hall as [(row & _ & Hrow & Hok) _]. rewrite <-Hst. exists (ID row), row. split; [done|].
  destruct (ir_UniqueSkip res).
  - destruct Hok as [_ Hbk]. unfold blocksKey in Hbk. bool_to_prop. by rewrite Hkey.
  - destruct Hok as [_ ->]. simpl. by rewrite Hkey.
Qed.

Lemma performCall_sound (client : ClientConfig Driver) k c d clk reports e x :
  cl_Admission client = None → store_inv k d → k + 1 < 2 ^ 63 → permitted group job next (known d) c →
  performCall (Tx := unit) client c (mkCronEnv d clk reports) = (e, x) →
  store_inv (k + 1) (ve_store e) ∧ possible group job next c x ∧
  (∀ t, learn group job (known d) c x t → known (ve_store e) t).
Proof.
  intros Had Hi Hb Hp. pose proof (st_jobs _ _ Hi) as Hj.
  assert (∀ d', jobs_inv k d' → active_unique d' → keepsKeys d d' → d_cursors d' !! cursorID = d_cursors d !! cursorID →
    store_inv (k + 1) d' ∧ ∀ t, known d t → known d' t) as Hkeep.
  { intros d' ? ? ? ?. split; [|intros t; by apply known_mono]. apply (store_inv_keep k (k + 1) d); try done.
    eapply jobs_inv_mono; [|done]. lia. }
  assert (∀ o, cost o = 0 → bystands cursorID o → store_inv (k + 1) (exec_driver o d) ∧ ∀ t, known d t → known (exec_driver o d) t) as Hop.
  { intros o Hc Ho. apply Hkeep.
    - pose proof (exec_driver_inv k o d Hj ltac:(lia)) as Hx. by rewrite Hc, Z.add_0_r in Hx.
    - by eapply exec_unique; [|apply Hi].
    - eapply exec_keeps; [done| |done]. lia.
    - by apply exec_cursor. }
  destruct c as [|p|p|p|p|args opts|err]; cbn [performCall].
  - intros [= <- <-]. simpl. destruct (Hkeep d) as [? ?]; try done; [apply Hi|apply keepsKeys_refl].
  - intros [= <- <-]. simpl. destruct (Hop (OElect p)) as [? ?]; done.
  - unfold onStore. simpl. intros [= <- <-]. simpl. destruct (LeaderResign d p) as [d' r] eqn:E. simpl.
    destruct (Hop (OResign p)) as [? ?]; [done..|]. simpl in *. by rewrite E in *.
  - unfold onStore. intros [= <- <-]. simpl. destruct (decide (cc_ID p = cursorID)) as [Ec|Hne].
    2: { destruct (Hop (OCursorCreate p)) as [? ?]; [done..|]. split; [done|]. split; [by intros|done]. }
    unfold ScheduleCursorGetOrCreate. rewrite Ec. destruct (d_cursors d !! cursorID) as [cur|] eqn:Ecur; simpl.
    + destruct (Hkeep d) as [? ?]; try done; [apply Hi|apply keepsKeys_refl|]. split; [done|]. split; [|done].
      intros _ cursor [= <-]. destruct (st_cursor _ _ Hi _ Ecur) as (n & -> & _). by exists n.
    + simpl in Hp. rewrite (Hp Ec). split; [|split; [|done]].
      * destruct Hi as [H1 H2 H3]. split; [eapply (jobs_inv_mono k); [lia|]; by eapply jobs_inv_frame; [..|exact H1]|done|].
        simpl. rewrite lookup_insert_eq. intros c [= <-]. exists 0%nat. split; [done|]. unfold covers. repeat case_match; try done; lia.
      * intros _ cursor [= <-]. by exists 0%nat.
  - unfold onStore. intros [= <- <-]. simpl. destruct (decide (ca_ID p = cursorID)) as [Ec|Hne].
    2: { destruct (Hop (OCursorAdvance p)) as [? ?]; done. }
    destruct (Hp Ec) as (j & m & Eexp & Enext & Hcov).
    unfold ScheduleCursorAdvance. rewrite Ec. destruct (d_cursors d !! cursorID) as [cur|] eqn:Ecur; simpl.
    2: { destruct (Hkeep d) as [? ?]; try done; [apply Hi|apply keepsKeys_refl]. }
    destruct (TimeEqual cur (ca_Expected p)) eqn:Et; simpl.
    2: { destruct (Hkeep d) as [? ?]; try done; [apply Hi|apply keepsKeys_refl]. }
    time_to_prop. destruct Hi as [H1 H2 H3]. destruct (H3 _ Ecur) as (n & -> & Hn). split; [|done].
    split; [eapply (jobs_inv_mono k); [lia|]; by eapply jobs_inv_frame; [..|exact H1]|done|].
    simpl. rewrite lookup_insert_eq. intros c [= <-]. exists (n + S m)%nat. rewrite Enext, <-occ_add, <-Eexp, <-Et, occ_add.
    split; [done|]. rewrite <-(occ_add _ _ j), <-Eexp, <-Et, occ_add in Enext.
    unfold covers in *. destruct (_ =? _); [intros _; by rewrite <-Enext|]. destruct (_ =? _); [done|]. destruct Hcov as [-> Hk].
    intros i Hin. destruct (decide (i = n + 1)%nat) as [->|]; [by rewrite <-Enext|]. apply Hn. lia.
  - destruct (Enqueue _ _ _ _) as [env r] eqn:E. intros [= <- <-]. simpl.
    destruct (enqueue_store client args opts k d clk env r Had Hj Hb E) as [Hst Hkey].
    assert (store_inv (k + 1) (en_store env) ∧ ∀ t, known d t → known (en_store env) t) as [Hinv Hk].
    { destruct Hst as [->|[p ->]]; [apply Hkeep; try done; [apply Hi|apply keepsKeys_refl]|].
      assert (keepsKeys d (JobInsertMany d [p]).1) by (apply insertMany_keeps with k; simpl; [done|lia]).
      split; [|intros t; by apply known_mono]. apply (store_inv_keep k (k + 1) d); try done.
      - apply (insertMany_inv [p] k d); simpl; [done|lia].
      - apply insertMany_unique, Hi.
      - by rewrite insertMany_cursors. }
    split; [done|]. split; [done|]. intros t [Ht|(Ea & Eo & res & Er)]; [by apply Hk|]. by apply (Hkey t res).
  - intros [= <- <-]. simpl. destruct (Hkeep d) as [? ?]; try done; [apply Hi|apply keepsKeys_refl].
Qed.

(** ** All of them *)

(** A scheduler of the group, with what it knows if it is in a tick. *)
Record process_ok (d : Driver) (pr : Process) : Prop := {
  po_client : cl_Admission (sc_client (ps_scheduler pr)) = None;
  po_group : cg_LeaderName (sc_config (ps_scheduler pr)) = cg_LeaderName group;
  po_entries : Forall (ours group job) (sc_entries (ps_scheduler pr));
  po_tick : ∀ p, ps_tick pr = Some p → wp group job next p (known d) (λ es _, Forall (ours group job) es)
}.

Record group_inv (k : Z) (w : Driver * list Process) : Prop := {
  gi_store : store_inv k w.1;
  gi_processes : ∀ i pr, w.2 !! i = Some pr → process_ok w.1 pr
}.

Lemma process_ok_mono d d' pr : (∀ t, known d t → known d' t) → process_ok d pr → process_ok d' pr.
Proof.
  intros Hk [H1 H2 H3 H4]. split; [done..|]. intros p Hp. eapply safe_mono; [exact Hk|]. by apply H4.
Qed.

Definition quietEvent (ev : cronEvent) : Prop := match ev with VOther o => bystands cursorID o | _ => True end.

Lemma cronStep_inv k ev w w' :
  group_inv k w → k + eventCost ev < 2 ^ 63 → quietEvent ev → cronStep ev w = Some w' → group_inv (k + eventCost ev) w'.
Proof.
  intros [Hs Hp] Hb Hq. destruct w as [d ps]. simpl in Hs, Hp.
  destruct ev as [i|i|o]; cbn [cronStep eventCost] in *.
  - destruct (ps !! i) as [pr|] eqn:Hi; simpl; [|done]. destruct (ps_tick pr) eqn:Et; [done|]. intros [= <-]. rewrite Z.add_0_r.
    split; [done|]. simpl. intros j pr' [(-> & <- & _)|[_ Hj]]%list_lookup_insert_Some; [|by eapply Hp].
    destruct (Hp _ _ Hi) as [H1 H2 H3 _]. split; [done..|]. simpl. intros p [= <-]. by eapply wp_tick.
  - destruct (ps !! i) as [pr|] eqn:Hi; simpl; [|done]. destruct (ps_tick pr) as [[|c kont]|] eqn:Et; try done.
    destruct (Hp _ _ Hi) as [H1 H2 H3 H4]. destruct (H4 _ Et) as [Hperm Hkont].
    destruct (performCall _ _ _) as [e x] eqn:Ec. intros [= <-].
    destruct (performCall_sound _ k c d (ps_clk pr) (ps_reports pr) e x H1 Hs Hb Hperm Ec) as (Hs' & Hposs & Hlearn).
    assert (∀ t, known d t → known (ve_store e) t) as Hk by (intros t Ht; by apply Hlearn, learn_le).
    assert (wp group job next (kont x) (known (ve_store e)) (λ es _, Forall (ours group job) es)) as Hw.
    { eapply safe_mono; [exact Hlearn|]. by apply Hkont. }
    split; [done|]. simpl. intros j pr' [(-> & <- & _)|[_ Hj]]%list_lookup_insert_Some; [|by eapply process_ok_mono; [|eapply Hp]].
    unfold afterCall. destruct (kont x) as [entries|c' k']; split; simpl; try done. by intros p [= <-].
  - intros [= <-]. pose proof (st_jobs _ _ Hs) as Hj. assert (keepsKeys d (exec_driver o d)) by (by eapply exec_keeps). split.
    + apply (store_inv_keep k (k + cost o) d); try done; [by apply exec_driver_inv|by eapply exec_unique; [|apply Hs]|by apply exec_cursor].
    + simpl. intros i pr Hi. eapply process_ok_mono; [|by eapply Hp]. intros t. by apply known_mono.
Qed.

Lemma cronCost_nonneg evs : 0 ≤ cronCost evs.
Proof. induction evs as [|[| |o] evs IH]; simpl; [lia|lia|lia|pose proof (cost_nonneg o); lia]. Qed.

Lemma cronRun_inv evs : ∀ k w w', group_inv k w → k + cronCost evs < 2 ^ 63 → Forall quietEvent evs →
  cronRun evs w = Some w' → group_inv (k + cronCost evs) w'.
Proof.
  induction evs as [|ev evs IH]; intros k w w' Hg Hb Hq; simpl in *; [intros [= <-]; by rewrite Z.add_0_r|].
  apply Forall_cons in Hq as [Hq1 Hq2]. destruct (cronStep ev w) as [w1|] eqn:E; simpl; [|done]. intros Hr.
  pose proof (cronCost_nonneg evs). rewrite Z.add_assoc. eapply IH; [|lia|done|done]. eapply cronStep_inv; [done|lia|done|done].
Qed.

(** Exactly one job of the store has the key. *)
Definition oneJob (d : Driver) (ky : string) : Prop :=
  ∃ id row, d_jobs d !! id = Some row ∧ UniqueKey row = ky ∧ ∀ id' row', d_jobs d !! id' = Some row' → UniqueKey row' = ky → id' = id.

Lemma key_permanent t : IsPermanentUniqueKey (key t) = true.
Proof. unfold keyOf, IsPermanentUniqueKey. by generalize (hexBytes (Sum256 (canonicalKey (ja_Kind (pj_Args job)) "" (occurrenceKey group job t) None 0))) as s; intros []. Qed.

Lemma keyed_once d t : active_unique d → known d t → oneJob d (key t).
Proof.
  intros Hu (id & row & Hr & Hk). exists id, row. split_and!; [done..|]. intros id' row' Hr' Hk'.
  eapply (Hu (key t)); [|done|done|..]; [done| |]; unfold blocksKey; by rewrite bool_decide_eq_true_2, key_permanent.
Qed.

(** C39: a periodic job is enqueued once for each occurrence that its policy asks for.
    However the calls of any number of schedulers of a group interleave with each other
    and with other uses of the store, as long as these neither delete nor reschedule jobs
    by hand nor touch the cursor, and wherever a scheduler stops, the cursor of a durable
    job is always one of its occurrences.  If the policy is to catch up on everything,
    every occurrence up to the cursor has exactly one job; if it is to catch up on the
    latest, the one at the cursor has; if it is to skip what was missed, nothing is said
    of the occurrences before or at the cursor.  Whatever the policy, an occurrence that
    has a job has exactly one. *)
Theorem cron_exactly_once specs evs c d ps :
  Forall (λ '(name, caps, randomID, clk, jobs, cfg), Forall (inGroup group job) jobs ∧
    cg_LeaderName (normalizeCron randomID clk cfg) = cg_LeaderName group) specs →
  Forall quietEvent evs → cronCost evs < 2 ^ 63 →
  cronRun evs (New c, (λ '(name, caps, randomID, clk, jobs, cfg), newProcess name caps randomID clk jobs cfg) <$> specs) = Some (d, ps) →
  (∀ t, known d t → oneJob d (key t)) ∧
  ∀ cur, d_cursors d !! cursorID = Some cur → ∃ n, cur = occ next (pj_StartAt job) n ∧ covers job next (λ t, oneJob d (key t)) n.
Proof.
  intros Hspecs Hq Hb Hrun.
  assert (group_inv 0 (New c, (λ '(name, caps, randomID, clk, jobs, cfg), newProcess name caps randomID clk jobs cfg) <$> specs)) as Hg.
  { split; simpl.
    - split; [apply init_inv|intros ? ? ? ? ? _ Hr; simpl in Hr; by rewrite lookup_empty in Hr|].
      simpl. intros cur Hc. by rewrite lookup_empty in Hc.
    - intros i pr Hi. apply list_lookup_fmap_Some in Hi as ([[[[[name caps] randomID] clk] jobs] cfg] & -> & Hi).
      rewrite Forall_lookup in Hspecs. destruct (Hspecs _ _ Hi) as [Hjobs Hname]. split; simpl; [done|done| |done].
      apply Forall_fmap. eapply Forall_impl; [exact Hjobs|]. done. }
  destruct (cronRun_inv evs 0 _ _ Hg ltac:(lia) Hq Hrun) as [[_ Hu Hcur] _]. simpl in *. split.
  - intros t. by apply keyed_once.
  - intros cur Hc. destruct (Hcur _ Hc) as (n & -> & Hn). exists n. split; [done|]. eapply covers_mono; [|done].
    intros t. by apply keyed_once.
Qed.

(** ** A tick that is not disturbed *)

Lemma perform_bind (client : ClientConfig Driver) {A B} (p : prog A) (f : A → prog B) : ∀ e,
  perform (Tx := unit) client (p ≫= f) e = let '(e', a) := perform (Tx := unit) client p e in perform (Tx := unit) client (f a) e'.
Proof. induction p as [a|c k IH]; intros e; simpl; [done|]. destruct (performCall client c e) as [e' x]. apply IH. Qed.

(** The search stops at the last due occurrence, or when it has enough. *)
Lemma scan_finds (sched : Schedule) now max m : ∀ limit c acc,
  (∀ i, (i < m)%nat → occ sched c i < occ sched c (S i) ≤ now ∧ occ sched c (S i) ≠ 0) → (m < limit)%nat ∨ Z.of_nat (length acc + m) = max →
  Z.of_nat (length acc + m) ≤ max ∧ (m ≤ limit)%nat → Z.of_nat (length acc) < max →
  (Z.of_nat (length acc + m) < max → now < occ sched c (S m) ∧ occ sched c m < occ sched c (S m) ∧ occ sched c (S m) ≠ 0) →
  ∃ complete, scan sched now (λ due, max <=? Z.of_nat (length due)) limit c acc = Scanned (acc ++ occs sched c m) complete.
Proof.
  induction m as [|m IH]; intros limit c acc Hocc Hlim [Hmax Hml] Hacc Hend.
  - destruct limit as [|limit]; [lia|]. destruct Hend as (He1 & He2 & He3); [lia|]. unfold occ in He1, He2, He3. simpl in *.
    unfold IsZero, After. rewrite (proj2 (Z.eqb_neq _ _)), (proj2 (Z.ltb_lt c _)), (proj2 (Z.ltb_lt now _)) by done. simpl.
    rewrite app_nil_r. eauto.
  - destruct limit as [|limit]; [lia|]. destruct (Hocc 0%nat ltac:(lia)) as [[H1 H2] H3]. unfold occ in H1, H2, H3. simpl in H1, H2, H3.
    rewrite occs_cons. cbn [scan]. unfold IsZero, After. rewrite (proj2 (Z.eqb_neq _ _)), (proj2 (Z.ltb_lt c _)), (proj2 (Z.ltb_ge now _)) by done.
    cbn [negb orb]. assert (∀ i, occ sched (sched c) i = occ sched c (S i)) as Eocc.
    { intros i. change (sched c) with (occ sched c 1). by rewrite occ_add. }
    destruct (max <=? Z.of_nat (length (acc ++ [sched c]))) eqn:Em; rewrite length_app in Em; simpl in Em; bool_to_prop.
    + assert (m = 0%nat) as -> by lia. eauto.
    + destruct (IH limit (sched c) (acc ++ [sched c])) as [complete Hs]; rewrite ?length_app; simpl; try lia.
      * intros i Hi. rewrite !Eocc. apply Hocc. lia.
      * intros Hlt. rewrite !Eocc. apply Hend. lia.
      * exists complete. by rewrite Hs, <-app_assoc.
Qed.

(** The client can turn every occurrence into a job. *)
Definition enqueuable (client : ClientConfig Driver) : Prop :=
  ∀ t clk, ∃ clk' p, buildInsertParams client (Some (pj_Args job)) (Some (occurrenceOpts group job t)) clk = (clk', Ok p).

Lemma enqueuable_intro (client : ClientConfig Driver) a j v stored :
  checkArgs (Some (pj_Args job)) = Ok (a, j, v) → checkOpts (occurrenceOpts group job zeroTime) = None →
  EncodePayload (print j) (let pv := io_PayloadVersion (default emptyOpts (pj_Opts job)) in if 0 <? pv then pv else v) = Ok stored →
  enqueuable client.
Proof.
  intros Ha Ho He t clk. unfold buildInsertParams. rewrite Ha.
  replace (checkOpts (occurrenceOpts group job t)) with (@None error) by (rewrite <-Ho; reflexivity).
  unfold occurrenceOpts. cbn [io_UniqueOpts io_Queue io_PayloadVersion]. destruct (Now clk) as [now clk'].
  cbn [buildUniqueKey uo_ByArgs]. cbv zeta in He. rewrite He. eauto.
Qed.

Lemma enqueue_alone (client : ClientConfig Driver) t k d clk reports :
  cl_Admission client = None → enqueuable client → jobs_inv k d → k + 1 < 2 ^ 63 →
  ∃ d' clk', perform (Tx := unit) client (enqueueOccurrence timeString group job t) (mkCronEnv d clk reports) = (mkCronEnv d' clk' reports, true) ∧
    jobs_inv (k + 1) d' ∧ keepsKeys d d' ∧ d_cursors d' = d_cursors d ∧ hasKey d' (key t).
Proof.
  intros Had Henq Hi Hb. unfold enqueueOccurrence. rewrite perform_bind. cbn [call perform performCall ve_store ve_clk ve_reports].
  destruct (Enqueue _ _ _ _) as [env r] eqn:E. cbn [perform].
  destruct (enqueue_store client _ _ k d clk env r Had Hi Hb E) as [Hst Hkey].
  assert (jobs_inv (k + 1) (en_store env) ∧ keepsKeys d (en_store env) ∧ d_cursors (en_store env) = d_cursors d) as (H1 & H2 & H3).
  { destruct Hst as [->|[p ->]]; [split; [eapply jobs_inv_mono; [|done]; lia|by split; [apply keepsKeys_refl|]]|]. split_and!.
    - apply (insertMany_inv [p] k d); simpl; [done|lia].
    - apply insertMany_keeps with k; simpl; [done|lia].
    - apply insertMany_cursors. }
  assert (∃ res, r = Ok res) as [res ->].
  { unfold Enqueue in E. simpl in E. destruct (Henq t clk) as (clk1 & p & Ep). rewrite Ep in E.
    apply single_insert_spec in E as [(err & Ha & _)|(results & err & Hd & Hr & _ & _)];
      [unfold admitBatch in Ha; by rewrite Had in Ha|].
    simpl in Hd. unfold insertedOf in Hd. injection Hd as _ Hres. destruct (JobInsertMany d [p]) as [d' r'] eqn:Ei.
    destruct (insertMany_spec [p] k d d' r' Hi) as (rs & -> & Hall & _); [simpl; lia|done|].
    apply Forall2_cons_inv_l in Hall as (res & rs' & _ & ->%Forall2_nil_inv_l & ->). simpl in Hres. simplify_eq.
    exists res. by apply Hr. }
  simpl. exists (en_store env), (en_clk env). split_and!; [done..|]. by eapply Hkey.
Qed.

Lemma catchUp_alone (client : ClientConfig Driver) c0 m : cl_Admission client = None → enqueuable client → ∀ j k d clk reports,
  jobs_inv k d → k + Z.of_nat m < 2 ^ 63 → d_cursors d !! cursorID = Some (occ next c0 j) →
  ∃ d' clk', perform (Tx := unit) client (catchUp timeString group job cursorID (occ next c0 j) (occs next (occ next c0 j) m)) (mkCronEnv d clk reports) =
      (mkCronEnv d' clk' reports, tt) ∧ jobs_inv (k + Z.of_nat m) d' ∧ keepsKeys d d' ∧ d_cursors d' !! cursorID = Some (occ next c0 (j + m)) ∧
    ∀ i, (j < i ≤ j + m)%nat → hasKey d' (key (occ next c0 i)).
Proof.
  intros Had Henq. induction m as [|m IH]; intros j k d clk reports Hi Hb Hc.
  { exists d, clk. rewrite Nat.add_0_r, Z.add_0_r. split_and!; [done|done|apply keepsKeys_refl|done|lia]. }
  rewrite occs_cons. cbn [catchUp]. rewrite perform_bind.
  destruct (enqueue_alone client (next (occ next c0 j)) k d clk reports Had Henq Hi ltac:(lia)) as (d1 & clk1 & -> & Hi1 & Hk1 & Hc1 & Hkey).
  cbn [negb]. rewrite perform_bind. unfold advanceCursor. rewrite perform_bind. cbn [call perform performCall ve_store ve_clk ve_reports].
  unfold onStore. simpl. unfold ScheduleCursorAdvance. simpl. rewrite Hc1, Hc. unfold TimeEqual, UTC. rewrite Z.eqb_refl. simpl.
  match goal with |- context [mkCronEnv ?x clk1 reports] => set (d2 := x) end.
  assert (jobs_inv (k + 1) d2) as Hi2 by (by eapply jobs_inv_frame; [..|exact Hi1]).
  destruct (IH (S j) (k + 1) d2 clk1 reports Hi2 ltac:(lia)) as (d3 & clk3 & E & Hi3 & Hk3 & Hc3 & Hall).
  { unfold d2. simpl. by rewrite lookup_insert_eq. }
  rewrite (occ_S next c0 j) in E. rewrite E. exists d3, clk3. split_and!; [done|..].
  - replace (k + Z.of_nat (S m)) with (k + 1 + Z.of_nat m) by lia. done.
  - intros id row Hr. destruct (Hk1 _ _ Hr) as (r1 & Hr1 & E1). destruct (Hk3 id r1 Hr1) as (r3 & Hr3 & E3). exists r3. by rewrite E3.
  - rewrite Hc3. f_equal. f_equal. lia.
  - intros i Hin. destruct (decide (i = S j)) as [->|]; [|apply Hall; lia]. by apply (keepsKeys_has d1 d3); [apply Hk3|].
Qed.

Lemma scanLimit_eq : Z.of_nat scanLimit = 100000.
Proof. unfold scanLimit. by rewrite N_nat_Z. Qed.

(* Its unary form is never computed here. *)
#[local] Opaque scanLimit.

(** A tick catches up.  When nothing disturbs the tick of a durable job whose
    policy is to catch up on everything, and the client accepts the job, the tick
    reports no error, leaves a job for each of the [m] occurrences due since the
    cursor (at most [MaxCatchUp] of them), and moves the cursor to the last one. *)
Theorem tick_catches_up (client : ClientConfig Driver) m now k d clk reports :
  cl_Admission client = None → enqueuable client → jobs_inv k d → k + Z.of_nat m < 2 ^ 63 →
  pj_CatchUp job = CronCatchUpAll → 0 < maxCatchUp group job ≤ 100000 → Z.of_nat m ≤ maxCatchUp group job →
  let c := default (pj_StartAt job) (d_cursors d !! cursorID) in
  (∀ i, (i < m)%nat → occ next c i < occ next c (S i) ≤ now ∧ occ next c (S i) ≠ 0) →
  (Z.of_nat m < maxCatchUp group job → now < occ next c (S m) ∧ occ next c m < occ next c (S m) ∧ occ next c (S m) ≠ 0) →
  ∃ d' clk', perform (Tx := unit) client (tickDurable timeString group next job now) (mkCronEnv d clk reports) = (mkCronEnv d' clk' reports, tt) ∧
    d_cursors d' !! cursorID = Some (occ next c m) ∧ ∀ i, (1 ≤ i ≤ m)%nat → hasKey d' (key (occ next c i)).
Proof.
  intros Had Henq Hi Hb Hpol Hmax Hm c Hocc Hend. unfold tickDurable. fold cursorID. rewrite perform_bind.
  cbn [call perform performCall ve_store ve_clk ve_reports]. unfold onStore.
  assert (∃ d1 created, ScheduleCursorGetOrCreate d (mkScheduleCursorCreateParams cursorID (UTC (pj_StartAt job))) =
      (d1, Ok (mkScheduleCursorResult c created)) ∧ jobs_inv k d1 ∧ d_cursors d1 !! cursorID = Some c) as (d1 & created & E & Hi1 & Hc1).
  { unfold ScheduleCursorGetOrCreate, c. simpl. destruct (d_cursors d !! cursorID) as [cur|] eqn:Ec; simpl.
    - by exists d, false.
    - eexists _, true. split; [done|]. split; [by eapply jobs_inv_frame; [..|exact Hi]|]. simpl. by rewrite lookup_insert_eq. }
  simpl. rewrite E. simpl. rewrite Hpol. cbn [CronCatchUpAll Z.eqb andb negb].
  pose proof scanLimit_eq as Hl.
  destruct (scan_finds next now (maxCatchUp group job) m scanLimit c []) as [complete Hs]; cbn [length Nat.add];
    [exact Hocc|lia|lia|lia|exact Hend|]. rewrite Hs. cbn [app].
  rewrite andb_false_r. unfold applyDue. rewrite Hpol.
  destruct m as [|m]; [simpl; exists d1, clk; split_and!; [done|done|lia]|]. rewrite occs_last.
  change (CronCatchUpAll =? CronCatchUpLatest) with false. change (CronCatchUpAll =? CronSkipMissed) with false. cbv iota.
  destruct (catchUp_alone client c (S m) Had Henq 0 k d1 clk reports Hi1 Hb Hc1) as (d' & clk' & Ep & _ & _ & Hc' & Hall).
  exists d', clk'. split; [exact Ep|]. split; [done|]. intros i Hin. apply Hall. lia.
Qed.
End group.
