(* ===== verification/CronDemo.v ===== *)
(** * cron.go: two schedulers that both believe they lead

    The leases of the demonstration run out at once, so that the second scheduler
    is elected while the first is still in its tick; their calls alternate. *)

From S2P Require Import Prelude GoBase Json Codec Core Driver Sha256 Memory MemoryInv MemoryFetch MemoryProps MemoryKeys MemoryLeases.
From S2P Require Import RateLimit MemoryLimiter Client ClientProps MemoryClient Cron CronProps CronGroup.
From Stdlib Require Import ZArith Lia.

#[local] Existing Instances map_to_list_range amd64_conv.

Definition everyTen : Schedule := Every (10 * Second).
Definition reportJob : PeriodicJob := mkPeriodicJob "report" (Some everyTen) demoArgs None demoT0 CronCatchUpAll 0.
Definition cronConfig (id : string) : CronConfig := mkCronConfig 0 None "" id Nanosecond 0.
Definition groupConfig : CronConfig := normalizeCron "" demoClock (cronConfig "a").
Definition showInstant (t : Instant) : string := FormatInt t.

(** The backend's clock goes on by a second from reading to reading. *)
Definition seconds : list Instant := Eval vm_compute in (λ i, demoT0 + Z.of_nat i * Second) <$> seq 0 8.
Definition ticking : Clock := mkClock (λ n, List.nth n seconds zeroTime) 0.
Definition schedulers : list (string * Capabilities * string * Clock * list PeriodicJob * CronConfig) :=
  (λ id, ("memory", MemoryCapabilities, "random", frozenClock (demoT0 + 25 * Second), [reportJob], cronConfig id)) <$> ["a"; "b"].

(** Election, clock, cursor; then enqueue and advance, twice. *)
Definition alternating : list cronEvent := [VTick 0; VTick 1] ++ concat (replicate 5 [VCall 0; VCall 1]) ++ [VCall 0; VCall 0].
Definition cronStart : Driver * list Process :=
  (New ticking, (λ '(name, caps, randomID, clk, jobs, cfg), newProcess name caps randomID clk jobs cfg) <$> schedulers).
Definition cronStore : Driver := Eval vm_compute in
  default (New ticking) (option_map fst (cronRun showInstant alternating cronStart)).
Definition reportCursor : string := cursorOf groupConfig reportJob.

Lemma cron_exactly_once_witness :
  option_map fst (cronRun showInstant alternating cronStart) = Some cronStore ∧
  d_cursors cronStore !! reportCursor = Some (demoT0 + 20 * Second) ∧ size (d_jobs cronStore) = 2%nat ∧
  ∃ n, demoT0 + 20 * Second = occ everyTen demoT0 n ∧
    covers reportJob everyTen (λ t, oneJob cronStore (keyOf groupConfig reportJob t)) n.
Proof.
  assert (option_map fst (cronRun showInstant alternating cronStart) = Some cronStore) as Hrun by (vm_compute; reflexivity).
  split; [exact Hrun|]. split; [vm_compute; reflexivity|]. split; [vm_compute; reflexivity|].
  destruct (cronRun showInstant alternating cronStart) as [[d ps]|] eqn:E; [|discriminate Hrun].
  injection Hrun as Hd. subst d.
  refine (proj2 (cron_exactly_once showInstant groupConfig reportJob everyTen eq_refl schedulers alternating ticking cronStore ps _ _ _ E) _ _).
  - repeat constructor; right; left; reflexivity.
  - repeat constructor.
  - vm_compute. reflexivity.
  - vm_compute. reflexivity.
Defined.

(** One scheduler alone, twenty-five seconds late. *)
Definition aloneClient : ClientConfig Driver := sc_client (newCronScheduler "memory" MemoryCapabilities "random" demoClock [reportJob] (cronConfig "a")).

Lemma report_enqueuable : enqueuable groupConfig reportJob aloneClient.
Proof. eapply enqueuable_intro; [vm_compute; reflexivity..]. Qed.

Lemma tick_catches_up_witness : ∃ d' clk',
  perform (Tx := unit) aloneClient (tickDurable showInstant groupConfig everyTen reportJob (demoT0 + 25 * Second))
    (mkCronEnv (New demoClock) demoClock []) = (mkCronEnv d' clk' [], tt) ∧
  d_cursors d' !! reportCursor = Some (demoT0 + 20 * Second) ∧ hasKey d' (keyOf groupConfig reportJob (demoT0 + 10 * Second)).
Proof.
  destruct (tick_catches_up showInstant groupConfig reportJob everyTen aloneClient 2 (demoT0 + 25 * Second) 0 (New demoClock) demoClock [])
    as (d' & clk' & Hp & Hc & Hk).
  - reflexivity.
  - exact report_enqueuable.
  - apply init_inv.
  - reflexivity.
  - reflexivity.
  - split; vm_compute; [reflexivity|discriminate].
  - vm_compute. discriminate.
  - intros [|[|i]] Hi; [| |lia]; (split; [split; vm_compute; [reflexivity|discriminate]|vm_compute; discriminate]).
  - intros _. split; [vm_compute; reflexivity|]. split; [vm_compute; reflexivity|vm_compute; discriminate].
  - exists d', clk'. split; [exact Hp|]. split; [exact Hc|]. exact (Hk 1%nat ltac:(lia)).
Defined.
