(* ===== verification/WorkerConfig.v ===== *)
(** * worker.go: configuration of a worker pool

    Validation, normalisation of the defaults, the weighted queue schedule, the
    normalised rate-limit rules and the replacement of one queue's policy at run
    time.  The error handler is not represented: what would be reported is
    collected by the operations of the later files. *)

From S2P Require Import Prelude GoBase Json Codec Core Driver RateLimit Sha256.
From Stdlib Require Import ZArith Lia.

(** ** Types *)

Definition Handler : Type := Ctx → RawJob → RawJob * outcome.
Definition JobMiddleware : Type := Ctx → RawJob → Handler → RawJob * outcome.

(** [type RateLimitScope uint8] and [type RateLimitKey uint8]. *)
Abbreviation RateLimitScope := Z (only parsing).
Definition RateLimitScopeLocal : RateLimitScope := 0.
Definition RateLimitScopeGlobal : RateLimitScope := 1.
Abbreviation RateLimitKey := Z (only parsing).
Definition RateLimitKeyQueue : RateLimitKey := 0.
Definition RateLimitKeyKind : RateLimitKey := 1.
Definition RateLimitKeyPipeline : RateLimitKey := 2.
Definition RateLimitKeyTag : RateLimitKey := 3.

Definition modeInt (mode : RateLimitMode) : Z :=
  match mode with RateLimitModeGCRA => 0 | RateLimitModeFixedWindow => 1 | RateLimitModeOther m => m end.

Record QueueRateLimit := mkQueueRateLimit {
  qr_Limit : Z;
  qr_Period : Duration;
  qr_Burst : Z;
  qr_Scope : RateLimitScope;
  qr_Key : RateLimitKey;
  qr_TagPrefix : string;
  qr_Mode : RateLimitMode
}.

Record KeyConcurrencyLimit := mkKeyConcurrencyLimit {
  kc_Key : RateLimitKey;
  kc_TagPrefix : string;
  kc_Limit : Z
}.

Record QueuePolicy := mkQueuePolicy {
  qp_Weight : Z;
  qp_Concurrency : Z;
  qp_KeyConcurrency : list KeyConcurrencyLimit;
  qp_RateLimits : list QueueRateLimit;
  qp_RateLimit : Z;
  qp_RatePeriod : Duration
}.
Definition zeroPolicy : QueuePolicy := mkQueuePolicy 0 0 [] [] 0 0.

Record WorkerConfig := mkWorkerConfig {
  wc_Queues : list string;
  wc_QueuePolicies : gmap string QueuePolicy;
  wc_DistributedPipelines : bool;
  wc_PipelineLeaseDuration : Duration;
  wc_PipelinePollInterval : Duration;
  wc_RateLimitPollInterval : Duration;
  wc_Concurrency : Z;
  wc_MaxPending : Z;
  wc_WorkerID : string;
  wc_PollInterval : Duration;
  wc_RetryPolicy : option RetryPolicy;
  wc_ShutdownTimeout : Duration;
  wc_StuckJobTimeout : Duration;
  wc_RescueInterval : Duration;
  wc_HeartbeatInterval : Duration;
  wc_Middleware : list JobMiddleware;
  wc_Observer : bool;
  wc_RequireLifecyclePersistence : bool;
  wc_RequireStrictOrdering : bool
}.

Definition set_policies (ps : gmap string QueuePolicy) (c : WorkerConfig) : WorkerConfig :=
  mkWorkerConfig (wc_Queues c) ps (wc_DistributedPipelines c) (wc_PipelineLeaseDuration c)
    (wc_PipelinePollInterval c) (wc_RateLimitPollInterval c) (wc_Concurrency c) (wc_MaxPending c) (wc_WorkerID c)
    (wc_PollInterval c) (wc_RetryPolicy c) (wc_ShutdownTimeout c) (wc_StuckJobTimeout c) (wc_RescueInterval c)
    (wc_HeartbeatInterval c) (wc_Middleware c) (wc_Observer c) (wc_RequireLifecyclePersistence c)
    (wc_RequireStrictOrdering c).

Record normalizedRateLimit := mkNormalizedRateLimit {
  nr_key : string;
  nr_limit : Z;
  nr_burst : Z;
  nr_period : Duration;
  nr_interval : Duration;
  nr_tolerance : Duration;
  nr_scope : RateLimitScope;
  nr_keyBy : RateLimitKey;
  nr_tagPrefix : string;
  nr_mode : RateLimitMode
}.

#[export] Instance RateLimitMode_eq_dec : EqDecision RateLimitMode.
Proof. solve_decision. Defined.
#[export] Instance normalizedRateLimit_eq_dec : EqDecision normalizedRateLimit.
Proof. solve_decision. Defined.

(** ** Validation *)

(** [problems = append(problems, msg)] under a condition. *)
Definition problem (bad : bool) (msg : string) : list string := if bad then [msg] else [].

Definition defaultQueue (queue : string) : string := if bool_decide (queue = "") then "default" else queue.

Definition isMode (mode : RateLimitMode) : bool :=
  match mode with RateLimitModeOther _ => false | _ => true end.
Definition isFixed (mode : RateLimitMode) : bool :=
  match mode with RateLimitModeFixedWindow => true | _ => false end.

Section validate.
Context `{MapRange} (name : string) (caps : Capabilities).

Definition ruleProblems (prefix : string) (rule : QueueRateLimit) : list string :=
  problem (qr_Limit rule <? 0) (prefix +:+ " Limit must not be negative") ++
  problem ((0 <? qr_Limit rule) && (qr_Limit rule <? qr_Burst rule)) (prefix +:+ " Burst must not exceed Limit") ++
  problem (negb (qr_Scope rule =? RateLimitScopeLocal) && negb (qr_Scope rule =? RateLimitScopeGlobal))
    (prefix +:+ " has an unknown Scope") ++
  problem (RateLimitKeyTag <? qr_Key rule) (prefix +:+ " has an unknown Key") ++
  problem (negb (isMode (qr_Mode rule))) (prefix +:+ " has an unknown Mode") ++
  (let period := if qr_Period rule <=? 0 then Second else qr_Period rule in
   problem (isFixed (qr_Mode rule) && (0 <? qr_Limit rule) && (durDiv period Millisecond <=? qr_Limit rule))
     (prefix +:+ " fixed-window Limit must be smaller than Period milliseconds")) ++
  problem ((qr_Scope rule =? RateLimitScopeGlobal) && (0 <? qr_Limit rule) && negb (LinearizableCAS caps))
    (prefix +:+ " requires linearizable CAS, unsupported by driver " +:+ quoted name).

Definition keyProblems (prefix : string) (rule : KeyConcurrencyLimit) : list string :=
  problem (kc_Limit rule <=? 0) (prefix +:+ " Limit must be positive") ++
  problem ((kc_Key rule =? RateLimitKeyQueue) || (RateLimitKeyTag <? kc_Key rule))
    (prefix +:+ " Key must be kind, pipeline, or tag").

(** [for i, rule := range rules]. *)
Definition forIndexed {A} (f : Z → A → list string) (l : list A) : list string :=
  concat (imap (λ i x, f (Z.of_nat i) x) l).

Definition policyProblems (queues : gset string) (queue : string) (policy : QueuePolicy) : list string :=
  let at_queue := "QueuePolicies[" +:+ quoted queue +:+ "]" in
  problem (negb (bool_decide (queue ∈ queues))) (at_queue +:+ " is not listed in Queues") ++
  problem ((qp_Weight policy <? 0) || (qp_Concurrency policy <? 0) || (qp_RateLimit policy <? 0))
    (at_queue +:+ " contains a negative limit") ++
  forIndexed (λ i, ruleProblems (at_queue +:+ ".RateLimits[" +:+ FormatInt i +:+ "]")) (qp_RateLimits policy) ++
  forIndexed (λ i, keyProblems (at_queue +:+ ".KeyConcurrency[" +:+ FormatInt i +:+ "]")) (qp_KeyConcurrency policy).

Definition configuredQueues (cfg : WorkerConfig) : gset string :=
  match wc_Queues cfg with
  | [] => {[ "default" ]}
  | queues => list_to_set (defaultQueue <$> queues)
  end.

Definition configProblems (cfg : WorkerConfig) : list string :=
  problem (wc_Concurrency cfg <? 0) "Concurrency must not be negative" ++
  problem (wc_MaxPending cfg <? 0) "MaxPending must not be negative" ++
  problem ((0 <? wc_Concurrency cfg) && (0 <? wc_MaxPending cfg) && (wc_MaxPending cfg <? wc_Concurrency cfg))
    "MaxPending must be at least Concurrency" ++
  concat ((λ kv, policyProblems (configuredQueues cfg) kv.1 kv.2) <$> range_map (wc_QueuePolicies cfg)) ++
  problem (wc_DistributedPipelines cfg && negb (LinearizableLeases caps))
    ("DistributedPipelines requires linearizable leases, unsupported by driver " +:+ quoted name) ++
  problem (wc_RequireLifecyclePersistence cfg && negb (LifecycleTimestamps caps))
    ("RequireLifecyclePersistence is unsupported by driver " +:+ quoted name) ++
  problem (wc_RequireStrictOrdering cfg && negb (StrictFetchOrdering caps))
    ("RequireStrictOrdering is unsupported by driver " +:+ quoted name).

(** [strings.Join(problems, "; ")]. *)
Definition joinProblems (l : list string) : string := String.concat "; " l.

Definition ValidateWorkerConfig (cfg : WorkerConfig) : option error :=
  match configProblems cfg with
  | [] => None
  | problems => Some (ENew ("invalid worker config: " +:+ joinProblems problems))
  end.
End validate.

(** ** Normalised rate limits *)

(** [hex.EncodeToString(digest[:16])]. *)
Definition shortDigest (s : string) : string := hexBytes (take 16 (Sum256 s)).

Section normalize.
Context `{FloatConv}.

(** The rule with its defaults filled in. *)
Definition defaultRule (rule : QueueRateLimit) : QueueRateLimit :=
  let period := if qr_Period rule <=? 0 then Second else qr_Period rule in
  let burst := if qr_Burst rule <=? 0 then 1 else qr_Burst rule in
  let burst := if qr_Limit rule <? burst then qr_Limit rule else burst in
  let scope := if qr_Scope rule =? RateLimitScopeGlobal then qr_Scope rule else RateLimitScopeLocal in
  mkQueueRateLimit (qr_Limit rule) period burst scope (qr_Key rule) (qr_TagPrefix rule) (qr_Mode rule).

Definition ruleSignature (r : QueueRateLimit) : string :=
  FormatInt (qr_Limit r) +:+ ":" +:+ FormatInt (qr_Period r) +:+ ":" +:+ FormatInt (qr_Burst r) +:+ ":" +:+
  FormatInt (qr_Scope r) +:+ ":" +:+ FormatInt (qr_Key r) +:+ ":" +:+ qr_TagPrefix r +:+ ":" +:+
  FormatInt (modeInt (qr_Mode r)).

Definition normalizeRule (queue : string) (r : QueueRateLimit) : normalizedRateLimit :=
  let interval := f64_to_int64 (f64_div (f64_of_int (qr_Period r)) (f64_of_int (qr_Limit r))) in
  let interval := if interval <? Nanosecond then Nanosecond else interval in
  let tolerance := durMul interval (qr_Burst r - 1) in
  mkNormalizedRateLimit ("goncordia:rate:" +:+ shortDigest (queue +:+ nul +:+ ruleSignature r))
    (qr_Limit r) (qr_Burst r) (qr_Period r) interval tolerance (qr_Scope r) (qr_Key r) (qr_TagPrefix r) (qr_Mode r).

Fixpoint normalizeLoop (queue : string) (seen : gset string) (configured : list QueueRateLimit)
  : list normalizedRateLimit :=
  match configured with
  | [] => []
  | rule :: rest =>
      if qr_Limit rule <=? 0 then normalizeLoop queue seen rest
      else let r := defaultRule rule in
           if bool_decide (ruleSignature r ∈ seen) then normalizeLoop queue seen rest
           else normalizeRule queue r :: normalizeLoop queue ({[ ruleSignature r ]} ∪ seen) rest
  end.

Definition normalizeRateLimits (queue : string) (policy : QueuePolicy) : list normalizedRateLimit :=
  let legacy := if 0 <? qp_RateLimit policy
    then [mkQueueRateLimit (qp_RateLimit policy) (qp_RatePeriod policy) (qp_RateLimit policy)
            RateLimitScopeLocal RateLimitKeyQueue "" RateLimitModeGCRA]
    else [] in
  normalizeLoop queue ∅ (qp_RateLimits policy ++ legacy).
End normalize.

(** ** The pool's configuration state *)

Record WorkerPool := mkWorkerPool {
  wp_config : WorkerConfig;
  wp_configErr : option error;
  wp_queueSchedule : list string;
  wp_rateLimits : gmap string (list normalizedRateLimit);
  (* how many [policyChanged] channels have been closed so far *)
  wp_policyChanged : nat
}.

Definition policyOf (cfg : WorkerConfig) (queue : string) : QueuePolicy :=
  default zeroPolicy (wc_QueuePolicies cfg !! queue).

Definition queuePolicy (p : WorkerPool) (queue : string) : QueuePolicy := policyOf (wp_config p) queue.
Definition queueRateLimits (p : WorkerPool) (queue : string) : list normalizedRateLimit :=
  default [] (wp_rateLimits p !! queue).

Definition queueWeight (policy : QueuePolicy) : Z := if qp_Weight policy <=? 0 then 1 else qp_Weight policy.

(** One slot per unit of weight, queue after queue. *)
Definition scheduleOf (cfg : WorkerConfig) : list string :=
  concat ((λ queue, replicate (Z.to_nat (queueWeight (policyOf cfg queue))) queue) <$> wc_Queues cfg).

(** The loop that drops repeated queue names. *)
Fixpoint dedupQueues (seen : gset string) (queues : list string) : list string :=
  match queues with
  | [] => []
  | queue :: rest =>
      let q := defaultQueue queue in
      if bool_decide (q ∈ seen) then dedupQueues seen rest
      else q :: dedupQueues ({[ q ]} ∪ seen) rest
  end.

Section pool.
Context `{MapRange} `{FloatConv} (name : string) (caps : Capabilities) (randomID : string).

Definition normalizeConfig (cfg : WorkerConfig) : WorkerConfig :=
  let concurrency := if wc_Concurrency cfg <=? 0 then 10 else wc_Concurrency cfg in
  let maxPending := if wc_MaxPending cfg <=? 0 then wrap64 (concurrency * 4) else wc_MaxPending cfg in
  let maxPending := if maxPending <? concurrency then concurrency else maxPending in
  let orDefault d v := if v <=? 0 then d else v in
  let stuck := if wc_StuckJobTimeout cfg =? 0 then Hour else wc_StuckJobTimeout cfg in
  let heartbeat := if (wc_HeartbeatInterval cfg =? 0) && (0 <? stuck) then durDiv stuck 3 else wc_HeartbeatInterval cfg in
  let heartbeat := if (0 <? stuck) && (stuck <=? heartbeat) then durDiv stuck 3 else heartbeat in
  let queues := match wc_Queues cfg with [] => ["default"] | qs => dedupQueues ∅ qs end in
  mkWorkerConfig queues (wc_QueuePolicies cfg) (wc_DistributedPipelines cfg)
    (orDefault (30 * Second) (wc_PipelineLeaseDuration cfg)) (orDefault (250 * Millisecond) (wc_PipelinePollInterval cfg))
    (orDefault Second (wc_RateLimitPollInterval cfg)) concurrency maxPending
    (if bool_decide (wc_WorkerID cfg = "") then randomID else wc_WorkerID cfg)
    (orDefault Second (wc_PollInterval cfg))
    (Some (default (ExponentialNextRetryAt DefaultRetryPolicy f64_zero) (wc_RetryPolicy cfg)))
    (orDefault (30 * Second) (wc_ShutdownTimeout cfg)) stuck (orDefault Minute (wc_RescueInterval cfg)) heartbeat
    (wc_Middleware cfg) (wc_Observer cfg) (wc_RequireLifecyclePersistence cfg) (wc_RequireStrictOrdering cfg).

Definition newWorkerPool (cfg : WorkerConfig) : WorkerPool :=
  let configErr := ValidateWorkerConfig name caps cfg in
  let cfg := normalizeConfig cfg in
  mkWorkerPool cfg configErr (scheduleOf cfg)
    (list_to_map ((λ queue, (queue, normalizeRateLimits queue (policyOf cfg queue))) <$> wc_Queues cfg)) 0.

Definition NewWorkerPoolChecked (cfg : WorkerConfig) : result WorkerPool :=
  let pool := newWorkerPool cfg in
  match wp_configErr pool with Some e => Err e | None => Ok pool end.

Definition UpdateQueuePolicy (p : WorkerPool) (queue : string) (policy : QueuePolicy) : WorkerPool * option error :=
  let queue := defaultQueue queue in
  if negb (bool_decide (queue ∈ wc_Queues (wp_config p)))
  then (p, Some (ENew ("queue " +:+ quoted queue +:+ " is not configured")))
  else
    let candidate := set_policies (<[queue := policy]> (wc_QueuePolicies (wp_config p))) (wp_config p) in
    match ValidateWorkerConfig name caps candidate with
    | Some e => (p, Some e)
    | None =>
        (mkWorkerPool candidate (wp_configErr p) (scheduleOf candidate)
           (<[queue := normalizeRateLimits queue policy]> (wp_rateLimits p)) (S (wp_policyChanged p)), None)
    end.
End pool.
