(* ===== verification/WorkerConfigProps.v ===== *)
(** * What configuring a worker pool guarantees

    Validation accepts exactly the meaningful configurations; and whatever was
    asked for, the pool that is built, and every later policy change, is within
    the bounds the engine relies on. *)

From S2P Require Import Prelude GoBase Json Codec Core Driver Memory RateLimit Sha256 WorkerConfig.
From Stdlib Require Import ZArith Lia.

(** ** Validation *)

Section validate.
Context `{MapRange} (name : string) (caps : Capabilities).

Record validRule (rule : QueueRateLimit) : Prop := {
  vr_limit : 0 ≤ qr_Limit rule;
  vr_burst : 0 < qr_Limit rule → qr_Burst rule ≤ qr_Limit rule;
  vr_scope : qr_Scope rule = RateLimitScopeLocal ∨ qr_Scope rule = RateLimitScopeGlobal;
  vr_key : qr_Key rule ≤ RateLimitKeyTag;
  vr_mode : qr_Mode rule = RateLimitModeGCRA ∨ qr_Mode rule = RateLimitModeFixedWindow;
  vr_window : qr_Mode rule = RateLimitModeFixedWindow → 0 < qr_Limit rule →
    qr_Limit rule < durDiv (if qr_Period rule <=? 0 then Second else qr_Period rule) Millisecond;
  vr_cas : qr_Scope rule = RateLimitScopeGlobal → 0 < qr_Limit rule → LinearizableCAS caps = true
}.

Record validKey (rule : KeyConcurrencyLimit) : Prop := {
  vk_limit : 0 < kc_Limit rule;
  vk_key : kc_Key rule ≠ RateLimitKeyQueue ∧ kc_Key rule ≤ RateLimitKeyTag
}.

Record validPolicy (cfg : WorkerConfig) (queue : string) (policy : QueuePolicy) : Prop := {
  vp_listed : match wc_Queues cfg with
              | [] => queue = "default"
              | queues => ∃ q, q ∈ queues ∧ queue = defaultQueue q
              end;
  vp_nonneg : 0 ≤ qp_Weight policy ∧ 0 ≤ qp_Concurrency policy ∧ 0 ≤ qp_RateLimit policy;
  vp_rules : Forall validRule (qp_RateLimits policy);
  vp_keys : Forall validKey (qp_KeyConcurrency policy)
}.

Record validConfig (cfg : WorkerConfig) : Prop := {
  vc_concurrency : 0 ≤ wc_Concurrency cfg;
  vc_pending : 0 ≤ wc_MaxPending cfg;
  vc_enough : 0 < wc_Concurrency cfg → 0 < wc_MaxPending cfg → wc_Concurrency cfg ≤ wc_MaxPending cfg;
  vc_policies : ∀ queue policy, wc_QueuePolicies cfg !! queue = Some policy → validPolicy cfg queue policy;
  vc_leases : wc_DistributedPipelines cfg = true → LinearizableLeases caps = true;
  vc_lifecycle : wc_RequireLifecyclePersistence cfg = true → LifecycleTimestamps caps = true;
  vc_ordering : wc_RequireStrictOrdering cfg = true → StrictFetchOrdering caps = true
}.

Lemma problem_nil b msg : problem b msg = [] ↔ b = false.
Proof. by destruct b. Qed.

Lemma concat_nil_iff (l : list (list string)) : concat l = [] ↔ Forall (λ x, x = []) l.
Proof.
  induction l as [|x l IH]; simpl; [by split|].
  rewrite Forall_cons, <-IH. destruct x; simpl; naive_solver.
Qed.

Lemma forIndexed_nil {A} (f : Z → A → list string) (P : A → Prop) (l : list A) :
  (∀ i x, f i x = [] ↔ P x) → forIndexed f l = [] ↔ Forall P l.
Proof.
  intros Hf. unfold forIndexed. rewrite concat_nil_iff, !Forall_lookup. setoid_rewrite list_lookup_imap. split.
  - intros Hall i x Hx. apply (Hf (Z.of_nat i)). apply (Hall i). by rewrite Hx.
  - intros Hall i y. destruct (l !! i) as [x|] eqn:Hx; simpl; [|done]. intros [= <-]. apply Hf. eauto.
Qed.

Lemma ruleProblems_nil prefix rule : ruleProblems name caps prefix rule = [] ↔ validRule rule.
Proof.
  unfold ruleProblems. rewrite !app_nil, !problem_nil. split.
  - intros (H1 & H2 & H3 & H4 & H5 & H6 & H7).
    assert (qr_Mode rule = RateLimitModeGCRA ∨ qr_Mode rule = RateLimitModeFixedWindow) as Hm
      by (destruct (qr_Mode rule); naive_solver).
    split; [bool_to_prop; done| | |bool_to_prop; done|done| |].
    + intros Hl. apply andb_false_iff in H2. rewrite !Z.ltb_ge in H2. lia.
    + apply andb_false_iff in H3. rewrite !negb_false_iff, !Z.eqb_eq in H3. done.
    + intros Em Hl. rewrite Em in H6. simpl in H6. apply andb_false_iff in H6. rewrite Z.ltb_ge, Z.leb_gt in H6. lia.
    + intros Es Hl. rewrite Es in H7. simpl in H7. apply andb_false_iff in H7.
      rewrite Z.ltb_ge, negb_false_iff in H7. destruct H7; [lia|done].
  - intros [H1 H2 H3 H4 H5 H6 H7]. split_and!.
    + by apply Z.ltb_ge.
    + apply andb_false_iff. rewrite !Z.ltb_ge. lia.
    + apply andb_false_iff. by rewrite !negb_false_iff, !Z.eqb_eq.
    + by apply Z.ltb_ge.
    + by destruct H5 as [-> | ->].
    + destruct (qr_Mode rule); try done. simpl. apply andb_false_iff. rewrite Z.ltb_ge, Z.leb_gt.
      destruct (decide (0 < qr_Limit rule)); [right; auto|left; lia].
    + destruct (qr_Scope rule =? RateLimitScopeGlobal) eqn:Es; [|done]. bool_to_prop. simpl.
      apply andb_false_iff. rewrite Z.ltb_ge, negb_false_iff.
      destruct (decide (0 < qr_Limit rule)); [right; auto|left; lia].
Qed.

Lemma keyProblems_nil prefix rule : keyProblems prefix rule = [] ↔ validKey rule.
Proof.
  unfold keyProblems. rewrite app_nil, !problem_nil, Z.leb_gt, orb_false_iff, Z.eqb_neq, Z.ltb_ge.
  split; [by intros [? ?]|intros [? ?]; done].
Qed.

Lemma configuredQueues_spec cfg queue :
  queue ∈ configuredQueues cfg ↔
    match wc_Queues cfg with [] => queue = "default" | queues => ∃ q, q ∈ queues ∧ queue = defaultQueue q end.
Proof.
  unfold configuredQueues. destruct (wc_Queues cfg); [set_solver|].
  rewrite elem_of_list_to_set, list_elem_of_fmap. naive_solver.
Qed.

Lemma policyProblems_nil cfg queue policy :
  policyProblems name caps (configuredQueues cfg) queue policy = [] ↔ validPolicy cfg queue policy.
Proof.
  unfold policyProblems. rewrite !app_nil, !problem_nil, (forIndexed_nil _ validRule), (forIndexed_nil _ validKey),
    negb_false_iff, bool_decide_eq_true, configuredQueues_spec, !orb_false_iff, !Z.ltb_ge.
  - split; [by intros (? & [[? ?] ?] & ? & ?)|by intros [? (? & ? & ?) ? ?]].
  - intros. apply keyProblems_nil.
  - intros. apply ruleProblems_nil.
Qed.

(** Validation looks for exactly what [validConfig] excludes. *)
Lemma validate_spec cfg :
  ValidateWorkerConfig name caps cfg = None ↔ validConfig cfg.
Proof.
  transitivity (configProblems name caps cfg = []).
  { unfold ValidateWorkerConfig. by destruct (configProblems name caps cfg). }
  unfold configProblems. rewrite !app_nil, !problem_nil, concat_nil_iff, Forall_fmap, Forall_forall, !Z.ltb_ge.
  assert (∀ a b, a && negb b = false ↔ (a = true → b = true)) as Himp by (intros [] []; naive_solver).
  rewrite !Himp. split.
  - intros (? & ? & H3 & H4 & ? & ? & ?). split; try done.
    + intros. rewrite <-andb_assoc in H3. apply andb_false_iff in H3 as [H3|H3]; [bool_to_prop; lia|].
      apply andb_false_iff in H3. rewrite !Z.ltb_ge in H3. lia.
    + intros queue policy Hp. apply policyProblems_nil. apply (H4 (queue, policy)). by apply elem_of_range.
  - intros [? ? H3 H4 ? ? ?]. split_and!; try done.
    + destruct (0 <? wc_Concurrency cfg) eqn:E1; [|done]. destruct (0 <? wc_MaxPending cfg) eqn:E2; [|done].
      bool_to_prop. simpl. apply Z.ltb_ge. auto.
    + intros [queue policy] Hp%elem_of_range. apply policyProblems_nil. eauto.
Qed.
End validate.

(** ** Rule signatures *)

Fixpoint hasColon (s : string) : bool :=
  match s with
  | EmptyString => false
  | String c s' => bool_decide (c = Ascii.ascii_of_nat 58) || hasColon s'
  end.

Lemma hasColon_app s t : hasColon (s +:+ t) = hasColon s || hasColon t.
Proof. induction s as [|c s IH]; simpl; [done|]. by rewrite IH, orb_assoc. Qed.

Lemma digits_no_colon fuel : ∀ n acc, 0 ≤ n → hasColon acc = false → hasColon (digits_fuel fuel n acc) = false.
Proof.
  induction fuel as [|fuel IH]; intros n acc Hn Ha; simpl; [done|].
  assert (hasColon (String (digit_char (n mod 10)) acc) = false) as Hd.
  { simpl. rewrite Ha, orb_false_r. apply bool_decide_eq_false. intros Hc.
    pose proof (Z.mod_pos_bound n 10 ltac:(lia)) as Hm. pose proof (char_digit_char (n mod 10) Hm) as Hcd.
    rewrite Hc in Hcd. vm_compute in Hcd. discriminate Hcd. }
  case_match; [done|]. apply IH; [|done]. apply Z.div_pos; lia.
Qed.

Lemma FormatInt_no_colon n : 0 ≤ n → hasColon (FormatInt n) = false.
Proof.
  intros Hn. unfold FormatInt. rewrite (proj2 (Z.ltb_ge n 0)) by lia. by apply digits_no_colon.
Qed.

Lemma colon_split u : ∀ v s t,
  hasColon u = false → hasColon v = false → u +:+ ":" +:+ s = v +:+ ":" +:+ t → u = v ∧ s = t.
Proof.
  induction u as [|c u IH]; intros [|d v] s t; simpl; intros Hu Hv Heq.
  - injection Heq as Heq. split; [done|exact Heq].
  - injection Heq as <- _. discriminate Hv.
  - injection Heq as -> _. discriminate Hu.
  - injection Heq as Hc Heq. subst. apply orb_false_iff in Hu as [_ Hu], Hv as [_ Hv].
    apply IH in Heq as [-> ->]; done.
Qed.

Lemma format_split a b s t :
  0 ≤ a → 0 ≤ b → FormatInt a +:+ ":" +:+ s = FormatInt b +:+ ":" +:+ t → a = b ∧ s = t.
Proof.
  intros Ha Hb [Hf ->]%colon_split; [|by apply FormatInt_no_colon..].
  split; [|done]. by apply FormatInt_inj_nonneg.
Qed.

(** The same from the right. *)
Lemma colon_split_right p : ∀ q u v,
  hasColon u = false → hasColon v = false → p +:+ ":" +:+ u = q +:+ ":" +:+ v → p = q ∧ u = v.
Proof.
  induction p as [|c p IH]; intros [|d q] u v; simpl; intros Hu Hv Heq.
  - injection Heq as Heq. split; [done|exact Heq].
  - injection Heq as _ Heq. change (u = q +:+ ":" +:+ v) in Heq. subst u. rewrite hasColon_app in Hu. simpl in Hu. by rewrite orb_true_r in Hu.
  - injection Heq as _ Heq. change (p +:+ ":" +:+ u = v) in Heq. subst v. rewrite hasColon_app in Hv. simpl in Hv. by rewrite orb_true_r in Hv.
  - injection Heq as Hc Heq. subst. apply IH in Heq as [-> ->]; done.
Qed.

(** What a filled-in rule looks like. *)
Definition plainRule (r : QueueRateLimit) : Prop :=
  0 < qr_Limit r ∧ 0 < qr_Period r ∧ 1 ≤ qr_Burst r ≤ qr_Limit r ∧
  (qr_Scope r = RateLimitScopeLocal ∨ qr_Scope r = RateLimitScopeGlobal) ∧ 0 ≤ qr_Key r ∧
  match qr_Mode r with RateLimitModeOther m => 1 < m | _ => True end.

(** The unsigned enumerations hold what their width allows, one name per value. *)
Definition ruleInWidth (r : QueueRateLimit) : Prop :=
  0 ≤ qr_Key r ∧ match qr_Mode r with RateLimitModeOther m => 1 < m | _ => True end.

Lemma defaultRule_plain r : 0 < qr_Limit r → ruleInWidth r → plainRule (defaultRule r).
Proof.
  intros Hl [Hk Hm]. unfold defaultRule, plainRule. cbn -[Second].
  assert (0 < Second) by done.
  destruct (qr_Period r <=? 0) eqn:E1; destruct (qr_Burst r <=? 0) eqn:E2;
    destruct (qr_Scope r =? RateLimitScopeGlobal) eqn:E3; bool_to_prop;
    (split_and!; [done|done|..|auto|done|done]);
    try (destruct (qr_Limit r <? _) eqn:E4; bool_to_prop; lia).
Qed.

Lemma ruleSignature_inj r1 r2 : plainRule r1 → plainRule r2 → ruleSignature r1 = ruleSignature r2 → r1 = r2.
Proof.
  intros (Hl1 & Hp1 & Hb1 & Hs1 & Hk1 & Hm1) (Hl2 & Hp2 & Hb2 & Hs2 & Hk2 & Hm2) Heq. unfold ruleSignature in Heq.
  assert (∀ r, qr_Scope r = RateLimitScopeLocal ∨ qr_Scope r = RateLimitScopeGlobal → 0 ≤ qr_Scope r) as Hs.
  { by intros r [-> | ->]. }
  assert (∀ r, match qr_Mode r with RateLimitModeOther m => 1 < m | _ => True end → 0 ≤ modeInt (qr_Mode r)) as Hm.
  { intros r. destruct (qr_Mode r); simpl; lia. }
  apply format_split in Heq as [E1 Heq]; [|lia..]. apply format_split in Heq as [E2 Heq]; [|lia..].
  apply format_split in Heq as [E3 Heq]; [|lia..]. apply format_split in Heq as [E4 Heq]; [|by auto..].
  apply format_split in Heq as [E5 Heq]; [|lia..].
  apply colon_split_right in Heq as [Ht Heq]; [|apply FormatInt_no_colon; by auto..].
  apply FormatInt_inj_nonneg in Heq; [|by auto..].
  destruct r1 as [? ? ? ? ? ? m1], r2 as [? ? ? ? ? ? m2]; simplify_eq/=. f_equal.
  destruct m1, m2; simplify_eq/=; try done; lia.
Qed.

(** ** Normalised rules *)

Section normalize.
Context `{FloatConv}.

(** The rules a policy switches on, the deprecated field included. *)
Definition legacyRule (policy : QueuePolicy) : QueueRateLimit :=
  mkQueueRateLimit (qp_RateLimit policy) (qp_RatePeriod policy) (qp_RateLimit policy)
    RateLimitScopeLocal RateLimitKeyQueue "" RateLimitModeGCRA.
Definition enabledRule (policy : QueuePolicy) (rule : QueueRateLimit) : Prop :=
  0 < qr_Limit rule ∧ (rule ∈ qp_RateLimits policy ∨ rule = legacyRule policy).

(** What the limiter assumes of a normalised rule. *)
Record soundRule (nr : normalizedRateLimit) : Prop := {
  sr_limit : 1 ≤ nr_burst nr ≤ nr_limit nr;
  sr_period : 0 < nr_period nr;
  sr_interval : 1 ≤ nr_interval nr;
  sr_scope : nr_scope nr = RateLimitScopeLocal ∨ nr_scope nr = RateLimitScopeGlobal
}.

Lemma normalizeRule_sound queue r : plainRule r → soundRule (normalizeRule queue r).
Proof.
  intros (Hl & Hp & Hb & Hs & _). split; try done. simpl. unfold Nanosecond. case_match; bool_to_prop; lia.
Qed.

Lemma normalizeLoop_spec queue rules : ∀ seen nr,
  nr ∈ normalizeLoop queue seen rules →
  ∃ rule, rule ∈ rules ∧ 0 < qr_Limit rule ∧ ruleSignature (defaultRule rule) ∉ seen ∧
    nr = normalizeRule queue (defaultRule rule).
Proof.
  induction rules as [|r rules IH]; intros seen nr; simpl; [set_solver|].
  destruct (qr_Limit r <=? 0) eqn:E; bool_to_prop.
  { intros (rule & ? & ? & ? & ?)%IH. exists rule. set_solver. }
  case_bool_decide as Hs; [intros (rule & ? & ? & ? & ?)%IH; exists rule; set_solver|].
  intros [->|(rule & ? & ? & ? & ?)%IH]%elem_of_cons; [exists r|exists rule]; set_solver.
Qed.

Lemma normalizeLoop_complete queue rules : ∀ seen rule,
  Forall ruleInWidth rules → rule ∈ rules → 0 < qr_Limit rule → ruleSignature (defaultRule rule) ∉ seen →
  normalizeRule queue (defaultRule rule) ∈ normalizeLoop queue seen rules.
Proof.
  induction rules as [|r rules IH]; intros seen rule Hw Hin Hl Hseen; [set_solver|].
  apply Forall_cons in Hw as [Hr Hw]. simpl. apply elem_of_cons in Hin as [->|Hin].
  - rewrite (proj2 (Z.leb_gt _ _)) by done. rewrite bool_decide_eq_false_2 by done. set_solver.
  - destruct (qr_Limit r <=? 0) eqn:E; bool_to_prop; [by apply IH|].
    case_bool_decide; [by apply IH|].
    destruct (decide (ruleSignature (defaultRule rule) = ruleSignature (defaultRule r))) as [Hs|Hs].
    + apply ruleSignature_inj in Hs as ->; [set_solver| |by apply defaultRule_plain].
      apply defaultRule_plain; [done|]. rewrite Forall_forall in Hw. by apply Hw.
    + apply elem_of_cons. right. apply IH; set_solver.
Qed.

(** Every rule that is switched on is enforced, as written up to the documented
    defaults, and nothing else is. *)
Lemma normalizeRateLimits_exact queue policy nr :
  Forall ruleInWidth (qp_RateLimits policy) →
  nr ∈ normalizeRateLimits queue policy ↔
    ∃ rule, enabledRule policy rule ∧ nr = normalizeRule queue (defaultRule rule).
Proof.
  intros Hw. unfold normalizeRateLimits, enabledRule.
  assert (Forall ruleInWidth (qp_RateLimits policy ++
    (if 0 <? qp_RateLimit policy then [legacyRule policy] else []))) as Hw'.
  { apply Forall_app. split; [done|]. case_match; [|constructor]. apply Forall_singleton. by split. }
  split.
  - intros (rule & Hin & Hl & _ & ->)%normalizeLoop_spec. exists rule. split_and!; [done| |done].
    apply elem_of_app in Hin as [?|Hin]; [by left|right]. case_match; set_solver.
  - intros (rule & [Hl Hin] & ->). apply normalizeLoop_complete; [done| |done|set_solver].
    apply elem_of_app. destruct Hin as [?|Hr]; [by left|right]. subst rule. simpl in Hl.
    rewrite (proj2 (Z.ltb_lt _ _)) by done. apply elem_of_cons. by left.
Qed.
End normalize.

(** ** The pool *)

Section pool.
Context `{MapRange} `{FloatConv} (name : string) (caps : Capabilities) (randomID : string).

(** How many slots a queue has in the round robin. *)
Definition slots (schedule : list string) (queue : string) : Z :=
  Z.of_nat (length (filter (λ q, q = queue) schedule)).

Record pool_inv (p : WorkerPool) : Prop := {
  pi_capacity : 1 ≤ wc_Concurrency (wp_config p) ≤ wc_MaxPending (wp_config p);
  pi_queues : wc_Queues (wp_config p) ≠ [] ∧ NoDup (wc_Queues (wp_config p)) ∧ "" ∉ wc_Queues (wp_config p);
  pi_durations : 0 < wc_PollInterval (wp_config p) ∧ 0 < wc_ShutdownTimeout (wp_config p) ∧
    0 < wc_PipelineLeaseDuration (wp_config p) ∧ 0 < wc_PipelinePollInterval (wp_config p) ∧
    0 < wc_RateLimitPollInterval (wp_config p) ∧ 0 < wc_RescueInterval (wp_config p);
  pi_heartbeat : 0 < wc_StuckJobTimeout (wp_config p) →
    wc_HeartbeatInterval (wp_config p) < wc_StuckJobTimeout (wp_config p);
  pi_retry : is_Some (wc_RetryPolicy (wp_config p));
  pi_slots : ∀ queue, slots (wp_queueSchedule p) queue =
    if decide (queue ∈ wc_Queues (wp_config p)) then Z.max 1 (qp_Weight (queuePolicy p queue)) else 0;
  pi_rates : ∀ queue, queue ∈ wc_Queues (wp_config p) →
    queueRateLimits p queue = normalizeRateLimits queue (queuePolicy p queue);
  pi_rules : ∀ queue, Forall ruleInWidth (qp_RateLimits (queuePolicy p queue)) →
    Forall soundRule (queueRateLimits p queue)
}.

Lemma slots_app l1 l2 queue : slots (l1 ++ l2) queue = slots l1 queue + slots l2 queue.
Proof. unfold slots. rewrite filter_app, length_app. lia. Qed.

Lemma slots_replicate n q queue : slots (replicate n q) queue = if decide (q = queue) then Z.of_nat n else 0.
Proof.
  unfold slots. case_decide; subst.
  - rewrite filter_all, length_replicate; [done|]. by apply Forall_replicate.
  - rewrite filter_none; [done|]. by apply Forall_replicate.
Qed.

Lemma slots_schedule cfg queue : NoDup (wc_Queues cfg) →
  slots (scheduleOf cfg) queue =
    if decide (queue ∈ wc_Queues cfg) then Z.max 1 (qp_Weight (policyOf cfg queue)) else 0.
Proof.
  unfold scheduleOf. generalize (wc_Queues cfg) as qs. induction qs as [|q qs IH]; [done|].
  intros [Hq Hqs]%NoDup_cons. csimpl. rewrite slots_app, slots_replicate, IH by done.
  assert (∀ pol, Z.of_nat (Z.to_nat (queueWeight pol)) = Z.max 1 (qp_Weight pol)) as Hw.
  { intros pol. unfold queueWeight. destruct (qp_Weight pol <=? 0) eqn:E; bool_to_prop; lia. }
  destruct (decide (q = queue)) as [->|Hne].
  - rewrite Hw, decide_False by done. rewrite decide_True by set_solver. lia.
  - destruct (decide (queue ∈ qs)); [rewrite decide_True by set_solver|rewrite decide_False by set_solver]; lia.
Qed.

Lemma dedupQueues_spec qs : ∀ seen,
  NoDup (dedupQueues seen qs) ∧
  ∀ q, q ∈ dedupQueues seen qs ↔ q ∉ seen ∧ ∃ x, x ∈ qs ∧ q = defaultQueue x.
Proof.
  induction qs as [|x qs IH]; intros seen; simpl; [split; [constructor|set_solver]|].
  case_bool_decide as Hx.
  - destruct (IH seen) as [Hnd Hel]. split; [done|]. intros q. rewrite Hel. set_solver.
  - destruct (IH ({[defaultQueue x]} ∪ seen)) as [Hnd Hel]. split.
    + apply NoDup_cons. split; [|done]. rewrite Hel. set_solver.
    + intros q. rewrite elem_of_cons, Hel. destruct (decide (q = defaultQueue x)); set_solver.
Qed.

Lemma defaultQueue_ne q : defaultQueue q ≠ "".
Proof. unfold defaultQueue. by case_bool_decide. Qed.

Lemma normalized_queues cfg :
  wc_Queues (normalizeConfig randomID cfg) ≠ [] ∧ NoDup (wc_Queues (normalizeConfig randomID cfg)) ∧
  "" ∉ wc_Queues (normalizeConfig randomID cfg).
Proof.
  cbn [wc_Queues normalizeConfig]. destruct (wc_Queues cfg) as [|q qs].
  { split_and!; [done|apply NoDup_singleton|set_solver]. }
  destruct (dedupQueues_spec (q :: qs) ∅) as [Hnd Hel]. split_and!; [|done|].
  - intros Hnil. assert (defaultQueue q ∈ dedupQueues ∅ (q :: qs)) as Hin by (apply Hel; set_solver).
    rewrite Hnil in Hin. set_solver.
  - rewrite Hel. intros [_ (x & _ & Hx)]. by apply (defaultQueue_ne x).
Qed.

Lemma list_to_map_fmap_lookup {A} (f : string → A) (l : list string) q :
  (list_to_map ((λ x, (x, f x)) <$> l) : gmap string A) !! q = if decide (q ∈ l) then Some (f q) else None.
Proof.
  induction l as [|x l IH]; csimpl; [by rewrite lookup_empty|].
  destruct (decide (q = x)) as [->|Hne].
  - rewrite lookup_insert_eq, decide_True by set_solver. done.
  - rewrite lookup_insert_ne by done. rewrite IH. destruct (decide (q ∈ l));
      [rewrite decide_True by set_solver|rewrite decide_False by set_solver]; done.
Qed.

Lemma normalizeRateLimits_sound queue policy :
  Forall ruleInWidth (qp_RateLimits policy) → Forall soundRule (normalizeRateLimits queue policy).
Proof.
  intros Hw. apply Forall_forall. intros nr Hin. apply (normalizeRateLimits_exact queue policy nr Hw) in Hin
    as (rule & [Hl Hin] & ->). apply normalizeRule_sound, defaultRule_plain; [done|].
  destruct Hin as [Hin| ->]; [|by split]. rewrite Forall_forall in Hw. by apply Hw.
Qed.

Lemma newWorkerPool_inv cfg : pool_inv (newWorkerPool name caps randomID cfg).
Proof.
  pose proof (normalized_queues cfg) as (Hne & Hnd & Hq).
  assert (∀ d v, 0 < d → 0 < (if v <=? 0 then d else v)) as Hpos.
  { intros d v Hd. destruct (v <=? 0) eqn:E; bool_to_prop; lia. }
  assert (∀ queue, queueRateLimits (newWorkerPool name caps randomID cfg) queue =
    if decide (queue ∈ wc_Queues (normalizeConfig randomID cfg))
    then normalizeRateLimits queue (policyOf (normalizeConfig randomID cfg) queue) else []) as Hrates.
  { intros queue. unfold queueRateLimits, newWorkerPool. cbn [wp_rateLimits]. rewrite list_to_map_fmap_lookup.
    by case_decide. }
  split.
  - cbn [wp_config newWorkerPool normalizeConfig wc_Concurrency wc_MaxPending].
    destruct (wc_Concurrency cfg <=? 0) eqn:E1; bool_to_prop;
      destruct (wc_MaxPending cfg <=? 0); destruct (_ <? _) eqn:E; bool_to_prop; lia.
  - by split_and!.
  - cbn [wp_config newWorkerPool normalizeConfig wc_PollInterval wc_ShutdownTimeout wc_PipelineLeaseDuration
      wc_PipelinePollInterval wc_RateLimitPollInterval wc_RescueInterval].
    split_and!; by apply Hpos.
  - cbn [wp_config newWorkerPool normalizeConfig wc_StuckJobTimeout wc_HeartbeatInterval].
    set (stuck := if wc_StuckJobTimeout cfg =? 0 then Hour else wc_StuckJobTimeout cfg). clearbody stuck. intros Hs.
    rewrite (proj2 (Z.ltb_lt 0 stuck)) by done. rewrite andb_true_r. simpl.
    assert (durDiv stuck 3 < stuck) by (unfold durDiv; rewrite Z.quot_div_nonneg by lia; apply Z.div_lt; lia).
    destruct (wc_HeartbeatInterval cfg =? 0); destruct (stuck <=? _) eqn:E; bool_to_prop; lia.
  - done.
  - intros queue. unfold queuePolicy. cbn [wp_config newWorkerPool wp_queueSchedule]. by apply slots_schedule.
  - intros queue Hin. rewrite Hrates. cbn [wp_config newWorkerPool] in Hin. by rewrite decide_True.
  - intros queue Hw. rewrite Hrates. case_decide; [|constructor]. by apply normalizeRateLimits_sound.
Qed.

(** Validation accepts exactly the valid configurations, whatever the
    order the policies are visited in: the limits are not negative, bursts fit
    their limits, fixed windows fit the counter encoding, every policy names a
    listed queue, and what needs a capability of the driver finds it; and the
    checked constructor builds a pool for exactly those. *)
Theorem ValidateWorkerConfig_complete cfg :
  (ValidateWorkerConfig name caps cfg = None ↔ validConfig caps cfg) ∧
  (NewWorkerPoolChecked name caps randomID cfg = Ok (newWorkerPool name caps randomID cfg) ↔ validConfig caps cfg).
Proof.
  split; [apply validate_spec|]. rewrite <-(validate_spec name). unfold NewWorkerPoolChecked.
  cbn [newWorkerPool wp_configErr]. by destruct (ValidateWorkerConfig name caps cfg).
Qed.

Lemma UpdateQueuePolicy_inv p queue policy : pool_inv p → pool_inv (UpdateQueuePolicy name caps p queue policy).1.
Proof.
  intros Hp. unfold UpdateQueuePolicy. case_bool_decide as Hq; [|done]. simpl.
  destruct (ValidateWorkerConfig _ _ _); [done|]. cbn [fst].
  set (cfg' := set_policies _ _). set (q := defaultQueue queue) in *.
  assert (∀ q', policyOf cfg' q' = if decide (q' = q) then policy else queuePolicy p q') as Hpol.
  { intros q'. unfold cfg', policyOf, queuePolicy. cbn [wc_QueuePolicies set_policies]. case_decide; subst.
    - by rewrite lookup_insert_eq.
    - by rewrite lookup_insert_ne. }
  assert (∀ q', default [] (<[q := normalizeRateLimits q policy]> (wp_rateLimits p) !! q') =
    if decide (q' = q) then normalizeRateLimits q policy else queueRateLimits p q') as Hr.
  { intros q'. unfold queueRateLimits. case_decide; subst; [by rewrite lookup_insert_eq|by rewrite lookup_insert_ne]. }
  destruct Hp as [Hc Hqs Hd Hh Hre Hs Hra Hru]. split; try done.
  - intros q'. cbn [wp_queueSchedule wp_config queuePolicy]. by apply slots_schedule, Hqs.
  - intros q' Hin. unfold queueRateLimits, queuePolicy. cbn [wp_rateLimits wp_config]. rewrite Hr, Hpol.
    case_decide; subst; [done|]. by apply Hra.
  - intros q'. unfold queueRateLimits, queuePolicy. cbn [wp_rateLimits wp_config]. rewrite Hr, Hpol.
    case_decide; subst; [apply normalizeRateLimits_sound|apply Hru].
Qed.

(** C26: every pool, however it was configured and however often its policies
    were replaced, satisfies [pool_inv]: positive capacities and intervals, a
    pending bound not below the concurrency, distinct non-empty queues, exactly
    [max 1 weight] slots per queue in the schedule, and sound limiter rules
    recomputed from the current policy. *)
Theorem pool_config_invariant cfg updates :
  pool_inv (foldl (λ p '(queue, policy), (UpdateQueuePolicy name caps p queue policy).1)
             (newWorkerPool name caps randomID cfg) updates).
Proof.
  assert (pool_inv (newWorkerPool name caps randomID cfg)) as Hinv by apply newWorkerPool_inv. revert Hinv.
  generalize (newWorkerPool name caps randomID cfg) as p. induction updates as [|[queue policy] updates IH]; intros p Hp; [done|].
  simpl. apply IH. by apply UpdateQueuePolicy_inv.
Qed.

(** The concurrency limits of a pool that may start. *)
Definition keyLimits (p : WorkerPool) : Prop :=
  ∀ queue, Forall (λ rule, 1 ≤ kc_Limit rule) (qp_KeyConcurrency (queuePolicy p queue)).

Lemma valid_keyLimits cfg queue : validConfig caps cfg → Forall (λ rule, 1 ≤ kc_Limit rule) (qp_KeyConcurrency (policyOf cfg queue)).
Proof.
  intros Hv. unfold policyOf. destruct (wc_QueuePolicies cfg !! queue) as [policy|] eqn:E; simpl; [|constructor].
  apply (vc_policies _ _ Hv) in E. eapply Forall_impl; [apply (vp_keys _ _ _ _ E)|]. intros rule [Hl _]. simpl. lia.
Qed.

Lemma newWorkerPool_keys cfg :
  wp_configErr (newWorkerPool name caps randomID cfg) = None → keyLimits (newWorkerPool name caps randomID cfg).
Proof. intros E%validate_spec queue. by apply (valid_keyLimits cfg). Qed.

Lemma UpdateQueuePolicy_keys p queue policy :
  keyLimits p → keyLimits (UpdateQueuePolicy name caps p queue policy).1 .
Proof.
  intros Hk. unfold UpdateQueuePolicy. case_bool_decide; simpl; [|done].
  destruct (ValidateWorkerConfig name caps _) as [e|] eqn:E; [done|]. simpl. intros q.
  apply validate_spec in E. by apply valid_keyLimits.
Qed.

Lemma UpdateQueuePolicy_frame p queue policy p' :
  (UpdateQueuePolicy name caps p queue policy).1 = p' →
  wp_configErr p' = wp_configErr p ∧ wc_Queues (wp_config p') = wc_Queues (wp_config p) ∧
  wc_Concurrency (wp_config p') = wc_Concurrency (wp_config p) ∧ wc_MaxPending (wp_config p') = wc_MaxPending (wp_config p).
Proof.
  intros <-. unfold UpdateQueuePolicy. case_bool_decide; simpl; [|done]. by destruct (ValidateWorkerConfig name caps _).
Qed.

(** A policy change is refused without effect, or replaces the policy of that
    queue alone and wakes everybody who waits for a rate permit. *)
Lemma UpdateQueuePolicy_spec p queue policy :
  match UpdateQueuePolicy name caps p queue policy with
  | (p', Some _) => p' = p ∧
      (defaultQueue queue ∉ wc_Queues (wp_config p) ∨
       ¬ validConfig caps (set_policies (<[defaultQueue queue := policy]> (wc_QueuePolicies (wp_config p))) (wp_config p)))
  | (p', None) => wp_policyChanged p' = S (wp_policyChanged p) ∧
      queuePolicy p' (defaultQueue queue) = policy ∧
      queueRateLimits p' (defaultQueue queue) = normalizeRateLimits (defaultQueue queue) policy ∧
      ∀ q, q ≠ defaultQueue queue → queuePolicy p' q = queuePolicy p q ∧ queueRateLimits p' q = queueRateLimits p q
  end.
Proof.
  unfold UpdateQueuePolicy. case_bool_decide as Hq; simpl; [|by split; [|left]].
  destruct (ValidateWorkerConfig name caps _) as [e|] eqn:E.
  - split; [done|]. right. rewrite <-(validate_spec name). by rewrite E.
  - unfold queuePolicy, policyOf, queueRateLimits. simpl. rewrite !lookup_insert_eq. split_and!; try done.
    intros q Hne. by rewrite !lookup_insert_ne.
Qed.
End pool.
