(* ===== verification/WorkerRate.v ===== *)
(** * worker.go: rate limits inside a worker pool

    The in-process limiter of a queue (its delay, its all-or-nothing reservation
    and the rollback), the global rules that go through the store, and the loop
    that waits for a permit.  A [*localRateState] is reached through its key:
    entries are never removed, so the key stands for the pointer.  Every
    function that holds [queueStateMu] is one atomic function. *)

From S2P Require Import Prelude GoBase Json Codec Core Driver RateLimit Sha256 WorkerConfig.
From Stdlib Require Import ZArith Lia.

(** ** Keys *)

Definition rateLimitKeyValue (keyBy : RateLimitKey) (tagPrefix : string) (row : JobRow) : string :=
  if keyBy =? RateLimitKeyKind then Kind row
  else if keyBy =? RateLimitKeyPipeline then PipelineID row
  else if keyBy =? RateLimitKeyTag then
    match sort_by str_lt (filter (λ tag, HasPrefix tag tagPrefix = true) (Tags row)) with
    | m :: _ => m
    | [] => "<missing>"
    end
  else Queue row.

Definition rateRuleKey (rule : normalizedRateLimit) (row : JobRow) : string :=
  if nr_keyBy rule =? RateLimitKeyQueue then nr_key rule
  else nr_key rule +:+ ":" +:+
    shortDigest (nr_key rule +:+ nul +:+ rateLimitKeyValue (nr_keyBy rule) (nr_tagPrefix rule) row).

(** ** The in-process limiter *)

Record localRateState := mkLocalRateState {
  rs_tat : Instant;
  rs_windowStart : Instant;
  rs_count : Z
}.
Definition zeroRate : localRateState := mkLocalRateState zeroTime zeroTime 0.

Record queueRuntimeState := mkQueueRuntimeState {
  qs_active : Z;
  qs_rates : gmap string localRateState
}.
Definition zeroQueueState : queueRuntimeState := mkQueueRuntimeState 0 ∅.

Abbreviation rates := (gmap string localRateState) (only parsing).

(** The entry of a key, made on first use. *)
Definition rateOf (m : rates) (key : string) : localRateState := default zeroRate (m !! key).

Definition set_tat (t : Instant) (r : localRateState) : localRateState :=
  mkLocalRateState t (rs_windowStart r) (rs_count r).
Definition set_window (w : Instant) (n : Z) (r : localRateState) : localRateState :=
  mkLocalRateState (rs_tat r) w n.

(** How long one rule makes a start at [now] wait. *)
Definition ruleDelay (rule : normalizedRateLimit) (r : localRateState) (now : Instant) : Duration :=
  if isFixed (nr_mode rule) then
    let window := Truncate (UTC now) (nr_period rule) in
    if TimeEqual (rs_windowStart r) window && (nr_limit rule <=? rs_count r)
    then Sub (Add window (nr_period rule)) now else 0
  else
    let retryAt := Add (rs_tat r) (- nr_tolerance rule) in
    if After retryAt now then Sub retryAt now else 0.

Fixpoint localRateDelay (rules : list normalizedRateLimit) (row : JobRow) (now : Instant) (m : rates) (delay : Duration)
  : rates * Duration :=
  match rules with
  | [] => (m, delay)
  | rule :: rest =>
      if negb (nr_scope rule =? RateLimitScopeLocal) then localRateDelay rest row now m delay
      else
        let key := rateRuleKey rule row in
        let candidate := ruleDelay rule (rateOf m key) now in
        localRateDelay rest row now (<[key := rateOf m key]> m) (if delay <? candidate then candidate else delay)
  end.

Record localRateReservation := mkLocalRateReservation {
  lr_state : string;
  lr_previous : Instant;
  lr_reserved : Instant;
  lr_previousWindow : Instant;
  lr_previousCount : Z;
  lr_fixedWindow : bool
}.

(** Undoing one reservation. *)
Definition undo (m : rates) (r : localRateReservation) : rates :=
  let st := rateOf m (lr_state r) in
  if lr_fixedWindow r then <[lr_state r := set_window (lr_previousWindow r) (lr_previousCount r) st]> m
  else if TimeEqual (rs_tat st) (lr_reserved r) then <[lr_state r := set_tat (lr_previous r) st]> m
  else m.

(** [rollbackLocked]: the last reservation is undone first. *)
Definition rollbackLocked (reservations : list localRateReservation) (m : rates) : rates :=
  foldl undo m (rev reservations).

(** One rule of the reservation loop: [None] when it has no permit. *)
Definition reserveRule (rule : normalizedRateLimit) (key : string) (r : localRateState) (now : Instant)
  : option (localRateState * localRateReservation) :=
  if isFixed (nr_mode rule) then
    let window := Truncate (UTC now) (nr_period rule) in
    let taken := mkLocalRateReservation key zeroTime zeroTime (rs_windowStart r) (rs_count r) true in
    if negb (TimeEqual (rs_windowStart r) window) then Some (set_window window 1 r, taken)
    else if nr_limit rule <=? rs_count r then None
    else Some (set_window (rs_windowStart r) (wrap64 (rs_count r + 1)) r, taken)
  else
    if After (Add (rs_tat r) (- nr_tolerance rule)) now then None
    else
      let base := if Before (rs_tat r) now then now else rs_tat r in
      let reserved := Add base (nr_interval rule) in
      Some (set_tat reserved r, mkLocalRateReservation key (rs_tat r) reserved zeroTime 0 false).

Fixpoint reserveLoop (rules : list normalizedRateLimit) (row : JobRow) (now : Instant) (m : rates)
    (reservations : list localRateReservation) : rates * option (list localRateReservation) :=
  match rules with
  | [] => (m, Some reservations)
  | rule :: rest =>
      if negb (nr_scope rule =? RateLimitScopeLocal) then reserveLoop rest row now m reservations
      else
        let key := rateRuleKey rule row in
        let m1 := <[key := rateOf m key]> m in
        match reserveRule rule key (rateOf m key) now with
        | None => (rollbackLocked reservations m1, None)
        | Some (r', taken) => reserveLoop rest row now (<[key := r']> m1) (reservations ++ [taken])
        end
  end.

Definition reserveLocalRateLimits (rules : list normalizedRateLimit) (row : JobRow) (now : Instant) (m : rates)
  : rates * option (list localRateReservation) := reserveLoop rules row now m [].

(** ** Waiting for a permit *)

Record RateLimitWaitEvent := mkRateLimitWaitEvent {
  rw_Job : JobRow;
  rw_Scope : RateLimitScope;
  rw_RetryAt : Instant;
  rw_Err : option error
}.

Record RateEnv (S : Type) := mkRateEnv {
  re_pool : WorkerPool;
  re_states : gmap string queueRuntimeState;
  re_store : S;
  re_clk : Clock;
  re_events : list RateLimitWaitEvent;
  re_reports : list error
}.
Arguments mkRateEnv {S}.
Arguments re_pool {S}.
Arguments re_states {S}.
Arguments re_store {S}.
Arguments re_clk {S}.
Arguments re_events {S}.
Arguments re_reports {S}.

Definition stateOf (states : gmap string queueRuntimeState) (queue : string) : queueRuntimeState :=
  default zeroQueueState (states !! queue).

Definition set_rates (queue : string) (m : rates) (states : gmap string queueRuntimeState) : gmap string queueRuntimeState :=
  <[queue := mkQueueRuntimeState (qs_active (stateOf states queue)) m]> states.

Section wait.
Context {S : Type} `{CursorStore S} `{FloatConv}.
Context (lifecycleObserver : bool).
(* what other goroutines do before a round, between the two locked sections,
   and before the rollback; and, inside the n-th store request, between its calls *)
Context (others : nat → RateEnv S → RateEnv S) (storeEnv : nat → nat → S → S) (ctxDone : nat → nat → option error).
(* how the waits end: [true] by the timer or a policy change, [false] by the
   context or the shutdown *)
Context (waits : nat → bool).
Context (acquireFuel : nat).

Definition readClock (e : RateEnv S) : Instant * RateEnv S :=
  let '(t, c) := Now (re_clk e) in
  (t, mkRateEnv (re_pool e) (re_states e) (re_store e) c (re_events e) (re_reports e)).
Definition set_re_states (states : gmap string queueRuntimeState) (e : RateEnv S) : RateEnv S :=
  mkRateEnv (re_pool e) states (re_store e) (re_clk e) (re_events e) (re_reports e).
Definition set_re_store (s : S) (e : RateEnv S) : RateEnv S :=
  mkRateEnv (re_pool e) (re_states e) s (re_clk e) (re_events e) (re_reports e).
Definition observeWait (ev : RateLimitWaitEvent) (e : RateEnv S) : RateEnv S :=
  mkRateEnv (re_pool e) (re_states e) (re_store e) (re_clk e) (re_events e ++ [ev]) (re_reports e).
Definition reportRate (err : error) (e : RateEnv S) : RateEnv S :=
  mkRateEnv (re_pool e) (re_states e) (re_store e) (re_clk e) (re_events e) (re_reports e ++ [err]).

(** [n] numbers the store requests of this wait. *)
Fixpoint tryGlobalRateLimits (rules : list normalizedRateLimit) (row : JobRow) (n : nat) (e : RateEnv S)
  : option (RateEnv S * nat * result (bool * Instant)) :=
  match rules with
  | [] => Some (e, n, Ok (true, zeroTime))
  | rule :: rest =>
      if negb (nr_scope rule =? RateLimitScopeGlobal) then tryGlobalRateLimits rest row n e
      else
        let '(now, e1) := readClock e in
        match AcquireRateLimit (ctxDone n) (storeEnv n) acquireFuel
                (mkRateLimitAcquireParams (rateRuleKey rule row) now (nr_limit rule) (nr_period rule) (nr_burst rule) (nr_mode rule))
                (re_store e1) with
        | None => None
        | Some (s', Err err) => Some (set_re_store s' e1, Datatypes.S n, Err err)
        | Some (s', Ok res) =>
            if negb (ra_Acquired res) then Some (set_re_store s' e1, Datatypes.S n, Ok (false, ra_RetryAt res))
            else tryGlobalRateLimits rest row (Datatypes.S n) (set_re_store s' e1)
        end
  end.

Definition rulesOf (e : RateEnv S) (row : JobRow) : list normalizedRateLimit := queueRateLimits (re_pool e) (Queue row).
Definition ratesOf (e : RateEnv S) (row : JobRow) : rates := qs_rates (stateOf (re_states e) (Queue row)).

(** The loop; [k] numbers the rounds, [n] the store requests made so far. *)
Fixpoint waitLoop (fuel k n : nat) (row : JobRow) (e : RateEnv S) : option (RateEnv S * bool) :=
  match fuel with
  | O => None
  | Datatypes.S fuel' =>
      let '(now, e) := readClock (others (3 * k) e) in
      let '(m, delay) := localRateDelay (rulesOf e row) row now (ratesOf e row) 0 in
      let e := set_re_states (set_rates (Queue row) m (re_states e)) e in
      if 0 <? delay then
        let e := if lifecycleObserver
                 then observeWait (mkRateLimitWaitEvent row RateLimitScopeLocal (Add now delay) None) e else e in
        if waits k then waitLoop fuel' (Datatypes.S k) n row e else Some (e, false)
      else
        let e := others (3 * k + 1) e in
        let '(m, taken) := reserveLocalRateLimits (rulesOf e row) row now (ratesOf e row) in
        let e := set_re_states (set_rates (Queue row) m (re_states e)) e in
        match taken with
        | None => waitLoop fuel' (Datatypes.S k) n row e
        | Some reservations =>
            match tryGlobalRateLimits (rulesOf e row) row n e with
            | None => None
            | Some (e, n', Ok (true, _)) => Some (e, true)
            | Some (e, n', res) =>
                let e := others (3 * k + 2) e in
                let e := set_re_states
                           (set_rates (Queue row) (rollbackLocked reservations (ratesOf e row)) (re_states e)) e in
                let '(delay, e) :=
                  match res with
                  | Err err => (wc_RateLimitPollInterval (wp_config (re_pool e)),
                      reportRate (EWrap ("acquire global rate permit for queue " +:+ quoted (Queue row) +:+ ": ") err "") e)
                  | Ok (_, retryAt) =>
                      let '(t, e) := readClock e in
                      if After retryAt t then let '(t', e) := readClock e in (Sub retryAt t', e)
                      else (wc_RateLimitPollInterval (wp_config (re_pool e)), e)
                  end in
                let e := if lifecycleObserver
                         then let '(t, e) := readClock e in
                              observeWait (mkRateLimitWaitEvent row RateLimitScopeGlobal (Add t delay)
                                (match res with Err err => Some err | Ok _ => None end)) e
                         else e in
                if waits k then waitLoop fuel' (Datatypes.S k) n' row e else Some (e, false)
            end
        end
  end.

Definition waitForRatePermit (fuel : nat) (row : JobRow) (e : RateEnv S) : option (RateEnv S * bool) :=
  match rulesOf e row with
  | [] => Some (e, true)
  | _ => waitLoop fuel 0 0 row e
  end.
End wait.
