(* ===== verification/WorkerRateProps.v ===== *)
(** * What the in-process limiter guarantees

    The delay it announces is exact; a reservation is all or nothing and a
    rollback undoes it; and a smooth (GCRA) rule bounds the starts of every key
    over any time span, whatever reservations other jobs make and give back in
    between.  A fixed-window rule does not survive rollbacks: the last section
    has the run that exceeds its limit. *)

From S2P Require Import Prelude GoBase Json Codec Core Driver Memory RateLimit RateLimitProps Sha256 WorkerConfig.
From S2P Require Import WorkerConfigProps WorkerRate.
From Stdlib Require Import ZArith Lia.

(** ** Limiter states up to entries never used *)

Record sameRates (m1 m2 : gmap string localRateState) : Prop := {
  same_rate : ∀ key, rateOf m1 key = rateOf m2 key
}.
#[export] Instance rates_equiv : Equiv (gmap string localRateState) := sameRates.

#[export] Instance rates_equivalence : Equivalence (≡@{gmap string localRateState}).
Proof.
  split; [done|intros m1 m2 Hm|intros m1 m2 m3 H1 H2]; constructor; intros key.
  - by rewrite (same_rate _ _ Hm).
  - by rewrite (same_rate _ _ H1), (same_rate _ _ H2).
Qed.

Lemma rateOf_insert (m : gmap string localRateState) key r key' :
  rateOf (<[key := r]> m) key' = if decide (key' = key) then r else rateOf m key'.
Proof.
  unfold rateOf. case_decide; subst; [by rewrite lookup_insert_eq|by rewrite lookup_insert_ne].
Qed.

#[export] Instance insert_rate_proper key r :
  Proper ((≡) ==> (≡)) (insert (M := gmap string localRateState) key r).
Proof. intros m1 m2 Hm. constructor. intros key'. rewrite !rateOf_insert. by rewrite (same_rate _ _ Hm). Qed.

Lemma touch_equiv (m : gmap string localRateState) key : <[key := rateOf m key]> m ≡ m.
Proof. constructor. intros key'. rewrite rateOf_insert. by case_decide; subst. Qed.

#[export] Instance undo_proper : Proper ((≡) ==> (=) ==> (≡)) undo.
Proof.
  intros m1 m2 Hm r ? <-. unfold undo. rewrite (same_rate _ _ Hm (lr_state r)).
  repeat case_match; [by rewrite Hm..|done].
Qed.

#[export] Instance rollback_proper rs : Proper ((≡) ==> (≡)) (rollbackLocked rs).
Proof.
  unfold rollbackLocked. generalize (rev rs) as l. intros l. induction l as [|r l IH]; intros m1 m2 Hm; [done|].
  simpl. apply IH. by apply undo_proper.
Qed.

Lemma rollback_app l1 l2 m : rollbackLocked (l1 ++ l2) m = rollbackLocked l1 (rollbackLocked l2 m).
Proof. unfold rollbackLocked. by rewrite rev_app_distr, foldl_app. Qed.

Lemma rollback_single r m : rollbackLocked [r] m = undo m r.
Proof. done. Qed.

(** Taking a permit and undoing it at once changes nothing. *)
Lemma undo_reserve rule key m now r' taken :
  reserveRule rule key (rateOf m key) now = Some (r', taken) → undo (<[key := r']> m) taken ≡ m.
Proof.
  unfold reserveRule. intros Hr. constructor. intros key'.
  assert (lr_state taken = key ∧
    (lr_fixedWindow taken = true ∧ set_window (lr_previousWindow taken) (lr_previousCount taken) r' = rateOf m key ∨
     lr_fixedWindow taken = false ∧ rs_tat r' = lr_reserved taken ∧ set_tat (lr_previous taken) r' = rateOf m key)) as [Hk Hc].
  { destruct (isFixed (nr_mode rule)).
    - destruct (negb _); [simplify_eq/=; split; [done|]; left; by destruct (rateOf m key)|].
      destruct (_ <=? _); [done|]. simplify_eq/=. split; [done|]. left. by destruct (rateOf m key).
    - destruct (After _ _); [done|]. simplify_eq/=. split; [done|]. right. by destruct (rateOf m key). }
  unfold undo. rewrite Hk, rateOf_insert, decide_True by done.
  destruct Hc as [[-> Hs]|(-> & Ht & Hs)].
  - rewrite Hs, !rateOf_insert. by case_decide; subst.
  - unfold TimeEqual. rewrite Ht, Z.eqb_refl, Hs, !rateOf_insert. by case_decide; subst.
Qed.

(** All or nothing. *)
Lemma reserveLoop_spec rules row now : ∀ m acc m' res,
  reserveLoop rules row now m acc = (m', res) →
  match res with
  | None => m' ≡ rollbackLocked acc m
  | Some rs => ∃ new, rs = acc ++ new ∧ rollbackLocked new m' ≡ m
  end.
Proof.
  induction rules as [|rule rules IH]; intros m acc m' res Hrun; simpl in Hrun.
  { simplify_eq. exists []. by rewrite app_nil_r. }
  destruct (negb _); [by apply IH|].
  set (key := rateRuleKey rule row) in *.
  destruct (reserveRule rule key (rateOf m key) now) as [[r' taken]|] eqn:Er.
  2: { simplify_eq. by rewrite touch_equiv. }
  apply IH in Hrun. pose proof (undo_reserve _ _ _ _ _ _ Er) as Hu.
  assert (undo (<[key := r']> (<[key := rateOf m key]> m)) taken ≡ m) as Hu'.
  { etrans; [|exact Hu]. by rewrite touch_equiv. }
  destruct res as [rs|].
  - destruct Hrun as (new & -> & Hnew). exists (taken :: new). rewrite <-app_assoc. split; [done|].
    change (taken :: new) with ([taken] ++ new). by rewrite rollback_app, Hnew, rollback_single.
  - by rewrite Hrun, rollback_app, rollback_single, Hu'.
Qed.

(** ** The announced delay *)

Definition localRules (rules : list normalizedRateLimit) : list normalizedRateLimit :=
  filter (λ rule, nr_scope rule = RateLimitScopeLocal) rules.

(** Distinct rules have distinct buckets for this job. *)
Definition distinctBuckets (rules : list normalizedRateLimit) (row : JobRow) : Prop :=
  NoDup ((λ rule, rateRuleKey rule row) <$> localRules rules).

Lemma localRules_cons rule rules :
  localRules (rule :: rules) =
    if negb (nr_scope rule =? RateLimitScopeLocal) then localRules rules else rule :: localRules rules.
Proof.
  unfold localRules. rewrite filter_cons. destruct (nr_scope rule =? RateLimitScopeLocal) eqn:E; bool_to_prop; simpl.
  - by rewrite decide_True.
  - by rewrite decide_False.
Qed.

Lemma reserveLoop_succeeds rules row now : ∀ m acc,
  distinctBuckets rules row →
  is_Some (reserveLoop rules row now m acc).2 ↔
    Forall (λ rule, is_Some (reserveRule rule (rateRuleKey rule row) (rateOf m (rateRuleKey rule row)) now))
      (localRules rules).
Proof.
  induction rules as [|rule rules IH]; intros m acc Hd; simpl; [split; [constructor|by eauto]|].
  unfold distinctBuckets in *. rewrite localRules_cons in *. destruct (negb _); [by apply IH|].
  rewrite fmap_cons in Hd. apply NoDup_cons in Hd as [Hnew Hd]. rewrite Forall_cons.
  destruct (reserveRule rule _ _ now) as [[r' taken]|] eqn:Er.
  - rewrite IH by done. rewrite !Forall_forall. split.
    + intros Hall. split; [by eauto|]. intros x Hx. specialize (Hall x Hx).
      rewrite !rateOf_insert, !decide_False in Hall; [done|..];
        intros He; apply Hnew; rewrite <-He; by apply (list_elem_of_fmap_2 (λ rule, rateRuleKey rule row)).
    + intros [_ Hall] x Hx. rewrite !rateOf_insert, !decide_False; [by apply Hall|..];
        intros He; apply Hnew; rewrite <-He; by apply (list_elem_of_fmap_2 (λ rule, rateRuleKey rule row)).
  - simpl. split; [by intros []|]. by intros [[] _].
Qed.

Lemma localRateDelay_spec rules row now : ∀ m delay m' d,
  localRateDelay rules row now m delay = (m', d) →
  m' ≡ m ∧ delay ≤ d ∧
  ∀ x, d ≤ x ↔ delay ≤ x ∧
    Forall (λ rule, ruleDelay rule (rateOf m (rateRuleKey rule row)) now ≤ x) (localRules rules).
Proof.
  induction rules as [|rule rules IH]; intros m delay m' d Hrun; simpl in Hrun.
  { simplify_eq. split_and!; [done|lia|]. intros x. split; [|by intros [? _]]. intros. split; [done|constructor]. }
  rewrite localRules_cons. destruct (negb _); [by apply IH|].
  apply IH in Hrun as (Hm & Hle & Hx). rewrite touch_equiv in Hm.
  set (c := ruleDelay rule (rateOf m (rateRuleKey rule row)) now) in *.
  assert ((if delay <? c then c else delay) = Z.max delay c) as Ec.
  { destruct (delay <? c) eqn:E; bool_to_prop; lia. }
  rewrite Ec in *. split_and!; [done|lia|]. intros x. rewrite Hx, Forall_cons. fold c.
  setoid_rewrite (same_rate _ _ (touch_equiv m (rateRuleKey rule row))). intuition lia.
Qed.

(** Readings within the range of a [Duration], and a state that is not from the
    future. *)
Definition timely (rule : normalizedRateLimit) (r : localRateState) (now : Instant) : Prop :=
  is_int64 (rs_tat r - nr_tolerance rule - now) ∧ rs_windowStart r ≤ now ∧ nr_period rule ≤ int64_max.

Lemma multiples_gap d w w' : 0 < d → (d | w) → (d | w') → w < w' → w + d ≤ w'.
Proof.
  intros Hd [a ->] [b ->] Hlt. assert (a < b) by nia.
  replace (a * d + d) with ((a + 1) * d) by lia. apply Z.mul_le_mono_nonneg_r; lia.
Qed.

Lemma ruleDelay_exact rule key r now x :
  soundRule rule → timely rule r now → 0 ≤ x →
  is_Some (reserveRule rule key r (now + x)) ↔ ruleDelay rule r now ≤ x.
Proof.
  intros [_ Hp _ _] (Ht & Hw & Hper) Hx. unfold reserveRule, ruleDelay, UTC.
  destruct (isFixed (nr_mode rule)).
  - destruct (Truncate_spec now (nr_period rule) Hp) as (Hrange & Hd).
    destruct (Truncate_spec (now + x) (nr_period rule) Hp) as (Hrange' & Hd').
    set (w := Truncate now (nr_period rule)) in *. set (w' := Truncate (now + x) (nr_period rule)) in *.
    assert (Sub (Add w (nr_period rule)) now = w + nr_period rule - now) as ->.
    { unfold Add. apply Sub_exact. unfold is_int64, int64_min, int64_max in *. lia. }
    destruct (TimeEqual (rs_windowStart r) w) eqn:E1; time_to_prop; simpl.
    + destruct (nr_limit rule <=? rs_count r) eqn:E2; bool_to_prop.
      * destruct (TimeEqual (rs_windowStart r) w') eqn:E3; time_to_prop; simpl.
        -- split; [by intros []|lia].
        -- split; [|by eauto]. intros _.
           destruct (decide (w' < w)) as [Hlt|]; [pose proof (multiples_gap _ _ _ Hp Hd' Hd Hlt); lia|].
           pose proof (multiples_gap _ _ _ Hp Hd Hd' ltac:(lia)). lia.
      * split; [done|]. intros _. destruct (TimeEqual _ w'); simpl; by eauto.
    + split; [done|]. intros _. destruct (TimeEqual (rs_windowStart r) w') eqn:E3; time_to_prop; simpl; [|by eauto].
      exfalso. apply E1. rewrite E3. apply Z.le_antisymm; apply Z.le_ngt; intros Hlt;
        [pose proof (multiples_gap _ _ _ Hp Hd Hd' Hlt)|pose proof (multiples_gap _ _ _ Hp Hd' Hd Hlt)]; lia.
  - unfold Add. destruct (After (rs_tat r + - nr_tolerance rule) now) eqn:E; time_to_prop.
    + rewrite Sub_exact by (replace (rs_tat r + - nr_tolerance rule - now) with (rs_tat r - nr_tolerance rule - now) by lia; done).
      destruct (After _ (now + x)) eqn:E2; time_to_prop; [split; [by intros []|lia]|]. split; [lia|by eauto].
    + destruct (After _ (now + x)) eqn:E2; time_to_prop; [lia|]. split; [lia|by eauto].
Qed.

(** The announced delay is exact.  A job may start [x] nanoseconds from now
    iff [x] is at least the delay, the reservation then takes a permit of every
    local rule or changes nothing, a rollback with nothing in between restores
    the limiter, and asking for the delay changes nothing. *)
Theorem local_delay_exact rules row now m m1 delay x m2 res :
  distinctBuckets rules row →
  Forall (λ rule, soundRule rule ∧ timely rule (rateOf m (rateRuleKey rule row)) now) (localRules rules) →
  0 ≤ x →
  localRateDelay rules row now m 0 = (m1, delay) → reserveLocalRateLimits rules row (now + x) m = (m2, res) →
  0 ≤ delay ∧ m1 ≡ m ∧ (is_Some res ↔ delay ≤ x) ∧
  match res with Some taken => rollbackLocked taken m2 ≡ m | None => m2 ≡ m end.
Proof.
  intros Hd Hs Hx (Hm1 & Hle & Hdelay)%localRateDelay_spec Hres. split_and!; [done|done| |].
  - assert (res = (reserveLoop rules row (now + x) m []).2) as ->
      by (unfold reserveLocalRateLimits in Hres; by rewrite Hres).
    rewrite reserveLoop_succeeds, Hdelay by done. rewrite !Forall_forall in *.
    split; [intros Hall; split; [done|]|intros [_ Hall]]; intros rule Hin; destruct (Hs rule Hin).
    + eapply ruleDelay_exact; eauto.
    + eapply ruleDelay_exact; eauto.
  - apply reserveLoop_spec in Hres. destruct res; [by destruct Hres as (new & -> & ?)|done].
Qed.

(** ** Starts over a span *)

(** Jobs of one queue take permits and give them back in any order.  A grant
    stays on record; it is no longer [live] once its rollback ran. *)
Record grant := mkGrant {
  g_row : JobRow;
  g_now : Instant;
  g_taken : list localRateReservation;
  g_live : bool
}.

Inductive limiterOp :=
| LReserve (row : JobRow) (now : Instant)
| LRollback (i : nat).

Definition limiterExec (rules : list normalizedRateLimit) (o : limiterOp) (st : rates * list grant) : rates * list grant :=
  let '(m, grants) := st in
  match o with
  | LReserve row now =>
      match reserveLocalRateLimits rules row now m with
      | (m', Some taken) => (m', grants ++ [mkGrant row now taken true])
      | (m', None) => (m', grants)
      end
  | LRollback i =>
      match grants !! i with
      | Some g => if g_live g
          then (rollbackLocked (g_taken g) m, <[i := mkGrant (g_row g) (g_now g) (g_taken g) false]> grants)
          else (m, grants)
      | None => (m, grants)
      end
  end.

Definition limiterRun (rules : list normalizedRateLimit) (ops : list limiterOp) (m : rates) : rates * list grant :=
  foldl (λ st o, limiterExec rules o st) (m, []) ops.

(** The start times, in order of granting, of the live grants for a bucket. *)
Definition starts (rule : normalizedRateLimit) (key : string) (grants : list grant) : list Instant :=
  g_now <$> filter (λ g, g_live g = true ∧ rateRuleKey rule (g_row g) = key) grants.

Section span.
Context (rules : list normalizedRateLimit) (rule : normalizedRateLimit) (key : string).
Context (Hin : rule ∈ rules) (Hlocal : nr_scope rule = RateLimitScopeLocal) (Hgcra : isFixed (nr_mode rule) = false).
Context (Hnodup : NoDup rules).
(* the bucket belongs to this rule alone *)
Context (Hown : ∀ rule' row, rule' ∈ rules → rateRuleKey rule' row = key → rule' = rule).
Context (Hpos : 1 ≤ nr_interval rule).

(** What a live grant of the bucket took from it. *)
Definition took (g : grant) (r : localRateReservation) : Prop :=
  filter (λ r, lr_state r = key) (g_taken g) = [r] ∧ lr_fixedWindow r = false ∧
  lr_previous r - nr_tolerance rule ≤ g_now g ∧
  lr_reserved r = Z.max (lr_previous r) (g_now g) + nr_interval rule.

Definition concerned (g : grant) : Prop := g_live g = true ∧ rateRuleKey rule (g_row g) = key.

#[local] Instance concerned_dec g : Decision (concerned g).
Proof. unfold concerned. apply _. Defined.

(** Live grants of the bucket form a chain, and the arrival time is past all of
    it; the others did not touch it. *)
Record chain (m : rates) (grants : list grant) (rs : list localRateReservation) : Prop := {
  ch_took : Forall2 took (filter concerned grants) rs;
  ch_order : StronglySorted (λ r1 r2, lr_reserved r1 ≤ lr_previous r2) rs;
  ch_below : Forall (λ r, lr_reserved r ≤ rs_tat (rateOf m key)) rs;
  ch_other : Forall (λ g, g_live g = true → rateRuleKey rule (g_row g) ≠ key →
    filter (λ r, lr_state r = key) (g_taken g) = []) grants
}.

Lemma undo_tat m r :
  rs_tat (rateOf (undo m r) key) =
    if decide (lr_state r = key ∧ lr_fixedWindow r = false ∧ rs_tat (rateOf m key) = lr_reserved r)
    then lr_previous r else rs_tat (rateOf m key).
Proof.
  unfold undo. destruct (decide (lr_state r = key)) as [<-|Hne].
  - destruct (lr_fixedWindow r).
    + rewrite rateOf_insert, decide_True, decide_False by naive_solver. done.
    + destruct (TimeEqual _ _) eqn:E; time_to_prop.
      * rewrite rateOf_insert, !decide_True by done. done.
      * by rewrite decide_False by naive_solver.
  - rewrite (decide_False (P := _ ∧ _ ∧ _)) by naive_solver.
    repeat case_match; rewrite ?rateOf_insert, ?decide_False by done; done.
Qed.

Lemma rollback_tat_none rs : ∀ m,
  filter (λ r, lr_state r = key) rs = [] → rs_tat (rateOf (rollbackLocked rs m) key) = rs_tat (rateOf m key).
Proof.
  induction rs as [|r rs IH]; intros m; [done|]. rewrite filter_cons. case_decide as Hk; [done|]. intros Hf.
  change (r :: rs) with ([r] ++ rs). rewrite rollback_app, rollback_single, undo_tat, decide_False by naive_solver.
  by apply IH.
Qed.

Lemma rollback_tat_one rs r : ∀ m,
  filter (λ r, lr_state r = key) rs = [r] → lr_fixedWindow r = false →
  rs_tat (rateOf (rollbackLocked rs m) key) =
    if decide (rs_tat (rateOf m key) = lr_reserved r) then lr_previous r else rs_tat (rateOf m key).
Proof.
  induction rs as [|r0 rs IH]; intros m; [done|]. rewrite filter_cons.
  change (r0 :: rs) with ([r0] ++ rs). rewrite rollback_app, rollback_single, undo_tat. case_decide as Hk.
  - intros [= -> Hf] Hfw. rewrite rollback_tat_none by done. repeat case_decide; naive_solver.
  - intros Hf Hfw. rewrite decide_False by naive_solver. by apply IH.
Qed.

(** What a reservation does to the bucket. *)
Lemma reserve_tat row now rules' : ∀ m acc m' taken,
  NoDup rules' → (∀ x, x ∈ rules' → x ∈ rules) →
  reserveLoop rules' row now m acc = (m', Some taken) →
  ∃ new, taken = acc ++ new ∧
    if decide (rule ∈ rules' ∧ rateRuleKey rule row = key)
    then ∃ r, filter (λ r, lr_state r = key) new = [r] ∧ lr_fixedWindow r = false ∧
         lr_previous r = rs_tat (rateOf m key) ∧ lr_previous r - nr_tolerance rule ≤ now ∧
         lr_reserved r = Z.max (lr_previous r) now + nr_interval rule ∧ rs_tat (rateOf m' key) = lr_reserved r
    else filter (λ r, lr_state r = key) new = [] ∧ rs_tat (rateOf m' key) = rs_tat (rateOf m key).
Proof.
  induction rules' as [|x rules' IH]; intros m acc m' taken Hnd Hsub Hrun; simpl in Hrun.
  { simplify_eq. exists []. rewrite app_nil_r, decide_False by set_solver. done. }
  apply NoDup_cons in Hnd as [Hx Hnd].
  destruct (nr_scope x =? RateLimitScopeLocal) eqn:Es; bool_to_prop; simpl in Hrun.
  2: { destruct (IH m acc m' taken) as (new & -> & Hc); [done|set_solver|done|]. exists new. split; [done|].
       assert (rule ≠ x) by congruence.
       destruct (decide (rule ∈ rules' ∧ rateRuleKey rule row = key));
         [rewrite decide_True by set_solver|rewrite decide_False by set_solver]; done. }
  destruct (reserveRule x _ _ now) as [[r' tk]|] eqn:Er; [|done].
  apply IH in Hrun as (new & -> & Hc); [|done|set_solver]. exists (tk :: new).
  split; [by rewrite <-app_assoc|]. rewrite filter_cons.
  assert (lr_state tk = rateRuleKey x row) as Htk.
  { unfold reserveRule in Er. repeat case_match; simplify_eq; done. }
  rewrite Htk. rewrite !rateOf_insert in Hc.
  destruct (decide (rateRuleKey x row = key)) as [Hk|Hk].
  - assert (x = rule) as -> by (apply (Hown x row); [set_solver|done]).
    rewrite decide_False in Hc by naive_solver. rewrite decide_True by set_solver.
    rewrite Hk, decide_True in Hc by done. destruct Hc as [-> Ht]. exists tk. rewrite Hk in Er.
    unfold reserveRule in Er. rewrite Hgcra in Er. destruct (After _ now) eqn:Ea; [done|]. simplify_eq/=.
    unfold Add in *. time_to_prop. split_and!; try done.
    destruct (Before _ now) eqn:Eb; time_to_prop; lia.
  - rewrite !(decide_False (P := key = _)) in Hc by done.
    destruct (decide (rule ∈ rules' ∧ rateRuleKey rule row = key));
      [rewrite decide_True by set_solver|rewrite decide_False by set_solver]; done.
Qed.

Lemma chain_tat m m' grants rs :
  rs_tat (rateOf m' key) = rs_tat (rateOf m key) → chain m grants rs → chain m' grants rs.
Proof. intros Ht [H1 H2 H3 H4]. split; try done. by rewrite Ht. Qed.

Lemma chain_reserve m grants rs row now :
  chain m grants rs →
  ∃ rs', chain (limiterExec rules (LReserve row now) (m, grants)).1 (limiterExec rules (LReserve row now) (m, grants)).2 rs'.
Proof.
  intros Hc. simpl. destruct (reserveLocalRateLimits rules row now m) as [m' [taken|]] eqn:Er.
  2: { exists rs. eapply chain_tat; [|exact Hc]. apply reserveLoop_spec in Er. by rewrite (same_rate _ _ Er). }
  destruct (reserve_tat row now rules m [] m' taken Hnodup (λ x Hx, Hx) Er) as (new & -> & Hr).
  destruct Hc as [H1 H2 H3 H4]. simpl. set (g := mkGrant row now new true).
  destruct (decide (rateRuleKey rule row = key)) as [Hk|Hk].
  - rewrite decide_True in Hr by done. destruct Hr as (r & Hf & Hfw & Hp & Hle & Hres & Ht).
    exists (rs ++ [r]). split.
    + rewrite filter_app, filter_cons, (decide_True (P := concerned g)) by done.
      apply Forall2_app; [done|]. constructor; [|constructor]. by split_and!.
    + apply StronglySorted_app_2; [|done|by repeat constructor]. intros x y Hx Hy%list_elem_of_singleton. subst.
      rewrite Hp. rewrite Forall_forall in H3. by apply H3.
    + rewrite Ht. apply Forall_app. split; [|by apply Forall_singleton].
      eapply Forall_impl; [exact H3|]. simpl. intros x Hx. lia.
    + apply Forall_app. split; [done|]. apply Forall_singleton. intros _ Hn. done.
  - rewrite decide_False in Hr by naive_solver. destruct Hr as [Hf Ht]. exists rs. split.
    + rewrite filter_app, filter_cons, (decide_False (P := concerned g)) by (intros []; done).
      by rewrite app_nil_r.
    + done.
    + by rewrite Ht.
    + apply Forall_app. split; [done|]. by apply Forall_singleton.
Qed.

Lemma took_grows g r : took g r → lr_previous r < lr_reserved r.
Proof. intros (_ & _ & _ & ->). lia. Qed.

Lemma sorted_remove {A} (R : relation A) l1 x l2 : StronglySorted R (l1 ++ x :: l2) → StronglySorted R (l1 ++ l2).
Proof.
  induction l1 as [|y l1 IH]; simpl; intros Hs; apply StronglySorted_inv in Hs as [Hs Hall]; [done|].
  constructor; [by apply IH|]. rewrite Forall_app, Forall_cons in Hall. apply Forall_app. tauto.
Qed.

(** Giving back any live grant leaves a chain of the remaining ones. *)
Lemma chain_rollback m grants rs i :
  chain m grants rs →
  ∃ rs', chain (limiterExec rules (LRollback i) (m, grants)).1 (limiterExec rules (LRollback i) (m, grants)).2 rs'.
Proof.
  intros Hc. simpl. destruct (grants !! i) as [g|] eqn:Eg; [|by exists rs].
  destruct (g_live g) eqn:El; [|by exists rs]. simpl. set (dead := mkGrant _ _ _ false).
  assert (¬ concerned dead) as Hdead by (intros []; done).
  destruct Hc as [H1 H2 H3 H4].
  assert (Forall (λ g, g_live g = true → rateRuleKey rule (g_row g) ≠ key →
    filter (λ r, lr_state r = key) (g_taken g) = []) (<[i:=dead]> grants)) as H4'.
  { apply Forall_insert; [done|]. done. }
  rewrite <-(take_drop_middle grants i g Eg) in H1 at 1.
  rewrite filter_app, filter_cons in H1.
  assert (filter concerned (<[i:=dead]> grants) =
    filter concerned (take i grants) ++ filter concerned (drop (S i) grants)) as Hf'.
  { rewrite insert_take_drop by (by eapply lookup_lt_Some). rewrite filter_app, filter_cons.
    by rewrite (decide_False (P := concerned dead)). }
  destruct (decide (rateRuleKey rule (g_row g) = key)) as [Hk|Hk].
  - rewrite decide_True in H1 by done.
    apply Forall2_app_inv_l in H1 as (rs1 & rs2' & F1 & F2 & ->). apply Forall2_cons_inv_l in F2 as (r & rs2 & Hr & F2 & ->).
    pose proof Hr as (Hfr & Hfw & _). exists (rs1 ++ rs2). split; [| |  |done].
    + rewrite Hf'. by apply Forall2_app.
    + by eapply sorted_remove.
    + rewrite (rollback_tat_one _ r) by done. case_decide as Ht.
      2: { rewrite Forall_app, Forall_cons in H3. apply Forall_app. tauto. }
      assert (Forall (λ r0, lr_reserved r0 ≤ lr_previous r) rs1) as Hrs1.
      { apply Forall_forall. intros x Hx. by eapply StronglySorted_app_1_elem_of in H2; [|exact Hx|by left]. }
      apply Forall_app. split; [done|]. apply Forall_forall. intros x Hx. exfalso.
      apply StronglySorted_app_1_r in H2. apply StronglySorted_inv in H2 as [_ Hall]. rewrite Forall_forall in Hall.
      specialize (Hall x Hx). rewrite Forall_app, Forall_cons, !Forall_forall in H3. destruct H3 as (_ & _ & Hb).
      specialize (Hb x Hx). simpl in *.
      apply list_elem_of_lookup in Hx as [j Hj]. destruct (Forall2_lookup_r _ _ _ _ _ F2 Hj) as (g' & _ & Hg').
      apply took_grows in Hg'. lia.
  - rewrite decide_False in H1 by (intros []; done). exists rs. split; [|done| |done].
    + by rewrite Hf', <-filter_app in *.
    + rewrite rollback_tat_none; [done|]. rewrite Forall_forall in H4. apply H4; [|done|done].
      by eapply list_elem_of_lookup_2.
Qed.

Lemma chain_run ops m : ∃ rs, chain (limiterRun rules ops m).1 (limiterRun rules ops m).2 rs.
Proof.
  unfold limiterRun. assert (∃ rs, chain (m, @nil grant).1 (m, @nil grant).2 rs) as H0.
  { exists []. split; constructor. }
  revert H0. generalize (m, @nil grant) as st. induction ops as [|o ops IH]; intros [m0 gs] [rs Hc]; [by exists rs|].
  simpl. apply IH. destruct o; [by eapply chain_reserve|by eapply chain_rollback].
Qed.

(** A chain is a history of moves of the arrival time. *)
Lemma chain_moves gs rs :
  Forall2 took gs rs → StronglySorted (λ r1 r2, lr_reserved r1 ≤ lr_previous r2) rs →
  gcra_moves (nr_interval rule) (nr_tolerance rule) None (g_now <$> gs) (lr_reserved <$> last rs).
Proof.
  revert gs. induction rs as [|r rs IH] using rev_ind; intros gs Hf Hs.
  { apply Forall2_nil_inv_r in Hf as ->. constructor. }
  apply Forall2_app_inv_r in Hf as (gs1 & gs2 & Hf & Hl & ->).
  apply Forall2_cons_inv_r in Hl as (g & gs3 & (_ & _ & Hle & Hres) & Hnil & ->). apply Forall2_nil_inv_r in Hnil as ->.
  specialize (IH _ Hf (StronglySorted_app_1_l _ _ _ Hs)). rewrite fmap_app, last_snoc. simpl. rewrite Hres.
  apply gm_slot; [|done]. destruct (last rs) as [r0|] eqn:El; simpl in IH.
  - eapply gm_waste; [exact IH|]. eapply StronglySorted_app_1_elem_of in Hs; [exact Hs| |by left].
    by apply last_Some_elem_of.
  - by apply gm_create.
Qed.
End span.

(** The in-process GCRA bound.  In whatever order the jobs of a queue take
    permits and give them back, the starts that count against a smooth rule for
    one of its buckets number at most [burst + D / interval] in any span of
    length [D]. *)
Theorem local_gcra_bound rules rule key ops m t D :
  rule ∈ rules → nr_scope rule = RateLimitScopeLocal → isFixed (nr_mode rule) = false → NoDup rules →
  (∀ rule' row, rule' ∈ rules → rateRuleKey rule' row = key → rule' = rule) →
  soundRule rule → nr_tolerance rule = nr_interval rule * (nr_burst rule - 1) → 0 ≤ D →
  Z.of_nat (length (inSpan t D (starts rule key (limiterRun rules ops m).2))) ≤
    nr_burst rule + D / nr_interval rule.
Proof.
  intros Hin Hlocal Hgcra Hnd Hown [Hb Hper Hint _] Htol HD.
  destruct (chain_run rules rule key Hin Hlocal Hgcra Hnd Hown Hint ops m) as [rs [H1 H2 _ _]].
  apply chain_moves in H1; [|done].
  destruct (gcra_moves_span (nr_interval rule) (nr_tolerance rule) t D _ _ _ ltac:(lia) ltac:(nia) HD H1) as [_ Hk].
  unfold starts. fold (concerned rule key).
  set (k := Z.of_nat (length _)) in Hk. change (k ≤ nr_burst rule + D / nr_interval rule).
  assert (k - nr_burst rule ≤ D / nr_interval rule); [|lia]. apply Z.div_le_lower_bound; [lia|]. nia.
Qed.

(** ** Witnesses *)

Definition demoRow (kind : string) : JobRow :=
  mkJobRow "mem_1" "mail" kind "{}" JobStateRunning 0 0 0 (Some 0) None None None 1 3 0 [] [] "" "w" "".

(** Ten starts a second per kind, three at once. *)
Definition demoRule : normalizedRateLimit :=
  normalizeRule (H := amd64_conv) "mail"
    (mkQueueRateLimit 10 Second 3 RateLimitScopeLocal RateLimitKeyQueue "" RateLimitModeGCRA).

Lemma demoRule_sound : soundRule demoRule.
Proof.
  apply (normalizeRule_sound (H := amd64_conv)). unfold plainRule. cbn [qr_Limit qr_Period qr_Burst qr_Scope qr_Key qr_Mode].
  split; [lia|]. split; [done|]. split; [lia|]. split; [by left|]. split; [done|done].
Qed.

(** After a burst of three at five seconds the next start is 100ms away. *)
Definition demoRates : gmap string localRateState :=
  (limiterRun [demoRule] (replicate 3 (LReserve (demoRow "email") (5 * Second))) ∅).1.

Lemma local_delay_exact_witness :
  is_Some (reserveLocalRateLimits [demoRule] (demoRow "email") (5 * Second + 100 * Millisecond) demoRates).2.
Proof.
  destruct (localRateDelay [demoRule] (demoRow "email") (5 * Second) demoRates 0) as [m1 delay] eqn:Ed.
  destruct (reserveLocalRateLimits [demoRule] (demoRow "email") (5 * Second + 100 * Millisecond) demoRates) as [m2 res] eqn:Er.
  destruct (local_delay_exact [demoRule] (demoRow "email") (5 * Second) demoRates m1 delay (100 * Millisecond) m2 res)
    as (_ & _ & Hiff & _); [| | | exact Ed|exact Er|].
  - unfold distinctBuckets. apply NoDup_singleton.
  - apply Forall_singleton. split; [exact demoRule_sound|]. vm_compute. split; [split; discriminate|]. split; discriminate.
  - vm_compute. discriminate.
  - apply Hiff.
    assert (delay = (localRateDelay [demoRule] (demoRow "email") (5 * Second) demoRates 0).2) as -> by (by rewrite Ed).
    vm_compute. discriminate.
Defined.

Lemma local_gcra_bound_witness :
  Z.of_nat (length (inSpan (5 * Second) 0
    (starts demoRule (nr_key demoRule)
      (limiterRun [demoRule] (replicate 5 (LReserve (demoRow "email") (5 * Second)) ++ [LRollback 0; LRollback 2;
         LReserve (demoRow "email") (5 * Second)]) ∅).2))) ≤ 3.
Proof.
  etrans; [apply (local_gcra_bound [demoRule] demoRule (nr_key demoRule))|vm_compute; discriminate].
  - by left.
  - reflexivity.
  - reflexivity.
  - apply NoDup_singleton.
  - intros rule' row Hr _. by apply list_elem_of_singleton in Hr.
  - exact demoRule_sound.
  - vm_compute. reflexivity.
  - lia.
Defined.

(** ** Fixed windows and rollbacks *)

(** Two starts a second. *)
Definition demoWindowRule : normalizedRateLimit :=
  normalizeRule (H := amd64_conv) "mail"
    (mkQueueRateLimit 2 Second 2 RateLimitScopeLocal RateLimitKeyQueue "" RateLimitModeFixedWindow).

(** A job reserves, a second one reserves and starts, the first gives its permit
    back: the rollback also erases the second one's count, and two more jobs
    start in the same window, three in all against a limit of two. *)
Lemma fixed_window_rollback_exceeds :
  starts demoWindowRule (nr_key demoWindowRule)
    (limiterRun [demoWindowRule]
       [LReserve (demoRow "a") (5 * Second); LReserve (demoRow "b") (5 * Second); LRollback 0;
        LReserve (demoRow "c") (5 * Second); LReserve (demoRow "d") (5 * Second)] ∅).2 =
    [5 * Second; 5 * Second; 5 * Second] ∧ nr_limit demoWindowRule = 2.
Proof. split; vm_compute; reflexivity. Qed.
