(* ===== verification/WorkerRun.v ===== *)
(** * worker.go: running one claimed job

    The handler chain with its panic recovery, the decision what becomes of the
    job, the fenced state transition, the heartbeat and the rescue of abandoned
    jobs.  The backend is the interface [WorkerStore]; [RunEnv] is what these
    calls can see and change: the store, the pool's clock, the observer's events
    and the errors handed to the error handler. *)

From S2P Require Import Prelude GoBase Json Codec Core Driver RateLimit WorkerConfig.
From Stdlib Require Import ZArith Lia.

(** ** The backend as a worker sees it *)

Class WorkerStore (S : Type) := {
  ws_fetch : S → FetchParams → S * result (list JobRow);
  ws_setState : S → JobSetStateParams → S * option error;
  (* the optional interfaces an executor may implement *)
  ws_markStarted : option (S → JobMarkStartedParams → S * result bool);
  ws_heartbeat : option (S → JobHeartbeatParams → S * result bool);
  ws_rescue : option (S → JobRescueParams → S * result Z);
  ws_elect : S → LeaderElectParams → S * result bool;
  ws_resign : S → LeaderResignParams → S * option error
}.

(** ** telemetry.go, the worker's part *)

Inductive WorkerEvent :=
| EvClaimed (job : JobRow)
| EvHeartbeat (job : JobRow) (renewed : bool) (err : option error)
| EvRescued (queue : string) (before : Instant) (rescued : Z) (err : option error)
| EvStarted (job : JobRow) (startedAt : Instant) (claimWait : Duration)
| EvFinished (job : JobRow) (state : JobState) (err : option error) (startedAt finishedAt : Instant).

Record RunEnv (S : Type) := mkRunEnv {
  rn_store : S;
  rn_clk : Clock;
  rn_events : list WorkerEvent;
  rn_reports : list error
}.
Arguments mkRunEnv {S}.
Arguments rn_store {S}.
Arguments rn_clk {S}.
Arguments rn_events {S}.
Arguments rn_reports {S}.

(** ** Handlers *)

(** [errors.As(err, &panicErr)]: the stack of the first recovered panic. *)
Fixpoint asPanic (e : error) : option string :=
  match e with
  | EPanic _ stack => Some stack
  | EWrap _ e' _ | EDiscard (Some e') | ERetry (Some e') _ _ => asPanic e'
  | EJoin es => (fix go (l : list error) : option string :=
      match l with
      | [] => None
      | e' :: l' => match asPanic e' with Some s => Some s | None => go l' end
      end) es
  | _ => None
  end.

Definition panicTrace (err : error) : option string :=
  match asPanic err with
  | Some stack => if bool_decide (stack = "") then None else Some stack
  | None => None
  end.

(** [recover]: a panic becomes an error. *)
Definition recovered (o : outcome) : option error :=
  match o with
  | Returns err => err
  | Panics value stack => Some (EPanic value stack)
  end.

Definition innermost (reg : Registry) : Handler :=
  λ ctx job, let '(job', o) := Process reg ctx job in (job', Returns (recovered o)).

(** Middleware is applied in order, the first one outermost. *)
Definition chainHandler (middleware : list JobMiddleware) (handler : Handler) : Handler :=
  foldr (λ (mw : JobMiddleware) (next : Handler), λ ctx job, mw ctx job next) handler middleware.

Definition callHandler (ctx : Ctx) (job : RawJob) (handler : Handler) : option error :=
  recovered (handler ctx job).2.

Section run.
Context {S : Type} `{WorkerStore S}.
Context (p : WorkerPool) (reg : Registry).

Abbreviation cfg := (wp_config p) (only parsing).

Definition runNow (e : RunEnv S) : Instant * RunEnv S :=
  let '(t, c) := Now (rn_clk e) in (t, mkRunEnv (rn_store e) c (rn_events e) (rn_reports e)).
Definition runOn (s : S) (e : RunEnv S) : RunEnv S := mkRunEnv s (rn_clk e) (rn_events e) (rn_reports e).
Definition reportError (err : error) (e : RunEnv S) : RunEnv S :=
  mkRunEnv (rn_store e) (rn_clk e) (rn_events e) (rn_reports e ++ [err]).
Definition observe (ev : WorkerEvent) (e : RunEnv S) : RunEnv S :=
  if wc_Observer cfg then mkRunEnv (rn_store e) (rn_clk e) (rn_events e ++ [ev]) (rn_reports e) else e.

(** ** State transitions *)

Definition setState (params : JobSetStateParams) (e : RunEnv S) : RunEnv S :=
  let '(s', err) := ws_setState (rn_store e) params in
  let e := runOn s' e in
  match err with
  | Some err => if errorsIs err ErrStaleClaim then e
                else reportError (EWrap ("set state for job " +:+ sp_ID params +:+ ": ") err "") e
  | None => e
  end.

Definition fencedStateParams (row : JobRow) (params : JobSetStateParams) : JobSetStateParams :=
  mkJobSetStateParams (ID row) (sp_State params) (sp_Err params) (sp_Trace params) (sp_Attempt params)
    (sp_RetryAt params) (WorkerID row) (AttemptNum row) (sp_Yield params).

Definition yieldParams : JobSetStateParams := mkJobSetStateParams "" "" None None 0 zeroTime "" 0 true.

(** ** processRow *)

(** The job's own limit, else its kind's, else 3. *)
Definition effectiveMaxRetry (row : JobRow) : Z :=
  let maxRetry := MaxRetry row in
  let maxRetry :=
    if maxRetry <=? 0 then
      match Opts reg (Kind row) with
      | Some opts => if 0 <? wo_MaxRetry opts then wo_MaxRetry opts else maxRetry
      | None => maxRetry
      end
    else maxRetry in
  if maxRetry <=? 0 then 3 else maxRetry.

Definition effectiveTimeout (row : JobRow) : Duration :=
  if Timeout row <=? 0 then
    match Opts reg (Kind row) with Some opts => wo_Timeout opts | None => Timeout row end
  else Timeout row.

Definition rawJobOf (row : JobRow) : RawJob :=
  mkRawJob (ID row) (Queue row) (Kind row) (Args row) (AttemptNum row) (effectiveMaxRetry row) (CreatedAt row)
    (RunAt row) (WorkerID row) (Tags row) (PipelineID row) 0.

(** The context the handler gets: [clock.WithTimeout] reads the clock. *)
Definition jobContext (ctx : Ctx) (row : JobRow) (e : RunEnv S) : Ctx * RunEnv S :=
  if 0 <? effectiveTimeout row
  then let '(now, e) := runNow e in (CtxTimeout ctx (Add now (effectiveTimeout row)), e)
  else (ctx, e).

(** When to try again; the zero time means never. *)
Definition retryTime (row : JobRow) (jobErr : error) (e : RunEnv S) : Instant * RunEnv S :=
  match AsRetry jobErr with
  | Some (at_, after) =>
      if IsZero at_ then let '(now, e) := runNow e in (Add now after, e) else (at_, e)
  | None =>
      match wc_RetryPolicy cfg with
      | Some policy =>
          let '(t, c) := policy (AttemptNum row) jobErr (rn_clk e) in
          (t, mkRunEnv (rn_store e) c (rn_events e) (rn_reports e))
      | None => (zeroTime, e)
      end
  end.

Definition failParams (row : JobRow) (state : JobState) (jobErr : error) (retryAt : Instant) : JobSetStateParams :=
  mkJobSetStateParams "" state (Some (errorText jobErr)) (panicTrace jobErr) (AttemptNum row) retryAt "" 0 false.

(** What follows once the handler has returned; [lost] is the error of the claim
    context at that moment. *)
Definition settle (row : JobRow) (lost jobErr : option error) (e : RunEnv S) : RunEnv S * (JobState * option error) :=
  match lost with
  | Some err => (setState (fencedStateParams row yieldParams) e, (JobStateAvailable, Some err))
  | None =>
      match jobErr with
      | None =>
          (setState (fencedStateParams row
             (mkJobSetStateParams "" JobStateCompleted None None 0 zeroTime "" 0 false)) e, (JobStateCompleted, None))
      | Some err =>
          let discard e :=
            (setState (fencedStateParams row (failParams row JobStateDiscarded err zeroTime)) e,
             (JobStateDiscarded, Some err)) in
          if AsDiscard err then discard e
          else if effectiveMaxRetry row <=? AttemptNum row then discard e
          else
            let '(retryAt, e) := retryTime row err e in
            if IsZero retryAt then discard e
            else (setState (fencedStateParams row (failParams row JobStateRetryable err retryAt)) e,
                  (JobStateRetryable, Some err))
      end
  end.

(** The handler call and what follows it. *)
Definition executeRow (lost : option error) (jobCtx : Ctx) (row : JobRow) (e : RunEnv S)
  : RunEnv S * (JobState * option error) :=
  let handler := chainHandler (wc_Middleware cfg) (innermost reg) in
  let jobErr := callHandler jobCtx (rawJobOf row) handler in
  settle row lost jobErr e.

(** [interfere] is what happens to the store while the handler runs. *)
Definition processRow (interfere : RunEnv S → RunEnv S) (lost : option error) (ctx : Ctx) (row : JobRow) (e : RunEnv S)
  : RunEnv S * (JobState * option error) :=
  let '(jobCtx, e) := jobContext ctx row e in
  executeRow lost jobCtx row (interfere e).

(** ** Start marker and lifecycle events *)

(** Before [processRow]: the start marker and the start event.  [lifecycle]
    tells whether the observer implements [WorkerLifecycleObserver]. *)
Definition markStart (lifecycle : bool) (row : JobRow) (e : RunEnv S) : RunEnv S * (JobRow * Instant) :=
  let '(startedAt, e) := runNow e in
  let '(row, e) :=
    match ws_markStarted with
    | None => (row, e)
    | Some mark =>
        let '(s', r) := mark (rn_store e) (mkJobMarkStartedParams (ID row) (WorkerID row) (AttemptNum row) startedAt) in
        let e := runOn s' e in
        match r with
        | Err err => (row, reportError (EWrap ("persist handler start for job " +:+ ID row +:+ ": ") err "") e)
        | Ok true => (set_StartedAt (Some startedAt) row, e)
        | Ok false => (row, e)
        end
    end in
  let claimWait := match AttemptedAt row with Some at_ => Sub startedAt at_ | None => 0 end in
  (if lifecycle then observe (EvStarted row startedAt claimWait) e else e, (row, startedAt)).

(** After [processRow]: the completion event. *)
Definition markFinish (lifecycle : bool) (row : JobRow) (startedAt : Instant) (res : JobState * option error) (e : RunEnv S)
  : RunEnv S :=
  let '(state, jobErr) := res in
  if lifecycle then let '(now, e) := runNow e in observe (EvFinished row state jobErr startedAt now) e else e.

(** From the start of the handler to its completion event. *)
Definition runStarted (lifecycle : bool) (interfere : RunEnv S → RunEnv S) (lost : option error) (ctx : Ctx)
    (row : JobRow) (e : RunEnv S) : RunEnv S :=
  let '(e, (row, startedAt)) := markStart lifecycle row e in
  let '(e, res) := processRow interfere lost ctx row e in
  markFinish lifecycle row startedAt res e.

(** ** Heartbeat *)

(** One tick; [false] stops the ticker and cancels the claim context. *)
Definition heartbeatTick (row : JobRow) (e : RunEnv S) : RunEnv S * bool :=
  match ws_heartbeat with
  | None => (e, true)
  | Some beat =>
      let '(now, e) := runNow e in
      let '(s', r) := beat (rn_store e)
        (mkJobHeartbeatParams (ID row) (WorkerID row) (AttemptNum row) now (Add now (wc_StuckJobTimeout cfg))) in
      let e := runOn s' e in
      match r with
      | Err err => (reportError (EWrap ("heartbeat job " +:+ ID row +:+ ": ") err "")
                      (observe (EvHeartbeat row false (Some err)) e), true)
      | Ok renewed => (observe (EvHeartbeat row renewed None) e, renewed)
      end
  end.

(** Whether a heartbeat goroutine is started at all. *)
Definition beats : bool := match ws_heartbeat with Some _ => 0 <? wc_HeartbeatInterval cfg | None => false end.

(** ** Rescue *)

Definition rescueQueue (rescue : S → JobRescueParams → S * result Z) (now before : Instant) (e : RunEnv S) (queue : string)
  : RunEnv S :=
  let '(s', r) := rescue (rn_store e) (mkJobRescueParams queue now before) in
  let e := runOn s' e in
  match r with
  | Err err => reportError (EWrap ("rescue queue " +:+ quoted queue +:+ ": ") err "")
                 (observe (EvRescued queue before 0 (Some err)) e)
  | Ok n => observe (EvRescued queue before n None) e
  end.

Definition rescueStuck (e : RunEnv S) : RunEnv S :=
  match ws_rescue with
  | None => e
  | Some rescue =>
      let '(now, e) := runNow e in
      let before := Add now (- wc_StuckJobTimeout cfg) in
      foldl (rescueQueue rescue now before) e (wc_Queues cfg)
  end.
End run.
