(* ===== verification/WorkerRunProps.v ===== *)
(** * What running a job guarantees, on the memory backend

    What becomes of a job for every way its handler can end; that recorded
    failures never exceed the job's retry budget, in any history in which
    workers may crash, be rescued, lose their claims or settle late; and that
    a claim whose heartbeat keeps pace is never rescued. *)

From S2P Require Import Prelude GoBase Json Codec Core Driver Memory MemoryInv MemoryFetch MemoryProps MemoryKeys.
From S2P Require Import RateLimit WorkerConfig WorkerConfigProps WorkerRun.
From Stdlib Require Import ZArith Lia.

Section instance.
Context `{MapRange}.

Definition noError {A} (r : Driver * result A) : Driver * option error :=
  (r.1, match r.2 with Ok _ => None | Err e => Some e end).

#[export] Instance memoryWorkerStore : WorkerStore Driver := {|
  ws_fetch := JobFetchBatch;
  ws_setState d p := noError (JobSetStateIfRunning d p);
  ws_markStarted := Some JobMarkStarted;
  ws_heartbeat := Some JobHeartbeat;
  ws_rescue := Some JobRescueStuck;
  ws_elect := LeaderAttemptElect;
  ws_resign d p := noError (LeaderResign d p)
|}.

(** ** The transition a worker asks for *)

Context (p : WorkerPool) (reg : Registry).

(** What [settle] may ask of the store for a claimed row. *)
Inductive verdict (row : JobRow) : JobSetStateParams → Prop :=
| v_yield : verdict row (fencedStateParams row yieldParams)
| v_complete :
    verdict row (fencedStateParams row (mkJobSetStateParams "" JobStateCompleted None None 0 zeroTime "" 0 false))
| v_discard err :
    verdict row (fencedStateParams row (failParams row JobStateDiscarded err zeroTime))
| v_retry err retryAt :
    AttemptNum row < effectiveMaxRetry reg row → retryAt ≠ 0 →
    verdict row (fencedStateParams row (failParams row JobStateRetryable err retryAt)).

Lemma retryTime_frame row err (e : RunEnv Driver) :
  rn_store (retryTime p row err e).2 = rn_store e ∧ rn_reports (retryTime p row err e).2 = rn_reports e.
Proof. unfold retryTime, runNow. repeat case_match; simplify_eq/=; done. Qed.

Lemma settle_verdict row lost jobErr (e : RunEnv Driver) :
  ∃ prm e1, (settle p reg row lost jobErr e).1 = setState prm e1 ∧ verdict row prm ∧
    rn_store e1 = rn_store e ∧ rn_reports e1 = rn_reports e.
Proof.
  assert (∀ err e1, rn_store e1 = rn_store e → rn_reports e1 = rn_reports e →
    ∃ prm e2, setState (fencedStateParams row (failParams row JobStateDiscarded err zeroTime)) e1 = setState prm e2 ∧
      verdict row prm ∧ rn_store e2 = rn_store e ∧ rn_reports e2 = rn_reports e) as Hdiscard.
  { intros err e1 E1 E2. eexists _, e1. split; [reflexivity|]. split; [constructor|done]. }
  unfold settle. destruct lost as [l|].
  { eexists _, e. split; [reflexivity|]. split; [constructor|done]. }
  destruct jobErr as [err|].
  2: { eexists _, e. split; [reflexivity|]. split; [constructor|done]. }
  cbv zeta. destruct (AsDiscard err); [by apply Hdiscard|].
  destruct (effectiveMaxRetry reg row <=? AttemptNum row) eqn:E; [by apply Hdiscard|].
  bool_to_prop. destruct (retryTime_frame row err e) as [F1 F2].
  destruct (retryTime p row err e) as [retryAt e1]. cbn [fst snd] in *.
  destruct (IsZero retryAt) eqn:Ez; [by apply Hdiscard|]. time_to_prop.
  eexists _, e1. split; [reflexivity|]. split; [by constructor|done].
Qed.

Lemma setState_store prm (e : RunEnv Driver) :
  rn_store (setState prm e) = (JobSetStateIfRunning (rn_store e) prm).1 ∧
  rn_reports (setState prm e) =
    match (JobSetStateIfRunning (rn_store e) prm).2 with
    | Ok _ => rn_reports e
    | Err err => if errorsIs err ErrStaleClaim then rn_reports e
                 else rn_reports e ++ [EWrap ("set state for job " +:+ sp_ID prm +:+ ": ") err ""]
    end.
Proof.
  unfold setState. cbn [ws_setState memoryWorkerStore]. unfold noError.
  destruct (JobSetStateIfRunning (rn_store e) prm) as [d' [u|err]]; simpl; [done|]. by destruct (errorsIs err ErrStaleClaim).
Qed.

(** The row a fenced transition leaves; a stale claim changes nothing. *)
Lemma fenced_store (d : Driver) prm r wk a :
  d_jobs d !! sp_ID prm = Some r → ownsClaim r wk a = true →
  sp_ExpectedWorkerID prm = wk → sp_ExpectedAttempt prm = a →
  ∃ t1 t2, d_jobs (JobSetStateIfRunning d prm).1 =
      <[sp_ID prm := if sp_Yield prm then yieldRow r else transitionRow prm t1 t2 r]> (d_jobs d) ∧
    (JobSetStateIfRunning d prm).2 = Ok tt.
Proof.
  intros Hr Ho E1 E2. unfold JobSetStateIfRunning. rewrite Hr. apply ownsClaim_spec in Ho as (Hs & Hw & Ha).
  rewrite bool_decide_eq_true_2 by done.
  assert (MatchesClaim prm (WorkerID r) (AttemptNum r) = true) as ->.
  { unfold MatchesClaim. rewrite E1, E2, Hw, Ha, (bool_decide_eq_true_2 (wk = wk)) by done.
    by rewrite Z.eqb_refl, !orb_true_r. }
  simpl. destruct (sp_Yield prm); [by exists 0, 0|].
  destruct (sp_Err prm), (isTerminal (sp_State prm)); simpl; eauto.
Qed.

(** The parts of a row that identify the job. *)
Definition sameJob (r r' : JobRow) : Prop :=
  ID r' = ID r ∧ Queue r' = Queue r ∧ Kind r' = Kind r ∧ Args r' = Args r ∧ Priority r' = Priority r ∧
  CreatedAt r' = CreatedAt r ∧ MaxRetry r' = MaxRetry r ∧ UniqueKey r' = UniqueKey r.

(** C29: what becomes of a job.  A worker that still owns its claim settles it
    for good: losing the context gives the job back with the attempt returned
    and no error; success completes it; a failure is recorded with its text and
    trace, and the job is discarded if the error says so, the budget is used up
    or the policy gives no time, else it is available again at exactly the time
    the directive or the policy named.  In every case the claim is released, no
    other job is touched and nothing is reported. *)
Theorem job_settles row lost jobErr (e : RunEnv Driver) r :
  d_jobs (rn_store e) !! ID row = Some r → ownsClaim r (WorkerID row) (AttemptNum row) = true →
  let e' := (settle p reg row lost jobErr e).1 in
  ∃ r', d_jobs (rn_store e') = <[ID row := r']> (d_jobs (rn_store e)) ∧ rn_reports e' = rn_reports e ∧
    WorkerID r' = "" ∧ LeaseExpiresAt r' = None ∧ sameJob r r' ∧
    match lost, jobErr with
    | Some _, _ => State r' = JobStateAvailable ∧ AttemptNum r' = wrap64 (AttemptNum r - 1) ∧
        Errors r' = Errors r ∧ RunAt r' = RunAt r
    | None, None => State r' = JobStateCompleted ∧ Errors r' = Errors r ∧ is_Some (FinalizedAt r') ∧
        AttemptNum r' = AttemptNum r
    | None, Some err =>
        let retryAt := (retryTime p row err e).1 in
        (∃ at_, Errors r' = Errors r ++
           [mkAttemptError at_ (AttemptNum r) (errorText err) (default "" (panicTrace err))]) ∧
        AttemptNum r' = AttemptNum r ∧
        if AsDiscard err || (effectiveMaxRetry reg row <=? AttemptNum row) || IsZero retryAt
        then State r' = JobStateDiscarded ∧ is_Some (FinalizedAt r')
        else State r' = JobStateAvailable ∧ RunAt r' = retryAt
    end.
Proof.
  intros Hr Ho e'.
  assert (∀ prm e1, sp_ID prm = ID row → sp_ExpectedWorkerID prm = WorkerID row → sp_ExpectedAttempt prm = AttemptNum row →
    rn_store e1 = rn_store e → rn_reports e1 = rn_reports e →
    ∃ t1 t2, d_jobs (rn_store (setState prm e1)) =
        <[ID row := if sp_Yield prm then yieldRow r else transitionRow prm t1 t2 r]> (d_jobs (rn_store e)) ∧
      rn_reports (setState prm e1) = rn_reports e) as Hset.
  { intros prm e1 E1 E2 E3 E4 E5. destruct (setState_store prm e1) as [-> ->]. rewrite E4, E5.
    destruct (fenced_store (rn_store e) prm r (WorkerID row) (AttemptNum row)) as (t1 & t2 & -> & ->); try done.
    { by rewrite E1. }
    rewrite E1. eauto. }
  assert (∀ err retryAt e1, rn_store e1 = rn_store e → rn_reports e1 = rn_reports e → retryAt ≠ 0 →
    ∃ r', d_jobs (rn_store (setState (fencedStateParams row (failParams row JobStateRetryable err retryAt)) e1)) =
        <[ID row := r']> (d_jobs (rn_store e)) ∧
      rn_reports (setState (fencedStateParams row (failParams row JobStateRetryable err retryAt)) e1) = rn_reports e ∧
      WorkerID r' = "" ∧ LeaseExpiresAt r' = None ∧ sameJob r r' ∧
      (∃ at_, Errors r' = Errors r ++ [mkAttemptError at_ (AttemptNum r) (errorText err) (default "" (panicTrace err))]) ∧
      AttemptNum r' = AttemptNum r ∧ State r' = JobStateAvailable ∧ RunAt r' = retryAt) as Hretry.
  { intros err retryAt e1 E1 E2 Hz. destruct (Hset (fencedStateParams row (failParams row JobStateRetryable err retryAt)) e1)
      as (t1 & t2 & -> & ->); [done..|]. eexists. split; [done|]. split; [done|].
    cbn [sp_Yield fencedStateParams failParams]. unfold transitionRow. simpl. unfold IsZero.
    rewrite (proj2 (Z.eqb_neq retryAt 0)) by done. simpl. split_and!; try done. by eexists. }
  assert (∀ err e1, rn_store e1 = rn_store e → rn_reports e1 = rn_reports e →
    ∃ r', d_jobs (rn_store (setState (fencedStateParams row (failParams row JobStateDiscarded err zeroTime)) e1)) =
        <[ID row := r']> (d_jobs (rn_store e)) ∧
      rn_reports (setState (fencedStateParams row (failParams row JobStateDiscarded err zeroTime)) e1) = rn_reports e ∧
      WorkerID r' = "" ∧ LeaseExpiresAt r' = None ∧ sameJob r r' ∧
      (∃ at_, Errors r' = Errors r ++ [mkAttemptError at_ (AttemptNum r) (errorText err) (default "" (panicTrace err))]) ∧
      AttemptNum r' = AttemptNum r ∧ State r' = JobStateDiscarded ∧ is_Some (FinalizedAt r')) as Hdiscard.
  { intros err e1 E1 E2. destruct (Hset (fencedStateParams row (failParams row JobStateDiscarded err zeroTime)) e1)
      as (t1 & t2 & -> & ->); [done..|]. eexists. split; [done|]. split; [done|].
    cbn [sp_Yield fencedStateParams failParams]. unfold transitionRow. simpl. split_and!; try done; by eexists. }
  subst e'. unfold settle. destruct lost as [l|]; cbn [fst].
  { destruct (Hset (fencedStateParams row yieldParams) e) as (t1 & t2 & -> & ->); [done..|]. eexists. by split_and!. }
  destruct jobErr as [err|]; cbn [fst].
  2: { edestruct (Hset (fencedStateParams row (mkJobSetStateParams "" JobStateCompleted None None 0 zeroTime "" 0 false)) e)
         as (t1 & t2 & -> & ->); [done..|]. eexists. unfold transitionRow. simpl. split_and!; try done; by eexists. }
  cbv zeta. destruct (AsDiscard err); [by apply Hdiscard|].
  destruct (effectiveMaxRetry reg row <=? AttemptNum row); [by apply Hdiscard|].
  destruct (retryTime_frame row err e) as [F1 F2]. destruct (retryTime p row err e) as [retryAt e1]. simpl in *.
  destruct (IsZero retryAt) eqn:Ez; [by apply Hdiscard|]. time_to_prop. by apply Hretry.
Qed.
(** ** The retry budget *)

(** How far a job may be, given its budget [effectiveMaxRetry]. *)
Definition withinBudget (row : JobRow) : Prop :=
  let M := effectiveMaxRetry reg row in
  let failures := Z.of_nat (length (Errors row)) in
  failures ≤ M ∧
  (State row = JobStateRunning → failures ≤ AttemptNum row - 1 ∧ failures ≤ M - 1) ∧
  (isTerminal (State row) = false → State row ≠ JobStateRunning → failures ≤ AttemptNum row ∧ failures ≤ M - 1).

Lemma effectiveMaxRetry_pos row : 1 ≤ effectiveMaxRetry reg row.
Proof.
  unfold effectiveMaxRetry. destruct (_ <=? 0) eqn:E; bool_to_prop; lia.
Qed.

Lemma effectiveMaxRetry_same r r' :
  Kind r' = Kind r → MaxRetry r' = MaxRetry r → effectiveMaxRetry reg r' = effectiveMaxRetry reg r.
Proof. unfold effectiveMaxRetry. by intros -> ->. Qed.

(** A row that belongs to the same job and respects the budget if the old did. *)
Definition follows (k : Z) (r r' : JobRow) : Prop :=
  Kind r' = Kind r ∧ MaxRetry r' = MaxRetry r ∧ (row_wf k r → withinBudget r → withinBudget r').

Lemma follows_refl k r : follows k r r.
Proof. by split_and!. Qed.

(** The usual case: the failures stay and the state moves among the given ones. *)
Lemma follows_move k r r' :
  Kind r' = Kind r → MaxRetry r' = MaxRetry r → Errors r' = Errors r →
  (row_wf k r → withinBudget r → State r' = JobStateRunning → Z.of_nat (length (Errors r)) ≤ AttemptNum r' - 1 ∧
     Z.of_nat (length (Errors r)) ≤ effectiveMaxRetry reg r - 1) →
  (row_wf k r → withinBudget r → isTerminal (State r') = false → State r' ≠ JobStateRunning →
     Z.of_nat (length (Errors r)) ≤ AttemptNum r' ∧ Z.of_nat (length (Errors r)) ≤ effectiveMaxRetry reg r - 1) →
  follows k r r'.
Proof.
  intros E1 E2 E3 Hrun Havail. split_and!; [done|done|]. intros Hw Hb. unfold withinBudget.
  rewrite (effectiveMaxRetry_same r r') by done. rewrite E3. split_and!; [apply Hb|by apply Hrun|by apply Havail].
Qed.

Lemma promote_follows k q now r : follows k r (promote q now r).
Proof.
  unfold promote. destruct (_ && _ && _) eqn:E; [|apply follows_refl]. bool_to_prop.
  apply follows_move; try done. intros _ (_ & _ & Hb) _ _. simpl.
  apply Hb; match goal with Hs : State r = _ |- _ => by rewrite Hs end.
Qed.

Lemma claim_follows k f now r :
  k + 1 < 2 ^ 63 → State r = JobStateAvailable → follows k r (claim f now r).
Proof.
  intros Hk Hs. apply follows_move; try done. intros Hw (_ & _ & Hb) _. simpl.
  destruct Hw as [Ha _ _]. rewrite wrap64_id by (unfold is_int64, int64_min, int64_max; lia).
  specialize (Hb ltac:(by rewrite Hs) ltac:(by rewrite Hs)). lia.
Qed.

Lemma follows_trans k r1 r2 r3 : (row_wf k r1 → row_wf k r2) → follows k r1 r2 → follows k r2 r3 → follows k r1 r3.
Proof. intros Hw (A1 & A2 & A3) (B1 & B2 & B3). split_and!; [congruence|congruence|eauto]. Qed.

Lemma release_follows k r : State r = JobStateRunning → follows k r (releaseRow r).
Proof. intros Hs. apply follows_move; try done. intros _ (_ & Hb & _) _ _. simpl. specialize (Hb Hs). lia. Qed.

Lemma yield_follows k r : k < 2 ^ 63 → State r = JobStateRunning → follows k r (yieldRow r).
Proof.
  intros Hk Hs. apply follows_move; try done. intros Hw (_ & Hb & _) _ _. simpl. destruct Hw as [Ha _ _].
  specialize (Hb Hs). rewrite wrap64_id by (unfold is_int64, int64_min, int64_max; lia). lia.
Qed.

(** A settled claim: at most one failure more, and a retry only within the budget. *)
Lemma verdict_follows k row prm t1 t2 r :
  verdict row prm → State r = JobStateRunning → AttemptNum r = AttemptNum row →
  effectiveMaxRetry reg row = effectiveMaxRetry reg r → k < 2 ^ 63 →
  follows k r (if sp_Yield prm then yieldRow r else transitionRow prm t1 t2 r).
Proof.
  intros Hv Hs Ha Hm Hk.
  assert (∀ prm, Kind (transitionRow prm t1 t2 r) = Kind r ∧ MaxRetry (transitionRow prm t1 t2 r) = MaxRetry r) as Hsame.
  { intros prm'. unfold transitionRow. by repeat case_match. }
  destruct Hv as [| |err|err retryAt Hlt Hz]; cbn [sp_Yield fencedStateParams failParams yieldParams].
  - by apply yield_follows.
  - apply follows_move; [apply Hsame|apply Hsame|done|done|done].
  - split_and!; [apply Hsame|apply Hsame|]. intros _ (_ & Hb & _). unfold withinBudget.
    rewrite (effectiveMaxRetry_same r) by apply Hsame. specialize (Hb Hs). unfold transitionRow. simpl.
    rewrite length_app. simpl. split_and!; [lia|done|done].
  - split_and!; [apply Hsame|apply Hsame|]. intros _ (_ & Hb & _). unfold withinBudget.
    rewrite (effectiveMaxRetry_same r) by apply Hsame. specialize (Hb Hs). unfold transitionRow. simpl.
    unfold IsZero. rewrite (proj2 (Z.eqb_neq retryAt 0)) by done. simpl. rewrite length_app. simpl.
    split_and!; [lia|done|]. intros _ _. lia.
Qed.

(** What a step may do to the table as a whole. *)
Record steps_budget (k : Z) (d d' : Driver) : Prop := {
  sb_row : ∀ id row', d_jobs d' !! id = Some row' →
    (∃ row, d_jobs d !! id = Some row ∧ follows k row row') ∨
    (withinBudget row' ∧ ∃ n, d_seq d < n ∧ id = jobID n);
  sb_seq : d_seq d ≤ d_seq d'
}.

Lemma steps_budget_refl k d : steps_budget k d d.
Proof. split; [|done]. intros id row Hr. left. exists row. split; [done|apply follows_refl]. Qed.

Lemma steps_budget_one k d d' id r r' :
  d_jobs d !! id = Some r → d_jobs d' = <[id := r']> (d_jobs d) → d_seq d' = d_seq d → follows k r r' →
  steps_budget k d d'.
Proof.
  intros Hr Hj Hs Hf. split; [|lia]. intros id' row' Hr'. left. rewrite Hj in Hr'.
  apply lookup_insert_Some in Hr' as [[<- <-]|[_ Hr']]; [eauto|]. exists row'. split; [done|apply follows_refl].
Qed.

Lemma steps_budget_all k d d' (f : JobRow → JobRow) :
  d_jobs d' = f <$> d_jobs d → d_seq d' = d_seq d → (∀ r, follows k r (f r)) → steps_budget k d d'.
Proof.
  intros Hj Hs Hf. split; [|lia]. intros id row'. rewrite Hj, lookup_fmap, fmap_Some.
  intros (row & Hr & ->). left. eauto.
Qed.

Lemma steps_budget_jobs k d d' : d_jobs d' = d_jobs d → d_seq d' = d_seq d → steps_budget k d d'.
Proof.
  intros Hj Hs. apply (steps_budget_all k d d' id); [by rewrite map_fmap_id|done|]. intros. apply follows_refl.
Qed.
(** ** Histories of a worker fleet *)

(** Store calls other than state transitions and rescheduling by hand. *)
Definition allowed (o : op) : Prop :=
  match o with OSetState _ | OReschedule _ => False | _ => True end.

Lemma newRow_budget prm id now : withinBudget (newRow prm id now).
Proof.
  pose proof (effectiveMaxRetry_pos (newRow prm id now)). unfold withinBudget. cbn [Errors newRow AttemptNum State length].
  split_and!; [lia| |lia]. destruct (After _ now); discriminate.
Qed.

Lemma insertOne_rows d prm k :
  jobs_inv k d → k + 1 < 2 ^ 63 →
  d_seq d ≤ d_seq (insertOne d prm).1 ∧
  ∀ id row', d_jobs (insertOne d prm).1 !! id = Some row' →
    d_jobs d !! id = Some row' ∨ (withinBudget row' ∧ ∃ n, d_seq d < n ∧ id = jobID n).
Proof.
  intros Hi Hb. pose proof (ji_seq _ _ Hi) as Hs.
  assert (d_seq d ≤ d_seq (insertFresh d prm).1 ∧
    ∀ id row', d_jobs (insertFresh d prm).1 !! id = Some row' →
      d_jobs d !! id = Some row' ∨ (withinBudget row' ∧ ∃ n, d_seq d < n ∧ id = jobID n)) as Hf.
  { destruct (insertFresh_frame d prm) as (Ej & Es & _). rewrite Ej, Es. unfold wrapu64. rewrite Z.mod_small by lia.
    split; [lia|]. intros id row' [[<- <-]|[_ Hr]]%lookup_insert_Some; [right|by left].
    split; [apply newRow_budget|]. exists (d_seq d + 1). split; [lia|done]. }
  unfold insertOne. case_bool_decide; [|done]. destruct (findUniqueJob d (ip_UniqueKey prm)); [|done].
  simpl. split; [lia|]. by left.
Qed.

Lemma insertMany_budget ps : ∀ k d,
  jobs_inv k d → k + Z.of_nat (length ps) < 2 ^ 63 → steps_budget k d (JobInsertMany d ps).1.
Proof.
  unfold JobInsertMany. induction ps as [|prm ps IH]; intros k d Hi Hb; [apply steps_budget_refl|].
  simpl in *. destruct (insertOne_rows d prm k Hi ltac:(lia)) as [Hs1 Hr1].
  pose proof (insertOne_inv k d prm Hi ltac:(lia)) as Hi1. destruct (insertOne d prm) as [d1 res]. cbn [fst] in *.
  specialize (IH (k + 1) d1 Hi1 ltac:(lia)). destruct (insertLoop d1 ps) as [d2 rs]. simpl in *.
  destruct IH as [Hr2 Hs2]. split; [|lia]. intros id row' Hr.
  destruct (Hr2 id row' Hr) as [(row & Hrow & Hf)|(Hw & n & Hn & ->)]; [|right; split; [done|]; exists n; split; [lia|done]].
  destruct (Hr1 id row Hrow) as [Hold|(Hw & n & Hn & ->)].
  - left. exists row. split; [done|]. destruct Hf as (F1 & F2 & F3). split_and!; [done|done|].
    intros Hwf. apply F3. eapply row_wf_mono; [|exact Hwf]. lia.
  - right. split; [|exists n; split; [lia|done]]. apply Hf; [|done]. by eapply (ji_wf _ _ Hi1).
Qed.

Lemma exec_budget o d k :
  jobs_inv k d → k + cost o < 2 ^ 63 → allowed o → steps_budget k d (exec_driver o d).
Proof.
  intros Hi Hb Ho. pose proof (ji_seq _ _ Hi) as Hseq.
  destruct o as [ps|f|m|rp|h|sp|id|id|rs|n|n|lp|lp|cp|cp| | | | |c]; cbn [exec_driver cost] in *; try done;
    try exact (steps_budget_refl k d).
  - by apply insertMany_budget.
  - rewrite JobFetchBatch_eq. destruct (d_queues d !! fp_Queue f) as [q|]; [|apply steps_budget_refl].
    destruct (q_Paused q); [apply steps_budget_refl|]. split; [|done]. simpl. intros id row' Hr. left.
    destruct (fetched_lookup _ _ _ _ _ Hr) as (row & Hrow & [[-> _]|[-> Hin]]); exists row; (split; [done|]).
    + apply promote_follows.
    + apply elem_of_chosen in Hin as [_ Hc]. unfold isCandidate in Hc. bool_to_prop.
      eapply follows_trans; [apply promote_wf|apply promote_follows|]. by apply claim_follows.
  - unfold JobMarkStarted. destruct (d_jobs d !! ms_ID m) as [row|] eqn:E; [|apply steps_budget_refl].
    case_match; [|apply steps_budget_refl]. eapply steps_budget_one; [exact E|done|done|by split_and!].
  - eapply steps_budget_all; [done|done|]. intros r. unfold rescueRow. destruct (isStuck rp r) eqn:E; [|apply follows_refl].
    apply release_follows. unfold isStuck in E. by bool_to_prop.
  - unfold JobHeartbeat. destruct (d_jobs d !! hp_ID h) as [row|] eqn:E; [|apply steps_budget_refl].
    case_match; [|apply steps_budget_refl]. eapply steps_budget_one; [exact E|done|done|by split_and!].
  - unfold JobCancel. destruct (d_jobs d !! id) as [row|] eqn:E; [|apply steps_budget_refl].
    case_match; [apply steps_budget_refl|]. eapply steps_budget_one; [exact E|done|done|]. by apply follows_move.
  - unfold JobDelete. destruct (d_jobs d !! id) as [row|] eqn:E; [|apply steps_budget_refl]. split; [|done].
    simpl. intros id' row' [_ Hr]%lookup_delete_Some. left. exists row'. split; [done|apply follows_refl].
  - apply steps_budget_jobs; unfold QueuePause, queueSetPaused, ensureQueue, dNow; simpl; by repeat case_match.
  - apply steps_budget_jobs; unfold QueueResume, queueSetPaused, ensureQueue, dNow; simpl; by repeat case_match.
  - apply steps_budget_jobs; unfold LeaderAttemptElect; simpl; by repeat case_match.
  - apply steps_budget_jobs; unfold LeaderResign; simpl; by repeat case_match.
  - apply steps_budget_jobs; unfold ScheduleCursorGetOrCreate; simpl; by repeat case_match.
  - apply steps_budget_jobs; unfold ScheduleCursorAdvance; simpl; by repeat case_match.
  - apply steps_budget_jobs; unfold receive; simpl; by repeat case_match.
Qed.

(** Workers fetch, crash, are rescued, and settle any claim they ever obtained,
    with whatever outcome, as often as they like. *)
Inductive fleetOp :=
| FStore (o : op)
| FSettle (row : JobRow) (lost jobErr : option error) (clk : Clock).

Definition fetchedBy (o : op) (d : Driver) : list JobRow :=
  match o with OFetch f => match (JobFetchBatch d f).2 with Ok rows => rows | Err _ => [] end | _ => [] end.

Definition fleetExec (o : fleetOp) (st : Driver * list JobRow) : Driver * list JobRow :=
  let '(d, claims) := st in
  match o with
  | FStore o => (exec_driver o d, claims ++ fetchedBy o d)
  | FSettle row lost jobErr clk =>
      if bool_decide (row ∈ claims)
      then (rn_store (settle p reg row lost jobErr (mkRunEnv d clk [] [])).1, claims) else (d, claims)
  end.

Definition fleetRun (ops : list fleetOp) (st : Driver * list JobRow) : Driver * list JobRow :=
  foldl (λ st o, fleetExec o st) st ops.

Definition fleetCost (ops : list fleetOp) : Z :=
  foldr (λ o n, match o with FStore o => cost o | _ => 0 end + n) 0 ops.

Definition fleetAllowed (o : fleetOp) : Prop := match o with FStore o => allowed o | _ => True end.

Record fleet_inv (k : Z) (st : Driver * list JobRow) : Prop := {
  fi_jobs : jobs_inv k st.1;
  fi_budget : ∀ id row, d_jobs st.1 !! id = Some row → withinBudget row;
  fi_claims : ∀ c, c ∈ st.2 → 1 ≤ AttemptNum c ∧ (∃ n, n ≤ d_seq st.1 ∧ ID c = jobID n ∧ 0 ≤ n) ∧
    ∀ row, d_jobs st.1 !! ID c = Some row → Kind row = Kind c ∧ MaxRetry row = MaxRetry c
}.

Lemma jobID_inj a b : 0 ≤ a → 0 ≤ b → jobID a = jobID b → a = b.
Proof.
  intros Ha Hb Heq. unfold jobID in Heq. apply (inj (String.append "mem_")) in Heq.
  by apply FormatInt_inj_nonneg.
Qed.

Lemma fleet_inv_step k k' d d' claims new :
  fleet_inv k (d, claims) → jobs_inv k' d' → steps_budget k d d' →
  (∀ c, c ∈ new → 1 ≤ AttemptNum c ∧ ∃ row, d_jobs d' !! ID c = Some row ∧ Kind row = Kind c ∧ MaxRetry row = MaxRetry c) →
  fleet_inv k' (d', claims ++ new).
Proof.
  intros [Hi Hb Hc] Hi' [Hr Hs] Hnew. simpl in *. split; simpl; [done| |].
  - intros id row' Hrow. destruct (Hr id row' Hrow) as [(row & Hold & Hf)|[? _]]; [|done].
    apply Hf; [by eapply (ji_wf _ _ Hi)|by eapply Hb].
  - intros c [Hin|Hin]%elem_of_app.
    + destruct (Hc c Hin) as (Ha & (n & Hn & Eid & Hpos) & Hk). split; [done|]. split; [exists n; split_and!; [lia|done|done]|].
      intros row' Hrow. destruct (Hr _ _ Hrow) as [(row & Hold & E1 & E2 & _)|(_ & n' & Hn' & Eid')].
      * destruct (Hk row Hold). split; congruence.
      * exfalso. rewrite Eid in Eid'. pose proof (ji_seq _ _ Hi). apply jobID_inj in Eid'; lia.
    + destruct (Hnew c Hin) as (Ha & row & Hrow & E1 & E2). split; [done|].
      destruct (ji_fresh _ _ Hi' _ _ Hrow) as (n & Hn & Eid). split; [exists n; split_and!; [lia|done|lia]|].
      intros row' Hrow'. simplify_eq. done.
Qed.

(** What a fetch hands out is what it stored. *)
Lemma fetched_claims k d f c :
  jobs_inv k d → k + 1 < 2 ^ 63 → c ∈ fetchedBy (OFetch f) d →
  1 ≤ AttemptNum c ∧ d_jobs (JobFetchBatch d f).1 !! ID c = Some c.
Proof.
  intros Hi Hk. pose proof (ji_seq _ _ Hi) as Hseq. unfold fetchedBy. rewrite JobFetchBatch_eq.
  destruct (d_queues d !! fp_Queue f) as [q|]; [|set_solver]. destruct (q_Paused q); [set_solver|].
  cbn [fst snd]. intros ([id r] & -> & Hin)%list_elem_of_fmap. simpl.
  assert (fetched d f (dNow d).1 !! id = Some (claim f (dNow d).1 r)) as Hl.
  { unfold fetched. by rewrite (claimAll_in _ _ _ _ _ r) by (done || apply chosen_nodup). }
  apply elem_of_chosen in Hin as [Hr Hc]. rewrite lookup_fmap, fmap_Some in Hr. destruct Hr as (row & Hrow & ->).
  assert (ID (promote (fp_Queue f) (dNow d).1 row) = id) as Eid.
  { destruct (promote_fields (fp_Queue f) (dNow d).1 row) as (-> & _). by eapply (ji_id _ _ Hi). }
  rewrite Eid. split; [|done]. unfold claim. cbn [AttemptNum set_WorkerID set_AttemptNum].
  pose proof (promote_wf _ (fp_Queue f) (dNow d).1 _ (ji_wf _ _ Hi _ _ Hrow)) as [Ha _ _].
  rewrite wrap64_id by (unfold is_int64, int64_min, int64_max; lia). lia.
Qed.

Lemma settle_budget k d claims row lost jobErr clk :
  fleet_inv k (d, claims) → k < 2 ^ 63 → row ∈ claims →
  let d' := rn_store (settle p reg row lost jobErr (mkRunEnv d clk [] [])).1 in
  steps_budget k d d' ∧ jobs_inv k d'.
Proof.
  intros [Hi Hb Hc] Hk Hin d'. simpl in *. pose proof (ji_seq _ _ Hi) as Hseq.
  destruct (settle_verdict row lost jobErr (mkRunEnv d clk [] [])) as (prm & e1 & Es & Hv & E1 & _).
  assert (d' = (JobSetStateIfRunning d prm).1) as ->.
  { subst d'. rewrite Es. destruct (setState_store prm e1) as [-> _]. by rewrite E1. }
  split.
  2: { eapply jobs_inv_rows_from; [|exact Hi|by apply setState_rows_from]. lia. }
  destruct (Hc row Hin) as (Ha & _ & Hkind).
  assert (sp_ID prm = ID row ∧ sp_ExpectedAttempt prm = AttemptNum row) as [Eid Eat] by by destruct Hv.
  unfold JobSetStateIfRunning. destruct (d_jobs d !! sp_ID prm) as [r|] eqn:Er; [|apply steps_budget_refl].
  destruct (bool_decide (State r = JobStateRunning) && _) eqn:Em; [|apply steps_budget_refl]. bool_to_prop.
  assert (AttemptNum r = AttemptNum row) as Ear.
  { match goal with Hm : MatchesClaim _ _ _ = true |- _ => unfold MatchesClaim in Hm; rewrite Eat in Hm;
      apply andb_true_iff in Hm as [_ Hm]; rewrite (proj2 (Z.leb_gt _ _)) in Hm by lia; simpl in Hm end.
    by bool_to_prop. }
  assert (effectiveMaxRetry reg row = effectiveMaxRetry reg r) as Emr.
  { rewrite Eid in Er. destruct (Hkind r Er). by apply effectiveMaxRetry_same. }
  destruct (sp_Yield prm) eqn:Ey.
  - eapply steps_budget_one; [exact Er|done|done|]. by apply yield_follows.
  - pose proof (λ t1 t2, verdict_follows k row prm t1 t2 r Hv ltac:(done) Ear Emr Hk) as Hf. rewrite Ey in Hf.
    destruct (sp_Err prm), (isTerminal (sp_State prm)); simpl; (eapply steps_budget_one; [exact Er|done|done|apply Hf]).
Qed.

Lemma fleetCost_nonneg ops : 0 ≤ fleetCost ops.
Proof. induction ops as [|[o|] ops IH]; simpl; [lia|pose proof (cost_nonneg o); lia|lia]. Qed.

Lemma fleet_run_inv ops : ∀ k st,
  fleet_inv k st → k + fleetCost ops < 2 ^ 63 → Forall fleetAllowed ops →
  fleet_inv (k + fleetCost ops) (fleetRun ops st).
Proof.
  induction ops as [|o ops IH]; intros k [d claims] Hinv Hk Hall; simpl in *; [by rewrite Z.add_0_r|].
  apply Forall_cons in Hall as [Ho Hall]. pose proof (fleetCost_nonneg ops) as Hn. rewrite Z.add_assoc.
  apply IH; [|lia|done]. destruct o as [o|row lost jobErr clk]; simpl in *.
  - pose proof (cost_nonneg o). pose proof (exec_driver_inv k o d (fi_jobs _ _ Hinv) ltac:(lia)) as Hi'.
    eapply fleet_inv_step; [exact Hinv|done|apply exec_budget; [apply Hinv|lia|done]|].
    intros c Hin. destruct o as [|f| | | | | | | | | | | | | | | | | | ]; try (simpl in Hin; set_solver).
    destruct (fetched_claims k d f c (fi_jobs _ _ Hinv) ltac:(simpl in *; lia) Hin) as [Ha Hl].
    split; [done|]. exists c. done.
  - rewrite Z.add_0_r. case_bool_decide as Hin; [|done].
    destruct (settle_budget k d claims row lost jobErr clk Hinv ltac:(lia) Hin) as [Hs Hi'].
    rewrite <-(app_nil_r claims). eapply fleet_inv_step; [exact Hinv|done|done|set_solver].
Qed.

(** C30: the retry budget.  Take any history of the store in which no call reschedules
    a job and none sets a job's state other than the workers that settle the claims they
    obtained.  Whatever the order and the outcomes, including crashes, rescues and
    settlements that come too late, the failures recorded for a job do not exceed its
    retry limit: the job's own, else its kind's, else three.  (A job that is rescheduled
    by hand after its last attempt is run again, and may fail again.) *)
Theorem retry_budget ops c id row :
  fleetCost ops < 2 ^ 63 → Forall fleetAllowed ops →
  d_jobs (fleetRun ops (New c, [])).1 !! id = Some row →
  Z.of_nat (length (Errors row)) ≤ effectiveMaxRetry reg row.
Proof.
  intros Hk Hall Hrow.
  assert (fleet_inv 0 (New c, [])) as H0.
  { split; [apply init_inv|done|set_solver]. }
  destruct (fleet_run_inv ops 0 _ H0 ltac:(lia) Hall) as [_ Hb _].
  by destruct (Hb _ _ Hrow) as [? _].
Qed.
End instance.
