(* ===== verification/WorkerLeases.v ===== *)
(** * Heartbeats and rescues on the memory backend

    A claim whose heartbeats are in time survives every rescue sweep of every
    pool, and each of its ticks reports the renewal; and the runs that witness
    the theorems of WorkerRunProps.v. *)

From S2P Require Import Prelude GoBase Json Codec Core Driver Memory MemoryInv MemoryFetch MemoryProps MemoryKeys.
From S2P Require Import RateLimit WorkerConfig WorkerConfigProps WorkerRun WorkerRunProps.
From Stdlib Require Import ZArith Lia.

Section leases.
Context `{MapRange} (p : WorkerPool).

(** The claim stands, with a lease that runs until [L]. *)
Definition leased (d : Driver) (id wk : string) (a : Z) (L : Instant) : Prop :=
  ∃ row, d_jobs d !! id = Some row ∧ ownsClaim row wk a = true ∧ LeaseExpiresAt row = Some L.

(** Calls of others that cannot end the claim by right: they are not addressed
    to this claim, and they do not delete or reschedule the job. *)
Definition harmless (id wk : string) (a : Z) (o : op) : Prop :=
  match o with
  | OSetState q => ¬ (sp_ID q = id ∧ MatchesClaim q wk a = true)
  | OHeartbeat q => ¬ (hp_ID q = id ∧ hp_WorkerID q = wk ∧ hp_Attempt q = a)
  | ORescue _ => False
  | ODelete i => i ≠ id
  | OReschedule q => rs_ID q ≠ id
  | _ => True
  end.

Lemma leased_frame d d' id wk a L :
  d_jobs d' !! id = d_jobs d !! id → leased d id wk a L → leased d' id wk a L.
Proof. unfold leased. by intros ->. Qed.

Lemma harmless_keeps k d o id wk a L :
  jobs_inv k d → k + cost o < 2 ^ 63 → leased d id wk a L → harmless id wk a o → leased (exec_driver o d) id wk a L.
Proof.
  intros Hinv Hb Hl Hh. pose proof Hl as (row & Hrow & Ho & Hlease). pose proof Ho as (Hs & Hw & Ha)%ownsClaim_spec.
  assert (d_jobs (exec_driver o d) !! id = d_jobs d !! id → leased (exec_driver o d) id wk a L) as Hsame.
  { intros E. by eapply leased_frame. }
  destruct o as [ps|f|m|rp|h|sp|i|i|rs|n|n|lp|lp|cp|cp| | | | |c]; simpl in *; try (by apply Hsame).
  - apply Hsame. rewrite Hrow. by eapply insertMany_lookup.
  - apply Hsame. rewrite Hrow. eapply running_fetch; [|done..]. exact (ji_id _ _ Hinv).
  - unfold JobMarkStarted in *. destruct (d_jobs d !! ms_ID m) as [row'|] eqn:E; [|done].
    case_match; [|done]. simpl in *. destruct (decide (ms_ID m = id)) as [<-|].
    + simplify_eq. eexists. simpl. rewrite lookup_insert_eq. split; [done|]. by split.
    + apply Hsame. by rewrite lookup_insert_ne.
  - unfold JobHeartbeat in *. destruct (d_jobs d !! hp_ID h) as [row'|] eqn:E; [|done].
    destruct (ownsClaim row' _ _) eqn:Eo; [|done]. simpl in *. destruct (decide (hp_ID h = id)) as [<-|].
    + simplify_eq. exfalso. apply Hh. by apply ownsClaim_spec in Eo as (_ & <- & <-).
    + apply Hsame. by rewrite lookup_insert_ne.
  - destruct (decide (sp_ID sp = id)) as [<-|Hne]; [|by apply Hsame, setState_other].
    rewrite setState_rejected; [done|]. intros row' Hrow' _. simplify_eq.
    destruct (MatchesClaim _ _ _) eqn:E; [|done]. by exfalso; apply Hh.
  - unfold JobCancel in *. destruct (d_jobs d !! i) as [row'|] eqn:E; [|done].
    destruct (decide (i = id)) as [->|].
    + simplify_eq. rewrite Hs in *. done.
    + case_match; [done|]. apply Hsame. simpl. by rewrite lookup_insert_ne.
  - unfold JobDelete in *. destruct (d_jobs d !! i) as [row'|] eqn:E; [|done].
    apply Hsame. simpl. by rewrite lookup_delete_ne.
  - unfold JobReschedule in *. destruct (d_jobs d !! rs_ID rs) as [row'|] eqn:E; [|done].
    apply Hsame. simpl. by rewrite lookup_insert_ne.
  - apply Hsame. unfold QueuePause, queueSetPaused, ensureQueue. simpl. by case_match.
  - apply Hsame. unfold QueueResume, queueSetPaused, ensureQueue. simpl. by case_match.
  - apply Hsame. unfold LeaderAttemptElect. simpl. by repeat case_match.
  - apply Hsame. unfold LeaderResign. simpl. by repeat case_match.
  - apply Hsame. unfold ScheduleCursorGetOrCreate. simpl. by repeat case_match.
  - apply Hsame. unfold ScheduleCursorAdvance. simpl. by repeat case_match.
  - apply Hsame. unfold receive. simpl. by repeat case_match.
Qed.

(** A sweep before the lease ends leaves the claim alone. *)
Lemma rescueQueue_keeps (q : WorkerPool) now before (e : RunEnv Driver) queue id wk a L :
  leased (rn_store e) id wk a L → now < L →
  leased (rn_store (rescueQueue q JobRescueStuck now before e queue)) id wk a L.
Proof.
  intros (row & Hrow & Ho & Hl) Hlt. unfold rescueQueue, JobRescueStuck, observe, runOn.
  assert (leased (set_jobs (rescueRow (mkJobRescueParams queue now before) <$> d_jobs (rn_store e)) (rn_store e)) id wk a L) as Hd.
  { exists row. simpl. rewrite lookup_fmap, Hrow. simpl. unfold rescueRow, isStuck. rewrite Hl. simpl.
    rewrite (proj2 (After_true L now)) by done. by rewrite !andb_false_r. }
  simpl. by destruct (wc_Observer (wp_config q)).
Qed.

Lemma rescueStuck_keeps (q : WorkerPool) (e : RunEnv Driver) id wk a L :
  leased (rn_store e) id wk a L → (Now (rn_clk e)).1 < L → leased (rn_store (rescueStuck q e)) id wk a L.
Proof.
  intros Hl Hlt. unfold rescueStuck. cbn [ws_rescue memoryWorkerStore runNow]. unfold runNow.
  destruct (Now (rn_clk e)) as [now c]. simpl in Hlt.
  assert (leased (rn_store (mkRunEnv (rn_store e) c (rn_events e) (rn_reports e))) id wk a L) as He by done. revert He.
  generalize (mkRunEnv (rn_store e) c (rn_events e) (rn_reports e)) as e0.
  induction (wc_Queues (wp_config q)) as [|queue qs IH]; intros e0 He; simpl; [done|].
  apply IH. by apply rescueQueue_keeps.
Qed.

(** A tick renews the lease for [StuckJobTimeout] from its clock reading. *)
Lemma tick_renews row (e : RunEnv Driver) L :
  leased (rn_store e) (ID row) (WorkerID row) (AttemptNum row) L →
  0 < (Now (rn_clk e)).1 + wc_StuckJobTimeout (wp_config p) →
  let '(e', renewed) := heartbeatTick p row e in
  renewed = true ∧ leased (rn_store e') (ID row) (WorkerID row) (AttemptNum row)
    ((Now (rn_clk e)).1 + wc_StuckJobTimeout (wp_config p)).
Proof.
  intros (r & Hr & Ho & Hl) Hpos. unfold heartbeatTick. cbn [ws_heartbeat memoryWorkerStore]. unfold runNow.
  destruct (Now (rn_clk e)) as [now c]. cbn [fst] in *. unfold JobHeartbeat. cbn [hp_ID hp_WorkerID hp_Attempt hp_LeaseExpiresAt hp_At rn_store].
  rewrite Hr, Ho. unfold UTC, Add, IsZero. rewrite (proj2 (Z.eqb_neq _ _)) by lia.
  split; [done|]. unfold leased, observe, runOn.
  assert (∀ e0 : RunEnv Driver, d_jobs (rn_store e0) = <[ID row := set_LeaseExpiresAt
      (Some (now + wc_StuckJobTimeout (wp_config p))) r]> (d_jobs (rn_store e)) →
    ∃ row0, d_jobs (rn_store e0) !! ID row = Some row0 ∧ ownsClaim row0 (WorkerID row) (AttemptNum row) = true ∧
      LeaseExpiresAt row0 = Some (now + wc_StuckJobTimeout (wp_config p))) as Hend.
  { intros e0 E. rewrite E. eexists. rewrite lookup_insert_eq. split; [done|]. by split. }
  apply Hend. by destruct (wc_Observer (wp_config p)).
Qed.

(** ** Timelines *)

Inductive keepEvent :=
| KBeat (clk : Clock)
| KRescue (q : WorkerPool) (clk : Clock)
| KOther (o : op).

Definition keepExec (row : JobRow) (ev : keepEvent) (d : Driver) : Driver * list bool :=
  match ev with
  | KBeat clk => let '(e, renewed) := heartbeatTick p row (mkRunEnv d clk [] []) in (rn_store e, [renewed])
  | KRescue q clk => (rn_store (rescueStuck q (mkRunEnv d clk [] [])), [])
  | KOther o => (exec_driver o d, [])
  end.

Fixpoint keepRun (row : JobRow) (evs : list keepEvent) (d : Driver) : Driver * list bool :=
  match evs with
  | [] => (d, [])
  | ev :: rest =>
      let '(d1, l1) := keepExec row ev d in
      let '(d2, l2) := keepRun row rest d1 in (d2, l1 ++ l2)
  end.

(** Every sweep reads a time before the end of the lease granted by the latest
    beat; the others are harmless. *)
Fixpoint inTime (row : JobRow) (L : Instant) (evs : list keepEvent) : Prop :=
  match evs with
  | [] => True
  | KBeat clk :: rest =>
      0 < (Now clk).1 + wc_StuckJobTimeout (wp_config p) ∧
      inTime row ((Now clk).1 + wc_StuckJobTimeout (wp_config p)) rest
  | KRescue q clk :: rest => (Now clk).1 < L ∧ inTime row L rest
  | KOther o :: rest => harmless (ID row) (WorkerID row) (AttemptNum row) o ∧ inTime row L rest
  end.

Definition keepCost (evs : list keepEvent) : Z :=
  foldr (λ ev n, match ev with KOther o => cost o | _ => 0 end + n) 0 evs.

Lemma keepCost_nonneg evs : 0 ≤ keepCost evs.
Proof. induction evs as [|[| |o] evs IH]; simpl; [lia|lia|lia|pose proof (cost_nonneg o); lia]. Qed.

(** Beats and sweeps keep the job table well formed. *)
Lemma keepExec_inv row ev k d :
  jobs_inv k d → k + match ev with KOther o => cost o | _ => 0 end < 2 ^ 63 →
  jobs_inv (k + match ev with KOther o => cost o | _ => 0 end) (keepExec row ev d).1.
Proof.
  intros Hi Hb. destruct ev as [clk|q clk|o]; simpl in *.
  - unfold heartbeatTick. cbn [ws_heartbeat memoryWorkerStore]. unfold runNow. simpl.
    match goal with |- context [JobHeartbeat d ?h] => pose proof (exec_driver_inv k (OHeartbeat h) d Hi ltac:(simpl; lia)) as Hh;
      simpl in Hh; destruct (JobHeartbeat d h) as [d' [b|err]] end;
      unfold observe, reportError, runOn; by destruct (wc_Observer (wp_config p)).
  - rewrite Z.add_0_r. unfold rescueStuck. cbn [ws_rescue memoryWorkerStore]. unfold runNow. simpl.
    match goal with |- context [foldl ?f ?e0 _] => assert (jobs_inv k (rn_store e0)) as He by done;
      revert He; generalize e0 as e end.
    induction (wc_Queues (wp_config q)) as [|queue qs IH]; intros e He; simpl; [done|]. apply IH.
    unfold rescueQueue, JobRescueStuck, observe, runOn.
    assert (∀ rp, jobs_inv k (JobRescueStuck (rn_store e) rp).1) as Hr.
    { intros rp. pose proof (exec_driver_inv k (ORescue rp) (rn_store e) He ltac:(simpl; lia)) as Hr.
      simpl in Hr. by rewrite Z.add_0_r in Hr. }
    simpl. destruct (wc_Observer (wp_config q)); apply (Hr (mkJobRescueParams queue _ _)).
  - by apply exec_driver_inv.
Qed.

(** C31: heartbeats keep claims.  If every rescue sweep, of this pool or any
    other, reads a time earlier than the last heartbeat's (at first the claim's)
    reading plus [StuckJobTimeout], then the claim is never taken away and every
    heartbeat reports that it was renewed, so the handler's context stays alive. *)
Theorem heartbeats_keep_claim evs row : ∀ k d L,
  jobs_inv k d → k + keepCost evs < 2 ^ 63 →
  leased d (ID row) (WorkerID row) (AttemptNum row) L → inTime row L evs →
  held (keepRun row evs d).1 (ID row) (WorkerID row) (AttemptNum row) ∧
  Forall (λ b, b = true) (keepRun row evs d).2.
Proof.
  induction evs as [|ev evs IH]; intros k d L Hi Hb Hl Ht; simpl in *.
  { split; [|constructor]. destruct Hl as (r & Hr & Ho & _). by exists r. }
  pose proof (keepCost_nonneg evs) as Hn.
  pose proof (keepExec_inv row ev k d Hi ltac:(lia)) as Hi'.
  assert (∃ L', leased (keepExec row ev d).1 (ID row) (WorkerID row) (AttemptNum row) L' ∧ inTime row L' evs ∧
    Forall (λ b, b = true) (keepExec row ev d).2) as (L' & Hl' & Ht' & Hall).
  { destruct ev as [clk|q clk|o]; destruct Ht as [Ht1 Ht2]; simpl in *.
    - pose proof (tick_renews row (mkRunEnv d clk [] []) L Hl Ht1) as Hr. destruct (heartbeatTick _ _ _) as [e' b].
      destruct Hr as [-> Hr]. eexists. split; [exact Hr|]. split; [done|]. by apply Forall_singleton.
    - exists L. split; [|split; [done|constructor]]. by apply rescueStuck_keeps.
    - exists L. split; [|split; [done|constructor]]. eapply harmless_keeps; [exact Hi|lia|done|done]. }
  destruct (keepExec row ev d) as [d1 l1]. cbn [fst snd] in *.
  destruct (IH _ d1 L' Hi' ltac:(lia) Hl' Ht') as [Hh Hf]. destruct (keepRun row evs d1) as [d2 l2].
  split; [done|]. by apply Forall_app.
Qed.
End leases.

(** ** Witnesses *)

Definition demoConfig : WorkerConfig :=
  mkWorkerConfig ["mail"] ∅ false 0 0 0 2 0 "w1" 0 None 0 Minute 0 0 [] false false false.
Definition demoPool : WorkerPool :=
  newWorkerPool (H := map_to_list_range) (H0 := amd64_conv) "memory" MemoryCapabilities "worker-1" demoConfig.

(** A pool on the memory backend that has inserted one job and claimed it. *)
Definition claimed : Driver := Eval vm_compute in
  (fleetRun (H := map_to_list_range) demoPool ∅
    [FStore (OInsert [demoInsert "mail" "" 0 0]); FStore (OFetch (mkFetchParams "mail" 1 "w1" Minute))] (New demoClock, [])).1.
Definition claimedRow : JobRow := Eval vm_compute in default (newRow (demoInsert "mail" "" 0 0) "" 0) (d_jobs claimed !! "mem_1").
(** A first failure: tried again a second later. *)
Lemma job_settles_witness : ∃ r',
  d_jobs (rn_store (settle (H := memoryWorkerStore (H := map_to_list_range)) demoPool ∅ claimedRow None (Some (ENew "boom"))
    (mkRunEnv claimed demoClock [] [])).1) !! "mem_1" = Some r' ∧
  State r' = JobStateAvailable ∧ RunAt r' = demoT0 + Second ∧ length (Errors r') = 1%nat.
Proof.
  pose proof (job_settles (H := map_to_list_range) demoPool ∅ claimedRow None (Some (ENew "boom"))
    (mkRunEnv claimed demoClock [] []) claimedRow ltac:(vm_compute; reflexivity) ltac:(vm_compute; reflexivity)) as (r' & Hj & _ & _ & _ & _ & (at_ & He) & _ & Hs).
  exists r'. rewrite Hj, He. 
  split; [apply lookup_insert_eq|]. vm_compute in Hs. destruct Hs as [Hs1 Hs2]. split; [exact Hs1|]. split; [exact Hs2|]. vm_compute. reflexivity.
Defined.

(** Two fetches and two failures of a job whose budget is three. *)
Definition failingFleet : list fleetOp :=
  [FStore (OInsert [demoInsert "mail" "" 0 0]); FStore (OFetch (mkFetchParams "mail" 1 "w1" Minute));
   FSettle claimedRow None (Some (ENew "boom")) demoClock; FSettle claimedRow None (Some (ENew "boom")) demoClock].
Definition failedRow : JobRow := Eval vm_compute in
  default claimedRow (d_jobs (fleetRun (H := map_to_list_range) demoPool ∅ failingFleet (New demoClock, [])).1 !! "mem_1").

Lemma retry_budget_witness :
  length (Errors failedRow) = 1%nat ∧ Z.of_nat (length (Errors failedRow)) ≤ effectiveMaxRetry ∅ failedRow.
Proof.
  split; [reflexivity|].
  apply (retry_budget (H := map_to_list_range) demoPool ∅ failingFleet demoClock "mem_1" failedRow);
    [vm_compute; reflexivity|repeat constructor|vm_compute; reflexivity].
Defined.

(** Beats every twenty seconds under a lease of a minute. *)
Definition beatTimeline : list keepEvent :=
  [KBeat (frozenClock (demoT0 + 20 * Second)); KRescue demoPool (frozenClock (demoT0 + 79 * Second));
   KOther (OFetch (mkFetchParams "mail" 1 "w2" Minute)); KBeat (frozenClock (demoT0 + 40 * Second));
   KRescue demoPool (frozenClock (demoT0 + 99 * Second))].

Lemma heartbeats_keep_claim_witness :
  held (keepRun (H := map_to_list_range) demoPool claimedRow beatTimeline claimed).1 "mem_1" "w1" 1.
Proof.
  assert (jobs_inv 2 claimed) as Hi.
  { pose proof (run_inv (H := map_to_list_range) [OInsert [demoInsert "mail" "" 0 0]; OFetch (mkFetchParams "mail" 1 "w1" Minute)]
      demoClock ltac:(vm_compute; reflexivity)) as Hw.
    assert (claimed = w_driver (run (H := map_to_list_range) [OInsert [demoInsert "mail" "" 0 0]; OFetch (mkFetchParams "mail" 1 "w1" Minute)]
      (init_world demoClock))) as -> by (vm_compute; reflexivity).
    exact (proj1 Hw). }
  refine (proj1 (heartbeats_keep_claim (H := map_to_list_range) demoPool beatTimeline claimedRow 2 claimed (demoT0 + Minute) Hi _ _ _)).
  - vm_compute. reflexivity.
  - eexists. split; [vm_compute; reflexivity|]. split; vm_compute; reflexivity.
  - split; [vm_compute; reflexivity|]. split; [vm_compute; reflexivity|]. split; [exact I|].
    split; [vm_compute; reflexivity|]. split; [vm_compute; reflexivity|exact I].
Defined.
