(* ===== verification/WorkerSemaphores.v ===== *)
(** * worker.go: the channels a pool uses as semaphores

    [pending], [sem], the per-kind, per-key and rate-gate channels of a pool are
    all [chan struct{}] used as counting semaphores.  They live in one store of
    channels, addressed by position; the pool's three maps of named channels are
    one map whose keys carry the field's name.  A [*keySemaphore] or [*rateGate]
    is its channel together with its reference count.

    The invariant is a ledger: given the list of releases that the goroutines
    still have to perform, every channel holds exactly as many tokens as there
    are receives on the list, and every counted entry is referenced exactly as
    often as there are dropped references on it. *)

From S2P Require Import Prelude GoBase.
From Stdlib Require Import ZArith Lia.

Inductive registry := keySemaphores | rateGates | kindSemaphores.

#[export] Instance registry_eq_dec : EqDecision registry.
Proof. solve_decision. Defined.
#[export] Instance registry_countable : Countable registry.
Proof.
  refine (inj_countable'
    (λ r, match r with keySemaphores => 0%nat | rateGates => 1%nat | kindSemaphores => 2%nat end)
    (λ n, match n with 0%nat => keySemaphores | 1%nat => rateGates | _ => kindSemaphores end) _).
  by intros [].
Defined.

Record semaphore := mkSemaphore {
  sm_len : Z;
  sm_cap : Z;
  sm_refs : Z
}.

Record Semaphores := mkSemaphores {
  se_heap : list semaphore;
  se_named : gmap (registry * string) nat
}.

Definition setSem (a : nat) (c : semaphore) (s : Semaphores) : Semaphores :=
  mkSemaphores (<[a := c]> (se_heap s)) (se_named s).

(** [ch <- struct{}{}]; [None] while it blocks. *)
Definition semSend (a : nat) (s : Semaphores) : option Semaphores :=
  c ← se_heap s !! a;
  if sm_len c <? sm_cap c then Some (setSem a (mkSemaphore (sm_len c + 1) (sm_cap c) (sm_refs c)) s) else None.

(** [<-ch]; [None] while it blocks. *)
Definition semRecv (a : nat) (s : Semaphores) : option Semaphores :=
  c ← se_heap s !! a;
  if 0 <? sm_len c then Some (setSem a (mkSemaphore (sm_len c - 1) (sm_cap c) (sm_refs c)) s) else None.

(** The entry of a key, made with capacity [cap] when there is none. *)
Definition entryOf (r : registry) (key : string) (cap : Z) (s : Semaphores) : Semaphores * nat :=
  match se_named s !! (r, key) with
  | Some a => (s, a)
  | None =>
      let a := length (se_heap s) in
      (mkSemaphores (se_heap s ++ [mkSemaphore 0 cap 0]) (<[(r, key) := a]> (se_named s)), a)
  end.

(** The locked section that finds or makes an entry and takes a reference. *)
Definition acquireRef (r : registry) (key : string) (cap : Z) (s : Semaphores) : Semaphores * nat :=
  let '(s, a) := entryOf r key cap s in
  match se_heap s !! a with
  | Some c => (setSem a (mkSemaphore (sm_len c) (sm_cap c) (sm_refs c + 1)) s, a)
  | None => (s, a)
  end.

(** The locked section that gives a reference back; the last one deletes the key. *)
Definition dropRef (r : registry) (key : string) (a : nat) (s : Semaphores) : Semaphores :=
  match se_heap s !! a with
  | Some c =>
      let refs := sm_refs c - 1 in
      mkSemaphores (<[a := mkSemaphore (sm_len c) (sm_cap c) refs]> (se_heap s))
        (if refs =? 0 then delete (r, key) (se_named s) else se_named s)
  | None => s
  end.

(** ** What a goroutine may still have to release *)

Inductive action :=
| AYield                                              (* setState(…, Yield: true) *)
| ARecv (a : nat)                                     (* <-ch *)
| ADropRef (r : registry) (key : string) (a : nat)    (* refs--, delete at zero *)
| AResign                                             (* cancel, wait, LeaderResign *)
| AStopHeartbeat                                      (* cancel, wait *)
| AClosePipeline                                      (* close(done) *)
| AForgetPipeline                                     (* delete(pipelineTails, id) if it is done *)
| AQueueDone                                          (* queueDone *)
| AWgDone.                                            (* wg.Done *)

#[export] Instance action_eq_dec : EqDecision action.
Proof. solve_decision. Defined.

Definition dropsTo (a : nat) (x : action) : Prop := match x with ADropRef _ _ a' => a' = a | _ => False end.
#[export] Instance dropsTo_dec a x : Decision (dropsTo a x).
Proof. destruct x; simpl; apply _. Defined.

(** How many actions of a list have a property. *)
Definition occ (P : action → Prop) `{∀ x, Decision (P x)} (l : list action) : Z := Z.of_nat (length (filter P l)).

Section occ.
Context (P : action → Prop) `{∀ x, Decision (P x)}.

Lemma occ_nil : occ P [] = 0.
Proof. done. Qed.
Lemma occ_cons x l : occ P (x :: l) = (if decide (P x) then 1 else 0) + occ P l.
Proof. unfold occ. rewrite filter_cons. case_decide; simpl; lia. Qed.
Lemma occ_app l1 l2 : occ P (l1 ++ l2) = occ P l1 + occ P l2.
Proof. unfold occ. rewrite filter_app, length_app. lia. Qed.
#[export] Instance occ_perm : Proper ((≡ₚ) ==> eq) (occ P).
Proof. unfold occ. by intros l1 l2 ->. Qed.
Lemma occ_nonneg l : 0 ≤ occ P l.
Proof. unfold occ. lia. Qed.
Lemma occ_pos l : 0 < occ P l ↔ ∃ x, x ∈ l ∧ P x.
Proof.
  induction l as [|y l IH].
  - rewrite occ_nil. split; [lia|]. by intros (x & Hx%not_elem_of_nil & _).
  - rewrite occ_cons. pose proof (occ_nonneg l). case_decide; split.
    + intros _. exists y. split; [apply list_elem_of_here|done].
    + lia.
    + intros Hpos. destruct (proj1 IH ltac:(lia)) as (x & ? & ?). exists x. split; [by apply list_elem_of_further|done].
    + intros (x & [->|Hx]%elem_of_cons & HP); [done|]. assert (0 < occ P l); [|lia]. apply IH. eauto.
Qed.
End occ.

(** ** The ledger *)

(** [A] lists every release that is still to come. *)
Record ledger (s : Semaphores) (A : list action) : Prop := {
  le_len : ∀ a c, se_heap s !! a = Some c → sm_len c = occ (eq (ARecv a)) A ∧ sm_len c ≤ sm_cap c;
  le_refs : ∀ a c, se_heap s !! a = Some c → sm_refs c = occ (dropsTo a) A;
  le_recv : ∀ a, ARecv a ∈ A → (a < length (se_heap s))%nat;
  le_drop : ∀ r key a, ADropRef r key a ∈ A → se_named s !! (r, key) = Some a ∧ r ≠ kindSemaphores;
  le_named : ∀ r key a, se_named s !! (r, key) = Some a → ∃ c, se_heap s !! a = Some c ∧
    (r ≠ kindSemaphores → 0 < sm_refs c) ∧ 1 ≤ sm_cap c;
  le_inj : ∀ k k' a, se_named s !! k = Some a → se_named s !! k' = Some a → k = k'
}.

#[global] Instance ledger_proper s : Proper ((≡ₚ) ==> iff) (ledger s).
Proof.
  assert (∀ A B, A ≡ₚ B → ledger s A → ledger s B) as Himp.
  { intros A B E [H1 H2 H3 H4 H5 H6]. split; try done.
    - intros a c Hc. rewrite <- E. by apply H1.
    - intros a c Hc. rewrite <- E. by apply H2.
    - intros a Ha. apply H3. by rewrite E.
    - intros r k a Ha. apply H4. by rewrite E. }
  intros A B E. split; by apply Himp.
Qed.

(** An action that touches no channel. *)
Definition neutral (x : action) : Prop := match x with ARecv _ | ADropRef _ _ _ => False | _ => True end.

Lemma ledger_neutral s x A : neutral x → ledger s (x :: A) ↔ ledger s A.
Proof.
  intros Hx.
  assert (∀ a, occ (eq (ARecv a)) (x :: A) = occ (eq (ARecv a)) A) as E1.
  { intros a. rewrite occ_cons, decide_False; [lia|]. by intros <-. }
  assert (∀ a, occ (dropsTo a) (x :: A) = occ (dropsTo a) A) as E2.
  { intros a. rewrite occ_cons, decide_False; [lia|]. intros Hd. by destruct x. }
  assert (∀ y, ¬ neutral y → y ∈ x :: A ↔ y ∈ A) as E3.
  { intros y Hy. rewrite elem_of_cons. split; [|by right]. intros [->|]; done. }
  split; intros [H1 H2 H3 H4 H5 H6]; split; try done.
  - intros a c. rewrite <- E1. apply H1.
  - intros a c. rewrite <- E2. apply H2.
  - intros a Ha. by apply H3, (E3 (ARecv a) (λ f, f)).
  - intros r k a Ha. by apply H4, (E3 (ADropRef r k a) (λ f, f)).
  - intros a c. rewrite E1. apply H1.
  - intros a c. rewrite E2. apply H2.
  - intros a Ha. by apply H3, (E3 (ARecv a) (λ f, f)).
  - intros r k a Ha. by apply H4, (E3 (ADropRef r k a) (λ f, f)).
Qed.

Lemma semSend_spec a s s' :
  semSend a s = Some s' → ∃ c, se_heap s !! a = Some c ∧ sm_len c < sm_cap c ∧
    s' = setSem a (mkSemaphore (sm_len c + 1) (sm_cap c) (sm_refs c)) s.
Proof.
  unfold semSend. destruct (se_heap s !! a) as [c|]; simpl; [|done].
  destruct (_ <? _) eqn:E; [|done]. bool_to_prop. intros [= <-]. eauto.
Qed.

Lemma named_cap_setSem s a c c' :
  se_heap s !! a = Some c → (sm_cap c' = sm_cap c) → ∀ b d, <[a := c']> (se_heap s) !! b = Some d →
  ∃ d0, se_heap s !! b = Some d0 ∧ sm_cap d = sm_cap d0.
Proof.
  intros Hc Hcap b d. destruct (decide (a = b)) as [<-|Hne].
  - rewrite list_lookup_insert_eq by (by eapply lookup_lt_Some). intros [= <-]. eauto.
  - rewrite list_lookup_insert_ne by done. eauto.
Qed.

(** Case analysis on a lookup in an updated store of channels. *)
Ltac heap_cases :=
  match goal with
  | H : <[?a := _]> ?l !! ?b = Some _ |- _ =>
      destruct (decide (a = b)) as [->|];
      [rewrite list_lookup_insert_eq in H by (by eapply lookup_lt_Some)
      |rewrite list_lookup_insert_ne in H by done]; simplify_eq/=
  end.

Lemma named_insert s A a c c' r key b :
  ledger s A → se_heap s !! a = Some c → sm_cap c' = sm_cap c → (0 < sm_refs c → 0 < sm_refs c') →
  se_named s !! (r, key) = Some b →
  ∃ d, <[a := c']> (se_heap s) !! b = Some d ∧ (r ≠ kindSemaphores → 0 < sm_refs d) ∧ 1 ≤ sm_cap d.
Proof.
  intros HL Hc Hcap Hrefs Hk. destruct (le_named _ _ HL _ _ _ Hk) as (d & Hd & Hr & H1).
  destruct (decide (a = b)) as [->|].
  - simplify_eq. exists c'. rewrite list_lookup_insert_eq by (by eapply lookup_lt_Some).
    rewrite Hcap. split; [done|]. split; [|done]. intros ?. by apply Hrefs, Hr.
  - exists d. by rewrite list_lookup_insert_ne.
Qed.

Lemma ledger_send s s' a A : ledger s A → semSend a s = Some s' → ledger s' (ARecv a :: A).
Proof.
  intros HL (c & Hc & Hlt & ->)%semSend_spec. pose proof HL as [H1 H2 H3 H4 H5 H6]. split; simpl; try done.
  - intros b d Hd. rewrite occ_cons. heap_cases.
    + rewrite decide_True by done. destruct (H1 _ _ Hc). lia.
    + rewrite decide_False by congruence. by apply H1.
  - intros b d Hd. rewrite occ_cons, decide_False by (by intros []). heap_cases; by apply H2.
  - intros b Hb. rewrite length_insert. apply elem_of_cons in Hb as [[= ->]|Hb]; [by eapply lookup_lt_Some|by apply H3].
  - intros r k b Hb. apply elem_of_cons in Hb as [|Hb]; [done|by apply H4].
  - intros r k b Hb. by eapply named_insert.
Qed.

(** A receive that is owed never blocks. *)
Lemma ledger_recv s a A : ledger s (ARecv a :: A) → ∃ s', semRecv a s = Some s' ∧ ledger s' A ∧ se_named s' = se_named s.
Proof.
  intros HL. pose proof HL as [H1 H2 H3 H4 H5 H6].
  destruct (lookup_lt_is_Some_2 (se_heap s) a) as [c Hc]; [apply H3, list_elem_of_here|].
  destruct (H1 _ _ Hc) as [Hlen Hcap]. rewrite occ_cons, decide_True in Hlen by done.
  pose proof (occ_nonneg (eq (ARecv a)) A). unfold semRecv. rewrite Hc. simpl. rewrite (proj2 (Z.ltb_lt _ _)) by lia.
  eexists. split; [done|]. split; [|done]. split; simpl; try done.
  - intros b d Hd. heap_cases; [lia|]. destruct (H1 _ _ Hd) as [E ?].
    rewrite occ_cons, decide_False in E by congruence. lia.
  - intros b d Hd. heap_cases.
    + rewrite (H2 _ _ Hc). rewrite occ_cons, decide_False by (by intros []). done.
    + rewrite (H2 _ _ Hd). rewrite occ_cons, decide_False by (by intros []). done.
  - intros b Hb. rewrite length_insert. apply H3. by apply list_elem_of_further.
  - intros r k b Hb. apply H4. by apply list_elem_of_further.
  - intros r k b Hb. by eapply named_insert.
Qed.

Lemma entryOf_spec r key cap s s' a A :
  1 ≤ cap → ledger s A → entryOf r key cap s = (s', a) →
  se_named s' !! (r, key) = Some a ∧ is_Some (se_heap s' !! a) ∧
  (∀ k b, se_named s !! k = Some b → se_named s' !! k = Some b) ∧
  (∀ k b, se_named s' !! k = Some b → k = (r, key) ∨ se_named s !! k = Some b) ∧
  (∀ b c, se_heap s !! b = Some c → se_heap s' !! b = Some c) ∧
  (∀ b c, se_heap s' !! b = Some c → se_heap s !! b = Some c ∨ (b = a ∧ b = length (se_heap s) ∧ c = mkSemaphore 0 cap 0)) ∧
  (∀ c, se_heap s !! a = Some c → se_named s !! (r, key) = Some a) ∧
  (length (se_heap s) ≤ length (se_heap s'))%nat.
Proof.
  intros Hcap HL. unfold entryOf. destruct (se_named s !! (r, key)) as [b|] eqn:E; intros [= <- <-]; simpl.
  - destruct (le_named _ _ HL _ _ _ E) as (c & Hc & _). split_and!; eauto.
  - split_and!; [by rewrite lookup_insert_eq|..].
    + rewrite lookup_app_r, Nat.sub_diag by done. eauto.
    + intros k b Hk. rewrite lookup_insert_ne by congruence. done.
    + intros k b. destruct (decide (k = (r, key))) as [->|]; [by left|]. rewrite lookup_insert_ne by done. by right.
    + intros b c Hb. by apply lookup_app_l_Some.
    + intros b c [Hb|[Hle Hb]]%lookup_app_Some; [by left|]. right.
      apply list_lookup_singleton_Some in Hb as [? <-]. split_and!; [lia|lia|done].
    + intros c Hc%lookup_lt_Some. lia.
    + rewrite length_app. lia.
Qed.

(** No release is owed on a fresh channel. *)
Lemma ledger_fresh s A : ledger s A → occ (eq (ARecv (length (se_heap s)))) A = 0 ∧ occ (dropsTo (length (se_heap s))) A = 0.
Proof.
  intros HL.
  assert (∀ P `{HP : ∀ x, Decision (P x)}, (∀ x, x ∈ A → ¬ P x) → occ P A = 0) as Hz.
  { intros P HP Hn. unfold occ. rewrite filter_none; [done|]. by apply Forall_forall. }
  split; apply Hz; intros x Hx HP.
  - subst x. apply (le_recv _ _ HL) in Hx. lia.
  - destruct x; simpl in HP; try done. subst. apply (le_drop _ _ HL) in Hx as [Hx _].
    apply (le_named _ _ HL) in Hx as (c & Hc%lookup_lt_Some & _). lia.
Qed.

(** The entry of a kind, made on first use and never deleted. *)
Lemma ledger_kind key cap s s' a A :
  1 ≤ cap → ledger s A → entryOf kindSemaphores key cap s = (s', a) → ledger s' A.
Proof.
  intros Hcap HL E. destruct (entryOf_spec _ _ _ _ _ _ _ Hcap HL E) as (F1 & [c0 F2] & F3 & F4 & F5 & F6 & F7 & F8).
  destruct (ledger_fresh _ _ HL) as [Z1 Z2]. pose proof HL as [H1 H2 H3 H4 H5 H6]. split.
  - intros b c Hb. destruct (F6 _ _ Hb) as [Hb'|(-> & -> & ->)]; [by apply H1|]. simpl. rewrite Z1. lia.
  - intros b c Hb. destruct (F6 _ _ Hb) as [Hb'|(-> & -> & ->)]; [by apply H2|]. by rewrite Z2.
  - intros b Hb. specialize (H3 _ Hb). lia.
  - intros r k b Hb. destruct (H4 _ _ _ Hb) as [? ?]. eauto.
  - intros r k b Hb. destruct (F4 _ _ Hb) as [[= -> ->]|Hb'].
    + simplify_eq. exists c0. split; [done|]. split; [done|]. destruct (F6 _ _ F2) as [F2'|(_ & _ & ->)]; [|done].
      destruct (H5 _ _ _ (F7 _ F2')) as (? & ? & _ & ?). by simplify_eq.
    + destruct (H5 _ _ _ Hb') as (c & Hc & ? & ?). eauto.
  - intros k k' b Hk Hk'. assert (∀ k1 k2, se_named s !! k1 = Some b → k2 = (kindSemaphores, key) → b = a → k1 = k2) as Hx.
    { intros k1 k2 G1 -> ->. destruct k1 as [r1 n1]. destruct (H5 _ _ _ G1) as (c & Hc & _). by apply (H6 _ _ a); [|apply (F7 c)]. }
    destruct (F4 _ _ Hk) as [->|G], (F4 _ _ Hk') as [->|G']; simplify_eq; try done.
    + symmetry. by apply Hx.
    + by apply Hx.
    + by apply (H6 _ _ b).
Qed.

Lemma ledger_ref r key cap s s' a A :
  1 ≤ cap → r ≠ kindSemaphores → ledger s A → acquireRef r key cap s = (s', a) → ledger s' (ADropRef r key a :: A).
Proof.
  intros Hcap Hr HL. unfold acquireRef. destruct (entryOf r key cap s) as [s1 b] eqn:E.
  destruct (entryOf_spec _ _ _ _ _ _ _ Hcap HL E) as (F1 & [c0 F2] & F3 & F4 & F5 & F6 & F7 & F8).
  rewrite F2. intros [= <- <-]. destruct (ledger_fresh _ _ HL) as [Z1 Z2]. pose proof HL as [H1 H2 H3 H4 H5 H6].
  assert (sm_len c0 = occ (eq (ARecv b)) A ∧ sm_len c0 ≤ sm_cap c0 ∧ sm_refs c0 = occ (dropsTo b) A ∧ 1 ≤ sm_cap c0)
    as (G1 & G2 & G3 & G4).
  { destruct (F6 _ _ F2) as [Hb|(_ & -> & ->)]; [|simpl; rewrite Z1, Z2; split_and!; lia].
    destruct (H5 _ _ _ (F7 _ Hb)) as (? & ? & _ & ?). simplify_eq. destruct (H1 _ _ Hb). split_and!; eauto. }
  split; simpl.
  - intros d c Hd. rewrite occ_cons, decide_False by done. heap_cases; [done|].
    destruct (F6 _ _ Hd) as [Hd'|(-> & _)]; [by apply H1|done].
  - intros d c Hd. rewrite occ_cons. heap_cases.
    + rewrite decide_True by done. lia.
    + rewrite decide_False by (simpl; congruence). destruct (F6 _ _ Hd) as [Hd'|(-> & _)]; [by apply H2|done].
  - intros d Hd. rewrite length_insert. apply elem_of_cons in Hd as [|Hd]; [done|]. specialize (H3 _ Hd). lia.
  - intros r' k d Hd. apply elem_of_cons in Hd as [[= -> -> ->]|Hd]; [done|]. destruct (H4 _ _ _ Hd). eauto.
  - intros r' k d Hd. destruct (decide (b = d)) as [<-|Hne].
    + exists (mkSemaphore (sm_len c0) (sm_cap c0) (sm_refs c0 + 1)).
      rewrite list_lookup_insert_eq by (by eapply lookup_lt_Some). pose proof (occ_nonneg (dropsTo b) A).
      split; [done|]. simpl. split; [lia|done].
    + destruct (F4 _ _ Hd) as [[= -> ->]|Hd']; [by simplify_eq|]. destruct (H5 _ _ _ Hd') as (c & Hc & ? & ?).
      exists c. rewrite list_lookup_insert_ne by done. eauto.
  - intros k k' d Hk Hk'. assert (∀ k1 k2, se_named s !! k1 = Some d → k2 = (r, key) → d = b → k1 = k2) as Hx.
    { intros k1 k2 K1 -> ->. destruct k1 as [r1 n1]. destruct (H5 _ _ _ K1) as (c & Hc & _). by apply (H6 _ _ b); [|apply (F7 c)]. }
    destruct (F4 _ _ Hk) as [->|G], (F4 _ _ Hk') as [->|G']; simplify_eq; try done.
    + symmetry. by apply Hx.
    + by apply Hx.
    + by apply (H6 _ _ d).
Qed.

Lemma ledger_drop r key a s A : ledger s (ADropRef r key a :: A) → ledger (dropRef r key a s) A.
Proof.
  intros HL. pose proof HL as [H1 H2 H3 H4 H5 H6].
  destruct (H4 r key a ltac:(apply list_elem_of_here)) as [Hk Hr].
  destruct (H5 _ _ _ Hk) as (c & Hc & _ & Hcap). pose proof (H2 _ _ Hc) as Hrefs.
  rewrite occ_cons, decide_True in Hrefs by done. pose proof (occ_nonneg (dropsTo a) A).
  unfold dropRef. rewrite Hc.
  assert (∀ r' k b, (if sm_refs c - 1 =? 0 then delete (r, key) (se_named s) else se_named s) !! (r', k) = Some b →
    se_named s !! (r', k) = Some b ∧ (b = a → 0 < sm_refs c - 1)) as Hdel.
  { intros r' k b. destruct (_ =? 0) eqn:E; bool_to_prop.
    - intros [Hne Hb]%lookup_delete_Some. split; [done|]. intros ->. by specialize (H6 _ _ _ Hb Hk).
    - intros Hb. split; [done|]. lia. }
  split; simpl.
  - intros b d Hd. destruct (H1 _ _ Hc) as [E1 E2]. rewrite occ_cons, decide_False in E1 by done. heap_cases; [lia|].
    destruct (H1 _ _ Hd) as [E ?]. rewrite occ_cons, decide_False in E by done. lia.
  - intros b d Hd. heap_cases; [lia|]. rewrite (H2 _ _ Hd). rewrite occ_cons, decide_False by done. lia.
  - intros b Hb. rewrite length_insert. apply H3. by apply list_elem_of_further.
  - intros r' k b Hb. destruct (H4 r' k b) as [Hk' Hr']; [by apply list_elem_of_further|]. split; [|done].
    destruct (_ =? 0) eqn:E; [|done]. bool_to_prop. apply lookup_delete_Some. split; [|done].
    intros [= <- <-]. assert (0 < occ (dropsTo a) A); [|lia]. apply occ_pos. rewrite Hk in Hk'. simplify_eq. eexists. by split.
  - intros r' k b Hb. destruct (Hdel _ _ _ Hb) as [Hb' Hpos]. destruct (H5 _ _ _ Hb') as (d & Hd & Hr' & Hc').
    destruct (decide (a = b)) as [<-|Hne].
    + simplify_eq. eexists. rewrite list_lookup_insert_eq by (by eapply lookup_lt_Some). split; [done|]. simpl.
      split; [|done]. intros _. by apply Hpos.
    + exists d. rewrite list_lookup_insert_ne by done. eauto.
  - intros [r1 k1] [r2 k2] b Hb1 Hb2. destruct (Hdel _ _ _ Hb1), (Hdel _ _ _ Hb2). by apply (H6 _ _ b).
Qed.

(** A full channel has somebody who owes it a receive. *)
Lemma ledger_blocked s A a :
  ledger s A → (a < length (se_heap s))%nat → (∀ c, se_heap s !! a = Some c → 1 ≤ sm_cap c) → semSend a s = None → ARecv a ∈ A.
Proof.
  intros HL Ha Hcap. destruct (lookup_lt_is_Some_2 _ _ Ha) as [c Hc]. unfold semSend. rewrite Hc. simpl.
  destruct (_ <? _) eqn:E; [done|]. bool_to_prop. intros _. destruct (le_len _ _ HL _ _ Hc) as [Hl _].
  specialize (Hcap _ Hc).
  assert (0 < occ (eq (ARecv a)) A) as (x & Hx & <-)%occ_pos by lia. done.
Qed.

(** With nothing left to release every channel is empty and only kinds have entries. *)
Lemma ledger_empty s :
  ledger s [] → (∀ a c, se_heap s !! a = Some c → sm_len c = 0 ∧ sm_refs c = 0) ∧
  (∀ r key, r ≠ kindSemaphores → se_named s !! (r, key) = None).
Proof.
  intros HL. split.
  - intros a c Hc. destruct (le_len _ _ HL _ _ Hc) as [-> _]. rewrite (le_refs _ _ HL _ _ Hc). done.
  - intros r key Hr. destruct (se_named s !! (r, key)) as [a|] eqn:E; [|done].
    destruct (le_named _ _ HL _ _ _ E) as (c & Hc & Hpos & _). specialize (Hpos Hr). rewrite (le_refs _ _ HL _ _ Hc) in Hpos.
    done.
Qed.
