(* ===== verification/WorkerMachine.v ===== *)
(** * worker.go: the pool as a concurrent machine

    The dispatcher of [fetchAndDispatch] and the goroutine it starts for every
    claimed job, over the state of the pool they share.  A machine state holds
    that shared state and every goroutine; [mstep] performs one atomic step of
    one of them, as the event says.  A goroutine is where it stands ([pc]), the
    calls it has deferred ([g_defers], last first) and the releases it is in the
    middle of ([g_todo]); a step that would block has no successor.  Whatever the
    select statements leave open (timers, lost leases, cancellation, what other
    processes do to the store) is an event. *)

From S2P Require Import Prelude GoBase Json Codec Core Driver RateLimit Sha256 WorkerConfig WorkerRate WorkerRun.
From S2P Require Import WorkerSemaphores.
From Stdlib Require Import ZArith Lia.

(** What a pool relies on when it fetches: no more rows than it asked for, of
    the queue it asked for. *)
Class LawfulFetch (S : Type) `{WorkerStore S} := {
  fetch_limit (s s' : S) prm rows : ws_fetch s prm = (s', Ok rows) → 0 < fp_Limit prm → Z.of_nat (length rows) ≤ fp_Limit prm;
  fetch_queue (s s' : S) prm rows : ws_fetch s prm = (s', Ok rows) → Forall (λ r, Queue r = fp_Queue prm) rows
}.

(** ** Deferred calls *)

Inductive frame :=
| FWg
| FPending
| FQueueDone
| FPipelineDone
| FHeartbeat
| FLease
| FKeys (acquired : list (string * nat))    (* the last acquired first *)
| FRateGate (key : string) (a : nat)
| FToken (a : nat).

#[export] Instance frame_eq_dec : EqDecision frame.
Proof. solve_decision. Defined.

(** The addresses of [p.pending] and [p.sem]. *)
Definition pendingChan : nat := 0.
Definition semChan : nat := 1.

(** [release] of [acquireKeyConcurrency]. *)
Definition releaseKeys (acquired : list (string * nat)) : list action :=
  concat ((λ '(key, a), [ARecv a; ADropRef keySemaphores key a]) <$> acquired).

(** What a deferred call does, step by step. *)
Definition expand (row : JobRow) (f : frame) : list action :=
  match f with
  | FWg => [AWgDone]
  | FPending => [ARecv pendingChan]
  | FQueueDone => [AQueueDone]
  | FPipelineDone => if bool_decide (PipelineID row = "") then [] else [AClosePipeline; AForgetPipeline]
  | FHeartbeat => [AStopHeartbeat]
  | FLease => [AResign]
  | FKeys acquired => releaseKeys acquired
  | FRateGate key a => [ARecv a; ADropRef rateGates key a]
  | FToken a => [ARecv a]
  end.

Definition isRateGate (f : frame) : bool := match f with FRateGate _ _ => true | _ => false end.

(** ** Goroutines *)

Inductive pc :=
| PStart                      (* startHeartbeat *)
| PReady                      (* select on pipelineReady *)
| PLease                      (* acquireDistributedPipeline *)
| PKeyStart                   (* acquireKeyConcurrency reads the policy *)
| PKeys (rules : list (Z * KeyConcurrencyLimit)) (acquired : list (string * nat))
| PKeyWait (index : Z) (rules : list (Z * KeyConcurrencyLimit)) (key : string) (a : nat) (acquired : list (string * nat))
| PGate                       (* acquireRateGate *)
| PGateWait (key : string) (a : nat)
| PKind                       (* kindSemaphore *)
| PKindWait (a : nat)
| PSem                        (* select on p.sem *)
| PPermit                     (* waitForRatePermit *)
| PBegin                      (* the start marker *)
| PHandler (startedAt : Instant) (jobCtx : Ctx)
| PUnwind.                    (* returning: the deferred calls run *)

Record Goroutine := mkGoroutine {
  g_row : JobRow;
  g_ready : option nat;       (* pipelineReady: the goroutine whose [done] it waits for *)
  g_cancelled : bool;         (* the claim context is done *)
  g_ctx : Ctx;
  g_pc : pc;
  g_todo : list action;
  g_defers : list frame
}.

Definition g_goto (at_ : pc) (g : Goroutine) : Goroutine :=
  mkGoroutine (g_row g) (g_ready g) (g_cancelled g) (g_ctx g) at_ (g_todo g) (g_defers g).
Definition g_push (f : frame) (g : Goroutine) : Goroutine :=
  mkGoroutine (g_row g) (g_ready g) (g_cancelled g) (g_ctx g) (g_pc g) (g_todo g) (f :: g_defers g).
Definition g_set_todo (todo : list action) (g : Goroutine) : Goroutine :=
  mkGoroutine (g_row g) (g_ready g) (g_cancelled g) (g_ctx g) (g_pc g) todo (g_defers g).
Definition g_set_defers (defers : list frame) (g : Goroutine) : Goroutine :=
  mkGoroutine (g_row g) (g_ready g) (g_cancelled g) (g_ctx g) (g_pc g) (g_todo g) defers.
Definition g_set_ctx (ctx : Ctx) (g : Goroutine) : Goroutine :=
  mkGoroutine (g_row g) (g_ready g) (g_cancelled g) ctx (g_pc g) (g_todo g) (g_defers g).
Definition g_set_row (row : JobRow) (g : Goroutine) : Goroutine :=
  mkGoroutine row (g_ready g) (g_cancelled g) (g_ctx g) (g_pc g) (g_todo g) (g_defers g).
Definition g_cancel (g : Goroutine) : Goroutine :=
  mkGoroutine (g_row g) (g_ready g) true (g_ctx g) (g_pc g) (g_todo g) (g_defers g).

(** What a goroutine undoes itself when it gives up where it stands. *)
Definition bailActions (at_ : pc) : list action :=
  match at_ with
  | PKeys _ acquired => releaseKeys acquired
  | PKeyWait _ _ key a acquired => ADropRef keySemaphores key a :: releaseKeys acquired
  | PGateWait key a => [ADropRef rateGates key a]
  | _ => []
  end.

(** Every release a goroutine has before it. *)
Definition acts (g : Goroutine) : list action :=
  g_todo g ++ bailActions (g_pc g) ++ concat (expand (g_row g) <$> g_defers g).

(** ** The machine *)

(** Where the dispatcher stands; every state but [DIdle] holds [fetchMu]. *)
Inductive dispatcher :=
| DIdle
| DLoop (free misses : Z)
| DRows (rows : list JobRow) (free misses : Z)
| DCrashed.                   (* the schedule was indexed out of range *)

Record Machine (S : Type) := mkMachine {
  mc_pool : WorkerPool;
  mc_env : RunEnv S;
  mc_waits : list RateLimitWaitEvent;
  mc_states : gmap string queueRuntimeState;
  mc_sems : Semaphores;
  mc_tails : gmap string nat;         (* pipelineTails *)
  mc_closed : gset nat;               (* the [done] channels that are closed *)
  mc_cursor : Z;
  mc_wg : Z;
  mc_started : bool;
  mc_shutdown : bool;                 (* isShuttingDown, and shutdownCh closed *)
  mc_disp : dispatcher;
  mc_gors : list Goroutine            (* a goroutine's [done] channel is its index *)
}.
Arguments mkMachine {S}.
Arguments mc_pool {S}.
Arguments mc_env {S}.
Arguments mc_waits {S}.
Arguments mc_states {S}.
Arguments mc_sems {S}.
Arguments mc_tails {S}.
Arguments mc_closed {S}.
Arguments mc_cursor {S}.
Arguments mc_wg {S}.
Arguments mc_started {S}.
Arguments mc_shutdown {S}.
Arguments mc_disp {S}.
Arguments mc_gors {S}.

Definition set_gors {S} (gs : list Goroutine) (m : Machine S) : Machine S :=
  mkMachine (mc_pool m) (mc_env m) (mc_waits m) (mc_states m) (mc_sems m) (mc_tails m) (mc_closed m) (mc_cursor m)
    (mc_wg m) (mc_started m) (mc_shutdown m) (mc_disp m) gs.
Definition set_gor {S} (i : nat) (g : Goroutine) (m : Machine S) : Machine S := set_gors (<[i := g]> (mc_gors m)) m.
Definition set_env {S} (e : RunEnv S) (m : Machine S) : Machine S :=
  mkMachine (mc_pool m) e (mc_waits m) (mc_states m) (mc_sems m) (mc_tails m) (mc_closed m) (mc_cursor m)
    (mc_wg m) (mc_started m) (mc_shutdown m) (mc_disp m) (mc_gors m).
Definition set_states {S} (states : gmap string queueRuntimeState) (m : Machine S) : Machine S :=
  mkMachine (mc_pool m) (mc_env m) (mc_waits m) states (mc_sems m) (mc_tails m) (mc_closed m) (mc_cursor m)
    (mc_wg m) (mc_started m) (mc_shutdown m) (mc_disp m) (mc_gors m).
Definition set_sems {S} (sems : Semaphores) (m : Machine S) : Machine S :=
  mkMachine (mc_pool m) (mc_env m) (mc_waits m) (mc_states m) sems (mc_tails m) (mc_closed m) (mc_cursor m)
    (mc_wg m) (mc_started m) (mc_shutdown m) (mc_disp m) (mc_gors m).
Definition set_pipes {S} (tails : gmap string nat) (closed : gset nat) (m : Machine S) : Machine S :=
  mkMachine (mc_pool m) (mc_env m) (mc_waits m) (mc_states m) (mc_sems m) tails closed (mc_cursor m)
    (mc_wg m) (mc_started m) (mc_shutdown m) (mc_disp m) (mc_gors m).
Definition set_wg {S} (wg : Z) (m : Machine S) : Machine S :=
  mkMachine (mc_pool m) (mc_env m) (mc_waits m) (mc_states m) (mc_sems m) (mc_tails m) (mc_closed m) (mc_cursor m)
    wg (mc_started m) (mc_shutdown m) (mc_disp m) (mc_gors m).
Definition set_disp {S} (d : dispatcher) (m : Machine S) : Machine S :=
  mkMachine (mc_pool m) (mc_env m) (mc_waits m) (mc_states m) (mc_sems m) (mc_tails m) (mc_closed m) (mc_cursor m)
    (mc_wg m) (mc_started m) (mc_shutdown m) d (mc_gors m).
Definition set_cursor {S} (c : Z) (m : Machine S) : Machine S :=
  mkMachine (mc_pool m) (mc_env m) (mc_waits m) (mc_states m) (mc_sems m) (mc_tails m) (mc_closed m) c
    (mc_wg m) (mc_started m) (mc_shutdown m) (mc_disp m) (mc_gors m).
Definition set_pool {S} (p : WorkerPool) (m : Machine S) : Machine S :=
  mkMachine p (mc_env m) (mc_waits m) (mc_states m) (mc_sems m) (mc_tails m) (mc_closed m) (mc_cursor m)
    (mc_wg m) (mc_started m) (mc_shutdown m) (mc_disp m) (mc_gors m).
Definition set_started {S} (b : bool) (m : Machine S) : Machine S :=
  mkMachine (mc_pool m) (mc_env m) (mc_waits m) (mc_states m) (mc_sems m) (mc_tails m) (mc_closed m) (mc_cursor m)
    (mc_wg m) b (mc_shutdown m) (mc_disp m) (mc_gors m).
Definition set_shutdown {S} (b : bool) (m : Machine S) : Machine S :=
  mkMachine (mc_pool m) (mc_env m) (mc_waits m) (mc_states m) (mc_sems m) (mc_tails m) (mc_closed m) (mc_cursor m)
    (mc_wg m) (mc_started m) b (mc_disp m) (mc_gors m).
Definition set_waits {S} (w : list RateLimitWaitEvent) (m : Machine S) : Machine S :=
  mkMachine (mc_pool m) (mc_env m) w (mc_states m) (mc_sems m) (mc_tails m) (mc_closed m) (mc_cursor m)
    (mc_wg m) (mc_started m) (mc_shutdown m) (mc_disp m) (mc_gors m).

(** A fresh pool: [pending] and [sem] are its first two channels. *)
Definition newMachine {S} (p : WorkerPool) (s : S) (clk : Clock) : Machine S :=
  mkMachine p (mkRunEnv s clk [] []) [] ∅
    (mkSemaphores [mkSemaphore 0 (wc_MaxPending (wp_config p)) 0; mkSemaphore 0 (wc_Concurrency (wp_config p)) 0] ∅)
    ∅ ∅ 0 0 false false DIdle [].

(** What a rate wait cannot see of the machine: how the other goroutines, the
    store and the timers behave while it lasts, and the fuel that covers it. *)
Record RateOracle (S : Type) := mkRateOracle {
  ro_others : nat → RateEnv S → RateEnv S;
  ro_storeEnv : nat → nat → S → S;
  ro_ctxDone : nat → nat → option error;
  ro_waits : nat → bool;
  ro_acquireFuel : nat;
  ro_fuel : nat
}.
Arguments ro_others {S}.
Arguments ro_storeEnv {S}.
Arguments ro_ctxDone {S}.
Arguments ro_waits {S}.
Arguments ro_acquireFuel {S}.
Arguments ro_fuel {S}.
Arguments mkRateOracle {S}.

Inductive event (S : Type) :=
| EStart                                          (* Start *)
| EFetch                                          (* fetchAndDispatch takes fetchMu *)
| EDispatch                                       (* the dispatcher's next step *)
| EGo (i : nat)                                   (* goroutine [i] goes on *)
| EBail (i : nat)                                 (* its select takes the branch that gives up *)
| EPermit (i : nat) (o : RateOracle S)            (* its rate wait ends *)
| EFinish (i : nat) (lost : option error)         (* its handler returns *)
| ECancel (i : nat)                               (* its claim context is cancelled from above *)
| EBeat (i : nat)                                 (* its heartbeat ticks *)
| ERenew (i : nat)                                (* the renewal of its pipeline lease ticks *)
| EShutdown                                       (* Shutdown, the first call *)
| EPolicy (queue : string) (policy : QueuePolicy) (* UpdateQueuePolicy *)
| EWorld (s : S) (c : Clock)                      (* other processes, handlers, time *)
| ERescue (queue : string) (now before : Instant). (* rescueStuck, one queue *)
Arguments EStart {S}.
Arguments EFetch {S}.
Arguments EDispatch {S}.
Arguments EGo {S}.
Arguments EBail {S}.
Arguments EPermit {S}.
Arguments EFinish {S}.
Arguments ECancel {S}.
Arguments EBeat {S}.
Arguments ERenew {S}.
Arguments EShutdown {S}.
Arguments EPolicy {S}.
Arguments EWorld {S}.
Arguments ERescue {S}.

Section machine.
Context {S : Type} `{WorkerStore S} `{CursorStore S} `{MapRange} `{FloatConv}.
Context (reg : Registry) (name : string) (caps : Capabilities) (lifecycle : bool).
Implicit Types m : Machine S.

(** ** Claim accounting *)

Definition queueCanClaim (queue : string) m : Machine S * bool :=
  let policy := queuePolicy (mc_pool m) queue in
  let state := stateOf (mc_states m) queue in
  (set_states (<[queue := state]> (mc_states m)) m,
   negb ((0 <? qp_Concurrency policy) && (qp_Concurrency policy <=? qs_active state))).

Definition queueClaimed (queue : string) m : Machine S :=
  let state := stateOf (mc_states m) queue in
  set_states (<[queue := mkQueueRuntimeState (qs_active state + 1) (qs_rates state)]> (mc_states m)) m.

Definition queueDone (queue : string) m : Machine S :=
  match mc_states m !! queue with
  | Some state =>
      if 0 <? qs_active state
      then set_states (<[queue := mkQueueRuntimeState (qs_active state - 1) (qs_rates state)]> (mc_states m)) m
      else m
  | None => m
  end.

(** ** The dispatcher *)

(** The order in which the rows of one fetch are started. *)
Definition startLess (a b : JobRow) : bool :=
  if negb (Priority a =? Priority b) then Priority b <? Priority a
  else if negb (TimeEqual (RunAt a) (RunAt b)) then Before (RunAt a) (RunAt b)
  else if negb (TimeEqual (CreatedAt a) (CreatedAt b)) then Before (CreatedAt a) (CreatedAt b)
  else str_lt (ID a) (ID b).

Definition chanOf (a : nat) (s : Semaphores) : semaphore := default (mkSemaphore 0 0 0) (se_heap s !! a).

(** Up to the loop. *)
Definition beginFetch m : Machine S :=
  if mc_shutdown m then m
  else
    let c := chanOf pendingChan (mc_sems m) in
    let free := sm_cap c - sm_len c in
    if free <=? 0 then m else set_disp (DLoop free 0) m.

(** [int(p.queueCursor.Add(1)-1) % len(p.queueSchedule)], and the queue there. *)
Definition nextSlot (p : WorkerPool) (cursor : Z) : Z * option string :=
  let cursor' := (cursor + 1) mod 2 ^ 64 in
  let index := Z.rem (wrap64 ((cursor' - 1) mod 2 ^ 64)) (Z.of_nat (length (wp_queueSchedule p))) in
  (cursor', if index <? 0 then None else wp_queueSchedule p !! Z.to_nat index).

Definition fetchParams (p : WorkerPool) (queue : string) : FetchParams :=
  mkFetchParams queue 1 (wc_WorkerID (wp_config p)) (wc_StuckJobTimeout (wp_config p)).

(** One round of the loop, up to the rows it starts. *)
Definition dispatchRound (free misses : Z) m : Machine S :=
  if negb ((0 <? free) && (misses <? Z.of_nat (length (wp_queueSchedule (mc_pool m))))) then set_disp DIdle m
  else
    let '(cursor, slot) := nextSlot (mc_pool m) (mc_cursor m) in
    let m := set_cursor cursor m in
    match slot with
    | None => set_disp DCrashed m
    | Some queue =>
        let '(m, can) := queueCanClaim queue m in
        if negb can then set_disp (DLoop free (misses + 1)) m
        else
          let '(s', r) := ws_fetch (rn_store (mc_env m)) (fetchParams (mc_pool m) queue) in
          let m := set_env (runOn s' (mc_env m)) m in
          match r with
          | Err err => set_disp (DLoop free (misses + 1))
              (set_env (reportError (EWrap ("fetch queue " +:+ quoted queue +:+ ": ") err "") (mc_env m)) m)
          | Ok [] => set_disp (DLoop free (misses + 1)) m
          | Ok rows => set_disp (DRows (sort_by startLess rows) (free - 1) 0) (queueClaimed queue m)
          end
    end.

(** [pipelineGate]: the channel to wait for; the new tail is goroutine [i]. *)
Definition pipelineGate (id : string) (i : nat) m : Machine S * option nat :=
  if bool_decide (id = "") then (m, None)
  else (set_pipes (<[id := i]> (mc_tails m)) (mc_closed m) m, mc_tails m !! id).

(** Starting one claimed job. *)
Definition launch (row : JobRow) m : option (Machine S) :=
  let i := length (mc_gors m) in
  let m := set_env (observe (mc_pool m) (EvClaimed row) (mc_env m)) m in
  let '(m, ready) := pipelineGate (PipelineID row) i m in
  sems ← semSend pendingChan (mc_sems m);
  let g := mkGoroutine row ready false (CtxRoot 0) PStart [] [FPipelineDone; FQueueDone; FPending; FWg] in
  Some (set_gors (mc_gors m ++ [g]) (set_wg (mc_wg m + 1) (set_sems sems m))).

Definition dispatch m : option (Machine S) :=
  match mc_disp m with
  | DIdle | DCrashed => None
  | DLoop free misses => Some (dispatchRound free misses m)
  | DRows [] free misses => Some (set_disp (DLoop free misses) m)
  | DRows (row :: rows) free misses => set_disp (DRows rows free misses) <$> launch row m
  end.

(** ** Releases *)

Definition leaseOf (p : WorkerPool) (row : JobRow) : string * string :=
  ("goncordia:pipeline:" +:+ PipelineID row,
   wc_WorkerID (wp_config p) +:+ ":" +:+ ID row +:+ ":" +:+ FormatInt (AttemptNum row)).

Definition perform (i : nat) (row : JobRow) (x : action) m : option (Machine S) :=
  match x with
  | AYield => Some (set_env (setState (fencedStateParams row yieldParams) (mc_env m)) m)
  | ARecv a => sems ← semRecv a (mc_sems m); Some (set_sems sems m)
  | ADropRef r key a => Some (set_sems (dropRef r key a (mc_sems m)) m)
  | AResign =>
      let '(lease, owner) := leaseOf (mc_pool m) row in
      let '(s', err) := ws_resign (rn_store (mc_env m)) (mkLeaderResignParams lease owner) in
      let e := runOn s' (mc_env m) in
      Some (set_env (match err with
        | Some err => reportError (EWrap ("release distributed pipeline " +:+ quoted (PipelineID row) +:+ ": ") err "") e
        | None => e
        end) m)
  | AStopHeartbeat => Some m
  | AClosePipeline => if decide (i ∈ mc_closed m) then None
                      else Some (set_pipes (mc_tails m) ({[i]} ∪ mc_closed m) m)
  | AForgetPipeline => Some (if decide (mc_tails m !! PipelineID row = Some i)
                             then set_pipes (delete (PipelineID row) (mc_tails m)) (mc_closed m) m else m)
  | AQueueDone => Some (queueDone (Queue row) m)
  | AWgDone => Some (set_wg (mc_wg m - 1) m)
  end.

(** ** Goroutines *)

Definition electLease (row : JobRow) m : Machine S * result bool :=
  let '(lease, owner) := leaseOf (mc_pool m) row in
  let '(s', r) := ws_elect (rn_store (mc_env m))
    (mkLeaderElectParams lease owner (wc_PipelineLeaseDuration (wp_config (mc_pool m)))) in
  (set_env (runOn s' (mc_env m)) m, r).

Definition needsLease (p : WorkerPool) (row : JobRow) : bool :=
  wc_DistributedPipelines (wp_config p) && negb (bool_decide (PipelineID row = "")).

Definition concurrencyKey (row : JobRow) (index : Z) (rule : KeyConcurrencyLimit) : string :=
  Queue row +:+ nul +:+ FormatInt index +:+ nul +:+ rateLimitKeyValue (kc_Key rule) (kc_TagPrefix rule) row.

(** The rules of the queue with their positions. *)
Definition keyRules (p : WorkerPool) (row : JobRow) : list (Z * KeyConcurrencyLimit) :=
  imap (λ i rule, (Z.of_nat i, rule)) (qp_KeyConcurrency (queuePolicy p (Queue row))).

Definition rateGateKey (rules : list normalizedRateLimit) (row : JobRow) : string :=
  shortDigest (String.concat "" ((λ rule, rateRuleKey rule row +:+ nul) <$> rules)).

(** One step of goroutine [i] itself, outside the deferred calls. *)
Definition advance (i : nat) (g : Goroutine) m : option (Machine S) :=
  let row := g_row g in
  match g_pc g with
  | PStart =>
      Some (set_gor i (g_goto PReady
        (if beats (mc_pool m) then g_push FHeartbeat (g_set_ctx (CtxCancel (g_ctx g)) g) else g)) m)
  | PReady =>
      match g_ready g with
      | None => Some (set_gor i (g_goto PLease g) m)
      | Some k => if decide (k ∈ mc_closed m) then Some (set_gor i (g_goto PLease g) m) else None
      end
  | PLease =>
      if negb (needsLease (mc_pool m) row) then Some (set_gor i (g_goto PKeyStart g) m)
      else
        let '(m, r) := electLease row m in
        match r with
        | Err err => Some (set_env (reportError
            (EWrap ("acquire distributed pipeline " +:+ quoted (PipelineID row) +:+ ": ") err "") (mc_env m)) m)
        | Ok false => Some m
        | Ok true => Some (set_gor i (g_goto PKeyStart (g_push FLease (g_set_ctx (CtxCancel (g_ctx g)) g))) m)
        end
  | PKeyStart => Some (set_gor i (g_goto (PKeys (keyRules (mc_pool m) row) []) g) m)
  | PKeys [] acquired => Some (set_gor i (g_goto PGate (g_push (FKeys acquired) g)) m)
  | PKeys ((index, rule) :: rules) acquired =>
      let key := concurrencyKey row index rule in
      let '(sems, a) := acquireRef keySemaphores key (kc_Limit rule) (mc_sems m) in
      Some (set_gor i (g_goto (PKeyWait index rules key a acquired) g) (set_sems sems m))
  | PKeyWait _ rules key a acquired =>
      sems ← semSend a (mc_sems m);
      Some (set_gor i (g_goto (PKeys rules ((key, a) :: acquired)) g) (set_sems sems m))
  | PGate =>
      match queueRateLimits (mc_pool m) (Queue row) with
      | [] => Some (set_gor i (g_goto PKind g) m)
      | rules =>
          let key := rateGateKey rules row in
          let '(sems, a) := acquireRef rateGates key 1 (mc_sems m) in
          Some (set_gor i (g_goto (PGateWait key a) g) (set_sems sems m))
      end
  | PGateWait key a =>
      sems ← semSend a (mc_sems m);
      Some (set_gor i (g_goto PKind (g_push (FRateGate key a) g)) (set_sems sems m))
  | PKind =>
      match Opts reg (Kind row) with
      | None => Some (set_gor i (g_goto PSem g) m)
      | Some opts =>
          if wo_Concurrency opts <=? 0 then Some (set_gor i (g_goto PSem g) m)
          else
            let '(sems, a) := entryOf kindSemaphores (Kind row) (wo_Concurrency opts) (mc_sems m) in
            Some (set_gor i (g_goto (PKindWait a) g) (set_sems sems m))
      end
  | PKindWait a =>
      sems ← semSend a (mc_sems m);
      Some (set_gor i (g_goto PSem (g_push (FToken a) g)) (set_sems sems m))
  | PSem =>
      sems ← semSend semChan (mc_sems m);
      Some (set_gor i (g_goto PPermit (g_push (FToken semChan) g)) (set_sems sems m))
  | PBegin =>
      let '(e, (row, startedAt)) := markStart (mc_pool m) lifecycle row (mc_env m) in
      let '(jobCtx, e) := jobContext reg (g_ctx g) row e in
      Some (set_gor i (g_goto (PHandler startedAt jobCtx) (g_set_row row g)) (set_env e m))
  | PPermit | PHandler _ _ => None
  | PUnwind =>
      match g_defers g with
      | [] => None
      | f :: defers => Some (set_gor i (g_set_todo (expand row f) (g_set_defers defers g)) m)
      end
  end.

Definition goStep (i : nat) m : option (Machine S) :=
  g ← mc_gors m !! i;
  match g_todo g with
  | x :: todo => set_gor i (g_set_todo todo g) <$> perform i (g_row g) x m
  | [] => advance i g m
  end.

(** [return] after [setState(…, Yield: true)]. *)
Definition giveUp (g : Goroutine) : Goroutine :=
  g_set_todo (bailActions (g_pc g) ++ [AYield]) (g_goto PUnwind g).

(** Whether the select of a goroutine has a branch that gives up, and it is ready. *)
Definition mayBail (p : WorkerPool) (shutdown : bool) (g : Goroutine) : bool :=
  match g_pc g with
  | PReady => (g_cancelled g || shutdown) && bool_decide (is_Some (g_ready g))
  | PLease => (g_cancelled g || shutdown) && needsLease p (g_row g)
  | PKeyWait _ _ _ _ _ | PGateWait _ _ | PSem => g_cancelled g || shutdown
  | PKindWait _ => g_cancelled g
  | _ => false
  end.

Definition bailStep (i : nat) m : option (Machine S) :=
  g ← mc_gors m !! i;
  match g_todo g with
  | [] => if mayBail (mc_pool m) (mc_shutdown m) g then Some (set_gor i (giveUp g) m) else None
  | _ => None
  end.

(** The machine as [waitForRatePermit] sees it, and what it changes there: the
    limiter, the store, the clock, events and reports. *)
Definition rateEnv m : RateEnv S :=
  mkRateEnv (mc_pool m) (mc_states m) (rn_store (mc_env m)) (rn_clk (mc_env m)) (mc_waits m) (rn_reports (mc_env m)).

(** The limiter states of [new] with the claim counts of [old]. *)
Definition mergeRates (old new : gmap string queueRuntimeState) : gmap string queueRuntimeState :=
  map_imap (λ queue st, Some (mkQueueRuntimeState (qs_active (stateOf old queue)) (qs_rates st))) new ∪ old.

Definition fromRateEnv (e : RateEnv S) m : Machine S :=
  set_waits (re_events e) (set_states (mergeRates (mc_states m) (re_states e))
    (set_env (mkRunEnv (re_store e) (re_clk e) (rn_events (mc_env m)) (re_reports e)) m)).

(** The rate wait of goroutine [i] and, once it has its permits, the early
    release of its gate; the deferred release of the gate then does nothing. *)
Definition permitStep (i : nat) (o : RateOracle S) m : option (Machine S) :=
  g ← mc_gors m !! i;
  match g_todo g, g_pc g with
  | [], PPermit =>
      '(e, ok) ← waitForRatePermit lifecycle (ro_others o) (ro_storeEnv o) (ro_ctxDone o) (ro_waits o)
                   (ro_acquireFuel o) (ro_fuel o) (g_row g) (rateEnv m);
      let m := fromRateEnv e m in
      if ok : bool then
        let gates := filter (λ f, isRateGate f = true) (g_defers g) in
        Some (set_gor i (g_set_todo (concat (expand (g_row g) <$> gates))
          (g_set_defers (filter (λ f, isRateGate f = false) (g_defers g)) (g_goto PBegin g))) m)
      else if g_cancelled g || mc_shutdown m then Some (set_gor i (giveUp g) m) else None
  | _, _ => None
  end.

Definition finishStep (i : nat) (lost : option error) m : option (Machine S) :=
  g ← mc_gors m !! i;
  match g_todo g, g_pc g with
  | [], PHandler startedAt jobCtx =>
      if decide (is_Some lost ↔ g_cancelled g = true) then
        let '(e, res) := executeRow (mc_pool m) reg lost jobCtx (g_row g) (mc_env m) in
        Some (set_gor i (g_goto PUnwind g)
          (set_env (markFinish (mc_pool m) lifecycle (g_row g) startedAt res e) m))
      else None
  | _, _ => None
  end.

(** Ticks, while the ticker's goroutine has not been stopped. *)
Definition beatStep (i : nat) m : option (Machine S) :=
  g ← mc_gors m !! i;
  if decide (FHeartbeat ∈ g_defers g) then
    let '(e, renewed) := heartbeatTick (mc_pool m) (g_row g) (mc_env m) in
    Some (set_gor i (if renewed : bool then g else g_cancel g) (set_env e m))
  else None.

Definition renewStep (i : nat) m : option (Machine S) :=
  g ← mc_gors m !! i;
  if decide (FLease ∈ g_defers g) then
    let '(m, r) := electLease (g_row g) m in
    match r with
    | Ok true => Some m
    | Ok false => Some (set_gor i (g_cancel g) m)
    | Err err => Some (set_gor i (g_cancel g) (set_env (reportError
        (EWrap ("renew distributed pipeline " +:+ quoted (PipelineID (g_row g)) +:+ ": ") err "") (mc_env m)) m))
    end
  else None.

(** ** Start, Shutdown, UpdateQueuePolicy *)

Definition Start m : Machine S * option error :=
  match wp_configErr (mc_pool m) with
  | Some err => (m, Some err)
  | None =>
      if mc_started m then (m, Some (ENew "worker pool already started"))
      else if mc_shutdown m then (set_started true m, Some (ENew "worker pool is shutting down"))
      else (set_started true m, None)
  end.

Definition locked m : bool := match mc_disp m with DIdle => false | _ => true end.

Definition mstep (ev : event S) m : option (Machine S) :=
  match ev with
  | EStart => Some (Start m).1
  | EFetch => if mc_started m && negb (locked m) then Some (beginFetch m) else None
  | EDispatch => dispatch m
  | EGo i => goStep i m
  | EBail i => bailStep i m
  | EPermit i o => permitStep i o m
  | EFinish i lost => finishStep i lost m
  | ECancel i => g ← mc_gors m !! i; Some (set_gor i (g_cancel g) m)
  | EBeat i => beatStep i m
  | ERenew i => renewStep i m
  | EShutdown => if locked m then None else Some (set_shutdown true m)
  | EPolicy queue policy => if locked m then None else Some (set_pool (UpdateQueuePolicy name caps (mc_pool m) queue policy).1 m)
  | EWorld s c => Some (set_env (mkRunEnv s c (rn_events (mc_env m)) (rn_reports (mc_env m))) m)
  | ERescue queue now before =>
      match ws_rescue with
      | Some rescue => if mc_started m then Some (set_env (rescueQueue (mc_pool m) rescue now before (mc_env m) queue) m) else None
      | None => None
      end
  end.

Fixpoint mrun (evs : list (event S)) m : option (Machine S) :=
  match evs with
  | [] => Some m
  | ev :: rest => m' ← mstep ev m; mrun rest m'
  end.

(** [Shutdown] returns nil once this holds. *)
Definition drained m : bool := mc_shutdown m && (mc_wg m =? 0).
End machine.
