(* ===== verification/WorkerMachineInv.v ===== *)
(** * The worker machine: its accounting invariant

    Every token, reference, claim count and close that a pool has handed out is
    matched by exactly one release that some goroutine still has before it.  The
    steps of a goroutine are first summarised by what they do to that ledger
    ([gmove]); the invariant then follows for every event. *)

From S2P Require Import Prelude GoBase Json Codec Core Driver RateLimit Sha256 WorkerConfig WorkerConfigProps.
From S2P Require Import WorkerRate WorkerRun WorkerSemaphores WorkerMachine.
From Stdlib Require Import ZArith Lia.

Lemma elem_of_occ x l : x ∈ l ↔ 0 < occ (eq x) l.
Proof. rewrite occ_pos. naive_solver. Qed.

Definition allActs (gs : list Goroutine) : list action := concat (acts <$> gs).

Lemma allActs_app gs1 gs2 : allActs (gs1 ++ gs2) = allActs gs1 ++ allActs gs2.
Proof. unfold allActs. by rewrite fmap_app, concat_app. Qed.

Lemma allActs_one g : allActs [g] = acts g.
Proof. unfold allActs. simpl. apply app_nil_r. Qed.

(** Singling out one goroutine. *)
Lemma allActs_split gs i g :
  gs !! i = Some g → ∃ rest, allActs gs ≡ₚ acts g ++ rest ∧ ∀ g', allActs (<[i := g']> gs) ≡ₚ acts g' ++ rest.
Proof.
  intros Hi. exists (allActs (take i gs) ++ allActs (drop (S i) gs)). pose proof (lookup_lt_Some _ _ _ Hi).
  split.
  - rewrite <-(take_drop_middle _ _ _ Hi) at 1. rewrite allActs_app. unfold allActs at 2. rewrite fmap_cons. simpl.
    fold (allActs (drop (S i) gs)). rewrite !app_assoc. f_equiv. apply Permutation_app_comm.
  - intros g'. rewrite insert_take_drop by done. rewrite allActs_app. unfold allActs at 2. rewrite fmap_cons. simpl.
    fold (allActs (drop (S i) gs)). rewrite !app_assoc. f_equiv. apply Permutation_app_comm.
Qed.

Lemma elem_of_allActs x gs : x ∈ allActs gs ↔ ∃ i g, gs !! i = Some g ∧ x ∈ acts g.
Proof.
  unfold allActs. rewrite list_elem_of_In, in_concat. split.
  - intros (l & Hl & Hx). apply list_elem_of_In, list_elem_of_fmap in Hl as (g & -> & [i Hi]%list_elem_of_lookup).
    exists i, g. split; [done|]. by apply list_elem_of_In.
  - intros (i & g & Hi & Hx). exists (acts g). split; [|by apply list_elem_of_In].
    apply list_elem_of_In, list_elem_of_fmap. exists g. split; [done|]. by eapply list_elem_of_lookup_2.
Qed.

(** ** What one step does to the ledger *)

(** Releases that concern neither a channel nor a count. *)
Definition quiet (x : action) : Prop := match x with AYield | AResign | AStopHeartbeat => True | _ => False end.

Inductive gmove (s : Semaphores) (A : list action) : Semaphores → list action → Prop :=
| gv_same l A' : Forall quiet l → A' ≡ₚ l ++ A → gmove s A s A'
| gv_send a s' A' : semSend a s = Some s' → A' ≡ₚ ARecv a :: A → gmove s A s' A'
| gv_ref r key cap s' a A' : 1 ≤ cap → r ≠ kindSemaphores → acquireRef r key cap s = (s', a) →
    A' ≡ₚ ADropRef r key a :: A → gmove s A s' A'
| gv_kind kind cap s' a A' : 1 ≤ cap → entryOf kindSemaphores kind cap s = (s', a) → A' ≡ₚ A → gmove s A s' A'.

Lemma gmove_ledger s A s' A' rest : gmove s A s' A' → ledger s (A ++ rest) → ledger s' (A' ++ rest).
Proof.
  intros [l B Hq ->|a t B Hs ->|r key cap t a B Hc Hr Hs ->|kind cap t a B Hc Hs ->] HL.
  - induction Hq as [|x l Hx Hl IH]; [done|]. simpl. apply ledger_neutral; [by destruct x|done].
  - by apply (ledger_send s).
  - by apply (ledger_ref _ _ cap s).
  - by apply (ledger_kind kind cap s _ a).
Qed.

(** Counts other than those of channels and references stay. *)
Definition counted (x : action) : Prop :=
  match x with AClosePipeline | AForgetPipeline | AQueueDone | AWgDone => True | _ => False end.

Lemma gmove_counted s A s' A' x : gmove s A s' A' → counted x → occ (eq x) A' = occ (eq x) A.
Proof.
  intros [l B Hq ->|a t B Hs ->|r key cap t a B Hc Hr Hs ->|kind cap t a B Hc Hs ->] Hx; try done.
  - rewrite occ_app. rewrite <-(Z.add_0_l (occ _ A)) at 2. f_equal. unfold occ. rewrite filter_none; [done|].
    eapply Forall_impl; [exact Hq|]. intros y Hy <-. by destruct x.
  - rewrite occ_cons, decide_False; [done|]. by intros ->.
  - rewrite occ_cons, decide_False; [done|]. by intros ->.
Qed.

(** The parts of a goroutine that its steps never change. *)
Definition sameGor (g g' : Goroutine) : Prop :=
  ID (g_row g') = ID (g_row g) ∧ Queue (g_row g') = Queue (g_row g) ∧ Kind (g_row g') = Kind (g_row g) ∧
  PipelineID (g_row g') = PipelineID (g_row g) ∧ Tags (g_row g') = Tags (g_row g) ∧ g_ready g' = g_ready g.

Lemma sameGor_refl g : sameGor g g.
Proof. by split_and!. Qed.
#[export] Hint Resolve sameGor_refl : core.

(** The parts of the machine that a goroutine's own steps never change. *)
Record sameCore {S} (m m' : Machine S) : Prop := {
  sc_pool : mc_pool m' = mc_pool m;
  sc_states : ∀ queue, qs_active (stateOf (mc_states m') queue) = qs_active (stateOf (mc_states m) queue);
  sc_tails : mc_tails m' = mc_tails m;
  sc_closed : mc_closed m' = mc_closed m;
  sc_cursor : mc_cursor m' = mc_cursor m;
  sc_wg : mc_wg m' = mc_wg m;
  sc_started : mc_started m' = mc_started m;
  sc_shutdown : mc_shutdown m' = mc_shutdown m;
  sc_disp : mc_disp m' = mc_disp m
}.

Lemma sameCore_refl {S} (m : Machine S) : sameCore m m.
Proof. by split. Qed.
#[export] Hint Resolve sameCore_refl : core.

(** The limits a goroutine has read off its policy are positive. *)
Definition pcLimits (at_ : pc) : Prop :=
  match at_ with
  | PKeys rules _ | PKeyWait _ rules _ _ _ => Forall (λ x, 1 ≤ kc_Limit x.2) rules
  | _ => True
  end.

(** Goroutine [i], standing at [g], makes a step of its own. *)
Definition ownStep {S} (i : nat) (g : Goroutine) (m m' : Machine S) : Prop :=
  ∃ g', mc_gors m' = <[i := g']> (mc_gors m) ∧ gmove (mc_sems m) (acts g) (mc_sems m') (acts g') ∧
    sameGor g g' ∧ sameCore m m' ∧ pcLimits (g_pc g').

Lemma expand_rows row row' (fs : list frame) : PipelineID row' = PipelineID row → expand row' <$> fs = expand row <$> fs.
Proof. intros E. apply list_fmap_ext. intros _ f _. destruct f; simpl; try done. by rewrite E. Qed.

(** A step that touches no channel. *)
Lemma ownStep_same {S} i g (m m' : Machine S) g' l :
  mc_gors m' = <[i := g']> (mc_gors m) → mc_sems m' = mc_sems m → sameGor g g' → sameCore m m' → pcLimits (g_pc g') →
  Forall quiet l → acts g' ≡ₚ l ++ acts g → ownStep i g m m'.
Proof. intros Hg Hs ? ? ? ? ?. exists g'. split_and!; [done| |done..]. rewrite Hs. by apply gv_same with l. Qed.

Lemma ownStep_send {S} i g (m : Machine S) a sems g' :
  semSend a (mc_sems m) = Some sems → sameGor g g' → pcLimits (g_pc g') → acts g' ≡ₚ ARecv a :: acts g →
  ownStep i g m (set_gor i g' (set_sems sems m)).
Proof. intros Hs ? ? ?. exists g'. split_and!; [done| |done| |done]. - by apply gv_send with a. - by split. Qed.

Lemma ownStep_ref {S} i g (m : Machine S) r key cap a sems g' :
  1 ≤ cap → r ≠ kindSemaphores → acquireRef r key cap (mc_sems m) = (sems, a) → sameGor g g' → pcLimits (g_pc g') →
  acts g' ≡ₚ ADropRef r key a :: acts g → ownStep i g m (set_gor i g' (set_sems sems m)).
Proof.
  intros Hc Hr Hs ? ? ?. exists g'. split_and!; [done| |done| |done]. - by apply gv_ref with r key cap a. - by split.
Qed.

Section machine.
Context {S : Type} `{WorkerStore S} `{CursorStore S} `{MapRange} `{FloatConv}.
Context (reg : Registry) (name : string) (caps : Capabilities) (lifecycle : bool).
Implicit Types m : Machine S.

Lemma electLease_frame row m m' r :
  electLease row m = (m', r) → mc_gors m' = mc_gors m ∧ mc_sems m' = mc_sems m ∧ sameCore m m'.
Proof.
  unfold electLease. destruct (leaseOf _ _) as [lease owner]. destruct (ws_elect _ _) as [s' r'].
  intros [= <- <-]. by split_and!.
Qed.

Lemma markStart_row p row (e : RunEnv S) e' row' t :
  markStart p lifecycle row e = (e', (row', t)) →
  ID row' = ID row ∧ Queue row' = Queue row ∧ Kind row' = Kind row ∧ PipelineID row' = PipelineID row ∧ Tags row' = Tags row.
Proof.
  unfold markStart. destruct (runNow e) as [t0 e0].
  destruct ws_markStarted as [mark|]; [destruct (mark _ _) as [s' [[]|err]]|]; intros [= _ <- _]; done.
Qed.

Lemma keyRules_limits p row : keyLimits p → Forall (λ x, 1 ≤ kc_Limit x.2) (keyRules p row).
Proof.
  intros Hk. apply Forall_lookup. intros j x. unfold keyRules. rewrite list_lookup_imap.
  destruct (_ !! j) as [rule|] eqn:E; simpl; [|done]. intros [= <-]. simpl.
  specialize (Hk (Queue row)). rewrite Forall_lookup in Hk. eauto.
Qed.

(** A step outside the deferred calls. *)
Lemma advance_own i g m m' :
  keyLimits (mc_pool m) → mc_gors m !! i = Some g → g_todo g = [] → pcLimits (g_pc g) →
  advance reg lifecycle i g m = Some m' → ownStep i g m m'.
Proof.
  intros Hk Hi Htodo Hlim. unfold advance.
  assert (∀ g' (m1 : Machine S), mc_gors m1 = mc_gors m → mc_sems m1 = mc_sems m → sameCore m m1 → sameGor g g' →
    pcLimits (g_pc g') → acts g' = acts g → ownStep i g m (set_gor i g' m1)) as Hsame.
  { intros g' m1 E1 E2 E3 ? ? E. eapply (ownStep_same _ _ _ _ _ []); [by simpl; rewrite E1|done|done|by destruct E3|done..|].
    by rewrite E. }
  assert (∀ g' g1, acts g1 = acts g → acts g' = acts g1 → acts g' = acts g) as Htr by congruence.
  destruct (g_pc g) as [| | | |rules acq|idx rules key a acq| |key a| |a| | | |t ctx|] eqn:Epc.
  - intros [= <-]. destruct (beats _).
    + eapply (ownStep_same _ _ _ _ _ [AStopHeartbeat]); [done..|by repeat constructor|].
      unfold acts. simpl. by rewrite Epc, Htodo.
    + apply Hsame; try done. unfold acts. simpl. by rewrite Epc.
  - destruct (g_ready g) as [k|]; [case_decide|]; intros [= <-];
      (apply Hsame; try done; unfold acts; simpl; by rewrite Epc).
  - destruct (needsLease _ _); simpl.
    + destruct (electLease (g_row g) m) as [m1 r] eqn:E. destruct (electLease_frame _ _ _ _ E) as (F1 & F2 & F3).
      destruct r as [[]|err]; intros [= <-].
      * eapply (ownStep_same _ _ _ _ _ [AResign]); [by simpl; rewrite F1|done|done|by destruct F3|done|by repeat constructor|].
        unfold acts. simpl. by rewrite Epc, Htodo.
      * eapply (ownStep_same _ _ _ _ g []); [by rewrite F1, list_insert_id|done|done|done|by rewrite Epc|done|done].
      * eapply (ownStep_same _ _ _ _ g []); [by simpl; rewrite F1, list_insert_id|done|done|by destruct F3|by rewrite Epc|done|done].
    + intros [= <-]. apply Hsame; try done. unfold acts. simpl. by rewrite Epc.
  - intros [= <-]. apply Hsame; try done; [by apply keyRules_limits|]. unfold acts. simpl. by rewrite Epc.
  - destruct rules as [|[idx rule] rules].
    + intros [= <-]. apply Hsame; try done. unfold acts. simpl. by rewrite Epc, Htodo.
    + simpl in Hlim. apply Forall_cons in Hlim as [Hl1 Hl]. destruct (acquireRef _ _ _ _) as [sems a] eqn:E. intros [= <-].
      apply (ownStep_ref _ _ _ keySemaphores _ _ _ _ _ Hl1 ltac:(done) E); [done|exact Hl|]. unfold acts. simpl. by rewrite Epc, Htodo.
  - destruct (semSend a _) as [sems|] eqn:E; simpl; [|done]. intros [= <-].
    eapply ownStep_send; [exact E|done|done|]. unfold acts. simpl. by rewrite Epc, Htodo.
  - destruct (queueRateLimits _ _) as [|r0 rs] eqn:Er.
    + intros [= <-]. apply Hsame; try done. unfold acts. simpl. by rewrite Epc.
    + destruct (acquireRef _ _ _ _) as [sems a] eqn:E. intros [= <-].
      apply (ownStep_ref _ _ _ rateGates _ 1 _ _ _ ltac:(lia) ltac:(done) E); [done..|]. unfold acts. simpl. by rewrite Epc, Htodo.
  - destruct (semSend a _) as [sems|] eqn:E; simpl; [|done]. intros [= <-].
    eapply ownStep_send; [exact E|done|done|]. unfold acts. simpl. by rewrite Epc, Htodo.
  - destruct (Opts reg _) as [opts|].
    + destruct (_ <=? 0) eqn:Ec.
      * intros [= <-]. apply Hsame; try done. unfold acts. simpl. by rewrite Epc.
      * destruct (entryOf _ _ _ _) as [sems a] eqn:E. intros [= <-]. bool_to_prop. eexists. split; [done|].
        split; [|split; [done|split; [by split|done]]]. eapply gv_kind; [|exact E|]; [lia|].
        unfold acts. simpl. by rewrite Epc.
    + intros [= <-]. apply Hsame; try done. unfold acts. simpl. by rewrite Epc.
  - destruct (semSend a _) as [sems|] eqn:E; simpl; [|done]. intros [= <-].
    eapply ownStep_send; [exact E|done|done|]. unfold acts. simpl. by rewrite Epc, Htodo.
  - destruct (semSend semChan _) as [sems|] eqn:E; simpl; [|done]. intros [= <-].
    eapply ownStep_send; [exact E|done|done|]. unfold acts. simpl. by rewrite Epc, Htodo.
  - done.
  - destruct (markStart _ _ _ _) as [e1 [row' t]] eqn:E. destruct (markStart_row _ _ _ _ _ _ E) as (? & ? & ? & Ep & ?).
    destruct (jobContext _ _ _ _) as [ctx e2]. intros [= <-]. apply Hsame; try done.
    unfold acts. simpl. rewrite Epc. by rewrite (expand_rows (g_row g)).
  - done.
  - destruct (g_defers g) as [|f fs] eqn:Ed; [done|]. intros [= <-]. apply Hsame; try done; [simpl; by rewrite Epc|].
    unfold acts. simpl. by rewrite Epc, Htodo, Ed.
Qed.

Lemma giveUp_acts g : g_todo g = [] → acts (giveUp g) ≡ₚ [AYield] ++ acts g.
Proof.
  intros Ht. unfold acts, giveUp. simpl. rewrite Ht. simpl. rewrite <-app_assoc. simpl.
  by rewrite Permutation_middle.
Qed.

Lemma bailStep_own i m m' : bailStep i m = Some m' → ∃ g, mc_gors m !! i = Some g ∧ ownStep i g m m'.
Proof.
  unfold bailStep. destruct (mc_gors m !! i) as [g|] eqn:Hi; simpl; [|done]. destruct (g_todo g) eqn:Ht; [|done].
  destruct (mayBail _ _ g); [|done]. intros [= <-]. exists g. split; [done|].
  eapply (ownStep_same _ _ _ _ _ [AYield]); [done..|by repeat constructor|by apply giveUp_acts].
Qed.

Lemma mergeRates_active (old new : gmap string queueRuntimeState) queue :
  qs_active (stateOf (mergeRates old new) queue) = qs_active (stateOf old queue).
Proof.
  unfold mergeRates, stateOf. rewrite lookup_union, map_lookup_imap.
  destruct (new !! queue) as [st|]; simpl; [|by rewrite (left_id_L None _)].
  destruct (old !! queue) as [st0|]; done.
Qed.

Lemma fromRateEnv_frame e m :
  mc_gors (fromRateEnv e m) = mc_gors m ∧ mc_sems (fromRateEnv e m) = mc_sems m ∧ sameCore m (fromRateEnv e m).
Proof. split_and!; [done|done|]. split; try done. intros queue. apply mergeRates_active. Qed.

Lemma expand_filter row (fs : list frame) :
  concat (expand row <$> filter (λ f, isRateGate f = true) fs) ++
  concat (expand row <$> filter (λ f, isRateGate f = false) fs) ≡ₚ concat (expand row <$> fs).
Proof.
  induction fs as [|f fs IH]; [done|]. rewrite !filter_cons. destruct (isRateGate f) eqn:E.
  - rewrite decide_True, decide_False by done. rewrite !fmap_cons. simpl. by rewrite <-app_assoc, IH.
  - rewrite decide_False, decide_True by done. rewrite !fmap_cons. simpl. rewrite <-IH, !app_assoc. f_equiv.
    apply Permutation_app_comm.
Qed.

Lemma permitStep_own i o m m' : permitStep lifecycle i o m = Some m' → ∃ g, mc_gors m !! i = Some g ∧ ownStep i g m m'.
Proof.
  unfold permitStep. destruct (mc_gors m !! i) as [g|] eqn:Hi; simpl; [|done].
  destruct (g_todo g) eqn:Ht; [|done]. destruct (g_pc g) eqn:Epc; try done.
  destruct (waitForRatePermit _ _ _ _ _ _ _ _ _) as [[e ok]|]; simpl; [|done].
  destruct (fromRateEnv_frame e m) as (F1 & F2 & F3). intros Hm. exists g. split; [done|]. revert Hm. destruct ok.
  - intros [= <-]. eapply (ownStep_same _ _ _ _ _ []); [done|done|done|by destruct F3|done|done|].
    unfold acts. simpl. rewrite Epc, Ht. simpl. apply expand_filter.
  - destruct (_ || _); [|done]. intros [= <-]. eapply (ownStep_same _ _ _ _ _ [AYield]);
      [done|done|done|by destruct F3|done|by repeat constructor|by apply giveUp_acts].
Qed.

Lemma finishStep_own i lost m m' : finishStep reg lifecycle i lost m = Some m' → ∃ g, mc_gors m !! i = Some g ∧ ownStep i g m m'.
Proof.
  unfold finishStep. destruct (mc_gors m !! i) as [g|] eqn:Hi; simpl; [|done].
  destruct (g_todo g) eqn:Ht; [|done]. destruct (g_pc g) eqn:Epc; try done. case_decide; [|done].
  destruct (executeRow _ _ _ _ _ _) as [e res]. intros [= <-]. exists g. split; [done|].
  eapply (ownStep_same _ _ _ _ _ []); [done..|]. unfold acts. simpl. by rewrite Epc.
Qed.

(** Cancellation changes no release. *)
Lemma cancel_own i g m e :
  mc_gors m !! i = Some g → pcLimits (g_pc g) → ownStep i g m (set_gor i (g_cancel g) (set_env e m)).
Proof. intros Hi Hl. by eapply (ownStep_same _ _ _ _ _ []). Qed.

Lemma stay_own i g m m' :
  mc_gors m !! i = Some g → pcLimits (g_pc g) → mc_gors m' = mc_gors m → mc_sems m' = mc_sems m → sameCore m m' →
  ownStep i g m m'.
Proof. intros Hi Hl E1 E2 E3. eapply (ownStep_same _ _ _ _ g []); try done. by rewrite E1, list_insert_id. Qed.

Lemma ticks_own i m m' :
  (∀ g, mc_gors m !! i = Some g → pcLimits (g_pc g)) →
  beatStep i m = Some m' ∨ renewStep i m = Some m' ∨ mstep reg name caps lifecycle (ECancel i) m = Some m' →
  ∃ g, mc_gors m !! i = Some g ∧ ownStep i g m m'.
Proof.
  intros Hl. unfold beatStep, renewStep. simpl. destruct (mc_gors m !! i) as [g|] eqn:Hi; simpl; [|naive_solver].
  specialize (Hl g eq_refl). intros Hm. exists g. split; [done|]. destruct Hm as [Hm|[Hm|Hm]].
  - case_decide; [|done]. destruct (heartbeatTick _ _ _) as [e []]; simplify_eq; [|by apply cancel_own].
    apply stay_own; try done; [by simpl; rewrite list_insert_id].
  - case_decide; [|done]. destruct (electLease (g_row g) m) as [m1 r] eqn:E.
    destruct (electLease_frame _ _ _ _ E) as (F1 & F2 & F3).
    destruct r as [[]|err]; simplify_eq; [by apply stay_own|..];
      (eapply (ownStep_same _ _ _ _ (g_cancel g) []); [by simpl; rewrite F1|done|done|by destruct F3|done..]).
  - simplify_eq. by apply (cancel_own i g m (mc_env m)).
Qed.

(** ** Sums over goroutines *)

Definition sumZ (f : Goroutine → Z) (gs : list Goroutine) : Z := foldr (λ g n, f g + n) 0 gs.

Lemma sumZ_app f gs1 gs2 : sumZ f (gs1 ++ gs2) = sumZ f gs1 + sumZ f gs2.
Proof. induction gs1; simpl; lia. Qed.

Lemma sumZ_insert f gs i g g' : gs !! i = Some g → sumZ f (<[i := g']> gs) = sumZ f gs - f g + f g'.
Proof.
  revert i. induction gs as [|x gs IH]; intros [|i] Hi; simplify_eq/=; [lia|]. rewrite (IH i) by done. lia.
Qed.

Lemma sumZ_nonneg f gs : (∀ g, 0 ≤ f g) → 0 ≤ sumZ f gs.
Proof. intros Hf. induction gs as [|g gs IH]; simpl; [lia|]. specialize (Hf g). lia. Qed.

Lemma sumZ_le f gs i g : (∀ g, 0 ≤ f g) → gs !! i = Some g → f g ≤ sumZ f gs.
Proof.
  intros Hf. revert i. induction gs as [|x gs IH]; intros [|i] Hi; simplify_eq/=.
  - pose proof (sumZ_nonneg f gs Hf). lia.
  - specialize (IH i Hi). specialize (Hf x). lia.
Qed.

Lemma occ_allActs P `{∀ x, Decision (P x)} gs : occ P (allActs gs) = sumZ (λ g, occ P (acts g)) gs.
Proof. induction gs as [|g gs IH]; [done|]. simpl. unfold allActs in *. rewrite fmap_cons. simpl. by rewrite occ_app, IH. Qed.

(** The claims of a queue that a goroutine still has to give back. *)
Definition claims (queue : string) (g : Goroutine) : Z :=
  if decide (Queue (g_row g) = queue) then occ (eq AQueueDone) (acts g) else 0.

Lemma claims_nonneg queue g : 0 ≤ claims queue g.
Proof. unfold claims. case_decide; [apply occ_nonneg|lia]. Qed.

Definition waitingRows (d : dispatcher) : list JobRow := match d with DRows rows _ _ => rows | _ => [] end.
Definition rowsOf (queue : string) (d : dispatcher) : Z :=
  Z.of_nat (length (filter (λ r, Queue r = queue) (waitingRows d))).

(** ** The invariant *)

Record acc_inv (m : Machine S) : Prop := {
  ai_ledger : ledger (mc_sems m) (allActs (mc_gors m));
  ai_limits : ∀ i g, mc_gors m !! i = Some g → pcLimits (g_pc g);
  ai_chans : ∃ cp cs, se_heap (mc_sems m) !! pendingChan = Some cp ∧ sm_cap cp = wc_MaxPending (wp_config (mc_pool m)) ∧
    se_heap (mc_sems m) !! semChan = Some cs ∧ sm_cap cs = wc_Concurrency (wp_config (mc_pool m));
  ai_named : ∀ k a, se_named (mc_sems m) !! k = Some a → (2 ≤ a)%nat;
  ai_pool : pool_inv (mc_pool m);
  ai_keys : wp_configErr (mc_pool m) = None → keyLimits (mc_pool m);
  ai_started : mc_started m = true → wp_configErr (mc_pool m) = None;
  ai_idle : mc_started m = false → mc_gors m = [] ∧ mc_disp m = DIdle;
  ai_wg : mc_wg m = occ (eq AWgDone) (allActs (mc_gors m));
  ai_close : ∀ i g, mc_gors m !! i = Some g → occ (eq AClosePipeline) (acts g) =
    if decide (PipelineID (g_row g) = "" ∨ i ∈ mc_closed m) then 0 else 1;
  ai_tails : ∀ id k, mc_tails m !! id = Some k → id ≠ "" ∧ ∃ g, mc_gors m !! k = Some g ∧ PipelineID (g_row g) = id ∧
    AForgetPipeline ∈ acts g;
  ai_quiet : mc_shutdown m = true → mc_disp m = DIdle;
  ai_closed : ∀ i, i ∈ mc_closed m → (i < length (mc_gors m))%nat;
  ai_active : ∀ queue, qs_active (stateOf (mc_states m) queue) = sumZ (claims queue) (mc_gors m) + rowsOf queue (mc_disp m)
}.

Lemma live_keys m i g : acc_inv m → mc_gors m !! i = Some g → keyLimits (mc_pool m).
Proof.
  intros Hi Hg. apply (ai_keys _ Hi). destruct (mc_started m) eqn:E; [by apply (ai_started _ Hi)|].
  destruct (ai_idle _ Hi E) as [E' _]. by rewrite E' in Hg.
Qed.

(** *** A goroutine's own steps *)

Lemma semSend_frame a s s' : semSend a s = Some s' →
  se_named s' = se_named s ∧ length (se_heap s') = length (se_heap s) ∧
  ∀ b c, se_heap s !! b = Some c → ∃ c', se_heap s' !! b = Some c' ∧ sm_cap c' = sm_cap c.
Proof.
  intros (c & Hc & Hlt & ->)%semSend_spec. simpl. rewrite length_insert. split_and!; [done|done|]. intros b d Hd.
  destruct (decide (a = b)) as [->|]; [|by rewrite list_lookup_insert_ne; eauto].
  rewrite list_lookup_insert_eq by (by eapply lookup_lt_Some). simplify_eq. eauto.
Qed.

(** Channels keep their capacity; new names are for new channels. *)
Record grows (s s' : Semaphores) : Prop := {
  gr_caps : ∀ b c, se_heap s !! b = Some c → ∃ c', se_heap s' !! b = Some c' ∧ sm_cap c' = sm_cap c;
  gr_names : ∀ k a, se_named s' !! k = Some a → se_named s !! k = Some a ∨ a = length (se_heap s)
}.

Lemma entryOf_grows r key cap s s' a : entryOf r key cap s = (s', a) → grows s s'.
Proof.
  unfold entryOf. destruct (_ !! _) as [b|] eqn:E; intros [= <- <-]; split; simpl; eauto.
  - intros b c Hb. exists c. split; [|done]. by apply lookup_app_l_Some.
  - intros k b. destruct (decide (k = (r, key))) as [->|]; [rewrite lookup_insert_eq; naive_solver|].
    rewrite lookup_insert_ne by done. by left.
Qed.

Lemma setSem_caps s a c c' b d :
  se_heap s !! a = Some c → sm_cap c' = sm_cap c → se_heap s !! b = Some d →
  ∃ d', <[a := c']> (se_heap s) !! b = Some d' ∧ sm_cap d' = sm_cap d.
Proof.
  intros Hc Hcap Hd. destruct (decide (a = b)) as [->|]; [|by rewrite list_lookup_insert_ne; eauto].
  rewrite list_lookup_insert_eq by (by eapply lookup_lt_Some). simplify_eq. eauto.
Qed.

Lemma acquireRef_grows r key cap s s' a : acquireRef r key cap s = (s', a) → grows s s'.
Proof.
  unfold acquireRef. destruct (entryOf r key cap s) as [s1 b] eqn:E. destruct (entryOf_grows _ _ _ _ _ _ E) as [G1 G2].
  destruct (se_heap s1 !! b) as [c|] eqn:Hc; intros [= <- <-]; [|by split]. split; [|done]. simpl. intros d c0 Hd.
  destruct (G1 _ _ Hd) as (c1 & Hc1 & <-). by eapply setSem_caps.
Qed.

Lemma dropRef_grows r key a s : grows s (dropRef r key a s).
Proof.
  unfold dropRef. destruct (se_heap s !! a) as [c|] eqn:Hc; [|split; eauto]. split; simpl.
  - intros b d Hd. by eapply setSem_caps.
  - intros k b. case_match; [intros [_ Hk]%lookup_delete_Some|]; eauto.
Qed.

Lemma semRecv_grows a s s' : semRecv a s = Some s' → grows s s'.
Proof.
  unfold semRecv. destruct (se_heap s !! a) as [c|] eqn:Hc; simpl; [|done]. case_match; [|done]. intros [= <-].
  split; simpl; [|eauto]. intros b d Hd. by eapply setSem_caps.
Qed.

Lemma gmove_grows s A s' A' : gmove s A s' A' → grows s s'.
Proof.
  intros [l B Hq _|a t B Hs _|r key cap t a B Hc Hr Hs _|kind cap t a B Hc Hs _].
  - split; eauto.
  - destruct (semSend_frame _ _ _ Hs) as (E & _ & Hcap). split; [done|]. rewrite E. eauto.
  - by eapply acquireRef_grows.
  - by eapply entryOf_grows.
Qed.

Lemma chans_grow m s' :
  acc_inv m → grows (mc_sems m) s' →
  (∃ cp cs, se_heap s' !! pendingChan = Some cp ∧ sm_cap cp = wc_MaxPending (wp_config (mc_pool m)) ∧
    se_heap s' !! semChan = Some cs ∧ sm_cap cs = wc_Concurrency (wp_config (mc_pool m))) ∧
  (∀ k a, se_named s' !! k = Some a → (2 ≤ a)%nat).
Proof.
  intros Hi [G1 G2]. destruct (ai_chans _ Hi) as (cp & cs & K1 & <- & K2 & <-). split.
  - destruct (G1 _ _ K1) as (cp' & ? & <-). destruct (G1 _ _ K2) as (cs' & ? & <-). eauto 10.
  - intros k a [Hk| ->]%G2; [by eapply ai_named|]. apply lookup_lt_Some in K2. unfold semChan in K2. lia.
Qed.

Lemma ownStep_inv i g m m' : acc_inv m → mc_gors m !! i = Some g → ownStep i g m m' → acc_inv m'.
Proof.
  intros Hi Hg (g' & Egs & Hmv & (_ & HQ & _ & HP & _) & [C1 C2 C3 C4 C5 C6 C7 C8 C9] & Hl).
  destruct (allActs_split _ _ _ Hg) as (rest & Hs1 & Hs2).
  destruct (chans_grow _ _ Hi (gmove_grows _ _ _ _ Hmv)) as [Hch Hnm].
  assert (∀ x, counted x → occ (eq x) (acts g') = occ (eq x) (acts g)) as Hocc by (intros; by eapply gmove_counted).
  split.
  - rewrite Egs, Hs2. eapply gmove_ledger; [exact Hmv|]. rewrite <-Hs1. by apply ai_ledger.
  - intros j h. rewrite Egs. intros [(-> & <- & _)|[_ Hh]]%list_lookup_insert_Some; [done|]. by eapply ai_limits.
  - by rewrite C1.
  - done.
  - rewrite C1. by apply ai_pool.
  - rewrite C1. by apply ai_keys.
  - rewrite C1, C7. by apply ai_started.
  - rewrite C7, C9, Egs. intros E. destruct (ai_idle _ Hi E) as [E' ?]. by rewrite E' in Hg.
  - rewrite C6, Egs, Hs2, (ai_wg _ Hi), Hs1, !occ_app, Hocc by done. done.
  - intros j h. rewrite Egs, C4. intros [(-> & <- & _)|[_ Hh]]%list_lookup_insert_Some; [|by apply ai_close].
    rewrite Hocc, HP by done. by apply ai_close.
  - intros id k. rewrite C3, Egs. intros Hk. destruct (ai_tails _ Hi _ _ Hk) as (Hid & h & Hh & Hp & Hin). split; [done|].
    destruct (decide (i = k)) as [->|]; [|by exists h; rewrite list_lookup_insert_ne].
    simplify_eq. exists g'. rewrite list_lookup_insert_eq by (by eapply lookup_lt_Some). rewrite HP. split_and!; [done..|].
    apply elem_of_occ. rewrite Hocc by done. by apply elem_of_occ.
  - rewrite C8, C9. by apply ai_quiet.
  - intros j. rewrite C4, Egs, length_insert. by apply ai_closed.
  - intros queue. rewrite C2, C9, Egs, (sumZ_insert _ _ _ _ _ Hg), (ai_active _ Hi).
    assert (claims queue g' = claims queue g) as ->; [|lia]. unfold claims. by rewrite HQ, Hocc.
Qed.

(** *** Releases *)

Lemma acts_pop g x todo : g_todo g = x :: todo → acts g = x :: acts (g_set_todo todo g).
Proof. intros E. unfold acts. simpl. by rewrite E. Qed.

Lemma queueDone_active queue m q :
  1 ≤ qs_active (stateOf (mc_states m) queue) →
  qs_active (stateOf (mc_states (queueDone queue m)) q) =
    qs_active (stateOf (mc_states m) q) - (if decide (queue = q) then 1 else 0).
Proof.
  unfold queueDone, stateOf. destruct (mc_states m !! queue) as [st|] eqn:E; simpl; [|lia].
  intros Hpos. rewrite (proj2 (Z.ltb_lt _ _)) by lia. simpl. case_decide; subst.
  - by rewrite lookup_insert_eq, E.
  - rewrite lookup_insert_ne by done. lia.
Qed.

Lemma queueDone_frame queue m :
  queueDone queue m = set_states (mc_states (queueDone queue m)) m.
Proof. unfold queueDone. destruct (mc_states m !! queue); [case_match|]; by destruct m. Qed.

(** What one release does to the machine besides the goroutine itself. *)
Record released (i : nat) (g : Goroutine) (x : action) (m m' : Machine S) : Prop := {
  rl_gors : mc_gors m' = mc_gors m;
  rl_pool : mc_pool m' = mc_pool m;
  rl_started : mc_started m' = mc_started m;
  rl_disp : mc_disp m' = mc_disp m;
  rl_shutdown : mc_shutdown m' = mc_shutdown m;
  rl_grows : grows (mc_sems m) (mc_sems m');
  rl_ledger : ∀ rest, ledger (mc_sems m) (x :: rest) → ledger (mc_sems m') rest;
  rl_wg : mc_wg m' = mc_wg m - (if decide (x = AWgDone) then 1 else 0);
  rl_closed : mc_closed m' = if decide (x = AClosePipeline) then {[i]} ∪ mc_closed m else mc_closed m;
  rl_tails : ∀ id k, mc_tails m' !! id = Some k →
    mc_tails m !! id = Some k ∧ (x = AForgetPipeline → k = i → PipelineID (g_row g) ≠ id);
  rl_active : (∀ queue, 0 ≤ qs_active (stateOf (mc_states m) queue)) →
    (x = AQueueDone → 1 ≤ qs_active (stateOf (mc_states m) (Queue (g_row g)))) → ∀ queue,
    qs_active (stateOf (mc_states m') queue) = qs_active (stateOf (mc_states m) queue) -
      (if decide (x = AQueueDone ∧ Queue (g_row g) = queue) then 1 else 0)
}.

Lemma grows_refl s : grows s s.
Proof. split; eauto. Qed.
#[local] Hint Resolve grows_refl : core.

Lemma neutral_pop s x : neutral x → ∀ rest, ledger s (x :: rest) → ledger s rest.
Proof. intros Hx rest. by apply ledger_neutral. Qed.

Lemma perform_released i g x m m' :
  (x = AClosePipeline → i ∉ mc_closed m) → perform i (g_row g) x m = Some m' → released i g x m m'.
Proof.
  intros Hnc. destruct x as [|a|r key a| | | | | |]; simpl.
  - intros [= <-]. split; simpl; try done; try (by intros ???; split); [(apply neutral_pop; exact I)|lia|intros; repeat case_decide; naive_solver lia].
  - destruct (semRecv a (mc_sems m)) as [sems|] eqn:E; simpl; [|done]. intros [= <-].
    split; simpl; try done; try (by intros ???; split); [by eapply semRecv_grows| |lia|intros; repeat case_decide; naive_solver lia].
    intros rest HL. destruct (ledger_recv _ _ _ HL) as (s' & E' & HL' & _). by simplify_eq.
  - intros [= <-]. split; simpl; try done; try (by intros ???; split); [apply dropRef_grows|apply ledger_drop|lia|intros; repeat case_decide; naive_solver lia].
  - destruct (ws_resign _ _) as [s' err]. intros [= <-].
    split; simpl; try done; try (by intros ???; split); [(apply neutral_pop; exact I)|lia|intros; repeat case_decide; naive_solver lia].
  - intros [= <-]. split; simpl; try done; try (by intros ???; split); [(apply neutral_pop; exact I)|lia|intros; repeat case_decide; naive_solver lia].
  - case_decide as Hc; [by destruct (Hnc eq_refl)|]. intros [= <-].
    split; simpl; try done; try (by intros ???; split); [(apply neutral_pop; exact I)|lia|intros; repeat case_decide; naive_solver lia].
  - intros [= <-]. case_decide as Ht; split; simpl; try done;
      [(apply neutral_pop; exact I)|lia|intros id k [? ?]%lookup_delete_Some; by split|intros; lia
      |(apply neutral_pop; exact I)|lia|intros id k Hk; split; [done|intros _ -> <-; done]|intros; lia].
  - intros [= <-]. pose proof (queueDone_frame (Queue (g_row g)) m) as E. rewrite E.
    split; simpl; try done; try (by intros ???; split); [(apply neutral_pop; exact I)|lia|].
    intros _ Hpos queue. rewrite queueDone_active by auto. f_equal. do 2 case_decide; naive_solver.
  - intros [= <-]. split; simpl; try done; try (by intros ???; split); [(apply neutral_pop; exact I)|intros; repeat case_decide; naive_solver lia].
Qed.

Lemma active_nonneg m queue : acc_inv m → 0 ≤ qs_active (stateOf (mc_states m) queue).
Proof.
  intros Hi. rewrite (ai_active _ Hi). pose proof (sumZ_nonneg (claims queue) (mc_gors m) (claims_nonneg queue)).
  unfold rowsOf. lia.
Qed.

(** The machine after goroutine [i] has performed [x]. *)
Lemma pop_inv i g x todo m m1 :
  acc_inv m → mc_gors m !! i = Some g → g_todo g = x :: todo → perform i (g_row g) x m = Some m1 →
  acc_inv (set_gor i (g_set_todo todo g) m1).
Proof.
  intros Hi Hg Ht Hp. pose proof (acts_pop _ _ _ Ht) as Ha. set (g' := g_set_todo todo g) in *.
  assert (x = AClosePipeline → i ∉ mc_closed m) as Hnc.
  { intros -> Hc. pose proof (ai_close _ Hi _ _ Hg) as E. rewrite decide_True in E by auto.
    rewrite Ha, occ_cons, decide_True in E by done. pose proof (occ_nonneg (eq AClosePipeline) (acts g')). lia. }
  destruct (perform_released _ _ _ _ _ Hnc Hp) as [L1 L2 L3 L4 L5 L6 L7 L8 L9 LT L10].
  destruct (allActs_split _ _ _ Hg) as (rest & Hs1 & Hs2). destruct (chans_grow _ _ Hi L6) as [Hch Hnm].
  assert (∀ queue, claims queue g' = claims queue g - (if decide (x = AQueueDone ∧ Queue (g_row g) = queue) then 1 else 0)) as Hcl.
  { intros queue. unfold claims. rewrite Ha, occ_cons. simpl. destruct (decide (Queue (g_row g) = queue)) as [Eq|Eq].
    - destruct (decide (AQueueDone = x)) as [<-|Hx].
      + rewrite (decide_True (P := _ ∧ _)) by done. lia.
      + rewrite (decide_False (P := _ ∧ _)) by (by intros [-> _]). lia.
    - rewrite (decide_False (P := _ ∧ _)) by (by intros [_ ?]). lia. }
  assert (x = AQueueDone → 1 ≤ qs_active (stateOf (mc_states m) (Queue (g_row g)))) as Hq1.
  { intros ->. rewrite (ai_active _ Hi). pose proof (sumZ_le _ _ _ _ (claims_nonneg (Queue (g_row g))) Hg) as Hle.
    pose proof (claims_nonneg (Queue (g_row g)) g') as Hn. rewrite Hcl, decide_True in Hn by done. unfold rowsOf. lia. }
  split; simpl.
  - rewrite L1, Hs2. apply L7. change (x :: acts g' ++ rest) with ((x :: acts g') ++ rest). rewrite <-Ha, <-Hs1. by apply ai_ledger.
  - intros j h. rewrite L1. intros [(-> & <- & _)|[_ Hh]]%list_lookup_insert_Some; [exact (ai_limits _ Hi _ _ Hg)|by eapply ai_limits].
  - by rewrite L2.
  - done.
  - rewrite L2. by apply ai_pool.
  - rewrite L2. by apply ai_keys.
  - rewrite L2, L3. by apply ai_started.
  - rewrite L3, L4, L1. intros E. destruct (ai_idle _ Hi E) as [E' ?]. by rewrite E' in Hg.
  - rewrite L8, L1, Hs2, (ai_wg _ Hi), Hs1, !occ_app, Ha, occ_cons.
    destruct (decide (x = AWgDone)) as [->|]; [rewrite decide_True by done|rewrite decide_False by done]; lia.
  - intros j h. rewrite L1, L9. intros [(-> & <- & _)|[Hne Hh]]%list_lookup_insert_Some.
    + pose proof (ai_close _ Hi _ _ Hg) as E. rewrite Ha, occ_cons in E. simpl.
      pose proof (occ_nonneg (eq AClosePipeline) (acts g')). destruct (decide (x = AClosePipeline)) as [->|].
      * rewrite decide_True in E by done. rewrite (decide_True (P := _ ∨ _)) by set_solver.
        destruct (decide (_ ∨ _)) in E; lia.
      * rewrite decide_False in E by done. lia.
    + rewrite (ai_close _ Hi _ _ Hh). apply decide_ext. destruct (decide (x = AClosePipeline)); set_solver.
  - intros id k (Hk & Hne)%LT. rewrite L1. destruct (ai_tails _ Hi _ _ Hk) as (Hid & h & Hh & Hpid & Hin). split; [done|].
    destruct (decide (i = k)) as [->|]; [|by exists h; rewrite list_lookup_insert_ne].
    simplify_eq. exists g'. rewrite list_lookup_insert_eq by (by eapply lookup_lt_Some). split_and!; [done..|].
    rewrite Ha in Hin. apply elem_of_cons in Hin as [<-|]; [|done]. by destruct (Hne eq_refl eq_refl).
  - rewrite L5, L4. by apply ai_quiet.
  - intros j. rewrite L9, L1, length_insert. destruct (decide (x = AClosePipeline)); [|by apply ai_closed].
    intros [->%elem_of_singleton|]%elem_of_union; [by eapply lookup_lt_Some|by apply ai_closed].
  - intros queue. rewrite L10, L4, L1, (sumZ_insert _ _ _ _ _ Hg), Hcl, (ai_active _ Hi); [lia| |done].
    intros q. by apply active_nonneg.
Qed.

Lemma goStep_inv i m m' : acc_inv m → goStep reg lifecycle i m = Some m' → acc_inv m'.
Proof.
  intros Hi. unfold goStep. destruct (mc_gors m !! i) as [g|] eqn:Hg; simpl; [|done].
  destruct (g_todo g) as [|x todo] eqn:Ht.
  - intros Hm. apply (ownStep_inv i g m); [done..|]. eapply advance_own; try done; [by eapply live_keys|by eapply ai_limits].
  - destruct (perform _ _ _ _) as [m1|] eqn:E; simpl; [|done]. intros [= <-]. by eapply pop_inv.
Qed.

(** *** The dispatcher *)

Definition baseFrames : list frame := [FPipelineDone; FQueueDone; FPending; FWg].

Lemma launch_spec row m m' :
  launch row m = Some m' → ∃ ready sems,
    semSend pendingChan (mc_sems m) = Some sems ∧
    let g := mkGoroutine row ready false (CtxRoot 0) PStart [] baseFrames in
    mc_gors m' = mc_gors m ++ [g] ∧ mc_sems m' = sems ∧ mc_wg m' = mc_wg m + 1 ∧ mc_closed m' = mc_closed m ∧
    mc_pool m' = mc_pool m ∧ mc_states m' = mc_states m ∧ mc_started m' = mc_started m ∧ mc_disp m' = mc_disp m ∧
    mc_shutdown m' = mc_shutdown m ∧
    ((PipelineID row = "" ∧ ready = None ∧ mc_tails m' = mc_tails m) ∨
     (PipelineID row ≠ "" ∧ ready = mc_tails m !! PipelineID row ∧
      mc_tails m' = <[PipelineID row := length (mc_gors m)]> (mc_tails m))).
Proof.
  unfold launch, pipelineGate. case_bool_decide as Hid; simpl;
    (destruct (semSend pendingChan (mc_sems m)) as [sems|] eqn:E; simpl; [|done]); intros [= <-]; simpl;
    eexists _, sems; (split; [done|]); simpl; split_and!; try done; auto.
Qed.

Lemma spawned_acts row ready :
  acts (mkGoroutine row ready false (CtxRoot 0) PStart [] baseFrames) =
    (if bool_decide (PipelineID row = "") then [] else [AClosePipeline; AForgetPipeline]) ++
    [AQueueDone; ARecv pendingChan; AWgDone].
Proof. unfold acts, baseFrames. simpl. by case_bool_decide. Qed.

Lemma launch_inv row rows free misses m m' :
  acc_inv m → mc_disp m = DRows (row :: rows) free misses → launch row m = Some m' →
  acc_inv (set_disp (DRows rows free misses) m').
Proof.
  intros Hi Hd (ready & sems & Hs & Egs & Esm & Ewg & Ecl & Ep & Est & Esd & Edi & Esh & Etl)%launch_spec.
  set (g := mkGoroutine row ready false (CtxRoot 0) PStart [] baseFrames) in *.
  assert (acts g = (if bool_decide (PipelineID row = "") then [] else [AClosePipeline; AForgetPipeline]) ++
    [AQueueDone; ARecv pendingChan; AWgDone]) as Ha by apply spawned_acts.
  assert (gmove (mc_sems m) [] sems [ARecv pendingChan]) as Hmv by (by eapply gv_send).
  destruct (chans_grow _ _ Hi (gmove_grows _ _ _ _ Hmv)) as [Hch Hnm].
  split; simpl.
  - rewrite Esm, Egs, allActs_app, allActs_one, Ha.
    assert (ledger sems ([ARecv pendingChan] ++ allActs (mc_gors m))) as HL.
    { eapply gmove_ledger; [exact Hmv|]. by apply ai_ledger. }
    rewrite (Permutation_app_comm (allActs _)). simpl in HL.
    case_bool_decide; simpl; repeat (rewrite ledger_neutral by exact I);
      rewrite Permutation_swap, ledger_neutral by exact I; done.
  - intros j h. rewrite Egs. intros [Hh|[_ Hh]]%lookup_app_Some; [by eapply ai_limits|]. by apply list_lookup_singleton_Some in Hh as [_ <-].
  - by rewrite Ep, Esm.
  - by rewrite Esm.
  - rewrite Ep. by apply ai_pool.
  - rewrite Ep. by apply ai_keys.
  - rewrite Ep, Esd. by apply ai_started.
  - rewrite Esd. intros E. destruct (ai_idle _ Hi E) as [_ E']. by rewrite Hd in E'.
  - rewrite Ewg, Egs, allActs_app, occ_app, allActs_one, (ai_wg _ Hi), Ha, occ_app.
    by case_bool_decide.
  - intros j h. rewrite Egs, Ecl. intros [Hh|[Hle Hh]]%lookup_app_Some; [by apply ai_close|].
    apply list_lookup_singleton_Some in Hh as [Hj <-]. simpl.
    assert (j ∉ mc_closed m) as Hnc by (intros Hc%(ai_closed _ Hi); lia).
    rewrite Ha, occ_app. case_bool_decide; [by rewrite decide_True by auto|]. by rewrite decide_False by naive_solver.
  - intros id k Hk. rewrite Egs. assert (k = length (mc_gors m) ∧ PipelineID row = id ∧ id ≠ "" ∨ mc_tails m !! id = Some k) as [(-> & <- & Hid)|Hk'].
    { destruct Etl as [(_ & _ & E)|(Hid & _ & E)]; rewrite E in Hk; [by right|].
      apply lookup_insert_Some in Hk as [[<- <-]|[_ ?]]; [by left|by right]. }
    + split; [done|]. exists g. rewrite lookup_app_r, Nat.sub_diag by done. split_and!; [done..|].
      rewrite Ha, bool_decide_eq_false_2 by done. set_solver.
    + destruct (ai_tails _ Hi _ _ Hk') as (Hid & h & Hh & Hp & Hin). split; [done|]. exists h.
      by rewrite (lookup_app_l_Some _ _ _ _ Hh).
  - rewrite Esh. intros E. pose proof (ai_quiet _ Hi E) as E'. by rewrite Hd in E'.
  - intros j. rewrite Ecl, Egs, length_app. intros Hj%(ai_closed _ Hi). lia.
  - intros queue. rewrite Est, Egs, sumZ_app, (ai_active _ Hi), Hd. unfold rowsOf. simpl. rewrite filter_cons.
    assert (claims queue g = if decide (Queue row = queue) then 1 else 0) as ->.
    { unfold claims. rewrite Ha, occ_app. simpl. by case_bool_decide. }
    destruct (decide (Queue row = queue)); simpl; lia.
Qed.

(** The parts of the machine that the dispatcher leaves alone between launches. *)
Record sameShared (m m' : Machine S) : Prop := {
  ss_gors : mc_gors m' = mc_gors m;
  ss_sems : mc_sems m' = mc_sems m;
  ss_tails : mc_tails m' = mc_tails m;
  ss_closed : mc_closed m' = mc_closed m;
  ss_wg : mc_wg m' = mc_wg m;
  ss_started : mc_started m' = mc_started m;
  ss_shutdown : mc_shutdown m' = mc_shutdown m
}.

Lemma sameShared_inv m m' :
  acc_inv m → sameShared m m' → mc_pool m' = mc_pool m → (mc_started m = false → mc_disp m' = DIdle) → (mc_shutdown m = true → mc_disp m' = DIdle) →
  (∀ queue, qs_active (stateOf (mc_states m') queue) =
    qs_active (stateOf (mc_states m) queue) + rowsOf queue (mc_disp m') - rowsOf queue (mc_disp m)) →
  acc_inv m'.
Proof.
  intros Hi [E1 E2 E3 E4 E5 E6 E7] Ep Hd Hsh Ha. destruct Hi. split; rewrite ?E1, ?E2, ?E3, ?E4, ?E5, ?E6, ?E7, ?Ep; try done.
  - intros E. destruct (ai_idle0 E) as [? _]. split; [done|]. by apply Hd.
  - intros queue. rewrite Ha, ai_active0. lia.
Qed.

(** How one round of the dispatcher ends. *)
Inductive roundEnds (free misses : Z) (m m' : Machine S) : Prop :=
| re_done : (free ≤ 0 ∨ Z.of_nat (length (wp_queueSchedule (mc_pool m))) ≤ misses) → mc_disp m' = DIdle →
    mc_cursor m' = mc_cursor m → roundEnds free misses m m'
| re_crash : mc_disp m' = DCrashed → roundEnds free misses m m'
| re_miss queue : 0 < free → misses < Z.of_nat (length (wp_queueSchedule (mc_pool m))) →
    nextSlot (mc_pool m) (mc_cursor m) = (mc_cursor m', Some queue) → mc_disp m' = DLoop free (misses + 1) →
    roundEnds free misses m m'
| re_claim queue rows : 0 < free → misses < Z.of_nat (length (wp_queueSchedule (mc_pool m))) →
    nextSlot (mc_pool m) (mc_cursor m) = (mc_cursor m', Some queue) →
    (0 < qp_Concurrency (queuePolicy (mc_pool m) queue) →
      qs_active (stateOf (mc_states m) queue) < qp_Concurrency (queuePolicy (mc_pool m) queue)) →
    rows ≠ [] → (∃ s s', ws_fetch s (fetchParams (mc_pool m) queue) = (s', Ok rows)) →
    mc_disp m' = DRows (sort_by startLess rows) (free - 1) 0 → roundEnds free misses m m'.

Lemma stateOf_self (states : gmap string queueRuntimeState) queue q : stateOf (<[queue := stateOf states queue]> states) q = stateOf states q.
Proof.
  unfold stateOf. destruct (decide (queue = q)) as [->|]; [by rewrite lookup_insert_eq|by rewrite lookup_insert_ne].
Qed.

Lemma dispatchRound_spec free misses m :
  let m' := dispatchRound free misses m in
  sameShared m m' ∧ mc_pool m' = mc_pool m ∧ roundEnds free misses m m' ∧
  ∀ queue, qs_active (stateOf (mc_states m') queue) = qs_active (stateOf (mc_states m) queue) +
    match mc_disp m' with
    | DRows _ _ _ => if decide ((nextSlot (mc_pool m) (mc_cursor m)).2 = Some queue) then 1 else 0
    | _ => 0
    end.
Proof.
  cbv zeta. unfold dispatchRound.
  destruct (negb _) eqn:Eg.
  { split_and!; [by split|done|apply re_done; [|done|done]|intros; simpl; lia].
    apply negb_true_iff, andb_false_iff in Eg. rewrite !Z.ltb_ge in Eg. lia. }
  apply negb_false_iff in Eg. bool_to_prop. destruct (nextSlot (mc_pool m) (mc_cursor m)) as [cursor [queue|]] eqn:En.
  2: { split_and!; [by split|done|by apply re_crash|intros; simpl; lia]. }
  unfold queueCanClaim. simpl. destruct (negb (negb _)) eqn:Ec.
  { split_and!; [by split|done|by apply re_miss with queue|]. intros q. simpl. rewrite stateOf_self. lia. }
  destruct (ws_fetch _ _) as [s' [[|row rows]|err]] eqn:Ef.
  - split_and!; [by split|done|by apply re_miss with queue|]. intros q. simpl. rewrite stateOf_self. lia.
  - split_and!; [by split|done|apply re_claim with queue (row :: rows); eauto|].
    + intros Hc. rewrite (proj2 (Z.ltb_lt _ _) Hc) in Ec. simpl in Ec. apply negb_false_iff, negb_true_iff, Z.leb_gt in Ec. lia.
    + intros q. simpl. unfold queueClaimed. simpl. rewrite !stateOf_self. unfold stateOf at 1. destruct (decide (queue = q)) as [<-|].
      * rewrite lookup_insert_eq, decide_True by done. done.
      * rewrite lookup_insert_ne, decide_False by naive_solver.
        fold (stateOf (<[queue:=stateOf (mc_states m) queue]> (mc_states m)) q). rewrite stateOf_self. lia.
  - split_and!; [by split|done|by apply re_miss with queue|]. intros q. simpl. rewrite stateOf_self. lia.
Qed.

Lemma rowsOf_sorted queue rows free misses : rowsOf queue (DRows (sort_by startLess rows) free misses) =
  Z.of_nat (length (filter (λ r, Queue r = queue) rows)).
Proof. unfold rowsOf. simpl. by rewrite (sort_by_perm startLess rows). Qed.

Context `{!LawfulFetch S}.

Lemma fetched_one m queue rows :
  rows ≠ [] → (∃ s s', ws_fetch s (fetchParams (mc_pool m) queue) = (s', Ok rows)) → ∃ row, rows = [row] ∧ Queue row = queue.
Proof.
  intros Hne (s & s' & Hf). pose proof (fetch_limit _ _ _ _ Hf ltac:(simpl; lia)) as Hl. pose proof (fetch_queue _ _ _ _ Hf) as Hq.
  destruct rows as [|row [|r2 rows]]; [done| |simpl in Hl; lia]. exists row. split; [done|]. exact (proj1 (proj1 (Forall_cons _ _ _) Hq)).
Qed.

Lemma dispatch_inv m m' : acc_inv m → dispatch m = Some m' → acc_inv m'.
Proof.
  intros Hi. unfold dispatch. destruct (mc_disp m) as [|free misses|[|row rows] free misses|] eqn:Ed; [done| | | |done].
  - intros [= <-]. destruct (dispatchRound_spec free misses m) as (Hs & Hp & He & Ha).
    apply (sameShared_inv m); [done..| | |].
    + intros Es. by rewrite (proj2 (ai_idle _ Hi Es)) in Ed.
    + intros Es. by rewrite (ai_quiet _ Hi Es) in Ed.
    + intros queue. rewrite Ha, Ed. replace (rowsOf queue (DLoop free misses)) with 0 by done. rewrite Z.sub_0_r. f_equal.
      destruct He as [_ -> _| -> |q _ _ _ ->|q rows _ _ En _ Hne Hf ->]; try done.
      rewrite rowsOf_sorted, En. simpl. destruct (fetched_one _ _ _ Hne Hf) as (row & -> & Hq).
      rewrite filter_cons, filter_nil. destruct (decide (Queue row = queue)).
      * rewrite decide_True by congruence. done.
      * rewrite decide_False by congruence. done.
  - intros [= <-]. apply (sameShared_inv m); [done|by split|done| | |].
    + intros Es. by rewrite (proj2 (ai_idle _ Hi Es)) in Ed.
    + intros Es. by rewrite (ai_quiet _ Hi Es) in Ed.
    + intros queue. rewrite Ed. unfold rowsOf. simpl. lia.
  - destruct (launch row m) as [m1|] eqn:El; simpl; [|done]. intros [= <-]. by eapply launch_inv.
Qed.

Lemma mstep_inv ev m m' : acc_inv m → mstep reg name caps lifecycle ev m = Some m' → acc_inv m'.
Proof.
  intros Hi. destruct ev as [| | |i|i|i o|i lost|i|i|i| |queue policy|s c|queue now before]; cbn [mstep].
  - intros [= <-]. unfold Start. destruct (wp_configErr (mc_pool m)) as [err|] eqn:Ee; [done|].
    destruct (mc_started m) eqn:Es; [done|]. destruct (mc_shutdown m); simpl; (destruct Hi; by split).
  - destruct (mc_started m) eqn:Es; simpl; [|done]. unfold locked. destruct (mc_disp m) eqn:Ed; try done. intros [= <-].
    unfold beginFetch. destruct (mc_shutdown m) eqn:Eh; [done|]. destruct (_ <=? 0); [done|].
    apply (sameShared_inv m); [done|by split|done|by rewrite Es|by rewrite Eh|]. intros queue. rewrite Ed. simpl. unfold rowsOf. simpl. lia.
  - by apply dispatch_inv.
  - by apply goStep_inv.
  - intros (g & Hg & Ho)%bailStep_own. by eapply ownStep_inv.
  - intros (g & Hg & Ho)%permitStep_own. by eapply ownStep_inv.
  - intros (g & Hg & Ho)%finishStep_own. by eapply ownStep_inv.
  - intros Hm. destruct (ticks_own i m m') as (g & Hg & Ho); [by apply ai_limits|by right; right|]. by eapply ownStep_inv.
  - intros Hm. destruct (ticks_own i m m') as (g & Hg & Ho); [by apply ai_limits|by left|]. by eapply ownStep_inv.
  - intros Hm. destruct (ticks_own i m m') as (g & Hg & Ho); [by apply ai_limits|by right; left|]. by eapply ownStep_inv.
  - unfold locked. destruct (mc_disp m) eqn:Ed; try done. intros [= <-]. destruct Hi; by split.
  - destruct (locked m); [done|]. intros [= <-].
    destruct (UpdateQueuePolicy_frame name caps (mc_pool m) queue policy _ eq_refl) as (F1 & F2 & F3 & F4).
    destruct Hi. split; simpl; try done.
    + by rewrite F3, F4.
    + by apply UpdateQueuePolicy_inv.
    + rewrite F1. intros E. by apply UpdateQueuePolicy_keys, ai_keys0.
    + rewrite F1. done.
  - intros [= <-]. destruct Hi; by split.
  - destruct ws_rescue; [|done]. destruct (mc_started m) eqn:Es; [|done]. intros [= <-]. destruct Hi; by split.
Qed.

Lemma newMachine_inv cfg randomID s clk : acc_inv (newMachine (newWorkerPool name caps randomID cfg) s clk).
Proof.
  set (p := newWorkerPool name caps randomID cfg). pose proof (newWorkerPool_inv name caps randomID cfg) as Hp. fold p in Hp.
  assert (wp_configErr p = None → keyLimits p) as Hk by apply newWorkerPool_keys. clearbody p.
  split; simpl; try done.
  - pose proof (pi_capacity _ Hp) as Hc. split; simpl; try set_solver.
    + intros [|[|a]] c; simpl; intros [= <-]; simpl; (split; [done|lia]).
    + by intros [|[|a]] c; simpl; intros [= <-].
  - by eexists _, _.
Qed.

Lemma mrun_inv evs m m' : acc_inv m → mrun reg name caps lifecycle evs m = Some m' → acc_inv m'.
Proof.
  revert m. induction evs as [|ev evs IH]; intros m Hi; simpl; [by intros [= <-]|].
  destruct (mstep _ _ _ _ ev m) as [m1|] eqn:E; simpl; [|done]. by apply IH, (mstep_inv ev m).
Qed.
End machine.
