(* ===== verification/WorkerMachineShape.v ===== *)
(** * The worker machine: what a goroutine holds where it stands

    The deferred calls of a goroutine follow from where it stands, and every
    named channel has the capacity its name calls for. *)

From S2P Require Import Prelude GoBase Json Codec Core Driver RateLimit Sha256 WorkerConfig WorkerConfigProps.
From S2P Require Import WorkerRate WorkerRun WorkerSemaphores WorkerMachine WorkerMachineInv.
From Stdlib Require Import ZArith Lia.

Definition kindName (s : Semaphores) (kind : string) : option nat := se_named s !! (kindSemaphores, kind).

(** The rules of a policy with their positions, as [acquireKeyConcurrency] goes through them. *)
Definition indexed (rs : list KeyConcurrencyLimit) : list (Z * KeyConcurrencyLimit) := imap (λ i rule, (Z.of_nat i, rule)) rs.

Definition keysOf (row : JobRow) (rules : list (Z * KeyConcurrencyLimit)) : list string :=
  (λ '(index, rule), concurrencyKey row index rule) <$> rules.

Section shape.
Context (reg : Registry) (snap : string → list KeyConcurrencyLimit → Prop).
Implicit Types (s : Semaphores) (row : JobRow) (l : list frame).

Definition limited (row : JobRow) : Prop := ∃ opts, Opts reg (Kind row) = Some opts ∧ 0 < wo_Concurrency opts.

(** Acquired: [done], in order; still to come: [rest]. *)
Definition progress row (done rest : list (Z * KeyConcurrencyLimit)) (acquired : list (string * nat)) : Prop :=
  ∃ rs, snap (Queue row) rs ∧ indexed rs = done ++ rest ∧ acquired.*1 = reverse (keysOf row done).

Definition hbOk l : Prop := l = baseFrames ∨ l = FHeartbeat :: baseFrames.
Definition leaseOk l : Prop := ∃ l0, hbOk l0 ∧ (l = l0 ∨ l = FLease :: l0).
Definition keysOk row l : Prop := ∃ acquired done l0, progress row done [] acquired ∧ leaseOk l0 ∧ l = FKeys acquired :: l0.
Definition gateOk row l : Prop := ∃ l0, keysOk row l0 ∧ (l = l0 ∨ ∃ key a, l = FRateGate key a :: l0).
Definition kindOk s row l : Prop :=
  ∃ l0, gateOk row l0 ∧ ((¬ limited row ∧ l = l0) ∨ ∃ a, kindName s (Kind row) = Some a ∧ l = FToken a :: l0).
Definition semOk s row l : Prop := ∃ l0, kindOk s row l0 ∧ l = FToken semChan :: l0.
Definition runOk s row l : Prop := ∃ l0, semOk s row l0 ∧ l = filter (λ f, isRateGate f = false) l0.

(** The last thing a goroutine does is to leave the wait group. *)
Definition unwinding (g : Goroutine) : Prop :=
  (∃ l, g_defers g = l ++ [FWg]) ∨ (g_defers g = [] ∧ (g_todo g = [] ∨ g_todo g = [AWgDone])).

Definition shape s (g : Goroutine) : Prop :=
  let row := g_row g in
  (g_todo g ≠ [] → g_pc g = PUnwind ∨ g_pc g = PBegin) ∧
  match g_pc g with
  | PStart => g_defers g = baseFrames
  | PReady | PLease => hbOk (g_defers g)
  | PKeyStart => leaseOk (g_defers g)
  | PKeys rest acquired => leaseOk (g_defers g) ∧ ∃ done, progress row done rest acquired
  | PKeyWait index rest key a acquired => leaseOk (g_defers g) ∧ ∃ done rule,
      progress row done ((index, rule) :: rest) acquired ∧ key = concurrencyKey row index rule
  | PGate | PGateWait _ _ => keysOk row (g_defers g)
  | PKind => gateOk row (g_defers g)
  | PKindWait a => gateOk row (g_defers g) ∧ kindName s (Kind row) = Some a
  | PSem => kindOk s row (g_defers g)
  | PPermit => semOk s row (g_defers g)
  | PBegin | PHandler _ _ => runOk s row (g_defers g)
  | PUnwind => unwinding g
  end.

Lemma kindOk_mono s s' row l : (∀ k a, kindName s k = Some a → kindName s' k = Some a) → kindOk s row l → kindOk s' row l.
Proof. intros Hk (l0 & Hg & [Hu|(a & Ha & ->)]); exists l0; split; eauto. Qed.

Lemma shape_mono s s' g : (∀ k a, kindName s k = Some a → kindName s' k = Some a) → shape s g → shape s' g.
Proof.
  intros Hk [Ht Hs]. split; [done|]. destruct (g_pc g); try done.
  - destruct Hs; eauto.
  - by eapply kindOk_mono.
  - destruct Hs as (l0 & ? & ?). exists l0. split; [by eapply kindOk_mono|done].
  - destruct Hs as (l0 & (l1 & ? & ?) & ?). exists l0. split; [|done]. exists l1. split; [by eapply kindOk_mono|done].
  - destruct Hs as (l0 & (l1 & ? & ?) & ?). exists l0. split; [|done]. exists l1. split; [by eapply kindOk_mono|done].
Qed.

Definition endsWg l : Prop := ∃ l', l = l' ++ [FWg].

Lemma endsWg_cons f l : endsWg l → endsWg (f :: l).
Proof. intros [l' ->]. by exists (f :: l'). Qed.

Lemma leaseOk_ends l : leaseOk l → endsWg l.
Proof.
  assert (endsWg baseFrames) by by exists [FPipelineDone; FQueueDone; FPending].
  intros (l0 & [->| ->] & [->| ->]); repeat (assumption || apply endsWg_cons).
Qed.

Lemma gateOk_ends row l : gateOk row l → endsWg l.
Proof.
  intros (l0 & (acq & dn & l1 & _ & Hl%leaseOk_ends & ->) & [->|(k & a & ->)]); repeat (assumption || apply endsWg_cons).
Qed.

Lemma kindOk_ends s row l : kindOk s row l → endsWg l.
Proof. intros (l0 & Hg%gateOk_ends & [[_ ->]|(a & _ & ->)]); [done|by apply endsWg_cons]. Qed.

Lemma runOk_ends s row l : runOk s row l → endsWg l.
Proof.
  intros (l0 & (l1 & [l' ->]%kindOk_ends & ->) & ->). exists (filter (λ f, isRateGate f = false) (FToken semChan :: l')).
  by rewrite app_comm_cons, filter_app.
Qed.

(** Until it unwinds, a goroutine has the wait group to leave. *)
Lemma shape_ends s g : shape s g → g_pc g ≠ PUnwind → endsWg (g_defers g).
Proof.
  intros [_ Hs] Hne.
  assert (∀ l, hbOk l → endsWg l) as Hhb by (intros l ?; apply leaseOk_ends; exists l; auto).
  assert (∀ row l, keysOk row l → endsWg l) as Hk by (intros row l ?; eapply gateOk_ends; exists l; eauto).
  destruct (g_pc g) as [| | | |rules acq|idx rules key a acq| |key a| |a| | | |t ctx|].
  - rewrite Hs. by exists [FPipelineDone; FQueueDone; FPending].
  - by apply Hhb.
  - by apply Hhb.
  - by apply leaseOk_ends.
  - apply leaseOk_ends, Hs.
  - apply leaseOk_ends, Hs.
  - by eapply Hk.
  - by eapply Hk.
  - by eapply gateOk_ends.
  - eapply gateOk_ends, Hs.
  - by eapply kindOk_ends.
  - destruct Hs as (l0 & Hl%kindOk_ends & ->). by apply endsWg_cons.
  - by eapply runOk_ends.
  - by eapply runOk_ends.
  - done.
Qed.

(** Until then it also has its pipeline to close. *)
Definition hasBase l : Prop := ∀ f, f ∈ baseFrames → f ∈ l.

Lemma hasBase_cons f l : hasBase l → hasBase (f :: l).
Proof. intros Hl x Hx. by apply list_elem_of_further, Hl. Qed.

Lemma leaseOk_base l : leaseOk l → hasBase l.
Proof.
  assert (hasBase baseFrames) by by intros f.
  intros (l0 & [->| ->] & [->| ->]); repeat (assumption || apply hasBase_cons).
Qed.

Lemma gateOk_base row l : gateOk row l → hasBase l.
Proof.
  intros (l0 & (acq & dn & l1 & _ & Hl%leaseOk_base & ->) & [->|(k & a & ->)]); repeat (assumption || apply hasBase_cons).
Qed.

Lemma kindOk_base s row l : kindOk s row l → hasBase l.
Proof. intros (l0 & Hg%gateOk_base & [[_ ->]|(a & _ & ->)]); [done|by apply hasBase_cons]. Qed.

Lemma shape_pipeline s g : shape s g → g_pc g ≠ PUnwind → FPipelineDone ∈ g_defers g.
Proof.
  intros [_ Hs] Hne. assert (FPipelineDone ∈ baseFrames) as Hb by constructor.
  assert (∀ l, hbOk l → FPipelineDone ∈ l) as Hhb by (intros l ?; apply (leaseOk_base l); [exists l; auto|done]).
  assert (∀ row l, keysOk row l → FPipelineDone ∈ l) as Hk by (intros row l ?; apply (gateOk_base row l); [exists l; eauto|done]).
  destruct (g_pc g) as [| | | |rules acq|idx rules key a acq| |key a| |a| | | |t ctx|].
  - by rewrite Hs.
  - by apply Hhb.
  - by apply Hhb.
  - by apply (leaseOk_base _ Hs).
  - by apply (leaseOk_base _ (proj1 Hs)).
  - by apply (leaseOk_base _ (proj1 Hs)).
  - by eapply Hk.
  - by eapply Hk.
  - by apply (gateOk_base _ _ Hs).
  - by apply (gateOk_base _ _ (proj1 Hs)).
  - by apply (kindOk_base _ _ _ Hs).
  - destruct Hs as (l0 & Hl%kindOk_base & ->). by apply list_elem_of_further, Hl.
  - destruct Hs as (l0 & (l1 & Hl%kindOk_base & ->) & ->). apply list_elem_of_filter. split; [done|]. by apply list_elem_of_further, Hl.
  - destruct Hs as (l0 & (l1 & Hl%kindOk_base & ->) & ->). apply list_elem_of_filter. split; [done|]. by apply list_elem_of_further, Hl.
  - done.
Qed.

Lemma shape_unwind s g t : shape s g → g_pc g ≠ PUnwind → g_todo g = [] → shape s (g_set_todo t (g_goto PUnwind g)).
Proof.
  intros Hs Hne Ht. split; simpl; [auto|]. left. exact (shape_ends s g Hs Hne).
Qed.

(** Everything a row's shape depends on. *)
Definition sameRow row row' : Prop :=
  Queue row' = Queue row ∧ Kind row' = Kind row ∧ PipelineID row' = PipelineID row ∧ Tags row' = Tags row.

Lemma concurrencyKey_row row row' i rule : sameRow row row' → concurrencyKey row' i rule = concurrencyKey row i rule.
Proof. intros (E1 & E2 & E3 & E4). unfold concurrencyKey, rateLimitKeyValue. by rewrite E1, E2, E3, E4. Qed.

Lemma runOk_row s row row' l : sameRow row row' → runOk s row l → runOk s row' l.
Proof.
  intros Hr (l0 & (l1 & (l2 & (l3 & (acq & dn & l4 & (rs & Hsn & Hi & Ha) & Hl4 & ->) & Hgate) & Hkind) & ->) & ->).
  pose proof Hr as (E1 & E2 & E3 & E4).
  exists (FToken semChan :: l1). split; [|done]. exists l1. split; [|done]. exists l2. split.
  - exists (FKeys acq :: l4). split; [|done]. exists acq, dn, l4. split; [|done]. exists rs. rewrite E1. split_and!; [done..|].
    rewrite Ha. f_equal. apply list_fmap_ext. intros _ [i rule] _. symmetry. by apply concurrencyKey_row.
  - unfold limited in *. rewrite E2. done.
Qed.

(** What a goroutine with a permit holds. *)
Lemma runOk_spec s row l :
  runOk s row l → FToken semChan ∈ l ∧ FPipelineDone ∈ l ∧ FQueueDone ∈ l ∧ FPending ∈ l ∧ FWg ∈ l ∧
    (limited row → ∃ a, kindName s (Kind row) = Some a ∧ FToken a ∈ l) ∧
    ∃ acquired rs, FKeys acquired ∈ l ∧ snap (Queue row) rs ∧ acquired.*1 = reverse (keysOf row (indexed rs)).
Proof.
  intros (l0 & (l1 & (l2 & (l3 & (acq & dn & l4 & (rs & Hsn & Hi & Ha) & Hl4 & ->) & Hgate) & Hkind) & ->) & ->).
  assert (∀ f, isRateGate f = false → f ∈ FToken semChan :: l1 → f ∈ filter (λ f, isRateGate f = false) (FToken semChan :: l1)) as Hf.
  { intros f Hf Hin. by apply list_elem_of_filter. }
  assert (∀ f, f ∈ l2 → f ∈ l1) as H21 by (intros f Hin; destruct Hkind as [[_ ->]|(a & _ & ->)]; [done|by constructor]).
  assert (∀ f, f ∈ FKeys acq :: l4 → f ∈ l2) as H32 by (intros f Hin; destruct Hgate as [->|(k & a & ->)]; [done|by constructor]).
  assert (∀ f, f ∈ baseFrames → f ∈ l4) as H4.
  { intros f Hin. destruct Hl4 as (l5 & [->| ->] & [->| ->]); repeat (exact Hin || apply list_elem_of_further). }
  assert (∀ f, f ∈ baseFrames → f ∈ FToken semChan :: l1) as Hb.
  { intros f Hin. apply elem_of_cons. right. apply H21, H32, elem_of_cons. right. by apply H4. }
  rewrite app_nil_r in Hi. subst dn.
  assert (∀ f, f ∈ baseFrames → f ∈ filter (λ f, isRateGate f = false) (FToken semChan :: l1)) as Hbf.
  { intros f Hin. apply Hf; [|by apply Hb]. assert (Forall (λ f, isRateGate f = false) baseFrames) as Hall by repeat constructor.
    rewrite Forall_forall in Hall. by apply Hall. }
  split_and!.
  - apply Hf; [done|]. apply list_elem_of_here.
  - apply Hbf. repeat constructor.
  - apply Hbf. repeat constructor.
  - apply Hbf. repeat constructor.
  - apply Hbf. repeat constructor.
  - intros Hlim. destruct Hkind as [[Hn _]|(a & Ha' & ->)]; [done|]. exists a. split; [done|].
    apply Hf; [done|]. repeat constructor.
  - exists acq, rs. split; [|done]. apply Hf; [done|]. apply elem_of_cons. right. apply H21, H32. constructor.
Qed.

(** ** Capacities of named channels *)

Context (keyCap : string → Z → Prop).

Definition capOk (r : registry) (key : string) (n : Z) : Prop :=
  match r with
  | keySemaphores => keyCap key n
  | rateGates => n = 1
  | kindSemaphores => ∃ opts, Opts reg key = Some opts ∧ n = wo_Concurrency opts
  end.

Definition names_ok s : Prop :=
  ∀ r key a c, se_named s !! (r, key) = Some a → se_heap s !! a = Some c → capOk r key (sm_cap c).

Lemma names_setSem s a c c' : names_ok s → se_heap s !! a = Some c → sm_cap c' = sm_cap c → names_ok (setSem a c' s).
Proof.
  intros Hn Hc Hcap r key b d Hk. simpl in *. destruct (decide (a = b)) as [->|].
  - rewrite list_lookup_insert_eq by (by eapply lookup_lt_Some). intros [= <-]. rewrite Hcap. by apply (Hn r key b).
  - rewrite list_lookup_insert_ne by done. by apply Hn.
Qed.

Lemma names_entry A r key cap s s' a :
  ledger s A → names_ok s → capOk r key cap → entryOf r key cap s = (s', a) → names_ok s'.
Proof.
  intros HL Hn Hc. unfold entryOf. destruct (se_named s !! (r, key)) as [b|] eqn:E; intros [= <- <-]; [done|].
  intros r' key' b c. simpl. destruct (decide ((r', key') = (r, key))) as [[= -> ->]|Hne].
  - rewrite lookup_insert_eq. intros [= <-]. rewrite lookup_app_r, Nat.sub_diag by done. by intros [= <-].
  - rewrite lookup_insert_ne by congruence. intros Hk. destruct (le_named _ _ HL _ _ _ Hk) as (d & Hd & _).
    rewrite (lookup_app_l_Some _ _ _ _ Hd). intros [= <-]. by apply (Hn r' key' b).
Qed.

Lemma names_ref A r key cap s s' a :
  ledger s A → names_ok s → capOk r key cap → acquireRef r key cap s = (s', a) → names_ok s'.
Proof.
  intros HL Hn Hc. unfold acquireRef. destruct (entryOf r key cap s) as [s1 b] eqn:E.
  pose proof (names_entry _ _ _ _ _ _ _ HL Hn Hc E) as Hn1.
  destruct (se_heap s1 !! b) as [c|] eqn:Hb; intros [= <- <-]; [|done]. by eapply names_setSem.
Qed.

Lemma names_send a s s' : names_ok s → semSend a s = Some s' → names_ok s'.
Proof. intros Hn (c & Hc & _ & ->)%semSend_spec. by eapply names_setSem. Qed.

Lemma names_recv a s s' : names_ok s → semRecv a s = Some s' → names_ok s'.
Proof.
  intros Hn. unfold semRecv. destruct (se_heap s !! a) as [c|] eqn:Hc; simpl; [|done]. case_match; [|done].
  intros [= <-]. by eapply names_setSem.
Qed.

Lemma names_drop r key a s : names_ok s → names_ok (dropRef r key a s).
Proof.
  intros Hn. unfold dropRef. destruct (se_heap s !! a) as [c|] eqn:Hc; [|done].
  pose proof (names_setSem s a c (mkSemaphore (sm_len c) (sm_cap c) (sm_refs c - 1)) Hn Hc eq_refl) as Hn'.
  intros r' key' b d Hk Hd. simpl in *. apply (Hn' r' key' b d); [|done]. simpl.
  case_match; [by apply lookup_delete_Some in Hk as [_ ?]|done].
Qed.

(** Kinds keep their channels. *)
Definition kindsKept s s' : Prop := ∀ k a, kindName s k = Some a → kindName s' k = Some a.

Lemma entryOf_kinds r key cap s s' a : entryOf r key cap s = (s', a) → kindsKept s s'.
Proof.
  unfold entryOf. destruct (se_named s !! (r, key)) as [b|] eqn:E; intros [= <- <-] k a0 Hk; [done|]. unfold kindName in *. simpl.
  rewrite lookup_insert_ne; [done|]. intros [= -> ->]. congruence.
Qed.

Lemma acquireRef_kinds r key cap s s' a : acquireRef r key cap s = (s', a) → kindsKept s s'.
Proof.
  unfold acquireRef. destruct (entryOf r key cap s) as [s1 b] eqn:E. pose proof (entryOf_kinds _ _ _ _ _ _ E) as Hk.
  destruct (se_heap s1 !! b); by intros [= <- <-].
Qed.

Lemma drop_kinds r key a s : r ≠ kindSemaphores → kindsKept s (dropRef r key a s).
Proof.
  intros Hr k b. unfold dropRef, kindName. destruct (se_heap s !! a); [|done]. simpl. case_match; [|done].
  intros Hk. apply lookup_delete_Some. split; [congruence|done].
Qed.

Lemma send_kinds a s s' : semSend a s = Some s' → kindsKept s s'.
Proof. intros (c & _ & _ & ->)%semSend_spec k b. done. Qed.

Lemma recv_kinds a s s' : semRecv a s = Some s' → kindsKept s s'.
Proof. unfold semRecv. destruct (se_heap s !! a); simpl; [|done]. case_match; [|done]. intros [= <-] k b Hk. exact Hk. Qed.
End shape.

(** ** Steps keep the shape *)

Lemma indexed_lookup rs k x : indexed rs !! k = Some x ↔ ∃ rule, rs !! k = Some rule ∧ x = (Z.of_nat k, rule).
Proof.
  unfold indexed. rewrite list_lookup_imap. destruct (rs !! k) as [rule|]; simpl; naive_solver.
Qed.

(** The rule that comes next is the one at the index it carries. *)
Lemma indexed_next rs done index rule rest :
  indexed rs = done ++ (index, rule) :: rest → index = Z.of_nat (length done) ∧ rs !! length done = Some rule.
Proof.
  intros E. assert (indexed rs !! length done = Some (index, rule)) as Hl by (by rewrite E, list_lookup_middle).
  apply indexed_lookup in Hl as (r & Hr & [= -> ->]). done.
Qed.

Section steps.
Context {S : Type} `{WorkerStore S} `{CursorStore S} `{MapRange} `{FloatConv}.
Context (reg : Registry) (name : string) (caps : Capabilities) (lifecycle : bool).
Context (snap : string → list KeyConcurrencyLimit → Prop) (keyCap : string → Z → Prop) (queues : list string).
Context (snap_cap : ∀ row rs i rule, Queue row ∈ queues → snap (Queue row) rs → rs !! i = Some rule →
  keyCap (concurrencyKey row (Z.of_nat i) rule) (kc_Limit rule)).
Implicit Types m : Machine S.

Abbreviation shape' := (shape reg snap) (only parsing).
Abbreviation names' := (names_ok reg keyCap) (only parsing).

(** What one step does to the goroutine it concerns, and to the names. *)
Definition keepsShape (i : nat) (g : Goroutine) m m' : Prop :=
  ∃ g', mc_gors m' = <[i := g']> (mc_gors m) ∧ shape' (mc_sems m') g' ∧ names' (mc_sems m') ∧
    kindsKept (mc_sems m) (mc_sems m') ∧ sameRow (g_row g) (g_row g').

Lemma keepsShape_same i g m m1 g' :
  mc_gors m1 = mc_gors m → mc_sems m1 = mc_sems m → names' (mc_sems m) → g_row g' = g_row g → shape' (mc_sems m) g' →
  keepsShape i g m (set_gor i g' m1).
Proof.
  intros E1 E2 Hn Er Hs. exists g'. simpl. rewrite E1, E2, Er. split_and!; try done. by intros k b Hk.
Qed.

Lemma keepsShape_sems i g m sems g' :
  g_row g' = g_row g → names' sems → kindsKept (mc_sems m) sems → shape' sems g' →
  keepsShape i g m (set_gor i g' (set_sems sems m)).
Proof. intros Er Hn Hk Hs. exists g'. simpl. rewrite Er. by split_and!. Qed.

Lemma advance_shape A i g m m' :
  mc_gors m !! i = Some g → g_todo g = [] → shape' (mc_sems m) g → names' (mc_sems m) → ledger (mc_sems m) A →
  Queue (g_row g) ∈ queues → snap (Queue (g_row g)) (qp_KeyConcurrency (queuePolicy (mc_pool m) (Queue (g_row g)))) →
  advance reg lifecycle i g m = Some m' → keepsShape i g m m'.
Proof.
  intros Hi Htodo [_ Hsh] Hn HL HQ Hsnap. unfold advance.
  assert (∀ P : Prop, g_todo g ≠ [] → P) as Ht by (intros P Hne; by rewrite Htodo in Hne).
  assert (∀ g' (m1 : Machine S), mc_gors m1 = mc_gors m → mc_sems m1 = mc_sems m → g_row g' = g_row g →
    shape' (mc_sems m) g' → keepsShape i g m (set_gor i g' m1)) as Hsame by (intros; by apply keepsShape_same).
  assert (∀ l, hbOk l → leaseOk l) as Hhl by (intros l ?; exists l; auto).
  assert (∀ l, keysOk snap (g_row g) l → gateOk snap (g_row g) l) as Hkg by (intros l ?; exists l; auto).
  destruct (g_pc g) as [| | | |rules acq|idx rules key a acq| |key a| |a| | | |t ctx|] eqn:Epc.
  - intros [= <-]. apply Hsame; [done..| |]; [by destruct (beats _)|]. destruct (beats _); (split; [by apply Ht|]); simpl; rewrite Hsh; [by right|by left].
  - destruct (g_ready g) as [k|]; [case_decide|]; intros [= <-]; (apply Hsame; [done..|]; split; [by apply Ht|done]).
  - destruct (needsLease _ _); simpl.
    + destruct (electLease (g_row g) m) as [m1 r] eqn:E. destruct (electLease_frame _ _ _ _ E) as (F1 & F2 & F3).
      destruct r as [[]|err]; intros [= <-].
      * apply Hsame; [done..|]. split; [by apply Ht|]. simpl. exists (g_defers g). auto.
      * exists g. rewrite F1, F2, list_insert_id by done. split_and!; try done; [split; [by apply Ht|by rewrite Epc]|by intros ???].
      * exists g. simpl. rewrite F1, F2, list_insert_id by done. split_and!; try done; [split; [by apply Ht|by rewrite Epc]|by intros ???].
    + intros [= <-]. apply Hsame; [done..|]. split; [by apply Ht|]. simpl. auto.
  - intros [= <-]. apply Hsame; [done..|]. split; [by apply Ht|]. simpl. split; [done|]. exists [], (qp_KeyConcurrency (queuePolicy (mc_pool m) (Queue (g_row g)))).
    by split_and!.
  - destruct Hsh as [Hl (dn & Hp)]. destruct rules as [|[idx rule] rules].
    + intros [= <-]. apply Hsame; [done..|]. split; [by apply Ht|]. simpl. exists acq, dn, (g_defers g). auto.
    + destruct (acquireRef _ _ _ _) as [sems a] eqn:E. intros [= <-]. pose proof Hp as (rs & Hsn & Hi' & _).
      apply indexed_next in Hi' as [-> Hr].
      apply keepsShape_sems; [done| |by eapply acquireRef_kinds|].
      * eapply names_ref; [done|done| |exact E]. by eapply snap_cap.
      * split; [by apply Ht|]. simpl. split; [done|]. by exists dn, rule.
  - destruct Hsh as [Hl (dn & rule & (rs & Hsn & Hi' & Ha) & ->)].
    destruct (semSend a _) as [sems|] eqn:E; simpl; [|done]. intros [= <-].
    apply keepsShape_sems; [done|by eapply names_send|by eapply send_kinds|]. split; [by apply Ht|]. simpl. split; [done|].
    exists (dn ++ [(idx, rule)]), rs. split; [done|]. rewrite <-(assoc_L (++)). split; [done|].
    rewrite fmap_cons, Ha. unfold keysOf. by rewrite fmap_app, reverse_app.
  - destruct (queueRateLimits _ _) as [|r0 rs] eqn:Er.
    + intros [= <-]. apply Hsame; [done..|]. split; [by apply Ht|]. simpl. auto.
    + destruct (acquireRef _ _ _ _) as [sems a] eqn:E. intros [= <-].
      apply keepsShape_sems; [done| |by eapply acquireRef_kinds|by split; [apply Ht|]]. eapply names_ref; [done|done| |exact E]. reflexivity.
  - destruct (semSend a _) as [sems|] eqn:E; simpl; [|done]. intros [= <-].
    apply keepsShape_sems; [done|by eapply names_send|by eapply send_kinds|]. split; [by apply Ht|]. simpl.
    exists (g_defers g). eauto.
  - destruct (Opts reg (Kind (g_row g))) as [opts|] eqn:Eo; [destruct (_ <=? 0) eqn:Ec; bool_to_prop|].
    + intros [= <-]. apply Hsame; [done..|]. split; [by apply Ht|]. simpl. exists (g_defers g). split; [done|]. left.
      split; [|done]. intros (o & ? & ?). simplify_eq. lia.
    + destruct (entryOf _ _ _ _) as [sems a] eqn:E. intros [= <-].
      apply keepsShape_sems; [done| |by eapply entryOf_kinds|split; [by apply Ht|]].
      * eapply names_entry; [done|done| |exact E]. simpl. eauto.
      * simpl. split; [done|]. unfold kindName.
        assert (1 ≤ wo_Concurrency opts) as Hc by lia. by destruct (entryOf_spec _ _ _ _ _ _ _ Hc HL E) as (F1 & _).
    + intros [= <-]. apply Hsame; [done..|]. split; [by apply Ht|]. simpl. exists (g_defers g). split; [done|]. left.
      split; [|done]. intros (o & ? & ?). simplify_eq.
  - destruct Hsh as [Hg Hk]. destruct (semSend a _) as [sems|] eqn:E; simpl; [|done]. intros [= <-].
    pose proof (send_kinds _ _ _ E) as Hks.
    apply keepsShape_sems; [done|by eapply names_send|done|]. split; [by apply Ht|]. simpl. exists (g_defers g). eauto 10.
  - destruct (semSend semChan _) as [sems|] eqn:E; simpl; [|done]. intros [= <-].
    pose proof (send_kinds _ _ _ E) as Hks.
    apply keepsShape_sems; [done|by eapply names_send|done|]. split; [by apply Ht|]. simpl. exists (g_defers g).
    split; [|done]. by eapply kindOk_mono.
  - done.
  - destruct (markStart _ _ _ _) as [e1 [row' t]] eqn:E. destruct (markStart_row _ _ _ _ _ _ _ E) as (? & ? & ? & ? & ?).
    destruct (jobContext _ _ _ _) as [ctx e2]. intros [= <-].
    assert (sameRow (g_row g) row') as Hr by by split_and!.
    eexists. split; [done|]. split; [|split_and!; [done|by intros ???|done]].
    split; [by apply Ht|]. simpl. by eapply runOk_row.
  - done.
  - destruct (g_defers g) as [|f fs] eqn:Ed; [done|]. intros [= <-]. apply Hsame; [done..|].
    split; simpl; rewrite Epc; [auto|]. unfold unwinding in *. simpl. rewrite Ed in Hsh. destruct Hsh as [[l Hl]|[? _]]; [|done].
    destruct l as [|f' l]; simplify_eq/=; [by right; auto|left; by exists l].
Qed.

(** ** The invariant of a run *)

Record shape_inv m : Prop := {
  si_acc : acc_inv m;
  si_shape : ∀ i g, mc_gors m !! i = Some g → shape' (mc_sems m) g;
  si_names : names' (mc_sems m);
  si_queue : ∀ i g, mc_gors m !! i = Some g → Queue (g_row g) ∈ queues;
  si_rows : Forall (λ r, Queue r ∈ queues) (waitingRows (mc_disp m));
  si_snap : ∀ queue, snap queue (qp_KeyConcurrency (queuePolicy (mc_pool m) queue));
  si_queues : wc_Queues (wp_config (mc_pool m)) = queues
}.

Lemma keepsShape_inv i g m m' :
  shape_inv m → mc_gors m !! i = Some g → acc_inv m' → mc_pool m' = mc_pool m → mc_disp m' = mc_disp m →
  keepsShape i g m m' → shape_inv m'.
Proof.
  intros [Ha Hs Hn Hq Hr Hsn Hqs] Hg Ha' Ep Ed (g' & Egs & Hsh & Hn' & Hk & Hrow). split; rewrite ?Ep, ?Ed; try done.
  - intros j h. rewrite Egs. intros [(-> & <- & _)|[_ Hh]]%list_lookup_insert_Some; [done|]. eapply shape_mono; [exact Hk|by eapply Hs].
  - intros j h. rewrite Egs. intros [(-> & <- & _)|[_ Hh]]%list_lookup_insert_Some; [|by eapply Hq].
    destruct Hrow as (-> & _). by eapply Hq.
Qed.

Lemma perform_kinds i row x m m' :
  (∀ r key a, x = ADropRef r key a → r ≠ kindSemaphores) → names' (mc_sems m) → perform i row x m = Some m' →
  mc_gors m' = mc_gors m ∧ mc_pool m' = mc_pool m ∧ mc_disp m' = mc_disp m ∧
  names' (mc_sems m') ∧ kindsKept (mc_sems m) (mc_sems m').
Proof.
  intros Hx Hn. assert (∀ s, kindsKept s s) as Hrefl by (intros s k b Hk; exact Hk).
  destruct x as [|a|r key a| | | | | |]; simpl.
  - intros [= <-]. by split_and!.
  - destruct (semRecv a (mc_sems m)) as [sems|] eqn:E; simpl; [|done]. intros [= <-]. simpl. split_and!; try done.
    + by eapply names_recv.
    + by eapply recv_kinds.
  - intros [= <-]. simpl. split_and!; try done; [by apply names_drop|apply drop_kinds; by eapply Hx].
  - destruct (ws_resign _ _) as [s' err]. intros [= <-]. by split_and!.
  - intros [= <-]. by split_and!.
  - case_decide; [done|]. intros [= <-]. by split_and!.
  - intros [= <-]. case_decide; by split_and!.
  - intros [= <-]. rewrite (queueDone_frame _ m). by split_and!.
  - intros [= <-]. by split_and!.
Qed.

Lemma goStep_shape i m m' : shape_inv m → goStep reg lifecycle i m = Some m' → shape_inv m'.
Proof.
  intros Hi Hm. pose proof (goStep_inv reg lifecycle _ _ _ (si_acc _ Hi) Hm) as Ha'. revert Hm. unfold goStep.
  destruct (mc_gors m !! i) as [g|] eqn:Hg; simpl; [|done].
  pose proof (si_shape _ Hi _ _ Hg) as Hsh. destruct (g_todo g) as [|x todo] eqn:Ht.
  - intros Hm. destruct (advance_own reg lifecycle i g m m') as (g' & _ & _ & _ & C & _); try done.
    { eapply live_keys; [apply (si_acc _ Hi)|done]. }
    { by apply (ai_limits _ (si_acc _ Hi) i). }
    apply (keepsShape_inv i g m); try done; [by destruct C|by destruct C|].
    eapply advance_shape; try done; [apply (si_names _ Hi)|apply (ai_ledger _ (si_acc _ Hi))|by eapply (si_queue _ Hi)|apply (si_snap _ Hi)].
  - destruct (perform _ _ _ _) as [m1|] eqn:E; simpl; [|done]. intros [= <-].
    destruct (perform_kinds i (g_row g) x m m1) as (F1 & F2 & F3 & F4 & F5); [|apply (si_names _ Hi)|done|].
    { intros r key a ->. destruct (allActs_split _ _ _ Hg) as (rest & Hs1 & _).
      eapply (le_drop _ _ (ai_ledger _ (si_acc _ Hi)) r key a). rewrite Hs1, (acts_pop _ _ _ Ht). constructor. }
    apply (keepsShape_inv i g m); try done. exists (g_set_todo todo g). simpl. rewrite F1. split_and!; try done.
    eapply shape_mono; [exact F5|]. destruct Hsh as [Hsh1 Hsh2]. rewrite Ht in Hsh1. split; [intros _; by apply Hsh1|].
    simpl. destruct (g_pc g); try done. unfold unwinding in *. simpl. destruct Hsh2 as [?|[? [Ht'|Ht']]]; [by left|..]; right; rewrite Ht in Ht'; simplify_eq; auto.
Qed.

(** Giving up, and the other steps that leave the channels alone. *)
Lemma quiet_shape i g g' m m' :
  shape_inv m → acc_inv m' → mc_gors m !! i = Some g → mc_gors m' = <[i := g']> (mc_gors m) → mc_sems m' = mc_sems m →
  mc_pool m' = mc_pool m → mc_disp m' = mc_disp m → g_row g' = g_row g →
  (shape' (mc_sems m) g → shape' (mc_sems m) g') → shape_inv m'.
Proof.
  intros Hi Ha Hg Egs Es Ep Ed Er Hsh. apply (keepsShape_inv i g m); try done. exists g'. rewrite Es, Er. split_and!; try done.
  - apply Hsh. by apply (si_shape _ Hi i).
  - apply (si_names _ Hi).
  - by intros k b Hk.
Qed.

Lemma giveUp_shape s g : shape' s g → g_pc g ≠ PUnwind → g_todo g = [] → shape' s (giveUp g).
Proof. intros Hs Hne Ht. by apply shape_unwind. Qed.

Lemma permit_shape s g gates : 
  g_pc g = PPermit → shape' s g →
  shape' s (g_set_todo gates (g_set_defers (filter (λ f, isRateGate f = false) (g_defers g)) (g_goto PBegin g))).
Proof. intros Epc [_ Hs]. rewrite Epc in Hs. split; simpl; [auto|]. by exists (g_defers g). Qed.

Context `{!LawfulFetch S}.

Lemma nextSlot_queue p cursor c queue : pool_inv p → nextSlot p cursor = (c, Some queue) → queue ∈ wc_Queues (wp_config p).
Proof.
  intros Hp. unfold nextSlot. destruct (_ <? 0); intros [= _ Hl]. apply list_elem_of_lookup_2 in Hl.
  pose proof (pi_slots _ Hp queue) as Hs. destruct (decide (queue ∈ _)) as [|Hne]; [done|].
  unfold slots in Hs. assert (queue ∈ filter (λ q, q = queue) (wp_queueSchedule p)) as Hin by (by apply list_elem_of_filter).
  destruct (filter _ _); [by apply not_elem_of_nil in Hin|done].
Qed.

Lemma dispatch_shape m m' : shape_inv m → dispatch m = Some m' → shape_inv m'.
Proof.
  intros Hi Hm. pose proof (dispatch_inv _ _ (si_acc _ Hi) Hm) as Ha'. revert Hm. pose proof Hi as [Ha Hs Hn Hq Hr Hsn Hqs].
  unfold dispatch. destruct (mc_disp m) as [|free misses|[|row rows] free misses|] eqn:Ed; [done| | | |done].
  - intros [= <-]. destruct (dispatchRound_spec free misses m) as ([E1 E2 _ _ _ _ _] & Hp & He & _).
    split; rewrite ?E1, ?E2, ?Hp; try done.
    destruct He as [_ -> _| -> |q _ _ _ ->|q rows _ _ En _ Hne Hf ->]; try (by constructor). simpl.
    rewrite sort_by_perm. destruct (fetched_one _ _ _ Hne Hf) as (row & -> & <-). apply Forall_singleton.
    rewrite <-Hqs. eapply nextSlot_queue; [apply ai_pool; exact Ha|exact En].
  - intros [= <-]. by split.
  - destruct (launch row m) as [m1|] eqn:El; simpl; [|done]. intros [= <-]. simpl in Hr. apply Forall_cons in Hr as [Hr1 Hr2].
    apply launch_spec in El as (ready & sems & Hsd & Egs & Esm & _ & _ & Ep & _ & _ & _).
    split; simpl; rewrite ?Egs, ?Esm, ?Ep; try done.
    + intros j h. intros [Hh|[_ Hh]]%lookup_app_Some.
      * eapply shape_mono; [by eapply send_kinds|by apply (Hs j)].
      * apply list_lookup_singleton_Some in Hh as [_ <-]. by split.
    + by eapply names_send.
    + intros j h. intros [Hh|[_ Hh]]%lookup_app_Some; [by eapply Hq|].
      by apply list_lookup_singleton_Some in Hh as [_ <-].
Qed.

Lemma mstep_shape ev m m' :
  shape_inv m → mstep reg name caps lifecycle ev m = Some m' →
  (∀ queue, snap queue (qp_KeyConcurrency (queuePolicy (mc_pool m') queue))) → shape_inv m'.
Proof.
  intros Hi Hm Hsnap'. pose proof (mstep_inv reg name caps lifecycle _ _ _ (si_acc _ Hi) Hm) as Ha'. revert Hm.
  destruct ev as [| | |i|i|i o|i lost|i|i|i| |queue policy|s c|queue now before]; cbn [mstep].
  - intros [= <-]. revert Ha'. unfold Start. destruct (wp_configErr (mc_pool m)); [done|].
    destruct (mc_started m); [done|]. destruct (mc_shutdown m); destruct Hi; by split.
  - destruct (mc_started m); simpl; [|done]. unfold locked. destruct (mc_disp m); try done. intros [= <-]. revert Ha'.
    unfold beginFetch. destruct (mc_shutdown m); [done|]. destruct (_ <=? 0); [done|]. destruct Hi; by split.
  - by apply dispatch_shape.
  - by apply goStep_shape.
  - unfold bailStep. destruct (mc_gors m !! i) as [g|] eqn:Hg; simpl; [|done]. destruct (g_todo g) eqn:Ht; [|done].
    unfold mayBail. destruct (g_pc g) eqn:Epc; try done; case_match; try done; intros [= <-];
      (apply (quiet_shape i g (giveUp g) m); try done; intros Hs; by apply giveUp_shape; rewrite ?Epc).
  - unfold permitStep. destruct (mc_gors m !! i) as [g|] eqn:Hg; simpl; [|done]. destruct (g_todo g) eqn:Ht; [|done].
    destruct (g_pc g) eqn:Epc; try done. destruct (waitForRatePermit _ _ _ _ _ _ _ _ _) as [[e ok]|]; simpl; [|done].
    destruct (fromRateEnv_frame e m) as (F1 & F2 & [F3 _ _ _ _ _ _ _ F4]). destruct ok.
    + intros [= <-]. eapply (quiet_shape i g _ m); try done. by apply permit_shape.
    + destruct (_ || _); [|done]. intros [= <-]. apply (quiet_shape i g (giveUp g) m); try done.
      intros Hs. by apply giveUp_shape; rewrite ?Epc.
  - unfold finishStep. destruct (mc_gors m !! i) as [g|] eqn:Hg; simpl; [|done]. destruct (g_todo g) eqn:Ht; [|done].
    destruct (g_pc g) eqn:Epc; try done. case_decide; [|done]. destruct (executeRow _ _ _ _ _ _) as [e res]. intros [= <-].
    eapply (quiet_shape i g _ m); try done. intros Hs. pose proof (shape_unwind reg snap _ g [] Hs) as Hu. rewrite Epc in Hu.
    unfold g_set_todo in Hu. simpl in Hu. rewrite <-Ht in Hu. by apply Hu.
  - destruct (mc_gors m !! i) as [g|] eqn:Hg; simpl; [|done]. intros [= <-]. by apply (quiet_shape i g (g_cancel g) m).
  - unfold beatStep. destruct (mc_gors m !! i) as [g|] eqn:Hg; simpl; [|done]. case_decide; [|done].
    destruct (heartbeatTick _ _ _) as [e []]; intros [= <-]; [by apply (quiet_shape i g g m)|by apply (quiet_shape i g (g_cancel g) m)].
  - unfold renewStep. destruct (mc_gors m !! i) as [g|] eqn:Hg; simpl; [|done]. case_decide; [|done].
    destruct (electLease (g_row g) m) as [m1 r] eqn:E. destruct (electLease_frame _ _ _ _ E) as (F1 & F2 & [F3 _ _ _ _ _ _ _ F4]).
    destruct r as [[]|err]; intros [= <-]; [apply (quiet_shape i g g m); try done; by rewrite F1, list_insert_id|..];
      (apply (quiet_shape i g (g_cancel g) m); try done; by simpl; rewrite F1).
  - destruct (locked m); [done|]. intros [= <-]. destruct Hi; by split.
  - destruct (locked m); [done|]. intros [= <-].
    destruct (UpdateQueuePolicy_frame name caps (mc_pool m) queue policy _ eq_refl) as (_ & F2 & _).
    destruct Hi. split; simpl; try done. by rewrite F2.
  - intros [= <-]. destruct Hi; by split.
  - destruct ws_rescue; [|done]. destruct (mc_started m) eqn:Es; [|done]. intros [= <-]. destruct Hi; by split.
Qed.
End steps.
