(* ===== verification/WorkerMachineProps.v ===== *)
(** * What the worker machine guarantees: limits and the drain

    However the goroutines of a pool interleave, no more handlers run than the
    configuration allows, and when the pool has drained nothing is left behind. *)

From S2P Require Import Prelude GoBase Json Codec Core Driver RateLimit Sha256 WorkerConfig WorkerConfigProps.
From S2P Require Import WorkerRate WorkerRun WorkerSemaphores WorkerMachine WorkerMachineInv WorkerMachineShape.
From Stdlib Require Import ZArith Lia.

(** How many goroutines have a property. *)
Definition countG (P : Goroutine → Prop) `{∀ g, Decision (P g)} (gs : list Goroutine) : Z := Z.of_nat (length (filter P gs)).

(** Goroutines that each owe a release are no more than the releases owed. *)
Lemma countG_le (P : Goroutine → Prop) `{∀ g, Decision (P g)} x gs :
  (∀ i g, gs !! i = Some g → P g → x ∈ acts g) → countG P gs ≤ occ (eq x) (allActs gs).
Proof.
  rewrite occ_allActs. unfold countG. induction gs as [|g gs IH]; intros Hx; [done|]. rewrite filter_cons. simpl.
  specialize (IH (λ i g, Hx (S i) g)). pose proof (occ_nonneg (eq x) (acts g)). destruct (decide (P g)) as [Hp|]; [|lia].
  assert (0 < occ (eq x) (acts g)) by (apply occ_pos; exists x; split; [by apply (Hx 0%nat g)|done]). simpl. lia.
Qed.

(** Two goroutines that owe the same release make it twice. *)
Lemma occ_two gs i j gi gj x :
  gs !! i = Some gi → gs !! j = Some gj → i ≠ j → x ∈ acts gi → x ∈ acts gj → 2 ≤ occ (eq x) (allActs gs).
Proof.
  intros Hi Hj Hne Hxi Hxj. destruct (allActs_split _ _ _ Hi) as (rest & E & Hins). rewrite E, occ_app.
  assert (x ∈ rest).
  { specialize (Hins (mkGoroutine (g_row gi) None false CtxBackground PUnwind [] [])).
    assert (x ∈ allActs (<[i := mkGoroutine (g_row gi) None false CtxBackground PUnwind [] []]> gs)) as Hin.
    { apply elem_of_allActs. exists j, gj. by rewrite list_lookup_insert_ne. }
    rewrite Hins in Hin. done. }
  assert (0 < occ (eq x) (acts gi)) by (apply occ_pos; eauto). assert (0 < occ (eq x) rest) by (apply occ_pos; eauto). lia.
Qed.

Definition running (g : Goroutine) : Prop := match g_pc g with PHandler _ _ => True | _ => False end.
#[export] Instance running_dec g : Decision (running g).
Proof. unfold running. destruct (g_pc g); apply _. Defined.

Lemma frame_acts g f x : f ∈ g_defers g → x ∈ expand (g_row g) f → x ∈ acts g.
Proof.
  intros Hf Hx. unfold acts. rewrite !elem_of_app. right; right. apply list_elem_of_In, in_concat.
  exists (expand (g_row g) f). split; apply list_elem_of_In; [|done]. by apply list_elem_of_fmap_2.
Qed.

Lemma releaseKeys_elem key a acquired :
  (key, a) ∈ acquired → ARecv a ∈ releaseKeys acquired ∧ ADropRef keySemaphores key a ∈ releaseKeys acquired.
Proof.
  induction acquired as [|[k b] acquired IH]; [by intros ?%not_elem_of_nil|].
  change (releaseKeys ((k, b) :: acquired)) with (ARecv b :: ADropRef keySemaphores k b :: releaseKeys acquired).
  intros [[= -> ->]|Hin]%elem_of_cons; [set_solver|]. destruct (IH Hin). set_solver.
Qed.

(** ** Keys of key-concurrency rules *)

Fixpoint nulFree (s : string) : Prop :=
  match s with EmptyString => True | String c s' => c ≠ Ascii.ascii_of_nat 0 ∧ nulFree s' end.

Lemma nulFree_split a : ∀ b x y, nulFree a → nulFree b → a +:+ nul +:+ x = b +:+ nul +:+ y → a = b ∧ x = y.
Proof.
  induction a as [|c a IH]; intros [|d b] x y Ha Hb E.
  - by injection E.
  - injection E as E1 _. by destruct Hb.
  - injection E as E1 _. by destruct Ha.
  - destruct Ha as [_ Ha], Hb as [_ Hb]. injection E as -> E. destruct (IH b x y Ha Hb E). by subst.
Qed.

Lemma digits_nulFree fuel : ∀ n acc, nulFree acc → nulFree (digits_fuel fuel n acc).
Proof.
  assert (∀ d, 0 ≤ d < 10 → digit_char d ≠ Ascii.ascii_of_nat 0) as Hd.
  { intros d Hd E. apply (f_equal char_digit) in E. by rewrite char_digit_char in E. }
  induction fuel as [|fuel IH]; intros n acc Ha; simpl; [done|].
  assert (nulFree (String (digit_char (n mod 10)) acc)) by (split; [apply Hd, Z.mod_pos_bound; lia|done]).
  destruct (n <? 10); [done|]. by apply IH.
Qed.

Lemma FormatInt_nulFree n : 0 ≤ n → nulFree (FormatInt n).
Proof. intros Hn. unfold FormatInt. rewrite (proj2 (Z.ltb_ge _ _)) by lia. by apply digits_nulFree. Qed.

(** A key says which queue, which rule and which value it is for. *)
Lemma concurrencyKey_inj row row' i j rule rule' :
  nulFree (Queue row) → nulFree (Queue row') → 0 ≤ i → 0 ≤ j → concurrencyKey row i rule = concurrencyKey row' j rule' →
  Queue row = Queue row' ∧ i = j ∧
  rateLimitKeyValue (kc_Key rule) (kc_TagPrefix rule) row = rateLimitKeyValue (kc_Key rule') (kc_TagPrefix rule') row'.
Proof.
  intros Hq Hq' Hi Hj [EQ E]%nulFree_split; try done. apply nulFree_split in E as [Ei Ev]; try by apply FormatInt_nulFree.
  split_and!; [done| |done]. by apply FormatInt_inj_nonneg.
Qed.

Section machine.
Context {S : Type} `{WorkerStore S} `{CursorStore S} `{MapRange} `{FloatConv} `{!LawfulFetch S}.
Context (reg : Registry) (name : string) (caps : Capabilities) (lifecycle : bool).
Implicit Types m : Machine S.

Abbreviation mstep' := (mstep reg name caps lifecycle) (only parsing).
Abbreviation mrun' := (mrun reg name caps lifecycle) (only parsing).

Lemma mrun_ind (P : Machine S → Prop) evs m m' :
  (∀ ev m1 m2, ev ∈ evs → P m1 → mstep' ev m1 = Some m2 → P m2) → P m → mrun' evs m = Some m' → P m'.
Proof.
  revert m. induction evs as [|ev evs IH]; intros m Hstep Hm; simpl; [by intros [= <-]|].
  destruct (mstep' ev m) as [m1|] eqn:E; simpl; [|done]. apply IH; [|by eapply Hstep; [apply list_elem_of_here|..]].
  intros ev' m2 m3 Hin. apply Hstep. by apply list_elem_of_further.
Qed.

(** ** One step, classified *)

Inductive mclass (m m' : Machine S) : Prop :=
| cl_own i g : mc_gors m !! i = Some g → ownStep i g m m' → mclass m m'
| cl_pop i g x todo m1 : mc_gors m !! i = Some g → g_todo g = x :: todo → perform i (g_row g) x m = Some m1 →
    m' = set_gor i (g_set_todo todo g) m1 → mclass m m'
| cl_launch row rows free misses m1 : mc_disp m = DRows (row :: rows) free misses → launch row m = Some m1 →
    m' = set_disp (DRows rows free misses) m1 → mclass m m'
| cl_other : mc_gors m' = mc_gors m → mc_sems m' = mc_sems m → mc_tails m' = mc_tails m → mc_closed m' = mc_closed m →
    (∀ queue, qs_active (stateOf (mc_states m') queue) = qs_active (stateOf (mc_states m) queue) ∨
      qs_active (stateOf (mc_states m') queue) = qs_active (stateOf (mc_states m) queue) + 1 ∧
      (0 < qp_Concurrency (queuePolicy (mc_pool m) queue) →
        qs_active (stateOf (mc_states m) queue) < qp_Concurrency (queuePolicy (mc_pool m) queue))) → mclass m m'.

Definition isPolicy (ev : event S) : Prop := match ev with EPolicy _ _ => True | _ => False end.

(** The pool's configuration changes only by a policy update. *)
Lemma mstep_class ev m m' :
  acc_inv m → mstep' ev m = Some m' → mclass m m' ∧
    (mc_pool m' = mc_pool m ∨ ∃ queue policy, ev = EPolicy queue policy ∧
      mc_pool m' = (UpdateQueuePolicy name caps (mc_pool m) queue policy).1).
Proof.
  intros Hi. assert (∀ i, (∃ g, mc_gors m !! i = Some g ∧ ownStep i g m m') → mclass m m' ∧
    (mc_pool m' = mc_pool m ∨ ∃ queue policy, ev = EPolicy queue policy ∧
      mc_pool m' = (UpdateQueuePolicy name caps (mc_pool m) queue policy).1)) as Hown.
  { intros i (g & Hg & Ho). split; [by eapply cl_own|]. left. destruct Ho as (g' & _ & _ & _ & C & _). by destruct C. }
  destruct ev as [| | |i|i|i o|i lost|i|i|i| |queue policy|s c|queue now before]; cbn [mstep].
  - intros [= <-]. unfold Start. destruct (wp_configErr (mc_pool m)); [|destruct (mc_started m); [|destruct (mc_shutdown m)]];
      (split; [apply cl_other; auto|by left]).
  - destruct (mc_started m); simpl; [|done]. unfold locked. destruct (mc_disp m); try done. intros [= <-].
    unfold beginFetch. destruct (mc_shutdown m); [|destruct (_ <=? 0)]; (split; [apply cl_other; auto|by left]).
  - unfold dispatch. destruct (mc_disp m) as [|free misses|[|row rows] free misses|] eqn:Ed; [done| | | |done].
    + intros [= <-]. destruct (dispatchRound_spec free misses m) as ([E1 E2 E3 E4 _ _ _] & Hp & He & Ha).
      split; [|by left]. apply cl_other; try done. intros queue. rewrite Ha.
      destruct He as [_ -> _| -> |q _ _ _ ->|q rows _ _ En Hc Hne Hf ->]; try (left; lia). rewrite En. simpl.
      case_decide; simplify_eq; [by right|left; lia].
    + intros [= <-]. split; [apply cl_other; auto|by left].
    + destruct (launch row m) as [m1|] eqn:El; simpl; [|done]. intros [= <-]. split; [by eapply cl_launch|]. left.
      apply launch_spec in El as (? & ? & _ & _ & _ & _ & _ & Ep & _). done.
  - intros Hm. unfold goStep in Hm. destruct (mc_gors m !! i) as [g|] eqn:Hg; simpl in Hm; [|done].
    destruct (g_todo g) as [|x todo] eqn:Ht.
    + apply (Hown i). exists g. split; [done|].
      eapply advance_own; try done; [by eapply live_keys|by eapply ai_limits].
    + destruct (perform _ _ _ _) as [m1|] eqn:E; simpl in Hm; [|done]. injection Hm as <-. split; [by eapply cl_pop|]. left.
      destruct (perform_released i g x m m1) as [_ ? _]; [|done|done]. intros -> Hc.
      pose proof (ai_close _ Hi _ _ Hg) as Eo. rewrite decide_True in Eo by auto.
      rewrite (acts_pop _ _ _ Ht), occ_cons, decide_True in Eo by done.
      pose proof (occ_nonneg (eq AClosePipeline) (acts (g_set_todo todo g))). lia.
  - intros Hm. by apply (Hown i), bailStep_own.
  - intros Hm. by eapply (Hown i), permitStep_own.
  - intros Hm. by eapply (Hown i), finishStep_own.
  - intros Hm. apply (Hown i), (ticks_own reg name caps lifecycle); [by apply ai_limits|by right; right].
  - intros Hm. apply (Hown i), (ticks_own reg name caps lifecycle); [by apply ai_limits|by left].
  - intros Hm. apply (Hown i), (ticks_own reg name caps lifecycle); [by apply ai_limits|by right; left].
  - destruct (locked m); [done|]. intros [= <-]. split; [apply cl_other; auto|by left].
  - destruct (locked m); [done|]. intros [= <-]. split; [apply cl_other; auto|]. right. eauto.
  - intros [= <-]. split; [apply cl_other; auto|by left].
  - destruct ws_rescue; [|done]. destruct (mc_started m); [|done]. intros [= <-]. split; [apply cl_other; auto|by left].
Qed.

(** Concurrency, pending bound and queues never change. *)
Lemma mrun_config evs m m' :
  acc_inv m → mrun' evs m = Some m' →
  acc_inv m' ∧ wc_Queues (wp_config (mc_pool m')) = wc_Queues (wp_config (mc_pool m)) ∧
  wc_Concurrency (wp_config (mc_pool m')) = wc_Concurrency (wp_config (mc_pool m)) ∧
  wc_MaxPending (wp_config (mc_pool m')) = wc_MaxPending (wp_config (mc_pool m)).
Proof.
  intros Hi. apply (mrun_ind (λ m', acc_inv m' ∧ wc_Queues (wp_config (mc_pool m')) = wc_Queues (wp_config (mc_pool m)) ∧
    wc_Concurrency (wp_config (mc_pool m')) = wc_Concurrency (wp_config (mc_pool m)) ∧
    wc_MaxPending (wp_config (mc_pool m')) = wc_MaxPending (wp_config (mc_pool m)))); [|done]. intros ev m1 m2 _ (Hi1 & <- & <- & <-) Hm.
  split; [by eapply mstep_inv|]. destruct (mstep_class _ _ _ Hi1 Hm) as [_ [->|(queue & policy & _ & E)]]; [done|].
  by destruct (UpdateQueuePolicy_frame name caps (mc_pool m1) queue policy _ (eq_sym E)) as (_ & ? & ? & ?).
Qed.

(** ** Limits of a run *)

Lemma chan_bound m a c (P : Goroutine → Prop) `{∀ g, Decision (P g)} :
  acc_inv m → se_heap (mc_sems m) !! a = Some c → (∀ i g, mc_gors m !! i = Some g → P g → ARecv a ∈ acts g) →
  countG P (mc_gors m) ≤ sm_cap c.
Proof.
  intros Hi Hc HP. destruct (le_len _ _ (ai_ledger _ Hi) _ _ Hc) as [E Hle].
  pose proof (countG_le P (ARecv a) (mc_gors m) HP). lia.
Qed.

Lemma running_shape m (snap : string → list KeyConcurrencyLimit → Prop) g :
  shape reg snap (mc_sems m) g → running g → runOk reg snap (mc_sems m) (g_row g) (g_defers g).
Proof. intros [_ Hs]. unfold running. by destruct (g_pc g). Qed.

(** The invariant of a run in which policies may change at any time. *)
Lemma free_run evs cfg randomID s clk m :
  mrun' evs (newMachine (newWorkerPool name caps randomID cfg) s clk) = Some m →
  shape_inv reg (λ _ _, True) (λ _ _, True) (wc_Queues (wp_config (newWorkerPool name caps randomID cfg))) m.
Proof.
  pose proof (newMachine_inv name caps cfg randomID s clk) as Hi.
  apply (mrun_ind (shape_inv reg _ _ _)).
  - intros ev m1 m2 _ K Hm. by eapply mstep_shape.
  - by split.
Qed.

(** C32: the capacities of a pool.  In every state that a pool reaches, at most
    [Concurrency] handlers run, of each kind at most its own [Concurrency], at most
    [MaxPending] claims are unfinished, and at most one job at a time holds the
    gate of a set of rate limits. *)
Theorem pool_capacity evs cfg randomID s clk m :
  mrun' evs (newMachine (newWorkerPool name caps randomID cfg) s clk) = Some m →
  let limits := wp_config (newWorkerPool name caps randomID cfg) in
  countG running (mc_gors m) ≤ wc_Concurrency limits ∧
  (∀ kind opts, Opts reg kind = Some opts → 0 < wo_Concurrency opts →
    countG (λ g, running g ∧ Kind (g_row g) = kind) (mc_gors m) ≤ wo_Concurrency opts) ∧
  countG (λ g, ARecv pendingChan ∈ acts g) (mc_gors m) ≤ wc_MaxPending limits ∧
  (∀ key a b, countG (λ g, FRateGate key a ∈ g_defers g ∨ FRateGate key b ∈ g_defers g) (mc_gors m) ≤ 1).
Proof.
  intros Hrun limits. pose proof (free_run _ _ _ _ _ _ Hrun) as [Hi Hsh Hn _ _ _ _].
  destruct (mrun_config _ _ _ (newMachine_inv name caps cfg randomID s clk) Hrun) as (_ & _ & E2 & E3).
  destruct (ai_chans _ Hi) as (cp & cs & K1 & K2 & K3 & K4).
  assert (∀ i g, mc_gors m !! i = Some g → running g → runOk reg (λ _ _, True) (mc_sems m) (g_row g) (g_defers g)) as Hr
    by (intros i g Hg; apply running_shape, (Hsh i g Hg)).
  split_and!.
  - rewrite E2 in K4. etrans; [|apply Z.eq_le_incl; exact K4]. eapply chan_bound; [done..|].
    intros i g Hg Hrg. destruct (runOk_spec _ _ _ _ _ (Hr _ _ Hg Hrg)) as (Hs & _).
    eapply frame_acts; [exact Hs|]. apply list_elem_of_here.
  - intros kind opts Ho Hpos. destruct (kindName (mc_sems m) kind) as [a|] eqn:Ek.
    + destruct (le_named _ _ (ai_ledger _ Hi) _ _ _ Ek) as (c & Hc & _).
      destruct (Hn _ _ _ _ Ek Hc) as (opts' & Ho' & Ecap). simplify_eq. rewrite <-Ecap. eapply chan_bound; [done..|].
      intros i g Hg [Hrg <-]. destruct (runOk_spec _ _ _ _ _ (Hr _ _ Hg Hrg)) as (_ & _ & _ & _ & _ & Hk & _).
      destruct Hk as (b & Hb & Hf); [by exists opts|]. simplify_eq. eapply frame_acts; [exact Hf|]. apply list_elem_of_here.
    + unfold countG. rewrite filter_none; [simpl; lia|]. apply Forall_forall. intros g [i Hg]%list_elem_of_lookup [Hrg <-].
      destruct (runOk_spec _ _ _ _ _ (Hr _ _ Hg Hrg)) as (_ & _ & _ & _ & _ & Hk & _).
      destruct Hk as (b & Hb & _); [by exists opts|]. congruence.
  - rewrite E3 in K2. etrans; [|apply Z.eq_le_incl; exact K2]. by eapply chan_bound.
  - intros key a b. set (P g := FRateGate key a ∈ g_defers g ∨ FRateGate key b ∈ g_defers g).
    destruct (filter P (mc_gors m)) as [|g0 l] eqn:Ef.
    { unfold countG. fold P. rewrite Ef. simpl. lia. }
    assert (g0 ∈ filter P (mc_gors m)) as [G0 [i0 Hi0]%list_elem_of_lookup]%list_elem_of_filter by (rewrite Ef; apply list_elem_of_here).
    assert (∀ i g c, mc_gors m !! i = Some g → FRateGate key c ∈ g_defers g →
      se_named (mc_sems m) !! (rateGates, key) = Some c ∧ ARecv c ∈ acts g) as Hgate.
    { intros i g c Hg Hf. split; [|by eapply frame_acts; [exact Hf|apply list_elem_of_here]].
      eapply (le_drop _ _ (ai_ledger _ Hi)). apply elem_of_allActs. exists i, g. split; [done|].
      eapply frame_acts; [exact Hf|]. simpl. set_solver. }
    assert (∃ c, se_named (mc_sems m) !! (rateGates, key) = Some c) as [c Hc] by (destruct G0 as [Hf|Hf]; apply (Hgate _ _ _ Hi0) in Hf as [? _]; eauto).
    destruct (le_named _ _ (ai_ledger _ Hi) _ _ _ Hc) as (d & Hd & _). pose proof (Hn _ _ _ _ Hc Hd) as Ecap. simpl in Ecap.
    rewrite <-Ecap. eapply (chan_bound m c d P); [done..|]. intros i g Hg [Hf|Hf]; apply (Hgate _ _ _ Hg) in Hf as [Hc' ?]; by simplify_eq.
Qed.

(** ** Limits under unchanging policies *)

Context (cfg : WorkerConfig) (randomID : string).
Abbreviation pool0 := (newWorkerPool name caps randomID cfg) (only parsing).
Abbreviation rulesOfQueue q := (qp_KeyConcurrency (queuePolicy pool0 q)) (only parsing).

(** The capacity that the policies give to the channel of a key. *)
Definition policyCap (key : string) (n : Z) : Prop :=
  ∀ row i rule, Queue row ∈ wc_Queues (wp_config pool0) → key = concurrencyKey row (Z.of_nat i) rule →
    rulesOfQueue (Queue row) !! i = Some rule → n = kc_Limit rule.

Lemma policyCap_own row rs i rule :
  Forall nulFree (wc_Queues (wp_config pool0)) →
  Queue row ∈ wc_Queues (wp_config pool0) → rs = rulesOfQueue (Queue row) → rs !! i = Some rule →
  policyCap (concurrencyKey row (Z.of_nat i) rule) (kc_Limit rule).
Proof.
  intros Hnul Hq -> Hr row' j rule' Hq' E Hr'. rewrite Forall_forall in Hnul.
  destruct (concurrencyKey_inj row row' (Z.of_nat i) (Z.of_nat j) rule rule') as (EQ & Ei & _); auto with lia.
  assert (i = j) as -> by lia. rewrite <-EQ in Hr'. congruence.
Qed.

(** The invariant of a run without policy changes. *)
Record fixed_inv (m : Machine S) : Prop := {
  fi_pool : mc_pool m = pool0;
  fi_shape : shape_inv reg (λ q rs, rs = rulesOfQueue q) policyCap (wc_Queues (wp_config pool0)) m;
  fi_active : ∀ queue, 0 < qp_Concurrency (queuePolicy pool0 queue) →
    qs_active (stateOf (mc_states m) queue) ≤ qp_Concurrency (queuePolicy pool0 queue)
}.

Lemma mclass_active m m' queue limit :
  acc_inv m → mclass m m' → (0 < limit → limit = qp_Concurrency (queuePolicy (mc_pool m) queue)) →
  0 < limit → qs_active (stateOf (mc_states m) queue) ≤ limit → qs_active (stateOf (mc_states m') queue) ≤ limit.
Proof.
  intros Hi Hc Hl Hpos Hle. specialize (Hl Hpos).
  destruct Hc as [i g Hg (g' & _ & _ & _ & C & _)|i g x todo m1 Hg Ht Hp ->|row rows free misses m1 Hd Hla ->|_ _ _ _ Ha].
  - by rewrite (sc_states _ _ C).
  - simpl. pose proof (acts_pop _ _ _ Ht) as Hacts.
    assert (x = AQueueDone → 1 ≤ qs_active (stateOf (mc_states m) (Queue (g_row g)))) as Hq1.
    { intros ->. rewrite (ai_active _ Hi). pose proof (sumZ_le _ _ _ _ (claims_nonneg (Queue (g_row g))) Hg) as Hle'.
      unfold claims at 1 in Hle'. rewrite decide_True, Hacts, occ_cons, decide_True in Hle' by done.
      pose proof (occ_nonneg (eq AQueueDone) (acts (g_set_todo todo g))). unfold rowsOf. lia. }
    destruct (perform_released i g x m m1) as [_ _ _ _ _ _ _ _ _ _ Hact]; [|done|].
    { intros -> Hcl. pose proof (ai_close _ Hi _ _ Hg) as Eo. rewrite decide_True in Eo by auto.
      rewrite Hacts, occ_cons, decide_True in Eo by done.
      pose proof (occ_nonneg (eq AClosePipeline) (acts (g_set_todo todo g))). lia. }
    rewrite Hact; [match goal with |- context [if ?b then _ else _] => destruct b end; lia| |done]. intros q. by apply active_nonneg.
  - apply launch_spec in Hla as (? & ? & _ & _ & _ & _ & _ & _ & E & _). simpl. by rewrite E.
  - destruct (Ha queue) as [->|[-> Hlt]]; [done|]. rewrite <-Hl in Hlt. specialize (Hlt Hpos). lia.
Qed.

Lemma fixed_run evs s clk m :
  Forall nulFree (wc_Queues (wp_config pool0)) → Forall (λ ev, ¬ isPolicy ev) evs →
  mrun' evs (newMachine pool0 s clk) = Some m → fixed_inv m.
Proof.
  intros Hnul Hpol. pose proof (newMachine_inv name caps cfg randomID s clk) as Hi. apply (mrun_ind fixed_inv).
  - intros ev m1 m2 Hev [Hp1 Hs1 Ha1] Hm. pose proof (si_acc _ _ _ _ _ Hs1) as Hi1.
    destruct (mstep_class _ _ _ Hi1 Hm) as [Hc Hp]. rewrite Forall_forall in Hpol. specialize (Hpol _ Hev).
    assert (mc_pool m2 = pool0) as Hp2.
    { destruct Hp as [->|(queue & policy & -> & _)]; [done|]. by destruct Hpol. }
    split; [done| |].
    + refine (mstep_shape reg name caps lifecycle _ _ _ _ ev m1 m2 Hs1 Hm _).
      * intros row rs i rule Hq -> Hr. by apply (policyCap_own row (rulesOfQueue (Queue row)) i).
      * intros q. by rewrite Hp2.
    + intros queue Hpos. eapply mclass_active; [exact Hi1|exact Hc| |done|by apply Ha1]. intros _. by rewrite Hp1.
  - split; [done| |].
    + by split.
    + intros queue Hpos. simpl. unfold stateOf. rewrite lookup_empty. simpl. lia.
Qed.

(** C33: the limits of the policies.  As long as the policies stay as they are, a
    queue never has more unfinished claims than its [Concurrency], and for every
    key-concurrency rule no more handlers run with the same key value than the
    rule's [Limit].  Queue names are assumed to be free of NUL characters, which
    separate the parts of a key. *)
Theorem policy_limits evs s clk m :
  Forall nulFree (wc_Queues (wp_config pool0)) → Forall (λ ev, ¬ isPolicy ev) evs →
  mrun' evs (newMachine pool0 s clk) = Some m →
  (∀ queue, 0 < qp_Concurrency (queuePolicy pool0 queue) →
    countG (λ g, Queue (g_row g) = queue ∧ AQueueDone ∈ acts g) (mc_gors m) ≤ qp_Concurrency (queuePolicy pool0 queue)) ∧
  (∀ queue i rule value, rulesOfQueue queue !! i = Some rule →
    countG (λ g, running g ∧ Queue (g_row g) = queue ∧
      rateLimitKeyValue (kc_Key rule) (kc_TagPrefix rule) (g_row g) = value) (mc_gors m) ≤ Z.max 0 (kc_Limit rule)).
Proof.
  intros Hnul Hpol Hrun. destruct (fixed_run _ _ _ _ Hnul Hpol Hrun) as [Hp Hs Ha]. pose proof Hs as [Hi Hsh Hn Hqs _ _ _].
  split.
  - intros queue Hpos. specialize (Ha _ Hpos). rewrite (ai_active _ Hi) in Ha.
    assert (countG (λ g, Queue (g_row g) = queue ∧ AQueueDone ∈ acts g) (mc_gors m) ≤ sumZ (claims queue) (mc_gors m)).
    { unfold countG. clear. induction (mc_gors m) as [|g gs IH]; [done|]. rewrite filter_cons. simpl.
      pose proof (claims_nonneg queue g). case_decide as Hc; [|lia]. destruct Hc as [Hq Hin%elem_of_occ].
      assert (1 ≤ claims queue g) by (unfold claims; rewrite decide_True by done; lia). simpl. lia. }
    unfold rowsOf in Ha. lia.
  - intros queue i rule value Hrule. set (P g := running g ∧ _).
    set (key := queue +:+ nul +:+ FormatInt (Z.of_nat i) +:+ nul +:+ value).
    assert (∀ j g, mc_gors m !! j = Some g → P g → key = concurrencyKey (g_row g) (Z.of_nat i) rule ∧
      ∃ a, se_named (mc_sems m) !! (keySemaphores, key) = Some a ∧ ARecv a ∈ acts g) as Hkey.
    { intros j g Hg (Hr & Hq & Hv). assert (key = concurrencyKey (g_row g) (Z.of_nat i) rule) as Ek
        by (unfold concurrencyKey; by rewrite Hq, Hv). split; [done|].
      destruct (runOk_spec _ _ _ _ _ (running_shape _ _ _ (Hsh _ _ Hg) Hr)) as (_ & _ & _ & _ & _ & _ & acq & rs & Hf & -> & Hacq).
      assert (key ∈ acq.*1) as Hin.
      { rewrite Hacq, elem_of_reverse, Ek. unfold keysOf. apply list_elem_of_fmap. exists (Z.of_nat i, rule). split; [done|].
        apply list_elem_of_lookup_2 with i. apply indexed_lookup. rewrite Hq. eauto. }
      apply list_elem_of_fmap in Hin as ([k a] & Eka & Hin). simpl in Eka. subst k.
      destruct (releaseKeys_elem _ _ _ Hin) as [K1 K2]. exists a. split; [|by eapply frame_acts].
      eapply (le_drop _ _ (ai_ledger _ Hi)). apply elem_of_allActs. exists j, g. split; [done|]. by eapply frame_acts. }
    destruct (filter P (mc_gors m)) as [|g0 l] eqn:Ef; [unfold countG; rewrite Ef; simpl; lia|].
    assert (g0 ∈ filter P (mc_gors m)) as [HP0 [j0 Hj0]%list_elem_of_lookup]%list_elem_of_filter by (rewrite Ef; apply list_elem_of_here).
    destruct (Hkey _ _ Hj0 HP0) as (Ek & a & Hna & _). destruct (le_named _ _ (ai_ledger _ Hi) _ _ _ Hna) as (c & Hc & _).
    assert (sm_cap c = kc_Limit rule) as Ecap.
    { apply (Hn _ _ _ _ Hna Hc (g_row g0) i rule); [by eapply Hqs|done|]. destruct HP0 as (_ & -> & _). done. }
    assert (countG P (mc_gors m) ≤ sm_cap c); [|lia]. eapply (chan_bound m a c P); [done..|].
    intros j g Hg HPg. destruct (Hkey _ _ Hg HPg) as (_ & b & Hb & Hin). by simplify_eq.
Qed.

(** ** The drain *)

Lemma no_acts m i g :
  shape_inv reg (λ _ _, True) (λ _ _, True) (wc_Queues (wp_config pool0)) m → mc_wg m = 0 →
  mc_gors m !! i = Some g → g_pc g = PUnwind ∧ acts g = [].
Proof.
  intros Hs Hwg Hg. pose proof (si_acc _ _ _ _ _ Hs) as Hi. rewrite (ai_wg _ Hi), occ_allActs in Hwg.
  assert (AWgDone ∉ acts g) as Hno.
  { intros Hin%elem_of_occ. pose proof (sumZ_le (λ g, occ (eq AWgDone) (acts g)) _ _ _ ltac:(intros; apply occ_nonneg) Hg) as Hle.
    simpl in Hle. lia. }
  assert (¬ endsWg (g_defers g)) as Hne.
  { intros [l Hl]. apply Hno. eapply (frame_acts _ FWg); [rewrite Hl; set_solver|apply list_elem_of_here]. }
  pose proof (si_shape _ _ _ _ _ Hs _ _ Hg) as Hsh. 
  assert (g_pc g = PUnwind) as Epc.
  { destruct (g_pc g) eqn:E; try done; exfalso; apply Hne; (eapply shape_ends; [exact Hsh|by rewrite E]). }
  split; [done|]. destruct Hsh as [_ Hsh]. rewrite Epc in Hsh. destruct Hsh as [[l Hl]|[Hd [Ht|Ht]]].
  - by destruct Hne; exists l.
  - unfold acts. by rewrite Ht, Hd, Epc.
  - destruct Hno. unfold acts. rewrite Ht. apply list_elem_of_here.
Qed.

(** C34: a drained pool leaves nothing behind.  Once [Shutdown] reports success
    every goroutine has returned, the dispatcher is idle, no channel holds a
    token, no key semaphore, rate gate or pipeline entry is left, and no queue
    has an active claim. *)
Theorem drained_clean evs s clk m :
  mrun' evs (newMachine pool0 s clk) = Some m → drained m = true →
  Forall (λ g, acts g = []) (mc_gors m) ∧ mc_disp m = DIdle ∧
  Forall (λ c, sm_len c = 0 ∧ sm_refs c = 0) (se_heap (mc_sems m)) ∧
  (∀ r key, r ≠ kindSemaphores → se_named (mc_sems m) !! (r, key) = None) ∧
  mc_tails m = ∅ ∧ ∀ queue, qs_active (stateOf (mc_states m) queue) = 0.
Proof.
  intros Hrun Hd. unfold drained in Hd. bool_to_prop. pose proof (free_run _ _ _ _ _ _ Hrun) as Hs.
  pose proof (si_acc _ _ _ _ _ Hs) as Hi.
  assert (Forall (λ g, acts g = []) (mc_gors m)) as Hall.
  { apply Forall_lookup. intros i g Hg. by eapply no_acts. }
  assert (allActs (mc_gors m) = []) as Ha.
  { unfold allActs. induction Hall as [|g gs Hg Hgs IH]; [done|]. simpl. by rewrite Hg. }
  assert (mc_disp m = DIdle) as Hidle by (by apply ai_quiet).
  pose proof (ai_ledger _ Hi) as HL. rewrite Ha in HL. destruct (ledger_empty _ HL) as [He1 He2].
  split_and!; try done.
  - apply Forall_lookup. intros a c Hc. by eapply He1.
  - apply map_empty. intros id. destruct (mc_tails m !! id) as [k|] eqn:Ek; [|done].
    destruct (ai_tails _ Hi _ _ Ek) as (_ & g & Hg & _ & Hin). rewrite Forall_lookup in Hall. rewrite (Hall _ _ Hg) in Hin.
    by apply not_elem_of_nil in Hin.
  - intros queue. rewrite (ai_active _ Hi), Hidle. unfold rowsOf. simpl. rewrite Z.add_0_r.
    clear -Hall. induction Hall as [|g gs Hg Hgs IH]; [done|]. simpl. rewrite IH. unfold claims. rewrite Hg. by case_decide.
Qed.
End machine.
