(* ===== verification/WorkerLiveness.v ===== *)
(** * What the worker machine guarantees: no deadlock

    The goroutines of a pool take their resources in one order: pipeline turn,
    key semaphores by rule, rate gate, kind, execution slot.  So whoever waits
    waits, through finitely many others, for one that can go on. *)

From S2P Require Import Prelude GoBase Json Codec Core Driver RateLimit Sha256 WorkerConfig WorkerConfigProps.
From S2P Require Import WorkerRate WorkerRun WorkerSemaphores WorkerMachine WorkerMachineInv WorkerMachineShape WorkerMachineProps.
From Stdlib Require Import ZArith Lia.

(** The channel a goroutine is about to send to. *)
Definition waitsOn (g : Goroutine) : option nat :=
  match g_pc g with
  | PKeyWait _ _ _ a _ | PGateWait _ a | PKindWait a => Some a
  | PSem => Some semChan
  | _ => None
  end.

(** How far a goroutine has come in the order of acquisition. *)
Definition stage (at_ : pc) : nat :=
  match at_ with
  | PStart | PReady | PLease | PKeyStart => 0
  | PKeys _ _ | PKeyWait _ _ _ _ _ => 1
  | PGate | PGateWait _ _ => 2
  | PKind | PKindWait _ => 3
  | PSem => 4
  | PPermit | PBegin | PHandler _ _ | PUnwind => 5
  end.

Definition pcIndex (at_ : pc) : Z := match at_ with PKeyWait i _ _ _ _ => i | _ => 0 end.

Section machine.
Context {S : Type} `{WorkerStore S} `{CursorStore S} `{MapRange} `{FloatConv} `{!LawfulFetch S}.
Context (reg : Registry) (name : string) (caps : Capabilities) (lifecycle : bool).
Implicit Types m : Machine S.

(** Goroutine [j] keeps goroutine [i] from going on: it is the predecessor in the
    pipeline, or it holds a token of the full channel that [i] sends to. *)
Definition waits m (i j : nat) : Prop :=
  ∃ gi gj, mc_gors m !! i = Some gi ∧ mc_gors m !! j = Some gj ∧ g_todo gi = [] ∧
    ((g_pc gi = PReady ∧ g_ready gi = Some j ∧ j ∉ mc_closed m) ∨
     ∃ a, waitsOn gi = Some a ∧ semSend a (mc_sems m) = None ∧ ARecv a ∈ acts gj).

(** A goroutine that can take a step now, or is waiting for the rate limits to
    permit its start, or is in its handler. *)
Definition canGo m (i : nat) : Prop :=
  is_Some (goStep reg lifecycle i m) ∨
  ∃ g, mc_gors m !! i = Some g ∧ g_todo g = [] ∧ (g_pc g = PPermit ∨ running g).

(** The predecessor in a pipeline is an earlier goroutine of that pipeline. *)
Definition ready_ok m : Prop := ∀ i g k, mc_gors m !! i = Some g → g_ready g = Some k →
  (k < i)%nat ∧ PipelineID (g_row g) ≠ "" ∧ ∃ gk, mc_gors m !! k = Some gk ∧ PipelineID (g_row gk) = PipelineID (g_row g).

Lemma ready_insert m i g g' : mc_gors m !! i = Some g → sameGor g g' → ready_ok m →
  ∀ gs, gs = <[i := g']> (mc_gors m) → ∀ j h k, gs !! j = Some h → g_ready h = Some k →
  (k < j)%nat ∧ PipelineID (g_row h) ≠ "" ∧ ∃ gk, gs !! k = Some gk ∧ PipelineID (g_row gk) = PipelineID (g_row h).
Proof.
  intros Hg (_ & _ & _ & Hp & _ & Hr) Hok gs -> j h k Hj Hk.
  assert (∃ h0, mc_gors m !! j = Some h0 ∧ g_ready h0 = Some k ∧ PipelineID (g_row h0) = PipelineID (g_row h)) as (h0 & Hj0 & Hk0 & Ep).
  { apply list_lookup_insert_Some in Hj as [(-> & <- & _)|[_ Hj]]; [|eauto]. exists g. by rewrite <-Hr. }
  destruct (Hok _ _ _ Hj0 Hk0) as (Hlt & Hne & gk & Hgk & Epk). rewrite <-Ep. split_and!; [done..|].
  destruct (decide (i = k)) as [->|].
  - simplify_eq. exists g'. rewrite list_lookup_insert_eq by (by eapply lookup_lt_Some). by rewrite Hp.
  - exists gk. by rewrite list_lookup_insert_ne.
Qed.

Lemma mclass_ready m m' : acc_inv m → mclass m m' → ready_ok m → ready_ok m'.
Proof.
  intros Hi Hc Hok. destruct Hc as [i g Hg (g' & Egs & _ & Hsame & _)|i g x todo m1 Hg Ht Hp ->|row rows free misses m1 Hd Hla ->|Egs _ _ _ _].
  - exact (ready_insert m i g g' Hg Hsame Hok _ Egs).
  - refine (ready_insert m i g (g_set_todo todo g) Hg _ Hok _ _); [by split_and!|]. simpl. f_equal.
    destruct (perform_released i g x m m1) as [E _]; [|done|done]. intros -> Hcl.
    pose proof (ai_close _ Hi _ _ Hg) as Eo. rewrite decide_True in Eo by auto.
    rewrite (acts_pop _ _ _ Ht), occ_cons, decide_True in Eo by done.
    pose proof (occ_nonneg (eq AClosePipeline) (acts (g_set_todo todo g))). lia.
  - apply launch_spec in Hla as (ready & sems & _ & Egs & _ & _ & _ & _ & _ & _ & _ & _ & Ht).
    intros j h k. simpl. rewrite Egs. intros [Hj|[Hle Hj]]%lookup_app_Some Hk.
    + destruct (Hok _ _ _ Hj Hk) as (? & ? & gk & Hgk & ?). split_and!; [done..|]. exists gk.
      by rewrite (lookup_app_l_Some _ _ _ _ Hgk).
    + apply list_lookup_singleton_Some in Hj as [Ej <-]. simpl in *.
      destruct Ht as [(_ & -> & _)|(Hne & Er & _)]; [done|]. rewrite Er in Hk.
      destruct (ai_tails _ Hi _ _ Hk) as (_ & gk & Hgk & Ep & _). pose proof (lookup_lt_Some _ _ _ Hgk).
      split_and!; [lia|done|]. exists gk. by rewrite (lookup_app_l_Some _ _ _ _ Hgk).
  - intros i g k. rewrite Egs. apply Hok.
Qed.

(** ** Going on *)

Lemma todo_goes m i g x todo : acc_inv m → mc_gors m !! i = Some g → g_todo g = x :: todo → is_Some (goStep reg lifecycle i m).
Proof.
  intros Hi Hg Ht. unfold goStep. rewrite Hg. simpl. rewrite Ht.
  assert (is_Some (perform i (g_row g) x m)) as [m1 ->]; [|by eexists].
  destruct x as [|a|r key a| | | | | |]; simpl; try (by eexists).
  - destruct (allActs_split _ _ _ Hg) as (rest & E & _). pose proof (ai_ledger _ Hi) as HL.
    rewrite E, (acts_pop _ _ _ Ht) in HL. simpl in HL. destruct (ledger_recv _ _ _ HL) as (s' & -> & _). by eexists.
  - destruct (ws_resign _ _). by eexists.
  - case_decide as Hc; [|by eexists]. pose proof (ai_close _ Hi _ _ Hg) as Eo. rewrite decide_True in Eo by auto.
    rewrite (acts_pop _ _ _ Ht), occ_cons, decide_True in Eo by done.
    pose proof (occ_nonneg (eq AClosePipeline) (acts (g_set_todo todo g))). lia.
Qed.

(** A goroutine that has not returned can go on, waits for its pipeline, or waits
    for a full channel. *)
Lemma go_or_wait m i g : acc_inv m → mc_gors m !! i = Some g → acts g ≠ [] →
  canGo m i ∨ (g_todo g = [] ∧
    ((g_pc g = PReady ∧ ∃ k, g_ready g = Some k ∧ k ∉ mc_closed m) ∨
     ∃ a, waitsOn g = Some a ∧ semSend a (mc_sems m) = None)).
Proof.
  intros Hi Hg Ha. destruct (g_todo g) as [|x todo] eqn:Ht; [|left; left; by eapply todo_goes].
  assert (is_Some (advance reg lifecycle i g m) → canGo m i) as Hgo.
  { intros Hs. left. unfold goStep. rewrite Hg. simpl. by rewrite Ht. }
  unfold canGo, running, waitsOn.
  destruct (g_pc g) as [| | | |rules acq|idx rules key a acq| |key a| |a| | | |t ctx|] eqn:Epc;
    unfold advance in Hgo; rewrite Epc in Hgo.
  - left. apply Hgo. by eexists.
  - destruct (g_ready g) as [k|]; [|left; apply Hgo; by eexists].
    destruct (decide (k ∈ mc_closed m)); [left; apply Hgo; by eexists|right]. eauto 10.
  - left. apply Hgo. destruct (negb _); [by eexists|]. destruct (electLease _ _) as [m1 [[]|]]; by eexists.
  - left. apply Hgo. by eexists.
  - left. apply Hgo. destruct rules as [|[j rule] rules]; [by eexists|]. destruct (acquireRef _ _ _ _). by eexists.
  - destruct (semSend a (mc_sems m)) as [sems|] eqn:E; [left; apply Hgo; by eexists|right]. eauto 10.
  - left. apply Hgo. destruct (queueRateLimits _ _); [by eexists|]. destruct (acquireRef _ _ _ _). by eexists.
  - destruct (semSend a (mc_sems m)) as [sems|] eqn:E; [left; apply Hgo; by eexists|right]. eauto 10.
  - left. apply Hgo. destruct (Opts reg _) as [opts|]; [|by eexists]. destruct (_ <=? 0); [by eexists|].
    destruct (entryOf _ _ _ _). by eexists.
  - destruct (semSend a (mc_sems m)) as [sems|] eqn:E; [left; apply Hgo; by eexists|right]. eauto 10.
  - destruct (semSend semChan (mc_sems m)) as [sems|] eqn:E; [left; apply Hgo; by eexists|right]. eauto 10.
  - left. right. exists g. rewrite Epc. auto.
  - left. apply Hgo. destruct (markStart _ _ _ _) as [e [row t]]. destruct (jobContext _ _ _ _). by eexists.
  - left. right. exists g. rewrite Epc. auto.
  - left. apply Hgo. destruct (g_defers g) as [|f fs] eqn:Ed; [|by eexists]. destruct Ha. unfold acts. by rewrite Ht, Epc, Ed.
Qed.

(** ** Who holds what *)

Abbreviation inv queues := (shape_inv reg (λ _ _, True) (λ _ _, True) queues) (only parsing).

(** The keys a goroutine holds while it is still acquiring. *)
Definition heldKeys (at_ : pc) : list string :=
  match at_ with PKeys _ acquired | PKeyWait _ _ _ _ acquired => acquired.*1 | _ => [] end.

Lemma releaseKeys_recv a acquired : ARecv a ∈ releaseKeys acquired → ∃ key, (key, a) ∈ acquired.
Proof.
  induction acquired as [|[k b] acquired IH]; [by intros ?%not_elem_of_nil|].
  change (releaseKeys ((k, b) :: acquired)) with (ARecv b :: ADropRef keySemaphores k b :: releaseKeys acquired).
  rewrite !elem_of_cons. intros [[= ->]|[|(key & Hin)%IH]]; [|done|]; eexists; rewrite elem_of_cons; eauto.
Qed.

Lemma dropped_name m j g r key a : acc_inv m → mc_gors m !! j = Some g → ADropRef r key a ∈ acts g →
  se_named (mc_sems m) !! (r, key) = Some a.
Proof. intros Hi Hg Hin. eapply (le_drop _ _ (ai_ledger _ Hi)), elem_of_allActs. eauto. Qed.

(** Where a goroutine stands that holds a token of [a]. *)
Inductive holder m (g : Goroutine) (a : nat) : Prop :=
| ho_free : stage (g_pc g) = 5%nat → holder m g a
| ho_kind kind : se_named (mc_sems m) !! (kindSemaphores, kind) = Some a → (4 ≤ stage (g_pc g))%nat → holder m g a
| ho_gate key : se_named (mc_sems m) !! (rateGates, key) = Some a → (3 ≤ stage (g_pc g))%nat → holder m g a
| ho_key key : se_named (mc_sems m) !! (keySemaphores, key) = Some a →
    (2 ≤ stage (g_pc g))%nat ∨ key ∈ heldKeys (g_pc g) → holder m g a.

Lemma gateOk_frames row l f : gateOk (λ _ _, True) row l → f ∈ l →
  f ∈ [FWg; FPending; FQueueDone; FPipelineDone; FHeartbeat; FLease] ∨ (∃ acq, f = FKeys acq) ∨ ∃ key a, f = FRateGate key a.
Proof.
  intros (l0 & (acq & dn & l1 & _ & (l2 & Hl2 & Hl1) & ->) & Hl) Hf.
  assert (f ∈ l1 → f ∈ [FWg; FPending; FQueueDone; FPipelineDone; FHeartbeat; FLease]) as Hbase.
  { intros Hin. assert (f ∈ l2 ∨ f = FLease) as [Hin2| ->] by (destruct Hl1 as [->| ->]; set_solver); [|set_solver].
    unfold baseFrames in Hl2. destruct Hl2 as [->| ->]; set_solver. }
  destruct Hl as [->|(key & a & ->)]; rewrite ?elem_of_cons in Hf; naive_solver.
Qed.

Lemma kindOk_frames s row l f : kindOk reg (λ _ _, True) s row l → f ∈ l →
  f ∈ [FWg; FPending; FQueueDone; FPipelineDone; FHeartbeat; FLease] ∨ (∃ acq, f = FKeys acq) ∨ (∃ key a, f = FRateGate key a) ∨
  ∃ a, kindName s (Kind row) = Some a ∧ f = FToken a.
Proof.
  intros (l0 & Hg & [[_ ->]|(a & Ha & ->)]) Hf.
  - destruct (gateOk_frames _ _ _ Hg Hf) as [?|[?|?]]; auto.
  - apply elem_of_cons in Hf as [->|Hf]; [eauto 10|]. destruct (gateOk_frames _ _ _ Hg Hf) as [?|[?|?]]; auto.
Qed.

(** A deferred call that holds a token of a channel other than [pending]. *)
Lemma frame_holds row f a : ARecv a ∈ expand row f → a ≠ pendingChan →
  (∃ key acq, f = FKeys acq ∧ (key, a) ∈ acq) ∨ (∃ key, f = FRateGate key a) ∨ f = FToken a.
Proof.
  destruct f as [| | | | | |acq|key b|b]; simpl; intros Hin Hne; rewrite ?elem_of_cons, ?elem_of_nil in Hin.
  - naive_solver.
  - naive_solver.
  - naive_solver.
  - case_bool_decide; [by apply not_elem_of_nil in Hin|]. rewrite !elem_of_cons, elem_of_nil in Hin. naive_solver.
  - naive_solver.
  - naive_solver.
  - apply releaseKeys_recv in Hin as (key & Hin). left. eauto.
  - right; left. exists key. naive_solver.
  - right; right. naive_solver.
Qed.

Lemma acts_idle g x : g_todo g = [] → x ∈ acts g → x ∈ bailActions (g_pc g) ∨ ∃ f, f ∈ g_defers g ∧ x ∈ expand (g_row g) f.
Proof.
  intros Ht. unfold acts. rewrite Ht. simpl. rewrite elem_of_app. intros [?|Hin]; [by left|right].
  apply list_elem_of_In, in_concat in Hin as (l & Hl & Hx). apply list_elem_of_In, list_elem_of_fmap in Hl as (f & -> & Hf).
  exists f. split; [done|]. by apply list_elem_of_In.
Qed.

(** The deferred calls, by stage. *)
Lemma stage_frames s g : shape reg (λ _ _, True) s g →
  match stage (g_pc g) with
  | 0 | 1 => leaseOk (g_defers g)
  | 2 => keysOk (λ _ _, True) (g_row g) (g_defers g)
  | 3 => gateOk (λ _ _, True) (g_row g) (g_defers g)
  | 4 => kindOk reg (λ _ _, True) s (g_row g) (g_defers g)
  | _ => True
  end%nat.
Proof.
  intros [_ Hs]. assert (∀ l, hbOk l → leaseOk l) as Hl by (intros l ?; exists l; auto).
  destruct (g_pc g); simpl; try done; try (by apply Hl); try (by destruct Hs).
  apply Hl. by left.
Qed.

Lemma leaseOk_none l f : leaseOk l → f ∈ l → f ∈ [FWg; FPending; FQueueDone; FPipelineDone; FHeartbeat; FLease].
Proof. intros (l0 & [->| ->] & [->| ->]); unfold baseFrames; set_solver. Qed.

Lemma keysOk_frames row l f : keysOk (λ _ _, True) row l → f ∈ l →
  f ∈ [FWg; FPending; FQueueDone; FPipelineDone; FHeartbeat; FLease] ∨ ∃ acq, f = FKeys acq.
Proof.
  intros (acq & dn & l0 & _ & Hl & ->) [->|Hf]%elem_of_cons; [eauto|left]. by eapply leaseOk_none.
Qed.

(** A deferred call that holds a token, and how far its goroutine has come. *)
Lemma frame_stage s g f :
  shape reg (λ _ _, True) s g → f ∈ g_defers g →
  match f with
  | FKeys _ => 2 ≤ stage (g_pc g)
  | FRateGate _ _ => 3 ≤ stage (g_pc g)
  | FToken a => stage (g_pc g) = 5 ∨ (4 ≤ stage (g_pc g) ∧ kindName s (Kind (g_row g)) = Some a)
  | _ => True
  end%nat.
Proof.
  intros Hs Hf. pose proof (stage_frames _ _ Hs) as Hst.
  assert (stage (g_pc g) ≤ 5)%nat as H5 by (destruct (g_pc g); simpl; lia).
  destruct (stage (g_pc g)) as [|[|[|[|[|n]]]]].
  - apply (leaseOk_none _ f) in Hst; [|done]. destruct f; try done; set_solver.
  - apply (leaseOk_none _ f) in Hst; [|done]. destruct f; try done; set_solver.
  - apply (keysOk_frames _ _ f) in Hst as [Hst|[acq ->]]; [|lia|done]. destruct f; try done; set_solver.
  - apply (gateOk_frames _ _ f) in Hst as [Hst|[[acq ->]|(k & a & ->)]]; [|lia|lia|done]. destruct f; try done; set_solver.
  - apply (kindOk_frames _ _ _ f) in Hst as [Hst|[[acq ->]|[(k & a & ->)|(a & Ha & ->)]]]; [|lia|lia|auto|done].
    destruct f; try done; set_solver.
  - destruct f; try done; try lia.
Qed.

(** The keys held while acquiring. *)
Lemma bail_key g a : ARecv a ∈ bailActions (g_pc g) → ∃ key, key ∈ heldKeys (g_pc g) ∧ ADropRef keySemaphores key a ∈ bailActions (g_pc g).
Proof.
  assert (∀ acq, ARecv a ∈ releaseKeys acq → ∃ key, key ∈ acq.*1 ∧ ADropRef keySemaphores key a ∈ releaseKeys acq) as Hgen.
  { intros acq (key & Hk)%releaseKeys_recv. exists key. split; [|by apply releaseKeys_elem].
    apply list_elem_of_fmap. by exists (key, a). }
  destruct (g_pc g) as [| | | |rules acq|idx rules key' b acq| |key' b| |b| | | |t ctx|]; simpl;
    try (by intros ?%not_elem_of_nil).
  - apply Hgen.
  - intros [|Hb]%elem_of_cons; [done|]. destruct (Hgen _ Hb) as (key & ? & ?). exists key. split; [done|]. by apply list_elem_of_further.
  - by intros [|Hb%not_elem_of_nil]%elem_of_cons.
Qed.

Lemma holder_of queues m j g a :
  inv queues m → mc_gors m !! j = Some g → g_todo g = [] → a ≠ pendingChan → ARecv a ∈ acts g → holder m g a.
Proof.
  intros Hs Hg Ht Hne Hin. pose proof (si_acc _ _ _ _ _ Hs) as Hi. pose proof (si_shape _ _ _ _ _ Hs _ _ Hg) as Hsh.
  apply acts_idle in Hin as [Hb|(f & Hf & Hx)]; [|..|done].
  - apply bail_key in Hb as (key & Hk & Hd). apply ho_key with key; [|by right]. eapply dropped_name; [done..|].
    unfold acts. rewrite !elem_of_app. auto.
  - pose proof (frame_stage _ _ _ Hsh Hf) as Hst.
    destruct (frame_holds _ _ _ Hx Hne) as [(key & acq & -> & Hk)|[(key & ->)| ->]].
    + apply ho_key with key; [|by left]. eapply dropped_name; [done..|]. eapply frame_acts; [exact Hf|by apply releaseKeys_elem].
    + apply ho_gate with key; [|done]. eapply dropped_name; [done..|]. eapply frame_acts; [exact Hf|]. simpl. set_solver.
    + destruct Hst as [?|[? ?]]; [by apply ho_free|by eapply ho_kind].
Qed.

(** ** Chains of waiting *)

Definition released_by m (i : nat) : Prop := ∃ j, rtc (waits m) i j ∧ canGo m j.

Lemma released_go m i : canGo m i → released_by m i.
Proof. intros Hg. exists i. split; [constructor|done]. Qed.

Lemma released_step m i j : waits m i j → released_by m j → released_by m i.
Proof. intros Hw (k & Hk & Hg). exists k. split; [by eapply rtc_l|done]. Qed.

(** Whoever owes a release has not returned. *)
Lemma owes_live g x : x ∈ acts g → acts g ≠ [].
Proof. intros Hx E. rewrite E in Hx. by apply not_elem_of_nil in Hx. Qed.

(** The holder of a token of a full channel is in the way. *)
Lemma blocked_by queues m i g a :
  inv queues m → mc_gors m !! i = Some g → g_todo g = [] → waitsOn g = Some a → semSend a (mc_sems m) = None →
  (a < length (se_heap (mc_sems m)))%nat → a ≠ pendingChan →
  ∃ j gj, mc_gors m !! j = Some gj ∧ waits m i j ∧ acts gj ≠ [] ∧ (g_todo gj ≠ [] ∨ g_todo gj = [] ∧ holder m gj a).
Proof.
  intros Hs Hg Ht Hw Hb Hlt Hne. pose proof (si_acc _ _ _ _ _ Hs) as Hi.
  assert (ARecv a ∈ allActs (mc_gors m)) as (j & gj & Hj & Hin)%elem_of_allActs.
  { eapply ledger_blocked; [by apply ai_ledger|done| |done]. intros c Hc.
    destruct (ai_chans _ Hi) as (cp & cs & K1 & K2 & K3 & K4). pose proof (pi_capacity _ (ai_pool _ Hi)) as Hcap.
    destruct (decide (a = semChan)) as [->|Hsem]; [simplify_eq; lia|].
    pose proof (si_shape _ _ _ _ _ Hs _ _ Hg) as [_ Hsh].
    assert (∀ r key, se_named (mc_sems m) !! (r, key) = Some a → 1 ≤ sm_cap c) as Hn.
    { intros r key Hk. destruct (le_named _ _ (ai_ledger _ Hi) _ _ _ Hk) as (d & Hd & _ & Hd1). by simplify_eq. }
    unfold waitsOn in Hw. destruct (g_pc g) as [| | | |rules acq|idx rules key' b acq| |key' b| |b| | | |t ctx|] eqn:Epc; simplify_eq.
    - apply (Hn keySemaphores key'). eapply dropped_name; [done..|]. unfold acts. rewrite Epc. simpl. set_solver.
    - apply (Hn rateGates key'). eapply dropped_name; [done..|]. unfold acts. rewrite Epc. simpl. set_solver.
    - destruct Hsh as [_ Hk]. by eapply Hn. }
  exists j, gj. split_and!; [done| |by eapply owes_live|].
  - exists g, gj. split_and!; try done. right. eauto.
  - destruct (g_todo gj) eqn:Etj; [right|by left]. split; [done|]. by eapply holder_of.
Qed.

Lemma unwinding_goes m j g : acc_inv m → mc_gors m !! j = Some g → acts g ≠ [] → (g_todo g ≠ [] ∨ stage (g_pc g) = 5%nat) → canGo m j.
Proof.
  intros Hi Hg Ha Hor. destruct (go_or_wait m j g Hi Hg Ha) as [?|(Ht & Hc)]; [done|].
  destruct Hor as [Hne|Hst]; [done|]. destruct Hc as [[Epc _]|(a & Hw & _)]; [by rewrite Epc in Hst|].
  unfold waitsOn in Hw. by destruct (g_pc g).
Qed.

Lemma waitsOn_stage g a : waitsOn g = Some a → (1 ≤ stage (g_pc g) ≤ 4)%nat.
Proof. unfold waitsOn. destruct (g_pc g); simpl; try done; lia. Qed.

Lemma index_bound (gs : list Goroutine) : ∃ N, ∀ g, g ∈ gs → pcIndex (g_pc g) ≤ N.
Proof.
  induction gs as [|g gs [N IH]]; [exists 0; set_solver|]. exists (Z.max N (pcIndex (g_pc g))).
  intros h [->|Hh]%elem_of_cons; [lia|]. specialize (IH h Hh). lia.
Qed.

Section chains.
Context (queues : list string) (m : Machine S) (Hs : inv queues m).

(** The name of the channel a goroutine waits for says at which stage it is. *)
Lemma waits_name i g a : mc_gors m !! i = Some g → waitsOn g = Some a →
  (a = semChan ∧ stage (g_pc g) = 4%nat) ∨
  (∃ kind, se_named (mc_sems m) !! (kindSemaphores, kind) = Some a ∧ stage (g_pc g) = 3%nat) ∨
  (∃ key, se_named (mc_sems m) !! (rateGates, key) = Some a ∧ stage (g_pc g) = 2%nat) ∨
  (∃ idx rules key acq, g_pc g = PKeyWait idx rules key a acq ∧ se_named (mc_sems m) !! (keySemaphores, key) = Some a).
Proof.
  intros Hg Hw. pose proof (si_acc _ _ _ _ _ Hs) as Hi. pose proof (si_shape _ _ _ _ _ Hs _ _ Hg) as [_ Hsh].
  unfold waitsOn in Hw. destruct (g_pc g) as [| | | |rules acq|idx rules key b acq| |key b| |b| | | |t ctx|] eqn:Epc; simplify_eq.
  - do 3 right. exists idx, rules, key, acq. split; [done|]. eapply dropped_name; [done..|]. unfold acts. rewrite Epc. simpl. set_solver.
  - right; right; left. exists key. split; [|done]. eapply dropped_name; [done..|]. unfold acts. rewrite Epc. simpl. set_solver.
  - right; left. destruct Hsh as [_ Hk]. by exists (Kind (g_row g)).
  - by left.
Qed.

Lemma waits_chan i g a : mc_gors m !! i = Some g → waitsOn g = Some a →
  (a < length (se_heap (mc_sems m)))%nat ∧ a ≠ pendingChan.
Proof.
  intros Hg Hw. pose proof (si_acc _ _ _ _ _ Hs) as Hi.
  assert (∀ k, se_named (mc_sems m) !! k = Some a → (a < length (se_heap (mc_sems m)))%nat ∧ a ≠ pendingChan) as Hn.
  { intros [r key] Hk. pose proof (ai_named _ Hi _ _ Hk).
    destruct (le_named _ _ (ai_ledger _ Hi) _ _ _ Hk) as (d & Hd%lookup_lt_Some & _). unfold pendingChan. lia. }
  destruct (waits_name i g a Hg Hw) as [[-> _]|[(kind & Hk & _)|[(key & Hk & _)|(idx & rules & key & acq & _ & Hk)]]];
    try by eapply Hn.
  destruct (ai_chans _ Hi) as (cp & cs & K1 & K2 & K3%lookup_lt_Some & K4). split; [done|]. unfold semChan, pendingChan. lia.
Qed.

Context (names_free : Forall nulFree queues).

(** Whoever is past the key semaphores is released. *)
Lemma released_late n : ∀ i g, mc_gors m !! i = Some g → acts g ≠ [] → g_todo g = [] →
  (2 ≤ stage (g_pc g))%nat → (5 - stage (g_pc g) ≤ n)%nat → released_by m i.
Proof.
  pose proof (si_acc _ _ _ _ _ Hs) as Hi.
  induction n as [|n IH]; intros i g Hg Ha Ht Hge Hn.
  { apply released_go. eapply unwinding_goes; [done..|]. right. destruct (g_pc g); simpl in *; lia. }
  destruct (go_or_wait m i g Hi Hg Ha) as [?|(_ & [[Epc _]|(a & Hw & Hb)])]; [by apply released_go|by rewrite Epc in Hge; simpl in Hge; lia|].
  destruct (waits_chan _ _ _ Hg Hw) as [Hlt Hne].
  destruct (blocked_by _ _ _ _ _ Hs Hg Ht Hw Hb Hlt Hne) as (j & gj & Hj & Hwait & Haj & Hh).
  apply (released_step _ _ j); [done|]. destruct Hh as [?|[Htj Hh]]; [apply released_go; by eapply unwinding_goes; [..|left]|].
  destruct (decide (stage (g_pc gj) = 5%nat)) as [|Hst]; [apply released_go; by eapply unwinding_goes; [..|right]|].
  assert (stage (g_pc g) < stage (g_pc gj))%nat as Hlater; [|eapply IH; [done..|lia|lia]].
  pose proof (le_inj _ _ (ai_ledger _ Hi)) as Hinj. pose proof (waitsOn_stage _ _ Hw).
  assert (∀ k, se_named (mc_sems m) !! k = Some semChan → False) as Hsem.
  { intros k Hk. pose proof (ai_named _ Hi _ _ Hk). unfold semChan in *. lia. }
  destruct (waits_name i g a Hg Hw) as [[-> Es]|[(kind & Hk & Es)|[(key & Hk & Es)|(idx & rules & key & acq & Es & Hk)]]];
    destruct Hh as [?|kind' Hk' ?|key' Hk' ?|key' Hk' _]; try done; try (by destruct (Hsem _ Hk'));
    try (specialize (Hinj _ _ _ Hk Hk'); simplify_eq); try lia.
  by rewrite Es in Hge; simpl in Hge; lia.
Qed.

(** A goroutine that holds a key waits, if at all, for a later rule. *)
Lemma held_earlier j gj idx' rules' key' a' acq' i gi idx rules key a acq :
  mc_gors m !! j = Some gj → g_pc gj = PKeyWait idx' rules' key' a' acq' →
  mc_gors m !! i = Some gi → g_pc gi = PKeyWait idx rules key a acq →
  key ∈ acq'.*1 → idx < idx'.
Proof.
  intros Hj Ej Hg Eg Hin. pose proof (si_shape _ _ _ _ _ Hs _ _ Hj) as [_ Hsj]. rewrite Ej in Hsj.
  pose proof (si_shape _ _ _ _ _ Hs _ _ Hg) as [_ Hsi]. rewrite Eg in Hsi.
  destruct Hsj as (_ & dn' & rule' & (rs' & _ & Hrs' & Hacq') & _). destruct Hsi as (_ & dn & rule & (rs & _ & Hrs & _) & Ek).
  apply indexed_next in Hrs as [-> _]. pose proof Hrs' as Hrs2. apply indexed_next in Hrs2 as [-> _].
  rewrite Hacq', elem_of_reverse in Hin. unfold keysOf in Hin. apply list_elem_of_fmap in Hin as ([k r] & Ek' & [p Hp]%list_elem_of_lookup).
  pose proof (lookup_lt_Some _ _ _ Hp) as Hplt.
  assert (indexed rs' !! p = Some (k, r)) as Hk by (rewrite Hrs'; by apply lookup_app_l_Some).
  apply indexed_lookup in Hk as (r' & _ & [= -> <-]). rewrite Forall_forall in names_free.
  destruct (concurrencyKey_inj (g_row gi) (g_row gj) (Z.of_nat (length dn)) (Z.of_nat p) rule r) as (_ & Ei & _).
  - apply names_free. by eapply (si_queue _ _ _ _ _ Hs).
  - apply names_free. by eapply (si_queue _ _ _ _ _ Hs).
  - lia.
  - lia.
  - congruence.
  - lia.
Qed.

Lemma released_keys N n : (∀ g, g ∈ mc_gors m → pcIndex (g_pc g) ≤ N) →
  ∀ i g, mc_gors m !! i = Some g → acts g ≠ [] → g_todo g = [] → (1 ≤ stage (g_pc g))%nat →
  N - pcIndex (g_pc g) < Z.of_nat n → released_by m i.
Proof.
  intros HN. pose proof (si_acc _ _ _ _ _ Hs) as Hi. induction n as [|n IH]; intros i g Hg Ha Ht Hge Hn.
  { specialize (HN g ltac:(by eapply list_elem_of_lookup_2)). lia. }
  destruct (decide (2 ≤ stage (g_pc g))%nat); [by eapply released_late|].
  destruct (go_or_wait m i g Hi Hg Ha) as [?|(_ & [[Epc _]|(a & Hw & Hb)])]; [by apply released_go|by rewrite Epc in Hge; simpl in Hge; lia|].
  destruct (waits_chan _ _ _ Hg Hw) as [Hlt Hne].
  destruct (blocked_by _ _ _ _ _ Hs Hg Ht Hw Hb Hlt Hne) as (j & gj & Hj & Hwait & Haj & Hh).
  apply (released_step _ _ j); [done|]. destruct Hh as [?|[Htj Hh]]; [apply released_go; by eapply unwinding_goes; [..|left]|].
  destruct (decide (2 ≤ stage (g_pc gj))%nat) as [|Hst]; [by eapply released_late|].
  destruct (waits_name i g a Hg Hw) as [[-> Es]|[(kind & Hk & Es)|[(key & Hk & Es)|(idx & rules & key & acq & Es & Hk)]]]; try lia.
  destruct Hh as [?|kind' Hk' ?|key' Hk' ?|key' Hk' [?|Hheld]]; try lia.
  pose proof (le_inj _ _ (ai_ledger _ Hi) _ _ _ Hk Hk') as [= <-].
  destruct (go_or_wait m j gj Hi Hj Haj) as [?|(_ & [[Epc _]|(b & Hwb & _)])]; [by apply released_go|by rewrite Epc in Hheld; simpl in Hheld; set_solver|].
  destruct (waits_name j gj b Hj Hwb) as [[-> Es']|[(kind & _ & Es')|[(key' & _ & Es')|(idx' & rules' & key' & acq' & Es' & _)]]]; try lia.
  rewrite Es' in Hheld. pose proof (held_earlier _ _ _ _ _ _ _ _ _ _ _ _ _ _ Hj Es' Hg Es Hheld) as Hidx.
  eapply IH; [done..| |]; rewrite Es'; simpl; [lia|]. rewrite Es in Hn. simpl in Hn. lia.
Qed.
End chains.

(** C35: no deadlock.  In every state a pool reaches, a goroutine that has not
    returned waits, through finitely many others, for one that can take a step at
    once, is waiting for its rate limits, or is in its handler.  Queue names are
    assumed to be free of NUL characters. *)
Theorem no_deadlock cfg randomID evs s clk m i g :
  Forall nulFree (wc_Queues (wp_config (newWorkerPool name caps randomID cfg))) →
  mrun reg name caps lifecycle evs (newMachine (newWorkerPool name caps randomID cfg) s clk) = Some m →
  mc_gors m !! i = Some g → acts g ≠ [] →
  ∃ j, rtc (waits m) i j ∧ canGo m j.
Proof.
  intros Hnul Hrun. pose proof (free_run _ _ _ _ _ _ _ _ _ _ Hrun) as Hs.
  assert (acc_inv m ∧ ready_ok m) as [Hi Hok].
  { refine (mrun_ind reg name caps lifecycle (λ m, acc_inv m ∧ ready_ok m) evs _ m _ _ Hrun).
    - intros ev m1 m2 _ [Hi1 Hr1] Hm. split; [by eapply mstep_inv|].
      destruct (mstep_class reg name caps lifecycle _ _ _ Hi1 Hm) as [Hc _]. by eapply mclass_ready.
    - refine (conj (newMachine_inv name caps cfg randomID s clk) _). unfold ready_ok. simpl. intros j h k Hj. by rewrite lookup_nil in Hj. }
  destruct (index_bound (mc_gors m)) as [N HN]. revert g. induction (lt_wf i) as [i _ IH]. intros g Hg Ha.
  destruct (g_todo g) as [|x todo] eqn:Ht; [|apply released_go; eapply unwinding_goes; [done..|by left; rewrite Ht]].
  destruct (decide (1 ≤ stage (g_pc g))%nat).
  { eapply (released_keys _ _ Hs Hnul N (Z.to_nat (N - pcIndex (g_pc g) + 1))); [done..|lia]. }
  destruct (go_or_wait m i g Hi Hg Ha) as [?|(_ & [[Epc (k & Hk & Hnc)]|(a & Hw & _)])];
    [by apply released_go| |apply waitsOn_stage in Hw; lia].
  destruct (Hok _ _ _ Hg Hk) as (Hlt & Hne & gk & Hgk & Ep). apply (released_step _ _ k).
  - exists g, gk. split_and!; try done. left. auto.
  - apply (IH k Hlt gk Hgk). apply (owes_live _ AClosePipeline), elem_of_occ. rewrite (ai_close _ Hi _ _ Hgk).
    rewrite decide_False; [lia|]. rewrite Ep. naive_solver.
Qed.
End machine.
