(* ===== verification/WorkerPipelines.v ===== *)
(** * What the worker machine guarantees: pipelines are serial

    Jobs of one pipeline run one after another, in the order of their claims, as
    long as no job gives up while it waits for its turn. *)

From S2P Require Import Prelude GoBase Json Codec Core Driver RateLimit Sha256 WorkerConfig WorkerConfigProps.
From S2P Require Import WorkerRate WorkerRun WorkerSemaphores WorkerMachine WorkerMachineInv WorkerMachineShape WorkerMachineProps.
From S2P Require Import WorkerLiveness.
From Stdlib Require Import ZArith Lia.

(** Past the wait for the predecessor. *)
Definition passed (g : Goroutine) : Prop := match g_pc g with PStart | PReady => False | _ => True end.

(** The two releases of [pipelineDone] are made in order. *)
Definition todo_ok (g : Goroutine) : Prop :=
  AForgetPipeline ∈ g_todo g → g_todo g = [AClosePipeline; AForgetPipeline] ∨ g_todo g = [AForgetPipeline].

Section machine.
Context {S : Type} `{WorkerStore S} `{CursorStore S} `{MapRange} `{FloatConv} `{!LawfulFetch S}.
Context (reg : Registry) (name : string) (caps : Capabilities) (lifecycle : bool).
Implicit Types m : Machine S.

Abbreviation mstep' := (mstep reg name caps lifecycle) (only parsing).

(** The turn of a goroutine has come. *)
Definition turn m (g : Goroutine) : Prop := g_ready g = None ∨ ∃ k, g_ready g = Some k ∧ k ∈ mc_closed m.

(** No goroutine of the run gives up while it waits for its turn. *)
Fixpoint orderly (evs : list (event S)) m : Prop :=
  match evs with
  | [] => True
  | ev :: rest =>
      (∀ i g, ev = EBail i → mc_gors m !! i = Some g → g_pc g ≠ PReady) ∧
      match mstep' ev m with Some m' => orderly rest m' | None => True end
  end.

(** A run without such branches at all is one. *)
Lemma orderly_no_bail evs : ∀ m, Forall (λ ev, match ev with EBail _ => False | _ => True end) evs → orderly evs m.
Proof.
  induction evs as [|ev evs IH]; intros m Hf; simpl; [done|]. apply Forall_cons in Hf as [Hev Hf]. split.
  - by intros i g ->.
  - destruct (mstep' ev m); [by apply IH|done].
Qed.

(** What a step does to the standing of one goroutine. *)
Definition moves (ev : event S) m (i : nat) (g g' : Goroutine) : Prop :=
  todo_ok g' ∧ (passed g → passed g') ∧ (passed g' → passed g ∨ turn m g ∨ (ev = EBail i ∧ g_pc g = PReady)).

Lemma moves_refl ev m i g : todo_ok g → moves ev m i g g.
Proof. intros Hok. unfold moves. split_and!; auto. Qed.

Lemma todo_ok_none g : AForgetPipeline ∉ g_todo g → todo_ok g.
Proof. by intros Hn ?%Hn. Qed.

Lemma releaseKeys_forget acquired : AForgetPipeline ∉ releaseKeys acquired.
Proof.
  induction acquired as [|[k a] acquired IH]; [apply not_elem_of_nil|].
  change (releaseKeys ((k, a) :: acquired)) with (ARecv a :: ADropRef keySemaphores k a :: releaseKeys acquired). set_solver.
Qed.

Lemma expand_todo row f g : todo_ok (g_set_todo (expand row f) g).
Proof.
  destruct f; try (apply todo_ok_none; simpl; set_solver).
  - unfold todo_ok. simpl. case_bool_decide; [set_solver|auto].
  - apply todo_ok_none, releaseKeys_forget.
Qed.

Lemma giveUp_todo g : todo_ok (giveUp g).
Proof.
  apply todo_ok_none. unfold giveUp. simpl. rewrite elem_of_app. intros [Hin|Hin]; [|set_solver].
  destruct (g_pc g); simpl in Hin; try set_solver; try (by apply releaseKeys_forget in Hin).
  apply elem_of_cons in Hin as [|Hin]; [done|by apply releaseKeys_forget in Hin].
Qed.

Lemma gates_todo row (fs : list frame) g : todo_ok (g_set_todo (concat (expand row <$> filter (λ f, isRateGate f = true) fs)) g).
Proof.
  apply todo_ok_none. simpl. intros Hin. apply list_elem_of_In, in_concat in Hin as (l & Hl & Hx).
  apply list_elem_of_In, list_elem_of_fmap in Hl as (f & -> & [Hf _]%list_elem_of_filter).
  apply list_elem_of_In in Hx. destruct f; try done. simpl in Hx. set_solver.
Qed.

Lemma pop_todo g x todo : todo_ok g → g_todo g = x :: todo → todo_ok (g_set_todo todo g).
Proof.
  unfold todo_ok. simpl. intros Hok E Hin. rewrite E in Hok. destruct Hok as [[= -> ->]|[= -> ->]]; [set_solver|auto|set_solver].
Qed.

(** The goroutine at [i] after an update of [i]. *)
Lemma lookup_self (gs : list Goroutine) i g g' h : gs !! i = Some g → <[i := g']> gs !! i = Some h → h = g'.
Proof. intros Hi. rewrite list_lookup_insert_eq by (by eapply lookup_lt_Some). congruence. Qed.

Lemma advance_moves i g g' m m' :
  mc_gors m !! i = Some g → g_todo g = [] → advance reg lifecycle i g m = Some m' → mc_gors m' !! i = Some g' →
  moves (EGo i) m i g g'.
Proof.
  intros Hi Ht Hm Hg'. assert (todo_ok g) as Hok by (apply todo_ok_none; rewrite Ht; set_solver).
  assert (∀ h, g_todo h = [] → todo_ok h) as Hnil by (intros h Eh; apply todo_ok_none; rewrite Eh; set_solver).
  assert (∀ h (m1 : Machine S), mc_gors m1 = mc_gors m → mc_gors (set_gor i h m1) !! i = Some g' → g' = h) as Hself.
  { intros h m1 E. simpl. rewrite E. by eapply lookup_self. }
  revert Hm. unfold advance, moves, turn.
  destruct (g_pc g) as [| | | |rules acq|idx rules key a acq| |key a| |a| | | |t ctx|] eqn:Epc.
  - intros [= <-]. apply Hself in Hg' as ->; [|done]. unfold passed. rewrite Epc. simpl. split_and!; auto.
    apply Hnil. simpl. by destruct (beats _).
  - destruct (g_ready g) as [k|]; [case_decide|]; intros [= <-]; (apply Hself in Hg' as ->; [|done]); unfold passed; simpl;
      (split_and!; [by apply Hnil|done|]); intros _; right; left; eauto.
  - destruct (needsLease _ _); simpl.
    + destruct (electLease (g_row g) m) as [m1 r] eqn:E. destruct (electLease_frame _ _ _ _ E) as (F1 & _).
      destruct r as [[]|err]; intros [= <-]; [apply Hself in Hg' as ->; [|done]|simpl in Hg'; rewrite F1 in Hg'; simplify_eq..];
        unfold passed; rewrite ?Epc; simpl; split_and!; auto.
    + intros [= <-]. apply Hself in Hg' as ->; [|done]. unfold passed. rewrite Epc. simpl. split_and!; auto.
  - intros [= <-]. apply Hself in Hg' as ->; [|done]. unfold passed. rewrite Epc. simpl. split_and!; auto.
  - destruct rules as [|[j rule] rules]; [|destruct (acquireRef _ _ _ _)]; intros [= <-]; (apply Hself in Hg' as ->; [|done]);
      unfold passed; rewrite Epc; simpl; split_and!; auto.
  - destruct (semSend _ _); simpl; [|done]. intros [= <-]. apply Hself in Hg' as ->; [|done]. unfold passed. rewrite Epc. simpl. split_and!; auto.
  - destruct (queueRateLimits _ _); [|destruct (acquireRef _ _ _ _)]; intros [= <-]; (apply Hself in Hg' as ->; [|done]);
      unfold passed; rewrite Epc; simpl; split_and!; auto.
  - destruct (semSend _ _); simpl; [|done]. intros [= <-]. apply Hself in Hg' as ->; [|done]. unfold passed. rewrite Epc. simpl. split_and!; auto.
  - destruct (Opts reg _) as [opts|]; [destruct (_ <=? 0); [|destruct (entryOf _ _ _ _)]|]; intros [= <-];
      (apply Hself in Hg' as ->; [|done]); unfold passed; rewrite Epc; simpl; split_and!; auto.
  - destruct (semSend _ _); simpl; [|done]. intros [= <-]. apply Hself in Hg' as ->; [|done]. unfold passed. rewrite Epc. simpl. split_and!; auto.
  - destruct (semSend _ _); simpl; [|done]. intros [= <-]. apply Hself in Hg' as ->; [|done]. unfold passed. rewrite Epc. simpl. split_and!; auto.
  - done.
  - destruct (markStart _ _ _ _) as [e [row t]]. destruct (jobContext _ _ _ _). intros [= <-]. apply Hself in Hg' as ->; [|done].
    unfold passed. rewrite Epc. simpl. split_and!; auto.
  - done.
  - destruct (g_defers g) as [|f fs]; [done|]. intros [= <-]. apply Hself in Hg' as ->; [|done]. unfold passed. simpl. rewrite Epc.
    split_and!; auto. apply (expand_todo (g_row g) f).
Qed.

(** An update of goroutine [j] seen from goroutine [i]. *)
Lemma other_moves ev m m' i j g g' h h' :
  mc_gors m !! i = Some g → todo_ok g → mc_gors m !! j = Some h → mc_gors m' = <[j := h']> (mc_gors m) →
  (i = j → g = h → moves ev m i g h') → mc_gors m' !! i = Some g' → moves ev m i g g'.
Proof.
  intros Hg Hok Hh -> Hmv Hg'. destruct (decide (j = i)) as [->|Hne].
  - assert (g' = h') as -> by (by eapply lookup_self). apply Hmv; [done|congruence].
  - rewrite list_lookup_insert_ne in Hg' by done. simplify_eq. by apply moves_refl.
Qed.

Lemma mstep_moves ev m m' i g g' :
  acc_inv m → mstep' ev m = Some m' → mc_gors m !! i = Some g → mc_gors m' !! i = Some g' → todo_ok g → moves ev m i g g'.
Proof.
  intros Hi Hm Hg Hg' Hok.
  assert (mc_gors m' = mc_gors m → moves ev m i g g') as Hsame by (intros E; rewrite E in Hg'; simplify_eq; by apply moves_refl).
  assert (∀ j h h', mc_gors m !! j = Some h → mc_gors m' = <[j := h']> (mc_gors m) →
    (i = j → g = h → moves ev m i g h') → moves ev m i g g') as Hupd by (intros; by eapply other_moves).
  assert (∀ h, g_pc h = g_pc g → g_todo h = g_todo g → moves ev m i g h) as Hkeep.
  { intros h E1 E2. unfold moves, passed, todo_ok. rewrite E1, E2. split_and!; auto. }
  revert Hm. destruct ev as [| | |j|j|j o|j lost|j|j|j| |queue policy|s c|queue now before]; cbn [mstep].
  - intros [= <-]. apply Hsame. unfold Start. destruct (wp_configErr _); [done|]. destruct (mc_started m); [done|]. by destruct (mc_shutdown m).
  - destruct (_ && _); [|done]. intros [= <-]. apply Hsame. unfold beginFetch. destruct (mc_shutdown m); [done|]. by destruct (_ <=? 0).
  - unfold dispatch. destruct (mc_disp m) as [|free misses|[|row rows] free misses|]; [done| | | |done].
    + intros [= <-]. apply Hsame. by destruct (dispatchRound_spec free misses m) as ([E _] & _).
    + intros [= <-]. by apply Hsame.
    + destruct (launch row m) as [m1|] eqn:El; simpl; [|done]. intros [= <-]. apply launch_spec in El as (? & ? & _ & Egs & _).
      simpl in Hg'. rewrite Egs, (lookup_app_l_Some _ _ _ _ Hg) in Hg'. simplify_eq. by apply moves_refl.
  - unfold goStep. destruct (mc_gors m !! j) as [h|] eqn:Hj; simpl; [|done]. destruct (g_todo h) as [|x todo] eqn:Ht.
    + intros Hm. destruct (decide (i = j)) as [->|Hne].
      * simplify_eq. by eapply advance_moves.
      * destruct (mstep_class reg name caps lifecycle (EGo j) m m' Hi) as [Hc _].
        { simpl. unfold goStep. rewrite Hj. simpl. by rewrite Ht. }
        destruct (advance_own reg lifecycle j h m m') as (h' & E & _); try done.
        { by eapply live_keys. } { by eapply ai_limits. }
        by apply (Hupd j h h').
    + destruct (perform _ _ _ _) as [m1|] eqn:E; simpl; [|done]. intros [= <-].
      apply (Hupd j h (g_set_todo todo h)); [done| |].
      * simpl. f_equal. destruct (perform_released j h x m m1) as [E' _]; [|done|done]. intros -> Hcl.
        pose proof (ai_close _ Hi _ _ Hj) as Eo. rewrite decide_True in Eo by auto.
        rewrite (acts_pop _ _ _ Ht), occ_cons, decide_True in Eo by done.
        pose proof (occ_nonneg (eq AClosePipeline) (acts (g_set_todo todo h))). lia.
      * intros <- <-. unfold moves. split_and!; [by eapply pop_todo|done|by left].
  - unfold bailStep. destruct (mc_gors m !! j) as [h|] eqn:Hj; simpl; [|done]. destruct (g_todo h) eqn:Ht; [|done].
    destruct (mayBail _ _ h) eqn:Eb; [|done]. intros [= <-]. apply (Hupd j h (giveUp h)); [done..|]. intros <- <-.
    unfold moves. split_and!; [by apply giveUp_todo|done|]. intros _. unfold mayBail in Eb. unfold passed. destruct (g_pc g); auto; done.
  - unfold permitStep. destruct (mc_gors m !! j) as [h|] eqn:Hj; simpl; [|done]. destruct (g_todo h) eqn:Ht; [|done].
    destruct (g_pc h) eqn:Epc; try done. destruct (waitForRatePermit _ _ _ _ _ _ _ _ _) as [[e ok]|]; simpl; [|done]. destruct ok.
    + intros [= <-]. eapply (Hupd j h _); [done..|]. intros <- <-. unfold moves, passed. simpl. rewrite Epc.
      split_and!; [apply (gates_todo (g_row g) (g_defers g))|done|by left].
    + destruct (_ || _); [|done]. intros [= <-]. apply (Hupd j h (giveUp h)); [done..|]. intros <- <-. unfold moves, passed. simpl. rewrite Epc.
      split_and!; [apply giveUp_todo|done|by left].
  - unfold finishStep. destruct (mc_gors m !! j) as [h|] eqn:Hj; simpl; [|done]. destruct (g_todo h) eqn:Ht; [|done].
    destruct (g_pc h) eqn:Epc; try done. case_decide; [|done]. destruct (executeRow _ _ _ _ _ _). intros [= <-].
    eapply (Hupd j h _); [done..|]. intros <- <-. unfold moves, passed. simpl. rewrite Epc. split_and!; [done|done|by left].
  - destruct (mc_gors m !! j) as [h|] eqn:Hj; simpl; [|done]. intros [= <-]. apply (Hupd j h (g_cancel h)); [done..|].
    intros <- <-. by apply Hkeep.
  - unfold beatStep. destruct (mc_gors m !! j) as [h|] eqn:Hj; simpl; [|done]. case_decide; [|done].
    destruct (heartbeatTick _ _ _) as [e b]. intros [= <-]. eapply (Hupd j h _); [done..|]. intros <- <-. by destruct b; apply Hkeep.
  - unfold renewStep. destruct (mc_gors m !! j) as [h|] eqn:Hj; simpl; [|done]. case_decide; [|done].
    destruct (electLease (g_row h) m) as [m1 r] eqn:E. destruct (electLease_frame _ _ _ _ E) as (F1 & _).
    destruct r as [[]|err]; intros [= <-]; [by apply Hsame|..]; (eapply (Hupd j h _); [done|simpl; by rewrite F1|]; intros <- <-; by apply Hkeep).
  - destruct (locked m); [done|]. intros [= <-]. by apply Hsame.
  - destruct (locked m); [done|]. intros [= <-]. by apply Hsame.
  - intros [= <-]. by apply Hsame.
  - destruct ws_rescue; [|done]. destruct (mc_started m); [|done]. intros [= <-]. by apply Hsame.
Qed.

(** ** The queue of a pipeline *)

Definition inPipe (id : string) (g : Goroutine) : Prop := PipelineID (g_row g) = id.

Record pipe_inv (queues : list string) m : Prop := {
  pi_shape : shape_inv reg (λ _ _, True) (λ _ _, True) queues m;
  pi_ready : ready_ok m;
  pi_todo : ∀ i g, mc_gors m !! i = Some g → todo_ok g;
  pi_forget : ∀ i g, mc_gors m !! i = Some g → occ (eq AForgetPipeline) (acts g) ≤ 1;
  pi_closed : ∀ i g, mc_gors m !! i = Some g → i ∈ mc_closed m → passed g;
  (* the tail of a pipeline is its last goroutine; without one all are done *)
  pi_tail : ∀ id k j g, mc_tails m !! id = Some k → mc_gors m !! j = Some g → inPipe id g → (j ≤ k)%nat;
  pi_none : ∀ id j g, id ≠ "" → mc_tails m !! id = None → mc_gors m !! j = Some g → inPipe id g → j ∈ mc_closed m;
  (* whoever has passed has every predecessor behind it *)
  pi_order : ∀ id i j gi gj, id ≠ "" → (i < j)%nat → mc_gors m !! i = Some gi → mc_gors m !! j = Some gj →
    inPipe id gi → inPipe id gj → passed gj → i ∈ mc_closed m;
  (* whoever has not waits for the last one before it *)
  pi_wait : ∀ id i j gi gj, id ≠ "" → (i < j)%nat → mc_gors m !! i = Some gi → mc_gors m !! j = Some gj →
    inPipe id gi → inPipe id gj → ¬ passed gj →
    match g_ready gj with Some k => (i ≤ k)%nat | None => i ∈ mc_closed m end
}.

Lemma busy_passed queues m i g : pipe_inv queues m → mc_gors m !! i = Some g → g_todo g ≠ [] → passed g.
Proof.
  intros Hp Hg Ht. destruct (si_shape _ _ _ _ _ (pi_shape _ _ Hp) _ _ Hg) as [Hb _]. unfold passed.
  destruct (Hb Ht) as [-> | ->]; done.
Qed.

Lemma frames_both row (fs : list frame) :
  occ (eq AClosePipeline) (concat (expand row <$> fs)) = occ (eq AForgetPipeline) (concat (expand row <$> fs)).
Proof.
  induction fs as [|f fs IH]; [done|]. rewrite fmap_cons. simpl. rewrite !occ_app, IH. f_equal.
  destruct f as [| | | | | |acq| |]; simpl; try done; [by case_bool_decide|].
  unfold releaseKeys. induction acq as [|[k a] acq IHa]; [done|]. rewrite fmap_cons. simpl. rewrite !occ_cons.
  rewrite !decide_False by done. done.
Qed.

(** A pipeline is forgotten only after its [done] was closed. *)
Lemma forgotten_closed queues m i g todo :
  pipe_inv queues m → mc_gors m !! i = Some g → g_todo g = AForgetPipeline :: todo → PipelineID (g_row g) ≠ "" →
  i ∈ mc_closed m.
Proof.
  intros Hp Hg Ht Hid. pose proof (si_acc _ _ _ _ _ (pi_shape _ _ Hp)) as Hi.
  pose proof (si_shape _ _ _ _ _ (pi_shape _ _ Hp) _ _ Hg) as [Hb _].
  pose proof (pi_forget _ _ Hp _ _ Hg) as Hf. pose proof (ai_close _ Hi _ _ Hg) as Hc.
  destruct (pi_todo _ _ Hp _ _ Hg) as [E|E]; [rewrite Ht; apply list_elem_of_here|congruence|]. rewrite Ht in E. injection E as ->.
  assert (bailActions (g_pc g) = []) as Hbail by (destruct Hb as [-> | ->]; [by rewrite Ht|done..]).
  unfold acts in Hf, Hc. rewrite Ht, Hbail in Hf, Hc. simpl in Hf, Hc. rewrite occ_cons, decide_True in Hf by done.
  rewrite occ_cons, decide_False, frames_both in Hc by done.
  pose proof (occ_nonneg (eq AForgetPipeline) (concat (expand (g_row g) <$> g_defers g))).
  destruct (decide (PipelineID (g_row g) = "" ∨ i ∈ mc_closed m)) as [[?|?]|]; [done|done|lia].
Qed.

(** Updating one goroutine whose turn, if it passed, had come. *)
Lemma pipe_update queues m m' i g g' :
  pipe_inv queues m → mc_gors m !! i = Some g → mc_gors m' = <[i := g']> (mc_gors m) → sameGor g g' →
  shape_inv reg (λ _ _, True) (λ _ _, True) queues m' → ready_ok m' → todo_ok g' →
  (passed g → passed g') → (passed g' → passed g ∨ turn m g) → occ (eq AForgetPipeline) (acts g') ≤ occ (eq AForgetPipeline) (acts g) →
  mc_closed m ⊆ mc_closed m' → (∀ j, j ∈ mc_closed m' → j ∈ mc_closed m ∨ j = i ∧ passed g') →
  (∀ id k, mc_tails m' !! id = Some k → mc_tails m !! id = Some k) →
  (∀ id, id ≠ "" → mc_tails m' !! id = None → mc_tails m !! id = None ∨ mc_tails m !! id = Some i ∧ inPipe id g ∧ i ∈ mc_closed m) →
  pipe_inv queues m'.
Proof.
  intros Hp Hg Egs (_ & _ & _ & EP & _ & ER) Hsh' Hrd' Htd Hmono Hpass Hocc Hsub Hcl Htl Htn.
  pose proof (si_acc _ _ _ _ _ (pi_shape _ _ Hp)) as Hi.
  assert (∀ j h', mc_gors m' !! j = Some h' → ∃ h, mc_gors m !! j = Some h ∧ PipelineID (g_row h') = PipelineID (g_row h) ∧
    g_ready h' = g_ready h ∧ (j = i ∧ h = g ∧ h' = g' ∨ j ≠ i ∧ h = h')) as Hback.
  { intros j h'. rewrite Egs. intros [(-> & <- & _)|[Hne Hj]]%list_lookup_insert_Some; [exists g|exists h']; auto 10. }
  assert (∀ id j a b h, id ≠ "" → (a < j)%nat → mc_gors m !! a = Some b → mc_gors m !! j = Some h → inPipe id b → inPipe id h →
    passed h ∨ turn m h → a ∈ mc_closed m) as Hturn.
  { intros id j a b h Hid Hlt Ha Hj Hb Hh [Hps|Ht]; [by eapply (pi_order _ _ Hp id a j b h)|].
    destruct (decide (a ∈ mc_closed m)) as [|Hna]; [done|]. assert (¬ passed h) as Hnp.
    { intros Hps. apply Hna. by eapply (pi_order _ _ Hp id a j b h). }
    pose proof (pi_wait _ _ Hp id a j b h Hid Hlt Ha Hj Hb Hh Hnp) as Hw. destruct Ht as [Er|(k & Er & Hk)]; rewrite Er in Hw; [done|].
    destruct (decide (a = k)) as [->|Hne]; [done|]. destruct (pi_ready _ _ Hp _ _ _ Hj Er) as (_ & _ & gk & Hgk & Epk).
    apply (pi_order _ _ Hp id a k b gk); try done; [lia| |by eapply (pi_closed _ _ Hp)]. unfold inPipe in *. congruence. }
  split; try done.
  - intros j h' Hj. destruct (Hback _ _ Hj) as (h & Hh & _ & _ & [(-> & -> & ->)|[_ <-]]); [done|by eapply (pi_todo _ _ Hp)].
  - intros j h' Hj. destruct (Hback _ _ Hj) as (h & Hh & _ & _ & [(-> & -> & ->)|[_ <-]]); [|by eapply (pi_forget _ _ Hp)].
    pose proof (pi_forget _ _ Hp _ _ Hg). lia.
  - intros j h' Hj Hc. destruct (Hback _ _ Hj) as (h & Hh & _ & _ & [(-> & -> & ->)|[Hne <-]]).
    + destruct (Hcl _ Hc) as [Hc'|[_ ?]]; [|done]. apply Hmono. by eapply (pi_closed _ _ Hp).
    + destruct (Hcl _ Hc) as [Hc'|[? _]]; [by eapply (pi_closed _ _ Hp)|done].
  - intros id k j h' Hk%Htl Hj Hin. destruct (Hback _ _ Hj) as (h & Hh & Ep & _). eapply (pi_tail _ _ Hp id k j h); try done.
    unfold inPipe in *. congruence.
  - intros id j h' Hid Hn Hj Hin. destruct (Hback _ _ Hj) as (h & Hh & Ep & _). apply Hsub.
    assert (inPipe id h) as Hin' by (unfold inPipe in *; congruence).
    destruct (Htn _ Hid Hn) as [Hn'|(Hk & Hgi & Hic)]; [by eapply (pi_none _ _ Hp id)|].
    pose proof (pi_tail _ _ Hp _ _ _ _ Hk Hh Hin') as Hle. destruct (decide (j = i)) as [->|Hne]; [done|].
    apply (pi_order _ _ Hp id j i h g); try done; [lia|by eapply (pi_closed _ _ Hp)].
  - intros id a b ga gb Hid Hlt Ha Hb Hia Hib Hps. apply Hsub. destruct (Hback _ _ Ha) as (ga0 & Ha0 & Epa & _).
    destruct (Hback _ _ Hb) as (gb0 & Hb0 & Epb & _ & Hor).
    assert (inPipe id ga0) by (unfold inPipe in *; congruence). assert (inPipe id gb0) by (unfold inPipe in *; congruence).
    eapply (Hturn id b a ga0 gb0); try done. destruct Hor as [(-> & -> & ->)|[_ <-]]; [by apply Hpass|by left].
  - intros id a b ga gb Hid Hlt Ha Hb Hia Hib Hnp. destruct (Hback _ _ Ha) as (ga0 & Ha0 & Epa & _).
    destruct (Hback _ _ Hb) as (gb0 & Hb0 & Epb & Erb & Hor).
    assert (inPipe id ga0) by (unfold inPipe in *; congruence). assert (inPipe id gb0) by (unfold inPipe in *; congruence).
    assert (¬ passed gb0) as Hnp0 by (destruct Hor as [(-> & -> & ->)|[_ <-]]; auto).
    pose proof (pi_wait _ _ Hp id a b ga0 gb0 Hid Hlt Ha0 Hb0 ltac:(done) ltac:(done) Hnp0) as Hw. rewrite Erb.
    destruct (g_ready gb0); [done|by apply Hsub].
Qed.

(** A new goroutine queues up behind the tail. *)
Lemma pipe_launch queues row rows free misses m m1 :
  pipe_inv queues m → launch row m = Some m1 → shape_inv reg (λ _ _, True) (λ _ _, True) queues (set_disp (DRows rows free misses) m1) →
  ready_ok (set_disp (DRows rows free misses) m1) → pipe_inv queues (set_disp (DRows rows free misses) m1).
Proof.
  intros Hp (ready & sems & _ & Egs & _ & _ & Ecl & _ & _ & _ & _ & _ & Htl)%launch_spec Hs' Hrd'.
  pose proof (si_acc _ _ _ _ _ (pi_shape _ _ Hp)) as Hi.
  set (h := mkGoroutine row ready false (CtxRoot 0) PStart [] baseFrames) in *.
  assert (∀ j g, mc_gors m1 !! j = Some g → mc_gors m !! j = Some g ∨ j = length (mc_gors m) ∧ g = h) as Hback.
  { intros j g. rewrite Egs. intros [Hj|[Hle Hj]]%lookup_app_Some; [by left|right].
    apply list_lookup_singleton_Some in Hj as [? <-]. split; [lia|done]. }
  assert (∀ id k, mc_tails m1 !! id = Some k → k = length (mc_gors m) ∧ PipelineID row = id ∨ mc_tails m !! id = Some k ∧ PipelineID row ≠ id) as Htail.
  { intros id k Hk. destruct Htl as [(Hid & _ & E)|(Hid & _ & E)]; rewrite E in Hk.
    - right. split; [done|]. destruct (ai_tails _ Hi _ _ Hk) as [? _]. congruence.
    - apply lookup_insert_Some in Hk as [[<- <-]|[? ?]]; [by left|by right]. }
  assert (∀ j g, mc_gors m !! j = Some g → (j < length (mc_gors m))%nat) as Hlt by (intros; by eapply lookup_lt_Some).
  split; simpl; try done.
  - intros j g [Hj|[_ ->]]%Hback; [by eapply (pi_todo _ _ Hp)|]. apply todo_ok_none. simpl. set_solver.
  - intros j g [Hj|[_ ->]]%Hback; [by eapply (pi_forget _ _ Hp)|]. unfold h. rewrite spawned_acts, occ_app.
    by case_bool_decide.
  - intros j g [Hj|[-> _]]%Hback; rewrite Ecl; [by eapply (pi_closed _ _ Hp)|]. intros Hc%(ai_closed _ Hi). lia.
  - intros id k j g [[-> _]|[Hk Hne]]%Htail [Hj|[-> ->]]%Hback Hin; [by apply Hlt in Hj; lia|done|by eapply (pi_tail _ _ Hp)|done].
  - intros id j g Hid Hn Hj Hin. rewrite Ecl. assert (mc_tails m !! id = None ∧ PipelineID row ≠ id) as [Hn' Hne].
    { destruct Htl as [(Hrow & _ & E)|(Hrow & _ & E)]; rewrite E in Hn; [by split; [|congruence]|].
      by apply lookup_insert_None in Hn. }
    apply Hback in Hj as [Hj|[_ ->]]; [by eapply (pi_none _ _ Hp)|done].
  - intros id a b ga gb Hid Hab Ha Hb Hia Hib Hps. rewrite Ecl. apply Hback in Hb as [Hb|[-> ->]]; [|done].
    apply Hback in Ha as [Ha|[-> _]]; [by eapply (pi_order _ _ Hp id a b ga gb)|]. apply Hlt in Hb. lia.
  - intros id a b ga gb Hid Hab Ha Hb Hia Hib Hnp. rewrite Ecl.
    apply Hback in Ha as [Ha|[-> _]]; [|apply Hback in Hb as [Hb%Hlt|[-> _]]; lia].
    apply Hback in Hb as [Hb|[-> ->]]; [by eapply (pi_wait _ _ Hp id a b ga gb)|]. unfold inPipe in Hib. simpl in Hib. simpl.
    destruct Htl as [(Hrow & _ & _)|(Hrow & -> & _)]; [congruence|]. rewrite Hib.
    destruct (mc_tails m !! id) as [k|] eqn:Ek; [by eapply (pi_tail _ _ Hp)|by eapply (pi_none _ _ Hp)].
Qed.

(** Once its [done] is closed a goroutine only unwinds. *)
Lemma closed_unwinds queues m i g :
  pipe_inv queues m → mc_gors m !! i = Some g → i ∈ mc_closed m → PipelineID (g_row g) ≠ "" → g_pc g = PUnwind.
Proof.
  intros Hp Hg Hc Hid. pose proof (pi_shape _ _ Hp) as Hs. pose proof (si_acc _ _ _ _ _ Hs) as Hi.
  pose proof (ai_close _ Hi _ _ Hg) as Eo. rewrite decide_True in Eo by auto.
  assert (FPipelineDone ∉ g_defers g) as Hno.
  { intros Hin. assert (0 < occ (eq AClosePipeline) (acts g)); [|lia]. apply elem_of_occ. eapply frame_acts; [exact Hin|].
    simpl. rewrite bool_decide_eq_false_2 by done. set_solver. }
  pose proof (si_shape _ _ _ _ _ Hs _ _ Hg) as Hsh. destruct (g_pc g) eqn:Epc; try done; exfalso; apply Hno;
    (eapply shape_pipeline; [exact Hsh|by rewrite Epc]).
Qed.

Lemma mstep_pipe queues ev m m' :
  pipe_inv queues m → mstep' ev m = Some m' → (∀ i g, ev = EBail i → mc_gors m !! i = Some g → g_pc g ≠ PReady) →
  pipe_inv queues m'.
Proof.
  intros Hp Hm Hord. pose proof (pi_shape _ _ Hp) as Hs. pose proof (si_acc _ _ _ _ _ Hs) as Hi.
  assert (shape_inv reg (λ _ _, True) (λ _ _, True) queues m') as Hs' by (by eapply mstep_shape).
  destruct (mstep_class reg name caps lifecycle _ _ _ Hi Hm) as [Hc _].
  assert (ready_ok m') as Hrd' by (eapply mclass_ready; [done..|by apply (pi_ready _ _ Hp)]).
  assert (∀ i g g', mc_gors m !! i = Some g → mc_gors m' !! i = Some g' → moves ev m i g g') as Hmv.
  { intros i g g' Hg Hg'. eapply mstep_moves; [done..|by eapply (pi_todo _ _ Hp)]. }
  destruct Hc as [i g Hg (g' & Egs & Hgm & Hsame & [_ _ Et Ecl _ _ _ _ _] & _)|i g x todo m1 Hg Ht Hpf Em|row rows free misses m1 Hd Hla Em|Egs _ Et Ecl _].
  - destruct (Hmv i g g' Hg) as (Htd & Hmono & Hpass); [by rewrite Egs, list_lookup_insert_eq by (by eapply lookup_lt_Some)|].
    apply (pipe_update queues m m' i g g'); rewrite ?Et, ?Ecl; try done; auto.
    + intros Hg'. destruct (Hpass Hg') as [?|[?|[-> Hpc]]]; auto. by destruct (Hord i g).
    + by rewrite (gmove_counted _ _ _ _ AForgetPipeline Hgm).
  - assert (x = AClosePipeline → i ∉ mc_closed m) as Hnc.
    { intros -> Hcl. pose proof (ai_close _ Hi _ _ Hg) as Eo. rewrite decide_True in Eo by auto.
      rewrite (acts_pop _ _ _ Ht), occ_cons, decide_True in Eo by done.
      pose proof (occ_nonneg (eq AClosePipeline) (acts (g_set_todo todo g))). lia. }
    destruct (perform_released i g x m m1 Hnc Hpf) as [Egs _ _ _ _ _ _ _ Ecl Et _].
    assert (passed g) as Hpg by (eapply busy_passed; [done..|by rewrite Ht]).
    assert (mc_gors m' = <[i := g_set_todo todo g]> (mc_gors m)) as Egs' by (rewrite Em; simpl; by rewrite Egs).
    destruct (Hmv i g (g_set_todo todo g) Hg) as (Htd & _); [by rewrite Egs', list_lookup_insert_eq by (by eapply lookup_lt_Some)|].
    apply (pipe_update queues m m' i g (g_set_todo todo g)); try done; auto.
    + rewrite (acts_pop _ _ _ Ht), occ_cons. destruct (decide (AForgetPipeline = x)); lia.
    + rewrite Em. simpl. rewrite Ecl. case_decide; set_solver.
    + intros j. rewrite Em. simpl. rewrite Ecl. case_decide; [|auto]. rewrite elem_of_union, elem_of_singleton. intros [->|?]; auto.
    + intros id k. rewrite Em. simpl. by intros [Hk _]%Et.
    + intros id Hid. rewrite Em. simpl. intros Hn. destruct (mc_tails m !! id) as [k|] eqn:Ek; [right|by left].
      destruct (decide (x = AForgetPipeline)) as [->|Hx].
      * simpl in Hpf. injection Hpf as <-. case_decide as Hk'; simpl in Hn; [|congruence].
        apply lookup_delete_None in Hn as [<-|?]; [|congruence]. split_and!; [congruence|done|].
        eapply forgotten_closed; [done..|]. by destruct (ai_tails _ Hi _ _ Ek).
      * exfalso. assert (mc_tails m1 = mc_tails m) as E; [|congruence]. clear -Hpf Hx. destruct x; simpl in Hpf; simplify_eq; try done.
        -- destruct (semRecv _ _); simplify_eq/=. done.
        -- destruct (ws_resign _ _). by simplify_eq.
        -- case_decide; by simplify_eq.
        -- rewrite (queueDone_frame _ m). done.
  - subst m'. by eapply pipe_launch.
  - destruct Hp as [_ _ P1 P2 P3 P4 P5 P6 P7]. by split; rewrite ?Egs, ?Et, ?Ecl.
Qed.

Lemma mrun_pipe queues evs : ∀ m m', pipe_inv queues m → orderly evs m → mrun reg name caps lifecycle evs m = Some m' → pipe_inv queues m'.
Proof.
  induction evs as [|ev evs IH]; intros m m' Hp Ho; simpl; [by intros [= <-]|]. destruct Ho as [Ho1 Ho2].
  destruct (mstep' ev m) as [m1|] eqn:E; simpl; [|done]. apply IH; [|done]. by eapply mstep_pipe.
Qed.

Lemma newMachine_pipe cfg randomID s clk :
  pipe_inv (wc_Queues (wp_config (newWorkerPool name caps randomID cfg))) (newMachine (newWorkerPool name caps randomID cfg) s clk).
Proof.
  assert (mrun reg name caps lifecycle [] (newMachine (newWorkerPool name caps randomID cfg) s clk) =
    Some (newMachine (newWorkerPool name caps randomID cfg) s clk)) as Hrun by done.
  apply free_run in Hrun. split; try done.
Qed.

(** C36: pipelines are serial and first in, first out.  In a run in which no job
    gives up while it waits for its turn, a job that has got past the wait, up to
    its handler and beyond, finds every earlier job of its pipeline finished with
    its handler and its pipeline closed; so never do two handlers of one pipeline
    run at the same time. *)
Theorem pipelines_serial cfg randomID evs s clk m id :
  let m0 := newMachine (newWorkerPool name caps randomID cfg) s clk in
  orderly evs m0 → mrun reg name caps lifecycle evs m0 = Some m → id ≠ "" →
  (∀ i j gi gj, (i < j)%nat → mc_gors m !! i = Some gi → mc_gors m !! j = Some gj → inPipe id gi → inPipe id gj →
    passed gj → i ∈ mc_closed m ∧ g_pc gi = PUnwind) ∧
  (∀ i j gi gj, mc_gors m !! i = Some gi → mc_gors m !! j = Some gj → inPipe id gi → inPipe id gj →
    running gi → running gj → i = j).
Proof.
  intros m0 Ho Hrun Hid. pose proof (mrun_pipe _ _ _ _ (newMachine_pipe cfg randomID s clk) Ho Hrun) as Hp.
  assert (∀ i j gi gj, (i < j)%nat → mc_gors m !! i = Some gi → mc_gors m !! j = Some gj → inPipe id gi → inPipe id gj →
    passed gj → i ∈ mc_closed m ∧ g_pc gi = PUnwind) as Hser.
  { intros i j gi gj Hlt Hi Hj Hgi Hgj Hps. assert (i ∈ mc_closed m) as Hc by (by eapply (pi_order _ _ Hp id i j gi gj)).
    split; [done|]. eapply closed_unwinds; [done..|]. unfold inPipe in Hgi. congruence. }
  assert (∀ g, running g → passed g) as Hrp by (intros g; unfold running, passed; by destruct (g_pc g)).
  assert (∀ g, running g → g_pc g ≠ PUnwind) as Hru by (intros g Hr E; unfold running in Hr; by rewrite E in Hr).
  split; [done|]. intros i j gi gj Hi Hj Hgi Hgj Hri Hrj. destruct (lt_eq_lt_dec i j) as [[Hlt|]|Hlt]; [|done|].
  - destruct (Hser i j gi gj) as [_ E]; auto. by destruct (Hru gi).
  - destruct (Hser j i gj gi) as [_ E]; auto. by destruct (Hru gj).
Qed.
End machine.
