(* ===== verification/WorkerDispatch.v ===== *)
(** * What the worker machine guarantees: the dispatcher

    A call of [fetchAndDispatch] ends after a bounded number of steps and never
    blocks on the pending channel; it visits the queues in proportion to their
    weights, and stops only when the pool is full or a whole round has found
    nothing to claim. *)

From S2P Require Import Prelude GoBase Json Codec Core Driver RateLimit Sha256 WorkerConfig WorkerConfigProps.
From S2P Require Import WorkerRate WorkerRun WorkerSemaphores WorkerMachine WorkerMachineInv WorkerMachineShape WorkerMachineProps.
From S2P Require Import WorkerLiveness.
From Stdlib Require Import ZArith Lia.

(** ** The round robin *)

(** The [n] slots from position [c] of the cursor on. *)
Definition slotAt (p : WorkerPool) (c : Z) : option string := (nextSlot p c).2.
Definition slotsFrom (p : WorkerPool) (c : Z) (n : nat) : list (option string) := (λ k, slotAt p (c + Z.of_nat k)) <$> seq 0 n.

Definition scheduleLen (p : WorkerPool) : Z := Z.of_nat (length (wp_queueSchedule p)).

Lemma nextSlot_spec p c :
  0 ≤ c < 2 ^ 63 → wp_queueSchedule p ≠ [] →
  nextSlot p c = (c + 1, wp_queueSchedule p !! Z.to_nat (c mod scheduleLen p)) ∧
  is_Some (wp_queueSchedule p !! Z.to_nat (c mod scheduleLen p)).
Proof.
  intros Hc Hne. unfold nextSlot, scheduleLen. set (n := Z.of_nat (length (wp_queueSchedule p))).
  assert (0 < n) as Hn by (unfold n; destruct (wp_queueSchedule p); [done|simpl; lia]).
  rewrite (Z.mod_small (c + 1)) by lia. rewrite (Z.mod_small (c + 1 - 1)) by lia. replace (c + 1 - 1) with c by lia.
  rewrite wrap64_id by (unfold is_int64, int64_min, int64_max; lia). rewrite Z.rem_mod_nonneg by lia.
  pose proof (Z.mod_pos_bound c n Hn) as Hb. rewrite (proj2 (Z.ltb_ge _ _)) by lia. split; [done|].
  apply lookup_lt_is_Some_2. lia.
Qed.

Lemma seq_shift_map (n : nat) : seq 1 n = S <$> seq 0 n.
Proof. by rewrite fmap_S_seq. Qed.

(** A whole turn of the cursor visits every slot once. *)
Lemma slots_turn p c :
  0 ≤ c → c + scheduleLen p ≤ 2 ^ 63 → slotsFrom p c (length (wp_queueSchedule p)) ≡ₚ Some <$> wp_queueSchedule p.
Proof.
  intros Hc Hlt. destruct (decide (wp_queueSchedule p = [])) as [E|Hne]; [by rewrite E|].
  unfold scheduleLen in *. set (l := wp_queueSchedule p) in *. set (n := length l) in *.
  assert (0 < Z.of_nat n) as Hn by (unfold n; destruct l; [done|simpl; lia]).
  assert (slotsFrom p c n = (λ k, l !! Z.to_nat ((c + Z.of_nat k) mod Z.of_nat n)) <$> seq 0 n) as ->.
  { unfold slotsFrom. apply list_fmap_ext. intros i k Hk%lookup_seq. unfold slotAt.
    destruct (nextSlot_spec p (c + Z.of_nat k)) as [E _]; [lia|done|]. by rewrite E. }
  assert (Some <$> l = (λ k, l !! k) <$> seq 0 n) as ->.
  { apply list_eq. intros i. rewrite !list_lookup_fmap. destruct (decide (i < n)%nat) as [Hi|Hi].
    - rewrite lookup_seq_lt by done. simpl. destruct (lookup_lt_is_Some_2 l i Hi) as [x Hx]. by rewrite Hx.
    - rewrite lookup_seq_ge, (lookup_ge_None_2 l) by (unfold n in *; lia). done. }
  set (at_ k := Z.to_nat ((c + Z.of_nat k) mod Z.of_nat n)). change (((λ k, l !! k) ∘ at_) <$> seq 0 n ≡ₚ (λ k, l !! k) <$> seq 0 n).
  rewrite list_fmap_compose. apply fmap_Permutation.
  apply submseteq_length_Permutation; [|by rewrite length_fmap].
  apply NoDup_submseteq.
  - apply NoDup_fmap_2_strong; [|apply NoDup_seq]. intros x y Hx Hy E. unfold at_ in E. apply elem_of_seq in Hx, Hy.
    pose proof (Z.mod_pos_bound (c + Z.of_nat x) _ Hn). pose proof (Z.mod_pos_bound (c + Z.of_nat y) _ Hn).
    assert ((c + Z.of_nat x) mod Z.of_nat n = (c + Z.of_nat y) mod Z.of_nat n) as E' by lia.
    pose proof (Z.div_mod (c + Z.of_nat x) (Z.of_nat n) ltac:(lia)). pose proof (Z.div_mod (c + Z.of_nat y) (Z.of_nat n) ltac:(lia)).
    assert ((c + Z.of_nat x) / Z.of_nat n = (c + Z.of_nat y) / Z.of_nat n) by nia. nia.
  - intros x (k & -> & Hk%elem_of_seq)%list_elem_of_fmap. apply elem_of_seq. unfold at_.
    pose proof (Z.mod_pos_bound (c + Z.of_nat k) _ Hn). lia.
Qed.

(** In a whole turn a queue has as many slots as in the schedule. *)
Lemma turn_slots p c queue :
  0 ≤ c → c + scheduleLen p ≤ 2 ^ 63 →
  Z.of_nat (length (filter (λ q, q = Some queue) (slotsFrom p c (length (wp_queueSchedule p))))) = slots (wp_queueSchedule p) queue.
Proof.
  intros Hc Hlt. rewrite (slots_turn p c) by done. unfold slots. f_equal. induction (wp_queueSchedule p) as [|q l IH]; [done|].
  rewrite fmap_cons, !filter_cons. destruct (decide (q = queue)).
  - rewrite decide_True by congruence. simpl. by rewrite IH.
  - rewrite decide_False by congruence. done.
Qed.

(** ** Progress of the dispatcher *)

Section machine.
Context {S : Type} `{WorkerStore S} `{CursorStore S} `{MapRange} `{FloatConv} `{!LawfulFetch S}.
Context (reg : Registry) (name : string) (caps : Capabilities) (lifecycle : bool).
Implicit Types m : Machine S.
Abbreviation step := (mstep reg name caps lifecycle) (only parsing).
Abbreviation run := (mrun reg name caps lifecycle) (only parsing).

(** How many claims are unfinished. *)
Definition pendingLen m : Z := sm_len (chanOf pendingChan (mc_sems m)).

(** The steps of other goroutines leave the dispatcher where it is. *)
Record bystander (ev : event S) m m' : Prop := {
  by_cursor : mc_cursor m' = mc_cursor m;
  by_disp : ev ≠ EFetch → mc_disp m' = mc_disp m;
  by_pool : (∀ queue policy, ev ≠ EPolicy queue policy) → mc_pool m' = mc_pool m;
  by_pending : pendingLen m' ≤ pendingLen m
}.

Lemma same_bystander ev m m' : sameCore m m' → mc_sems m' = mc_sems m → bystander ev m m'.
Proof. intros [? ? ? ? ? ? ? ? ?] E. split; try done. unfold pendingLen. by rewrite E. Qed.

Lemma own_bystander ev i m m' : ev ≠ EGo i → (∃ g, mc_gors m !! i = Some g ∧ ownStep i g m m') → mc_sems m' = mc_sems m → bystander ev m m'.
Proof. intros _ (g & _ & g' & _ & _ & _ & Hc & _) E. by apply same_bystander. Qed.

Lemma chan_frame (s : Semaphores) a c : a ≠ pendingChan → chanOf pendingChan (setSem a c s) = chanOf pendingChan s.
Proof. intros Hne. unfold chanOf, setSem. simpl. by rewrite list_lookup_insert_ne. Qed.

Lemma send_frame a s s' : a ≠ pendingChan → semSend a s = Some s' → chanOf pendingChan s' = chanOf pendingChan s.
Proof. intros Hne (c & _ & _ & ->)%semSend_spec. by apply chan_frame. Qed.

Lemma entry_frame m r key cap s' a : acc_inv m → entryOf r key cap (mc_sems m) = (s', a) →
  chanOf pendingChan s' = chanOf pendingChan (mc_sems m) ∧ a ≠ pendingChan.
Proof.
  intros Hi. destruct (ai_chans _ Hi) as (cp & cs & K1 & _ & K3%lookup_lt_Some & _). unfold entryOf.
  destruct (se_named _ !! _) as [b|] eqn:E; intros [= <- <-].
  - split; [done|]. apply (ai_named _ Hi) in E. unfold pendingChan. lia.
  - unfold chanOf. simpl. rewrite (lookup_app_l_Some _ _ _ _ K1), K1. split; [done|]. unfold semChan, pendingChan in *. lia.
Qed.

Lemma ref_frame m r key cap s' a : acc_inv m → acquireRef r key cap (mc_sems m) = (s', a) →
  chanOf pendingChan s' = chanOf pendingChan (mc_sems m).
Proof.
  intros Hi. unfold acquireRef. destruct (entryOf _ _ _ _) as [s1 b] eqn:E. apply (entry_frame m) in E as [E Hne]; [|done].
  destruct (se_heap s1 !! b); intros [= <- _]; [|done]. by rewrite chan_frame.
Qed.

Lemma advance_bystander queues i g m m' :
  shape_inv reg (λ _ _, True) (λ _ _, True) queues m → mc_gors m !! i = Some g → g_todo g = [] → advance reg lifecycle i g m = Some m' →
  bystander (EGo i) m m'.
Proof.
  intros Hs Hg Ht Ha. pose proof (si_acc _ _ _ _ _ Hs) as Hi.
  assert (ownStep i g m m') as (g' & _ & _ & _ & [? ? ? ? Hcur ? ? ? ?] & _)
    by (eapply advance_own; try done; [by eapply live_keys|by eapply ai_limits]).
  split; try done. unfold pendingLen. apply Z.eq_le_incl. f_equal. revert Ha. unfold advance.
  assert (∀ a s', waitsOn g = Some a → semSend a (mc_sems m) = Some s' → chanOf pendingChan s' = chanOf pendingChan (mc_sems m)) as Hsend.
  { intros a s' Hw. apply send_frame. by apply (waits_chan reg queues m Hs i g a Hg). }
  assert (waitsOn g = match g_pc g with PKeyWait _ _ _ a _ | PGateWait _ a | PKindWait a => Some a | PSem => Some semChan | _ => None end) as Hw by done.
  destruct (g_pc g) as [| | | |[|[index rule] rules] acq|idx rules key b acq| |key b| |b| | | |t ctx|] eqn:Epc; intros Ha.
  - by simplify_eq.
  - destruct (g_ready g); [case_decide; [|done]|]; by simplify_eq.
  - destruct (negb _); [by simplify_eq|]. destruct (electLease (g_row g) m) as [m1 r] eqn:E.
    destruct (electLease_frame _ _ _ _ E) as (_ & F & _). destruct r as [[]|]; simplify_eq; simpl; by rewrite F.
  - by simplify_eq.
  - by simplify_eq.
  - destruct (acquireRef _ _ _ _) eqn:E. simplify_eq. simpl. by eapply ref_frame.
  - destruct (semSend b (mc_sems m)) eqn:E; simplify_eq/=. by eapply Hsend.
  - destruct (queueRateLimits _ _); [by simplify_eq|]. destruct (acquireRef _ _ _ _) eqn:E. simplify_eq. simpl. by eapply ref_frame.
  - destruct (semSend b (mc_sems m)) eqn:E; simplify_eq/=. by eapply Hsend.
  - destruct (Opts _ _) as [opts|]; [|by simplify_eq]. destruct (_ <=? _); [by simplify_eq|].
    destruct (entryOf _ _ _ _) eqn:E. simplify_eq. simpl. by eapply entry_frame.
  - destruct (semSend b (mc_sems m)) eqn:E; simplify_eq/=. by eapply Hsend.
  - destruct (semSend semChan (mc_sems m)) eqn:E; simplify_eq/=. by eapply Hsend.
  - done.
  - destruct (markStart _ _ _ _) as [e [row t]], (jobContext _ _ _ _) as [jc e2]. by simplify_eq.
  - done.
  - destruct (g_defers g); [done|]. by simplify_eq.
Qed.

Lemma perform_bystander i g x todo m m' :
  acc_inv m → mc_gors m !! i = Some g → g_todo g = x :: todo → perform i (g_row g) x m = Some m' → bystander (EGo i) m m'.
Proof.
  intros Hi Hg Ht Hp.
  assert (released i g x m m') as [_ Epool _ Edisp _ _ _ _ _ _ _].
  { eapply perform_released; [|done]. intros -> Hc. pose proof (ai_close _ Hi _ _ Hg) as Eo. rewrite decide_True in Eo by auto.
    rewrite (acts_pop _ _ _ Ht), occ_cons, decide_True in Eo by done.
    pose proof (occ_nonneg (eq AClosePipeline) (acts (g_set_todo todo g))). lia. }
  destruct x as [|a|r key a| | | | | |]; simpl in Hp; split; try done; try (by simplify_eq).
  - destruct (semRecv _ _); by simplify_eq/=.
  - unfold semRecv in Hp. destruct (se_heap (mc_sems m) !! a) as [c|] eqn:Ec; [|done]. simpl in Hp.
    destruct (0 <? sm_len c) eqn:Hlt; simplify_eq/=. unfold pendingLen. simpl. destruct (decide (a = pendingChan)) as [->|Hne]; [|by rewrite chan_frame].
    unfold chanOf. simpl. rewrite Ec, list_lookup_insert_eq by (by eapply lookup_lt_Some). simpl. lia.
  - simplify_eq. unfold pendingLen. simpl. unfold dropRef. destruct (se_heap (mc_sems m) !! a) as [c|] eqn:Ec; [|done].
    unfold chanOf. simpl. destruct (decide (a = pendingChan)) as [->|Hne]; [|by rewrite list_lookup_insert_ne].
    by rewrite Ec, list_lookup_insert_eq by (by eapply lookup_lt_Some).
  - destruct (ws_resign _ _). by simplify_eq.
  - destruct (ws_resign _ _). by simplify_eq.
  - case_decide; by simplify_eq.
  - case_decide; by simplify_eq.
  - simplify_eq. by case_decide.
  - simplify_eq. unfold pendingLen. by case_decide.
  - simplify_eq. by rewrite queueDone_frame.
  - simplify_eq. unfold pendingLen. by rewrite queueDone_frame.
Qed.

Lemma mstep_bystander queues ev m m' :
  shape_inv reg (λ _ _, True) (λ _ _, True) queues m → step ev m = Some m' → ev ≠ EDispatch → bystander ev m m'.
Proof.
  intros Hs Hm Hne. pose proof (si_acc _ _ _ _ _ Hs) as Hi.
  destruct ev as [| | |i|i|i o|i lost|i|i|i| |queue policy|s c|queue now before]; cbn [mstep] in Hm.
  - simplify_eq. unfold Start. repeat case_match; by split.
  - destruct (mc_started m && negb (locked m)); [|done]. simplify_eq. unfold beginFetch. repeat case_match; by split.
  - done.
  - unfold goStep in Hm. destruct (mc_gors m !! i) as [g|] eqn:Hg; simpl in Hm; [|done]. destruct (g_todo g) as [|x todo] eqn:Ht.
    + by eapply advance_bystander.
    + destruct (perform _ _ _ _) as [m1|] eqn:E; simplify_eq/=.
      destruct (perform_bystander i g x todo m m1 Hi Hg Ht E) as [F1 F2 F3 F4]. by split.
  - eapply (own_bystander _ i); [done|by apply bailStep_own|]. unfold bailStep in Hm. destruct (mc_gors m !! i); simplify_eq/=.
    destruct (g_todo _); [|done]. destruct (mayBail _ _ _); by simplify_eq.
  - eapply (own_bystander _ i); [done|by eapply permitStep_own|]. unfold permitStep in Hm. destruct (mc_gors m !! i); simplify_eq/=.
    destruct (g_todo _); [|done]. destruct (g_pc _); try done. destruct (waitForRatePermit _ _ _ _ _ _ _ _ _) as [[e []]|]; simplify_eq/=; [done|].
    destruct (_ || _); by simplify_eq.
  - eapply (own_bystander _ i); [done|by eapply finishStep_own|]. unfold finishStep in Hm. destruct (mc_gors m !! i); simplify_eq/=.
    destruct (g_todo _); [|done]. destruct (g_pc _); try done. case_decide; [|done]. destruct (executeRow _ _ _ _ _ _). by simplify_eq.
  - destruct (mc_gors m !! i); simplify_eq/=. by split.
  - unfold beatStep in Hm. destruct (mc_gors m !! i); simplify_eq/=. case_decide; [|done]. destruct (heartbeatTick _ _ _) as [? []]; simplify_eq; by split.
  - unfold renewStep in Hm. destruct (mc_gors m !! i) as [g|]; simplify_eq/=. case_decide; [|done].
    destruct (electLease (g_row g) m) as [m1 r] eqn:E. destruct (electLease_frame _ _ _ _ E) as (_ & F & [? ? ? ? ? ? ? ? ?]).
    assert (pendingLen m1 ≤ pendingLen m) by (unfold pendingLen; by rewrite F). destruct r as [[]|]; simplify_eq; by split.
  - destruct (locked m); simplify_eq. by split.
  - destruct (locked m); simplify_eq. split; try done. intros Hp. by destruct (Hp queue policy).
  - simplify_eq. by split.
  - destruct ws_rescue; [|done]. destruct (mc_started m); simplify_eq. by split.
Qed.

(** *** Where the dispatcher stands *)

Definition isDispatch (ev : event S) : bool := match ev with EDispatch => true | _ => false end.
Definition isFetch (ev : event S) : bool := match ev with EFetch => true | _ => false end.

(** How many steps of the dispatcher a run has. *)
Definition dispatches (evs : list (event S)) : Z := Z.of_nat (length (filter (λ ev, isDispatch ev = true) evs)).

Lemma dispatches_cons ev evs : dispatches (ev :: evs) = (if isDispatch ev then 1 else 0) + dispatches evs.
Proof. unfold dispatches. rewrite filter_cons. destruct (isDispatch ev); case_decide; simpl; try done; lia. Qed.

Lemma dispatches_app evs evs' : dispatches (evs ++ evs') = dispatches evs + dispatches evs'.
Proof. unfold dispatches. rewrite filter_app, length_app. lia. Qed.

Lemma dispatches_nonneg evs : 0 ≤ dispatches evs.
Proof. unfold dispatches. lia. Qed.

(** The steps the dispatcher may still take, at most. *)
Definition work (p : WorkerPool) (d : dispatcher) : Z :=
  let n := scheduleLen p in
  match d with
  | DLoop free misses => free * (n + 3) + (n - misses) + 1
  | DRows rows free misses => free * (n + 3) + (n - misses) + 2 + Z.of_nat (length rows)
  | DIdle | DCrashed => 0
  end.

(** The claims that are started or about to be leave room for the rest. *)
Definition room (p : WorkerPool) (pending : Z) (d : dispatcher) : Prop :=
  let cap := wc_MaxPending (wp_config p) in
  match d with
  | DLoop free misses => 0 ≤ free ∧ 0 ≤ misses ≤ scheduleLen p ∧ pending + free ≤ cap
  | DRows rows free misses => 0 ≤ free ∧ 0 ≤ misses ≤ scheduleLen p ∧ pending + Z.of_nat (length rows) + free ≤ cap
  | DIdle => True
  | DCrashed => False
  end.

Record disp_inv (queues : list string) (taken : Z) m : Prop := {
  di_shape : shape_inv reg (λ _ _, True) (λ _ _, True) queues m;
  di_cursor : 0 ≤ mc_cursor m ≤ taken;
  di_room : room (mc_pool m) (pendingLen m) (mc_disp m)
}.

Lemma schedule_nonempty p : pool_inv p → wp_queueSchedule p ≠ [].
Proof.
  intros Hp E. destruct (pi_queues _ Hp) as (Hne & _). destruct (wc_Queues (wp_config p)) as [|q l] eqn:Eq; [done|].
  pose proof (pi_slots _ Hp q) as Hs. rewrite E, Eq, decide_True in Hs by apply list_elem_of_here. unfold slots in Hs. simpl in Hs. lia.
Qed.

Lemma pending_cap m : acc_inv m → ∃ c, se_heap (mc_sems m) !! pendingChan = Some c ∧ sm_cap c = wc_MaxPending (wp_config (mc_pool m)) ∧
  sm_len c = pendingLen m ∧ 0 ≤ pendingLen m ≤ sm_cap c.
Proof.
  intros Hi. destruct (ai_chans _ Hi) as (c & _ & Hc & Hcap & _). exists c. unfold pendingLen, chanOf. rewrite Hc. simpl.
  destruct (le_len _ _ (ai_ledger _ Hi) _ _ Hc) as [E ?]. pose proof (occ_nonneg (eq (ARecv pendingChan)) (allActs (mc_gors m))).
  split_and!; [done..|lia|lia].
Qed.

Lemma room_mono p pending pending' d : pending' ≤ pending → room p pending d → room p pending' d.
Proof. intros Hle. destruct d; simpl; naive_solver lia. Qed.

(** The dispatcher never blocks, and every step of it is progress. *)
Lemma dispatch_step queues taken m : disp_inv queues taken m → taken < 2 ^ 63 → locked m = true →
  ∃ m', dispatch m = Some m' ∧ work (mc_pool m) (mc_disp m') < work (mc_pool m) (mc_disp m) ∧ mc_pool m' = mc_pool m ∧
    (mc_cursor m' = mc_cursor m ∨ mc_cursor m' = mc_cursor m + 1) ∧ room (mc_pool m) (pendingLen m') (mc_disp m').
Proof.
  intros [Hs Hc Hr] Ht Hl. pose proof (si_acc _ _ _ _ _ Hs) as Hi. pose proof (schedule_nonempty _ (ai_pool _ Hi)) as Hne.
  assert (0 < scheduleLen (mc_pool m)) as Hn by (unfold scheduleLen; destruct (wp_queueSchedule _); [done|simpl; lia]).
  unfold locked in Hl. unfold dispatch. destruct (mc_disp m) as [|free misses|[|row rows] free misses|] eqn:Ed; try done.
  - eexists. split; [done|]. destruct (dispatchRound_spec free misses m) as ([_ Esems _ _ _ _ _] & Hp & He & _).
    assert (pendingLen (dispatchRound free misses m) = pendingLen m) as Epl by (unfold pendingLen; by rewrite Esems). rewrite Epl.
    destruct (nextSlot_spec (mc_pool m) (mc_cursor m)) as [En [q0 Hq0]]; [lia|done|]. rewrite Hq0 in En.
    destruct Hr as (Hf & Hm & Hcap). unfold scheduleLen in *.
    destruct He as [Hend -> ->|Ecr|q Hf' Hm' En' ->|q rows Hf' Hm' En' _ Hrows Hfetch ->]; [| |rewrite En in En'; injection En' as Ecur ->..].
    + split_and!; simpl; try done; unfold scheduleLen; [nia|by left].
    + exfalso. unfold dispatchRound in Ecr. destruct (negb _); [done|]. rewrite En in Ecr. destruct (queueCanClaim _ _) as [m1 can].
      destruct (negb can); [done|]. destruct (ws_fetch _ _) as [? [[|]|]]; done.
    + rewrite <-Ecur. simpl. unfold scheduleLen. split_and!; try done; lia.
    + rewrite <-Ecur. destruct (fetched_one _ _ _ Hrows Hfetch) as (row & -> & _). simpl. unfold scheduleLen. simpl.
      split_and!; try done; try lia; nia.
  - eexists. split; [done|]. simpl in *. unfold pendingLen in *. simpl. split_and!; try done; try lia; naive_solver lia.
  - destruct (pending_cap m Hi) as (c & Hpc & Hcap & Hlen & Hb). simpl in Hr.
    assert (sm_len c < sm_cap c) as Hlt by lia.
    assert (∃ m1, launch row m = Some m1) as [m1 El].
    { unfold launch, pipelineGate, semSend. case_bool_decide; simpl; rewrite Hpc; simpl; rewrite (proj2 (Z.ltb_lt _ _)) by done; by eexists. }
    rewrite El. eexists. split; [done|].
    assert (mc_cursor m1 = mc_cursor m) as Ecur.
    { revert El. unfold launch, pipelineGate. case_bool_decide; simpl; (destruct (semSend _ _); simpl; [|done]); by intros [= <-]. }
    apply launch_spec in El as (ready & sems & (c' & Hc' & _ & ->)%semSend_spec & _ & Es & _ & _ & Ep & _ & _ & _ & _ & _).
    simplify_eq. simpl. unfold pendingLen. simpl. rewrite Es, Ecur. unfold chanOf. simpl.
    rewrite list_lookup_insert_eq by (by eapply lookup_lt_Some). simpl. split_and!; try done; lia.
Qed.

Lemma disp_inv_step queues taken ev m m' :
  disp_inv queues taken m → taken < 2 ^ 63 → step ev m = Some m' → disp_inv queues (taken + if isDispatch ev then 1 else 0) m'.
Proof.
  intros Hd Ht Hm. pose proof Hd as [Hs Hc Hr].
  assert (shape_inv reg (λ _ _, True) (λ _ _, True) queues m') as Hs' by (by eapply mstep_shape).
  pose proof (si_acc _ _ _ _ _ Hs) as Hi. destruct (isDispatch ev) eqn:Ev.
  - destruct ev; try done. cbn [mstep] in Hm.
    assert (locked m = true) as Hl by (unfold dispatch in Hm; unfold locked; by destruct (mc_disp m)).
    destruct (dispatch_step queues taken m Hd Ht Hl) as (m1 & E & _ & Ep & Hcur & Hroom). simplify_eq.
    split; [done|lia|]. by rewrite Ep.
  - destruct (mstep_bystander queues ev m m' Hs Hm) as [B1 B2 B3 B4]; [by intros ->|]. split; [done|rewrite B1; lia|].
    destruct (isFetch ev) eqn:Ef.
    + destruct ev; try done. rewrite B3 by done. cbn [mstep] in Hm. destruct (mc_started m && negb (locked m)) eqn:El; [|done].
      apply andb_true_iff in El as [_ El]. unfold locked in El. destruct (mc_disp m) eqn:Ed; try done. simplify_eq. unfold beginFetch.
      destruct (pending_cap m Hi) as (c & Hpc & Hcap & Hlen & Hb). unfold chanOf. rewrite Hpc. simpl.
      destruct (mc_shutdown m); [by rewrite Ed|]. destruct (_ <=? 0) eqn:Efree; [by rewrite Ed|]. bool_to_prop. simpl.
      unfold pendingLen in *. simpl. unfold scheduleLen. lia.
    + rewrite B2 by (by intros ->). destruct (locked m) eqn:El; [|unfold locked in El; by destruct (mc_disp m)].
      rewrite B3; [by eapply room_mono|]. intros queue policy ->. cbn [mstep] in Hm. by rewrite El in Hm.
Qed.

Lemma start_disp cfg randomID s clk :
  disp_inv (wc_Queues (wp_config (newWorkerPool name caps randomID cfg))) 0 (newMachine (newWorkerPool name caps randomID cfg) s clk).
Proof.
  split; [|done|done]. by apply (free_run reg name caps lifecycle [] cfg randomID s clk).
Qed.

Lemma disp_inv_run queues evs : ∀ taken m m', disp_inv queues taken m → taken + dispatches evs < 2 ^ 63 → run evs m = Some m' →
  disp_inv queues (taken + dispatches evs) m'.
Proof.
  induction evs as [|ev evs IH]; intros taken m m' Hd Ht; simpl.
  - intros [= <-]. by rewrite Z.add_0_r.
  - destruct (step ev m) as [m1|] eqn:E; simpl; [|done]. intros Hrun. pose proof (dispatches_nonneg evs).
    rewrite dispatches_cons in *. rewrite Z.add_assoc. eapply IH; [|lia|done]. eapply disp_inv_step; [done| |done]. destruct (isDispatch ev); lia.
Qed.

(** What is left of the dispatcher's work bounds the steps it takes. *)
Lemma work_left queues evs : ∀ taken m m', disp_inv queues taken m → taken + dispatches evs < 2 ^ 63 →
  Forall (λ ev, isFetch ev = false) evs → run evs m = Some m' → dispatches evs ≤ work (mc_pool m) (mc_disp m).
Proof.
  induction evs as [|ev evs IH]; intros taken m m' Hd Ht Hf; simpl.
  - intros [= <-]. pose proof (di_room _ _ _ Hd) as Hr. destruct (mc_disp m); simpl in *; unfold dispatches; simpl; try lia; nia.
  - apply Forall_cons in Hf as [Hf1 Hf]. destruct (step ev m) as [m1|] eqn:E; simpl; [|done]. intros Hrun.
    pose proof (dispatches_nonneg evs). rewrite dispatches_cons in *.
    assert (taken < 2 ^ 63) as Ht1 by (destruct (isDispatch ev); lia).
    pose proof (disp_inv_step _ _ _ _ _ Hd Ht1 E) as Hd1. specialize (IH _ _ _ Hd1 ltac:(lia) Hf Hrun).
    destruct (isDispatch ev) eqn:Ev.
    + destruct ev; try done. cbn [mstep] in E.
      assert (locked m = true) as Hl by (unfold dispatch in E; unfold locked; by destruct (mc_disp m)).
      destruct (dispatch_step queues taken m Hd Ht1 Hl) as (m2 & E2 & Hw & Ep & _). simplify_eq. rewrite Ep in IH. lia.
    + destruct (mstep_bystander queues ev m m1 (di_shape _ _ _ Hd) E) as [_ B2 B3 _]; [by intros ->|].
      rewrite B2 in IH by (by intros ->). destruct (locked m) eqn:El; [|unfold locked in El; by destruct (mc_disp m)].
      rewrite B3 in IH; [lia|]. intros queue policy ->. cbn [mstep] in E. by rewrite El in E.
Qed.

(** ** The round robin of a run *)

(** How often a run has the dispatcher try [queue]. *)
Fixpoint attempts (queue : string) (evs : list (event S)) m : Z :=
  match evs with
  | [] => 0
  | ev :: rest =>
      match step ev m with
      | None => 0
      | Some m' =>
          (if isDispatch ev && negb (mc_cursor m' =? mc_cursor m) && bool_decide (slotAt (mc_pool m) (mc_cursor m) = Some queue)
           then 1 else 0) + attempts queue rest m'
      end
  end.

Lemma slotsFrom_S p c n : slotsFrom p c (Datatypes.S n) = slotAt p c :: slotsFrom p (c + 1) n.
Proof.
  unfold slotsFrom. rewrite <-cons_seq, fmap_cons, Z.add_0_r. f_equal. rewrite <-fmap_S_seq, <-list_fmap_compose.
  apply list_fmap_ext. intros i k _. simpl. f_equal. lia.
Qed.

Lemma attempts_slots queues queue evs : ∀ taken m m', disp_inv queues taken m → taken + dispatches evs < 2 ^ 63 →
  Forall (λ ev, ∀ q policy, ev ≠ EPolicy q policy) evs → run evs m = Some m' →
  mc_cursor m ≤ mc_cursor m' ∧ attempts queue evs m =
    Z.of_nat (length (filter (λ q, q = Some queue) (slotsFrom (mc_pool m) (mc_cursor m) (Z.to_nat (mc_cursor m' - mc_cursor m))))).
Proof.
  induction evs as [|ev evs IH]; intros taken m m' Hd Ht Hf; simpl.
  - intros [= <-]. by rewrite Z.sub_diag.
  - apply Forall_cons in Hf as [Hf1 Hf]. destruct (step ev m) as [m1|] eqn:E; simpl; [|done]. intros Hrun.
    pose proof (dispatches_nonneg evs). rewrite dispatches_cons in *.
    assert (taken < 2 ^ 63) as Ht1 by (destruct (isDispatch ev); lia).
    pose proof (disp_inv_step _ _ _ _ _ Hd Ht1 E) as Hd1. destruct (IH _ _ _ Hd1 ltac:(lia) Hf Hrun) as [IHc IHa]. clear IH.
    destruct (isDispatch ev) eqn:Ev; simpl.
    + destruct ev; try done. cbn [mstep] in E.
      assert (locked m = true) as Hl by (unfold dispatch in E; unfold locked; by destruct (mc_disp m)).
      destruct (dispatch_step queues taken m Hd Ht1 Hl) as (m2 & E2 & _ & Ep & [Ec|Ec] & _); simplify_eq; rewrite Ep, Ec in *.
      * rewrite Z.eqb_refl. simpl. by rewrite IHa.
      * rewrite (proj2 (Z.eqb_neq _ _)) by lia. simpl. split; [lia|]. rewrite IHa.
        replace (Z.to_nat (mc_cursor m' - mc_cursor m)) with (Datatypes.S (Z.to_nat (mc_cursor m' - (mc_cursor m + 1)))) by lia.
        rewrite slotsFrom_S, filter_cons. case_bool_decide; case_decide; try done. simpl. lia.
    + destruct (mstep_bystander queues ev m m1 (di_shape _ _ _ Hd) E) as [B1 _ B3 _]; [by intros ->|]. rewrite B1, B3 in * by done.
      by rewrite IHa.
Qed.

(** C37: a call of [fetchAndDispatch] ends.  Whatever the other goroutines do
    meanwhile, the dispatcher takes at most
    [MaxPending * (n + 3) + n + 1] steps, for [n] slots in the schedule, before it
    gives [fetchMu] back, and as long as it holds it its next step is possible: the send to [pending] never
    blocks and no index is out of range. *)
Theorem dispatch_terminates cfg randomID s clk evs m0 m evs' m' :
  run evs (newMachine (newWorkerPool name caps randomID cfg) s clk) = Some m0 →
  step EFetch m0 = Some m → run evs' m = Some m' →
  Forall (λ ev, isFetch ev = false) evs' → dispatches evs + dispatches evs' < 2 ^ 63 →
  let n := scheduleLen (mc_pool m) in
  dispatches evs' ≤ wc_MaxPending (wp_config (mc_pool m)) * (n + 3) + n + 1 ∧
  (locked m' = true → is_Some (step EDispatch m')).
Proof.
  intros Hr0 Hf Hr Hnf Hlt n. pose proof (dispatches_nonneg evs). pose proof (dispatches_nonneg evs').
  pose proof (disp_inv_run _ evs 0 _ _ (start_disp cfg randomID s clk) ltac:(lia) Hr0) as Hd0.
  pose proof (disp_inv_step _ _ _ _ _ Hd0 ltac:(lia) Hf) as Hd. simpl in Hd. rewrite Z.add_0_r in Hd. split.
  - etrans; [by eapply work_left|]. pose proof (di_room _ _ _ Hd) as Hroom.
    destruct (pending_cap m (si_acc _ _ _ _ _ (di_shape _ _ _ Hd))) as (c & _ & Hcap & _ & Hb). rewrite Hcap in Hb.
    assert (0 ≤ n) by (unfold n, scheduleLen; lia). fold n in Hroom.
    assert (∀ free, free ≤ wc_MaxPending (wp_config (mc_pool m)) →
      free * (n + 3) ≤ wc_MaxPending (wp_config (mc_pool m)) * (n + 3)) as Hmul by (intros free Hfree; apply Z.mul_le_mono_nonneg_r; lia).
    destruct (mc_disp m) as [|free misses| |] eqn:Ed; simpl in *; fold n in Hroom |- *; [nia|specialize (Hmul free); lia| |done].
    exfalso. revert Hf Ed. cbn [mstep]. destruct (mc_started m0 && negb (locked m0)) eqn:El; [|done]. intros [= <-].
    apply andb_true_iff in El as [_ El]. unfold locked in El. unfold beginFetch.
    destruct (mc_shutdown m0); [by destruct (mc_disp m0)|]. destruct (_ <=? 0); [by destruct (mc_disp m0)|done].
  - intros Hl. pose proof (disp_inv_run _ evs' _ _ _ Hd ltac:(lia) Hr) as Hd'.
    destruct (dispatch_step _ _ _ Hd' ltac:(lia) Hl) as (m2 & E & _). by exists m2.
Qed.

(** C38: the round robin is weighted.  Over any part of a run in which the cursor
    goes once round the schedule and no policy changes, however it falls into calls
    of [fetchAndDispatch], the dispatcher tries every queue exactly [Weight] times,
    once for a weight below one. *)
Theorem weighted_round_robin cfg randomID s clk evs m evs' m' queue :
  run evs (newMachine (newWorkerPool name caps randomID cfg) s clk) = Some m → run evs' m = Some m' →
  Forall (λ ev, ∀ q policy, ev ≠ EPolicy q policy) evs' → dispatches evs + dispatches evs' < 2 ^ 63 →
  mc_cursor m' = mc_cursor m + scheduleLen (mc_pool m) → queue ∈ wc_Queues (wp_config (mc_pool m)) →
  attempts queue evs' m = Z.max 1 (qp_Weight (queuePolicy (mc_pool m) queue)).
Proof.
  intros Hr0 Hr Hp Hlt Hturn Hq. pose proof (dispatches_nonneg evs). pose proof (dispatches_nonneg evs').
  pose proof (disp_inv_run _ evs 0 _ _ (start_disp cfg randomID s clk) ltac:(lia) Hr0) as Hd.
  destruct (attempts_slots _ queue evs' _ _ _ Hd ltac:(lia) Hp Hr) as [_ ->].
  pose proof (disp_inv_run _ evs' _ _ _ Hd ltac:(lia) Hr) as [_ Hc' _]. pose proof (di_cursor _ _ _ Hd).
  rewrite Hturn. replace (Z.to_nat (mc_cursor m + scheduleLen (mc_pool m) - mc_cursor m)) with (length (wp_queueSchedule (mc_pool m)))
    by (unfold scheduleLen; lia).
  rewrite turn_slots by lia. rewrite (pi_slots _ (ai_pool _ (si_acc _ _ _ _ _ (di_shape _ _ _ Hd)))). by rewrite decide_True.
Qed.
End machine.
