(* ===== verification/WorkerLoops.v ===== *)
(** * worker.go: the loops of [Start]

    [Start] runs in a goroutine of its caller: it subscribes to the queues where
    the backend can notify, fetches once, and then waits for ticks, for the end of
    its context and for a shutdown.  Every subscription has a goroutine of its own
    that fetches when it is notified.  A state of the loops holds the pool's machine
    ([WorkerMachine]), where each of these goroutines stands, and the calls they
    have made; what the selects leave open, the answers of the listener and
    everything else that happens to the pool are events.  A step that would block
    has no successor. *)

From S2P Require Import Prelude GoBase Json Codec Core Driver RateLimit Sha256 WorkerConfig WorkerRate WorkerRun.
From S2P Require Import WorkerSemaphores WorkerMachine.
From Stdlib Require Import ZArith Lia.

Inductive tickerKind := Fallback | RescueTicker.

(** What the loops do with the clock, the listener and the error handler. *)
Inductive loopCall :=
| CNewTicker (t : tickerKind) (d : Duration)
| CStopTicker (t : tickerKind)
| CListen (queue : string) (err : option error)      (* with the answer *)
| CUnlisten (queue : string)
| CCloseListener
| CReportError (err : error).

(** Deferred calls of [Start], and where its goroutine stands. *)
Inductive deferral := DStop (t : tickerKind) | DCleanup.

Inductive startPc :=
| MIdle                                       (* not called *)
| MSubscribe (queues : list string)           (* the loop over the queues *)
| MFetch (first : bool)                       (* fetchAndDispatch, before fetchMu *)
| MFetching (first : bool)                    (* within fetchAndDispatch *)
| MEnter                                      (* runMainLoop, before its loop *)
| MSelect
| MRescue (now before : Instant) (queues : list string)
| MStop                                       (* Stop, before fetchMu *)
| MDrain                                      (* Shutdown waits *)
| MUnwind (res : option error)                (* returning: the deferred calls run *)
| MCleanup (queues : list string) (res : option error)
| MReturned (res : option error)
| MPanicked.

(** A goroutine that waits for notifications. *)
Inductive watcherPc := WSelect | WFetch | WFetching | WGone.
Record watcher := mkWatcher { w_queue : string; w_pc : watcherPc }.

#[export] Instance watcherPc_eq_dec : EqDecision watcherPc.
Proof. solve_decision. Defined.
#[export] Instance tickerKind_eq_dec : EqDecision tickerKind.
Proof. solve_decision. Defined.
#[export] Instance deferral_eq_dec : EqDecision deferral.
Proof. solve_decision. Defined.

Record Loops (S : Type) := mkLoops {
  lp_pool : Machine S;
  lp_pc : startPc;
  lp_defers : list deferral;        (* last first *)
  lp_watchers : list watcher;       (* [subscribed], with its goroutines *)
  lp_ctx : option error;            (* [ctx.Err()] *)
  lp_done : bool;                   (* shutdownDone is closed *)
  lp_calls : list loopCall
}.
Arguments mkLoops {S}.
Arguments lp_pool {S}.
Arguments lp_pc {S}.
Arguments lp_defers {S}.
Arguments lp_watchers {S}.
Arguments lp_ctx {S}.
Arguments lp_done {S}.
Arguments lp_calls {S}.

(** Who calls [fetchAndDispatch]. *)
Inductive caller := Main | Watcher (i : nat).

Inductive loopEvent (S : Type) :=
| LStart                                  (* Start is called *)
| LListen (err : option error)            (* Listen answers *)
| LFetch (c : caller)                     (* fetchAndDispatch takes fetchMu *)
| LDispatch (c : caller)                  (* its next step *)
| LEnter                                  (* runMainLoop sets up the rescue ticker *)
| LCtxDone                                (* its select takes the branch of the context, *)
| LShutdownCh                             (* of the shutdown channel, *)
| LTick                                   (* of the fallback ticker, *)
| LRescueTick                             (* of the rescue ticker *)
| LRescue                                 (* rescueStuck goes on *)
| LStop                                   (* Shutdown, from Stop *)
| LDrained                                (* the wait of Shutdown ends, *)
| LTimeout                                (* or its deadline passes *)
| LUnwind                                 (* the next deferred call *)
| LUnlisten (err : option error)          (* Unlisten answers *)
| LClose (err : option error)             (* Close answers *)
| LNotified (i : nat)                     (* watcher [i] receives a notification, *)
| LClosedCh (i : nat)                     (* finds its channel closed, *)
| LLeave (i : nat)                        (* or sees the end *)
| LCancel (err : error)                   (* the context of Start ends *)
| LWaited                                 (* the goroutine of Shutdown has waited for [wg] *)
| LPool (ev : event S).                   (* the pool's other goroutines *)
Arguments LStart {S}.
Arguments LListen {S}.
Arguments LFetch {S}.
Arguments LDispatch {S}.
Arguments LEnter {S}.
Arguments LCtxDone {S}.
Arguments LShutdownCh {S}.
Arguments LTick {S}.
Arguments LRescueTick {S}.
Arguments LRescue {S}.
Arguments LStop {S}.
Arguments LDrained {S}.
Arguments LTimeout {S}.
Arguments LUnwind {S}.
Arguments LUnlisten {S}.
Arguments LClose {S}.
Arguments LNotified {S}.
Arguments LClosedCh {S}.
Arguments LLeave {S}.
Arguments LCancel {S}.
Arguments LWaited {S}.
Arguments LPool {S}.

(** What only the loops do to the pool. *)
Definition loopsOwn {S} (ev : event S) : bool :=
  match ev with EStart | EFetch | EDispatch | ERescue _ _ _ => true | _ => false end.

Section loops.
Context {S : Type}.
Implicit Types st : Loops S.

Definition onPool (m : Machine S) st : Loops S :=
  mkLoops m (lp_pc st) (lp_defers st) (lp_watchers st) (lp_ctx st) (lp_done st) (lp_calls st).
Definition goto (pc : startPc) st : Loops S :=
  mkLoops (lp_pool st) pc (lp_defers st) (lp_watchers st) (lp_ctx st) (lp_done st) (lp_calls st).
Definition set_defers (ds : list deferral) st : Loops S :=
  mkLoops (lp_pool st) (lp_pc st) ds (lp_watchers st) (lp_ctx st) (lp_done st) (lp_calls st).
Definition set_watchers (ws : list watcher) st : Loops S :=
  mkLoops (lp_pool st) (lp_pc st) (lp_defers st) ws (lp_ctx st) (lp_done st) (lp_calls st).
Definition set_ctx (err : option error) st : Loops S :=
  mkLoops (lp_pool st) (lp_pc st) (lp_defers st) (lp_watchers st) err (lp_done st) (lp_calls st).
Definition set_done (b : bool) st : Loops S :=
  mkLoops (lp_pool st) (lp_pc st) (lp_defers st) (lp_watchers st) (lp_ctx st) b (lp_calls st).
Definition call (c : loopCall) st : Loops S :=
  mkLoops (lp_pool st) (lp_pc st) (lp_defers st) (lp_watchers st) (lp_ctx st) (lp_done st) (lp_calls st ++ [c]).

Definition newLoops (m : Machine S) : Loops S := mkLoops m MIdle [] [] None false [].

(** [p.reportError], of an answer. *)
Definition reportIf (wrap : error → error) (err : option error) st : Loops S :=
  match err with Some err => call (CReportError (wrap err)) st | None => st end.

(** [NewTicker] panics unless its interval is positive. *)
Definition startTicker (t : tickerKind) (d : Duration) (k : Loops S → Loops S) st : Loops S :=
  if d <=? 0 then goto MPanicked st else k (set_defers (DStop t :: lp_defers st) (call (CNewTicker t d) st)).

Definition liveWatchers (ws : list watcher) : Z := Z.of_nat (length (filter (λ w, w_pc w ≠ WGone) ws)).

(** [p.wg] counts the watchers, too. *)
Definition wgCount st : Z := mc_wg (lp_pool st) + liveWatchers (lp_watchers st).

Definition watcherAt (i : nat) (from to_ : watcherPc) st : option (Loops S) :=
  w ← lp_watchers st !! i;
  if decide (w_pc w = from) then Some (set_watchers (<[i := mkWatcher (w_queue w) to_]> (lp_watchers st)) st) else None.

(** A caller moves between its own code and [fetchAndDispatch]. *)
Definition waitsToFetch (c : caller) st : bool :=
  match c with
  | Main => match lp_pc st with MFetch _ => true | _ => false end
  | Watcher i => match lp_watchers st !! i with Some w => bool_decide (w_pc w = WFetch) | None => false end
  end.
Definition isFetching (c : caller) st : bool :=
  match c with
  | Main => match lp_pc st with MFetching _ => true | _ => false end
  | Watcher i => match lp_watchers st !! i with Some w => bool_decide (w_pc w = WFetching) | None => false end
  end.

Definition setCaller (c : caller) (fetching : bool) st : Loops S :=
  match c with
  | Main =>
      match lp_pc st with
      | MFetch first | MFetching first => goto (if fetching then MFetching first else if first then MEnter else MSelect) st
      | _ => st
      end
  | Watcher i => set_watchers (alter (λ w, mkWatcher (w_queue w) (if fetching then WFetching else WSelect)) i (lp_watchers st)) st
  end.

(** [fetchAndDispatch] goes on or returns. *)
Definition afterFetch (c : caller) (m : Machine S) st : Loops S := setCaller c (locked m) (onPool m st).

(** The loop over the queues ends, or goes on. *)
Definition subscribing (queues : list string) : startPc :=
  match queues with [] => MFetch true | _ => MSubscribe queues end.
Definition rescuing (now before : Instant) (queues : list string) : startPc :=
  match queues with [] => MSelect | _ => MRescue now before queues end.

Context `{WorkerStore S} `{CursorStore S} `{MapRange} `{FloatConv}.
Context (reg : Registry) (name : string) (caps : Capabilities) (lifecycle : bool).
(** Whether [driver.Listener()] is not nil. *)
Context (listener : bool).

Definition config st : WorkerConfig := wp_config (mc_pool (lp_pool st)).

(** [runWithPolling] and [runWithNotifications], up to their first call that waits. *)
Definition runWithPolling st : Loops S := startTicker Fallback (wc_PollInterval (config st)) (goto (MFetch true)) st.
Definition runWithNotifications st : Loops S :=
  startTicker Fallback (wc_PollInterval (config st))
    (λ st, goto (subscribing (wc_Queues (config st))) (set_defers (DCleanup :: lp_defers st) st)) st.

Definition startLoops st : Loops S :=
  let '(m, err) := Start (lp_pool st) in
  let st := onPool m st in
  match err with
  | Some err => goto (MReturned (Some err)) st
  | None => if listener then runWithNotifications st else runWithPolling st
  end.

(** [runMainLoop], up to its loop. *)
Definition enterMainLoop st : Loops S :=
  if (0 <? wc_StuckJobTimeout (config st)) && (match ws_rescue with Some _ => true | None => false end)
  then startTicker RescueTicker (wc_RescueInterval (config st)) (goto MSelect) st
  else goto MSelect st.

(** [rescueStuck], up to its loop. *)
Definition beginRescue st : Loops S :=
  let '(now, e) := runNow (mc_env (lp_pool st)) in
  goto (rescuing now (Add now (- wc_StuckJobTimeout (config st))) (wc_Queues (config st))) (onPool (set_env e (lp_pool st)) st).

Definition shutdownError (err : error) : error := EWrap "shutdown worker pool: " err "".
Definition unlistenError (queue : string) (err : error) : error := EWrap ("unlisten queue " +:+ quoted queue +:+ ": ") err "".
Definition closeError (err : error) : error := EWrap "close listener: " err "".

Definition unwind st : option (Loops S) :=
  match lp_pc st with
  | MUnwind res =>
      match lp_defers st with
      | [] => Some (goto (MReturned res) st)
      | DStop t :: ds => Some (set_defers ds (call (CStopTicker t) st))
      | DCleanup :: ds => Some (goto (MCleanup (w_queue <$> lp_watchers st) res) (set_defers ds st))
      end
  | _ => None
  end.

Definition lstep (ev : loopEvent S) st : option (Loops S) :=
  match ev with
  | LStart => match lp_pc st with MIdle => Some (startLoops st) | _ => None end
  | LListen err =>
      match lp_pc st with
      | MSubscribe (q :: queues) =>
          let st := call (CListen q err) st in
          Some (match err with
                | Some err => goto (MUnwind (Some err)) st
                | None => goto (subscribing queues) (set_watchers (lp_watchers st ++ [mkWatcher q WSelect]) st)
                end)
      | _ => None
      end
  | LFetch c => if waitsToFetch c st then m ← mstep reg name caps lifecycle EFetch (lp_pool st); Some (afterFetch c m st) else None
  | LDispatch c => if isFetching c st then m ← mstep reg name caps lifecycle EDispatch (lp_pool st); Some (afterFetch c m st) else None
  | LEnter => match lp_pc st with MEnter => Some (enterMainLoop st) | _ => None end
  | LCtxDone => match lp_pc st, lp_ctx st with MSelect, Some _ => Some (goto MStop st) | _, _ => None end
  | LShutdownCh => match lp_pc st with MSelect => if mc_shutdown (lp_pool st) then Some (goto (MUnwind None) st) else None | _ => None end
  | LTick => match lp_pc st with MSelect => Some (goto (MFetch false) st) | _ => None end
  | LRescueTick => match lp_pc st with
      | MSelect => if decide (DStop RescueTicker ∈ lp_defers st) then Some (beginRescue st) else None
      | _ => None
      end
  | LRescue => match lp_pc st with
      | MRescue now before (q :: queues) =>
          m ← mstep reg name caps lifecycle (ERescue q now before) (lp_pool st);
          Some (goto (rescuing now before queues) (onPool m st))
      | _ => None
      end
  | LStop => match lp_pc st with
      | MStop => if mc_shutdown (lp_pool st) then Some (goto MDrain st)
                 else m ← mstep reg name caps lifecycle EShutdown (lp_pool st); Some (goto MDrain (onPool m st))
      | _ => None
      end
  | LDrained => match lp_pc st with MDrain => if lp_done st then Some (goto (MUnwind (lp_ctx st)) st) else None | _ => None end
  | LTimeout => match lp_pc st with
      | MDrain => Some (goto (MUnwind (lp_ctx st)) (call (CReportError (shutdownError (ESentinel ContextDeadlineExceeded))) st))
      | _ => None
      end
  | LUnwind => unwind st
  | LUnlisten err => match lp_pc st with
      | MCleanup (q :: queues) res => Some (goto (MCleanup queues res) (reportIf (unlistenError q) err (call (CUnlisten q) st)))
      | _ => None
      end
  | LClose err => match lp_pc st with
      | MCleanup [] res => Some (goto (MUnwind res) (reportIf closeError err (call CCloseListener st)))
      | _ => None
      end
  | LNotified i => watcherAt i WSelect WFetch st
  | LClosedCh i => watcherAt i WSelect WGone st
  | LLeave i => if bool_decide (is_Some (lp_ctx st)) || mc_shutdown (lp_pool st) then watcherAt i WSelect WGone st else None
  | LCancel err => match lp_ctx st with None => Some (set_ctx (Some err) st) | Some _ => None end
  | LWaited => if mc_shutdown (lp_pool st) && (wgCount st =? 0) then Some (set_done true st) else None
  | LPool ev => if loopsOwn ev then None else m ← mstep reg name caps lifecycle ev (lp_pool st); Some (onPool m st)
  end.

Fixpoint lrun (evs : list (loopEvent S)) st : option (Loops S) :=
  match evs with
  | [] => Some st
  | ev :: rest => st' ← lstep ev st; lrun rest st'
  end.

(** ** Rescues *)

(** A sweep that nobody disturbs. *)
Lemma rescue_sweep now before (queues : list string) st (rescue : S → JobRescueParams → S * result Z) :
  ws_rescue = Some rescue → mc_started (lp_pool st) = true → lp_pc st = rescuing now before queues →
  lrun (replicate (length queues) LRescue) st =
    Some (goto MSelect (onPool (set_env (foldl (rescueQueue (mc_pool (lp_pool st)) rescue now before) (mc_env (lp_pool st)) queues)
      (lp_pool st)) st)).
Proof.
  intros Hr. revert st. induction queues as [|q queues IH]; intros st Hs Hpc; simpl in Hpc |- *.
  - destruct st as [[] ? ? ? ? ? ?]. simpl in *. by subst.
  - rewrite Hpc, Hr. cbn [mstep]. rewrite Hs. simpl. rewrite IH by done. done.
Qed.

(** [rescueStuck] of the pool is such a sweep. *)
Lemma rescue_sweep_spec st : mc_started (lp_pool st) = true → lp_pc st = MSelect → DStop RescueTicker ∈ lp_defers st →
  is_Some (ws_rescue (S := S)) →
  lrun (LRescueTick :: replicate (length (wc_Queues (config st))) LRescue) st =
    Some (onPool (set_env (rescueStuck (mc_pool (lp_pool st)) (mc_env (lp_pool st))) (lp_pool st)) st).
Proof.
  intros Hs Hpc Hd [rescue Hr]. cbn [lrun lstep]. rewrite Hpc, decide_True by done. simpl. unfold beginRescue.
  destruct (runNow (mc_env (lp_pool st))) as [now e] eqn:En. erewrite rescue_sweep; [|done|done|done].
  unfold rescueStuck. rewrite Hr, En. destruct st. simpl in *. by subst.
Qed.
End loops.
