(* ===== verification/WorkerLoopsProps.v ===== *)
(** * What the loops of [Start] guarantee

    A run of the loops is a run of the pool's machine, so everything proved of the
    machine holds under them.  [Start] gives back what it has taken, in the order
    of its deferred calls, whichever way it ends; it always ends once its context is
    done or the pool is shut down; and one goroutine at a time fetches. *)

From S2P Require Import Prelude GoBase Json Codec Core Driver RateLimit Sha256 WorkerConfig WorkerConfigProps.
From S2P Require Import WorkerRate WorkerRun WorkerSemaphores WorkerMachine WorkerMachineInv WorkerMachineShape WorkerMachineProps.
From S2P Require Import WorkerDispatch WorkerLoops.
From Stdlib Require Import ZArith Lia.

Section loops.
Context {S : Type} `{WorkerStore S} `{CursorStore S} `{MapRange} `{FloatConv} `{!LawfulFetch S}.
Context (reg : Registry) (name : string) (caps : Capabilities) (lifecycle listener : bool).
Implicit Types m : Machine S.
Implicit Types st : Loops S.
Abbreviation pstep := (mstep reg name caps lifecycle) (only parsing).
Abbreviation prun := (mrun reg name caps lifecycle) (only parsing).
Abbreviation step := (lstep reg name caps lifecycle listener) (only parsing).
Abbreviation run := (lrun reg name caps lifecycle listener) (only parsing).

(** ** The pool under the loops *)

Lemma own_flags i m m' : (∃ g, mc_gors m !! i = Some g ∧ ownStep i g m m') →
  mc_shutdown m' = mc_shutdown m ∧ mc_started m' = mc_started m ∧ length (mc_gors m') = length (mc_gors m).
Proof. intros (g & _ & g' & E & _ & _ & C & _). rewrite E, length_insert. by destruct C. Qed.

(** A pool stays started and stays shut down, and then starts no job. *)
Lemma mstep_flags ev m m' : acc_inv m → pstep ev m = Some m' →
  (mc_shutdown m = true → mc_shutdown m' = true ∧ length (mc_gors m') = length (mc_gors m)) ∧
  (mc_started m = true → mc_started m' = true).
Proof.
  intros Hi Hm. assert (∀ i, (∃ g, mc_gors m !! i = Some g ∧ ownStep i g m m') →
    (mc_shutdown m = true → mc_shutdown m' = true ∧ length (mc_gors m') = length (mc_gors m)) ∧
    (mc_started m = true → mc_started m' = true)) as Hown.
  { intros i Hg. by destruct (own_flags _ _ _ Hg) as (-> & -> & ->). }
  revert Hm. destruct ev as [| | |i|i|i o|i lost|i|i|i| |queue policy|s c|queue now before]; cbn [mstep].
  - intros [= <-]. unfold Start. by repeat case_match.
  - destruct (_ && _); [|done]. intros [= <-]. unfold beginFetch. by repeat case_match.
  - unfold dispatch. intros Hm. split.
    + intros Hs. by rewrite (ai_quiet _ Hi Hs) in Hm.
    + destruct (mc_disp m) as [|free misses|[|row rows] free misses|]; simplify_eq/=; try done.
      * by destruct (dispatchRound_spec free misses m) as ([_ _ _ _ _ -> _] & _).
      * destruct (launch row m) as [m1|] eqn:El; simplify_eq/=. by apply launch_spec in El as (? & ? & _ & _ & _ & _ & _ & _ & _ & -> & _).
  - unfold goStep. destruct (mc_gors m !! i) as [g|] eqn:Hg; simpl; [|done]. destruct (g_todo g) as [|x todo] eqn:Ht.
    + intros Hm. apply (Hown i). exists g. split; [done|]. eapply advance_own; try done; [by eapply live_keys|by eapply ai_limits].
    + destruct (perform i (g_row g) x m) as [m1|] eqn:E; simpl; [|done]. intros [= <-]. simpl. rewrite length_insert.
      destruct (perform_released i g x m m1) as [-> _ -> _ -> _ _ _ _ _ _]; [|done|done].
      intros -> Hc. pose proof (ai_close _ Hi _ _ Hg) as Eo. rewrite decide_True in Eo by auto.
      rewrite (acts_pop _ _ _ Ht), occ_cons, decide_True in Eo by done.
      pose proof (occ_nonneg (eq AClosePipeline) (acts (g_set_todo todo g))). lia.
  - intros Hm. by apply (Hown i), bailStep_own.
  - intros Hm. by eapply (Hown i), permitStep_own.
  - intros Hm. by eapply (Hown i), finishStep_own.
  - intros Hm. apply (Hown i), (ticks_own reg name caps lifecycle); [by apply ai_limits|by right; right].
  - intros Hm. apply (Hown i), (ticks_own reg name caps lifecycle); [by apply ai_limits|by left].
  - intros Hm. apply (Hown i), (ticks_own reg name caps lifecycle); [by apply ai_limits|by right; left].
  - destruct (locked m); [done|]. by intros [= <-].
  - destruct (locked m); [done|]. by intros [= <-].
  - by intros [= <-].
  - destruct ws_rescue; [|done]. destruct (mc_started m) eqn:Es; [|done]. intros [= <-]. by rewrite <-Es.
Qed.

(** What a step of the loops is to the pool. *)
Definition projected (ev : loopEvent S) st : list (event S) :=
  match ev with
  | LStart => [EStart]
  | LFetch _ => [EFetch]
  | LDispatch _ => [EDispatch]
  | LRescueTick => [EWorld (rn_store (mc_env (lp_pool st))) (runNow (mc_env (lp_pool st))).2.(rn_clk)]
  | LRescue => match lp_pc st with MRescue now before (q :: _) => [ERescue q now before] | _ => [] end
  | LStop => if mc_shutdown (lp_pool st) then [] else [EShutdown]
  | LPool ev => [ev]
  | _ => []
  end.

Lemma startTicker_pool t d (k : Loops S → Loops S) st :
  (∀ st, lp_pool (k st) = lp_pool st) → lp_pool (startTicker t d k st) = lp_pool st.
Proof. intros Hk. unfold startTicker. destruct (d <=? 0); [done|]. by rewrite Hk. Qed.

Lemma afterFetch_pool c m st : lp_pool (afterFetch c m st) = m.
Proof. unfold afterFetch. destruct c; simpl; [by destruct (lp_pc st)|done]. Qed.

Lemma reportIf_pool wrap err st : lp_pool (reportIf wrap err st) = lp_pool st.
Proof. by destruct err. Qed.

Lemma lstep_projected ev st st' : step ev st = Some st' → prun (projected ev st) (lp_pool st) = Some (lp_pool st').
Proof.
  intros Hs. destruct ev as [|err|c|c| | | | | | | | | | |err|err|i|i|i|err| |ev]; cbn [lstep projected] in *.
  - destruct (lp_pc st); simplify_eq. simpl. f_equal. unfold startLoops. destruct (Start (lp_pool st)) as [m [err|]]; [done|].
    destruct listener; unfold runWithNotifications, runWithPolling; by rewrite startTicker_pool.
  - destruct (lp_pc st) as [|[|]| | | | | | | | | | |]; simplify_eq. by destruct err.
  - destruct (waitsToFetch c st); [|done]. destruct (pstep EFetch (lp_pool st)) as [m|] eqn:E; simplify_eq/=.
    by rewrite afterFetch_pool, E.
  - destruct (isFetching c st); [|done]. destruct (pstep EDispatch (lp_pool st)) as [m|] eqn:E; simplify_eq/=.
    by rewrite afterFetch_pool, E.
  - destruct (lp_pc st); simplify_eq. unfold enterMainLoop. by case_match; rewrite ?startTicker_pool.
  - destruct (lp_pc st); try done. destruct (lp_ctx st); by simplify_eq.
  - destruct (lp_pc st); try done. destruct (mc_shutdown _); by simplify_eq.
  - destruct (lp_pc st); by simplify_eq.
  - destruct (lp_pc st); try done. case_decide; simplify_eq. done.
  - destruct (lp_pc st) as [| | | | | |now before [|q queues]| | | | | |]; try done.
    destruct (pstep (ERescue q now before) (lp_pool st)) as [m|] eqn:E; simplify_eq/=. by rewrite E.
  - destruct (lp_pc st); try done. destruct (mc_shutdown (lp_pool st)); [by simplify_eq|].
    destruct (pstep EShutdown (lp_pool st)) as [m|] eqn:E; simplify_eq/=. by rewrite E.
  - destruct (lp_pc st); try done. destruct (lp_done st); by simplify_eq.
  - destruct (lp_pc st); by simplify_eq.
  - unfold unwind in Hs. destruct (lp_pc st); try done. destruct (lp_defers st) as [|[]]; by simplify_eq.
  - destruct (lp_pc st) as [| | | | | | | | | |[|]| |]; simplify_eq. simpl. by rewrite reportIf_pool.
  - destruct (lp_pc st) as [| | | | | | | | | |[|]| |]; simplify_eq. simpl. by rewrite reportIf_pool.
  - unfold watcherAt in Hs. destruct (lp_watchers st !! i); simplify_eq/=. by case_decide; simplify_eq.
  - unfold watcherAt in Hs. destruct (lp_watchers st !! i); simplify_eq/=. by case_decide; simplify_eq.
  - destruct (_ || _); [|done]. unfold watcherAt in Hs. destruct (lp_watchers st !! i); simplify_eq/=. by case_decide; simplify_eq.
  - destruct (lp_ctx st); by simplify_eq.
  - destruct (_ && _); by simplify_eq.
  - destruct (loopsOwn ev); [done|]. destruct (pstep ev (lp_pool st)) as [m|] eqn:E; simplify_eq/=. by rewrite E.
Qed.

(** A run of the loops as a run of the pool. *)
Fixpoint projectedRun (evs : list (loopEvent S)) st : list (event S) :=
  match evs with
  | [] => []
  | ev :: rest => match step ev st with Some st' => projected ev st ++ projectedRun rest st' | None => [] end
  end.

Lemma mrun_app evs1 evs2 m m' : prun evs1 m = Some m' → prun (evs1 ++ evs2) m = prun evs2 m'.
Proof. revert m. induction evs1 as [|ev evs IH]; intros m; simpl; [by intros [= <-]|]. destruct (pstep ev m); simpl; [apply IH|done]. Qed.

Lemma lrun_projected evs : ∀ st st', run evs st = Some st' → prun (projectedRun evs st) (lp_pool st) = Some (lp_pool st').
Proof.
  induction evs as [|ev evs IH]; intros st st'; simpl; [by intros [= <-]|].
  destruct (step ev st) as [st1|] eqn:E; simpl; [|done]. intros Hr.
  rewrite (mrun_app _ _ _ _ (lstep_projected _ _ _ E)). by apply IH.
Qed.

(** ** What [Start] has taken and gives back *)

Definition isReport (c : loopCall) : bool := match c with CReportError _ => true | _ => false end.
Definition plain (calls : list loopCall) : list loopCall := filter (λ c, isReport c = false) calls.

(** How one call of [Start] went: its intervals, and the queue that could not be
    listened to. *)
Record course := mkCourse { co_poll : Duration; co_rescue : option Duration; co_failed : option (string * error) }.

Definition opened (co : course) (queues : list string) : list loopCall :=
  CNewTicker Fallback (co_poll co) :: ((λ q, CListen q None) <$> queues) ++
  match co_failed co with Some (q, err) => [CListen q (Some err)] | None => [] end ++
  match co_rescue co with Some d => [CNewTicker RescueTicker d] | None => [] end.

Definition closed (co : course) (queues : list string) : list loopCall :=
  match co_rescue co with Some _ => [CStopTicker RescueTicker] | None => [] end ++
  (if listener then (CUnlisten <$> queues) ++ [CCloseListener] else []) ++ [CStopTicker Fallback].

Definition defersOf (co : course) : list deferral :=
  match co_rescue co with Some _ => [DStop RescueTicker] | None => [] end ++ (if listener then [DCleanup] else []) ++ [DStop Fallback].

(** The calls that are still to come. *)
Definition deferredCalls (queues : list string) (ds : list deferral) : list loopCall :=
  concat ((λ d, match d with DStop t => [CStopTicker t] | DCleanup => (CUnlisten <$> queues) ++ [CCloseListener] end) <$> ds).
Definition pendingCalls (queues : list string) st : list loopCall :=
  match lp_pc st with
  | MCleanup qs _ => (CUnlisten <$> qs) ++ [CCloseListener] ++ deferredCalls queues (lp_defers st)
  | _ => deferredCalls queues (lp_defers st)
  end.

Definition subscribed st : list string := w_queue <$> lp_watchers st.

(** The queues that are listened to when all goes well. *)
Definition wanted (queues : list string) : list string := if listener then queues else [].

(** Why [Start] returns. *)
Definition verdict (queues : list string) (co : course) (res : option error) st : Prop :=
  match co_failed co with
  | Some (q, err) => res = Some err ∧ co_rescue co = None ∧ ∃ rest, wanted queues = subscribed st ++ q :: rest
  | None => subscribed st = wanted queues ∧ mc_shutdown (lp_pool st) = true ∧ (res = None ∨ is_Some res ∧ res = lp_ctx st)
  end.

Definition taking (co : course) st : Prop :=
  lp_defers st = defersOf co ∧ plain (lp_calls st) = opened co (subscribed st).

Definition pcOk (queues : list string) st : Prop :=
  match lp_pc st with
  | MIdle => lp_calls st = [] ∧ lp_defers st = [] ∧ lp_watchers st = []
  | MSubscribe todo => ∃ d, taking (mkCourse d None None) st ∧ wanted queues = subscribed st ++ todo
  | MFetch true | MFetching true | MEnter => ∃ d, taking (mkCourse d None None) st ∧ subscribed st = wanted queues
  | MFetch false | MFetching false | MSelect | MRescue _ _ _ => ∃ d r, taking (mkCourse d r None) st ∧ subscribed st = wanted queues
  | MStop => ∃ d r, taking (mkCourse d r None) st ∧ subscribed st = wanted queues ∧ is_Some (lp_ctx st)
  | MDrain => ∃ d r, taking (mkCourse d r None) st ∧ verdict queues (mkCourse d r None) (lp_ctx st) st ∧ is_Some (lp_ctx st)
  | MUnwind res | MCleanup _ res => ∃ co, verdict queues co res st ∧
      plain (lp_calls st) ++ pendingCalls (subscribed st) st = opened co (subscribed st) ++ closed co (subscribed st)
  | MReturned res => (lp_calls st = [] ∧ is_Some res) ∨
      ∃ co, verdict queues co res st ∧ plain (lp_calls st) = opened co (subscribed st) ++ closed co (subscribed st)
  | MPanicked => False
  end.

Record loop_ok (queues : list string) st : Prop := {
  lo_acc : acc_inv (lp_pool st);
  lo_queues : wc_Queues (config st) = queues;
  lo_started : lp_pc st ≠ MIdle → (∀ res, lp_pc st ≠ MReturned res) → mc_started (lp_pool st) = true;
  lo_pc : pcOk queues st
}.

Lemma mrun_flags evs : ∀ m m', acc_inv m → prun evs m = Some m' →
  (mc_shutdown m = true → mc_shutdown m' = true ∧ length (mc_gors m') = length (mc_gors m)) ∧
  (mc_started m = true → mc_started m' = true).
Proof.
  induction evs as [|ev evs IH]; intros m m' Hi; simpl; [by intros [= <-]|].
  destruct (pstep ev m) as [m1|] eqn:E; simpl; [|done]. intros Hr. destruct (mstep_flags _ _ _ Hi E) as [F1 F2].
  destruct (IH _ _ (mstep_inv reg name caps lifecycle _ _ _ Hi E) Hr) as [G1 G2]. split; [|by auto].
  intros Hs. destruct (F1 Hs) as [Hs1 <-]. by apply G1.
Qed.

Lemma verdict_frame queues co res st st' :
  subscribed st' = subscribed st → lp_ctx st' = lp_ctx st → (mc_shutdown (lp_pool st) = true → mc_shutdown (lp_pool st') = true) →
  verdict queues co res st → verdict queues co res st'.
Proof. intros Es Ec Hs. unfold verdict. rewrite Es, Ec. destruct (co_failed co) as [[]|]; [done|]. naive_solver. Qed.

(** What happens to the pool or within a watcher does not matter to [Start]. *)
Lemma pcOk_frame queues st st' :
  lp_pc st' = lp_pc st → lp_defers st' = lp_defers st → subscribed st' = subscribed st → lp_ctx st' = lp_ctx st →
  lp_calls st' = lp_calls st → (mc_shutdown (lp_pool st) = true → mc_shutdown (lp_pool st') = true) →
  pcOk queues st → pcOk queues st'.
Proof.
  intros E1 E2 E3 E4 E5 Hs. unfold pcOk, taking, pendingCalls. rewrite E1, E2, E3, E4, E5.
  assert (∀ co res, verdict queues co res st → verdict queues co res st') as Hv by (intros; by eapply verdict_frame).
  destruct (lp_pc st) as [| |[]|[]| | | | | | | | |]; try done; [|naive_solver..].
  intros (-> & -> & Ew). split_and!; [done..|]. unfold subscribed in E3. rewrite Ew in E3. by apply fmap_nil_inv in E3.
Qed.

Lemma alter_queue (f : watcher → watcher) i (ws : list watcher) :
  (∀ w, w_queue (f w) = w_queue w) → w_queue <$> alter f i ws = w_queue <$> ws.
Proof. intros Hf. revert i. induction ws as [|w ws IH]; intros [|i]; simpl; [done..|by rewrite Hf|]. f_equal. apply IH. Qed.

Lemma watcherAt_frame i from to_ st st' : watcherAt i from to_ st = Some st' →
  lp_pool st' = lp_pool st ∧ lp_pc st' = lp_pc st ∧ lp_defers st' = lp_defers st ∧ subscribed st' = subscribed st ∧
  lp_ctx st' = lp_ctx st ∧ lp_calls st' = lp_calls st.
Proof.
  unfold watcherAt. destruct (lp_watchers st !! i) as [w|] eqn:Ew; simpl; [|done]. case_decide; [|done]. intros [= <-].
  split_and!; try done. unfold subscribed. simpl. rewrite list_fmap_insert. simpl. apply list_insert_id.
  by rewrite list_lookup_fmap, Ew.
Qed.

Lemma plain_app calls calls' : plain (calls ++ calls') = plain calls ++ plain calls'.
Proof. apply filter_app. Qed.

(** [Start] never panics: its intervals are positive. *)
Lemma startTicker_runs t d k st : 0 < d → startTicker t d k st = k (set_defers (DStop t :: lp_defers st) (call (CNewTicker t d) st)).
Proof. intros Hd. unfold startTicker. by rewrite (proj2 (Z.leb_gt _ _)). Qed.

Lemma startLoops_ok queues st : acc_inv (lp_pool st) → wc_Queues (config st) = queues → pcOk queues st → lp_pc st = MIdle →
  pcOk queues (startLoops listener st) ∧
  ((∀ res, lp_pc (startLoops listener st) ≠ MReturned res) → mc_started (lp_pool (startLoops listener st)) = true).
Proof.
  intros Hi <- Hpc E. unfold pcOk in Hpc. rewrite E in Hpc. destruct Hpc as (Ec & Ed & Ew). unfold startLoops.
  destruct (pi_durations _ (ai_pool _ Hi)) as (Hd & _).
  assert (∀ m, Start (lp_pool st) = (m, None) → mc_pool m = mc_pool (lp_pool st) ∧ mc_started m = true) as HS.
  { intros m. unfold Start. repeat case_match; by intros; simplify_eq. }
  destruct (Start (lp_pool st)) as [m [err|]] eqn:ES.
  - split; [left; naive_solver|]. intros Hne. by destruct (Hne (Some err)).
  - destruct (HS _ eq_refl) as [Ep Est]. clear HS ES. unfold config in *.
    destruct listener eqn:El; unfold runWithNotifications, runWithPolling, config; simpl; rewrite Ep, startTicker_runs by done.
    + simpl. rewrite Ep. split; [|done]. assert (taking (mkCourse (wc_PollInterval (wp_config (mc_pool (lp_pool st)))) None None)
        (mkLoops m (lp_pc st) [DCleanup; DStop Fallback] [] (lp_ctx st) (lp_done st)
          [CNewTicker Fallback (wc_PollInterval (wp_config (mc_pool (lp_pool st))))])) as [Ht1 Ht2]
        by (split; [unfold defersOf; by rewrite El|done]).
      unfold pcOk. simpl. unfold subscribing, taking, wanted, subscribed. simpl. rewrite Ec, Ed, Ew, El. simpl.
      destruct (wc_Queues _) as [|q qs]; simpl; eexists; (split_and!; [by rewrite <-Ht1|done|done]).
    + split; [|done]. unfold pcOk. simpl. unfold taking, wanted, subscribed. simpl. rewrite Ec, Ed, Ew. unfold defersOf. rewrite El.
      by eexists.
Qed.

Lemma listen_ok queues q todo err st : lp_pc st = MSubscribe (q :: todo) → pcOk queues st →
  pcOk queues (match err with
    | Some err => goto (MUnwind (Some err)) (call (CListen q (Some err)) st)
    | None => goto (subscribing todo) (set_watchers (lp_watchers st ++ [mkWatcher q WSelect]) (call (CListen q None) st))
    end).
Proof.
  intros Epc. unfold pcOk. rewrite Epc. intros (d & [Hd Hc] & Hw). destruct err as [err|]; simpl.
  - exists (mkCourse d None (Some (q, err))). split; [split_and!; [done|done|by exists todo]|].
    unfold pendingCalls, subscribed in *. simpl. rewrite Hd, plain_app, Hc. unfold opened, closed, defersOf, deferredCalls. simpl.
    rewrite app_nil_r. destruct listener; simpl; by rewrite <-?app_assoc, ?app_nil_r.
  - assert (∀ todo', taking (mkCourse d None None) (goto todo' (set_watchers (lp_watchers st ++ [mkWatcher q WSelect])
      (call (CListen q None) st)))) as Ht.
    { intros todo'. split; [done|]. unfold subscribed in *. simpl. rewrite plain_app, Hc, fmap_app. unfold opened. simpl.
      by rewrite fmap_app, !app_nil_r. }
    assert (subscribed st ++ q :: todo = (subscribed st ++ [q]) ++ todo) as Ea by (by rewrite <-app_assoc).
    unfold subscribing. destruct todo as [|q' todo]; simpl; exists d; (split; [apply Ht|]); unfold subscribed in *; simpl;
      rewrite Hw, fmap_app; simpl; [done|by rewrite <-app_assoc].
Qed.

Lemma enter_ok queues st : acc_inv (lp_pool st) → lp_pc st = MEnter → pcOk queues st → pcOk queues (enterMainLoop st).
Proof.
  intros Hi Epc. unfold pcOk. rewrite Epc. intros (d & [Hd Hc] & Hw).
  destruct (pi_durations _ (ai_pool _ Hi)) as (_ & _ & _ & _ & _ & Hr). unfold enterMainLoop.
  destruct (_ && _); simpl; [|by exists d, None]. rewrite startTicker_runs by done. simpl. unfold config.
  exists d, (Some (wc_RescueInterval (wp_config (mc_pool (lp_pool st))))). split; [|done]. unfold subscribed in *. split.
  - simpl. by rewrite Hd.
  - simpl. rewrite plain_app, Hc. unfold opened, subscribed. simpl. by rewrite app_nil_r.
Qed.

Lemma caller_ok queues c fetching st : waitsToFetch c st || isFetching c st = true → pcOk queues st → pcOk queues (setCaller c fetching st).
Proof.
  intros Hc. destruct c as [|i]; simpl in *.
  - unfold pcOk. destruct (lp_pc st) as [| |first|first| | | | | | | | |]; try done; destruct first, fetching; simpl; try done;
      intros (d & Hd); by exists d, None.
  - apply pcOk_frame; try done. unfold subscribed. simpl. by rewrite alter_queue.
Qed.

Lemma unwind_ok queues st st' : unwind st = Some st' → pcOk queues st → pcOk queues st'.
Proof.
  unfold unwind. destruct (lp_pc st) as [| | | | | | | | |res| | |] eqn:Epc; try done. intros Hs. unfold pcOk. rewrite Epc.
  intros (co & Hv & Hc). unfold pendingCalls in Hc. rewrite Epc in Hc.
  destruct (lp_defers st) as [|[t|] ds] eqn:Ed; simplify_eq/=; unfold deferredCalls in Hc; simpl in Hc.
  - right. exists co. by rewrite app_nil_r in Hc.
  - rewrite Epc. exists co. split; [done|]. unfold pendingCalls. simpl. rewrite Epc, plain_app. by rewrite <-app_assoc.
  - exists co. split; [done|]. unfold pendingCalls, subscribed in *. simpl. by rewrite <-app_assoc in Hc.
Qed.

Lemma cleanup_ok queues st st' qs res done_ qs' res' : lp_pc st = MCleanup qs res → pcOk queues st →
  lp_pool st' = lp_pool st → lp_defers st' = lp_defers st → subscribed st' = subscribed st → lp_ctx st' = lp_ctx st →
  plain (lp_calls st') = plain (lp_calls st) ++ [done_] →
  pendingCalls (subscribed st) st = done_ :: pendingCalls (subscribed st) st' →
  lp_pc st' = MCleanup qs' res' ∨ lp_pc st' = MUnwind res' → res' = res → pcOk queues st'.
Proof.
  intros E Hp E1 E2 E3 E4 Ec En Hpc ->. unfold pcOk in Hp. rewrite E in Hp. destruct Hp as (co & Hv & Hc).
  assert (verdict queues co res st') as Hv' by (eapply verdict_frame; [done..|by rewrite E1|done]).
  unfold pcOk. rewrite E3. destruct Hpc as [-> | ->]; exists co; (split; [done|]); rewrite Ec, <-Hc, En, <-app_assoc; done.
Qed.

Lemma reportIf_frame wrap err st : let st' := reportIf wrap err st in
  lp_pool st' = lp_pool st ∧ lp_pc st' = lp_pc st ∧ lp_defers st' = lp_defers st ∧ lp_watchers st' = lp_watchers st ∧ lp_ctx st' = lp_ctx st ∧
  plain (lp_calls st') = plain (lp_calls st).
Proof. destruct err; simpl; [|done]. split_and!; try done. by rewrite plain_app, app_nil_r. Qed.

Lemma cancel_ok queues err st : lp_ctx st = None → pcOk queues st → pcOk queues (set_ctx (Some err) st).
Proof.
  intros Ec. assert (∀ co res, verdict queues co res st → verdict queues co res (set_ctx (Some err) st)) as Hv.
  { intros co res. unfold verdict. destruct (co_failed co) as [[]|]; [done|]. rewrite Ec.
    intros (E & Hs & [Hr|[[e Hr] Hn]]); [|congruence]. split_and!; [done..|by left]. }
  unfold pcOk, pendingCalls. simpl. destruct (lp_pc st) as [| |[]|[]| | | | | | | | |]; try done.
  - intros (d & r & Ht & Hw & [e He]). congruence.
  - intros (d & r & Ht & Hw & [e He]). congruence.
  - intros (co & Hc & E). by eauto.
  - intros (co & Hc & E). by eauto.
  - intros [Hl|(co & Hc & E)]; [by left|right; by eauto].
Qed.

Lemma lstep_ok queues ev st st' : loop_ok queues st → step ev st = Some st' → loop_ok queues st'.
Proof.
  intros [Hi Hq Hst Hpc] Hs. pose proof (lstep_projected _ _ _ Hs) as Hrun.
  destruct (mrun_config reg name caps lifecycle _ _ _ Hi Hrun) as (Hi' & Hq' & _). destruct (mrun_flags _ _ _ Hi Hrun) as [Hsd Hstd].
  assert (wc_Queues (config st') = queues) as HQ by (unfold config in *; by rewrite Hq').
  assert (mc_shutdown (lp_pool st) = true → mc_shutdown (lp_pool st') = true) as Hsd' by (intros Hx; by destruct (Hsd Hx)).
  (* the pool is started at every point but the first and the last *)
  assert ((lp_pc st ≠ MIdle → (∀ res, lp_pc st ≠ MReturned res) → pcOk queues st') →
    lp_pc st ≠ MIdle → (∀ res, lp_pc st ≠ MReturned res) → loop_ok queues st') as Hgo.
  { intros Hok Hn1 Hn2. split; [done..| |by apply Hok]. intros _ _. by apply Hstd, Hst. }
  assert ((pcOk queues st → pcOk queues st') → lp_pc st' = lp_pc st → loop_ok queues st') as Hkeep.
  { intros Hok E. split; [done..| |by apply Hok]. rewrite E. intros. by apply Hstd, Hst. }
  assert (∀ i from to_, watcherAt i from to_ st = Some st' → loop_ok queues st') as Hwatch.
  { intros i from to_ (? & ? & ? & ? & ? & ?)%watcherAt_frame. apply Hkeep; [by apply (pcOk_frame queues st)|done]. }
  assert (lp_pc st = MIdle → st' = startLoops listener st → loop_ok queues st') as Hstart.
  { intros E ->. destruct (startLoops_ok queues st Hi Hq Hpc E) as [HA HB]. split; [done..| |done]. intros _. exact HB. }
  clear Hrun Hsd Hq Hq' HQ. destruct ev as [|err|c|c| | | | | | | | | | |err|err|i|i|i|err| |ev]; cbn [lstep] in Hs.
  - destruct (lp_pc st) eqn:E; simplify_eq. by apply Hstart.
  - destruct (lp_pc st) as [|[|q todo]| | | | | | | | | | |] eqn:E; simplify_eq. apply Hgo; [|done..]. intros _ _.
    pose proof (listen_ok queues q todo err st E Hpc) as Hl. by destruct err.
  - destruct (waitsToFetch c st) eqn:Ew; [|done]. destruct (pstep EFetch (lp_pool st)) as [m|] eqn:Em; simplify_eq/=.
    assert (pcOk queues (afterFetch c m st)) as Hok.
    { unfold afterFetch. apply caller_ok; [by destruct c; simpl in *; rewrite ?Ew|]. rewrite afterFetch_pool in Hsd'. by apply (pcOk_frame queues st). }
    destruct c as [|i]; [|by apply Hkeep]. simpl in Ew.
    apply Hgo; [done|by intros E; rewrite E in Ew|by intros res E; rewrite E in Ew].
  - destruct (isFetching c st) eqn:Ew; [|done]. destruct (pstep EDispatch (lp_pool st)) as [m|] eqn:Em; simplify_eq/=.
    assert (pcOk queues (afterFetch c m st)) as Hok.
    { unfold afterFetch. apply caller_ok; [destruct c; simpl in *; by rewrite Ew, orb_true_r|]. rewrite afterFetch_pool in Hsd'. by apply (pcOk_frame queues st). }
    destruct c as [|i]; [|by apply Hkeep]. simpl in Ew.
    apply Hgo; [done|by intros E; rewrite E in Ew|by intros res E; rewrite E in Ew].
  - destruct (lp_pc st) eqn:E; simplify_eq. apply Hgo; [|done..]. intros _ _. by apply enter_ok.
  - destruct (lp_pc st) eqn:E; try done. destruct (lp_ctx st) eqn:Ec; simplify_eq. apply Hgo; [|done..]. intros _ _.
    unfold pcOk in Hpc |- *. rewrite E in Hpc. destruct Hpc as (d & r & Ht & Hw). exists d, r. simpl. rewrite Ec. by eauto.
  - destruct (lp_pc st) eqn:E; try done. destruct (mc_shutdown _) eqn:Esd; simplify_eq. apply Hgo; [|done..]. intros _ _.
    unfold pcOk in Hpc |- *. rewrite E in Hpc. destruct Hpc as (d & r & [Ht1 Ht2] & Hw). exists (mkCourse d r None).
    split; [by split_and!; [..|left]|]. unfold pendingCalls. simpl. rewrite Ht1, Ht2. f_equal.
    unfold deferredCalls, defersOf, closed. simpl. destruct r, listener; simpl; by rewrite ?app_nil_r, <-?app_assoc.
  - destruct (lp_pc st) eqn:E; simplify_eq. apply Hgo; [|done..]. intros _ _. unfold pcOk in Hpc. by rewrite E in Hpc.
  - destruct (lp_pc st) eqn:E; try done. case_decide; simplify_eq. apply Hgo; [|done..]. intros _ _.
    unfold pcOk in Hpc. rewrite E in Hpc. unfold beginRescue. destruct (runNow _). unfold pcOk, rescuing. simpl. by destruct (wc_Queues _).
  - destruct (lp_pc st) as [| | | | | |now before [|q qs]| | | | | |] eqn:E; try done.
    destruct (pstep (ERescue q now before) (lp_pool st)) as [m|] eqn:Em; simplify_eq/=. apply Hgo; [|done..]. intros _ _.
    unfold pcOk in Hpc. rewrite E in Hpc. unfold pcOk, rescuing. simpl. by destruct qs.
  - destruct (lp_pc st) eqn:E; try done. apply Hgo; [|done..]. intros _ _. unfold pcOk in Hpc. rewrite E in Hpc.
    destruct Hpc as (d & r & Ht & Hw & Hc).
    assert (mc_shutdown (lp_pool st') = true ∧ lp_pc st' = MDrain ∧ taking (mkCourse d r None) st' ∧ subscribed st' = subscribed st ∧ lp_ctx st' = lp_ctx st)
      as (E1 & E2 & E3 & E4 & E5).
    { destruct (mc_shutdown (lp_pool st)) eqn:Esd; [by simplify_eq|]. cbn [mstep] in Hs. destruct (locked _); by simplify_eq/=. }
    unfold pcOk. rewrite E2, E5. exists d, r. split_and!; [done| |done]. unfold verdict. simpl. rewrite E4, E5. naive_solver.
  - destruct (lp_pc st) eqn:E; try done. destruct (lp_done st); simplify_eq. apply Hgo; [|done..]. intros _ _. unfold pcOk in Hpc |- *.
    rewrite E in Hpc. destruct Hpc as (d & r & [Ht1 Ht2] & Hv & Hc). exists (mkCourse d r None). split; [done|].
    unfold pendingCalls. simpl. rewrite Ht1, Ht2. f_equal.
    unfold deferredCalls, defersOf, closed. simpl. destruct r, listener; simpl; by rewrite ?app_nil_r, <-?app_assoc.
  - destruct (lp_pc st) eqn:E; try done. simplify_eq. apply Hgo; [|done..]. intros _ _. unfold pcOk in Hpc |- *.
    rewrite E in Hpc. destruct Hpc as (d & r & [Ht1 Ht2] & Hv & Hc). exists (mkCourse d r None). split; [done|].
    unfold pendingCalls. simpl. rewrite plain_app, app_nil_r, Ht1, Ht2. f_equal.
    unfold deferredCalls, defersOf, closed. simpl. destruct r, listener; simpl; by rewrite ?app_nil_r, <-?app_assoc.
  - pose proof (unwind_ok _ _ _ Hs Hpc). unfold unwind in Hs.
    apply Hgo; [done|by intros E; rewrite E in Hs|by intros res E; rewrite E in Hs].
  - destruct (lp_pc st) as [| | | | | | | | | |[|q qs] res| |] eqn:E; simplify_eq. apply Hgo; [|done..]. intros _ _.
    destruct (reportIf_frame (unlistenError q) err (call (CUnlisten q) st)) as (F1 & F2 & F3 & F4 & F5 & F6).
    apply (cleanup_ok queues st _ (q :: qs) res (CUnlisten q) qs res); try done; unfold subscribed; simpl; rewrite ?F4; try done; [..|by left].
    + rewrite F6. simpl. by rewrite plain_app.
    + unfold pendingCalls. simpl. by rewrite E, F3.
  - destruct (lp_pc st) as [| | | | | | | | | |[|q qs] res| |] eqn:E; simplify_eq. apply Hgo; [|done..]. intros _ _.
    destruct (reportIf_frame closeError err (call CCloseListener st)) as (F1 & F2 & F3 & F4 & F5 & F6).
    apply (cleanup_ok queues st _ [] res CCloseListener [] res); try done; unfold subscribed; simpl; rewrite ?F4; try done; [..|by right].
    + rewrite F6. simpl. by rewrite plain_app.
    + unfold pendingCalls. simpl. by rewrite E, F3.
  - by eapply Hwatch.
  - by eapply Hwatch.
  - destruct (_ || _); [|done]. by eapply Hwatch.
  - destruct (lp_ctx st) eqn:Ec; simplify_eq. apply Hkeep; [|done]. by apply cancel_ok.
  - destruct (_ && _); simplify_eq. by apply Hkeep.
  - destruct (loopsOwn ev); [done|]. destruct (pstep ev (lp_pool st)) as [m|] eqn:E; simplify_eq/=. apply Hkeep; [|done]. by apply (pcOk_frame queues st).
Qed.

Lemma lrun_keeps (P : Loops S → Prop) evs st st' :
  (∀ ev st st', P st → step ev st = Some st' → P st') → P st → run evs st = Some st' → P st'.
Proof.
  intros Hstep. revert st. induction evs as [|ev evs IH]; intros st Hst; simpl; [by intros [= <-]|].
  destruct (step ev st) as [st1|] eqn:E; simpl; [|done]. apply IH. by eapply Hstep.
Qed.

Lemma newLoops_ok cfg randomID s clk : let p := newWorkerPool name caps randomID cfg in
  loop_ok (wc_Queues (wp_config p)) (newLoops (newMachine p s clk)).
Proof. intros p. split; [by apply (newMachine_inv name caps)|done..]. Qed.

Lemma lrun_ok cfg randomID s clk evs st : let p := newWorkerPool name caps randomID cfg in
  run evs (newLoops (newMachine p s clk)) = Some st → loop_ok (wc_Queues (wp_config p)) st.
Proof. intros p. apply lrun_keeps; [by intros; eapply lstep_ok|apply newLoops_ok]. Qed.

(** ** Who holds [fetchMu] *)

Record lock_ok st : Prop := {
  lk_holder : locked (lp_pool st) = true → ∃ c, isFetching c st = true;
  lk_held c : isFetching c st = true → locked (lp_pool st) = true;
  lk_one c c' : isFetching c st = true → isFetching c' st = true → c = c'
}.

Definition fetches (ev : loopEvent S) : bool := match ev with LFetch _ | LDispatch _ => true | _ => false end.

(** Only [fetchAndDispatch] takes the mutex and gives it back. *)
Lemma quiet_pool queues ev st st' : shape_inv reg (λ _ _, True) (λ _ _, True) queues (lp_pool st) →
  fetches ev = false → step ev st = Some st' → locked (lp_pool st') = locked (lp_pool st).
Proof.
  intros Hs Hf Hst. pose proof (lstep_projected _ _ _ Hst) as Hr.
  assert (∀ pev m', pev ≠ EFetch → pev ≠ EDispatch → pstep pev (lp_pool st) = Some m' → locked m' = locked (lp_pool st)) as Hb.
  { intros pev m' H1' H2' E. destruct (mstep_bystander reg name caps lifecycle queues _ _ _ Hs E H2') as [_ Hd _ _].
    unfold locked. by rewrite Hd. }
  assert (∀ pev : event S, loopsOwn pev = false → pev ≠ EFetch ∧ pev ≠ EDispatch) as Ho by (by intros []).
  assert (∀ pev, pev ≠ EFetch → pev ≠ EDispatch → prun [pev] (lp_pool st) = Some (lp_pool st') →
    locked (lp_pool st') = locked (lp_pool st)) as H1step.
  { intros pev Hn1 Hn2. cbn [mrun]. destruct (pstep pev (lp_pool st)) eqn:E; cbn; [|done]. intros [= <-]. by eapply Hb. }
  assert (prun [] (lp_pool st) = Some (lp_pool st') → locked (lp_pool st') = locked (lp_pool st)) as H0step by (by intros [= ->]).
  destruct ev; try done; cbn [projected] in Hr; try (by apply H0step); try (eapply H1step; [..|exact Hr]; done).
  - revert Hr. destruct (lp_pc st) as [| | | | | |now before [|q qs]| | | | | |]; try exact H0step. by apply H1step.
  - revert Hr. destruct (mc_shutdown (lp_pool st)); [exact H0step|by apply H1step].
  - cbn [lstep] in Hst. destruct (loopsOwn ev) eqn:El; [done|]. destruct (Ho _ El). by apply (H1step ev).
Qed.

Lemma watcherAt_fetching i from to_ st st' c : from ≠ WFetching → to_ ≠ WFetching → watcherAt i from to_ st = Some st' →
  isFetching c st' = isFetching c st.
Proof.
  intros Hf Ht. unfold watcherAt. destruct (lp_watchers st !! i) as [w|] eqn:Ew; simpl; [|done]. case_decide as Hw; [|done].
  intros [= <-]. destruct c as [|j]; simpl; [done|]. destruct (decide (i = j)) as [<-|Hne].
  - rewrite list_lookup_insert_eq, Ew by (by eapply lookup_lt_Some). simpl. rewrite Hw. by rewrite !bool_decide_eq_false_2.
  - by rewrite list_lookup_insert_ne.
Qed.

(** The other steps of [Start] neither enter nor leave [fetchAndDispatch]. *)
Definition outside (pc : startPc) : Prop := match pc with MFetching _ => False | _ => True end.

Lemma outside_same st st' c : outside (lp_pc st) → outside (lp_pc st') → lp_watchers st' = lp_watchers st →
  isFetching c st' = isFetching c st.
Proof. intros Ho Ho' Ew. destruct c as [|i]; simpl; [by destruct (lp_pc st), (lp_pc st')|by rewrite Ew]. Qed.

Lemma startTicker_outside t d k st : outside (lp_pc (k (set_defers (DStop t :: lp_defers st) (call (CNewTicker t d) st)))) →
  lp_watchers (k (set_defers (DStop t :: lp_defers st) (call (CNewTicker t d) st))) = lp_watchers st →
  outside (lp_pc (startTicker t d k st)) ∧ lp_watchers (startTicker t d k st) = lp_watchers st.
Proof. intros Ho Ew. unfold startTicker. by destruct (d <=? 0). Qed.

Lemma startLoops_outside st : outside (lp_pc (startLoops listener st)) ∧ lp_watchers (startLoops listener st) = lp_watchers st.
Proof.
  unfold startLoops. destruct (Start (lp_pool st)) as [m [err|]]; [done|].
  destruct listener; unfold runWithNotifications, runWithPolling; apply (startTicker_outside _ _ _ (onPool m st)); simpl; try done.
  unfold subscribing. by destruct (wc_Queues _).
Qed.

Lemma fetching_same ev st st' c : fetches ev = false → step ev st = Some st' → isFetching c st' = isFetching c st.
Proof.
  intros Hf Hs. destruct ev as [|err|d|d| | | | | | | | | | |err|err|i|i|i|err| |ev]; cbn [lstep] in Hs; try done.
  - destruct (lp_pc st) eqn:E; simplify_eq. destruct (startLoops_outside st). apply outside_same; [by rewrite E|done..].
  - destruct (lp_pc st) as [|[|q todo]| | | | | | | | | | |] eqn:E; simplify_eq. destruct err as [err|].
    + apply outside_same; [by rewrite E|done..].
    + destruct c as [|i]; simpl; [rewrite E; by destruct todo|]. destruct (decide (i < length (lp_watchers st))%nat).
      * by rewrite lookup_app_l.
      * rewrite lookup_app_r, (lookup_ge_None_2 (lp_watchers st)) by lia. by destruct (i - _)%nat.
  - destruct (lp_pc st) eqn:E; simplify_eq. assert (outside (lp_pc (enterMainLoop st)) ∧ lp_watchers (enterMainLoop st) = lp_watchers st)
      as [? ?] by (unfold enterMainLoop; destruct (_ && _); [by apply (startTicker_outside _ _ (goto MSelect))|done]).
    apply outside_same; [by rewrite E|done..].
  - destruct (lp_pc st) eqn:E; try done. destruct (lp_ctx st); simplify_eq. apply outside_same; [by rewrite E|done..].
  - destruct (lp_pc st) eqn:E; try done. destruct (mc_shutdown _); simplify_eq. apply outside_same; [by rewrite E|done..].
  - destruct (lp_pc st) eqn:E; simplify_eq. apply outside_same; [by rewrite E|done..].
  - destruct (lp_pc st) eqn:E; try done. case_decide; simplify_eq. unfold beginRescue. destruct (runNow _).
    apply outside_same; [by rewrite E| |done]. unfold rescuing. simpl. by destruct (wc_Queues _).
  - destruct (lp_pc st) as [| | | | | |now before [|q qs]| | | | | |] eqn:E; try done.
    destruct (pstep (ERescue q now before) (lp_pool st)) as [m|]; simplify_eq/=.
    apply outside_same; [by rewrite E|by destruct qs|done].
  - destruct (lp_pc st) eqn:E; try done. destruct (mc_shutdown _); [simplify_eq; apply outside_same; [by rewrite E|done..]|].
    destruct (pstep EShutdown (lp_pool st)); simplify_eq/=. apply outside_same; [by rewrite E|done..].
  - destruct (lp_pc st) eqn:E; try done. destruct (lp_done st); simplify_eq. apply outside_same; [by rewrite E|done..].
  - destruct (lp_pc st) eqn:E; simplify_eq. apply outside_same; [by rewrite E|done..].
  - unfold unwind in Hs. destruct (lp_pc st) eqn:E; try done. destruct (lp_defers st) as [|[]]; simplify_eq;
      (apply outside_same; simpl; [by rewrite E|by rewrite ?E|done]).
  - destruct (lp_pc st) as [| | | | | | | | | |[|q qs] res| |] eqn:E; simplify_eq. apply outside_same; [by rewrite E|done|by destruct err].
  - destruct (lp_pc st) as [| | | | | | | | | |[|q qs] res| |] eqn:E; simplify_eq. apply outside_same; [by rewrite E|done|by destruct err].
  - by eapply watcherAt_fetching in Hs.
  - by eapply watcherAt_fetching in Hs.
  - destruct (_ || _); [|done]. by eapply watcherAt_fetching in Hs.
  - destruct (lp_ctx st); simplify_eq. by destruct c.
  - destruct (_ && _); simplify_eq. by destruct c.
  - destruct (loopsOwn ev); [done|]. destruct (pstep ev (lp_pool st)); simplify_eq/=. by destruct c.
Qed.

#[local] Instance caller_eq_dec : EqDecision caller.
Proof. solve_decision. Defined.

Lemma setCaller_fetching c c' b st : waitsToFetch c st || isFetching c st = true →
  isFetching c' (setCaller c b st) = if decide (c' = c) then b else isFetching c' st.
Proof.
  intros Hc. destruct c as [|i]; simpl in Hc |- *.
  - destruct c' as [|j]; simpl; [|by destruct (lp_pc st)].
    destruct (lp_pc st) as [| |first|first| | | | | | | | |] eqn:E; try done; destruct b; try done; by destruct first.
  - destruct (lp_watchers st !! i) as [w|] eqn:Ew; [|done]. destruct c' as [|j]; simpl; [done|].
    destruct (decide (Watcher j = Watcher i)) as [[= ->]|Hne].
    + rewrite list_lookup_alter_eq, Ew. simpl. by destruct b.
    + by rewrite list_lookup_alter_ne by congruence.
Qed.

Lemma onPool_fetching m c st : isFetching c (onPool m st) = isFetching c st.
Proof. by destruct c. Qed.

Lemma afterFetch_lock c m st : lock_ok st → waitsToFetch c st || isFetching c st = true →
  (∀ c', c' ≠ c → isFetching c' st = false) → lock_ok (afterFetch c m st).
Proof.
  intros Hl Hc Hn. assert (∀ c', isFetching c' (afterFetch c m st) = if decide (c' = c) then locked m else false) as E.
  { intros c'. unfold afterFetch. rewrite setCaller_fetching by (by destruct c). case_decide; [done|]. rewrite onPool_fetching. by apply Hn. }
  split; rewrite ?afterFetch_pool.
  - intros Hm. exists c. by rewrite E, decide_True.
  - intros c'. rewrite E. by case_decide.
  - intros c1 c2. rewrite !E. by repeat case_decide; subst.
Qed.

Lemma lstep_lock queues ev st st' : shape_inv reg (λ _ _, True) (λ _ _, True) queues (lp_pool st) →
  lock_ok st → step ev st = Some st' → lock_ok st'.
Proof.
  intros Hs Hl Hst. destruct (fetches ev) eqn:Ef.
  - destruct ev as [| |c|c| | | | | | | | | | | | | | | | | |]; try done; cbn [lstep] in Hst.
    + destruct (waitsToFetch c st) eqn:Ew; [|done]. cbn [mstep] in Hst.
      destruct (mc_started (lp_pool st) && negb (locked (lp_pool st))) eqn:El; simplify_eq/=. bool_to_prop.
      apply afterFetch_lock; [done|by rewrite Ew|]. intros c' _. destruct (isFetching c' st) eqn:E; [|done].
      pose proof (lk_held _ Hl _ E). congruence.
    + destruct (isFetching c st) eqn:Ew; [|done]. destruct (pstep EDispatch (lp_pool st)) as [m|] eqn:E; simplify_eq/=.
      apply afterFetch_lock; [done|by rewrite Ew, orb_true_r|]. intros c' Hne. destruct (isFetching c' st) eqn:E'; [|done].
      destruct Hne. by apply (lk_one _ Hl).
  - pose proof (quiet_pool queues _ _ _ Hs Ef Hst) as Eq. destruct Hl as [L1 L2 L3]. split; rewrite ?Eq.
    + intros (c & Hc)%L1. exists c. by rewrite (fetching_same _ _ _ _ Ef Hst).
    + intros c. rewrite (fetching_same _ _ _ _ Ef Hst). apply L2.
    + intros c c'. rewrite !(fetching_same _ _ _ _ Ef Hst). apply L3.
Qed.

(** *** How far [Start] is from its end *)

Definition deferRank (n : nat) (ds : list deferral) : nat := sum_list ((λ d, match d with DStop _ => 1 | DCleanup => n + 3 end)%nat <$> ds).

Definition rank (n : nat) st : nat := (match lp_pc st with
  | MIdle => 2 * n + 14
  | MSubscribe todo => n + 12 + length todo
  | MFetch _ => n + 12
  | MFetching _ => n + 11
  | MEnter => n + 10
  | MRescue _ _ todo => n + 9 + length todo
  | MSelect => n + 9
  | MStop => n + 8
  | MDrain => n + 7
  | MUnwind _ => 1 + deferRank n (lp_defers st)
  | MCleanup todo _ => 2 + length todo + deferRank n (lp_defers st)
  | MReturned _ | MPanicked => 0
  end)%nat.

(** The ticks, and the steps that [Start] itself makes besides. *)
Definition isTick (ev : loopEvent S) : bool := match ev with LTick | LRescueTick => true | _ => false end.
Definition ofStart (ev : loopEvent S) : bool :=
  match ev with
  | LStart | LListen _ | LFetch Main | LEnter | LCtxDone | LShutdownCh | LRescue | LStop | LDrained | LTimeout | LUnwind
  | LUnlisten _ | LClose _ => true
  | _ => false
  end.

Lemma deferRank_cons n d ds : deferRank n (d :: ds) = (match d with DStop _ => 1 | DCleanup => n + 3 end + deferRank n ds)%nat.
Proof. done. Qed.

Lemma deferRank_bound n co : (deferRank n (defersOf co) ≤ n + 5)%nat.
Proof. unfold deferRank, defersOf. destruct (co_rescue co), listener; simpl; lia. Qed.


Lemma subscribed_bound queues co res st : verdict queues co res st → (length (subscribed st) ≤ length queues)%nat.
Proof.
  assert (length (wanted queues) ≤ length queues)%nat as Hw by (unfold wanted; destruct listener; simpl; lia).
  unfold verdict. destruct (co_failed co) as [[q err]|].
  - intros (_ & _ & rest & E). apply (f_equal length) in E. rewrite length_app in E. simpl in E. lia.
  - intros (-> & _). done.
Qed.

Lemma afterFetch_rank n c m st : (rank n (afterFetch c m st) ≤ rank n st)%nat ∧
  (c = Main → waitsToFetch c st = true → (rank n (afterFetch c m st) < rank n st)%nat).
Proof.
  unfold afterFetch, rank. destruct c as [|i]; simpl; [|done].
  destruct (lp_pc st) as [| |first|first| | | | | | | | |] eqn:E; simpl; rewrite ?E; try done; destruct (locked m), first; simpl; (split; [lia|intros _; done || lia]).
Qed.

(** Whatever happens, [Start] comes closer to its end but for the ticks. *)
Lemma lstep_rank queues ev st st' : loop_ok queues st → step ev st = Some st' → isTick ev = false →
  (rank (length queues) st' ≤ rank (length queues) st)%nat ∧
  (ofStart ev = true → (rank (length queues) st' < rank (length queues) st)%nat).
Proof.
  intros [Hi Hq _ Hpc] Hs Ht. set (n := length queues) in *.
  assert (lp_pc st' = lp_pc st → lp_defers st' = lp_defers st → ofStart ev = false →
    (rank n st' ≤ rank n st)%nat ∧ (ofStart ev = true → (rank n st' < rank n st)%nat)) as Hsame.
  { intros E1 E2 E3. unfold rank. rewrite E1, E2, E3. done. }
  assert ((rank n st' < rank n st)%nat → (rank n st' ≤ rank n st)%nat ∧ (ofStart ev = true → (rank n st' < rank n st)%nat)) as Hless by (intros Hlt; split; [lia|done]).
  assert (∀ i from to_, watcherAt i from to_ st = Some st' → ofStart ev = false →
    (rank n st' ≤ rank n st)%nat ∧ (ofStart ev = true → (rank n st' < rank n st)%nat)) as Hwatch.
  { intros i from to_ (_ & ? & ? & _)%watcherAt_frame. by apply Hsame. }
  unfold pcOk in Hpc.
  destruct ev as [|err|c|c| | | | | | | | | | |err|err|i|i|i|err| |ev]; try done; cbn [lstep] in Hs.
  - destruct (lp_pc st) eqn:E; simplify_eq. apply Hless. unfold rank at 2. rewrite E. unfold startLoops.
    assert (length (wc_Queues (config (onPool (Start (lp_pool st)).1 st))) = n) as En.
    { unfold config, n, Start. by repeat case_match. }
    destruct (Start (lp_pool st)) as [m [err|]]; [unfold rank; simpl; lia|]. simpl in En.
    destruct listener; unfold runWithNotifications, runWithPolling, startTicker, rank, subscribing; destruct (_ <=? 0); simpl; [lia| |lia..].
    unfold config in *. simpl in *. revert En. clearbody n. clear. destruct (wc_Queues _); simpl; lia.
  - destruct (lp_pc st) as [|[|q todo]| | | | | | | | | | |] eqn:E; simplify_eq. apply Hless. unfold rank. rewrite E.
    destruct Hpc as (d & [Hd _] & _). destruct err; simpl; [rewrite Hd; pose proof (deferRank_bound n (mkCourse d None None)); lia|].
    destruct todo; simpl; lia.
  - destruct (waitsToFetch c st) eqn:Ew; [|done]. destruct (pstep EFetch (lp_pool st)) as [m|]; simplify_eq/=.
    destruct (afterFetch_rank n c m st) as [R1 R2]. split; [done|]. destruct c; [by intros; apply R2|done].
  - destruct (isFetching c st) eqn:Ew; [|done]. destruct (pstep EDispatch (lp_pool st)) as [m|]; simplify_eq/=.
    destruct (afterFetch_rank n c m st) as [R1 R2]. split; [done|]. by destruct c.
  - destruct (lp_pc st) eqn:E; simplify_eq. apply Hless. unfold rank. rewrite E. unfold enterMainLoop, startTicker.
    destruct (_ && _); [destruct (_ <=? 0)|]; simpl; lia.
  - destruct (lp_pc st) eqn:E; try done. destruct (lp_ctx st); simplify_eq. apply Hless. unfold rank. rewrite E. simpl. lia.
  - destruct (lp_pc st) eqn:E; try done. destruct (mc_shutdown _); simplify_eq. apply Hless. unfold rank. rewrite E. simpl.
    destruct Hpc as (d & r & [Hd _] & _). rewrite Hd. pose proof (deferRank_bound n (mkCourse d r None)). lia.
  - destruct (lp_pc st) as [| | | | | |now before [|q qs]| | | | | |] eqn:E; try done.
    destruct (pstep (ERescue q now before) (lp_pool st)) as [m|]; simplify_eq/=. apply Hless. unfold rank. rewrite E. destruct qs; simpl; lia.
  - destruct (lp_pc st) eqn:E; try done. apply Hless. unfold rank. rewrite E.
    destruct (mc_shutdown _); [simplify_eq; simpl; lia|]. destruct (pstep EShutdown (lp_pool st)); simplify_eq/=. lia.
  - destruct (lp_pc st) eqn:E; try done. destruct (lp_done st); simplify_eq. apply Hless. unfold rank. rewrite E. simpl.
    destruct Hpc as (d & r & [Hd _] & _). rewrite Hd. pose proof (deferRank_bound n (mkCourse d r None)). lia.
  - destruct (lp_pc st) eqn:E; simplify_eq. apply Hless. unfold rank. rewrite E. simpl.
    destruct Hpc as (d & r & [Hd _] & _). rewrite Hd. pose proof (deferRank_bound n (mkCourse d r None)). lia.
  - unfold unwind in Hs. destruct (lp_pc st) eqn:E; try done. destruct Hpc as (co & Hv%subscribed_bound & _).
    apply Hless. unfold rank. rewrite E. unfold subscribed in Hv. fold n in Hv. clear Hless Hsame Hwatch.
    destruct (lp_defers st) as [|[]]; simplify_eq; cbn [lp_pc lp_defers set_defers goto call]; rewrite ?E, ?deferRank_cons; lia.
  - destruct (lp_pc st) as [| | | | | | | | | |[|q qs] res| |] eqn:E; simplify_eq. apply Hless. unfold rank. rewrite E.
    destruct err; simpl; lia.
  - destruct (lp_pc st) as [| | | | | | | | | |[|q qs] res| |] eqn:E; simplify_eq. apply Hless. unfold rank. rewrite E.
    destruct err; simpl; lia.
  - by eapply Hwatch.
  - by eapply Hwatch.
  - destruct (_ || _); [|done]. by eapply Hwatch.
  - destruct (lp_ctx st); simplify_eq. by apply Hsame.
  - destruct (_ && _); simplify_eq. by apply Hsame.
  - destruct (loopsOwn ev); [done|]. destruct (pstep ev (lp_pool st)); simplify_eq/=. by apply Hsame.
Qed.

(** *** Going on *)

Definition goesOn st : Prop :=
  match lp_pc st with MSubscribe [] => False | MRescue _ _ qs => qs ≠ [] ∧ is_Some (ws_rescue (S := S)) | _ => True end ∧
  (DStop RescueTicker ∈ lp_defers st → is_Some (ws_rescue (S := S))).

Lemma goesOn_frame st st' : lp_pc st' = lp_pc st → lp_defers st' = lp_defers st → goesOn st → goesOn st'.
Proof. unfold goesOn. by intros -> ->. Qed.

Lemma goesOn_to st st' : goesOn st → (∀ t, DStop t ∈ lp_defers st' → DStop t ∈ lp_defers st ∨ t = Fallback) →
  match lp_pc st' with MSubscribe [] | MRescue _ _ _ => False | _ => True end → goesOn st'.
Proof.
  intros [_ Hr] Hd Hpc. split; [by destruct (lp_pc st')|]. intros Hin. destruct (Hd _ Hin) as [?|?]; [by apply Hr|done].
Qed.

Lemma lstep_goesOn ev st st' : goesOn st → step ev st = Some st' → goesOn st'.
Proof.
  intros Hg Hs. pose proof Hg as [Hpc Hr].
  assert (∀ i from to_, watcherAt i from to_ st = Some st' → goesOn st') as Hwatch.
  { intros i from to_ (_ & ? & ? & _)%watcherAt_frame. by apply (goesOn_frame st). }
  destruct ev as [|err|c|c| | | | | | | | | | |err|err|i|i|i|err| |ev]; cbn [lstep] in Hs.
  - destruct (lp_pc st) eqn:E; simplify_eq. unfold startLoops. destruct (Start (lp_pool st)) as [m [err|]].
    + by apply (goesOn_to st); [|intros; left|].
    + destruct listener; unfold runWithNotifications, runWithPolling, startTicker, subscribing; destruct (_ <=? 0);
        (apply (goesOn_to st); [done|simpl; set_solver|]; simpl); try done. by destruct (wc_Queues _).
  - destruct (lp_pc st) as [|[|q todo]| | | | | | | | | | |] eqn:E; simplify_eq.
    destruct err; (apply (goesOn_to st); [done|by intros; left|]); simpl; [done|by destruct todo].
  - destruct (waitsToFetch c st) eqn:Ew; [|done]. destruct (pstep EFetch (lp_pool st)) as [m|]; simplify_eq/=.
    destruct c as [|i]; [|by apply (goesOn_frame st)]. simpl in Ew. unfold afterFetch. simpl.
    destruct (lp_pc st) as [| |first|first| | | | | | | | |]; try done. by destruct (locked m), first; split.
  - destruct (isFetching c st) eqn:Ew; [|done]. destruct (pstep EDispatch (lp_pool st)) as [m|]; simplify_eq/=.
    destruct c as [|i]; [|by apply (goesOn_frame st)]. simpl in Ew. unfold afterFetch. simpl.
    destruct (lp_pc st) as [| |first|first| | | | | | | | |]; try done. by destruct (locked m), first; split.
  - destruct (lp_pc st) eqn:E; simplify_eq. unfold enterMainLoop, startTicker. destruct (_ && _) eqn:Ec; [|by split].
    destruct (_ <=? 0); [by split|]. split; [done|]. intros _. bool_to_prop. destruct ws_rescue; [by eauto|done].
  - destruct (lp_pc st) eqn:E; try done. destruct (lp_ctx st); simplify_eq. by split.
  - destruct (lp_pc st) eqn:E; try done. destruct (mc_shutdown _); simplify_eq. by split.
  - destruct (lp_pc st) eqn:E; simplify_eq. by split.
  - destruct (lp_pc st) eqn:E; try done. case_decide; simplify_eq. unfold beginRescue. destruct (runNow _). unfold rescuing.
    destruct (wc_Queues _); split; simpl; auto.
  - destruct (lp_pc st) as [| | | | | |now before [|q qs]| | | | | |] eqn:E; try done.
    destruct (pstep (ERescue q now before) (lp_pool st)) as [m|]; simplify_eq/=. split; [|done]. unfold rescuing.
    destruct Hpc as [_ ?]. by destruct qs.
  - destruct (lp_pc st) eqn:E; try done. destruct (mc_shutdown _); [by simplify_eq; split|].
    destruct (pstep EShutdown (lp_pool st)); simplify_eq/=. by split.
  - destruct (lp_pc st) eqn:E; try done. destruct (lp_done st); simplify_eq. by split.
  - destruct (lp_pc st) eqn:E; simplify_eq. by split.
  - unfold unwind in Hs. destruct (lp_pc st) eqn:E; try done. destruct (lp_defers st) as [|[t|] ds] eqn:Ed; simplify_eq;
      (apply (goesOn_to st); [done| |simpl; by rewrite ?E]); intros t' Hin; left; simpl in Hin; rewrite ?Ed in *; [done|by apply list_elem_of_further..].
  - destruct (lp_pc st) as [| | | | | | | | | |[|q qs] res| |] eqn:E; simplify_eq. by destruct err; split.
  - destruct (lp_pc st) as [| | | | | | | | | |[|q qs] res| |] eqn:E; simplify_eq. by destruct err; split.
  - by eapply Hwatch.
  - by eapply Hwatch.
  - destruct (_ || _); [|done]. by eapply Hwatch.
  - destruct (lp_ctx st); simplify_eq. by apply (goesOn_frame st).
  - destruct (_ && _); simplify_eq. by apply (goesOn_frame st).
  - destruct (loopsOwn ev); [done|]. destruct (pstep ev (lp_pool st)); simplify_eq/=. by apply (goesOn_frame st).
Qed.

(** Once it is asked to end, [Start] can take a step unless it waits for [fetchMu]. *)
Lemma start_goes queues st : loop_ok queues st → lock_ok st → goesOn st → lp_pc st ≠ MIdle → (∀ res, lp_pc st ≠ MReturned res) →
  is_Some (lp_ctx st) ∨ mc_shutdown (lp_pool st) = true →
  (∃ ev st', ofStart ev = true ∧ step ev st = Some st') ∨ locked (lp_pool st) = true.
Proof.
  intros [Hi Hq Hst Hpc] Hl [Hg _] Hn1 Hn2 Hend. pose proof (Hst Hn1 Hn2) as Hstart. unfold pcOk in Hpc.
  assert (∀ ev, ofStart ev = true → is_Some (step ev st) → (∃ ev st', ofStart ev = true ∧ step ev st = Some st') ∨ locked (lp_pool st) = true)
    as Hgo by (intros ev Ho [st' E]; left; eauto).
  destruct (lp_pc st) as [|[|q todo]|first|first| | |now before [|q qs]| | |res|[|q qs] res|res|] eqn:E; try done.
  - apply (Hgo (LListen None)); [done|]. simpl. by rewrite E.
  - destruct (locked (lp_pool st)) eqn:El; [by right|]. apply (Hgo (LFetch Main)); [done|]. simpl. by rewrite E, Hstart, El.
  - right. apply (lk_held _ Hl Main). simpl. by rewrite E.
  - apply (Hgo LEnter); [done|]. simpl. by rewrite E.
  - destruct Hend as [[err Hc]|Hs]; [apply (Hgo LCtxDone eq_refl)|apply (Hgo LShutdownCh eq_refl)]; simpl; by rewrite E, ?Hc, ?Hs.
  - by destruct Hg.
  - destruct Hg as [_ [rescue Hr]]. apply (Hgo LRescue); [done|]. simpl. by rewrite E, Hr, Hstart.
  - destruct (mc_shutdown (lp_pool st)) eqn:Es; [apply (Hgo LStop); [done|]; simpl; by rewrite E, Es|].
    destruct (locked (lp_pool st)) eqn:El; [by right|]. apply (Hgo LStop); [done|]. simpl. by rewrite E, Es, El.
  - apply (Hgo LTimeout); [done|]. simpl. by rewrite E.
  - apply (Hgo LUnwind); [done|]. simpl. unfold unwind. rewrite E. by destruct (lp_defers st) as [|[]].
  - apply (Hgo (LClose None)); [done|]. simpl. by rewrite E.
  - apply (Hgo (LUnlisten None)); [done|]. simpl. by rewrite E.
  - by destruct (Hn2 res).
Qed.

(** ** The properties *)

(** How many steps of dispatchers a run has. *)
Definition dispatching (ev : loopEvent S) : bool := match ev with LDispatch _ => true | _ => false end.
Definition dispatched (evs : list (loopEvent S)) : Z := Z.of_nat (length (filter (λ ev, dispatching ev = true) evs)).

Lemma projected_dispatches ev st st' : step ev st = Some st' →
  dispatches (projected ev st) = if dispatching ev then 1 else 0.
Proof.
  intros Hs. destruct ev as [|err|c|c| | | | | | | | | | |err|err|i|i|i|err| |ev]; cbn [projected]; try done.
  - by destruct (lp_pc st) as [| | | | | |? ? []| | | | | |].
  - by destruct (mc_shutdown _).
  - cbn [lstep] in Hs. by destruct ev.
Qed.

(** Everything a reachable state of the loops satisfies. *)
Record loops_inv (queues : list string) (taken : Z) st : Prop := {
  ls_ok : loop_ok queues st;
  ls_lock : lock_ok st;
  ls_goes : goesOn st;
  ls_disp : disp_inv reg queues taken (lp_pool st)
}.

Lemma loops_inv_run queues evs : ∀ taken st st', loops_inv queues taken st → taken + dispatched evs < 2 ^ 63 → run evs st = Some st' →
  loops_inv queues (taken + dispatched evs) st'.
Proof.
  induction evs as [|ev evs IH]; intros taken st st' Hl Ht; simpl; [intros [= <-]; by rewrite Z.add_0_r|].
  destruct (step ev st) as [st1|] eqn:E; simpl; [|done]. intros Hr.
  assert (dispatched (ev :: evs) = (if dispatching ev then 1 else 0) + dispatched evs) as Ed.
  { unfold dispatched. rewrite filter_cons. destruct ev; case_decide; simpl; try done; lia. }
  rewrite Ed, Z.add_assoc in *. assert (0 ≤ dispatched evs) by (unfold dispatched; lia).
  apply (IH _ st1); [|done..]. destruct Hl as [L1 L2 L3 L4]. split.
  - by eapply lstep_ok.
  - eapply lstep_lock; [|done..]. by apply (di_shape _ _ _ _ L4).
  - by eapply lstep_goesOn.
  - rewrite <-(projected_dispatches _ _ _ E). eapply disp_inv_run; [done| |by apply lstep_projected].
    rewrite (projected_dispatches _ _ _ E). lia.
Qed.

Lemma loops_inv_start cfg randomID s clk : let p := newWorkerPool name caps randomID cfg in
  loops_inv (wc_Queues (wp_config p)) 0 (newLoops (newMachine p s clk)).
Proof.
  intros p. split; [apply newLoops_ok|by split; [|intros []|intros []]|by split; [|intros ?%elem_of_nil]|].
  apply (start_disp reg name caps lifecycle).
Qed.

(** Every run of the loops is a run of the pool. *)
Theorem loops_refine_pool m evs st : run evs (newLoops m) = Some st → prun (projectedRun evs (newLoops m)) m = Some (lp_pool st).
Proof. apply lrun_projected. Qed.

(** C27: [Start] gives back what it has taken.  However a call of [Start] goes,
    when it has returned it has stopped every ticker it created, unlistened exactly
    the queues it had subscribed to, once each and in order, and closed the listener
    once, in the order of its deferred calls; and it has returned the error that
    refused it or that [Listen] gave, the error of its context, or nil once the pool
    is shut down. *)
Theorem start_gives_back cfg randomID s clk evs st res :
  let p := newWorkerPool name caps randomID cfg in
  run evs (newLoops (newMachine p s clk)) = Some st → lp_pc st = MReturned res →
  (lp_calls st = [] ∧ is_Some res) ∨
  NoDup (subscribed st) ∧ ∃ co, plain (lp_calls st) = opened co (subscribed st) ++ closed co (subscribed st) ∧
    verdict (wc_Queues (wp_config p)) co res st.
Proof.
  intros p Hr E. destruct (lrun_ok cfg randomID s clk evs st Hr) as [Hi _ _ Hpc]. unfold pcOk in Hpc. rewrite E in Hpc.
  destruct Hpc as [Hpc|(co & Hv & Hc)]; [by left|]. right. split; [|by exists co].
  destruct (pi_queues _ (newWorkerPool_inv name caps randomID cfg)) as (_ & Hnd & _).
  assert (NoDup (wanted (wc_Queues (wp_config p)))) as Hw by (unfold wanted; destruct listener; [done|constructor]).
  unfold verdict in Hv. destruct (co_failed co) as [[q err]|]; [|by destruct Hv as (-> & _)].
  destruct Hv as (_ & _ & rest & Ew). unfold p in Hw. fold p in Ew, Hw. rewrite Ew in Hw. by apply NoDup_app in Hw as (? & _).
Qed.

(** C17: [Start] returns.  Once its context is done or the pool is shut down, a
    call of [Start] that has not returned can take its next step, or waits for
    [fetchMu], whose holder can take its next step and comes closer to giving it
    back.  Every step of [Start] but the ticks that its select may still take brings it
    closer to its end, and nothing else takes it further away. *)
Theorem start_returns cfg randomID s clk evs st :
  let p := newWorkerPool name caps randomID cfg in
  let n := length (wc_Queues (wp_config p)) in
  run evs (newLoops (newMachine p s clk)) = Some st → dispatched evs < 2 ^ 63 →
  lp_pc st ≠ MIdle → (∀ res, lp_pc st ≠ MReturned res) → is_Some (lp_ctx st) ∨ mc_shutdown (lp_pool st) = true →
  ((∃ ev st', ofStart ev = true ∧ step ev st = Some st') ∨
   ∃ c st', step (LDispatch c) st = Some st' ∧
     work (mc_pool (lp_pool st)) (mc_disp (lp_pool st')) < work (mc_pool (lp_pool st)) (mc_disp (lp_pool st))) ∧
  ∀ ev st', step ev st = Some st' → isTick ev = false →
    (rank n st' ≤ rank n st)%nat ∧ (ofStart ev = true → (rank n st' < rank n st)%nat).
Proof.
  intros p n Hr Ht Hn1 Hn2 Hend.
  destruct (loops_inv_run _ evs 0 _ _ (loops_inv_start cfg randomID s clk) Ht Hr) as [L1 L2 L3 L4]. split.
  - destruct (start_goes _ st L1 L2 L3 Hn1 Hn2 Hend) as [?|Hlock]; [by left|right].
    destruct (lk_holder _ L2 Hlock) as [c Hc]. exists c.
    destruct (dispatch_step reg _ _ _ L4 ltac:(lia) Hlock) as (m' & Em & Hw & _).
    exists (afterFetch c m' st). split; [|by rewrite afterFetch_pool]. cbn [lstep mstep]. by rewrite Hc, Em.
  - intros ev st' Hs Htick. by apply (lstep_rank _ ev).
Qed.

(** One goroutine at a time is within [fetchAndDispatch], and none starts a job
    once the pool is shut down. *)
Theorem one_fetch_at_a_time cfg randomID s clk evs st :
  let p := newWorkerPool name caps randomID cfg in
  run evs (newLoops (newMachine p s clk)) = Some st → dispatched evs < 2 ^ 63 →
  (∀ c c', isFetching c st = true → isFetching c' st = true → c = c') ∧
  ∀ ev st', mc_shutdown (lp_pool st) = true → step ev st = Some st' →
    mc_shutdown (lp_pool st') = true ∧ length (mc_gors (lp_pool st')) = length (mc_gors (lp_pool st)).
Proof.
  intros p Hr Ht. destruct (loops_inv_run _ evs 0 _ _ (loops_inv_start cfg randomID s clk) Ht Hr) as [L1 L2 L3 L4].
  split; [by apply (lk_one _ L2)|]. intros ev st' Hs Hst.
  destruct (mrun_flags _ _ _ (lo_acc _ _ L1) (lstep_projected _ _ _ Hst)) as [HF _]. by apply HF.
Qed.
End loops.
