(* ===== verification/WorkerDemo.v ===== *)
(** * worker.go on the memory backend: runs of the machine

    The memory backend keeps the promises a pool relies on, and the theorems about
    the machine, applied to concrete runs of it.  The last run shows what the
    order of pipelines does not survive: a job that gives up while it waits for
    its turn.

    Then the loops of [Start] over the same pool. *)

From S2P Require Import Prelude GoBase Json Codec Core Driver RateLimit Sha256 Memory MemoryInv MemoryFetch MemoryProps MemoryLimiter.
From S2P Require Import WorkerConfig WorkerConfigProps WorkerRate WorkerRun WorkerRunProps WorkerLeases WorkerSemaphores WorkerMachine.
From S2P Require Import WorkerMachineInv WorkerMachineShape WorkerMachineProps WorkerLiveness WorkerPipelines WorkerDispatch.
From S2P Require Import WorkerLoops WorkerLoopsProps.
From Stdlib Require Import ZArith Lia.

(** ** The memory backend as a store *)

#[export] Instance memoryLawfulFetch `{MapRange} : LawfulFetch Driver.
Proof.
  split; intros s s' prm rows; cbn [ws_fetch memoryWorkerStore]; unfold JobFetchBatch;
    (destruct (d_queues s !! fp_Queue prm) as [q|]; [|intros [= _ <-]; simpl; intros; try constructor; lia]);
    (destruct (q_Paused q); [intros [= _ <-]; simpl; intros; try constructor; lia|]); unfold dNow; simpl; intros [= _ <-].
  - intros Hpos. rewrite length_fmap, length_take. unfold fetchLimit. case_match; bool_to_prop; lia.
  - apply Forall_forall. intros r ([id row] & -> & Hin)%list_elem_of_fmap. apply elem_of_take in Hin as (i & Hi & _).
    apply list_elem_of_lookup_2 in Hi. unfold fetchCandidates in Hi. rewrite sort_by_perm in Hi.
    apply list_elem_of_filter in Hi as [Hc _]. unfold isCandidate in Hc. bool_to_prop. simpl in *. naive_solver.
Qed.

(** ** A pool with two workers *)

#[local] Existing Instances map_to_list_range amd64_conv.

Definition mailPolicy : QueuePolicy := mkQueuePolicy 2 2 [mkKeyConcurrencyLimit RateLimitKeyKind "" 2] [] 0 0.
Definition pairConfig : WorkerConfig :=
  mkWorkerConfig ["mail"; "other"] {["mail" := mailPolicy]} false 0 0 0 2 0 "w1" 0 None 0 Minute 0 0 [] false false false.
Definition pairPool : WorkerPool := newWorkerPool "memory" MemoryCapabilities "worker-1" pairConfig.

Definition mailStore (pipeline : string) (n : nat) : Driver :=
  (JobInsertMany (New demoClock) (replicate n (mkJobInsertParams "mail" "email" "{}" 0 0 "" 3 0 [] pipeline))).1.

Definition calm : RateOracle Driver := mkRateOracle (λ _ e, e) (λ _ _ s, s) (λ _ _, None) (λ _, true) 1 1.

Definition steps (evs : list (event Driver)) (m : Machine Driver) : option (Machine Driver) :=
  mrun ∅ "memory" MemoryCapabilities false evs m.
Definition pairMachine : Machine Driver := newMachine pairPool (mailStore "" 2) demoClock.

(** Both jobs are claimed, and the dispatcher goes home. *)
Definition claimBoth : list (event Driver) := [EStart; EFetch] ++ replicate 10 EDispatch.
(** A goroutine gets as far as its rate limits; it asks for them and starts. *)
Definition toHandler (i : nat) : list (event Driver) := replicate 10 (EGo i) ++ [EPermit i calm; EGo i].
(** Its handler returns and everything it holds is given back. *)
Definition toEnd (i : nat) (n : nat) : list (event Driver) := EFinish i None :: replicate n (EGo i).

Definition bothRun : list (event Driver) := claimBoth ++ toHandler 0 ++ toHandler 1.
Definition bothDone : list (event Driver) := bothRun ++ toEnd 0 14 ++ toEnd 1 14 ++ [EShutdown].
(** The second job waits for its key while the first has it. *)
Definition tightConfig : WorkerConfig :=
  mkWorkerConfig ["mail"; "other"] {["mail" := mkQueuePolicy 2 2 [mkKeyConcurrencyLimit RateLimitKeyKind "" 1] [] 0 0]}
    false 0 0 0 2 0 "w1" 0 None 0 Minute 0 0 [] false false false.
Definition tightMachine : Machine Driver :=
  newMachine (newWorkerPool "memory" MemoryCapabilities "worker-1" tightConfig) (mailStore "" 2) demoClock.
Definition oneWaits : list (event Driver) := claimBoth ++ replicate 6 (EGo 0) ++ replicate 5 (EGo 1).

Lemma pair_names : Forall nulFree (wc_Queues (wp_config pairPool)).
Proof. replace (wc_Queues (wp_config pairPool)) with ["mail"; "other"] by (vm_compute; reflexivity).
  repeat constructor; discriminate.
Qed.

Lemma pool_capacity_witness : ∃ m, steps bothRun pairMachine = Some m ∧ countG running (mc_gors m) = 2 ∧
  countG running (mc_gors m) ≤ wc_Concurrency (wp_config pairPool).
Proof.
  eexists. split; [vm_compute; reflexivity|]. split; [vm_compute; reflexivity|].
  refine (proj1 (pool_capacity ∅ "memory" MemoryCapabilities false bothRun pairConfig "worker-1" (mailStore "" 2) demoClock _ _)).
  vm_compute. reflexivity.
Defined.

Lemma policy_limits_witness : ∃ m, steps bothRun pairMachine = Some m ∧
  countG (λ g, Queue (g_row g) = "mail" ∧ AQueueDone ∈ acts g) (mc_gors m) = 2 ∧
  countG (λ g, Queue (g_row g) = "mail" ∧ AQueueDone ∈ acts g) (mc_gors m) ≤ 2.
Proof.
  eexists. split; [vm_compute; reflexivity|]. split; [vm_compute; reflexivity|].
  refine (proj1 (policy_limits ∅ "memory" MemoryCapabilities false pairConfig "worker-1" bothRun (mailStore "" 2) demoClock _ _ _ _) "mail" _);
    [| |vm_compute; reflexivity|vm_compute; reflexivity].
  - exact pair_names.
  - repeat (constructor; [by intros []|]). constructor.
Defined.

Definition restMachine : Machine Driver := Eval vm_compute in default pairMachine (steps bothDone pairMachine).

Lemma drained_clean_witness : length (mc_gors restMachine) = 2%nat ∧
  Forall (λ g, acts g = []) (mc_gors restMachine) ∧ qs_active (stateOf (mc_states restMachine) "mail") = 0.
Proof.
  unshelve epose proof (drained_clean ∅ "memory" MemoryCapabilities false pairConfig "worker-1" bothDone (mailStore "" 2) demoClock
    restMachine _ _) as (Ha & _ & _ & _ & _ & Hq); [vm_compute; reflexivity..|].
  split; [vm_compute; reflexivity|]. split; [exact Ha|exact (Hq "mail")].
Defined.

Lemma no_deadlock_witness : ∃ m, steps oneWaits tightMachine = Some m ∧
  option_map (λ g, (g_pc g, goStep (S := Driver) ∅ false 1 m)) (mc_gors m !! 1%nat) =
    Some (PKeyWait 0 [] (concurrencyKey claimedRow 0 (mkKeyConcurrencyLimit RateLimitKeyKind "" 1)) 2 [], None) ∧
  ∃ j, rtc (waits m) 1%nat j ∧ canGo ∅ false m j.
Proof.
  eexists. split; [vm_compute; reflexivity|]. split; [vm_compute; reflexivity|].
  eapply (no_deadlock ∅ "memory" MemoryCapabilities false tightConfig "worker-1" oneWaits (mailStore "" 2) demoClock);
    [|vm_compute; reflexivity|vm_compute; reflexivity|discriminate].
  replace (wc_Queues _) with ["mail"; "other"] by (vm_compute; reflexivity). repeat constructor; discriminate.
Defined.

(** Five attempts: two claims, then a round of misses; meanwhile a job starts. *)
Definition busyFetch : list (event Driver) := replicate 5 EDispatch ++ [EGo 0; EGo 0] ++ replicate 5 EDispatch.

Definition startedMachine : Machine Driver := Eval vm_compute in default pairMachine (steps [EStart] pairMachine).
Definition fetchingMachine : Machine Driver := Eval vm_compute in default pairMachine (steps [EFetch] startedMachine).
Definition fetchedMachine : Machine Driver := Eval vm_compute in default pairMachine (steps busyFetch fetchingMachine).

Lemma dispatch_terminates_witness : steps busyFetch fetchingMachine = Some fetchedMachine ∧ mc_disp fetchedMachine = DIdle ∧
  dispatches busyFetch = 10 ∧ 10 ≤ 8 * (3 + 3) + 3 + 1.
Proof.
  split; [vm_compute; reflexivity|]. split; [vm_compute; reflexivity|]. split; [vm_compute; reflexivity|].
  unshelve epose proof (dispatch_terminates ∅ "memory" MemoryCapabilities false pairConfig "worker-1" (mailStore "" 2) demoClock
    [EStart] startedMachine fetchingMachine busyFetch fetchedMachine _ _ _ _ _) as [Hd _];
    [vm_compute; reflexivity|vm_compute; reflexivity|vm_compute; reflexivity|repeat constructor|vm_compute; reflexivity|].
  vm_compute in Hd. exact Hd.
Defined.

(** The first three slots of the schedule: the queue of weight two is tried twice. *)
Definition turnedMachine : Machine Driver := Eval vm_compute in default pairMachine (steps (replicate 7 EDispatch) fetchingMachine).

Lemma weighted_round_robin_witness : mc_cursor fetchingMachine = 0 ∧ mc_cursor turnedMachine = 3 ∧
  attempts ∅ "memory" MemoryCapabilities false "mail" (replicate 7 EDispatch) fetchingMachine = 2.
Proof.
  split; [vm_compute; reflexivity|]. split; [vm_compute; reflexivity|].
  unshelve epose proof (weighted_round_robin ∅ "memory" MemoryCapabilities false pairConfig "worker-1" (mailStore "" 2) demoClock
    [EStart; EFetch] fetchingMachine (replicate 7 EDispatch) turnedMachine "mail" _ _ _ _ _ _) as Hw;
    [vm_compute; reflexivity|vm_compute; reflexivity|repeat constructor; discriminate|vm_compute; reflexivity|vm_compute; reflexivity
    |vm_compute; constructor|].
  etrans; [exact Hw|]. vm_compute. reflexivity.
Defined.

(** ** Three jobs of one pipeline *)

Definition lineConfig : WorkerConfig :=
  mkWorkerConfig ["mail"] ∅ false 0 0 0 3 0 "w1" 0 None 0 Minute 0 0 [] false false false.
Definition lineMachine : Machine Driver :=
  newMachine (newWorkerPool "memory" MemoryCapabilities "worker-1" lineConfig) (mailStore "p" 3) demoClock.

(** The jobs are claimed; the first is in its handler, the others wait for it. *)
Definition lineUp : list (event Driver) :=
  [EStart; EFetch] ++ replicate 11 EDispatch ++ replicate 8 (EGo 0) ++ [EPermit 0 calm; EGo 0; EGo 1; EGo 2].
(** The first finishes and the second takes its turn. *)
Definition nextInLine : list (event Driver) := lineUp ++ toEnd 0 14 ++ replicate 7 (EGo 1) ++ [EPermit 1 calm; EGo 1].
(** The second gives up instead, and returns. *)
Definition jumpTheLine : list (event Driver) :=
  lineUp ++ [ECancel 1; EBail 1] ++ replicate 12 (EGo 1) ++ replicate 7 (EGo 2) ++ [EPermit 2 calm; EGo 2].

Definition secondRuns : Machine Driver := Eval vm_compute in default lineMachine (steps nextInLine lineMachine).

Lemma pipelines_serial_witness : option_map g_pc (mc_gors secondRuns !! 0%nat) = Some PUnwind ∧
  countG running (mc_gors secondRuns) = 1 ∧
  ∀ i gi, (i < 1)%nat → mc_gors secondRuns !! i = Some gi → inPipe "p" gi → i ∈ mc_closed secondRuns.
Proof.
  split; [vm_compute; reflexivity|]. split; [vm_compute; reflexivity|].
  assert (∃ g, mc_gors secondRuns !! 1%nat = Some g ∧ inPipe "p" g ∧ passed g) as (g & Hg & Hp & Hps).
  { eexists. split; [vm_compute; reflexivity|]. split; [vm_compute; reflexivity|exact I]. }
  unshelve epose proof (pipelines_serial ∅ "memory" MemoryCapabilities false lineConfig "worker-1" nextInLine (mailStore "p" 3) demoClock
    secondRuns "p" _ _ _) as [Hs _].
  - apply orderly_no_bail. repeat constructor.
  - vm_compute. reflexivity.
  - discriminate.
  - intros i gi Hi Hgi Hgp. exact (proj1 (Hs i 1%nat gi g Hi Hgi Hg Hgp Hp Hps)).
Defined.

(** A job that gives up while it waits for its turn takes the turn of its
    successors with it: they start while the job before it still runs. *)
Lemma early_yield_overlaps : ∃ m gi gj, steps jumpTheLine lineMachine = Some m ∧ mc_gors m !! 0%nat = Some gi ∧ mc_gors m !! 2%nat = Some gj ∧
  inPipe "p" gi ∧ inPipe "p" gj ∧ running gi ∧ running gj.
Proof.
  eexists _, _, _. split; [vm_compute; reflexivity|]. split; [vm_compute; reflexivity|]. split; [vm_compute; reflexivity|].
  split_and!; vm_compute; done.
Qed.

(** * The loops *)

#[local] Existing Instances map_to_list_range amd64_conv.

Definition goOn (evs : list (loopEvent Driver)) : option (Loops Driver) :=
  lrun ∅ "memory" MemoryCapabilities false true evs (newLoops pairMachine).
Definition stateAfter (evs : list (loopEvent Driver)) : Loops Driver := default (newLoops pairMachine) (goOn evs).

(** Two subscriptions, a first fetch that claims both jobs, and a notification. *)
Definition loopsRun : list (loopEvent Driver) :=
  [LStart; LListen None; LListen None; LFetch Main] ++ replicate 10 (LDispatch Main) ++ [LEnter; LNotified 1; LFetch (Watcher 1)].
(** The context ends; the drain does not finish in time. *)
Definition cancelledRun : list (loopEvent Driver) :=
  loopsRun ++ replicate 4 (LDispatch (Watcher 1)) ++ [LCancel (ESentinel ContextCanceled); LLeave 0; LCtxDone; LStop; LTimeout].
Definition returnedRun : list (loopEvent Driver) :=
  cancelledRun ++ [LUnwind; LUnwind; LUnlisten None; LUnlisten (Some (ENew "gone")); LClose None; LUnwind; LUnwind].

Definition returned : Loops Driver := Eval vm_compute in stateAfter returnedRun.

Lemma start_gives_back_witness : lp_pc returned = MReturned (Some (ESentinel ContextCanceled)) ∧ subscribed returned = ["mail"; "other"] ∧
  ∃ co, plain (lp_calls returned) = opened co ["mail"; "other"] ++ closed true co ["mail"; "other"].
Proof.
  split; [vm_compute; reflexivity|]. split; [vm_compute; reflexivity|].
  destruct (start_gives_back ∅ "memory" MemoryCapabilities false true pairConfig "worker-1" (mailStore "" 2) demoClock
    returnedRun returned (Some (ESentinel ContextCanceled))) as [[E _]|(_ & co & E & _)];
    [vm_compute; reflexivity|vm_compute; reflexivity|discriminate|]. exists co. exact E.
Defined.

(** The context ends while a watcher fetches: [Start] waits for it to shut down. *)
Definition waitingRun : list (loopEvent Driver) := loopsRun ++ [LCancel (ESentinel ContextCanceled); LCtxDone].
Definition waiting : Loops Driver := Eval vm_compute in stateAfter waitingRun.

Lemma start_returns_witness : lp_pc waiting = MStop ∧ isFetching (Watcher 1) waiting = true ∧ rank 2 waiting = 10%nat ∧
  ∃ c st', lstep ∅ "memory" MemoryCapabilities false true (LDispatch c) waiting = Some st'.
Proof.
  split; [vm_compute; reflexivity|]. split; [vm_compute; reflexivity|]. split; [vm_compute; reflexivity|].
  unshelve epose proof (start_returns ∅ "memory" MemoryCapabilities false true pairConfig "worker-1" (mailStore "" 2) demoClock
    waitingRun waiting _ _ _ _ _) as [[(ev & st' & Ho & E)|(c & st' & Hd & _)] _];
    [vm_compute; reflexivity|vm_compute; reflexivity|discriminate|discriminate|left; eexists; vm_compute; reflexivity| |].
  - exfalso. destruct ev as [| |[]|[]| | | | | | | | | | | | | | | | | |]; try discriminate Ho; vm_compute in E; discriminate E.
  - exists c, st'. exact Hd.
Defined.

(** A shutdown that has succeeded while [Start] subscribes: [Shutdown] has reported
    that everything has returned, and then [Start] adds another goroutine. *)
Definition shutDownRun : list (loopEvent Driver) := [LStart; LListen None; LPool EShutdown; LLeave 0; LWaited].

Lemma watcher_after_shutdown :
  (λ st, (lp_done st, wgCount st)) <$> goOn shutDownRun = Some (true, 0) ∧
  (λ st, (lp_done st, wgCount st)) <$> goOn (shutDownRun ++ [LListen None]) = Some (true, 1).
Proof. split; vm_compute; reflexivity. Qed.
