(* ===== verification/ManualClock.v ===== *)
(** * clock/clock.go: the manual clock and the contexts it drives

    Timers are cells of a heap, known by their number; [mn_timers] of the code is
    the set of the active ones.  A channel of capacity one is the list of what it
    holds.  [None] is a panic.  [Set] visits the active timers in an unspecified
    order; the result does not depend on it ([set_timers]).  A context made by
    [WithTimeout] is a small machine: its goroutine, its canceller and the timer
    race for the first call of [finish]. *)

From S2P Require Import Prelude GoBase.
From Stdlib Require Import ZArith Lia.

(** ** The manual clock *)

Record manualTimer := mkManualTimer {
  mt_ch : list Instant;
  mt_next : Instant;
  mt_interval : Duration;
  mt_stopped : bool
}.

Record Manual := mkManual {
  mn_now : Instant;
  mn_heap : gmap nat manualTimer;      (* every timer there has been *)
  mn_timers : gset nat;                (* the keys of the map [timers] *)
  mn_count : nat
}.

(** 2024-01-01T00:00:00Z: 19723 days after 1970-01-01. *)
Definition defaultStart : Instant := unixEpoch + 19723 * 24 * Hour.

Definition NewManual (t : Instant) : Manual := mkManual (if IsZero t then defaultStart else t) ∅ ∅ 0.

Definition ManualNow (m : Manual) : Instant := mn_now m.
Definition ManualSince (m : Manual) (t : Instant) : Duration := Sub (ManualNow m) t.

Definition addTimer (tm : manualTimer) (active : bool) (m : Manual) : Manual * nat :=
  let i := mn_count m in
  (mkManual (mn_now m) (<[i := tm]> (mn_heap m)) (if active then {[i]} ∪ mn_timers m else mn_timers m) (S i), i).

Definition NewTimer (d : Duration) (m : Manual) : Manual * nat :=
  let next := Add (mn_now m) d in
  if d <=? 0 then addTimer (mkManualTimer [mn_now m] next 0 true) false m
  else addTimer (mkManualTimer [] next 0 false) true m.

(** [After] hands out the channel of a timer. *)
Definition ManualAfter (d : Duration) (m : Manual) : Manual * nat := NewTimer d m.

Definition NewTicker (d : Duration) (m : Manual) : option (Manual * nat) :=
  if d <=? 0 then None
  else Some (addTimer (mkManualTimer [] (Add (mn_now m) d) d false) true m).

(** [select { case ch <- firedAt: default: }] on a channel of capacity one. *)
Definition offer (t : Instant) (ch : list Instant) : list Instant := match ch with [] => [t] | _ => ch end.

(** What [Set] does to one timer at the new time [t], and whether it stays. *)
Definition fire (t : Instant) (tm : manualTimer) : manualTimer * bool :=
  if mt_stopped tm || After (mt_next tm) t then (tm, true)
  else
    let ch := offer (mt_next tm) (mt_ch tm) in
    if mt_interval tm =? 0 then (mkManualTimer ch (mt_next tm) (mt_interval tm) true, false)
    else
      let steps := wrap64 (durDiv (Sub t (mt_next tm)) (mt_interval tm) + 1) in
      (mkManualTimer ch (Add (mt_next tm) (durMul steps (mt_interval tm))) (mt_interval tm) (mt_stopped tm), true).

Definition fireOne (t : Instant) (m : Manual) (i : nat) : Manual :=
  match mn_heap m !! i with
  | None => m
  | Some tm =>
      let '(tm', stays) := fire t tm in
      mkManual (mn_now m) (<[i := tm']> (mn_heap m)) (if stays then mn_timers m else mn_timers m ∖ {[i]}) (mn_count m)
  end.

(** [order] lists the active timers in the order the range visits them. *)
Definition ManualSet (order : gset nat → list nat) (t : Instant) (m : Manual) : Manual :=
  let forward := negb (Before t (mn_now m)) in
  let m' := mkManual t (mn_heap m) (mn_timers m) (mn_count m) in
  if negb forward then m' else foldl (fireOne t) m' (order (mn_timers m)).

Definition ManualAdvance (order : gset nat → list nat) (d : Duration) (m : Manual) : option Manual :=
  if d <? 0 then None else Some (ManualSet order (Add (ManualNow m) d) m).

Definition ActiveTimers (m : Manual) : nat := size (mn_timers m).

Definition StopTimer (i : nat) (m : Manual) : Manual :=
  match mn_heap m !! i with
  | Some tm =>
      if mt_stopped tm then m
      else mkManual (mn_now m) (<[i := mkManualTimer (mt_ch tm) (mt_next tm) (mt_interval tm) true]> (mn_heap m))
             (mn_timers m ∖ {[i]}) (mn_count m)
  | None => m
  end.

(** Receiving from the channel of a timer, if there is something. *)
Definition receive (i : nat) (m : Manual) : option (Instant * Manual) :=
  match mn_heap m !! i with
  | Some tm =>
      match mt_ch tm with
      | t :: rest => Some (t, mkManual (mn_now m) (<[i := mkManualTimer rest (mt_next tm) (mt_interval tm) (mt_stopped tm)]> (mn_heap m))
                                (mn_timers m) (mn_count m))
      | [] => None
      end
  | None => None
  end.

(** ** WithTimeout *)

(** Where the goroutine of a context stands: in its select, or in the deferred
    [stopTimer], or gone. *)
Inductive watcher := Watching | Leaving | Gone.

Record timeoutContext := mkTimeoutContext {
  tc_deadline : Instant;
  tc_timer : nat;
  tc_err : option error;          (* set together with the closing of [done] *)
  tc_watcher : watcher
}.

Definition WithTimeout (d : Duration) (m : Manual) : Manual * timeoutContext :=
  let deadline := Add (ManualNow m) d in
  let '(m', i) := NewTimer d m in (m', mkTimeoutContext deadline i None Watching).

(** [Deadline()]: the parent's, when it is earlier. *)
Definition ctxDeadline (parent : option Instant) (c : timeoutContext) : Instant :=
  match parent with
  | Some d => if Before d (tc_deadline c) then d else tc_deadline c
  | None => tc_deadline c
  end.

(** [finish]: the first caller decides. *)
Definition finish (err : error) (c : timeoutContext) : timeoutContext :=
  match tc_err c with
  | Some _ => c
  | None => mkTimeoutContext (tc_deadline c) (tc_timer c) (Some err) (tc_watcher c)
  end.

Definition moveWatcher (w : watcher) (c : timeoutContext) : timeoutContext :=
  mkTimeoutContext (tc_deadline c) (tc_timer c) (tc_err c) w.

(** One step of the context: a branch of the goroutine's select, its deferred
    call, or the returned [CancelFunc]. *)
Inductive ctxEvent := CParentDone (err : error) | CTimer | CDone | CLeave | CCancel.

Definition ctxStep (ev : ctxEvent) (mc : Manual * timeoutContext) : option (Manual * timeoutContext) :=
  let '(m, c) := mc in
  match ev, tc_watcher c with
  | CParentDone err, Watching => Some (m, moveWatcher Leaving (finish err c))
  | CTimer, Watching =>
      match receive (tc_timer c) m with
      | Some (_, m') => Some (m', moveWatcher Leaving (finish (ESentinel ContextDeadlineExceeded) c))
      | None => None
      end
  | CDone, Watching => match tc_err c with Some _ => Some (m, moveWatcher Leaving c) | None => None end
  | CLeave, Leaving => Some (StopTimer (tc_timer c) m, moveWatcher Gone c)
  | CCancel, _ => Some (StopTimer (tc_timer c) m, finish (ESentinel ContextCanceled) c)
  | _, _ => None
  end.

(** ** The state of the clock *)

Record clockInv (m : Manual) : Prop := {
  ci_fresh i tm : mn_heap m !! i = Some tm → (i < mn_count m)%nat;
  ci_active i : i ∈ mn_timers m ↔ ∃ tm, mn_heap m !! i = Some tm ∧ mt_stopped tm = false;
  ci_interval i tm : mn_heap m !! i = Some tm → 0 ≤ mt_interval tm ≤ int64_max;
  ci_buffer i tm : mn_heap m !! i = Some tm → (length (mt_ch tm) ≤ 1)%nat
}.

Lemma NewManual_inv t : clockInv (NewManual t).
Proof. split; simpl; intros *; rewrite ?lookup_empty; try done. split; [set_solver|]. by intros (tm & Htm & _). Qed.

Lemma addTimer_inv tm m :
  clockInv m → 0 ≤ mt_interval tm ≤ int64_max → (length (mt_ch tm) ≤ 1)%nat →
  clockInv (addTimer tm (negb (mt_stopped tm)) m).1.
Proof.
  intros [Hf Ha Hi Hb] Hti Htb. assert (mn_heap m !! mn_count m = None) as Hnew.
  { destruct (mn_heap m !! mn_count m) eqn:E; [|done]. apply Hf in E. lia. }
  assert (mn_count m ∉ mn_timers m) as Hnot by (rewrite Ha; intros (? & ? & _); congruence).
  split; simpl; intros i.
  - intros tm'. rewrite lookup_insert_Some. intros [[<- _]|[_ Hl]]; [lia|]. apply Hf in Hl. lia.
  - destruct (decide (i = mn_count m)) as [->|Hne].
    + rewrite lookup_insert_eq. destruct (mt_stopped tm) eqn:E; simpl.
      * split; [done|]. intros (tm' & Htm' & ?). congruence.
      * rewrite elem_of_union, elem_of_singleton. split; [eauto|by left].
    + rewrite lookup_insert_ne by done. rewrite <-Ha. destruct (negb (mt_stopped tm)); [|done].
      rewrite elem_of_union, elem_of_singleton. split; [intros [?|?]; done|by right].
  - intros tm'. rewrite lookup_insert_Some. intros [[<- <-]|[_ Hl]]; [done|]. eauto.
  - intros tm'. rewrite lookup_insert_Some. intros [[<- <-]|[_ Hl]]; [done|]. eauto.
Qed.

Lemma NewTimer_inv d m : clockInv m → clockInv (NewTimer d m).1.
Proof.
  intros Hm. unfold NewTimer. case_match.
  - apply (addTimer_inv (mkManualTimer _ _ 0 true)); simpl; [done|unfold int64_max; lia|lia].
  - apply (addTimer_inv (mkManualTimer _ _ 0 false)); simpl; [done|unfold int64_max; lia|lia].
Qed.

Lemma NewTicker_inv d m m' i : clockInv m → d ≤ int64_max → NewTicker d m = Some (m', i) → clockInv m'.
Proof.
  intros Hm Hd. unfold NewTicker. destruct (d <=? 0) eqn:E; [done|]. bool_to_prop. intros [= <- _].
  apply (addTimer_inv (mkManualTimer [] _ d false)); simpl; [done|lia|lia].
Qed.

(** ** Firing *)

(** An active timer is due later than the clock shows. *)
Definition ahead (m : Manual) : Prop := ∀ i tm, mn_heap m !! i = Some tm → mt_stopped tm = false → mn_now m < mt_next tm.

(** What a timer that is due becomes: its deadline is in the channel unless a
    tick was waiting there; a ticker's next deadline is the first one after [t]. *)
Lemma fire_due t tm :
  mt_stopped tm = false → mt_next tm ≤ t → 0 ≤ mt_interval tm ≤ int64_max → t - mt_next tm + mt_interval tm ≤ int64_max →
  mt_ch (fire t tm).1 = offer (mt_next tm) (mt_ch tm) ∧
  if mt_interval tm =? 0 then (fire t tm).2 = false ∧ mt_stopped (fire t tm).1 = true
  else (fire t tm).2 = true ∧ mt_stopped (fire t tm).1 = false ∧
    t < mt_next (fire t tm).1 ≤ t + mt_interval tm ∧
    ∃ k, 0 < k ∧ mt_next (fire t tm).1 = mt_next tm + k * mt_interval tm.
Proof.
  intros Hs Hd Hi Hb. unfold fire. rewrite Hs. simpl. rewrite (proj2 (After_false _ _)) by done.
  destruct (mt_interval tm =? 0) eqn:E; [done|]. bool_to_prop. simpl. split; [done|]. split; [done|]. split; [done|].
  rewrite Sub_exact by (unfold is_int64, int64_min, int64_max in *; lia).
  unfold durDiv. rewrite Z.quot_div_nonneg by lia.
  set (q := (t - mt_next tm) / mt_interval tm).
  pose proof (Z.div_mod (t - mt_next tm) (mt_interval tm) ltac:(lia)) as Hdm. fold q in Hdm.
  pose proof (Z.mod_pos_bound (t - mt_next tm) (mt_interval tm) ltac:(lia)) as Hmod.
  assert (0 ≤ q) by (apply Z.div_pos; lia).
  assert (q ≤ t - mt_next tm) by nia.
  rewrite wrap64_id by (unfold is_int64, int64_min, int64_max in *; lia).
  unfold durMul, Add. rewrite wrap64_id by (unfold is_int64, int64_min, int64_max in *; nia).
  split; [nia|]. exists (q + 1). split; [lia|done].
Qed.

Lemma fire_early t tm : mt_stopped tm = true ∨ t < mt_next tm → fire t tm = (tm, true).
Proof. unfold fire. intros [->|Hl]; [done|]. rewrite (proj2 (After_true _ _)) by done. by rewrite orb_true_r. Qed.

Lemma fire_frame t tm :
  mt_interval (fire t tm).1 = mt_interval tm ∧ ((length (mt_ch tm) ≤ 1)%nat → (length (mt_ch (fire t tm).1) ≤ 1)%nat) ∧
  ((fire t tm).2 = true → mt_stopped (fire t tm).1 = mt_stopped tm) ∧ ((fire t tm).2 = false → mt_stopped (fire t tm).1 = true).
Proof.
  unfold fire. destruct (mt_stopped tm || After (mt_next tm) t); [done|].
  assert ((length (mt_ch tm) ≤ 1)%nat → (length (offer (mt_next tm) (mt_ch tm)) ≤ 1)%nat) by (unfold offer; destruct (mt_ch tm); simpl; lia).
  by destruct (mt_interval tm =? 0).
Qed.

Lemma fireAll_timers t l : NoDup l → ∀ m,
  let m' := foldl (fireOne t) m l in
  mn_now m' = mn_now m ∧ mn_count m' = mn_count m ∧
  (∀ i, mn_heap m' !! i = (λ tm, if decide (i ∈ l) then (fire t tm).1 else tm) <$> mn_heap m !! i) ∧
  (∀ i, i ∈ mn_timers m' ↔ i ∈ mn_timers m ∧ (i ∈ l → ∀ tm, mn_heap m !! i = Some tm → (fire t tm).2 = true)).
Proof.
  induction 1 as [|j l Hj _ IH]; intros m; cbn [foldl].
  { split_and!; [done..| |].
    - intros i. by destruct (mn_heap m !! i).
    - intros i. split; [|tauto]. intros Hi. split; [done|]. by intros ?%elem_of_nil. }
  destruct (IH (fireOne t m j)) as (Hn & Hc & Hh & Ht). clear IH.
  assert (mn_now (fireOne t m j) = mn_now m ∧ mn_count (fireOne t m j) = mn_count m ∧
    (∀ i, mn_heap (fireOne t m j) !! i = (λ tm, if decide (i = j) then (fire t tm).1 else tm) <$> mn_heap m !! i) ∧
    (∀ i, i ∈ mn_timers (fireOne t m j) ↔ i ∈ mn_timers m ∧ (i = j → ∀ tm, mn_heap m !! i = Some tm → (fire t tm).2 = true))) as (Hn1 & Hc1 & Hh1 & Ht1).
  { unfold fireOne. destruct (mn_heap m !! j) as [tm|] eqn:E.
    - destruct (fire t tm) as [tm' stays] eqn:Ef. simpl. split_and!; [done..| |].
      + intros i. destruct (decide (i = j)) as [->|Hne]; [rewrite lookup_insert_eq, E; simpl; by rewrite Ef|].
        rewrite lookup_insert_ne by done. by destruct (mn_heap m !! i).
      + intros i. destruct stays.
        * split; [|tauto]. intros Hi. split; [done|]. intros -> tm0 E0. rewrite E0 in E. simplify_eq. by rewrite Ef.
        * rewrite elem_of_difference, elem_of_singleton. split; [tauto|]. intros [Hi Hf]. split; [done|]. intros ->.
          specialize (Hf eq_refl _ E). rewrite Ef in Hf. done.
    - split_and!; [done..| |].
      + intros i. destruct (mn_heap m !! i) eqn:Ei; simpl; [|done]. case_decide; [congruence|done].
      + intros i. split; [|tauto]. intros Hi. split; [done|]. intros -> tm0 E0. congruence. }
  split_and!; [congruence|congruence| |].
  - intros i. rewrite Hh, Hh1. destruct (mn_heap m !! i) as [tm|]; simpl; [|done]. f_equal.
    destruct (decide (i = j)) as [->|Hne].
    + rewrite decide_False by done. by rewrite decide_True by set_solver.
    + destruct (decide (i ∈ l)); [by rewrite decide_True by set_solver|by rewrite decide_False by set_solver].
  - intros i. rewrite Ht, Ht1. destruct (decide (i = j)) as [->|Hne].
    + split; [intros [[Hi Hf] _]; split; [done|]; intros _; by apply Hf|].
      intros [Hi Hf]. split; [split; [done|]; intros _; apply Hf; left|]. intros; done.
    + assert (mn_heap (fireOne t m j) !! i = mn_heap m !! i) as ->.
      { rewrite Hh1. destruct (mn_heap m !! i); simpl; [|done]. by rewrite decide_False. }
      split; [intros [[Hi _] Hf]; split; [done|]; intros Hin; apply Hf; by apply elem_of_cons in Hin as [?|?]|].
      intros [Hi Hf]. split; [split; [done|]; done|]. intros Hin. apply Hf. by right.
Qed.

Section clock.
Context (order : gset nat → list nat) (order_perm : ∀ s, order s ≡ₚ elements s).

(** The order in which the active timers are visited does not matter. *)
Lemma set_timers t m : mn_now m ≤ t →
  let m' := ManualSet order t m in
  mn_now m' = t ∧ mn_count m' = mn_count m ∧
  (∀ i, mn_heap m' !! i = (λ tm, if decide (i ∈ mn_timers m) then (fire t tm).1 else tm) <$> mn_heap m !! i) ∧
  (∀ i, i ∈ mn_timers m' ↔ i ∈ mn_timers m ∧ ∀ tm, mn_heap m !! i = Some tm → (fire t tm).2 = true).
Proof.
  intros Ht. unfold ManualSet. rewrite (proj2 (Before_false _ _)) by done. simpl.
  destruct (fireAll_timers t (order (mn_timers m))) with (m := mkManual t (mn_heap m) (mn_timers m) (mn_count m)) as (Hn & Hc & Hh & Hm).
  { rewrite order_perm. apply NoDup_elements. }
  simpl in *. assert (∀ i, i ∈ order (mn_timers m) ↔ i ∈ mn_timers m) as Hin by (intros i; rewrite order_perm; apply elem_of_elements).
  split_and!; [done..| |].
  - intros i. rewrite Hh. destruct (mn_heap m !! i); simpl; [|done]. f_equal.
    destruct (decide (i ∈ mn_timers m)) as [Hi|Hi]; [rewrite decide_True|rewrite decide_False]; by rewrite ?Hin.
  - intros i. rewrite Hm, Hin. tauto.
Qed.

Lemma set_inv t m : clockInv m → mn_now m ≤ t → clockInv (ManualSet order t m).
Proof.
  intros [Hf Ha Hi Hb] Ht. destruct (set_timers t m Ht) as (_ & Hc & Hh & Hm). split.
  - intros i tm. rewrite Hh, Hc. destruct (mn_heap m !! i) eqn:E; simpl; [|done]. intros _. by eapply Hf.
  - intros i. rewrite Hm, Hh. split.
    + intros [Hin Hst]. apply Ha in Hin as Hin'. destruct Hin' as (tm & Htm & Hs). rewrite Htm. simpl. rewrite decide_True by done.
      eexists. split; [done|]. destruct (fire_frame t tm) as (_ & _ & Hk & _). rewrite Hk by auto. done.
    + intros (tm' & Htm' & Hs). destruct (mn_heap m !! i) as [tm|] eqn:E; simplify_eq/=.
      case_decide as Hin; [|exfalso; apply Hin, Ha; eauto]. split; [done|]. intros tm0 [= <-].
      destruct (fire_frame t tm) as (_ & _ & _ & Hk). destruct (fire t tm).2; [done|]. by rewrite Hk in Hs.
  - intros i tm'. rewrite Hh. destruct (mn_heap m !! i) as [tm|] eqn:E; simpl; [|done]. intros [= <-].
    case_decide; [destruct (fire_frame t tm) as (-> & _)|]; eauto.
  - intros i tm'. rewrite Hh. destruct (mn_heap m !! i) as [tm|] eqn:E; simpl; [|done]. intros [= <-].
    case_decide; [destruct (fire_frame t tm) as (_ & Hl & _); apply Hl|]; eauto.
Qed.

(** Moving the clock forward fires exactly what is due: a timer whose deadline is
    after [t], or that is stopped, stays as it is; any other holds a tick
    afterwards, its deadline unless an earlier one is waiting; a one-shot timer is
    then done, and a ticker is due at its first deadline after [t].  Whatever has
    not been stopped is due later than the clock shows. *)
Theorem manual_set_fires t m :
  clockInv m → ahead m → mn_now m ≤ t →
  (∀ i tm, mn_heap m !! i = Some tm → t - mt_next tm + mt_interval tm ≤ int64_max) →
  let m' := ManualSet order t m in
  clockInv m' ∧ ahead m' ∧ mn_now m' = t ∧
  ∀ i tm, mn_heap m !! i = Some tm → ∃ tm', mn_heap m' !! i = Some tm' ∧
    if bool_decide (mt_stopped tm = false ∧ mt_next tm ≤ t) then
      mt_ch tm' = offer (mt_next tm) (mt_ch tm) ∧
      if mt_interval tm =? 0 then mt_stopped tm' = true
      else mt_stopped tm' = false ∧ t < mt_next tm' ≤ t + mt_interval tm ∧
           ∃ k, 0 < k ∧ mt_next tm' = mt_next tm + k * mt_interval tm
    else tm' = tm.
Proof.
  intros Hm Hah Ht Hb. pose proof (set_inv t m Hm Ht) as Hinv. destruct (set_timers t m Ht) as (Hn & _ & Hh & _).
  assert (∀ i tm, mn_heap m !! i = Some tm → mn_heap (ManualSet order t m) !! i = Some (fire t tm).1) as Hfire.
  { intros i tm E. rewrite Hh, E. simpl. case_decide as Hin; [done|]. rewrite fire_early; [done|]. left.
    destruct (mt_stopped tm) eqn:Es; [done|]. exfalso. apply Hin, (ci_active _ Hm). eauto. }
  assert (∀ i tm, mn_heap m !! i = Some tm → _) as Hspec by (intros i tm E; exact (fire_due t tm)).
  split_and!; [done| |done|].
  - intros i tm' E' Hs'. rewrite Hn. destruct (mn_heap m !! i) as [tm|] eqn:E; [|by rewrite Hh, E in E'].
    rewrite (Hfire _ _ E) in E'. simplify_eq. destruct (decide (mt_stopped tm = false ∧ mt_next tm ≤ t)) as [[Hs Hd]|Hnd].
    + destruct (fire_due t tm Hs Hd (ci_interval _ Hm _ _ E) (Hb _ _ E)) as [_ Hf].
      destruct (mt_interval tm =? 0); [destruct Hf; congruence|]. lia.
    + assert (mt_stopped tm = true ∨ t < mt_next tm) as Hor.
      { destruct (mt_stopped tm); [by left|right]. apply Z.nle_gt. intros ?. by apply Hnd. }
      rewrite (fire_early t tm Hor) in Hs' |- *. simpl in *. destruct Hor; [congruence|done].
  - intros i tm E. exists (fire t tm).1. split; [by apply Hfire|]. case_bool_decide as Hd.
    + destruct Hd as [Hs Hd]. destruct (fire_due t tm Hs Hd (ci_interval _ Hm _ _ E) (Hb _ _ E)) as [Hch Hf].
      split; [done|]. destruct (mt_interval tm =? 0); [tauto|]. split_and!; tauto.
    + rewrite fire_early; [done|]. destruct (mt_stopped tm); [by left|right]. apply Z.nle_gt. intros ?. by apply Hd.
Qed.
End clock.

(** Stopping and reading. *)
Lemma StopTimer_spec i m :
  mn_now (StopTimer i m) = mn_now m ∧ mn_count (StopTimer i m) = mn_count m ∧
  (∀ j, mn_heap (StopTimer i m) !! j =
     (λ tm, if decide (j = i) then mkManualTimer (mt_ch tm) (mt_next tm) (mt_interval tm) true else tm) <$> mn_heap m !! j).
Proof.
  assert (∀ tm, mt_stopped tm = true → tm = mkManualTimer (mt_ch tm) (mt_next tm) (mt_interval tm) true) as Heta by (intros [] [=]; simpl in *; congruence).
  unfold StopTimer. destruct (mn_heap m !! i) as [tm|] eqn:E; [destruct (mt_stopped tm) eqn:Es|]; split_and!; try done; intros j.
  - destruct (decide (j = i)) as [->|]; [|by destruct (mn_heap m !! j)]. rewrite E. simpl. f_equal. by apply Heta.
  - simpl. destruct (decide (j = i)) as [->|]; [by rewrite lookup_insert_eq, E|]. rewrite lookup_insert_ne by done. by destruct (mn_heap m !! j).
  - destruct (decide (j = i)) as [->|]; [by rewrite E|by destruct (mn_heap m !! j)].
Qed.

Lemma StopTimer_active i m j : clockInv m → j ∈ mn_timers (StopTimer i m) ↔ j ∈ mn_timers m ∧ j ≠ i.
Proof.
  intros Hm. assert (∀ tm, mn_heap m !! i = Some tm → mt_stopped tm = true → i ∉ mn_timers m) as Hs.
  { intros tm E Hs Hin. apply (ci_active _ Hm) in Hin as (? & ? & ?). congruence. }
  unfold StopTimer. destruct (mn_heap m !! i) as [tm|] eqn:E; [destruct (mt_stopped tm) eqn:Es|]; simpl.
  - split; [|tauto]. intros Hj. split; [done|]. intros ->. by eapply Hs.
  - by rewrite elem_of_difference, elem_of_singleton.
  - split; [|tauto]. intros Hj. split; [done|]. intros ->. apply (ci_active _ Hm) in Hj as (? & ? & _). congruence.
Qed.

Lemma StopTimer_inv i m : clockInv m → clockInv (StopTimer i m).
Proof.
  intros Hm. destruct (StopTimer_spec i m) as (_ & Hc & Hh). split.
  - intros j tm. rewrite Hh, Hc. destruct (mn_heap m !! j) eqn:E; simpl; [|done]. intros _. by eapply ci_fresh.
  - intros j. rewrite StopTimer_active, (ci_active _ Hm), Hh by done. destruct (decide (j = i)) as [->|]; split.
    + by intros [_ []].
    + intros (tm & Htm & ?). destruct (mn_heap m !! i); simplify_eq/=.
    + intros [(tm & -> & ?) _]. simpl. eauto.
    + intros (tm & Htm & ?). destruct (mn_heap m !! j); simplify_eq/=. eauto.
  - intros j tm. rewrite Hh. destruct (mn_heap m !! j) eqn:E; simpl; [|done]. intros [= <-]. destruct (decide (j = i)); exact (ci_interval _ Hm _ _ E).
  - intros j tm. rewrite Hh. destruct (mn_heap m !! j) eqn:E; simpl; [|done]. intros [= <-]. destruct (decide (j = i)); exact (ci_buffer _ Hm _ _ E).
Qed.

Lemma receive_spec i m t m' : receive i m = Some (t, m') →
  ∃ tm rest, mn_heap m !! i = Some tm ∧ mt_ch tm = t :: rest ∧
    m' = mkManual (mn_now m) (<[i := mkManualTimer rest (mt_next tm) (mt_interval tm) (mt_stopped tm)]> (mn_heap m)) (mn_timers m) (mn_count m).
Proof. unfold receive. intros H. repeat case_match; simplify_eq. eauto. Qed.

Lemma receive_inv i m t m' : clockInv m → receive i m = Some (t, m') → clockInv m'.
Proof.
  intros [Hf Ha Hi Hb] (tm & rest & E & Hch & ->)%receive_spec. split; simpl; intros j.
  - intros tm'. rewrite lookup_insert_Some. intros [[<- _]|[_ ?]]; eauto.
  - rewrite Ha. destruct (decide (j = i)) as [->|]; [|by rewrite lookup_insert_ne by done].
    rewrite lookup_insert_eq, E. split; intros (? & ? & ?); simplify_eq/=; eauto.
  - intros tm'. rewrite lookup_insert_Some. intros [[<- <-]|[_ ?]]; [exact (Hi _ _ E)|]. eauto.
  - intros tm'. rewrite lookup_insert_Some. intros [[<- <-]|[_ ?]]; [|by eauto]. simpl. specialize (Hb _ _ E). rewrite Hch in Hb. simpl in Hb. lia.
Qed.

(** ** What a context driven by the clock promises *)

Section timeouts.
Context (order : gset nat → list nat) (order_perm : ∀ s, order s ≡ₚ elements s).
Context (parentErr : error → Prop).        (* what the parent's [Err()] may answer *)

(** The clock advances, other timers come, fire, are read and are stopped, and the
    context takes its own steps, in any order. *)
Inductive clockMove : Manual * timeoutContext → Manual * timeoutContext → Prop :=
| cm_advance d m m' c : ManualAdvance order d m = Some m' → clockMove (m, c) (m', c)
| cm_timer d m c : clockMove (m, c) ((NewTimer d m).1, c)
| cm_ticker d m m' i c : d ≤ int64_max → NewTicker d m = Some (m', i) → clockMove (m, c) (m', c)
| cm_stop i m c : i ≠ tc_timer c → clockMove (m, c) (StopTimer i m, c)
| cm_receive i t m m' c : i ≠ tc_timer c → receive i m = Some (t, m') → clockMove (m, c) (m', c)
| cm_parent err s s' : parentErr err → ctxStep (CParentDone err) s = Some s' → clockMove s s'
| cm_own ev s s' : ev ∈ [CTimer; CDone; CLeave; CCancel] → ctxStep ev s = Some s' → clockMove s s'.

(** What holds of the cell of the context's own timer. *)
Record ownTimer (m : Manual) (c : timeoutContext) (tm : manualTimer) : Prop := {
  ow_cell : mn_heap m !! tc_timer c = Some tm;
  ow_next : mt_next tm = tc_deadline c;
  ow_once : mt_interval tm = 0;
  ow_ahead : mt_stopped tm = false → mn_now m < tc_deadline c;
  ow_tick : mt_ch tm ≠ [] → tc_deadline c ≤ mn_now m;
  ow_done : mt_stopped tm = true → tc_watcher c = Watching → tc_err c = None → mt_ch tm ≠ []
}.

Record timeoutInv (s : Manual * timeoutContext) : Prop := {
  ti_clock : clockInv s.1;
  ti_own : ∃ tm, ownTimer s.1 s.2 tm ∧ (tc_watcher s.2 = Gone → mt_stopped tm = true);
  ti_open : tc_err s.2 = None → tc_watcher s.2 = Watching;
  ti_err e : tc_err s.2 = Some e →
    (e = ESentinel ContextDeadlineExceeded ∧ tc_deadline s.2 ≤ mn_now s.1) ∨ e = ESentinel ContextCanceled ∨ parentErr e
}.

Lemma ownTimer_frame m m' c tm :
  ownTimer m c tm → mn_heap m' !! tc_timer c = mn_heap m !! tc_timer c → mn_now m' = mn_now m → ownTimer m' c tm.
Proof. intros [] Hh Hn. split; rewrite ?Hh, ?Hn; done. Qed.

(** A step of the rest of the world: the context is untouched, its timer too, and
    the clock does not go back. *)
Lemma timeoutInv_frame m m' c :
  timeoutInv (m, c) → clockInv m' → mn_heap m' !! tc_timer c = mn_heap m !! tc_timer c → mn_now m' = mn_now m →
  timeoutInv (m', c).
Proof.
  intros [Hm (tm & Hown & Hg) Ho He] Hm' Hh Hn. split; simpl in *; [done| |done|by rewrite Hn].
  exists tm. split; [by eapply ownTimer_frame|done].
Qed.

Lemma WithTimeout_inv d m : clockInv m → timeoutInv (WithTimeout d m).
Proof.
  intros Hm. unfold WithTimeout. pose proof (NewTimer_inv d m Hm) as Hm'. unfold NewTimer in *.
  destruct (d <=? 0) eqn:E; bool_to_prop; split; simpl in *; try done; eexists; (split; [split; simpl; [by rewrite lookup_insert_eq|..]|]); simpl; try done;
    unfold ManualNow, Add; try lia; by intros.
Qed.

Lemma addTimer_frame tm b m c : clockInv m → is_Some (mn_heap m !! tc_timer c) →
  mn_heap (addTimer tm b m).1 !! tc_timer c = mn_heap m !! tc_timer c.
Proof. intros Hm [tm0 E]. simpl. rewrite lookup_insert_ne; [done|]. apply (ci_fresh _ Hm) in E. lia. Qed.

(** Advancing: a timer that is due gets its tick. *)
Lemma advance_inv d m m' c : ManualAdvance order d m = Some m' → timeoutInv (m, c) → timeoutInv (m', c).
Proof.
  unfold ManualAdvance. destruct (d <? 0) eqn:E; [done|]. intros [= <-]. bool_to_prop. intros [Hm (tm & Hown & Hg) Ho He]; simpl in *.
  assert (mn_now m ≤ Add (ManualNow m) d) as Hle by (unfold Add, ManualNow; lia). revert Hle. generalize (Add (ManualNow m) d) as t. intros t Hle.
  destruct (set_timers order order_perm t m Hle) as (Hn & _ & Hh & _). split; simpl.
  - by apply set_inv.
  - destruct Hown as [Hc Hx Hi Ha Ht Hd]. specialize (Hh (tc_timer c)). rewrite Hc in Hh. simpl in Hh.
    destruct (decide (mt_stopped tm = true ∨ t < mt_next tm)) as [Hor|Hnor].
    + exists tm. rewrite fire_early in Hh by done. split; [|done]. split; [by rewrite Hh; case_decide|done|done| | |done].
      * rewrite Hn. intros Hs. destruct Hor; [congruence|lia].
      * rewrite Hn. intros Hne. specialize (Ht Hne). lia.
    + assert (mt_stopped tm = false ∧ mt_next tm ≤ t) as [Hs Hdue] by (destruct (mt_stopped tm); split; [naive_solver|naive_solver|done|apply Z.nlt_ge; naive_solver]).
      rewrite decide_True in Hh by (apply (ci_active _ Hm); eauto).
      assert ((fire t tm).1 = mkManualTimer (offer (mt_next tm) (mt_ch tm)) (mt_next tm) 0 true) as Hf.
      { unfold fire. rewrite Hs, (proj2 (After_false _ _)), Hi by done. done. }
      rewrite Hf in Hh. eexists. split; [split; [exact Hh|done|done|done| |]|]; simpl; [by rewrite Hn, <-Hx| |done].
      intros _ _ _. by destruct (mt_ch tm).
  - done.
  - rewrite Hn. intros e [[-> ?]|[->|?]]%He; [left; split; [done|lia]|tauto..].
Qed.

Lemma StopTimer_other i m j : j ≠ i → mn_heap (StopTimer i m) !! j = mn_heap m !! j.
Proof. intros Hne. destruct (StopTimer_spec i m) as (_ & _ & ->). destruct (mn_heap m !! j); [|done]. cbn [fmap option_fmap option_map]. by rewrite decide_False. Qed.

Lemma StopTimer_own i m tm : mn_heap m !! i = Some tm →
  mn_heap (StopTimer i m) !! i = Some (mkManualTimer (mt_ch tm) (mt_next tm) (mt_interval tm) true).
Proof.
  intros E. destruct (StopTimer_spec i m) as (_ & _ & ->). rewrite E. cbn [fmap option_fmap option_map]. by rewrite decide_True.
Qed.

(** The context stops its own timer, having decided its error. *)
Lemma stopOwn_inv m c c' :
  timeoutInv (m, c) → tc_deadline c' = tc_deadline c → tc_timer c' = tc_timer c → is_Some (tc_err c') →
  (∀ e, tc_err c' = Some e → tc_err c = Some e ∨ e = ESentinel ContextCanceled) →
  timeoutInv (StopTimer (tc_timer c) m, c').
Proof.
  intros [Hm (tm & [Hc Hx Hi Ha Ht Hd] & Hg) Ho He] Hdl Hti [e' He'] Hnew; simpl in *.
  destruct (StopTimer_spec (tc_timer c) m) as (Hn & _ & _). pose proof (StopTimer_own _ _ _ Hc) as Hh. split; simpl.
  - by apply StopTimer_inv.
  - eexists. split; [split; [rewrite Hti; exact Hh|..]; simpl|done]; rewrite ?Hn, ?Hdl; try done. congruence.
  - congruence.
  - rewrite Hn, Hdl. intros e [?%He| ->]%Hnew; tauto.
Qed.

Lemma finish_fields err c :
  tc_deadline (finish err c) = tc_deadline c ∧ tc_timer (finish err c) = tc_timer c ∧ tc_watcher (finish err c) = tc_watcher c ∧
  tc_err (finish err c) = Some (from_option id err (tc_err c)).
Proof. unfold finish. destruct (tc_err c) eqn:E; by rewrite ?E. Qed.

(** A branch of the select has been taken. *)
Lemma leave_inv m c c' tm :
  clockInv m → ownTimer m c tm → tc_deadline c' = tc_deadline c → tc_timer c' = tc_timer c → tc_watcher c' = Leaving → is_Some (tc_err c') →
  (∀ e, tc_err c' = Some e →
     (e = ESentinel ContextDeadlineExceeded ∧ tc_deadline c ≤ mn_now m) ∨ e = ESentinel ContextCanceled ∨ parentErr e) →
  timeoutInv (m, c').
Proof.
  intros Hm [Hc Hx Hi Ha Ht Hd] Hdl Hti Hw [e' He'] He. split; simpl; [done| |congruence|by rewrite Hdl].
  exists tm. split; [split; rewrite ?Hti, ?Hdl; try done|]; congruence.
Qed.

Lemma ctxStep_inv ev s s' :
  (∀ err, ev = CParentDone err → parentErr err) → ctxStep ev s = Some s' → timeoutInv s → timeoutInv s'.
Proof.
  destruct s as [m c]. intros Hp Hs Hinv. pose proof Hinv as [Hm (tm & Hown & Hg) Ho He]. simpl in *. unfold ctxStep in Hs.
  destruct ev as [err| | | |].
  - destruct (tc_watcher c) eqn:Hw; simplify_eq. destruct (finish_fields err c) as (? & ? & _ & Hf).
    eapply leave_inv; try done; simpl. rewrite Hf. intros e [= <-]. destruct (tc_err c) eqn:Ec; simpl; auto.
  - destruct (tc_watcher c) eqn:Hw; [|done..]. destruct (receive (tc_timer c) m) as [[t m']|] eqn:Hr; simplify_eq.
    pose proof (receive_inv _ _ _ _ Hm Hr) as Hm'. apply receive_spec in Hr as (tm0 & rest & Hc0 & Hch & ->).
    destruct Hown as [Hc Hx Hi Ha Ht Hd]. rewrite Hc in Hc0. simplify_eq. rewrite Hch in Ht. specialize (Ht ltac:(done)).
    destruct (finish_fields (ESentinel ContextDeadlineExceeded) c) as (Hfd & Hft & _ & Hf). split; simpl.
    + done.
    + eexists. split; [split; simpl; rewrite ?Hft, ?Hfd; [by rewrite lookup_insert_eq|..]|done]; simpl; done.
    + rewrite Hf. done.
    + rewrite Hf, Hfd. intros e [= <-]. destruct (tc_err c) eqn:Ec; simpl; auto.
  - destruct (tc_watcher c) eqn:Hw; [|done..]. destruct (tc_err c) eqn:Ec; simplify_eq.
    eapply leave_inv; try done; simpl; by rewrite ?Ec.
  - destruct (tc_watcher c) eqn:Hw; [done| |done]. simplify_eq. destruct (tc_err c) as [e|] eqn:Ec; [|by specialize (Ho eq_refl)].
    apply stopOwn_inv; try done; simpl; rewrite ?Ec; eauto.
  - simplify_eq. destruct (finish_fields (ESentinel ContextCanceled) c) as (? & ? & _ & Hf).
    apply stopOwn_inv; try done; rewrite Hf; try done. intros e [= <-]. destruct (tc_err c); simpl; auto.
Qed.

Lemma clockMove_inv s s' : clockMove s s' → timeoutInv s → timeoutInv s'.
Proof.
  intros Hmove Hinv. pose proof Hinv as [Hm (tm & [Hc _ _ _ _ _] & _) _ _]. destruct Hmove as
    [d m m' c Ha|d m c|d m m' i c Hd Ht|i m c Hne|i t m m' c Hne Hr|err s s' Hp Hs|ev s s' Hev Hs]; simpl in *.
  - by eapply advance_inv.
  - apply (timeoutInv_frame m); [done|by apply NewTimer_inv| |]; unfold NewTimer; [|by case_match]. case_match; by apply addTimer_frame.
  - pose proof (NewTicker_inv _ _ _ _ Hm Hd Ht) as Hm'. unfold NewTicker in Ht. destruct (d <=? 0); [done|]. injection Ht as <- _.
    apply (timeoutInv_frame m); [done|done|by eapply (addTimer_frame _ true)|done].
  - apply (timeoutInv_frame m); [done|by apply StopTimer_inv|by apply StopTimer_other|apply StopTimer_spec].
  - pose proof (receive_inv _ _ _ _ Hm Hr). apply receive_spec in Hr as (? & ? & ? & ? & ->).
    apply (timeoutInv_frame m); try done. simpl. by rewrite lookup_insert_ne.
  - eapply ctxStep_inv; try done. naive_solver.
  - eapply ctxStep_inv; try done. intros err ->. by repeat (apply elem_of_cons in Hev as [?|Hev]; [done|]); apply elem_of_nil in Hev.
Qed.

(** Nothing moves the deadline, and the first error stays. *)
Lemma clockMove_keeps s s' : clockMove s s' →
  tc_deadline s'.2 = tc_deadline s.2 ∧ ∀ e, tc_err s.2 = Some e → tc_err s'.2 = Some e.
Proof.
  assert (∀ ev, ctxStep ev s = Some s' → tc_deadline s'.2 = tc_deadline s.2 ∧ ∀ e, tc_err s.2 = Some e → tc_err s'.2 = Some e) as Hctx.
  { intros ev. destruct s as [m c]. unfold ctxStep. intros Hs. repeat case_match; simplify_eq/=; try done;
      match goal with |- context [finish ?err c] => destruct (finish_fields err c) as (-> & _ & _ & ->) end; (split; [done|intros e He; by rewrite He]). }
  destruct 1; simpl; try done; by eapply Hctx.
Qed.

(** A context with a deadline, whatever is done to the clock and in whatever order
    its goroutine, its canceller and its parent come: its deadline is the time of
    its making plus the duration; it is closed with the error of its parent, or as
    cancelled, or as late, and as late only once the clock has reached the deadline;
    its first error stays; when the deadline has come and it is not closed, its
    timer has a tick for the goroutine, when it is closed the goroutine can leave,
    and once the goroutine is gone the clock has no timer of it. *)
Theorem timeout_context d m s :
  clockInv m → rtc clockMove (WithTimeout d m) s →
  tc_deadline s.2 = Add (ManualNow m) d ∧
  (∀ e, tc_err s.2 = Some e →
     ((e = ESentinel ContextDeadlineExceeded ∧ tc_deadline s.2 ≤ ManualNow s.1) ∨ e = ESentinel ContextCanceled ∨ parentErr e) ∧
     ∀ s', rtc clockMove s s' → tc_err s'.2 = Some e) ∧
  (tc_err s.2 = None → tc_deadline s.2 ≤ ManualNow s.1 → is_Some (ctxStep CTimer s)) ∧
  (is_Some (tc_err s.2) → tc_watcher s.2 ≠ Gone → is_Some (ctxStep CDone s) ∨ is_Some (ctxStep CLeave s)) ∧
  (tc_watcher s.2 = Gone → tc_timer s.2 ∉ mn_timers s.1).
Proof.
  intros Hm Hrun. assert (timeoutInv s ∧ tc_deadline s.2 = Add (ManualNow m) d) as [Hinv Hdl].
  { apply (rtc_keeps clockMove (λ s, timeoutInv s ∧ tc_deadline s.2 = Add (ManualNow m) d) (WithTimeout d m)); [|done|].
    - intros s1 s2 Hstep [Hi <-]. split; [by eapply clockMove_inv|]. by apply clockMove_keeps.
    - split; [by apply WithTimeout_inv|]. unfold WithTimeout. by destruct (NewTimer d m). }
  destruct Hinv as [Hc (tm & [Hcell Hx Hi Ha Ht Hd] & Hg) Ho He]. destruct s as [n c]. simpl in *. unfold ManualNow in *. split_and!; [done| | | |].
  - intros e E. split; [by apply He|]. intros s' Hrest. revert E. apply (rtc_keeps clockMove (λ s, tc_err s.2 = Some e) (n, c)); [|done].
    intros s1 s2 Hstep. by apply clockMove_keeps.
  - intros E Hdue. rewrite (Ho E). assert (mt_ch tm ≠ []) as Hne.
    { apply Hd; [|by apply Ho|done]. destruct (mt_stopped tm); [done|]. specialize (Ha eq_refl). lia. }
    unfold receive. rewrite Hcell. destruct (mt_ch tm); [done|]. done.
  - intros [e E] Hng. rewrite E. destruct (tc_watcher c); [by left|by right|done].
  - intros Hgone (tm' & Hcell' & Hs')%(ci_active _ Hc). specialize (Hg Hgone). congruence.
Qed.
End timeouts.
