(* ===== verification/Moves.v ===== *)
(** * The operations of an executor, and what a program does

    What a program can ask of a backend outside of a transaction, and what it is
    answered, as data: Go's pairs of a value and an error are pairs, or a [result] where
    the value means nothing beside an error.

    Several backends keep their data in a service that others use at the same time.
    What everybody does to the data is a sequence of [move]s, each one atomic.  A
    program makes some of them, among those of others: its trace.  [does m Q] says
    that the program [m] makes own moves and gives an answer that [Q] describes,
    whatever others do in between.  [Retried] marks that the service has run a
    transaction of the program again. *)

From S2P Require Import Prelude GoBase Json Codec Driver.
From Stdlib Require Import ZArith Lia.

(** * Operations *)

Inductive driverOp :=
| OInsert (params : list JobInsertParams)
| OGet (id : string)
| OList (params : JobListParams)
| OStats (queue : string)
| OFetch (params : FetchParams)
| ORescue (params : JobRescueParams)
| OHeartbeat (params : JobHeartbeatParams)
| OMarkStarted (params : JobMarkStartedParams)
| OSetState (params : JobSetStateParams)
| OCancel (id : string)
| ODelete (id : string)
| OReschedule (params : RescheduleParams)
| OQueueGet (name : string)
| OSetPaused (name : string) (paused : bool)
| OQueueList (params : QueueListParams)
| OElect (params : LeaderElectParams)
| OResign (params : LeaderResignParams)
| OCursorGet (params : ScheduleCursorCreateParams)
| OCursorAdvance (params : ScheduleCursorAdvanceParams).

Definition ans (o : driverOp) : Type :=
  match o with
  | OInsert _ => result (list JobInsertResult)
  | OGet _ => result JobRow
  | OList _ => result (list JobRow)
  | OFetch _ => list JobRow * option error
  | OStats _ => result QueueStats
  | ORescue _ => Z * option error
  | OHeartbeat _ | OMarkStarted _ | OElect _ | OCursorAdvance _ => bool * option error
  | OSetState _ | OCancel _ | ODelete _ | OReschedule _ | OSetPaused _ _ | OResign _ => option error
  | OQueueGet _ => result QueueRow
  | OQueueList _ => result (list QueueRow)
  | OCursorGet _ => ScheduleCursorResult * option error
  end.

(** * Atomic moves and traces *)

Section moves.
Context {D M : Type} (step : M → D → option D).

Fixpoint runMoves (ms : list M) (d : D) : option D :=
  match ms with
  | [] => Some d
  | m :: ms' => match step m d with Some d' => runMoves ms' d' | None => None end
  end.

Lemma runMoves_app ms1 ms2 d :
  runMoves (ms1 ++ ms2) d = match runMoves ms1 d with Some d' => runMoves ms2 d' | None => None end.
Proof. revert d. induction ms1 as [|m ms1 IH]; intros d; simpl; [done|]. by destruct (step m d). Qed.

Lemma runMoves_trans ms1 ms2 d1 d2 d3 :
  runMoves ms1 d1 = Some d2 → runMoves ms2 d2 = Some d3 → runMoves (ms1 ++ ms2) d1 = Some d3.
Proof. intros H1 H2. by rewrite runMoves_app, H1. Qed.

(** A run taken apart around one of its moves. *)
Lemma runMoves_split ms1 m ms2 d d' : runMoves (ms1 ++ m :: ms2) d = Some d' →
  ∃ d1 d2, runMoves ms1 d = Some d1 ∧ step m d1 = Some d2 ∧ runMoves ms2 d2 = Some d'.
Proof.
  rewrite runMoves_app. intros H. destruct (runMoves ms1 d) as [d1|]; [|done]. simpl in H.
  destruct (step m d1) as [d2|] eqn:E; [|done]. eauto.
Qed.

(** What is reached by other programs' moves. *)
Definition others (d d' : D) : Prop := ∃ ms, runMoves ms d = Some d'.

#[export] Instance others_preorder : PreOrder others.
Proof.
  split; [intros d; by exists []|].
  intros d1 d2 d3 [ms1 H1] [ms2 H2]. exists (ms1 ++ ms2). by eapply runMoves_trans.
Qed.

(** An invariant of the moves. *)
Section invariant.
Context (I : D → Prop) (I_step : ∀ m d d', I d → step m d = Some d' → I d').

Lemma runMoves_inv ms : ∀ d d', I d → runMoves ms d = Some d' → I d'.
Proof.
  induction ms as [|m ms IH]; intros d d' Hd; simpl; [by intros; simplify_eq|].
  destruct (step m d) as [d1|] eqn:E; [|done]. apply IH. by eapply I_step.
Qed.

Lemma others_inv d d' : I d → others d d' → I d'.
Proof. intros Hd [ms H]. by eapply runMoves_inv. Qed.
End invariant.
End moves.

(** ** Traces *)

Inductive act (M : Type) := Did (m : M) | Retried.
Arguments Did {M}. Arguments Retried {M}.

Section traces.
Context {M : Type}.

(** What this program does, and what others do meanwhile. *)
Abbreviation trace := (list (act M + M)) (only parsing).

Definition eventMove (e : act M + M) : option M :=
  match e with inl (Did m) => Some m | inl Retried => None | inr m => Some m end.
Definition trMoves (tr : trace) : list M := omap eventMove tr.
Definition trOwn (tr : trace) : list (act M) := omap (λ e, match e with inl a => Some a | inr _ => None end) tr.

Lemma trMoves_app tr1 tr2 : trMoves (tr1 ++ tr2) = trMoves tr1 ++ trMoves tr2.
Proof. apply omap_app. Qed.
Lemma trOwn_app tr1 tr2 : trOwn (tr1 ++ tr2) = trOwn tr1 ++ trOwn tr2.
Proof. apply omap_app. Qed.
Lemma trMoves_others ms : trMoves (inr <$> ms) = ms.
Proof. unfold trMoves. induction ms as [|m ms IH]; [done|]. rewrite fmap_cons. csimpl. by rewrite IH. Qed.
Lemma trOwn_others ms : trOwn (inr <$> ms) = [].
Proof. unfold trOwn. induction ms as [|m ms IH]; [done|]. rewrite fmap_cons. csimpl. by rewrite IH. Qed.
Lemma trMoves_did ms : trMoves (inl <$> (Did <$> ms)) = ms.
Proof. unfold trMoves. induction ms as [|m ms IH]; [done|]. rewrite !fmap_cons. csimpl. by rewrite IH. Qed.
Lemma trOwn_own acts : trOwn (inl <$> acts) = acts.
Proof. unfold trOwn. induction acts as [|a acts IH]; [done|]. rewrite fmap_cons. csimpl. by rewrite IH. Qed.
Lemma trMoves_retried n : trMoves (inl <$> replicate n Retried) = [].
Proof. unfold trMoves. by induction n as [|n IH]. Qed.

(** The moves among the acts, and whether a transaction was run again. *)
Definition did (acts : list (act M)) : list M := omap (λ a, match a with Did m => Some m | Retried => None end) acts.
Definition again (acts : list (act M)) : Prop := Retried ∈ acts.

Lemma did_app a1 a2 : did (a1 ++ a2) = did a1 ++ did a2.
Proof. apply omap_app. Qed.
Lemma did_retried n : did (replicate n Retried) = [].
Proof. unfold did. by induction n as [|n IH]. Qed.
Lemma did_did ms : did (Did <$> ms) = ms.
Proof. unfold did. induction ms as [|m ms IH]; [done|]. rewrite fmap_cons. csimpl. by rewrite IH. Qed.
Lemma did_tx n ms : did (replicate n Retried ++ (Did <$> ms)) = ms.
Proof. by rewrite did_app, did_retried, did_did. Qed.
Lemma did_one n m : did (replicate n Retried ++ [Did m]) = [m].
Proof. apply (did_tx n [m]). Qed.
Lemma again_tx n ms : (0 < n)%nat → again (replicate n Retried ++ (Did <$> ms)).
Proof. intros Hn. apply elem_of_app. left. apply elem_of_replicate. split; [done|lia]. Qed.
Lemma again_one n m : (0 < n)%nat → again (replicate n Retried ++ [Did m]).
Proof. intros Hn. by apply (again_tx n [m]). Qed.
Lemma again_app a1 a2 : again (a1 ++ a2) ↔ again a1 ∨ again a2.
Proof. apply elem_of_app. Qed.

Lemma did_trMoves tr m : m ∈ did (trOwn tr) → m ∈ trMoves tr.
Proof.
  unfold did, trOwn, trMoves. rewrite !list_elem_of_omap. intros (a & Ha & Hm). destruct a as [m'|]; simplify_eq.
  apply list_elem_of_omap in Ha as ([a'|] & Hin & ?); simplify_eq. by exists (inl (Did m)).
Qed.
End traces.

(** ** The logic of programs *)

Section logic.
Context {D M : Type} (step : M → D → option D).

(** [happens d d' acts]: own acts [acts] among moves of others. *)
Definition happens (d d' : D) (acts : list (act M)) : Prop :=
  ∃ tr, runMoves step (trMoves tr) d = Some d' ∧ trOwn tr = acts.

Lemma happens_others d d' : others step d d' → happens d d' [].
Proof. intros [ms Hr]. exists (inr <$> ms). by rewrite trMoves_others, trOwn_others. Qed.

Lemma happens_trans d1 d2 d3 a1 a2 : happens d1 d2 a1 → happens d2 d3 a2 → happens d1 d3 (a1 ++ a2).
Proof.
  intros (tr1 & H1 & <-) (tr2 & H2 & <-). exists (tr1 ++ tr2). rewrite trMoves_app, trOwn_app.
  split; [|done]. by eapply runMoves_trans.
Qed.

Lemma happens_did ms d d' : runMoves step ms d = Some d' → happens d d' (Did <$> ms).
Proof.
  intros Hr. exists (inl <$> (Did <$> ms)). by rewrite trMoves_did, trOwn_own.
Qed.

Lemma happens_retried n d : happens d d (replicate n Retried).
Proof. exists (inl <$> replicate n Retried). by rewrite trMoves_retried, trOwn_own. Qed.

(** Something of one's own, with others before and after. *)
Lemma happens_between d d1 d2 d3 a :
  others step d d1 → happens d1 d2 a → others step d2 d3 → happens d d3 a.
Proof.
  intros H1 H2 H3. apply happens_others in H1, H3.
  pose proof (happens_trans _ _ _ _ _ H1 (happens_trans _ _ _ _ _ H2 H3)) as Hh.
  by rewrite app_nil_r in Hh.
Qed.

(** Programs over an environment [E] that holds the data, under an invariant of it. *)
Section programs.
Context {E : Type} (docs : E → D) (I : D → Prop) (I_step : ∀ m d d', I d → step m d = Some d' → I d').

Lemma happens_inv d d' a : happens d d' a → I d → I d'.
Proof. intros (tr & Hr & _) Hk. by eapply runMoves_inv. Qed.

(** Every move that was made was possible in a state of the invariant. *)
Lemma happens_ran d d' a : happens d d' a → I d → Forall (λ m, ∃ d1 d2, I d1 ∧ step m d1 = Some d2) (did a).
Proof.
  intros (tr & Hr & <-) Hk. apply Forall_forall. intros m Hm%did_trMoves. apply list_elem_of_split in Hm as (l1 & l2 & Heq).
  rewrite Heq in Hr. apply runMoves_split in Hr as (d1 & d2 & H1 & H2 & _). exists d1, d2. split; [by eapply runMoves_inv|done].
Qed.

Definition does {A} (m : E → E * A) (Q : list (act M) → A → Prop) : Prop :=
  ∀ e, I (docs e) → ∃ acts, happens (docs e) (docs (m e).1) acts ∧ Q acts (m e).2.

Lemma moves_weaken {A} (m : E → E * A) (Q Q' : list (act M) → A → Prop) :
  does m Q → (∀ acts a, Q acts a → Q' acts a) → does m Q'.
Proof. intros Hm HQ e He. destruct (Hm e He) as (acts & ? & ?). eauto. Qed.

Lemma moves_ret {A} (a : A) (Q : list (act M) → A → Prop) : Q [] a → does (λ e, (e, a)) Q.
Proof. intros HQ e _. exists []. split; [|done]. by apply happens_others. Qed.

Lemma moves_bind {A B} (m : E → E * A) (f : A → E → E * B) (Q : list (act M) → B → Prop) :
  does m (λ a1 x, does (f x) (λ a2 y, Q (a1 ++ a2) y)) → does (λ e, let '(e', a) := m e in f a e') Q.
Proof.
  intros Hm e He. destruct (Hm e He) as (a1 & Hh1 & Hf).
  destruct (m e) as [e1 x]. simpl in *.
  destruct (Hf e1) as (a2 & Hh2 & HQ); [by eapply happens_inv|].
  exists (a1 ++ a2). split; [by eapply happens_trans|done].
Qed.

(** A move of one program, then any moves, then a move of a second program. *)
Lemma does_two {A B} (m1 : E → E * A) (m2 : E → E * B) Q1 Q2 e1 e2 ms (P1 P2 : M → Prop) :
  I (docs e1) → does m1 Q1 → does m2 Q2 → runMoves step ms (docs (m1 e1).1) = Some (docs e2) →
  (∀ acts, Q1 acts (m1 e1).2 → ∃ m, m ∈ did acts ∧ P1 m) →
  (∀ acts, Q2 acts (m2 e2).2 → ∃ m, m ∈ did acts ∧ P2 m) →
  ∃ pre x1 mid x2 post, P1 x1 ∧ P2 x2 ∧ runMoves step (pre ++ x1 :: mid ++ x2 :: post) (docs e1) = Some (docs (m2 e2).1).
Proof.
  intros Hk D1 D2 Hms H1 H2. destruct (D1 e1 Hk) as (a1 & Hh1 & Hq1). pose proof (happens_inv _ _ _ Hh1 Hk) as Hk1.
  destruct (D2 e2) as (a2 & (tr2 & Hr2 & <-) & Hq2); [by eapply runMoves_inv|]. destruct Hh1 as (tr1 & Hr1 & <-).
  destruct (H1 _ Hq1) as (x1 & Hx1 & ?), (H2 _ Hq2) as (x2 & Hx2 & ?).
  apply did_trMoves, list_elem_of_split in Hx1 as (l1 & b1 & Ht1). apply did_trMoves, list_elem_of_split in Hx2 as (l2 & b2 & Ht2).
  exists l1, x1, (b1 ++ ms ++ l2), x2, b2. split_and!; [done..|].
  replace (l1 ++ x1 :: (b1 ++ ms ++ l2) ++ x2 :: b2) with ((l1 ++ x1 :: b1) ++ ms ++ (l2 ++ x2 :: b2)) by (by rewrite <-!app_assoc).
  rewrite <-Ht1, <-Ht2. eapply runMoves_trans; [exact Hr1|]. eapply runMoves_trans; [exact Hms|exact Hr2].
Qed.
End programs.
End logic.
Arguments happens_others {D M step}.
Arguments happens_trans {D M step}.
Arguments happens_did {D M step}.
Arguments happens_retried {D M step}.
Arguments happens_between {D M step}.

(** ** Errors of a service *)

(** An error of the service is none of the driver's own. *)
Definition foreignErr (e : error) : Prop :=
  errorsIs e ErrJobGone = false ∧ errorsIs e ErrStaleClaim = false ∧ errorsIs e ErrConflict = false ∧ errorsIs e ErrNotFound = false.
