(* ===== verification/TimeText.v ===== *)
(** * Instants as text

    Some backends keep an instant as the text that [time.RFC3339Nano] makes of it in
    UTC, and let the database compare the texts.  The text has the digits of the
    fraction without trailing zeros, so that within one second the order of the
    texts is not the order of time: "...:00.55Z" is before "...:00.5Z".  Across
    seconds it is, from the year 1 to the year 9999. *)

From S2P Require Import Prelude GoBase.
From Stdlib Require Import ZArith Lia Ascii String.

#[local] Ltac Zify.zify_post_hook ::= Z.to_euclidean_division_equations.

(** ** The calendar *)

(** Year, month and day of a day counted from 0000-03-01, in the proleptic
    Gregorian calendar; a cycle of 400 years has 146097 days. *)
Record civilDate := mkDate { cd_year : Z; cd_month : Z; cd_day : Z }.

Definition civilInCycle (doe : Z) : civilDate :=
  let yoe := (doe - doe / 1460 + doe / 36524 - doe / 146096) / 365 in
  let doy := doe - (365 * yoe + yoe / 4 - yoe / 100) in
  let mp := (5 * doy + 2) / 153 in
  let m := if mp <? 10 then mp + 3 else mp - 9 in
  mkDate (if m <=? 2 then yoe + 1 else yoe) m (doy - (153 * mp + 2) / 5 + 1).

Definition civil (z : Z) : civilDate :=
  let c := civilInCycle (z mod 146097) in
  mkDate (cd_year c + 400 * (z / 146097)) (cd_month c) (cd_day c).

(** ** The text *)

Definition digit (d : Z) : ascii := ascii_of_nat (Z.to_nat (48 + d)).

(** [w] digits, with leading zeros. *)
Fixpoint digits (w : nat) (z : Z) : string :=
  match w with
  | O => ""
  | S w' => String (digit (z / 10 ^ Z.of_nat w' mod 10)) (digits w' z)
  end.

Definition yearText (y : Z) : string :=
  if y <? 0 then "-" +:+ digits 4 (- y) else if y <=? 9999 then digits 4 y else FormatInt y.

Definition dateText (days : Z) : string :=
  let c := civil (days + 306) in
  yearText (cd_year c) +:+ "-" +:+ digits 2 (cd_month c) +:+ "-" +:+ digits 2 (cd_day c).

Definition clockText (s : Z) : string := digits 2 (s / 3600) +:+ ":" +:+ digits 2 (s / 60 mod 60) +:+ ":" +:+ digits 2 (s mod 60).

(** The fraction: nine digits without the zeros at the end. *)
Fixpoint stripped (w : nat) (n : Z) : string :=
  match w with
  | O => ""
  | S w' => if n mod 10 =? 0 then stripped w' (n / 10) else digits w n
  end.
Definition fraction (n : Z) : string := if n =? 0 then "" else "." +:+ stripped 9 n.

Definition secondText (s : Z) : string := dateText (s / 86400) +:+ "T" +:+ clockText (s mod 86400).

(** [t.UTC().Format(time.RFC3339Nano)]. *)
Definition timeText (t : Instant) : string := secondText (t / Second) +:+ fraction (t mod Second) +:+ "Z".

Example text_epoch : timeText unixEpoch = "1970-01-01T00:00:00Z".
Proof. vm_compute. reflexivity. Qed.
Example text_leap : timeText (unixEpoch + 1709251199 * Second + 120 * Millisecond) = "2024-02-29T23:59:59.12Z".
Proof. vm_compute. reflexivity. Qed.
Example text_zero : timeText zeroTime = "0001-01-01T00:00:00Z".
Proof. vm_compute. reflexivity. Qed.

(** How the database compares two instants: by their texts. *)
Definition textLt (a b : Instant) : bool := str_lt (timeText a) (timeText b).
Definition textLe (a b : Instant) : bool := negb (textLt b a).

(** Within a second: later, but first as a text. *)
Example text_misordered :
  let a := unixEpoch + 500 * Millisecond in let b := unixEpoch + 550 * Millisecond in
  a < b ∧ textLt b a = true.
Proof. vm_compute. done. Qed.

(** ** Texts of the same width are ordered as numbers *)

Lemma str_lt_cons x y s t : str_lt (String x s) (String y t) = true ↔
  (N_of_ascii x < N_of_ascii y)%N ∨ x = y ∧ str_lt s t = true.
Proof.
  unfold str_lt, String.ltb. cbn [String.compare]. destruct (Ascii.compare x y) eqn:E.
  - apply Ascii.compare_eq_iff in E as ->. split; [by right|]. intros [?|[_ ?]]; [lia|done].
  - unfold Ascii.compare in E. apply N.compare_lt_iff in E. split; [by left|done].
  - unfold Ascii.compare in E. apply N.compare_gt_iff in E. split; [done|]. intros [?|[-> _]]; lia.
Qed.

Lemma str_lt_prefix p s t : str_lt (p +:+ s) (p +:+ t) = str_lt s t.
Proof.
  induction p as [|x p IH]; [done|]. rewrite <-IH. apply eq_true_iff_eq.
  change (str_lt (String x (p +:+ s)) (String x (p +:+ t)) = true ↔ str_lt (p +:+ s) (p +:+ t) = true). rewrite str_lt_cons.
  split; [intros [?|[_ ?]]; [lia|done]|by right].
Qed.

Lemma digit_lt a b : 0 ≤ a < b → b < 10 → (N_of_ascii (digit a) < N_of_ascii (digit b))%N.
Proof.
  intros Ha Hb. assert (a = 0 ∨ a = 1 ∨ a = 2 ∨ a = 3 ∨ a = 4 ∨ a = 5 ∨ a = 6 ∨ a = 7 ∨ a = 8) as Hc by lia.
  assert (b = 1 ∨ b = 2 ∨ b = 3 ∨ b = 4 ∨ b = 5 ∨ b = 6 ∨ b = 7 ∨ b = 8 ∨ b = 9) as Hd by lia.
  repeat destruct Hc as [-> |Hc]; try subst a; repeat destruct Hd as [-> |Hd]; try subst b; try lia; vm_compute; reflexivity.
Qed.

Lemma digits_lt_mod w r1 r2 : ∀ a b, a mod 10 ^ Z.of_nat w < b mod 10 ^ Z.of_nat w → str_lt (digits w a +:+ r1) (digits w b +:+ r2) = true.
Proof.
  induction w as [|w IH]; intros a b Hab; [change (10 ^ Z.of_nat 0) with 1 in Hab; rewrite !Z.mod_1_r in Hab; lia|].
  rewrite Nat2Z.inj_succ, Z.pow_succ_r, (Z.mul_comm 10) in Hab by lia. change (str_lt (String (digit (a / 10 ^ Z.of_nat w mod 10)) (digits w a +:+ r1)) (String (digit (b / 10 ^ Z.of_nat w mod 10)) (digits w b +:+ r2)) = true). apply str_lt_cons.
  assert (0 < 10 ^ Z.of_nat w) as Hp by (apply Z.pow_pos_nonneg; lia). set (p := 10 ^ Z.of_nat w) in *.
  rewrite !Z.rem_mul_r in Hab by lia. pose proof (Z.mod_pos_bound a p Hp). pose proof (Z.mod_pos_bound b p Hp).
  pose proof (Z.mod_pos_bound (a / p) 10 ltac:(lia)). pose proof (Z.mod_pos_bound (b / p) 10 ltac:(lia)).
  set (x := a / p mod 10) in *. set (y := b / p mod 10) in *.
  destruct (Z.lt_trichotomy x y) as [Hxy|[Hxy|Hxy]].
  - left. apply digit_lt; lia.
  - right. rewrite Hxy in *. split; [done|]. apply IH. fold p. lia.
  - exfalso. nia.
Qed.

Lemma digits_lt w a b r1 r2 : 0 ≤ a < b → b < 10 ^ Z.of_nat w → str_lt (digits w a +:+ r1) (digits w b +:+ r2) = true.
Proof. intros Ha Hb. apply digits_lt_mod. rewrite !Z.mod_small by lia. lia. Qed.

(** ** The days of the calendar are in order *)

Definition dateKey (c : civilDate) : Z := (cd_year c * 100 + cd_month c) * 100 + cd_day c.
Definition inCalendar (c : civilDate) : bool :=
  (1 <=? cd_month c) && (cd_month c <=? 12) && (1 <=? cd_day c) && (cd_day c <=? 31).

(** A cycle, day by day. *)
Fixpoint cycleSorted (n : nat) (doe : Z) : bool :=
  match n with
  | O => true
  | S n' => inCalendar (civilInCycle doe) && (dateKey (civilInCycle doe) <? dateKey (civilInCycle (doe + 1))) && cycleSorted n' (doe + 1)
  end.

Lemma cycleSorted_spec n : ∀ doe, cycleSorted n doe = true → ∀ x, doe ≤ x < doe + Z.of_nat n →
  inCalendar (civilInCycle x) = true ∧ dateKey (civilInCycle x) < dateKey (civilInCycle (x + 1)).
Proof.
  induction n as [|n IH]; intros doe Hc x Hx; [lia|]. cbn [cycleSorted] in Hc. apply andb_true_iff in Hc as [[Hi Hk]%andb_true_iff Hc].
  destruct (decide (x = doe)) as [->|Hne]; [split; [done|by apply Z.ltb_lt]|]. apply (IH (doe + 1)); [done|lia].
Qed.

(** In the middle of a cycle, and at its end. *)
Lemma cycle_in_order : cycleSorted (Z.to_nat 146096) 0 = true.
Proof. vm_compute. reflexivity. Qed.
Lemma cycle_end : inCalendar (civilInCycle 146096) = true ∧ dateKey (civilInCycle 146096) < dateKey (civilInCycle 0) + 400 * 10000.
Proof. vm_compute. done. Qed.

Lemma civil_next z : inCalendar (civil z) = true ∧ dateKey (civil z) < dateKey (civil (z + 1)).
Proof.
  pose proof (Z.mod_pos_bound z 146097 ltac:(lia)) as Hb. unfold civil.
  destruct (decide (z mod 146097 = 146096)) as [He|He].
  - assert ((z + 1) / 146097 = z / 146097 + 1) as -> by lia. assert ((z + 1) mod 146097 = 0) as -> by lia. rewrite He.
    destruct cycle_end as [Hi Hk]. split; [exact Hi|]. unfold dateKey in *. cbn [cd_year cd_month cd_day] in *. lia.
  - assert ((z + 1) / 146097 = z / 146097) as -> by lia. assert ((z + 1) mod 146097 = z mod 146097 + 1) as -> by lia.
    destruct (cycleSorted_spec _ _ cycle_in_order (z mod 146097)) as [Hi Hk]; [lia|]. split; [exact Hi|].
    unfold dateKey in *. cbn [cd_year cd_month cd_day] in *. lia.
Qed.

Lemma civil_lt z1 z2 : z1 < z2 → dateKey (civil z1) < dateKey (civil z2).
Proof.
  intros Hz. replace z2 with (z1 + 1 + Z.of_nat (Z.to_nat (z2 - z1 - 1))) by lia.
  induction (Z.to_nat (z2 - z1 - 1)) as [|n IH]; [rewrite Z.add_0_r; apply civil_next|].
  etrans; [exact IH|]. replace (z1 + 1 + Z.of_nat (S n)) with (z1 + 1 + Z.of_nat n + 1) by lia. apply civil_next.
Qed.

(** ** Texts and time *)

(** From the year 1 to the year 9999. *)
Definition lastDay : Z := 3652058.
Definition datable (t : Instant) : Prop := 0 ≤ t < (lastDay + 1) * 86400 * Second.

(** What [time.Parse] accepts of these texts: a year of four digits. *)
Definition parseable (t : Instant) : bool := (-366 * 86400 * Second <=? t) && (t <? (lastDay + 1) * 86400 * Second).

Example parseable_years :
  (λ t, (timeText t, parseable t)) <$> [-366 * 86400 * Second - 1; -366 * 86400 * Second; (lastDay + 1) * 86400 * Second - 1; (lastDay + 1) * 86400 * Second] =
  [("-0001-12-31T23:59:59.999999999Z", false); ("0000-01-01T00:00:00Z", true); ("9999-12-31T23:59:59.999999999Z", true); ("10000-01-01T00:00:00Z", false)].
Proof. vm_compute. reflexivity. Qed.

Lemma datable_parseable t : datable t → parseable t = true.
Proof. unfold datable, parseable, Second, lastDay. intros Ht. apply andb_true_iff. split; [apply Z.leb_le|apply Z.ltb_lt]; lia. Qed.

Lemma datable_year d : 0 ≤ d ≤ lastDay → 1 ≤ cd_year (civil (d + 306)) ≤ 9999.
Proof.
  intros [H0 H1]. assert (dateKey (civil 306) ≤ dateKey (civil (d + 306)) ≤ dateKey (civil (lastDay + 306))) as Hk.
  { split; apply Z.lt_eq_cases; [destruct (decide (d = 0)) as [->|]; [by right|left; apply civil_lt; lia]|].
    destruct (decide (d = lastDay)) as [->|]; [by right|left; apply civil_lt; lia]. }
  destruct (civil_next (d + 306)) as [Hi _]. unfold inCalendar in Hi. bool_to_prop.
  change (dateKey (civil 306)) with 10101 in Hk. change (dateKey (civil (lastDay + 306))) with 99991231 in Hk. unfold dateKey in Hk. lia.
Qed.

Lemma text_app_assoc (a b c : string) : a +:+ (b +:+ c) = (a +:+ b) +:+ c.
Proof. induction a as [|x a IH]; [done|]. exact (f_equal (String x) IH). Qed.

Lemma yearText_digits y : 1 ≤ y ≤ 9999 → yearText y = digits 4 y.
Proof. intros Hy. unfold yearText. rewrite (proj2 (Z.ltb_ge _ _)), (proj2 (Z.leb_le _ _)) by lia. done. Qed.

Lemma dateText_lt d1 d2 r1 r2 : 0 ≤ d1 < d2 → d2 ≤ lastDay → str_lt (dateText d1 +:+ r1) (dateText d2 +:+ r2) = true.
Proof.
  intros H1 H2. pose proof (civil_lt (d1 + 306) (d2 + 306) ltac:(lia)) as Hk.
  pose proof (datable_year d1 ltac:(lia)) as Y1. pose proof (datable_year d2 ltac:(lia)) as Y2.
  destruct (civil_next (d1 + 306)) as [I1 _], (civil_next (d2 + 306)) as [I2 _]. unfold inCalendar in I1, I2. bool_to_prop.
  unfold dateText. cbv zeta. set (c1 := civil (d1 + 306)) in *. set (c2 := civil (d2 + 306)) in *. rewrite !yearText_digits by lia.
  unfold dateKey in Hk. rewrite <-!text_app_assoc.
  destruct (Z.lt_trichotomy (cd_year c1) (cd_year c2)) as [Hy|[Hy|Hy]]; [apply digits_lt; change (10 ^ Z.of_nat 4) with 10000; lia| |lia].
  rewrite Hy, !str_lt_prefix.
  destruct (Z.lt_trichotomy (cd_month c1) (cd_month c2)) as [Hm|[Hm|Hm]]; [apply digits_lt; change (10 ^ Z.of_nat 2) with 100; lia| |lia].
  rewrite Hm, !str_lt_prefix. apply digits_lt; change (10 ^ Z.of_nat 2) with 100; lia.
Qed.

Lemma clockText_lt s1 s2 r1 r2 : 0 ≤ s1 < s2 → s2 < 86400 → str_lt (clockText s1 +:+ r1) (clockText s2 +:+ r2) = true.
Proof.
  intros H1 H2. unfold clockText. rewrite <-!text_app_assoc.
  destruct (decide (s1 / 3600 = s2 / 3600)) as [Hh|Hh]; [|apply digits_lt; change (10 ^ Z.of_nat 2) with 100; lia]. rewrite Hh, !str_lt_prefix.
  destruct (decide (s1 / 60 mod 60 = s2 / 60 mod 60)) as [Hm|Hm]; [|apply digits_lt; change (10 ^ Z.of_nat 2) with 100; lia]. rewrite Hm, !str_lt_prefix.
  apply digits_lt; change (10 ^ Z.of_nat 2) with 100; lia.
Qed.

Lemma secondText_lt s1 s2 r1 r2 : 0 ≤ s1 < s2 → s2 < (lastDay + 1) * 86400 → str_lt (secondText s1 +:+ r1) (secondText s2 +:+ r2) = true.
Proof.
  intros H1 H2. unfold lastDay in H2. unfold secondText. rewrite <-!text_app_assoc.
  destruct (decide (s1 / 86400 = s2 / 86400)) as [Hd|Hd]; [|apply dateText_lt; unfold lastDay; lia]. rewrite Hd, !str_lt_prefix.
  apply clockText_lt; lia.
Qed.

(** In different seconds the texts are in the order of time. *)
Lemma textLt_seconds a b : datable a → datable b → a / Second < b / Second → textLt a b = true.
Proof.
  intros Ha Hb Hs. unfold textLt, timeText. unfold datable, Second in *. apply secondText_lt; unfold lastDay in *; lia.
Qed.

(** What a comparison of texts tells of time: it is right up to a second. *)
Lemma textLt_time a b : datable a → datable b → textLt a b = true → a < b + Second.
Proof.
  intros Ha Hb Hlt. destruct (decide (b / Second < a / Second)) as [Hs|Hs].
  - pose proof (textLt_seconds b a Hb Ha Hs) as Hc. unfold textLt in *. by rewrite (str_lt_asym _ _ Hlt) in Hc.
  - unfold Second in *. lia.
Qed.

Lemma textLe_time a b : datable a → datable b → textLe a b = true → a < b + Second.
Proof.
  intros Ha Hb Hle. destruct (decide (b / Second < a / Second)) as [Hs|Hs].
  - pose proof (textLt_seconds b a Hb Ha Hs) as Hc. unfold textLe in Hle. by rewrite Hc in Hle.
  - unfold Second in *. lia.
Qed.

(** Whole seconds are compared as they are. *)
Lemma textLt_whole a b : datable a → datable b → a mod Second = 0 → b mod Second = 0 → (textLt a b = true ↔ a < b).
Proof.
  intros Ha Hb Wa Wb. split; intros Hlt.
  - pose proof (textLt_time a b Ha Hb Hlt). destruct (decide (a = b)) as [->|]; [unfold textLt in Hlt; by rewrite str_lt_irrefl in Hlt|].
    unfold Second in *. lia.
  - apply textLt_seconds; [done..|]. unfold Second in *. lia.
Qed.
