(* ===== verification/Firestore.v ===== *)
(** * driver/firestore: the documents, the service and the operations

    The backend keeps jobs, unique keys, queues, leases and schedule cursors as
    documents of Cloud Firestore.  The service is not part of the repository: it
    is the class [Firestore] of the calls the code makes, whose documented
    behaviour is stated in FirestoreLaws.v.  A document is known by what decoding
    it ([DataTo]) answers.  A transaction is the function that is given to
    [RunTransaction]: it reads through a [reader], updates the variables it has
    captured (the [L] of [fs_runTx]) and returns the writes it has buffered; the
    service may run it several times, and the captured variables keep what the
    earlier runs have left in them. *)

From S2P Require Import Prelude GoBase Json Codec Driver Memory.
From Stdlib Require Import ZArith Lia.

(** ** Documents *)

Record jobErrorDoc := mkJobError { je_At : Instant; je_Attempt : Z; je_Message : string; je_Trace : string }.

Record jobDoc := mkJobDoc {
  jd_ID : string;
  jd_Queue : string;
  jd_Kind : string;
  jd_Args : string;
  jd_State : string;
  jd_Priority : Z;
  jd_RunAt : Instant;
  jd_CreatedAt : Instant;
  jd_AttemptedAt : Instant;
  jd_StartedAt : Instant;
  jd_LeaseExpiresAt : Instant;
  jd_FinalizedAt : Instant;
  jd_AttemptNum : Z;
  jd_MaxRetry : Z;
  jd_TimeoutMs : Z;
  jd_UniqueKey : string;
  jd_WorkerID : string;
  jd_Tags : list string;
  jd_Errors : list jobErrorDoc;
  jd_Version : Z;
  jd_PipelineID : string
}.

Definition eta_doc (j : jobDoc) : jobDoc :=
  mkJobDoc (jd_ID j) (jd_Queue j) (jd_Kind j) (jd_Args j) (jd_State j) (jd_Priority j) (jd_RunAt j) (jd_CreatedAt j)
    (jd_AttemptedAt j) (jd_StartedAt j) (jd_LeaseExpiresAt j) (jd_FinalizedAt j) (jd_AttemptNum j) (jd_MaxRetry j)
    (jd_TimeoutMs j) (jd_UniqueKey j) (jd_WorkerID j) (jd_Tags j) (jd_Errors j) (jd_Version j) (jd_PipelineID j).
Definition doc_State : string → jobDoc → jobDoc := ltac:(setter eta_doc jd_State).
Definition doc_RunAt : Instant → jobDoc → jobDoc := ltac:(setter eta_doc jd_RunAt).
Definition doc_AttemptedAt : Instant → jobDoc → jobDoc := ltac:(setter eta_doc jd_AttemptedAt).
Definition doc_StartedAt : Instant → jobDoc → jobDoc := ltac:(setter eta_doc jd_StartedAt).
Definition doc_LeaseExpiresAt : Instant → jobDoc → jobDoc := ltac:(setter eta_doc jd_LeaseExpiresAt).
Definition doc_FinalizedAt : Instant → jobDoc → jobDoc := ltac:(setter eta_doc jd_FinalizedAt).
Definition doc_AttemptNum : Z → jobDoc → jobDoc := ltac:(setter eta_doc jd_AttemptNum).
Definition doc_WorkerID : string → jobDoc → jobDoc := ltac:(setter eta_doc jd_WorkerID).
Definition doc_Errors : list jobErrorDoc → jobDoc → jobDoc := ltac:(setter eta_doc jd_Errors).
Definition doc_Version : Z → jobDoc → jobDoc := ltac:(setter eta_doc jd_Version).

Record queueDoc := mkQueueDoc { qd_Name : string; qd_Paused : bool; qd_CreatedAt : Instant; qd_UpdatedAt : Instant }.
Record leaderDoc := mkLeaderDoc { ld_Name : string; ld_WorkerID : string; ld_ExpiresAt : Instant }.
Record scheduleCursorDoc := mkScheduleCursorDoc { sd_At : Instant }.

(** The collections [colJobs], [colUniq], [colQueues], [colLeaders], [colCursors]. *)
Inductive DocRef :=
| JobRef (id : string)
| UniqRef (key : string)
| QueueRef (name : string)
| LeaderRef (name : string)
| CursorRef (id : string).

(** [DOther] is a document that no other program should have put there. *)
Inductive document :=
| DJob (j : jobDoc)
| DUniq (jobID : string)
| DQueue (q : queueDoc)
| DLeader (l : leaderDoc)
| DCursor (c : scheduleCursorDoc)
| DOther (n : nat).

#[export] Instance jobErrorDoc_eq_dec : EqDecision jobErrorDoc.
Proof. solve_decision. Defined.
#[export] Instance jobDoc_eq_dec : EqDecision jobDoc.
Proof. solve_decision. Defined.
#[export] Instance queueDoc_eq_dec : EqDecision queueDoc.
Proof. solve_decision. Defined.
#[export] Instance leaderDoc_eq_dec : EqDecision leaderDoc.
Proof. solve_decision. Defined.
#[export] Instance scheduleCursorDoc_eq_dec : EqDecision scheduleCursorDoc.
Proof. solve_decision. Defined.
#[export] Instance document_eq_dec : EqDecision document.
Proof. solve_decision. Defined.
#[export] Instance DocRef_eq_dec : EqDecision DocRef.
Proof. solve_decision. Defined.
#[export] Instance DocRef_countable : Countable DocRef.
Proof.
  refine (inj_countable'
    (λ r, match r with JobRef s => (0%nat, s) | UniqRef s => (1%nat, s) | QueueRef s => (2%nat, s)
          | LeaderRef s => (3%nat, s) | CursorRef s => (4%nat, s) end)
    (λ p, match p with (0%nat, s) => JobRef s | (1%nat, s) => UniqRef s | (2%nat, s) => QueueRef s
          | (3%nat, s) => LeaderRef s | (_, s) => CursorRef s end) _).
  by intros [].
Defined.

Abbreviation Docs := (gmap DocRef document) (only parsing).

(** ** Writes *)

(** [firestore.Update{Path, Value}] for the paths the code uses. *)
Inductive update :=
| UState (s : string)
| UWorkerID (w : string)
| URunAt (t : Instant)
| UAttemptedAt (t : Instant)
| UStartedAt (t : Instant)
| ULeaseExpiresAt (t : Instant)
| UFinalizedAt (t : Instant)
| UAttemptNum (increment : Z)
| UVersion (increment : Z)
| UErrors (errors : list jobErrorDoc)
| UExpiresAt (t : Instant)
| UCursorAt (t : Instant).

Inductive write :=
| WCreate (r : DocRef) (doc : document)
| WUpdate (r : DocRef) (us : list update)
| WMergeQueue (r : DocRef) (q : queueDoc)        (* Set of all four fields with MergeAll *)
| WDelete (r : DocRef).

Section commit.
(** What the service keeps of an instant (it stores microseconds). *)
Context (stamp : Instant → Instant).

Definition stampError (e : jobErrorDoc) : jobErrorDoc := mkJobError (stamp (je_At e)) (je_Attempt e) (je_Message e) (je_Trace e).

Definition stampDoc (doc : document) : document :=
  match doc with
  | DJob j =>
      DJob (mkJobDoc (jd_ID j) (jd_Queue j) (jd_Kind j) (jd_Args j) (jd_State j) (jd_Priority j) (stamp (jd_RunAt j))
        (stamp (jd_CreatedAt j)) (stamp (jd_AttemptedAt j)) (stamp (jd_StartedAt j)) (stamp (jd_LeaseExpiresAt j))
        (stamp (jd_FinalizedAt j)) (jd_AttemptNum j) (jd_MaxRetry j) (jd_TimeoutMs j) (jd_UniqueKey j) (jd_WorkerID j)
        (jd_Tags j) (stampError <$> jd_Errors j) (jd_Version j) (jd_PipelineID j))
  | DUniq id => DUniq id
  | DQueue q => DQueue (mkQueueDoc (qd_Name q) (qd_Paused q) (stamp (qd_CreatedAt q)) (stamp (qd_UpdatedAt q)))
  | DLeader l => DLeader (mkLeaderDoc (ld_Name l) (ld_WorkerID l) (stamp (ld_ExpiresAt l)))
  | DCursor c => DCursor (mkScheduleCursorDoc (stamp (sd_At c)))
  | DOther n => DOther n
  end.

(** [firestore.Increment]: an overflow leaves the largest magnitude. *)
Definition increment (a b : Z) : Z := Z.max int64_min (Z.min int64_max (a + b)).

Definition updateJob (u : update) (j : jobDoc) : jobDoc :=
  match u with
  | UState s => doc_State s j
  | UWorkerID w => doc_WorkerID w j
  | URunAt t => doc_RunAt (stamp t) j
  | UAttemptedAt t => doc_AttemptedAt (stamp t) j
  | UStartedAt t => doc_StartedAt (stamp t) j
  | ULeaseExpiresAt t => doc_LeaseExpiresAt (stamp t) j
  | UFinalizedAt t => doc_FinalizedAt (stamp t) j
  | UAttemptNum n => doc_AttemptNum (increment (jd_AttemptNum j) n) j
  | UVersion n => doc_Version (increment (jd_Version j) n) j
  | UErrors es => doc_Errors (stampError <$> es) j
  | UExpiresAt _ | UCursorAt _ => j
  end.

Definition applyUpdate (doc : document) (u : update) : document :=
  match doc, u with
  | DJob j, _ => DJob (updateJob u j)
  | DLeader l, UWorkerID w => DLeader (mkLeaderDoc (ld_Name l) w (ld_ExpiresAt l))
  | DLeader l, UExpiresAt t => DLeader (mkLeaderDoc (ld_Name l) (ld_WorkerID l) (stamp t))
  | DCursor c, UCursorAt t => DCursor (mkScheduleCursorDoc (stamp t))
  | _, _ => doc
  end.

(** A write with its precondition: what is created must not exist, what is
    updated must. *)
Definition applyWrite (d : Docs) (w : write) : option Docs :=
  match w with
  | WCreate r doc => match d !! r with None => Some (<[r := stampDoc doc]> d) | Some _ => None end
  | WUpdate r us => (λ doc, <[r := foldl applyUpdate doc us]> d) <$> d !! r
  | WMergeQueue r q => Some (<[r := stampDoc (DQueue q)]> d)
  | WDelete r => Some (delete r d)
  end.

(** All the writes of a transaction, or none. *)
Definition commit (ws : list write) (d : Docs) : option Docs :=
  foldl (λ d w, d ≫= λ d, applyWrite d w) (Some d) ws.
End commit.

(** ** The service *)

Inductive Code := NotFound | AlreadyExists | CodeOther.

#[export] Instance Code_eq_dec : EqDecision Code.
Proof. solve_decision. Defined.

Inductive filter_clause :=
| WhereQueue (queue : string)
| WhereState (state : string)
| WhereStateIn (states : list string)
| WhereKind (kind : string)
| WhereRunAt (now : Instant).                    (* run_at <= now *)

Inductive collection := ColJobs | ColQueues.

Record Query := mkQuery {
  fq_Collection : collection;
  fq_Where : list filter_clause;
  fq_OrderByRunAt : bool;
  fq_Limit : option Z
}.

Definition reader : Type := DocRef → result document.

Class Firestore (FS : Type) := {
  fs_code : error → Code;                        (* status.Code *)
  fs_decodeErr : document → error;               (* what DataTo says of a foreign document *)
  fs_readAfterWrite : error;
  fs_get : FS → DocRef → FS * result document;
  fs_write : FS → write → FS * option error;     (* Create, Update, Set and Delete of a DocumentRef *)
  fs_query : FS → Query → FS * result (list (DocRef * document));
  fs_count : FS → Query → FS * result (option Z); (* None: a value of another type *)
  fs_runTx : ∀ {L : Type}, FS → (reader → L → L * result (list write)) → L → FS * L * option error;
  fs_uuid : FS → FS * string                     (* uuid.New().String() *)
}.

(** The caller's transaction handed to [EnqueueTx]: how it reads and what it has
    buffered so far. *)
Record UserTx := mkUserTx { tx_get : reader; tx_writes : list write }.

Section driver.
Context {FS : Type} `{Firestore FS}.

(** The driver with the service behind it, and the transactions its callers hold. *)
Record FsEnv := mkFsEnv { fv_fs : FS; fv_clk : Clock; fv_txs : nat → UserTx }.

Definition io (A : Type) : Type := FsEnv → FsEnv * A.

#[global] Instance io_ret : MRet io := λ A a e, (e, a).
#[global] Instance io_bind : MBind io := λ A B f m e, let '(e', a) := m e in f a e'.

Definition onService {A} (f : FS → FS * A) : io A := λ e,
  let '(s, a) := f (fv_fs e) in (mkFsEnv s (fv_clk e) (fv_txs e), a).
Definition clkNow : io Instant := λ e,
  let '(now, clk) := Now (fv_clk e) in (mkFsEnv (fv_fs e) clk (fv_txs e), now).
Definition newUUID : io string := onService fs_uuid.
Definition docGet (r : DocRef) : io (result document) := onService (λ s, fs_get s r).
Definition docWrite (w : write) : io (option error) := onService (λ s, fs_write s w).
Definition GetAll (q : Query) : io (result (list (DocRef * document))) := onService (λ s, fs_query s q).
Definition Count (q : Query) : io (result (option Z)) := onService (λ s, fs_count s q).

(** [client.RunTransaction]; the function may read the clock, which moves on
    with every run of it. *)
Definition RunTransaction {L : Type} (f : reader → L → L * result (list write)) (l : L) : io (L * option error) :=
  onService (λ s, let '(s', l', err) := fs_runTx s f l in (s', (l', err))).
Definition RunTransactionClk {L : Type} (f : reader → Clock * L → Clock * L * result (list write)) (l : L)
  : io (L * option error) := λ e,
  let '(s', (clk, l'), err) := fs_runTx (fv_fs e) f (fv_clk e, l) in (mkFsEnv s' clk (fv_txs e), (l', err)).

(** [snap.DataTo(&x)] *)
Definition toJob (doc : document) : result jobDoc :=
  match doc with DJob j => Ok j | _ => Err (fs_decodeErr doc) end.
Definition toQueue (doc : document) : result queueDoc :=
  match doc with DQueue q => Ok q | _ => Err (fs_decodeErr doc) end.
Definition toLeader (doc : document) : result leaderDoc :=
  match doc with DLeader l => Ok l | _ => Err (fs_decodeErr doc) end.
Definition toCursor (doc : document) : result scheduleCursorDoc :=
  match doc with DCursor c => Ok c | _ => Err (fs_decodeErr doc) end.

Definition isNotFound (err : error) : bool := match fs_code err with NotFound => true | _ => false end.
Definition isAlreadyExists (err : error) : bool := match fs_code err with AlreadyExists => true | _ => false end.

(** Reading a job through a transaction: [missing] is the answer to NotFound. *)
Definition readJob {A} (get : reader) (id : string) (missing failed : error → A) (found : jobDoc → A) : A :=
  match get (JobRef id) with
  | Err err => if isNotFound err then missing err else failed err
  | Ok doc => match toJob doc with Err err => failed err | Ok j => found j end
  end.

(** ** Rows *)

Definition timePtr (t : Instant) : option Instant := if IsZero t then None else Some t.

Definition jobErrorsToRow (errs : list jobErrorDoc) : list AttemptError :=
  (λ e, mkAttemptError (je_At e) (je_Attempt e) (je_Message e) (je_Trace e)) <$> errs.

Definition docToRow (j : jobDoc) : JobRow :=
  mkJobRow (jd_ID j) (jd_Queue j) (jd_Kind j) (if bool_decide (jd_Args j = "") then "{}" else jd_Args j)
    (jd_State j) (jd_Priority j) (jd_RunAt j) (jd_CreatedAt j)
    (timePtr (jd_AttemptedAt j)) (timePtr (jd_StartedAt j)) (timePtr (jd_LeaseExpiresAt j)) (timePtr (jd_FinalizedAt j))
    (jd_AttemptNum j) (jd_MaxRetry j) (durMul (jd_TimeoutMs j) Millisecond) (jd_Tags j) (jobErrorsToRow (jd_Errors j))
    (jd_UniqueKey j) (jd_WorkerID j) (jd_PipelineID j).

(** ** Inserting *)

Definition newDoc (p : JobInsertParams) (id : string) (now : Instant) : jobDoc :=
  let runAt := if IsZero (ip_RunAt p) then now else ip_RunAt p in
  let state := if After runAt now then JobStateScheduled else JobStateAvailable in
  mkJobDoc id (ip_Queue p) (ip_Kind p) (ip_Args p) state (ip_Priority p) (UTC runAt) (UTC now)
    zeroTime zeroTime zeroTime zeroTime 0 (ip_MaxRetry p) (durDiv (ip_Timeout p) Millisecond) (ip_UniqueKey p) ""
    (ip_Tags p) [] 1 (ip_PipelineID p).

(** The documents of a new job. *)
Definition insertWrites (doc : jobDoc) : list write :=
  WCreate (JobRef (jd_ID doc)) (DJob doc) ::
  (if bool_decide (jd_UniqueKey doc ≠ "") then [WCreate (UniqRef (jd_UniqueKey doc)) (DUniq (jd_ID doc))] else []).

(** The transaction of an insert with a unique key; it captures [skip]. *)
Definition insertUnique (doc : jobDoc) (get : reader) (skip : bool) : bool * result (list write) :=
  match get (UniqRef (jd_UniqueKey doc)) with
  | Ok _ => (true, Ok [])
  | Err err => if isNotFound err then (skip, Ok (insertWrites doc)) else (skip, Err err)
  end.

Definition insertErr (i : nat) (err : error) : error :=
  EWrap ("insert job " +:+ FormatInt (Z.of_nat i) +:+ ": ") err "".

(** The queue's own document, unless it exists. *)
Definition ensureQueueDoc (queue : string) (now : Instant) : io (option error) :=
  err ← docWrite (WCreate (QueueRef queue) (DQueue (mkQueueDoc queue false (UTC now) (UTC now))));
  mret match err with
       | Some e => if isAlreadyExists e then None else Some (EWrap "upsert queue: " e "")
       | None => None
       end.

(** One round of the loop of [jobInsertMany]. *)
Definition insertParam (now : Instant) (i : nat) (p : JobInsertParams) : io (result JobInsertResult) :=
  id ← newUUID;
  let doc := newDoc p id now in
  r ← (if bool_decide (ip_UniqueKey p ≠ "") then RunTransaction (insertUnique doc) false
       else err ← docWrite (WCreate (JobRef id) (DJob doc)); mret (false, err));
  match r with
  | (_, Some err) => mret (Err (insertErr i err))
  | (true, None) => mret (Ok (mkJobInsertResult None true))
  | (false, None) =>
      err ← ensureQueueDoc (ip_Queue p) now;
      mret match err with Some e => Err e | None => Ok (mkJobInsertResult (Some (docToRow doc)) false) end
  end.

Fixpoint insertParams (now : Instant) (i : nat) (params : list JobInsertParams) : io (result (list JobInsertResult)) :=
  match params with
  | [] => mret (Ok [])
  | p :: ps =>
      r ← insertParam now i p;
      match r with
      | Err err => mret (Err err)
      | Ok res =>
          rs ← insertParams now (S i) ps;
          mret match rs with Err err => Err err | Ok rest => Ok (res :: rest) end
      end
  end.

Definition jobInsertMany (params : list JobInsertParams) : io (result (list JobInsertResult)) :=
  now ← clkNow; insertParams now 0 params.

(** ** Inserting in the caller's transaction *)

Definition getTx (t : nat) : io UserTx := λ e, (e, fv_txs e t).
Definition setTx (t : nat) (tx : UserTx) : io unit := λ e, (mkFsEnv (fv_fs e) (fv_clk e) (λ u, if decide (u = t) then tx else fv_txs e u), tt).

(** Reads must come before writes. *)
Definition txGet (tx : UserTx) (r : DocRef) : result document :=
  match tx_writes tx with [] => tx_get tx r | _ => Err fs_readAfterWrite end.

(** Phase 1: the documents, and whether the key of each is taken. *)
Fixpoint readPhase (tx : UserTx) (now : Instant) (params : list JobInsertParams) : io (result (list (jobDoc * bool))) :=
  match params with
  | [] => mret (Ok [])
  | p :: ps =>
      id ← newUUID;
      let doc := newDoc p id now in
      let taken :=
        if bool_decide (ip_UniqueKey p ≠ "") then
          match txGet tx (UniqRef (ip_UniqueKey p)) with
          | Ok _ => Ok true
          | Err err => if isNotFound err then Ok false else Err err
          end
        else Ok false in
      match taken with
      | Err err => mret (Err err)
      | Ok skip =>
          rs ← readPhase tx now ps;
          mret match rs with Err err => Err err | Ok rest => Ok ((doc, skip) :: rest) end
      end
  end.

Definition entryWrites (entry : jobDoc * bool) : list write :=
  if entry.2 then [] else insertWrites entry.1.
Definition entryResult (entry : jobDoc * bool) : JobInsertResult :=
  if entry.2 then mkJobInsertResult None true else mkJobInsertResult (Some (docToRow entry.1)) false.

Definition jobInsertManyTx (t : nat) (params : list JobInsertParams) : io (result (list JobInsertResult)) :=
  now ← clkNow;
  tx ← getTx t;
  rs ← readPhase tx now params;
  match rs with
  | Err err => mret (Err err)
  | Ok entries =>
      _ ← setTx t (mkUserTx (tx_get tx) (tx_writes tx ++ mjoin (entryWrites <$> entries)));
      mret (Ok (entryResult <$> entries))
  end.

Definition txJobGetByID (t : nat) (id : string) : io (result JobRow) :=
  tx ← getTx t;
  mret (readJob (txGet tx) id (λ _, Err (jobError ErrNotFound id)) Err (λ j, Ok (docToRow j))).

(** ** Reading *)

(** A missing job is no error here: Go returns two nils. *)
Definition jobGetByID (id : string) : io (result (option JobRow)) :=
  r ← docGet (JobRef id);
  mret (readJob (λ _, r) id (λ _, Ok None) Err (λ j, Ok (Some (docToRow j)))).

Definition listQuery (params : JobListParams) : Query :=
  mkQuery ColJobs
    ((if bool_decide (jl_Queue params ≠ "") then [WhereQueue (jl_Queue params)] else [])
     ++ (if bool_decide (jl_State params ≠ "") then [WhereState (jl_State params)] else [])
     ++ (if bool_decide (jl_Kind params ≠ "") then [WhereKind (jl_Kind params)] else [])) false None.

(** The rows of the documents that decode and follow the cursor. *)
Definition listRows (cur : option (Instant * string)) (snaps : list (DocRef * document)) : list JobRow :=
  filter (λ row, match cur with Some (at_, id) => JobFollowsCursor row at_ id | None => true end = true)
    (omap (λ s, match toJob s.2 with Ok j => Some (docToRow j) | Err _ => None end) snaps).

Definition jobList (params : JobListParams) : io (result (list JobRow)) :=
  let go cur :=
    r ← GetAll (listQuery params);
    mret match r with
         | Err err => Err err
         | Ok snaps => Ok (take (Z.to_nat (pageLimit (jl_Limit params))) (sort_by listLess (listRows cur snaps)))
         end in
  if bool_decide (jl_Cursor params = "") then go None
  else match DecodeJobCursor (jl_Cursor params) with
       | Ok cur => go (Some cur)
       | Err err => mret (Err err)
       end.

Definition countedStates : list JobState :=
  [JobStateAvailable; JobStateScheduled; JobStateRunning; JobStateCompleted; JobStateDiscarded; JobStateCancelled].

Fixpoint countLoop (queue : string) (states : list JobState) (stats : QueueStats) : io (result QueueStats) :=
  match states with
  | [] => mret (Ok stats)
  | state :: rest =>
      r ← Count (mkQuery ColJobs [WhereQueue queue; WhereState state] false None);
      match r with
      | Err err => mret (Err err)
      | Ok None =>
          mret (Err (ENew ("firestore count returned unexpected value for queue " +:+ quoted queue +:+ " state " +:+ quoted state)))
      | Ok (Some count) =>
          countLoop queue rest
            (mkQueueStats (qs_Queue stats) (<[state := count]> (qs_States stats)) (wrap64 (qs_Total stats + count)))
      end
  end.

Definition queueStats (queue : string) : io (result QueueStats) :=
  countLoop queue countedStates (mkQueueStats queue ∅ 0).

(** ** Fetching *)

Definition claimable (j : jobDoc) : bool :=
  bool_decide (jd_State j = JobStateAvailable) || bool_decide (jd_State j = JobStateScheduled).

Definition candidateLimit (limit : Z) : Z := Z.min 1024 (Z.max 64 (wrap64 (limit * 16))).

Definition fetchQuery (params : FetchParams) (now : Instant) : Query :=
  mkQuery ColJobs [WhereQueue (fp_Queue params); WhereStateIn [JobStateAvailable; JobStateScheduled]; WhereRunAt now]
    true (Some (candidateLimit (fp_Limit params))).

(** priority DESC, run_at ASC, created_at ASC, id ASC. *)
Definition candidateLess (a b : DocRef * jobDoc) : bool :=
  let '(x, y) := (a.2, b.2) in
  if negb (jd_Priority x =? jd_Priority y) then jd_Priority y <? jd_Priority x
  else if negb (TimeEqual (jd_RunAt x) (jd_RunAt y)) then Before (jd_RunAt x) (jd_RunAt y)
  else if negb (TimeEqual (jd_CreatedAt x) (jd_CreatedAt y)) then Before (jd_CreatedAt x) (jd_CreatedAt y)
  else str_lt (jd_ID x) (jd_ID y).

Definition decodeCandidates (snaps : list (DocRef * document)) : list (DocRef * jobDoc) :=
  omap (λ s, match toJob s.2 with Ok j => Some (s.1, j) | Err _ => None end) snaps.

Definition claimLease (params : FetchParams) (claimTime : Instant) : Instant :=
  if 0 <? fp_LeaseDuration params then UTC (Add claimTime (fp_LeaseDuration params)) else zeroTime.

Definition claimUpdates (workerID : string) (claimTime leaseExpiresAt : Instant) : list update :=
  [UState JobStateRunning; UWorkerID workerID; UAttemptedAt (UTC claimTime); UStartedAt zeroTime;
   ULeaseExpiresAt leaseExpiresAt; UAttemptNum 1; UVersion 1].

(** The transaction that claims one candidate; nothing is captured. *)
Definition claimTx (ref : DocRef) (workerID : string) (claimTime leaseExpiresAt : Instant) (get : reader) (u : unit)
  : unit * result (list write) :=
  (u, match get ref with
      | Err err => Err err
      | Ok doc =>
          match toJob doc with
          | Err err => Err err
          | Ok cur =>
              if claimable cur then Ok [WUpdate ref (claimUpdates workerID claimTime leaseExpiresAt)]
              else Err (ESentinel ErrJobGone)
          end
      end).

(** The row handed out is made from the candidate as the query saw it. *)
Definition candidateRow (params : FetchParams) (claimTime leaseExpiresAt : Instant) (j : jobDoc) : JobRow :=
  mkJobRow (jd_ID j) (jd_Queue j) (jd_Kind j) (jd_Args j) JobStateRunning (jd_Priority j) (jd_RunAt j) (jd_CreatedAt j)
    (Some claimTime) None (timePtr leaseExpiresAt) None (wrap64 (jd_AttemptNum j + 1)) (jd_MaxRetry j)
    (durMul (jd_TimeoutMs j) Millisecond) (jd_Tags j) (jobErrorsToRow (jd_Errors j)) (jd_UniqueKey j)
    (fp_WorkerID params) (jd_PipelineID j).

(** [claimed] counts the rows there are already. *)
Fixpoint claimLoop (params : FetchParams) (claimed : Z) (candidates : list (DocRef * jobDoc)) : io (result (list JobRow)) :=
  match candidates with
  | [] => mret (Ok [])
  | c :: rest =>
      if fp_Limit params <=? claimed then mret (Ok [])
      else
        claimTime ← clkNow;
        let leaseExpiresAt := claimLease params claimTime in
        r ← RunTransaction (claimTx c.1 (fp_WorkerID params) claimTime leaseExpiresAt) tt;
        match r.2 with
        | Some err =>
            if errorsIs err ErrJobGone then claimLoop params claimed rest
            else mret (Err (EWrap "claim job: " err ""))
        | None =>
            rs ← claimLoop params (claimed + 1) rest;
            mret match rs with
                 | Err err => Err err
                 | Ok rows => Ok (candidateRow params claimTime leaseExpiresAt c.2 :: rows)
                 end
        end
  end.

(** Whether the queue's document says that it is paused. *)
Definition saysPaused (r : result document) : bool :=
  match r with
  | Ok doc => match toQueue doc with Ok q => qd_Paused q | Err _ => false end
  | Err _ => false
  end.

Definition jobFetchBatch (params : FetchParams) : io (result (list JobRow)) :=
  q ← docGet (QueueRef (fp_Queue params));
  if saysPaused q then mret (Ok [])
  else
    now ← clkNow;
    r ← GetAll (fetchQuery params now);
    match r with
    | Err err => mret (Err (EWrap "query available jobs: " err ""))
    | Ok snaps => claimLoop params 0 (sort_by candidateLess (decodeCandidates snaps))
    end.

(** ** Claims: rescue, heartbeats and outcomes *)

Definition isExpired (params : JobRescueParams) (j : jobDoc) : bool :=
  negb (IsZero (jd_LeaseExpiresAt j)) && negb (After (jd_LeaseExpiresAt j) (rp_At params)).
Definition legacyExpired (params : JobRescueParams) (j : jobDoc) : bool :=
  IsZero (jd_LeaseExpiresAt j) && negb (IsZero (jd_AttemptedAt j)) && negb (After (jd_AttemptedAt j) (rp_Before params)).
Definition isStuckDoc (params : JobRescueParams) (j : jobDoc) : bool :=
  bool_decide (jd_State j = JobStateRunning) && (isExpired params j || legacyExpired params j).

Definition rescueUpdates : list update :=
  [UState JobStateAvailable; UWorkerID ""; UAttemptedAt zeroTime; UStartedAt zeroTime; ULeaseExpiresAt zeroTime; UVersion 1].

Definition rescueTx (params : JobRescueParams) (ref : DocRef) (get : reader) (u : unit) : unit * result (list write) :=
  (u, match get ref with
      | Err err => Err err
      | Ok doc =>
          match toJob doc with
          | Err err => Err err
          | Ok job => if isStuckDoc params job then Ok [WUpdate ref rescueUpdates] else Err (ESentinel ErrJobGone)
          end
      end).

(** Go returns the number rescued with the error, too. *)
Fixpoint rescueLoop (params : JobRescueParams) (rescued : Z) (snaps : list (DocRef * document)) : io (Z * option error) :=
  match snaps with
  | [] => mret (rescued, None)
  | snap :: rest =>
      r ← RunTransaction (rescueTx params snap.1) tt;
      match r.2 with
      | Some err =>
          if errorsIs err ErrJobGone then rescueLoop params rescued rest else mret (rescued, Some err)
      | None => rescueLoop params (rescued + 1) rest
      end
  end.

Definition jobRescueStuck (params : JobRescueParams) : io (Z * option error) :=
  r ← GetAll (mkQuery ColJobs [WhereQueue (rp_Queue params); WhereState JobStateRunning] false None);
  match r with
  | Err err => mret (0, Some err)
  | Ok snaps => rescueLoop params 0 snaps
  end.

Definition ownsDoc (j : jobDoc) (workerID : string) (attempt : Z) : bool :=
  bool_decide (jd_State j = JobStateRunning) && bool_decide (jd_WorkerID j = workerID) && (jd_AttemptNum j =? attempt).

Definition renewalUntil (params : JobHeartbeatParams) : Instant :=
  if IsZero (hp_LeaseExpiresAt params) then hp_At params else hp_LeaseExpiresAt params.

(** It captures [renewed]. *)
Definition heartbeatTx (params : JobHeartbeatParams) (get : reader) (renewed : bool) : bool * result (list write) :=
  readJob get (hp_ID params)
    (λ _, (renewed, Err (jobError ErrStaleClaim (hp_ID params)))) (λ err, (renewed, Err err))
    (λ job, if ownsDoc job (hp_WorkerID params) (hp_Attempt params)
            then (true, Ok [WUpdate (JobRef (hp_ID params)) [ULeaseExpiresAt (UTC (renewalUntil params))]])
            else (renewed, Ok [])).

Definition jobHeartbeat (params : JobHeartbeatParams) : io (bool * option error) :=
  r ← RunTransaction (heartbeatTx params) false;
  mret (r.1 && bool_decide (r.2 = None), r.2).

(** It captures [marked]. *)
Definition markStartedTx (params : JobMarkStartedParams) (get : reader) (marked : bool) : bool * result (list write) :=
  readJob get (ms_ID params) (λ err, (marked, Err err)) (λ err, (marked, Err err))
    (λ job, if ownsDoc job (ms_WorkerID params) (ms_Attempt params)
            then (true, Ok [WUpdate (JobRef (ms_ID params)) [UStartedAt (UTC (ms_At params))]])
            else (marked, Ok [])).

Definition jobMarkStarted (params : JobMarkStartedParams) : io (bool * option error) :=
  r ← RunTransaction (markStartedTx params) false;
  mret (r.1 && bool_decide (r.2 = None), r.2).

Definition yieldUpdates : list update :=
  [UState JobStateAvailable; UWorkerID ""; UAttemptedAt zeroTime; UStartedAt zeroTime; ULeaseExpiresAt zeroTime;
   UAttemptNum (-1); UVersion 1].

(** The key of a finished job is free again, unless it is permanent. *)
Definition freesKey (key : string) : bool := bool_decide (key ≠ "") && negb (IsPermanentUniqueKey key).
Definition freeKey (key : string) : list write := if freesKey key then [WDelete (UniqRef key)] else [].

Definition errorUpdates (params : JobSetStateParams) (now : Instant) (j : jobDoc) : list update :=
  match sp_Err params with
  | Some msg => [UErrors (jd_Errors j ++ [mkJobError now (jd_AttemptNum j) msg (default "" (sp_Trace params))])]
  | None => []
  end.

Definition stateUpdates (params : JobSetStateParams) (now : Instant) : list update :=
  if bool_decide (sp_State params = JobStateRetryable)
  then [UState JobStateAvailable; URunAt (UTC (if IsZero (sp_RetryAt params) then now else sp_RetryAt params))]
  else [UState (sp_State params); UFinalizedAt (UTC now)].

Definition settleWrites (params : JobSetStateParams) (now : Instant) (j : jobDoc) : list write :=
  let ref := JobRef (sp_ID params) in
  if sp_Yield params then [WUpdate ref yieldUpdates]
  else
    (if bool_decide (sp_State params = JobStateRetryable) then [] else freeKey (jd_UniqueKey j))
    ++ [WUpdate ref ([UWorkerID ""; ULeaseExpiresAt zeroTime; UVersion 1] ++ errorUpdates params now j
                     ++ stateUpdates params now)].

Definition settleTx (params : JobSetStateParams) (get : reader) (l : Clock * unit) : Clock * unit * result (list write) :=
  readJob get (sp_ID params) (λ _, (l, Ok [])) (λ err, (l, Err err))
    (λ j, if bool_decide (jd_State j = JobStateRunning) && MatchesClaim params (jd_WorkerID j) (jd_AttemptNum j)
          then let '(now, clk) := Now l.1 in ((clk, l.2), Ok (settleWrites params now j))
          else (l, Err (jobError ErrStaleClaim (sp_ID params)))).

Definition jobSetStateIfRunning (params : JobSetStateParams) : io (option error) :=
  r ← RunTransactionClk (settleTx params) tt; mret r.2.

(** ** Cancelling, deleting, rescheduling *)

Definition cancelWrites (id : string) (now : Instant) (j : jobDoc) : list write :=
  WUpdate (JobRef id) [UState JobStateCancelled; UFinalizedAt (UTC now); UVersion 1] :: freeKey (jd_UniqueKey j).

Definition cancelTx (id : string) (get : reader) (l : Clock * unit) : Clock * unit * result (list write) :=
  readJob get id (λ _, (l, Err (jobError ErrNotFound id))) (λ err, (l, Err err))
    (λ j, if claimable j
          then let '(now, clk) := Now l.1 in ((clk, l.2), Ok (cancelWrites id now j))
          else (l, Err (EWrap "" (ESentinel ErrConflict)
                 (": job " +:+ quoted id +:+ " is in state " +:+ jd_State j +:+ ", can only cancel available/scheduled")))).

Definition jobCancel (id : string) : io (option error) :=
  r ← RunTransactionClk (cancelTx id) tt; mret r.2.

(** Three calls, not one transaction. *)
Definition jobDelete (id : string) : io (option error) :=
  r ← docGet (JobRef id);
  readJob (λ _, r) id (λ _, mret (Some (jobError ErrNotFound id))) (λ err, mret (Some err))
    (λ j,
      err ← docWrite (WDelete (JobRef id));
      match err with
      | Some e => mret (Some e)
      | None =>
          if bool_decide (jd_UniqueKey j ≠ "") then _ ← docWrite (WDelete (UniqRef (jd_UniqueKey j))); mret None
          else mret None
      end).

Definition rescheduleUpdates (params : RescheduleParams) : list update :=
  [UState JobStateScheduled; URunAt (UTC (rs_RunAt params)); UVersion 1].

Definition jobReschedule (params : RescheduleParams) : io (option error) :=
  err ← docWrite (WUpdate (JobRef (rs_ID params)) (rescheduleUpdates params));
  mret match err with
       | Some e => Some (if isNotFound e then jobError ErrNotFound (rs_ID params) else e)
       | None => None
       end.

(** ** Queues *)

Definition rowOfQueue (q : queueDoc) : QueueRow :=
  mkQueueRow (qd_Name q) (qd_Paused q) (qd_CreatedAt q) (qd_UpdatedAt q).

Definition queueGet (name : string) : io (result QueueRow) :=
  r ← docGet (QueueRef name);
  match r with
  | Ok doc => mret match toQueue doc with Ok q => Ok (rowOfQueue q) | Err err => Err err end
  | Err err =>
      if isNotFound err then
        now ← clkNow;
        cerr ← docWrite (WCreate (QueueRef name) (DQueue (mkQueueDoc name false (UTC now) (UTC now))));
        mret match cerr with
             | Some e => if isAlreadyExists e then Ok (mkQueueRow name false now now) else Err e
             | None => Ok (mkQueueRow name false now now)
             end
      else mret (Err err)
  end.

Definition queueSetPausedFS (name : string) (paused : bool) : io (option error) :=
  now ← clkNow; docWrite (WMergeQueue (QueueRef name) (mkQueueDoc name paused (UTC now) (UTC now))).

Definition queueList (params : QueueListParams) : io (result (list QueueRow)) :=
  let go cursor :=
    r ← GetAll (mkQuery ColQueues [] false None);
    mret match r with
         | Err err => Err err
         | Ok snaps =>
             let rows := filter (λ q, str_lt cursor (q_Name q) = true)
                           (omap (λ s, match toQueue s.2 with Ok q => Some (rowOfQueue q) | Err _ => None end) snaps) in
             Ok (take (Z.to_nat (pageLimit (ql_Limit params))) (sort_by queueLess rows))
         end in
  if bool_decide (ql_Cursor params = "") then go ""
  else match DecodeQueueCursor (ql_Cursor params) with
       | Ok cursor => go cursor
       | Err err => mret (Err err)
       end.

(** ** Leases and schedule cursors *)

(** It captures [elected], which every run resets. *)
Definition electTx (params : LeaderElectParams) (get : reader) (l : Clock * bool) : Clock * bool * result (list write) :=
  let '(now, clk) := Now l.1 in
  let ref := LeaderRef (le_Name params) in
  let until := UTC (Add now (le_TTL params)) in
  match get ref with
  | Err err =>
      if isNotFound err
      then ((clk, true), Ok [WCreate ref (DLeader (mkLeaderDoc (le_Name params) (le_WorkerID params) until))])
      else ((clk, false), Err err)
  | Ok doc =>
      match toLeader doc with
      | Err err => ((clk, false), Err err)
      | Ok cur =>
          if Before now (ld_ExpiresAt cur) && bool_decide (ld_WorkerID cur ≠ le_WorkerID params)
          then ((clk, false), Ok [])
          else ((clk, true), Ok [WUpdate ref [UWorkerID (le_WorkerID params); UExpiresAt until]])
      end
  end.

Definition leaderAttemptElect (params : LeaderElectParams) : io (bool * option error) :=
  RunTransactionClk (electTx params) false.

Definition resignTx (params : LeaderResignParams) (get : reader) (u : unit) : unit * result (list write) :=
  (u, match get (LeaderRef (lr_Name params)) with
      | Err err => if isNotFound err then Ok [] else Err err
      | Ok doc =>
          match toLeader doc with
          | Err err => Err err
          | Ok current =>
              if bool_decide (ld_WorkerID current ≠ lr_WorkerID params) then Ok []
              else Ok [WDelete (LeaderRef (lr_Name params))]
          end
      end).

Definition leaderResign (params : LeaderResignParams) : io (option error) :=
  r ← RunTransaction (resignTx params) tt; mret r.2.

(** It captures [result]. *)
Definition cursorCreateTx (params : ScheduleCursorCreateParams) (get : reader) (res : ScheduleCursorResult)
  : ScheduleCursorResult * result (list write) :=
  match get (CursorRef (cc_ID params)) with
  | Err err =>
      if isNotFound err
      then (mkScheduleCursorResult (UTC (cc_InitialAt params)) true,
            Ok [WCreate (CursorRef (cc_ID params)) (DCursor (mkScheduleCursorDoc (UTC (cc_InitialAt params))))])
      else (res, Err err)
  | Ok doc =>
      match toCursor doc with
      | Err err => (res, Err err)
      | Ok c => (mkScheduleCursorResult (UTC (sd_At c)) (cr_Created res), Ok [])
      end
  end.

Definition scheduleCursorGetOrCreate (params : ScheduleCursorCreateParams) : io (ScheduleCursorResult * option error) :=
  RunTransaction (cursorCreateTx params) (mkScheduleCursorResult zeroTime false).

(** It captures [advanced]. *)
Definition cursorAdvanceTx (params : ScheduleCursorAdvanceParams) (get : reader) (advanced : bool)
  : bool * result (list write) :=
  match get (CursorRef (ca_ID params)) with
  | Err err => (advanced, Err err)
  | Ok doc =>
      match toCursor doc with
      | Err err => (advanced, Err err)
      | Ok c =>
          if negb (TimeEqual (sd_At c) (ca_Expected params)) then (advanced, Ok [])
          else (true, Ok [WUpdate (CursorRef (ca_ID params)) [UCursorAt (UTC (ca_Next params))]])
      end
  end.

Definition scheduleCursorAdvance (params : ScheduleCursorAdvanceParams) : io (bool * option error) :=
  RunTransaction (cursorAdvanceTx params) false.
End driver.

Arguments FsEnv : clear implicits.
Arguments mkFsEnv {FS}.
