(* ===== verification/FirestoreLaws.v ===== *)
(** * driver/firestore: atomic moves, and what the service promises

    Whatever several programs do to the documents through this driver is a
    sequence of [move]s, each of them one atomic change of the documents.
    [FirestoreLaws] states the documented behaviour of the service: a call acts on
    the documents as they are at one moment, other programs move before and after
    it; a transaction commits all of its writes or none; its function may have run
    before, on documents that somebody changed meanwhile; when the service reports
    an error of its own, a write may or may not have happened.  [does] is the logic
    of programs over the service: which moves a program makes, and what it then
    answers. *)

From S2P Require Import Prelude GoBase Json Codec Driver Memory.
From S2P Require Export Moves.
From S2P Require Import Firestore.
From Stdlib Require Import ZArith Lia.

(** ** Moves *)

Inductive move :=
| VSees (r : DocRef) (x : option document)        (* changes nothing; what is read at that moment *)
| VInsert (doc : jobDoc)
| VQueueNew (name : string) (now : Instant)
| VQueueSet (name : string) (paused : bool) (now : Instant)
| VClaim (id workerID : string) (claimTime lease : Instant)
| VRescue (params : JobRescueParams) (id : string)
| VRenew (params : JobHeartbeatParams)
| VStart (params : JobMarkStartedParams)
| VSettle (params : JobSetStateParams) (now : Instant)
| VCancel (id : string) (now : Instant)
| VDelete (id : string)
| VFreeKey (key : string)
| VReschedule (params : RescheduleParams)
| VElect (params : LeaderElectParams) (now : Instant)
| VResign (params : LeaderResignParams)
| VCursorNew (params : ScheduleCursorCreateParams)
| VCursorMove (params : ScheduleCursorAdvanceParams).

Definition jobAt (d : Docs) (id : string) : option jobDoc :=
  match d !! JobRef id with Some (DJob j) => Some j | _ => None end.

(** The writes of a move that changes the job [id] if it passes [test]. *)
Definition onJob (d : Docs) (id : string) (test : jobDoc → bool) (ws : jobDoc → list write) : option (list write) :=
  match jobAt d id with Some j => if test j then Some (ws j) else None | None => None end.

Definition newQueueDoc (name : string) (now : Instant) : document := DQueue (mkQueueDoc name false (UTC now) (UTC now)).

Definition moveWrites (m : move) (d : Docs) : option (list write) :=
  match m with
  | VSees r x => if bool_decide (d !! r = x) then Some [] else None
  | VInsert doc => Some (insertWrites doc)
  | VQueueNew name now => Some [WCreate (QueueRef name) (newQueueDoc name now)]
  | VQueueSet name paused now => Some [WMergeQueue (QueueRef name) (mkQueueDoc name paused (UTC now) (UTC now))]
  | VClaim id w t lease => onJob d id claimable (λ _, [WUpdate (JobRef id) (claimUpdates w t lease)])
  | VRescue p id => onJob d id (isStuckDoc p) (λ _, [WUpdate (JobRef id) rescueUpdates])
  | VRenew p => onJob d (hp_ID p) (λ j, ownsDoc j (hp_WorkerID p) (hp_Attempt p))
                  (λ _, [WUpdate (JobRef (hp_ID p)) [ULeaseExpiresAt (UTC (renewalUntil p))]])
  | VStart p => onJob d (ms_ID p) (λ j, ownsDoc j (ms_WorkerID p) (ms_Attempt p))
                  (λ _, [WUpdate (JobRef (ms_ID p)) [UStartedAt (UTC (ms_At p))]])
  | VSettle p now =>
      onJob d (sp_ID p) (λ j, bool_decide (jd_State j = JobStateRunning) && MatchesClaim p (jd_WorkerID j) (jd_AttemptNum j))
        (settleWrites p now)
  | VCancel id now => onJob d id claimable (cancelWrites id now)
  | VDelete id => Some [WDelete (JobRef id)]
  | VFreeKey key => Some [WDelete (UniqRef key)]
  | VReschedule p => Some [WUpdate (JobRef (rs_ID p)) (rescheduleUpdates p)]
  | VElect p now =>
      let until := UTC (Add now (le_TTL p)) in
      match d !! LeaderRef (le_Name p) with
      | None => Some [WCreate (LeaderRef (le_Name p)) (DLeader (mkLeaderDoc (le_Name p) (le_WorkerID p) until))]
      | Some (DLeader cur) =>
          if Before now (ld_ExpiresAt cur) && bool_decide (ld_WorkerID cur ≠ le_WorkerID p) then None
          else Some [WUpdate (LeaderRef (le_Name p)) [UWorkerID (le_WorkerID p); UExpiresAt until]]
      | Some _ => None
      end
  | VResign p =>
      match d !! LeaderRef (lr_Name p) with
      | Some (DLeader cur) => if bool_decide (ld_WorkerID cur = lr_WorkerID p) then Some [WDelete (LeaderRef (lr_Name p))] else None
      | _ => None
      end
  | VCursorNew p => Some [WCreate (CursorRef (cc_ID p)) (DCursor (mkScheduleCursorDoc (UTC (cc_InitialAt p))))]
  | VCursorMove p =>
      match d !! CursorRef (ca_ID p) with
      | Some (DCursor c) => if TimeEqual (sd_At c) (ca_Expected p) then Some [WUpdate (CursorRef (ca_ID p)) [UCursorAt (UTC (ca_Next p))]] else None
      | _ => None
      end
  end.

Section moves.
Context (stamp : Instant → Instant).

Definition step (m : move) (d : Docs) : option Docs :=
  match moveWrites m d with Some ws => commit stamp ws d | None => None end.

(** ** Every job is stored under its own id *)

Definition keyedDocs (d : Docs) : Prop := ∀ id j, d !! JobRef id = Some (DJob j) → jd_ID j = id.

Lemma commit_cons w ws d : commit stamp (w :: ws) d = match applyWrite stamp d w with Some d' => commit stamp ws d' | None => None end.
Proof.
  unfold commit. simpl. destruct (applyWrite stamp d w) as [d'|]; [done|].
  by induction ws as [|w' ws IH].
Qed.

Lemma commit_nil d : commit stamp [] d = Some d.
Proof. done. Qed.

Lemma commit_one w d : commit stamp [w] d = applyWrite stamp d w.
Proof. rewrite commit_cons. by destruct (applyWrite stamp d w). Qed.

Lemma updates_job us : ∀ j, foldl (applyUpdate stamp) (DJob j) us = DJob (foldl (λ j u, updateJob stamp u j) j us).
Proof. induction us as [|u us IH]; intros j; simpl; [done|apply IH]. Qed.

Lemma updateJob_same u j :
  jd_ID (updateJob stamp u j) = jd_ID j ∧ jd_Queue (updateJob stamp u j) = jd_Queue j ∧
  jd_UniqueKey (updateJob stamp u j) = jd_UniqueKey j.
Proof. by destruct u. Qed.

Lemma updates_same us : ∀ j,
  let j' := foldl (λ j u, updateJob stamp u j) j us in
  jd_ID j' = jd_ID j ∧ jd_Queue j' = jd_Queue j ∧ jd_UniqueKey j' = jd_UniqueKey j.
Proof.
  induction us as [|u us IH]; intros j; simpl; [done|].
  destruct (IH (updateJob stamp u j)) as (-> & -> & ->). apply updateJob_same.
Qed.

Lemma updates_not_job us : ∀ doc, (∀ j, doc ≠ DJob j) → ∀ j, foldl (applyUpdate stamp) doc us ≠ DJob j.
Proof.
  induction us as [|u us IH]; intros doc Hd j; simpl; [apply Hd|]. apply IH. intros j'.
  destruct doc; simpl; try congruence; destruct u; congruence.
Qed.

(** A write keeps the jobs where they are, if it creates none elsewhere. *)
Definition keyedWrite (w : write) : Prop :=
  match w with WCreate (JobRef id) (DJob j) => jd_ID j = id | _ => True end.

Lemma applyWrite_keyed d w d' : keyedDocs d → keyedWrite w → applyWrite stamp d w = Some d' → keyedDocs d'.
Proof.
  intros Hk Hw Ha id j. destruct w as [r doc|r us|r q|r]; simpl in Ha.
  - destruct (d !! r); [done|]. simplify_eq. rewrite lookup_insert_Some.
    intros [[-> Hd]|[_ Hl]]; [|by apply Hk]. destruct doc; simplify_eq/=. done.
  - destruct (d !! r) as [doc|] eqn:E; simplify_eq/=. rewrite lookup_insert_Some.
    intros [[-> Hd]|[_ Hl]]; [|by apply Hk].
    destruct doc as [j0| | | | |]; [|exfalso; refine (updates_not_job us _ _ _ Hd); congruence..].
    rewrite updates_job in Hd. simplify_eq. destruct (updates_same us j0) as (-> & _). by apply Hk.
  - simplify_eq. rewrite lookup_insert_Some. intros [[_ Hd]|[_ Hl]]; [done|by apply Hk].
  - simplify_eq. rewrite lookup_delete_Some. intros [_ Hl]. by apply Hk.
Qed.

Lemma commit_keyed ws : ∀ d d', keyedDocs d → Forall keyedWrite ws → commit stamp ws d = Some d' → keyedDocs d'.
Proof.
  induction ws as [|w ws IH]; intros d d' Hk Hw; [by rewrite commit_nil; intros [= <-]|].
  rewrite commit_cons. apply Forall_cons in Hw as [Hw Hws].
  destruct (applyWrite stamp d w) as [d1|] eqn:E; [|done]. apply IH; [by eapply applyWrite_keyed|done].
Qed.

Lemma onJob_Some d id test ws r :
  onJob d id test ws = Some r ↔ ∃ j, jobAt d id = Some j ∧ test j = true ∧ r = ws j.
Proof.
  unfold onJob. split.
  - intros Hr. repeat case_match; simplify_eq. eauto.
  - intros (j & -> & -> & ->). done.
Qed.

Lemma jobAt_Some d id j : jobAt d id = Some j ↔ d !! JobRef id = Some (DJob j).
Proof. unfold jobAt. split; [|by intros ->]. intros H. repeat case_match; congruence. Qed.

Lemma freeKey_keyed key : Forall keyedWrite (freeKey key).
Proof. unfold freeKey. case_match; by repeat constructor. Qed.

Lemma moveWrites_keyed m d ws : moveWrites m d = Some ws → Forall keyedWrite ws.
Proof.
  destruct m; simpl; intros H; repeat case_match; simplify_eq/=;
    try (apply onJob_Some in H as (j & _ & _ & ->)); try by repeat constructor.
  - unfold insertWrites. constructor; [done|]. case_match; by repeat constructor.
  - unfold settleWrites. case_match; [by repeat constructor|].
    apply Forall_app; split; [|by repeat constructor]. case_match; [done|apply freeKey_keyed].
  - constructor; [done|apply freeKey_keyed].
Qed.

Lemma step_keyed m d d' : keyedDocs d → step m d = Some d' → keyedDocs d'.
Proof.
  unfold step. intros Hk H. destruct (moveWrites m d) as [ws|] eqn:E; [|done].
  eapply commit_keyed; [done| |done]. by eapply moveWrites_keyed.
Qed.

Lemma runMoves_keyed ms d d' : keyedDocs d → Moves.runMoves step ms d = Some d' → keyedDocs d'.
Proof. apply runMoves_inv, step_keyed. Qed.

Lemma others_keyed d d' : keyedDocs d → Moves.others step d d' → keyedDocs d'.
Proof. apply others_inv, step_keyed. Qed.
End moves.

Abbreviation runMoves stamp := (Moves.runMoves (step stamp)).
Abbreviation others stamp := (Moves.others (step stamp)).

(** ** Answers of the service *)

Definition fieldMatches (c : filter_clause) (doc : document) : bool :=
  match doc with
  | DJob j =>
      match c with
      | WhereQueue q => bool_decide (jd_Queue j = q)
      | WhereState s => bool_decide (jd_State j = s)
      | WhereStateIn l => bool_decide (jd_State j ∈ l)
      | WhereKind k => bool_decide (jd_Kind j = k)
      | WhereRunAt now => negb (After (jd_RunAt j) now)
      end
  | _ => false
  end.

Definition inCollection (c : collection) (r : DocRef) : bool :=
  match c, r with ColJobs, JobRef _ | ColQueues, QueueRef _ => true | _, _ => false end.

Definition selects (q : Query) (r : DocRef) (doc : document) : bool :=
  inCollection (fq_Collection q) r && forallb (λ c, fieldMatches c doc) (fq_Where q).

Definition runAtOf (doc : document) : Instant := match doc with DJob j => jd_RunAt j | _ => zeroTime end.

(** The documents a query lists: all it selects, or the first of them. *)
Record queryAnswer (q : Query) (d : Docs) (l : list (DocRef * document)) : Prop := {
  qa_nodup : NoDup l.*1;
  qa_sound r doc : (r, doc) ∈ l → d !! r = Some doc ∧ selects q r doc = true;
  qa_limit n : fq_Limit q = Some n → Z.of_nat (length l) ≤ Z.max 0 n;
  qa_complete r doc : d !! r = Some doc → selects q r doc = true →
    (r, doc) ∈ l ∨ ∃ n, fq_Limit q = Some n ∧ Z.of_nat (length l) = Z.max 0 n ∧
      (fq_OrderByRunAt q = true → Forall (λ s, runAtOf s.2 ≤ runAtOf doc) l)
}.

Section service.
Context {FS : Type} `{Firestore FS}.

(** A reader of a transaction shows the documents of one moment. *)
Definition reads (d : Docs) (get : reader) : Prop :=
  ∀ r, match get r with
       | Ok doc => d !! r = Some doc
       | Err e => foreignErr e ∧ (fs_code e = NotFound → d !! r = None)
       end.

(** What earlier runs of a transaction's function leave in its variables. *)
Definition captured {L A} (f : reader → L → L * A) (gets : list reader) (l : L) : L :=
  foldl (λ l get, (f get l).1) l gets.

Class FirestoreLaws := {
  fs_stamp : Instant → Instant;
  fs_docs : FS → Docs;
  fs_decode_foreign doc : foreignErr (fs_decodeErr doc);
  fs_readAfterWrite_foreign : foreignErr fs_readAfterWrite;
  fs_uuid_law s : others fs_stamp (fs_docs s) (fs_docs (fs_uuid s).1);
  fs_get_law s r : ∃ d get, others fs_stamp (fs_docs s) d ∧ others fs_stamp d (fs_docs (fs_get s r).1) ∧
    reads d get ∧ (fs_get s r).2 = get r;
  fs_query_law s q : ∃ d, others fs_stamp (fs_docs s) d ∧ others fs_stamp d (fs_docs (fs_query s q).1) ∧
    match (fs_query s q).2 with Ok l => queryAnswer q d l | Err e => foreignErr e end;
  fs_count_law s q : ∃ d, others fs_stamp (fs_docs s) d ∧ others fs_stamp d (fs_docs (fs_count s q).1) ∧
    match (fs_count s q).2 with
    | Ok (Some n) => ∃ l, queryAnswer q d l ∧ n = Z.of_nat (length l)
    | Ok None => True
    | Err e => foreignErr e
    end;
  fs_write_law s w : ∃ d d', others fs_stamp (fs_docs s) d ∧ others fs_stamp d' (fs_docs (fs_write s w).1) ∧
    match (fs_write s w).2 with
    | None => applyWrite fs_stamp d w = Some d'
    | Some e => foreignErr e ∧
        (d' = d ∨ fs_code e = CodeOther ∧ applyWrite fs_stamp d w = Some d') ∧
        (fs_code e ≠ CodeOther → applyWrite fs_stamp d w = None)
    end;
  fs_runTx_law L s (f : reader → L → L * result (list write)) l :
    ∃ gets d d', let l0 := captured f gets l in
    Forall (λ get, ∃ d0, others fs_stamp (fs_docs s) d0 ∧ reads d0 get) gets ∧
    others fs_stamp (fs_docs s) d ∧ others fs_stamp d' (fs_docs (fs_runTx s f l).1.1) ∧
    let '(l', err) := ((fs_runTx s f l).1.2, (fs_runTx s f l).2) in
    (l' = l0 ∧ d' = d ∧ ∃ e, err = Some e ∧ foreignErr e) ∨         (* it did not get to a last run *)
    ∃ get, reads d get ∧ l' = (f get l0).1 ∧
      match (f get l0).2 with
      | Err e => err = Some e ∧ d' = d
      | Ok ws =>
          match err with
          | None => commit fs_stamp ws d = Some d'
          | Some e => foreignErr e ∧ (d' = d ∨ commit fs_stamp ws d = Some d')
          end
      end
}.
End service.
Arguments FirestoreLaws FS {H}.

(** ** The logic of programs *)

Section logic.
Context {FS : Type} `{Firestore FS} `{!FirestoreLaws FS}.

Abbreviation docsOf e := (fs_docs (fv_fs e)).

Abbreviation happens := (Moves.happens (step fs_stamp)).

Definition does {A} (m : io A) (Q : list (act move) → A → Prop) : Prop :=
  Moves.does (step fs_stamp) (λ e, docsOf e) keyedDocs m Q.

Lemma does_weaken {A} (m : io A) (Q Q' : list (act move) → A → Prop) : does m Q → (∀ acts a, Q acts a → Q' acts a) → does m Q'.
Proof. apply moves_weaken. Qed.

Lemma does_ret {A} (a : A) (Q : list (act move) → A → Prop) : Q [] a → does (mret a) Q.
Proof. apply moves_ret. Qed.

Lemma does_bind {A B} (m : io A) (f : A → io B) (Q : list (act move) → B → Prop) :
  does m (λ a1 x, does (f x) (λ a2 y, Q (a1 ++ a2) y)) → does (m ≫= f) Q.
Proof. apply moves_bind, step_keyed. Qed.

Lemma does_now Q : (∀ now, Q [] now) → does clkNow Q.
Proof.
  intros HQ e _. exists []. unfold clkNow. destruct (Now (fv_clk e)) as [now clk]. simpl.
  split; [by apply happens_others|done].
Qed.

Lemma does_uuid Q : (∀ id, Q [] id) → does newUUID Q.
Proof.
  intros HQ e _. exists []. unfold newUUID, onService. pose proof (fs_uuid_law (fv_fs e)) as Hu.
  destruct (fs_uuid (fv_fs e)) as [s id]. simpl in *. split; [by apply happens_others|done].
Qed.

(** What has been read is seen at that moment. *)
Lemma sees_run r x d : d !! r = x → runMoves fs_stamp [VSees r x] d = Some d.
Proof. intros Hx. simpl. unfold step. simpl. by rewrite bool_decide_eq_true_2. Qed.

Lemma does_get r Q :
  (∀ d doc, keyedDocs d → d !! r = Some doc → Q [Did (VSees r (Some doc))] (Ok doc)) →
  (∀ e, foreignErr e → fs_code e = NotFound → Q [Did (VSees r None)] (Err e)) →
  (∀ e, foreignErr e → fs_code e ≠ NotFound → Q [] (Err e)) → does (docGet r) Q.
Proof.
  intros HQ HN HE e He. unfold docGet, onService.
  destruct (fs_get_law (fv_fs e) r) as (d & get & H1 & H2 & Hr & Hx).
  destruct (fs_get (fv_fs e) r) as [s x]. simpl in *. subst x. specialize (Hr r).
  assert (∀ y, d !! r = y → happens (fs_docs (fv_fs e)) (fs_docs s) [Did (VSees r y)]) as Hs.
  { intros y Hy. eapply happens_between; [exact H1| |exact H2]. by apply (happens_did [_]), sees_run. }
  destruct (get r) as [doc|err].
  - exists [Did (VSees r (Some doc))]. split; [by apply Hs|]. eapply HQ; [|done]. by eapply others_keyed.
  - destruct Hr as [Hf Hn]. destruct (decide (fs_code err = NotFound)) as [Hc|Hc].
    + exists [Did (VSees r None)]. split; [by apply Hs, Hn|by apply HN].
    + exists []. split; [apply happens_others; by trans d|by apply HE].
Qed.

Lemma does_query q Q :
  (∀ e, foreignErr e → Q [] (Err e)) → (∀ d l, keyedDocs d → queryAnswer q d l → Q [] (Ok l)) → does (GetAll q) Q.
Proof.
  intros HE HQ e He. exists []. unfold GetAll, onService.
  destruct (fs_query_law (fv_fs e) q) as (d & H1 & H2 & Hx).
  destruct (fs_query (fv_fs e) q) as [s x]. simpl in *. split.
  - apply happens_others. by trans d.
  - destruct x; [|by apply HE]. eapply HQ; [|done]. by eapply others_keyed.
Qed.

Lemma does_count q Q :
  (∀ e, foreignErr e → Q [] (Err e)) → Q [] (Ok None) →
  (∀ d l, queryAnswer q d l → Q [] (Ok (Some (Z.of_nat (length l))))) → does (Count q) Q.
Proof.
  intros HE HN HQ e He. exists []. unfold Count, onService.
  destruct (fs_count_law (fv_fs e) q) as (d & H1 & H2 & Hx).
  destruct (fs_count (fv_fs e) q) as [s x]. simpl in *. split.
  - apply happens_others. by trans d.
  - destruct x as [[n|]|]; [|done|by apply HE]. destruct Hx as (l & Hl & ->). by eapply HQ.
Qed.

(** A single write that is the move [m]. *)
Lemma does_write w m Q :
  (∀ d, moveWrites m d = Some [w]) →
  Q [Did m] None →
  (∀ e, foreignErr e → Q [] (Some e)) →
  (∀ e, foreignErr e → fs_code e = CodeOther → Q [Did m] (Some e)) →
  does (docWrite w) Q.
Proof.
  intros Hm HQ HE HU e He. unfold docWrite, onService.
  destruct (fs_write_law (fv_fs e) w) as (d & d' & H1 & H2 & Hx).
  destruct (fs_write (fv_fs e) w) as [s x]. simpl in *.
  assert (applyWrite fs_stamp d w = Some d' → happens d d' [Did m]) as Hdid.
  { intros Ha. apply (happens_did [m]). simpl. unfold step. by rewrite Hm, commit_one, Ha. }
  destruct x as [err|].
  - destruct Hx as (Hf & [->|[Hc Ha]] & _).
    + exists []. split; [|by apply HE]. eapply happens_between; [done|by apply happens_others|done].
    + exists [Did m]. split; [|by apply HU]. eapply happens_between; eauto.
  - exists [Did m]. split; [|done]. eapply happens_between; eauto.
Qed.

(** A transaction: [ms] is what it does when its function has returned [ws]. *)
Definition txSpec {L} (f : reader → L → L * result (list write)) (l : L) (Q : list (act move) → L → option error → Prop) : Prop :=
  ∀ gets, Forall (λ get, ∃ d, reads d get) gets →
  let l0 := captured f gets l in
  let acts := replicate (length gets) Retried in
  (∀ e, foreignErr e → Q acts l0 (Some e)) ∧
  ∀ d get, keyedDocs d → reads d get →
    match (f get l0).2 with
    | Err e => ∃ ms, runMoves fs_stamp ms d = Some d ∧ Q (acts ++ (Did <$> ms)) (f get l0).1 (Some e)
    | Ok ws => ∃ ms, commit fs_stamp ws d = runMoves fs_stamp ms d ∧
        Q (acts ++ (Did <$> ms)) (f get l0).1 None ∧
        ∀ e, foreignErr e → Q acts (f get l0).1 (Some e) ∧ Q (acts ++ (Did <$> ms)) (f get l0).1 (Some e)
    end.

Lemma tx_happens {L} (s : FS) (f : reader → L → L * result (list write)) l Q :
  keyedDocs (fs_docs s) → txSpec f l Q →
  ∃ acts, happens (fs_docs s) (fs_docs (fs_runTx s f l).1.1) acts ∧ Q acts (fs_runTx s f l).1.2 (fs_runTx s f l).2.
Proof.
  intros Hk Hs. destruct (fs_runTx_law L s f l) as (gets & d & d' & Hg & H1 & H2 & Hx).
  destruct (Hs gets) as [HE HQ]. { eapply Forall_impl; [exact Hg|]. intros get (d0 & _ & ?). eauto. }
  set (l0 := captured f gets l) in *. set (n := length gets) in *.
  destruct (fs_runTx s f l) as [[s' l'] err]. cbn [fst snd] in *.
  assert (∀ acts, happens d d' acts → happens (fs_docs s) (fs_docs s') (replicate n Retried ++ acts)) as Hb.
  { intros acts Ha. eapply happens_between; [exact H1| |exact H2]. eapply happens_trans; [apply happens_retried|done]. }
  pose proof (Hb [] ) as Hb0. rewrite app_nil_r in Hb0.
  destruct Hx as [(-> & -> & e & -> & He)|(get & Hr & -> & Hx)].
  { exists (replicate n Retried). split; [by apply Hb0, happens_others|by apply HE]. }
  specialize (HQ d get (others_keyed _ _ _ Hk H1) Hr). destruct ((f get l0).2) as [ws|e].
  - destruct HQ as (ms & Hc & HN & HF). rewrite Hc in Hx. destruct err as [e|].
    + destruct Hx as [He [->|Hd]].
      * exists (replicate n Retried). split; [by apply Hb0, happens_others|by apply HF].
      * exists (replicate n Retried ++ (Did <$> ms)). split; [by apply Hb, happens_did|by apply HF].
    + exists (replicate n Retried ++ (Did <$> ms)). split; [by apply Hb, happens_did|done].
  - destruct Hx as [-> ->]. destruct HQ as (ms & Hrun & HQ).
    exists (replicate n Retried ++ (Did <$> ms)). split; [by apply Hb, happens_did|done].
Qed.

Lemma does_tx {L} (f : reader → L → L * result (list write)) l (Q : list (act move) → L * option error → Prop) :
  txSpec f l (λ acts l' err, Q acts (l', err)) → does (RunTransaction f l) Q.
Proof.
  intros Hs e He. unfold RunTransaction, onService.
  destruct (tx_happens (fv_fs e) f l _ He Hs) as (acts & Hh & HQ).
  destruct (fs_runTx (fv_fs e) f l) as [[s' l'] err]. simpl in *. eauto.
Qed.

Lemma does_txClk {L} (f : reader → Clock * L → Clock * L * result (list write)) l (Q : list (act move) → L * option error → Prop) :
  (∀ clk, txSpec f (clk, l) (λ acts cl err, Q acts (cl.2, err))) → does (RunTransactionClk f l) Q.
Proof.
  intros Hs e He. unfold RunTransactionClk.
  destruct (tx_happens (fv_fs e) f (fv_clk e, l) _ He (Hs _)) as (acts & Hh & HQ).
  destruct (fs_runTx (fv_fs e) f (fv_clk e, l)) as [[s' [clk l']] err]. simpl in *. eauto.
Qed.
End logic.
