(* ===== verification/FirestoreRefine.v ===== *)
(** * driver/firestore: what each operation does

    [promised o acts a]: the operation [o] has done [acts] and answered [a].  The
    refinement theorem says that every operation keeps its promise, whatever other
    programs do between its calls and however often the service runs its
    transactions again.  A transaction that was run again may leave a stale answer
    in a captured variable; the promises say where. *)

From S2P Require Import Prelude GoBase Json Codec Driver Memory Firestore FirestoreLaws.
From Stdlib Require Import ZArith Lia.

(** ** Operations *)

Inductive fsOp :=
| OInsert (params : list JobInsertParams)
| OInsertTx (t : nat) (params : list JobInsertParams)
| OGet (id : string)
| OGetTx (t : nat) (id : string)
| OList (params : JobListParams)
| OStats (queue : string)
| OFetch (params : FetchParams)
| ORescue (params : JobRescueParams)
| OHeartbeat (params : JobHeartbeatParams)
| OMarkStarted (params : JobMarkStartedParams)
| OSetState (params : JobSetStateParams)
| OCancel (id : string)
| ODelete (id : string)
| OReschedule (params : RescheduleParams)
| OQueueGet (name : string)
| OSetPaused (name : string) (paused : bool)
| OQueueList (params : QueueListParams)
| OElect (params : LeaderElectParams)
| OResign (params : LeaderResignParams)
| OCursorGet (params : ScheduleCursorCreateParams)
| OCursorAdvance (params : ScheduleCursorAdvanceParams).

Definition ans (o : fsOp) : Type :=
  match o with
  | OInsert _ | OInsertTx _ _ => result (list JobInsertResult)
  | OGet _ => result (option JobRow)
  | OGetTx _ _ => result JobRow
  | OList _ | OFetch _ => result (list JobRow)
  | OStats _ => result QueueStats
  | ORescue _ => Z * option error
  | OHeartbeat _ | OMarkStarted _ | OElect _ | OCursorAdvance _ => bool * option error
  | OSetState _ | OCancel _ | ODelete _ | OReschedule _ | OSetPaused _ _ | OResign _ => option error
  | OQueueGet _ => result QueueRow
  | OQueueList _ => result (list QueueRow)
  | OCursorGet _ => ScheduleCursorResult * option error
  end.

Definition execOp {FS} `{Firestore FS} (o : fsOp) : io (ans o) :=
  match o with
  | OInsert ps => jobInsertMany ps
  | OInsertTx t ps => jobInsertManyTx t ps
  | OGet id => jobGetByID id
  | OGetTx t id => txJobGetByID t id
  | OList p => jobList p
  | OStats q => queueStats q
  | OFetch p => jobFetchBatch p
  | ORescue p => jobRescueStuck p
  | OHeartbeat p => jobHeartbeat p
  | OMarkStarted p => jobMarkStarted p
  | OSetState p => jobSetStateIfRunning p
  | OCancel id => jobCancel id
  | ODelete id => jobDelete id
  | OReschedule p => jobReschedule p
  | OQueueGet n => queueGet n
  | OSetPaused n b => queueSetPausedFS n b
  | OQueueList p => queueList p
  | OElect p => leaderAttemptElect p
  | OResign p => leaderResign p
  | OCursorGet p => scheduleCursorGetOrCreate p
  | OCursorAdvance p => scheduleCursorAdvance p
  end.

(** A program: one operation after the other, with what each has answered. *)
Fixpoint execAll {FS} `{Firestore FS} (os : list fsOp) (e : FsEnv FS) : FsEnv FS * list {o : fsOp & ans o} :=
  match os with
  | [] => (e, [])
  | o :: rest =>
      let '(e1, a) := execOp o e in
      let '(e2, as_) := execAll rest e1 in
      (e2, existT o a :: as_)
  end.

(** ** Promises *)

Definition isSee (m : move) : bool := match m with VSees _ _ => true | _ => false end.
(** The moves that change something. *)
Definition effects (acts : list (act move)) : list move := filter (λ m, isSee m = false) (did acts).

Definition sawJob (id : string) (j : jobDoc) (acts : list (act move)) : Prop := did acts = [VSees (JobRef id) (Some (DJob j))].
Definition sawNoJob (id : string) (acts : list (act move)) : Prop := did acts = [VSees (JobRef id) None].
Definition maybe (m : move) (acts : list (act move)) : Prop := effects acts = [] ∨ effects acts = [m].

(** A fenced update [m] of the job [id], for a transaction that captures a flag. *)
Definition flagged (id : string) (owns : jobDoc → bool) (m : move) (acts : list (act move)) (r : bool * option error) : Prop :=
  match r with
  | (true, None) => did acts = [m] ∨ again acts ∧ ∃ j, sawJob id j acts ∧ owns j = false
  | (false, None) => ∃ j, sawJob id j acts ∧ owns j = false
  | (b, Some e) => b = false ∧ if errorsIs e ErrStaleClaim then sawNoJob id acts else maybe m acts
  end.

(** What became of one parameter of a batch; [retried]: some transaction ran again. *)
Definition insertedAs (retried : Prop) (now : Instant) (p : JobInsertParams) (ms : list move) (r : JobInsertResult) : Prop :=
  if ir_UniqueSkip r then
    ir_Job r = None ∧ ip_UniqueKey p ≠ "" ∧
    ((∃ doc, ms = [VSees (UniqRef (ip_UniqueKey p)) (Some doc)]) ∨ retried ∧ ∃ id, ms = [VInsert (newDoc p id now)])
  else
    ∃ id q, ms = VInsert (newDoc p id now) :: q ∧ (q = [] ∨ q = [VQueueNew (ip_Queue p) now]) ∧
      ir_Job r = Some (docToRow (newDoc p id now)).

Definition insertMove (now : Instant) (ps : list JobInsertParams) (m : move) : Prop :=
  ∃ p, p ∈ ps ∧ ((∃ id, m = VInsert (newDoc p id now)) ∨ m = VQueueNew (ip_Queue p) now).

Definition claimedAs (p : FetchParams) (m : move) (row : JobRow) : Prop :=
  ∃ t, m = VClaim (ID row) (fp_WorkerID p) t (claimLease p t) ∧ AttemptedAt row = Some t ∧
    LeaseExpiresAt row = timePtr (claimLease p t) ∧ State row = JobStateRunning ∧ WorkerID row = fp_WorkerID p ∧
    Queue row = fp_Queue p.

Definition canSettle (p : JobSetStateParams) (j : jobDoc) : bool :=
  bool_decide (jd_State j = JobStateRunning) && MatchesClaim p (jd_WorkerID j) (jd_AttemptNum j).

Definition promised (o : fsOp) (acts : list (act move)) : ans o → Prop :=
  match o with
  | OInsert ps => λ a, ∃ now,
      match a with
      | Ok rs => ∃ groups, did acts = mjoin groups ∧ Forall3 (insertedAs (again acts) now) ps groups rs
      | Err _ => Forall (insertMove now ps) (effects acts)
      end
  | OInsertTx _ _ | OGetTx _ _ | OList _ | OStats _ | OQueueList _ => λ _, effects acts = []
  | OGet id => λ a,
      match a with
      | Ok (Some row) => ∃ j, sawJob id j acts ∧ row = docToRow j
      | Ok None => sawNoJob id acts
      | Err _ => effects acts = []
      end
  | OFetch p => λ a,
      match a with
      | Ok rows => Z.of_nat (length rows) ≤ Z.max 0 (fp_Limit p) ∧ Forall2 (claimedAs p) (effects acts) rows
      | Err _ => Forall (λ m, ∃ id t, m = VClaim id (fp_WorkerID p) t (claimLease p t)) (effects acts)
      end
  | ORescue p => λ '(n, err),
      Forall (λ m, ∃ id, m = VRescue p id) (effects acts) ∧
      let k := Z.of_nat (length (effects acts)) in
      match err with None => n = k | Some _ => n ≤ k ≤ n + 1 end
  | OHeartbeat p => flagged (hp_ID p) (λ j, ownsDoc j (hp_WorkerID p) (hp_Attempt p)) (VRenew p) acts
  | OMarkStarted p => flagged (ms_ID p) (λ j, ownsDoc j (ms_WorkerID p) (ms_Attempt p)) (VStart p) acts
  | OSetState p => λ err,
      match err with
      | None => (∃ now, did acts = [VSettle p now]) ∨ sawNoJob (sp_ID p) acts
      | Some e => if errorsIs e ErrStaleClaim then ∃ j, sawJob (sp_ID p) j acts ∧ canSettle p j = false
                  else ∃ now, maybe (VSettle p now) acts
      end
  | OCancel id => λ err,
      match err with
      | None => ∃ now, did acts = [VCancel id now]
      | Some e => if errorsIs e ErrNotFound then sawNoJob id acts
                  else if errorsIs e ErrConflict then ∃ j, sawJob id j acts ∧ claimable j = false
                  else ∃ now, maybe (VCancel id now) acts
      end
  | ODelete id => λ err,
      match err with
      | None => ∃ j ms, did acts = VSees (JobRef id) (Some (DJob j)) :: VDelete id :: ms ∧
                  (ms = [] ∨ jd_UniqueKey j ≠ "" ∧ ms = [VFreeKey (jd_UniqueKey j)])
      | Some e => if errorsIs e ErrNotFound then sawNoJob id acts else maybe (VDelete id) acts
      end
  | OReschedule p => λ err,
      match err with
      | None => did acts = [VReschedule p]
      | Some e => if errorsIs e ErrNotFound then did acts = [] else maybe (VReschedule p) acts
      end
  | OQueueGet n => λ a,
      match a with
      | Ok row => (∃ q, did acts = [VSees (QueueRef n) (Some (DQueue q))] ∧ row = rowOfQueue q) ∨
                  ∃ now, row = mkQueueRow n false now now ∧ maybe (VQueueNew n now) acts
      | Err _ => ∃ now, maybe (VQueueNew n now) acts
      end
  | OSetPaused n b => λ err,
      ∃ now, match err with None => did acts = [VQueueSet n b now] | Some _ => maybe (VQueueSet n b now) acts end
  | OElect p => λ '(b, err),
      ∃ now, match b, err with
             | true, None => did acts = [VElect p now]
             | false, None => ∃ l, did acts = [VSees (LeaderRef (le_Name p)) (Some (DLeader l))] ∧
                                now < ld_ExpiresAt l ∧ ld_WorkerID l ≠ le_WorkerID p
             | _, Some _ => maybe (VElect p now) acts
             end
  | OResign p => λ err,
      match err with
      | None => did acts = [VResign p] ∨ did acts = [VSees (LeaderRef (lr_Name p)) None] ∨
                ∃ l, did acts = [VSees (LeaderRef (lr_Name p)) (Some (DLeader l))] ∧ ld_WorkerID l ≠ lr_WorkerID p
      | Some _ => maybe (VResign p) acts
      end
  | OCursorGet p => λ '(r, err),
      match err with
      | None => did acts = [VCursorNew p] ∧ r = mkScheduleCursorResult (UTC (cc_InitialAt p)) true ∨
                ∃ c, did acts = [VSees (CursorRef (cc_ID p)) (Some (DCursor c))] ∧ cr_At r = UTC (sd_At c) ∧
                  (cr_Created r = true → again acts)
      | Some _ => maybe (VCursorNew p) acts
      end
  | OCursorAdvance p => λ '(b, err),
      match err with
      | None => if b then did acts = [VCursorMove p] ∨
                          again acts ∧ ∃ c, did acts = [VSees (CursorRef (ca_ID p)) (Some (DCursor c))] ∧ sd_At c ≠ ca_Expected p
                else ∃ c, did acts = [VSees (CursorRef (ca_ID p)) (Some (DCursor c))] ∧ sd_At c ≠ ca_Expected p
      | Some _ => maybe (VCursorMove p) acts
      end
  end.

Create HintDb firestore.

(** ** The sums of the acts *)

Lemma effects_app a1 a2 : effects (a1 ++ a2) = effects a1 ++ effects a2.
Proof. unfold effects. by rewrite did_app, filter_app. Qed.
Lemma effects_retried n : effects (replicate n Retried) = [].
Proof. unfold effects. by rewrite did_retried. Qed.
Lemma effects_tx n ms : effects (replicate n Retried ++ (Did <$> ms)) = filter (λ m, isSee m = false) ms.
Proof. unfold effects. by rewrite did_tx. Qed.
Lemma effects_one n m : isSee m = false → effects (replicate n Retried ++ [Did m]) = [m].
Proof. intros Hm. unfold effects. by rewrite did_one, filter_cons_True. Qed.
Lemma effects_of acts m : did acts = [m] → isSee m = false → effects acts = [m].
Proof. intros Hd Hm. unfold effects. by rewrite Hd, filter_cons_True. Qed.
Lemma effects_see n r x : effects (replicate n Retried ++ [Did (VSees r x)]) = [].
Proof. unfold effects. by rewrite did_one. Qed.

(** ** The operations keep their promises *)

Section refine.
Context {FS : Type} `{Firestore FS} `{!FirestoreLaws FS}.

(** What the rules of the logic leave: a transaction's answers. *)
Ltac tx_intro := intros gets Hg l0 acts; subst acts; split; [intros err Herr|intros d get Hk Hr].

Lemma foreign_not_stale e : foreignErr e → errorsIs e ErrStaleClaim = false.
Proof. by intros (_ & ? & _). Qed.

Lemma toJob_Ok (doc : document) j : toJob doc = Ok j → doc = DJob j.
Proof. by destruct doc; simpl; intros; simplify_eq. Qed.
Lemma toJob_Err doc e : toJob doc = Err e → foreignErr e.
Proof. destruct doc; simpl; intros; simplify_eq; apply fs_decode_foreign. Qed.
Lemma toLeader_Ok doc l : toLeader doc = Ok l → doc = DLeader l.
Proof. by destruct doc; simpl; intros; simplify_eq. Qed.
Lemma toCursor_Ok doc c : toCursor doc = Ok c → doc = DCursor c.
Proof. by destruct doc; simpl; intros; simplify_eq. Qed.
Lemma toQueue_Ok doc q : toQueue doc = Ok q → doc = DQueue q.
Proof. by destruct doc; simpl; intros; simplify_eq. Qed.

(** The three ways a job is read. *)
Lemma readJob_cases {A} (d : Docs) (get : reader) id (missing failed : error → A) found :
  reads d get →
  (∃ e, foreignErr e ∧ d !! JobRef id = None ∧ readJob get id missing failed found = missing e) ∨
  (∃ e, foreignErr e ∧ readJob get id missing failed found = failed e) ∨
  (∃ j, d !! JobRef id = Some (DJob j) ∧ readJob get id missing failed found = found j).
Proof.
  intros Hr. specialize (Hr (JobRef id)). unfold readJob, isNotFound.
  destruct (get (JobRef id)) as [doc|e].
  - destruct (toJob doc) as [j|e] eqn:E.
    + apply toJob_Ok in E as ->. right. right. eauto.
    + apply toJob_Err in E. right. left. eauto.
  - destruct Hr as [Hf Hn]. destruct (fs_code e); [left|right; left..]; eauto.
Qed.

Ltac read_job :=
  match goal with
  | Hr : reads ?d ?get |- context [readJob ?get ?id ?m ?f ?g] =>
      let e := fresh "e" in let He := fresh "He" in let Hn := fresh "Hn" in
      let j := fresh "j" in let Hj := fresh "Hj" in let Heq := fresh "Heq" in
      destruct (readJob_cases d get id m f g Hr) as [(e & He & Hn & Heq)|[(e & He & Heq)|(j & Hj & Heq)]];
      rewrite Heq; clear Heq; simpl
  end.

(** A transaction that does the one move [m] for [ws]. *)
Lemma step_of_writes m ws (d : Docs) : moveWrites m d = Some ws → commit fs_stamp ws d = runMoves fs_stamp [m] d.
Proof. intros Hm. simpl. unfold step. rewrite Hm. by destruct (commit fs_stamp ws d). Qed.

Lemma commit_sees r d : commit fs_stamp [] d = runMoves fs_stamp [VSees r (d !! r)] d.
Proof. symmetry. by apply sees_run. Qed.

Lemma onJob_test d id j test ws : d !! JobRef id = Some (DJob j) → test j = true → onJob d id test ws = Some (ws j).
Proof. intros Hj Ht. unfold onJob. by rewrite (proj2 (jobAt_Some d id j) Hj), Ht. Qed.

(** The transactions that renew a claim in some way share their shape. *)
Lemma flagged_tx id (owns : jobDoc → bool) m (ws : jobDoc → list write) f (missing : error → error) :
  (∀ get b, f get b = readJob get id (λ e, (b, Err (missing e))) (λ e, (b, Err e))
                        (λ j, if owns j then (true, Ok (ws j)) else (b, Ok []))) →
  (∀ d j, d !! JobRef id = Some (DJob j) → owns j = true → moveWrites m d = Some (ws j)) →
  isSee m = false →
  (∀ e, foreignErr e → errorsIs (missing e) ErrStaleClaim = true ∨ foreignErr (missing e)) →
  does (r ← RunTransaction f false; mret (r.1 && bool_decide (r.2 = None), r.2)) (flagged id owns m).
Proof.
  intros Hf Hm Hsee Hmiss. apply does_bind, does_tx. tx_intro.
  - apply does_ret. rewrite app_nil_r, andb_false_r. split; [done|].
    rewrite foreign_not_stale by done. left. apply effects_retried.
  - assert (l0 = true → (0 < length gets)%nat) as Hl0 by (destruct gets; [done|simpl; lia]).
    rewrite Hf. read_job.
    + exists [VSees (JobRef id) None]. split; [by apply sees_run|]. apply does_ret. rewrite app_nil_r, andb_false_r.
      split; [done|]. destruct (Hmiss e He) as [->|Hfo]; [apply did_one|].
      rewrite foreign_not_stale by done. left. apply effects_see.
    + exists []. split; [done|]. apply does_ret. rewrite !app_nil_r, andb_false_r. split; [done|].
      rewrite foreign_not_stale by done. left. apply effects_retried.
    + destruct (owns j) eqn:Ho; simpl.
      * exists [m]. split; [by apply step_of_writes, Hm|]. split.
        -- apply does_ret. rewrite app_nil_r. left. apply did_one.
        -- intros err Herr. split; apply does_ret; rewrite app_nil_r; (split; [done|]);
             rewrite foreign_not_stale by done; [left; apply effects_retried|right; by apply effects_one].
      * exists [VSees (JobRef id) (Some (DJob j))]. split; [rewrite <-Hj; apply commit_sees|]. split.
        -- apply does_ret. rewrite app_nil_r. rewrite andb_true_r. destruct l0; simpl.
           ++ right. split; [apply again_one; auto|]. exists j. split; [apply did_one|done].
           ++ exists j. split; [apply did_one|done].
        -- intros err Herr. split; apply does_ret; rewrite app_nil_r, andb_false_r; (split; [done|]);
             rewrite foreign_not_stale by done; left; [apply effects_retried|apply effects_see].
Qed.

Lemma heartbeat_promise p : does (execOp (OHeartbeat p)) (promised (OHeartbeat p)).
Proof.
  apply (flagged_tx _ _ _ (λ _, [WUpdate (JobRef (hp_ID p)) [ULeaseExpiresAt (UTC (renewalUntil p))]]) (heartbeatTx p)
           (λ _, jobError ErrStaleClaim (hp_ID p))); [done| |done|by left].
  intros d j Hj Ho. simpl. by rewrite (onJob_test _ _ j).
Qed.

Lemma markStarted_promise p : does (execOp (OMarkStarted p)) (promised (OMarkStarted p)).
Proof.
  apply (flagged_tx _ _ _ (λ _, [WUpdate (JobRef (ms_ID p)) [UStartedAt (UTC (ms_At p))]]) (markStartedTx p) id);
    [done| |done|by right].
  intros d j Hj Ho. simpl. by rewrite (onJob_test _ _ j).
Qed.

(** A transaction's outcome that claims at most the move [m]. *)
Lemma maybe_nothing n m : maybe m (replicate n Retried).
Proof. left. apply effects_retried. Qed.
Lemma maybe_did n m : isSee m = false → maybe m (replicate n Retried ++ [Did m]).
Proof. right. by apply effects_one. Qed.
Lemma maybe_saw n m r x : maybe m (replicate n Retried ++ [Did (VSees r x)]).
Proof. left. apply effects_see. Qed.

(** ** Outcomes, cancelling, rescue *)

Hint Resolve maybe_nothing maybe_saw : firestore.
Hint Extern 1 (maybe _ _) => apply maybe_did; reflexivity : firestore.

(** The end of a program: what it has done is all there is. *)
Ltac finish := apply does_ret; rewrite ?app_nil_r; simpl.

Lemma errorsIs_jobError s id s' : errorsIs (jobError s id) s' = bool_decide (s = s').
Proof. done. Qed.

Lemma foreign_cases e s : foreignErr e → s = ErrJobGone ∨ s = ErrStaleClaim ∨ s = ErrConflict ∨ s = ErrNotFound → errorsIs e s = false.
Proof. intros (?&?&?&?). naive_solver. Qed.
Ltac foreign :=
  repeat match goal with
  | Hf : foreignErr ?e |- context [errorsIs ?e ?s] => rewrite (foreign_cases e s Hf) by tauto
  end.

Lemma setState_promise p : does (execOp (OSetState p)) (promised (OSetState p)).
Proof.
  apply does_bind, does_txClk. intros clk. tx_intro.
  - finish. rewrite foreign_not_stale by done. exists zeroTime. auto with firestore.
  - unfold settleTx. read_job.
    + exists [VSees (JobRef (sp_ID p)) None]. split; [rewrite <-Hn; apply commit_sees|]. split.
      * finish. right. apply did_one.
      * intros err Herr. split; finish; rewrite foreign_not_stale by done; exists zeroTime; auto with firestore.
    + exists []. split; [done|]. finish. rewrite foreign_not_stale by done. exists zeroTime. auto with firestore.
    + fold (canSettle p j). destruct (canSettle p j) eqn:Hc.
      * set (now := clk_reading l0.1 (clk_calls l0.1)). simpl. exists [VSettle p now].
        split; [apply step_of_writes, (onJob_test _ _ j _ _ Hj Hc)|]. split.
        -- finish. left. exists now. apply did_one.
        -- intros err Herr. split; finish; rewrite foreign_not_stale by done; exists now; auto with firestore.
      * exists [VSees (JobRef (sp_ID p)) (Some (DJob j))]. split; [by apply sees_run|]. finish.
        exists j. split; [apply did_one|done].
Qed.

Lemma cancel_promise id : does (execOp (OCancel id)) (promised (OCancel id)).
Proof.
  apply does_bind, does_txClk. intros clk. tx_intro.
  - finish. foreign. exists zeroTime. auto with firestore.
  - unfold cancelTx. read_job.
    + exists [VSees (JobRef id) None]. split; [by apply sees_run|]. finish. apply did_one.
    + exists []. split; [done|]. finish. foreign. exists zeroTime. auto with firestore.
    + destruct (claimable j) eqn:Hc.
      * set (now := clk_reading l0.1 (clk_calls l0.1)). simpl. exists [VCancel id now].
        split; [apply step_of_writes, (onJob_test _ _ j _ _ Hj Hc)|]. split.
        -- finish. exists now. apply did_one.
        -- intros err Herr. split; finish; foreign; exists now; auto with firestore.
      * exists [VSees (JobRef id) (Some (DJob j))]. split; [by apply sees_run|]. finish.
        exists j. split; [apply did_one|done].
Qed.

(** ** Leases *)

Lemma resign_promise p : does (execOp (OResign p)) (promised (OResign p)).
Proof.
  apply does_bind, does_tx. tx_intro.
  - finish. auto with firestore.
  - unfold resignTx. pose proof (Hr (LeaderRef (lr_Name p))) as Hl. unfold isNotFound.
    destruct (get (LeaderRef (lr_Name p))) as [doc|e]; simpl.
    + destruct (toLeader doc) as [l|e] eqn:E; simpl; [apply toLeader_Ok in E as ->|].
      * case_bool_decide as Hw; simpl.
        -- exists [VSees (LeaderRef (lr_Name p)) (Some (DLeader l))]. split; [rewrite <-Hl; apply commit_sees|]. split.
           ++ finish. right. right. exists l. split; [apply did_one|done].
           ++ intros err Herr. split; finish; auto with firestore.
        -- exists [VResign p]. split.
           { apply step_of_writes. simpl. rewrite Hl, bool_decide_eq_true_2; [done|]. by destruct (decide (ld_WorkerID l = lr_WorkerID p)). }
           split; [finish; left; apply did_one|]. intros err Herr. split; finish; auto with firestore.
      * exists []. split; [done|]. finish. auto with firestore.
    + destruct Hl as [Hf Hn]. destruct (fs_code e) eqn:Hc; simpl.
      * exists [VSees (LeaderRef (lr_Name p)) None]. split; [rewrite <-Hn by done; apply commit_sees|]. split.
        -- finish. right. left. apply did_one.
        -- intros err Herr. split; finish; auto with firestore.
      * exists []. split; [done|]. finish. auto with firestore.
      * exists []. split; [done|]. finish. auto with firestore.
Qed.

(** The flag of an election is that of its last run. *)
Lemma elect_promise p : does (execOp (OElect p)) (promised (OElect p)).
Proof.
  apply does_txClk. intros clk. tx_intro.
  - exists zeroTime. destruct l0 as [clk' []]; apply maybe_nothing.
  - unfold electTx. simpl. set (now := clk_reading l0.1 (clk_calls l0.1)). simpl.
    pose proof (Hr (LeaderRef (le_Name p))) as Hl. unfold isNotFound.
    destruct (get (LeaderRef (le_Name p))) as [doc|e]; simpl.
    + destruct (toLeader doc) as [l|e] eqn:E; simpl; [apply toLeader_Ok in E as ->|].
      * destruct (Before now (ld_ExpiresAt l) && bool_decide (ld_WorkerID l ≠ le_WorkerID p)) eqn:Hb; simpl.
        -- exists [VSees (LeaderRef (le_Name p)) (Some (DLeader l))]. split; [rewrite <-Hl; apply commit_sees|]. split.
           ++ exists now, l. split; [apply did_one|]. time_to_prop. done.
           ++ intros err Herr. split; exists now; simpl; auto with firestore.
        -- exists [VElect p now]. split; [apply step_of_writes; simpl; by rewrite Hl, Hb|].
           split; [exists now; apply did_one|]. intros err Herr. split; exists now; simpl; auto with firestore.
      * exists []. split; [done|]. exists now. rewrite app_nil_r. apply maybe_nothing.
    + destruct Hl as [Hf Hn]. destruct (fs_code e) eqn:Hc; simpl.
      * exists [VElect p now]. split; [apply step_of_writes; simpl; by rewrite Hn|].
        split; [exists now; apply did_one|]. intros err Herr. split; exists now; simpl; auto with firestore.
      * exists []. split; [done|]. exists now. rewrite app_nil_r. apply maybe_nothing.
      * exists []. split; [done|]. exists now. rewrite app_nil_r. apply maybe_nothing.
Qed.

(** ** Schedule cursors *)

Lemma cursorAdvance_promise p : does (execOp (OCursorAdvance p)) (promised (OCursorAdvance p)).
Proof.
  apply does_tx. tx_intro.
  - simpl. auto with firestore.
  - assert (l0 = true → (0 < length gets)%nat) as Hl0 by (destruct gets; [done|simpl; lia]).
    unfold cursorAdvanceTx. pose proof (Hr (CursorRef (ca_ID p))) as Hl.
    destruct (get (CursorRef (ca_ID p))) as [doc|e]; simpl.
    2: { exists []. split; [done|]. rewrite app_nil_r. auto with firestore. }
    destruct (toCursor doc) as [c|e] eqn:E; simpl; [apply toCursor_Ok in E as ->|].
    2: { exists []. split; [done|]. rewrite app_nil_r. auto with firestore. }
    destruct (TimeEqual (sd_At c) (ca_Expected p)) eqn:Ht; simpl.
    + exists [VCursorMove p]. split; [apply step_of_writes; simpl; by rewrite Hl, Ht|].
      split; [left; apply did_one|]. intros err Herr. split; simpl; auto with firestore.
    + exists [VSees (CursorRef (ca_ID p)) (Some (DCursor c))]. split; [rewrite <-Hl; apply commit_sees|]. time_to_prop.
      split; [|intros err Herr; split; simpl; auto with firestore].
      destruct l0; [right; split; [apply again_one; auto|]|]; exists c; (split; [apply did_one|done]).
Qed.

Lemma created_captured p gets :
  cr_Created (captured (cursorCreateTx p) gets (mkScheduleCursorResult zeroTime false)) = true → (0 < length gets)%nat.
Proof. destruct gets; [done|simpl; lia]. Qed.

Lemma cursorGet_promise p : does (execOp (OCursorGet p)) (promised (OCursorGet p)).
Proof.
  apply does_tx. tx_intro.
  - simpl. auto with firestore.
  - pose proof (created_captured p gets) as Hl0. fold l0 in Hl0.
    unfold cursorCreateTx. pose proof (Hr (CursorRef (cc_ID p))) as Hl. unfold isNotFound.
    destruct (get (CursorRef (cc_ID p))) as [doc|e]; simpl.
    + destruct (toCursor doc) as [c|e] eqn:E; simpl; [apply toCursor_Ok in E as ->|].
      2: { exists []. split; [done|]. rewrite app_nil_r. auto with firestore. }
      exists [VSees (CursorRef (cc_ID p)) (Some (DCursor c))]. split; [rewrite <-Hl; apply commit_sees|].
      split; [|intros err Herr; split; simpl; auto with firestore].
      right. exists c. split; [apply did_one|]. split; [done|]. intros Hcr. apply again_one. auto.
    + destruct Hl as [Hf Hn]. destruct (fs_code e) eqn:Hc; simpl.
      * exists [VCursorNew p]. split; [by apply step_of_writes|].
        split; [left; split; [apply did_one|done]|]. intros err Herr. split; simpl; auto with firestore.
      * exists []. split; [done|]. rewrite app_nil_r. auto with firestore.
      * exists []. split; [done|]. rewrite app_nil_r. auto with firestore.
Qed.

(** ** Reading, and single writes *)

Hint Extern 1 (maybe _ []) => left; reflexivity : firestore.
Hint Extern 1 (maybe _ [Did _]) => right; reflexivity : firestore.

Lemma get_promise id : does (execOp (OGet id)) (promised (OGet id)).
Proof.
  apply does_bind, does_get.
  - intros d doc Hk Hd. finish. unfold readJob. destruct (toJob doc) as [j|e] eqn:E; [apply toJob_Ok in E as ->|done].
    by exists j.
  - intros e He Hc. finish. unfold readJob, isNotFound. by rewrite Hc.
  - intros e He Hc. finish. unfold readJob, isNotFound. by destruct (fs_code e).
Qed.

Lemma list_promise p : does (execOp (OList p)) (promised (OList p)).
Proof.
  simpl. unfold jobList. case_bool_decide; [|destruct (DecodeJobCursor (jl_Cursor p)); [|by finish]];
    (apply does_bind, does_query; [intros e He|intros d l Hk Hl]; by finish).
Qed.

Lemma queueList_promise p : does (execOp (OQueueList p)) (promised (OQueueList p)).
Proof.
  simpl. unfold queueList. case_bool_decide; [|destruct (DecodeQueueCursor (ql_Cursor p)); [|by finish]];
    (apply does_bind, does_query; [intros e He|intros d l Hk Hl]; by finish).
Qed.

Lemma stats_promise q : does (execOp (OStats q)) (promised (OStats q)).
Proof.
  simpl. unfold queueStats. generalize (mkQueueStats q ∅ 0). induction countedStates as [|s ss IH]; intros st; simpl; [by finish|].
  apply does_bind, does_count; [intros e He| |intros d l Hl]; simpl; [by finish..|]. apply IH.
Qed.

Lemma reschedule_promise p : does (execOp (OReschedule p)) (promised (OReschedule p)).
Proof.
  simpl. unfold jobReschedule. apply does_bind, (does_write _ (VReschedule p)); [done| | |].
  - by finish.
  - intros e He. finish. unfold isNotFound. destruct (fs_code e); simpl; [done|..]; foreign; auto with firestore.
  - intros e He Hc. finish. unfold isNotFound. rewrite Hc. foreign. auto with firestore.
Qed.

Lemma setPaused_promise n b : does (execOp (OSetPaused n b)) (promised (OSetPaused n b)).
Proof.
  simpl. unfold queueSetPausedFS. apply does_bind, does_now. intros now.
  apply (does_write _ (VQueueSet n b now)); [done|by exists now|..]; intros e He; intros; exists now; simpl; auto with firestore.
Qed.

Lemma queueGet_promise n : does (execOp (OQueueGet n)) (promised (OQueueGet n)).
Proof.
  simpl. unfold queueGet. apply does_bind, does_get.
  - intros d doc Hk Hd. finish. destruct (toQueue doc) as [q|e] eqn:E; [apply toQueue_Ok in E as ->|exists zeroTime; by left].
    left. by exists q.
  - intros e He Hc. unfold isNotFound. rewrite Hc. simpl. apply does_bind, does_now. intros now.
    apply does_bind, (does_write _ (VQueueNew n now)); [done|finish|intros e' He'; finish|intros e' He' Hc'; finish].
    + right. exists now. split; [done|by right].
    + unfold isAlreadyExists. destruct (fs_code e'); simpl; [|right|]; exists now; try split; try done; by left.
    + unfold isAlreadyExists. rewrite Hc'. exists now. by right.
  - intros e He Hc. unfold isNotFound. destruct (fs_code e); simpl; [done|..]; finish; exists zeroTime; by left.
Qed.

Lemma delete_promise id : does (execOp (ODelete id)) (promised (ODelete id)).
Proof.
  simpl. unfold jobDelete. apply does_bind, does_get.
  - intros d doc Hk Hd. unfold readJob. destruct (toJob doc) as [j|e] eqn:E; [apply toJob_Ok in E as ->|].
    2: { apply toJob_Err in E. finish. foreign. by left. }
    apply does_bind, (does_write _ (VDelete id)); [done| | |].
    + case_bool_decide as Hkey; [|finish; exists j, []; split; [done|by left]].
      apply does_bind, (does_write _ (VFreeKey (jd_UniqueKey j))); [done|..]; intros; finish; eexists j, _;
        (split; [done|]); auto.
    + intros e He. finish. foreign. by left.
    + intros e He Hc. finish. foreign. by right.
  - intros e He Hc. unfold readJob, isNotFound. rewrite Hc. finish. done.
  - intros e He Hc. unfold readJob, isNotFound. destruct (fs_code e); simpl; [done|..]; finish; foreign; by left.
Qed.

(** ** The caller's transaction: nothing is written before it commits *)

Lemma does_getTx t (Q : list (act move) → UserTx → Prop) : (∀ tx, Q [] tx) → does (getTx t) Q.
Proof. intros HQ e _. exists []. split; [by apply happens_others|apply HQ]. Qed.
Lemma does_setTx t tx (Q : list (act move) → unit → Prop) : Q [] tt → does (setTx t tx) Q.
Proof. intros HQ e _. exists []. split; [by apply happens_others|apply HQ]. Qed.

Lemma does_readPhase tx now ps : does (readPhase tx now ps) (λ acts _, acts = []).
Proof.
  induction ps as [|p ps IH]; simpl; [by finish|]. apply does_bind, does_uuid. intros id.
  case_match; [|by finish]. apply does_bind. eapply does_weaken; [apply IH|].
  intros acts rest ->. by finish.
Qed.

Lemma insertTx_promise t ps : does (execOp (OInsertTx t ps)) (promised (OInsertTx t ps)).
Proof.
  simpl. unfold jobInsertManyTx. apply does_bind, does_now. intros now. apply does_bind, does_getTx. intros tx.
  apply does_bind. eapply does_weaken; [apply does_readPhase|]. intros acts [entries|e] ->; [|by finish].
  apply does_bind, does_setTx. by finish.
Qed.

Lemma getTx_promise t id : does (execOp (OGetTx t id)) (promised (OGetTx t id)).
Proof. apply does_bind, does_getTx. intros tx. by finish. Qed.

(** ** Rescue *)

Lemma maybe_bounds m acts : maybe m acts → effects acts = [] ∨ effects acts = [m].
Proof. done. Qed.

(** A transaction on one listed job; [skipped] is the driver's own answer. *)
Lemma job_tx (f : reader → unit → unit * result (list write)) r id (test : jobDoc → bool) m (ws : list write) (Q : list (act move) → unit * option error → Prop) :
  r = JobRef id →
  (∀ get u, f get u = (u, match get r with
     | Err err => Err err
     | Ok doc => match toJob doc with
                 | Err err => Err err
                 | Ok j => if test j then Ok ws else Err (ESentinel ErrJobGone)
                 end end)) →
  (∀ d j, d !! JobRef id = Some (DJob j) → test j = true → moveWrites m d = Some ws) → isSee m = false →
  (∀ acts, effects acts = [] → Q acts (tt, Some (ESentinel ErrJobGone))) →
  (∀ acts e, foreignErr e → maybe m acts → Q acts (tt, Some e)) →
  (∀ acts, effects acts = [m] → Q acts (tt, None)) →
  does (RunTransaction f tt) Q.
Proof.
  intros -> Hf Hm Hsee Hgone HE HQ. apply does_tx. tx_intro; destruct l0.
  - apply HE; auto with firestore.
  - rewrite Hf. pose proof (Hr (JobRef id)) as Hl. destruct (get (JobRef id)) as [doc|e]; simpl.
    + destruct (toJob doc) as [j|e] eqn:E; simpl; [apply toJob_Ok in E as ->|apply toJob_Err in E].
      * destruct (test j) eqn:Ht.
        -- exists [m]. split; [by eapply step_of_writes, Hm|].
           split; [by apply HQ, effects_one|]. intros err Herr. split; apply HE; auto with firestore.
           by apply maybe_did.
        -- exists []. split; [done|]. apply Hgone. rewrite app_nil_r. apply effects_retried.
      * exists []. split; [done|]. apply HE; [done|]. rewrite app_nil_r. auto with firestore.
    + exists []. split; [done|]. apply HE; [apply Hl|]. rewrite app_nil_r. auto with firestore.
Qed.

Lemma query_jobs q d l : keyedDocs d → queryAnswer q d l → fq_Collection q = ColJobs →
  Forall (λ s, ∃ id, s.1 = JobRef id ∧ ∀ j, toJob s.2 = Ok j → jd_ID j = id ∧ forallb (λ c, fieldMatches c (DJob j)) (fq_Where q) = true) l.
Proof.
  intros Hk Hq Hc. apply Forall_forall. intros [r doc] Hin. destruct (qa_sound _ _ _ Hq _ _ Hin) as [Hd Hs].
  unfold selects in Hs. rewrite Hc in Hs. apply andb_true_iff in Hs as [Hcol Hw].
  destruct r as [id| | | |]; simplify_eq/=. exists id. split; [done|]. intros j Hj%toJob_Ok. subst. split; [by apply Hk|done].
Qed.

Definition rescueOutcome (p : JobRescueParams) (n0 : Z) (acts : list (act move)) (a : Z * option error) : Prop :=
  Forall (λ m, ∃ id, m = VRescue p id) (effects acts) ∧
  let k := n0 + Z.of_nat (length (effects acts)) in
  match a.2 with None => a.1 = k | Some _ => a.1 ≤ k ≤ a.1 + 1 end.

Lemma rescueLoop_outcome p snaps : Forall (λ s : DocRef * document, ∃ id, s.1 = JobRef id) snaps →
  ∀ n, does (rescueLoop p n snaps) (rescueOutcome p n).
Proof.
  induction 1 as [|s snaps [id Hs] _ IH]; intros n; simpl; [finish; split; simpl; [done|lia]|].
  apply does_bind, (job_tx _ (s.1) id (isStuckDoc p) (VRescue p id) [WUpdate (JobRef id) rescueUpdates]); try done.
  - intros get u. unfold rescueTx. by rewrite Hs.
  - intros d j Hj Ht. exact (onJob_test d id j _ (λ _, [WUpdate (JobRef id) rescueUpdates]) Hj Ht).
  - intros acts Ha. simpl. eapply does_weaken; [apply IH|]. intros a2 a. unfold rescueOutcome. by rewrite effects_app, Ha.
  - intros acts e He Hm. simpl. foreign. finish. unfold rescueOutcome.
    destruct Hm as [->| ->]; simpl; (split; [eauto using Forall|lia]).
  - intros acts Ha. simpl. eapply does_weaken; [apply IH|]. intros a2 a. unfold rescueOutcome. rewrite effects_app, Ha.
    intros [Hf Hn]. split; [constructor; eauto|]. simpl in *. case_match; lia.
Qed.

Lemma rescue_promise p : does (execOp (ORescue p)) (promised (ORescue p)).
Proof.
  simpl. unfold jobRescueStuck. apply does_bind, does_query.
  - intros e He. finish. split; [done|]. simpl. lia.
  - intros d l Hk Hl. simpl. eapply does_weaken.
    + apply rescueLoop_outcome. eapply Forall_impl; [exact (query_jobs _ _ _ Hk Hl eq_refl)|]. naive_solver.
    + intros acts [n err] [Hf Hn]. split; [done|]. simpl in *. done.
Qed.

(** ** Fetching *)

Definition fetchOutcome (p : FetchParams) (n : Z) (acts : list (act move)) (a : result (list JobRow)) : Prop :=
  match a with
  | Ok rows => (rows = [] ∨ n + Z.of_nat (length rows) ≤ fp_Limit p) ∧ Forall2 (claimedAs p) (effects acts) rows
  | Err _ => Forall (λ m, ∃ id t, m = VClaim id (fp_WorkerID p) t (claimLease p t)) (effects acts)
  end.

Lemma claimed_move p m row : claimedAs p m row → ∃ id t, m = VClaim id (fp_WorkerID p) t (claimLease p t).
Proof. intros (t & -> & _). eauto. Qed.

Lemma claimLoop_outcome p cs : Forall (λ c : DocRef * jobDoc, c.1 = JobRef (jd_ID c.2) ∧ jd_Queue c.2 = fp_Queue p) cs →
  ∀ n, does (claimLoop p n cs) (fetchOutcome p n).
Proof.
  induction 1 as [|[r j] cs [Hr Hq] _ IH]; intros n; simpl; [finish; split; [by left|constructor]|].
  destruct (fp_Limit p <=? n) eqn:Hlim; [finish; split; [by left|constructor]|]. bool_to_prop.
  apply does_bind, does_now. intros t. simpl in *. subst r.
  apply does_bind, (job_tx _ (JobRef (jd_ID j)) (jd_ID j) claimable (VClaim (jd_ID j) (fp_WorkerID p) t (claimLease p t))
    [WUpdate (JobRef (jd_ID j)) (claimUpdates (fp_WorkerID p) t (claimLease p t))]); try done.
  - intros d j' Hj Ht. exact (onJob_test d _ j' _ (λ _, [WUpdate (JobRef (jd_ID j)) (claimUpdates _ t _)]) Hj Ht).
  - intros acts Ha. simpl. eapply does_weaken; [apply IH|]. intros a2 a. unfold fetchOutcome. by rewrite effects_app, Ha.
  - intros acts e He Hm. simpl. foreign. finish. destruct Hm as [->| ->]; repeat constructor. eauto.
  - intros acts Ha. simpl. apply does_bind. eapply does_weaken; [apply IH|]. intros a2 [rows|e] Ho; finish; rewrite effects_app, Ha; simpl.
    + destruct Ho as [Hn Hf]. split; [right; simpl; destruct Hn as [->|]; simpl; lia|].
      constructor; [|done]. by exists t.
    + constructor; [eauto|done].
Qed.

Lemma decodeCandidates_Forall (P : DocRef * jobDoc → Prop) l :
  Forall (λ s, ∀ j, toJob s.2 = Ok j → P (s.1, j)) l → Forall P (decodeCandidates l).
Proof.
  unfold decodeCandidates. induction 1 as [|s l Hs _ IH]; csimpl; [done|]. destruct (toJob s.2) as [j|]; csimpl; auto.
Qed.

Lemma fetch_promise p : does (execOp (OFetch p)) (promised (OFetch p)).
Proof.
  simpl. unfold jobFetchBatch. apply does_bind.
  assert (∀ r acts, effects acts = [] → does
     (if saysPaused r then mret (Ok []) else now ← clkNow; r ← GetAll (fetchQuery p now);
      match r with
      | Err err => mret (Err (EWrap "query available jobs: " err ""))
      | Ok snaps => claimLoop p 0 (sort_by candidateLess (decodeCandidates snaps))
      end) (λ a2 y, promised (OFetch p) (acts ++ a2) y)) as Hrest.
  { intros r acts Ha. destruct (saysPaused r).
    { finish. rewrite Ha. split; [lia|constructor]. }
    apply does_bind, does_now. intros now. apply does_bind, does_query.
    - intros e He. finish. by rewrite Ha.
    - intros d l Hk Hl. simpl. eapply does_weaken.
      + apply claimLoop_outcome. rewrite sort_by_perm. apply decodeCandidates_Forall.
        eapply Forall_impl; [exact (query_jobs _ _ _ Hk Hl eq_refl)|].
        intros [r' doc] (id & -> & Hd) j Hj. destruct (Hd j Hj) as [<- Hw]. simpl in *. split; [done|]. by bool_to_prop.
      + intros a2 [rows|e]; simpl; rewrite effects_app, Ha; [|done]. intros [Hn Hf]. split; [|done].
        destruct Hn as [->|]; simpl; lia. }
  apply does_get; [intros d doc Hk Hd|intros e He Hc..]; by apply Hrest.
Qed.

(** ** Inserting *)

Definition insertOutcome (now : Instant) (p : JobInsertParams) (acts : list (act move)) (a : result JobInsertResult) : Prop :=
  match a with
  | Ok res => insertedAs (again acts) now p (did acts) res
  | Err _ => Forall (insertMove now [p]) (effects acts)
  end.

Lemma ensureQueueDoc_outcome q now :
  does (ensureQueueDoc q now) (λ acts err, match err with
    | None => did acts = [] ∨ did acts = [VQueueNew q now]
    | Some _ => maybe (VQueueNew q now) acts
    end).
Proof.
  apply does_bind, (does_write _ (VQueueNew q now)); [done|finish; by right|intros e He..]; [|intros Hc]; finish;
    unfold isAlreadyExists; destruct (fs_code e); auto with firestore; try done.
Qed.

Lemma insertMove_insert now p id : insertMove now [p] (VInsert (newDoc p id now)).
Proof. exists p. split; [by left|]. left. eauto. Qed.
Lemma insertMove_queue now p : insertMove now [p] (VQueueNew (ip_Queue p) now).
Proof. exists p. split; [by left|]. by right. Qed.
Hint Resolve insertMove_insert insertMove_queue : firestore.

(** After the job is in, its queue's document. *)
Lemma insert_rest now p id acts :
  did acts = [VInsert (newDoc p id now)] →
  does (err ← ensureQueueDoc (ip_Queue p) now;
        mret match err with Some e => Err e | None => Ok (mkJobInsertResult (Some (docToRow (newDoc p id now))) false) end)
    (λ a2 y, insertOutcome now p (acts ++ a2) y).
Proof.
  intros Ha. apply does_bind. eapply does_weaken; [apply ensureQueueDoc_outcome|]. intros a2 [e|] He; finish.
  - rewrite effects_app. apply Forall_app. split; [rewrite (effects_of _ _ Ha) by done; auto with firestore|].
    destruct He as [->| ->]; auto with firestore.
  - rewrite did_app, Ha. destruct He as [->| ->]; eexists id, _; (split; [done|]); auto.
Qed.

(** What the transaction of a unique insert, or the plain write, has done. *)
Definition storedAs (now : Instant) (p : JobInsertParams) (id : string) (acts : list (act move)) (r : bool * option error) : Prop :=
  match r with
  | (_, Some _) => maybe (VInsert (newDoc p id now)) acts
  | (true, None) => ip_UniqueKey p ≠ "" ∧ ((∃ doc, did acts = [VSees (UniqRef (ip_UniqueKey p)) (Some doc)]) ∨
                      again acts ∧ did acts = [VInsert (newDoc p id now)])
  | (false, None) => did acts = [VInsert (newDoc p id now)]
  end.

Lemma insertUnique_stored now p id : ip_UniqueKey p ≠ "" →
  does (RunTransaction (insertUnique (newDoc p id now)) false) (storedAs now p id).
Proof.
  intros Hkey. apply does_tx. tx_intro.
  - destruct l0; simpl; auto with firestore.
  - assert (l0 = true → (0 < length gets)%nat) as Hl0 by (destruct gets; [done|simpl; lia]).
    unfold insertUnique. cbn [jd_UniqueKey newDoc]. pose proof (Hr (UniqRef (ip_UniqueKey p))) as Hl. unfold isNotFound.
    destruct (get (UniqRef (ip_UniqueKey p))) as [doc|e]; simpl.
    + exists [VSees (UniqRef (ip_UniqueKey p)) (Some doc)]. split; [rewrite <-Hl; apply commit_sees|].
      split; [|intros err Herr; split; simpl; auto with firestore].
      split; [done|]. left. exists doc. apply did_one.
    + destruct Hl as [Hf Hn]. destruct (fs_code e) eqn:Hc; simpl.
      * exists [VInsert (newDoc p id now)]. split; [by apply step_of_writes|].
        split; [|intros err Herr; split; destruct l0; simpl; auto with firestore].
        destruct l0; [split; [done|]; right; split; [apply again_one; auto|]|]; apply did_one.
      * exists []. split; [done|]. rewrite app_nil_r. destruct l0; simpl; auto with firestore.
      * exists []. split; [done|]. rewrite app_nil_r. destruct l0; simpl; auto with firestore.
Qed.

Lemma insertPlain_stored now p id : ip_UniqueKey p = "" →
  does (err ← docWrite (WCreate (JobRef id) (DJob (newDoc p id now))); mret (false, err)) (storedAs now p id).
Proof.
  intros Hkey. apply does_bind, (does_write _ (VInsert (newDoc p id now))).
  - intros d. simpl. unfold insertWrites. simpl. by rewrite Hkey.
  - by finish.
  - intros e He. finish. by left.
  - intros e He Hc. finish. by right.
Qed.

Lemma insertParam_outcome now i p : does (insertParam now i p) (insertOutcome now p).
Proof.
  unfold insertParam. apply does_bind, does_uuid. intros id. apply does_bind.
  eapply does_weaken.
  { instantiate (1 := storedAs now p id). case_bool_decide as Hkey.
    - by apply insertUnique_stored.
    - apply insertPlain_stored. by destruct (decide (ip_UniqueKey p = "")). }
  intros acts [[] [e|]] Hs; simpl in Hs.
  - finish. destruct Hs as [->| ->]; auto with firestore.
  - destruct Hs as [Hkey Hs]. finish. split; [done|]. split; [done|]. destruct Hs as [?|[? ?]]; eauto.
  - finish. destruct Hs as [->| ->]; auto with firestore.
  - by apply insert_rest.
Qed.

Lemma insertedAs_mono (P P' : Prop) now p ms r : (P → P') → insertedAs P now p ms r → insertedAs P' now p ms r.
Proof. unfold insertedAs. destruct (ir_UniqueSkip r); [|done]. naive_solver. Qed.

Lemma insertMove_incl now ps ps' m : ps ⊆ ps' → insertMove now ps m → insertMove now ps' m.
Proof. intros Hs (p & Hp & Hm). exists p. auto. Qed.

Lemma did_effects_inserted P now p acts r : insertedAs P now p (did acts) r → Forall (insertMove now [p]) (effects acts).
Proof.
  unfold insertedAs, effects. destruct (ir_UniqueSkip r).
  - intros (_ & _ & [[doc ->]|(_ & id & ->)]); [done|rewrite filter_cons_True by done; auto with firestore].
  - intros (id & q & -> & [->| ->] & _); rewrite ?filter_cons_True by done; auto with firestore.
Qed.

Lemma insertParams_outcome now ps : ∀ i, does (insertParams now i ps) (λ acts a,
  match a with
  | Ok rs => ∃ groups, did acts = mjoin groups ∧ Forall3 (insertedAs (again acts) now) ps groups rs
  | Err _ => Forall (insertMove now ps) (effects acts)
  end).
Proof.
  induction ps as [|p ps IH]; intros i; simpl; [finish; exists []; split; [done|constructor]|].
  apply does_bind. eapply does_weaken; [apply insertParam_outcome|]. intros a1 [res|e] H1; simpl in H1.
  - apply does_bind. eapply does_weaken; [apply IH|]. intros a2 [rs|e] H2; finish.
    + destruct H2 as (groups & Hd & Hf). exists (did a1 :: groups). rewrite did_app, Hd. split; [done|]. constructor.
      * eapply insertedAs_mono; [|exact H1]. rewrite again_app. by left.
      * eapply Forall3_impl; [exact Hf|]. intros ? ? ?. apply insertedAs_mono. rewrite again_app. by right.
    + rewrite effects_app. apply Forall_app. split.
      * eapply Forall_impl; [by eapply did_effects_inserted|]. intros m. apply insertMove_incl. set_solver.
      * eapply Forall_impl; [exact H2|]. intros m. apply insertMove_incl. set_solver.
  - finish. eapply Forall_impl; [exact H1|]. intros m. apply insertMove_incl. set_solver.
Qed.

Lemma insert_promise ps : does (execOp (OInsert ps)) (promised (OInsert ps)).
Proof.
  apply does_bind, does_now. intros now. simpl. eapply does_weaken; [apply insertParams_outcome|].
  intros acts a Ha. exists now. exact Ha.
Qed.

(** ** All of them *)

Lemma operation_does o : does (execOp o) (promised o).
Proof.
  destruct o; [apply insert_promise|apply insertTx_promise|apply get_promise|apply getTx_promise|apply list_promise
    |apply stats_promise|apply fetch_promise|apply rescue_promise|apply heartbeat_promise|apply markStarted_promise
    |apply setState_promise|apply cancel_promise|apply delete_promise|apply reschedule_promise|apply queueGet_promise
    |apply setPaused_promise|apply queueList_promise|apply elect_promise|apply resign_promise|apply cursorGet_promise
    |apply cursorAdvance_promise].
Qed.

Lemma operations_keep o (e : FsEnv FS) :
  keyedDocs (fs_docs (fv_fs e)) →
  ∃ tr, runMoves fs_stamp (trMoves tr) (fs_docs (fv_fs e)) = Some (fs_docs (fv_fs (execOp o e).1)) ∧
    promised o (trOwn tr) (execOp o e).2.
Proof. intros He. destruct (operation_does o e He) as (acts & (tr & Hr & <-) & Hp). eauto. Qed.

(** C20: the Firestore backend refines the moves.  Take any sequence of operations
    of one program.  Whatever other programs do to the documents between two of
    its calls, however often the service runs its transactions again, and whether
    or not the service fails: what the program does to the documents is a sequence
    of atomic moves, and the answer of every operation is what [promised] says of
    its own.  A fetch that succeeds has claimed exactly the jobs it returns; a
    stale claim has changed nothing; an election is won exactly by the move that
    writes the lease. *)
Theorem operations_refine_moves os (e : FsEnv FS) :
  keyedDocs (fs_docs (fv_fs e)) →
  ∃ trs, runMoves fs_stamp (trMoves (mjoin trs)) (fs_docs (fv_fs e)) = Some (fs_docs (fv_fs (execAll os e).1)) ∧
    Forall2 (λ tr (oa : {o : fsOp & ans o}), promised (projT1 oa) (trOwn tr) (projT2 oa)) trs (execAll os e).2 ∧
    (λ oa : {o : fsOp & ans o}, projT1 oa) <$> (execAll os e).2 = os.
Proof.
  revert e. induction os as [|o os IH]; intros e He; simpl; [exists []; split_and!; by try constructor|].
  destruct (operations_keep o e He) as (tr & Hr & Hp). destruct (execOp o e) as [e1 a]. simpl in *.
  destruct (IH e1) as (trs & Hrs & Hf & Ho); [by eapply runMoves_keyed|].
  destruct (execAll os e1) as [e2 as_]. simpl in *. exists (tr :: trs). split_and!.
  - simpl. rewrite trMoves_app. by eapply runMoves_trans.
  - by constructor.
  - f_equal; exact Ho.
Qed.
End refine.
