(* ===== verification/FirestoreSafety.v ===== *)
(** * driver/firestore: what no interleaving of moves can break

    Claims are exclusive until they are released, an unexpired lease is not taken
    over, and a unique key has one live job.  The first two are stated of the
    operations, by way of the refinement of FirestoreRefine.v. *)

From S2P Require Import Prelude GoBase Json Codec Driver Memory Firestore FirestoreLaws FirestoreRefine.
From Stdlib Require Import ZArith Lia.

(** ** Frames *)

Section frame.
Context (stamp : Instant → Instant).

Definition writeRef (w : write) : DocRef :=
  match w with WCreate r _ | WUpdate r _ | WMergeQueue r _ | WDelete r => r end.

Lemma applyWrite_frame d w d' r : applyWrite stamp d w = Some d' → writeRef w ≠ r → d' !! r = d !! r.
Proof.
  intros Ha Hr. destruct w as [r' doc|r' us|r' q|r']; simpl in *.
  - destruct (d !! r'); simplify_eq. by rewrite lookup_insert_ne.
  - destruct (d !! r'); simplify_eq/=. by rewrite lookup_insert_ne.
  - simplify_eq. by rewrite lookup_insert_ne.
  - simplify_eq. by rewrite lookup_delete_ne.
Qed.

Lemma commit_frame ws r : ∀ d d', commit stamp ws d = Some d' → Forall (λ w, writeRef w ≠ r) ws → d' !! r = d !! r.
Proof.
  induction ws as [|w ws IH]; intros d d' Hc Hr; [rewrite commit_nil in Hc; by simplify_eq|].
  rewrite commit_cons in Hc. apply Forall_cons in Hr as [Hw Hr].
  destruct (applyWrite stamp d w) as [d1|] eqn:Ha; [|done].
  rewrite (IH _ _ Hc Hr). by eapply applyWrite_frame.
Qed.

(** An update of one job, alone or after writes elsewhere. *)
Definition updatedJob (us : list update) (j : jobDoc) : jobDoc := foldl (λ j u, updateJob stamp u j) j us.

Lemma update_job d id us j d' :
  d !! JobRef id = Some (DJob j) → applyWrite stamp d (WUpdate (JobRef id) us) = Some d' →
  d' = <[JobRef id := DJob (updatedJob us j)]> d.
Proof. intros Hj Ha. simpl in Ha. rewrite Hj in Ha. simplify_eq/=. by rewrite updates_job. Qed.

(** The documents a move may write. *)
Definition moveRefs (m : move) (r : DocRef) : Prop := ∀ d ws, moveWrites m d = Some ws → Exists (λ w, writeRef w = r) ws.

Lemma step_Some m d d' : step stamp m d = Some d' ↔ ∃ ws, moveWrites m d = Some ws ∧ commit stamp ws d = Some d'.
Proof. unfold step. destruct (moveWrites m d); naive_solver. Qed.

Lemma step_frame m d d' r :
  step stamp m d = Some d' → (∀ ws, moveWrites m d = Some ws → Forall (λ w, writeRef w ≠ r) ws) → d' !! r = d !! r.
Proof. intros (ws & Hw & Hc)%step_Some Hr. eapply commit_frame; eauto. Qed.

(** The job a move writes to, if any. *)
Definition moveJob (m : move) : option string :=
  match m with
  | VInsert doc => Some (jd_ID doc)
  | VClaim id _ _ _ | VRescue _ id | VCancel id _ | VDelete id => Some id
  | VRenew p => Some (hp_ID p)
  | VStart p => Some (ms_ID p)
  | VSettle p _ => Some (sp_ID p)
  | VReschedule p => Some (rs_ID p)
  | _ => None
  end.

Lemma freeKey_refs key r : (∀ k, r ≠ UniqRef k) → Forall (λ w, writeRef w ≠ r) (freeKey key).
Proof. intros Hr. unfold freeKey. case_match; repeat constructor. simpl. intros <-. by eapply Hr. Qed.

(** What a move writes besides a job, by collection. *)
Lemma moveWrites_job m d ws id : moveWrites m d = Some ws → moveJob m ≠ Some id → Forall (λ w, writeRef w ≠ JobRef id) ws.
Proof.
  intros H Hm. destruct m; simpl in *; repeat case_match; simplify_eq/=;
    try (apply onJob_Some in H as (j & _ & _ & ->)); try (repeat constructor; simpl; congruence).
  - unfold insertWrites. constructor; [simpl; congruence|]. case_match; repeat constructor; done.
  - unfold settleWrites. case_match; [repeat constructor; simpl; congruence|].
    apply Forall_app; split; [case_match; [done|by apply freeKey_refs]|repeat constructor; simpl; congruence].
  - constructor; [simpl; congruence|by apply freeKey_refs].
Qed.

Lemma step_other_job m d d' id : step stamp m d = Some d' → moveJob m ≠ Some id → d' !! JobRef id = d !! JobRef id.
Proof. intros Hs Hm. eapply step_frame; [done|]. intros ws Hw. by eapply moveWrites_job. Qed.

(** ** Claims *)

Definition heldDoc (d : Docs) (id workerID : string) (attempt : Z) : Prop :=
  ∃ j, d !! JobRef id = Some (DJob j) ∧ ownsDoc j workerID attempt = true.

(** The moves that end a claim of the job. *)
Definition releasesJob (id : string) (m : move) : bool :=
  match m with
  | VSettle p _ => bool_decide (sp_ID p = id)
  | VRescue _ i | VDelete i => bool_decide (i = id)
  | VReschedule p => bool_decide (rs_ID p = id)
  | _ => false
  end.

Definition claimsJob (id : string) (m : move) : bool :=
  match m with VClaim i _ _ _ => bool_decide (i = id) | _ => false end.

Lemma ownsDoc_true j w a : ownsDoc j w a = true ↔ jd_State j = JobStateRunning ∧ jd_WorkerID j = w ∧ jd_AttemptNum j = a.
Proof. unfold ownsDoc. rewrite !andb_true_iff, !bool_decide_eq_true, Z.eqb_eq. tauto. Qed.

Lemma owned_not_claimable j w a : ownsDoc j w a = true → claimable j = false.
Proof. intros (Hs & _)%ownsDoc_true. unfold claimable. by rewrite Hs. Qed.

(** A held job stays held by the same claim under every move that does not
    release it, and nobody claims or cancels it. *)
Lemma step_held m d d' id w a :
  heldDoc d id w a → step stamp m d = Some d' → releasesJob id m = false → heldDoc d' id w a ∧ claimsJob id m = false.
Proof.
  intros (j & Hj & Ho) Hs Hr. pose proof (owned_not_claimable _ _ _ Ho) as Hc.
  destruct (decide (moveJob m = Some id)) as [Hm|Hm].
  - apply step_Some in Hs as (ws & Hw & Hcm). destruct m; simpl in *; simplify_eq; try by rewrite bool_decide_eq_true_2 in Hr.
    + unfold insertWrites in Hcm. rewrite commit_cons in Hcm. simpl in Hcm. by rewrite Hj in Hcm.
    + apply onJob_Some in Hw as (j' & Hj'%jobAt_Some & Ht & _). congruence.
    + apply onJob_Some in Hw as (j' & Hj'%jobAt_Some & Ht & ->). rewrite commit_one in Hcm.
      apply (update_job _ _ _ j) in Hcm as ->; [|done]. split; [|done]. eexists. rewrite lookup_insert_eq. split; [done|].
      apply ownsDoc_true in Ho. by apply ownsDoc_true.
    + apply onJob_Some in Hw as (j' & Hj'%jobAt_Some & Ht & ->). rewrite commit_one in Hcm.
      apply (update_job _ _ _ j) in Hcm as ->; [|done]. split; [|done]. eexists. rewrite lookup_insert_eq. split; [done|].
      apply ownsDoc_true in Ho. by apply ownsDoc_true.
    + apply onJob_Some in Hw as (j' & Hj'%jobAt_Some & Ht & _). congruence.
  - split; [exists j; split; [|done]; by rewrite (step_other_job _ _ _ _ Hs Hm)|].
    destruct m; try done. simpl in *. apply bool_decide_eq_false. congruence.
Qed.

Lemma run_held ms id w a : ∀ d d', heldDoc d id w a → runMoves stamp ms d = Some d' → forallb (λ m, negb (releasesJob id m)) ms = true →
  heldDoc d' id w a ∧ forallb (λ m, negb (claimsJob id m)) ms = true.
Proof.
  induction ms as [|m ms IH]; intros d d' Hh Hr Hn; simpl in *; [by simplify_eq|].
  destruct (step stamp m d) as [d1|] eqn:Hs; [|done]. apply andb_true_iff in Hn as [Hm Hn]. bool_to_prop.
  destruct (step_held _ _ _ _ _ _ Hh Hs) as [Hh1 Hcl]; [done|].
  destruct (IH _ _ Hh1 Hr Hn) as [? ->]. by rewrite Hcl.
Qed.

Lemma claim_holds d d' id w t lease : step stamp (VClaim id w t lease) d = Some d' →
  ∃ j, d !! JobRef id = Some (DJob j) ∧ heldDoc d' id w (increment (jd_AttemptNum j) 1).
Proof.
  intros (ws & Hw & Hc)%step_Some. simpl in Hw. apply onJob_Some in Hw as (j & Hj%jobAt_Some & Ht & ->).
  exists j. split; [done|]. rewrite commit_one in Hc. apply (update_job _ _ _ j) in Hc as ->; [|done].
  eexists. rewrite lookup_insert_eq. split; [done|]. by apply ownsDoc_true.
Qed.

(** Between two claims of a job there is a release. *)
Lemma claims_released id w1 t1 l1 w2 t2 l2 mid d d' :
  runMoves stamp (VClaim id w1 t1 l1 :: mid ++ [VClaim id w2 t2 l2]) d = Some d' → ∃ m, m ∈ mid ∧ releasesJob id m = true.
Proof.
  cbn [runMoves]. destruct (step stamp (VClaim id w1 t1 l1) d) as [d1|] eqn:H1; [|done].
  apply claim_holds in H1 as (j & _ & Hh). intros Hr.
  destruct (forallb (λ m, negb (releasesJob id m)) mid) eqn:Hn.
  - destruct (run_held _ _ _ _ _ _ Hh Hr) as [_ Hcl].
    + rewrite forallb_app, Hn. done.
    + rewrite forallb_app in Hcl. apply andb_true_iff in Hcl as [_ Hcl]. simpl in Hcl. by rewrite bool_decide_eq_true_2 in Hcl.
  - apply not_true_iff_false in Hn. rewrite forallb_forall in Hn.
    destruct (decide (Exists (λ m, releasesJob id m = true) mid)) as [He|He].
    + apply Exists_exists in He as (m & Hm & Hrel). eauto.
    + exfalso. apply Hn. intros m Hm. apply negb_true_iff, not_true_iff_false. intros Hrel. apply He, Exists_exists.
      exists m. split; [by apply list_elem_of_In|done].
Qed.

(** ** Leases *)

Definition leaseMove (name workerID : string) (m : move) : bool :=
  match m with
  | VElect p _ => bool_decide (le_Name p = name)
  | VResign p => bool_decide (lr_Name p = name) && bool_decide (lr_WorkerID p = workerID)
  | _ => false
  end.

Lemma settle_refs p now j r : (∀ k, r ≠ UniqRef k) → r ≠ JobRef (sp_ID p) → Forall (λ w, writeRef w ≠ r) (settleWrites p now j).
Proof.
  intros Hu Hj. unfold settleWrites. case_match; [by repeat constructor|].
  apply Forall_app; split; [case_match; [done|by apply freeKey_refs]|by repeat constructor].
Qed.

Lemma step_lease m d d' n l :
  d !! LeaderRef n = Some (DLeader l) → step stamp m d = Some d' → leaseMove n (ld_WorkerID l) m = false →
  d' !! LeaderRef n = Some (DLeader l).
Proof.
  intros Hl Hs Hm. rewrite <-Hl. eapply step_frame; [done|]. intros ws Hw.
  destruct m; simpl in *; simplify_eq; try (apply onJob_Some in Hw as (j & _ & _ & ->)); try by repeat constructor.
  - case_match; simplify_eq; by repeat constructor.
  - unfold insertWrites. constructor; [done|]. case_match; by repeat constructor.
  - by apply settle_refs.
  - constructor; [done|]. by apply freeKey_refs.
  - bool_to_prop. repeat case_match; simplify_eq; repeat constructor; simpl; congruence.
  - repeat case_match; simplify_eq. bool_to_prop. repeat constructor. simpl. intros [= Heq]. rewrite Heq in *. simplify_eq.
    rewrite !bool_decide_eq_true_2 in Hm by done. done.
  - repeat case_match; simplify_eq. by repeat constructor.
Qed.

Lemma run_lease ms n l : ∀ d d', d !! LeaderRef n = Some (DLeader l) → runMoves stamp ms d = Some d' →
  forallb (λ m, negb (leaseMove n (ld_WorkerID l) m)) ms = true → d' !! LeaderRef n = Some (DLeader l).
Proof.
  induction ms as [|m ms IH]; intros d d' Hl Hr Hn; simpl in *; [by simplify_eq|].
  destruct (step stamp m d) as [d1|] eqn:Hs; [|done]. apply andb_true_iff in Hn as [Hm Hn]. apply negb_true_iff in Hm.
  eapply IH; [|done..]. by eapply step_lease.
Qed.

Lemma elect_holds p now d d' : step stamp (VElect p now) d = Some d' →
  ∃ l, d' !! LeaderRef (le_Name p) = Some (DLeader l) ∧ ld_WorkerID l = le_WorkerID p ∧ ld_ExpiresAt l = stamp (now + le_TTL p).
Proof.
  intros (ws & Hw & Hc)%step_Some. simpl in Hw. destruct (d !! LeaderRef (le_Name p)) as [doc|] eqn:E.
  - destruct doc; try done. case_match; [done|]. simplify_eq. rewrite commit_one in Hc. simpl in Hc. rewrite E in Hc. simplify_eq/=.
    eexists. by rewrite lookup_insert_eq.
  - simplify_eq. rewrite commit_one in Hc. simpl in Hc. rewrite E in Hc. simplify_eq/=. eexists. by rewrite lookup_insert_eq.
Qed.

Lemma elect_after p now d d' l : step stamp (VElect p now) d = Some d' → d !! LeaderRef (le_Name p) = Some (DLeader l) →
  ld_WorkerID l ≠ le_WorkerID p → ld_ExpiresAt l ≤ now.
Proof.
  intros (ws & Hw & Hc)%step_Some Hl Hne. simpl in Hw. rewrite Hl, (bool_decide_eq_true_2 (ld_WorkerID l ≠ _)) in Hw by done.
  rewrite andb_true_r in Hw. destruct (Before now (ld_ExpiresAt l)) eqn:E; [done|]. by time_to_prop.
Qed.

(** Two elections of different workers, nothing of that lease between them: the
    second comes after the first has run out. *)
Lemma elections_apart p1 now1 p2 now2 mid d d' :
  le_Name p1 = le_Name p2 → le_WorkerID p1 ≠ le_WorkerID p2 →
  runMoves stamp (VElect p1 now1 :: mid ++ [VElect p2 now2]) d = Some d' →
  (∃ m, m ∈ mid ∧ leaseMove (le_Name p1) (le_WorkerID p1) m = true) ∨ stamp (now1 + le_TTL p1) ≤ now2.
Proof.
  intros Hn Hw. cbn [runMoves]. destruct (step stamp (VElect p1 now1) d) as [d1|] eqn:H1; [|done].
  apply elect_holds in H1 as (l & Hl & Hlw & Hle). rewrite runMoves_app.
  destruct (runMoves stamp mid d1) as [d2|] eqn:Hr; [|done]. cbn [runMoves].
  destruct (step stamp (VElect p2 now2) d2) as [d3|] eqn:H2; [|done]. intros _.
  destruct (decide (Exists (λ m, leaseMove (le_Name p1) (le_WorkerID p1) m = true) mid)) as [He|He].
  - left. by apply Exists_exists in He.
  - right. rewrite <-Hle. eapply elect_after; [exact H2| |congruence]. rewrite <-Hn. eapply run_lease; [done..|].
    apply forallb_forall. intros m Hm%list_elem_of_In. apply negb_true_iff, not_true_iff_false. intros Hlm. apply He, Exists_exists.
    exists m. by rewrite <-Hlw.
Qed.
End frame.

(** ** Of the operations *)

Section operations.
Context {FS : Type} `{Firestore FS} `{!FirestoreLaws FS}.
Abbreviation docsOf e := (fs_docs (fv_fs e)).

Lemma effects_did acts m : m ∈ effects acts → m ∈ did acts.
Proof. unfold effects. rewrite list_elem_of_filter. tauto. Qed.

(** A row that a fetch has returned has been claimed by it. *)
Lemma fetched_claim p acts rows row : promised (OFetch p) acts (Ok rows) → row ∈ rows →
  ∃ m, m ∈ did acts ∧ ∃ t l, m = VClaim (ID row) (fp_WorkerID p) t l.
Proof.
  intros [_ Hf] Hin. apply list_elem_of_lookup in Hin as [i Hi].
  destruct (Forall2_lookup_r _ _ _ _ _ Hf Hi) as (m & Hm & t & -> & _). eexists. split; [|eauto].
  apply effects_did. by eapply list_elem_of_lookup_2.
Qed.

(** A move of one operation, then any moves, then a move of a second one. *)
Lemma two_operations (o1 o2 : fsOp) (e1 e2 : FsEnv FS) ms (P1 P2 : move → Prop) :
  keyedDocs (docsOf e1) → runMoves fs_stamp ms (docsOf (execOp o1 e1).1) = Some (docsOf e2) →
  (∀ acts, promised o1 acts (execOp o1 e1).2 → ∃ m, m ∈ did acts ∧ P1 m) →
  (∀ acts, promised o2 acts (execOp o2 e2).2 → ∃ m, m ∈ did acts ∧ P2 m) →
  ∃ pre m1 mid m2 post, P1 m1 ∧ P2 m2 ∧
    runMoves fs_stamp (pre ++ m1 :: mid ++ m2 :: post) (docsOf e1) = Some (docsOf (execOp o2 e2).1).
Proof. intros Hk. apply (does_two (step fs_stamp) (λ e, docsOf e) keyedDocs (step_keyed fs_stamp)); [done|apply operation_does..]. Qed.

(** A claim is exclusive on Firestore, too.  If two fetches, of any workers
    and with anything happening meanwhile, both return a job, then the job has been
    released in between: settled, rescued, deleted or rescheduled. *)
Theorem firestore_claims_exclusive p1 p2 (e1 e2 : FsEnv FS) ms rows1 rows2 row1 row2 :
  keyedDocs (docsOf e1) →
  (execOp (OFetch p1) e1).2 = Ok rows1 → row1 ∈ rows1 →
  runMoves fs_stamp ms (docsOf (execOp (OFetch p1) e1).1) = Some (docsOf e2) →
  (execOp (OFetch p2) e2).2 = Ok rows2 → row2 ∈ rows2 → ID row1 = ID row2 →
  ∃ pre mid post t1 l1 t2 l2,
    runMoves fs_stamp (pre ++ VClaim (ID row1) (fp_WorkerID p1) t1 l1 :: mid ++ VClaim (ID row1) (fp_WorkerID p2) t2 l2 :: post)
      (docsOf e1) = Some (docsOf (execOp (OFetch p2) e2).1) ∧
    ∃ m, m ∈ mid ∧ releasesJob (ID row1) m = true.
Proof.
  intros Hk Ha1 Hin1 Hms Ha2 Hin2 Hid.
  edestruct (two_operations (OFetch p1) (OFetch p2) e1 e2 ms (λ m, ∃ t l, m = VClaim (ID row1) (fp_WorkerID p1) t l)
    (λ m, ∃ t l, m = VClaim (ID row1) (fp_WorkerID p2) t l)) as (pre & m1 & mid & m2 & post & (t1 & l1 & ->) & (t2 & l2 & ->) & Hr); try done.
  - intros acts Hp. rewrite Ha1 in Hp. apply (fetched_claim _ _ _ _ Hp Hin1).
  - intros acts Hp. rewrite Ha2 in Hp. rewrite Hid. apply (fetched_claim _ _ _ _ Hp Hin2).
  - exists pre, mid, post, t1, l1, t2, l2. split; [done|]. rewrite runMoves_app in Hr. case_match; [|done].
    replace (VClaim _ _ t1 l1 :: mid ++ VClaim _ _ t2 l2 :: post) with
      ((VClaim (ID row1) (fp_WorkerID p1) t1 l1 :: mid ++ [VClaim (ID row1) (fp_WorkerID p2) t2 l2]) ++ post) in Hr
      by (simpl; by rewrite <-app_assoc).
    rewrite runMoves_app in Hr. case_match; [|done]. by eapply claims_released.
Qed.

(** An unexpired lease is not taken over on Firestore.  If two elections of
    different workers for one lease both succeed, with anything happening
    meanwhile, then the second has read a time that is not before the expiry the
    first has stored, unless the first worker resigned or somebody else has been
    elected in between; however often the service ran either transaction again. *)
Theorem firestore_lease_exclusive p1 p2 (e1 e2 : FsEnv FS) ms :
  keyedDocs (docsOf e1) → le_Name p1 = le_Name p2 → le_WorkerID p1 ≠ le_WorkerID p2 →
  (execOp (OElect p1) e1).2 = (true, None) →
  runMoves fs_stamp ms (docsOf (execOp (OElect p1) e1).1) = Some (docsOf e2) →
  (execOp (OElect p2) e2).2 = (true, None) →
  ∃ pre mid post now1 now2,
    runMoves fs_stamp (pre ++ VElect p1 now1 :: mid ++ VElect p2 now2 :: post) (docsOf e1) = Some (docsOf (execOp (OElect p2) e2).1) ∧
    ((∃ m, m ∈ mid ∧ leaseMove (le_Name p1) (le_WorkerID p1) m = true) ∨ fs_stamp (now1 + le_TTL p1) ≤ now2).
Proof.
  intros Hk Hn Hw Ha1 Hms Ha2.
  edestruct (two_operations (OElect p1) (OElect p2) e1 e2 ms (λ m, ∃ now, m = VElect p1 now) (λ m, ∃ now, m = VElect p2 now))
    as (pre & m1 & mid & m2 & post & (t1 & ->) & (t2 & ->) & Hr); try done.
  - intros acts Hp. rewrite Ha1 in Hp. destruct Hp as (now & ->). exists (VElect p1 now). split; [by left|eauto].
  - intros acts Hp. rewrite Ha2 in Hp. destruct Hp as (now & ->). exists (VElect p2 now). split; [by left|eauto].
  - exists pre, mid, post, t1, t2. split; [done|]. rewrite runMoves_app in Hr. case_match; [|done].
    replace (VElect p1 t1 :: mid ++ VElect p2 t2 :: post) with ((VElect p1 t1 :: mid ++ [VElect p2 t2]) ++ post) in Hr
      by (simpl; by rewrite <-app_assoc).
    rewrite runMoves_app in Hr. case_match; [|done]. by eapply elections_apart.
Qed.
End operations.
