(* ===== verification/FirestoreKeys.v ===== *)
(** * driver/firestore: unique keys

    The document of a unique key stands for the job that holds it.  As long as
    nobody frees a key that another job holds, or brings a finished job back, a key
    has one live job at most. *)

From S2P Require Import Prelude GoBase Json Codec Driver Memory Firestore FirestoreLaws FirestoreRefine FirestoreSafety.
From Stdlib Require Import ZArith Lia.

(** A job that keeps its key: not finished, or the key is permanent. *)
Definition liveDoc (j : jobDoc) : bool := negb (isTerminal (jd_State j)) || IsPermanentUniqueKey (jd_UniqueKey j).

Definition keysHeld (d : Docs) : Prop :=
  ∀ id j, d !! JobRef id = Some (DJob j) → jd_UniqueKey j ≠ "" → liveDoc j = true →
    d !! UniqRef (jd_UniqueKey j) = Some (DUniq id).

Definition oneLiveJob (d : Docs) : Prop :=
  ∀ id1 id2 j1 j2, d !! JobRef id1 = Some (DJob j1) → d !! JobRef id2 = Some (DJob j2) →
    jd_UniqueKey j1 = jd_UniqueKey j2 → jd_UniqueKey j1 ≠ "" → liveDoc j1 = true → liveDoc j2 = true → id1 = id2.

Lemma keysHeld_one d : keysHeld d → oneLiveJob d.
Proof.
  intros Hk id1 id2 j1 j2 H1 H2 Heq Hne Hl1 Hl2. pose proof (Hk _ _ H1 Hne Hl1) as Hu1.
  rewrite Heq in *. pose proof (Hk _ _ H2 Hne Hl2) as Hu2. congruence.
Qed.

Lemma keysHeld_empty : keysHeld ∅.
Proof. intros id j Hj. by rewrite lookup_empty in Hj. Qed.

(** What a program must not do: free the key of a live job, bring a finished job
    with a key back, settle a job into a state that is neither. *)
Definition freeable (key : string) (d : Docs) : bool :=
  forallb (λ kv, match kv.2 with DJob j => negb (bool_decide (jd_UniqueKey j = key) && liveDoc j) | _ => true end) (map_to_list d).

Definition orderlyMove (m : move) (d : Docs) : bool :=
  match m with
  | VSettle p _ => sp_Yield p || bool_decide (sp_State p = JobStateRetryable) || isTerminal (sp_State p)
  | VFreeKey key => freeable key d
  | VReschedule p => match jobAt d (rs_ID p) with Some j => bool_decide (jd_UniqueKey j = "") || liveDoc j | None => true end
  | _ => true
  end.

Section keys.
Context (stamp : Instant → Instant).

Fixpoint orderlyRun (ms : list move) (d : Docs) : bool :=
  match ms with
  | [] => true
  | m :: ms' => orderlyMove m d && match step stamp m d with Some d' => orderlyRun ms' d' | None => true end
  end.

Lemma freeable_spec key d id j : freeable key d = true → d !! JobRef id = Some (DJob j) → jd_UniqueKey j = key → liveDoc j = false.
Proof.
  unfold freeable. rewrite forallb_forall. intros Hf Hj%elem_of_map_to_list%list_elem_of_In Hkey.
  specialize (Hf _ Hj). simpl in Hf. rewrite bool_decide_eq_true_2 in Hf by done. by apply negb_true_iff in Hf.
Qed.

Lemma keys_update d id j us :
  keysHeld d → d !! JobRef id = Some (DJob j) →
  (jd_UniqueKey j ≠ "" → liveDoc (updatedJob stamp us j) = true → liveDoc j = true) →
  keysHeld (<[JobRef id := DJob (updatedJob stamp us j)]> d).
Proof.
  intros Hk Hj Hl id' j'. rewrite lookup_insert_Some, lookup_insert_ne by done.
  intros [[[= <-] [= <-]]|[_ Hj']]; [|by apply Hk].
  destruct (updates_same stamp us j) as (_ & _ & Hu). fold (updatedJob stamp us j) in Hu. rewrite Hu. auto.
Qed.

Lemma keys_free d k : keysHeld d → (∀ id j, d !! JobRef id = Some (DJob j) → jd_UniqueKey j = k → liveDoc j = false) →
  keysHeld (delete (UniqRef k) d).
Proof.
  intros Hk Hf id j. rewrite lookup_delete_ne by done. intros Hj Hne Hl.
  rewrite lookup_delete_ne; [by apply Hk|]. intros [= Heq]. rewrite (Hf id j) in Hl; done.
Qed.

(** The job that held the key has finished. *)
Lemma keys_finish d id j us :
  keysHeld d → d !! JobRef id = Some (DJob j) → liveDoc j = true → freesKey (jd_UniqueKey j) = true →
  liveDoc (updatedJob stamp us j) = false →
  keysHeld (delete (UniqRef (jd_UniqueKey j)) (<[JobRef id := DJob (updatedJob stamp us j)]> d)).
Proof.
  intros Hk Hj Hl Hf Hn. unfold freesKey in Hf. bool_to_prop.
  apply keys_free; [by apply keys_update|].
  intros id' j'. rewrite lookup_insert_Some. intros [[[= <-] [= <-]]|[Hne Hj']] Hkey; [done|].
  apply not_true_iff_false. intros Hl'. apply Hne. f_equal. eapply (keysHeld_one d Hk); eauto; congruence.
Qed.

(** Documents other than jobs and keys do not matter. *)
Lemma keys_frame d d' : keysHeld d → (∀ id, d' !! JobRef id = d !! JobRef id) → (∀ k, d' !! UniqRef k = d !! UniqRef k) → keysHeld d'.
Proof. intros Hk Hj Hu id j. rewrite Hj, Hu. apply Hk. Qed.

Lemma commit_update_job d id j us d' :
  d !! JobRef id = Some (DJob j) → commit stamp [WUpdate (JobRef id) us] d = Some d' →
  d' = <[JobRef id := DJob (updatedJob stamp us j)]> d.
Proof. intros Hj. rewrite commit_one. by apply update_job. Qed.

Lemma live_of_state j s : jd_State j = s → isTerminal s = false → liveDoc j = true.
Proof. intros <- Ht. unfold liveDoc. by rewrite Ht. Qed.

Lemma claimable_live j : claimable j = true → liveDoc j = true.
Proof. intros [Hs|Hs]%orb_true_iff; bool_to_prop; by eapply live_of_state. Qed.

Lemma running_live j : jd_State j = JobStateRunning → liveDoc j = true.
Proof. intros Hs. by eapply live_of_state. Qed.

Lemma commit_insert d doc d' :
  commit stamp (insertWrites doc) d = Some d' →
  d !! JobRef (jd_ID doc) = None ∧ (jd_UniqueKey doc ≠ "" → d !! UniqRef (jd_UniqueKey doc) = None) ∧
  ∃ j, d' !! JobRef (jd_ID doc) = Some (DJob j) ∧ jd_UniqueKey j = jd_UniqueKey doc ∧
    (∀ id, id ≠ jd_ID doc → d' !! JobRef id = d !! JobRef id) ∧
    (∀ k, d' !! UniqRef k = if bool_decide (k = jd_UniqueKey doc ∧ k ≠ "") then Some (DUniq (jd_ID doc)) else d !! UniqRef k).
Proof.
  unfold insertWrites. rewrite commit_cons. cbn [applyWrite]. destruct (d !! JobRef (jd_ID doc)) eqn:E; [done|].
  case_bool_decide as Hkey; intros Hc.
  - rewrite commit_one in Hc. cbn [applyWrite] in Hc. rewrite lookup_insert_ne in Hc by done.
    destruct (d !! UniqRef (jd_UniqueKey doc)) eqn:Eu; [done|]. simplify_eq. split_and!; [done..|].
    eexists. rewrite lookup_insert_ne, lookup_insert_eq by done. split_and!; [done..| |].
    + intros id Hid. rewrite !lookup_insert_ne by congruence. done.
    + intros k. case_bool_decide as Hk; [destruct Hk as [-> _]; by rewrite lookup_insert_eq|].
      rewrite !lookup_insert_ne; [done|done|]. intros [= <-]. by apply Hk.
  - rewrite commit_nil in Hc. simplify_eq. split_and!; [done|by intros ?|].
    eexists. rewrite lookup_insert_eq. split_and!; [done..| |].
    + intros id Hid. by rewrite lookup_insert_ne by congruence.
    + intros k. rewrite lookup_insert_ne by done. case_bool_decide as Hk; [|done]. destruct Hk as [-> ?]. done.
Qed.

Lemma settle_keys d p now j d' :
  keysHeld d → d !! JobRef (sp_ID p) = Some (DJob j) → canSettle p j = true →
  sp_Yield p || bool_decide (sp_State p = JobStateRetryable) || isTerminal (sp_State p) = true →
  commit stamp (settleWrites p now j) d = Some d' → keysHeld d'.
Proof.
  intros Hk Hj Hc Ho Hs. unfold canSettle in Hc. bool_to_prop.
  assert (liveDoc j = true) as Hl by by apply running_live.
  unfold settleWrites in Hs. destruct (sp_Yield p).
  { apply (commit_update_job _ _ j) in Hs as ->; [|done]. by apply keys_update. }
  destruct (bool_decide (sp_State p = JobStateRetryable)) eqn:Hr; simpl in Ho.
  { apply (commit_update_job _ _ j) in Hs as ->; [|done]. by apply keys_update. }
  unfold freeKey in Hs. destruct (freesKey (jd_UniqueKey j)) eqn:Hf.
  - simpl app in Hs. rewrite commit_cons in Hs. cbn [applyWrite] in Hs.
    eapply commit_update_job in Hs; [|by rewrite lookup_delete_ne]. subst d'. rewrite <-delete_insert_ne by done.
    apply keys_finish; [done..|]. unfold stateUpdates, errorUpdates. rewrite Hr.
    unfold freesKey in Hf. bool_to_prop. unfold liveDoc.
    match goal with |- context [updatedJob stamp ?us j] => destruct (updates_same stamp us j) as (_ & _ & Hu) end.
    unfold updatedJob. rewrite Hu. destruct (sp_Err p); simpl; rewrite Ho; simpl; done.
  - apply (commit_update_job _ _ j) in Hs as ->; [|done]. by apply keys_update.
Qed.

Lemma step_keys m d d' : keysHeld d → orderlyMove m d = true → step stamp m d = Some d' → keysHeld d'.
Proof.
  intros Hk Ho Hs. pose proof Hs as (ws & Hw & Hc)%step_Some. destruct m; simpl in Hw;
    try match type of Hw with onJob _ _ _ _ = _ => apply onJob_Some in Hw as (j & Hj%jobAt_Some & Ht & ->) end.
  - case_bool_decide; [|done]. injection Hw as <-. rewrite commit_nil in Hc. by injection Hc as <-.
  - injection Hw as <-. apply commit_insert in Hc as (Hn & Hun & j & Hj & Hkey & Hoth & Hu). intros id j' Hj' Hne Hl.
    rewrite Hu. destruct (decide (id = jd_ID doc)) as [->|Hid].
    + rewrite Hj in Hj'. simplify_eq. rewrite bool_decide_eq_true_2 by (split; congruence). done.
    + rewrite Hoth in Hj' by done. pose proof (Hk _ _ Hj' Hne Hl) as Hheld. case_bool_decide as Hb; [|done].
      destruct Hb as [Hb _]. rewrite Hb in *. rewrite Hun in Hheld by done. done.
  - injection Hw as <-. rewrite commit_one in Hc. eapply keys_frame; [done|..]; intros x; eapply applyWrite_frame; done.
  - injection Hw as <-. rewrite commit_one in Hc. eapply keys_frame; [done|..]; intros x; eapply applyWrite_frame; done.
  - apply (commit_update_job _ _ j) in Hc as ->; [|done]. apply keys_update; [done..|]. intros _ _. by apply claimable_live.
  - apply (commit_update_job _ _ j) in Hc as ->; [|done]. apply keys_update; [done..|]. intros _ _. apply running_live.
    unfold isStuckDoc in Ht. by bool_to_prop.
  - apply (commit_update_job _ _ j) in Hc as ->; [|done]. apply keys_update; done.
  - apply (commit_update_job _ _ j) in Hc as ->; [|done]. apply keys_update; done.
  - by eapply settle_keys.
  - pose proof (claimable_live _ Ht) as Hl. unfold cancelWrites in Hc. rewrite commit_cons in Hc.
    destruct (applyWrite stamp d _) as [d1|] eqn:Ha; [|done]. apply (update_job _ _ _ _ j) in Ha; [|done]. subst d1.
    unfold freeKey in Hc. destruct (freesKey (jd_UniqueKey j)) eqn:Hf.
    + rewrite commit_one in Hc. simpl in Hc. simplify_eq. apply (keys_finish d id j [UState JobStateCancelled; UFinalizedAt (UTC now); UVersion 1]); [done..|].
      unfold freesKey in Hf. bool_to_prop. unfold liveDoc. simpl. done.
    + rewrite commit_nil in Hc. simplify_eq. apply (keys_update d id j [UState JobStateCancelled; UFinalizedAt (UTC now); UVersion 1]); done.
  - injection Hw as <-. rewrite commit_one in Hc. simpl in Hc. simplify_eq. intros i j. rewrite lookup_delete_Some, lookup_delete_ne by done.
    intros [_ Hj]. by apply Hk.
  - injection Hw as <-. rewrite commit_one in Hc. simpl in Hc. simplify_eq. apply keys_free; [done|]. intros i j. by apply freeable_spec.
  - injection Hw as <-. rewrite commit_one in Hc. destruct (d !! JobRef (rs_ID params)) as [doc|] eqn:E.
    2: { simpl in Hc. by rewrite E in Hc. }
    destruct doc as [j| | | | |].
    1: { apply (update_job _ _ _ _ j) in Hc as ->; [|done]. apply keys_update; [done..|]. simpl in Ho.
         rewrite (proj2 (jobAt_Some d (rs_ID params) j) E) in Ho. intros Hne _. apply orb_true_iff in Ho as [?|?]; [by bool_to_prop|done]. }
    all: simpl in Hc; rewrite E in Hc; simplify_eq/=; intros i j'; rewrite lookup_insert_Some, lookup_insert_ne by done;
      (intros [[_ ?]|[_ Hj']]; [done|by apply Hk]).
  - eapply keys_frame; [done|..]; intros x; (eapply step_frame; [exact Hs|]); intros ws' Hw'; simpl in Hw'; repeat case_match; simplify_eq; by repeat constructor.
  - eapply keys_frame; [done|..]; intros x; (eapply step_frame; [exact Hs|]); intros ws' Hw'; simpl in Hw'; repeat case_match; simplify_eq; by repeat constructor.
  - eapply keys_frame; [done|..]; intros x; (eapply step_frame; [exact Hs|]); intros ws' Hw'; simpl in Hw'; repeat case_match; simplify_eq; by repeat constructor.
  - eapply keys_frame; [done|..]; intros x; (eapply step_frame; [exact Hs|]); intros ws' Hw'; simpl in Hw'; repeat case_match; simplify_eq; by repeat constructor.
Qed.

(** C18: a unique key has one live job on Firestore, under three conditions on the
    moves of all programs: no move frees the key of a live job, none reschedules a
    finished job that has a key, and none settles a job into a state that is neither
    final nor retryable, unless it yields the job.  Then every live job holds its key,
    and no two live jobs have the same. *)
Theorem firestore_keys_unique ms d d' :
  keysHeld d → orderlyRun ms d = true → runMoves stamp ms d = Some d' → keysHeld d' ∧ oneLiveJob d'.
Proof.
  intros Hk. assert (orderlyRun ms d = true → runMoves stamp ms d = Some d' → keysHeld d'); [|naive_solver eauto using keysHeld_one].
  revert d Hk. induction ms as [|m ms IH]; intros d Hk Ho Hr; simpl in *; [by simplify_eq|].
  apply andb_true_iff in Ho as [Hm Ho]. destruct (step stamp m d) as [d1|] eqn:Hs; [|done].
  eapply IH; [|done..]. by eapply step_keys.
Qed.
End keys.
