(* ===== verification/FirestoreDemo.v ===== *)
(** * driver/firestore: a concrete service, runs on it, and the interfaces

    A concrete service over a map of documents that keeps the laws.  It never fails;
    [sm_races] says, transaction by transaction, what other programs do between a first
    run of the transaction's function and its last one.

    Then the theorems about the backend applied to concrete runs, and four runs that
    show what does not hold: a lost race reported as won, a claim handed out under
    a stale attempt number, the key of a live job freed by deleting another one,
    and claims that nobody gets to know of.

    Last, the Firestore backend as the store of a client ([EnqueueStore]), of a worker
    pool ([WorkerStore], with what a pool relies on, [LawfulFetch]), of the rate
    limiter ([CursorStore]) and of the periodic scheduler ([LeaseStore]): what is
    proved of them over any store holds on this one.  It is no [CursorStoreLaws]: one
    of the runs is a compare-and-swap that reports a lost race as won. *)

From S2P Require Import Prelude GoBase Json Codec Driver RateLimit Client Cron WorkerRun WorkerMachine.
From S2P Require Import Memory Firestore FirestoreLaws FirestoreRefine FirestoreSafety FirestoreKeys.
From Stdlib Require Import ZArith Lia.

(** * The concrete service *)

Record Sim := mkSim { sm_docs : Docs; sm_ids : nat; sm_races : list (list move) }.

Definition simStamp (t : Instant) : Instant := Truncate t 1000.
Definition simCode (e : error) : Code :=
  match e with
  | ENew msg => if bool_decide (msg = "not found") then NotFound else if bool_decide (msg = "already exists") then AlreadyExists else CodeOther
  | _ => CodeOther
  end.

Definition simGet (d : Docs) (r : DocRef) : result document :=
  match d !! r with Some doc => Ok doc | None => Err (ENew "not found") end.

Definition simWrite (s : Sim) (w : write) : Sim * option error :=
  match applyWrite simStamp (sm_docs s) w with
  | Some d => (mkSim d (sm_ids s) (sm_races s), None)
  | None => (s, Some (match w with WCreate _ _ => ENew "already exists" | _ => ENew "not found" end))
  end.

Definition runAtLess (a b : DocRef * document) : bool := runAtOf a.2 <? runAtOf b.2.
#[export] Instance runAtLess_strict_weak : StrictWeak runAtLess.
Proof. unfold runAtLess. split; intros *; rewrite ?Z.ltb_lt, ?Z.ltb_ge; lia. Qed.

Definition simQuery (d : Docs) (q : Query) : list (DocRef * document) :=
  let all := filter (λ kv, selects q kv.1 kv.2 = true) (map_to_list d) in
  let sorted := if fq_OrderByRunAt q then sort_by runAtLess all else all in
  match fq_Limit q with Some n => take (Z.to_nat n) sorted | None => sorted end.

(** The last run of a transaction's function, and the commit. *)
Definition simRun {L} (s : Sim) (f : reader → L → L * result (list write)) (l : L) : Sim * L * option error :=
  let '(l', r) := f (simGet (sm_docs s)) l in
  match r with
  | Err e => (s, l', Some e)
  | Ok ws => match commit simStamp ws (sm_docs s) with
             | Some d => (mkSim d (sm_ids s) (sm_races s), l', None)
             | None => (s, l', Some (ENew "aborted"))
             end
  end.

Definition simRunTx {L} (s : Sim) (f : reader → L → L * result (list write)) (l : L) : Sim * L * option error :=
  match sm_races s with
  | [] => simRun s f l
  | [] :: rest => simRun (mkSim (sm_docs s) (sm_ids s) rest) f l
  | ms :: rest =>
      match runMoves simStamp ms (sm_docs s) with
      | Some d => simRun (mkSim d (sm_ids s) rest) f (f (simGet (sm_docs s)) l).1
      | None => simRun (mkSim (sm_docs s) (sm_ids s) rest) f l
      end
  end.

#[export] Instance simFirestore : Firestore Sim := {|
  fs_code := simCode;
  fs_decodeErr _ := ENew "cannot decode";
  fs_readAfterWrite := ENew "read after write in transaction";
  fs_get s r := (s, simGet (sm_docs s) r);
  fs_write := simWrite;
  fs_query s q := (s, Ok (simQuery (sm_docs s) q));
  fs_count s q := (s, Ok (Some (Z.of_nat (length (simQuery (sm_docs s) q)))));
  fs_runTx := @simRunTx;
  fs_uuid s := (mkSim (sm_docs s) (S (sm_ids s)) (sm_races s), "id" +:+ FormatInt (Z.of_nat (sm_ids s)))
|}.

(** ** The laws *)

Lemma new_foreign msg : foreignErr (ENew msg).
Proof. by repeat split. Qed.

Lemma simGet_reads d : reads d (simGet d).
Proof.
  intros r. unfold simGet. destruct (d !! r) as [doc|] eqn:E; [done|]. split; [apply new_foreign|done].
Qed.

Lemma simQuery_elem d q r doc : (r, doc) ∈ simQuery d q → d !! r = Some doc ∧ selects q r doc = true.
Proof.
  unfold simQuery. intros Hin.
  assert ((r, doc) ∈ filter (λ kv : DocRef * document, selects q kv.1 kv.2 = true) (map_to_list d)) as Hf.
  { case_match; [apply elem_of_take in Hin as (i & Hin%list_elem_of_lookup_2 & _)|]; (case_match; [|done]); by rewrite sort_by_perm in Hin. }
  apply list_elem_of_filter in Hf as [Hs Hm]. by apply elem_of_map_to_list in Hm.
Qed.

Lemma sorted_split (A : Type) (less : A → A → bool) `{!StrictWeak less} l n x :
  x ∈ drop n (sort_by less l) → Forall (λ y, less x y = false) (take n (sort_by less l)).
Proof.
  intros Hx. pose proof (sort_by_strongly_sorted less l) as Hs. rewrite <-(take_drop n (sort_by less l)) in Hs.
  apply Forall_forall. intros y Hy. eapply StronglySorted_app_1_elem_of in Hs; [|done..]. done.
Qed.

Lemma simQuery_answer d q : queryAnswer q d (simQuery d q).
Proof.
  assert (NoDup (filter (λ kv : DocRef * document, selects q kv.1 kv.2 = true) (map_to_list d)).*1) as Hnd.
  { eapply sublist_NoDup; [apply (NoDup_fst_map_to_list d)|]. apply fmap_sublist, sublist_filter. }
  split.
  - unfold simQuery. case_match; [eapply sublist_NoDup; [|apply fmap_sublist, sublist_take]|]; (case_match; [|done]); by rewrite sort_by_perm.
  - apply simQuery_elem.
  - intros n Hn. unfold simQuery. rewrite Hn, length_take. lia.
  - intros r doc Hd Hs. unfold simQuery.
    set (all := filter _ _). assert ((r, doc) ∈ all) as Hin by (apply list_elem_of_filter; by rewrite elem_of_map_to_list).
    set (sorted := if fq_OrderByRunAt q then _ else _).
    assert ((r, doc) ∈ sorted) as Hso by (unfold sorted; case_match; by rewrite ?sort_by_perm).
    destruct (fq_Limit q) as [n|] eqn:Hn; [|by left].
    rewrite <-(take_drop (Z.to_nat n) sorted) in Hso. apply elem_of_app in Hso as [?|Hdr]; [by left|right].
    exists n. split; [done|]. split.
    + rewrite length_take. assert (0 < length (drop (Z.to_nat n) sorted))%nat as Hl by (destruct (drop _ sorted); [by apply not_elem_of_nil in Hdr|simpl; lia]).
      rewrite length_drop in Hl. lia.
    + intros Ho. unfold sorted in *. rewrite Ho in *. eapply Forall_impl; [by eapply sorted_split, Hdr; apply _|].
      intros y Hy. unfold runAtLess in Hy. simpl in Hy. by bool_to_prop.
Qed.

Lemma simRun_law {L} s (f : reader → L → L * result (list write)) l :
  ∃ d', others simStamp d' (sm_docs (simRun s f l).1.1) ∧ (simRun s f l).1.2 = (f (simGet (sm_docs s)) l).1 ∧
    match (f (simGet (sm_docs s)) l).2 with
    | Err e => (simRun s f l).2 = Some e ∧ d' = sm_docs s
    | Ok ws =>
        match (simRun s f l).2 with
        | None => commit simStamp ws (sm_docs s) = Some d'
        | Some e => foreignErr e ∧ (d' = sm_docs s ∨ commit simStamp ws (sm_docs s) = Some d')
        end
    end.
Proof.
  unfold simRun. destruct (f (simGet (sm_docs s)) l) as [l' [ws|e]]; simpl.
  - destruct (commit simStamp ws (sm_docs s)) as [d|] eqn:E; simpl; eexists; (split; [reflexivity|]); simpl; [done|].
    split; [done|]. split; [apply new_foreign|by left].
  - eexists. split; [reflexivity|done].
Qed.

#[export] Program Instance simLaws : FirestoreLaws Sim := {|
  fs_stamp := simStamp;
  fs_docs := sm_docs
|}.
Next Obligation. intros. apply new_foreign. Qed.
Next Obligation. intros. apply new_foreign. Qed.
Next Obligation. intros. simpl. reflexivity. Qed.
Next Obligation.
  intros s r. exists (sm_docs s), (simGet (sm_docs s)). simpl. split_and!; [reflexivity..|apply simGet_reads|done].
Qed.
Next Obligation.
  intros s q. exists (sm_docs s). simpl. split_and!; [reflexivity..|apply simQuery_answer].
Qed.
Next Obligation.
  intros s q. exists (sm_docs s). simpl. split_and!; [reflexivity..|]. eexists. split; [apply simQuery_answer|done].
Qed.
Next Obligation.
  intros s w. simpl. unfold simWrite. destruct (applyWrite simStamp (sm_docs s) w) as [d|] eqn:E; simpl.
  - exists (sm_docs s), d. split_and!; [reflexivity..|done].
  - exists (sm_docs s), (sm_docs s). split; [reflexivity|]. split; [reflexivity|]. split; [destruct w; apply new_foreign|]. auto.
Qed.
Next Obligation.
  intros L s f l. simpl. unfold simRunTx.
  assert (∀ races, ∃ gets d d',
    Forall (λ get, ∃ d0, others simStamp (sm_docs s) d0 ∧ reads d0 get) gets ∧
    others simStamp (sm_docs s) d ∧ others simStamp d' (sm_docs (simRun (mkSim (sm_docs s) (sm_ids s) races) f l).1.1) ∧
    let l0 := captured f gets l in
    let '(l', err) := ((simRun (mkSim (sm_docs s) (sm_ids s) races) f l).1.2, (simRun (mkSim (sm_docs s) (sm_ids s) races) f l).2) in
    (l' = l0 ∧ d' = d ∧ ∃ e, err = Some e ∧ foreignErr e) ∨
    ∃ get, reads d get ∧ l' = (f get l0).1 ∧
      match (f get l0).2 with
      | Err e => err = Some e ∧ d' = d
      | Ok ws => match err with
                 | None => commit simStamp ws d = Some d'
                 | Some e => foreignErr e ∧ (d' = d ∨ commit simStamp ws d = Some d')
                 end
      end) as Hplain.
  { intros races. destruct (simRun_law (mkSim (sm_docs s) (sm_ids s) races) f l) as (d' & Ho & Hl & Hr).
    exists [], (sm_docs s), d'. split_and!; [constructor|reflexivity|done|]. right. exists (simGet (sm_docs s)).
    split; [apply simGet_reads|done]. }
  destruct (sm_races s) as [|[|m ms] rest] eqn:Er.
  - specialize (Hplain []). rewrite <-Er in Hplain. by destruct s.
  - apply Hplain.
  - destruct (runMoves simStamp (m :: ms) (sm_docs s)) as [d|] eqn:Em; [|apply Hplain].
    destruct (simRun_law (mkSim d (sm_ids s) rest) f (f (simGet (sm_docs s)) l).1) as (d' & Ho & Hl & Hr).
    exists [simGet (sm_docs s)], d, d'. split_and!.
    + constructor; [|constructor]. exists (sm_docs s). split; [reflexivity|apply simGet_reads].
    + by exists (m :: ms).
    + done.
    + right. exists (simGet d). split; [apply simGet_reads|done].
Qed.

(** * Runs *)

Definition noon : Instant := unixEpoch + 20000 * 24 * Hour.
Definition simEnv (d : Docs) (now : Instant) (races : list (list move)) : FsEnv Sim :=
  mkFsEnv (mkSim d 0 races) (frozenClock now) (λ _, mkUserTx (simGet d) []).

Definition simParams (key : string) : JobInsertParams := mkJobInsertParams "mail" "email" "{}" 0 0 key 3 Minute [] "".
Definition simFetch (w : string) : FetchParams := mkFetchParams "mail" 5 w Minute.
Definition demoOutcome (state w : string) (attempt : Z) : JobSetStateParams :=
  mkJobSetStateParams "id0" state None None 0 0 w attempt false.

(** The documents after one insert, after the claim that follows it, and after the rescue of that. *)
Definition insertedEnv : FsEnv Sim := (execOp (OInsert [simParams "k"]) (simEnv ∅ noon [])).1.
Definition claimedEnv : FsEnv Sim := (execOp (OFetch (simFetch "w1")) insertedEnv).1.
Definition rescueParams : JobRescueParams := mkJobRescueParams "mail" (noon + Hour) noon.
Definition rescuedDocs : Docs := default ∅ (step simStamp (VRescue rescueParams "id0") (sm_docs (fv_fs claimedEnv))).

Lemma keyed_run ms d : runMoves simStamp ms ∅ = Some d → keyedDocs d.
Proof. apply runMoves_keyed. intros id j. by rewrite lookup_empty. Qed.

Lemma keyed_empty : keyedDocs ∅.
Proof. intros id j. by rewrite lookup_empty. Qed.

(** Equations between documents are decided, not compared as terms. *)
Lemma docs_decided (x y : option Docs) : bool_decide (x = y) = true → x = y.
Proof. apply bool_decide_eq_true. Qed.
Ltac decide_docs := apply docs_decided; vm_compute; reflexivity.

Lemma insertedEnv_keyed : keyedDocs (fs_docs (fv_fs insertedEnv)).
Proof. apply (keyed_run [VInsert (newDoc (simParams "k") "id0" noon); VQueueNew "mail" noon]). vm_compute. reflexivity. Qed.

(** ** Witnesses *)

Definition demoProgram : list fsOp :=
  [OInsert [simParams "k"; simParams "k"]; OFetch (simFetch "w1"); OSetState (demoOutcome JobStateCompleted "w2" 1);
   OSetState (demoOutcome JobStateCompleted "w1" 1); OStats "mail"; ODelete "id0"].

Lemma operations_refine_moves_witness :
  keyedDocs ∅ ∧
  ∃ trs, runMoves simStamp (trMoves (mjoin trs)) ∅ = Some (sm_docs (fv_fs (execAll demoProgram (simEnv ∅ noon [])).1)) ∧
    Forall2 (λ tr (oa : {o : fsOp & ans o}), promised (projT1 oa) (trOwn tr) (projT2 oa)) trs (execAll demoProgram (simEnv ∅ noon [])).2 ∧
    (λ oa : {o : fsOp & ans o}, projT1 oa) <$> (execAll demoProgram (simEnv ∅ noon [])).2 = demoProgram.
Proof. split; [exact keyed_empty|]. exact (operations_refine_moves demoProgram (simEnv ∅ noon []) keyed_empty). Defined.

Definition claimedRows (e : FsEnv Sim) (w : string) : list JobRow :=
  match (execOp (OFetch (simFetch w)) e).2 with Ok rows => rows | Err _ => [] end.
Definition firstRow (rows : list JobRow) : JobRow := default (newRow (simParams "") "" 0) (head rows).
Definition rescuedEnv : FsEnv Sim := simEnv rescuedDocs (noon + Hour) [].

Definition mailID : string := ID (firstRow (claimedRows insertedEnv "w1")).

Lemma firestore_claims_exclusive_witness :
  mailID = "id0" ∧
  ∃ pre mid post t1 l1 t2 l2,
    runMoves simStamp (pre ++ VClaim mailID "w1" t1 l1 :: mid ++ VClaim mailID "w2" t2 l2 :: post)
      (sm_docs (fv_fs insertedEnv)) = Some (sm_docs (fv_fs (execOp (OFetch (simFetch "w2")) rescuedEnv).1)) ∧
    ∃ m, m ∈ mid ∧ releasesJob mailID m = true.
Proof.
  split; [vm_compute; reflexivity|].
  refine (firestore_claims_exclusive (simFetch "w1") (simFetch "w2") insertedEnv rescuedEnv [VRescue rescueParams "id0"]
           (claimedRows insertedEnv "w1") (claimedRows rescuedEnv "w2") (firstRow (claimedRows insertedEnv "w1"))
           (firstRow (claimedRows rescuedEnv "w2")) _ _ _ _ _ _ _).
  - exact insertedEnv_keyed.
  - vm_compute. reflexivity.
  - vm_compute. left.
  - decide_docs.
  - vm_compute. reflexivity.
  - vm_compute. left.
  - vm_compute. reflexivity.
Defined.

Definition electParams (w : string) : LeaderElectParams := mkLeaderElectParams "cron" w Minute.

Definition laterEnv : FsEnv Sim := simEnv (sm_docs (fv_fs (execOp (OElect (electParams "w1")) (simEnv ∅ noon [])).1)) (noon + Hour) [].

Lemma firestore_lease_exclusive_witness :
  (execOp (OElect (electParams "w2")) laterEnv).2 = (true, None) ∧
  ∃ pre mid post now1 now2,
    runMoves simStamp (pre ++ VElect (electParams "w1") now1 :: mid ++ VElect (electParams "w2") now2 :: post) ∅
      = Some (sm_docs (fv_fs (execOp (OElect (electParams "w2")) laterEnv).1)) ∧
    ((∃ m, m ∈ mid ∧ leaseMove "cron" "w1" m = true) ∨ simStamp (now1 + Minute) ≤ now2).
Proof.
  split; [vm_compute; reflexivity|].
  refine (firestore_lease_exclusive (electParams "w1") (electParams "w2") (simEnv ∅ noon []) laterEnv [] _ _ _ _ _ _).
  - exact keyed_empty.
  - reflexivity.
  - discriminate.
  - vm_compute. reflexivity.
  - decide_docs.
  - vm_compute. reflexivity.
Defined.

Definition keyMoves : list move :=
  [VInsert (newDoc (simParams "k") "id0" noon); VClaim "id0" "w1" noon (noon + Minute);
   VSettle (demoOutcome JobStateCompleted "w1" 1) noon; VInsert (newDoc (simParams "k") "id1" noon); VCancel "id1" noon;
   VInsert (newDoc (simParams "k") "id2" noon)].

Definition keyDocs : Docs := default ∅ (runMoves simStamp keyMoves ∅).

Lemma firestore_keys_unique_witness :
  runMoves simStamp keyMoves ∅ = Some keyDocs ∧ keysHeld keyDocs ∧ oneLiveJob keyDocs.
Proof.
  assert (runMoves simStamp keyMoves ∅ = Some keyDocs) as Hr by decide_docs.
  split; [exact Hr|].
  apply (firestore_keys_unique simStamp keyMoves ∅ keyDocs keysHeld_empty); [vm_compute; reflexivity|exact Hr].
Defined.

(** ** What does not hold *)

Definition cursorDocs : Docs := {[CursorRef "c" := DCursor (mkScheduleCursorDoc noon)]}.
Definition cursorTo (next : Instant) : ScheduleCursorAdvanceParams := mkScheduleCursorAdvanceParams "c" noon next.

(** A compare-and-swap that loses the race still answers that it has won: the
    first run of the transaction has set [advanced], and the second, which finds
    another value, does not reset it. *)
Lemma lost_race_reported_won :
  let r := execOp (OCursorAdvance (cursorTo (noon + Hour))) (simEnv cursorDocs noon [[VCursorMove (cursorTo (noon + Minute))]]) in
  r.2 = (true, None) ∧
  sm_docs (fv_fs r.1) !! CursorRef "c" = Some (DCursor (mkScheduleCursorDoc (noon + Minute))).
Proof. vm_compute. done. Qed.

(** Somebody else claims the job between the query and the claim and gives it
    back for a retry: the row says attempt 1, the document attempt 2, and the
    worker that holds the claim is refused when it settles the job. *)
Definition retried : list move :=
  [VClaim "id0" "w2" noon 0; VSettle (mkJobSetStateParams "id0" JobStateRetryable None None 0 noon "w2" 1 false) noon].

Lemma claim_with_stale_attempt :
  let e := mkFsEnv (mkSim (sm_docs (fv_fs insertedEnv)) 1 [retried]) (frozenClock noon) (fv_txs insertedEnv) in
  let r := execOp (OFetch (simFetch "w1")) e in
  (AttemptNum <$> match r.2 with Ok rows => rows | Err _ => [] end) = [1] ∧
  (jd_AttemptNum <$> jobAt (sm_docs (fv_fs r.1)) "id0") = Some 2 ∧
  (execOp (OSetState (demoOutcome JobStateCompleted "w1" 1)) r.1).2 = Some (jobError ErrStaleClaim "id0").
Proof. vm_compute. done. Qed.

(** Deleting a finished job frees the key that a live one holds by now. *)
Definition deleteProgram : list fsOp :=
  [OInsert [simParams "k"]; OFetch (simFetch "w1"); OSetState (demoOutcome JobStateCompleted "w1" 1);
   OInsert [simParams "k"]; ODelete "id0"; OInsert [simParams "k"]].

Lemma delete_frees_live_key :
  let d := sm_docs (fv_fs (execAll deleteProgram (simEnv ∅ noon [])).1) in
  (liveDoc <$> jobAt d "id1") = Some true ∧ (liveDoc <$> jobAt d "id2") = Some true ∧
  (jd_UniqueKey <$> jobAt d "id1") = Some "k" ∧ (jd_UniqueKey <$> jobAt d "id2") = Some "k".
Proof. vm_compute. done. Qed.

(** The claim does not look at the time the job is due any more: rescheduled
    between the query and the claim, it is started an hour early. *)
Lemma claim_before_due :
  let moved := [VReschedule (mkRescheduleParams "id0" (noon + Hour))] in
  let e := mkFsEnv (mkSim (sm_docs (fv_fs insertedEnv)) 1 [moved]) (frozenClock noon) (fv_txs insertedEnv) in
  let r := execOp (OFetch (simFetch "w1")) e in
  (jd_State <$> jobAt (sm_docs (fv_fs r.1)) "id0") = Some JobStateRunning ∧
  (jd_RunAt <$> jobAt (sm_docs (fv_fs r.1)) "id0") = Some (noon + Hour).
Proof. vm_compute. done. Qed.

(** * The interfaces *)

Definition firestoreName : string := "firestore".

Definition FirestoreCapabilities : Capabilities := {|
  NativeTx := true; UniqueJobs := true; ListenNotify := false; ChangeStreams := false; SkipLocked := false;
  AdvisoryLocks := false; LinearizableLeases := true; LinearizableCAS := true; LifecycleTimestamps := true;
  BoundedFetch := true; StrictFetchOrdering := false |}.

Definition newFirestore {FS} (client : FS) (clk : Clock) (txs : nat → UserTx) : FsEnv FS := mkFsEnv client clk txs.

Section stores.
Context {FS : Type} `{Firestore FS}.

(** A value with an error, as Go returns them. *)
Definition orErr {A} (r : FsEnv FS * (A * option error)) : FsEnv FS * result A :=
  (r.1, match r.2.2 with Some e => Err e | None => Ok r.2.1 end).
Definition insertedOrErr (r : FsEnv FS * result (list JobInsertResult)) : FsEnv FS * inserted :=
  (r.1, match r.2 with Ok rs => (rs, None) | Err e => ([], Some e) end).

#[export] Instance firestoreEnqueueStore : EnqueueStore (FsEnv FS) nat := {|
  es_Name := firestoreName;
  es_Capabilities := FirestoreCapabilities;
  es_JobInsertMany e ps := insertedOrErr (jobInsertMany ps e);
  es_JobInsertManyTx t e ps := insertedOrErr (jobInsertManyTx t ps e);
  es_JobCancel e id := jobCancel id e;
  es_QueueStats := Some (λ e queue, (queueStats queue e).2)
|}.

#[export] Instance firestoreWorkerStore : WorkerStore (FsEnv FS) := {|
  ws_fetch e p := jobFetchBatch p e;
  ws_setState e p := jobSetStateIfRunning p e;
  ws_markStarted := Some (λ e p, orErr (jobMarkStarted p e));
  ws_heartbeat := Some (λ e p, orErr (jobHeartbeat p e));
  ws_rescue := Some (λ e p, orErr (jobRescueStuck p e));
  ws_elect e p := orErr (leaderAttemptElect p e);
  ws_resign e p := leaderResign p e
|}.

#[export] Instance firestoreCursorStore : CursorStore (FsEnv FS) := {|
  cs_getOrCreate e p := orErr (scheduleCursorGetOrCreate p e);
  cs_advance e p := orErr (scheduleCursorAdvance p e);
  cs_native := None
|}.

#[export] Instance firestoreLeaseStore : LeaseStore (FsEnv FS) := {|
  ls_elect e p := orErr (leaderAttemptElect p e);
  ls_resign e p := leaderResign p e
|}.

(** ** A fetch returns what was asked for, in any state of the documents *)

Lemma claimLoop_lawful p cs : Forall (λ c : DocRef * jobDoc, jd_Queue c.2 = fp_Queue p) cs → ∀ n e e' rows,
  claimLoop p n cs e = (e', Ok rows) →
  (rows = [] ∨ n + Z.of_nat (length rows) ≤ fp_Limit p) ∧ Forall (λ r, Queue r = fp_Queue p) rows.
Proof.
  induction 1 as [|c cs Hc _ IH]; intros n e e' rows; cbn [claimLoop]; [intros [= _ <-]; auto|].
  destruct (fp_Limit p <=? n) eqn:Hl; [intros [= _ <-]; auto|]. bool_to_prop.
  unfold mbind at 1, io_bind. destruct (clkNow e) as [e1 t]. unfold mbind at 1, io_bind.
  destruct (RunTransaction _ _ e1) as [e2 [u [err|]]]; cbn [snd].
  - case_match; [apply IH|intros [=]].
  - unfold mbind, io_bind. destruct (claimLoop p (n + 1) cs e2) as [e3 [rs|err]] eqn:Hr; intros [= _ Heq]; simplify_eq.
    destruct (IH _ _ _ _ Hr) as [Hn Hq]. split; [right; simpl; destruct Hn as [->|]; simpl; lia|]. by constructor.
Qed.

#[export] Instance firestoreLawfulFetch `{!FirestoreLaws FS} : LawfulFetch (FsEnv FS).
Proof.
  assert (∀ s s' p rows, ws_fetch s p = (s', Ok rows) →
    (rows = [] ∨ Z.of_nat (length rows) ≤ fp_Limit p) ∧ Forall (λ r, Queue r = fp_Queue p) rows) as Hf.
  { intros s s' p rows. cbn [ws_fetch firestoreWorkerStore]. unfold jobFetchBatch. unfold mbind at 1, io_bind.
    destruct (docGet _ s) as [s1 q]. destruct (saysPaused q); [intros [= _ <-]; auto|].
    unfold mbind at 1, io_bind. destruct (clkNow s1) as [s2 now]. unfold mbind at 1, io_bind. unfold GetAll, onService.
    pose proof (fs_query_law (fv_fs s2) (fetchQuery p now)) as (d & _ & _ & Hq).
    destruct (fs_query (fv_fs s2) (fetchQuery p now)) as [fs [snaps|err]]; cbn [snd] in Hq; [|intros [=]].
    apply (claimLoop_lawful p). rewrite sort_by_perm. apply decodeCandidates_Forall, Forall_forall.
    intros [r doc] Hin j Hj. apply toJob_Ok in Hj. simpl in Hj. subst doc.
    apply (qa_sound _ _ _ Hq) in Hin as [_ Hs]. unfold selects in Hs. simpl in *. by bool_to_prop. }
  split; intros s s' prm rows Hw; destruct (Hf _ _ _ _ Hw) as [Hn Hq]; [|done].
  intros Hpos. destruct Hn as [->|?]; [simpl; lia|done].
Qed.
End stores.
