(* ===== verification/Mongo.v ===== *)
(** * driver/mongodb: the documents, the service and the operations

    The backend keeps jobs, queues, leases and schedule cursors in four collections
    of MongoDB.  Neither the server nor its client library is part of the
    repository: the class [Mongo] is the one call the code makes, with the
    [request]s it sends, and MongoLaws.v states what the documentation says of the
    answers.  Filters and updates are data, as they are in the code ([bson.M]):
    [matches] and [applyUpdate] say what they mean.  A document is known by what
    decoding it answers; a field that is missing decodes as its zero value, a
    missing or null instant as [None].  [Migrate] has run: the unique keys of jobs
    and the names of queues have unique indexes. *)

From S2P Require Import Prelude GoBase Json Codec Driver Memory.
From Stdlib Require Import ZArith Lia.

(** ** Documents *)

Abbreviation ObjectID := N (only parsing).

Record attemptError := mkAttemptErr { ae_At : Instant; ae_Attempt : Z; ae_Message : string; ae_Trace : string }.

Record jobDoc := mkJobDoc {
  jd_ID : ObjectID;                 (* 0 until the document has one *)
  jd_Queue : string;
  jd_Kind : string;
  jd_Args : string;
  jd_State : string;
  jd_Priority : Z;
  jd_RunAt : Instant;
  jd_CreatedAt : Instant;
  jd_AttemptedAt : option Instant;
  jd_StartedAt : option Instant;
  jd_LeaseExpiresAt : option Instant;
  jd_FinalizedAt : option Instant;
  jd_AttemptNum : Z;
  jd_MaxRetry : Z;
  jd_TimeoutMs : Z;
  jd_UniqueKey : string;            (* "": no such field *)
  jd_WorkerID : string;
  jd_Tags : list string;
  jd_Errors : list attemptError;
  jd_PipelineID : string
}.

Definition eta_doc (j : jobDoc) : jobDoc :=
  mkJobDoc (jd_ID j) (jd_Queue j) (jd_Kind j) (jd_Args j) (jd_State j) (jd_Priority j) (jd_RunAt j) (jd_CreatedAt j)
    (jd_AttemptedAt j) (jd_StartedAt j) (jd_LeaseExpiresAt j) (jd_FinalizedAt j) (jd_AttemptNum j) (jd_MaxRetry j)
    (jd_TimeoutMs j) (jd_UniqueKey j) (jd_WorkerID j) (jd_Tags j) (jd_Errors j) (jd_PipelineID j).
Definition doc_ID : ObjectID → jobDoc → jobDoc := ltac:(setter eta_doc jd_ID).
Definition doc_State : string → jobDoc → jobDoc := ltac:(setter eta_doc jd_State).
Definition doc_RunAt : Instant → jobDoc → jobDoc := ltac:(setter eta_doc jd_RunAt).
Definition doc_AttemptedAt : option Instant → jobDoc → jobDoc := ltac:(setter eta_doc jd_AttemptedAt).
Definition doc_StartedAt : option Instant → jobDoc → jobDoc := ltac:(setter eta_doc jd_StartedAt).
Definition doc_LeaseExpiresAt : option Instant → jobDoc → jobDoc := ltac:(setter eta_doc jd_LeaseExpiresAt).
Definition doc_FinalizedAt : option Instant → jobDoc → jobDoc := ltac:(setter eta_doc jd_FinalizedAt).
Definition doc_AttemptNum : Z → jobDoc → jobDoc := ltac:(setter eta_doc jd_AttemptNum).
Definition doc_UniqueKey : string → jobDoc → jobDoc := ltac:(setter eta_doc jd_UniqueKey).
Definition doc_WorkerID : string → jobDoc → jobDoc := ltac:(setter eta_doc jd_WorkerID).
Definition doc_Errors : list attemptError → jobDoc → jobDoc := ltac:(setter eta_doc jd_Errors).

Record queueDoc := mkQueueDoc { qd_Name : string; qd_Paused : bool; qd_CreatedAt : Instant; qd_UpdatedAt : Instant }.
Record leaderDoc := mkLeaderDoc { ld_ID : string; ld_WorkerID : string; ld_ElectedAt : Instant; ld_ExpiresAt : Instant }.
Record scheduleCursorDoc := mkScheduleCursorDoc { sd_ID : string; sd_At : Instant }.

#[export] Instance attemptError_eq_dec : EqDecision attemptError.
Proof. solve_decision. Defined.
#[export] Instance jobDoc_eq_dec : EqDecision jobDoc.
Proof. solve_decision. Defined.
#[export] Instance queueDoc_eq_dec : EqDecision queueDoc.
Proof. solve_decision. Defined.
#[export] Instance leaderDoc_eq_dec : EqDecision leaderDoc.
Proof. solve_decision. Defined.
#[export] Instance scheduleCursorDoc_eq_dec : EqDecision scheduleCursorDoc.
Proof. solve_decision. Defined.

(** The collections [jobsCollection], [queuesCollection], [leadersCollection] and
    [cursorsCollection], by [_id] (the queues by name). *)
Record Db := mkDb {
  db_jobs : gmap ObjectID jobDoc;
  db_queues : gmap string queueDoc;
  db_leaders : gmap string leaderDoc;
  db_cursors : gmap string scheduleCursorDoc
}.

#[export] Instance Db_eq_dec : EqDecision Db.
Proof. solve_decision. Defined.

(** ** Filters and updates *)

(** One entry of a filter document over the jobs. *)
Inductive cond :=
| IsID (id : ObjectID)
| IDLt (id : ObjectID)
| IsQueue (queue : string)
| IsState (state : string)
| StateIn (states : list string)
| IsKind (kind : string)
| IsUniqueKey (key : string)
| IsWorker (workerID : string)
| IsAttempt (n : Z)
| RunAtLte (t : Instant)
| LeaseLte (t : Instant)
| NoLease                                     (* "lease_expires_at": nil *)
| AttemptedLte (t : Instant)
| CreatedLt (t : Instant)
| CreatedIs (t : Instant).

(** A filter: all of its entries, and one of the alternatives of its "$or", if it has one. *)
Record Filter := mkFilter { f_all : list cond; f_or : list (list cond) }.

Inductive update :=
| SetState (s : string)
| SetAttemptedAt (t : option Instant)
| SetWorkerID (w : string)
| SetLease (t : Instant)
| SetStartedAt (t : Instant)
| SetFinalizedAt (t : Instant)
| SetRunAt (t : Instant)
| UnsetStartedAt
| UnsetLease
| UnsetWorkerID
| UnsetUniqueKey
| IncAttemptNum (n : Z)
| PushError (e : attemptError).

#[export] Instance cond_eq_dec : EqDecision cond.
Proof. solve_decision. Defined.
#[export] Instance Filter_eq_dec : EqDecision Filter.
Proof. solve_decision. Defined.
#[export] Instance update_eq_dec : EqDecision update.
Proof. solve_decision. Defined.

Section meaning.
(** What a date keeps of an instant (BSON dates are milliseconds). *)
Context (stamp : Instant → Instant).

Definition holds (c : cond) (j : jobDoc) : bool :=
  match c with
  | IsID id => bool_decide (jd_ID j = id)
  | IDLt id => bool_decide (jd_ID j < id)%N
  | IsQueue q => bool_decide (jd_Queue j = q)
  | IsState s => bool_decide (jd_State j = s)
  | StateIn l => bool_decide (jd_State j ∈ l)
  | IsKind k => bool_decide (jd_Kind j = k)
  | IsUniqueKey k => bool_decide (jd_UniqueKey j = k)
  | IsWorker w => bool_decide (jd_WorkerID j = w)
  | IsAttempt n => jd_AttemptNum j =? n
  | RunAtLte t => jd_RunAt j <=? stamp t
  | LeaseLte t => match jd_LeaseExpiresAt j with Some l => l <=? stamp t | None => false end
  | NoLease => bool_decide (jd_LeaseExpiresAt j = None)
  | AttemptedLte t => match jd_AttemptedAt j with Some a => a <=? stamp t | None => false end
  | CreatedLt t => jd_CreatedAt j <? stamp t
  | CreatedIs t => jd_CreatedAt j =? stamp t
  end.

Definition matches (f : Filter) (j : jobDoc) : bool :=
  forallb (λ c, holds c j) (f_all f) &&
  match f_or f with [] => true | alts => existsb (forallb (λ c, holds c j)) alts end.

Definition stampError (e : attemptError) : attemptError := mkAttemptErr (stamp (ae_At e)) (ae_Attempt e) (ae_Message e) (ae_Trace e).

(** An increment that does not fit 64 bits is an error. *)
Definition applyOne (u : update) (j : jobDoc) : option jobDoc :=
  match u with
  | SetState s => Some (doc_State s j)
  | SetAttemptedAt t => Some (doc_AttemptedAt (stamp <$> t) j)
  | SetWorkerID w => Some (doc_WorkerID w j)
  | SetLease t => Some (doc_LeaseExpiresAt (Some (stamp t)) j)
  | SetStartedAt t => Some (doc_StartedAt (Some (stamp t)) j)
  | SetFinalizedAt t => Some (doc_FinalizedAt (Some (stamp t)) j)
  | SetRunAt t => Some (doc_RunAt (stamp t) j)
  | UnsetStartedAt => Some (doc_StartedAt None j)
  | UnsetLease => Some (doc_LeaseExpiresAt None j)
  | UnsetWorkerID => Some (doc_WorkerID "" j)
  | UnsetUniqueKey => Some (doc_UniqueKey "" j)
  | IncAttemptNum n => if decide (is_int64 (jd_AttemptNum j + n)) then Some (doc_AttemptNum (jd_AttemptNum j + n) j) else None
  | PushError e => Some (doc_Errors (jd_Errors j ++ [stampError e]) j)
  end.

Fixpoint applyUpdate (us : list update) (j : jobDoc) : option jobDoc :=
  match us with [] => Some j | u :: us' => match applyOne u j with Some j' => applyUpdate us' j' | None => None end end.

(** A new document as it is stored. *)
Definition stampJob (j : jobDoc) : jobDoc :=
  mkJobDoc (jd_ID j) (jd_Queue j) (jd_Kind j) (jd_Args j) (jd_State j) (jd_Priority j) (stamp (jd_RunAt j))
    (stamp (jd_CreatedAt j)) (stamp <$> jd_AttemptedAt j) (stamp <$> jd_StartedAt j) (stamp <$> jd_LeaseExpiresAt j)
    (stamp <$> jd_FinalizedAt j) (jd_AttemptNum j) (jd_MaxRetry j) (jd_TimeoutMs j) (jd_UniqueKey j) (jd_WorkerID j)
    (jd_Tags j) (stampError <$> jd_Errors j) (jd_PipelineID j).
Definition stampQueue (q : queueDoc) : queueDoc :=
  mkQueueDoc (qd_Name q) (qd_Paused q) (stamp (qd_CreatedAt q)) (stamp (qd_UpdatedAt q)).
Definition stampLeader (l : leaderDoc) : leaderDoc :=
  mkLeaderDoc (ld_ID l) (ld_WorkerID l) (stamp (ld_ElectedAt l)) (stamp (ld_ExpiresAt l)).
End meaning.

(** ** The service *)

(** The calls the code makes, one by one.  A [context] is the caller's or the one of
    a session. *)
Inductive request :=
| InsertJob (doc : jobDoc)
| UpsertJob (key : string) (doc : jobDoc)                   (* UpdateOne {unique_key} {$setOnInsert}, upsert *)
| FindJob (f : Filter)                                      (* FindOne *)
| FindJobs (f : Filter) (limit : Z)                         (* Find, created_at and _id descending *)
| GroupStates (queue : string)                              (* Aggregate $match, $group *)
| ClaimJob (f : Filter) (us : list update)                  (* FindOneAndUpdate, in claim order, the new document *)
| UpdateJob (f : Filter) (us : list update)                 (* UpdateOne *)
| UpdateJobs (f : Filter) (us : list update)                (* UpdateMany *)
| DeleteJob (id : ObjectID)
| FindQueue (name : string)
| UpsertQueue (q : queueDoc)                                (* FindOneAndUpdate $setOnInsert, upsert *)
| PauseQueue (name : string) (paused : bool) (now : Instant) (* UpdateOne $set, upsert *)
| FindQueues (after : option string) (limit : Z)            (* by name *)
| RenewLeader (l : leaderDoc) (now : Instant)               (* UpdateOne of an expired or own lease *)
| InsertLeader (l : leaderDoc)
| DeleteLeader (name workerID : string)
| InsertCursor (c : scheduleCursorDoc)
| FindCursor (id : string)
| MoveCursor (id : string) (expected next : Instant).       (* UpdateOne *)

(** What a call answers: for an update the numbers of documents matched and modified. *)
Definition reply (q : request) : Type :=
  match q with
  | InsertJob _ => ObjectID
  | UpsertJob _ _ => option ObjectID
  | FindJob _ | ClaimJob _ _ => option jobDoc
  | FindJobs _ _ => list jobDoc
  | GroupStates _ => list (string * Z)
  | UpdateJob _ _ => Z * Z
  | UpdateJobs _ _ | DeleteJob _ | RenewLeader _ _ | MoveCursor _ _ _ => Z
  | FindQueue _ => option queueDoc
  | UpsertQueue _ => queueDoc
  | FindQueues _ _ => list queueDoc
  | PauseQueue _ _ _ | InsertLeader _ | DeleteLeader _ _ | InsertCursor _ => unit
  | FindCursor _ => option scheduleCursorDoc
  end.

(** The session of a call, if it belongs to one. *)
Abbreviation Context_ := (option nat) (only parsing).

Class Mongo (MG : Type) := {
  mg_call : Context_ → ∀ q : request, MG → MG * result (reply q);
  mg_isDuplicateKeyError : error → bool;
  mg_ErrNoDocuments : error;
  mg_Hex : ObjectID → string;
  mg_ObjectIDFromHex : string → result ObjectID;
  mg_StartSession : MG → MG * result nat;
  mg_StartTransaction : nat → MG → MG * option error;
  mg_CommitTransaction : nat → MG → MG * option error;
  mg_AbortTransaction : nat → MG → MG * option error;
  mg_EndSession : nat → MG → MG
}.

Section driver.
Context {MG : Type} `{Mongo MG}.

Record MgEnv := mkMgEnv { mv_mg : MG; mv_clk : Clock }.

Definition io (A : Type) : Type := MgEnv → MgEnv * A.

#[global] Instance io_ret : MRet io := λ A a e, (e, a).
#[global] Instance io_bind : MBind io := λ A B f m e, let '(e', a) := m e in f a e'.

Definition onService {A} (f : MG → MG * A) : io A := λ e, let '(s, a) := f (mv_mg e) in (mkMgEnv s (mv_clk e), a).
Definition clkNow : io Instant := λ e, let '(now, clk) := Now (mv_clk e) in (mkMgEnv (mv_mg e) clk, now).
Definition call (ctx : Context_) (q : request) : io (result (reply q)) := onService (mg_call ctx q).

(** ** Transactions *)

(** [Begin] answers the session; a transaction that did not start leaves none. *)
Definition Begin : io (result nat) :=
  r ← onService mg_StartSession;
  match r with
  | Err err => mret (Err (EWrap "start session: " err ""))
  | Ok session =>
      err ← onService (mg_StartTransaction session);
      match err with
      | Some e => _ ← onService (λ s, (mg_EndSession session s, tt)); mret (Err (EWrap "start transaction: " e ""))
      | None => mret (Ok session)
      end
  end.

(** [own]: the session was started by [Begin], not by the caller. *)
Definition Commit (session : nat) (own : bool) : io (option error) :=
  err ← onService (mg_CommitTransaction session);
  _ ← onService (λ s, (if own then mg_EndSession session s else s, tt)); mret err.
Definition Rollback (session : nat) (own : bool) : io (option error) :=
  err ← onService (mg_AbortTransaction session);
  _ ← onService (λ s, (if own then mg_EndSession session s else s, tt)); mret err.

(** ** Rows *)

Definition docToRow (doc : jobDoc) : JobRow :=
  mkJobRow (mg_Hex (jd_ID doc)) (jd_Queue doc) (jd_Kind doc) (if bool_decide (jd_Args doc = "") then "{}" else jd_Args doc)
    (jd_State doc) (jd_Priority doc) (jd_RunAt doc) (jd_CreatedAt doc)
    (jd_AttemptedAt doc) (jd_StartedAt doc) (jd_LeaseExpiresAt doc) (jd_FinalizedAt doc)
    (jd_AttemptNum doc) (jd_MaxRetry doc) (if 0 <? jd_TimeoutMs doc then durMul (jd_TimeoutMs doc) Millisecond else 0)
    (jd_Tags doc) ((λ e, mkAttemptError (ae_At e) (ae_Attempt e) (ae_Message e) (ae_Trace e)) <$> jd_Errors doc)
    (jd_UniqueKey doc) (jd_WorkerID doc) (jd_PipelineID doc).

Definition badID (id : string) (err : error) : error := EWrap ("invalid job id " +:+ quoted id +:+ ": ") err "".

(** What follows once the id has been read. *)
Definition withID {A} (id : string) (fail : error → A) (f : ObjectID → io A) : io A :=
  match mg_ObjectIDFromHex id with Err err => mret (fail (badID id err)) | Ok oid => f oid end.

(** ** Inserting *)

Definition newDoc (p : JobInsertParams) (now : Instant) : jobDoc :=
  let runAt := if IsZero (ip_RunAt p) then now else ip_RunAt p in
  let state := if After runAt now then JobStateScheduled else JobStateAvailable in
  mkJobDoc 0 (ip_Queue p) (ip_Kind p) (ip_Args p) state (ip_Priority p) runAt now None None None None 0 (ip_MaxRetry p)
    (durDiv (ip_Timeout p) Millisecond) (ip_UniqueKey p) "" (ip_Tags p) [] (ip_PipelineID p).

Definition insertErr (i : nat) (err : error) : error :=
  EWrap ("insert job " +:+ FormatInt (Z.of_nat i) +:+ ": ") err "".

(** One round of the loop of [jobInsertMany]. *)
Definition insertParam (ctx : Context_) (now : Instant) (i : nat) (p : JobInsertParams) : io (result JobInsertResult) :=
  let doc := newDoc p now in
  if bool_decide (ip_UniqueKey p ≠ "") then
    r ← call ctx (UpsertJob (ip_UniqueKey p) doc);
    mret match r with
         | Err err => if mg_isDuplicateKeyError err then Ok (mkJobInsertResult None true) else Err (insertErr i err)
         | Ok None => Ok (mkJobInsertResult None true)
         | Ok (Some oid) => Ok (mkJobInsertResult (Some (docToRow (doc_ID oid doc))) false)
         end
  else
    r ← call ctx (InsertJob doc);
    mret match r with
         | Err err => Err (insertErr i err)
         | Ok oid => Ok (mkJobInsertResult (Some (docToRow (doc_ID oid doc))) false)
         end.

Fixpoint insertParams (ctx : Context_) (now : Instant) (i : nat) (params : list JobInsertParams)
  : io (result (list JobInsertResult)) :=
  match params with
  | [] => mret (Ok [])
  | p :: ps =>
      r ← insertParam ctx now i p;
      match r with
      | Err err => mret (Err err)
      | Ok res =>
          rs ← insertParams ctx now (S i) ps;
          mret match rs with Err err => Err err | Ok rest => Ok (res :: rest) end
      end
  end.

Definition jobInsertMany (ctx : Context_) (params : list JobInsertParams) : io (result (list JobInsertResult)) :=
  now ← clkNow; insertParams ctx now 0 params.

(** ** Reading *)

Definition jobGetByID (ctx : Context_) (id : string) : io (result JobRow) :=
  withID id Err (λ oid,
    r ← call ctx (FindJob (mkFilter [IsID oid] []));
    mret match r with
         | Err err => Err err
         | Ok None => Err (jobError ErrNotFound id)
         | Ok (Some doc) => Ok (docToRow doc)
         end).

Definition listConds (params : JobListParams) : list cond :=
  (if bool_decide (jl_Queue params ≠ "") then [IsQueue (jl_Queue params)] else [])
  ++ (if bool_decide (jl_State params ≠ "") then [IsState (jl_State params)] else [])
  ++ (if bool_decide (jl_Kind params ≠ "") then [IsKind (jl_Kind params)] else []).

Definition cursorAlternatives (at_ : Instant) (oid : ObjectID) : list (list cond) :=
  [[CreatedLt at_]; [CreatedIs at_; IDLt oid]].

Definition jobList (ctx : Context_) (params : JobListParams) : io (result (list JobRow)) :=
  let go alts :=
    r ← call ctx (FindJobs (mkFilter (listConds params) alts) (pageLimit (jl_Limit params)));
    mret match r with Err err => Err err | Ok docs => Ok (docToRow <$> docs) end in
  if bool_decide (jl_Cursor params = "") then go []
  else match DecodeJobCursor (jl_Cursor params) with
       | Err err => mret (Err err)
       | Ok (at_, id) =>
           match mg_ObjectIDFromHex id with
           | Err _ => mret (Err (EWrap "" (ESentinel ErrInvalidCursor) ": invalid mongodb job id"))
           | Ok oid => go (cursorAlternatives at_ oid)
           end
       end.

Definition addGroup (stats : QueueStats) (row : string * Z) : QueueStats :=
  mkQueueStats (qs_Queue stats) (<[row.1 := row.2]> (qs_States stats)) (wrap64 (qs_Total stats + row.2)).

Definition queueStats (ctx : Context_) (queue : string) : io (result QueueStats) :=
  r ← call ctx (GroupStates queue);
  mret match r with
       | Err err => Err err
       | Ok rows => Ok (foldl addGroup (mkQueueStats queue ∅ 0) rows)
       end.

(** ** Fetching *)

Definition waitingStates : list string := [JobStateAvailable; JobStateScheduled].

Definition fetchFilter (queue : string) (now : Instant) : Filter :=
  mkFilter [IsQueue queue; StateIn waitingStates; RunAtLte now] [].

Definition fetchUpdate (params : FetchParams) (now : Instant) : list update :=
  [SetState JobStateRunning; SetAttemptedAt (Some now); SetWorkerID (fp_WorkerID params)]
  ++ (if 0 <? fp_LeaseDuration params then [SetLease (Add now (fp_LeaseDuration params))] else [])
  ++ [IncAttemptNum 1; UnsetStartedAt]
  ++ (if fp_LeaseDuration params <=? 0 then [UnsetLease] else []).

(** [n] rounds of claiming; Go returns the rows with the error, too. *)
Fixpoint claimLoop (ctx : Context_) (f : Filter) (us : list update) (n : nat) : io (list JobRow * option error) :=
  match n with
  | O => mret ([], None)
  | S n' =>
      r ← call ctx (ClaimJob f us);
      match r with
      | Err err => mret ([], Some err)
      | Ok None => mret ([], None)
      | Ok (Some doc) =>
          rs ← claimLoop ctx f us n';
          mret (docToRow doc :: rs.1, rs.2)
      end
  end.

Definition saysPaused (r : result (option queueDoc)) : bool :=
  match r with Ok (Some q) => qd_Paused q | _ => false end.

Definition jobFetchBatch (ctx : Context_) (params : FetchParams) : io (list JobRow * option error) :=
  q ← call ctx (FindQueue (fp_Queue params));
  if saysPaused q then mret ([], None)
  else
    now ← clkNow;
    claimLoop ctx (fetchFilter (fp_Queue params) now) (fetchUpdate params now) (Z.to_nat (fp_Limit params)).

(** ** Claims: rescue, heartbeats and outcomes *)

Definition rescueFilter (params : JobRescueParams) : Filter :=
  mkFilter [IsQueue (rp_Queue params); IsState JobStateRunning]
    [[LeaseLte (rp_At params)]; [NoLease; AttemptedLte (rp_Before params)]].
Definition rescueUpdate : list update := [SetState JobStateAvailable; SetAttemptedAt None; UnsetWorkerID; UnsetLease].

Definition jobRescueStuck (ctx : Context_) (params : JobRescueParams) : io (Z * option error) :=
  r ← call ctx (UpdateJobs (rescueFilter params) rescueUpdate);
  mret match r with Err err => (0, Some err) | Ok modified => (modified, None) end.

Definition claimFilter (oid : ObjectID) (workerID : string) (attempt : Z) : Filter :=
  mkFilter [IsID oid; IsState JobStateRunning; IsWorker workerID; IsAttempt attempt] [].

Definition renewalUntil (params : JobHeartbeatParams) : Instant :=
  if IsZero (hp_LeaseExpiresAt params) then hp_At params else hp_LeaseExpiresAt params.

Definition jobHeartbeat (ctx : Context_) (params : JobHeartbeatParams) : io (bool * option error) :=
  withID (hp_ID params) (λ err, (false, Some err)) (λ oid,
    r ← call ctx (UpdateJob (claimFilter oid (hp_WorkerID params) (hp_Attempt params)) [SetLease (UTC (renewalUntil params))]);
    mret match r with
         | Err err => (false, Some err)
         | Ok (_, modified) => (modified =? 1, None)
         end).

Definition jobMarkStarted (ctx : Context_) (params : JobMarkStartedParams) : io (bool * option error) :=
  withID (ms_ID params) (λ err, (false, Some err)) (λ oid,
    r ← call ctx (UpdateJob (claimFilter oid (ms_WorkerID params) (ms_Attempt params)) [SetStartedAt (UTC (ms_At params))]);
    mret match r with
         | Err err => (false, Some err)
         | Ok (matched, _) => (matched =? 1, None)
         end).

Definition settleFilter (oid : ObjectID) (params : JobSetStateParams) : Filter :=
  mkFilter ([IsID oid; IsState JobStateRunning]
    ++ (if bool_decide (sp_ExpectedWorkerID params ≠ "") then [IsWorker (sp_ExpectedWorkerID params)] else [])
    ++ (if 0 <? sp_ExpectedAttempt params then [IsAttempt (sp_ExpectedAttempt params)] else [])) [].

Definition yieldUpdate : list update :=
  [SetState JobStateAvailable; SetAttemptedAt None; IncAttemptNum (-1); UnsetWorkerID; UnsetLease].

Definition isFinal (s : JobState) : bool :=
  bool_decide (s = JobStateCompleted) || bool_decide (s = JobStateDiscarded) || bool_decide (s = JobStateCancelled).

(** [freesKey]: the unique key of the job goes, too. *)
Definition settleUpdate (params : JobSetStateParams) (now : Instant) (freesKey : bool) : list update :=
  (if bool_decide (sp_State params = JobStateRetryable)
   then SetState JobStateAvailable :: (if IsZero (sp_RetryAt params) then [] else [SetRunAt (sp_RetryAt params)])
   else SetState (sp_State params) :: (if isFinal (sp_State params) then [SetFinalizedAt now] else []))
  ++ [UnsetWorkerID; UnsetLease]
  ++ (if freesKey then [UnsetUniqueKey] else [])
  ++ match sp_Err params with
     | Some msg => [PushError (mkAttemptErr now (sp_Attempt params) msg (default "" (sp_Trace params)))]
     | None => []
     end.

(** An update under the fence: nothing modified means that the claim is gone. *)
Definition fencedUpdate (ctx : Context_) (id : string) (f : Filter) (us : list update) : io (option error) :=
  r ← call ctx (UpdateJob f us);
  mret match r with
       | Err err => Some err
       | Ok (_, modified) => if modified =? 0 then Some (jobError ErrStaleClaim id) else None
       end.

Definition jobSetStateIfRunning (ctx : Context_) (params : JobSetStateParams) : io (option error) :=
  withID (sp_ID params) Some (λ oid,
    let f := settleFilter oid params in
    if sp_Yield params then fencedUpdate ctx (sp_ID params) f yieldUpdate
    else
      now ← clkNow;
      if isFinal (sp_State params) then
        r ← call ctx (FindJob f);
        match r with
        | Err err => mret (Some err)
        | Ok None => mret (Some (jobError ErrStaleClaim (sp_ID params)))
        | Ok (Some current) =>
            fencedUpdate ctx (sp_ID params) f (settleUpdate params now (negb (IsPermanentUniqueKey (jd_UniqueKey current))))
        end
      else fencedUpdate ctx (sp_ID params) f (settleUpdate params now false)).

(** ** Cancelling, deleting, rescheduling *)

Definition cancelFilter (oid : ObjectID) : Filter := mkFilter [IsID oid; StateIn waitingStates] [].
Definition cancelUpdate (now : Instant) (freesKey : bool) : list update :=
  [SetState JobStateCancelled; SetFinalizedAt now] ++ (if freesKey then [UnsetUniqueKey] else []).

(** What the update of the job answers is not looked at. *)
Definition jobCancel (ctx : Context_) (id : string) : io (option error) :=
  withID id Some (λ oid,
    r ← call ctx (FindJob (cancelFilter oid));
    match r with
    | Err err => mret (Some err)
    | Ok None =>
        got ← jobGetByID ctx id;
        mret match got with
             | Err err => Some err
             | Ok _ => Some (EWrap "" (ESentinel ErrConflict) (": job " +:+ quoted id +:+ " cannot be cancelled in its current state"))
             end
    | Ok (Some current) =>
        now ← clkNow;
        u ← call ctx (UpdateJob (cancelFilter oid) (cancelUpdate now (negb (IsPermanentUniqueKey (jd_UniqueKey current)))));
        mret match u with Err err => Some err | Ok _ => None end
    end).

Definition jobDelete (ctx : Context_) (id : string) : io (option error) :=
  withID id Some (λ oid,
    r ← call ctx (DeleteJob oid);
    mret match r with
         | Err err => Some err
         | Ok deleted => if deleted =? 0 then Some (jobError ErrNotFound id) else None
         end).

Definition rescheduleUpdate (params : RescheduleParams) : list update :=
  [SetRunAt (rs_RunAt params); SetState JobStateScheduled].

Definition jobReschedule (ctx : Context_) (params : RescheduleParams) : io (option error) :=
  withID (rs_ID params) Some (λ oid,
    r ← call ctx (UpdateJob (mkFilter [IsID oid] []) (rescheduleUpdate params));
    mret match r with
         | Err err => Some err
         | Ok (matched, _) => if matched =? 0 then Some (jobError ErrNotFound (rs_ID params)) else None
         end).

(** ** Queues *)

Definition rowOfQueue (q : queueDoc) : QueueRow :=
  mkQueueRow (qd_Name q) (qd_Paused q) (qd_CreatedAt q) (qd_UpdatedAt q).

Definition queueGet (ctx : Context_) (name : string) : io (result QueueRow) :=
  now ← clkNow;
  r ← call ctx (UpsertQueue (mkQueueDoc name false now now));
  mret match r with Err err => Err err | Ok doc => Ok (rowOfQueue doc) end.

Definition errOf {A} (r : result A) : option error := match r with Ok _ => None | Err err => Some err end.

Definition queueSetPaused (ctx : Context_) (name : string) (paused : bool) : io (option error) :=
  now ← clkNow;
  r ← call ctx (PauseQueue name paused now); mret (errOf r).

Definition queueList (ctx : Context_) (params : QueueListParams) : io (result (list QueueRow)) :=
  let go cursor :=
    r ← call ctx (FindQueues cursor (pageLimit (ql_Limit params)));
    mret match r with Err err => Err err | Ok docs => Ok (rowOfQueue <$> docs) end in
  if bool_decide (ql_Cursor params = "") then go None
  else match DecodeQueueCursor (ql_Cursor params) with
       | Ok cursor => go (Some cursor)
       | Err err => mret (Err err)
       end.

(** ** Leases and schedule cursors *)

Definition newLeader (params : LeaderElectParams) (now : Instant) : leaderDoc :=
  mkLeaderDoc (le_Name params) (le_WorkerID params) now (Add now (le_TTL params)).

Definition leaderAttemptElect (ctx : Context_) (params : LeaderElectParams) : io (bool * option error) :=
  now ← clkNow;
  r ← call ctx (RenewLeader (newLeader params now) now);
  match r with
  | Err err => mret (false, Some err)
  | Ok matched =>
      if 0 <? matched then mret (true, None)
      else
        r ← call ctx (InsertLeader (newLeader params now));
        mret match r with
             | Err err => if mg_isDuplicateKeyError err then (false, None) else (false, Some err)
             | Ok _ => (true, None)
             end
  end.

Definition leaderResign (ctx : Context_) (params : LeaderResignParams) : io (option error) :=
  r ← call ctx (DeleteLeader (lr_Name params) (lr_WorkerID params)); mret (errOf r).

Definition emptyCursorResult : ScheduleCursorResult := mkScheduleCursorResult zeroTime false.

(** The cursor as it is stored, after it has been created if need be. *)
Definition readCursor (ctx : Context_) (id : string) (created : bool) : io (ScheduleCursorResult * option error) :=
  r ← call ctx (FindCursor id);
  mret match r with
       | Err err => (emptyCursorResult, Some err)
       | Ok None => (emptyCursorResult, Some mg_ErrNoDocuments)
       | Ok (Some doc) => (mkScheduleCursorResult (UTC (sd_At doc)) created, None)
       end.

Definition scheduleCursorGetOrCreate (ctx : Context_) (params : ScheduleCursorCreateParams)
  : io (ScheduleCursorResult * option error) :=
  r ← call ctx (InsertCursor (mkScheduleCursorDoc (cc_ID params) (UTC (cc_InitialAt params))));
  match r with
  | Ok _ => readCursor ctx (cc_ID params) true
  | Err err =>
      if mg_isDuplicateKeyError err then readCursor ctx (cc_ID params) false
      else mret (emptyCursorResult, Some err)
  end.

Definition scheduleCursorAdvance (ctx : Context_) (params : ScheduleCursorAdvanceParams) : io (bool * option error) :=
  r ← call ctx (MoveCursor (ca_ID params) (UTC (ca_Expected params)) (UTC (ca_Next params)));
  mret match r with
       | Err err => (false, Some err)
       | Ok modified => (modified =? 1, None)
       end.
End driver.

Arguments MgEnv : clear implicits.
Arguments mkMgEnv {MG}.
