(* ===== verification/MongoLaws.v ===== *)
(** * driver/mongodb: atomic moves, and what the service promises

    A [move] is what the server does to one document, or what it finds, at one
    moment.  [MongoLaws] states the documented behaviour of the calls: an update of
    one document is atomic, an update of many is a series of them, a unique index
    admits no second document, a call that fails may or may not have had its
    effect, and whatever is called in a session is seen by nobody before the
    commit.  The server removes leases that have expired by its own clock (the TTL
    index).  Other programs use the collections through this driver, too. *)

From S2P Require Import Prelude GoBase Json Codec Driver Memory.
From S2P Require Export Moves.
From S2P Require Import Mongo.
From Stdlib Require Import ZArith Lia.

Inductive move :=
| MSeesJob (f : Filter) (x : option jobDoc)               (* a job that matches, or that none does *)
| MInsertJob (id : ObjectID) (doc : jobDoc)
| MUpdateJob (id : ObjectID) (f : Filter) (us : list update) (changed : bool)
| MClaimJob (j' : jobDoc) (f : Filter) (us : list update) (* the first in claim order becomes [j'] *)
| MDeleteJob (id : ObjectID)
| MSeesQueue (name : string) (x : option queueDoc)
| MNewQueue (q : queueDoc)
| MPauseQueue (name : string) (paused : bool) (now : Instant)
| MSeesLeader (name : string) (x : option leaderDoc)
| MRenewLeader (l : leaderDoc) (now : Instant)
| MInsertLeader (l : leaderDoc)
| MDeleteLeader (name workerID : string)
| MExpireLeader (name : string) (at_ : Instant)           (* the TTL index *)
| MSeesCursor (id : string) (x : option scheduleCursorDoc)
| MInsertCursor (c : scheduleCursorDoc)
| MMoveCursor (id : string) (expected next : Instant).

Definition isSee (m : move) : bool :=
  match m with MSeesJob _ _ | MSeesQueue _ _ | MSeesLeader _ _ | MSeesCursor _ _ => true | _ => false end.
(** priority DESC, run_at ASC, created_at ASC, _id ASC. *)
Definition claimLess (a b : jobDoc) : bool :=
  if negb (jd_Priority a =? jd_Priority b) then jd_Priority b <? jd_Priority a
  else if negb (jd_RunAt a =? jd_RunAt b) then jd_RunAt a <? jd_RunAt b
  else if negb (jd_CreatedAt a =? jd_CreatedAt b) then jd_CreatedAt a <? jd_CreatedAt b
  else (jd_ID a <? jd_ID b)%N.

Section moves.
Context (stamp : Instant → Instant).

Definition onJobs (g : gmap ObjectID jobDoc → option (gmap ObjectID jobDoc)) (d : Db) : option Db :=
  (λ jobs, mkDb jobs (db_queues d) (db_leaders d) (db_cursors d)) <$> g (db_jobs d).
Definition withQueue (q : queueDoc) (d : Db) : Db := mkDb (db_jobs d) (<[qd_Name q := q]> (db_queues d)) (db_leaders d) (db_cursors d).
Definition withLeader (l : leaderDoc) (d : Db) : Db := mkDb (db_jobs d) (db_queues d) (<[ld_ID l := l]> (db_leaders d)) (db_cursors d).
Definition withoutLeader (name : string) (d : Db) : Db := mkDb (db_jobs d) (db_queues d) (delete name (db_leaders d)) (db_cursors d).
Definition withCursor (c : scheduleCursorDoc) (d : Db) : Db := mkDb (db_jobs d) (db_queues d) (db_leaders d) (<[sd_ID c := c]> (db_cursors d)).

Definition noneMatches (f : Filter) (jobs : gmap ObjectID jobDoc) : bool :=
  forallb (λ kv, negb (matches stamp f kv.2)) (map_to_list jobs).

Definition keyTaken (key : string) (jobs : gmap ObjectID jobDoc) : bool :=
  existsb (λ kv, bool_decide (jd_UniqueKey kv.2 = key)) (map_to_list jobs).

(** An update of the job [id], if it matches. *)
Definition updateAt (id : ObjectID) (f : Filter) (us : list update) (jobs : gmap ObjectID jobDoc) : option (jobDoc * jobDoc) :=
  match jobs !! id with
  | Some j => if matches stamp f j then (λ j', (j, j')) <$> applyUpdate stamp us j else None
  | None => None
  end.

Definition isFirst (f : Filter) (j : jobDoc) (jobs : gmap ObjectID jobDoc) : bool :=
  forallb (λ kv, negb (matches stamp f kv.2 && claimLess kv.2 j)) (map_to_list jobs).

Definition renewable (w : string) (now : Instant) (l : leaderDoc) : bool :=
  (ld_ExpiresAt l <=? stamp now) || bool_decide (ld_WorkerID l = w).

Definition guarded (b : bool) (d : Db) : option Db := if b then Some d else None.

Definition step (m : move) (d : Db) : option Db :=
  match m with
  | MSeesJob f (Some j) => guarded (bool_decide (db_jobs d !! jd_ID j = Some j) && matches stamp f j) d
  | MSeesJob f None => guarded (noneMatches f (db_jobs d)) d
  | MInsertJob id doc =>
      onJobs (λ jobs,
        if bool_decide (jobs !! id = None) && negb (bool_decide (jd_UniqueKey doc ≠ "") && keyTaken (jd_UniqueKey doc) jobs)
        then Some (<[id := stampJob stamp (doc_ID id doc)]> jobs) else None) d
  | MUpdateJob id f us changed =>
      onJobs (λ jobs, match updateAt id f us jobs with
                      | Some (j, j') => if bool_decide (changed = bool_decide (j ≠ j')) then Some (<[id := j']> jobs) else None
                      | None => None
                      end) d
  | MClaimJob j' f us =>
      onJobs (λ jobs, match updateAt (jd_ID j') f us jobs with
                      | Some (j, j1) => if bool_decide (j1 = j') && isFirst f j jobs then Some (<[jd_ID j' := j']> jobs) else None
                      | None => None
                      end) d
  | MDeleteJob id => onJobs (λ jobs, if bool_decide (is_Some (jobs !! id)) then Some (delete id jobs) else None) d
  | MSeesQueue name x => guarded (bool_decide (db_queues d !! name = x)) d
  | MNewQueue q => if bool_decide (db_queues d !! qd_Name q = None) then Some (withQueue (stampQueue stamp q) d) else None
  | MPauseQueue name paused now =>
      Some (withQueue (mkQueueDoc name paused (match db_queues d !! name with Some q => qd_CreatedAt q | None => zeroTime end) (stamp now)) d)
  | MSeesLeader name x => guarded (bool_decide (db_leaders d !! name = x)) d
  | MRenewLeader l now =>
      match db_leaders d !! ld_ID l with
      | Some cur => if renewable (ld_WorkerID l) now cur then Some (withLeader (stampLeader stamp l) d) else None
      | None => None
      end
  | MInsertLeader l => if bool_decide (db_leaders d !! ld_ID l = None) then Some (withLeader (stampLeader stamp l) d) else None
  | MDeleteLeader name w =>
      match db_leaders d !! name with
      | Some cur => if bool_decide (ld_WorkerID cur = w) then Some (withoutLeader name d) else None
      | None => None
      end
  | MExpireLeader name at_ =>
      match db_leaders d !! name with
      | Some cur => if ld_ExpiresAt cur <=? at_ then Some (withoutLeader name d) else None
      | None => None
      end
  | MSeesCursor id x => guarded (bool_decide (db_cursors d !! id = x)) d
  | MInsertCursor c =>
      if bool_decide (db_cursors d !! sd_ID c = None) then Some (withCursor (mkScheduleCursorDoc (sd_ID c) (stamp (sd_At c))) d) else None
  | MMoveCursor id expected next =>
      match db_cursors d !! id with
      | Some c => if sd_At c =? stamp expected then Some (withCursor (mkScheduleCursorDoc id (stamp next)) d) else None
      | None => None
      end
  end.
End moves.

Abbreviation runMoves stamp := (Moves.runMoves (step stamp)).
Abbreviation others stamp := (Moves.others (step stamp)).

(** Every document is stored under its own id. *)
Record keyedDb (d : Db) : Prop := {
  kd_jobs id j : db_jobs d !! id = Some j → jd_ID j = id;
  kd_leaders name l : db_leaders d !! name = Some l → ld_ID l = name
}.

(** ** What a call has done when it answers *)

Definition countTrue (cs : list bool) : Z := Z.of_nat (length (filter (λ c, c = true) cs)).

(** created_at DESC, _id DESC. *)
Definition foundLess (a b : jobDoc) : bool :=
  if negb (jd_CreatedAt a =? jd_CreatedAt b) then jd_CreatedAt b <? jd_CreatedAt a else (jd_ID b <? jd_ID a)%N.
Definition inFoundOrder : list jobDoc → Prop := StronglySorted (λ a b, foundLess b a = false).

Section served.
Context (stamp : Instant → Instant).

Definition served (q : request) (ms : list move) : reply q → Prop :=
  match q with
  | InsertJob doc => λ id, ms = [MInsertJob id doc]
  | UpsertJob key doc => λ a,
      match a with
      | Some id => ms = [MInsertJob id doc]
      | None => ∃ j, ms = [MSeesJob (mkFilter [IsUniqueKey key] []) (Some j)]
      end
  | FindJob f => λ x, ms = [MSeesJob f x]
  | FindJobs f limit => λ l, ms = (λ j, MSeesJob f (Some j)) <$> l ∧ Z.of_nat (length l) ≤ Z.max 0 limit ∧ inFoundOrder l
  | GroupStates _ => λ l, ms = [] ∧ NoDup l.*1
  | ClaimJob f us => λ x,
      match x with
      | None => ms = [MSeesJob f None]
      | Some j' => ms = [MClaimJob j' f us]
      end
  | UpdateJob f us => λ '(matched, modified),
      matched = 0 ∧ modified = 0 ∧ ms = [MSeesJob f None] ∨
      matched = 1 ∧ ∃ id changed, ms = [MUpdateJob id f us changed] ∧ modified = if changed : bool then 1 else 0
  | UpdateJobs f us => λ modified,
      ∃ l : list (ObjectID * bool), NoDup l.*1 ∧ ms = (λ c, MUpdateJob c.1 f us c.2) <$> l ∧ modified = countTrue l.*2
  | DeleteJob id => λ deleted,
      deleted = 0 ∧ ms = [MSeesJob (mkFilter [IsID id] []) None] ∨ deleted = 1 ∧ ms = [MDeleteJob id]
  | FindQueue name => λ x, ms = [MSeesQueue name x]
  | UpsertQueue q => λ a, ms = [MNewQueue q] ∧ a = stampQueue stamp q ∨ ms = [MSeesQueue (qd_Name q) (Some a)]
  | PauseQueue name paused now => λ _, ms = [MPauseQueue name paused now]
  | FindQueues after limit => λ l,
      ms = (λ q, MSeesQueue (qd_Name q) (Some q)) <$> l ∧ Z.of_nat (length l) ≤ Z.max 0 limit ∧
      Forall (λ q, match after with Some n => str_lt n (qd_Name q) | None => true end = true) l
  | RenewLeader l now => λ matched,
      matched = 1 ∧ ms = [MRenewLeader l now] ∨
      matched = 0 ∧ ∃ x, ms = [MSeesLeader (ld_ID l) x] ∧
        match x with Some cur => renewable stamp (ld_WorkerID l) now cur = false | None => True end
  | InsertLeader l => λ _, ms = [MInsertLeader l]
  | DeleteLeader name w => λ _,
      ms = [MDeleteLeader name w] ∨ ∃ x, ms = [MSeesLeader name x] ∧ match x with Some cur => ld_WorkerID cur ≠ w | None => True end
  | InsertCursor c => λ _, ms = [MInsertCursor c]
  | FindCursor id => λ x, ms = [MSeesCursor id x]
  | MoveCursor id expected next => λ modified,
      ms = [MMoveCursor id expected next] ∧ modified = (if stamp expected =? stamp next then 0 else 1) ∨
      modified = 0 ∧ ∃ x, ms = [MSeesCursor id x] ∧ match x with Some c => sd_At c ≠ stamp expected | None => True end
  end.

(** A duplicate key: what holds it has been seen. *)
Definition duplicate (q : request) (ms : list move) : Prop :=
  match q with
  | UpsertJob key _ => ∃ j, ms = [MSeesJob (mkFilter [IsUniqueKey key] []) (Some j)]
  | InsertLeader l => ∃ cur, ms = [MSeesLeader (ld_ID l) (Some cur)]
  | InsertCursor c => ∃ cur, ms = [MSeesCursor (sd_ID c) (Some cur)]
  | _ => ms = []
  end.

(** After any other error nobody knows whether it has changed something. *)
Definition unknown (q : request) (ms : list move) : Prop :=
  ms = [] ∨ Forall (λ m, isSee m = false) ms ∧ ∃ a, served q ms a.
End served.

Section service.
Context {MG : Type} `{Mongo MG}.

Class MongoLaws := {
  mg_stamp : Instant → Instant;
  mg_db : MG → Db;
  mg_hex_law id : mg_ObjectIDFromHex (mg_Hex id) = Ok id;
  mg_fromHex_foreign s e : mg_ObjectIDFromHex s = Err e → foreignErr e;
  mg_noDocuments_foreign : foreignErr mg_ErrNoDocuments;
  mg_call_law q s : keyedDb (mg_db s) → ∃ acts,
    Moves.happens (step mg_stamp) (mg_db s) (mg_db (mg_call None q s).1) acts ∧
    match (mg_call None q s).2 with
    | Ok a => served mg_stamp q (did acts) a
    | Err e => foreignErr e ∧
        if mg_isDuplicateKeyError e then duplicate q (did acts) else unknown mg_stamp q (did acts)
    end;
  mg_session_law c q s : others mg_stamp (mg_db s) (mg_db (mg_call (Some c) q s).1)
}.
End service.
Arguments MongoLaws MG {H}.

(** ** The logic of programs *)

Ltac keyed_same := split; simpl; [by eapply kd_jobs|by eapply kd_leaders].

Lemma applyUpdate_frame stamp us : ∀ j j', applyUpdate stamp us j = Some j' →
  jd_ID j' = jd_ID j ∧ jd_Queue j' = jd_Queue j ∧ (jd_UniqueKey j' = jd_UniqueKey j ∨ jd_UniqueKey j' = "").
Proof.
  induction us as [|u us IH]; intros j j'; simpl; [intros [= <-]; auto|].
  destruct (applyOne stamp u j) as [j1|] eqn:E; [|done]. intros (-> & -> & Hk)%IH.
  assert (jd_ID j1 = jd_ID j ∧ jd_Queue j1 = jd_Queue j ∧ (jd_UniqueKey j1 = jd_UniqueKey j ∨ jd_UniqueKey j1 = "")) as (-> & -> & Hk1).
  { destruct u; simpl in E; repeat case_match; simplify_eq/=; auto. }
  split; [done|]. split; [done|]. destruct Hk as [->| ->]; auto.
Qed.

Lemma updateAt_Some stamp id f us jobs j j' : updateAt stamp id f us jobs = Some (j, j') ↔
  jobs !! id = Some j ∧ matches stamp f j = true ∧ applyUpdate stamp us j = Some j'.
Proof.
  unfold updateAt. split.
  - intros Hu. destruct (jobs !! id) as [j0|]; [|done]. destruct (matches stamp f j0) eqn:?; [|done].
    destruct (applyUpdate stamp us j0) eqn:?; simplify_eq/=. done.
  - intros (-> & -> & ->). done.
Qed.

Lemma onJobs_Some g d d' : onJobs g d = Some d' ↔
  ∃ jobs, g (db_jobs d) = Some jobs ∧ d' = mkDb jobs (db_queues d) (db_leaders d) (db_cursors d).
Proof. unfold onJobs. destruct (g (db_jobs d)); simpl; naive_solver. Qed.

(** What a move makes of the jobs: nothing, a new one, a changed one, or one less. *)
Lemma mg_step_jobs stamp m d d' : step stamp m d = Some d' →
  match m with
  | MInsertJob id doc =>
      db_jobs d !! id = None ∧ (jd_UniqueKey doc ≠ "" → keyTaken (jd_UniqueKey doc) (db_jobs d) = false) ∧
      db_jobs d' = <[id := stampJob stamp (doc_ID id doc)]> (db_jobs d)
  | MUpdateJob id f us changed =>
      ∃ j j', db_jobs d !! id = Some j ∧ matches stamp f j = true ∧ applyUpdate stamp us j = Some j' ∧
        changed = bool_decide (j ≠ j') ∧ db_jobs d' = <[id := j']> (db_jobs d)
  | MClaimJob j' f us =>
      ∃ j, db_jobs d !! jd_ID j' = Some j ∧ matches stamp f j = true ∧ applyUpdate stamp us j = Some j' ∧
        isFirst stamp f j (db_jobs d) = true ∧ db_jobs d' = <[jd_ID j' := j']> (db_jobs d)
  | MDeleteJob id => is_Some (db_jobs d !! id) ∧ db_jobs d' = delete id (db_jobs d)
  | _ => db_jobs d' = db_jobs d
  end.
Proof.
  destruct m; cbn [step]; unfold guarded; intros Hs; try (repeat case_match; simplify_eq/=; done).
  all: apply onJobs_Some in Hs as (jobs & Hs & ->); cbn [db_jobs].
  - destruct (_ && _) eqn:E; [|done]. simplify_eq. apply andb_true_iff in E as [E1 E2]. apply bool_decide_eq_true in E1.
    apply negb_true_iff in E2. split; [done|]. split; [|done]. intros Hne. by rewrite bool_decide_eq_true_2 in E2.
  - destruct (updateAt _ _ _ _ _) as [[j j']|] eqn:Hu; [|done]. apply updateAt_Some in Hu as (? & ? & ?). case_bool_decide; naive_solver.
  - destruct (updateAt _ _ _ _ _) as [[j j1]|] eqn:Hu; [|done]. apply updateAt_Some in Hu as (? & ? & ?).
    destruct (_ && _) eqn:Hb; [|done]. simplify_eq. apply andb_true_iff in Hb as [->%bool_decide_eq_true Hb]. eauto 10.
  - case_bool_decide; naive_solver.
Qed.

Lemma mg_step_leaders stamp m d d' : step stamp m d = Some d' →
  match m with
  | MRenewLeader l now =>
      ∃ cur, db_leaders d !! ld_ID l = Some cur ∧ renewable stamp (ld_WorkerID l) now cur = true ∧
        db_leaders d' = <[ld_ID l := stampLeader stamp l]> (db_leaders d)
  | MInsertLeader l => db_leaders d !! ld_ID l = None ∧ db_leaders d' = <[ld_ID l := stampLeader stamp l]> (db_leaders d)
  | MDeleteLeader name w =>
      ∃ cur, db_leaders d !! name = Some cur ∧ ld_WorkerID cur = w ∧ db_leaders d' = delete name (db_leaders d)
  | MExpireLeader name at_ =>
      ∃ cur, db_leaders d !! name = Some cur ∧ ld_ExpiresAt cur ≤ at_ ∧ db_leaders d' = delete name (db_leaders d)
  | _ => db_leaders d' = db_leaders d
  end.
Proof.
  destruct m; cbn [step]; unfold guarded; intros Hs; try (repeat case_match; simplify_eq/=; done).
  1,2,3,4: apply onJobs_Some in Hs as (jobs & _ & ->); done.
  - destruct (db_leaders d !! _) as [cur|] eqn:E; [|done]. destruct (renewable _ _ _ _) eqn:?; [|done]. simplify_eq. eauto.
  - case_bool_decide; by simplify_eq.
  - destruct (db_leaders d !! _) as [cur|] eqn:E; [|done]. case_bool_decide; [|done]. simplify_eq. eauto.
  - destruct (db_leaders d !! _) as [cur|] eqn:E; [|done]. destruct (_ <=? _) eqn:?; [|done]. simplify_eq. bool_to_prop. eauto.
Qed.

Lemma mg_step_keyed stamp m d d' : keyedDb d → step stamp m d = Some d' → keyedDb d'.
Proof.
  intros [Hj Hl] Hs. pose proof (mg_step_jobs _ _ _ _ Hs) as Hjs. pose proof (mg_step_leaders _ _ _ _ Hs) as Hls. split.
  - intros id j. destruct m; try (rewrite Hjs; by apply Hj).
    + destruct Hjs as (_ & _ & ->). rewrite lookup_insert_Some. intros [[<- <-]|[_ ?]]; [done|by apply Hj].
    + destruct Hjs as (j1 & j2 & H1 & _ & Ha & _ & ->). rewrite lookup_insert_Some. intros [[<- <-]|[_ ?]]; [|by apply Hj].
      destruct (applyUpdate_frame _ _ _ _ Ha) as (-> & _). by apply Hj.
    + destruct Hjs as (j1 & _ & _ & _ & _ & ->). rewrite lookup_insert_Some. intros [[<- <-]|[_ ?]]; [done|by apply Hj].
    + destruct Hjs as (_ & ->). rewrite lookup_delete_Some. intros [_ ?]. by apply Hj.
  - intros name l. destruct m; try (rewrite Hls; by apply Hl).
    + destruct Hls as (cur & _ & _ & ->). rewrite lookup_insert_Some. intros [[<- <-]|[_ ?]]; [done|by apply Hl].
    + destruct Hls as (_ & ->). rewrite lookup_insert_Some. intros [[<- <-]|[_ ?]]; [done|by apply Hl].
    + destruct Hls as (cur & _ & _ & ->). rewrite lookup_delete_Some. intros [_ ?]. by apply Hl.
    + destruct Hls as (cur & _ & _ & ->). rewrite lookup_delete_Some. intros [_ ?]. by apply Hl.
Qed.

Section logic.
Context {MG : Type} `{Mongo MG} `{!MongoLaws MG}.
Abbreviation dbOf e := (mg_db (mv_mg e)).

Definition does {A} (m : io A) (Q : list (act move) → A → Prop) : Prop :=
  Moves.does (step mg_stamp) (λ e, dbOf e) keyedDb m Q.

Lemma mg_weaken {A} (m : io A) (Q Q' : list (act move) → A → Prop) : does m Q → (∀ acts a, Q acts a → Q' acts a) → does m Q'.
Proof. apply moves_weaken. Qed.

Lemma mg_ret {A} (a : A) (Q : list (act move) → A → Prop) : Q [] a → does (mret a) Q.
Proof. apply moves_ret. Qed.

Lemma mg_bind {A B} (m : io A) (f : A → io B) (Q : list (act move) → B → Prop) :
  does m (λ a1 x, does (f x) (λ a2 y, Q (a1 ++ a2) y)) → does (m ≫= f) Q.
Proof. apply moves_bind, mg_step_keyed. Qed.

Lemma mg_now Q : (∀ now, Q [] now) → does clkNow Q.
Proof.
  intros HQ e _. exists []. unfold clkNow. destruct (Now (mv_clk e)) as [now clk]. simpl.
  split; [by apply happens_others|done].
Qed.

Definition possible (m : move) : Prop := ∃ d d', keyedDb d ∧ step mg_stamp m d = Some d'.

(** A call: what it has done, by its answer. *)
Lemma mg_does_call q (Q : list (act move) → result (reply q) → Prop) :
  (∀ acts a, Forall possible (did acts) → served mg_stamp q (did acts) a → Q acts (Ok a)) →
  (∀ acts e, foreignErr e → Forall possible (did acts) → mg_isDuplicateKeyError e = true → duplicate q (did acts) → Q acts (Err e)) →
  (∀ acts e, foreignErr e → Forall possible (did acts) → mg_isDuplicateKeyError e = false → unknown mg_stamp q (did acts) → Q acts (Err e)) →
  does (call None q) Q.
Proof.
  intros HQ HD HU e He. unfold call, onService. destruct (mg_call_law q (mv_mg e) He) as (acts & Hh & Hr).
  pose proof (happens_ran _ keyedDb (mg_step_keyed mg_stamp) _ _ _ Hh He) as Hp.
  destruct (mg_call None q (mv_mg e)) as [s r]. simpl in *. exists acts. split; [done|].
  destruct r as [a|err]; [by apply HQ|]. destruct Hr as [Hf Hr]. destruct (mg_isDuplicateKeyError err) eqn:E; auto.
Qed.

(** A failure that does not depend on what kind of error it is. *)
Lemma mg_does_call' q (Q : list (act move) → result (reply q) → Prop) :
  (∀ acts a, Forall possible (did acts) → served mg_stamp q (did acts) a → Q acts (Ok a)) →
  (∀ acts e, foreignErr e → Forall possible (did acts) → unknown mg_stamp q (did acts) ∨ duplicate q (did acts) → Q acts (Err e)) →
  does (call None q) Q.
Proof. intros HQ HU. apply mg_does_call; auto. Qed.

(** In a session nothing is done that others could see. *)
Lemma mg_session_call c q (Q : list (act move) → result (reply q) → Prop) :
  (∀ r, Q [] r) → does (call (Some c) q) Q.
Proof.
  intros HQ e He. unfold call, onService. pose proof (mg_session_law c q (mv_mg e)) as Ho.
  destruct (mg_call (Some c) q (mv_mg e)) as [s r]. simpl in *. exists []. split; [by apply happens_others|done].
Qed.
End logic.
