(* ===== verification/MongoRefine.v ===== *)
(** * driver/mongodb: what each operation does

    [promised o acts a]: the operation [o], called outside of a session, has done
    [acts] and answered [a].  The refinement theorem says that every operation keeps
    its promise whatever other programs do between its calls, and that an operation
    within a session does nothing that others can see. *)

From S2P Require Import Prelude GoBase Json Codec Driver Moves Memory Mongo MongoLaws.
From Stdlib Require Import ZArith Lia.

(** ** Operations *)

Definition execOp {MG} `{Mongo MG} (ctx : option nat) (o : driverOp) : io (ans o) :=
  match o with
  | OInsert ps => jobInsertMany ctx ps
  | OGet id => jobGetByID ctx id
  | OList p => jobList ctx p
  | OStats q => queueStats ctx q
  | OFetch p => jobFetchBatch ctx p
  | ORescue p => jobRescueStuck ctx p
  | OHeartbeat p => jobHeartbeat ctx p
  | OMarkStarted p => jobMarkStarted ctx p
  | OSetState p => jobSetStateIfRunning ctx p
  | OCancel id => jobCancel ctx id
  | ODelete id => jobDelete ctx id
  | OReschedule p => jobReschedule ctx p
  | OQueueGet n => queueGet ctx n
  | OSetPaused n b => queueSetPaused ctx n b
  | OQueueList p => queueList ctx p
  | OElect p => leaderAttemptElect ctx p
  | OResign p => leaderResign ctx p
  | OCursorGet p => scheduleCursorGetOrCreate ctx p
  | OCursorAdvance p => scheduleCursorAdvance ctx p
  end.

(** A program: one operation after the other, each in or out of a session. *)
Fixpoint execAll {MG} `{Mongo MG} (os : list (option nat * driverOp)) (e : MgEnv MG)
  : MgEnv MG * list (option nat * {o : driverOp & ans o}) :=
  match os with
  | [] => (e, [])
  | (ctx, o) :: rest =>
      let '(e1, a) := execOp ctx o e in
      let '(e2, as_) := execAll rest e1 in
      (e2, (ctx, existT o a) :: as_)
  end.

(** ** Promises *)

(** The moves that change something. *)
Definition effects (acts : list (act move)) : list move := filter (λ m, isSee m = false) (did acts).

Section promises.
Context {MG : Type} `{Mongo MG} `{!MongoLaws MG}.

Definition byID (oid : ObjectID) : Filter := mkFilter [IsID oid] [].

(** What became of one parameter of a batch. *)
Definition insertedAs (now : Instant) (p : JobInsertParams) (ms : list move) (r : JobInsertResult) : Prop :=
  if ir_UniqueSkip r then
    ip_UniqueKey p ≠ "" ∧ ir_Job r = None ∧ ∃ j, ms = [MSeesJob (mkFilter [IsUniqueKey (ip_UniqueKey p)] []) (Some j)]
  else ∃ id, ms = [MInsertJob id (newDoc p now)] ∧ ir_Job r = Some (docToRow (doc_ID id (newDoc p now))).

(** How the rounds of claiming have ended. *)
Definition roundsEnd (f : Filter) (us : list update) (claimed limit : nat) (err : option error) (ms : list move) : Prop :=
  match err with
  | None => claimed = limit ∧ ms = [] ∨ (claimed < limit)%nat ∧ ms = [MSeesJob f None]
  | Some _ => (claimed < limit)%nat ∧ unknown mg_stamp (ClaimJob f us) ms
  end.

(** An update of the job [id] under a filter, as the answer of the operation shows it. *)
Definition maybeUpdated (oid : ObjectID) (f : Filter) (us : list update) (acts : list (act move)) : Prop :=
  effects acts = [] ∨ ∃ changed, effects acts = [MUpdateJob oid f us changed].

Definition settledBy (p : JobSetStateParams) (oid : ObjectID) (us : list update) (sees : list move) : Prop :=
  if sp_Yield p then us = yieldUpdate ∧ sees = []
  else ∃ now,
    if isFinal (sp_State p) then
      ∃ j, sees = [MSeesJob (settleFilter oid p) (Some j)] ∧ us = settleUpdate p now (negb (IsPermanentUniqueKey (jd_UniqueKey j)))
    else sees = [] ∧ us = settleUpdate p now false.

Definition promised (o : driverOp) (acts : list (act move)) : ans o → Prop :=
  match o with
  | OInsert ps => λ a, ∃ now,
      match a with
      | Ok rs => ∃ groups, did acts = mjoin groups ∧ Forall3 (insertedAs now) ps groups rs
      | Err _ => Forall (λ m, ∃ p id, p ∈ ps ∧ m = MInsertJob id (newDoc p now)) (effects acts)
      end
  | OGet id => λ a,
      match a with
      | Ok row => ∃ oid j, mg_ObjectIDFromHex id = Ok oid ∧ did acts = [MSeesJob (byID oid) (Some j)] ∧ row = docToRow j
      | Err e => if errorsIs e ErrNotFound then ∃ oid, mg_ObjectIDFromHex id = Ok oid ∧ did acts = [MSeesJob (byID oid) None]
                 else effects acts = []
      end
  | OList p => λ a,
      match a with
      | Ok rows => ∃ alts l, did acts = (λ j, MSeesJob (mkFilter (listConds p) alts) (Some j)) <$> l ∧ rows = docToRow <$> l ∧
          Z.of_nat (length l) ≤ pageLimit (jl_Limit p) ∧ inFoundOrder l
      | Err _ => effects acts = []
      end
  | OStats _ | OQueueList _ => λ _, effects acts = []
  | OFetch p => λ '(rows, err),
      (∃ q, did acts = [MSeesQueue (fp_Queue p) (Some q)] ∧ qd_Paused q = true ∧ rows = [] ∧ err = None) ∨
      ∃ now sees docs last, let f := fetchFilter (fp_Queue p) now in let us := fetchUpdate p now in
        did acts = sees ++ ((λ j, MClaimJob j f us) <$> docs) ++ last ∧
        (sees = [] ∨ ∃ x, sees = [MSeesQueue (fp_Queue p) x] ∧ match x with Some q => qd_Paused q = false | None => True end) ∧
        rows = docToRow <$> docs ∧
        roundsEnd f us (length docs) (Z.to_nat (fp_Limit p)) err last
  | ORescue p => λ '(n, err),
      match err with
      | None => served mg_stamp (UpdateJobs (rescueFilter p) rescueUpdate) (did acts) n
      | Some _ => n = 0 ∧ unknown mg_stamp (UpdateJobs (rescueFilter p) rescueUpdate) (did acts)
      end
  | OHeartbeat p => λ '(b, err),
      match err with
      | None => ∃ oid, mg_ObjectIDFromHex (hp_ID p) = Ok oid ∧
          let f := claimFilter oid (hp_WorkerID p) (hp_Attempt p) in let us := [SetLease (UTC (renewalUntil p))] in
          if b : bool then did acts = [MUpdateJob oid f us true]
          else did acts = [MSeesJob f None] ∨ did acts = [MUpdateJob oid f us false]
      | Some _ => b = false ∧ (did acts = [] ∨ ∃ oid, maybeUpdated oid (claimFilter oid (hp_WorkerID p) (hp_Attempt p)) [SetLease (UTC (renewalUntil p))] acts)
      end
  | OMarkStarted p => λ '(b, err),
      match err with
      | None => ∃ oid, mg_ObjectIDFromHex (ms_ID p) = Ok oid ∧
          let f := claimFilter oid (ms_WorkerID p) (ms_Attempt p) in let us := [SetStartedAt (UTC (ms_At p))] in
          if b : bool then ∃ changed, did acts = [MUpdateJob oid f us changed] else did acts = [MSeesJob f None]
      | Some _ => b = false ∧ (did acts = [] ∨ ∃ oid, maybeUpdated oid (claimFilter oid (ms_WorkerID p) (ms_Attempt p)) [SetStartedAt (UTC (ms_At p))] acts)
      end
  | OSetState p => λ err,
      did acts = [] ∧ err ≠ None ∨
      ∃ oid, mg_ObjectIDFromHex (sp_ID p) = Ok oid ∧ let f := settleFilter oid p in
      match err with
      | None => ∃ us sees, settledBy p oid us sees ∧ did acts = sees ++ [MUpdateJob oid f us true]
      | Some e =>
          if errorsIs e ErrStaleClaim
          then ∃ us sees, (settledBy p oid us sees ∨ sees = []) ∧ (did acts = sees ++ [MSeesJob f None] ∨ did acts = sees ++ [MUpdateJob oid f us false])
          else ∃ us, maybeUpdated oid f us acts
      end
  | OCancel id => λ err,
      did acts = [] ∧ err ≠ None ∨
      ∃ oid, mg_ObjectIDFromHex id = Ok oid ∧ let f := cancelFilter oid in
      match err with
      | None => ∃ j now, let us := cancelUpdate now (negb (IsPermanentUniqueKey (jd_UniqueKey j))) in
          (∃ changed, did acts = [MSeesJob f (Some j); MUpdateJob oid f us changed]) ∨ did acts = [MSeesJob f (Some j); MSeesJob f None]
      | Some e =>
          if errorsIs e ErrNotFound then did acts = [MSeesJob f None; MSeesJob (byID oid) None]
          else if errorsIs e ErrConflict then ∃ j, did acts = [MSeesJob f None; MSeesJob (byID oid) (Some j)]
          else ∃ us, maybeUpdated oid f us acts
      end
  | ODelete id => λ err,
      did acts = [] ∧ err ≠ None ∨
      ∃ oid, mg_ObjectIDFromHex id = Ok oid ∧
      match err with
      | None => did acts = [MDeleteJob oid]
      | Some e => if errorsIs e ErrNotFound then did acts = [MSeesJob (byID oid) None] else did acts = [] ∨ effects acts = [] ∨ did acts = [MDeleteJob oid]
      end
  | OReschedule p => λ err,
      did acts = [] ∧ err ≠ None ∨
      ∃ oid, mg_ObjectIDFromHex (rs_ID p) = Ok oid ∧
      match err with
      | None => ∃ changed, did acts = [MUpdateJob oid (byID oid) (rescheduleUpdate p) changed]
      | Some e => if errorsIs e ErrNotFound then did acts = [MSeesJob (byID oid) None] else maybeUpdated oid (byID oid) (rescheduleUpdate p) acts
      end
  | OQueueGet n => λ a, ∃ now, let q := mkQueueDoc n false now now in
      match a with
      | Ok row => ∃ q', row = rowOfQueue q' ∧ (did acts = [MNewQueue q] ∧ q' = stampQueue mg_stamp q ∨ did acts = [MSeesQueue n (Some q')])
      | Err _ => effects acts = [] ∨ effects acts = [MNewQueue q]
      end
  | OSetPaused n b => λ err,
      ∃ now, match err with None => did acts = [MPauseQueue n b now] | Some _ => did acts = [] ∨ did acts = [MPauseQueue n b now] end
  | OElect p => λ '(b, err), ∃ now, let l := newLeader p now in
      match err with
      | None =>
          if b : bool then did acts = [MRenewLeader l now] ∨ ∃ x, did acts = [MSeesLeader (le_Name p) x; MInsertLeader l]
          else ∃ x cur, did acts = [MSeesLeader (le_Name p) x; MSeesLeader (le_Name p) (Some cur)] ∧
                 match x with Some l' => renewable mg_stamp (le_WorkerID p) now l' = false | None => True end
      | Some _ => b = false ∧ (effects acts = [] ∨ effects acts = [MRenewLeader l now] ∨ effects acts = [MInsertLeader l])
      end
  | OResign p => λ err,
      match err with
      | None => did acts = [MDeleteLeader (lr_Name p) (lr_WorkerID p)] ∨
          ∃ x, did acts = [MSeesLeader (lr_Name p) x] ∧ match x with Some cur => ld_WorkerID cur ≠ lr_WorkerID p | None => True end
      | Some _ => effects acts = [] ∨ effects acts = [MDeleteLeader (lr_Name p) (lr_WorkerID p)]
      end
  | OCursorGet p => λ '(r, err), let c := mkScheduleCursorDoc (cc_ID p) (UTC (cc_InitialAt p)) in
      match err with
      | None => ∃ x, cr_At r = UTC (sd_At x) ∧
          if cr_Created r then did acts = [MInsertCursor c; MSeesCursor (cc_ID p) (Some x)]
          else ∃ y, did acts = [MSeesCursor (cc_ID p) (Some y); MSeesCursor (cc_ID p) (Some x)]
      | Some _ => effects acts = [] ∨ effects acts = [MInsertCursor c]
      end
  | OCursorAdvance p => λ '(b, err),
      match err with
      | None => if b : bool then did acts = [MMoveCursor (ca_ID p) (UTC (ca_Expected p)) (UTC (ca_Next p))]
                else (∃ x, did acts = [MSeesCursor (ca_ID p) x] ∧ match x with Some c => sd_At c ≠ mg_stamp (ca_Expected p) | None => True end) ∨
                     did acts = [MMoveCursor (ca_ID p) (UTC (ca_Expected p)) (UTC (ca_Next p))] ∧ mg_stamp (ca_Expected p) = mg_stamp (ca_Next p)
      | Some _ => b = false ∧ (effects acts = [] ∨ effects acts = [MMoveCursor (ca_ID p) (UTC (ca_Expected p)) (UTC (ca_Next p))])
      end
  end.

(** ** Helpers *)

Lemma mg_effects_see m ms : isSee m = true → filter (λ m, isSee m = false) (m :: ms) = filter (λ m, isSee m = false) ms.
Proof. intros Hm. rewrite filter_cons_False; [done|]. by rewrite Hm. Qed.
Lemma mg_effects_move m ms : isSee m = false → filter (λ m, isSee m = false) (m :: ms) = m :: filter (λ m, isSee m = false) ms.
Proof. intros Hm. by rewrite filter_cons_True. Qed.
Lemma mg_effects_sees {A} (g : A → move) l : (∀ a, isSee (g a) = true) → filter (λ m, isSee m = false) (g <$> l) = [].
Proof. intros Hg. induction l as [|a l IH]; [done|]. rewrite fmap_cons, mg_effects_see by apply Hg. exact IH. Qed.

Lemma matches_id f (j : jobDoc) oid : matches mg_stamp f j = true → IsID oid ∈ f_all f → jd_ID j = oid.
Proof.
  unfold matches. intros [Hm _]%andb_true_iff Hin. rewrite forallb_forall in Hm.
  apply list_elem_of_In in Hin. specialize (Hm _ Hin). simpl in Hm. by bool_to_prop.
Qed.

(** The job an update names is the one its filter asks for. *)
Lemma possible_update id f us c oid : possible (MUpdateJob id f us c) → IsID oid ∈ f_all f → id = oid.
Proof.
  intros (d & d' & Hk & Hs) Hin. apply mg_step_jobs in Hs as (j & j' & Hj & Hm & _).
  rewrite <-(kd_jobs _ Hk _ _ Hj). by eapply matches_id.
Qed.

(** The answers to an update of one job. *)
Lemma update_answers oid f us (ms : list move) a : IsID oid ∈ f_all f → Forall possible ms → served mg_stamp (UpdateJob f us) ms a →
  a = (0, 0) ∧ ms = [MSeesJob f None] ∨ ∃ changed : bool, a = (1, if changed then 1 else 0) ∧ ms = [MUpdateJob oid f us changed].
Proof.
  destruct a as [n k]. intros Hin Hp [(-> & -> & ->)|(-> & id & c & -> & ->)]; [by left|right].
  apply Forall_cons in Hp as [Hp _]. rewrite <-(possible_update _ _ _ _ _ Hp Hin). eauto.
Qed.

Lemma update_failed oid f us (acts : list (act move)) : IsID oid ∈ f_all f → Forall possible (did acts) →
  unknown mg_stamp (UpdateJob f us) (did acts) ∨ duplicate (UpdateJob f us) (did acts) → maybeUpdated oid f us acts.
Proof.
  unfold maybeUpdated, effects. intros Hin Hp [[->|[_ [a Ha]]]| ->]; [by left| |by left].
  destruct (update_answers _ _ _ _ _ Hin Hp Ha) as [[_ ->]|(c & _ & ->)]; [by left|]. right. by exists c.
Qed.

Lemma foreign_is e : foreignErr e →
  errorsIs e ErrStaleClaim = false ∧ errorsIs e ErrConflict = false ∧ errorsIs e ErrNotFound = false.
Proof. by intros (_ & ? & ? & ?). Qed.

(** An id that does not parse: nothing has been done. *)
Lemma mg_withID {A} id fail (f : ObjectID → io A) (Q : list (act move) → A → Prop) :
  (∀ err, foreignErr err → Q [] (fail (badID id err))) → (∀ oid, mg_ObjectIDFromHex id = Ok oid → does (f oid) Q) → does (withID id fail f) Q.
Proof.
  intros HE HF. unfold withID. destruct (mg_ObjectIDFromHex id) as [oid|err] eqn:E; [by apply HF|].
  apply mg_ret, HE. by eapply mg_fromHex_foreign.
Qed.
End promises.

(** ** The operations keep their promises *)

Section refine.
Context {MG : Type} `{Mongo MG} `{!MongoLaws MG}.

Ltac mg_call := apply mg_bind; refine (mg_does_call' _ _ _ _).
Ltac finish := apply mg_ret; rewrite ?app_nil_r; simpl.
Ltac foreign He := destruct (foreign_is _ He) as (?Hst & ?Hcf & ?Hnf).
Ltac one_of := repeat first [left; done | right].

Lemma mg_get_promise id : does (execOp None (OGet id)) (promised (OGet id)).
Proof.
  apply mg_withID; [intros err He; foreign He; simpl; by rewrite Hnf|]. intros oid Hid.
  mg_call.
  - intros acts [j|] _ Hs; finish.
    + eauto.
    + eauto.
  - intros acts e He _ Hu. finish. foreign He. rewrite Hnf. unfold effects.
    destruct Hu as [[->|[_ [a ->]]]| ->]; [done|by destruct a|done].
Qed.

Lemma effects_none q (acts : list (act move)) :
  (∀ a, served mg_stamp q (did acts) a → effects acts = []) → duplicate q (did acts) = (did acts = []) →
  unknown mg_stamp q (did acts) ∨ duplicate q (did acts) → effects acts = [].
Proof. intros Hs Hd [[Hn|[_ [a Ha]]]|Hdup]; [unfold effects; by rewrite Hn|by eapply Hs|]. rewrite Hd in Hdup. unfold effects. by rewrite Hdup. Qed.

Lemma served_find_effects f limit (acts : list (act move)) l : served mg_stamp (FindJobs f limit) (did acts) l → effects acts = [].
Proof. intros (Hd & _). unfold effects. rewrite Hd. by apply mg_effects_sees. Qed.

Lemma mg_list_promise p : does (execOp None (OList p)) (promised (OList p)).
Proof.
  assert (∀ alts, does (r ← call None (FindJobs (mkFilter (listConds p) alts) (pageLimit (jl_Limit p)));
    mret match r with Err err => Err err | Ok docs => Ok (docToRow <$> docs) end) (promised (OList p))) as Hgo.
  { intros alts. mg_call.
    - intros acts l _ (Hd & Hl & Hs); finish. exists alts, l. split_and!; [done..| |done]. unfold pageLimit in *. case_match; lia.
    - intros acts e He _ Hu. finish. refine (effects_none _ _ _ _ Hu); [|done]. intros l. apply served_find_effects. }
  simpl. unfold jobList. case_bool_decide; [apply Hgo|].
  destruct (DecodeJobCursor (jl_Cursor p)) as [[at_ id]|err]; [|by finish].
  destruct (mg_ObjectIDFromHex id) as [oid|err]; [apply Hgo|by finish].
Qed.

Lemma mg_stats_promise q : does (execOp None (OStats q)) (promised (OStats q)).
Proof.
  mg_call.
  - intros acts l _ [Hd _]; finish. unfold effects. by rewrite Hd.
  - intros acts e He _ Hu. finish. refine (effects_none _ _ _ _ Hu); [|done]. intros l [Hd _]. unfold effects. by rewrite Hd.
Qed.

Lemma mg_queueList_promise p : does (execOp None (OQueueList p)) (promised (OQueueList p)).
Proof.
  assert (∀ c, does (r ← call None (FindQueues c (pageLimit (ql_Limit p)));
    mret match r with Err err => Err err | Ok docs => Ok (rowOfQueue <$> docs) end) (promised (OQueueList p))) as Hgo.
  { intros c. assert (∀ (acts : list (act move)) l, served mg_stamp (FindQueues c (pageLimit (ql_Limit p))) (did acts) l → effects acts = []) as Hs.
    { intros acts l (Hd & _). unfold effects. rewrite Hd. by apply mg_effects_sees. }
    mg_call.
    - intros acts l _ Hl; finish. by eapply Hs.
    - intros acts e He _ Hu. finish. refine (effects_none _ _ _ _ Hu); [|done]. apply Hs. }
  simpl. unfold queueList. case_bool_decide; [apply Hgo|].
  destruct (DecodeQueueCursor (ql_Cursor p)); [apply Hgo|by finish].
Qed.

(** ** Inserting *)

Definition insertOutcome (now : Instant) (ps : list JobInsertParams) (acts : list (act move)) (r : result (list JobInsertResult)) : Prop :=
  match r with
  | Ok rs => ∃ groups, did acts = mjoin groups ∧ Forall3 (insertedAs now) ps groups rs
  | Err _ => Forall (λ m, ∃ p id, p ∈ ps ∧ m = MInsertJob id (newDoc p now)) (effects acts)
  end.

Lemma insertParam_keeps now i p : does (insertParam None now i p) (λ acts r,
  match r with
  | Ok res => insertedAs now p (did acts) res
  | Err _ => effects acts = [] ∨ ∃ id, effects acts = [MInsertJob id (newDoc p now)]
  end).
Proof.
  unfold insertParam. case_bool_decide as Hk; apply mg_bind; refine (mg_does_call _ _ _ _ _).
  - intros acts [id|] _ Hs; finish; unfold insertedAs; simpl; [by exists id|done].
  - intros acts e He _ -> Hd. finish. unfold insertedAs; simpl. done.
  - intros acts e He _ -> [Hd|[_ [[id|] Hd]]]; finish; unfold effects; [left; by rewrite Hd|right; exists id; by rewrite Hd|left; destruct Hd as (j & ->); done].
  - intros acts id _ Hs; finish; unfold insertedAs; simpl. by exists id.
  - intros acts e He _ _ Hd. finish. unfold effects. left. by rewrite Hd.
  - intros acts e He _ _ [Hd|[_ [id Hd]]]; finish; unfold effects; [left; by rewrite Hd|right; exists id; by rewrite Hd].
Qed.

Lemma insertedAs_effects now p ms r : insertedAs now p ms r →
  Forall (λ m, ∃ id, m = MInsertJob id (newDoc p now)) (filter (λ m, isSee m = false) ms).
Proof.
  unfold insertedAs. destruct (ir_UniqueSkip r); [intros (_ & _ & j & ->)|intros (id & -> & _)]; [by constructor|].
  rewrite mg_effects_move by done. constructor; [by exists id|constructor].
Qed.

Lemma insertParams_keeps now ps : ∀ i, does (insertParams None now i ps) (insertOutcome now ps).
Proof.
  induction ps as [|p ps IH]; intros i; simpl; [finish; exists []; split; [done|constructor]|].
  apply mg_bind. eapply mg_weaken; [apply insertParam_keeps|]. intros a1 [res|e] H1; simpl in H1.
  - apply mg_bind. eapply mg_weaken; [apply IH|]. intros a2 [rs|e] H2; finish; unfold insertOutcome in H2 |- *.
    + destruct H2 as (groups & Hd & Hf). exists (did a1 :: groups). rewrite did_app, Hd. split; [done|]. by constructor.
    + unfold effects in *. rewrite did_app, filter_app. apply Forall_app. split.
      * eapply Forall_impl; [by eapply insertedAs_effects|]. intros m (id & ->). exists p, id. split; [by left|done].
      * eapply Forall_impl; [exact H2|]. intros m (p' & id & Hp & ->). exists p', id. split; [by right|done].
  - finish. unfold insertOutcome. destruct H1 as [->|[id ->]]; [done|]. constructor; [|done]. exists p, id. split; [by left|done].
Qed.

Lemma mg_insert_promise ps : does (execOp None (OInsert ps)) (promised (OInsert ps)).
Proof.
  apply mg_bind, mg_now. intros now. simpl. eapply mg_weaken; [apply insertParams_keeps|].
  intros acts a Ha. exists now. exact Ha.
Qed.

(** ** Fetching *)

Lemma claimLoop_keeps f us n : does (claimLoop None f us n) (λ acts r, ∃ docs last,
  did acts = ((λ j, MClaimJob j f us) <$> docs) ++ last ∧ r.1 = docToRow <$> docs ∧
  roundsEnd f us (length docs) n r.2 last).
Proof.
  induction n as [|n IH]; cbn [claimLoop].
  { finish. exists [], []. split_and!; [done..|by left]. }
  mg_call.
  - intros acts [j|] _ Hs.
    + rename Hs into Hd. simpl in Hd. apply mg_bind. eapply mg_weaken; [apply IH|]. intros a2 [rows err] (docs & last & Hd2 & Hrows & Hend).
      finish. simpl in *. exists (j :: docs), last. rewrite did_app, Hd, Hd2, Hrows. split_and!; [done..|].
      unfold roundsEnd in *. simpl. destruct err; [naive_solver lia|]. destruct Hend as [[-> ->]|[? ->]]; [by left|right; split; [lia|done]].
    + finish. exists [], [MSeesJob f None]. rewrite Hs. split_and!; [done..|]. right. simpl. split; [lia|done].
  - intros acts e He _ Hu. finish. exists [], (did acts). split_and!; [done..|simpl; lia|].
    destruct Hu as [?|Hd]; [done|]. by left.
Qed.

Lemma mg_fetch_promise p : does (execOp None (OFetch p)) (promised (OFetch p)).
Proof.
  assert (∀ (sees : list (act move)) r, saysPaused r = false →
    (did sees = [] ∨ ∃ x, did sees = [MSeesQueue (fp_Queue p) x] ∧ match x with Some q => qd_Paused q = false | None => True end) →
    does (if saysPaused r then mret ([], None) else
      now ← clkNow; claimLoop None (fetchFilter (fp_Queue p) now) (fetchUpdate p now) (Z.to_nat (fp_Limit p)))
      (λ acts, promised (OFetch p) (sees ++ acts))) as Hgo.
  { intros sees r -> Hsees. apply mg_bind, mg_now. intros now. simpl. eapply mg_weaken; [apply claimLoop_keeps|].
    intros acts [rows err] (docs & last & Hd & Hr & He). right. exists now, (did sees), docs, last.
    rewrite did_app, Hd. simpl in *. split_and!; done. }
  simpl. unfold jobFetchBatch. mg_call.
  - intros acts x _ Hs. simpl in Hs. destruct (saysPaused (Ok x)) eqn:Hp.
    + finish. left. destruct x as [q|]; [|done]. exists q. done.
    + specialize (Hgo acts (Ok x) Hp). rewrite Hp in Hgo. apply Hgo. right. exists x. split; [done|]. by destruct x.
  - intros acts e He _ Hu. apply (Hgo acts (Err e) eq_refl). destruct Hu as [[?|[Hf [x Hx]]]|?]; [by left| |by left].
    rewrite Hx in Hf. by apply Forall_cons in Hf as [? _].
Qed.

(** ** Claims *)

Lemma unknown_or_dup q ms : (duplicate q ms → ms = []) → unknown mg_stamp q ms ∨ duplicate q ms → unknown mg_stamp q ms.
Proof. intros Hd [?|?]; [done|left; auto]. Qed.

Lemma mg_rescue_promise p : does (execOp None (ORescue p)) (promised (ORescue p)).
Proof.
  mg_call.
  - intros acts n _ Hs. finish. exact Hs.
  - intros acts e _ _ Hu. finish. split; [done|]. by apply unknown_or_dup in Hu.
Qed.

Lemma claimFilter_id oid w a : IsID oid ∈ f_all (claimFilter oid w a).
Proof. by left. Qed.
Lemma settleFilter_id oid p : IsID oid ∈ f_all (settleFilter oid p).
Proof. by left. Qed.
Lemma cancelFilter_id oid : IsID oid ∈ f_all (cancelFilter oid).
Proof. by left. Qed.
Lemma byID_id oid : IsID oid ∈ f_all (byID oid).
Proof. by left. Qed.

(** An update of one job, whatever is made of the numbers it answers. *)
Lemma does_update oid f us (Q : list (act move) → result (Z * Z) → Prop) :
  IsID oid ∈ f_all f →
  (∀ acts, did acts = [MSeesJob f None] → Q acts (Ok (0, 0))) →
  (∀ acts c, did acts = [MUpdateJob oid f us c] → Q acts (Ok (1, if c : bool then 1 else 0))) →
  (∀ acts e, foreignErr e → maybeUpdated oid f us acts → Q acts (Err e)) →
  does (call None (UpdateJob f us)) Q.
Proof.
  intros Hid H0 H1 HE. refine (mg_does_call' _ _ _ _).
  - intros acts a Hp Hs. destruct (update_answers _ _ _ _ _ Hid Hp Hs) as [[-> ?]|(c & -> & ?)]; auto.
  - intros acts e He Hp Hu. apply HE; [done|]. by apply update_failed.
Qed.

Lemma mg_heartbeat_promise p : does (execOp None (OHeartbeat p)) (promised (OHeartbeat p)).
Proof.
  apply mg_withID; [intros err He; split; [done|by left]|]. intros oid Hid.
  apply mg_bind, (does_update oid); [apply claimFilter_id|..].
  - intros acts Hd. finish. eauto.
  - intros acts [] Hd; finish; eauto.
  - intros acts e He Hm. finish. eauto.
Qed.

Lemma mg_markStarted_promise p : does (execOp None (OMarkStarted p)) (promised (OMarkStarted p)).
Proof.
  apply mg_withID; [intros err He; split; [done|by left]|]. intros oid Hid.
  apply mg_bind, (does_update oid); [apply claimFilter_id|..].
  - intros acts Hd. finish. eauto.
  - intros acts c Hd; finish; eauto.
  - intros acts e He Hm. finish. eauto.
Qed.

Lemma fencedUpdate_keeps oid id f us (Q : list (act move) → option error → Prop) :
  IsID oid ∈ f_all f →
  (∀ acts, did acts = [MUpdateJob oid f us true] → Q acts None) →
  (∀ acts, did acts = [MSeesJob f None] ∨ did acts = [MUpdateJob oid f us false] → Q acts (Some (jobError ErrStaleClaim id))) →
  (∀ acts e, foreignErr e → maybeUpdated oid f us acts → Q acts (Some e)) →
  does (fencedUpdate None id f us) Q.
Proof.
  intros Hid HO HS HE. apply mg_bind, (does_update oid); [done|..].
  - intros acts Hd. finish. auto.
  - intros acts [] Hd; finish; auto.
  - intros acts e He Hm. finish. auto.
Qed.

Lemma maybeUpdated_see r x oid f us (a1 a2 : list (act move)) :
  did a1 = [MSeesJob r x] → maybeUpdated oid f us a2 → maybeUpdated oid f us (a1 ++ a2).
Proof. intros Hd Hm. unfold maybeUpdated, effects in *. by rewrite did_app, Hd, filter_app. Qed.

Lemma mg_setState_promise p : does (execOp None (OSetState p)) (promised (OSetState p)).
Proof.
  apply mg_withID; [intros err He; by left|]. intros oid Hid.
  (* the fenced update itself, after what has been seen *)
  assert (∀ us (a1 : list (act move)), settledBy p oid us (did a1) →
    (did a1 = [] ∨ ∃ j, did a1 = [MSeesJob (settleFilter oid p) (Some j)]) →
    does (fencedUpdate None (sp_ID p) (settleFilter oid p) us) (λ acts, promised (OSetState p) (a1 ++ acts))) as Hgo.
  { intros us a1 Hs Hsees. apply (fencedUpdate_keeps oid); [apply settleFilter_id|..].
    - intros acts Hd. right. exists oid. split; [done|]. exists us, (did a1). by rewrite did_app, Hd.
    - intros acts Hd. right. exists oid. split; [done|]. exists us, (did a1). split; [by left|].
      rewrite did_app. destruct Hd as [-> | ->]; auto.
    - intros acts e He Hm. right. exists oid. split; [done|]. foreign He. rewrite Hst. exists us.
      destruct Hsees as [Hd|[j Hd]]; [|by eapply maybeUpdated_see].
      unfold maybeUpdated, effects in *. by rewrite did_app, Hd. }
  simpl. destruct (sp_Yield p) eqn:Hy.
  { apply (Hgo yieldUpdate []); [unfold settledBy; by rewrite Hy|by left]. }
  apply mg_bind, mg_now. intros now. destruct (isFinal (sp_State p)) eqn:Hf.
  - mg_call.
    + intros a1 [j|] _ Hs; simpl in Hs.
      * apply (Hgo _ a1); [|right; eauto]. unfold settledBy. rewrite Hy. exists now. rewrite Hf. eauto.
      * finish. right. exists oid. split; [done|]. exists [], []. split; [by right|]. auto.
    + intros acts e He _ Hu. finish. right. exists oid. split; [done|]. foreign He. rewrite Hst. exists []. left.
      refine (effects_none (FindJob _) _ _ _ Hu); [|done]. intros x Hx. simpl in Hx. unfold effects. by rewrite Hx.
  - apply (Hgo _ []); [|by left]. unfold settledBy. rewrite Hy. exists now. by rewrite Hf.
Qed.

(** ** Cancelling, deleting, rescheduling *)

Lemma mg_cancel_promise id : does (execOp None (OCancel id)) (promised (OCancel id)).
Proof.
  apply mg_withID; [intros err He; by left|]. intros oid Hid.
  mg_call.
  - intros a1 [j|] _ Hs; simpl in Hs.
    + apply mg_bind, mg_now. intros now. simpl. apply mg_bind, (does_update oid); [apply cancelFilter_id|..].
      * intros acts Hd. finish. right. exists oid. split; [done|]. exists j, now. rewrite did_app, Hs, Hd. by right.
      * intros acts c Hd. finish. right. exists oid. split; [done|]. exists j, now. rewrite did_app, Hs, Hd. left. by exists c.
      * intros acts e He Hm. finish. right. exists oid. split; [done|]. foreign He. rewrite Hnf, Hcf.
        eexists. by eapply maybeUpdated_see.
    + apply mg_bind. unfold jobGetByID, withID. rewrite Hid. mg_call.
      * intros a2 [j|] _ Hs2; simpl in Hs2; finish; finish; right; exists oid; (split; [done|]); simpl; rewrite did_app, Hs, Hs2; eauto.
      * intros a2 e He _ Hu. finish. finish. right. exists oid. split; [done|]. foreign He. rewrite Hnf, Hcf. exists []. left.
        unfold effects. rewrite did_app, Hs, filter_app. simpl. refine (effects_none (FindJob _) _ _ _ Hu); [|done].
        intros x Hx. simpl in Hx. unfold effects. by rewrite Hx.
  - intros acts e He _ Hu. finish. right. exists oid. split; [done|]. foreign He. rewrite Hnf, Hcf. exists []. left.
    refine (effects_none (FindJob _) _ _ _ Hu); [|done]. intros x Hx. simpl in Hx. unfold effects. by rewrite Hx.
Qed.

Lemma mg_delete_promise id : does (execOp None (ODelete id)) (promised (ODelete id)).
Proof.
  apply mg_withID; [intros err He; by left|]. intros oid Hid. mg_call.
  - intros acts n _ [[-> Hd]|[-> Hd]]; finish; right; exists oid; split; done.
  - intros acts e He _ Hu. finish. right. exists oid. split; [done|]. foreign He. rewrite Hnf.
    destruct Hu as [[Hd|[Hf [n [[-> Hd]|[-> Hd]]]]]|Hd]; [by left| |by right; right|by left].
    right. left. unfold effects. by rewrite Hd.
Qed.

Lemma mg_reschedule_promise p : does (execOp None (OReschedule p)) (promised (OReschedule p)).
Proof.
  apply mg_withID; [intros err He; by left|]. intros oid Hid. apply mg_bind, (does_update oid); [apply byID_id|..].
  - intros acts Hd. finish. right. eauto.
  - intros acts c Hd. finish. right. eauto.
  - intros acts e He Hm. finish. right. exists oid. split; [done|]. foreign He. by rewrite Hnf.
Qed.

(** ** Queues, leases and schedule cursors *)

(** What a failed call may have changed. *)
Lemma failed_effects q (acts : list (act move)) (P : list move → Prop) :
  P [] → (∀ a, served mg_stamp q (did acts) a → P (effects acts)) → (duplicate q (did acts) → P (effects acts)) →
  unknown mg_stamp q (did acts) ∨ duplicate q (did acts) → P (effects acts).
Proof. intros H0 Hs Hd [[Hn|[_ [a Ha]]]|?]; [unfold effects; by rewrite Hn|eauto|auto]. Qed.

Lemma mg_queueGet_promise n : does (execOp None (OQueueGet n)) (promised (OQueueGet n)).
Proof.
  apply mg_bind, mg_now. intros now. simpl. mg_call.
  - intros acts q _ Hs. finish. exists now, q. split; [done|]. destruct Hs as [[? ->]|?]; auto.
  - intros acts e He _ Hu. finish. exists now.
    refine (failed_effects _ _ (λ l, l = [] ∨ l = [_]) _ _ _ Hu); [by left| |intros Hd; left; unfold effects; by rewrite Hd].
    intros q [[Hd _]|Hd]; unfold effects; rewrite Hd; auto.
Qed.

Lemma mg_setPaused_promise n b : does (execOp None (OSetPaused n b)) (promised (OSetPaused n b)).
Proof.
  apply mg_bind, mg_now. intros now. simpl. mg_call.
  - intros acts [] _ Hs. finish. by exists now.
  - intros acts e He _ Hu. finish. exists now. destruct Hu as [[?|[_ [[] ?]]]|?]; auto.
Qed.

Lemma mg_elect_promise p : does (execOp None (OElect p)) (promised (OElect p)).
Proof.
  apply mg_bind, mg_now. intros now. simpl. mg_call.
  - intros a1 n _ [[-> Hd]|[-> (x & Hd & Hx)]]; [finish; exists now; by left|]. simpl Z.ltb. cbv iota.
    simpl in Hd. apply mg_bind. refine (mg_does_call _ _ _ _ _).
    + intros a2 [] _ Hs. finish. exists now. right. exists x. by rewrite did_app, Hd, Hs.
    + intros a2 e He _ -> (cur & Hs). finish. exists now. simpl. exists x, cur. rewrite did_app, Hd, Hs. done.
    + intros a2 e He _ -> Hu. finish. exists now. split; [done|].
      assert (effects (a1 ++ a2) = effects a2) as -> by (unfold effects; by rewrite did_app, Hd, filter_app).
      destruct Hu as [Hn|[_ [[] Hs]]]; unfold effects; [rewrite Hn; by left|]. simpl in Hs. rewrite Hs. by right; right.
  - intros acts e He _ Hu. finish. exists now. split; [done|].
    refine (failed_effects _ _ (λ l, l = [] ∨ l = [_] ∨ l = [_]) _ _ _ Hu); [by left| |intros Hd; left; unfold effects; by rewrite Hd].
    intros n [[_ Hd]|[_ (x & Hd & _)]]; unfold effects; rewrite Hd; auto.
Qed.

Lemma mg_resign_promise p : does (execOp None (OResign p)) (promised (OResign p)).
Proof.
  mg_call.
  - intros acts [] _ Hs. finish. exact Hs.
  - intros acts e He _ Hu. finish.
    refine (failed_effects _ _ (λ l, l = [] ∨ l = [_]) _ _ _ Hu); [by left| |intros Hd; left; unfold effects; by rewrite Hd].
    intros _ [Hd|(x & Hd & _)]; unfold effects; rewrite Hd; auto.
Qed.

Lemma readCursor_keeps id created (Q : list (act move) → ScheduleCursorResult * option error → Prop) :
  (∀ acts x, did acts = [MSeesCursor id (Some x)] → Q acts (mkScheduleCursorResult (UTC (sd_At x)) created, None)) →
  (∀ acts r e, effects acts = [] → Q acts (r, Some e)) → does (readCursor None id created) Q.
Proof.
  intros HQ HE. mg_call.
  - intros acts [x|] _ Hs; finish; [by apply HQ|]. apply HE. unfold effects. by rewrite Hs.
  - intros acts e He _ Hu. finish. apply HE.
    refine (failed_effects _ _ (λ l, l = []) _ _ _ Hu); [done| |intros Hd; unfold effects; by rewrite Hd].
    intros x Hd. simpl in Hd. unfold effects. by rewrite Hd.
Qed.

Lemma mg_cursorGet_promise p : does (execOp None (OCursorGet p)) (promised (OCursorGet p)).
Proof.
  apply mg_bind. refine (mg_does_call _ _ _ _ _).
  - intros a1 [] _ Hs. simpl in Hs. apply readCursor_keeps.
    + intros acts x Hd. exists x. split; [done|]. simpl. by rewrite did_app, Hs, Hd.
    + intros acts r e Hd. right. unfold effects in *. by rewrite did_app, Hs, filter_app, Hd.
  - intros a1 e He _ -> (y & Hs). simpl in Hs. apply readCursor_keeps.
    + intros acts x Hd. exists x. split; [done|]. simpl. exists y. by rewrite did_app, Hs, Hd.
    + intros acts r e' Hd. left. unfold effects in *. by rewrite did_app, Hs, filter_app, Hd.
  - intros a1 e He _ -> Hu. finish.
    destruct Hu as [Hn|[_ [[] Hs]]]; unfold effects; [rewrite Hn; by left|]. simpl in Hs. rewrite Hs. by right.
Qed.

Lemma mg_cursorAdvance_promise p : does (execOp None (OCursorAdvance p)) (promised (OCursorAdvance p)).
Proof.
  mg_call.
  - intros acts n _ [[Hd ->]|[-> (x & Hd & Hx)]]; finish.
    + unfold UTC. destruct (mg_stamp (ca_Expected p) =? mg_stamp (ca_Next p)) eqn:E; simpl; [|exact Hd]. bool_to_prop. by right.
    + left. by exists x.
  - intros acts e He _ Hu. finish. split; [done|].
    refine (failed_effects _ _ (λ l, l = [] ∨ l = [_]) _ _ _ Hu); [by left| |intros Hd; left; unfold effects; by rewrite Hd].
    intros n [[Hd _]|[_ (x & Hd & _)]]; unfold effects; rewrite Hd; auto.
Qed.

(** ** All of them *)

Lemma mg_operation_does o : does (execOp None o) (promised o).
Proof.
  destruct o; [apply mg_insert_promise|apply mg_get_promise|apply mg_list_promise|apply mg_stats_promise|apply mg_fetch_promise
    |apply mg_rescue_promise|apply mg_heartbeat_promise|apply mg_markStarted_promise|apply mg_setState_promise
    |apply mg_cancel_promise|apply mg_delete_promise|apply mg_reschedule_promise|apply mg_queueGet_promise
    |apply mg_setPaused_promise|apply mg_queueList_promise|apply mg_elect_promise|apply mg_resign_promise
    |apply mg_cursorGet_promise|apply mg_cursorAdvance_promise].
Qed.

(** ** Within a session *)

Definition unseen {A} (m : io A) : Prop := does m (λ acts _, acts = []).

Lemma unseen_ret {A} (a : A) : unseen (mret a).
Proof. by apply mg_ret. Qed.
Lemma unseen_bind {A B} (m : io A) (f : A → io B) : unseen m → (∀ a, unseen (f a)) → unseen (m ≫= f).
Proof. intros Hm Hf. apply mg_bind. eapply mg_weaken; [exact Hm|]. intros acts a ->. apply Hf. Qed.
Lemma unseen_now : unseen clkNow.
Proof. by apply mg_now. Qed.
Lemma unseen_call c q : unseen (call (Some c) q).
Proof. by apply mg_session_call. Qed.
Lemma unseen_withID {A} id fail (f : ObjectID → io A) : (∀ oid, unseen (f oid)) → unseen (withID id fail f).
Proof. intros Hf. unfold withID. destruct (mg_ObjectIDFromHex id); [apply Hf|apply unseen_ret]. Qed.

Ltac unseen := repeat first
  [ apply unseen_ret | apply unseen_now | refine (unseen_call _ _) | apply unseen_withID; intros ? | apply unseen_bind; [|intros ?] | case_match ].

Lemma unseen_insertParams c now ps : ∀ i, unseen (insertParams (Some c) now i ps).
Proof.
  induction ps as [|p ps IH]; intros i; cbn [insertParams]; [apply unseen_ret|]. apply unseen_bind; [unfold insertParam; unseen|].
  intros [res|err]; [|apply unseen_ret]. apply unseen_bind; [apply IH|intros; unseen].
Qed.

Lemma unseen_claimLoop c f us n : unseen (claimLoop (Some c) f us n).
Proof.
  induction n as [|n IH]; cbn [claimLoop]; [apply unseen_ret|]. apply unseen_bind; [refine (unseen_call _ _)|].
  intros [[j|]|err]; [|apply unseen_ret..]. apply unseen_bind; [apply IH|intros; apply unseen_ret].
Qed.

Lemma mg_session_unseen c o : unseen (execOp (Some c) o).
Proof.
  destruct o; cbn [execOp]; unfold jobInsertMany, jobGetByID, jobList, queueStats, jobFetchBatch, jobRescueStuck, jobHeartbeat,
    jobMarkStarted, jobSetStateIfRunning, fencedUpdate, jobCancel, jobDelete, jobReschedule, queueGet, queueSetPaused, queueList,
    leaderAttemptElect, leaderResign, scheduleCursorGetOrCreate, readCursor, scheduleCursorAdvance, jobGetByID.
  1: apply unseen_bind; [apply unseen_now|intros now; apply unseen_insertParams].
  4: apply unseen_bind; [refine (unseen_call _ _)|intros r]; case_match; [apply unseen_ret|apply unseen_bind; [apply unseen_now|intros now; apply unseen_claimLoop]].
  all: unseen.
Qed.

Lemma mg_operation_keeps ctx o (e : MgEnv MG) :
  keyedDb (mg_db (mv_mg e)) →
  ∃ tr, runMoves mg_stamp (trMoves tr) (mg_db (mv_mg e)) = Some (mg_db (mv_mg (execOp ctx o e).1)) ∧
    match ctx with None => promised o (trOwn tr) (execOp ctx o e).2 | Some _ => trOwn tr = [] end.
Proof.
  intros He. destruct ctx as [c|].
  - destruct (mg_session_unseen c o e He) as (acts & (tr & Hr & <-) & Hp). eauto.
  - destruct (mg_operation_does o e He) as (acts & (tr & Hr & <-) & Hp). eauto.
Qed.

(** C11: the MongoDB backend refines the moves.  Take any sequence of operations of
    one program, each of them within a session or not.  Whatever other programs do
    to the collections between two of its calls, and whether or not the server
    fails: what the program does is a sequence of atomic moves, and the answer of
    every operation is what [promised] says of its own; within a session it does
    nothing that others can see.  A fetch claims exactly the jobs it returns, each
    of them the first in claim order of all that are due at that moment, and it
    stops early only at a moment at which none is due; an update that is refused
    has changed nothing; an election is won exactly by the move that writes the
    lease. *)
Theorem mongo_operations_refine os (e : MgEnv MG) :
  keyedDb (mg_db (mv_mg e)) →
  ∃ trs, runMoves mg_stamp (trMoves (mjoin trs)) (mg_db (mv_mg e)) = Some (mg_db (mv_mg (execAll os e).1)) ∧
    Forall2 (λ tr (oa : option nat * {o : driverOp & ans o}),
      match oa.1 with None => promised (projT1 oa.2) (trOwn tr) (projT2 oa.2) | Some _ => trOwn tr = [] end) trs (execAll os e).2 ∧
    (λ oa : option nat * {o : driverOp & ans o}, (oa.1, projT1 oa.2)) <$> (execAll os e).2 = os.
Proof.
  revert e. induction os as [|[ctx o] os IH]; intros e He; simpl; [exists []; split_and!; by try constructor|].
  destruct (mg_operation_keeps ctx o e He) as (tr & Hr & Hp). destruct (execOp ctx o e) as [e1 a]. simpl in *.
  destruct (IH e1) as (trs & Hrs & Hf & Ho); [by eapply runMoves_inv; [apply mg_step_keyed|..]|].
  destruct (execAll os e1) as [e2 as_]. simpl in *. exists (tr :: trs). split_and!.
  - simpl. rewrite trMoves_app. by eapply runMoves_trans.
  - by constructor.
  - f_equal; exact Ho.
Qed.
End refine.
