(* ===== verification/MongoSafety.v ===== *)
(** * driver/mongodb: what no interleaving of moves can break

    A claim stays until a move releases it: a deletion, or an update of the fields
    that make a claim, under a filter that admits the claimed job.  The filter of an
    operation is its guard: fetching and cancelling ask for a waiting job,
    heartbeats and outcomes for the very claim.  An unexpired lease is not taken
    over, and no two jobs have the same unique key. *)

From S2P Require Import Prelude GoBase Json Codec Driver Moves Memory Mongo MongoLaws MongoRefine.
From Stdlib Require Import ZArith Lia.

(** ** Claims *)

(** The fields that make a claim: state, worker and attempt. *)
Definition touchesClaim (u : update) : bool :=
  match u with SetState _ | SetWorkerID _ | UnsetWorkerID | IncAttemptNum _ => true | _ => false end.

(** Whether a filter can match a job that the worker runs as this attempt. *)
Definition admitsClaim (workerID : string) (attempt : Z) (c : cond) : bool :=
  match c with
  | IsState s => bool_decide (s = JobStateRunning)
  | StateIn l => bool_decide (JobStateRunning ∈ l)
  | IsWorker w => bool_decide (w = workerID)
  | IsAttempt n => n =? attempt
  | _ => true
  end.

Definition releasesClaim (oid : ObjectID) (workerID : string) (attempt : Z) (m : move) : bool :=
  match m with
  | MDeleteJob i => bool_decide (i = oid)
  | MUpdateJob i f us _ => bool_decide (i = oid) && existsb touchesClaim us && forallb (admitsClaim workerID attempt) (f_all f)
  | MClaimJob j f us => bool_decide (jd_ID j = oid) && existsb touchesClaim us && forallb (admitsClaim workerID attempt) (f_all f)
  | _ => false
  end.

Definition ownedBy (workerID : string) (attempt : Z) (j : jobDoc) : Prop :=
  jd_State j = JobStateRunning ∧ jd_WorkerID j = workerID ∧ jd_AttemptNum j = attempt.

Definition heldDoc (d : Db) (oid : ObjectID) (workerID : string) (attempt : Z) : Prop :=
  ∃ j, db_jobs d !! oid = Some j ∧ ownedBy workerID attempt j.

Section claims.
Context (stamp : Instant → Instant).

Lemma owned_admitted f w a j : ownedBy w a j → matches stamp f j = true → forallb (admitsClaim w a) (f_all f) = true.
Proof.
  intros (Hs & Hw & Ha) [Hm _]%andb_true_iff. rewrite forallb_forall in Hm |- *. intros c Hc. specialize (Hm c Hc).
  destruct c; simpl in *; try done; rewrite ?bool_decide_eq_true, ?Z.eqb_eq in Hm |- *; congruence.
Qed.

Lemma untouched_owned us w a : existsb touchesClaim us = false → ∀ j j',
  applyUpdate stamp us j = Some j' → ownedBy w a j → ownedBy w a j'.
Proof.
  induction us as [|u us IH]; simpl; intros Ht j j'; [by intros [= <-]|]. apply orb_false_iff in Ht as [Hu Ht].
  destruct (applyOne stamp u j) as [j1|] eqn:E; [|done]. intros Ha Ho. eapply IH; [done..|].
  destruct u; simplify_eq/=; done.
Qed.

(** An update of a held job that does not release it: it does not touch the claim. *)
Lemma held_update f us w a j j' : ownedBy w a j → matches stamp f j = true → applyUpdate stamp us j = Some j' →
  existsb touchesClaim us && forallb (admitsClaim w a) (f_all f) = false → ownedBy w a j'.
Proof.
  intros Ho Hm Ha Hn. rewrite (owned_admitted _ _ _ _ Ho Hm), andb_true_r in Hn. by eapply untouched_owned.
Qed.

Lemma mg_step_held m d d' oid w a :
  heldDoc d oid w a → step stamp m d = Some d' → releasesClaim oid w a m = false → heldDoc d' oid w a.
Proof.
  intros (j & Hj & Ho) Hs Hr. pose proof (mg_step_jobs _ _ _ _ Hs) as Hjs. unfold heldDoc.
  destruct m; try (rewrite Hjs; by exists j); simpl in Hr.
  - destruct Hjs as (Hn & _ & ->). destruct (decide (id = oid)) as [->|]; [congruence|]. rewrite lookup_insert_ne by done. by exists j.
  - destruct Hjs as (j1 & j2 & H1 & Hm & Ha & _ & ->). destruct (decide (id = oid)) as [->|]; [|rewrite lookup_insert_ne by done; by exists j].
    rewrite bool_decide_eq_true_2 in Hr by done. simplify_eq. exists j2. rewrite lookup_insert_eq. split; [done|]. by eapply held_update.
  - destruct Hjs as (j1 & H1 & Hm & Ha & _ & ->). destruct (decide (jd_ID j' = oid)) as [Heq|]; [|rewrite lookup_insert_ne by done; by exists j].
    rewrite bool_decide_eq_true_2 in Hr by done. rewrite Heq in *. simplify_eq. exists j'. rewrite lookup_insert_eq.
    split; [done|]. by eapply held_update.
  - destruct Hjs as (_ & ->). bool_to_prop. rewrite lookup_delete_ne by done. by exists j.
Qed.

Lemma mg_run_held ms oid w a : ∀ d d', heldDoc d oid w a → runMoves stamp ms d = Some d' →
  Forall (λ m, releasesClaim oid w a m = false) ms → heldDoc d' oid w a.
Proof.
  induction ms as [|m ms IH]; intros d d' Hh Hr Hn; simpl in *; [by simplify_eq|].
  destruct (step stamp m d) as [d1|] eqn:Hs; [|done]. apply Forall_cons in Hn as [Hm Hn]. eapply IH; [|done..]. by eapply mg_step_held.
Qed.

(** A fetch does not match a held job. *)
Lemma fetch_refuses_held q now w a : forallb (admitsClaim w a) (f_all (fetchFilter q now)) = false.
Proof. done. Qed.
Lemma cancel_refuses_held oid w a : forallb (admitsClaim w a) (f_all (cancelFilter oid)) = false.
Proof. done. Qed.

Lemma held_no_claim d d' j q now us w a : heldDoc d (jd_ID j) w a → step stamp (MClaimJob j (fetchFilter q now) us) d = Some d' → False.
Proof.
  intros (j0 & Hj & Ho) Hs. apply mg_step_jobs in Hs as (j1 & H1 & Hm & _). simplify_eq.
  pose proof (owned_admitted _ _ _ _ Ho Hm) as Hf. by rewrite fetch_refuses_held in Hf.
Qed.

(** What a fetch makes of a job: a claim of its worker. *)
Lemma fetchUpdate_owned p now j j' : applyUpdate stamp (fetchUpdate p now) j = Some j' →
  ownedBy (fp_WorkerID p) (jd_AttemptNum j') j'.
Proof.
  unfold fetchUpdate. simpl. destruct (0 <? fp_LeaseDuration p), (fp_LeaseDuration p <=? 0); simpl;
    case_decide; simpl; intros; simplify_eq; done.
Qed.

Lemma claim_held d d' j p q now : step stamp (MClaimJob j (fetchFilter q now) (fetchUpdate p now)) d = Some d' →
  heldDoc d' (jd_ID j) (fp_WorkerID p) (jd_AttemptNum j).
Proof.
  intros Hs. apply mg_step_jobs in Hs as (j1 & _ & _ & Ha & _ & Hd). unfold heldDoc. rewrite Hd. exists j. rewrite lookup_insert_eq. split; [done|].
  by eapply fetchUpdate_owned.
Qed.

(** Between two claims of a job there is a release of the first one. *)
Lemma mg_claims_released j1 p1 q1 now1 j2 p2 q2 now2 mid d d' : jd_ID j1 = jd_ID j2 →
  runMoves stamp (MClaimJob j1 (fetchFilter q1 now1) (fetchUpdate p1 now1) :: mid
                  ++ [MClaimJob j2 (fetchFilter q2 now2) (fetchUpdate p2 now2)]) d = Some d' →
  ∃ m, m ∈ mid ∧ releasesClaim (jd_ID j1) (fp_WorkerID p1) (jd_AttemptNum j1) m = true.
Proof.
  intros Hid Hr. apply (runMoves_split _ []) in Hr as (d0 & d1 & _ & H1 & Hr). apply claim_held in H1.
  destruct (decide (Exists (λ m, releasesClaim (jd_ID j1) (fp_WorkerID p1) (jd_AttemptNum j1) m = true) mid)) as [He|He].
  - by apply Exists_exists in He.
  - apply runMoves_split in Hr as (d2 & d3 & Hmid & H2 & _). exfalso. rewrite Hid in *. eapply held_no_claim; [|exact H2].
    eapply mg_run_held; [exact H1|exact Hmid|]. apply not_Exists_Forall in He; [|intros x; apply _].
    eapply Forall_impl; [exact He|]. intros m Hm. by apply not_true_is_false.
Qed.
End claims.

(** ** Leases *)

(** The moves that end a lease of the worker, or renew it. *)
Definition leaseMove (name workerID : string) (m : move) : bool :=
  match m with
  | MRenewLeader l _ | MInsertLeader l => bool_decide (ld_ID l = name)
  | MDeleteLeader n w => bool_decide (n = name) && bool_decide (w = workerID)
  | _ => false
  end.

Section leases.
Context (stamp : Instant → Instant).

(** A move that writes the lease [l]: an election. *)
Inductive elects (l : leaderDoc) (now : Instant) : move → Prop :=
| elects_renew : elects l now (MRenewLeader l now)
| elects_insert : elects l now (MInsertLeader l).

Lemma elects_stores l now m d d' : elects l now m → step stamp m d = Some d' → db_leaders d' !! ld_ID l = Some (stampLeader stamp l).
Proof.
  intros He Hs. apply mg_step_leaders in Hs. destruct He.
  - destruct Hs as (cur & _ & _ & ->). apply lookup_insert_eq.
  - destruct Hs as (_ & ->). apply lookup_insert_eq.
Qed.

(** The lease stays, or its holder has given it up, somebody has been elected, or
    the server has found it expired. *)
Lemma mg_run_lease ms l : ∀ d d', db_leaders d !! ld_ID l = Some l → runMoves stamp ms d = Some d' →
  Forall (λ m, leaseMove (ld_ID l) (ld_WorkerID l) m = false) ms →
  db_leaders d' !! ld_ID l = Some l ∨ ∃ at_, MExpireLeader (ld_ID l) at_ ∈ ms ∧ ld_ExpiresAt l ≤ at_.
Proof.
  induction ms as [|m ms IH]; intros d d' Hl Hr Hn; simpl in *; [simplify_eq; by left|].
  destruct (step stamp m d) as [d1|] eqn:Hs; [|done]. apply Forall_cons in Hn as [Hm Hn].
  assert (db_leaders d1 !! ld_ID l = Some l ∨ ∃ at_, m = MExpireLeader (ld_ID l) at_ ∧ ld_ExpiresAt l ≤ at_) as [Hl1|(at_ & -> & He)].
  { apply mg_step_leaders in Hs. destruct m; try (rewrite Hs; by left); simpl in Hm.
    - destruct Hs as (cur & _ & _ & ->). bool_to_prop. left. by rewrite lookup_insert_ne.
    - destruct Hs as (_ & ->). bool_to_prop. left. by rewrite lookup_insert_ne.
    - destruct Hs as (cur & Hc & Hw & ->). left. rewrite lookup_delete_ne; [done|]. intros ->. simplify_eq.
      by rewrite !bool_decide_eq_true_2 in Hm.
    - destruct Hs as (cur & Hc & He & ->). destruct (decide (name = ld_ID l)) as [->|]; [right|left; by rewrite lookup_delete_ne].
      simplify_eq. eauto. }
  - destruct (IH _ _ Hl1 Hr Hn) as [?|(at_ & Hin & He)]; [by left|right]. exists at_. split; [by right|done].
  - right. exists at_. split; [by left|done].
Qed.

Lemma mg_elections_apart l1 now1 m1 l2 now2 m2 mid d d' :
  elects l1 now1 m1 → elects l2 now2 m2 → ld_ID l1 = ld_ID l2 → ld_WorkerID l1 ≠ ld_WorkerID l2 →
  runMoves stamp (m1 :: mid ++ [m2]) d = Some d' →
  Exists (λ m, leaseMove (ld_ID l1) (ld_WorkerID l1) m = true) mid ∨
  (∃ at_, MExpireLeader (ld_ID l1) at_ ∈ mid ∧ stamp (ld_ExpiresAt l1) ≤ at_) ∨ stamp (ld_ExpiresAt l1) ≤ stamp now2.
Proof.
  intros E1 E2 Hid Hw Hr. apply (runMoves_split _ []) in Hr as (d0 & d1 & _ & H1 & Hr). apply (elects_stores _ _ _ _ _ E1) in H1.
  apply runMoves_split in Hr as (d2 & d3 & Hmid & H2 & _).
  destruct (decide (Exists (λ m, leaseMove (ld_ID l1) (ld_WorkerID l1) m = true) mid)) as [He|He]; [by left|right].
  destruct (mg_run_lease mid (stampLeader stamp l1) d1 d2 H1 Hmid) as [Hl|Hex].
  - apply not_Exists_Forall in He; [|intros x; apply _]. eapply Forall_impl; [exact He|]. intros m Hm. by apply not_true_is_false.
  - right. apply mg_step_leaders in H2. destruct E2; simpl in Hl.
    + destruct H2 as (cur & Hc & Hren & _). rewrite <-Hid, Hl in Hc. simplify_eq. unfold renewable in Hren. simpl in Hren.
      rewrite (bool_decide_eq_false_2 (ld_WorkerID l1 = _)), orb_false_r in Hren by done. by bool_to_prop.
    + destruct H2 as (Hn & _). rewrite <-Hid, Hl in Hn. done.
  - left. exact Hex.
Qed.
End leases.

(** ** Unique keys *)

(** No two jobs have the same unique key. *)
Definition keysUnique (d : Db) : Prop :=
  ∀ i1 i2 j1 j2, db_jobs d !! i1 = Some j1 → db_jobs d !! i2 = Some j2 →
    jd_UniqueKey j1 = jd_UniqueKey j2 → jd_UniqueKey j1 ≠ "" → i1 = i2.

Section keys.
Context (stamp : Instant → Instant).

Lemma keyTaken_false key jobs : keyTaken key jobs = false → ∀ i j, jobs !! i = Some j → jd_UniqueKey j ≠ key.
Proof.
  unfold keyTaken. intros Hn i j Hj Hk. apply not_true_iff_false in Hn. apply Hn, existsb_exists.
  exists (i, j). split; [by apply list_elem_of_In, elem_of_map_to_list|]. by apply bool_decide_eq_true.
Qed.

(** A job is replaced by one that has the same key or none. *)
Lemma keysUnique_update d i j j' jobs :
  keysUnique d → db_jobs d !! i = Some j → jd_UniqueKey j' = jd_UniqueKey j ∨ jd_UniqueKey j' = "" →
  jobs = <[i := j']> (db_jobs d) → ∀ i1 i2 j1 j2, jobs !! i1 = Some j1 → jobs !! i2 = Some j2 →
  jd_UniqueKey j1 = jd_UniqueKey j2 → jd_UniqueKey j1 ≠ "" → i1 = i2.
Proof.
  intros Hk Hj Hu -> i1 i2 j1 j2. rewrite !lookup_insert_Some. intros [[<- <-]|[? H1]] [[<- <-]|[? H2]] Heq Hne; try done.
  - destruct Hu as [Hu|Hu]; [|done]. rewrite Hu in *. by eapply Hk.
  - destruct Hu as [Hu|Hu]; rewrite Hu in *; [|done]. by eapply Hk.
  - by eapply Hk.
Qed.

Lemma mg_step_keys m d d' : keysUnique d → step stamp m d = Some d' → keysUnique d'.
Proof.
  intros Hk Hs. apply mg_step_jobs in Hs. destruct m; try (unfold keysUnique; rewrite Hs; exact Hk).
  - destruct Hs as (Hn & Ht & Hd). intros i1 i2 j1 j2. rewrite Hd, !lookup_insert_Some.
    intros [[<- <-]|[? H1]] [[<- <-]|[? H2]] Heq Hne; try done; simpl in *.
    + exfalso. rewrite Heq in *. by eapply (keyTaken_false _ _ (Ht Hne)).
    + exfalso. by eapply (keyTaken_false (jd_UniqueKey doc) _ (Ht ltac:(congruence))).
    + by eapply Hk.
  - destruct Hs as (j & j' & Hj & _ & Ha & _ & Hd). destruct (applyUpdate_frame _ _ _ _ Ha) as (_ & _ & Hu).
    unfold keysUnique. by eapply keysUnique_update.
  - destruct Hs as (j & Hj & _ & Ha & _ & Hd). destruct (applyUpdate_frame _ _ _ _ Ha) as (_ & _ & Hu).
    unfold keysUnique. by eapply keysUnique_update.
  - destruct Hs as (_ & Hd). intros i1 i2 j1 j2. rewrite Hd, !lookup_delete_Some. intros [_ H1] [_ H2]. by eapply Hk.
Qed.

(** Whatever anybody does: the unique index keeps the keys apart. *)
Theorem mongo_keys_unique ms d d' : keysUnique d → runMoves stamp ms d = Some d' → keysUnique d'.
Proof. apply runMoves_inv, mg_step_keys. Qed.

(** Settling or cancelling a job lets its key go exactly when the code says so. *)
Lemma settle_key p now frees j j' : applyUpdate stamp (settleUpdate p now frees) j = Some j' →
  jd_UniqueKey j' = if frees then "" else jd_UniqueKey j.
Proof.
  unfold settleUpdate. destruct (bool_decide (sp_State p = JobStateRetryable)); [destruct (IsZero (sp_RetryAt p))|destruct (isFinal (sp_State p))];
    destruct frees, (sp_Err p); simpl; intros [= <-]; done.
Qed.
Lemma cancel_key now frees j j' : applyUpdate stamp (cancelUpdate now frees) j = Some j' →
  jd_UniqueKey j' = if frees then "" else jd_UniqueKey j.
Proof. destruct frees; simpl; intros [= <-]; done. Qed.
End keys.

(** ** Of the operations *)

Section operations.
Context {MG : Type} `{Mongo MG} `{!MongoLaws MG}.
Abbreviation dbOf e := (mg_db (mv_mg e)).

Lemma hex_inj i1 i2 : mg_Hex i1 = mg_Hex i2 → i1 = i2.
Proof. intros Heq. apply (f_equal mg_ObjectIDFromHex) in Heq. rewrite !mg_hex_law in Heq. congruence. Qed.

Definition claimMove (p : FetchParams) (row : JobRow) (m : move) : Prop :=
  ∃ j now, m = MClaimJob j (fetchFilter (fp_Queue p) now) (fetchUpdate p now) ∧ row = docToRow j.

(** A row that a fetch has returned has been claimed by it. *)
Lemma mg_fetched_claim p acts rows err row : promised (OFetch p) acts (rows, err) → row ∈ rows →
  ∃ m, m ∈ did acts ∧ claimMove p row m.
Proof.
  intros [(q & _ & _ & -> & _)|(now & sees & docs & last & Hd & _ & -> & _)] Hin; [by apply not_elem_of_nil in Hin|].
  apply list_elem_of_fmap in Hin as (j & -> & Hj). eexists. split; [|by exists j, now].
  rewrite Hd. apply elem_of_app. right. apply elem_of_app. left. apply list_elem_of_fmap. eauto.
Qed.

(** A claim is exclusive on MongoDB, too.  If two fetches, of any workers and
    with anything happening meanwhile, both return a job, then in between a move has
    released the very claim the first one has returned: a deletion of the job, or an
    update of its state, worker or attempt under a filter that admits this worker
    and this attempt. *)
Theorem mongo_claims_exclusive p1 p2 (e1 e2 : MgEnv MG) ms rows1 err1 rows2 err2 row1 row2 :
  keyedDb (dbOf e1) →
  (execOp None (OFetch p1) e1).2 = (rows1, err1) → row1 ∈ rows1 →
  runMoves mg_stamp ms (dbOf (execOp None (OFetch p1) e1).1) = Some (dbOf e2) →
  (execOp None (OFetch p2) e2).2 = (rows2, err2) → row2 ∈ rows2 → ID row1 = ID row2 →
  ∃ oid pre m1 mid m2 post, mg_Hex oid = ID row1 ∧ claimMove p1 row1 m1 ∧ claimMove p2 row2 m2 ∧
    runMoves mg_stamp (pre ++ m1 :: mid ++ m2 :: post) (dbOf e1) = Some (dbOf (execOp None (OFetch p2) e2).1) ∧
    ∃ m, m ∈ mid ∧ releasesClaim oid (fp_WorkerID p1) (AttemptNum row1) m = true.
Proof.
  intros Hk Ha1 Hin1 Hms Ha2 Hin2 Hid.
  edestruct (does_two (step mg_stamp) (λ e, dbOf e) keyedDb (mg_step_keyed mg_stamp) (execOp None (OFetch p1)) (execOp None (OFetch p2))
    (promised (OFetch p1)) (promised (OFetch p2)) e1 e2 ms (claimMove p1 row1) (claimMove p2 row2))
    as (pre & m1 & mid & m2 & post & (j1 & t1 & -> & ->) & (j2 & t2 & -> & ->) & Hr);
    [done|apply mg_operation_does|apply mg_operation_does|exact Hms|..].
  - intros acts Hp. rewrite Ha1 in Hp. by eapply mg_fetched_claim.
  - intros acts Hp. rewrite Ha2 in Hp. by eapply mg_fetched_claim.
  - apply hex_inj in Hid. exists (jd_ID j1). do 5 eexists. split; [done|]. split; [by eexists _, _|]. split; [by eexists _, _|]. split; [exact Hr|].
    apply runMoves_split in Hr as (d1 & d2 & _ & H1 & Hr).
    apply runMoves_split in Hr as (d3 & d4 & Hmid & H2 & _).
    eapply (mg_claims_released mg_stamp j1 p1 _ t1 j2 p2 _ t2 mid d1 d4); [done|].
    cbn [Moves.runMoves]. rewrite H1, runMoves_app, Hmid. cbn [Moves.runMoves]. by rewrite H2.
Qed.

Definition electMove (p : LeaderElectParams) (m : move) : Prop := ∃ now, elects (newLeader p now) now m.

Lemma mg_elected p acts : promised (OElect p) acts (true, None) → ∃ m, m ∈ did acts ∧ electMove p m.
Proof.
  intros (now & [Hd|(x & Hd)]); rewrite Hd.
  - eexists. split; [by left|]. exists now. constructor.
  - eexists. split; [right; by left|]. exists now. constructor.
Qed.

(** If two elections of different workers for one lease both succeed, then the
    first worker has resigned, or somebody was elected in between, or the lease had
    run out: by the clock of the second worker, or by the server's. *)
Theorem mongo_lease_exclusive p1 p2 (e1 e2 : MgEnv MG) ms :
  keyedDb (dbOf e1) → le_Name p1 = le_Name p2 → le_WorkerID p1 ≠ le_WorkerID p2 →
  (execOp None (OElect p1) e1).2 = (true, None) →
  runMoves mg_stamp ms (dbOf (execOp None (OElect p1) e1).1) = Some (dbOf e2) →
  (execOp None (OElect p2) e2).2 = (true, None) →
  ∃ pre m1 mid m2 post now1 now2,
    runMoves mg_stamp (pre ++ m1 :: mid ++ m2 :: post) (dbOf e1) = Some (dbOf (execOp None (OElect p2) e2).1) ∧
    elects (newLeader p1 now1) now1 m1 ∧ elects (newLeader p2 now2) now2 m2 ∧
    (Exists (λ m, leaseMove (le_Name p1) (le_WorkerID p1) m = true) mid ∨
     (∃ at_, MExpireLeader (le_Name p1) at_ ∈ mid ∧ mg_stamp (now1 + le_TTL p1) ≤ at_) ∨
     mg_stamp (now1 + le_TTL p1) ≤ mg_stamp now2).
Proof.
  intros Hk Hn Hw Ha1 Hms Ha2.
  edestruct (does_two (step mg_stamp) (λ e, dbOf e) keyedDb (mg_step_keyed mg_stamp) (execOp None (OElect p1)) (execOp None (OElect p2))
    (promised (OElect p1)) (promised (OElect p2)) e1 e2 ms (electMove p1) (electMove p2))
    as (pre & m1 & mid & m2 & post & (t1 & E1) & (t2 & E2) & Hr);
    [done|apply mg_operation_does|apply mg_operation_does|exact Hms|..].
  - intros acts Hp. rewrite Ha1 in Hp. by apply mg_elected.
  - intros acts Hp. rewrite Ha2 in Hp. by apply mg_elected.
  - exists pre, m1, mid, m2, post, t1, t2. split_and!; [done..|].
    apply runMoves_split in Hr as (d1 & d2 & _ & H1 & Hr). apply runMoves_split in Hr as (d3 & d4 & Hmid & H2 & _).
    apply (mg_elections_apart mg_stamp (newLeader p1 t1) t1 m1 (newLeader p2 t2) t2 m2 mid d1 d4); [done..|].
    cbn [Moves.runMoves]. rewrite H1, runMoves_app, Hmid. cbn [Moves.runMoves]. by rewrite H2.
Qed.
End operations.
