(* ===== verification/MongoDemo.v ===== *)
(** * driver/mongodb: a concrete server, the interfaces, and runs

    A concrete server over the four collections that keeps the laws.  It answers a
    request with a plan, the moves and the answer they give, and carries the moves out
    if they are possible.  [sm_races] says, call by call, what other programs do just
    before.

    The MongoDB backend as the store of a client ([EnqueueStore]), of a worker pool
    ([WorkerStore]), of the rate limiter ([CursorStore]) and of the periodic
    scheduler ([LeaseStore]).  What a pool relies on, [LawfulFetch], holds while
    every document is stored under its own id, which all operations keep
    ([keyedEnv]).  It is no [CursorStoreLaws]: it keeps milliseconds only.

    The theorems about the backend applied to concrete runs, and runs that show what
    does not hold: a cancellation that answers success although a worker has the
    job, a heartbeat that reports a claim as lost although it is held, and a rate
    limit of more than one permit a millisecond that is never decided. *)

From S2P Require Import Prelude GoBase Json Codec Driver Moves RateLimit Client Cron WorkerRun WorkerMachine.
From S2P Require Import Memory Mongo MongoLaws MongoRefine MongoSafety.
From Stdlib Require Import ZArith Lia.

(** * The concrete server *)

Record Sim := mkSim { sm_db : Db; sm_next : ObjectID; sm_races : list (list move) }.

Definition simStamp (t : Instant) : Instant := Truncate t Millisecond.
Definition simDup : error := ENew "duplicate key".
Definition simFailed : error := ENew "failed".

#[export] Instance claimLess_strict_weak : StrictWeak claimLess.
Proof.
  unfold claimLess. split; intros x y *; repeat (case_match; rewrite ?negb_true_iff, ?negb_false_iff, ?Z.eqb_eq, ?Z.eqb_neq in *);
    rewrite ?Z.ltb_lt, ?Z.ltb_ge, ?N.ltb_lt, ?N.ltb_ge; lia.
Qed.
#[export] Instance foundLess_strict_weak : StrictWeak foundLess.
Proof.
  unfold foundLess. split; intros x y *; repeat (case_match; rewrite ?negb_true_iff, ?negb_false_iff, ?Z.eqb_eq, ?Z.eqb_neq in *);
    rewrite ?Z.ltb_lt, ?Z.ltb_ge, ?N.ltb_lt, ?N.ltb_ge; lia.
Qed.

Definition jobsOf (d : Db) (f : Filter) : list jobDoc :=
  filter (λ j, matches simStamp f j = true) (map_to_list (db_jobs d)).*2.

Definition changes (us : list update) (j : jobDoc) : bool :=
  match applyUpdate simStamp us j with Some j' => bool_decide (j ≠ j') | None => true end.

Definition countIn (s : string) (l : list string) : Z := Z.of_nat (length (filter (λ x, x = s) l)).

Definition seesLeader (name : string) (d : Db) : list move := [MSeesLeader name (db_leaders d !! name)].

(** The moves that serve a request, and its answer. *)
Definition plan (next : ObjectID) (q : request) (d : Db) : list move * reply q :=
  match q with
  | InsertJob doc => ([MInsertJob next doc], next)
  | UpsertJob key doc =>
      match head (jobsOf d (mkFilter [IsUniqueKey key] [])) with
      | Some j => ([MSeesJob (mkFilter [IsUniqueKey key] []) (Some j)], None)
      | None => ([MInsertJob next doc], Some next)
      end
  | FindJob f => ([MSeesJob f (head (jobsOf d f))], head (jobsOf d f))
  | FindJobs f limit =>
      let l := take (Z.to_nat limit) (sort_by foundLess (jobsOf d f)) in ((λ j, MSeesJob f (Some j)) <$> l, l)
  | GroupStates queue =>
      let states := jd_State <$> jobsOf d (mkFilter [IsQueue queue] []) in
      ([], (λ s, (s, countIn s states)) <$> remove_dups states)
  | ClaimJob f us =>
      match head (sort_by claimLess (jobsOf d f)) with
      | None => ([MSeesJob f None], None)
      | Some j => let j' := default j (applyUpdate simStamp us j) in ([MClaimJob j' f us], Some j')
      end
  | UpdateJob f us =>
      match head (jobsOf d f) with
      | None => ([MSeesJob f None], (0, 0))
      | Some j => let c := changes us j in ([MUpdateJob (jd_ID j) f us c], (1, if c then 1 else 0))
      end
  | UpdateJobs f us =>
      let l := (λ kv, (kv.1, changes us kv.2)) <$> filter (λ kv : ObjectID * jobDoc, matches simStamp f kv.2 = true) (map_to_list (db_jobs d)) in
      ((λ c : ObjectID * bool, MUpdateJob c.1 f us c.2) <$> l, countTrue l.*2)
  | DeleteJob id =>
      match db_jobs d !! id with
      | None => ([MSeesJob (mkFilter [IsID id] []) None], 0)
      | Some _ => ([MDeleteJob id], 1)
      end
  | FindQueue name => ([MSeesQueue name (db_queues d !! name)], db_queues d !! name)
  | UpsertQueue q =>
      match db_queues d !! qd_Name q with
      | Some q' => ([MSeesQueue (qd_Name q) (Some q')], q')
      | None => ([MNewQueue q], stampQueue simStamp q)
      end
  | PauseQueue name paused now => ([MPauseQueue name paused now], tt)
  | FindQueues after limit =>
      let l := take (Z.to_nat limit) (sort_by (λ a b, str_lt (qd_Name a) (qd_Name b))
        (filter (λ q, match after with Some n => str_lt n (qd_Name q) | None => true end = true) (map_to_list (db_queues d)).*2)) in
      ((λ q, MSeesQueue (qd_Name q) (Some q)) <$> l, l)
  | RenewLeader l now =>
      match db_leaders d !! ld_ID l with
      | Some cur => if renewable simStamp (ld_WorkerID l) now cur then ([MRenewLeader l now], 1) else (seesLeader (ld_ID l) d, 0)
      | None => (seesLeader (ld_ID l) d, 0)
      end
  | InsertLeader l => ([MInsertLeader l], tt)
  | DeleteLeader name w =>
      match db_leaders d !! name with
      | Some cur => if bool_decide (ld_WorkerID cur = w) then ([MDeleteLeader name w], tt) else (seesLeader name d, tt)
      | None => (seesLeader name d, tt)
      end
  | InsertCursor c => ([MInsertCursor c], tt)
  | FindCursor id => ([MSeesCursor id (db_cursors d !! id)], db_cursors d !! id)
  | MoveCursor id expected nxt =>
      match db_cursors d !! id with
      | Some c => if sd_At c =? simStamp expected then ([MMoveCursor id expected nxt], if simStamp expected =? simStamp nxt then 0 else 1)
                  else ([MSeesCursor id (Some c)], 0)
      | None => ([MSeesCursor id None], 0)
      end
  end.

(** What a unique index refuses. *)
Definition refusedBy (q : request) (d : Db) : option (list move) :=
  match q with
  | InsertLeader l => (λ cur, [MSeesLeader (ld_ID l) (Some cur)]) <$> db_leaders d !! ld_ID l
  | InsertCursor c => (λ cur, [MSeesCursor (sd_ID c) (Some cur)]) <$> db_cursors d !! sd_ID c
  | _ => None
  end.

Definition serve (q : request) (s : Sim) : Sim * result (reply q) :=
  match runMoves simStamp (plan (sm_next s) q (sm_db s)).1 (sm_db s) with
  | Some d => (mkSim d (N.succ (sm_next s)) (sm_races s), Ok (plan (sm_next s) q (sm_db s)).2)
  | None => (s, Err (if refusedBy q (sm_db s) then simDup else simFailed))
  end.

(** Others come first. *)
Definition raced (s : Sim) : Sim :=
  match sm_races s with
  | [] => s
  | ms :: rest => mkSim (default (sm_db s) (runMoves simStamp ms (sm_db s))) (sm_next s) rest
  end.

Definition simCall (ctx : option nat) (q : request) (s : Sim) : Sim * result (reply q) :=
  match ctx with
  | None => serve q (raced s)
  | Some _ => (s, Ok (plan (sm_next s) q (sm_db s)).2)
  end.

#[export] Instance simMongo : Mongo Sim := {|
  mg_call := simCall;
  mg_isDuplicateKeyError e := match e with ENew msg => bool_decide (msg = "duplicate key") | _ => false end;
  mg_ErrNoDocuments := ENew "no documents in result";
  mg_Hex id := FormatInt (Z.of_N id);
  mg_ObjectIDFromHex s := match parse_digits s 0 with Some n => Ok (Z.to_N n) | None => Err (ENew "bad id") end;
  mg_StartSession s := (s, Ok 0%nat);
  mg_StartTransaction _ s := (s, None);
  mg_CommitTransaction _ s := (s, None);
  mg_AbortTransaction _ s := (s, None);
  mg_EndSession _ s := s
|}.

(** ** The laws *)

Lemma jobsOf_matches d f j : j ∈ jobsOf d f → matches simStamp f j = true.
Proof. unfold jobsOf. rewrite list_elem_of_filter. tauto. Qed.

Lemma head_elem {A} (l : list A) x : head l = Some x → x ∈ l.
Proof. destruct l; [done|]. intros [= ->]. by left. Qed.

Lemma take_sorted {A} (R : A → A → Prop) n l : StronglySorted R l → StronglySorted R (take n l).
Proof. intros Hs. rewrite <-(take_drop n l) in Hs. by eapply StronglySorted_app_1_l. Qed.

Lemma plan_served next q d : served simStamp q (plan next q d).1 (plan next q d).2.
Proof.
  destruct q; cbn [plan]; try done.
  - destruct (head _) as [j|]; simpl; [by exists j|done].
  - simpl. split; [done|]. split; [rewrite length_take; lia|]. apply (take_sorted (λ a b, foundLess b a = false)). apply (sort_by_strongly_sorted foundLess).
  - simpl. split; [done|]. rewrite <-list_fmap_compose. unfold compose. simpl. rewrite list_fmap_id. apply NoDup_remove_dups.
  - destruct (head _) as [j|]; done.
  - destruct (head _) as [j|]; simpl; [right|by left]. split; [done|]. by eexists _, _.
  - simpl. eexists. split; [|done]. rewrite <-list_fmap_compose.
    eapply sublist_NoDup; [apply (NoDup_fst_map_to_list (db_jobs d))|]. apply fmap_sublist, sublist_filter.
  - destruct (db_jobs d !! id); simpl; auto.
  - destruct (db_queues d !! _); simpl; auto.
  - simpl. split; [done|]. split; [rewrite length_take; lia|]. apply Forall_take. rewrite sort_by_perm.
    apply Forall_forall. intros q Hq. by apply list_elem_of_filter in Hq as [? _].
  - destruct (db_leaders d !! ld_ID l) as [cur|] eqn:E; [destruct (renewable _ _ _ _) eqn:Hr|]; simpl; [by left|right..]; split; try done;
      unfold seesLeader; rewrite E; eexists; (split; [reflexivity|done]).
  - destruct (db_leaders d !! name) as [cur|] eqn:E; [case_bool_decide|]; simpl; [by left|right..];
      unfold seesLeader; rewrite E; eexists; (split; [reflexivity|done]).
  - destruct (db_cursors d !! id) as [c|] eqn:E; [destruct (sd_At c =? simStamp expected) eqn:Hc|]; simpl; [by left|right..];
      split; try done; eexists; (split; [done|]); [by bool_to_prop|done].
Qed.

Lemma sim_foreign msg : foreignErr (ENew msg).
Proof. by repeat split. Qed.

Lemma raced_others s : others simStamp (sm_db s) (sm_db (raced s)).
Proof.
  unfold raced. destruct (sm_races s) as [|ms rest]; [reflexivity|]. simpl.
  destruct (Moves.runMoves (step simStamp) ms (sm_db s)) as [d|] eqn:E; simpl; [by exists ms|reflexivity].
Qed.

Lemma refused_seen q d ms : refusedBy q d = Some ms → runMoves simStamp ms d = Some d ∧ duplicate q ms.
Proof.
  destruct q; simpl; try done; intros (x & Hx & ->)%fmap_Some_1;
    (split; [cbn [Moves.runMoves step]; by rewrite Hx, bool_decide_eq_true_2|by exists x]).
Qed.

Lemma happens_before (d d1 d2 : Db) acts :
  others simStamp d d1 → Moves.happens (step simStamp) d1 d2 acts → Moves.happens (step simStamp) d d2 acts.
Proof. intros H1 H2. eapply happens_between; [exact H1|exact H2|reflexivity]. Qed.

#[export] Program Instance simMongoLaws : MongoLaws Sim := {|
  mg_stamp := simStamp;
  mg_db := sm_db
|}.
Next Obligation. intros id. simpl. rewrite parse_digits_FormatInt by lia. by rewrite N2Z.id. Qed.
Next Obligation. intros s e. simpl. destruct (parse_digits s 0); [done|]. intros [= <-]. apply sim_foreign. Qed.
Next Obligation. apply sim_foreign. Qed.
Next Obligation.
  intros q s _. cbn [mg_call simMongo simCall]. unfold serve. set (s1 := raced s). pose proof (raced_others s) as Ho. fold s1 in Ho.
  destruct (runMoves simStamp (plan (sm_next s1) q (sm_db s1)).1 (sm_db s1)) as [d|] eqn:E; cbn [fst snd sm_db].
  - exists (Did <$> (plan (sm_next s1) q (sm_db s1)).1). split; [by eapply happens_before, happens_did|].
    rewrite did_did. apply plan_served.
  - destruct (refusedBy q (sm_db s1)) as [ms|] eqn:Er.
    + apply refused_seen in Er as [Hr Hd]. exists (Did <$> ms). split; [by eapply happens_before, happens_did|].
      split; [apply sim_foreign|]. simpl. by rewrite did_did.
    + exists []. split; [by apply happens_others|]. split; [apply sim_foreign|]. by left.
Qed.
Next Obligation. intros c q s. simpl. reflexivity. Qed.

(** * The interfaces *)

Definition mongoName : string := "mongodb".

Definition MongoCapabilities : Capabilities := {|
  NativeTx := true; UniqueJobs := true; ListenNotify := false; ChangeStreams := true; SkipLocked := false;
  AdvisoryLocks := false; LinearizableLeases := true; LinearizableCAS := true; LifecycleTimestamps := true;
  BoundedFetch := true; StrictFetchOrdering := true |}.

Definition newMongo {MG} (client : MG) (clk : Clock) : MgEnv MG := mkMgEnv client clk.

Section stores.
Context {MG : Type} `{Mongo MG}.

(** A value with an error, as Go returns them. *)
Definition orErr {A} (r : MgEnv MG * (A * option error)) : MgEnv MG * result A :=
  (r.1, match r.2.2 with Some e => Err e | None => Ok r.2.1 end).
Definition insertedOrErr (r : MgEnv MG * result (list JobInsertResult)) : MgEnv MG * inserted :=
  (r.1, match r.2 with Ok rs => (rs, None) | Err e => ([], Some e) end).

(** A caller's transaction is its session. *)
#[export] Instance mongoEnqueueStore : EnqueueStore (MgEnv MG) nat := {|
  es_Name := mongoName;
  es_Capabilities := MongoCapabilities;
  es_JobInsertMany e ps := insertedOrErr (jobInsertMany None ps e);
  es_JobInsertManyTx session e ps := insertedOrErr (jobInsertMany (Some session) ps e);
  es_JobCancel e id := jobCancel None id e;
  es_QueueStats := Some (λ e queue, (queueStats None queue e).2)
|}.

#[export] Instance mongoWorkerStore : WorkerStore (MgEnv MG) := {|
  ws_fetch e p := orErr (jobFetchBatch None p e);
  ws_setState e p := jobSetStateIfRunning None p e;
  ws_markStarted := Some (λ e p, orErr (jobMarkStarted None p e));
  ws_heartbeat := Some (λ e p, orErr (jobHeartbeat None p e));
  ws_rescue := Some (λ e p, orErr (jobRescueStuck None p e));
  ws_elect e p := orErr (leaderAttemptElect None p e);
  ws_resign e p := leaderResign None p e
|}.

#[export] Instance mongoCursorStore : CursorStore (MgEnv MG) := {|
  cs_getOrCreate e p := orErr (scheduleCursorGetOrCreate None p e);
  cs_advance e p := orErr (scheduleCursorAdvance None p e);
  cs_native := None
|}.

#[export] Instance mongoLeaseStore : LeaseStore (MgEnv MG) := {|
  ls_elect e p := orErr (leaderAttemptElect None p e);
  ls_resign e p := leaderResign None p e
|}.
End stores.

(** ** A fetch returns what was asked for *)

Section lawful.
Context {MG : Type} `{Mongo MG} `{!MongoLaws MG}.

Definition keyedEnv : Type := { e : MgEnv MG | keyedDb (mg_db (mv_mg e)) }.

Lemma operation_keyed (o : driverOp) (e : MgEnv MG) : keyedDb (mg_db (mv_mg e)) → keyedDb (mg_db (mv_mg (execOp None o e).1)).
Proof.
  intros He. destruct (mg_operation_does o e He) as (acts & Hh & _). eapply happens_inv; [apply mg_step_keyed|exact Hh|exact He].
Qed.

Definition keyedOp (o : driverOp) (k : keyedEnv) : keyedEnv * ans o :=
  (exist _ (execOp None o (proj1_sig k)).1 (operation_keyed o _ (proj2_sig k)), (execOp None o (proj1_sig k)).2).

Definition keyedOrErr {A} (r : keyedEnv * (A * option error)) : keyedEnv * result A :=
  (r.1, match r.2.2 with Some e => Err e | None => Ok r.2.1 end).

#[export] Instance keyedWorkerStore : WorkerStore keyedEnv := {|
  ws_fetch k p := keyedOrErr (keyedOp (OFetch p) k);
  ws_setState k p := keyedOp (OSetState p) k;
  ws_markStarted := Some (λ k p, keyedOrErr (keyedOp (OMarkStarted p) k));
  ws_heartbeat := Some (λ k p, keyedOrErr (keyedOp (OHeartbeat p) k));
  ws_rescue := Some (λ k p, keyedOrErr (keyedOp (ORescue p) k));
  ws_elect k p := keyedOrErr (keyedOp (OElect p) k);
  ws_resign k p := keyedOp (OResign p) k
|}.

(** A claimed job is one of the queue. *)
Lemma claimed_queue (q : string) now us j : possible (MClaimJob j (fetchFilter q now) us) → jd_Queue j = q.
Proof.
  intros (d & d' & _ & Hs). apply mg_step_jobs in Hs as (j0 & _ & Hm & Ha & _).
  destruct (applyUpdate_frame _ _ _ _ Ha) as (_ & -> & _). unfold matches in Hm. simpl in Hm.
  apply andb_true_iff in Hm as [[Hq _]%andb_true_iff _]. by bool_to_prop.
Qed.

Lemma fetch_rows p (e : MgEnv MG) rows err : keyedDb (mg_db (mv_mg e)) → (execOp None (OFetch p) e).2 = (rows, err) →
  Z.of_nat (length rows) ≤ Z.max 0 (fp_Limit p) ∧ Forall (λ r, Queue r = fp_Queue p) rows.
Proof.
  intros He Ha. destruct (mg_operation_does (OFetch p) e He) as (acts & Hh & Hp). rewrite Ha in Hp.
  pose proof (happens_ran _ keyedDb (mg_step_keyed mg_stamp) _ _ _ Hh He) as Hran.
  destruct Hp as [(q & _ & _ & -> & _)|(now & sees & docs & last & Hd & _ & -> & Hend)]; [split; [simpl; lia|constructor]|]. split.
  - rewrite length_fmap. unfold roundsEnd in Hend. destruct err; [lia|]. destruct Hend as [[-> _]|[? _]]; lia.
  - rewrite Hd in Hran. apply Forall_app in Hran as [_ Hran]. apply Forall_app in Hran as [Hran _].
    rewrite Forall_forall in Hran. apply Forall_fmap, Forall_forall. intros j Hj.
    apply (claimed_queue (fp_Queue p) now (fetchUpdate p now)), Hran, list_elem_of_fmap. eauto.
Qed.

#[export] Instance mongoLawfulFetch : LawfulFetch keyedEnv.
Proof.
  assert (∀ (k k' : keyedEnv) p rows, ws_fetch k p = (k', Ok rows) →
    Z.of_nat (length rows) ≤ Z.max 0 (fp_Limit p) ∧ Forall (λ r, Queue r = fp_Queue p) rows) as Hf.
  { intros [e He] k' p rows. cbn [ws_fetch keyedWorkerStore]. unfold keyedOrErr, keyedOp. cbn [proj1_sig proj2_sig fst snd].
    destruct ((execOp None (OFetch p) e).2) as [rs [err|]] eqn:Ha; simpl; intros Heq; simplify_eq. by apply (fetch_rows p e rows None). }
  split; intros s s' prm rows Hw; destruct (Hf _ _ _ _ Hw) as [Hn Hq]; [lia|done].
Qed.
End lawful.

(** * Runs *)

(** ** Runs *)

Definition noon : Instant := unixEpoch + 20000 * 24 * Hour.
Definition emptyDb : Db := mkDb ∅ ∅ ∅ ∅.
Definition simEnv (d : Db) (now : Instant) (races : list (list move)) : MgEnv Sim := mkMgEnv (mkSim d 1 races) (frozenClock now).

Lemma keyed_emptyDb : keyedDb emptyDb.
Proof. split; simpl; intros *; by rewrite lookup_empty. Qed.

(** Equations between databases are decided, not compared as terms. *)
Lemma dbs_decided (x y : option Db) : bool_decide (x = y) = true → x = y.
Proof. apply bool_decide_eq_true. Qed.
Ltac decide_dbs := apply dbs_decided; vm_compute; reflexivity.

Definition simParams (queue key : string) : JobInsertParams := mkJobInsertParams queue "email" "{}" 0 0 key 3 Minute [] "".
Definition simFetch (w : string) : FetchParams := mkFetchParams "mail" 5 w Minute.
Definition demoOutcome (state w : string) (attempt : Z) : JobSetStateParams :=
  mkJobSetStateParams "1" state None None 0 0 w attempt false.

Definition demoProgram : list (option nat * driverOp) :=
  [(None, OInsert [simParams "mail" "k"; simParams "mail" "k"]); (None, OFetch (simFetch "w1"));
   (None, OSetState (demoOutcome JobStateCompleted "w2" 1)); (Some 0%nat, OInsert [simParams "mail" ""]);
   (None, OSetState (demoOutcome JobStateCompleted "w1" 1)); (None, OStats "mail"); (None, ODelete "1")].

Lemma mongo_operations_refine_witness :
  keyedDb emptyDb ∧
  ∃ trs, runMoves simStamp (trMoves (mjoin trs)) emptyDb = Some (sm_db (mv_mg (execAll demoProgram (simEnv emptyDb noon [])).1)) ∧
    Forall2 (λ tr (oa : option nat * {o : driverOp & ans o}),
      match oa.1 with None => promised (projT1 oa.2) (trOwn tr) (projT2 oa.2) | Some _ => trOwn tr = [] end) trs
      (execAll demoProgram (simEnv emptyDb noon [])).2 ∧
    (λ oa : option nat * {o : driverOp & ans o}, (oa.1, projT1 oa.2)) <$> (execAll demoProgram (simEnv emptyDb noon [])).2 = demoProgram.
Proof. split; [exact keyed_emptyDb|]. exact (mongo_operations_refine demoProgram (simEnv emptyDb noon []) keyed_emptyDb). Defined.

(** A claim, and then its rescue an hour later. *)
Definition insertedEnv : MgEnv Sim := (execOp None (OInsert [simParams "mail" "k"]) (simEnv emptyDb noon [])).1.
Definition claimedEnv : MgEnv Sim := (execOp None (OFetch (simFetch "w1")) insertedEnv).1.
Definition rescueParams : JobRescueParams := mkJobRescueParams "mail" (noon + Hour) noon.
Definition rescueMove : move := MUpdateJob 1 (rescueFilter rescueParams) rescueUpdate true.
Definition rescuedEnv : MgEnv Sim := simEnv (default emptyDb (step simStamp rescueMove (sm_db (mv_mg claimedEnv)))) (noon + Hour) [].

Definition claimedRows (e : MgEnv Sim) (w : string) : list JobRow := (execOp None (OFetch (simFetch w)) e).2.1.
Definition firstRow (rows : list JobRow) : JobRow := default (newRow (simParams "" "") "" 0) (head rows).

Lemma mg_inserted_keyed : keyedDb (sm_db (mv_mg insertedEnv)).
Proof.
  apply (runMoves_inv (step simStamp) keyedDb (mg_step_keyed simStamp) [MInsertJob 1 (newDoc (simParams "mail" "k") noon)] emptyDb);
    [exact keyed_emptyDb|decide_dbs].
Qed.

Lemma mongo_claims_exclusive_witness :
  ID (firstRow (claimedRows insertedEnv "w1")) = "1" ∧
  ∃ oid pre m1 mid m2 post, mg_Hex oid = "1" ∧ claimMove (simFetch "w1") (firstRow (claimedRows insertedEnv "w1")) m1 ∧
    claimMove (simFetch "w2") (firstRow (claimedRows rescuedEnv "w2")) m2 ∧
    runMoves simStamp (pre ++ m1 :: mid ++ m2 :: post) (sm_db (mv_mg insertedEnv))
      = Some (sm_db (mv_mg (execOp None (OFetch (simFetch "w2")) rescuedEnv).1)) ∧
    ∃ m, m ∈ mid ∧ releasesClaim oid "w1" 1 m = true.
Proof.
  split; [vm_compute; reflexivity|].
  refine (mongo_claims_exclusive (simFetch "w1") (simFetch "w2") insertedEnv rescuedEnv [rescueMove]
           (claimedRows insertedEnv "w1") None (claimedRows rescuedEnv "w2") None (firstRow (claimedRows insertedEnv "w1"))
           (firstRow (claimedRows rescuedEnv "w2")) _ _ _ _ _ _ _).
  - exact mg_inserted_keyed.
  - vm_compute. reflexivity.
  - apply head_elem. vm_compute. reflexivity.
  - decide_dbs.
  - vm_compute. reflexivity.
  - apply head_elem. vm_compute. reflexivity.
  - vm_compute. reflexivity.
Defined.

(** ** What does not hold *)

(** Between the two calls of a cancellation a worker claims the job: the update
    finds no waiting job, and the answer is success. *)
Lemma cancel_loses_race :
  let claim := (execOp None (OFetch (simFetch "w2")) insertedEnv).1 in
  let claimed := firstRow (claimedRows insertedEnv "w2") in
  let stored := default (newDoc (simParams "" "") 0) (db_jobs (sm_db (mv_mg claim)) !! 1%N) in
  let e := simEnv (sm_db (mv_mg insertedEnv)) noon [[]; [MClaimJob stored (fetchFilter "mail" noon) (fetchUpdate (simFetch "w2") noon)]] in
  let r := execOp None (OCancel "1") e in
  r.2 = None ∧ (jd_State <$> db_jobs (sm_db (mv_mg r.1)) !! 1%N) = Some JobStateRunning.
Proof. vm_compute. done. Qed.

(** A heartbeat that asks for the expiry the lease has already, to the millisecond,
    modifies nothing: the answer is that the claim is lost, while it is held. *)
Lemma heartbeat_unchanged_is_lost :
  let p := mkJobHeartbeatParams "1" "w1" 1 noon (noon + Minute) in
  let r := execOp None (OHeartbeat p) claimedEnv in
  r.2 = (false, None) ∧ heldDoc (sm_db (mv_mg r.1)) 1 "w1" 1.
Proof. split; [vm_compute; done|]. eexists. split; vm_compute; [reflexivity|done]. Qed.

(** The cursor moves by less than a millisecond: the stored date is the same, and
    the compare-and-swap says that it has lost, round after round. *)
Lemma sim_call q d nx clk :
  call None q (mkMgEnv (mkSim d nx []) clk) =
  match runMoves simStamp (plan nx q d).1 d with
  | Some d' => (mkMgEnv (mkSim d' (N.succ nx) []) clk, Ok (plan nx q d).2)
  | None => (mkMgEnv (mkSim d nx []) clk, Err (if refusedBy q d then simDup else simFailed))
  end.
Proof. unfold call, onService. cbn [mg_call simMongo simCall]. unfold serve. cbn [raced sm_races sm_db sm_next mv_mg mv_clk]. by destruct (Moves.runMoves _ _ _). Qed.

Lemma spinning_round key t next init d nx clk :
  db_cursors d !! key = Some (mkScheduleCursorDoc key t) → simStamp t = t → simStamp next = t →
  ∃ nx1 nx2 d2, let e1 := mkMgEnv (mkSim d nx1 []) clk in
    cs_getOrCreate (mkMgEnv (mkSim d nx []) clk) (mkScheduleCursorCreateParams key init) = (e1, Ok (mkScheduleCursorResult t false)) ∧
    cs_advance e1 (mkScheduleCursorAdvanceParams key t next) = (mkMgEnv (mkSim d2 nx2 []) clk, Ok false) ∧
    db_cursors d2 !! key = Some (mkScheduleCursorDoc key t).
Proof.
  intros Hc Ht Hn. exists (N.succ nx). do 2 eexists. cbv zeta. split; [|split].
  - cbn [cs_getOrCreate mongoCursorStore]. unfold scheduleCursorGetOrCreate, readCursor, orErr, mbind, io_bind. cbn [cc_ID cc_InitialAt].
    rewrite sim_call. cbn [plan fst snd Moves.runMoves step sd_ID]. rewrite Hc, bool_decide_eq_false_2 by done.
    cbn [refusedBy sd_ID]. rewrite Hc. cbn [fmap option_fmap option_map mg_isDuplicateKeyError simMongo simDup].
    rewrite bool_decide_eq_true_2 by done. rewrite sim_call. cbn [plan fst snd Moves.runMoves step].
    rewrite Hc, bool_decide_eq_true_2 by done. cbn [guarded]. reflexivity.
  - cbn [cs_advance mongoCursorStore]. unfold scheduleCursorAdvance, orErr, mbind, io_bind, UTC. cbn [ca_ID ca_Expected ca_Next].
    rewrite sim_call. cbn [plan fst snd]. rewrite Hc. cbn [sd_At]. rewrite Ht, Hn, Z.eqb_refl. cbn [fst snd Moves.runMoves step].
    rewrite Hc. cbn [sd_At]. rewrite Ht, Z.eqb_refl. reflexivity.
  - cbn [withCursor db_cursors sd_ID]. rewrite lookup_insert_eq. by rewrite Hn.
Qed.

(** A limit that is above one permit a millisecond, and a burst: once the cursor is
    ahead of the clock by less than the tolerance, a request is never decided,
    unless its context is cancelled. *)
Lemma gcra_spins key now interval tolerance t clk (fuel i : nat) : ∀ d nx,
  db_cursors d !! key = Some (mkScheduleCursorDoc key t) → simStamp t = t → simStamp (Z.max t now + interval) = t → t - tolerance ≤ now →
  gcraLoop (λ _, None) (λ _ e, e) fuel i key now interval tolerance (mkMgEnv (mkSim d nx []) clk) = None.
Proof.
  revert i. induction fuel as [|fuel IH]; intros i d nx Hc Ht Hn Htol; [done|]. cbn [gcraLoop gcraCall].
  destruct (spinning_round key t (Z.max t now + interval) now d nx clk Hc Ht Hn) as (nx1 & nx2 & d2 & -> & Ha & Hc2).
  cbn [cr_At]. unfold Before, Add. rewrite (proj2 (Z.ltb_ge now (t + - tolerance))) by lia. cbn [gcraCall]. unfold Before, Add.
  replace ((if t <? now then now else t) + interval) with (Z.max t now + interval) by (destruct (Z.ltb_spec t now); lia).
  rewrite Ha. by apply IH.
Qed.

(** Two thousand permits a second in bursts of ten, one of them taken at noon:
    another request at that time. *)
Lemma fast_limit_never_decided fuel :
  let e := simEnv (mkDb ∅ ∅ ∅ {["limit" := mkScheduleCursorDoc "limit" noon]}) noon [] in
  AcquireRateLimit (H0 := amd64_conv) (λ _, None) (λ _ e, e) fuel
    (mkRateLimitAcquireParams "limit" noon 2000 Second 10 RateLimitModeGCRA) e = None.
Proof.
  cbv zeta. unfold AcquireRateLimit. cbn [cs_native mongoCursorStore rl_Key rl_Limit rl_Period rl_Burst rl_Mode rl_Now].
  change (checkRateLimit _) with (@Ok _ (mkRateLimitAcquireParams "limit" noon 2000 Second 10 RateLimitModeGCRA)). cbn [rl_Mode rl_Key rl_Limit rl_Period rl_Burst rl_Now].
  cbv zeta. assert (rateInterval (H := amd64_conv) Second 2000 = 500000) as -> by (vm_compute; reflexivity).
  apply gcra_spins with (t := noon); vm_compute; done.
Qed.
