(* ===== verification/Dynamo.v ===== *)
(** * driver/dynamodb: items, conditions and operations

    The backend keeps a job as one item with a version that every update counts up,
    and asks for the jobs of a queue and a state through a secondary index.  Updates
    are conditional; a read of an item, unless it asks for consistency, and every
    read of the index may show an earlier state.  The service and its client library
    are not part of the repository: the class [Dynamo] is what the code calls, and
    DynamoLaws.v states what its documentation says.

    An item is known by what decoding it answers.  A time is kept as its text, and
    the service compares texts: a field holds the instant whose text it has, a
    comparison is [textLe] or [textLt], and the code reads it back with [parseTime].  Two loops have no bound in the code, paging
    through an index or a table: they take fuel, and [None] means that it was not
    enough, or that the code panics. *)

From S2P Require Import Prelude GoBase Json Codec Driver Memory TimeText.
From Stdlib Require Import ZArith Lia.

(** ** Items *)

Record storedError := mkStoredErr { se_At : Z; se_Attempt : Z; se_Error : string; se_Trace : string }.

(** A field of a time: the empty text is [None]. [dj_AttemptedAt] may also be missing. *)
Record dynamoJob := mkDynamoJob {
  dj_ID : string;
  dj_Queue : string;
  dj_Kind : string;
  dj_Args : string;
  dj_State : string;
  dj_QueueState : string;
  dj_Priority : Z;
  dj_RunAt : Instant;
  dj_CreatedAt : Instant;
  dj_AttemptedAt : option (option Instant);
  dj_StartedAt : option Instant;
  dj_LeaseExpiresAt : option Instant;
  dj_FinalizedAt : option Instant;
  dj_AttemptNum : Z;
  dj_MaxRetry : Z;
  dj_TimeoutMs : Z;
  dj_UniqueKey : string;
  dj_WorkerID : string;
  dj_Tags : list string;
  dj_Errors : list storedError;
  dj_Version : Z;
  dj_PipelineID : string
}.

Definition eta_item (j : dynamoJob) : dynamoJob :=
  mkDynamoJob (dj_ID j) (dj_Queue j) (dj_Kind j) (dj_Args j) (dj_State j) (dj_QueueState j) (dj_Priority j) (dj_RunAt j)
    (dj_CreatedAt j) (dj_AttemptedAt j) (dj_StartedAt j) (dj_LeaseExpiresAt j) (dj_FinalizedAt j) (dj_AttemptNum j)
    (dj_MaxRetry j) (dj_TimeoutMs j) (dj_UniqueKey j) (dj_WorkerID j) (dj_Tags j) (dj_Errors j) (dj_Version j) (dj_PipelineID j).
Definition item_State : string → dynamoJob → dynamoJob := ltac:(setter eta_item dj_State).
Definition item_QueueState : string → dynamoJob → dynamoJob := ltac:(setter eta_item dj_QueueState).
Definition item_RunAt : Instant → dynamoJob → dynamoJob := ltac:(setter eta_item dj_RunAt).
Definition item_AttemptedAt : option (option Instant) → dynamoJob → dynamoJob := ltac:(setter eta_item dj_AttemptedAt).
Definition item_StartedAt : option Instant → dynamoJob → dynamoJob := ltac:(setter eta_item dj_StartedAt).
Definition item_LeaseExpiresAt : option Instant → dynamoJob → dynamoJob := ltac:(setter eta_item dj_LeaseExpiresAt).
Definition item_FinalizedAt : option Instant → dynamoJob → dynamoJob := ltac:(setter eta_item dj_FinalizedAt).
Definition item_AttemptNum : Z → dynamoJob → dynamoJob := ltac:(setter eta_item dj_AttemptNum).
Definition item_WorkerID : string → dynamoJob → dynamoJob := ltac:(setter eta_item dj_WorkerID).
Definition item_Errors : list storedError → dynamoJob → dynamoJob := ltac:(setter eta_item dj_Errors).
Definition item_Version : Z → dynamoJob → dynamoJob := ltac:(setter eta_item dj_Version).

#[export] Instance storedError_eq_dec : EqDecision storedError.
Proof. solve_decision. Defined.
#[export] Instance dynamoJob_eq_dec : EqDecision dynamoJob.
Proof. solve_decision. Defined.

Definition qsKey (queue state : string) : string := queue +:+ "#" +:+ state.

(** A text that cannot be read gives the zero time. *)
Definition parseTime (t : Instant) : Instant := if parseable t then UTC t else zeroTime.

(** The two texts pass through a JSON document, which holds valid UTF-8 only. *)
Definition marshalErrors (errs : list AttemptError) : list storedError :=
  (λ e, mkStoredErr (UnixMilli (ae_At e)) (ae_Attempt e) (validUTF8 (ae_Error e)) (validUTF8 (ae_Trace e))) <$> errs.
Definition unmarshalErrors (stored : list storedError) : list AttemptError :=
  (λ e, mkAttemptError (UTC (UnixFromMilli (se_At e))) (se_Attempt e) (se_Error e) (se_Trace e)) <$> stored.

Definition jobFromDynamo (j : dynamoJob) : JobRow :=
  mkJobRow (dj_ID j) (dj_Queue j) (dj_Kind j) (dj_Args j) (dj_State j) (dj_Priority j) (parseTime (dj_RunAt j)) (parseTime (dj_CreatedAt j))
    (parseTime <$> default None (dj_AttemptedAt j)) (parseTime <$> dj_StartedAt j) (parseTime <$> dj_LeaseExpiresAt j) (parseTime <$> dj_FinalizedAt j)
    (dj_AttemptNum j) (dj_MaxRetry j) (durMul (dj_TimeoutMs j) Millisecond) (dj_Tags j) (unmarshalErrors (dj_Errors j))
    (dj_UniqueKey j) (dj_WorkerID j) (dj_PipelineID j).

(** Other items: a queue, whose creation time may be missing, and a lease. *)
Record queueItem := mkQueueItem { qi_Paused : bool; qi_CreatedAt : option Instant; qi_UpdatedAt : Instant }.
Record leaderItem := mkLeaderItem { li_WorkerID : string; li_ExpiresAt : Instant }.

#[export] Instance queueItem_eq_dec : EqDecision queueItem.
Proof. solve_decision. Defined.
#[export] Instance leaderItem_eq_dec : EqDecision leaderItem.
Proof. solve_decision. Defined.

(** ** Conditions and updates *)

Inductive cond :=
| VersionIs (v : Z)
| StateIs (s : string)
| StateIn (l : list string)
| WorkerIs (w : string)
| AttemptIs (n : Z)
| LeaseOver (at_ before : Instant).

(** The parentheses of the condition of a rescue: an item without a lease is judged
    by the time of its attempt. *)
Definition leaseOver (at_ before : Instant) (j : dynamoJob) : bool :=
  match dj_LeaseExpiresAt j with
  | Some t => textLe t at_
  | None => match dj_AttemptedAt j with Some (Some t) => textLe t before | Some None => true | None => false end
  end.

Definition holdsCond (j : dynamoJob) (c : cond) : bool :=
  match c with
  | VersionIs v => dj_Version j =? v
  | StateIs s => bool_decide (dj_State j = s)
  | StateIn l => bool_decide (dj_State j ∈ l)
  | WorkerIs w => bool_decide (dj_WorkerID j = w)
  | AttemptIs n => dj_AttemptNum j =? n
  | LeaseOver at_ before => leaseOver at_ before j
  end.

Inductive action :=
| SetState (s : string)
| SetQueueState (qs : string)
| SetWorker (w : string)
| SetAttempted (t : Instant)
| SetLease (t : Instant)
| SetStarted (t : Instant)
| SetErrors (l : list storedError)
| SetRunAt (t : Instant)
| SetFinalized (t : Instant)
| AddAttempt (n : Z)
| IncVersion
| RemoveAttempted
| RemoveStarted
| RemoveLease.

#[export] Instance cond_eq_dec : EqDecision cond.
Proof. solve_decision. Defined.
#[export] Instance action_eq_dec : EqDecision action.
Proof. solve_decision. Defined.

Definition applyAction (j : dynamoJob) (a : action) : dynamoJob :=
  match a with
  | SetState s => item_State s j
  | SetQueueState qs => item_QueueState qs j
  | SetWorker w => item_WorkerID w j
  | SetAttempted t => item_AttemptedAt (Some (Some t)) j
  | SetLease t => item_LeaseExpiresAt (Some t) j
  | SetStarted t => item_StartedAt (Some t) j
  | SetErrors l => item_Errors l j
  | SetRunAt t => item_RunAt t j
  | SetFinalized t => item_FinalizedAt (Some t) j
  | AddAttempt n => item_AttemptNum (dj_AttemptNum j + n) j
  | IncVersion => item_Version (dj_Version j + 1) j
  | RemoveAttempted => item_AttemptedAt None j
  | RemoveStarted => item_StartedAt None j
  | RemoveLease => item_LeaseExpiresAt None j
  end.

Definition applyActions (us : list action) (j : dynamoJob) : dynamoJob := foldl applyAction j us.

(** ** Requests *)

(** [K] is the type of the keys at which a page ends.  An answer [false] is a
    condition that failed, or a cancelled transaction. *)
Inductive request (K : Type) :=
| GetJob (id : string)
| PutJob (j : dynamoJob)
| PutUniqueJob (j : dynamoJob)                            (* and its unique key: a transaction *)
| UpdateJob (id : string) (conds : list cond) (us : list action)
| DeleteJob (id : string)
| DeleteUniq (key : string)
| QueryJobs (qs : string) (start : option K)
| QueryDue (qs : string) (now : Instant) (limit : Z)
| CountJobs (qs : string) (start : option K)
| ScanJobs (start : option K)
| GetQueue (name : string)
| PutQueue (name : string) (now : Instant)
| SetPaused (name : string) (paused : bool) (now : Instant)
| ScanQueues (start : option K)
| PutLeader (name workerID : string) (expiresAt now : Instant)
| DeleteLeader (name workerID : string)
| PutCursor (id : string) (at_ : Instant)
| GetCursor (id : string)                                 (* consistent *)
| MoveCursor (id : string) (expected next : Instant).
Arguments GetJob {K}. Arguments PutJob {K}. Arguments PutUniqueJob {K}. Arguments UpdateJob {K}.
Arguments DeleteJob {K}. Arguments DeleteUniq {K}. Arguments QueryJobs {K}. Arguments QueryDue {K}. Arguments CountJobs {K}.
Arguments ScanJobs {K}. Arguments GetQueue {K}. Arguments PutQueue {K}. Arguments SetPaused {K}. Arguments ScanQueues {K}.
Arguments PutLeader {K}. Arguments DeleteLeader {K}. Arguments PutCursor {K}. Arguments GetCursor {K}. Arguments MoveCursor {K}.

Definition reply {K} (r : request K) : Type :=
  match r with
  | GetJob _ => option dynamoJob
  | PutUniqueJob _ | UpdateJob _ _ _ | PutQueue _ _ | PutLeader _ _ _ _ | DeleteLeader _ _ | PutCursor _ _ | MoveCursor _ _ _ => bool
  | PutJob _ | DeleteJob _ | DeleteUniq _ | SetPaused _ _ _ => unit
  | QueryJobs _ _ | ScanJobs _ => list dynamoJob * option K
  | QueryDue _ _ _ => list dynamoJob
  | CountJobs _ _ => Z * option K
  | GetQueue _ => option queueItem
  | ScanQueues _ => list (string * queueItem) * option K
  | GetCursor _ => option Instant
  end.

(** A table that [Migrate] asks for: its attributes, all of them strings, its key, and
    the key of its index, which projects everything. *)
Record tableInput := mkTable {
  ti_TableName : string;
  ti_Attributes : list string;
  ti_Key : string;
  ti_Index : option (string * string * string)
}.

(** [CreateTable] fails, or the table is there. *)
Inductive created := Created | InUse | CreateFailed (err : error).

Class Dynamo (S : Type) := {
  dy_Key : Type;
  dy_call (r : request dy_Key) : S → S * result (reply r);
  dy_uuid : S → S * string;
  dy_create (t : tableInput) : S → S * created;
  dy_wait (name : string) : S → S * option error             (* until the table exists *)
}.

Section driver.
Context {S : Type} `{Dynamo S}.

Record DyEnv := mkDyEnv { yv_svc : S; yv_clk : Clock }.

Definition io (A : Type) : Type := DyEnv → DyEnv * A.

#[global] Instance dyio_ret : MRet io := λ A a e, (e, a).
#[global] Instance dyio_bind : MBind io := λ A B f m e, let '(e', a) := m e in f a e'.

Definition onService {A} (f : S → S * A) : io A := λ e, let '(s, a) := f (yv_svc e) in (mkDyEnv s (yv_clk e), a).
Definition clkNow : io Instant := λ e, let '(now, clk) := Now (yv_clk e) in (mkDyEnv (yv_svc e) clk, now).
Definition call (r : request dy_Key) : io (result (reply r)) := onService (dy_call r).

(** A loop over pages: all that they hold. *)
Fixpoint pages {A} (page : option dy_Key → io (result (list A * option dy_Key))) (fuel : nat) (start : option dy_Key)
    : io (option (result (list A))) :=
  match fuel with
  | O => mret None
  | Datatypes.S fuel' =>
      r ← page start;
      match r with
      | Err err => mret (Some (Err err))
      | Ok (items, None) => mret (Some (Ok items))
      | Ok (items, Some key) =>
          rest ← pages page fuel' (Some key);
          mret match rest with Some (Ok l) => Some (Ok (items ++ l)) | r => r end
      end
  end.

(** ** Inserting *)

Definition newJob (p : JobInsertParams) (id : string) (now : Instant) : dynamoJob :=
  let runAt := if IsZero (ip_RunAt p) then now else ip_RunAt p in
  let state := if After runAt now then JobStateScheduled else JobStateAvailable in
  mkDynamoJob id (ip_Queue p) (ip_Kind p) (ip_Args p) state (qsKey (ip_Queue p) state) (ip_Priority p) (UTC runAt) (UTC now)
    (Some None) None None None 0 (ip_MaxRetry p) (durDiv (ip_Timeout p) Millisecond) (ip_UniqueKey p) "" (ip_Tags p) [] 1 (ip_PipelineID p).

(** The item itself: whether it was stored. *)
Definition putJob (p : JobInsertParams) (j : dynamoJob) : io (result bool) :=
  if bool_decide (ip_UniqueKey p ≠ "")
  then r ← call (PutUniqueJob j); mret match r with Err err => Err (EWrap "insert unique job: " err "") | Ok b => Ok b end
  else r ← call (PutJob j); mret match r with Err err => Err (EWrap "insert job: " err "") | Ok _ => Ok true end.

(** One round of the loop of [jobInsertMany]. *)
Definition insertParam (now : Instant) (p : JobInsertParams) : io (result JobInsertResult) :=
  id ← onService dy_uuid;
  r ← putJob p (newJob p id now);
  match r with
  | Err err => mret (Err err)
  | Ok false => mret (Ok (mkJobInsertResult None true))
  | Ok true =>
      q ← call (PutQueue (ip_Queue p) (UTC now));
      mret match q with
           | Err err => Err (EWrap "upsert queue: " err "")
           | Ok _ => Ok (mkJobInsertResult (Some (jobFromDynamo (newJob p id now))) false)
           end
  end.

Fixpoint insertParams (now : Instant) (params : list JobInsertParams) : io (result (list JobInsertResult)) :=
  match params with
  | [] => mret (Ok [])
  | p :: ps =>
      r ← insertParam now p;
      match r with
      | Err err => mret (Err err)
      | Ok res => rs ← insertParams now ps; mret match rs with Err err => Err err | Ok rest => Ok (res :: rest) end
      end
  end.

Definition jobInsertMany (params : list JobInsertParams) : io (result (list JobInsertResult)) :=
  now ← clkNow; insertParams now params.

(** ** Reading *)

Definition selectJob (id : string) : io (result (option dynamoJob)) := call (GetJob id).

Definition jobGetByID (id : string) : io (result JobRow) :=
  r ← selectJob id;
  mret match r with
       | Err err => Err err
       | Ok None => Err (jobError ErrNotFound id)
       | Ok (Some j) => Ok (jobFromDynamo j)
       end.

Definition allStates : list string :=
  [JobStateAvailable; JobStateScheduled; JobStateRunning; JobStateCompleted; JobStateDiscarded; JobStateCancelled].

(** The items of several partitions of the index, one after the other. *)
Fixpoint queryStates (fuel : nat) (queue : string) (states : list string) : io (option (result (list dynamoJob))) :=
  match states with
  | [] => mret (Some (Ok []))
  | state :: rest =>
      r ← pages (λ start, call (QueryJobs (qsKey queue state) start)) fuel None;
      match r with
      | Some (Ok items) => rs ← queryStates fuel queue rest; mret match rs with Some (Ok l) => Some (Ok (items ++ l)) | r => r end
      | r => mret r
      end
  end.

Definition keepRow (params : JobListParams) (cur : option (Instant * string)) (row : JobRow) : bool :=
  (bool_decide (jl_Queue params = "") || bool_decide (Queue row = jl_Queue params)) &&
  (bool_decide (jl_State params = "") || bool_decide (State row = jl_State params)) &&
  (bool_decide (jl_Kind params = "") || bool_decide (Kind row = jl_Kind params)) &&
  match cur with Some (at_, id) => JobFollowsCursor row at_ id | None => true end.

Definition listLess (a b : JobRow) : bool :=
  if negb (TimeEqual (CreatedAt a) (CreatedAt b)) then After (CreatedAt a) (CreatedAt b) else str_lt (ID b) (ID a).

Definition scanJobs (fuel : nat) (params : JobListParams) : io (option (result (list JobRow))) :=
  let go cur :=
    r ← (if bool_decide (jl_Queue params ≠ "")
         then queryStates fuel (jl_Queue params) (if bool_decide (jl_State params = "") then allStates else [jl_State params])
         else pages (λ start, call (ScanJobs start)) fuel None);
    mret match r with
         | Some (Ok items) => Some (Ok (sort_by listLess (filter (λ row, keepRow params cur row = true) (jobFromDynamo <$> items))))
         | Some (Err err) => Some (Err err)
         | None => None
         end in
  if bool_decide (jl_Cursor params = "") then go None
  else match DecodeJobCursor (jl_Cursor params) with Err err => mret (Some (Err err)) | Ok cur => go (Some cur) end.

Definition jobList (fuel : nat) (params : JobListParams) : io (option (result (list JobRow))) :=
  r ← scanJobs fuel params;
  mret match r with
       | Some (Ok rows) => Some (Ok (take (Z.to_nat (pageLimit (jl_Limit params))) rows))
       | r => r
       end.

(** The counts of a partition, page by page. *)
Definition countPage (queue state : string) (start : option dy_Key) : io (result (list Z * option dy_Key)) :=
  r ← call (CountJobs (qsKey queue state) start);
  mret match r with Err err => Err err | Ok (n, next) => Ok ([n], next) end.

Definition addCount (state : string) (stats : QueueStats) (n : Z) : QueueStats :=
  mkQueueStats (qs_Queue stats) (<[state := wrap64 (default 0 (qs_States stats !! state) + n)]> (qs_States stats)) (wrap64 (qs_Total stats + n)).

Fixpoint countStates (fuel : nat) (queue : string) (states : list string) (stats : QueueStats) : io (option (result QueueStats)) :=
  match states with
  | [] => mret (Some (Ok stats))
  | state :: rest =>
      r ← pages (countPage queue state) fuel None;
      match r with
      | Some (Ok counts) => countStates fuel queue rest (foldl (addCount state) stats counts)
      | Some (Err err) => mret (Some (Err err))
      | None => mret None
      end
  end.

Definition queueStats (fuel : nat) (queue : string) : io (option (result QueueStats)) :=
  countStates fuel queue allStates (mkQueueStats queue ∅ 0).

(** ** Fetching *)

Definition isQueuePaused (name : string) : io (result bool) :=
  r ← call (GetQueue name);
  mret match r with
       | Err err => Err err
       | Ok (Some q) => Ok (qi_Paused q)
       | Ok None => Ok false
       end.

Definition candidateLess (a b : dynamoJob) : bool :=
  if negb (dj_Priority a =? dj_Priority b) then dj_Priority b <? dj_Priority a
  else if negb (TimeEqual (parseTime (dj_RunAt a)) (parseTime (dj_RunAt b))) then Before (parseTime (dj_RunAt a)) (parseTime (dj_RunAt b))
  else if negb (TimeEqual (parseTime (dj_CreatedAt a)) (parseTime (dj_CreatedAt b))) then Before (parseTime (dj_CreatedAt a)) (parseTime (dj_CreatedAt b))
  else str_lt (dj_ID a) (dj_ID b).

Definition leaseOf (params : FetchParams) (now : Instant) : option Instant :=
  if 0 <? fp_LeaseDuration params then Some (UTC (Add now (fp_LeaseDuration params))) else None.

Definition claimActions (params : FetchParams) (now : Instant) : list action :=
  [SetState JobStateRunning; SetQueueState (qsKey (fp_Queue params) JobStateRunning); SetWorker (fp_WorkerID params);
   SetAttempted (UTC now); AddAttempt 1; IncVersion] ++
  match leaseOf params now with Some t => [SetLease t; RemoveStarted] | None => [RemoveStarted; RemoveLease] end.

Definition claimConds (version : Z) : list cond := [VersionIs version; StateIn [JobStateAvailable; JobStateScheduled]].

(** The row of a claim, made from the candidate. *)
Definition claimedRow (params : FetchParams) (now : Instant) (c : dynamoJob) : JobRow :=
  mkJobRow (dj_ID c) (dj_Queue c) (dj_Kind c) (dj_Args c) JobStateRunning (dj_Priority c) (parseTime (dj_RunAt c)) (parseTime (dj_CreatedAt c))
    (Some (UTC now)) None (parseTime <$> leaseOf params now) None (wrap64 (dj_AttemptNum c + 1)) (dj_MaxRetry c) (durMul (dj_TimeoutMs c) Millisecond)
    (dj_Tags c) (unmarshalErrors (dj_Errors c)) (dj_UniqueKey c) (fp_WorkerID params) (dj_PipelineID c).

(** [n] rows have been claimed; an error drops them. *)
Fixpoint claimLoop (params : FetchParams) (now : Instant) (cs : list dynamoJob) (n : nat) : io (result (list JobRow)) :=
  match cs with
  | [] => mret (Ok [])
  | c :: rest =>
      if fp_Limit params <=? Z.of_nat n then mret (Ok [])
      else
        r ← call (UpdateJob (dj_ID c) (claimConds (dj_Version c)) (claimActions params now));
        match r with
        | Err err => mret (Err (EWrap "claim update: " err ""))
        | Ok false => claimLoop params now rest n
        | Ok true =>
            rs ← claimLoop params now rest (Datatypes.S n);
            mret match rs with Err err => Err err | Ok rows => Ok (claimedRow params now c :: rows) end
        end
  end.

Definition candidateLimit (limit : Z) : Z := Z.min 1024 (Z.max 64 (wrap64 (limit * 16))).

Definition queryDue (params : FetchParams) (now : Instant) (state : string) : io (result (list dynamoJob)) :=
  r ← call (QueryDue (qsKey (fp_Queue params) state) (UTC now) (candidateLimit (fp_Limit params)));
  mret match r with Err err => Err (EWrap ("query " +:+ state +:+ " jobs: ") err "") | Ok items => Ok items end.

(** [None]: the capacity of the slice is negative.  One that is too big for the memory
    is not modelled. *)
Definition jobFetchBatch (params : FetchParams) : io (option (list JobRow * option error)) :=
  let rowsOrErr r := Some match r with Ok rows => (rows, None) | Err err => ([], Some err) end in
  p ← isQueuePaused (fp_Queue params);
  match p with
  | Err err => mret (Some ([], Some err))
  | Ok true => mret (Some ([], None))
  | Ok false =>
      now ← clkNow;
      if wrap64 (fp_Limit params * 6) <? 0 then mret None
      else
        a ← queryDue params now JobStateAvailable;
        match a with
        | Err err => mret (Some ([], Some err))
        | Ok avail =>
            s ← queryDue params now JobStateScheduled;
            match s with
            | Err err => mret (Some ([], Some err))
            | Ok sched =>
                r ← claimLoop params now (sort_by candidateLess (avail ++ sched)) 0;
                mret (rowsOrErr r)
            end
        end
  end.

(** ** Claims: rescue, heartbeats and outcomes *)

Definition rescuable (params : JobRescueParams) (job : dynamoJob) : bool :=
  match dj_AttemptedAt job with
  | Some (Some attempted) =>
      match dj_LeaseExpiresAt job with
      | Some t => negb (After (parseTime t) (rp_At params))
      | None => negb (After (parseTime attempted) (rp_Before params))
      end
  | _ => false
  end.

Definition rescueConds (params : JobRescueParams) : list cond :=
  [StateIs JobStateRunning; LeaseOver (UTC (rp_At params)) (UTC (rp_Before params))].
Definition rescueActions (params : JobRescueParams) : list action :=
  [SetState JobStateAvailable; SetQueueState (qsKey (rp_Queue params) JobStateAvailable); SetWorker ""; IncVersion;
   RemoveAttempted; RemoveLease].

Fixpoint rescueItems (params : JobRescueParams) (items : list dynamoJob) (rescued : Z) : io (Z * option error) :=
  match items with
  | [] => mret (rescued, None)
  | job :: rest =>
      if negb (rescuable params job) then rescueItems params rest rescued
      else
        r ← call (UpdateJob (dj_ID job) (rescueConds params) (rescueActions params));
        match r with
        | Err err => mret (rescued, Some err)
        | Ok b => rescueItems params rest (rescued + if b : bool then 1 else 0)
        end
  end.

Fixpoint rescuePages (params : JobRescueParams) (fuel : nat) (start : option dy_Key) (rescued : Z) : io (option (Z * option error)) :=
  match fuel with
  | O => mret None
  | Datatypes.S fuel' =>
      r ← call (QueryJobs (qsKey (rp_Queue params) JobStateRunning) start);
      match r with
      | Err err => mret (Some (rescued, Some err))
      | Ok (items, next) =>
          n ← rescueItems params items rescued;
          match n with
          | (rescued, Some err) => mret (Some (rescued, Some err))
          | (rescued, None) =>
              match next with None => mret (Some (rescued, None)) | Some key => rescuePages params fuel' (Some key) rescued end
          end
      end
  end.

Definition jobRescueStuck (fuel : nat) (params : JobRescueParams) : io (option (Z * option error)) := rescuePages params fuel None 0.

Definition claimedBy (w : string) (attempt : Z) : list cond := [StateIs JobStateRunning; WorkerIs w; AttemptIs attempt].

Definition renewalUntil (params : JobHeartbeatParams) : Instant :=
  if IsZero (hp_LeaseExpiresAt params) then hp_At params else hp_LeaseExpiresAt params.

Definition boolOrErr (r : result bool) : bool * option error := match r with Ok b => (b, None) | Err err => (false, Some err) end.

Definition jobHeartbeat (params : JobHeartbeatParams) : io (bool * option error) :=
  r ← call (UpdateJob (hp_ID params) (claimedBy (hp_WorkerID params) (hp_Attempt params)) [SetLease (UTC (renewalUntil params)); IncVersion]);
  mret (boolOrErr r).

Definition jobMarkStarted (params : JobMarkStartedParams) : io (bool * option error) :=
  r ← call (UpdateJob (ms_ID params) (claimedBy (ms_WorkerID params) (ms_Attempt params)) [SetStarted (UTC (ms_At params)); IncVersion]);
  mret (boolOrErr r).

Definition settleConds (version : Z) : list cond := [StateIs JobStateRunning; VersionIs version].

Definition yieldActions (queue : string) : list action :=
  [SetState JobStateAvailable; SetQueueState (qsKey queue JobStateAvailable); SetWorker ""; IncVersion;
   RemoveAttempted; RemoveStarted; RemoveLease; AddAttempt (-1)].

Definition settledErrors (params : JobSetStateParams) (now : Instant) (j : dynamoJob) : list storedError :=
  marshalErrors (unmarshalErrors (dj_Errors j) ++
    match sp_Err params with
    | Some msg => [mkAttemptError now (dj_AttemptNum j) msg (default "" (sp_Trace params))]
    | None => []
    end).

Definition settleActions (params : JobSetStateParams) (now : Instant) (j : dynamoJob) : list action :=
  let errs := settledErrors params now j in
  if bool_decide (sp_State params = JobStateRetryable)
  then [SetState JobStateAvailable; SetQueueState (qsKey (dj_Queue j) JobStateAvailable); SetWorker ""; SetErrors errs;
        SetRunAt (UTC (if IsZero (sp_RetryAt params) then now else sp_RetryAt params)); IncVersion; RemoveLease]
  else [SetState (sp_State params); SetQueueState (qsKey (dj_Queue j) (sp_State params)); SetWorker ""; SetErrors errs;
        SetFinalized (UTC now); IncVersion; RemoveLease].

(** Whether the outcome frees the unique key of the job. *)
Definition freesKey (key : string) : bool := bool_decide (key ≠ "") && negb (IsPermanentUniqueKey key).

Definition errOf {A} (r : result A) : option error := match r with Ok _ => None | Err err => Some err end.

Definition jobSetStateIfRunning (params : JobSetStateParams) : io (option error) :=
  let stale := jobError ErrStaleClaim (sp_ID params) in
  r ← selectJob (sp_ID params);
  match r with
  | Err err => mret (Some err)
  | Ok None => mret (Some stale)
  | Ok (Some j) =>
      if negb (bool_decide (dj_State j = JobStateRunning)) || negb (MatchesClaim params (dj_WorkerID j) (dj_AttemptNum j))
      then mret (Some stale)
      else if sp_Yield params then
        u ← call (UpdateJob (sp_ID params) (settleConds (dj_Version j)) (yieldActions (dj_Queue j)));
        mret match u with Err err => Some err | Ok false => Some stale | Ok true => None end
      else
        now ← clkNow;
        u ← call (UpdateJob (sp_ID params) (settleConds (dj_Version j)) (settleActions params now j));
        match u with
        | Err err => mret (Some err)
        | Ok false => mret (Some stale)
        | Ok true =>
            if negb (bool_decide (sp_State params = JobStateRetryable)) && freesKey (dj_UniqueKey j)
            then d ← call (DeleteUniq (dj_UniqueKey j)); mret (errOf d)
            else mret None
        end
  end.

(** ** Cancelling, deleting, rescheduling *)

Definition cancelConds : list cond := [StateIn [JobStateAvailable; JobStateScheduled]].
Definition cancelActions (queue : string) (now : Instant) : list action :=
  [SetState JobStateCancelled; SetQueueState (qsKey queue JobStateCancelled); SetFinalized (UTC now); IncVersion].

Definition notCancellable (id : string) (j : dynamoJob) : error :=
  EWrap "" (ESentinel ErrConflict) (": job " +:+ quoted id +:+ " is in state " +:+ dj_State j +:+ ", can only cancel available/scheduled").
Definition changedBefore (id : string) : error :=
  EWrap "" (ESentinel ErrConflict) (": job " +:+ quoted id +:+ " changed before cancellation").

Definition jobCancel (id : string) : io (option error) :=
  r ← selectJob id;
  match r with
  | Err err => mret (Some err)
  | Ok None => mret (Some (jobError ErrNotFound id))
  | Ok (Some j) =>
      if negb (bool_decide (dj_State j = JobStateAvailable)) && negb (bool_decide (dj_State j = JobStateScheduled))
      then mret (Some (notCancellable id j))
      else
        now ← clkNow;
        u ← call (UpdateJob id cancelConds (cancelActions (dj_Queue j) now));
        match u with
        | Err err => mret (Some err)
        | Ok false => mret (Some (changedBefore id))
        | Ok true => if freesKey (dj_UniqueKey j) then _ ← call (DeleteUniq (dj_UniqueKey j)); mret None else mret None
        end
  end.

Definition jobDelete (id : string) : io (option error) :=
  r ← selectJob id;
  match r with
  | Err err => mret (Some err)
  | Ok None => mret (Some (jobError ErrNotFound id))
  | Ok (Some j) =>
      d ← call (DeleteJob id);
      match d with
      | Err err => mret (Some err)
      | Ok _ => if bool_decide (dj_UniqueKey j ≠ "") then _ ← call (DeleteUniq (dj_UniqueKey j)); mret None else mret None
      end
  end.

Definition rescheduleActions (params : RescheduleParams) (queue : string) : list action :=
  [SetState JobStateScheduled; SetQueueState (qsKey queue JobStateScheduled); SetRunAt (UTC (rs_RunAt params)); IncVersion].

Definition jobReschedule (params : RescheduleParams) : io (option error) :=
  r ← selectJob (rs_ID params);
  match r with
  | Err err => mret (Some err)
  | Ok None => mret (Some (jobError ErrNotFound (rs_ID params)))
  | Ok (Some j) => u ← call (UpdateJob (rs_ID params) [] (rescheduleActions params (dj_Queue j))); mret (errOf u)
  end.

(** ** Queues *)

Definition itemToQueueRow (name : string) (q : queueItem) : QueueRow :=
  mkQueueRow name (qi_Paused q) (default zeroTime (parseTime <$> qi_CreatedAt q)) (parseTime (qi_UpdatedAt q)).

Definition queueGet (name : string) : io (result QueueRow) :=
  r ← call (GetQueue name);
  mret match r with
       | Err err => Err err
       | Ok None => Err (EWrap "" (ESentinel ErrNotFound) (": queue " +:+ quoted name))
       | Ok (Some q) => Ok (itemToQueueRow name q)
       end.

Definition queueSetPaused (name : string) (paused : bool) : io (option error) :=
  now ← clkNow; r ← call (SetPaused name paused (UTC now)); mret (errOf r).

Definition queueLess (a b : QueueRow) : bool := str_lt (q_Name a) (q_Name b).

Definition queueList (fuel : nat) (params : QueueListParams) : io (option (result (list QueueRow))) :=
  let go cursor :=
    r ← pages (λ start, call (ScanQueues start)) fuel None;
    mret match r with
         | Some (Ok items) =>
             Some (Ok (take (Z.to_nat (pageLimit (ql_Limit params)))
               (sort_by queueLess ((λ x, itemToQueueRow x.1 x.2) <$> filter (λ x, str_lt cursor x.1 = true) items))))
         | Some (Err err) => Some (Err err)
         | None => None
         end in
  if bool_decide (ql_Cursor params = "") then go ""
  else match DecodeQueueCursor (ql_Cursor params) with Ok cursor => go cursor | Err err => mret (Some (Err err)) end.

(** ** Leases and schedule cursors *)

Definition leaderAttemptElect (params : LeaderElectParams) : io (bool * option error) :=
  now ← clkNow;
  r ← call (PutLeader (le_Name params) (le_WorkerID params) (UTC (Add now (le_TTL params))) (UTC now));
  mret (boolOrErr r).

Definition leaderResign (params : LeaderResignParams) : io (option error) :=
  r ← call (DeleteLeader (lr_Name params) (lr_WorkerID params)); mret (errOf r).

Definition emptyCursorResult : ScheduleCursorResult := mkScheduleCursorResult zeroTime false.

Definition scheduleCursorGetOrCreate (params : ScheduleCursorCreateParams) : io (ScheduleCursorResult * option error) :=
  r ← call (PutCursor (cc_ID params) (UTC (cc_InitialAt params)));
  match r with
  | Err err => mret (emptyCursorResult, Some err)
  | Ok created =>
      r ← call (GetCursor (cc_ID params));
      mret match r with
           | Err err => (emptyCursorResult, Some err)
           | Ok None => (emptyCursorResult, Some (ENew ("schedule cursor " +:+ quoted (cc_ID params) +:+ " has no cursor_at")))
           | Ok (Some at_) => (mkScheduleCursorResult (parseTime at_) created, None)
           end
  end.

Definition scheduleCursorAdvance (params : ScheduleCursorAdvanceParams) : io (bool * option error) :=
  r ← call (MoveCursor (ca_ID params) (UTC (ca_Expected params)) (UTC (ca_Next params)));
  mret (boolOrErr r).

(** ** Migrations *)

Definition tableJobs : string := "goncordia_jobs".
Definition tableUniq : string := "goncordia_uniq".
Definition tableQueues : string := "goncordia_queues".
Definition tableLeaders : string := "goncordia_leaders".
Definition tableCursors : string := "goncordia_schedule_cursors".
Definition gsiQueueState : string := "gsi_queue_state".

Definition tables : list tableInput :=
  [mkTable tableJobs ["id"; "queue_state"; "run_at"] "id" (Some (gsiQueueState, "queue_state", "run_at"));
   mkTable tableUniq ["pk"] "pk" None; mkTable tableQueues ["name"] "name" None; mkTable tableLeaders ["name"] "name" None;
   mkTable tableCursors ["id"] "id" None].

Fixpoint migrateTables (inputs : list tableInput) : io (option error) :=
  match inputs with
  | [] => mret None
  | input :: rest =>
      c ← onService (dy_create input);
      match c with
      | CreateFailed err => mret (Some (EWrap ("dynamodb migrate: create " +:+ ti_TableName input +:+ ": ") err ""))
      | Created | InUse =>
          w ← onService (dy_wait (ti_TableName input));
          match w with
          | Some err => mret (Some (EWrap ("dynamodb migrate: wait " +:+ ti_TableName input +:+ ": ") err ""))
          | None => migrateTables rest
          end
      end
  end.

Definition Migrate : io (option error) := migrateTables tables.

(** ** The executor *)

(** [Begin] is refused; the transaction made from the caller's [NoTx] does nothing of
    its own. *)
Definition Begin : io (result nat) := mret (Err (EWrap "" (ESentinel ErrUnsupported) ": dynamodb transactions")).
Definition BeginNested : io (result nat) := mret (Err (ENew "nested transactions not supported")).
Definition Commit : io (option error) := mret None.
Definition Rollback : io (option error) := mret None.
End driver.

Definition DynamoCapabilities : Capabilities :=
  {| NativeTx := false; ListenNotify := false; ChangeStreams := false; SkipLocked := false; UniqueJobs := true;
     AdvisoryLocks := false; LinearizableLeases := true; LinearizableCAS := true; LifecycleTimestamps := true;
     BoundedFetch := true; StrictFetchOrdering := false |}.

Definition dynamoName : string := "dynamodb".
Definition newDynamo {S} (svc : S) (clk : Clock) : DyEnv (S := S) := mkDyEnv svc clk.
