(* ===== verification/DynamoLaws.v ===== *)
(** * driver/dynamodb: atomic moves, and what the service promises

    A [move] is a request with its answer.  [DynamoLaws] states the documented
    behaviour: a write is atomic, conditional or not, and so is the transaction of
    two puts, which may be cancelled for other reasons than its condition; a read
    that does not ask for consistency, and every read of an index, answers with items
    as they are or once were; pages go forward through the keys; a request that
    fails may or may not have been carried out.  To say "once were" the database
    has a ghost part, every item it has ever held.  Identifiers do not repeat.
    Others use the tables through this driver, too. *)

From S2P Require Import Prelude GoBase Json Codec Driver Memory TimeText.
From S2P Require Export Moves.
From S2P Require Import Dynamo.
From Stdlib Require Import ZArith Lia.

Record Db := mkDb {
  db_jobs : gmap string dynamoJob;
  db_past : list dynamoJob;
  db_uniq : gmap string string;
  db_queues : gmap string queueItem;
  db_pastQueues : list (string * queueItem);
  db_leaders : gmap string leaderItem;
  db_cursors : gmap string Instant
}.

#[export] Instance Db_eq_dec : EqDecision Db.
Proof. solve_decision. Defined.

Definition eta_db (d : Db) : Db := mkDb (db_jobs d) (db_past d) (db_uniq d) (db_queues d) (db_pastQueues d) (db_leaders d) (db_cursors d).
Definition set_jobs : gmap string dynamoJob → Db → Db := ltac:(setter eta_db db_jobs).
Definition set_past : list dynamoJob → Db → Db := ltac:(setter eta_db db_past).
Definition set_uniq : gmap string string → Db → Db := ltac:(setter eta_db db_uniq).
Definition set_queues : gmap string queueItem → Db → Db := ltac:(setter eta_db db_queues).
Definition set_pastQueues : list (string * queueItem) → Db → Db := ltac:(setter eta_db db_pastQueues).
Definition set_leaders : gmap string leaderItem → Db → Db := ltac:(setter eta_db db_leaders).
Definition set_cursors : gmap string Instant → Db → Db := ltac:(setter eta_db db_cursors).

Definition storeJob (j : dynamoJob) (d : Db) : Db := set_past (j :: db_past d) (set_jobs (<[dj_ID j := j]> (db_jobs d)) d).
Definition storeQueue (name : string) (q : queueItem) (d : Db) : Db :=
  set_pastQueues ((name, q) :: db_pastQueues d) (set_queues (<[name := q]> (db_queues d)) d).

(** An id that no item ever had. *)
Definition freshID (id : string) (d : Db) : bool := bool_decide (Forall (λ j, dj_ID j ≠ id) (db_past d)).

Definition given (b : bool) (d : Db) : option Db := if b then Some d else None.

(** A conditional write: the new database if the condition holds. *)
Definition conditional (ok : bool) (d' d : Db) (a : bool) : option Db :=
  if bool_decide (a = ok) then Some (if ok then d' else d) else None.

Definition electable (now : Instant) (w : string) (l : option leaderItem) : bool :=
  match l with None => true | Some l => textLt (li_ExpiresAt l) now || bool_decide (li_WorkerID l = w) end.

(** What the service makes of a request, and whether it can give that answer.  An
    update without a condition of an item that is gone is refused, with an error:
    its expression counts up an attribute that is not there. *)
Definition serve {K} (q : request K) : reply q → Db → option Db :=
  match q with
  | GetJob id => λ a d, given match a with Some j => bool_decide (j ∈ db_past d ∧ dj_ID j = id) | None => true end d
  | PutJob j => λ _ d, if freshID (dj_ID j) d then Some (storeJob j d) else None
  | PutUniqueJob j => λ a d,
      if a : bool
      then if freshID (dj_ID j) d && bool_decide (db_uniq d !! dj_UniqueKey j = None)
           then Some (set_uniq (<[dj_UniqueKey j := dj_ID j]> (db_uniq d)) (storeJob j d)) else None
      else Some d
  | UpdateJob id conds us => λ a d,
      match db_jobs d !! id with
      | Some j => conditional (forallb (holdsCond j) conds) (storeJob (applyActions us j) d) d a
      | None => if conds then None else conditional false d d a
      end
  | DeleteJob id => λ _ d, Some (set_jobs (delete id (db_jobs d)) d)
  | DeleteUniq key => λ _ d, Some (set_uniq (delete key (db_uniq d)) d)
  | QueryJobs qs _ => λ a d, given (bool_decide (Forall (λ j, j ∈ db_past d ∧ dj_QueueState j = qs) a.1)) d
  | QueryDue qs now limit => λ a d,
      given (bool_decide (Forall (λ j, j ∈ db_past d ∧ dj_QueueState j = qs ∧ textLe (dj_RunAt j) now = true) a ∧ Z.of_nat (length a) ≤ limit)) d
  | CountJobs _ _ => λ a d, given (0 <=? a.1) d
  | ScanJobs _ => λ a d, given (bool_decide (Forall (λ j, j ∈ db_past d) a.1)) d
  | GetQueue name => λ a d, given match a with Some q => bool_decide ((name, q) ∈ db_pastQueues d) | None => true end d
  | PutQueue name now => λ a d,
      conditional (bool_decide (db_queues d !! name = None)) (storeQueue name (mkQueueItem false (Some now) now) d) d a
  | SetPaused name paused now => λ _ d,
      Some (storeQueue name (mkQueueItem paused (db_queues d !! name ≫= qi_CreatedAt) now) d)
  | ScanQueues _ => λ a d, given (bool_decide (Forall (λ x, x ∈ db_pastQueues d) a.1)) d
  | PutLeader name w expiresAt now => λ a d,
      conditional (electable now w (db_leaders d !! name)) (set_leaders (<[name := mkLeaderItem w expiresAt]> (db_leaders d)) d) d a
  | DeleteLeader name w => λ a d,
      conditional (match db_leaders d !! name with Some l => bool_decide (li_WorkerID l = w) | None => false end)
        (set_leaders (delete name (db_leaders d)) d) d a
  | PutCursor id at_ => λ a d, conditional (bool_decide (db_cursors d !! id = None)) (set_cursors (<[id := at_]> (db_cursors d)) d) d a
  | GetCursor id => λ a d, given (bool_decide (a = db_cursors d !! id)) d
  | MoveCursor id expected next => λ a d,
      conditional (bool_decide (timeText <$> db_cursors d !! id = Some (timeText expected))) (set_cursors (<[id := next]> (db_cursors d)) d) d a
  end.

(** Every update counts the version up, once. *)
Definition bumps (us : list action) : nat := length (filter (λ a, a = IncVersion) us).
Definition saneRequest {K} (q : request K) : bool := match q with UpdateJob _ _ us => bool_decide (bumps us = 1%nat) | _ => true end.

Inductive move (K : Type) := MReq (q : request K) (a : reply q).
Arguments MReq {K}.

Definition step {K} (m : move K) (d : Db) : option Db :=
  match m with MReq q a => if saneRequest q then serve q a d else None end.

(** ** The history of an item *)

(** An item is known by its id and its version, and the one that is stored is the
    last. *)
Record historyOk (d : Db) : Prop := mkHistory {
  ho_now id j : db_jobs d !! id = Some j → dj_ID j = id ∧ j ∈ db_past d;
  ho_version j1 j2 : j1 ∈ db_past d → j2 ∈ db_past d → dj_ID j1 = dj_ID j2 → dj_Version j1 = dj_Version j2 → j1 = j2;
  ho_last j1 j : j1 ∈ db_past d → db_jobs d !! dj_ID j1 = Some j → dj_Version j1 ≤ dj_Version j
}.

Lemma applyAction_frame j a : dj_ID (applyAction j a) = dj_ID j ∧
  dj_Version (applyAction j a) = if decide (a = IncVersion) then dj_Version j + 1 else dj_Version j.
Proof. by destruct a. Qed.

Lemma applyActions_frame us : ∀ j, dj_ID (applyActions us j) = dj_ID j ∧
  dj_Version (applyActions us j) = dj_Version j + Z.of_nat (bumps us).
Proof.
  induction us as [|a us IH]; intros j; simpl; [split; [done|unfold bumps; simpl; lia]|].
  destruct (IH (applyAction j a)) as [-> ->]. destruct (applyAction_frame j a) as [-> ->]. split; [done|].
  unfold bumps. rewrite filter_cons. case_decide; simpl; lia.
Qed.

Lemma historyOk_same d d' : db_jobs d' = db_jobs d → db_past d' = db_past d → historyOk d → historyOk d'.
Proof. intros H1 H2 [Ha Hb Hc]. split; rewrite ?H1, ?H2; done. Qed.

Lemma historyOk_put j d : historyOk d → freshID (dj_ID j) d = true → historyOk (storeJob j d).
Proof.
  intros [Hn Hv Hl] Hf. apply bool_decide_eq_true in Hf. rewrite Forall_forall in Hf. split; simpl.
  - intros id j0. rewrite lookup_insert_Some. intros [[<- <-]|[Hne Hj]]; [split; [done|by left]|]. destruct (Hn _ _ Hj). split; [done|by right].
  - intros j1 j2 [->|H1]%elem_of_cons [->|H2]%elem_of_cons Hid Hver; try done; [..|by apply Hv].
    + by destruct (Hf _ H2).
    + by destruct (Hf _ H1).
  - intros j1 j0 [->|H1]%elem_of_cons; [rewrite lookup_insert_eq; intros [= <-]; lia|]. rewrite lookup_insert_ne by (intros Heq; by destruct (Hf _ H1)). by apply Hl.
Qed.

Lemma historyOk_update id j us d : historyOk d → db_jobs d !! id = Some j → bumps us = 1%nat → historyOk (storeJob (applyActions us j) d).
Proof.
  intros [Hn Hv Hl] Hj Hb. destruct (applyActions_frame us j) as [Hid Hver]. rewrite Hb in Hver. set (j' := applyActions us j) in *.
  destruct (Hn _ _ Hj) as [Hji Hjp].
  assert (∀ p, p ∈ db_past d → dj_ID p = dj_ID j' → dj_Version p < dj_Version j') as Hnew.
  { intros p Hp Heq. assert (dj_Version p ≤ dj_Version j); [|lia]. apply Hl; [done|]. rewrite Heq, Hid, Hji. done. }
  split; simpl.
  - intros i j0. rewrite lookup_insert_Some. intros [[<- <-]|[Hne Hj0]]; [split; [done|by left]|]. destruct (Hn _ _ Hj0). split; [done|by right].
  - intros j1 j2 [->|H1]%elem_of_cons [->|H2]%elem_of_cons Heq Hve; try done; [..|by apply Hv].
    + specialize (Hnew _ H2 (eq_sym Heq)). lia.
    + specialize (Hnew _ H1 Heq). lia.
  - intros j1 j0 [->|H1]%elem_of_cons; [rewrite lookup_insert_eq; intros [= <-]; lia|].
    destruct (decide (dj_ID j1 = dj_ID j')) as [Heq|Hne]; [rewrite Heq, lookup_insert_eq; intros [= <-]; specialize (Hnew _ H1 Heq); lia|].
    rewrite lookup_insert_ne by done. by apply Hl.
Qed.

Lemma conditional_Some ok d' d a d1 : conditional ok d' d a = Some d1 → a = ok ∧ d1 = if ok then d' else d.
Proof. unfold conditional. case_bool_decide; naive_solver. Qed.
Lemma given_Some b d d' : given b d = Some d' → b = true ∧ d' = d.
Proof. unfold given. destruct b; naive_solver. Qed.

Lemma dy_step_history {K} (m : move K) d d' : historyOk d → step m d = Some d' → historyOk d'.
Proof.
  intros Hh. destruct m as [q a]. cbn [step]. destruct (saneRequest q) eqn:Hs; [|done]. destruct q; cbn [serve];
    try (intros [_ ->]%given_Some; done); try (intros [= <-]; by apply (historyOk_same d));
    try (intros [_ ->]%conditional_Some; case_match; by apply (historyOk_same d)).
  - destruct (freshID (dj_ID j) d) eqn:Hf; [|done]. intros [= <-]. by apply historyOk_put.
  - destruct a; [|by intros [= <-]]. destruct (freshID (dj_ID j) d) eqn:Hf; [|done]. simpl. case_bool_decide; [|done]. intros [= <-].
    apply (historyOk_same (storeJob j d)); [done..|]. by apply historyOk_put.
  - simpl in Hs. bool_to_prop. destruct (db_jobs d !! id) as [j|] eqn:Hj.
    + intros [_ ->]%conditional_Some. destruct (forallb _ _); [|done]. by eapply historyOk_update.
    + destruct conds; [done|]. by intros [_ ->]%conditional_Some.
  - intros [= <-]. destruct Hh as [Hn Hv Hl]. split; simpl; [|done|].
    + intros i j. rewrite lookup_delete_Some. intros [_ ?]. by apply Hn.
    + intros j1 j Hp. rewrite lookup_delete_Some. intros [_ ?]. by apply Hl.
Qed.

(** ** What a call has done when it answers *)

(** The page after this one, if there is one. *)
Definition nextPage {K} (q : request K) : reply q → option (option K * option K) :=
  match q with
  | QueryJobs _ start | ScanJobs start => λ a, Some (start, a.2)
  | CountJobs _ start => λ a, Some (start, a.2)
  | ScanQueues start => λ a, Some (start, a.2)
  | _ => λ _, None
  end.

Section service.
Context {S : Type} `{Dynamo S}.

Abbreviation happens := (Moves.happens (step (K := dy_Key))).
Abbreviation others := (Moves.others (step (K := dy_Key))).

(** [dy_left]: how much of the keys is left. *)
Class DynamoLaws := {
  dy_db : S → Db;
  dy_left : option dy_Key → nat;
  dy_uuid_law s : others (dy_db s) (dy_db (dy_uuid s).1);
  dy_create_law t s : others (dy_db s) (dy_db (dy_create t s).1);   (* a table that is in use stays *)
  dy_wait_law name s : others (dy_db s) (dy_db (dy_wait name s).1);
  dy_call_law q s : historyOk (dy_db s) → saneRequest q = true → ∃ acts,
    happens (dy_db s) (dy_db (dy_call q s).1) acts ∧
    match (dy_call q s).2 with
    | Ok a => did acts = [MReq q a] ∧ match nextPage q a with Some (start, Some key) => (dy_left (Some key) < dy_left start)%nat | _ => True end
    | Err e => foreignErr e ∧ (did acts = [] ∨ ∃ a, did acts = [MReq q a])
    end
}.
End service.
Arguments DynamoLaws S {H}.

(** ** The logic of programs *)

Section logic.
Context {S : Type} `{Dynamo S} `{!DynamoLaws S}.
Abbreviation dbOf e := (dy_db (yv_svc e)).

Definition does {A} (m : io A) (Q : list (act (move dy_Key)) → A → Prop) : Prop :=
  Moves.does step (λ e, dbOf e) historyOk m Q.

Lemma dy_weaken {A} (m : io A) (Q Q' : list (act (move dy_Key)) → A → Prop) : does m Q → (∀ acts a, Q acts a → Q' acts a) → does m Q'.
Proof. apply moves_weaken. Qed.

Lemma dy_ret {A} (a : A) (Q : list (act (move dy_Key)) → A → Prop) : Q [] a → does (mret a) Q.
Proof. apply moves_ret. Qed.

Lemma dy_bind {A B} (m : io A) (f : A → io B) (Q : list (act (move dy_Key)) → B → Prop) :
  does m (λ a1 x, does (f x) (λ a2 y, Q (a1 ++ a2) y)) → does (m ≫= f) Q.
Proof. apply moves_bind, dy_step_history. Qed.

Lemma dy_now Q : (∀ now, Q [] now) → does clkNow Q.
Proof.
  intros HQ e _. exists []. unfold clkNow. destruct (Now (yv_clk e)) as [now clk]. simpl.
  split; [by apply happens_others|done].
Qed.

(** A call that moves nothing. *)
Lemma dy_aside {A} (f : S → S * A) (Q : list (act (move dy_Key)) → A → Prop) : (∀ s, Moves.others (step (K := dy_Key)) (dy_db s) (dy_db (f s).1)) →
  (∀ a, Q [] a) → does (onService f) Q.
Proof.
  intros Ho HQ e _. exists []. unfold onService. specialize (Ho (yv_svc e)). destruct (f (yv_svc e)) as [s a]. simpl in *.
  split; [by apply happens_others|done].
Qed.

Lemma dy_newID Q : (∀ id, Q [] id) → does (onService dy_uuid) Q.
Proof. apply dy_aside, dy_uuid_law. Qed.

Definition possible (m : move dy_Key) : Prop := ∃ d d', historyOk d ∧ step m d = Some d'.

(** A request that has failed: the service may or may not have carried it out. *)
Definition tried (q : request dy_Key) (ms : list (move dy_Key)) : Prop := ms = [] ∨ ∃ a, ms = [MReq q a].

(** A page that is not the last leaves less. *)
Definition goesOn (q : request dy_Key) (a : reply q) : Prop :=
  match nextPage q a with Some (start, Some key) => (dy_left (Some key) < dy_left start)%nat | _ => True end.

Lemma dy_call_then {A} q (f : result (reply q) → io A) (Q : list (act (move dy_Key)) → A → Prop) : saneRequest q = true →
  (∀ acts a, possible (MReq q a) → goesOn q a → did acts = [MReq q a] → does (f (Ok a)) (λ acts2 y, Q (acts ++ acts2) y)) →
  (∀ acts e, foreignErr e → tried q (did acts) → does (f (Err e)) (λ acts2 y, Q (acts ++ acts2) y)) →
  does (r ← call q; f r) Q.
Proof.
  intros Hs HQ HE. apply dy_bind. intros e He. unfold call, onService. destruct (dy_call_law q (yv_svc e) He Hs) as (acts & Hh & Hr).
  pose proof (happens_ran _ historyOk dy_step_history _ _ _ Hh He) as Hp.
  destruct (dy_call q (yv_svc e)) as [s r]. simpl in *. exists acts. split; [done|].
  destruct r as [a|err]; [|destruct Hr; by apply HE]. destruct Hr as [Hd Hg]. apply HQ; [|done..].
  rewrite Hd, Forall_singleton in Hp. exact Hp.
Qed.
End logic.
