(* ===== verification/DynamoRefine.v ===== *)
(** * driver/dynamodb: what each operation does

    [promised o acts a]: the operation [o] has done [acts] and answered [a]; no
    answer means that the code panics, which only a fetch can.  The refinement
    theorem says that every operation, given fuel for the pages that the service can
    still answer, comes to an end and keeps its promise, whatever other programs do
    between its calls. *)

From S2P Require Import Prelude GoBase Json Codec Driver Moves Memory TimeText Dynamo DynamoLaws.
From Stdlib Require Import ZArith Lia.

(** ** Operations *)

Section operations.
Context {S : Type} `{Dynamo S}.
Abbreviation K := dy_Key.
#[local] Abbreviation io := (Dynamo.io (S := S)).

Definition total {A} (m : io A) : io (option A) := a ← m; mret (Some a).

Definition execOp (fuel : nat) (o : driverOp) : io (option (ans o)) :=
  match o with
  | OInsert ps => total (jobInsertMany ps)
  | OGet id => total (jobGetByID id)
  | OList p => jobList fuel p
  | OStats q => queueStats fuel q
  | OFetch p => jobFetchBatch p
  | ORescue p => jobRescueStuck fuel p
  | OHeartbeat p => total (jobHeartbeat p)
  | OMarkStarted p => total (jobMarkStarted p)
  | OSetState p => total (jobSetStateIfRunning p)
  | OCancel id => total (jobCancel id)
  | ODelete id => total (jobDelete id)
  | OReschedule p => total (jobReschedule p)
  | OQueueGet n => total (queueGet n)
  | OSetPaused n b => total (queueSetPaused n b)
  | OQueueList p => queueList fuel p
  | OElect p => total (leaderAttemptElect p)
  | OResign p => total (leaderResign p)
  | OCursorGet p => total (scheduleCursorGetOrCreate p)
  | OCursorAdvance p => total (scheduleCursorAdvance p)
  end.

(** A program: one operation after the other. *)
Fixpoint execAll (fuel : nat) (os : list driverOp) (e : DyEnv (S := S)) : DyEnv (S := S) * list {o : driverOp & option (ans o)} :=
  match os with
  | [] => (e, [])
  | o :: rest =>
      let '(e1, a) := execOp fuel o e in
      let '(e2, as_) := execAll fuel rest e1 in
      (e2, existT o a :: as_)
  end.

(** ** Promises *)

(** Requests that change nothing. *)
Definition reads (m : move K) : bool :=
  match m with
  | MReq (GetJob _) _ | MReq (QueryJobs _ _) _ | MReq (QueryDue _ _ _) _ | MReq (CountJobs _ _) _ | MReq (ScanJobs _) _
  | MReq (GetQueue _) _ | MReq (ScanQueues _) _ | MReq (GetCursor _) _ => true
  | _ => false
  end.
Abbreviation onlyReads ms := (Forall (λ m, reads m = true) ms).

(** What became of one parameter of a batch.  A cancelled transaction is counted as a
    taken key. *)
Definition putMove (p : JobInsertParams) (j : dynamoJob) : move K :=
  if bool_decide (ip_UniqueKey p ≠ "") then MReq (PutUniqueJob j) true else MReq (PutJob j) tt.
Definition insertedAs (now : Instant) (p : JobInsertParams) (ms : list (move K)) (r : JobInsertResult) : Prop :=
  ∃ id, let j := newJob p id now in
    if ir_UniqueSkip r
    then ip_UniqueKey p ≠ "" ∧ ir_Job r = None ∧ ms = [MReq (PutUniqueJob j) false]
    else ir_Job r = Some (jobFromDynamo j) ∧ ∃ b, ms = [putMove p j; MReq (PutQueue (ip_Queue p) (UTC now)) b].

(** A parameter at which the batch has failed. *)
Definition insertFails (now : Instant) (p : JobInsertParams) (ms : list (move K)) : Prop :=
  ∃ id, let j := newJob p id now in
    tried (if bool_decide (ip_UniqueKey p ≠ "") then PutUniqueJob j else PutJob j) ms ∨
    ∃ l, ms = putMove p j :: l ∧ tried (PutQueue (ip_Queue p) (UTC now)) l.

(** All that the pages of an index or of a table hold, page by page. *)
Inductive paged {A} (page : option K → list A * option K → move K) : option K → list (move K) → list A → Prop :=
| paged_last start items : paged page start [page start (items, None)] items
| paged_more start items key ms rest : paged page (Some key) ms rest →
    paged page start (page start (items, Some key) :: ms) (items ++ rest).

Inductive pagedStates (queue : string) : list string → list (move K) → list dynamoJob → Prop :=
| pagedStates_nil : pagedStates queue [] [] []
| pagedStates_cons state states ms1 items ms rest : paged (λ start a, MReq (QueryJobs (qsKey queue state) start) a) None ms1 items →
    pagedStates queue states ms rest → pagedStates queue (state :: states) (ms1 ++ ms) (items ++ rest).

Definition cursorOf (p : JobListParams) (cur : option (Instant * string)) : Prop :=
  if bool_decide (jl_Cursor p = "") then cur = None else ∃ c, DecodeJobCursor (jl_Cursor p) = Ok c ∧ cur = Some c.

Definition listed (p : JobListParams) (ms : list (move K)) (items : list dynamoJob) : Prop :=
  if bool_decide (jl_Queue p ≠ "")
  then pagedStates (jl_Queue p) (if bool_decide (jl_State p = "") then allStates else [jl_State p]) ms items
  else paged (λ start a, MReq (ScanJobs start) a) None ms items.

(** The counts of a queue. *)
Inductive counted (queue : string) : list string → QueueStats → list (move K) → QueueStats → Prop :=
| counted_nil s : counted queue [] s [] s
| counted_cons state states s ms1 counts ms s' :
    paged (λ start a, MReq (CountJobs (qsKey queue state) start) (default 0 (head a.1), a.2)) None ms1 counts →
    counted queue states (foldl (addCount state) s counts) ms s' → counted queue (state :: states) s (ms1 ++ ms) s'.

Definition queueCursorOf (p : QueueListParams) (cursor : string) : Prop :=
  if bool_decide (ql_Cursor p = "") then cursor = "" else DecodeQueueCursor (ql_Cursor p) = Ok cursor.

(** A claim, asked for or made: the update of a candidate. *)
Definition claimRequest (p : FetchParams) (now : Instant) (c : dynamoJob) : request K :=
  UpdateJob (dj_ID c) (claimConds (dj_Version c)) (claimActions p now).
Definition claimOf (p : FetchParams) (now : Instant) (x : dynamoJob * bool) : move K := MReq (claimRequest p now x.1) x.2.
Definition won (xs : list (dynamoJob * bool)) : list dynamoJob := (filter (λ x, x.2 = true) xs).*1.

(** The candidates in their order, until enough have been claimed.  A failure drops
    the jobs that have been claimed before. *)
Definition claimed (p : FetchParams) (now : Instant) (cs : list dynamoJob) (limit : nat) (ms : list (move K)) (r : result (list JobRow)) : Prop :=
  ∃ xs last, ms = (claimOf p now <$> xs) ++ last ∧ (length (won xs) ≤ limit)%nat ∧
  match r with
  | Ok rows => rows = claimedRow p now <$> won xs ∧ last = [] ∧
      (xs.*1 = cs ∨ length (won xs) = limit ∧ xs.*1 `prefix_of` cs)
  | Err _ => ∃ c rest, xs.*1 ++ c :: rest = cs ∧ tried (claimRequest p now c) last
  end.

Definition rescueMove (p : JobRescueParams) (x : dynamoJob * bool) : move K :=
  MReq (UpdateJob (dj_ID x.1) (rescueConds p) (rescueActions p)) x.2.
Definition stuckIn (p : JobRescueParams) (items : list dynamoJob) : list dynamoJob := filter (λ j, rescuable p j = true) items.

Inductive rescued (p : JobRescueParams) : option K → list (move K) → Z → option error → Prop :=
| rescued_failed start ms err : tried (QueryJobs (qsKey (rp_Queue p) JobStateRunning) start) ms → rescued p start ms 0 (Some err)
| rescued_stopped start items next xs j rest last err : xs.*1 ++ j :: rest = stuckIn p items →
    tried (UpdateJob (dj_ID j) (rescueConds p) (rescueActions p)) last →
    rescued p start (MReq (QueryJobs (qsKey (rp_Queue p) JobStateRunning) start) (items, next) :: (rescueMove p <$> xs) ++ last)
      (Z.of_nat (length (won xs))) (Some err)
| rescued_last start items xs : xs.*1 = stuckIn p items →
    rescued p start (MReq (QueryJobs (qsKey (rp_Queue p) JobStateRunning) start) (items, None) :: (rescueMove p <$> xs))
      (Z.of_nat (length (won xs))) None
| rescued_more start items key xs ms n err : xs.*1 = stuckIn p items → rescued p (Some key) ms n err →
    rescued p start (MReq (QueryJobs (qsKey (rp_Queue p) JobStateRunning) start) (items, Some key) :: (rescueMove p <$> xs) ++ ms)
      (Z.of_nat (length (won xs)) + n) err.

(** A request whose answer is the operation's. *)
Definition asked (q : request K) (a : reply q) (err : option error) (ms : list (move K)) : Prop :=
  match err with None => ms = [MReq q a] | Some _ => tried q ms end.

Definition holds (p : JobSetStateParams) (j : dynamoJob) : Prop :=
  dj_State j = JobStateRunning ∧ MatchesClaim p (dj_WorkerID j) (dj_AttemptNum j) = true.
Definition settleRequest (p : JobSetStateParams) (now : Instant) (j : dynamoJob) : request K :=
  UpdateJob (sp_ID p) (settleConds (dj_Version j)) (if sp_Yield p then yieldActions (dj_Queue j) else settleActions p now j).
Definition settleFrees (p : JobSetStateParams) (j : dynamoJob) : bool :=
  negb (sp_Yield p) && negb (bool_decide (sp_State p = JobStateRetryable)) && freesKey (dj_UniqueKey j).

Definition cancellable (j : dynamoJob) : Prop := dj_State j = JobStateAvailable ∨ dj_State j = JobStateScheduled.
Definition cancelRequest (id : string) (now : Instant) (j : dynamoJob) : request K := UpdateJob id cancelConds (cancelActions (dj_Queue j) now).

(** A key that is let go, if it is; nobody looks at what comes of it. *)
Definition letGo (b : bool) (key : string) (ms : list (move K)) : Prop := if b then tried (DeleteUniq key) ms else ms = [].

Definition rescheduleRequest (p : RescheduleParams) (j : dynamoJob) : request K :=
  UpdateJob (rs_ID p) [] (rescheduleActions p (dj_Queue j)).
Definition promisedMoves (o : driverOp) (ms : list (move K)) : ans o → Prop :=
  match o with
  | OInsert ps => λ a, ∃ now,
      match a with
      | Ok rs => ∃ groups, ms = mjoin groups ∧ Forall3 (insertedAs now) ps groups rs
      | Err _ => ∃ before p rest groups rs last, ps = before ++ p :: rest ∧ ms = mjoin groups ++ last ∧
          Forall3 (insertedAs now) before groups rs ∧ insertFails now p last
      end
  | OGet id => λ a,
      match a with
      | Ok row => ∃ j, ms = [MReq (GetJob id) (Some j)] ∧ row = jobFromDynamo j
      | Err e => if errorsIs e ErrNotFound then ms = [MReq (GetJob id) None] else tried (GetJob id) ms
      end
  | OList p => λ a,
      match a with
      | Ok rows => ∃ cur items, cursorOf p cur ∧ listed p ms items ∧
          rows = take (Z.to_nat (pageLimit (jl_Limit p))) (sort_by listLess (filter (λ row, keepRow p cur row = true) (jobFromDynamo <$> items)))
      | Err _ => onlyReads ms
      end
  | OStats q => λ a,
      match a with
      | Ok s => counted q allStates (mkQueueStats q ∅ 0) ms s
      | Err _ => onlyReads ms
      end
  | OFetch p => λ '(rows, err),
      rows = [] ∧ err ≠ None ∧ onlyReads ms ∨
      rows = [] ∧ err = None ∧ (∃ q, ms = [MReq (GetQueue (fp_Queue p)) (Some q)] ∧ qi_Paused q = true) ∨
      ∃ q now avail sched l r, match q with Some q => qi_Paused q = false | None => True end ∧
        ms = MReq (GetQueue (fp_Queue p)) q ::
          MReq (QueryDue (qsKey (fp_Queue p) JobStateAvailable) (UTC now) (candidateLimit (fp_Limit p))) avail ::
          MReq (QueryDue (qsKey (fp_Queue p) JobStateScheduled) (UTC now) (candidateLimit (fp_Limit p))) sched :: l ∧
        claimed p now (sort_by candidateLess (avail ++ sched)) (Z.to_nat (fp_Limit p)) l r ∧
        match r with Ok rows' => rows = rows' ∧ err = None | Err e => rows = [] ∧ err = Some e end
  | ORescue p => λ '(n, err), rescued p None ms n err
  | OHeartbeat p => λ '(b, err), let q := UpdateJob (hp_ID p) (claimedBy (hp_WorkerID p) (hp_Attempt p)) [SetLease (UTC (renewalUntil p)); IncVersion] in
      asked q b err ms ∧ (err ≠ None → b = false)
  | OMarkStarted p => λ '(b, err), let q := UpdateJob (ms_ID p) (claimedBy (ms_WorkerID p) (ms_Attempt p)) [SetStarted (UTC (ms_At p)); IncVersion] in
      asked q b err ms ∧ (err ≠ None → b = false)
  | OSetState p => λ err,
      match err with
      | None => ∃ j now l, holds p j ∧ ms = MReq (GetJob (sp_ID p)) (Some j) :: MReq (settleRequest p now j) true :: l ∧
          l = if settleFrees p j then [MReq (DeleteUniq (dj_UniqueKey j)) tt] else []
      | Some e =>
          if errorsIs e ErrStaleClaim
          then ms = [MReq (GetJob (sp_ID p)) None] ∨
            ∃ j, ms = [MReq (GetJob (sp_ID p)) (Some j)] ∧ ¬ holds p j ∨
                 ∃ now, ms = [MReq (GetJob (sp_ID p)) (Some j); MReq (settleRequest p now j) false] ∧ holds p j
          else tried (GetJob (sp_ID p)) ms ∨
            ∃ j now l, holds p j ∧ ms = MReq (GetJob (sp_ID p)) (Some j) :: l ∧
              (tried (settleRequest p now j) l ∨
               settleFrees p j = true ∧ ∃ l', l = MReq (settleRequest p now j) true :: l' ∧ tried (DeleteUniq (dj_UniqueKey j)) l')
      end
  | OCancel id => λ err,
      match err with
      | None => ∃ j now l, cancellable j ∧ ms = MReq (GetJob id) (Some j) :: MReq (cancelRequest id now j) true :: l ∧
          letGo (freesKey (dj_UniqueKey j)) (dj_UniqueKey j) l
      | Some e =>
          if errorsIs e ErrNotFound then ms = [MReq (GetJob id) None]
          else if errorsIs e ErrConflict
          then ∃ j, ¬ cancellable j ∧ ms = [MReq (GetJob id) (Some j)] ∨
                    ∃ now, cancellable j ∧ ms = [MReq (GetJob id) (Some j); MReq (cancelRequest id now j) false]
          else tried (GetJob id) ms ∨ ∃ j now l, cancellable j ∧ ms = MReq (GetJob id) (Some j) :: l ∧ tried (cancelRequest id now j) l
      end
  | ODelete id => λ err,
      match err with
      | None => ∃ j l, ms = MReq (GetJob id) (Some j) :: MReq (DeleteJob id) tt :: l ∧
          letGo (bool_decide (dj_UniqueKey j ≠ "")) (dj_UniqueKey j) l
      | Some e =>
          if errorsIs e ErrNotFound then ms = [MReq (GetJob id) None]
          else tried (GetJob id) ms ∨ ∃ j l, ms = MReq (GetJob id) (Some j) :: l ∧ tried (DeleteJob id) l
      end
  | OReschedule p => λ err,
      match err with
      | None => ∃ j, ms = [MReq (GetJob (rs_ID p)) (Some j); MReq (rescheduleRequest p j) true]
      | Some e =>
          if errorsIs e ErrNotFound then ms = [MReq (GetJob (rs_ID p)) None]
          else tried (GetJob (rs_ID p)) ms ∨ ∃ j l, ms = MReq (GetJob (rs_ID p)) (Some j) :: l ∧ tried (rescheduleRequest p j) l
      end
  | OQueueGet n => λ a,
      match a with
      | Ok row => ∃ q, ms = [MReq (GetQueue n) (Some q)] ∧ row = itemToQueueRow n q
      | Err e => if errorsIs e ErrNotFound then ms = [MReq (GetQueue n) None] else tried (GetQueue n) ms
      end
  | OSetPaused n b => λ err, ∃ now, asked (SetPaused n b (UTC now)) tt err ms
  | OQueueList p => λ a,
      match a with
      | Ok rows => ∃ cursor items, queueCursorOf p cursor ∧ paged (λ start a, MReq (ScanQueues start) a) None ms items ∧
          rows = take (Z.to_nat (pageLimit (ql_Limit p)))
            (sort_by queueLess ((λ x, itemToQueueRow x.1 x.2) <$> filter (λ x, str_lt cursor x.1 = true) items))
      | Err _ => onlyReads ms
      end
  | OElect p => λ '(b, err), ∃ now,
      asked (PutLeader (le_Name p) (le_WorkerID p) (UTC (Add now (le_TTL p))) (UTC now)) b err ms ∧ (err ≠ None → b = false)
  | OResign p => λ err, ∃ b, asked (DeleteLeader (lr_Name p) (lr_WorkerID p)) b err ms
  | OCursorGet p => λ '(r, err), let put := PutCursor (cc_ID p) (UTC (cc_InitialAt p)) in
      match err with
      | None => ∃ at_, cr_At r = parseTime at_ ∧ ms = [MReq put (cr_Created r); MReq (GetCursor (cc_ID p)) (Some at_)]
      | Some _ => r = emptyCursorResult ∧ (tried put ms ∨ ∃ b l, ms = MReq put b :: l ∧ tried (GetCursor (cc_ID p)) l)
      end
  | OCursorAdvance p => λ '(b, err),
      asked (MoveCursor (ca_ID p) (UTC (ca_Expected p)) (UTC (ca_Next p))) b err ms ∧ (err ≠ None → b = false)
  end.

(** A fetch panics, before any claim, when six times its limit does not fit. *)
Definition promised (o : driverOp) (acts : list (act (move K))) (a : option (ans o)) : Prop :=
  match a with
  | Some a => promisedMoves o (did acts) a
  | None => match o with OFetch p => wrap64 (fp_Limit p * 6) < 0 ∧ onlyReads (did acts) | _ => False end
  end.
End operations.

(** ** The operations keep their promises *)

Section refine.
Context {S : Type} `{Dynamo S} `{!DynamoLaws S}.
Abbreviation K := dy_Key.

Ltac finish := apply dy_ret; rewrite ?app_nil_r; simpl.

Lemma dy_foreign_is e : foreignErr e →
  errorsIs e ErrStaleClaim = false ∧ errorsIs e ErrConflict = false ∧ errorsIs e ErrNotFound = false.
Proof. by intros (_ & ? & ? & ?). Qed.
Ltac foreign He := destruct (dy_foreign_is _ He) as (?Hst & ?Hcf & ?Hnf).

Ltac dy_call := refine (dy_call_then _ _ _ _ _ _); [done|..].

Lemma dy_total {A} (m : io A) Q : does m (λ acts a, Q acts (Some a)) → does (total m) Q.
Proof. intros Hm. apply dy_bind. eapply dy_weaken; [exact Hm|]. intros acts a HQ. by finish. Qed.

(** A call whose answer is made into the operation's. *)
Lemma dy_call_ret {A} q (f : result (reply q) → A) (Q : list (act (move K)) → A → Prop) : saneRequest q = true →
  (∀ acts a, possible (MReq q a) → did acts = [MReq q a] → Q acts (f (Ok a))) →
  (∀ acts e, foreignErr e → tried q (did acts) → Q acts (f (Err e))) →
  does (r ← call q; mret (f r)) Q.
Proof.
  intros Hs HQ HE. refine (dy_call_then _ _ _ _ _ _); [done|..].
  - intros acts a Hp _ Hd. finish. auto.
  - intros acts e He Ht. finish. auto.
Qed.

Lemma tried_reads q ms : tried q ms → (∀ a, reads (MReq q a) = true) → Forall (λ m, reads m = true) ms.
Proof. intros [->|(a & ->)] Hr; by repeat constructor. Qed.

(** ** Inserting *)

Lemma dy_insertParam_keeps now p : does (insertParam now p) (λ acts r,
  match r with Ok res => insertedAs now p (did acts) res | Err _ => insertFails now p (did acts) end).
Proof.
  unfold insertParam. apply dy_bind, dy_newID. intros id. cbn beta. rewrite ?app_nil_l. set (j := newJob p id now).
  assert (∀ a1, did a1 = [putMove p j] →
    does (q ← call (PutQueue (ip_Queue p) (UTC now));
          mret match q with Err err => Err (EWrap "upsert queue: " err "") | Ok _ => Ok (mkJobInsertResult (Some (jobFromDynamo j)) false) end)
      (λ a2 r, match r with Ok res => insertedAs now p (did (a1 ++ a2)) res | Err _ => insertFails now p (did (a1 ++ a2)) end)) as Hq.
  { intros a1 Hd1. refine (dy_call_ret _ _ _ _ _ _); [done|..].
    - intros a2 b _ Hd2. exists id. simpl. split; [done|]. exists b. by rewrite did_app, Hd1, Hd2.
    - intros a2 e _ Ht. exists id. right. exists (did a2). by rewrite did_app, Hd1. }
  apply dy_bind. unfold putJob. destruct (bool_decide (ip_UniqueKey p ≠ "")) eqn:Hk; refine (dy_call_ret _ _ _ _ _ _); try done.
  - intros a1 [] _ Hd; simpl.
    + apply Hq. unfold putMove. by rewrite Hk.
    + finish. exists id. simpl. split_and!; [by apply bool_decide_eq_true in Hk|done..].
  - intros a1 e _ Ht. finish. exists id. rewrite Hk. by left.
  - intros a1 [] _ Hd. simpl. apply Hq. unfold putMove. by rewrite Hk.
  - intros a1 e _ Ht. finish. exists id. rewrite Hk. by left.
Qed.

Lemma dy_insertParams_keeps now ps : does (insertParams now ps) (λ acts a,
  match a with
  | Ok rs => ∃ groups, did acts = mjoin groups ∧ Forall3 (insertedAs now) ps groups rs
  | Err _ => ∃ before p rest groups rs last, ps = before ++ p :: rest ∧ did acts = mjoin groups ++ last ∧
      Forall3 (insertedAs now) before groups rs ∧ insertFails now p last
  end).
Proof.
  induction ps as [|p ps IH]; simpl; [finish; exists []; split; [done|constructor]|].
  apply dy_bind. eapply dy_weaken; [apply dy_insertParam_keeps|]. intros a1 [res|e] H1; simpl in H1.
  - apply dy_bind. eapply dy_weaken; [apply IH|]. intros a2 [rs|e] H2; finish.
    + destruct H2 as (groups & Hd & Hf). exists (did a1 :: groups). rewrite did_app, Hd. split; [done|]. by constructor.
    + destruct H2 as (before & p' & rest & groups & rs & last & -> & Hd & Hf & Ht).
      exists (p :: before), p', rest, (did a1 :: groups), (res :: rs), last. rewrite did_app, Hd. simpl.
      split_and!; [done|by rewrite app_assoc|by constructor|done].
  - finish. exists [], p, ps, [], [], (did a1). split_and!; [done..|constructor|done].
Qed.

Lemma dy_insert_promise fuel ps : does (execOp fuel (OInsert ps)) (promised (OInsert ps)).
Proof.
  apply dy_total. apply dy_bind, dy_now. intros now. simpl. eapply dy_weaken; [apply dy_insertParams_keeps|].
  intros acts a Ha. by exists now.
Qed.

(** ** Reading *)

Lemma selectJob_then {A} id (f : result (option dynamoJob) → io A) (Q : list (act (move K)) → A → Prop) :
  (∀ acts j, did acts = [MReq (GetJob id) (Some j)] → does (f (Ok (Some j))) (λ acts2 y, Q (acts ++ acts2) y)) →
  (∀ acts, did acts = [MReq (GetJob id) None] → does (f (Ok None)) (λ acts2 y, Q (acts ++ acts2) y)) →
  (∀ acts e, foreignErr e → tried (GetJob id) (did acts) → does (f (Err e)) (λ acts2 y, Q (acts ++ acts2) y)) →
  does (r ← selectJob id; f r) Q.
Proof. intros HQ HN HE. dy_call; [|done]. intros acts [j|] _ _ Hd; [by apply HQ|by apply HN]. Qed.

Lemma dy_get_promise fuel id : does (execOp fuel (OGet id)) (promised (OGet id)).
Proof.
  apply dy_total, selectJob_then.
  - intros acts j Hd. finish. by exists j.
  - intros acts Hd. finish. exact Hd.
  - intros acts e He Ht. finish. foreign He. by rewrite Hnf.
Qed.

(** A loop over pages ends, with fuel for what is left, and has seen every page. *)
Lemma pages_keeps {A} (page : option K → io (result (list A * option K))) (mv : option K → list A * option K → move K) :
  (∀ start, does (page start) (λ acts r, match r with
     | Ok a => did acts = [mv start a] ∧ match a.2 with Some key => (dy_left (Some key) < dy_left start)%nat | None => True end
     | Err _ => Forall (λ m, reads m = true) (did acts) end)) →
  (∀ start a, reads (mv start a) = true) →
  ∀ fuel start, (dy_left start < fuel)%nat →
  does (pages page fuel start) (λ acts r, match r with
    | Some (Ok items) => paged mv start (did acts) items
    | Some (Err _) => Forall (λ m, reads m = true) (did acts)
    | None => False end).
Proof.
  intros Hp Hr. induction fuel as [|fuel IH]; intros start Hf; [lia|]. cbn [pages]. apply dy_bind. eapply dy_weaken; [apply Hp|].
  intros a1 [[items [key|]]|e] Ha; simpl in Ha.
  - destruct Ha as [Hd Hk]. apply dy_bind. eapply dy_weaken; [apply IH; lia|]. intros a2 [[rest|e]|] H2; finish; [| |done].
    + rewrite did_app, Hd. by constructor.
    + rewrite did_app, Hd. by repeat constructor.
  - finish. destruct Ha as [-> _]. constructor.
  - by finish.
Qed.

Lemma dy_call_alone q (Q : list (act (move K)) → result (reply q) → Prop) : saneRequest q = true →
  (∀ acts a, goesOn q a → did acts = [MReq q a] → Q acts (Ok a)) →
  (∀ acts e, tried q (did acts) → Q acts (Err e)) →
  does (call q) Q.
Proof.
  intros Hs HQ HE. assert (does (r ← call q; mret r) Q) as Hd.
  { refine (dy_call_then _ _ _ _ _ _); [done|..]; intros; finish; auto. }
  intros e He. destruct (Hd e He) as (acts & Hh & Hq). exists acts. unfold mbind, dyio_bind, mret, dyio_ret in *. by destruct (call q e).
Qed.

Ltac dy_page := intros start; refine (dy_call_alone _ _ _ _ _); [done|intros acts [l [key|]] Hg Hd; done|
  intros acts e Ht; by eapply tried_reads].

Lemma queryStates_keeps fuel queue states : (dy_left (S := S) None < fuel)%nat →
  does (queryStates fuel queue states) (λ acts r, match r with
    | Some (Ok items) => pagedStates queue states (did acts) items
    | Some (Err _) => Forall (λ m, reads m = true) (did acts)
    | None => False end).
Proof.
  intros Hf. induction states as [|state states IH]; cbn [queryStates]; [finish; constructor|].
  apply dy_bind. eapply dy_weaken; [apply (pages_keeps _ (λ start a, MReq (QueryJobs (qsKey queue state) start) a)); [dy_page|done|exact Hf]|].
  intros a1 [[items|e]|] H1; [|by finish|done]. apply dy_bind. eapply dy_weaken; [apply IH|].
  intros a2 [[rest|e]|] H2; finish; [| |done].
  - rewrite did_app. by constructor.
  - rewrite did_app. apply Forall_app. split; [|done]. clear -H1. by induction H1; repeat constructor.
Qed.

Lemma dy_scanJobs_keeps fuel p : (dy_left (S := S) None < fuel)%nat →
  does (scanJobs fuel p) (λ acts r, match r with
    | Some (Ok rows) => ∃ cur items, cursorOf p cur ∧ listed p (did acts) items ∧
        rows = sort_by listLess (filter (λ row, keepRow p cur row = true) (jobFromDynamo <$> items))
    | Some (Err _) => Forall (λ m, reads m = true) (did acts)
    | None => False end).
Proof.
  intros Hf. assert (does (if bool_decide (jl_Queue p ≠ "")
         then queryStates fuel (jl_Queue p) (if bool_decide (jl_State p = "") then allStates else [jl_State p])
         else pages (λ start, call (ScanJobs start)) fuel None)
    (λ acts r, match r with
      | Some (Ok items) => listed p (did acts) items
      | Some (Err _) => Forall (λ m, reads m = true) (did acts)
      | None => False end)) as Hl.
  { unfold listed. destruct (bool_decide (jl_Queue p ≠ "")); [by apply queryStates_keeps|].
    apply (pages_keeps _ (λ start a, MReq (ScanJobs start) a)); [dy_page|done|exact Hf]. }
  unfold scanJobs, cursorOf. destruct (bool_decide (jl_Cursor p = "")) eqn:Hc.
  - apply dy_bind. eapply dy_weaken; [exact Hl|]. intros acts [[items|e]|] Hi; finish; [by exists None, items|done..].
  - destruct (DecodeJobCursor (jl_Cursor p)) as [c|err] eqn:E; [|finish; constructor].
    apply dy_bind. eapply dy_weaken; [exact Hl|]. intros acts [[items|e]|] Hi; finish; [|done..]. exists (Some c), items. eauto.
Qed.

Section fuelled.
Context (fuel : nat) (Hf : (dy_left (S := S) None < fuel)%nat).

Lemma dy_list_promise p : does (execOp fuel (OList p)) (promised (OList p)).
Proof.
  apply dy_bind. eapply dy_weaken; [by apply dy_scanJobs_keeps|]. intros acts [[rows|e]|] Hs; finish; [|done..].
  destruct Hs as (cur & items & ? & ? & ->). by exists cur, items.
Qed.

Lemma countStates_keeps queue states : ∀ s, does (countStates fuel queue states s) (λ acts r, match r with
    | Some (Ok s') => counted queue states s (did acts) s'
    | Some (Err _) => Forall (λ m, reads m = true) (did acts)
    | None => False end).
Proof.
  induction states as [|state states IH]; intros s; cbn [countStates]; [finish; constructor|].
  apply dy_bind. eapply dy_weaken.
  { apply (pages_keeps _ (λ start a, MReq (CountJobs (qsKey queue state) start) (default 0 (head a.1), a.2))); [|done|exact Hf].
    intros start. unfold countPage. refine (dy_call_then _ _ _ _ _ _); [done|..].
    - intros acts [n next] _ Hg Hd. finish. split; [done|]. by destruct next.
    - intros acts e _ Ht. finish. by eapply tried_reads. }
  intros a1 [[counts|e]|] H1; [|by finish|done]. eapply dy_weaken; [apply IH|]. intros a2 [[s'|e]|] H2; [| |done].
  - rewrite did_app. by econstructor.
  - rewrite did_app. apply Forall_app. split; [|done]. clear -H1. by induction H1; repeat constructor.
Qed.

Lemma dy_stats_promise q : does (execOp fuel (OStats q)) (promised (OStats q)).
Proof. eapply dy_weaken; [apply countStates_keeps|]. intros acts [[s|e]|] Hs; done. Qed.

Lemma dy_queueList_promise p : does (execOp fuel (OQueueList p)) (promised (OQueueList p)).
Proof.
  assert (does (pages (λ start, call (ScanQueues start)) fuel None)
    (λ acts r, match r with
      | Some (Ok items) => paged (λ start a, MReq (ScanQueues start) a) None (did acts) items
      | Some (Err _) => Forall (λ m, reads m = true) (did acts)
      | None => False end)) as Hl by (apply (pages_keeps _ (λ start a, MReq (ScanQueues start) a)); [dy_page|done|exact Hf]).
  simpl. unfold queueList, promised, promisedMoves, queueCursorOf. case_bool_decide as Hc.
  - apply dy_bind. eapply dy_weaken; [exact Hl|]. intros acts [[items|e]|] Hi; finish; [by exists "", items|done..].
  - destruct (DecodeQueueCursor (ql_Cursor p)) as [c|err] eqn:E; [|finish; constructor].
    apply dy_bind. eapply dy_weaken; [exact Hl|]. intros acts [[items|e]|] Hi; finish; [by exists c, items|done..].
Qed.

(** ** Fetching *)

Lemma won_cons x xs : won (x :: xs) = if x.2 then x.1 :: won xs else won xs.
Proof. unfold won. rewrite filter_cons. by destruct (x.2). Qed.

Lemma claim_sane p now c : saneRequest (claimRequest p now c) = true.
Proof. simpl. apply bool_decide_eq_true. unfold claimActions. by destruct (leaseOf p now). Qed.

Lemma dy_claimLoop_keeps p now cs : ∀ n limit : nat, (n + limit = Z.to_nat (fp_Limit p) ∨ limit = 0 ∧ Z.to_nat (fp_Limit p) ≤ n)%nat →
  does (claimLoop p now cs n) (λ acts r, claimed p now cs limit (did acts) r).
Proof.
  clear Hf.
  induction cs as [|c cs IH]; intros n limit Hn; cbn [claimLoop].
  { finish. exists [], []. split; [done|]. split; [simpl; lia|]. split_and!; [done..|by left]. }
  destruct (fp_Limit p <=? Z.of_nat n) eqn:Hl.
  { finish. bool_to_prop. exists [], []. split; [done|]. split; [simpl; lia|]. split_and!; [done..|]. right. split; [simpl; lia|apply prefix_nil]. }
  bool_to_prop. destruct limit as [|limit]; [lia|].
  refine (dy_call_then (claimRequest p now c) _ _ _ _ _); [apply claim_sane|..].
  - intros a1 [] _ _ Hd.
    + apply dy_bind. eapply dy_weaken; [apply (IH (Datatypes.S n) limit); lia|]. intros a2 r (xs & last & Hd2 & Hlen & Hr).
      finish. exists ((c, true) :: xs), last. rewrite won_cons, did_app, Hd, Hd2. split; [done|]. split; [simpl; lia|].
      destruct r as [rows|e].
      * destruct Hr as (-> & -> & Hend). split_and!; [done..|]. destruct Hend as [<-|[? ?]]; [by left|right]. split; [simpl; lia|].
        simpl. by apply prefix_cons.
      * destruct Hr as (c' & rest & <- & Ht). by exists c', rest.
    + eapply dy_weaken; [apply (IH n (Datatypes.S limit)); lia|]. intros a2 r (xs & last & Hd2 & Hlen & Hr).
      exists ((c, false) :: xs), last. rewrite won_cons, did_app, Hd, Hd2. split; [done|]. split; [done|].
      destruct r as [rows|e].
      * destruct Hr as (-> & -> & Hend). split_and!; [done..|]. destruct Hend as [<-|[? ?]]; [by left|right]. split; [done|].
        simpl. by apply prefix_cons.
      * destruct Hr as (c' & rest & <- & Ht). by exists c', rest.
  - intros a1 e _ Ht. finish. exists [], (did a1). split; [done|]. split; [simpl; lia|]. by exists c, cs.
Qed.

Lemma dy_fetch_promise p : does (execOp fuel (OFetch p)) (promised (OFetch p)).
Proof.
  clear Hf.
  assert (∀ q (a1 : list (act (move K))), match q with Some q => qi_Paused q = false | None => True end →
    did a1 = [MReq (GetQueue (fp_Queue p)) q] →
    does (now ← clkNow;
      if wrap64 (fp_Limit p * 6) <? 0 then mret None
      else
        a ← queryDue p now JobStateAvailable;
        match a with
        | Err err => mret (Some ([], Some err))
        | Ok avail =>
            s ← queryDue p now JobStateScheduled;
            match s with
            | Err err => mret (Some ([], Some err))
            | Ok sched =>
                r ← claimLoop p now (sort_by candidateLess (avail ++ sched)) 0;
                mret (Some match r with Ok rows => (rows, None) | Err err => ([], Some err) end)
            end
        end)
      (λ acts, promised (OFetch p) (a1 ++ acts))) as Hgo.
  { intros q a1 Hq Hd1. apply dy_bind, dy_now. intros now. simpl. destruct (wrap64 (fp_Limit p * 6) <? 0) eqn:Hl.
    { finish. bool_to_prop. split; [done|]. rewrite Hd1. by repeat constructor. }
    apply dy_bind. unfold queryDue at 1. refine (dy_call_ret _ _ _ _ _ _); [done|..].
    - intros a2 avail _ Hd2. apply dy_bind. refine (dy_call_ret _ _ _ _ _ _); [done|..].
      + intros a3 sched _ Hd3. apply dy_bind. eapply dy_weaken; [apply (dy_claimLoop_keeps p now _ 0 (Z.to_nat (fp_Limit p))); lia|].
        intros a4 r Hc. finish. unfold promised. rewrite !did_app, Hd1, Hd2, Hd3. destruct r as [rows|e]; right; right;
          exists q, now, avail, sched, (did a4); [exists (Ok rows)|exists (Err e)]; split_and!; done.
      + intros a3 e _ Ht. finish. left. split_and!; [done..|]. rewrite !did_app, Hd1, Hd2. repeat constructor. by eapply tried_reads.
    - intros a2 e _ Ht. finish. left. split_and!; [done..|]. rewrite !did_app, Hd1. repeat constructor. by eapply tried_reads. }
  simpl. unfold jobFetchBatch. apply dy_bind. refine (dy_call_ret _ _ _ _ _ _); [done|..].
  - intros a1 [q|] _ Hd; [|by apply (Hgo None)]. simpl. destruct (qi_Paused q) eqn:Hq; [|by apply (Hgo (Some q))].
    finish. right. left. split_and!; [done..|]. by exists q.
  - intros a1 e _ Ht. finish. left. split_and!; [done..|]. by eapply tried_reads.
Qed.

(** ** Claims *)

Lemma rescueItems_keeps p items : ∀ n0, does (rescueItems p items n0) (λ acts r, ∃ xs last,
  did acts = (rescueMove p <$> xs) ++ last ∧ r.1 = n0 + Z.of_nat (length (won xs)) ∧
  match r.2 with
  | None => xs.*1 = stuckIn p items ∧ last = []
  | Some _ => ∃ j rest, xs.*1 ++ j :: rest = stuckIn p items ∧ tried (UpdateJob (dj_ID j) (rescueConds p) (rescueActions p)) last
  end).
Proof.
  unfold stuckIn. induction items as [|j items IH]; intros n0; cbn [rescueItems].
  { finish. exists [], []. split_and!; [done|simpl; lia|done..]. }
  destruct (rescuable p j) eqn:Hj; cbn [negb].
  2: { eapply dy_weaken; [apply IH|]. intros acts r. by rewrite filter_cons_False by congruence. }
  rewrite filter_cons_True by done. refine (dy_call_then (UpdateJob (dj_ID j) (rescueConds p) (rescueActions p)) _ _ _ _ _); [done|..].
  - intros a1 b _ _ Hd. eapply dy_weaken; [apply IH|]. intros a2 [n err] (xs & last & Hd2 & Hn & He). simpl in *.
    exists ((j, b) :: xs), last. rewrite won_cons, did_app, Hd, Hd2. split; [done|]. split; [destruct b; simpl; lia|].
    destruct err; [|destruct He as [He ->]; by rewrite fmap_cons, He]. destruct He as (j' & rest & He & Ht). exists j', rest. split; [cbn; by rewrite <-He|done].
  - intros a1 e He Ht. finish. exists [], (did a1). split; [done|]. split; [simpl; lia|]. by exists j, (filter (λ j, rescuable p j = true) items).
Qed.

Lemma rescuePages_keeps p : ∀ fuel' start n0, (dy_left (S := S) start < fuel')%nat →
  does (rescuePages p fuel' start n0) (λ acts r, ∃ n err, r = Some (n0 + n, err) ∧ rescued p start (did acts) n err).
Proof.
  induction fuel' as [|fuel' IH]; intros start n0 Hlt; [lia|]. cbn [rescuePages].
  refine (dy_call_then _ _ _ _ _ _); [done|..].
  - intros a1 [items next] _ Hg Hd. apply dy_bind. eapply dy_weaken; [apply rescueItems_keeps|].
    intros a2 [n [err|]] (xs & last & Hd2 & Hn & Hx); simpl in Hn, Hx; subst n.
    + finish. destruct Hx as (j & rest & Hx & Ht). exists (Z.of_nat (length (won xs))), (Some err). split; [done|].
      rewrite did_app, Hd, Hd2. by econstructor.
    + destruct Hx as [Hx ->]. rewrite app_nil_r in Hd2. destruct next as [key|].
      * eapply dy_weaken; [apply IH; unfold goesOn in Hg; simpl in Hg; lia|]. intros a3 r (n & err & -> & Hr). exists (Z.of_nat (length (won xs)) + n), err.
        split; [f_equal; f_equal; lia|]. rewrite !did_app, Hd, Hd2. by econstructor.
      * finish. exists (Z.of_nat (length (won xs))), None. split; [done|]. rewrite did_app, Hd, Hd2. by econstructor.
  - intros a1 e _ Ht. finish. exists 0, (Some e). split; [f_equal; f_equal; lia|]. by constructor.
Qed.

Lemma dy_rescue_promise p : does (execOp fuel (ORescue p)) (promised (ORescue p)).
Proof.
  eapply dy_weaken; [by apply (rescuePages_keeps p fuel None 0)|]. intros acts r (n & err & -> & Hr). exact Hr.
Qed.
End fuelled.

Lemma dy_heartbeat_promise fuel p : does (execOp fuel (OHeartbeat p)) (promised (OHeartbeat p)).
Proof. apply dy_total. refine (dy_call_ret _ _ _ _ _ _); [done|..]; intros acts; [intros b _ Hd|intros e _ Ht]; done. Qed.

Lemma dy_markStarted_promise fuel p : does (execOp fuel (OMarkStarted p)) (promised (OMarkStarted p)).
Proof. apply dy_total. refine (dy_call_ret _ _ _ _ _ _); [done|..]; intros acts; [intros b _ Hd|intros e _ Ht]; done. Qed.

(** ** Outcomes *)

Lemma dy_settle_sane p now j : saneRequest (settleRequest p now j) = true.
Proof. simpl. apply bool_decide_eq_true. unfold settleActions. destruct (sp_Yield p); [done|]. by case_bool_decide. Qed.

Lemma holds_spec p j :
  negb (bool_decide (dj_State j = JobStateRunning)) || negb (MatchesClaim p (dj_WorkerID j) (dj_AttemptNum j)) = false ↔ holds p j.
Proof. unfold holds. by rewrite <-negb_andb, negb_false_iff, andb_true_iff, bool_decide_eq_true. Qed.

(** The update of an outcome. *)
Lemma settle_then p now j a1 (f : result (reply (settleRequest p now j)) → io (option error)) : did a1 = [MReq (GetJob (sp_ID p)) (Some j)] → holds p j →
  (∀ e, f (Err e) = mret (Some e)) → f (Ok false) = mret (Some (jobError ErrStaleClaim (sp_ID p))) →
  (∀ a2, did a2 = [MReq (settleRequest p now j) true] → does (f (Ok true)) (λ a3 err, promisedMoves (OSetState p) (did (a1 ++ a2 ++ a3)) err)) →
  does (u ← call (settleRequest p now j); f u) (λ a2 err, promisedMoves (OSetState p) (did (a1 ++ a2)) err).
Proof.
  intros Hd1 Hh Hfe Hff Hft. refine (dy_call_then (settleRequest p now j) _ _ _ _ _); [apply dy_settle_sane|..].
  - intros a2 [] _ _ Hd2; [by apply Hft|]. refine (eq_ind_r (λ m, does m _) _ Hff). finish. rewrite did_app, Hd1, Hd2. right. exists j. right. by exists now.
  - intros a2 e He Ht. refine (eq_ind_r (λ m, does m _) _ (Hfe e)). finish. foreign He. rewrite Hst, did_app, Hd1. right. exists j, now, (did a2). split_and!; [done..|by left].
Qed.

Lemma dy_setState_promise fuel p : does (execOp fuel (OSetState p)) (promised (OSetState p)).
Proof.
  apply dy_total, selectJob_then.
  - intros a1 j Hd. destruct (_ || _) eqn:Hh.
    { finish. right. exists j. left. split; [done|]. rewrite <-holds_spec. by rewrite Hh. }
    apply holds_spec in Hh. destruct (sp_Yield p) eqn:Hy.
    + pose proof (settle_then p 0 j a1 (λ u, mret match u with Err err => Some err | Ok false => Some (jobError ErrStaleClaim (sp_ID p)) | Ok true => None end) Hd Hh) as Ht.
      unfold settleRequest in Ht. rewrite Hy in Ht. apply Ht; [done..|]. intros a2 Hd2. finish.
      exists j, 0, []. unfold settleFrees, settleRequest. rewrite Hy, did_app, Hd, Hd2. done.
    + apply dy_bind, dy_now. intros now. simpl.
      pose proof (λ f, settle_then p now j a1 f Hd Hh) as Ht. unfold settleRequest in Ht. rewrite Hy in Ht. apply Ht; [done..|]. clear Ht.
      intros a2 Hd2. destruct (negb (bool_decide (sp_State p = JobStateRetryable)) && freesKey (dj_UniqueKey j)) eqn:Hf.
      * assert (settleFrees p j = true) as Hsf by (unfold settleFrees; by rewrite Hy).
        refine (dy_call_ret _ _ _ _ _ _); [done|..].
        -- intros a3 [] _ Hd3. exists j, now, [MReq (DeleteUniq (dj_UniqueKey j)) tt]. unfold settleRequest. rewrite Hsf, Hy, !did_app, Hd, Hd2, Hd3. done.
        -- intros a3 e He Ht. foreign He. simpl. rewrite Hst. right. exists j, now, (did (a2 ++ a3)). unfold settleRequest. rewrite Hy, did_app, Hd, did_app, Hd2.
           split_and!; [done..|]. right. split; [done|]. by exists (did a3).
      * finish. exists j, now, []. unfold settleFrees, settleRequest. rewrite Hy. simpl. rewrite Hf, did_app, Hd, Hd2. done.
  - intros a1 Hd. finish. by left.
  - intros a1 e He Ht. finish. foreign He. rewrite Hst. by left.
Qed.

(** ** Cancelling, deleting, rescheduling *)

(** A key is let go without a look at what comes of it. *)
Lemma letGo_keeps b key (Q : list (act (move K)) → option error → Prop) : (∀ acts, letGo b key (did acts) → Q acts None) →
  does (if b then _ ← call (DeleteUniq key); mret None else mret None) Q.
Proof.
  intros HQ. destruct b; [|finish; by apply HQ]. refine (dy_call_ret (DeleteUniq key) (λ _, None) _ _ _ _); [done|..].
  - intros acts [] _ Hd. apply HQ. right. by exists tt.
  - intros acts e _ Ht. by apply HQ.
Qed.

Lemma dy_cancel_promise fuel id : does (execOp fuel (OCancel id)) (promised (OCancel id)).
Proof.
  apply dy_total, selectJob_then.
  - intros a1 j Hd. destruct (_ && _) eqn:Hn.
    { finish. exists j. left. split; [|done]. apply andb_true_iff in Hn as [H1 H2]. bool_to_prop. unfold cancellable. tauto. }
    assert (cancellable j) as Hc by (apply andb_false_iff in Hn as [Hn|Hn]; bool_to_prop; [by left|by right]).
    apply dy_bind, dy_now. intros now. simpl. refine (dy_call_then (cancelRequest id now j) _ _ _ _ _); [done|..].
    + intros a2 [] _ _ Hd2.
      * apply letGo_keeps. intros a3 Hl. exists j, now, (did a3). split; [done|]. by rewrite !did_app, Hd, Hd2.
      * finish. exists j. right. exists now. by rewrite did_app, Hd, Hd2.
    + intros a2 e He Ht. finish. foreign He. rewrite Hnf, Hcf. right. exists j, now, (did a2). by rewrite did_app, Hd.
  - intros a1 Hd. by finish.
  - intros a1 e He Ht. finish. foreign He. rewrite Hnf, Hcf. by left.
Qed.

Lemma dy_delete_promise fuel id : does (execOp fuel (ODelete id)) (promised (ODelete id)).
Proof.
  apply dy_total, selectJob_then.
  - intros a1 j Hd. dy_call.
    + intros a2 [] _ _ Hd2. apply letGo_keeps. intros a3 Hl. exists j, (did a3). by rewrite !did_app, Hd, Hd2.
    + intros a2 e He Ht. finish. foreign He. rewrite Hnf. right. exists j, (did a2). by rewrite did_app, Hd.
  - intros a1 Hd. by finish.
  - intros a1 e He Ht. finish. foreign He. rewrite Hnf. by left.
Qed.

(** An update without a condition does not fail by one. *)
Lemma unconditional id us : possible (S := S) (MReq (UpdateJob id [] us) false) → False.
Proof.
  intros (d & d' & _ & Hs). cbn [step serve] in Hs. destruct (saneRequest _); [|done].
  destruct (db_jobs d !! id) as [j|]; [|done]. by apply conditional_Some in Hs as [? _].
Qed.

Lemma dy_reschedule_promise fuel p : does (execOp fuel (OReschedule p)) (promised (OReschedule p)).
Proof.
  apply dy_total, selectJob_then.
  - intros a1 j Hd. refine (dy_call_ret (rescheduleRequest p j) _ _ _ _ _); [done|..].
    + intros a2 [] Hp Hd2; [|by apply unconditional in Hp]. exists j. by rewrite did_app, Hd, Hd2.
    + intros a2 e He Ht. foreign He. simpl. rewrite Hnf. right. exists j, (did a2). by rewrite did_app, Hd.
  - intros a1 Hd. by finish.
  - intros a1 e He Ht. finish. foreign He. rewrite Hnf. by left.
Qed.

(** ** Queues, leases and schedule cursors *)

Lemma dy_queueGet_promise fuel n : does (execOp fuel (OQueueGet n)) (promised (OQueueGet n)).
Proof.
  apply dy_total. refine (dy_call_ret _ _ _ _ _ _); [done|..].
  - intros acts [q|] _ Hd; [by exists q|done].
  - intros acts e He Ht. foreign He. simpl. by rewrite Hnf.
Qed.

Lemma dy_setPaused_promise fuel n b : does (execOp fuel (OSetPaused n b)) (promised (OSetPaused n b)).
Proof.
  apply dy_total, dy_bind, dy_now. intros now. simpl. refine (dy_call_ret _ _ _ _ _ _); [done|..].
  - intros acts [] _ Hd. by exists now.
  - intros acts e _ Ht. by exists now.
Qed.

Lemma dy_elect_promise fuel p : does (execOp fuel (OElect p)) (promised (OElect p)).
Proof.
  apply dy_total, dy_bind, dy_now. intros now. simpl.
  refine (dy_call_ret _ _ _ _ _ _); [done|..]; intros acts; [intros b _ Hd|intros e _ Ht]; by exists now.
Qed.

Lemma dy_resign_promise fuel p : does (execOp fuel (OResign p)) (promised (OResign p)).
Proof.
  apply dy_total. refine (dy_call_ret _ _ _ _ _ _); [done|..].
  - intros acts b _ Hd. by exists b.
  - intros acts e _ Ht. by exists true.
Qed.

Lemma dy_cursorGet_promise fuel p : does (execOp fuel (OCursorGet p)) (promised (OCursorGet p)).
Proof.
  apply dy_total. dy_call.
  - intros a1 b _ _ Hd. refine (dy_call_ret _ _ _ _ _ _); [done|..].
    + intros a2 [at_|] _ Hd2; unfold promised; simpl; rewrite did_app, Hd, Hd2; [by exists at_|].
      split; [done|]. right. exists b, [MReq (GetCursor (cc_ID p)) None]. split; [done|]. right. by exists None.
    + intros a2 e _ Ht. unfold promised. simpl. rewrite did_app, Hd. split; [done|]. right. by exists b, (did a2).
  - intros a1 e _ Ht. finish. split; [done|]. by left.
Qed.

Lemma dy_cursorAdvance_promise fuel p : does (execOp fuel (OCursorAdvance p)) (promised (OCursorAdvance p)).
Proof. apply dy_total. refine (dy_call_ret _ _ _ _ _ _); [done|..]; intros acts; [intros b _ Hd|intros e _ Ht]; done. Qed.

(** ** Migrations *)

(** Migrating creates and waits, table by table, and moves no item; it can be run at
    any time. *)
Lemma migrate_moves_nothing : does Migrate (λ acts _, did acts = []).
Proof.
  unfold Migrate. generalize tables. intros inputs. induction inputs as [|t rest IH]; cbn [migrateTables]; [by finish|].
  apply dy_bind. refine (dy_aside _ _ _ _); [apply dy_create_law|]. intros c. assert (does (w ← onService (dy_wait (ti_TableName t));
    match w with
    | Some err => mret (Some (EWrap ("dynamodb migrate: wait " +:+ ti_TableName t +:+ ": ") err ""))
    | None => migrateTables rest
    end) (λ acts _, did acts = [])) as Hw.
  { apply dy_bind. refine (dy_aside _ _ _ _); [apply dy_wait_law|]. intros [err|]; [by finish|exact IH]. }
  destruct c; [exact Hw|exact Hw|by finish].
Qed.

(** ** All of them *)

Section all.
Context (fuel : nat) (Hf : (dy_left (S := S) None < fuel)%nat).

Lemma dy_operation_does o : does (execOp fuel o) (promised o).
Proof.
  destruct o; [apply dy_insert_promise|apply dy_get_promise|by apply dy_list_promise|by apply dy_stats_promise|apply dy_fetch_promise
    |by apply dy_rescue_promise|apply dy_heartbeat_promise|apply dy_markStarted_promise|apply dy_setState_promise
    |apply dy_cancel_promise|apply dy_delete_promise|apply dy_reschedule_promise|apply dy_queueGet_promise
    |apply dy_setPaused_promise|by apply dy_queueList_promise|apply dy_elect_promise|apply dy_resign_promise
    |apply dy_cursorGet_promise|apply dy_cursorAdvance_promise].
Qed.

Lemma dy_operation_keeps o (e : DyEnv (S := S)) :
  historyOk (dy_db (yv_svc e)) →
  ∃ tr, runMoves step (trMoves tr) (dy_db (yv_svc e)) = Some (dy_db (yv_svc (execOp fuel o e).1)) ∧
    promised o (trOwn tr) (execOp fuel o e).2.
Proof. intros He. destruct (dy_operation_does o e He) as (acts & (tr & Hr & <-) & Hp). eauto. Qed.

(** C28: the DynamoDB backend refines the moves, and comes to an end.  Take any
    sequence of operations of one program, and fuel for the pages that the service
    can answer.  Whatever other programs do to the tables between two of its calls,
    and whether or not the service fails: every operation answers, but for a fetch
    whose limit times six is negative in 64 bits; what the program does is a sequence of
    atomic moves, and the answer of every operation is what [promised] says of its
    own.  A fetch claims, one conditional update each, exactly the jobs it returns,
    in the order of the candidates; an outcome is written by an update on the very
    version that shows its claim, and a stale claim has written nothing; a rescue
    counts exactly the jobs that it has released, and a listing has seen every page. *)
Theorem dynamo_operations_refine os (e : DyEnv (S := S)) :
  historyOk (dy_db (yv_svc e)) →
  ∃ trs, runMoves step (trMoves (mjoin trs)) (dy_db (yv_svc e)) = Some (dy_db (yv_svc (execAll fuel os e).1)) ∧
    Forall2 (λ tr (oa : {o : driverOp & option (ans o)}), promised (projT1 oa) (trOwn tr) (projT2 oa)) trs (execAll fuel os e).2 ∧
    (λ oa : {o : driverOp & option (ans o)}, projT1 oa) <$> (execAll fuel os e).2 = os.
Proof.
  revert e. induction os as [|o os IH]; intros e He; simpl; [exists []; split_and!; by try constructor|].
  destruct (dy_operation_keeps o e He) as (tr & Hr & Hp). destruct (execOp fuel o e) as [e1 a]. simpl in *.
  destruct (IH e1) as (trs & Hrs & Hfa & Ho); [by eapply runMoves_inv; [apply (dy_step_history (K := K))|..]|].
  destruct (execAll fuel os e1) as [e2 as_]. simpl in *. exists (tr :: trs). split_and!.
  - simpl. rewrite trMoves_app. by eapply runMoves_trans.
  - by constructor.
  - f_equal; exact Ho.
Qed.
End all.
End refine.
