(* ===== verification/DynamoSafety.v ===== *)
(** * driver/dynamodb: what no interleaving of requests can break

    A version is given to an item once.  So the update of a claim, which asks for the
    version of the candidate, finds the very item that the query has shown, however
    old the answer of the index is; and an outcome is written to the very item that
    has shown the claim.  A claim stays until a request releases it, two jobs of one
    unique key have a release of the key in between, and a lease is taken over at
    most a second before it runs out, which is what comparing texts makes of time. *)

From S2P Require Import Prelude GoBase Json Codec Driver Moves Memory TimeText Dynamo DynamoLaws DynamoRefine.
From Stdlib Require Import ZArith Lia.

(** ** The past *)

Section past.
Context {K : Type}.
Abbreviation move := (move K).

Lemma past_grows (m : move) d d' : step m d = Some d' → ∀ j, j ∈ db_past d → j ∈ db_past d'.
Proof.
  destruct m as [q a]. cbn [step]. destruct (saneRequest q); [|done]. intros Hs j Hj. destruct q; cbn [serve] in Hs;
    try (apply given_Some in Hs as [_ ->]; done); try (injection Hs as <-; done);
    try (apply conditional_Some in Hs as [_ ->]; case_match; done).
  - destruct (freshID _ d); [|done]. injection Hs as <-. by right.
  - destruct a; [|by injection Hs as <-]. destruct (_ && _); [|done]. injection Hs as <-. by right.
  - destruct (db_jobs d !! id) as [j'|].
    + apply conditional_Some in Hs as [_ ->]. case_match; [by right|done].
    + destruct conds; [done|]. apply conditional_Some in Hs as [_ ->]. done.
Qed.

Lemma past_run (ms : list move) : ∀ d d', runMoves step ms d = Some d' → ∀ j, j ∈ db_past d → j ∈ db_past d'.
Proof.
  induction ms as [|m ms IH]; intros d d'; cbn [runMoves]; [by intros [= <-]|].
  destruct (step m d) as [d1|] eqn:E; [|done]. intros Hr j Hj. eapply IH; [done|]. by eapply past_grows.
Qed.

(** An answer shows items of the past. *)
Definition shows (q : request K) : reply q → dynamoJob → Prop :=
  match q with
  | GetJob _ => λ a j, a = Some j
  | QueryDue _ _ _ => λ a j, j ∈ a
  | _ => λ _ _, False
  end.

Lemma shown_past q a j d d' : step (MReq q a) d = Some d' → shows q a j → j ∈ db_past d.
Proof.
  cbn [step]. destruct (saneRequest q); [|done]. destruct q; simpl; try done; intros [Hb _]%given_Some Hj; subst; bool_to_prop.
  - by destruct Hb.
  - destruct Hb as [Hb _]. rewrite Forall_forall in Hb. by apply Hb.
Qed.

(** An item that was shown before, and has the version that is stored now, is the
    one that is stored. *)
Lemma shown_is_stored q a j j' mid d d1 d2 : historyOk d → step (MReq q a) d = Some d1 → runMoves (step (K := K)) mid d1 = Some d2 →
  shows q a j → db_jobs d2 !! dj_ID j = Some j' → dj_Version j' = dj_Version j → j' = j.
Proof.
  intros Hh Hs Hr Hj Hj' Hv. pose proof (dy_step_history _ _ _ Hh Hs) as Hh1.
  pose proof (runMoves_inv (step (K := K)) historyOk dy_step_history _ _ _ Hh1 Hr) as Hh2.
  destruct (ho_now _ Hh2 _ _ Hj') as [Hid Hp]. apply (ho_version _ Hh2); [done| |done..].
  eapply past_run; [exact Hr|]. eapply past_grows; [exact Hs|]. by eapply shown_past.
Qed.

Lemma storeJob_jobs j d : db_jobs (storeJob j d) = <[dj_ID j := j]> (db_jobs d).
Proof. done. Qed.

(** What an update that has been made tells of the item, and makes of it. *)
Lemma update_made id conds us (d d' : Db) : step (MReq (K := K) (UpdateJob id conds us) true) d = Some d' →
  ∃ j, db_jobs d !! id = Some j ∧ forallb (holdsCond j) conds = true ∧ d' = storeJob (applyActions us j) d.
Proof.
  cbn [step]. destruct (saneRequest _); [|done]. cbn [serve]. destruct (db_jobs d !! id) as [j|].
  - intros [Hc ->]%conditional_Some. exists j. rewrite <-Hc. done.
  - destruct conds; [done|]. by intros [? _]%conditional_Some.
Qed.
End past.

(** ** Two own moves, in their order *)

Section order.
Context {M : Type}.

Lemma own_sublist (tr : list (act M + M)) : did (trOwn tr) `sublist_of` trMoves tr.
Proof.
  induction tr as [|[[m|]|m] tr IH]; simpl; [constructor|..].
  - by constructor.
  - exact IH.
  - by constructor.
Qed.

Lemma sublist_cons_split (l : list M) x k : (x :: l) `sublist_of` k → ∃ k1 k2, k = k1 ++ x :: k2 ∧ l `sublist_of` k2.
Proof.
  induction k as [|y k IH]; [by intros ?%sublist_nil_r|]. inversion 1; subst.
  - by exists [], k.
  - destruct IH as (k1 & k2 & -> & ?); [done|]. by exists (y :: k1), k2.
Qed.

Lemma own_in_order (tr : list (act M + M)) l1 m1 l2 m2 l3 : did (trOwn tr) = l1 ++ m1 :: l2 ++ m2 :: l3 →
  ∃ pre mid post, trMoves tr = pre ++ m1 :: mid ++ m2 :: post.
Proof.
  intros Hd. pose proof (own_sublist tr) as Hs. rewrite Hd in Hs.
  assert ([m1; m2] `sublist_of` trMoves tr) as H2.
  { etransitivity; [|exact Hs]. apply sublist_inserts_l. constructor. apply sublist_inserts_l. constructor. apply sublist_nil_l. }
  apply sublist_cons_split in H2 as (pre & k & Hk & H2). apply sublist_cons_split in H2 as (mid & post & -> & _). eauto.
Qed.
End order.

(** ** Claims *)

(** The fields that make a claim: state, worker and attempt. *)
Definition touchesClaim (a : action) : bool :=
  match a with SetState _ | SetWorker _ | AddAttempt _ => true | _ => false end.

(** Whether a condition can hold of a job that the worker runs as this attempt. *)
Definition admitsClaim (w : string) (attempt : Z) (c : cond) : bool :=
  match c with
  | StateIs s => bool_decide (s = JobStateRunning)
  | StateIn l => bool_decide (JobStateRunning ∈ l)
  | WorkerIs x => bool_decide (x = w)
  | AttemptIs n => n =? attempt
  | _ => true
  end.

Definition releasesClaim {K} (id w : string) (attempt : Z) (m : move K) : bool :=
  match m with
  | MReq (DeleteJob i) _ => bool_decide (i = id)
  | MReq (UpdateJob i conds us) a => (a : bool) && bool_decide (i = id) && existsb touchesClaim us && forallb (admitsClaim w attempt) conds
  | _ => false
  end.

Definition ownedBy (w : string) (attempt : Z) (j : dynamoJob) : Prop :=
  dj_State j = JobStateRunning ∧ dj_WorkerID j = w ∧ dj_AttemptNum j = attempt.
Definition heldItem (d : Db) (id w : string) (attempt : Z) : Prop := ∃ j, db_jobs d !! id = Some j ∧ ownedBy w attempt j.

Lemma dy_owned_admitted j w a conds : ownedBy w a j → forallb (holdsCond j) conds = true → forallb (admitsClaim w a) conds = true.
Proof.
  intros (Hs & Hw & Ha). rewrite !forallb_forall. intros Hm c Hc. specialize (Hm c Hc).
  destruct c; simpl in *; try done; rewrite ?bool_decide_eq_true, ?Z.eqb_eq in Hm |- *; congruence.
Qed.

Lemma dy_untouched_owned us w a : existsb touchesClaim us = false → ∀ j, ownedBy w a j → ownedBy w a (applyActions us j).
Proof.
  unfold applyActions. induction us as [|u us IH]; simpl; [done|]. intros [Hu Ht]%orb_false_iff j Ho. apply IH; [done|]. by destruct u.
Qed.

Section claims.
Context {K : Type}.
Abbreviation move := (move K).

(** What a request leaves of an item that is not its own. *)
Lemma dy_step_held (m : move) d d' id w a :
  historyOk d → heldItem d id w a → step m d = Some d' → releasesClaim id w a m = false → heldItem d' id w a.
Proof.
  intros Hh (j & Hj & Ho) Hs Hr. destruct (ho_now _ Hh _ _ Hj) as [Hid Hp].
  assert (∀ j', freshID (dj_ID j') d = true → heldItem (storeJob j' d) id w a) as Hput.
  { intros j' Hf%bool_decide_eq_true. rewrite Forall_forall in Hf. exists j. split; [|done]. simpl. rewrite lookup_insert_ne; [done|].
    intros Heq. apply (Hf _ Hp). congruence. }
  destruct m as [q b]. cbn [step] in Hs. destruct (saneRequest q); [|done]. destruct q; cbn [serve] in Hs;
    try (apply given_Some in Hs as [_ ->]; by exists j); try (injection Hs as <-; by exists j);
    try (apply conditional_Some in Hs as [_ ->]; case_match; by exists j).
  - destruct (freshID (dj_ID j0) d) eqn:Hf; [|done]. injection Hs as <-. by apply Hput.
  - destruct b; [|injection Hs as <-; by exists j]. destruct (freshID (dj_ID j0) d) eqn:Hf; [|done]. simpl in Hs. case_bool_decide; [|done].
    injection Hs as <-. by apply Hput.
  - simpl in Hr. destruct (decide (id0 = id)) as [->|Hne].
    + rewrite Hj in Hs. apply conditional_Some in Hs as [-> ->]. destruct (forallb (holdsCond j) conds) eqn:Hc; [|by exists j].
      rewrite bool_decide_eq_true_2 in Hr by done. rewrite (dy_owned_admitted _ _ _ _ Ho Hc), andb_true_r in Hr. simpl in Hr.
      exists (applyActions us j). split; [|by apply dy_untouched_owned]. simpl. destruct (applyActions_frame us j) as [-> _].
      rewrite Hid. apply lookup_insert_eq.
    + destruct (db_jobs d !! id0) as [j0|] eqn:Hj0; [|destruct conds; [done|]; apply conditional_Some in Hs as [_ ->]; by exists j].
      apply conditional_Some in Hs as [_ ->]. case_match; [|by exists j]. exists j. split; [|done]. simpl.
      destruct (applyActions_frame us j0) as [-> _]. destruct (ho_now _ Hh _ _ Hj0) as [-> _]. by rewrite lookup_insert_ne.
  - injection Hs as <-. simpl in Hr. bool_to_prop. exists j. split; [|done]. simpl. by rewrite lookup_delete_ne.
Qed.

Lemma dy_run_held (ms : list move) id w a : ∀ d d', historyOk d → heldItem d id w a → runMoves step ms d = Some d' →
  Forall (λ m, releasesClaim id w a m = false) ms → heldItem d' id w a.
Proof.
  induction ms as [|m ms IH]; intros d d' Hk Hh Hr Hn; cbn [runMoves] in *; [by simplify_eq|].
  destruct (step m d) as [d1|] eqn:Hs; [|done]. apply Forall_cons in Hn as [Hm Hn].
  eapply IH; [by eapply dy_step_history|by eapply dy_step_held|done|done].
Qed.

(** The condition of a claim does not hold of a claimed job. *)
Lemma claim_waiting j v : forallb (holdsCond j) (claimConds v) = true →
  dj_Version j = v ∧ (dj_State j = JobStateAvailable ∨ dj_State j = JobStateScheduled).
Proof.
  simpl. rewrite andb_true_r, andb_true_iff, Z.eqb_eq, bool_decide_eq_true, elem_of_cons, list_elem_of_singleton. tauto.
Qed.

Lemma claim_refuses_held w a v : forallb (admitsClaim w a) (claimConds v) = false.
Proof. done. Qed.

Lemma claimed_item p now j : ownedBy (fp_WorkerID p) (dj_AttemptNum j + 1) (applyActions (claimActions p now) j).
Proof. unfold claimActions. by destruct (leaseOf p now). Qed.

(** Between two claims of a job there is a release of the first one. *)
Lemma dy_claims_released p1 t1 j1 q us mid (d d' : Db) v : historyOk d → db_jobs d !! dj_ID j1 = Some j1 →
  runMoves step (MReq (K := K) (UpdateJob (dj_ID j1) (claimConds (dj_Version j1)) (claimActions p1 t1)) true :: mid ++ [MReq (UpdateJob (dj_ID j1) (claimConds v) us) q]) d = Some d' →
  q = true → ∃ m, m ∈ mid ∧ releasesClaim (dj_ID j1) (fp_WorkerID p1) (dj_AttemptNum j1 + 1) m = true.
Proof.
  intros Hh Hj Hr ->. apply (runMoves_split _ []) in Hr as (d0 & d1 & [= <-] & H1 & Hr).
  pose proof (dy_step_history _ _ _ Hh H1) as Hh1. apply update_made in H1 as (j & Hj' & _ & ->). assert (j = j1) as -> by congruence.
  assert (heldItem (storeJob (applyActions (claimActions p1 t1) j1) d) (dj_ID j1) (fp_WorkerID p1) (dj_AttemptNum j1 + 1)) as Hheld.
  { exists (applyActions (claimActions p1 t1) j1). split; [|apply claimed_item]. rewrite storeJob_jobs.
    destruct (applyActions_frame (claimActions p1 t1) j1) as [-> _]. apply lookup_insert_eq. }
  destruct (decide (Exists (λ m, releasesClaim (dj_ID j1) (fp_WorkerID p1) (dj_AttemptNum j1 + 1) m = true) mid)) as [He|He]; [by apply Exists_exists in He|].
  exfalso. apply runMoves_split in Hr as (d2 & d3 & Hmid & H2 & _).
  destruct (dy_run_held mid (dj_ID j1) (fp_WorkerID p1) (dj_AttemptNum j1 + 1) _ _ Hh1 Hheld Hmid) as (j2 & Hj2 & Ho).
  { apply not_Exists_Forall in He; [|intros x; apply _]. eapply Forall_impl; [exact He|]. intros m Hm. by apply not_true_is_false. }
  apply update_made in H2 as (j3 & Hj3 & Hc & _). simplify_eq. pose proof (dy_owned_admitted _ _ _ _ Ho Hc) as Hf. by rewrite claim_refuses_held in Hf.
Qed.
End claims.

(** ** Of the operations *)

Section operations.
Context {S : Type} `{Dynamo S} `{!DynamoLaws S}.
Abbreviation K := dy_Key.
Abbreviation dbOf e := (dy_db (yv_svc e)).

Lemma won_elem (xs : list (dynamoJob * bool)) c : c ∈ won xs → ∃ xs1 xs2, xs = xs1 ++ (c, true) :: xs2.
Proof.
  unfold won. intros ([c' b] & -> & [Hb Hin]%list_elem_of_filter)%list_elem_of_fmap. simpl in *. subst b. by apply list_elem_of_split.
Qed.

(** A row that a fetch has returned: the query has shown a candidate, and then it was
    claimed. *)
Lemma dy_fetched_claim p (ms : list (move K)) rows err row : promisedMoves (OFetch p) ms (rows, err) → row ∈ rows →
  ∃ now c q a l1 l2 l3, ms = l1 ++ MReq q a :: l2 ++ claimOf p now (c, true) :: l3 ∧ shows q a c ∧ row = claimedRow p now c.
Proof.
  intros [(-> & _)|[(-> & _)|(q & now & avail & sched & l & r & _ & -> & Hc & Hr)]] Hin; [by apply not_elem_of_nil in Hin..|].
  destruct r as [rows'|e]; [|destruct Hr as [-> _]; by apply not_elem_of_nil in Hin]. destruct Hr as [-> _].
  destruct Hc as (xs & last & -> & _ & -> & _ & Hend). apply list_elem_of_fmap in Hin as (c & -> & Hc).
  apply won_elem in Hc as (xs1 & xs2 & ->).
  assert (c ∈ avail ++ sched) as Hc.
  { rewrite <-(sort_by_perm candidateLess). destruct Hend as [<-|[_ [k ->]]]; rewrite fmap_app, fmap_cons; set_solver. }
  apply elem_of_app in Hc as [Hc|Hc]; exists now, c.
  - exists (QueryDue (qsKey (fp_Queue p) JobStateAvailable) (UTC now) (candidateLimit (fp_Limit p))), avail.
    exists [MReq (GetQueue (fp_Queue p)) q], (MReq (QueryDue (qsKey (fp_Queue p) JobStateScheduled) (UTC now) (candidateLimit (fp_Limit p))) sched :: (claimOf p now <$> xs1)), ((claimOf p now <$> xs2) ++ last).
    split_and!; [|exact Hc|done]. simpl. by rewrite fmap_app, <-app_assoc.
  - exists (QueryDue (qsKey (fp_Queue p) JobStateScheduled) (UTC now) (candidateLimit (fp_Limit p))), sched.
    exists (MReq (GetQueue (fp_Queue p)) q :: [MReq (QueryDue (qsKey (fp_Queue p) JobStateAvailable) (UTC now) (candidateLimit (fp_Limit p))) avail]), (claimOf p now <$> xs1), ((claimOf p now <$> xs2) ++ last).
    split_and!; [|exact Hc|done]. simpl. by rewrite fmap_app, <-app_assoc.
Qed.

(** The row of a fetch shows the very item that the claim has found in the table. *)
Definition claimsItem (p : FetchParams) (row : JobRow) (now : Instant) (d : Db) (m : move K) : Prop :=
  ∃ j, m = claimOf p now (j, true) ∧ db_jobs d !! ID row = Some j ∧ row = claimedRow p now j ∧
    (dj_State j = JobStateAvailable ∨ dj_State j = JobStateScheduled).

Lemma dy_fetched_stored fuel p (e : DyEnv (S := S)) rows err row :
  historyOk (dbOf e) → (execOp fuel (OFetch p) e).2 = Some (rows, err) → row ∈ rows →
  ∃ now pre m post d1, claimsItem p row now d1 m ∧ runMoves (step (K := K)) pre (dbOf e) = Some d1 ∧
    runMoves (step (K := K)) (m :: post) d1 = Some (dbOf (execOp fuel (OFetch p) e).1).
Proof.
  intros Hh Ha Hin. destruct (dy_fetch_promise fuel p e Hh) as (acts & (tr & Hr & Ho) & Hp). rewrite Ha in Hp. simpl in Hp.
  eapply dy_fetched_claim in Hp as (now & c & q & a & l1 & l2 & l3 & Hd & Hs & ->); [|exact Hin]. rewrite <-Ho in Hd.
  apply own_in_order in Hd as (pre & mid & post & Ht). rewrite Ht in Hr.
  apply runMoves_split in Hr as (d1 & d2 & H1 & H2 & Hr). apply runMoves_split in Hr as (d3 & d4 & H3 & H4 & H5).
  pose proof (runMoves_inv (step (K := K)) historyOk dy_step_history _ _ _ Hh H1) as Hh1.
  exists now, (pre ++ MReq q a :: mid), (claimOf p now (c, true)), post, d3. split_and!.
  - pose proof H4 as Hu. apply update_made in Hu as (j & Hj & [Hv Hw]%claim_waiting & _).
    assert (j = c) as -> by (by eapply shown_is_stored). exists c. by split_and!.
  - eapply runMoves_trans; [exact H1|]. cbn [runMoves]. by rewrite H2.
  - cbn [runMoves]. by rewrite H4.
Qed.

(** C10: a claim is exclusive on DynamoDB, although its index may be stale.  If two
    fetches, of any workers and with anything happening meanwhile, both return a
    job, then each row shows the item that was waiting in the table when it was
    claimed, and in between a request has released the first claim: it has deleted
    the job, or updated its state, worker or attempt under conditions that admit
    this worker and this attempt. *)
Theorem dynamo_claims_exclusive fuel p1 p2 (e1 e2 : DyEnv (S := S)) ms rows1 err1 rows2 err2 row1 row2 :
  historyOk (dbOf e1) →
  (execOp fuel (OFetch p1) e1).2 = Some (rows1, err1) → row1 ∈ rows1 →
  runMoves (step (K := K)) ms (dbOf (execOp fuel (OFetch p1) e1).1) = Some (dbOf e2) →
  (execOp fuel (OFetch p2) e2).2 = Some (rows2, err2) → row2 ∈ rows2 → ID row1 = ID row2 →
  ∃ pre m1 mid m2 post d1 d2 now1 now2,
    runMoves (step (K := K)) pre (dbOf e1) = Some d1 ∧ claimsItem p1 row1 now1 d1 m1 ∧
    runMoves (step (K := K)) (m1 :: mid) d1 = Some d2 ∧ claimsItem p2 row2 now2 d2 m2 ∧
    runMoves (step (K := K)) (m2 :: post) d2 = Some (dbOf (execOp fuel (OFetch p2) e2).1) ∧
    ∃ m j, m ∈ mid ∧ db_jobs d1 !! ID row1 = Some j ∧ releasesClaim (ID row1) (fp_WorkerID p1) (dj_AttemptNum j + 1) m = true.
Proof.
  intros Hh Ha1 Hin1 Hms Ha2 Hin2 Hid. destruct (dy_fetched_stored _ _ _ _ _ _ Hh Ha1 Hin1) as (t1 & pre & m1 & post1 & d1 & C1 & Hpre & Hr1).
  pose proof (runMoves_inv (step (K := K)) historyOk dy_step_history _ _ _ Hh Hpre) as Hh1.
  pose proof (runMoves_inv (step (K := K)) historyOk dy_step_history _ _ _ Hh1 Hr1) as Hh1'.
  pose proof (runMoves_inv (step (K := K)) historyOk dy_step_history _ _ _ Hh1' Hms) as Hh2.
  destruct (dy_fetched_stored _ _ _ _ _ _ Hh2 Ha2 Hin2) as (t2 & pre2 & m2 & post & d2 & C2 & Hpre2 & Hr2).
  assert (runMoves (step (K := K)) (m1 :: (post1 ++ ms ++ pre2)) d1 = Some d2) as Hmid.
  { change (m1 :: (post1 ++ ms ++ pre2)) with ((m1 :: post1) ++ ms ++ pre2). eapply runMoves_trans; [exact Hr1|]. by eapply runMoves_trans. }
  exists pre, m1, (post1 ++ ms ++ pre2), m2, post, d1, d2, t1, t2. split_and!; [done..|].
  destruct C1 as (j1 & -> & Hj1 & -> & _), C2 as (j2 & -> & Hj2 & -> & _). cbn [ID claimedRow] in *.
  cbn [runMoves] in Hr2. destruct (step (claimOf p2 t2 (j2, true)) d2) as [d3|] eqn:H2; [|done].
  edestruct (dy_claims_released p1 t1 j1 true (claimActions p2 t2) (post1 ++ ms ++ pre2) d1 d3 (dj_Version j2)) as (m & Hm & Hrel); [done|done| |done|by exists m, j1].
  unfold claimOf, claimRequest in H2. cbn [fst snd] in H2. rewrite <-Hid in H2.
  change (?x :: (?l ++ [?y])) with ((x :: l) ++ [y]). eapply runMoves_trans; [exact Hmid|]. cbn [runMoves]. by rewrite H2.
Qed.

(** C19: an outcome is fenced.  A transition that answers success has been written to
    an item that, at that moment, was running as the claim that the caller names;
    the item has not changed between the check and the write, although the check was
    made on an answer that may have been stale. *)
Theorem dynamo_outcome_fenced fuel p (e : DyEnv (S := S)) :
  historyOk (dbOf e) → (execOp fuel (OSetState p) e).2 = Some None →
  ∃ now pre j post d1 d2, runMoves (step (K := K)) pre (dbOf e) = Some d1 ∧
    db_jobs d1 !! sp_ID p = Some j ∧ dj_State j = JobStateRunning ∧ MatchesClaim p (dj_WorkerID j) (dj_AttemptNum j) = true ∧
    step (MReq (settleRequest p now j) true) d1 = Some d2 ∧
    db_jobs d2 !! sp_ID p = Some (applyActions (if sp_Yield p then yieldActions (dj_Queue j) else settleActions p now j) j) ∧
    runMoves (step (K := K)) post d2 = Some (dbOf (execOp fuel (OSetState p) e).1).
Proof.
  intros Hh Ha. destruct (dy_setState_promise fuel p e Hh) as (acts & (tr & Hr & Ho) & Hp). rewrite Ha in Hp.
  destruct Hp as (j & now & l & [Hs Hm] & Hd & _). rewrite <-Ho in Hd. apply (own_in_order _ [] _ []) in Hd as (pre & mid & post & Ht). rewrite Ht in Hr.
  apply runMoves_split in Hr as (d1 & d2 & H1 & H2 & Hr). apply runMoves_split in Hr as (d3 & d4 & H3 & H4 & H5).
  pose proof (runMoves_inv (step (K := K)) historyOk dy_step_history _ _ _ Hh H1) as Hh1.
  assert (dj_ID j = sp_ID p) as Hid.
  { pose proof H2 as H2'. cbn [step saneRequest serve] in H2'. apply given_Some in H2' as [Hb _]. bool_to_prop. by destruct Hb. }
  pose proof H4 as Hu. apply update_made in Hu as (j' & Hj & Hc & Hd4).
  assert (j' = j) as ->.
  { eapply (shown_is_stored (GetJob (sp_ID p)) (Some j)); [exact Hh1|exact H2|exact H3|done|by rewrite Hid|].
    simpl in Hc. rewrite andb_true_r in Hc. apply andb_true_iff in Hc as [_ Hc]. by bool_to_prop. }
  exists now, (pre ++ MReq (GetJob (sp_ID p)) (Some j) :: mid), j, post, d3, d4. split_and!; [|done..| |done].
  - eapply runMoves_trans; [exact H1|]. cbn [runMoves]. by rewrite H2.
  - rewrite Hd4, storeJob_jobs. destruct (applyActions_frame (if sp_Yield p then yieldActions (dj_Queue j) else settleActions p now j) j) as [-> _].
    rewrite Hid. apply lookup_insert_eq.
Qed.
End operations.

(** ** Unique keys and leases *)

Section leases.
Context {K : Type}.

(** Two jobs of one unique key: the key was let go in between. *)
Definition freesUniq (key : string) (m : move K) : bool :=
  match m with MReq (DeleteUniq k) _ => bool_decide (k = key) | _ => false end.

Lemma step_uniq (m : move K) d d' key id : db_uniq d !! key = Some id → step m d = Some d' → freesUniq key m = false → db_uniq d' !! key = Some id.
Proof.
  intros Hu Hs Hf. destruct m as [q a]. cbn [step] in Hs. destruct (saneRequest q); [|done]. destruct q; cbn [serve] in Hs;
    try (apply given_Some in Hs as [_ ->]; done); try (injection Hs as <-; done);
    try (apply conditional_Some in Hs as [_ ->]; case_match; done).
  - destruct a; [|by injection Hs as <-]. destruct (freshID _ d); [|done]. simpl in Hs. case_bool_decide; [|done]. injection Hs as <-.
    simpl. rewrite lookup_insert_ne; [done|congruence].
  - destruct (db_jobs d !! id0); [apply conditional_Some in Hs as [_ ->]; by case_match|]. destruct conds; [done|].
    by apply conditional_Some in Hs as [_ ->].
  - injection Hs as <-. simpl in Hf |- *. bool_to_prop. by rewrite lookup_delete_ne.
Qed.

Theorem dynamo_keys_apart j1 j2 (mid : list (move K)) (d d' : Db) : dj_UniqueKey j1 = dj_UniqueKey j2 →
  runMoves step (MReq (PutUniqueJob j1) true :: mid ++ [MReq (PutUniqueJob j2) true]) d = Some d' →
  Exists (λ m, freesUniq (dj_UniqueKey j1) m = true) mid.
Proof.
  intros Hk Hr. apply (runMoves_split _ []) in Hr as (d0 & d1 & _ & H1 & Hr). apply runMoves_split in Hr as (d2 & d3 & Hmid & H2 & _).
  destruct (decide (Exists (λ m, freesUniq (dj_UniqueKey j1) m = true) mid)) as [He|He]; [done|exfalso].
  apply not_Exists_Forall in He; [|intros x; apply _].
  assert (db_uniq d1 !! dj_UniqueKey j1 = Some (dj_ID j1)) as Hu.
  { cbn [step saneRequest serve] in H1. destruct (_ && _); [|done]. injection H1 as <-. simpl. apply lookup_insert_eq. }
  assert (db_uniq d2 !! dj_UniqueKey j1 = Some (dj_ID j1)) as Hu2.
  { clear H1 H2 Hk. revert d1 Hu Hmid. induction He as [|m ms Hm Hms IH]; intros d1 Hu Hr; cbn [runMoves] in Hr; [by simplify_eq|].
    destruct (step m d1) as [dm|] eqn:E; [|done]. eapply IH; [|done]. eapply step_uniq; [done..|]. by apply not_true_is_false. }
  cbn [step saneRequest serve] in H2. rewrite <-Hk in H2. rewrite (bool_decide_eq_false_2 (db_uniq d2 !! _ = None)), andb_false_r in H2; [done|congruence].
Qed.

(** The requests that write a lease, or give it up. *)
Definition leaseMove (name w : string) (m : move K) : bool :=
  match m with
  | MReq (PutLeader n _ _ _) a => (a : bool) && bool_decide (n = name)
  | MReq (DeleteLeader n x) a => (a : bool) && bool_decide (n = name) && bool_decide (x = w)
  | _ => false
  end.

Lemma dy_step_lease (m : move K) d d' name l : db_leaders d !! name = Some l → step m d = Some d' → leaseMove name (li_WorkerID l) m = false →
  db_leaders d' !! name = Some l.
Proof.
  intros Hl Hs Hf. destruct m as [q a]. cbn [step] in Hs. destruct (saneRequest q); [|done]. destruct q; cbn [serve] in Hs;
    try (apply given_Some in Hs as [_ ->]; done); try (injection Hs as <-; done);
    try (apply conditional_Some in Hs as [_ ->]; case_match; done).
  - destruct a; [|by injection Hs as <-]. destruct (_ && _); [|done]. by injection Hs as <-.
  - destruct (db_jobs d !! id); [apply conditional_Some in Hs as [_ ->]; by case_match|]. destruct conds; [done|].
    by apply conditional_Some in Hs as [_ ->].
  - apply conditional_Some in Hs as [-> ->]. destruct (electable _ _ _); [|done]. simpl in Hf |- *. bool_to_prop. by rewrite lookup_insert_ne.
  - apply conditional_Some in Hs as [-> ->]. destruct (db_leaders d !! name0) as [l0|] eqn:Hl0; [|done]. case_bool_decide as Hw; [|done].
    simpl in Hf |- *. rewrite lookup_delete_ne; [done|]. intros ->. simplify_eq. by rewrite !bool_decide_eq_true_2 in Hf.
Qed.

(** If two elections of different workers for one lease both succeed, then somebody
    was elected in between, or the first has resigned, or the text of the expiry is
    before the text of the second worker's clock. *)
Lemma dy_elections_apart name w1 exp1 now1 w2 exp2 now2 mid (d d' : Db) : w1 ≠ w2 →
  runMoves step (MReq (K := K) (PutLeader name w1 exp1 now1) true :: mid ++ [MReq (PutLeader name w2 exp2 now2) true]) d = Some d' →
  Exists (λ m, leaseMove name w1 m = true) mid ∨ textLt exp1 now2 = true.
Proof.
  intros Hw Hr. apply (runMoves_split _ []) in Hr as (d0 & d1 & _ & H1 & Hr). apply runMoves_split in Hr as (d2 & d3 & Hmid & H2 & _).
  destruct (decide (Exists (λ m, leaseMove name w1 m = true) mid)) as [He|He]; [by left|right].
  apply not_Exists_Forall in He; [|intros x; apply _].
  assert (db_leaders d1 !! name = Some (mkLeaderItem w1 exp1)) as Hl.
  { cbn [step saneRequest serve] in H1. apply conditional_Some in H1 as [<- ->]. simpl. apply lookup_insert_eq. }
  assert (db_leaders d2 !! name = Some (mkLeaderItem w1 exp1)) as Hl2.
  { clear H1 H2. revert d1 Hl Hmid. induction He as [|m ms Hm Hms IH]; intros d1 Hl Hr; cbn [runMoves] in Hr; [by simplify_eq|].
    destruct (step m d1) as [dm|] eqn:E; [|done]. eapply IH; [|done]. eapply dy_step_lease; [done..|]. by apply not_true_is_false. }
  cbn [step saneRequest serve] in H2. apply conditional_Some in H2 as [Ht _]. rewrite Hl2 in Ht. simpl in Ht.
  rewrite (bool_decide_eq_false_2 (w1 = w2)), orb_false_r in Ht by done. done.
Qed.

(** In time: at most a second early. *)
Theorem dynamo_lease_exclusive name w1 exp1 now1 w2 exp2 now2 mid (d d' : Db) : w1 ≠ w2 → datable exp1 → datable now2 →
  runMoves step (MReq (K := K) (PutLeader name w1 exp1 now1) true :: mid ++ [MReq (PutLeader name w2 exp2 now2) true]) d = Some d' →
  Forall (λ m, leaseMove name w1 m = false) mid → exp1 < now2 + Second.
Proof.
  intros Hw D1 D2 Hr Hn. apply textLt_time; [done..|]. destruct (dy_elections_apart _ _ _ _ _ _ _ _ _ _ Hw Hr) as [He|?]; [|done].
  exfalso. apply Exists_exists in He as (m & Hm & Ht). rewrite Forall_forall in Hn. by rewrite Hn in Ht.
Qed.
End leases.
