(* ===== verification/DynamoDemo.v ===== *)
(** * driver/dynamodb: a concrete service, and runs on it

    A concrete service over the tables that keeps the laws.  It answers a request with
    what the request makes of the tables, and refuses what cannot happen.  A page holds
    two items, and there are at most a hundred pages.  [sm_races] says, call by call,
    what other programs do just before, and whether the request fails or, if it is a
    transaction, is cancelled; [sm_view] is the state, if not the latest, that reads
    without consistency show.

    The theorems about the backend applied to concrete runs, and runs that show what
    does not hold: a lease that is taken over before it has run out, a job that is
    dropped because its transaction was cancelled, claims that a failing fetch does
    not tell of, an outcome that is lost to a stale read, and a deletion that frees
    the unique key of another job. *)

From S2P Require Import Prelude GoBase Json Codec Driver Moves Memory TimeText Dynamo DynamoLaws DynamoRefine DynamoSafety.
From Stdlib Require Import ZArith Lia.

(** * The concrete service *)

Inductive fate := Runs | Fails | Cancelled.
Record Sim := mkSim { sm_db : Db; sm_next : Z; sm_races : list (list (move nat) * fate); sm_view : option Db }.

Definition simFailed : error := ENew "failed".

(** A page, where [Some n] is the key with which [n] more pages may come. *)
Definition pagesLeft (start : option nat) : nat := default 100%nat start.
Definition page {A} (l : list A) (start : option nat) : list A * option nat :=
  let rest := drop (2 * (100 - pagesLeft start)) l in
  match pagesLeft start with
  | O => (rest, None)
  | S n => if (2 <? Z.of_nat (length rest)) then (take 2 rest, Some n) else (rest, None)
  end.

Definition itemsIn (qs : string) (d : Db) : list dynamoJob := filter (λ j, dj_QueueState j = qs) (map_to_list (db_jobs d)).*2.

(** What the service answers, reading from [v]. *)
Definition answer (q : request nat) (v d : Db) : reply q :=
  match q with
  | GetJob id => db_jobs v !! id
  | PutJob _ | DeleteJob _ | DeleteUniq _ | SetPaused _ _ _ => tt
  | PutUniqueJob j => bool_decide (db_uniq d !! dj_UniqueKey j = None)
  | UpdateJob id conds _ => match db_jobs d !! id with Some j => forallb (holdsCond j) conds | None => false end
  | QueryJobs qs start => page (itemsIn qs v) start
  | QueryDue qs now limit => take (Z.to_nat limit) (filter (λ j, textLe (dj_RunAt j) now = true) (itemsIn qs v))
  | CountJobs qs start => let '(l, next) := page (itemsIn qs v) start in (Z.of_nat (length l), next)
  | ScanJobs start => page (map_to_list (db_jobs v)).*2 start
  | GetQueue name => db_queues v !! name
  | PutQueue name _ => bool_decide (db_queues d !! name = None)
  | ScanQueues start => page (map_to_list (db_queues v)) start
  | PutLeader name w _ now => electable now w (db_leaders d !! name)
  | DeleteLeader name w => match db_leaders d !! name with Some l => bool_decide (li_WorkerID l = w) | None => false end
  | PutCursor id _ => bool_decide (db_cursors d !! id = None)
  | GetCursor id => db_cursors d !! id
  | MoveCursor id expected _ => bool_decide (timeText <$> db_cursors d !! id = Some (timeText expected))
  end.

(** Others come first. *)
Definition raced (s : Sim) : Sim * fate :=
  match sm_races s with
  | [] => (s, Runs)
  | (ms, f) :: rest => (mkSim (default (sm_db s) (runMoves step ms (sm_db s))) (sm_next s) rest (sm_view s), f)
  end.

Definition viewOf (s : Sim) : Db := default (sm_db s) (sm_view s).

(** The answer: a transaction may be cancelled. *)
Definition answered (f : fate) (q : request nat) (s : Sim) : reply q :=
  match q return reply q → reply q with
  | PutUniqueJob _ => λ a, match f with Cancelled => false | _ => a end
  | _ => λ a, a
  end (answer q (viewOf s) (sm_db s)).

Definition served (f : fate) (q : request nat) (s : Sim) : Sim * result (reply q) :=
  match f, step (MReq q (answered f q s)) (sm_db s) with
  | Fails, _ | _, None => (s, Err simFailed)
  | _, Some d => (mkSim d (sm_next s) (sm_races s) (sm_view s), Ok (answered f q s))
  end.

#[export] Instance simDynamo : Dynamo Sim := {|
  dy_Key := nat;
  dy_call q s := let '(s1, f) := raced s in served f q s1;
  dy_uuid s := (mkSim (sm_db s) (sm_next s + 1) (sm_races s) (sm_view s), FormatInt (sm_next s));
  dy_create _ s := (s, InUse);
  dy_wait _ s := (s, None)
|}.

Lemma dy_sim_foreign msg : foreignErr (ENew msg).
Proof. by repeat split. Qed.

Lemma dy_raced_others s : others (step (K := nat)) (sm_db s) (sm_db (raced s).1).
Proof.
  unfold raced. destruct (sm_races s) as [|[ms f] rest]; [reflexivity|]. simpl.
  destruct (Moves.runMoves step ms (sm_db s)) as [d|] eqn:E; simpl; [by exists ms|reflexivity].
Qed.

Definition simLeft (start : option nat) : nat := match start with Some n => n | None => 100%nat end.

Lemma page_goes {A} (l : list A) start key : (page l start).2 = Some key → (key < simLeft start)%nat.
Proof.
  unfold page, pagesLeft. destruct start as [[|n]|]; simpl; [done|..]; destruct (2 <? _); simpl; intros [=]; lia.
Qed.

Lemma answered_goes f (q : request nat) s :
  match nextPage q (answered f q s) with Some (start, Some key) => (simLeft (Some key) < simLeft start)%nat | _ => True end.
Proof.
  destruct q; simpl; try done.
  - destruct (page _ start).2 as [key|] eqn:Hp; [by apply page_goes in Hp|done].
  - unfold answered. simpl. destruct (page _ start) as [l [key|]] eqn:Hp; [|done]. simpl. apply (page_goes (itemsIn qs (viewOf s))). by rewrite Hp.
  - destruct (page _ start).2 as [key|] eqn:Hp; [by apply page_goes in Hp|done].
  - destruct (page _ start).2 as [key|] eqn:Hp; [by apply page_goes in Hp|done].
Qed.

Lemma sim_call_law (q : request nat) (s : Sim) : ∃ acts,
  happens (step (K := nat)) (sm_db s) (sm_db (let '(s1, f) := raced s in served f q s1).1) acts ∧
  match (let '(s1, f) := raced s in served f q s1).2 with
  | Ok a => did acts = [MReq q a] ∧ match nextPage q a with Some (start, Some key) => (simLeft (Some key) < simLeft start)%nat | _ => True end
  | Err e => foreignErr e ∧ (did acts = [] ∨ ∃ a, did acts = [MReq q a])
  end.
Proof.
  pose proof (dy_raced_others s) as Ho. destruct (raced s) as [s1 f]. cbn [fst] in Ho. unfold served.
  assert (∃ acts, happens (step (K := nat)) (sm_db s) (sm_db s1) acts ∧ foreignErr simFailed ∧ (did acts = [] ∨ ∃ a, did acts = [MReq q a])) as Hfail.
  { exists []. split; [by apply happens_others|]. split; [apply dy_sim_foreign|by left]. }
  assert (∀ a d, step (MReq q a) (sm_db s1) = Some d →
    match nextPage q a with Some (start, Some key) => (simLeft (Some key) < simLeft start)%nat | _ => True end →
    ∃ acts, happens (step (K := nat)) (sm_db s) d acts ∧ did acts = [MReq q a] ∧
      match nextPage q a with Some (start, Some key) => (simLeft (Some key) < simLeft start)%nat | _ => True end) as Hok.
  { intros a d E Hn. exists (Did <$> [MReq q a]). rewrite did_did. split; [|split; done].
    eapply happens_between; [exact Ho| |reflexivity]. apply happens_did. cbn [Moves.runMoves]. by rewrite E. }
  pose proof (answered_goes f q s1) as Hg.
  destruct f; [destruct (step (MReq q (answered Runs q s1)) (sm_db s1)) as [d|] eqn:E|exact Hfail|
    destruct (step (MReq q (answered Cancelled q s1)) (sm_db s1)) as [d|] eqn:E]; first [exact Hfail|by apply Hok].
Qed.

#[export] Program Instance simDynamoLaws : DynamoLaws Sim := {|
  dy_db := sm_db;
  dy_left := simLeft
|}.
Next Obligation. intros s. simpl. reflexivity. Qed.
Next Obligation. intros t s. simpl. reflexivity. Qed.
Next Obligation. intros name s. simpl. reflexivity. Qed.
Next Obligation. intros q s _ _. exact (sim_call_law q s). Qed.

(** * Runs *)

Definition noon : Instant := unixEpoch + 20000 * 24 * Hour.
Definition emptyDb : Db := mkDb ∅ [] ∅ ∅ [] ∅ ∅.
Definition simEnv (d : Db) (now : Instant) (races : list (list (move nat) * fate)) : DyEnv (S := Sim) :=
  mkDyEnv (mkSim d 1 races None) (frozenClock now).
Definition dbAfter (e : DyEnv (S := Sim)) : Db := dy_db (yv_svc e).
Abbreviation enough := 102%nat.

Lemma dy_history_empty : historyOk emptyDb.
Proof.
  split; simpl.
  - intros id j. by rewrite lookup_empty.
  - by intros j1 j2 ?%elem_of_nil.
  - by intros j1 j ?%elem_of_nil.
Qed.

Lemma dy_dbs_decided (x y : option Db) : bool_decide (x = y) = true → x = y.
Proof. apply bool_decide_eq_true. Qed.
Ltac decide_dbs := apply dy_dbs_decided; vm_compute; reflexivity.

Definition simParams (queue key : string) : JobInsertParams := mkJobInsertParams queue "email" "{}" 0 0 key 3 Minute [] "".
Definition simFetch (w : string) : FetchParams := mkFetchParams "mail" 5 w Minute.
Definition simOutcome (state id w : string) : JobSetStateParams := mkJobSetStateParams id state None None 0 0 w 1 false.

Definition demoProgram : list driverOp :=
  [OInsert [simParams "mail" "k"; simParams "mail" "k"; simParams "mail" ""; simParams "mail" ""]; OFetch (simFetch "w1");
   OSetState (simOutcome JobStateCompleted "1" "w2"); OSetState (simOutcome JobStateCompleted "1" "w1"); OStats "mail";
   OList (mkJobListParams "mail" "" "" 10 ""); ORescue (mkJobRescueParams "mail" (noon + Hour) noon); ODelete "1"].

(** What the program is answered: the duplicate is skipped, the claim of the other
    worker is stale, the stats count two pages, and two jobs are rescued. *)
Definition tellAnswer (oa : {o : driverOp & option (ans o)}) : list string :=
  match oa with
  | existT (OInsert _) (Some (Ok rs)) => (λ r, if ir_UniqueSkip r then "skip" else "new") <$> rs
  | existT (OFetch _) (Some (rows, _)) => ID <$> rows
  | existT (OSetState _) (Some err) => [if err then "stale" else "done"]
  | existT (OStats _) (Some (Ok s)) => [FormatInt (qs_Total s)]
  | existT (OList _) (Some (Ok rows)) => State <$> rows
  | existT (ORescue _) (Some (n, _)) => [FormatInt n]
  | existT (ODelete _) (Some None) => ["deleted"]
  | _ => ["?"]
  end.
Example demo_answers : tellAnswer <$> (execAll enough demoProgram (simEnv emptyDb noon [])).2 =
  [["new"; "skip"; "new"; "new"]; ["1"; "3"; "4"]; ["stale"]; ["done"]; ["3"]; ["running"; "running"; "completed"]; ["2"]; ["deleted"]].
Proof. vm_compute. reflexivity. Qed.

Lemma dynamo_operations_refine_witness :
  historyOk emptyDb ∧
  ∃ trs, runMoves (step (K := nat)) (trMoves (mjoin trs)) emptyDb = Some (dbAfter (execAll enough demoProgram (simEnv emptyDb noon [])).1) ∧
    Forall2 (λ tr (oa : {o : driverOp & option (ans o)}), promised (projT1 oa) (trOwn tr) (projT2 oa)) trs
      (execAll enough demoProgram (simEnv emptyDb noon [])).2 ∧
    (λ oa : {o : driverOp & option (ans o)}, projT1 oa) <$> (execAll enough demoProgram (simEnv emptyDb noon [])).2 = demoProgram.
Proof.
  split; [exact dy_history_empty|].
  refine (dynamo_operations_refine enough _ demoProgram (simEnv emptyDb noon []) dy_history_empty). simpl. lia.
Defined.

(** A claim, and then its rescue an hour later. *)
Definition insertedEnv : DyEnv (S := Sim) := (execOp enough (OInsert [simParams "mail" "k"]) (simEnv emptyDb noon [])).1.
Definition claimedEnv : DyEnv (S := Sim) := (execOp enough (OFetch (simFetch "w1")) insertedEnv).1.
Definition rescueParams : JobRescueParams := mkJobRescueParams "mail" (noon + Hour) noon.
Definition rescueOne : move nat := MReq (UpdateJob "1" (rescueConds rescueParams) (rescueActions rescueParams)) true.
Definition rescuedEnv : DyEnv (S := Sim) := simEnv (default emptyDb (step rescueOne (dbAfter claimedEnv))) (noon + Hour) [].

Definition claimedRows (e : DyEnv (S := Sim)) (w : string) : list JobRow :=
  match (execOp enough (OFetch (simFetch w)) e).2 with Some (rows, _) => rows | None => [] end.
Definition firstRow (rows : list JobRow) : JobRow := default (jobFromDynamo (newJob (simParams "" "") "" 0)) (head rows).

Lemma dy_inserted_history : historyOk (dbAfter insertedEnv).
Proof.
  apply (runMoves_inv (step (K := nat)) historyOk dy_step_history
    [MReq (PutUniqueJob (newJob (simParams "mail" "k") "1" noon)) true; MReq (PutQueue "mail" noon) true] emptyDb); [exact dy_history_empty|decide_dbs].
Qed.
Lemma dy_claimed_history : historyOk (dbAfter claimedEnv).
Proof.
  apply (runMoves_inv (step (K := nat)) historyOk dy_step_history
    [MReq (UpdateJob "1" (claimConds 1) (claimActions (simFetch "w1") noon)) true] (dbAfter insertedEnv)); [exact dy_inserted_history|decide_dbs].
Qed.

Lemma dy_head_elem {A} (l : list A) x : head l = Some x → x ∈ l.
Proof. destruct l; [done|]. intros [= ->]. by left. Qed.

Lemma dynamo_claims_exclusive_witness :
  ID (firstRow (claimedRows insertedEnv "w1")) = "1" ∧
  ∃ pre m1 mid m2 post d1 d2 now1 now2,
    runMoves (step (K := nat)) pre (dbAfter insertedEnv) = Some d1 ∧
    claimsItem (S := Sim) (simFetch "w1") (firstRow (claimedRows insertedEnv "w1")) now1 d1 m1 ∧
    runMoves (step (K := nat)) (m1 :: mid) d1 = Some d2 ∧
    claimsItem (S := Sim) (simFetch "w2") (firstRow (claimedRows rescuedEnv "w2")) now2 d2 m2 ∧
    runMoves (step (K := nat)) (m2 :: post) d2 = Some (dbAfter (execOp enough (OFetch (simFetch "w2")) rescuedEnv).1) ∧
    ∃ m j, m ∈ mid ∧ db_jobs d1 !! ID (firstRow (claimedRows insertedEnv "w1")) = Some j ∧
      releasesClaim (ID (firstRow (claimedRows insertedEnv "w1"))) "w1" (dj_AttemptNum j + 1) m = true.
Proof.
  split; [vm_compute; reflexivity|].
  refine (dynamo_claims_exclusive enough (simFetch "w1") (simFetch "w2") insertedEnv rescuedEnv [rescueOne]
           (claimedRows insertedEnv "w1") None (claimedRows rescuedEnv "w2") None (firstRow (claimedRows insertedEnv "w1"))
           (firstRow (claimedRows rescuedEnv "w2")) _ _ _ _ _ _ _).
  - exact dy_inserted_history.
  - vm_compute. reflexivity.
  - apply dy_head_elem. vm_compute. reflexivity.
  - decide_dbs.
  - vm_compute. reflexivity.
  - apply dy_head_elem. vm_compute. reflexivity.
  - vm_compute. reflexivity.
Defined.

Lemma dynamo_outcome_fenced_witness :
  let p := simOutcome JobStateCompleted "1" "w1" in
  (execOp enough (OSetState p) claimedEnv).2 = Some None ∧
  ∃ now pre j post d1 d2, runMoves (step (K := nat)) pre (dbAfter claimedEnv) = Some d1 ∧
    db_jobs d1 !! sp_ID p = Some j ∧ dj_State j = JobStateRunning ∧ MatchesClaim p (dj_WorkerID j) (dj_AttemptNum j) = true ∧
    step (MReq (settleRequest (S := Sim) p now j) true) d1 = Some d2 ∧
    db_jobs d2 !! sp_ID p = Some (applyActions (if sp_Yield p then yieldActions (dj_Queue j) else settleActions p now j) j) ∧
    runMoves (step (K := nat)) post d2 = Some (dbAfter (execOp enough (OSetState p) claimedEnv).1).
Proof.
  cbv zeta. split; [vm_compute; reflexivity|].
  refine (dynamo_outcome_fenced enough (simOutcome JobStateCompleted "1" "w1") claimedEnv dy_claimed_history _). vm_compute. reflexivity.
Defined.

(** ** What does not hold *)

(** A lease is taken over 50 milliseconds before it runs out: the text of the expiry
    is before the text of the clock. *)
Lemma dynamo_lease_taken_early :
  let elect w ttl := OElect (mkLeaderElectParams "scheduler" w ttl) in
  let e1 := (execOp enough (elect "w1" (10 * Second + 550 * Millisecond)) (simEnv emptyDb noon [])).1 in
  let e2 := simEnv (dbAfter e1) (noon + 10 * Second + 500 * Millisecond) [] in
  (li_ExpiresAt <$> db_leaders (dbAfter e1) !! "scheduler") = Some (noon + 10 * Second + 550 * Millisecond) ∧
  (execOp enough (elect "w2" (10 * Second)) e2).2 = Some (true, None).
Proof. vm_compute. done. Qed.

(** A transaction is cancelled, by another one for example; the job is answered as a
    duplicate, although nobody has its key. *)
Lemma dynamo_cancelled_is_dropped :
  let r := execOp enough (OInsert [simParams "mail" "k"]) (simEnv emptyDb noon [([], Cancelled)]) in
  r.2 = Some (Ok [mkJobInsertResult None true]) ∧ db_jobs (dbAfter r.1) = ∅ ∧ db_uniq (dbAfter r.1) = ∅.
Proof. vm_compute. done. Qed.

(** Two jobs wait; the update of the second fails.  The fetch answers no job, and the
    first is running. *)
Lemma dynamo_fetch_drops_claims :
  let e := (execOp enough (OInsert [simParams "mail" ""; simParams "mail" ""]) (simEnv emptyDb noon [])).1 in
  let r := execOp enough (OFetch (simFetch "w1")) (simEnv (dbAfter e) noon [([], Runs); ([], Runs); ([], Runs); ([], Runs); ([], Fails)]) in
  match r.2 with Some (rows, Some _) => rows = [] | _ => False end ∧
  (dj_State <$> db_jobs (dbAfter r.1) !! "1") = Some JobStateRunning.
Proof. vm_compute. done. Qed.

(** The worker that holds the claim settles the job; the item is read as it was
    before the claim, and the outcome is refused as stale.  The job stays running. *)
Lemma dynamo_stale_read_loses_outcome :
  let e := mkDyEnv (mkSim (dbAfter claimedEnv) 2 [] (Some (dbAfter insertedEnv))) (frozenClock noon) in
  let r := execOp enough (OSetState (simOutcome JobStateCompleted "1" "w1")) e in
  r.2 = Some (Some (jobError ErrStaleClaim "1")) ∧
  ((λ j, (dj_State j, dj_WorkerID j)) <$> db_jobs (dbAfter r.1) !! "1") = Some (JobStateRunning, "w1").
Proof. vm_compute. done. Qed.

(** A job of the same unique key has been inserted after the first was done; to
    delete the first lets the key of the second go, and a third gets it. *)
Lemma dynamo_delete_frees_live_key :
  let e1 := (execOp enough (OSetState (simOutcome JobStateCompleted "1" "w1")) claimedEnv).1 in
  let r2 := execOp enough (OInsert [simParams "mail" "k"]) e1 in
  let e3 := (execOp enough (ODelete "1") r2.1).1 in
  let r4 := execOp enough (OInsert [simParams "mail" "k"]) e3 in
  let inserted (r : option (result (list JobInsertResult))) := match r with Some (Ok rs) => ir_UniqueSkip <$> rs | _ => [] end in
  inserted r2.2 = [false] ∧ inserted r4.2 = [false] ∧
  (λ j, (dj_State j, dj_UniqueKey j)) <$> (map_to_list (db_jobs (dbAfter r4.1))).*2 = [(JobStateAvailable, "k"); (JobStateAvailable, "k")].
Proof. vm_compute. done. Qed.
