(* ===== verification/Sql.v ===== *)
(** * The SQL backends: rows, statements and the database

    What driver/pgxv5 and driver/stdlib have in common: the tables, the statements
    the code sends, as data, and a class of what the client libraries offer, with or
    without a transaction.  The database is not part of the repository;
    SqlLaws.v gives the statements their meaning, and says what the documentation
    of the databases says of their execution.

    [None] is NULL.  A comparison with NULL is not true.  The columns of a row are
    what scanning them answers.  A clock is taken to show a year of four digits, which
    is what can be encoded in the entry of a failed attempt.  The identifiers of the statements stand for the text
    of the queries in the code. *)

From S2P Require Import Prelude GoBase Json Codec Driver Memory.
From Stdlib Require Import ZArith Lia.

(** ** Rows *)

Record jobRecord := mkJobRecord {
  c_id : Z;
  c_queue : string;
  c_kind : string;
  c_args : string;
  c_state : string;
  c_priority : Z;
  c_run_at : Instant;
  c_created_at : Instant;
  c_attempted_at : option Instant;
  c_started_at : option Instant;
  c_lease_expires_at : option Instant;
  c_finalized_at : option Instant;
  c_attempt_num : Z;
  c_max_retry : Z;
  c_timeout_ms : Z;
  c_unique_key : option string;
  c_worker_id : option string;
  c_tags : list string;
  c_errors : list AttemptError;
  c_pipeline_id : string
}.

Definition eta_record (r : jobRecord) : jobRecord :=
  mkJobRecord (c_id r) (c_queue r) (c_kind r) (c_args r) (c_state r) (c_priority r) (c_run_at r) (c_created_at r)
    (c_attempted_at r) (c_started_at r) (c_lease_expires_at r) (c_finalized_at r) (c_attempt_num r) (c_max_retry r)
    (c_timeout_ms r) (c_unique_key r) (c_worker_id r) (c_tags r) (c_errors r) (c_pipeline_id r).
Definition put_id : Z → jobRecord → jobRecord := ltac:(setter eta_record c_id).
Definition put_state : string → jobRecord → jobRecord := ltac:(setter eta_record c_state).
Definition put_run_at : Instant → jobRecord → jobRecord := ltac:(setter eta_record c_run_at).
Definition put_attempted_at : option Instant → jobRecord → jobRecord := ltac:(setter eta_record c_attempted_at).
Definition put_started_at : option Instant → jobRecord → jobRecord := ltac:(setter eta_record c_started_at).
Definition put_lease_expires_at : option Instant → jobRecord → jobRecord := ltac:(setter eta_record c_lease_expires_at).
Definition put_finalized_at : option Instant → jobRecord → jobRecord := ltac:(setter eta_record c_finalized_at).
Definition put_attempt_num : Z → jobRecord → jobRecord := ltac:(setter eta_record c_attempt_num).
Definition put_unique_key : option string → jobRecord → jobRecord := ltac:(setter eta_record c_unique_key).
Definition put_worker_id : option string → jobRecord → jobRecord := ltac:(setter eta_record c_worker_id).
Definition put_errors : list AttemptError → jobRecord → jobRecord := ltac:(setter eta_record c_errors).

Record queueRecord := mkQueueRecord { k_name : string; k_paused : bool; k_created_at : Instant; k_updated_at : Instant }.
Record leaderRecord := mkLeaderRecord { l_worker_id : string; l_expires_at : Instant }.

#[export] Instance jobRecord_eq_dec : EqDecision jobRecord.
Proof. solve_decision. Defined.
#[export] Instance queueRecord_eq_dec : EqDecision queueRecord.
Proof. solve_decision. Defined.
#[export] Instance leaderRecord_eq_dec : EqDecision leaderRecord.
Proof. solve_decision. Defined.

(** ** Conditions and assignments *)

(** The conjuncts of a WHERE clause.  [IsIDText] and [CreatedBeforeText] compare the
    identifier with a text;
    [WorkerIfGiven] is [$6 = '' OR worker_id = $6], [AttemptIfGiven] is
    [$7 = 0 OR attempt_num = $7]. *)
Inductive where_ :=
| IsID (id : Z)
| IsIDText (id : string)
| IDIn (ids : list Z)
| IsQueue (queue : string)
| IsKind (kind : string)
| StateIs (s : string)
| StateIn (l : list string)
| RunAtLe (t : Instant)
| WorkerIs (w : string)
| AttemptIs (n : Z)
| WorkerIfGiven (w : string)
| AttemptIfGiven (n : Z)
| LeaseOver (at_ before : Instant)
| KeyIs (key : string)
| CreatedBefore (at_ : Instant) (id : Z)
| CreatedBeforeText (at_ : Instant) (id : string).

(** The assignments of a SET clause.  [FreeKey b] is
    [CASE WHEN b AND unique_key NOT LIKE 'uf2_%' THEN NULL ELSE unique_key END]. *)
Inductive set_ :=
| ToState (s : string)
| ToAttemptedAt (t : option Instant)
| ToStartedAt (t : option Instant)
| ToLease (t : option Instant)
| ToFinalizedAt (t : Instant)
| ToRunAt (t : Instant)
| ToWorker (w : option string)
| AddAttempt (n : Z)
| CoalesceFinalized (t : option Instant)
| CoalesceRunAt (t : option Instant)
| FreeKey (terminal : bool)
| AppendErrors (l : list AttemptError).

#[export] Instance where_eq_dec : EqDecision where_.
Proof. solve_decision. Defined.
#[export] Instance set_eq_dec : EqDecision set_.
Proof. solve_decision. Defined.

(** [key LIKE 'uf2_%']: the underscore stands for any character. *)
Definition likeUf2 (key : string) : bool := HasPrefix key "uf2" && (3 <? Z.of_nat (String.length key)).

(** ** Statements *)

(** An update answers the rows that it counts as affected; the code looks at their
    number only. *)
Inductive stmt :=
| InsertJob (r : jobRecord)                              (* or nothing, RETURNING; the id is the database's *)
| InsertRow (r : jobRecord)                              (* LastInsertId *)
| SelectJob (w : where_)
| SelectJobs (ws : list where_) (limit : Z)              (* created_at DESC, id DESC *)
| SelectIDs (ids : list Z)
| CountStates (queue : string)
| SelectDue (locked : bool) (queue : string) (now : Instant) (limit : Z)
| ClaimJobs (queue : string) (now : Instant) (limit : Z) (sets : list set_)
| UpdateJobs (ws : list where_) (sets : list set_)
| DeleteJobs (w : where_)
| SelectQueue (name : string)
| UpsertQueue (name : string) (paused : bool) (now : Instant)
| SelectQueues (after : option string) (limit : Z)
| UpsertLeader (name workerID : string) (expiresAt now : Instant)
| UpdateLeader (name workerID : string) (expiresAt now : Instant)
| InsertLeader (name workerID : string) (expiresAt : Instant)
| SelectLeader (name : string)
| DeleteLeader (name workerID : string)
| InsertCursor (id : string) (at_ : Instant)             (* or nothing *)
| SelectCursor (id : string)
| UpdateCursor (id : string) (next expected : Instant).

(** The rows of a query, or what an Exec counts. *)
Definition reply (q : stmt) : Type :=
  match q with
  | InsertJob _ | SelectJob _ => option jobRecord
  | InsertRow _ => Z
  | SelectJobs _ _ | SelectIDs _ | ClaimJobs _ _ _ _ => list jobRecord
  | CountStates _ => list (string * Z)
  | SelectDue _ _ _ _ | UpdateJobs _ _ | DeleteJobs _ => list Z
  | SelectQueue _ => option queueRecord
  | UpsertQueue _ _ _ | InsertLeader _ _ _ => unit
  | SelectQueues _ _ => list queueRecord
  | UpsertLeader _ _ _ _ | UpdateLeader _ _ _ _ | DeleteLeader _ _ | InsertCursor _ _ | UpdateCursor _ _ _ => bool
  | SelectLeader _ => option leaderRecord
  | SelectCursor _ => option Instant
  end.

Class Sql (S : Type) := {
  sq_call (tx : option nat) (q : stmt) : S → S * result (reply q);
  sq_Begin (tx : option nat) : S → S * result nat;          (* in a transaction: a savepoint *)
  sq_Commit (tx : nat) : S → S * option error;
  sq_Rollback (tx : nat) : S → S * option error;
  sq_ErrNoRows : error
}.

Section driver.
Context {S : Type} `{Sql S}.

Record SqEnv := mkSqEnv { sv_svc : S; sv_clk : Clock }.

Definition io (A : Type) : Type := SqEnv → SqEnv * A.

#[global] Instance sqio_ret : MRet io := λ A a e, (e, a).
#[global] Instance sqio_bind : MBind io := λ A B f m e, let '(e', a) := m e in f a e'.

Definition onService {A} (f : S → S * A) : io A := λ e, let '(s, a) := f (sv_svc e) in (mkSqEnv s (sv_clk e), a).
Definition clkNow : io Instant := λ e, let '(now, clk) := Now (sv_clk e) in (mkSqEnv (sv_svc e) clk, now).
Definition call (tx : option nat) (q : stmt) : io (result (reply q)) := onService (sq_call tx q).
End driver.

(** ** What both drivers do with a row *)

(** [strconv.ParseInt(s, 10, 64)]. *)
Definition parseDigits (s : string) : option Z := match s with EmptyString => None | _ => parse_digits s 0 end.
Definition parseSigned (s : string) : option Z :=
  match s with
  | String c r => if (code c =? 43)%N then parseDigits r else if (code c =? 45)%N then Z.opp <$> parseDigits r else parseDigits s
  | EmptyString => None
  end.
Definition ParseInt (s : string) : result Z :=
  match parseSigned s with
  | None => Err (ENew ("strconv.ParseInt: parsing " +:+ quoted s +:+ ": invalid syntax"))
  | Some z => if decide (is_int64 z) then Ok z else Err (ENew ("strconv.ParseInt: parsing " +:+ quoted s +:+ ": value out of range"))
  end.

Definition scanJobRow (r : jobRecord) : JobRow :=
  mkJobRow (FormatInt (c_id r)) (c_queue r) (c_kind r) (c_args r) (c_state r) (c_priority r) (c_run_at r) (c_created_at r)
    (c_attempted_at r) (c_started_at r) (c_lease_expires_at r) (c_finalized_at r) (c_attempt_num r) (c_max_retry r)
    (durMul (c_timeout_ms r) Millisecond) (c_tags r) (c_errors r) (default "" (c_unique_key r)) (default "" (c_worker_id r)) (c_pipeline_id r).

Definition scanQueueRow (r : queueRecord) : QueueRow := mkQueueRow (k_name r) (k_paused r) (k_created_at r) (k_updated_at r).

Definition errOf {A} (r : result A) : option error := match r with Ok _ => None | Err err => Some err end.
Definition boolOrErr (r : result bool) : bool * option error := match r with Ok b => (b, None) | Err err => (false, Some err) end.

(** [RowsAffected]. *)
Definition RowsAffected (ids : list Z) : Z := Z.of_nat (length ids).

(** ** What both drivers make of their parameters *)

(** A row to insert. *)
Definition newRecord (p : JobInsertParams) (now : Instant) : jobRecord :=
  let runAt := if IsZero (ip_RunAt p) then now else ip_RunAt p in
  let state := if After runAt now then JobStateScheduled else JobStateAvailable in
  mkJobRecord 0 (ip_Queue p) (ip_Kind p) (ip_Args p) state (ip_Priority p) runAt now None None None None 0 (ip_MaxRetry p)
    (durDiv (ip_Timeout p) Millisecond) (if bool_decide (ip_UniqueKey p ≠ "") then Some (ip_UniqueKey p) else None) None
    (ip_Tags p) [] (ip_PipelineID p).

(** The clauses that [jobList] adds, in their order. *)
Definition listWhere (params : JobListParams) : list where_ :=
  (if bool_decide (jl_Queue params ≠ "") then [IsQueue (jl_Queue params)] else []) ++
  (if bool_decide (jl_State params ≠ "") then [StateIs (jl_State params)] else []) ++
  (if bool_decide (jl_Kind params ≠ "") then [IsKind (jl_Kind params)] else []).

Definition statsOf (queue : string) (counts : list (string * Z)) : QueueStats :=
  foldl (λ stats c, mkQueueStats (qs_Queue stats) (<[c.1 := c.2]> (qs_States stats)) (wrap64 (qs_Total stats + c.2)))
    (mkQueueStats queue ∅ 0) counts.

Definition leaseOf (params : FetchParams) (now : Instant) : option Instant :=
  if 0 <? fp_LeaseDuration params then Some (Add now (fp_LeaseDuration params)) else None.

(** The entry of a failed attempt, after JSON: its texts are valid UTF-8. *)
Definition encodedError (at_ : Instant) (attempt : Z) (msg trace : string) : AttemptError :=
  mkAttemptError at_ attempt (validUTF8 msg) (validUTF8 trace).

Definition claimSets (params : FetchParams) (now : Instant) : list set_ :=
  [ToState JobStateRunning; ToAttemptedAt (Some now); ToStartedAt None; ToLease (leaseOf params now); AddAttempt 1;
   ToWorker (Some (fp_WorkerID params))].

Definition fetchLimit (limit : Z) : Z := if limit <=? 0 then 1 else limit.

Definition rescueWhere (params : JobRescueParams) : list where_ :=
  [IsQueue (rp_Queue params); StateIs JobStateRunning; LeaseOver (rp_At params) (rp_Before params)].
Definition rescueSets : list set_ :=
  [ToState JobStateAvailable; ToAttemptedAt None; ToStartedAt None; ToLease None; ToWorker None].

Definition renewalUntil (params : JobHeartbeatParams) : Instant :=
  if IsZero (hp_LeaseExpiresAt params) then hp_At params else hp_LeaseExpiresAt params.

Definition claimedBy (id w : string) (attempt : Z) : list where_ :=
  [IsIDText id; StateIs JobStateRunning; WorkerIs w; AttemptIs attempt].

(** The job that a statement is about, by its number or by its text, and the claim
    that it must be in. *)
Definition fence (job : where_) (params : JobSetStateParams) : list where_ :=
  [job; StateIs JobStateRunning; WorkerIfGiven (sp_ExpectedWorkerID params); AttemptIfGiven (sp_ExpectedAttempt params)].

Definition yieldSets : list set_ :=
  [ToState JobStateAvailable; AddAttempt (-1); ToAttemptedAt None; ToStartedAt None; ToLease None; ToWorker None].

Definition isTerminalState (s : string) : bool := bool_decide (s ∈ [JobStateCompleted; JobStateDiscarded; JobStateCancelled]).

Definition mainSets (params : JobSetStateParams) (finalizedAt : option Instant) : list set_ :=
  let retry := bool_decide (sp_State params = JobStateRetryable) in
  [ToState (if retry then JobStateAvailable else sp_State params); ToWorker None; ToLease None; CoalesceFinalized finalizedAt;
   CoalesceRunAt (if retry && negb (IsZero (sp_RetryAt params)) then Some (sp_RetryAt params) else None);
   FreeKey (isTerminalState (sp_State params))].
Definition settleSets (params : JobSetStateParams) (errs : list AttemptError) (finalizedAt : option Instant) : list set_ :=
  mainSets params finalizedAt ++ [AppendErrors errs].

Definition staleClaimIfNoRows (id : string) (r : result (list Z)) : option error :=
  match r with
  | Err err => Some err
  | Ok ids => if RowsAffected ids =? 0 then Some (jobError ErrStaleClaim id) else None
  end.

Definition cancelWhere (job : where_) : list where_ := [job; StateIn [JobStateAvailable; JobStateScheduled]].
Definition cancelSets (now : Instant) : list set_ := [ToState JobStateCancelled; ToFinalizedAt now; FreeKey true].
Definition notCancellable (id : string) : error :=
  EWrap "" (ESentinel ErrConflict) (": job " +:+ quoted id +:+ " cannot be cancelled in its current state").

Definition notFoundIfNoRows (id : string) (r : result (list Z)) : option error :=
  match r with
  | Err err => Some err
  | Ok ids => if RowsAffected ids =? 0 then Some (jobError ErrNotFound id) else None
  end.

Definition rescheduleSets (params : RescheduleParams) : list set_ := [ToState JobStateScheduled; ToRunAt (rs_RunAt params)].

Definition emptyCursorResult : ScheduleCursorResult := mkScheduleCursorResult zeroTime false.
