(* ===== verification/SqlLaws.v ===== *)
(** * The SQL backends: what a statement means, and what the databases promise

    A [move] is a statement with its answer.  Outside of a transaction a statement is
    atomic: it locks the rows that it changes, and looks at its conditions once more
    when it has waited for a lock.  Within one it is seen by nobody before the commit;
    then everything that it has changed or locked happens at once ([lasting]), and
    the rows it has locked have not changed until then.  A statement that fails may
    or may not have been carried out.

    The parameters are what differs from one database to the next: how precise an
    instant is, how instants are compared, which texts are equal and how names are
    ordered, what becomes of the text of the arguments, which text is which
    identifier, and whether an update counts the rows it has found or those it has
    changed.  Instants are those of one time zone: SQLite compares their texts.

    A backend is an executor of operations, with the pool or in a transaction, and a
    promise for each operation: which statements it has sent when it gives an answer.
    If every operation keeps its promise then so does a program, one operation after
    the other; and everything that a transaction has changed or locked happens at one
    moment, when it is committed. *)

From S2P Require Import Prelude GoBase Json Codec Driver Memory.
From S2P Require Export Moves.
From S2P Require Import Sql.
From Stdlib Require Import ZArith Lia.

Definition jobStates : list string :=
  [JobStateAvailable; JobStateRunning; JobStateScheduled; JobStateRetryable; JobStateCompleted; JobStateDiscarded; JobStateCancelled].

Record Db := mkDb {
  db_jobs : gmap Z jobRecord;
  db_used : gset Z;                                        (* the identifiers that were ever given *)
  db_queues : gmap string queueRecord;
  db_leaders : gmap string leaderRecord;
  db_cursors : gmap string Instant
}.

#[export] Instance Db_eq_dec : EqDecision Db.
Proof. solve_decision. Defined.

Definition eta_db (d : Db) : Db := mkDb (db_jobs d) (db_used d) (db_queues d) (db_leaders d) (db_cursors d).
Definition set_jobs : gmap Z jobRecord → Db → Db := ltac:(setter eta_db db_jobs).
Definition set_used : gset Z → Db → Db := ltac:(setter eta_db db_used).
Definition set_queues : gmap string queueRecord → Db → Db := ltac:(setter eta_db db_queues).
Definition set_leaders : gmap string leaderRecord → Db → Db := ltac:(setter eta_db db_leaders).
Definition set_cursors : gmap string Instant → Db → Db := ltac:(setter eta_db db_cursors).

(** What differs from one database to the next.  [pa_le a b]: the stored instant [a]
    is not after [b].  Two texts are equal if [pa_col] makes the same of them: MySQL
    compares the columns of these tables without regard to case.  [pa_fold] is what
    LIKE makes of letters. *)
Record params := mkParams {
  pa_stamp : Instant → Instant;
  pa_le : Instant → Instant → bool;
  pa_col : string → string;
  pa_fold : string → string;
  pa_nameLt : string → string → bool;
  pa_json : string → string;
  pa_idText : string → Z → bool;
  pa_idBefore : Z → string → bool;
  pa_found : bool
}.

Inductive move := MReq (q : stmt) (a : reply q).

Section meaning.
Context (pa : params).
Abbreviation stamp := (pa_stamp pa).
Abbreviation le := (pa_le pa).
Abbreviation col := (pa_col pa).

Definition same (a b : string) : bool := bool_decide (col a = col b).
Definition sameOpt (a : option string) (b : string) : bool := match a with Some x => same x b | None => false end.

Definition holdsWhere (r : jobRecord) (w : where_) : bool :=
  match w with
  | IsID id => c_id r =? id
  | IsIDText t => pa_idText pa t (c_id r)
  | IDIn ids => bool_decide (c_id r ∈ ids)
  | IsQueue q => same (c_queue r) q
  | IsKind k => same (c_kind r) k
  | StateIs s => same (c_state r) s
  | StateIn l => existsb (same (c_state r)) l
  | RunAtLe t => le (c_run_at r) t
  | WorkerIs w => sameOpt (c_worker_id r) w
  | AttemptIs n => c_attempt_num r =? n
  | WorkerIfGiven w => same w "" || sameOpt (c_worker_id r) w
  | AttemptIfGiven n => (n =? 0) || (c_attempt_num r =? n)
  | LeaseOver at_ before =>
      match c_lease_expires_at r with
      | Some t => le t at_
      | None => match c_attempted_at r with Some t => le t before | None => false end
      end
  | KeyIs key => sameOpt (c_unique_key r) key
  | CreatedBefore at_ id => negb (le (stamp at_) (c_created_at r)) || (le (c_created_at r) at_ && (c_id r <? id))
  | CreatedBeforeText at_ id => negb (le (stamp at_) (c_created_at r)) || (le (c_created_at r) at_ && pa_idBefore pa (c_id r) id)
  end.
Definition matches (ws : list where_) (r : jobRecord) : bool := forallb (holdsWhere r) ws.

Definition applySet (r : jobRecord) (s : set_) : jobRecord :=
  match s with
  | ToState s => put_state s r
  | ToAttemptedAt t => put_attempted_at (stamp <$> t) r
  | ToStartedAt t => put_started_at (stamp <$> t) r
  | ToLease t => put_lease_expires_at (stamp <$> t) r
  | ToFinalizedAt t => put_finalized_at (Some (stamp t)) r
  | ToRunAt t => put_run_at (stamp t) r
  | ToWorker w => put_worker_id w r
  | AddAttempt n => put_attempt_num (c_attempt_num r + n) r
  | CoalesceFinalized t => match t with Some t => put_finalized_at (Some (stamp t)) r | None => r end
  | CoalesceRunAt t => match t with Some t => put_run_at (stamp t) r | None => r end
  | FreeKey b =>
      match c_unique_key r with Some k => if b && negb (likeUf2 (pa_fold pa k)) then put_unique_key None r else r | None => r end
  | AppendErrors l => put_errors (c_errors r ++ l) r
  end.
Definition applySets (sets : list set_) (r : jobRecord) : jobRecord := foldl applySet r sets.

(** A new row, as it is stored. *)
Definition storedRecord (id : Z) (r : jobRecord) : jobRecord :=
  mkJobRecord id (c_queue r) (c_kind r) (pa_json pa (c_args r)) (c_state r) (c_priority r) (stamp (c_run_at r)) (stamp (c_created_at r))
    (stamp <$> c_attempted_at r) (stamp <$> c_started_at r) (stamp <$> c_lease_expires_at r) (stamp <$> c_finalized_at r)
    (c_attempt_num r) (c_max_retry r) (c_timeout_ms r) (c_unique_key r) (c_worker_id r) (c_tags r) (c_errors r) (c_pipeline_id r).

Definition rows (d : Db) : list jobRecord := (map_to_list (db_jobs d)).*2.
Definition keyTaken (key : option string) (d : Db) : bool :=
  match key with Some k => existsb (λ r, sameOpt (c_unique_key r) k) (rows d) | None => false end.

(** created_at DESC, id DESC. *)
Definition listedFirst (a b : jobRecord) : bool :=
  if le (c_created_at a) (c_created_at b) && le (c_created_at b) (c_created_at a) then c_id b <? c_id a
  else negb (le (c_created_at a) (c_created_at b)).
(** priority DESC, run_at, created_at, id. *)
Definition dueFirst (a b : jobRecord) : bool :=
  let differ x y := negb (le x y && le y x) in
  if negb (c_priority a =? c_priority b) then c_priority b <? c_priority a
  else if differ (c_run_at a) (c_run_at b) then negb (le (c_run_at b) (c_run_at a))
  else if differ (c_created_at a) (c_created_at b) then negb (le (c_created_at b) (c_created_at a))
  else c_id a <? c_id b.

Definition selectJobs (ws : list where_) (limit : Z) (d : Db) : list jobRecord :=
  take (Z.to_nat limit) (sort_by listedFirst (filter (λ r, matches ws r = true) (rows d))).

Definition dueWhere (queue : string) (now : Instant) : list where_ :=
  [IsQueue queue; StateIn [JobStateAvailable; JobStateScheduled]; RunAtLe now].

(** Rows that match, each one once. *)
Definition someOf (ws : list where_) (ids : list Z) (d : Db) : bool :=
  bool_decide (NoDup ids) && forallb (λ id, match db_jobs d !! id with Some r => matches ws r | None => false end) ids.

(** Clauses that name the rows: all that match are found.  An update of a queue passes
    by the rows that come to match while it runs. *)
Definition pinned (ws : list where_) : bool :=
  match ws with IsID _ :: _ | IsIDText _ :: _ | IDIn _ :: _ => true | _ => false end.

Definition affected (sets : list set_) (r : jobRecord) : bool := pa_found pa || bool_decide (applySets sets r ≠ r).
Definition touched (ws : list where_) (sets : list set_) (d : Db) : list Z :=
  c_id <$> filter (λ r, matches ws r && affected sets r = true) (rows d).

Definition updateRows (sets : list set_) (ids : list Z) (d : Db) : Db :=
  set_jobs (foldr (λ id jobs, alter (applySets sets) id jobs) (db_jobs d) ids) d.

Definition electable (now : Instant) (w : string) (l : leaderRecord) : bool := le (l_expires_at l) now || same (l_worker_id l) w.

(** The counts by state: a group shows the state of one of its rows. *)
Definition countsOf (queue : string) (d : Db) : gmap string Z :=
  foldr (λ r m, if same (c_queue r) queue then <[col (c_state r) := default 0 (m !! col (c_state r)) + 1]> m else m) ∅ (rows d).
Definition showsState (queue : string) (d : Db) (s : string) : bool :=
  existsb (λ r, same (c_queue r) queue && bool_decide (c_state r = s)) (rows d).

Definition selectQueues (after : option string) (limit : Z) (d : Db) : list queueRecord :=
  take (Z.to_nat limit) (sort_by (λ a b, pa_nameLt pa (k_name a) (k_name b))
    (filter (λ q, match after with Some n => pa_nameLt pa n (k_name q) | None => true end = true) (map_to_list (db_queues d)).*2)).

Definition given (b : bool) (d : Db) : option Db := if b then Some d else None.
(** A write that is made, or not, as the answer says. *)
Definition ifMade (ok : bool) (d' d : Db) (a : bool) : option Db := if bool_decide (a = ok) then Some (if ok then d' else d) else None.

Definition sameMembers (l1 l2 : list Z) : bool := bool_decide (NoDup l1) && bool_decide ((list_to_set l1 : gset Z) = list_to_set l2).

(** A new row, if its identifier is new and its key is free. *)
Definition newRow (id : Z) (r : jobRecord) (d : Db) : option Db :=
  if bool_decide (id ∉ db_used d) && negb (keyTaken (c_unique_key r) d)
  then Some (set_used ({[id]} ∪ db_used d) (set_jobs (<[id := storedRecord id r]> (db_jobs d)) d)) else None.

(** What a statement makes of the tables, and whether it can give that answer. *)
Definition serve (q : stmt) : reply q → Db → option Db :=
  match q with
  | InsertJob r => λ a d,
      match a with
      | None => given (keyTaken (c_unique_key r) d) d
      | Some r' => if bool_decide (r' = storedRecord (c_id r') r) then newRow (c_id r') r d else None
      end
  | InsertRow r => λ a d, newRow a r d
  | SelectJob w => λ a d,
      given match a with
            | Some r => bool_decide (db_jobs d !! c_id r = Some r) && holdsWhere r w
            | None => forallb (λ r, negb (holdsWhere r w)) (rows d)
            end d
  | SelectJobs ws limit => λ a d, given (bool_decide (a = selectJobs ws limit d)) d
  | SelectIDs ids => λ a d,
      given (forallb (λ r, bool_decide (db_jobs d !! c_id r = Some r)) a && sameMembers (c_id <$> a) (filter (λ id, is_Some (db_jobs d !! id)) ids)) d
  | CountStates queue => λ a d,
      given (bool_decide (NoDup (col <$> a.*1)) && forallb (showsState queue d) a.*1 &&
             bool_decide ((list_to_map ((λ c, (col c.1, c.2)) <$> a) : gmap string Z) = countsOf queue d)) d
  | SelectDue locked queue now limit => λ a d,
      given (if locked : bool then someOf (dueWhere queue now) a d && (Z.of_nat (length a) <=? limit)
             else bool_decide (a = take (Z.to_nat limit) (c_id <$> sort_by dueFirst (filter (λ r, matches (dueWhere queue now) r = true) (rows d))))) d
  | ClaimJobs queue now limit sets => λ a d,
      if someOf (dueWhere queue now) (c_id <$> a) d && (Z.of_nat (length a) <=? limit) &&
         forallb (λ r, bool_decide (applySets sets <$> db_jobs d !! c_id r = Some r)) a
      then Some (updateRows sets (c_id <$> a) d) else None
  | UpdateJobs ws sets => λ a d,
      if someOf ws a d && (if pinned ws then sameMembers a (touched ws sets d) else true) then Some (updateRows sets a d) else None
  | DeleteJobs w => λ a d,
      if sameMembers a (c_id <$> filter (λ r, holdsWhere r w = true) (rows d)) then Some (set_jobs (foldr delete (db_jobs d) a) d) else None
  | SelectQueue name => λ a d, given (bool_decide (a = db_queues d !! col name)) d
  | UpsertQueue name paused now => λ _ d,
      let q := default (mkQueueRecord name paused (stamp now) (stamp now)) (db_queues d !! col name) in
      Some (set_queues (<[col name := mkQueueRecord (k_name q) paused (k_created_at q) (stamp now)]> (db_queues d)) d)
  | SelectQueues after limit => λ a d, given (bool_decide (a = selectQueues after limit d)) d
  | UpsertLeader name w expiresAt now => λ a d,
      ifMade match db_leaders d !! col name with None => true | Some l => electable now w l end
        (set_leaders (<[col name := mkLeaderRecord w (stamp expiresAt)]> (db_leaders d)) d) d a
  | UpdateLeader name w expiresAt now => λ a d,
      ifMade match db_leaders d !! col name with
             | Some l => electable now w l && (pa_found pa || bool_decide (mkLeaderRecord w (stamp expiresAt) ≠ l))
             | None => false
             end
        (set_leaders (<[col name := mkLeaderRecord w (stamp expiresAt)]> (db_leaders d)) d) d a
  | InsertLeader name w expiresAt => λ _ d,
      if bool_decide (db_leaders d !! col name = None) then Some (set_leaders (<[col name := mkLeaderRecord w (stamp expiresAt)]> (db_leaders d)) d) else None
  | SelectLeader name => λ a d, given (bool_decide (a = db_leaders d !! col name)) d
  | DeleteLeader name w => λ a d,
      ifMade match db_leaders d !! col name with Some l => same (l_worker_id l) w | None => false end
        (set_leaders (delete (col name) (db_leaders d)) d) d a
  | InsertCursor id at_ => λ a d, ifMade (bool_decide (db_cursors d !! col id = None)) (set_cursors (<[col id := stamp at_]> (db_cursors d)) d) d a
  | SelectCursor id => λ a d, given (bool_decide (a = db_cursors d !! col id)) d
  | UpdateCursor id next expected => λ a d,
      ifMade (bool_decide (db_cursors d !! col id = Some (stamp expected)) && (pa_found pa || bool_decide (stamp next ≠ stamp expected)))
        (set_cursors (<[col id := stamp next]> (db_cursors d)) d) d a
  end.

Definition step (m : move) (d : Db) : option Db := let 'MReq q a := m in serve q a d.
End meaning.

Lemma sq_given_Some b (d d' : Db) : given b d = Some d' → b = true ∧ d' = d.
Proof. unfold given. destruct b; naive_solver. Qed.
Lemma ifMade_Some ok d' d a d1 : ifMade ok d' d a = Some d1 → a = ok ∧ d1 = if ok then d' else d.
Proof. unfold ifMade. case_bool_decide; naive_solver. Qed.
Lemma ifMade_cases ok d' d a d1 : ifMade ok d' d a = Some d1 → a = false ∧ ok = false ∧ d1 = d ∨ a = true ∧ ok = true ∧ d1 = d'.
Proof. intros [-> ->]%ifMade_Some. destruct ok; auto. Qed.

(** What a transaction has changed or locked: the rest of it leaves no trace. *)
Definition lasting (m : move) : bool :=
  match m with
  | MReq (InsertJob _) a => if a then true else false
  | MReq (InsertRow _) _ => true
  | MReq (SelectDue locked _ _ _) _ => locked
  | MReq (ClaimJobs _ _ _ _) _ | MReq (UpsertQueue _ _ _) _ | MReq (InsertLeader _ _ _) _ => true
  | MReq (UpdateJobs _ _) a | MReq (DeleteJobs _) a => if a then false else true
  | MReq (UpsertLeader _ _ _ _) a | MReq (UpdateLeader _ _ _ _) a | MReq (DeleteLeader _ _) a | MReq (InsertCursor _ _) a
  | MReq (UpdateCursor _ _ _) a => a
  | _ => false
  end.

Definition allLasting (ms : list move) : list move := filter (λ m, lasting m = true) ms.

(** The rest of them leaves the tables as they are. *)
Lemma passing_same pa m d d' : lasting m = false → step pa m d = Some d' → d' = d.
Proof.
  destruct m as [q a]. cbn [SqlLaws.step]. intros Hl Hs. destruct q; cbn [lasting serve] in *; try done;
    try (by apply sq_given_Some in Hs as [_ ->]); try (apply ifMade_cases in Hs as [(-> & _ & ->)|(-> & _ & _)]; done).
  - destruct a; [done|]. by apply sq_given_Some in Hs as [_ ->].
  - destruct a; [|done]. destruct (_ && _); [|done]. injection Hs as <-. by destruct d.
  - destruct a; [|done]. destruct (sameMembers _ _); [|done]. injection Hs as <-. by destruct d.
Qed.

Lemma runMoves_lasting pa ms : ∀ d d', runMoves (step pa) ms d = Some d' → runMoves (step pa) (allLasting ms) d = Some d'.
Proof.
  unfold allLasting. induction ms as [|m ms IH]; intros d d'; cbn [runMoves]; [done|]. destruct (step pa m d) as [d1|] eqn:E; [|done]. intros Hr.
  rewrite filter_cons. case_decide as Hl; [cbn [runMoves]; rewrite E; by apply IH|].
  apply not_true_iff_false in Hl. rewrite <-(passing_same _ _ _ _ Hl E). by apply IH.
Qed.

(** A row is stored under its identifier, which has been used. *)
Record keyedDb (d : Db) : Prop := mkKeyed {
  kd_id id r : db_jobs d !! id = Some r → c_id r = id;
  kd_used id r : db_jobs d !! id = Some r → id ∈ db_used d
}.

Section steps.
Context (pa : params).
Abbreviation step := (step pa).

Lemma someOf_spec ws ids d : someOf pa ws ids d = true ↔
  NoDup ids ∧ ∀ id, id ∈ ids → ∃ r, db_jobs d !! id = Some r ∧ matches pa ws r = true.
Proof.
  unfold someOf. rewrite andb_true_iff, bool_decide_eq_true, forallb_forall. split; intros [Hn Ha]; (split; [done|]).
  - intros id Hid. apply list_elem_of_In, Ha in Hid. destruct (db_jobs d !! id); [eauto|done].
  - intros id Hid%list_elem_of_In. destruct (Ha _ Hid) as (r & -> & ?). done.
Qed.

Lemma alters_lookup sets ids (jobs : gmap Z jobRecord) i : NoDup ids →
  foldr (λ id jobs, alter (applySets pa sets) id jobs) jobs ids !! i = (if decide (i ∈ ids) then applySets pa sets <$> jobs !! i else jobs !! i).
Proof.
  induction 1 as [|id ids Hn Hd IH]; cbn [foldr]; [case_decide as Hi; [by apply elem_of_nil in Hi|done]|].
  destruct (decide (i = id)) as [->|Hne].
  - rewrite lookup_alter_eq, IH, decide_False, decide_True by (done || by left). done.
  - rewrite lookup_alter_ne, IH by done. destruct (decide (i ∈ ids)) as [Hi|Hi].
    + by rewrite decide_True by (by right).
    + rewrite decide_False; [done|]. by intros [?|?]%elem_of_cons.
Qed.

Lemma updateRows_lookup sets ids d i : NoDup ids →
  db_jobs (updateRows pa sets ids d) !! i = (if decide (i ∈ ids) then applySets pa sets <$> db_jobs d !! i else db_jobs d !! i).
Proof. apply alters_lookup. Qed.

Lemma deletes_lookup ids (jobs : gmap Z jobRecord) i : foldr delete jobs ids !! i = if decide (i ∈ ids) then None else jobs !! i.
Proof.
  induction ids as [|id ids IH]; cbn [foldr]; [case_decide as Hi; [by apply elem_of_nil in Hi|done]|].
  destruct (decide (i = id)) as [->|Hne]; [by rewrite lookup_delete_eq, decide_True by (by left)|].
  rewrite lookup_delete_ne, IH by done. destruct (decide (i ∈ ids)); [by rewrite decide_True by (by right)|].
  rewrite decide_False; [done|]. by intros [?|?]%elem_of_cons.
Qed.

Lemma applySet_frame r s : c_id (applySet pa r s) = c_id r.
Proof. destruct s; simpl; repeat case_match; done. Qed.
Lemma applySets_id sets : ∀ r, c_id (applySets pa sets r) = c_id r.
Proof. induction sets as [|s sets IH]; intros r; simpl; [done|]. by rewrite IH, applySet_frame. Qed.

Definition rowInserted (id : Z) (r : jobRecord) (d d' : Db) : Prop :=
  id ∉ db_used d ∧ keyTaken pa (c_unique_key r) d = false ∧
  db_jobs d' = <[id := storedRecord pa id r]> (db_jobs d) ∧ db_used d' = {[id]} ∪ db_used d.

Lemma newRow_inserted id r d d' : newRow pa id r d = Some d' → rowInserted id r d d'.
Proof.
  unfold newRow. destruct (_ && _) eqn:E; [|done]. intros [= <-]. apply andb_true_iff in E as [E1 E2]. bool_to_prop. by split_and!.
Qed.

Lemma rowInserted_keyed id r d d' : rowInserted id r d d' → keyedDb d → keyedDb d'.
Proof.
  intros (Hf & _ & H1 & H2) [Hi Hu]. split; rewrite H1, ?H2; intros i r0; rewrite lookup_insert_Some.
  - intros [[<- <-]|[_ ?]]; [done|by apply Hi].
  - intros [[<- <-]|[_ Hr]]; [set_solver|]. apply Hu in Hr. set_solver.
Qed.

(** What a statement does to the rows of the jobs. *)
Lemma sq_step_jobs m d d' : step m d = Some d' →
  match m with
  | MReq (InsertJob r) (Some r') => r' = storedRecord pa (c_id r') r ∧ rowInserted (c_id r') r d d'
  | MReq (InsertRow r) id => rowInserted id r d d'
  | MReq (UpdateJobs ws sets) ids => someOf pa ws ids d = true ∧ d' = updateRows pa sets ids d ∧
      (pinned ws = true → sameMembers ids (touched pa ws sets d) = true)
  | MReq (ClaimJobs queue now limit sets) a =>
      someOf pa (dueWhere queue now) (c_id <$> a) d = true ∧ d' = updateRows pa sets (c_id <$> a) d ∧
      Forall (λ r, applySets pa sets <$> db_jobs d !! c_id r = Some r) a
  | MReq (DeleteJobs w) ids => db_jobs d' = foldr delete (db_jobs d) ids ∧ db_used d' = db_used d
  | _ => db_jobs d' = db_jobs d ∧ db_used d' = db_used d
  end.
Proof.
  destruct m as [q a]. cbn [SqlLaws.step]. intros Hs. destruct q; cbn [serve] in Hs;
    try (apply sq_given_Some in Hs as [_ ->]; done); try (apply ifMade_Some in Hs as [_ ->]; by case_match); try (by injection Hs as <-).
  - destruct a as [r'|]; [|by apply sq_given_Some in Hs as [_ ->]]. case_bool_decide; [|done]. by apply newRow_inserted in Hs.
  - by apply newRow_inserted.
  - destruct (_ && _) eqn:E; [|done]. injection Hs as <-. apply andb_true_iff in E as [[E1 E2]%andb_true_iff E3].
    split_and!; [done..|]. apply Forall_forall. intros r Hr. rewrite forallb_forall in E3. apply list_elem_of_In, E3 in Hr. by bool_to_prop.
  - destruct (_ && _) eqn:E; [|done]. injection Hs as <-. apply andb_true_iff in E as [E1 E2]. split_and!; [done..|]. by intros Hp; rewrite Hp in E2.
Qed.

Lemma updateRows_keyed sets ids d : NoDup ids → keyedDb d → keyedDb (updateRows pa sets ids d).
Proof.
  intros Hn [Hi Hu]. split; intros id r; rewrite updateRows_lookup by done; case_decide; try (by apply Hi); try (by apply Hu).
  - intros (r0 & Hr & ->)%fmap_Some. rewrite applySets_id. by apply Hi.
  - intros (r0 & Hr & ->)%fmap_Some. by eapply Hu.
Qed.

Lemma sq_step_keyed m d d' : keyedDb d → step m d = Some d' → keyedDb d'.
Proof.
  intros Hk Hs. apply sq_step_jobs in Hs. destruct m as [q a]. destruct Hk as [Hi Hu].
  assert (db_jobs d' = db_jobs d ∧ db_used d' = db_used d → keyedDb d') as Hsame by (intros [H1 H2]; split; rewrite ?H1, ?H2; done).
  destruct q; try (by apply Hsame).
  - destruct a as [r'|]; [|by apply Hsame]. destruct Hs as [_ Hs]. by eapply rowInserted_keyed.
  - by eapply rowInserted_keyed.
  - destruct Hs as ([Hn _]%someOf_spec & -> & _). by apply updateRows_keyed.
  - destruct Hs as ([Hn _]%someOf_spec & -> & _). by apply updateRows_keyed.
  - destruct Hs as [H1 H2]. split; rewrite H1, ?H2; intros id r; rewrite deletes_lookup; case_decide; try done; [by apply Hi|by apply Hu].
Qed.
End steps.

(** ** What a call has done when it answers *)

Section service.
Context {S : Type} `{Sql S}.

(** A request that has failed: it may or may not have been carried out. *)
Definition tried (q : stmt) (ms : list move) : Prop := ms = [] ∨ ∃ a, ms = [MReq q a].

(** The statements that lock what they find, and so look at the latest state. *)
Definition locks (q : stmt) : bool :=
  match q with
  | SelectJob _ | SelectJobs _ _ | SelectIDs _ | CountStates _ | SelectDue false _ _ _ | SelectQueue _ | SelectQueues _ _ | SelectLeader _
  | SelectCursor _ => false
  | _ => true
  end.

(** What the statements of a transaction have seen: some state of the tables; and if
    they lock, with what the transaction has changed before, which still can happen. *)
Fixpoint consistent (pa : params) (before ms : list move) : Prop :=
  match ms with
  | [] => True
  | MReq q a :: ms' =>
      (∃ d0 d d', keyedDb d0 ∧ runMoves (step pa) (if locks q then allLasting before else []) d0 = Some d ∧ step pa (MReq q a) d = Some d') ∧
      consistent pa (before ++ [MReq q a]) ms'
  end.

Lemma consistent_app pa l2 : ∀ l1 before, consistent pa before l1 → consistent pa (before ++ l1) l2 → consistent pa before (l1 ++ l2).
Proof.
  induction l1 as [|[q a] l1 IH]; intros before; simpl; [by rewrite app_nil_r|]. intros [H1 H2] H3. split; [done|]. apply IH; [done|].
  by rewrite <-app_assoc.
Qed.

(** What a program does outside of a transaction, or within one, where it is kept
    for the commit. *)
Definition effect (pa : params) (db : S → Db) (pending : S → nat → list move) (tx : option nat) (s s' : S) (acts : list (act move)) : Prop :=
  match tx with
  | None => happens (step pa) (db s) (db s') acts ∧ ∀ c, pending s' c = pending s c
  | Some t => others (step pa) (db s) (db s') ∧ (∀ c, pending s' c = if decide (c = t) then pending s c ++ did acts else pending s c) ∧
      consistent pa (pending s t) (did acts)
  end.

(** At the commit, everything happens at once. *)
Definition atOnce (pa : params) (ms : list move) (d d' : Db) : Prop :=
  ∃ d1 d2, others (step pa) d d1 ∧ runMoves (step pa) ms d1 = Some d2 ∧ others (step pa) d2 d'.

Class SqlLaws := {
  sq_pa : params;
  sq_db : S → Db;
  sq_pending : S → nat → list move;
  sq_noRows_foreign : foreignErr sq_ErrNoRows;
  sq_idText_law t id1 id2 : pa_idText sq_pa t id1 = true → pa_idText sq_pa t id2 = true → id1 = id2;
  sq_states_law s1 s2 : s1 ∈ jobStates → s2 ∈ jobStates → pa_col sq_pa s1 = pa_col sq_pa s2 → s1 = s2;
  sq_call_law tx q s : keyedDb (sq_db s) → ∃ acts,
    effect sq_pa sq_db sq_pending tx s (sq_call tx q s).1 acts ∧
    match (sq_call tx q s).2 with
    | Ok a => did acts = [MReq q a] ∧ ∃ d d', keyedDb d ∧ step sq_pa (MReq q a) d = Some d'
    | Err e => foreignErr e ∧ tried q (did acts)
    end;
  sq_begin_law tx s :
    others (step sq_pa) (sq_db s) (sq_db (sq_Begin tx s).1) ∧
    match (sq_Begin tx s).2, tx with
    | Ok t, None => ∀ c, sq_pending (sq_Begin tx s).1 c = if decide (c = t) then [] else sq_pending s c
    | Err _, _ => ∀ c, sq_pending (sq_Begin tx s).1 c = sq_pending s c
    | _, _ => True
    end;
  sq_commit_law t s : keyedDb (sq_db s) →
    match (sq_Commit t s).2 with
    | None => atOnce sq_pa (allLasting (sq_pending s t)) (sq_db s) (sq_db (sq_Commit t s).1)
    | Some e => foreignErr e ∧ ∃ ms, (ms = [] ∨ ms = allLasting (sq_pending s t)) ∧ atOnce sq_pa ms (sq_db s) (sq_db (sq_Commit t s).1)
    end;
  sq_rollback_law t s : others (step sq_pa) (sq_db s) (sq_db (sq_Rollback t s).1)
}.
End service.
Arguments SqlLaws S {H}.

(** ** The logic of programs *)

Section logic.
Context {S : Type} `{Sql S} `{!SqlLaws S}.
#[local] Abbreviation io := (Sql.io (S := S)).
Abbreviation dbOf e := (sq_db (sv_svc e)).
Abbreviation effectOf tx e e' := (effect sq_pa sq_db sq_pending tx (sv_svc e) (sv_svc e')).

(** Within [tx], or outside, the program [m] makes own moves and gives an answer that
    [Q] describes. *)
Definition does (tx : option nat) {A} (m : io A) (Q : list (act move) → A → Prop) : Prop :=
  ∀ e, keyedDb (dbOf e) → ∃ acts, effectOf tx e (m e).1 acts ∧ Q acts (m e).2.

Lemma effect_nothing tx (s : S) : effect sq_pa sq_db sq_pending tx s s [].
Proof.
  destruct tx as [t|]; [split_and!; [reflexivity| |done]|split; [by apply happens_others; reflexivity|done]].
  intros c. case_decide; [|done]. by rewrite app_nil_r.
Qed.

Lemma effect_trans tx (s1 s2 s3 : S) a1 a2 :
  effect sq_pa sq_db sq_pending tx s1 s2 a1 → effect sq_pa sq_db sq_pending tx s2 s3 a2 → effect sq_pa sq_db sq_pending tx s1 s3 (a1 ++ a2).
Proof.
  destruct tx as [t|].
  - intros (H1 & P1 & C1) (H2 & P2 & C2). split_and!; [by etransitivity| |].
    + intros c. rewrite P2, P1, did_app. case_decide; [by rewrite app_assoc|done].
    + rewrite P1, decide_True in C2 by done. rewrite did_app. by apply consistent_app.
  - intros [H1 P1] [H2 P2]. split; [by eapply happens_trans|]. intros c. by rewrite P2, P1.
Qed.

Lemma effect_keyed tx (s s' : S) acts : effect sq_pa sq_db sq_pending tx s s' acts → keyedDb (sq_db s) → keyedDb (sq_db s').
Proof.
  destruct tx; intros [He _] Hk; [by eapply others_inv; [apply sq_step_keyed|..]|by eapply happens_inv; [apply sq_step_keyed|..]].
Qed.

Lemma sq_weaken {A} tx (m : io A) (Q Q' : list (act move) → A → Prop) : does tx m Q → (∀ acts a, Q acts a → Q' acts a) → does tx m Q'.
Proof. intros Hm HQ e He. destruct (Hm e He) as (acts & ? & ?). eauto. Qed.

Lemma sq_ret {A} tx (a : A) (Q : list (act move) → A → Prop) : Q [] a → does tx (mret a) Q.
Proof. intros HQ e _. exists []. split; [apply effect_nothing|done]. Qed.

Lemma sq_bind {A B} tx (m : io A) (f : A → io B) (Q : list (act move) → B → Prop) :
  does tx m (λ a1 x, does tx (f x) (λ a2 y, Q (a1 ++ a2) y)) → does tx (m ≫= f) Q.
Proof.
  intros Hm e He. destruct (Hm e He) as (a1 & Hh1 & Hf). unfold mbind, sqio_bind. destruct (m e) as [e1 x]. simpl in *.
  destruct (Hf e1) as (a2 & Hh2 & HQ); [by eapply effect_keyed|]. exists (a1 ++ a2). split; [by eapply effect_trans|done].
Qed.

Lemma sq_now tx Q : (∀ now, Q [] now) → does tx clkNow Q.
Proof.
  intros HQ e _. exists []. unfold clkNow. destruct (Now (sv_clk e)) as [now clk]. simpl. split; [apply effect_nothing|done].
Qed.

Definition possible (m : move) : Prop := ∃ d d', keyedDb d ∧ step sq_pa m d = Some d'.

Lemma sq_call_then {A} tx q (f : result (reply q) → io A) (Q : list (act move) → A → Prop) :
  (∀ acts a, possible (MReq q a) → did acts = [MReq q a] → does tx (f (Ok a)) (λ acts2 y, Q (acts ++ acts2) y)) →
  (∀ acts e, foreignErr e → tried q (did acts) → does tx (f (Err e)) (λ acts2 y, Q (acts ++ acts2) y)) →
  does tx (r ← call tx q; f r) Q.
Proof.
  intros HQ HE. apply sq_bind. intros e He. unfold call, onService. destruct (sq_call_law tx q (sv_svc e) He) as (acts & Hh & Hr).
  destruct (sq_call tx q (sv_svc e)) as [s r]. simpl in *. exists acts. split; [done|].
  destruct r as [a|err]; destruct Hr; [by apply HQ|by apply HE].
Qed.

(** A call whose answer is made into the operation's. *)
Lemma sq_call_ret {A} tx q (f : result (reply q) → A) (Q : list (act move) → A → Prop) :
  (∀ acts a, possible (MReq q a) → did acts = [MReq q a] → Q acts (f (Ok a))) →
  (∀ acts e, foreignErr e → tried q (did acts) → Q acts (f (Err e))) →
  does tx (r ← call tx q; mret (f r)) Q.
Proof.
  intros HQ HE. apply sq_call_then; intros; apply sq_ret; rewrite app_nil_r; auto.
Qed.
End logic.

(** * Programs and transactions *)

Abbreviation answers := (list {o : driverOp & ans o}).

Section executor.
Context {S : Type} `{Sql S}.
#[local] Abbreviation io := (Sql.io (S := S)).
Context (exec : option nat → ∀ o : driverOp, io (ans o)).

(** A program: one operation after the other. *)
Fixpoint execAll (tx : option nat) (os : list driverOp) (e : SqEnv (S := S)) : SqEnv (S := S) * answers :=
  match os with
  | [] => (e, [])
  | o :: rest =>
      let '(e1, a) := exec tx o e in
      let '(e2, as_) := execAll tx rest e1 in
      (e2, existT o a :: as_)
  end.

(** A transaction: the program, and then the commit. *)
Definition inTransaction (os : list driverOp) : io (result (answers * option error)) :=
  b ← onService (sq_Begin None);
  match b with
  | Err err => mret (Err err)
  | Ok tx => as_ ← execAll (Some tx) os; c ← onService (sq_Commit tx); mret (Ok (as_, c))
  end.
End executor.

Section promises.
Context (promises : ∀ o : driverOp, list move → ans o → Prop).

(** What a program answered, operation by operation. *)
Definition kept (groups : list (list (act move))) (as_ : answers) : Prop :=
  Forall2 (λ acts (oa : {o : driverOp & ans o}), promises (projT1 oa) (did acts) (projT2 oa)) groups as_.
End promises.

Section programs.
Context {S : Type} `{Sql S} `{!SqlLaws S}.
#[local] Abbreviation io := (Sql.io (S := S)).
Abbreviation dbOf e := (sq_db (sv_svc e)).
Abbreviation effectOf tx e e' := (effect sq_pa sq_db sq_pending tx (sv_svc e) (sv_svc e')).
Context (exec : option nat → ∀ o : driverOp, io (ans o)) (promises : ∀ o : driverOp, list move → ans o → Prop).
Context (exec_keeps : ∀ tx o, does tx (exec tx o) (λ acts a, promises o (did acts) a)).
#[local] Abbreviation execAll := (execAll exec).
#[local] Abbreviation kept := (kept promises).

Lemma program_keeps tx os : does tx (execAll tx os) (λ acts as_, ∃ groups, acts = mjoin groups ∧ kept groups as_ ∧ (λ oa, projT1 oa) <$> as_ = os).
Proof.
  induction os as [|o os IH]; intros e He.
  - exists []. split; [apply effect_nothing|]. exists []. split_and!; [done|constructor|done].
  - simpl. destruct (exec_keeps tx o e He) as (a1 & H1 & Hp). pose proof (effect_keyed _ _ _ _ H1 He) as He1.
    destruct (exec tx o e) as [e1 a]. simpl in *. destruct (IH e1 He1) as (a2 & H2 & groups & -> & Hk & Ho).
    destruct (execAll tx os e1) as [e2 as_]. simpl in *. exists (a1 ++ mjoin groups). split; [by eapply effect_trans|].
    exists (a1 :: groups). split_and!; [done|by constructor|simpl; by f_equal].
Qed.

Lemma atOnce_others pa ms d d1 d2 d3 : others (step pa) d d1 → atOnce pa ms d1 d2 → others (step pa) d2 d3 → atOnce pa ms d d3.
Proof.
  intros H1 (x & y & Ha & Hb & Hc) H2. exists x, y. split_and!; [by etransitivity|done|by etransitivity].
Qed.

(** Every operation keeps its promise, outside of a transaction or within one. *)
Lemma programs_refine tx os e : keyedDb (dbOf e) →
  ∃ groups, effectOf tx e (execAll tx os e).1 (mjoin groups) ∧ kept groups (execAll tx os e).2 ∧
    (λ oa, projT1 oa) <$> (execAll tx os e).2 = os.
Proof. intros He. destruct (program_keeps tx os e He) as (acts & Hh & groups & -> & ? & ?). eauto. Qed.

(** What the operations of a transaction have changed or locked happens at one moment,
    if it is committed; nothing of it happens if it could not be begun, and all or
    nothing if the commit fails. *)
Lemma transactions_atomic os e : keyedDb (dbOf e) →
  let e' := (inTransaction exec os e).1 in
  match (inTransaction exec os e).2 with
  | Err _ => others (step sq_pa) (dbOf e) (dbOf e')
  | Ok (as_, c) => ∃ groups ms, kept groups as_ ∧ (λ oa, projT1 oa) <$> as_ = os ∧ consistent sq_pa [] (did (mjoin groups)) ∧
      atOnce sq_pa ms (dbOf e) (dbOf e') ∧
      (ms = allLasting (did (mjoin groups)) ∨ ms = [] ∧ c ≠ None)
  end.
Proof.
  intros He. unfold inTransaction, onService, mbind, sqio_bind, mret, sqio_ret.
  destruct (sq_begin_law None (sv_svc e)) as [Hb Ht]. destruct (sq_Begin None (sv_svc e)) as [s1 [t|err]]; cbn [fst snd sv_svc] in *; [|done].
  pose proof (others_inv _ keyedDb (sq_step_keyed sq_pa) _ _ He Hb) as He1.
  destruct (program_keeps (Some t) os (mkSqEnv s1 (sv_clk e)) He1) as (acts & (Hd & Hp & Hcon) & groups & -> & Hk & Ho).
  destruct (execAll (Some t) os _) as [e2 as_]. simpl in *. pose proof (others_inv _ keyedDb (sq_step_keyed sq_pa) _ _ He1 Hd) as He2.
  pose proof (sq_commit_law t (sv_svc e2) He2) as Hc. rewrite Hp, Ht, decide_True, decide_True in Hc by done. simpl in Hc.
  rewrite Ht, decide_True in Hcon by done. destruct (sq_Commit t (sv_svc e2)) as [s3 [err|]]; simpl in *.
  - destruct Hc as (_ & ms & Hms & Hc). exists groups, ms. split_and!; [done..| |].
    + eapply atOnce_others; [|exact Hc|reflexivity]. by etransitivity.
    + destruct Hms as [Hms|Hms]; subst ms; [by right|by left].
  - exists groups, (allLasting (did (mjoin groups))). split_and!; [done..| |by left].
    eapply atOnce_others; [|exact Hc|reflexivity]. by etransitivity.
Qed.
End programs.
