(* ===== verification/SqlSafety.v ===== *)
(** * The SQL backends: what no interleaving of statements can break

    A claim stays until a statement whose conditions admit it has changed its state,
    its worker or its attempt, or has deleted the row; the conditions of another claim
    do not.  No two rows have the same unique key.  A lease is taken over when it has
    run out.  These hold of every database that the laws describe, and of every
    program that sends these statements. *)

From S2P Require Import Prelude GoBase Json Codec Driver Moves Memory Sql SqlLaws.
From Stdlib Require Import ZArith Lia.

Section safety.
Context (pa : params).
Abbreviation step := (step pa).
Abbreviation same := (same pa).

(** What makes two states equal for the database makes them equal. *)
Definition statesApart : Prop := ∀ s1 s2, s1 ∈ jobStates → s2 ∈ jobStates → pa_col pa s1 = pa_col pa s2 → s1 = s2.

(** ** Claims *)

Definition ownedBy (w : string) (attempt : Z) (r : jobRecord) : Prop :=
  same (c_state r) JobStateRunning = true ∧ sameOpt pa (c_worker_id r) w = true ∧ c_attempt_num r = attempt.
Definition heldRow (d : Db) (id : Z) (w : string) (attempt : Z) : Prop := ∃ r, db_jobs d !! id = Some r ∧ ownedBy w attempt r.

(** The fields that make a claim: state, worker and attempt. *)
Definition touchesClaim (s : set_) : bool :=
  match s with ToState _ | ToWorker _ | AddAttempt _ => true | _ => false end.

(** Whether a clause can hold of a row that the worker runs as this attempt. *)
Definition admitsClaim (w : string) (attempt : Z) (c : where_) : bool :=
  match c with
  | StateIs s => same JobStateRunning s
  | StateIn l => existsb (same JobStateRunning) l
  | WorkerIs x => same w x
  | WorkerIfGiven x => same x "" || same w x
  | AttemptIs n => attempt =? n
  | AttemptIfGiven n => (n =? 0) || (attempt =? n)
  | _ => true
  end.

Definition releasesClaim (id : Z) (w : string) (attempt : Z) (m : move) : bool :=
  match m with
  | MReq (UpdateJobs ws sets) ids => bool_decide (id ∈ ids) && existsb touchesClaim sets && forallb (admitsClaim w attempt) ws
  | MReq (DeleteJobs _) ids => bool_decide (id ∈ ids)
  | _ => false
  end.

Lemma same_trans a b c : same a b = true → same a c = same b c.
Proof. unfold SqlLaws.same. intros Hab. bool_to_prop. by rewrite Hab. Qed.

Lemma sq_owned_admitted r w a ws : ownedBy w a r → matches pa ws r = true → forallb (admitsClaim w a) ws = true.
Proof.
  intros (Hs & Hw & Ha). unfold matches. rewrite !forallb_forall. intros Hm c Hc. specialize (Hm c Hc).
  destruct (c_worker_id r) as [w'|] eqn:Hwr; [|done]. simpl in Hw.
  destruct c; simpl in *; try done; rewrite ?Hwr in Hm; simpl in Hm.
  - by rewrite <-(same_trans _ _ s Hs).
  - rewrite existsb_exists in Hm |- *. destruct Hm as (s & Hin & Hm). exists s. split; [done|]. by rewrite <-(same_trans _ _ s Hs).
  - by rewrite <-(same_trans _ _ w0 Hw).
  - by rewrite <-Ha.
  - by rewrite <-(same_trans _ _ w0 Hw).
  - by rewrite <-Ha.
Qed.

Lemma sq_untouched_owned sets w a : existsb touchesClaim sets = false → ∀ r, ownedBy w a r → ownedBy w a (applySets pa sets r).
Proof.
  unfold applySets. induction sets as [|s sets IH]; simpl; [done|]. intros [Hs Ht]%orb_false_iff r Ho. apply IH; [done|].
  destruct s; simpl in *; try done; repeat case_match; done.
Qed.

Lemma claim_refuses_owned r w a queue now : statesApart → ownedBy w a r → matches pa (dueWhere queue now) r = false.
Proof.
  intros Hst (Hs & _). unfold matches, dueWhere. apply not_true_is_false. simpl. rewrite !andb_true_iff, !orb_true_iff.
  unfold SqlLaws.same in *. bool_to_prop. rewrite Hs. intros (_ & [Hx|[Hx|?]] & _); [| |done]; bool_to_prop; apply Hst in Hx; done || (unfold jobStates; set_solver).
Qed.

(** What a statement leaves of a claim that it does not release. *)
Lemma sq_step_held (m : move) d d' id w a :
  statesApart → keyedDb d → heldRow d id w a → step m d = Some d' → releasesClaim id w a m = false → heldRow d' id w a.
Proof.
  intros Hst [Hi Hu] (r & Hr & Ho) Hs Hf. apply sq_step_jobs in Hs. destruct m as [q b].
  assert (db_jobs d' = db_jobs d ∧ db_used d' = db_used d → heldRow d' id w a) as Hsame by (intros [H1 _]; exists r; by rewrite H1).
  assert (∀ i r', rowInserted pa i r' d d' → heldRow d' id w a) as Hnew.
  { intros i r' (Hn & _ & H1 & _). exists r. split; [|done]. rewrite H1, lookup_insert_ne; [done|]. intros <-. by apply Hu in Hr. }
  destruct q; try (by apply Hsame).
  - destruct b as [r'|]; [|by apply Hsame]. destruct Hs as [_ Hs]. by apply (Hnew (c_id r') r0).
  - by apply (Hnew b r0).
  - destruct Hs as (Hm & -> & _). apply someOf_spec in Hm as [Hn Hm]. exists r. split; [|done]. rewrite updateRows_lookup by done.
    rewrite decide_False; [done|]. intros (r' & Hr' & Hmr)%Hm. simplify_eq. by rewrite (claim_refuses_owned _ _ _ _ _ Hst Ho) in Hmr.
  - destruct Hs as (Hm & -> & _). apply someOf_spec in Hm as [Hn Hm]. unfold heldRow. rewrite updateRows_lookup by done. case_decide as Hin; [|by exists r].
    destruct (Hm _ Hin) as (r' & Hr' & Hmr). simplify_eq. simpl in Hf. rewrite bool_decide_eq_true_2, (sq_owned_admitted _ _ _ _ Ho Hmr), andb_true_r in Hf by done.
    exists (applySets pa sets r). rewrite Hr. split; [done|]. by apply sq_untouched_owned.
  - destruct Hs as [H1 _]. exists r. rewrite H1, deletes_lookup. simpl in Hf. bool_to_prop. by rewrite decide_False.
Qed.

Lemma sq_run_held (ms : list move) id w a : statesApart → ∀ d d', keyedDb d → heldRow d id w a → runMoves step ms d = Some d' →
  Forall (λ m, releasesClaim id w a m = false) ms → heldRow d' id w a.
Proof.
  intros Hst. induction ms as [|m ms IH]; intros d d' Hk Hh Hr Hn; cbn [runMoves] in *; [by simplify_eq|].
  destruct (step m d) as [d1|] eqn:Hs; [|done]. apply Forall_cons in Hn as [Hm Hn].
  eapply IH; [by eapply sq_step_keyed|by eapply sq_step_held|done|done].
Qed.

(** A statement that claims the row for the worker, as this attempt: it is waiting
    before, and held after. *)
Definition claimsRow (m : move) (id : Z) (w : string) (attempt : Z) : Prop :=
  ∀ d d', keyedDb d → step m d = Some d' →
    (∃ r, db_jobs d !! id = Some r ∧ existsb (same (c_state r)) [JobStateAvailable; JobStateScheduled] = true) ∧ heldRow d' id w attempt.

(** Between two claims of a row there is a release of the first one. *)
Lemma sq_claims_released m1 m2 mid id w1 a1 w2 a2 d d' : statesApart → keyedDb d →
  claimsRow m1 id w1 a1 → claimsRow m2 id w2 a2 → runMoves step (m1 :: mid ++ [m2]) d = Some d' →
  ∃ m, m ∈ mid ∧ releasesClaim id w1 a1 m = true.
Proof.
  intros Hst Hk C1 C2 Hr. apply (runMoves_split step []) in Hr as (d0 & d1 & [= <-] & H1 & Hr). apply runMoves_split in Hr as (d2 & d3 & Hmid & H2 & _).
  pose proof (sq_step_keyed _ _ _ _ Hk H1) as Hk1. pose proof (runMoves_inv step keyedDb (sq_step_keyed pa) _ _ _ Hk1 Hmid) as Hk2.
  destruct (decide (Exists (λ m, releasesClaim id w1 a1 m = true) mid)) as [He|He]; [by apply Exists_exists in He|].
  exfalso. destruct (C1 _ _ Hk H1) as [_ Hh]. destruct (C2 _ _ Hk2 H2) as [(r & Hr & Hw) _].
  destruct (sq_run_held mid id w1 a1 Hst _ _ Hk1 Hh Hmid) as (r' & Hr' & Hs & _).
  { apply not_Exists_Forall in He; [|intros x; apply _]. eapply Forall_impl; [exact He|]. intros m Hm. by apply not_true_is_false. }
  simplify_eq. simpl in Hw. rewrite !(same_trans _ _ _ Hs), orb_false_r in Hw. unfold SqlLaws.same in Hw.
  apply orb_true_iff in Hw as [Hw|Hw]; bool_to_prop; apply Hst in Hw; done || (unfold jobStates; set_solver).
Qed.

(** ** Unique keys *)

Definition keysUnique (d : Db) : Prop := ∀ i j ri rj ki kj, db_jobs d !! i = Some ri → db_jobs d !! j = Some rj →
  c_unique_key ri = Some ki → c_unique_key rj = Some kj → pa_col pa ki = pa_col pa kj → i = j.

Lemma applySet_key r s : c_unique_key (applySet pa r s) = c_unique_key r ∨ c_unique_key (applySet pa r s) = None.
Proof. destruct s; simpl; repeat case_match; auto. Qed.
Lemma applySets_key sets : ∀ r, c_unique_key (applySets pa sets r) = c_unique_key r ∨ c_unique_key (applySets pa sets r) = None.
Proof.
  unfold applySets. induction sets as [|s sets IH]; intros r; simpl; [by left|]. destruct (IH (applySet pa r s)) as [-> | ->]; [apply applySet_key|by right].
Qed.

Lemma keyFree k d i r : keyTaken pa (Some k) d = false → db_jobs d !! i = Some r → ∀ k', c_unique_key r = Some k' → pa_col pa k' ≠ pa_col pa k.
Proof.
  intros Hf Hr k' Hk Heq. apply not_true_iff_false in Hf. apply Hf. unfold keyTaken. apply existsb_exists. exists r. split.
  - apply list_elem_of_In. unfold rows. apply list_elem_of_fmap. exists (i, r). split; [done|]. by apply elem_of_map_to_list.
  - rewrite Hk. simpl. unfold SqlLaws.same. by apply bool_decide_eq_true.
Qed.

(** Rows that come from old ones, with their key or without. *)
Lemma keysUnique_from d d' : keysUnique d →
  (∀ i r', db_jobs d' !! i = Some r' → ∃ r, db_jobs d !! i = Some r ∧ (c_unique_key r' = c_unique_key r ∨ c_unique_key r' = None)) → keysUnique d'.
Proof.
  intros Hu Hfrom i j ri rj ki kj Hi Hj Hki Hkj Heq. destruct (Hfrom _ _ Hi) as (ri' & Hi' & [Hri|?]), (Hfrom _ _ Hj) as (rj' & Hj' & [Hrj|?]); try congruence.
  rewrite Hki in Hri. rewrite Hkj in Hrj. by eapply Hu.
Qed.

Lemma updateRows_keys sets ids d : NoDup ids → keysUnique d → keysUnique (updateRows pa sets ids d).
Proof.
  intros Hn Hu. eapply keysUnique_from; [exact Hu|]. intros i r'. rewrite updateRows_lookup by done. case_decide; [|by exists r'; auto].
  intros (r & Hr & ->)%fmap_Some. exists r. split; [done|]. apply applySets_key.
Qed.

Lemma rowInserted_keys id r d d' : rowInserted pa id r d d' → keysUnique d → keysUnique d'.
Proof.
  intros (_ & Hf & H1 & _) Hu.
  assert (∀ j rj ki kj, db_jobs d !! j = Some rj → c_unique_key r = Some ki → c_unique_key rj = Some kj → pa_col pa ki ≠ pa_col pa kj) as Hno.
  { intros j rj ki kj Hj Hki Hkj. rewrite Hki in Hf. apply not_eq_sym. by eapply keyFree. }
  intros i j ri rj ki kj. rewrite H1, !lookup_insert_Some. intros [[<- <-]|[_ Hi]] [[<- <-]|[_ Hj]] Hki Hkj Heqk; [done|..].
  - by destruct (Hno _ _ _ _ Hj Hki Hkj).
  - symmetry in Heqk. by destruct (Hno _ _ _ _ Hi Hkj Hki).
  - by eapply Hu.
Qed.

Lemma sq_step_keys (m : move) d d' : keysUnique d → step m d = Some d' → keysUnique d'.
Proof.
  intros Hu Hs. apply sq_step_jobs in Hs. destruct m as [q a].
  assert (db_jobs d' = db_jobs d ∧ db_used d' = db_used d → keysUnique d') as Hsame.
  { intros [H1 _]. eapply keysUnique_from; [exact Hu|]. rewrite H1. eauto. }
  destruct q; try (by apply Hsame).
  - destruct a as [r'|]; [|by apply Hsame]. destruct Hs as [_ Hs]. by eapply rowInserted_keys.
  - by eapply rowInserted_keys.
  - destruct Hs as ([Hn _]%someOf_spec & -> & _). by apply updateRows_keys.
  - destruct Hs as ([Hn _]%someOf_spec & -> & _). by apply updateRows_keys.
  - destruct Hs as [H1 _]. eapply keysUnique_from; [exact Hu|]. intros i r'. rewrite H1, deletes_lookup. case_decide; [done|]. eauto.
Qed.

(** No two rows ever have the same unique key. *)
Theorem sql_keys_unique (ms : list move) d d' : keysUnique d → runMoves step ms d = Some d' → keysUnique d'.
Proof. intros Hu Hr. by eapply (runMoves_inv step keysUnique sq_step_keys). Qed.

(** ** Leases *)

(** An election that was won, until when the lease then runs, and the clock of the
    winner. *)
Definition elects (name w : string) (expiresAt now : Instant) (m : move) : Prop :=
  m = MReq (UpsertLeader name w expiresAt now) true ∨ m = MReq (UpdateLeader name w expiresAt now) true.

(** The statements that write a lease, or give it up. *)
Definition leaseMove (name w : string) (m : move) : bool :=
  match m with
  | MReq (UpsertLeader n _ _ _) a | MReq (UpdateLeader n _ _ _) a => (a : bool) && same n name
  | MReq (InsertLeader n _ _) _ => same n name
  | MReq (DeleteLeader n x) a => (a : bool) && same n name && same w x
  | _ => false
  end.

Lemma same_ne a b : same a b = false → pa_col pa a ≠ pa_col pa b.
Proof. unfold SqlLaws.same. by intros ?%bool_decide_eq_false. Qed.

Lemma newRow_leaders id r d d' : newRow pa id r d = Some d' → db_leaders d' = db_leaders d.
Proof. unfold newRow. destruct (_ && _); [|done]. by intros [= <-]. Qed.

Lemma sq_step_lease (m : move) d d' name l : db_leaders d !! pa_col pa name = Some l → step m d = Some d' → leaseMove name (l_worker_id l) m = false →
  db_leaders d' !! pa_col pa name = Some l.
Proof.
  intros Hl Hs Hf. destruct m as [q a]. cbn [SqlLaws.step] in Hs.
  destruct q; cbn [serve] in Hs; try (apply sq_given_Some in Hs as [_ ->]; done); try (by injection Hs as <-);
    try (destruct (_ && _); [|done]; by injection Hs as <-); try (case_bool_decide; [|done]; injection Hs as <-);
    try (apply ifMade_cases in Hs as [(-> & _ & ->)|(-> & Hok & ->)]; [done|]); simpl in *; try done.
  - destruct a; [|by apply sq_given_Some in Hs as [_ ->]]. case_bool_decide; [|done]. by rewrite (newRow_leaders _ _ _ _ Hs).
  - rewrite lookup_insert_ne; [done|by apply same_ne].
  - rewrite lookup_insert_ne; [done|by apply same_ne].
  - rewrite lookup_insert_ne; [done|by apply same_ne].
  - apply andb_false_iff in Hf as [Hf|Hf]; [rewrite lookup_delete_ne; [done|by apply same_ne]|].
    destruct (decide (pa_col pa name0 = pa_col pa name)) as [Heq|]; [|by rewrite lookup_delete_ne].
    rewrite Heq, Hl in Hok. congruence.
Qed.

(** If two elections of different workers for one lease are both won, then somebody
    was elected in between, or the first has resigned, or its lease had run out. *)
Theorem sql_elections_apart name w1 exp1 now1 w2 exp2 now2 m1 m2 mid d d' : same w1 w2 = false →
  elects name w1 exp1 now1 m1 → elects name w2 exp2 now2 m2 → runMoves step (m1 :: mid ++ [m2]) d = Some d' →
  Exists (λ m, leaseMove name w1 m = true) mid ∨ pa_le pa (pa_stamp pa exp1) now2 = true.
Proof.
  intros Hw E1 E2 Hr. apply (runMoves_split step []) in Hr as (d0 & d1 & [= <-] & H1 & Hr). apply runMoves_split in Hr as (d2 & d3 & Hmid & H2 & _).
  destruct (decide (Exists (λ m, leaseMove name w1 m = true) mid)) as [He|He]; [by left|right].
  apply not_Exists_Forall in He; [|intros x; apply _].
  assert (db_leaders d1 !! pa_col pa name = Some (mkLeaderRecord w1 (pa_stamp pa exp1))) as Hl.
  { destruct E1 as [-> | ->]; cbn [SqlLaws.step serve] in H1; apply ifMade_Some in H1 as [<- ->]; simpl; apply lookup_insert_eq. }
  assert (db_leaders d2 !! pa_col pa name = Some (mkLeaderRecord w1 (pa_stamp pa exp1))) as Hl2.
  { clear H1 H2. revert d1 Hl Hmid. induction He as [|m ms Hm Hms IH]; intros d1 Hl Hr; cbn [runMoves] in Hr; [by simplify_eq|].
    destruct (step m d1) as [dm|] eqn:E; [|done]. eapply IH; [|done]. eapply sq_step_lease; [done..|]. by apply not_true_is_false. }
  destruct E2 as [-> | ->]; cbn [SqlLaws.step serve] in H2; apply ifMade_Some in H2 as [Ht _]; rewrite Hl2 in Ht; unfold electable in Ht;
    simpl in Ht; rewrite Hw, orb_false_r in Ht; [done|]. symmetry in Ht. by apply andb_true_iff in Ht as [? _].
Qed.
End safety.
