(* ===== verification/SqlSim.v ===== *)
(** * The SQL backends: databases that keep the laws

    A concrete database over the tables, with the parameters of PostgreSQL, SQLite or
    MySQL, so that the theorems can be run.  It answers a statement with what the
    statement makes of the tables, and refuses what cannot happen.  A transaction
    keeps its moves until the commit, which fails if they cannot happen any more.
    [sm_races] says, statement by statement outside of a transaction, what other
    programs do just before, and whether the statement fails. *)

From S2P Require Import Prelude GoBase Json Codec Driver Moves Memory Sql SqlLaws.
From Stdlib Require Import ZArith Lia.

(** Microseconds. *)
Definition micros (t : Instant) : Instant := t - t mod 1000.
Definition numeral (s : string) (id : Z) : bool := match ParseInt s with Ok n => n =? id | Err _ => false end.
Definition beforeNumeral (id : Z) (s : string) : bool := match ParseInt s with Ok n => id <? n | Err _ => false end.

Definition lowerChar (c : Ascii.ascii) : Ascii.ascii := if ((65 <=? code c) && (code c <=? 90))%N then Ascii.ascii_of_N (code c + 32) else c.
Fixpoint lower (s : string) : string := match s with EmptyString => EmptyString | String c r => String (lowerChar c) (lower r) end.

Definition postgresParams : params := mkParams micros (λ a b, a <=? micros b) (λ s, s) (λ s, s) str_lt (λ s, s) numeral beforeNumeral true.
Definition sqliteParams : params := mkParams (λ t, t) Z.leb (λ s, s) lower str_lt (λ s, s) numeral beforeNumeral true.
Definition mysqlParams : params := mkParams micros (λ a b, a <=? micros b) lower lower str_lt (λ s, s) numeral beforeNumeral false.

Record Sim := mkSim {
  sm_db : Db;
  sm_next : Z;
  sm_txs : list (list move);                                (* a transaction is its number *)
  sm_races : list (list move * bool)
}.

Definition simFailed : error := ENew "failed".

Section sim.
Context (pa : params).

Definition dueIDs (queue : string) (now : Instant) (limit : Z) (d : Db) : list Z :=
  take (Z.to_nat limit) (c_id <$> sort_by (dueFirst pa) (filter (λ r, matches pa (dueWhere queue now) r = true) (rows d))).

(** What the database answers. *)
Definition answer (next : Z) (q : stmt) (d : Db) : reply q :=
  match q with
  | InsertJob r => if keyTaken pa (c_unique_key r) d then None else Some (storedRecord pa next r)
  | InsertRow _ => next
  | SelectJob w => head (filter (λ r, holdsWhere pa r w = true) (rows d))
  | SelectJobs ws limit => selectJobs pa ws limit d
  | SelectIDs ids => omap (λ id, db_jobs d !! id) (sort_by Z.ltb ids)
  | CountStates queue => map_to_list (countsOf pa queue d)
  | SelectDue _ queue now limit => dueIDs queue now limit d
  | ClaimJobs queue now limit sets => omap (λ id, applySets pa sets <$> db_jobs d !! id) (dueIDs queue now limit d)
  | UpdateJobs ws sets => touched pa ws sets d
  | DeleteJobs w => c_id <$> filter (λ r, holdsWhere pa r w = true) (rows d)
  | SelectQueue name => db_queues d !! pa_col pa name
  | UpsertQueue _ _ _ | InsertLeader _ _ _ => tt
  | SelectQueues after limit => selectQueues pa after limit d
  | UpsertLeader name w _ now => match db_leaders d !! pa_col pa name with None => true | Some l => electable pa now w l end
  | UpdateLeader name w expiresAt now =>
      match db_leaders d !! pa_col pa name with
      | Some l => electable pa now w l && (pa_found pa || bool_decide (mkLeaderRecord w (pa_stamp pa expiresAt) ≠ l))
      | None => false
      end
  | SelectLeader name => db_leaders d !! pa_col pa name
  | DeleteLeader name w => match db_leaders d !! pa_col pa name with Some l => same pa (l_worker_id l) w | None => false end
  | InsertCursor id _ => bool_decide (db_cursors d !! pa_col pa id = None)
  | SelectCursor id => db_cursors d !! pa_col pa id
  | UpdateCursor id next expected =>
      bool_decide (db_cursors d !! pa_col pa id = Some (pa_stamp pa expected)) &&
      (pa_found pa || bool_decide (pa_stamp pa next ≠ pa_stamp pa expected))
  end.

(** A sequence goes on, too, when a row is not inserted. *)
Definition nextAfter (q : stmt) (next : Z) : Z := match q with InsertJob _ | InsertRow _ => next + 1 | _ => next end.

Definition raced (s : Sim) : Sim * bool :=
  match sm_races s with
  | [] => (s, false)
  | (ms, f) :: rest => (mkSim (default (sm_db s) (runMoves (step pa) ms (sm_db s))) (sm_next s) (sm_txs s) rest, f)
  end.

Definition pendingOf (s : Sim) (t : nat) : list move := default [] (sm_txs s !! t).

(** Within a transaction, the tables as it has changed them. *)
Definition viewOf (s : Sim) (t : nat) : option Db := runMoves (step pa) (pendingOf s t) (sm_db s).

Definition simCall (tx : option nat) (q : stmt) (s : Sim) : Sim * result (reply q) :=
  match tx with
  | None =>
      let '(s1, f) := raced s in
      let a := answer (sm_next s1) q (sm_db s1) in
      match (if f : bool then None else step pa (MReq q a) (sm_db s1)) with
      | Some d => (mkSim d (nextAfter q (sm_next s1)) (sm_txs s1) (sm_races s1), Ok a)
      | None => (s1, Err simFailed)
      end
  | Some t =>
      match viewOf s t with
      | Some d =>
          let a := answer (sm_next s) q d in
          match step pa (MReq q a) d with
          | Some _ => if decide (t < length (sm_txs s))%nat
                      then (mkSim (sm_db s) (nextAfter q (sm_next s)) (<[t := pendingOf s t ++ [MReq q a]]> (sm_txs s)) (sm_races s), Ok a)
                      else (s, Err simFailed)
          | None => (s, Err simFailed)
          end
      | None => (s, Err simFailed)
      end
  end.

Definition simBegin (tx : option nat) (s : Sim) : Sim * result nat :=
  (mkSim (sm_db s) (sm_next s) (sm_txs s ++ [[]]) (sm_races s), Ok (length (sm_txs s))).

Definition simCommit (t : nat) (s : Sim) : Sim * option error :=
  match runMoves (step pa) (allLasting (pendingOf s t)) (sm_db s) with
  | Some d => (mkSim d (sm_next s) (<[t := []]> (sm_txs s)) (sm_races s), None)
  | None => (s, Some simFailed)
  end.

Definition simRollback (t : nat) (s : Sim) : Sim * option error := (s, None).
End sim.

Definition simSql (pa : params) : Sql Sim := {|
  sq_call := simCall pa;
  sq_Begin := simBegin;
  sq_Commit := simCommit pa;
  sq_Rollback := simRollback;
  sq_ErrNoRows := ENew "no rows in result set"
|}.

(** ** The laws *)

Section laws.
Context (pa : params).
#[local] Existing Instance simSql.

Lemma sq_sim_foreign msg : foreignErr (ENew msg).
Proof. by repeat split. Qed.

Lemma sq_raced_others s : others (step pa) (sm_db s) (sm_db (raced pa s).1) ∧ sm_txs (raced pa s).1 = sm_txs s.
Proof.
  unfold raced. destruct (sm_races s) as [|[ms f] rest]; [done|]. simpl. split; [|done].
  destruct (runMoves (step pa) ms (sm_db s)) as [d|] eqn:E; simpl; [by exists ms|reflexivity].
Qed.

Lemma pendingOf_txs s1 s2 c : sm_txs s1 = sm_txs s2 → pendingOf s1 c = pendingOf s2 c.
Proof. unfold pendingOf. by intros ->. Qed.

(** The law of a call. *)
Definition calls (tx : option nat) (q : stmt) (s : Sim) (x : Sim * result (reply q)) : Prop := ∃ acts,
  effect pa sm_db pendingOf tx s x.1 acts ∧
  match x.2 with
  | Ok a => did acts = [MReq q a] ∧ ∃ d d', keyedDb d ∧ step pa (MReq q a) d = Some d'
  | Err e => foreignErr e ∧ tried q (did acts)
  end.

Lemma calls_failed tx q s s1 : others (step pa) (sm_db s) (sm_db s1) → sm_txs s1 = sm_txs s → calls tx q s (s1, Err simFailed).
Proof.
  intros Ho Ht. exists []. split; [|split; [apply sq_sim_foreign|by left]].
  destruct tx as [t|]; [split_and!; [done| |done]|split; [by apply happens_others|]]; intros c; rewrite (pendingOf_txs s1 s) by done; [|done].
  case_decide; [by rewrite app_nil_r|done].
Qed.

Lemma sim_calls tx q s : keyedDb (sm_db s) → calls tx q s (simCall pa tx q s).
Proof.
  intros Hk. unfold simCall. destruct tx as [t|].
  - destruct (viewOf pa s t) as [d|] eqn:Hv; [|by apply calls_failed]. cbv zeta.
    destruct (step pa (MReq q (answer pa (sm_next s) q d)) d) as [d'|] eqn:Hs; [|by apply calls_failed].
    destruct (decide _) as [Hlt|]; [|by apply calls_failed]. exists [Did (MReq q (answer pa (sm_next s) q d))]. split.
    + split_and!; [reflexivity| |].
      * intros c. unfold pendingOf. simpl. case_decide as Hc; [subst c; by rewrite list_lookup_insert_eq|by rewrite list_lookup_insert_ne].
      * simpl. split; [|done]. destruct (locks q).
        -- exists (sm_db s), d, d'. split_and!; [done| |done]. by apply runMoves_lasting.
        -- exists d, d, d'. split_and!; [|done..]. by eapply (runMoves_inv (step pa) keyedDb (sq_step_keyed pa)).
    + split; [done|]. exists d, d'. split; [|done]. by eapply (runMoves_inv (step pa) keyedDb (sq_step_keyed pa)).
  - pose proof (sq_raced_others s) as [Ho Ht]. destruct (raced pa s) as [s1 f]. cbn [fst] in Ho, Ht. cbv zeta.
    destruct (if f then None else step pa _ (sm_db s1)) as [d|] eqn:Hs; [|by apply calls_failed]. destruct f; [done|].
    exists (Did <$> [MReq q (answer pa (sm_next s1) q (sm_db s1))]). split.
    + split; [|intros c; by apply pendingOf_txs]. eapply happens_between; [exact Ho| |reflexivity].
      apply happens_did. cbn [runMoves]. by rewrite Hs.
    + split; [done|]. exists (sm_db s1), d. split; [|done]. by eapply (others_inv (step pa) keyedDb (sq_step_keyed pa)).
Qed.

Lemma sim_begins tx s c : pendingOf (simBegin tx s).1 c = if decide (c = length (sm_txs s)) then [] else pendingOf s c.
Proof.
  unfold pendingOf. simpl. case_decide as Hc; [by rewrite Hc, list_lookup_middle|].
  destruct (decide (c < length (sm_txs s))%nat); [by rewrite lookup_app_l|]. rewrite !lookup_ge_None_2; [done|lia|rewrite length_app; simpl; lia].
Qed.

Definition simSqlLaws (Hid : ∀ t id1 id2, pa_idText pa t id1 = true → pa_idText pa t id2 = true → id1 = id2)
  (Hst : ∀ s1 s2, s1 ∈ jobStates → s2 ∈ jobStates → pa_col pa s1 = pa_col pa s2 → s1 = s2) : SqlLaws (H := simSql pa) Sim.
Proof.
  refine (@Build_SqlLaws Sim (simSql pa) pa sm_db pendingOf (sq_sim_foreign _) Hid Hst sim_calls _ _ _).
  - intros tx s. split; [reflexivity|]. simpl. destruct tx; [done|]. apply (sim_begins None).
  - intros t s Hk. simpl. unfold simCommit. destruct (runMoves _ _ _) as [d|] eqn:E; simpl.
    + by exists (sm_db s), d.
    + split; [apply sq_sim_foreign|]. exists []. split; [by left|]. by exists (sm_db s), (sm_db s).
  - intros t s. reflexivity.
Defined.
End laws.

Lemma numeral_one t id1 id2 : numeral t id1 = true → numeral t id2 = true → id1 = id2.
Proof. unfold numeral. destruct (ParseInt t); [|done]. rewrite !Z.eqb_eq. congruence. Qed.

Lemma jobStates_lower : (lower <$> jobStates) = jobStates.
Proof. done. Qed.
Lemma lower_states s1 s2 : s1 ∈ jobStates → s2 ∈ jobStates → lower s1 = lower s2 → s1 = s2.
Proof.
  intros H1 H2. unfold jobStates in *. repeat (apply elem_of_cons in H1 as [->|H1]; [|]); repeat (apply elem_of_cons in H2 as [->|H2]; [|]);
    try (by apply elem_of_nil in H1); try (by apply elem_of_nil in H2); by intros.
Qed.

Definition postgresLaws : SqlLaws (H := simSql postgresParams) Sim := simSqlLaws postgresParams numeral_one (λ _ _ _ _ Heq, Heq).
Definition sqliteLaws : SqlLaws (H := simSql sqliteParams) Sim := simSqlLaws sqliteParams numeral_one (λ _ _ _ _ Heq, Heq).
Definition mysqlLaws : SqlLaws (H := simSql mysqlParams) Sim := simSqlLaws mysqlParams numeral_one lower_states.
