(* ===== verification/SqlPgx.v ===== *)
(** * driver/pgxv5: the operations

    Every operation is one statement, or two; each may be called with the pool or with
    a transaction [tx]. *)

From S2P Require Import Prelude GoBase Json Codec Driver Memory Sql.
From Stdlib Require Import ZArith Lia.

Section driver.
Context {S : Type} `{Sql S}.
#[local] Abbreviation io := (Sql.io (S := S)).

Definition invalidID (id : string) (err : error) : error := EWrap ("invalid job id " +:+ quoted id +:+ ": ") err "".

(** ** Inserting *)

Definition findUniqueJob (tx : option nat) (uniqueKey : string) : io (result JobRow) :=
  r ← call tx (SelectJob (KeyIs uniqueKey));
  mret match r with Err err => Err err | Ok (Some row) => Ok (scanJobRow row) | Ok None => Err sq_ErrNoRows end.

(** One round of the loop of [jobInsertMany]. *)
Definition insertParam (tx : option nat) (now : Instant) (p : JobInsertParams) : io (result JobInsertResult) :=
  r ← call tx (InsertJob (newRecord p now));
  match r with
  | Err err => mret (Err (EWrap "insert job: " err ""))
  | Ok (Some row) => mret (Ok (mkJobInsertResult (Some (scanJobRow row)) false))
  | Ok None =>
      f ← findUniqueJob tx (ip_UniqueKey p);
      mret match f with Err ferr => Err ferr | Ok existing => Ok (mkJobInsertResult (Some existing) true) end
  end.

Fixpoint insertParams (tx : option nat) (now : Instant) (params : list JobInsertParams) : io (result (list JobInsertResult)) :=
  match params with
  | [] => mret (Ok [])
  | p :: ps =>
      r ← insertParam tx now p;
      match r with
      | Err err => mret (Err err)
      | Ok res => rs ← insertParams tx now ps; mret match rs with Err err => Err err | Ok rest => Ok (res :: rest) end
      end
  end.

Definition jobInsertMany (tx : option nat) (params : list JobInsertParams) : io (result (list JobInsertResult)) :=
  now ← clkNow; insertParams tx now params.

(** ** Reading *)

Definition jobGetByID (tx : option nat) (id : string) : io (result JobRow) :=
  match ParseInt id with
  | Err err => mret (Err (invalidID id err))
  | Ok idInt =>
      r ← call tx (SelectJob (IsID idInt));
      mret match r with
           | Err err => Err err
           | Ok None => Err (jobError ErrNotFound id)
           | Ok (Some row) => Ok (scanJobRow row)
           end
  end.

Definition cursorWhere (cursor : string) : result (list where_) :=
  if bool_decide (cursor = "") then Ok []
  else match DecodeJobCursor cursor with
       | Err err => Err err
       | Ok (cursorAt, cursorID) =>
           match ParseInt cursorID with
           | Err _ => Err (EWrap "" (ESentinel ErrInvalidCursor) ": invalid postgres job id")
           | Ok id => Ok [CreatedBefore cursorAt id]
           end
       end.

Definition jobList (tx : option nat) (params : JobListParams) : io (result (list JobRow)) :=
  match cursorWhere (jl_Cursor params) with
  | Err err => mret (Err err)
  | Ok cur =>
      r ← call tx (SelectJobs (listWhere params ++ cur) (pageLimit (jl_Limit params)));
      mret match r with Err err => Err err | Ok rows => Ok (scanJobRow <$> rows) end
  end.

Definition queueStats (tx : option nat) (queue : string) : io (result QueueStats) :=
  r ← call tx (CountStates queue);
  mret match r with Err err => Err err | Ok counts => Ok (statsOf queue counts) end.

(** ** Fetching *)

Definition jobFetchBatch (tx : option nat) (params : FetchParams) : io (list JobRow * option error) :=
  now ← clkNow;
  r ← call tx (ClaimJobs (fp_Queue params) now (fetchLimit (fp_Limit params)) (claimSets params now));
  mret match r with Err err => ([], Some (EWrap "fetch batch: " err "")) | Ok rows => (scanJobRow <$> rows, None) end.

(** ** Claims *)

Definition jobRescueStuck (tx : option nat) (params : JobRescueParams) : io (Z * option error) :=
  r ← call tx (UpdateJobs (rescueWhere params) rescueSets);
  mret match r with Err err => (0, Some (EWrap "rescue stuck jobs: " err "")) | Ok ids => (RowsAffected ids, None) end.

Definition jobHeartbeat (tx : option nat) (params : JobHeartbeatParams) : io (bool * option error) :=
  r ← call tx (UpdateJobs (claimedBy (hp_ID params) (hp_WorkerID params) (hp_Attempt params)) [ToLease (Some (UTC (renewalUntil params)))]);
  mret match r with Err err => (false, Some err) | Ok ids => (0 <? RowsAffected ids, None) end.

Definition jobMarkStarted (tx : option nat) (params : JobMarkStartedParams) : io (bool * option error) :=
  r ← call tx (UpdateJobs (claimedBy (ms_ID params) (ms_WorkerID params) (ms_Attempt params)) [ToStartedAt (Some (UTC (ms_At params)))]);
  mret match r with Err err => (false, Some err) | Ok ids => (RowsAffected ids =? 1, None) end.

(** ** Outcomes *)

Definition encodeError (errStr trace : option string) (attempt : Z) : io (list AttemptError) :=
  match errStr with
  | None => mret []
  | Some msg => now ← clkNow; mret [encodedError now attempt msg (default "" trace)]
  end.

Definition jobSetStateIfRunning (tx : option nat) (params : JobSetStateParams) : io (option error) :=
  match ParseInt (sp_ID params) with
  | Err err => mret (Some (invalidID (sp_ID params) err))
  | Ok idInt =>
      if sp_Yield params
      then r ← call tx (UpdateJobs (fence (IsID idInt) params) yieldSets); mret (staleClaimIfNoRows (sp_ID params) r)
      else
        errs ← encodeError (sp_Err params) (sp_Trace params) (sp_Attempt params);
        fin ← (if isTerminalState (sp_State params) then now ← clkNow; mret (Some now) else mret None);
        r ← call tx (UpdateJobs (fence (IsID idInt) params) (settleSets params errs fin));
        mret (staleClaimIfNoRows (sp_ID params) r)
  end.

(** ** Cancelling, deleting, rescheduling *)

Definition jobCancel (tx : option nat) (id : string) : io (option error) :=
  match ParseInt id with
  | Err err => mret (Some (invalidID id err))
  | Ok idInt =>
      now ← clkNow;
      r ← call tx (UpdateJobs (cancelWhere (IsID idInt)) (cancelSets now));
      match r with
      | Err err => mret (Some err)
      | Ok ids =>
          if RowsAffected ids =? 0
          then g ← jobGetByID tx id; mret match g with Err getErr => Some getErr | Ok _ => Some (notCancellable id) end
          else mret None
      end
  end.

Definition jobDelete (tx : option nat) (id : string) : io (option error) :=
  match ParseInt id with
  | Err err => mret (Some (invalidID id err))
  | Ok idInt => r ← call tx (DeleteJobs (IsID idInt)); mret (notFoundIfNoRows id r)
  end.

Definition jobReschedule (tx : option nat) (params : RescheduleParams) : io (option error) :=
  match ParseInt (rs_ID params) with
  | Err err => mret (Some (invalidID (rs_ID params) err))
  | Ok idInt => r ← call tx (UpdateJobs [IsID idInt] (rescheduleSets params)); mret (notFoundIfNoRows (rs_ID params) r)
  end.

(** ** Queues *)

Definition queueGet (tx : option nat) (name : string) : io (result QueueRow) :=
  r ← call tx (SelectQueue name);
  mret match r with
       | Err err => Err err
       | Ok None => Err (EWrap "" (ESentinel ErrNotFound) (": queue " +:+ quoted name))
       | Ok (Some q) => Ok (scanQueueRow q)
       end.

Definition queueSetPaused (tx : option nat) (name : string) (paused : bool) : io (option error) :=
  now ← clkNow; r ← call tx (UpsertQueue name paused now); mret (errOf r).

Definition queueList (tx : option nat) (params : QueueListParams) : io (result (list QueueRow)) :=
  let go after :=
    r ← call tx (SelectQueues after (pageLimit (ql_Limit params)));
    mret match r with Err err => Err err | Ok rows => Ok (scanQueueRow <$> rows) end in
  if bool_decide (ql_Cursor params = "") then go None
  else match DecodeQueueCursor (ql_Cursor params) with Err err => mret (Err err) | Ok cursor => go (Some cursor) end.

(** ** Leases and schedule cursors *)

Definition leaderAttemptElect (tx : option nat) (params : LeaderElectParams) : io (bool * option error) :=
  now ← clkNow;
  r ← call tx (UpsertLeader (le_Name params) (le_WorkerID params) (Add now (le_TTL params)) now);
  mret (boolOrErr r).

Definition leaderResign (tx : option nat) (params : LeaderResignParams) : io (option error) :=
  r ← call tx (DeleteLeader (lr_Name params) (lr_WorkerID params)); mret (errOf r).

Definition scheduleCursorGetOrCreate (tx : option nat) (params : ScheduleCursorCreateParams) : io (ScheduleCursorResult * option error) :=
  r ← call tx (InsertCursor (cc_ID params) (UTC (cc_InitialAt params)));
  match r with
  | Err err => mret (emptyCursorResult, Some err)
  | Ok created =>
      r ← call tx (SelectCursor (cc_ID params));
      mret match r with
           | Err err => (emptyCursorResult, Some err)
           | Ok None => (emptyCursorResult, Some sq_ErrNoRows)
           | Ok (Some at_) => (mkScheduleCursorResult (UTC at_) created, None)
           end
  end.

Definition scheduleCursorAdvance (tx : option nat) (params : ScheduleCursorAdvanceParams) : io (bool * option error) :=
  r ← call tx (UpdateCursor (ca_ID params) (UTC (ca_Next params)) (UTC (ca_Expected params))); mret (boolOrErr r).

(** ** Transactions *)

Definition Begin : io (result nat) := onService (sq_Begin None).
Definition BeginNested (tx : nat) : io (result nat) := onService (sq_Begin (Some tx)).
Definition Commit (tx : nat) : io (option error) := onService (sq_Commit tx).
Definition Rollback (tx : nat) : io (option error) := onService (sq_Rollback tx).
End driver.

Definition PgxCapabilities : Capabilities :=
  {| NativeTx := true; ListenNotify := true; ChangeStreams := false; SkipLocked := true; UniqueJobs := true;
     AdvisoryLocks := false; LinearizableLeases := true; LinearizableCAS := true; LifecycleTimestamps := true;
     BoundedFetch := true; StrictFetchOrdering := true |}.
Definition pgxName : string := "postgres".
Definition newPgx {S} (pool : S) (clk : Clock) : SqEnv (S := S) := mkSqEnv pool clk.
