(* ===== verification/SqlPgxRefine.v ===== *)
(** * driver/pgxv5: what each operation does

    [promised o acts a]: the operation [o] has sent the statements [acts] and answered
    [a].  The refinement theorem says that every operation keeps its promise, with
    the pool or in a transaction, whatever other programs do between its statements;
    the theorem about transactions, that everything a transaction has changed or
    locked happens at one moment, when it is committed.

    A fetch is one statement: the rows that it answers are what the table holds when
    they have been claimed.  So two fetches of one job have a release of the first
    claim in between; and an outcome that is answered as written was written to a
    row that was running as the claim that the caller names. *)

From S2P Require Import Prelude GoBase Json Codec Driver Moves Memory Sql SqlLaws SqlSafety SqlPgx.
From Stdlib Require Import ZArith Lia.

(** ** Operations *)

Section operations.
Context {S : Type} `{Sql S}.
#[local] Abbreviation io := (Sql.io (S := S)).

(** With the pool, [None], or in a transaction.  The executor of a transaction has no
    JobList, QueueStats, JobRescueStuck and JobHeartbeat. *)
Definition execOp (tx : option nat) (o : driverOp) : io (ans o) :=
  match o with
  | OInsert ps => jobInsertMany tx ps
  | OGet id => jobGetByID tx id
  | OList p => jobList tx p
  | OStats q => queueStats tx q
  | OFetch p => jobFetchBatch tx p
  | ORescue p => jobRescueStuck tx p
  | OHeartbeat p => jobHeartbeat tx p
  | OMarkStarted p => jobMarkStarted tx p
  | OSetState p => jobSetStateIfRunning tx p
  | OCancel id => jobCancel tx id
  | ODelete id => jobDelete tx id
  | OReschedule p => jobReschedule tx p
  | OQueueGet n => queueGet tx n
  | OSetPaused n b => queueSetPaused tx n b
  | OQueueList p => queueList tx p
  | OElect p => leaderAttemptElect tx p
  | OResign p => leaderResign tx p
  | OCursorGet p => scheduleCursorGetOrCreate tx p
  | OCursorAdvance p => scheduleCursorAdvance tx p
  end.
End operations.

(** ** Promises *)

(** What became of one parameter of a batch. *)
Definition insertedAs (now : Instant) (p : JobInsertParams) (ms : list move) (r : JobInsertResult) : Prop :=
  ∃ row, ir_Job r = Some (scanJobRow row) ∧
    if ir_UniqueSkip r
    then ms = [MReq (InsertJob (newRecord p now)) None; MReq (SelectJob (KeyIs (ip_UniqueKey p))) (Some row)]
    else ms = [MReq (InsertJob (newRecord p now)) (Some row)].

(** A parameter at which the batch has failed: when there was nothing to insert, the
    other job may be gone by the time that it is looked for. *)
Definition insertFails (now : Instant) (p : JobInsertParams) (ms : list move) : Prop :=
  tried (InsertJob (newRecord p now)) ms ∨
  ∃ l, ms = MReq (InsertJob (newRecord p now)) None :: l ∧ tried (SelectJob (KeyIs (ip_UniqueKey p))) l.

(** A statement whose answer is the operation's. *)
Definition asked (q : stmt) (a : reply q) (err : option error) (ms : list move) : Prop :=
  match err with None => ms = [MReq q a] | Some _ => tried q ms end.

(** An update that may find no row; [gone] is the error then. *)
Definition guarded (q : stmt) (rows : reply q → list Z) (gone : sentinel) (err : option error) (ms : list move) : Prop :=
  match err with
  | None => ∃ a, ms = [MReq q a] ∧ rows a ≠ []
  | Some e => if errorsIs e gone then ∃ a, ms = [MReq q a] ∧ rows a = [] else tried q ms
  end.

(** An operation that takes the text of an identifier; nothing is sent if it is none. *)
Definition numbered (id : string) (ok : bool) (ms : list move) (P : Z → Prop) : Prop :=
  match ParseInt id with Ok z => P z | Err _ => ok = false ∧ ms = [] end.

Definition settleStmt (p : JobSetStateParams) (errs : list AttemptError) (fin : option Instant) (z : Z) : stmt :=
  UpdateJobs (fence (IsID z) p) (if sp_Yield p then yieldSets else settleSets p errs fin).
(** The error that is recorded, and when the job is finished. *)
Definition settlesWith (p : JobSetStateParams) (errs : list AttemptError) (fin : option Instant) : Prop :=
  sp_Yield p = true ∨
  match sp_Err p with
  | None => errs = []
  | Some msg => ∃ at_, errs = [encodedError at_ (sp_Attempt p) msg (default "" (sp_Trace p))]
  end ∧ (is_Some fin ↔ isTerminalState (sp_State p) = true).

Definition queueCursor (p : QueueListParams) : result (option string) :=
  if bool_decide (ql_Cursor p = "") then Ok None
  else match DecodeQueueCursor (ql_Cursor p) with Ok c => Ok (Some c) | Err err => Err err end.

Definition promisedMoves (o : driverOp) (ms : list move) : ans o → Prop :=
  match o with
  | OInsert ps => λ a, ∃ now,
      match a with
      | Ok rs => ∃ groups, ms = mjoin groups ∧ Forall3 (insertedAs now) ps groups rs
      | Err _ => ∃ before p rest groups rs last, ps = before ++ p :: rest ∧ ms = mjoin groups ++ last ∧
          Forall3 (insertedAs now) before groups rs ∧ insertFails now p last
      end
  | OGet id => λ a, numbered id (is_ok a) ms (λ z,
      match a with
      | Ok row => ∃ r, ms = [MReq (SelectJob (IsID z)) (Some r)] ∧ row = scanJobRow r
      | Err e => if errorsIs e ErrNotFound then ms = [MReq (SelectJob (IsID z)) None] else tried (SelectJob (IsID z)) ms
      end)
  | OList p => λ a,
      match a with
      | Ok rows => ∃ cur l, cursorWhere (jl_Cursor p) = Ok cur ∧ rows = scanJobRow <$> l ∧
          ms = [MReq (SelectJobs (listWhere p ++ cur) (pageLimit (jl_Limit p))) l]
      | Err e => match cursorWhere (jl_Cursor p) with
                 | Err e' => e = e' ∧ ms = []
                 | Ok cur => tried (SelectJobs (listWhere p ++ cur) (pageLimit (jl_Limit p))) ms
                 end
      end
  | OStats q => λ a,
      match a with
      | Ok s => ∃ counts, ms = [MReq (CountStates q) counts] ∧ s = statsOf q counts
      | Err _ => tried (CountStates q) ms
      end
  | OFetch p => λ '(rows, err), ∃ now l,
      asked (ClaimJobs (fp_Queue p) now (fetchLimit (fp_Limit p)) (claimSets p now)) l err ms ∧
      rows = match err with None => scanJobRow <$> l | Some _ => [] end
  | ORescue p => λ '(n, err), ∃ ids, asked (UpdateJobs (rescueWhere p) rescueSets) ids err ms ∧
      n = match err with None => RowsAffected ids | Some _ => 0 end
  | OHeartbeat p => λ '(b, err), ∃ ids,
      asked (UpdateJobs (claimedBy (hp_ID p) (hp_WorkerID p) (hp_Attempt p)) [ToLease (Some (UTC (renewalUntil p)))]) ids err ms ∧
      b = match err with None => bool_decide (ids ≠ []) | Some _ => false end
  | OMarkStarted p => λ '(b, err), ∃ ids,
      asked (UpdateJobs (claimedBy (ms_ID p) (ms_WorkerID p) (ms_Attempt p)) [ToStartedAt (Some (UTC (ms_At p)))]) ids err ms ∧
      b = match err with None => bool_decide (ids ≠ []) | Some _ => false end
  | OSetState p => λ err, numbered (sp_ID p) (negb (bool_decide (is_Some err))) ms (λ z,
      ∃ errs fin, settlesWith p errs fin ∧ guarded (settleStmt p errs fin z) (λ a, a) ErrStaleClaim err ms)
  | OCancel id => λ err, numbered id (negb (bool_decide (is_Some err))) ms (λ z, ∃ now,
      let q := UpdateJobs (cancelWhere (IsID z)) (cancelSets now) in
      match err with
      | None => ∃ ids, ms = [MReq q ids] ∧ ids ≠ []
      | Some e =>
          if errorsIs e ErrNotFound then ms = [MReq q []; MReq (SelectJob (IsID z)) None]
          else if errorsIs e ErrConflict then ∃ r, ms = [MReq q []; MReq (SelectJob (IsID z)) (Some r)]
          else tried q ms ∨ ∃ l, ms = MReq q [] :: l ∧ tried (SelectJob (IsID z)) l
      end)
  | ODelete id => λ err, numbered id (negb (bool_decide (is_Some err))) ms (λ z,
      guarded (DeleteJobs (IsID z)) (λ a, a) ErrNotFound err ms)
  | OReschedule p => λ err, numbered (rs_ID p) (negb (bool_decide (is_Some err))) ms (λ z,
      guarded (UpdateJobs [IsID z] (rescheduleSets p)) (λ a, a) ErrNotFound err ms)
  | OQueueGet n => λ a,
      match a with
      | Ok row => ∃ q, ms = [MReq (SelectQueue n) (Some q)] ∧ row = scanQueueRow q
      | Err e => if errorsIs e ErrNotFound then ms = [MReq (SelectQueue n) None] else tried (SelectQueue n) ms
      end
  | OSetPaused n b => λ err, ∃ now, asked (UpsertQueue n b now) tt err ms
  | OQueueList p => λ a,
      match a with
      | Ok rows => ∃ after l, queueCursor p = Ok after ∧ ms = [MReq (SelectQueues after (pageLimit (ql_Limit p))) l] ∧ rows = scanQueueRow <$> l
      | Err e => match queueCursor p with
                 | Err e' => e = e' ∧ ms = []
                 | Ok after => tried (SelectQueues after (pageLimit (ql_Limit p))) ms
                 end
      end
  | OElect p => λ '(b, err), ∃ now,
      asked (UpsertLeader (le_Name p) (le_WorkerID p) (Add now (le_TTL p)) now) b err ms ∧ (err ≠ None → b = false)
  | OResign p => λ err, ∃ b, asked (DeleteLeader (lr_Name p) (lr_WorkerID p)) b err ms
  | OCursorGet p => λ '(r, err), let put := InsertCursor (cc_ID p) (UTC (cc_InitialAt p)) in
      match err with
      | None => ∃ at_, cr_At r = UTC at_ ∧ ms = [MReq put (cr_Created r); MReq (SelectCursor (cc_ID p)) (Some at_)]
      | Some _ => r = emptyCursorResult ∧ (tried put ms ∨ ∃ b l, ms = MReq put b :: l ∧ tried (SelectCursor (cc_ID p)) l)
      end
  | OCursorAdvance p => λ '(b, err),
      asked (UpdateCursor (ca_ID p) (UTC (ca_Next p)) (UTC (ca_Expected p))) b err ms ∧ (err ≠ None → b = false)
  end.

Definition promised (o : driverOp) (acts : list (act move)) (a : ans o) : Prop := promisedMoves o (did acts) a.

(** ** The operations keep their promises *)

Section refine.
Context {S : Type} `{Sql S} `{!SqlLaws S}.

Ltac finish := apply sq_ret; rewrite ?app_nil_r; simpl.
Ltac sq_then := refine (sq_call_then _ _ _ _ _ _).
Ltac sq_single := refine (sq_call_ret _ _ _ _ _ _).

Lemma sq_foreign_is e : foreignErr e →
  errorsIs e ErrStaleClaim = false ∧ errorsIs e ErrConflict = false ∧ errorsIs e ErrNotFound = false.
Proof. by intros (_ & ? & ? & ?). Qed.
Ltac foreign He := destruct (sq_foreign_is _ He) as (?Hst & ?Hcf & ?Hnf).

Lemma rows_none (ids : list Z) : (RowsAffected ids =? 0) = bool_decide (ids = []).
Proof. unfold RowsAffected. destruct ids; [done|]. rewrite bool_decide_eq_false_2 by done. apply Z.eqb_neq. cbn [length]. lia. Qed.

Lemma rows_some (ids : list Z) : (0 <? RowsAffected ids) = bool_decide (ids ≠ []).
Proof. unfold RowsAffected. destruct ids; [done|]. rewrite bool_decide_eq_true_2 by done. apply Z.ltb_lt. cbn [length]. lia. Qed.

(** An update that finds no row is an error. *)
Lemma guarded_keeps tx q (rows : reply q → list Z) gone msg :
  (∀ e, foreignErr e → errorsIs e gone = false) →
  does tx (r ← call tx q; mret match r with Err err => Some err | Ok a => if RowsAffected (rows a) =? 0 then Some (jobError gone msg) else None end)
    (λ acts err, guarded q rows gone err (did acts)).
Proof.
  intros Hg. sq_single.
  - intros acts a _ Hd. rewrite rows_none. unfold guarded. case_bool_decide as Ha; [|by exists a].
    simpl. rewrite bool_decide_eq_true_2 by done. by exists a.
  - intros acts e He Ht. simpl. by rewrite (Hg _ He).
Qed.

Lemma asked_keeps {A} tx q (f : result (reply q) → A) (Q : list move → A → Prop) :
  (∀ a err ms, asked q a err ms → Q ms (f match err with None => Ok a | Some e => Err e end)) → (∃ a : reply q, True) →
  does tx (r ← call tx q; mret (f r)) (λ acts a, Q (did acts) a).
Proof.
  intros HQ [a0 _]. sq_single.
  - intros acts a _ Hd. by apply (HQ a None).
  - intros acts e _ Ht. by apply (HQ a0 (Some e)).
Qed.

(** ** Inserting *)

Lemma sq_insertParam_keeps tx now p : does tx (insertParam tx now p) (λ acts r,
  match r with Ok res => insertedAs now p (did acts) res | Err _ => insertFails now p (did acts) end).
Proof.
  unfold insertParam. sq_then.
  - intros a1 [row|] _ Hd1; [finish; by exists row|]. apply sq_bind. sq_single.
    + intros a2 [row|] _ Hd2; finish; rewrite did_app, Hd1, Hd2; [by exists row|]. right. eexists. split; [done|]. by right; exists None.
    + intros a2 e _ Ht. finish. rewrite did_app, Hd1. right. by exists (did a2).
  - intros a1 e _ Ht. finish. by left.
Qed.

Lemma sq_insertParams_keeps tx now ps : does tx (insertParams tx now ps) (λ acts a,
  match a with
  | Ok rs => ∃ groups, did acts = mjoin groups ∧ Forall3 (insertedAs now) ps groups rs
  | Err _ => ∃ before p rest groups rs last, ps = before ++ p :: rest ∧ did acts = mjoin groups ++ last ∧
      Forall3 (insertedAs now) before groups rs ∧ insertFails now p last
  end).
Proof.
  induction ps as [|p ps IH]; simpl; [finish; exists []; split; [done|constructor]|].
  apply sq_bind. eapply sq_weaken; [apply sq_insertParam_keeps|]. intros a1 [res|e] H1; simpl in H1.
  - apply sq_bind. eapply sq_weaken; [apply IH|]. intros a2 [rs|e] H2; finish.
    + destruct H2 as (groups & Hd & Hf). exists (did a1 :: groups). rewrite did_app, Hd. split; [done|]. by constructor.
    + destruct H2 as (before & p' & rest & groups & rs & last & -> & Hd & Hf & Ht).
      exists (p :: before), p', rest, (did a1 :: groups), (res :: rs), last. rewrite did_app, Hd. simpl.
      split_and!; [done|by rewrite app_assoc|by constructor|done].
  - finish. exists [], p, ps, [], [], (did a1). split_and!; [done..|constructor|done].
Qed.

Lemma pgx_insert_promise tx ps : does tx (execOp tx (OInsert ps)) (promised (OInsert ps)).
Proof.
  apply sq_bind, sq_now. intros now. simpl. eapply sq_weaken; [apply sq_insertParams_keeps|]. intros acts a Ha. by exists now.
Qed.

(** ** Reading *)

Lemma pgx_get_promise tx id : does tx (execOp tx (OGet id)) (promised (OGet id)).
Proof.
  simpl. unfold jobGetByID, promised, promisedMoves, numbered. destruct (ParseInt id) as [z|e]; [|by finish]. sq_single.
  - intros acts [r|] _ Hd; [by exists r|exact Hd].
  - intros acts e He Ht. simpl. foreign He. by rewrite Hnf.
Qed.

Lemma pgx_list_promise tx p : does tx (execOp tx (OList p)) (promised (OList p)).
Proof.
  simpl. unfold jobList, promised, promisedMoves. destruct (cursorWhere (jl_Cursor p)) as [cur|e]; [|by finish]. sq_single.
  - intros acts l _ Hd. by exists cur, l.
  - intros acts e He Ht. done.
Qed.

Lemma pgx_stats_promise tx q : does tx (execOp tx (OStats q)) (promised (OStats q)).
Proof.
  sq_single; [|done]. intros acts counts _ Hd. by exists counts.
Qed.

Lemma pgx_queueGet_promise tx n : does tx (execOp tx (OQueueGet n)) (promised (OQueueGet n)).
Proof.
  sq_single.
  - intros acts [r|] _ Hd; [by exists r|exact Hd].
  - intros acts e He Ht. foreign He. unfold promised, promisedMoves. by rewrite Hnf.
Qed.

Lemma pgx_queueList_promise tx p : does tx (execOp tx (OQueueList p)) (promised (OQueueList p)).
Proof.
  assert (∀ after, queueCursor p = Ok after →
    does tx (r ← call tx (SelectQueues after (pageLimit (ql_Limit p))); mret match r with Err err => Err err | Ok rows => Ok (scanQueueRow <$> rows) end)
      (promised (OQueueList p))) as Hgo.
  { intros after Hq. sq_single.
    - intros acts l _ Hd. by exists after, l.
    - intros acts e _ Ht. unfold promised, promisedMoves. by rewrite Hq. }
  simpl. unfold queueList. unfold queueCursor in Hgo. case_bool_decide as Hc; [by apply Hgo|].
  destruct (DecodeQueueCursor (ql_Cursor p)) as [c|e] eqn:E; [by apply Hgo|]. finish. unfold promised, promisedMoves, queueCursor.
  rewrite bool_decide_eq_false_2, E; done.
Qed.

(** ** Claims and outcomes *)

(** At most one row has an identifier. *)
Lemma someOf_one ws ids d : keyedDb d → someOf sq_pa ws ids d = true →
  match ws with IsID _ :: _ | IsIDText _ :: _ => (length ids ≤ 1)%nat | _ => True end.
Proof.
  intros Hk (Hn & Ha)%someOf_spec. destruct ws as [|[] ws]; try done; (destruct ids as [|i [|j ids]]; [simpl; lia..|exfalso]);
    (destruct (Ha i) as (ri & Hi & Hmi); [by left|]); (destruct (Ha j) as (rj & Hj & Hmj); [by right; left|]);
    unfold matches in *; cbn [forallb] in *; apply andb_true_iff in Hmi as [Hmi _]; apply andb_true_iff in Hmj as [Hmj _];
    apply Hk in Hi as <-; apply Hk in Hj as <-; apply NoDup_cons in Hn as [Hn _]; apply Hn; simpl in *.
  - bool_to_prop. rewrite Hmi, Hmj. by left.
  - rewrite (sq_idText_law _ _ _ Hmi Hmj). by left.
Qed.

Lemma possible_one ws sets ids : possible (MReq (UpdateJobs ws sets) ids) →
  match ws with IsID _ :: _ | IsIDText _ :: _ => (length ids ≤ 1)%nat | _ => True end.
Proof. intros (d & d' & Hk & [Hs _]%sq_step_jobs). by eapply someOf_one. Qed.

Lemma pgx_fetch_promise tx p : does tx (execOp tx (OFetch p)) (promised (OFetch p)).
Proof.
  simpl. unfold jobFetchBatch. apply sq_bind, sq_now. intros now. cbn beta. rewrite ?app_nil_l. sq_single.
  - intros acts l _ Hd. by exists now, l.
  - intros acts e _ Ht. by exists now, [].
Qed.

Lemma pgx_rescue_promise tx p : does tx (execOp tx (ORescue p)) (promised (ORescue p)).
Proof.
  sq_single; [intros acts ids _ Hd; by exists ids|]. intros acts e _ Ht. by exists [].
Qed.

Lemma pgx_heartbeat_promise tx p : does tx (execOp tx (OHeartbeat p)) (promised (OHeartbeat p)).
Proof.
  sq_single; [intros acts ids _ Hd; exists ids; split; [done|by rewrite rows_some]|]. intros acts e _ Ht. by exists [].
Qed.

Lemma pgx_markStarted_promise tx p : does tx (execOp tx (OMarkStarted p)) (promised (OMarkStarted p)).
Proof.
  sq_single; [|intros acts e _ Ht; by exists []]. intros acts ids Hp%possible_one Hd. exists ids. split; [done|]. simpl in Hp.
  unfold RowsAffected. destruct ids as [|i [|]]; [done..|simpl in Hp; lia].
Qed.

Lemma encodeError_keeps tx p (Q : list (act move) → list AttemptError → Prop) :
  (∀ errs, match sp_Err p with
           | None => errs = []
           | Some msg => ∃ at_, errs = [encodedError at_ (sp_Attempt p) msg (default "" (sp_Trace p))]
           end → Q [] errs) →
  does tx (encodeError (sp_Err p) (sp_Trace p) (sp_Attempt p)) Q.
Proof.
  intros HQ. unfold encodeError. destruct (sp_Err p) as [msg|]; [|apply sq_ret; by apply HQ].
  apply sq_bind, sq_now. intros now. apply sq_ret, HQ. by exists now.
Qed.

Lemma finalized_keeps tx p (Q : list (act move) → option Instant → Prop) :
  (∀ fin, (is_Some fin ↔ isTerminalState (sp_State p) = true) → Q [] fin) →
  does tx (if isTerminalState (sp_State p) then now ← clkNow; mret (Some now) else mret None) Q.
Proof.
  intros HQ. destruct (isTerminalState (sp_State p)); [|apply sq_ret; apply HQ; by split; [intros [? ?]|]].
  apply sq_bind, sq_now. intros now. apply sq_ret, HQ. by split; [|eexists].
Qed.

Lemma numbered_ok id ok ms (P : Z → Prop) z : ParseInt id = Ok z → P z → numbered id ok ms P.
Proof. intros Hp HP. unfold numbered. by rewrite Hp. Qed.
Lemma numbered_bad id ok ms (P : Z → Prop) e : ParseInt id = Err e → ok = false → ms = [] → numbered id ok ms P.
Proof. intros Hp. unfold numbered. by rewrite Hp. Qed.

Lemma pgx_setState_promise tx p : does tx (execOp tx (OSetState p)) (promised (OSetState p)).
Proof.
  simpl. unfold jobSetStateIfRunning. destruct (ParseInt (sp_ID p)) as [z|e] eqn:Hz; [|finish; by eapply numbered_bad].
  assert (∀ errs fin, settlesWith p errs fin →
    does tx (r ← call tx (settleStmt p errs fin z); mret (staleClaimIfNoRows (sp_ID p) r)) (promised (OSetState p))) as Hgo.
  { intros errs fin Hs. eapply sq_weaken; [apply (guarded_keeps tx (settleStmt p errs fin z) (λ a, a) ErrStaleClaim)|].
    - by intros e (_ & ? & _).
    - intros acts err Hg. eapply numbered_ok; [done|]. by exists errs, fin. }
  destruct (sp_Yield p) eqn:Hy.
  - specialize (Hgo [] None). unfold settleStmt in Hgo. rewrite Hy in Hgo. apply Hgo. by left.
  - apply sq_bind, encodeError_keeps. intros errs He. cbn beta. apply sq_bind, finalized_keeps. intros fin Hf. cbn beta. rewrite ?app_nil_l.
    specialize (Hgo errs fin). unfold settleStmt in Hgo. rewrite Hy in Hgo. apply Hgo. by right.
Qed.

(** ** Cancelling, deleting, rescheduling *)

Lemma pgx_cancel_promise tx id : does tx (execOp tx (OCancel id)) (promised (OCancel id)).
Proof.
  simpl. unfold jobCancel, promised. simpl. destruct (ParseInt id) as [z|e] eqn:Hz; [|finish; by eapply numbered_bad].
  apply sq_bind, sq_now. intros now. cbn beta. sq_then.
  - intros a1 ids _ Hd1. cbn beta. rewrite rows_none. case_bool_decide as Hi; [|finish; eapply numbered_ok; [done|]; exists now, ids; done].
    unfold jobGetByID. rewrite Hz. subst ids. apply sq_bind. sq_single.
    + intros a2 [r|] _ Hd2; simpl; apply sq_ret; (eapply numbered_ok; [done|]); exists now; rewrite app_nil_r, !did_app, Hd1, Hd2; simpl; [by exists r|done].
    + intros a2 e He Ht. simpl. apply sq_ret. eapply numbered_ok; [done|]. exists now. foreign He. rewrite Hnf, Hcf. right. exists (did a2).
      by rewrite app_nil_r, !did_app, Hd1.
  - intros a1 e He Ht. finish. eapply numbered_ok; [done|]. exists now. foreign He. rewrite Hnf, Hcf. by left.
Qed.

Lemma pgx_delete_promise tx id : does tx (execOp tx (ODelete id)) (promised (ODelete id)).
Proof.
  simpl. unfold jobDelete. destruct (ParseInt id) as [z|e] eqn:Hz; [|finish; by eapply numbered_bad].
  eapply sq_weaken; [apply (guarded_keeps tx (DeleteJobs (IsID z)) (λ a, a) ErrNotFound); by intros e (_ & _ & _ & ?)|].
  intros acts err Hg. by eapply numbered_ok.
Qed.

Lemma pgx_reschedule_promise tx p : does tx (execOp tx (OReschedule p)) (promised (OReschedule p)).
Proof.
  simpl. unfold jobReschedule. destruct (ParseInt (rs_ID p)) as [z|e] eqn:Hz; [|finish; by eapply numbered_bad].
  eapply sq_weaken; [apply (guarded_keeps tx (UpdateJobs [IsID z] (rescheduleSets p)) (λ a, a) ErrNotFound); by intros e (_ & _ & _ & ?)|].
  intros acts err Hg. by eapply numbered_ok.
Qed.

(** ** Queues, leases, cursors *)

Lemma pgx_setPaused_promise tx n b : does tx (execOp tx (OSetPaused n b)) (promised (OSetPaused n b)).
Proof.
  simpl. unfold queueSetPaused. apply sq_bind, sq_now. intros now. cbn beta. rewrite ?app_nil_l.
  sq_single; [intros acts [] _ Hd; by exists now|]. intros acts e _ Ht. by exists now.
Qed.

Lemma pgx_elect_promise tx p : does tx (execOp tx (OElect p)) (promised (OElect p)).
Proof.
  simpl. unfold leaderAttemptElect. apply sq_bind, sq_now. intros now. cbn beta. rewrite ?app_nil_l.
  sq_single; [intros acts b _ Hd; by exists now|]. intros acts e _ Ht. by exists now.
Qed.

Lemma pgx_resign_promise tx p : does tx (execOp tx (OResign p)) (promised (OResign p)).
Proof. sq_single; [intros acts b _ Hd; by exists b|]. intros acts e _ Ht. by exists true. Qed.

Lemma pgx_cursorGet_promise tx p : does tx (execOp tx (OCursorGet p)) (promised (OCursorGet p)).
Proof.
  sq_then.
  - intros a1 b _ Hd1. cbn beta. sq_single.
    + intros a2 [at_|] _ Hd2; unfold promised; rewrite did_app, Hd1, Hd2; simpl; [by exists at_|].
      split; [done|]. right. eexists _, _. split; [done|]. by right; exists None.
    + intros a2 e _ Ht. unfold promised. rewrite did_app, Hd1. simpl. split; [done|]. right. by exists b, (did a2).
  - intros a1 e _ Ht. finish. split; [done|]. by left.
Qed.

Lemma pgx_cursorAdvance_promise tx p : does tx (execOp tx (OCursorAdvance p)) (promised (OCursorAdvance p)).
Proof. sq_single; done. Qed.

Theorem pgx_keeps tx o : does tx (execOp tx o) (promised o).
Proof.
  destruct o.
  - apply pgx_insert_promise.
  - apply pgx_get_promise.
  - apply pgx_list_promise.
  - apply pgx_stats_promise.
  - apply pgx_fetch_promise.
  - apply pgx_rescue_promise.
  - apply pgx_heartbeat_promise.
  - apply pgx_markStarted_promise.
  - apply pgx_setState_promise.
  - apply pgx_cancel_promise.
  - apply pgx_delete_promise.
  - apply pgx_reschedule_promise.
  - apply pgx_queueGet_promise.
  - apply pgx_setPaused_promise.
  - apply pgx_queueList_promise.
  - apply pgx_elect_promise.
  - apply pgx_resign_promise.
  - apply pgx_cursorGet_promise.
  - apply pgx_cursorAdvance_promise.
Qed.
End refine.

(** ** Programs *)

Section programs.
Context {S : Type} `{Sql S} `{!SqlLaws S}.
Abbreviation dbOf e := (sq_db (sv_svc e)).
Abbreviation effectOf tx e e' := (effect sq_pa sq_db sq_pending tx (sv_svc e) (sv_svc e')).

(** Every operation keeps its promise, outside of a transaction or within one. *)
Theorem pgx_operations_refine tx os (e : SqEnv (S := S)) : keyedDb (dbOf e) →
  ∃ groups, effectOf tx e (execAll execOp tx os e).1 (mjoin groups) ∧ kept promisedMoves groups (execAll execOp tx os e).2 ∧
    (λ oa, projT1 oa) <$> (execAll execOp tx os e).2 = os.
Proof. apply programs_refine, pgx_keeps. Qed.

End programs.

(** * Claims and outcomes *)

Lemma FormatInt_inj a b : FormatInt a = FormatInt b → a = b.
Proof. intros Hf. assert (Some a = Some b) as [= ->]; [|done]. by rewrite <-(parse_signed_FormatInt a), Hf, parse_signed_FormatInt. Qed.

Section statements.
Context (pa : params).

Lemma same_refl a : same pa a a = true.
Proof. by apply bool_decide_eq_true. Qed.

(** What a claiming statement that has answered a row has done to it. *)
Lemma claim_made queue now limit p t a r d d' : keyedDb d → step pa (MReq (ClaimJobs queue now limit (claimSets p t)) a) d = Some d' → r ∈ a →
  ∃ r0, db_jobs d !! c_id r = Some r0 ∧ matches pa (dueWhere queue now) r0 = true ∧ r = applySets pa (claimSets p t) r0 ∧ db_jobs d' !! c_id r = Some r.
Proof.
  intros Hk ([Hn Hm]%someOf_spec & -> & Ha)%sq_step_jobs Hr. rewrite Forall_forall in Ha. specialize (Ha _ Hr).
  assert (c_id r ∈ c_id <$> a) as Hin by (by apply list_elem_of_fmap_2).
  destruct (Hm _ Hin) as (r0 & H0 & Hmr). rewrite H0 in Ha. apply (inj Some) in Ha. exists r0. split_and!; [done..|by symmetry|].
  rewrite updateRows_lookup, decide_True, H0 by done. by apply (f_equal Some).
Qed.

Lemma claim_claims queue now limit p t a r : r ∈ a →
  claimsRow pa (MReq (ClaimJobs queue now limit (claimSets p t)) a) (c_id r) (fp_WorkerID p) (c_attempt_num r).
Proof.
  intros Hr d d' Hk Hs. destruct (claim_made _ _ _ _ _ _ _ _ _ Hk Hs Hr) as (r0 & H0 & Hm & Heq & H1). split.
  - exists r0. split; [done|]. unfold matches in Hm. simpl in Hm. by apply andb_true_iff in Hm as [_ [? _]%andb_true_iff].
  - exists r. split; [done|]. rewrite Heq. split_and!; simpl; [by apply same_refl..|done].
Qed.
End statements.

Section operations.
Context {S : Type} `{Sql S} `{!SqlLaws S}.
Abbreviation dbOf e := (sq_db (sv_svc e)).
Abbreviation step := (step sq_pa).

(** A fetch that has answered: its statement, and what happened before and after. *)
Lemma pgx_fetched p (e : SqEnv (S := S)) rows : keyedDb (dbOf e) → (execOp None (OFetch p) e).2 = (rows, None) →
  ∃ now l pre post d1, rows = scanJobRow <$> l ∧ runMoves step pre (dbOf e) = Some d1 ∧
    runMoves step (MReq (ClaimJobs (fp_Queue p) now (fetchLimit (fp_Limit p)) (claimSets p now)) l :: post) d1 = Some (dbOf (execOp None (OFetch p) e).1).
Proof.
  intros Hk Ha. destruct (pgx_keeps None (OFetch p) e Hk) as (acts & [(tr & Hr & Ho) _] & Hp). rewrite Ha in Hp.
  destruct Hp as (now & l & Hd & ->). simpl in Hd. exists now, l.
  assert (MReq (ClaimJobs (fp_Queue p) now (fetchLimit (fp_Limit p)) (claimSets p now)) l ∈ trMoves tr) as Hin.
  { apply did_trMoves. rewrite Ho, Hd. by left. }
  apply list_elem_of_split in Hin as (pre & post & Ht). rewrite Ht in Hr. apply runMoves_split in Hr as (d1 & d2 & H1 & H2 & H3).
  exists pre, post, d1. split_and!; [done..|]. cbn [runMoves]. by rewrite H2.
Qed.

(** The statement of a fetch, which has claimed the row it has answered. *)
Definition fetches (p : FetchParams) (row : JobRow) (m : move) : Prop :=
  ∃ now l r, m = MReq (ClaimJobs (fp_Queue p) now (fetchLimit (fp_Limit p)) (claimSets p now)) l ∧ r ∈ l ∧ row = scanJobRow r.

(** Two fetches on PostgreSQL that answer the same job: between their statements the
    first claim was released. *)
Theorem pgx_claims_exclusive p1 p2 (e1 e2 : SqEnv (S := S)) ms rows1 rows2 row1 row2 :
  keyedDb (dbOf e1) → (execOp None (OFetch p1) e1).2 = (rows1, None) → row1 ∈ rows1 →
  runMoves step ms (dbOf (execOp None (OFetch p1) e1).1) = Some (dbOf e2) →
  (execOp None (OFetch p2) e2).2 = (rows2, None) → row2 ∈ rows2 → ID row1 = ID row2 →
  ∃ pre m1 mid m2 post, fetches p1 row1 m1 ∧ fetches p2 row2 m2 ∧
    runMoves step (pre ++ m1 :: mid ++ m2 :: post) (dbOf e1) = Some (dbOf (execOp None (OFetch p2) e2).1) ∧
    ∃ m id, m ∈ mid ∧ ID row1 = FormatInt id ∧ releasesClaim sq_pa id (fp_WorkerID p1) (AttemptNum row1) m = true.
Proof.
  intros Hk Ha1 Hin1 Hms Ha2 Hin2 Hid. destruct (pgx_fetched _ _ _ Hk Ha1) as (t1 & l1 & pre & post1 & d1 & -> & Hpre & Hr1).
  pose proof (runMoves_inv step keyedDb (sq_step_keyed sq_pa) _ _ _ Hk Hpre) as Hk1.
  pose proof (runMoves_inv step keyedDb (sq_step_keyed sq_pa) _ _ _ Hk1 Hr1) as Hk1'.
  pose proof (runMoves_inv step keyedDb (sq_step_keyed sq_pa) _ _ _ Hk1' Hms) as Hk2.
  destruct (pgx_fetched _ _ _ Hk2 Ha2) as (t2 & l2 & pre2 & post & d2 & -> & Hpre2 & Hr2).
  apply list_elem_of_fmap in Hin1 as (r1 & -> & Hl1). apply list_elem_of_fmap in Hin2 as (r2 & -> & Hl2).
  set (m1 := MReq (ClaimJobs _ _ _ (claimSets p1 t1)) l1) in *. set (m2 := MReq (ClaimJobs _ _ _ (claimSets p2 t2)) l2) in *.
  assert (runMoves step (m1 :: (post1 ++ ms ++ pre2)) d1 = Some d2) as Hmid.
  { change (m1 :: (post1 ++ ms ++ pre2)) with ((m1 :: post1) ++ ms ++ pre2). eapply runMoves_trans; [exact Hr1|]. by eapply runMoves_trans. }
  exists pre, m1, (post1 ++ ms ++ pre2), m2, post. split_and!; [by exists t1, l1, r1|by exists t2, l2, r2| |].
  - eapply runMoves_trans; [exact Hpre|]. change (m1 :: ?l ++ m2 :: post) with ((m1 :: l) ++ m2 :: post). by eapply runMoves_trans.
  - simpl in Hid. apply FormatInt_inj in Hid. cbn [runMoves] in Hr2. destruct (step m2 d2) as [d3|] eqn:H2; [|done].
    destruct (sq_claims_released sq_pa m1 m2 (post1 ++ ms ++ pre2) (c_id r1) (fp_WorkerID p1) (c_attempt_num r1) (fp_WorkerID p2) (c_attempt_num r2) d1 d3) as (m & Hm & Hrel); [exact sq_states_law|done|by apply claim_claims| | |by exists m, (c_id r1)].
    + rewrite Hid. by apply claim_claims.
    + change (m1 :: ?l ++ [m2]) with ((m1 :: l) ++ [m2]). eapply runMoves_trans; [exact Hmid|]. cbn [runMoves]. by rewrite H2.
Qed.

(** The claim that the caller of a transition names. *)
Definition namesClaim (p : JobSetStateParams) (r : jobRecord) : Prop :=
  same sq_pa (c_state r) JobStateRunning = true ∧
  (same sq_pa (sp_ExpectedWorkerID p) "" = true ∨ sameOpt sq_pa (c_worker_id r) (sp_ExpectedWorkerID p) = true) ∧
  (sp_ExpectedAttempt p = 0 ∨ c_attempt_num r = sp_ExpectedAttempt p).

Lemma fence_names z p r : matches sq_pa (fence (IsID z) p) r = true → c_id r = z ∧ namesClaim p r.
Proof.
  unfold matches, fence. simpl. rewrite !andb_true_iff, !orb_true_iff, !Z.eqb_eq. intros (? & ? & ? & ? & _). done.
Qed.

(** A transition that answers success on PostgreSQL was written to a row that was, at
    that moment, running as the claim that the caller names. *)
Theorem pgx_outcome_fenced p (e : SqEnv (S := S)) :
  keyedDb (dbOf e) → (execOp None (OSetState p) e).2 = None →
  ∃ z errs fin pre r post d1 d2, ParseInt (sp_ID p) = Ok z ∧ settlesWith p errs fin ∧ runMoves step pre (dbOf e) = Some d1 ∧
    db_jobs d1 !! z = Some r ∧ namesClaim p r ∧
    db_jobs d2 = <[z := applySets sq_pa (if sp_Yield p then yieldSets else settleSets p errs fin) r]> (db_jobs d1) ∧
    runMoves step post d2 = Some (dbOf (execOp None (OSetState p) e).1).
Proof.
  intros Hk Ha. destruct (pgx_keeps None (OSetState p) e Hk) as (acts & [(tr & Hr & Ho) _] & Hp). rewrite Ha in Hp.
  unfold promised, promisedMoves, numbered in Hp. destruct (ParseInt (sp_ID p)) as [z|]; [|by destruct Hp].
  destruct Hp as (errs & fin & Hset & ids & Hd & Hne).
  assert (MReq (settleStmt p errs fin z) ids ∈ trMoves tr) as Hin by (apply did_trMoves; rewrite Ho, Hd; by left).
  apply list_elem_of_split in Hin as (pre & post & Ht). rewrite Ht in Hr. apply runMoves_split in Hr as (d1 & d2 & H1 & H2 & H3).
  pose proof (runMoves_inv step keyedDb (sq_step_keyed sq_pa) _ _ _ Hk H1) as Hk1.
  pose proof (possible_one _ _ _ (ex_intro _ d1 (ex_intro _ d2 (conj Hk1 H2)))) as Hone. simpl in Hone.
  unfold settleStmt in H2. apply sq_step_jobs in H2 as ([Hn Hm]%someOf_spec & -> & _).
  destruct ids as [|i [|]]; [done| |simpl in Hone; lia]. destruct (Hm i) as (r & Hir & Hmr); [by left|]. apply fence_names in Hmr as [Hid Hnm].
  assert (i = z) as -> by (by rewrite <-Hid; symmetry; apply Hk1).
  exists z, errs, fin, pre, r, post, d1. eexists. split_and!; [done..| |exact H3].
  simpl. apply map_eq. intros j. destruct (decide (j = z)) as [->|]; [by rewrite lookup_alter_eq, lookup_insert_eq, Hir|by rewrite lookup_alter_ne, lookup_insert_ne].
Qed.
End operations.
