(* ===== verification/SqlPgxDemo.v ===== *)
(** * driver/pgxv5: runs on the concrete database

    The theorems about the backend applied to concrete runs, and runs that show what
    does not hold: a paused queue is fetched from; a batch fails with an error of the
    database client when the job it collides with is deleted meanwhile; a job is
    rescheduled under the worker that runs it, and runs twice at a time. *)

From S2P Require Import Prelude GoBase Json Codec Driver Moves Memory Sql SqlLaws SqlPgx SqlPgxRefine SqlSafety SqlSim.
From Stdlib Require Import ZArith Lia.

#[local] Instance pgDb : Sql Sim := simSql postgresParams.
#[local] Instance pgLaws : SqlLaws Sim := postgresLaws.
Abbreviation step := (step postgresParams).

Definition noon : Instant := unixEpoch + 20000 * 24 * Hour.
Definition emptyDb : Db := mkDb ∅ ∅ ∅ ∅ ∅.
Definition simEnv (d : Db) (now : Instant) (races : list (list move * bool)) : SqEnv (S := Sim) :=
  newPgx (mkSim d (1 + Z.of_nat (size (db_used d))) [] races) (frozenClock now).
Definition dbAfter (e : SqEnv (S := Sim)) : Db := sm_db (sv_svc e).

Lemma sq_keyed_empty : keyedDb emptyDb.
Proof. split; intros id r; simpl; by rewrite lookup_empty. Qed.

Lemma sq_dbs_decided (x y : option Db) : bool_decide (x = y) = true → x = y.
Proof. apply bool_decide_eq_true. Qed.
Ltac decide_dbs := apply sq_dbs_decided; vm_compute; reflexivity.

Definition simParams (queue key : string) : JobInsertParams := mkJobInsertParams queue "email" "{}" 0 0 key 3 Minute [] "".
Definition simFetch (w : string) : FetchParams := mkFetchParams "mail" 5 w Minute.
Definition simOutcome (state id w : string) : JobSetStateParams := mkJobSetStateParams id state None None 0 0 w 1 false.

Definition demoProgram : list driverOp :=
  [OInsert [simParams "mail" "k"; simParams "mail" "k"; simParams "mail" ""; simParams "mail" ""]; OFetch (simFetch "w1");
   OSetState (simOutcome JobStateCompleted "1" "w2"); OSetState (simOutcome JobStateCompleted "1" "w1"); OStats "mail";
   OList (mkJobListParams "mail" "" "" 10 ""); ORescue (mkJobRescueParams "mail" (noon + Hour) noon); ODelete "1"].

(** What the program is answered: the duplicate is skipped, the claim of the other
    worker is stale, the stats count three jobs, and two jobs are rescued. *)
Definition tellAnswer (oa : {o : driverOp & ans o}) : list string :=
  match oa with
  | existT (OInsert _) (Ok rs) => (λ r, if ir_UniqueSkip r then "skip" else "new") <$> rs
  | existT (OFetch _) (rows, _) => ID <$> rows
  | existT (OSetState _) err => [if err then "stale" else "done"]
  | existT (OStats _) (Ok s) => [FormatInt (qs_Total s)]
  | existT (OList _) (Ok rows) => State <$> rows
  | existT (ORescue _) (n, _) => [FormatInt n]
  | existT (ODelete _) None => ["deleted"]
  | _ => ["?"]
  end.
Example pgx_demo_answers : tellAnswer <$> (execAll execOp None demoProgram (simEnv emptyDb noon [])).2 =
  [["new"; "skip"; "new"; "new"]; ["1"; "3"; "4"]; ["stale"]; ["done"]; ["3"]; ["running"; "running"; "completed"]; ["2"]; ["deleted"]].
Proof. vm_compute. reflexivity. Qed.

Lemma pgx_operations_refine_witness :
  keyedDb emptyDb ∧
  ∃ groups, effect postgresParams sm_db pendingOf None (sv_svc (simEnv emptyDb noon [])) (sv_svc (execAll execOp None demoProgram (simEnv emptyDb noon [])).1) (mjoin groups) ∧
    kept promisedMoves groups (execAll execOp None demoProgram (simEnv emptyDb noon [])).2 ∧
    (λ oa : {o : driverOp & ans o}, projT1 oa) <$> (execAll execOp None demoProgram (simEnv emptyDb noon [])).2 = demoProgram.
Proof.
  split; [exact sq_keyed_empty|]. exact (pgx_operations_refine (H := pgDb) (SqlLaws0 := pgLaws) None demoProgram (simEnv emptyDb noon []) sq_keyed_empty).
Defined.

(** A transaction that inserts, claims and completes a job, and pauses a queue. *)
Definition txProgram : list driverOp :=
  [OInsert [simParams "mail" "k"]; OFetch (simFetch "w1"); OSetState (simOutcome JobStateCompleted "1" "w1"); OSetPaused "mail" true].
Definition txRun := inTransaction execOp txProgram (simEnv emptyDb noon []).


Example pgx_transaction_run : (c_state <$> db_jobs (dbAfter txRun.1) !! 1) = Some JobStateCompleted ∧ (k_paused <$> db_queues (dbAfter txRun.1) !! "mail") = Some true.
Proof. vm_compute. done. Qed.

(** A claim, and then its rescue an hour later. *)
Definition insertedEnv : SqEnv (S := Sim) := (execOp None (OInsert [simParams "mail" "k"]) (simEnv emptyDb noon [])).1.
Definition claimedEnv : SqEnv (S := Sim) := (execOp None (OFetch (simFetch "w1")) insertedEnv).1.
Definition rescueOne : move := MReq (UpdateJobs (rescueWhere (mkJobRescueParams "mail" (noon + Hour) noon)) rescueSets) [1].
Definition rescuedEnv : SqEnv (S := Sim) := simEnv (default emptyDb (step rescueOne (dbAfter claimedEnv))) (noon + Hour) [].
Definition fetchedBy (e : SqEnv (S := Sim)) (w : string) : list JobRow := (execOp None (OFetch (simFetch w)) e).2.1.
Definition firstRow (rows : list JobRow) : JobRow := default (scanJobRow (newRecord (simParams "" "") 0)) (head rows).

Definition storedJob : jobRecord := storedRecord postgresParams 1 (newRecord (simParams "mail" "k") noon).
Lemma sq_inserted_keyed : keyedDb (dbAfter insertedEnv).
Proof.
  apply (runMoves_inv step keyedDb (sq_step_keyed postgresParams) [MReq (InsertJob (newRecord (simParams "mail" "k") noon)) (Some storedJob)] emptyDb);
    [exact sq_keyed_empty|decide_dbs].
Qed.
Lemma sq_claimed_keyed : keyedDb (dbAfter claimedEnv).
Proof.
  apply (runMoves_inv step keyedDb (sq_step_keyed postgresParams)
    [MReq (ClaimJobs "mail" noon 5 (claimSets (simFetch "w1") noon)) [applySets postgresParams (claimSets (simFetch "w1") noon) storedJob]] (dbAfter insertedEnv));
    [exact sq_inserted_keyed|decide_dbs].
Qed.

Lemma sq_head_elem {A} (l : list A) x : head l = Some x → x ∈ l.
Proof. destruct l; [done|]. intros [= ->]. by left. Qed.

Lemma pgx_claims_exclusive_witness :
  ID (firstRow (fetchedBy insertedEnv "w1")) = "1" ∧
  ∃ pre m1 mid m2 post, fetches (simFetch "w1") (firstRow (fetchedBy insertedEnv "w1")) m1 ∧ fetches (simFetch "w2") (firstRow (fetchedBy rescuedEnv "w2")) m2 ∧
    runMoves step (pre ++ m1 :: mid ++ m2 :: post) (dbAfter insertedEnv) = Some (dbAfter (execOp None (OFetch (simFetch "w2")) rescuedEnv).1) ∧
    ∃ m id, m ∈ mid ∧ ID (firstRow (fetchedBy insertedEnv "w1")) = FormatInt id ∧
      releasesClaim postgresParams id "w1" (AttemptNum (firstRow (fetchedBy insertedEnv "w1"))) m = true.
Proof.
  split; [vm_compute; reflexivity|].
  refine (pgx_claims_exclusive (H := pgDb) (SqlLaws0 := pgLaws) (simFetch "w1") (simFetch "w2") insertedEnv rescuedEnv [rescueOne]
           (fetchedBy insertedEnv "w1") (fetchedBy rescuedEnv "w2") (firstRow (fetchedBy insertedEnv "w1")) (firstRow (fetchedBy rescuedEnv "w2")) _ _ _ _ _ _ _).
  - exact sq_inserted_keyed.
  - vm_compute. reflexivity.
  - apply sq_head_elem. vm_compute. reflexivity.
  - decide_dbs.
  - vm_compute. reflexivity.
  - apply sq_head_elem. vm_compute. reflexivity.
  - vm_compute. reflexivity.
Defined.

Lemma pgx_outcome_fenced_witness :
  let p := simOutcome JobStateCompleted "1" "w1" in
  (execOp None (OSetState p) claimedEnv).2 = None ∧
  ∃ z errs fin pre r post d1 d2, ParseInt (sp_ID p) = Ok z ∧ settlesWith p errs fin ∧ runMoves step pre (dbAfter claimedEnv) = Some d1 ∧
    db_jobs d1 !! z = Some r ∧ namesClaim (H := pgDb) (SqlLaws0 := pgLaws) p r ∧
    db_jobs d2 = <[z := applySets postgresParams (if sp_Yield p then yieldSets else settleSets p errs fin) r]> (db_jobs d1) ∧
    runMoves step post d2 = Some (dbAfter (execOp None (OSetState p) claimedEnv).1).
Proof.
  cbv zeta. split; [vm_compute; reflexivity|].
  refine (pgx_outcome_fenced (H := pgDb) (SqlLaws0 := pgLaws) (simOutcome JobStateCompleted "1" "w1") claimedEnv sq_claimed_keyed _). vm_compute. reflexivity.
Defined.

(** ** What does not hold *)

(** The queue is paused; a fetch claims its job. *)
Lemma pgx_paused_queue_runs :
  let e := (execOp None (OSetPaused "mail" true) insertedEnv).1 in
  (k_paused <$> db_queues (dbAfter e) !! "mail") = Some true ∧ (ID <$> fetchedBy e "w1") = ["1"].
Proof. vm_compute. done. Qed.

(** A batch collides with a job of the same key, which is deleted before it is looked
    for: the whole batch is answered with the client's error for an empty result. *)
Definition deleteOne : move := MReq (DeleteJobs (IsID 1)) [1].
Lemma pgx_insert_race_fails :
  let r := execOp None (OInsert [simParams "mail" ""; simParams "mail" "k"]) (simEnv (dbAfter insertedEnv) noon [([], false); ([], false); ([deleteOne], false)]) in
  r.2 = Err (ENew "no rows in result set") ∧ (c_state <$> db_jobs (dbAfter r.1) !! 2) = Some JobStateAvailable.
Proof. vm_compute. done. Qed.

(** A running job is rescheduled, and is claimed by a second worker while the first
    still runs it; what the first then reports is refused. *)
Lemma pgx_reschedule_steals :
  let e := (execOp None (OReschedule (mkRescheduleParams "1" noon)) claimedEnv).1 in
  (c_state <$> db_jobs (dbAfter claimedEnv) !! 1) = Some JobStateRunning ∧ (ID <$> fetchedBy e "w2") = ["1"] ∧
  (execOp None (OSetState (simOutcome JobStateCompleted "1" "w1")) (execOp None (OFetch (simFetch "w2")) e).1).2 = Some (jobError ErrStaleClaim "1").
Proof. vm_compute. done. Qed.

(** A transaction that is rolled back changes nothing; its reads have seen its row. *)
Lemma pgx_rollback_changes_nothing :
  let '(e1, b) := Begin (simEnv (dbAfter insertedEnv) noon []) in
  match b with
  | Ok tx =>
      let '(e2, as_) := execAll execOp (Some tx) [OInsert [simParams "mail" ""]; OGet "2"] e1 in
      (tellAnswer <$> take 1 as_) = [["new"]] ∧ match as_ with [_; existT (OGet _) (Ok row)] => ID row = "2" | _ => False end ∧
      bool_decide (dbAfter (Rollback tx e2).1 = dbAfter insertedEnv) = true
  | Err _ => False
  end.
Proof. vm_compute. done. Qed.
