(* ===== verification/SqlStd.v ===== *)
(** * driver/stdlib: the operations

    The backend over database/sql, for three dialects.  Other than driver/pgxv5 it
    claims with two statements, and looks the rows up with a third; and where the
    dialect has no RETURNING it inserts without ON CONFLICT and takes a failure for a
    duplicate if it finds one.  [d] is the dialect, [tx] the transaction if any. *)

From S2P Require Import Prelude GoBase Json Codec Driver Memory Sql.
From Stdlib Require Import ZArith Lia.

Inductive Dialect := Postgres | MySQL | SQLite.

#[export] Instance Dialect_eq_dec : EqDecision Dialect.
Proof. solve_decision. Defined.

Definition DialectString (d : Dialect) : string :=
  match d with Postgres => "postgres" | MySQL => "mysql" | SQLite => "sqlite" end.

(** [Dialect.q]: each question mark becomes a numbered placeholder. *)
Fixpoint numberPlaceholders (n : Z) (query : string) : string :=
  match query with
  | EmptyString => EmptyString
  | String c r =>
      if bool_decide (String c EmptyString = "?") then "$" +:+ FormatInt (n + 1) +:+ numberPlaceholders (n + 1) r
      else String c (numberPlaceholders n r)
  end.
Definition rebind (d : Dialect) (query : string) : string :=
  match d with Postgres => numberPlaceholders 0 query | _ => query end.

Definition supportsSkipLocked (d : Dialect) : bool := match d with Postgres | MySQL => true | SQLite => false end.

Section driver.
Context {S : Type} `{Sql S} (d : Dialect).
#[local] Abbreviation io := (Sql.io (S := S)).

(** ** Inserting *)

Definition findUniqueJob (tx : option nat) (uniqueKey : string) : io (result (option JobRow)) :=
  r ← call tx (SelectJob (KeyIs uniqueKey));
  mret match r with Err err => Err err | Ok row => Ok (scanJobRow <$> row) end.

Definition jobGetByID (tx : option nat) (id : string) : io (result JobRow) :=
  r ← call tx (SelectJob (IsIDText id));
  mret match r with
       | Err err => Err err
       | Ok None => Err (jobError ErrNotFound id)
       | Ok (Some row) => Ok (scanJobRow row)
       end.

(** No arguments are an empty object; the tags pass through JSON. *)
Definition jsonColumns (p : JobInsertParams) : JobInsertParams :=
  mkJobInsertParams (ip_Queue p) (ip_Kind p) (if bool_decide (ip_Args p = "") then "{}" else ip_Args p) (ip_Priority p) (ip_RunAt p)
    (ip_UniqueKey p) (ip_MaxRetry p) (ip_Timeout p) (validUTF8 <$> ip_Tags p) (ip_PipelineID p).

Definition hasKey (p : JobInsertParams) : bool := bool_decide (ip_UniqueKey p ≠ "").
Definition skipFor (existing : option JobRow) : JobInsertResult := mkJobInsertResult existing true.
Definition insertErr (err : error) : error := EWrap "insert job: " err "".

(** The row that was inserted, read back. *)
Definition readBack (tx : option nat) (id : Z) : io (result JobInsertResult) :=
  r ← jobGetByID tx (FormatInt id);
  mret match r with Err rowErr => Err rowErr | Ok row => Ok (mkJobInsertResult (Some row) false) end.

Definition insertReturning (tx : option nat) (now : Instant) (p : JobInsertParams) : io (result JobInsertResult) :=
  r ← call tx (InsertJob (newRecord (jsonColumns p) now));
  match r with
  | Err err => mret (Err (insertErr err))
  | Ok (Some row) => readBack tx (c_id row)
  | Ok None =>
      if hasKey p
      then f ← findUniqueJob tx (ip_UniqueKey p);
           mret match f with Err findErr => Err findErr | Ok existing => Ok (skipFor existing) end
      else mret (Err (insertErr sq_ErrNoRows))
  end.

Definition insertPlain (tx : option nat) (now : Instant) (p : JobInsertParams) : io (result JobInsertResult) :=
  r ← call tx (InsertRow (newRecord (jsonColumns p) now));
  match r with
  | Ok id => readBack tx id
  | Err err =>
      if hasKey p
      then f ← findUniqueJob tx (ip_UniqueKey p);
           mret match f with Ok (Some existing) => Ok (skipFor (Some existing)) | _ => Err (insertErr err) end
      else mret (Err (insertErr err))
  end.

Definition insertNew (tx : option nat) (now : Instant) (p : JobInsertParams) : io (result JobInsertResult) :=
  match d with Postgres => insertReturning tx now p | _ => insertPlain tx now p end.

(** One round of the loop of [jobInsertMany]. *)
Definition insertParam (tx : option nat) (now : Instant) (p : JobInsertParams) : io (result JobInsertResult) :=
  if hasKey p
  then f ← findUniqueJob tx (ip_UniqueKey p);
       match f with
       | Err err => mret (Err err)
       | Ok (Some existing) => mret (Ok (skipFor (Some existing)))
       | Ok None => insertNew tx now p
       end
  else insertNew tx now p.

Fixpoint insertParams (tx : option nat) (now : Instant) (params : list JobInsertParams) : io (result (list JobInsertResult)) :=
  match params with
  | [] => mret (Ok [])
  | p :: ps =>
      r ← insertParam tx now p;
      match r with
      | Err err => mret (Err err)
      | Ok res => rs ← insertParams tx now ps; mret match rs with Err err => Err err | Ok rest => Ok (res :: rest) end
      end
  end.

Definition jobInsertMany (tx : option nat) (params : list JobInsertParams) : io (result (list JobInsertResult)) :=
  now ← clkNow; insertParams tx now params.

(** ** Reading *)

Definition cursorWhere (cursor : string) : result (list where_) :=
  if bool_decide (cursor = "") then Ok []
  else match DecodeJobCursor cursor with
       | Err err => Err err
       | Ok (cursorAt, cursorID) => Ok [CreatedBeforeText cursorAt cursorID]
       end.

Definition jobList (tx : option nat) (params : JobListParams) : io (result (list JobRow)) :=
  match cursorWhere (jl_Cursor params) with
  | Err err => mret (Err err)
  | Ok cur =>
      r ← call tx (SelectJobs (listWhere params ++ cur) (pageLimit (jl_Limit params)));
      mret match r with Err err => Err err | Ok rows => Ok (scanJobRow <$> rows) end
  end.

Definition queueStats (tx : option nat) (queue : string) : io (result QueueStats) :=
  r ← call tx (CountStates queue);
  mret match r with Err err => Err err | Ok counts => Ok (statsOf queue counts) end.

(** ** Fetching *)

Definition claimJobs (tx : option nat) (now : Instant) (ids : list Z) (params : FetchParams) : io (list JobRow * option error) :=
  u ← call tx (UpdateJobs [IDIn ids] (claimSets params now));
  match u with
  | Err err => mret ([], Some (EWrap "claim jobs: " err ""))
  | Ok _ =>
      r ← call tx (SelectIDs ids);
      mret match r with Err err => ([], Some err) | Ok rows => (scanJobRow <$> rows, None) end
  end.

Definition selectErr (err : error) : error := if supportsSkipLocked d then EWrap "fetch ids: " err "" else err.

(** [jobFetchSkipLocked] and [jobFetchSQLite]. *)
Definition jobFetchBatch (tx : option nat) (params : FetchParams) : io (list JobRow * option error) :=
  now ← clkNow;
  r ← call tx (SelectDue (supportsSkipLocked d) (fp_Queue params) now (fetchLimit (fp_Limit params)));
  match r with
  | Err err => mret ([], Some (selectErr err))
  | Ok [] => mret ([], None)
  | Ok ids => claimJobs tx now ids params
  end.

(** ** Claims *)

Definition jobRescueStuck (tx : option nat) (params : JobRescueParams) : io (Z * option error) :=
  r ← call tx (UpdateJobs (rescueWhere params) rescueSets);
  mret match r with Err err => (0, Some (EWrap "rescue stuck jobs: " err "")) | Ok ids => (RowsAffected ids, None) end.

Definition jobHeartbeat (tx : option nat) (params : JobHeartbeatParams) : io (bool * option error) :=
  r ← call tx (UpdateJobs (claimedBy (hp_ID params) (hp_WorkerID params) (hp_Attempt params)) [ToLease (Some (UTC (renewalUntil params)))]);
  mret match r with Err err => (false, Some err) | Ok ids => (0 <? RowsAffected ids, None) end.

Definition jobMarkStarted (tx : option nat) (params : JobMarkStartedParams) : io (bool * option error) :=
  r ← call tx (UpdateJobs (claimedBy (ms_ID params) (ms_WorkerID params) (ms_Attempt params)) [ToStartedAt (Some (UTC (ms_At params)))]);
  mret match r with Err err => (false, Some err) | Ok ids => (RowsAffected ids =? 1, None) end.
End driver.

Section outcomes.
Context {S : Type} `{Sql S} (d : Dialect).
#[local] Abbreviation io := (Sql.io (S := S)).

(** ** Outcomes *)

Definition finalizedAt (params : JobSetStateParams) : io (option Instant) :=
  if isTerminalState (sp_State params) then now ← clkNow; mret (Some now) else mret None.

Definition errorEntry (params : JobSetStateParams) : io (list AttemptError) :=
  match sp_Err params with
  | None => mret []
  | Some msg => now ← clkNow; mret [encodedError now (sp_Attempt params) msg (default "" (sp_Trace params))]
  end.

(** MySQL and SQLite append the error first, with a statement of its own. *)
Definition appendError (tx : option nat) (params : JobSetStateParams) (errs : list AttemptError) : io (option error) :=
  match errs with
  | [] => mret None
  | _ => r ← call tx (UpdateJobs (fence (IsIDText (sp_ID params)) params) [AppendErrors errs]); mret (errOf r)
  end.

Definition settle (tx : option nat) (params : JobSetStateParams) (sets : list set_) : io (option error) :=
  r ← call tx (UpdateJobs (fence (IsIDText (sp_ID params)) params) sets); mret (staleClaimIfNoRows (sp_ID params) r).

Definition jobSetStateIfRunning (tx : option nat) (params : JobSetStateParams) : io (option error) :=
  if sp_Yield params then settle tx params yieldSets
  else
    fin ← finalizedAt params;
    errs ← errorEntry params;
    match d with
    | Postgres => settle tx params (settleSets params errs fin)
    | _ =>
        e ← appendError tx params errs;
        match e with Some err => mret (Some err) | None => settle tx params (mainSets params fin) end
    end.

(** ** Cancelling, deleting, rescheduling *)

Definition jobCancel (tx : option nat) (id : string) : io (option error) :=
  now ← clkNow;
  r ← call tx (UpdateJobs (cancelWhere (IsIDText id)) (cancelSets now));
  match r with
  | Err err => mret (Some err)
  | Ok ids =>
      if RowsAffected ids =? 0
      then g ← jobGetByID tx id; mret match g with Err getErr => Some getErr | Ok _ => Some (notCancellable id) end
      else mret None
  end.

Definition jobDelete (tx : option nat) (id : string) : io (option error) :=
  r ← call tx (DeleteJobs (IsIDText id)); mret (notFoundIfNoRows id r).

Definition jobReschedule (tx : option nat) (params : RescheduleParams) : io (option error) :=
  r ← call tx (UpdateJobs [IsIDText (rs_ID params)] (rescheduleSets params)); mret (notFoundIfNoRows (rs_ID params) r).

(** ** Queues *)

Definition queueGet (tx : option nat) (name : string) : io (result QueueRow) :=
  r ← call tx (SelectQueue name);
  mret match r with
       | Err err => Err err
       | Ok None => Err (EWrap "" (ESentinel ErrNotFound) (": queue " +:+ quoted name))
       | Ok (Some q) => Ok (scanQueueRow q)
       end.

Definition queueSetPaused (tx : option nat) (name : string) (paused : bool) : io (option error) :=
  now ← clkNow; r ← call tx (UpsertQueue name paused now); mret (errOf r).

Definition queueList (tx : option nat) (params : QueueListParams) : io (result (list QueueRow)) :=
  let go after :=
    r ← call tx (SelectQueues after (pageLimit (ql_Limit params)));
    mret match r with Err err => Err err | Ok rows => Ok (scanQueueRow <$> rows) end in
  if bool_decide (ql_Cursor params = "") then go None
  else match DecodeQueueCursor (ql_Cursor params) with Err err => mret (Err err) | Ok cursor => go (Some cursor) end.

(** ** Leases and schedule cursors *)

(** When the insertion fails, somebody may have been faster: that is no error if the
    lease is there. *)
Definition leaderAttemptElect (tx : option nat) (params : LeaderElectParams) : io (bool * option error) :=
  now ← clkNow;
  let expiresAt := Add now (le_TTL params) in
  u ← call tx (UpdateLeader (le_Name params) (le_WorkerID params) expiresAt now);
  match u with
  | Err err => mret (false, Some err)
  | Ok true => mret (true, None)
  | Ok false =>
      i ← call tx (InsertLeader (le_Name params) (le_WorkerID params) expiresAt);
      match i with
      | Ok _ => mret (true, None)
      | Err err =>
          r ← call tx (SelectLeader (le_Name params));
          mret match r with Ok (Some _) => (false, None) | _ => (false, Some err) end
      end
  end.

Definition leaderResign (tx : option nat) (params : LeaderResignParams) : io (option error) :=
  r ← call tx (DeleteLeader (lr_Name params) (lr_WorkerID params)); mret (errOf r).

Definition scheduleCursorGetOrCreate (tx : option nat) (params : ScheduleCursorCreateParams) : io (ScheduleCursorResult * option error) :=
  r ← call tx (InsertCursor (cc_ID params) (UTC (cc_InitialAt params)));
  match r with
  | Err err => mret (emptyCursorResult, Some err)
  | Ok created =>
      r ← call tx (SelectCursor (cc_ID params));
      mret match r with
           | Err err => (emptyCursorResult, Some err)
           | Ok None => (emptyCursorResult, Some sq_ErrNoRows)
           | Ok (Some at_) => (mkScheduleCursorResult (UTC at_) created, None)
           end
  end.

Definition scheduleCursorAdvance (tx : option nat) (params : ScheduleCursorAdvanceParams) : io (bool * option error) :=
  r ← call tx (UpdateCursor (ca_ID params) (UTC (ca_Next params)) (UTC (ca_Expected params))); mret (boolOrErr r).

(** ** Transactions *)

Definition Begin : io (result nat) := onService (sq_Begin None).
(** Without savepoints the executor of a nested transaction is that of the outer one. *)
Definition BeginNested (tx : nat) : io (result nat) :=
  match d with Postgres => onService (sq_Begin (Some tx)) | _ => mret (Ok tx) end.
Definition Commit (tx : nat) : io (option error) := onService (sq_Commit tx).
Definition Rollback (tx : nat) : io (option error) := onService (sq_Rollback tx).
End outcomes.

Definition StdCapabilities (d : Dialect) : Capabilities :=
  {| NativeTx := true; ListenNotify := false; ChangeStreams := false; SkipLocked := supportsSkipLocked d; UniqueJobs := true;
     AdvisoryLocks := false; LinearizableLeases := true; LinearizableCAS := true; LifecycleTimestamps := true;
     BoundedFetch := true; StrictFetchOrdering := true |}.
Definition stdName (d : Dialect) : string := DialectString d.
Definition newStd {S} (db : S) (clk : Clock) : SqEnv (S := S) := mkSqEnv db clk.
