(* ===== verification/SqlStdRefine.v ===== *)
(** * driver/stdlib: what each operation does

    The promises of the operations that are not those of driver/pgxv5, and that every
    operation keeps its promise.  A fetch sends three statements, and only the first
    looks at the state of the jobs.

    Within a transaction the rows are locked from the first statement of a fetch to the
    commit, and a committed fetch has claimed what was due.  Outside of one that is not
    so: see SqlStdDemo.v. *)

From S2P Require Import Prelude GoBase Json Codec Driver Moves Memory Sql SqlLaws SqlSafety.
From S2P Require SqlPgx SqlPgxRefine.
From S2P Require Import SqlStd.
From Stdlib Require Import ZArith Lia.

Abbreviation asked := SqlPgxRefine.asked.
Abbreviation guarded := SqlPgxRefine.guarded.
Abbreviation settlesWith := SqlPgxRefine.settlesWith.

Section operations.
Context {S : Type} `{Sql S} (d : Dialect).
#[local] Abbreviation io := (Sql.io (S := S)).

Definition execOp (tx : option nat) (o : driverOp) : io (ans o) :=
  match o with
  | OInsert ps => jobInsertMany d tx ps
  | OGet id => jobGetByID tx id
  | OList p => jobList tx p
  | OStats q => queueStats tx q
  | OFetch p => jobFetchBatch d tx p
  | ORescue p => jobRescueStuck tx p
  | OHeartbeat p => jobHeartbeat tx p
  | OMarkStarted p => jobMarkStarted tx p
  | OSetState p => jobSetStateIfRunning d tx p
  | OCancel id => jobCancel tx id
  | ODelete id => jobDelete tx id
  | OReschedule p => jobReschedule tx p
  | OQueueGet n => queueGet tx n
  | OSetPaused n b => queueSetPaused tx n b
  | OQueueList p => queueList tx p
  | OElect p => leaderAttemptElect tx p
  | OResign p => leaderResign tx p
  | OCursorGet p => scheduleCursorGetOrCreate tx p
  | OCursorAdvance p => scheduleCursorAdvance tx p
  end.
End operations.

(** ** Promises *)

(** The job of a unique key, before the insertion. *)
Definition looked (p : JobInsertParams) (row : option jobRecord) : move := MReq (SelectJob (KeyIs (ip_UniqueKey p))) row.
Definition lookedFirst (p : JobInsertParams) : list move := if hasKey p then [looked p None] else [].

Definition insertStmt (d : Dialect) (now : Instant) (p : JobInsertParams) : stmt :=
  let r := newRecord (jsonColumns p) now in match d with Postgres => InsertJob r | _ => InsertRow r end.
Definition inserts (d : Dialect) (now : Instant) (p : JobInsertParams) (id : Z) (m : move) : Prop :=
  let r := newRecord (jsonColumns p) now in
  match d with Postgres => ∃ row, c_id row = id ∧ m = MReq (InsertJob r) (Some row) | _ => m = MReq (InsertRow r) id end.

(** What became of one parameter of a batch: a job of its key was there, or the row
    was inserted and read back, or it collided with one.  Without RETURNING a
    collision is an insertion that failed. *)
Definition insertedAs (d : Dialect) (now : Instant) (p : JobInsertParams) (ms : list move) (res : JobInsertResult) : Prop :=
  if ir_UniqueSkip res
  then hasKey p = true ∧
    ((∃ row, ir_Job res = Some (scanJobRow row) ∧ ms = [looked p (Some row)]) ∨
     ∃ row l, ir_Job res = scanJobRow <$> row ∧ ms = looked p None :: l ++ [looked p row] ∧
       match d with Postgres => l = [MReq (InsertJob (newRecord (jsonColumns p) now)) None] | _ => is_Some row ∧ tried (insertStmt d now p) l end)
  else ∃ id m row, inserts d now p id m ∧ ir_Job res = Some (scanJobRow row) ∧
    ms = lookedFirst p ++ [m; MReq (SelectJob (IsIDText (FormatInt id))) (Some row)].

(** A parameter at which the batch has failed: it may have been inserted. *)
Definition insertFails (d : Dialect) (now : Instant) (p : JobInsertParams) (ms : list move) : Prop :=
  hasKey p = true ∧ tried (SelectJob (KeyIs (ip_UniqueKey p))) ms ∨
  ∃ l rest, ms = lookedFirst p ++ l ++ rest ∧ tried (insertStmt d now p) l ∧
    (rest = [] ∨ hasKey p = true ∧ tried (SelectJob (KeyIs (ip_UniqueKey p))) rest ∨
     ∃ id m, inserts d now p id m ∧ l = [m] ∧ tried (SelectJob (IsIDText (FormatInt id))) rest).

(** The statements of a fetch: what is due, the claim of it all, and the rows. *)
Definition fetched (d : Dialect) (p : FetchParams) (now : Instant) (ms : list move) (rows : list JobRow) (err : option error) : Prop :=
  let sel := SelectDue (supportsSkipLocked d) (fp_Queue p) now (fetchLimit (fp_Limit p)) in
  let claim ids := UpdateJobs [IDIn ids] (claimSets p now) in
  match err with
  | None => rows = [] ∧ ms = [MReq sel []] ∨
      ∃ ids hit l, ids ≠ [] ∧ ms = [MReq sel ids; MReq (claim ids) hit; MReq (SelectIDs ids) l] ∧
        Forall (λ r, c_id r ∈ ids) l ∧ rows = scanJobRow <$> l
  | Some _ => rows = [] ∧
      (tried sel ms ∨ ∃ ids l, ids ≠ [] ∧ ms = MReq sel ids :: l ∧
        (tried (claim ids) l ∨ ∃ hit l', l = MReq (claim ids) hit :: l' ∧ tried (SelectIDs ids) l'))
  end.

Definition fenced (p : JobSetStateParams) (sets : list set_) : stmt := UpdateJobs (fence (IsIDText (sp_ID p)) p) sets.

(** An outcome: in one statement, or the error first. *)
Definition settled (d : Dialect) (p : JobSetStateParams) (errs : list AttemptError) (fin : option Instant) (err : option error) (ms : list move) : Prop :=
  if sp_Yield p then guarded (fenced p yieldSets) (λ a, a) ErrStaleClaim err ms
  else match d with
       | Postgres => guarded (fenced p (settleSets p errs fin)) (λ a, a) ErrStaleClaim err ms
       | _ =>
           if decide (errs = []) then guarded (fenced p (mainSets p fin)) (λ a, a) ErrStaleClaim err ms
           else err ≠ None ∧ tried (fenced p [AppendErrors errs]) ms ∨
             ∃ ids l, ms = MReq (fenced p [AppendErrors errs]) ids :: l ∧ guarded (fenced p (mainSets p fin)) (λ a, a) ErrStaleClaim err l
       end.

Definition promisedMoves (d : Dialect) (o : driverOp) (ms : list move) : ans o → Prop :=
  match o with
  | OInsert ps => λ a, ∃ now,
      match a with
      | Ok rs => ∃ groups, ms = mjoin groups ∧ Forall3 (insertedAs d now) ps groups rs
      | Err _ => ∃ before p rest groups rs last, ps = before ++ p :: rest ∧ ms = mjoin groups ++ last ∧
          Forall3 (insertedAs d now) before groups rs ∧ insertFails d now p last
      end
  | OGet id => λ a,
      match a with
      | Ok row => ∃ r, ms = [MReq (SelectJob (IsIDText id)) (Some r)] ∧ row = scanJobRow r
      | Err e => if errorsIs e ErrNotFound then ms = [MReq (SelectJob (IsIDText id)) None] else tried (SelectJob (IsIDText id)) ms
      end
  | OList p => λ a,
      match a with
      | Ok rows => ∃ cur l, cursorWhere (jl_Cursor p) = Ok cur ∧ rows = scanJobRow <$> l ∧
          ms = [MReq (SelectJobs (listWhere p ++ cur) (pageLimit (jl_Limit p))) l]
      | Err e => match cursorWhere (jl_Cursor p) with
                 | Err e' => e = e' ∧ ms = []
                 | Ok cur => tried (SelectJobs (listWhere p ++ cur) (pageLimit (jl_Limit p))) ms
                 end
      end
  | OFetch p => λ '(rows, err), ∃ now, fetched d p now ms rows err
  | OSetState p => λ err, ∃ errs fin, settlesWith p errs fin ∧ settled d p errs fin err ms
  | OCancel id => λ err, ∃ now,
      let q := UpdateJobs (cancelWhere (IsIDText id)) (cancelSets now) in
      match err with
      | None => ∃ ids, ms = [MReq q ids] ∧ ids ≠ []
      | Some e =>
          if errorsIs e ErrNotFound then ms = [MReq q []; MReq (SelectJob (IsIDText id)) None]
          else if errorsIs e ErrConflict then ∃ r, ms = [MReq q []; MReq (SelectJob (IsIDText id)) (Some r)]
          else tried q ms ∨ ∃ l, ms = MReq q [] :: l ∧ tried (SelectJob (IsIDText id)) l
      end
  | ODelete id => λ err, guarded (DeleteJobs (IsIDText id)) (λ a, a) ErrNotFound err ms
  | OReschedule p => λ err, guarded (UpdateJobs [IsIDText (rs_ID p)] (rescheduleSets p)) (λ a, a) ErrNotFound err ms
  | OElect p => λ '(b, err), ∃ now,
      let exp := Add now (le_TTL p) in
      let upd := UpdateLeader (le_Name p) (le_WorkerID p) exp now in
      let ins := InsertLeader (le_Name p) (le_WorkerID p) exp in
      match err with
      | None => if b : bool then ms = [MReq upd true] ∨ ms = [MReq upd false; MReq ins tt]
                else ∃ l r, ms = MReq upd false :: l ++ [MReq (SelectLeader (le_Name p)) (Some r)] ∧ tried ins l
      | Some _ => b = false ∧ (tried upd ms ∨ ∃ l l', ms = MReq upd false :: l ++ l' ∧ tried ins l ∧ tried (SelectLeader (le_Name p)) l')
      end
  | _ => SqlPgxRefine.promisedMoves _ ms
  end.

(** ** The operations keep their promises *)

Section refine.
Context {S : Type} `{Sql S} `{!SqlLaws S} (d : Dialect).

Ltac finish := apply sq_ret; rewrite ?app_nil_r; simpl.
Ltac sq_then := refine (sq_call_then _ _ _ _ _ _).
Ltac sq_single := refine (sq_call_ret _ _ _ _ _ _).
Ltac foreign He := destruct (SqlPgxRefine.sq_foreign_is _ He) as (?Hst & ?Hcf & ?Hnf).

(** ** Inserting *)

Abbreviation oneKept now p acts r :=
  match r with Ok res => insertedAs d now p (did acts) res | Err _ => insertFails d now p (did acts) end.

Lemma std_find_keeps tx key (Q : list (act move) → result (option JobRow) → Prop) :
  (∀ acts row, did acts = [MReq (SelectJob (KeyIs key)) row] → Q acts (Ok (scanJobRow <$> row))) →
  (∀ acts e, tried (SelectJob (KeyIs key)) (did acts) → Q acts (Err e)) →
  does tx (findUniqueJob tx key) Q.
Proof. intros HQ HE. sq_single; [intros acts row _ Hd; by apply HQ|intros acts e _ Ht; by apply HE]. Qed.

Lemma std_readBack_keeps tx now p id m a1 a2 : did a1 = lookedFirst p → did a2 = [m] → inserts d now p id m →
  does tx (readBack tx id) (λ a3 r, oneKept now p (a1 ++ a2 ++ a3) r).
Proof.
  intros H1 H2 Hi. unfold readBack, jobGetByID. apply sq_bind. sq_single.
  - intros a3 [row|] _ Hd; finish; rewrite !did_app, H1, H2, Hd.
    + exists id, m, row. done.
    + right. exists [m], [MReq (SelectJob (IsIDText (FormatInt id))) None]. split_and!; [done| |].
      * unfold inserts, insertStmt in *. destruct d; [destruct Hi as (row & _ & ->)|rewrite Hi..]; right; eauto.
      * right. right. exists id, m. split_and!; [done..|]. right. by exists None.
  - intros a3 e _ Ht. finish. rewrite !did_app, H1, H2. right. exists [m], (did a3). split_and!; [done| |].
    + unfold inserts, insertStmt in *. destruct d; [destruct Hi as (row & _ & ->)|rewrite Hi..]; right; eauto.
    + right. right. by exists id, m.
Qed.

Lemma std_insertNew_keeps tx now p a1 : did a1 = lookedFirst p →
  does tx (insertNew d tx now p) (λ a2 r, oneKept now p (a1 ++ a2) r).
Proof.
  intros H1. unfold insertNew. assert (d = Postgres ∨ d ≠ Postgres) as [Hd|Hd] by (destruct d; auto).
  - rewrite Hd. unfold insertReturning. sq_then.
    + intros a2 [row|] _ H2; simpl; rewrite <-?Hd.
      * eapply std_readBack_keeps; [done..|]. unfold inserts. rewrite Hd. by exists row.
      * destruct (hasKey p) eqn:Hk; [|finish; rewrite did_app, H1, H2; right; exists (did a2), []; rewrite app_nil_r, H2; unfold insertStmt; rewrite Hd; split_and!; [done|by right; exists None|by left]].
        apply sq_bind, std_find_keeps.
        -- intros a3 row H3. finish. rewrite !did_app, H1, H2, H3. unfold lookedFirst. rewrite Hk. split; [done|]. right.
           exists row, [MReq (InsertJob (newRecord (jsonColumns p) now)) None]. rewrite Hd. done.
        -- intros a3 e Ht. finish. rewrite !did_app, H1, H2. right. exists (did a2), (did a3). rewrite H2. unfold insertStmt. rewrite Hd.
           split_and!; [done|by right; exists None|]. right. by left.
    + intros a2 e _ Ht. finish. rewrite <-Hd, did_app, H1. right. exists (did a2), []. rewrite app_nil_r. unfold insertStmt. rewrite Hd. split_and!; [done..|by left].
  - assert ((match d with Postgres => insertReturning tx now p | _ => insertPlain tx now p end) = insertPlain tx now p) as -> by (by destruct d).
    assert (insertStmt d now p = InsertRow (newRecord (jsonColumns p) now)) as Hs by (unfold insertStmt; by destruct d).
    unfold insertPlain. sq_then.
    + intros a2 id _ H2. simpl. eapply std_readBack_keeps; [done..|]. unfold inserts. by destruct d.
    + intros a2 e _ Ht. simpl. destruct (hasKey p) eqn:Hk; [|finish; rewrite did_app, H1; right; exists (did a2), []; rewrite app_nil_r, Hs; split_and!; [done..|by left]].
      apply sq_bind, std_find_keeps.
      * intros a3 [row|] H3; simpl; finish; rewrite !did_app, H1, H3.
        -- unfold lookedFirst. rewrite Hk. split; [done|]. right. exists (Some row), (did a2). rewrite Hs. split_and!; [done..|]. by destruct d.
        -- right. exists (did a2), [looked p None]. rewrite Hs. split_and!; [done..|]. right. left. split; [done|]. by right; exists None.
      * intros a3 e' Ht'. finish. rewrite !did_app, H1. right. exists (did a2), (did a3). rewrite Hs. split_and!; [done..|]. right. by left.
Qed.

Lemma std_insertParam_keeps tx now p : does tx (insertParam d tx now p) (λ acts r, oneKept now p acts r).
Proof.
  unfold insertParam. destruct (hasKey p) eqn:Hk.
  - apply sq_bind, std_find_keeps.
    + intros a1 [row|] H1; simpl.
      * finish. rewrite H1. split; [done|]. left. by exists row.
      * apply std_insertNew_keeps. unfold lookedFirst. by rewrite Hk.
    + intros a1 e Ht. finish. by left.
  - apply (std_insertNew_keeps tx now p []). unfold lookedFirst. by rewrite Hk.
Qed.

Lemma std_insertParams_keeps tx now ps : does tx (insertParams d tx now ps) (λ acts a,
  match a with
  | Ok rs => ∃ groups, did acts = mjoin groups ∧ Forall3 (insertedAs d now) ps groups rs
  | Err _ => ∃ before p rest groups rs last, ps = before ++ p :: rest ∧ did acts = mjoin groups ++ last ∧
      Forall3 (insertedAs d now) before groups rs ∧ insertFails d now p last
  end).
Proof.
  induction ps as [|p ps IH]; simpl; [finish; exists []; split; [done|constructor]|].
  apply sq_bind. eapply sq_weaken; [apply std_insertParam_keeps|]. intros a1 [res|e] H1; simpl in H1.
  - apply sq_bind. eapply sq_weaken; [apply IH|]. intros a2 [rs|e] H2; finish.
    + destruct H2 as (groups & Hd & Hf). exists (did a1 :: groups). rewrite did_app, Hd. split; [done|]. by constructor.
    + destruct H2 as (before & p' & rest & groups & rs & last & -> & Hd & Hf & Ht).
      exists (p :: before), p', rest, (did a1 :: groups), (res :: rs), last. rewrite did_app, Hd. simpl.
      split_and!; [done|by rewrite app_assoc|by constructor|done].
  - finish. exists [], p, ps, [], [], (did a1). split_and!; [done..|constructor|done].
Qed.

Abbreviation promised o := (λ acts a, promisedMoves d o (did acts) a).

Lemma std_insert_promise tx ps : does tx (execOp d tx (OInsert ps)) (promised (OInsert ps)).
Proof. apply sq_bind, sq_now. intros now. simpl. eapply sq_weaken; [apply std_insertParams_keeps|]. intros acts a Ha. by exists now. Qed.

(** ** Reading and fetching *)

Lemma std_get_promise tx id : does tx (execOp d tx (OGet id)) (promised (OGet id)).
Proof.
  sq_single.
  - intros acts [r|] _ Hd; [by exists r|exact Hd].
  - intros acts e He Ht. simpl. foreign He. by rewrite Hnf.
Qed.

Lemma std_list_promise tx p : does tx (execOp d tx (OList p)) (promised (OList p)).
Proof.
  simpl. unfold jobList. destruct (cursorWhere (jl_Cursor p)) as [cur|e]; [|by finish]. sq_single.
  - intros acts l _ Hd. by exists cur, l.
  - intros acts e He Ht. done.
Qed.

Lemma shown_asked ids l : possible (MReq (SelectIDs ids) l) → Forall (λ r, c_id r ∈ ids) l.
Proof.
  intros (db & db' & _ & Hs). cbn [SqlLaws.step serve] in Hs. apply sq_given_Some in Hs as [Hb _]. apply andb_true_iff in Hb as [_ Hb].
  unfold sameMembers in Hb. apply andb_true_iff in Hb as [_ Hb]. bool_to_prop. apply Forall_forall. intros r Hr.
  assert (c_id r ∈ (list_to_set (c_id <$> l) : gset Z)) as Hin by (apply elem_of_list_to_set; by apply list_elem_of_fmap_2).
  rewrite Hb, elem_of_list_to_set, list_elem_of_filter in Hin. by destruct Hin.
Qed.

Lemma std_fetch_promise tx p : does tx (execOp d tx (OFetch p)) (promised (OFetch p)).
Proof.
  simpl. unfold jobFetchBatch. apply sq_bind, sq_now. intros now. cbn beta. rewrite ?app_nil_l. sq_then.
  - intros a1 [|i ids] _ H1; simpl; [finish; exists now; by left|]. unfold claimJobs. sq_then.
    + intros a2 hit _ H2. cbn beta. sq_single.
      * intros a3 l Hp H3. exists now. right. exists (i :: ids), hit, l. rewrite !did_app, H1, H2, H3. split_and!; [done..| |done]. by apply shown_asked.
      * intros a3 e _ Ht. exists now. split; [done|]. right. exists (i :: ids), (did a2 ++ did a3). rewrite !did_app, H1, H2.
        split_and!; [done..|]. right. by exists hit, (did a3).
    + intros a2 e _ Ht. finish. exists now. split; [done|]. right. exists (i :: ids), (did a2). rewrite !did_app, H1. split_and!; [done..|]. by left.
  - intros a1 e _ Ht. finish. exists now. split; [done|]. by left.
Qed.

(** ** Outcomes *)

Lemma std_finalized_keeps tx p (Q : list (act move) → option Instant → Prop) :
  (∀ fin, (is_Some fin ↔ isTerminalState (sp_State p) = true) → Q [] fin) → does tx (finalizedAt p) Q.
Proof. apply SqlPgxRefine.finalized_keeps. Qed.

Lemma std_errorEntry_keeps tx p (Q : list (act move) → list AttemptError → Prop) :
  (∀ errs, match sp_Err p with
           | None => errs = []
           | Some msg => ∃ at_, errs = [encodedError at_ (sp_Attempt p) msg (default "" (sp_Trace p))]
           end → Q [] errs) →
  does tx (errorEntry p) Q.
Proof. apply SqlPgxRefine.encodeError_keeps. Qed.

Lemma std_settle_keeps tx p sets : does tx (settle tx p sets) (λ acts err, guarded (fenced p sets) (λ a, a) ErrStaleClaim err (did acts)).
Proof. apply (SqlPgxRefine.guarded_keeps tx (fenced p sets) (λ a, a) ErrStaleClaim). by intros e (_ & ? & _). Qed.

Lemma std_setState_promise tx p : does tx (execOp d tx (OSetState p)) (promised (OSetState p)).
Proof.
  simpl. unfold jobSetStateIfRunning. destruct (sp_Yield p) eqn:Hy.
  - eapply sq_weaken; [apply std_settle_keeps|]. intros acts err Hg. exists [], None. split; [by left|]. unfold settled. by rewrite Hy.
  - apply sq_bind, std_finalized_keeps. intros fin Hf. cbn beta. apply sq_bind, std_errorEntry_keeps. intros errs He. cbn beta. rewrite ?app_nil_l.
    assert (settlesWith p errs fin) as Hset by (by right).
    assert (d = Postgres ∨ d ≠ Postgres) as [Hd|Hd] by (destruct d; auto).
    + rewrite Hd. eapply sq_weaken; [apply std_settle_keeps|]. intros acts err Hg. exists errs, fin. split; [done|]. unfold settled. by rewrite Hy.
    + set (body := e ← appendError tx p errs; match e with Some err => mret (Some err) | None => settle tx p (mainSets p fin) end).
      assert ((match d with Postgres => settle tx p (settleSets p errs fin) | _ => body end) = body) as -> by (by destruct d).
      assert (∀ err ms, (if decide (errs = []) then guarded (fenced p (mainSets p fin)) (λ a, a) ErrStaleClaim err ms
           else err ≠ None ∧ tried (fenced p [AppendErrors errs]) ms ∨
             ∃ ids l, ms = MReq (fenced p [AppendErrors errs]) ids :: l ∧ guarded (fenced p (mainSets p fin)) (λ a, a) ErrStaleClaim err l) →
         settled d p errs fin err ms) as Hgo by (intros err ms; unfold settled; rewrite Hy; by destruct d).
      unfold body. apply sq_bind. unfold appendError. destruct errs as [|x errs].
      * finish. eapply sq_weaken; [apply std_settle_keeps|]. intros acts err Hg. exists [], fin. split; [done|]. by apply Hgo.
      * sq_single.
        -- intros a1 ids _ H1. simpl. eapply sq_weaken; [apply std_settle_keeps|]. intros a2 err Hg. exists (x :: errs), fin. split; [done|].
           apply Hgo. simpl. right. exists ids, (did a2). by rewrite did_app, H1.
        -- intros a1 e _ Ht. finish. exists (x :: errs), fin. split; [done|]. apply Hgo. simpl. by left.
Qed.

Lemma std_cancel_promise tx id : does tx (execOp d tx (OCancel id)) (promised (OCancel id)).
Proof.
  simpl. unfold jobCancel. apply sq_bind, sq_now. intros now. cbn beta. sq_then.
  - intros a1 ids _ Hd1. cbn beta. rewrite SqlPgxRefine.rows_none. case_bool_decide as Hi; [|finish; exists now, ids; done].
    unfold jobGetByID. subst ids. apply sq_bind. sq_single.
    + intros a2 [r|] _ Hd2; simpl; apply sq_ret; exists now; rewrite app_nil_r, !did_app, Hd1, Hd2; simpl; [by exists r|done].
    + intros a2 e He Ht. simpl. apply sq_ret. exists now. foreign He. rewrite Hnf, Hcf. right. exists (did a2).
      by rewrite app_nil_r, !did_app, Hd1.
  - intros a1 e He Ht. finish. exists now. foreign He. rewrite Hnf, Hcf. by left.
Qed.

Lemma std_elect_promise tx p : does tx (execOp d tx (OElect p)) (promised (OElect p)).
Proof.
  simpl. unfold leaderAttemptElect. apply sq_bind, sq_now. intros now. cbn beta. rewrite ?app_nil_l. sq_then.
  - intros a1 [] _ H1; simpl; [finish; exists now; by left|]. sq_then.
    + intros a2 [] _ H2. finish. exists now. right. by rewrite did_app, H1, H2.
    + intros a2 e _ Ht. simpl. sq_single.
      * intros a3 [r|] _ H3; exists now; rewrite !did_app, H1, H3; [by exists (did a2), r|].
        split; [done|]. right. exists (did a2), [MReq (SelectLeader (le_Name p)) None]. split_and!; [done..|]. by right; exists None.
      * intros a3 e' _ Ht'. exists now. split; [done|]. right. exists (did a2), (did a3). by rewrite !did_app, H1.
  - intros a1 e _ Ht. finish. exists now. split; [done|]. by left.
Qed.

Theorem std_keeps tx o : does tx (execOp d tx o) (promised o).
Proof.
  destruct o.
  - apply std_insert_promise.
  - apply std_get_promise.
  - apply std_list_promise.
  - apply (SqlPgxRefine.pgx_stats_promise tx).
  - apply std_fetch_promise.
  - apply (SqlPgxRefine.pgx_rescue_promise tx).
  - apply (SqlPgxRefine.pgx_heartbeat_promise tx).
  - apply (SqlPgxRefine.pgx_markStarted_promise tx).
  - apply std_setState_promise.
  - apply std_cancel_promise.
  - apply (SqlPgxRefine.guarded_keeps tx (DeleteJobs (IsIDText id)) (λ a, a) ErrNotFound). by intros e (_ & _ & _ & ?).
  - apply (SqlPgxRefine.guarded_keeps tx (UpdateJobs [IsIDText (rs_ID params)] (rescheduleSets params)) (λ a, a) ErrNotFound). by intros e (_ & _ & _ & ?).
  - apply (SqlPgxRefine.pgx_queueGet_promise tx).
  - apply (SqlPgxRefine.pgx_setPaused_promise tx).
  - apply (SqlPgxRefine.pgx_queueList_promise tx).
  - apply std_elect_promise.
  - apply (SqlPgxRefine.pgx_resign_promise tx).
  - apply (SqlPgxRefine.pgx_cursorGet_promise tx).
  - apply (SqlPgxRefine.pgx_cursorAdvance_promise tx).
Qed.

(** Every operation keeps its promise, for every dialect, outside of a transaction or
    within one. *)
Theorem std_operations_refine tx os (e : SqEnv (S := S)) : keyedDb (sq_db (sv_svc e)) →
  ∃ groups, effect sq_pa sq_db sq_pending tx (sv_svc e) (sv_svc (execAll (execOp d) tx os e).1) (mjoin groups) ∧
    kept (promisedMoves d) groups (execAll (execOp d) tx os e).2 ∧ (λ oa, projT1 oa) <$> (execAll (execOp d) tx os e).2 = os.
Proof. apply programs_refine, std_keeps. Qed.
End refine.

(** * A fetch within a transaction *)

Section safety.
Context (pa : params).

(** A claim changes a row that is due. *)
Lemma claim_changes queue now p t r : statesApart pa → matches pa (dueWhere queue now) r = true → applySets pa (claimSets p t) r ≠ r.
Proof.
  intros Hst Hm Heq. unfold matches, dueWhere in Hm. simpl in Hm. apply andb_true_iff in Hm as [_ [Hm _]%andb_true_iff].
  assert (c_state r = JobStateRunning) as Hr by (by rewrite <-Heq). rewrite Hr in Hm. unfold same in Hm.
  apply orb_true_iff in Hm as [Hm|[Hm|?]%orb_true_iff]; [| |done]; bool_to_prop; apply Hst in Hm; done || (unfold jobStates; set_solver).
Qed.

Lemma sameMembers_elem l1 l2 : sameMembers l1 l2 = true → NoDup l1 ∧ ∀ x, x ∈ l1 ↔ x ∈ l2.
Proof.
  unfold sameMembers. intros [Hn Hs]%andb_true_iff. bool_to_prop. split; [done|]. intros x.
  by rewrite <-(elem_of_list_to_set (C := gset Z)), Hs, elem_of_list_to_set.
Qed.

(** When the rows of the first statement have not changed, the second finds them all. *)
Lemma claim_finds_all queue now limit ids p hit d d1 d2 : statesApart pa → keyedDb d →
  step pa (MReq (SelectDue true queue now limit) ids) d = Some d1 → step pa (MReq (UpdateJobs [IDIn ids] (claimSets p now)) hit) d1 = Some d2 →
  NoDup ids ∧ ∀ id, id ∈ ids → id ∈ hit ∧ ∃ r, db_jobs d !! id = Some r ∧ matches pa (dueWhere queue now) r = true ∧
    db_jobs d2 !! id = Some (applySets pa (claimSets p now) r).
Proof.
  intros Hst Hk Hs Hu. cbn [step serve] in Hs. apply sq_given_Some in Hs as [[Hm _]%andb_true_iff ->]. apply someOf_spec in Hm as [Hn Hm].
  apply sq_step_jobs in Hu as ([Hnh _]%someOf_spec & -> & Hp). specialize (Hp eq_refl). apply sameMembers_elem in Hp as [_ Hp].
  split; [done|]. intros id Hid. destruct (Hm id Hid) as (r & Hr & Hd).
  assert (id ∈ hit) as Hin.
  { apply Hp. unfold touched. apply list_elem_of_fmap. exists r. split; [symmetry; by apply Hk|]. apply list_elem_of_filter. split.
    - unfold matches, affected. simpl. rewrite (kd_id _ Hk _ _ Hr). rewrite bool_decide_eq_true_2 by done.
      rewrite (bool_decide_eq_true_2 (applySets pa (claimSets p now) r ≠ r)), orb_true_r by (by eapply claim_changes). done.
    - unfold rows. apply list_elem_of_fmap. exists (id, r). split; [done|]. by apply elem_of_map_to_list. }
  split; [done|]. exists r. split_and!; [done..|]. rewrite updateRows_lookup, decide_True, Hr by done. done.
Qed.
End safety.

Section transactions.
Context {S : Type} `{Sql S} `{!SqlLaws S} (d : Dialect).
Abbreviation dbOf e := (sq_db (sv_svc e)).
Abbreviation others := (others (step sq_pa)).

(** A committed fetch: at one moment all its jobs were due, and have been claimed. *)
Theorem std_transaction_claims p (e : SqEnv (S := S)) rows : supportsSkipLocked d = true → keyedDb (dbOf e) →
  (inTransaction (execOp d) [OFetch p] e).2 = Ok ([existT (OFetch p) (rows, None)], None) →
  ∃ now ids d1 d2, others (dbOf e) d1 ∧ others d2 (dbOf (inTransaction (execOp d) [OFetch p] e).1) ∧ NoDup ids ∧
    (∀ id, id ∈ ids → ∃ r, db_jobs d1 !! id = Some r ∧ matches sq_pa (dueWhere (fp_Queue p) now) r = true ∧
       db_jobs d2 !! id = Some (applySets sq_pa (claimSets p now) r)) ∧
    Forall (λ row, ∃ id, id ∈ ids ∧ ID row = FormatInt id) rows.
Proof.
  intros Hl Hk Ha. pose proof (transactions_atomic (execOp d) (promisedMoves d) (std_keeps d) [OFetch p] e Hk) as Ht. cbv zeta in Ht.
  rewrite Ha in Ht. destruct Ht as (groups & ms & Hkept & _ & Hcon & (d1 & d2 & H1 & Hr & H2) & [-> |[_ []]]); [|done].
  apply Forall2_cons_inv_r in Hkept as (acts & l & Hp & Hn & ->). apply Forall2_nil_inv_r in Hn as ->.
  change (mjoin [acts]) with (acts ++ []) in Hr, Hcon. rewrite app_nil_r in Hr, Hcon.
  pose proof (others_inv _ keyedDb (sq_step_keyed sq_pa) _ _ Hk H1) as Hk1. destruct Hp as (now & Hp). unfold fetched in Hp. rewrite Hl in Hp.
  destruct Hp as [[-> Hd]|(ids & hit & l & Hne & Hd & Hin & ->)]; rewrite Hd in Hr, Hcon.
  { exists now, [], d1, d2. split_and!; [done..|constructor|by intros id ?%elem_of_nil|constructor]. }
  set (sel := MReq (SelectDue _ _ _ _) ids) in *. set (upd := MReq (UpdateJobs _ _) hit) in *.
  destruct Hcon as (_ & (d0 & da & db & Hk0 & Hra & Hub) & _). change (runMoves (step sq_pa) [sel] d0 = Some da) in Hra.
  cbn [runMoves] in Hra. destruct (step sq_pa sel d0) as [dx|] eqn:Hs0; [|done]. injection Hra as ->.
  destruct (claim_finds_all sq_pa _ _ _ _ _ _ _ _ _ sq_states_law Hk0 Hs0 Hub) as [_ Hall].
  destruct hit as [|h hit]; [destruct ids as [|i ids]; [done|]; destruct (Hall i) as [Hx _]; [by left|by apply elem_of_nil in Hx]|].
  change (runMoves (step sq_pa) [sel; upd] d1 = Some d2) in Hr. cbn [runMoves] in Hr.
  destruct (step sq_pa sel d1) as [dy|] eqn:Hs1; [|done]. destruct (step sq_pa upd dy) as [dz|] eqn:Hu; [|done]. injection Hr as ->.
  destruct (claim_finds_all sq_pa _ _ _ _ _ _ _ _ _ sq_states_law Hk1 Hs1 Hu) as [Hn Hall1].
  exists now, ids, d1, d2. split_and!; [done..| |].
  - intros id Hid. by destruct (Hall1 id Hid).
  - apply Forall_fmap. eapply Forall_impl; [exact Hin|]. intros r Hr. by exists (c_id r).
Qed.
End transactions.
