(* ===== verification/SqlStdDemo.v ===== *)
(** * driver/stdlib: runs on the concrete databases

    The theorems about the backend applied to concrete runs, and runs that show what
    does not hold outside of a transaction: two workers are given one job, a job that
    was cancelled runs.  Further: a fetch answers its jobs out of order; an error is
    recorded for an outcome that is refused; a nested transaction of SQLite or MySQL
    commits the outer one; MySQL does not count the rows that an update leaves as
    they are. *)

From S2P Require Import Prelude GoBase Json Codec Driver Moves Memory Sql SqlLaws SqlSafety SqlSim.
From S2P Require SqlPgx SqlPgxRefine SqlPgxDemo.
From S2P Require Import SqlStd SqlStdRefine.
From Stdlib Require Import ZArith Lia.

Abbreviation noon := SqlPgxDemo.noon.
Abbreviation emptyDb := SqlPgxDemo.emptyDb.
Abbreviation simParams := SqlPgxDemo.simParams.
Abbreviation simFetch := SqlPgxDemo.simFetch.
Abbreviation simOutcome := SqlPgxDemo.simOutcome.

Definition simEnv (d : Db) (now : Instant) (races : list (list move * bool)) : SqEnv (S := Sim) :=
  newStd (mkSim d (1 + Z.of_nat (size (db_used d))) [] races) (frozenClock now).
Definition dbAfter (e : SqEnv (S := Sim)) : Db := sm_db (sv_svc e).
(** Nobody comes between the first [n] statements; then others do [ms]. *)
Definition afterwards (n : nat) (ms : list move) : list (list move * bool) := replicate n ([], false) ++ [(ms, false)].

(** ** SQLite *)

Module OnSQLite.
#[local] Instance db : Sql Sim := simSql sqliteParams.
#[local] Instance laws : SqlLaws Sim := sqliteLaws.
Abbreviation exec := (execOp SQLite None).

Example std_demo_answers : SqlPgxDemo.tellAnswer <$> (execAll (execOp SQLite) None SqlPgxDemo.demoProgram (simEnv emptyDb noon [])).2 =
  [["new"; "skip"; "new"; "new"]; ["1"; "2"; "3"]; ["stale"]; ["done"]; ["3"]; ["running"; "running"; "completed"]; ["2"]; ["deleted"]].
Proof. vm_compute. reflexivity. Qed.

Lemma std_operations_refine_witness :
  keyedDb emptyDb ∧
  ∃ groups, effect sqliteParams sm_db pendingOf None (sv_svc (simEnv emptyDb noon [])) (sv_svc (execAll (execOp SQLite) None SqlPgxDemo.demoProgram (simEnv emptyDb noon [])).1) (mjoin groups) ∧
    kept (promisedMoves SQLite) groups (execAll (execOp SQLite) None SqlPgxDemo.demoProgram (simEnv emptyDb noon [])).2 ∧
    (λ oa : {o : driverOp & ans o}, projT1 oa) <$> (execAll (execOp SQLite) None SqlPgxDemo.demoProgram (simEnv emptyDb noon [])).2 = SqlPgxDemo.demoProgram.
Proof.
  split; [exact SqlPgxDemo.sq_keyed_empty|].
  exact (std_operations_refine (H := db) (SqlLaws0 := laws) SQLite None SqlPgxDemo.demoProgram (simEnv emptyDb noon []) SqlPgxDemo.sq_keyed_empty).
Defined.

(** Worker [w2] fetches between the two statements of the fetch of [w1]: both are
    given the job, and both run it. *)
Definition insertedDb : Db := dbAfter (exec (OInsert [simParams "mail" "k"]) (simEnv emptyDb noon [])).1.
Definition claimOne (w : string) : move := MReq (UpdateJobs [IDIn [1]] (claimSets (simFetch w) noon)) [1].
Lemma std_double_claim :
  let r := exec (OFetch (simFetch "w1")) (simEnv insertedDb noon (afterwards 1 [MReq (SelectDue false "mail" noon 5) [1]; claimOne "w2"])) in
  (λ row, (ID row, WorkerID row, AttemptNum row)) <$> r.2.1 = [("1", "w1", 2)] ∧
  (λ row, (ID row, WorkerID row, AttemptNum row)) <$> (exec (OFetch (simFetch "w2")) (simEnv insertedDb noon [])).2.1 = [("1", "w2", 1)].
Proof. vm_compute. done. Qed.

(** The job is cancelled between the two statements, and runs. *)
Lemma std_cancelled_job_runs :
  let cancel := MReq (UpdateJobs (cancelWhere (IsIDText "1")) (cancelSets noon)) [1] in
  let r := exec (OFetch (simFetch "w1")) (simEnv insertedDb noon (afterwards 1 [cancel])) in
  (exec (OCancel "1") (simEnv insertedDb noon [])).2 = None ∧ (ID <$> r.2.1) = ["1"] ∧
  ((λ j, (c_state j, c_finalized_at j)) <$> db_jobs (dbAfter r.1) !! 1) = Some (JobStateRunning, Some noon).
Proof. vm_compute. done. Qed.

(** The job of the higher priority comes last. *)
Lemma std_fetch_out_of_order :
  let urgent := mkJobInsertParams "mail" "email" "{}" 9 0 "" 3 Minute [] "" in
  let e := (exec (OInsert [simParams "mail" ""; urgent]) (simEnv emptyDb noon [])).1 in
  Priority <$> (exec (OFetch (simFetch "w1")) e).2.1 = [0; 9].
Proof. vm_compute. done. Qed.

(** The job is rescued between the two statements of an outcome: it is refused, and its
    error stays. *)
Definition claimedDb : Db := dbAfter (exec (OFetch (simFetch "w1")) (simEnv insertedDb noon [])).1.
Lemma std_refused_outcome_leaves_error :
  let p := mkJobSetStateParams "1" JobStateRetryable (Some "boom") None 1 (noon + Minute) "w1" 1 false in
  let rescue := MReq (UpdateJobs (rescueWhere (mkJobRescueParams "mail" (noon + Hour) noon)) rescueSets) [1] in
  let r := exec (OSetState p) (simEnv claimedDb noon (afterwards 1 [rescue])) in
  r.2 = Some (jobError ErrStaleClaim "1") ∧
  ((λ j, (c_state j, ae_Error <$> c_errors j)) <$> db_jobs (dbAfter r.1) !! 1) = Some (JobStateAvailable, ["boom"]).
Proof. vm_compute. done. Qed.

(** The outer transaction is rolled back after the nested one was committed: the job
    of the outer one is there. *)
Lemma std_nested_commits_outer :
  let '(e1, b) := Begin (simEnv emptyDb noon []) in
  match b with
  | Ok outer =>
      let '(e2, _) := execOp SQLite (Some outer) (OInsert [simParams "mail" ""]) e1 in
      let '(e3, n) := BeginNested SQLite outer e2 in
      match n with
      | Ok inner => let '(e4, c) := Commit inner e3 in c = None ∧ size (db_jobs (dbAfter (Rollback outer e4).1)) = 1%nat
      | Err _ => False
      end
  | Err _ => False
  end.
Proof. vm_compute. done. Qed.
End OnSQLite.

(** ** MySQL *)

Module OnMySQL.
#[local] Instance db : Sql Sim := simSql mysqlParams.
#[local] Instance laws : SqlLaws Sim := mysqlLaws.
Abbreviation exec := (execOp MySQL None).

Definition insertedDb : Db := dbAfter (exec (OInsert [simParams "mail" "k"]) (simEnv emptyDb noon [])).1.
Lemma my_inserted_keyed : keyedDb insertedDb.
Proof.
  apply (runMoves_inv (step mysqlParams) keyedDb (sq_step_keyed mysqlParams)
    [MReq (InsertRow (newRecord (jsonColumns (simParams "mail" "k")) noon)) 1] emptyDb); [exact SqlPgxDemo.sq_keyed_empty|].
  apply SqlPgxDemo.sq_dbs_decided. vm_compute. reflexivity.
Qed.

Definition fetchRun := inTransaction (execOp MySQL) [OFetch (simFetch "w1")] (simEnv insertedDb noon []).
Definition fetchedRows : list JobRow :=
  match fetchRun.2 with Ok ([existT (OFetch _) (rows, _)], _) => rows | _ => [] end.

Lemma std_transaction_claims_witness :
  (ID <$> fetchedRows) = ["1"] ∧
  ∃ now ids d1 d2, others (step mysqlParams) insertedDb d1 ∧ others (step mysqlParams) d2 (dbAfter fetchRun.1) ∧ NoDup ids ∧
    (∀ id, id ∈ ids → ∃ r, db_jobs d1 !! id = Some r ∧ matches mysqlParams (dueWhere (fp_Queue (simFetch "w1")) now) r = true ∧
       db_jobs d2 !! id = Some (applySets mysqlParams (claimSets (simFetch "w1") now) r)) ∧
    Forall (λ row, ∃ id, id ∈ ids ∧ ID row = FormatInt id) fetchedRows.
Proof.
  split; [vm_compute; reflexivity|].
  refine (std_transaction_claims (H := db) (SqlLaws0 := laws) MySQL (simFetch "w1") (simEnv insertedDb noon []) fetchedRows eq_refl my_inserted_keyed _).
  vm_compute. reflexivity.
Defined.

(** A scheduled job is rescheduled to the time that it has: it is said not to exist. *)
Lemma mysql_reschedule_not_found :
  let p := mkRescheduleParams "1" (noon + Hour) in
  let e := (exec (OReschedule p) (simEnv insertedDb noon [])).1 in
  (exec (OReschedule p) e).2 = Some (jobError ErrNotFound "1") ∧
  ((λ j, (c_state j, c_run_at j)) <$> db_jobs (dbAfter (exec (OReschedule p) e).1) !! 1) = Some (JobStateScheduled, noon + Hour).
Proof. vm_compute. done. Qed.

(** A claim is renewed until the time until which it runs: it is said to be lost. *)
Lemma mysql_heartbeat_lost :
  let e := (exec (OFetch (simFetch "w1")) (simEnv insertedDb noon [])).1 in
  (exec (OHeartbeat (mkJobHeartbeatParams "1" "w1" 1 noon (noon + Minute))) e).2 = (false, None) ∧
  ((λ j, (c_state j, c_worker_id j, c_attempt_num j)) <$> db_jobs (dbAfter e) !! 1) = Some (JobStateRunning, Some "w1", 1).
Proof. vm_compute. done. Qed.

(** Two unique keys that differ in case are one. *)
Lemma mysql_keys_fold_case :
  match (exec (OInsert [simParams "mail" "Order-A"; simParams "mail" "order-a"]) (simEnv emptyDb noon [])).2 with
  | Ok rs => ir_UniqueSkip <$> rs = [false; true]
  | Err _ => False
  end.
Proof. vm_compute. done. Qed.
End OnMySQL.
