(* ===== verification/Redis.v ===== *)
(** * driver/redis: documents, scripts and operations

    The backend keeps a job as a JSON document under its own key, and the ids of
    jobs in sorted sets and hashes, one of each kind for a queue.  What must be
    atomic is a Lua script or a transaction under WATCH; everything else is a single
    command, or a pipeline of them.  The scripts are part of the driver and are
    functions here; the server that runs them, and its client library, are not part
    of the repository: the class [Redis] is what the code calls, and RedisLaws.v
    states what its documentation says.

    A document is known by what decoding it answers; a field that it may leave out
    is an option, because the scripts tell a missing field from one that is zero.
    Numbers in a document are below 10^14 in absolute value, up to which the JSON
    library of the server keeps every digit.  A score is an integer: it is made of
    milliseconds and of a multiple of 10^12, in [float64] arithmetic. *)

From S2P Require Import Prelude GoBase Json Codec Driver Memory.
From Stdlib Require Import ZArith Lia.

(** ** Keys *)

Definition jobKeyPrefix : string := "goncordia:job:".
Definition queuesSetKey : string := "goncordia:queues".
Definition cursorsKey : string := "goncordia:schedule:cursors".
Definition jobsIndexKey : string := "goncordia:jobs:created".

Definition availKey (q : string) : string := "goncordia:q:" +:+ q +:+ ":avail".
Definition schedKey (q : string) : string := "goncordia:q:" +:+ q +:+ ":sched".
Definition runKey (q : string) : string := "goncordia:q:" +:+ q +:+ ":run".
Definition metaKey (q : string) : string := "goncordia:q:" +:+ q +:+ ":meta".
Definition jobKey (id : string) : string := jobKeyPrefix +:+ id.
Definition uniqKey (k : string) : string := "goncordia:uniq:" +:+ k.
Definition leaderKey (n : string) : string := "goncordia:leader:" +:+ n.
Definition notifyChannel (q : string) : string := "goncordia:notify:" +:+ q.

(** ** Scores *)

(** The value of a [float64] that is an integer. *)
Definition f64_int (f : float64) : Z := default 0 (f64_trunc f).

Definition tera : float64 := f64_of_int 1000000000000.

(** [float64(ms)]. *)
Definition msScore (ms : Z) : Z := f64_int (f64_of_int ms).

(** Lower scores go first: higher priorities have lower scores. *)
Definition scoreOf (priority ms : Z) : Z := f64_int (f64_sub (f64_of_int ms) (f64_mul (f64_of_int priority) tera)).
Definition priorityScore (priority : Z) (runAt : Instant) : Z := scoreOf priority (UnixMilli runAt).

Example priority_first : priorityScore 1 (unixEpoch + 20000 * 24 * Hour) <? priorityScore 0 (unixEpoch + 10000 * 24 * Hour) = true.
Proof. vm_compute. reflexivity. Qed.

(** ** Documents *)

Record redisAttemptErr := mkRedisErr { re_AtMs : Z; re_Attempt : Z; re_Message : string; re_Trace : string }.

Record redisJob := mkRedisJob {
  rj_ID : string;
  rj_Queue : string;
  rj_Kind : string;
  rj_Args : string;
  rj_State : string;
  rj_Priority : Z;
  rj_RunAtMs : Z;
  rj_CreatedAtMs : Z;
  rj_AttemptedAtMs : option Z;
  rj_StartedAtMs : option Z;
  rj_LeaseExpiresAtMs : option Z;
  rj_FinalizedAtMs : option Z;
  rj_AttemptNum : Z;
  rj_MaxRetry : Z;
  rj_TimeoutMs : Z;
  rj_UniqueKey : string;
  rj_WorkerID : option string;
  rj_Tags : list string;
  rj_Errors : list redisAttemptErr;
  rj_PipelineID : string
}.

Definition eta_job (j : redisJob) : redisJob :=
  mkRedisJob (rj_ID j) (rj_Queue j) (rj_Kind j) (rj_Args j) (rj_State j) (rj_Priority j) (rj_RunAtMs j) (rj_CreatedAtMs j)
    (rj_AttemptedAtMs j) (rj_StartedAtMs j) (rj_LeaseExpiresAtMs j) (rj_FinalizedAtMs j) (rj_AttemptNum j) (rj_MaxRetry j)
    (rj_TimeoutMs j) (rj_UniqueKey j) (rj_WorkerID j) (rj_Tags j) (rj_Errors j) (rj_PipelineID j).
Definition job_State : string → redisJob → redisJob := ltac:(setter eta_job rj_State).
Definition job_RunAt : Z → redisJob → redisJob := ltac:(setter eta_job rj_RunAtMs).
Definition job_AttemptedAt : option Z → redisJob → redisJob := ltac:(setter eta_job rj_AttemptedAtMs).
Definition job_StartedAt : option Z → redisJob → redisJob := ltac:(setter eta_job rj_StartedAtMs).
Definition job_LeaseExpiresAt : option Z → redisJob → redisJob := ltac:(setter eta_job rj_LeaseExpiresAtMs).
Definition job_FinalizedAt : option Z → redisJob → redisJob := ltac:(setter eta_job rj_FinalizedAtMs).
Definition job_AttemptNum : Z → redisJob → redisJob := ltac:(setter eta_job rj_AttemptNum).
Definition job_WorkerID : option string → redisJob → redisJob := ltac:(setter eta_job rj_WorkerID).
Definition job_Errors : list redisAttemptErr → redisJob → redisJob := ltac:(setter eta_job rj_Errors).

(** A field that is missing decodes as zero; "omitempty" leaves a zero out. *)
Definition omitZero (ms : Z) : option Z := if ms =? 0 then None else Some ms.
Definition milli (ms : option Z) : Z := default 0 ms.
Definition omitEmpty (s : string) : option string := if bool_decide (s = "") then None else Some s.

(** What a document becomes when Go decodes and encodes it. *)
Definition recoded (j : redisJob) : redisJob :=
  mkRedisJob (rj_ID j) (rj_Queue j) (rj_Kind j) (rj_Args j) (rj_State j) (rj_Priority j) (rj_RunAtMs j) (rj_CreatedAtMs j)
    (omitZero (milli (rj_AttemptedAtMs j))) (omitZero (milli (rj_StartedAtMs j))) (omitZero (milli (rj_LeaseExpiresAtMs j)))
    (omitZero (milli (rj_FinalizedAtMs j))) (rj_AttemptNum j) (rj_MaxRetry j) (rj_TimeoutMs j) (rj_UniqueKey j)
    (omitEmpty (default "" (rj_WorkerID j))) (rj_Tags j) (rj_Errors j) (rj_PipelineID j).

Definition optTime (ms : option Z) : option Instant := if milli ms =? 0 then None else Some (UTC (UnixFromMilli (milli ms))).

Definition errToRow (e : redisAttemptErr) : AttemptError :=
  mkAttemptError (UTC (UnixFromMilli (re_AtMs e))) (re_Attempt e) (re_Message e) (re_Trace e).

Definition jobToRow (j : redisJob) : JobRow :=
  mkJobRow (rj_ID j) (rj_Queue j) (rj_Kind j) (rj_Args j) (rj_State j) (rj_Priority j)
    (UTC (UnixFromMilli (rj_RunAtMs j))) (UTC (UnixFromMilli (rj_CreatedAtMs j)))
    (optTime (rj_AttemptedAtMs j)) (optTime (rj_StartedAtMs j)) (optTime (rj_LeaseExpiresAtMs j)) (optTime (rj_FinalizedAtMs j))
    (rj_AttemptNum j) (rj_MaxRetry j) (durMul (rj_TimeoutMs j) Millisecond) (rj_Tags j) (errToRow <$> rj_Errors j)
    (rj_UniqueKey j) (default "" (rj_WorkerID j)) (rj_PipelineID j).

(** The hash of a queue; a field may be missing. *)
Record queueMeta := mkQueueMeta { qm_Paused : option bool; qm_CreatedAtMs : option Z; qm_UpdatedAtMs : option Z }.
Definition noMeta : queueMeta := mkQueueMeta None None None.

(** A lease: who holds it, and when the key expires by the server's clock. *)
Record lease := mkLease { ls_Owner : string; ls_Until : option Instant }.

#[export] Instance redisAttemptErr_eq_dec : EqDecision redisAttemptErr.
Proof. solve_decision. Defined.
#[export] Instance redisJob_eq_dec : EqDecision redisJob.
Proof. solve_decision. Defined.
#[export] Instance queueMeta_eq_dec : EqDecision queueMeta.
Proof. solve_decision. Defined.
#[export] Instance lease_eq_dec : EqDecision lease.
Proof. solve_decision. Defined.

(** The keys by kind.  A sorted set or a hash is known by what it holds: the scores
    of [availKey q] are at [(q, id)]. *)
Record Db := mkDb {
  db_jobs : gmap string redisJob;
  db_uniq : gmap string string;
  db_avail : gmap (string * string) Z;
  db_sched : gmap (string * string) Z;
  db_run : gmap (string * string) Z;
  db_meta : gmap string queueMeta;
  db_queues : gset string;
  db_index : gmap string Z;
  db_leases : gmap string lease;
  db_cursors : gmap string Z;
  db_time : Instant
}.

#[export] Instance Db_eq_dec : EqDecision Db.
Proof. solve_decision. Defined.

Definition eta_db (d : Db) : Db :=
  mkDb (db_jobs d) (db_uniq d) (db_avail d) (db_sched d) (db_run d) (db_meta d) (db_queues d) (db_index d) (db_leases d)
    (db_cursors d) (db_time d).
Definition set_jobs : gmap string redisJob → Db → Db := ltac:(setter eta_db db_jobs).
Definition set_uniq : gmap string string → Db → Db := ltac:(setter eta_db db_uniq).
Definition set_avail : gmap (string * string) Z → Db → Db := ltac:(setter eta_db db_avail).
Definition set_sched : gmap (string * string) Z → Db → Db := ltac:(setter eta_db db_sched).
Definition set_run : gmap (string * string) Z → Db → Db := ltac:(setter eta_db db_run).
Definition set_meta : gmap string queueMeta → Db → Db := ltac:(setter eta_db db_meta).
Definition set_queues : gset string → Db → Db := ltac:(setter eta_db db_queues).
Definition set_index : gmap string Z → Db → Db := ltac:(setter eta_db db_index).
Definition set_leases : gmap string lease → Db → Db := ltac:(setter eta_db db_leases).
Definition set_cursors : gmap string Z → Db → Db := ltac:(setter eta_db db_cursors).
Definition set_time : Instant → Db → Db := ltac:(setter eta_db db_time).

(** ** Commands *)

(** ZPOPMIN and ZRANGEBYSCORE go by score, equal scores by member. *)
Definition zless (a b : string * Z) : bool := (a.2 <? b.2) || ((a.2 =? b.2) && str_lt a.1 b.1).
Definition zmembers (q : string) (z : gmap (string * string) Z) : list (string * Z) :=
  omap (λ '((q', id), score), if decide (q' = q) then Some (id, score) else None) (map_to_list z).
Definition zrange (q : string) (z : gmap (string * string) Z) : list (string * Z) := sort_by zless (zmembers q z).

(** The commands of pipelines and transactions; what they answer is not used. *)
Inductive command :=
| HDelRun (q id : string)
| SetJob (id : string) (job : redisJob)
| DelJob (id : string)
| ZAddAvail (q id : string) (score : Z)
| ZAddSched (q id : string) (score : Z)
| ZRemAvail (q id : string)
| ZRemSched (q id : string)
| ZAddIndex (id : string) (score : Z)
| ZRemIndex (id : string)
| DelUniq (key : string)
| SAddQueue (name : string)
| HSetNXCreated (name : string) (ms : Z)
| HSetPaused (name : string) (paused : bool) (ms : Z).

#[export] Instance command_eq_dec : EqDecision command.
Proof. solve_decision. Defined.

Definition metaOf (name : string) (d : Db) : queueMeta := default noMeta (db_meta d !! name).

Definition hsetnxCreated (name : string) (ms : Z) (d : Db) : Db :=
  let m := metaOf name d in
  set_meta (<[name := mkQueueMeta (qm_Paused m) (Some (default ms (qm_CreatedAtMs m))) (qm_UpdatedAtMs m)]> (db_meta d)) d.

Definition runCommand (c : command) (d : Db) : Db :=
  match c with
  | HDelRun q id => set_run (delete (q, id) (db_run d)) d
  | SetJob id job => set_jobs (<[id := job]> (db_jobs d)) d
  | DelJob id => set_jobs (delete id (db_jobs d)) d
  | ZAddAvail q id score => set_avail (<[(q, id) := score]> (db_avail d)) d
  | ZAddSched q id score => set_sched (<[(q, id) := score]> (db_sched d)) d
  | ZRemAvail q id => set_avail (delete (q, id) (db_avail d)) d
  | ZRemSched q id => set_sched (delete (q, id) (db_sched d)) d
  | ZAddIndex id score => set_index (<[id := score]> (db_index d)) d
  | ZRemIndex id => set_index (delete id (db_index d)) d
  | DelUniq key => set_uniq (delete key (db_uniq d)) d
  | SAddQueue name => set_queues ({[name]} ∪ db_queues d) d
  | HSetNXCreated name ms => hsetnxCreated name ms d
  | HSetPaused name paused ms =>
      set_meta (<[name := mkQueueMeta (Some paused) (qm_CreatedAtMs (metaOf name d)) (Some ms)]> (db_meta d)) d
  end.

Definition runCommands (cs : list command) (d : Db) : Db := foldl (λ d c, runCommand c d) d cs.

(** ** Scripts *)

(** insertJobScript; [scheduled] chooses the third key. *)
Definition insertJobScript (hasUnique : bool) (uniqueKey id : string) (job : redisJob) (scheduled : bool) (score : Z)
    (queue : string) (nowMs createdMs : Z) (d : Db) : Db * bool :=
  if hasUnique && bool_decide (is_Some (db_uniq d !! uniqueKey)) then (d, false)
  else
    let d := if hasUnique then set_uniq (<[uniqueKey := id]> (db_uniq d)) d else d in
    let d := runCommand (SetJob id job) d in
    let d := runCommand (if scheduled then ZAddSched queue id score else ZAddAvail queue id score) d in
    let d := runCommand (ZAddIndex id createdMs) d in
    let d := runCommand (SAddQueue queue) d in
    let m := metaOf queue d in
    (set_meta (<[queue := mkQueueMeta (Some (default false (qm_Paused m))) (Some (default nowMs (qm_CreatedAtMs m)))
       (Some (default nowMs (qm_UpdatedAtMs m)))]> (db_meta d)) d, true).

(** fetchOneScript: the scheduled jobs that are due, *)
Definition due (q : string) (nowMs : Z) (d : Db) : list string :=
  (take 1024 (filter (λ x, x.2 ≤ nowMs) (zrange q (db_sched d)))).*1.

Definition promoteOne (q : string) (d : Db) (id : string) : Db :=
  match db_jobs d !! id with
  | None => d
  | Some job => runCommand (ZAddAvail q id (scoreOf (rj_Priority job) (rj_RunAtMs job))) (runCommand (ZRemSched q id) d)
  end.

Definition promote (q : string) (nowMs : Z) (d : Db) : Db := foldl (promoteOne q) d (due q nowMs d).

Definition claimed (workerID : string) (nowMs leaseMs : Z) (job : redisJob) : redisJob :=
  job_WorkerID (Some workerID)
    (job_AttemptNum (rj_AttemptNum job + 1)
      (job_LeaseExpiresAt (if 0 <? leaseMs then Some (nowMs + leaseMs) else None)
        (job_StartedAt None (job_AttemptedAt (Some nowMs) (job_State JobStateRunning job))))).

(** and the claim of the first. *)
Definition fetchOneScript (q workerID : string) (nowMs leaseMs : Z) (d : Db) : Db * option redisJob :=
  let d := promote q nowMs d in
  match zrange q (db_avail d) with
  | [] => (d, None)
  | (id, _) :: _ =>
      let d := runCommand (ZRemAvail q id) d in
      match db_jobs d !! id with
      | None => (d, None)
      | Some job =>
          let job := claimed workerID nowMs leaseMs job in
          let d := runCommand (SetJob id job) d in
          (set_run (<[(q, id) := default nowMs (rj_LeaseExpiresAtMs job)]> (db_run d)) d, Some job)
      end
  end.

Definition released (job : redisJob) : redisJob :=
  job_WorkerID None (job_LeaseExpiresAt None (job_StartedAt None (job_AttemptedAt None (job_State JobStateAvailable job)))).

Definition rescueOneScript (q id : string) (atMs beforeMs : Z) (d : Db) : Db * bool :=
  let gone := (runCommand (HDelRun q id) d, false) in
  match db_jobs d !! id with
  | None => gone
  | Some job =>
      if negb (bool_decide (rj_State job = JobStateRunning)) then gone
      else
        let stuck :=
          match rj_LeaseExpiresAtMs job with
          | Some deadline => deadline <=? atMs
          | None => match db_run d !! (q, id) with Some attempted => attempted <=? beforeMs | None => false end
          end in
        if negb stuck then (d, false)
        else
          (runCommands [SetJob id (released job); HDelRun q id;
             ZAddAvail q id (scoreOf (rj_Priority job) (rj_RunAtMs job))] d, true)
  end.

Definition heartbeatScript (q id workerID : string) (attempt leaseMs : Z) (d : Db) : Db * bool :=
  match db_jobs d !! id with
  | None => (d, false)
  | Some job =>
      if negb (bool_decide (rj_State job = JobStateRunning)) then (d, false)
      else if negb (bool_decide (default "" (rj_WorkerID job) = workerID)) then (d, false)
      else if negb (rj_AttemptNum job =? attempt) then (d, false)
      else
        let d := runCommand (SetJob id (job_LeaseExpiresAt (Some leaseMs) job)) d in
        (set_run (<[(q, id) := leaseMs]> (db_run d)) d, true)
  end.

(** A worker id that is missing is none, not even the empty one. *)
Definition markStartedScript (id workerID : string) (attempt atMs : Z) (d : Db) : Db * bool :=
  match db_jobs d !! id with
  | None => (d, false)
  | Some job =>
      if negb (bool_decide (rj_State job = JobStateRunning)) then (d, false)
      else if negb (bool_decide (rj_WorkerID job = Some workerID)) || negb (rj_AttemptNum job =? attempt) then (d, false)
      else (runCommand (SetJob id (job_StartedAt (Some atMs) job)) d, true)
  end.

(** A key whose time has passed is not there. *)
Definition leaseOf (name : string) (d : Db) : option lease :=
  match db_leases d !! name with
  | Some l => match ls_Until l with Some t => if t <=? db_time d then None else Some l | None => Some l end
  | None => None
  end.

Definition resignLeaderScript (name workerID : string) (d : Db) : Db :=
  match leaseOf name d with
  | Some l => if bool_decide (ls_Owner l = workerID) then set_leases (delete name (db_leases d)) d else d
  | None => d
  end.

Definition advanceCursorScript (id : string) (expected next : Z) (d : Db) : Db * bool :=
  if bool_decide (db_cursors d !! id = Some expected) then (set_cursors (<[id := next]> (db_cursors d)) d, true) else (d, false).

(** ** Requests *)

(** What the code sends, each of them atomic.  [Exec] is the end of a transaction
    that watches the document of a job and has read [seen]. *)
Inductive request :=
| InsertJob (hasUnique : bool) (uniqueKey id : string) (job : redisJob) (scheduled : bool) (score : Z) (queue : string)
    (nowMs createdMs : Z)
| GetJob (id : string)
| FetchOne (queue workerID : string) (nowMs leaseMs : Z)
| RescueOne (queue id : string) (atMs beforeMs : Z)
| Heartbeat (queue id workerID : string) (attempt leaseMs : Z)
| MarkStarted (id workerID : string) (attempt atMs : Z)
| Exec (id : string) (seen : redisJob) (cs : list command)
| ZRem (id : string)                                     (* of the index *)
| ZRangeIndex                                            (* the members of the index *)
| HKeysRun (queue : string)
| HGetPaused (queue : string)
| HGetAllMeta (name : string)
| SMembersQueues
| SetNXLease (name workerID : string) (ttl : Duration)
| GetLease (name : string)
| ExpireLease (name : string) (ttl : Duration)
| Resign (name workerID : string)
| HSetNXCursor (id : string) (nanos : Z)
| HGetCursor (id : string)
| AdvanceCursor (id : string) (expected next : Z)
| Ping
| ScanJobs (cursor : Z)                                  (* jobs, and the next cursor *)
| ZAddJobIndex (id : string) (createdMs : Z).

Definition reply (r : request) : Type :=
  match r with
  | InsertJob _ _ _ _ _ _ _ _ _ | RescueOne _ _ _ _ | Heartbeat _ _ _ _ _ | MarkStarted _ _ _ _ | Exec _ _ _
  | SetNXLease _ _ _ | HSetNXCursor _ _ | AdvanceCursor _ _ _ => bool
  | GetJob _ | FetchOne _ _ _ _ => option redisJob
  | ZRangeIndex | HKeysRun _ | SMembersQueues => list string
  | HGetPaused _ => option bool
  | HGetAllMeta _ => option queueMeta
  | GetLease _ => option string
  | HGetCursor _ => option Z
  | ScanJobs _ => list string * Z
  | ZRem _ | ExpireLease _ _ | Resign _ _ | Ping | ZAddJobIndex _ _ => unit
  end.

(** The client library and the server; the time to live that they make of a
    duration is theirs. *)
Class Redis (R : Type) := {
  rd_call (r : request) : R → R * result (reply r);
  rd_pipeline : list command → R → R * option error;
  rd_uuid : R → R * string;
  rd_Nil : error
}.

Section driver.
Context {R : Type} `{Redis R}.

Record RdEnv := mkRdEnv { rv_rd : R; rv_clk : Clock }.

Definition io (A : Type) : Type := RdEnv → RdEnv * A.

#[global] Instance rio_ret : MRet io := λ A a e, (e, a).
#[global] Instance rio_bind : MBind io := λ A B f m e, let '(e', a) := m e in f a e'.

Definition onServer {A} (f : R → R * A) : io A := λ e, let '(s, a) := f (rv_rd e) in (mkRdEnv s (rv_clk e), a).
Definition clkNow : io Instant := λ e, let '(now, clk) := Now (rv_clk e) in (mkRdEnv (rv_rd e) clk, now).
Definition call (r : request) : io (result (reply r)) := onServer (rd_call r).
Definition pipeline (cs : list command) : io (option error) := onServer (rd_pipeline cs).

Definition errOf {A} (r : result A) : option error := match r with Ok _ => None | Err err => Some err end.
Definition ms_ (d : Duration) : Z := durDiv d Millisecond.       (* d.Milliseconds() *)

(** ** Inserting *)

Definition newJob (p : JobInsertParams) (id : string) (now : Instant) : redisJob :=
  let runAt := if IsZero (ip_RunAt p) then now else ip_RunAt p in
  mkRedisJob id (ip_Queue p) (ip_Kind p) (ip_Args p) (if After runAt now then JobStateScheduled else JobStateAvailable)
    (ip_Priority p) (UnixMilli runAt) (UnixMilli now) None None None None 0 (ip_MaxRetry p) (ms_ (ip_Timeout p))
    (ip_UniqueKey p) None (ip_Tags p) [] (ip_PipelineID p).

Definition insertRequest (p : JobInsertParams) (id : string) (now : Instant) : request :=
  let runAt := if IsZero (ip_RunAt p) then now else ip_RunAt p in
  let scheduled := After runAt now in
  InsertJob (bool_decide (ip_UniqueKey p ≠ "")) (ip_UniqueKey p) id (newJob p id now) scheduled
    (if scheduled then msScore (UnixMilli runAt) else priorityScore (ip_Priority p) runAt) (ip_Queue p)
    (UnixMilli now) (UnixMilli now).

(** One round of the loop of [jobInsertMany]. *)
Definition insertParam (now : Instant) (p : JobInsertParams) : io (result JobInsertResult) :=
  id ← onServer rd_uuid;
  r ← call (insertRequest p id now);
  mret match r with
       | Err err => Err (EWrap "insert job: " err "")
       | Ok false => Ok (mkJobInsertResult None true)
       | Ok true => Ok (mkJobInsertResult (Some (jobToRow (newJob p id now))) false)
       end.

Fixpoint insertParams (now : Instant) (params : list JobInsertParams) : io (result (list JobInsertResult)) :=
  match params with
  | [] => mret (Ok [])
  | p :: ps =>
      r ← insertParam now p;
      match r with
      | Err err => mret (Err err)
      | Ok res => rs ← insertParams now ps; mret match rs with Err err => Err err | Ok rest => Ok (res :: rest) end
      end
  end.

Definition jobInsertMany (params : list JobInsertParams) : io (result (list JobInsertResult)) :=
  now ← clkNow; insertParams now params.

(** ** Reading *)

(** The document of a job, or why there is none. *)
Definition readJob (missing : sentinel) (id : string) : io (result redisJob) :=
  r ← call (GetJob id);
  mret match r with
       | Err err => Err err
       | Ok None => Err (jobError missing id)
       | Ok (Some job) => Ok job
       end.

Definition jobGetByID (id : string) : io (result JobRow) :=
  r ← readJob ErrNotFound id; mret match r with Err err => Err err | Ok job => Ok (jobToRow job) end.

Definition keepRow (params : JobListParams) (cur : option (Instant * string)) (row : JobRow) : bool :=
  (bool_decide (jl_Queue params = "") || bool_decide (Queue row = jl_Queue params)) &&
  (bool_decide (jl_State params = "") || bool_decide (State row = jl_State params)) &&
  (bool_decide (jl_Kind params = "") || bool_decide (Kind row = jl_Kind params)) &&
  match cur with Some (at_, id) => JobFollowsCursor row at_ id | None => true end.

(** The documents of the ids; an id without one is dropped from the index, and a
    read that fails is passed over. *)
Fixpoint scanIDs (params : JobListParams) (cur : option (Instant * string)) (ids : list string) : io (list JobRow) :=
  match ids with
  | [] => mret []
  | id :: rest =>
      r ← call (GetJob id);
      match r with
      | Err _ => scanIDs params cur rest
      | Ok None => _ ← call (ZRem id); scanIDs params cur rest
      | Ok (Some job) =>
          rows ← scanIDs params cur rest;
          mret (if keepRow params cur (jobToRow job) then jobToRow job :: rows else rows)
      end
  end.

Definition listLess (a b : JobRow) : bool :=
  if negb (TimeEqual (CreatedAt a) (CreatedAt b)) then After (CreatedAt a) (CreatedAt b) else str_lt (ID b) (ID a).

Definition scanJobs (params : JobListParams) : io (result (list JobRow)) :=
  let go cur :=
    r ← call ZRangeIndex;
    match r with
    | Err err => mret (Err err)
    | Ok ids => rows ← scanIDs params cur ids; mret (Ok (sort_by listLess rows))
    end in
  if bool_decide (jl_Cursor params = "") then go None
  else match DecodeJobCursor (jl_Cursor params) with Err err => mret (Err err) | Ok cur => go (Some cur) end.

Definition jobList (params : JobListParams) : io (result (list JobRow)) :=
  r ← scanJobs params;
  mret match r with Err err => Err err | Ok rows => Ok (take (Z.to_nat (pageLimit (jl_Limit params))) rows) end.

Definition queueStats (queue : string) : io (result QueueStats) :=
  r ← scanJobs (mkJobListParams queue "" "" 0 "");
  mret match r with Err err => Err err | Ok rows => Ok (CountQueueStats queue rows) end.

(** ** Fetching *)

Definition isQueuePaused (name : string) : io (result bool) :=
  r ← call (HGetPaused name);
  mret match r with Err err => Err err | Ok v => Ok (default false v) end.

(** [n] rounds of claiming; Go returns the rows with the error, too. *)
Fixpoint claimLoop (q workerID : string) (nowMs leaseMs : Z) (n : nat) : io (list JobRow * option error) :=
  match n with
  | O => mret ([], None)
  | S n' =>
      r ← call (FetchOne q workerID nowMs leaseMs);
      match r with
      | Err err => mret ([], Some (EWrap "claim job: " err ""))
      | Ok None => mret ([], None)
      | Ok (Some job) => rs ← claimLoop q workerID nowMs leaseMs n'; mret (jobToRow job :: rs.1, rs.2)
      end
  end.

Definition jobFetchBatch (params : FetchParams) : io (list JobRow * option error) :=
  p ← isQueuePaused (fp_Queue params);
  match p with
  | Err err => mret ([], Some err)
  | Ok true => mret ([], None)
  | Ok false =>
      now ← clkNow;
      claimLoop (fp_Queue params) (fp_WorkerID params) (UnixMilli now) (ms_ (fp_LeaseDuration params)) (Z.to_nat (fp_Limit params))
  end.

(** ** Claims: rescue, heartbeats and outcomes *)

Fixpoint rescueIDs (params : JobRescueParams) (ids : list string) (rescued : Z) : io (Z * option error) :=
  match ids with
  | [] => mret (rescued, None)
  | id :: rest =>
      r ← call (RescueOne (rp_Queue params) id (UnixMilli (rp_At params)) (UnixMilli (rp_Before params)));
      match r with
      | Err err => mret (rescued, Some err)
      | Ok b => rescueIDs params rest (rescued + if b : bool then 1 else 0)
      end
  end.

Definition jobRescueStuck (params : JobRescueParams) : io (Z * option error) :=
  r ← call (HKeysRun (rp_Queue params));
  match r with Err err => mret (0, Some err) | Ok ids => rescueIDs params ids 0 end.

Definition renewalUntil (params : JobHeartbeatParams) : Instant :=
  if IsZero (hp_LeaseExpiresAt params) then hp_At params else hp_LeaseExpiresAt params.

Definition jobHeartbeat (params : JobHeartbeatParams) : io (bool * option error) :=
  j ← jobGetByID (hp_ID params);
  match j with
  | Err err => mret (false, Some err)
  | Ok row =>
      r ← call (Heartbeat (Queue row) (hp_ID params) (hp_WorkerID params) (hp_Attempt params) (UnixMilli (UTC (renewalUntil params))));
      mret match r with Err err => (false, Some err) | Ok b => (b, None) end
  end.

Definition jobMarkStarted (params : JobMarkStartedParams) : io (bool * option error) :=
  r ← call (MarkStarted (ms_ID params) (ms_WorkerID params) (ms_Attempt params) (UnixMilli (UTC (ms_At params))));
  mret match r with Err err => (false, Some err) | Ok b => (b, None) end.

(** The document after the transition, before it is encoded. *)
Definition settledJob (params : JobSetStateParams) (now : Instant) (job : redisJob) : redisJob :=
  if sp_Yield params then
    job_WorkerID None (job_LeaseExpiresAt None (job_StartedAt None (job_AttemptedAt None
      (job_AttemptNum (wrap64 (rj_AttemptNum job - 1)) (job_State JobStateAvailable job)))))
  else
    let job := match sp_Err params with
      | Some msg => job_Errors (rj_Errors job ++ [mkRedisErr (UnixMilli now) (rj_AttemptNum job) msg (default "" (sp_Trace params))]) job
      | None => job
      end in
    let job :=
      if bool_decide (sp_State params = JobStateRetryable)
      then job_RunAt (UnixMilli (if IsZero (sp_RetryAt params) then now else sp_RetryAt params)) (job_State JobStateAvailable job)
      else job_FinalizedAt (Some (UnixMilli now)) (job_State (sp_State params) job) in
    job_LeaseExpiresAt None (job_WorkerID None job).

(** The commands of the transaction; [job] is the document after the transition. *)
Definition settleCommands (params : JobSetStateParams) (now : Instant) (job : redisJob) : list command :=
  [HDelRun (rj_Queue job) (sp_ID params); SetJob (sp_ID params) (recoded job)] ++
  if sp_Yield params then [ZAddAvail (rj_Queue job) (sp_ID params) (scoreOf (rj_Priority job) (rj_RunAtMs job))]
  else if bool_decide (sp_State params = JobStateRetryable) then
    if After (UnixFromMilli (rj_RunAtMs job)) now
    then [ZAddSched (rj_Queue job) (sp_ID params) (msScore (rj_RunAtMs job))]
    else [ZAddAvail (rj_Queue job) (sp_ID params) (scoreOf (rj_Priority job) (rj_RunAtMs job))]
  else if bool_decide (rj_UniqueKey job ≠ "") && negb (IsPermanentUniqueKey (rj_UniqueKey job)) then [DelUniq (rj_UniqueKey job)]
  else [].

(** One attempt of the transaction; [None]: the document has changed. *)
Definition settleOnce (params : JobSetStateParams) : io (option (option error)) :=
  r ← readJob ErrStaleClaim (sp_ID params);
  match r with
  | Err err => mret (Some (Some err))
  | Ok job =>
      if negb (bool_decide (rj_State job = JobStateRunning)) || negb (MatchesClaim params (default "" (rj_WorkerID job)) (rj_AttemptNum job))
      then mret (Some (Some (jobError ErrStaleClaim (sp_ID params))))
      else
        now ← clkNow;
        r ← call (Exec (sp_ID params) job (settleCommands params now (settledJob params now job)));
        mret match r with
             | Err err => Some (Some err)
             | Ok false => None
             | Ok true => Some None
             end
  end.

Fixpoint settleLoop (params : JobSetStateParams) (n : nat) : io (option error) :=
  match n with
  | O => mret (Some (ENew ("set state for job " +:+ sp_ID params +:+ ": too much concurrent contention")))
  | S n' => r ← settleOnce params; match r with Some res => mret res | None => settleLoop params n' end
  end.

Definition jobSetStateIfRunning (params : JobSetStateParams) : io (option error) := settleLoop params 8.

(** ** Cancelling, deleting, rescheduling *)

Definition cancelledJob (now : Instant) (job : redisJob) : redisJob :=
  job_FinalizedAt (Some (UnixMilli now)) (job_State JobStateCancelled job).

Definition cancelCommands (id : string) (now : Instant) (job : redisJob) : list command :=
  [ZRemAvail (rj_Queue job) id; ZRemSched (rj_Queue job) id; SetJob id (recoded (cancelledJob now job))].

Definition notCancellable (id : string) (job : redisJob) : error :=
  EWrap "" (ESentinel ErrConflict) (": job " +:+ quoted id +:+ " is in state " +:+ rj_State job +:+ ", can only cancel available/scheduled").

(** What deleting the unique key answers is not looked at. *)
Definition jobCancel (id : string) : io (option error) :=
  r ← readJob ErrNotFound id;
  match r with
  | Err err => mret (Some err)
  | Ok job =>
      if negb (bool_decide (rj_State job = JobStateAvailable)) && negb (bool_decide (rj_State job = JobStateScheduled))
      then mret (Some (notCancellable id job))
      else
        now ← clkNow;
        _ ← (if bool_decide (rj_UniqueKey job ≠ "") && negb (IsPermanentUniqueKey (rj_UniqueKey job))
             then pipeline [DelUniq (rj_UniqueKey job)] else mret None);
        pipeline (cancelCommands id now job)
  end.

Definition deleteCommands (id : string) (job : redisJob) : list command :=
  [DelJob id; ZRemAvail (rj_Queue job) id; ZRemSched (rj_Queue job) id; HDelRun (rj_Queue job) id; ZRemIndex id]
  ++ (if bool_decide (rj_UniqueKey job ≠ "") then [DelUniq (rj_UniqueKey job)] else []).

Definition jobDelete (id : string) : io (option error) :=
  r ← readJob ErrNotFound id;
  match r with Err err => mret (Some err) | Ok job => pipeline (deleteCommands id job) end.

Definition rescheduledJob (params : RescheduleParams) (job : redisJob) : redisJob :=
  job_State JobStateScheduled (job_RunAt (UnixMilli (rs_RunAt params)) job).

Definition rescheduleCommands (params : RescheduleParams) (job : redisJob) : list command :=
  [ZRemAvail (rj_Queue job) (rs_ID params); ZAddSched (rj_Queue job) (rs_ID params) (msScore (UnixMilli (rs_RunAt params)));
   SetJob (rs_ID params) (recoded (rescheduledJob params job))].

Definition jobReschedule (params : RescheduleParams) : io (option error) :=
  r ← readJob ErrNotFound (rs_ID params);
  match r with Err err => mret (Some err) | Ok job => pipeline (rescheduleCommands params job) end.

(** ** Queues *)

Definition queueSetPaused (name : string) (paused : bool) : io (option error) :=
  now ← clkNow;
  pipeline [SAddQueue name; HSetNXCreated name (UnixMilli now); HSetPaused name paused (UnixMilli now)].

Definition parseQueueRow (name : string) (m : queueMeta) : QueueRow :=
  let at_ ms := if milli ms =? 0 then zeroTime else UTC (UnixFromMilli (milli ms)) in
  mkQueueRow name (default false (qm_Paused m)) (at_ (qm_CreatedAtMs m)) (at_ (qm_UpdatedAtMs m)).

Definition queueGet (name : string) : io (result QueueRow) :=
  r ← call (HGetAllMeta name);
  mret match r with
       | Err err => Err err
       | Ok None => Err (EWrap "" (ESentinel ErrNotFound) (": queue " +:+ quoted name))
       | Ok (Some m) => Ok (parseQueueRow name m)
       end.

Fixpoint queueRows (cursor : string) (names : list string) : io (list QueueRow) :=
  match names with
  | [] => mret []
  | name :: rest =>
      if negb (str_lt cursor name) then queueRows cursor rest
      else
        r ← call (HGetAllMeta name);
        rows ← queueRows cursor rest;
        mret match r with Ok (Some m) => parseQueueRow name m :: rows | _ => rows end
  end.

Definition queueLess (a b : QueueRow) : bool := str_lt (q_Name a) (q_Name b).

Definition queueList (params : QueueListParams) : io (result (list QueueRow)) :=
  let go cursor :=
    r ← call SMembersQueues;
    match r with
    | Err err => mret (Err err)
    | Ok names =>
        rows ← queueRows cursor names;
        mret (Ok (take (Z.to_nat (pageLimit (ql_Limit params))) (sort_by queueLess rows)))
    end in
  if bool_decide (ql_Cursor params = "") then go ""
  else match DecodeQueueCursor (ql_Cursor params) with Ok cursor => go cursor | Err err => mret (Err err) end.

(** ** Leases and schedule cursors *)

(** What the renewal answers is not looked at. *)
Definition leaderAttemptElect (params : LeaderElectParams) : io (bool * option error) :=
  r ← call (SetNXLease (le_Name params) (le_WorkerID params) (le_TTL params));
  match r with
  | Err err => mret (false, Some err)
  | Ok true => mret (true, None)
  | Ok false =>
      r ← call (GetLease (le_Name params));
      match r with
      | Err err => mret (false, Some err)
      | Ok None => mret (false, None)
      | Ok (Some current) =>
          if bool_decide (current = le_WorkerID params)
          then _ ← call (ExpireLease (le_Name params) (le_TTL params)); mret (true, None)
          else mret (false, None)
      end
  end.

Definition leaderResign (params : LeaderResignParams) : io (option error) :=
  r ← call (Resign (lr_Name params) (lr_WorkerID params)); mret (errOf r).

Definition emptyCursorResult : ScheduleCursorResult := mkScheduleCursorResult zeroTime false.

Definition scheduleCursorGetOrCreate (params : ScheduleCursorCreateParams) : io (ScheduleCursorResult * option error) :=
  r ← call (HSetNXCursor (cc_ID params) (UnixNano (UTC (cc_InitialAt params))));
  match r with
  | Err err => mret (emptyCursorResult, Some err)
  | Ok created =>
      r ← call (HGetCursor (cc_ID params));
      mret match r with
           | Err err => (emptyCursorResult, Some err)
           | Ok None => (emptyCursorResult, Some rd_Nil)
           | Ok (Some nanos) => (mkScheduleCursorResult (UTC (UnixFromNano nanos)) created, None)
           end
  end.

Definition scheduleCursorAdvance (params : ScheduleCursorAdvanceParams) : io (bool * option error) :=
  r ← call (AdvanceCursor (ca_ID params) (UnixNano (UTC (ca_Expected params))) (UnixNano (UTC (ca_Next params))));
  mret match r with Err err => (false, Some err) | Ok b => (b, None) end.

(** ** Migrate *)

(** The jobs of one page of the scan go into the index; a read that fails is passed over. *)
Fixpoint backfill (ids : list string) : io (option error) :=
  match ids with
  | [] => mret None
  | id :: rest =>
      r ← call (GetJob id);
      match r with
      | Ok (Some job) =>
          u ← call (ZAddJobIndex (rj_ID job) (msScore (rj_CreatedAtMs job)));
          match u with Err err => mret (Some err) | Ok _ => backfill rest end
      | _ => backfill rest
      end
  end.

(** [None]: the scan has not come to its end within [fuel] pages. *)
Fixpoint migratePages (cursor : Z) (fuel : nat) : io (option (option error)) :=
  match fuel with
  | O => mret None
  | S fuel' =>
      r ← call (ScanJobs cursor);
      match r with
      | Err err => mret (Some (Some err))
      | Ok (ids, next) =>
          err ← backfill ids;
          match err with
          | Some err => mret (Some (Some err))
          | None => if next =? 0 then mret (Some None) else migratePages next fuel'
          end
      end
  end.

Definition Migrate (fuel : nat) : io (option (option error)) :=
  r ← call Ping;
  match r with Err err => mret (Some (Some err)) | Ok _ => migratePages 0 fuel end.

(** ** The executor *)

(** [Begin] is refused; a transaction made from the caller's [NoTx] does nothing of
    its own, its operations are the executor's. *)
Definition Begin : io (result nat) := mret (Err (EWrap "" (ESentinel ErrUnsupported) ": redis transactions")).
Definition BeginNested : io (result nat) := mret (Err (ENew "nested transactions not supported")).
Definition Commit : io (option error) := mret None.
Definition Rollback : io (option error) := mret None.
End driver.

Definition RedisCapabilities : Capabilities :=
  {| NativeTx := false; ListenNotify := true; ChangeStreams := false; SkipLocked := false; UniqueJobs := true;
     AdvisoryLocks := false; LinearizableLeases := true; LinearizableCAS := true; LifecycleTimestamps := true;
     BoundedFetch := true; StrictFetchOrdering := false |}.
