(* ===== verification/RedisLaws.v ===== *)
(** * driver/redis: atomic moves, and what the server promises

    A [move] is one request with its answer, one command of somebody's pipeline, or
    the passing of time.  [RedisLaws] states the documented behaviour: the server
    runs commands, scripts and transactions one at a time; a transaction under
    WATCH is refused when what it watches has changed; the commands of a pipeline
    are run in order, but not together; a request that fails may or may not have
    been run.  Identifiers from [uuid.New] do not repeat.  Others use the keys
    through this driver, too. *)

From S2P Require Import Prelude GoBase Json Codec Driver Memory.
From S2P Require Export Moves.
From S2P Require Import Redis.
From Stdlib Require Import ZArith Lia.

(** An id that no key knows. *)
Definition unlisted (id : string) (z : gmap (string * string) Z) : bool := bool_decide (Forall (λ x, x.1.2 ≠ id) (map_to_list z)).
Definition freshID (id : string) (d : Db) : bool :=
  bool_decide (db_jobs d !! id = None) && unlisted id (db_avail d) && unlisted id (db_sched d).

(** A document is written under its own id. *)
Definition saneCommand (c : command) : bool := match c with SetJob id job => bool_decide (rj_ID job = id) | _ => true end.
Definition saneRequest (q : request) : bool :=
  match q with
  | InsertJob _ _ id job _ _ _ _ _ => bool_decide (rj_ID job = id)
  | Exec _ _ cs => forallb saneCommand cs
  | _ => true
  end.

Definition agree {A} `{EqDecision A} (r : Db * A) (a : A) : option Db := if decide (r.2 = a) then Some r.1 else None.
Definition seen {A} `{EqDecision A} (x a : A) (d : Db) : option Db := if decide (x = a) then Some d else None.

(** The ids in the running hash of a queue. *)
Definition runIDs (q : string) (d : Db) : gset string := set_map snd (filter (λ k : string * string, k.1 = q) (dom (db_run d))).
Definition listsOnce (l : list string) (ids : gset string) : bool := bool_decide (NoDup l ∧ list_to_set l = ids).

Section server.
(** The time to live that the client makes of a duration: with SET, which may be
    none, and with EXPIRE. *)
Context (px : Duration → option Duration) (ex : Duration → Duration).

Definition setNXLease (name workerID : string) (ttl : Duration) (d : Db) : Db * bool :=
  match leaseOf name d with
  | Some _ => (d, false)
  | None => (set_leases (<[name := mkLease workerID ((λ t, Add (db_time d) t) <$> px ttl)]> (db_leases d)) d, true)
  end.

Definition expireLease (name : string) (ttl : Duration) (d : Db) : Db :=
  match leaseOf name d with
  | Some l => set_leases (<[name := mkLease (ls_Owner l) (Some (Add (db_time d) (ex ttl)))]> (db_leases d)) d
  | None => d
  end.

(** What the server makes of a request, and whether it can give that answer. *)
Definition serve (q : request) : reply q → Db → option Db :=
  match q with
  | InsertJob hu key id job sc score queue nowMs createdMs => λ a d,
      if freshID id d then agree (insertJobScript hu key id job sc score queue nowMs createdMs d) a else None
  | GetJob id => λ a d, seen (db_jobs d !! id) a d
  | FetchOne queue w nowMs leaseMs => λ a d, agree (fetchOneScript queue w nowMs leaseMs d) a
  | RescueOne queue id atMs beforeMs => λ a d, agree (rescueOneScript queue id atMs beforeMs d) a
  | Heartbeat queue id w attempt leaseMs => λ a d, agree (heartbeatScript queue id w attempt leaseMs d) a
  | MarkStarted id w attempt atMs => λ a d, agree (markStartedScript id w attempt atMs d) a
  | Exec id job cs => λ a d,
      if a : bool then if bool_decide (db_jobs d !! id = Some job) then Some (runCommands cs d) else None else Some d
  | ZRem id => λ _ d, Some (runCommand (ZRemIndex id) d)
  | ZRangeIndex => λ l d, if listsOnce l (dom (db_index d)) then Some d else None
  | HKeysRun queue => λ l d, if listsOnce l (runIDs queue d) then Some d else None
  | HGetPaused queue => λ a d, seen (qm_Paused (metaOf queue d)) a d
  | HGetAllMeta name => λ a d, seen (db_meta d !! name) a d
  | SMembersQueues => λ l d, if listsOnce l (db_queues d) then Some d else None
  | SetNXLease name w ttl => λ a d, agree (setNXLease name w ttl d) a
  | GetLease name => λ a d, seen (ls_Owner <$> leaseOf name d) a d
  | ExpireLease name ttl => λ _ d, Some (expireLease name ttl d)
  | Resign name w => λ _ d, Some (resignLeaderScript name w d)
  | HSetNXCursor id nanos => λ a d,
      agree (match db_cursors d !! id with Some _ => (d, false) | None => (set_cursors (<[id := nanos]> (db_cursors d)) d, true) end) a
  | HGetCursor id => λ a d, seen (db_cursors d !! id) a d
  | AdvanceCursor id expected next => λ a d, agree (advanceCursorScript id expected next d) a
  | Ping => λ _ d, Some d
  | ScanJobs _ => λ _ d, Some d
  | ZAddJobIndex id createdMs => λ _ d, Some (runCommand (ZAddIndex id createdMs) d)
  end.

Inductive move :=
| MReq (q : request) (a : reply q)
| MCmd (c : command)
| MTime (t : Instant).

Definition step (m : move) (d : Db) : option Db :=
  match m with
  | MReq q a => if saneRequest q then serve q a d else None
  | MCmd c => if saneCommand c then Some (runCommand c d) else None
  | MTime t => if db_time d <=? t then Some (set_time t d) else None
  end.
End server.

Abbreviation runMoves px ex := (Moves.runMoves (step px ex)).
Abbreviation others px ex := (Moves.others (step px ex)).

Definition keyedDb (d : Db) : Prop := ∀ id j, db_jobs d !! id = Some j → rj_ID j = id.

(** ** What a call has done when it answers *)

Section server.
Context {R : Type} `{Redis R}.

Class RedisLaws := {
  rd_px : Duration → option Duration;
  rd_ex : Duration → Duration;
  rd_db : R → Db;
  rd_Nil_foreign : foreignErr rd_Nil;
  rd_uuid_law s : others rd_px rd_ex (rd_db s) (rd_db (rd_uuid s).1);
  rd_call_law q s : keyedDb (rd_db s) → saneRequest q = true → ∃ acts,
    Moves.happens (step rd_px rd_ex) (rd_db s) (rd_db (rd_call q s).1) acts ∧
    match (rd_call q s).2 with
    | Ok a => did acts = [MReq q a]
    | Err e => foreignErr e ∧ (did acts = [] ∨ ∃ a, did acts = [MReq q a])
    end;
  rd_pipeline_law cs s : keyedDb (rd_db s) → forallb saneCommand cs = true → ∃ acts,
    Moves.happens (step rd_px rd_ex) (rd_db s) (rd_db (rd_pipeline cs s).1) acts ∧
    match (rd_pipeline cs s).2 with
    | None => did acts = MCmd <$> cs
    | Some e => foreignErr e ∧ ∃ l, l `sublist_of` cs ∧ did acts = MCmd <$> l
    end
}.
End server.
Arguments RedisLaws R {H}.

(** ** How scripts and commands treat the documents *)

Lemma setter_jobs d : (∀ x, db_jobs (set_uniq x d) = db_jobs d) ∧ (∀ x, db_jobs (set_avail x d) = db_jobs d) ∧
  (∀ x, db_jobs (set_sched x d) = db_jobs d) ∧ (∀ x, db_jobs (set_run x d) = db_jobs d).
Proof. done. Qed.

Lemma runCommand_keyed c d : saneCommand c = true → keyedDb d → keyedDb (runCommand c d).
Proof.
  intros Hs Hk. destruct c; try exact Hk.
  - apply bool_decide_eq_true in Hs. intros i j. simpl. rewrite lookup_insert_Some. intros [[<- <-]|[_ ?]]; [done|by apply Hk].
  - intros i j. simpl. rewrite lookup_delete_Some. intros [_ ?]. by apply Hk.
Qed.

Lemma runCommands_keyed cs : ∀ d, forallb saneCommand cs = true → keyedDb d → keyedDb (runCommands cs d).
Proof.
  induction cs as [|c cs IH]; intros d; [done|]. simpl. intros [Hc Hcs]%andb_true_iff Hk.
  apply IH; [done|]. by apply runCommand_keyed.
Qed.

Lemma promote_jobs q nowMs d : db_jobs (promote q nowMs d) = db_jobs d.
Proof.
  unfold promote. generalize (due q nowMs d). intros l. revert d. induction l as [|id l IH]; intros d; simpl; [done|].
  rewrite IH. unfold promoteOne. by destruct (db_jobs d !! id).
Qed.

(** A claim, as the documents show it. *)
Lemma fetchOne_jobs q w nowMs leaseMs d d' r : fetchOneScript q w nowMs leaseMs d = (d', r) →
  match r with
  | None => db_jobs d' = db_jobs d
  | Some j' => ∃ id j, db_jobs d !! id = Some j ∧ j' = claimed w nowMs leaseMs j ∧ db_jobs d' = <[id := j']> (db_jobs d)
  end.
Proof.
  unfold fetchOneScript. set (d1 := promote q nowMs d). assert (db_jobs d1 = db_jobs d) as E by apply promote_jobs.
  destruct (zrange q (db_avail d1)) as [|[id score] rest]; [by intros [= <- <-]|]. simpl. rewrite E.
  destruct (db_jobs d !! id) as [j|] eqn:Ej; intros [= <- <-]; simpl; [|done]. by exists id, j.
Qed.

Section keyed.
Context (px : Duration → option Duration) (ex : Duration → Duration).

Lemma agree_Some {A} `{EqDecision A} (r : Db * A) a d' : agree r a = Some d' → r = (d', a).
Proof. unfold agree. destruct r. case_decide; simpl in *; naive_solver. Qed.
Lemma seen_Some {A} `{EqDecision A} (x a : A) d d' : seen x a d = Some d' → d' = d ∧ x = a.
Proof. unfold seen. case_decide; naive_solver. Qed.

Lemma rd_step_keyed m d d' : keyedDb d → step px ex m d = Some d' → keyedDb d'.
Proof.
  intros Hk. destruct m as [q a|c|t]; cbn [step].
  - destruct (saneRequest q) eqn:Hs; [|done]. destruct q; cbn [serve saneRequest] in *.
    + destruct (freshID id d); [|done]. intros E%agree_Some. unfold insertJobScript in E.
      destruct (_ && _); [by simplify_eq|]. injection E as <- _. apply bool_decide_eq_true in Hs. intros i j.
      destruct scheduled, hasUnique; simpl; rewrite lookup_insert_Some; (intros [[<- <-]|[_ ?]]; [done|by apply Hk]).
    + by intros [-> _]%seen_Some.
    + intros E%agree_Some. apply fetchOne_jobs in E. destruct a as [j'|].
      * destruct E as (id & j & Hj & -> & E). intros i j0. rewrite E, lookup_insert_Some. intros [[<- <-]|[_ ?]]; [|by apply Hk].
        simpl. by apply Hk.
      * intros i j. rewrite E. apply Hk.
    + intros E%agree_Some. unfold rescueOneScript in E. destruct (db_jobs d !! id) as [j|] eqn:Ej; [|by simplify_eq].
      destruct (negb _); [by simplify_eq|]. destruct (negb _); simplify_eq; [done|]. intros i j0. simpl.
      rewrite lookup_insert_Some. intros [[<- <-]|[_ ?]]; [simpl; by apply Hk|by apply Hk].
    + intros E%agree_Some. unfold heartbeatScript in E. destruct (db_jobs d !! id) as [j|] eqn:Ej; [|by simplify_eq].
      repeat (destruct (negb _); [by simplify_eq|]). simplify_eq. intros i j0. simpl.
      rewrite lookup_insert_Some. intros [[<- <-]|[_ ?]]; [simpl; by apply Hk|by apply Hk].
    + intros E%agree_Some. unfold markStartedScript in E. destruct (db_jobs d !! id) as [j|] eqn:Ej; [|by simplify_eq].
      destruct (negb _); [by simplify_eq|]. destruct (_ || _); simplify_eq; [done|]. intros i j0. simpl.
      rewrite lookup_insert_Some. intros [[<- <-]|[_ ?]]; [simpl; by apply Hk|by apply Hk].
    + destruct a; [|by intros [= <-]]. case_bool_decide; [|done]. intros [= <-]. by apply runCommands_keyed.
    + by intros [= <-].
    + by destruct (listsOnce _ _); intros; simplify_eq.
    + by destruct (listsOnce _ _); intros; simplify_eq.
    + by intros [-> _]%seen_Some.
    + by intros [-> _]%seen_Some.
    + by destruct (listsOnce _ _); intros; simplify_eq.
    + intros E%agree_Some. unfold setNXLease in E. by destruct (leaseOf name d); simplify_eq.
    + by intros [-> _]%seen_Some.
    + intros [= <-]. unfold expireLease. by destruct (leaseOf name d).
    + intros [= <-]. unfold resignLeaderScript. destruct (leaseOf name d); [|done]. by case_bool_decide.
    + intros E%agree_Some. by destruct (db_cursors d !! id); simplify_eq.
    + by intros [-> _]%seen_Some.
    + intros E%agree_Some. unfold advanceCursorScript in E. by case_bool_decide; simplify_eq.
    + by intros [= <-].
    + by intros [= <-].
    + by intros [= <-].
  - destruct (saneCommand c) eqn:Hs; [|done]. intros [= <-]. by apply runCommand_keyed.
  - destruct (_ <=? _); [|done]. by intros [= <-].
Qed.
End keyed.

(** ** The logic of programs *)

Section logic.
Context {R : Type} `{Redis R} `{!RedisLaws R}.
Abbreviation dbOf e := (rd_db (rv_rd e)).

Definition does {A} (m : io A) (Q : list (act move) → A → Prop) : Prop :=
  Moves.does (step rd_px rd_ex) (λ e, dbOf e) keyedDb m Q.

Lemma rd_weaken {A} (m : io A) (Q Q' : list (act move) → A → Prop) : does m Q → (∀ acts a, Q acts a → Q' acts a) → does m Q'.
Proof. apply moves_weaken. Qed.

Lemma rd_ret {A} (a : A) (Q : list (act move) → A → Prop) : Q [] a → does (mret a) Q.
Proof. apply moves_ret. Qed.

Lemma rd_bind {A B} (m : io A) (f : A → io B) (Q : list (act move) → B → Prop) :
  does m (λ a1 x, does (f x) (λ a2 y, Q (a1 ++ a2) y)) → does (m ≫= f) Q.
Proof. apply moves_bind, rd_step_keyed. Qed.

Lemma rd_now Q : (∀ now, Q [] now) → does clkNow Q.
Proof.
  intros HQ e _. exists []. unfold clkNow. destruct (Now (rv_clk e)) as [now clk]. simpl.
  split; [by apply happens_others|done].
Qed.

Lemma rd_newID Q : (∀ id, Q [] id) → does (onServer rd_uuid) Q.
Proof.
  intros HQ e _. exists []. unfold onServer. pose proof (rd_uuid_law (rv_rd e)) as Ho. destruct (rd_uuid (rv_rd e)) as [s id]. simpl in *.
  split; [by apply happens_others|done].
Qed.

Definition possible (m : move) : Prop := ∃ d d', keyedDb d ∧ step rd_px rd_ex m d = Some d'.

(** A call: what it has done, by its answer. *)
Lemma rd_does_call q (Q : list (act move) → result (reply q) → Prop) : saneRequest q = true →
  (∀ acts a, possible (MReq q a) → did acts = [MReq q a] → Q acts (Ok a)) →
  (∀ acts e, foreignErr e → did acts = [] ∨ (∃ a, did acts = [MReq q a]) → Q acts (Err e)) →
  does (call q) Q.
Proof.
  intros Hs HQ HE e He. unfold call, onServer. destruct (rd_call_law q (rv_rd e) He Hs) as (acts & Hh & Hr).
  pose proof (happens_ran _ keyedDb (rd_step_keyed rd_px rd_ex) _ _ _ Hh He) as Hp.
  destruct (rd_call q (rv_rd e)) as [s r]. simpl in *. exists acts. split; [done|].
  destruct r as [a|err]; [|destruct Hr; by apply HE]. apply HQ; [|done]. rewrite Hr, Forall_singleton in Hp. exact Hp.
Qed.

Lemma rd_does_pipeline cs (Q : list (act move) → option error → Prop) : forallb saneCommand cs = true →
  (∀ acts, did acts = MCmd <$> cs → Q acts None) →
  (∀ acts e l, foreignErr e → l `sublist_of` cs → did acts = MCmd <$> l → Q acts (Some e)) →
  does (pipeline cs) Q.
Proof.
  intros Hs HQ HE e He. unfold pipeline, onServer. destruct (rd_pipeline_law cs (rv_rd e) He Hs) as (acts & Hh & Hr).
  destruct (rd_pipeline cs (rv_rd e)) as [s r]. simpl in *. exists acts. split; [done|].
  destruct r as [err|]; [|by apply HQ]. destruct Hr as (Hf & l & Hl & Hd). by eapply HE.
Qed.
End logic.
