(* ===== verification/RedisRefine.v ===== *)
(** * driver/redis: what each operation does

    [promised o acts a]: the operation [o] has done [acts] and answered [a].  The
    refinement theorem says that every operation keeps its promise whatever other
    programs do between its calls: each answer is one that the atomic moves of the
    operation, in their order, account for. *)

From S2P Require Import Prelude GoBase Json Codec Driver Moves Memory Redis RedisLaws.
From Stdlib Require Import ZArith Lia.

(** ** Operations *)

Definition execOp {R} `{Redis R} (o : driverOp) : io (ans o) :=
  match o with
  | OInsert ps => jobInsertMany ps
  | OGet id => jobGetByID id
  | OList p => jobList p
  | OStats q => queueStats q
  | OFetch p => jobFetchBatch p
  | ORescue p => jobRescueStuck p
  | OHeartbeat p => jobHeartbeat p
  | OMarkStarted p => jobMarkStarted p
  | OSetState p => jobSetStateIfRunning p
  | OCancel id => jobCancel id
  | ODelete id => jobDelete id
  | OReschedule p => jobReschedule p
  | OQueueGet n => queueGet n
  | OSetPaused n b => queueSetPaused n b
  | OQueueList p => queueList p
  | OElect p => leaderAttemptElect p
  | OResign p => leaderResign p
  | OCursorGet p => scheduleCursorGetOrCreate p
  | OCursorAdvance p => scheduleCursorAdvance p
  end.

(** A program: one operation after the other. *)
Fixpoint execAll {R} `{Redis R} (os : list driverOp) (e : RdEnv (R := R)) : RdEnv (R := R) * list {o : driverOp & ans o} :=
  match os with
  | [] => (e, [])
  | o :: rest =>
      let '(e1, a) := execOp o e in
      let '(e2, as_) := execAll rest e1 in
      (e2, existT o a :: as_)
  end.

(** ** Promises *)

(** A request that has failed: the server may or may not have run it. *)
Definition tried (q : request) (ms : list move) : Prop := ms = [] ∨ ∃ a, ms = [MReq q a].

(** What became of one parameter of a batch. *)
Definition insertedAs (now : Instant) (p : JobInsertParams) (ms : list move) (r : JobInsertResult) : Prop :=
  ∃ id, if ir_UniqueSkip r
        then ip_UniqueKey p ≠ "" ∧ ir_Job r = None ∧ ms = [MReq (insertRequest p id now) false]
        else ir_Job r = Some (jobToRow (newJob p id now)) ∧ ms = [MReq (insertRequest p id now) true].

(** The rows that a scan of the index has kept. *)
Inductive scanned (p : JobListParams) (cur : option (Instant * string)) : list string → list move → list JobRow → Prop :=
| scanned_none : scanned p cur [] [] []
| scanned_failed id ids ms1 ms rows : tried (GetJob id) ms1 → scanned p cur ids ms rows →
    scanned p cur (id :: ids) (ms1 ++ ms) rows
| scanned_gone id ids ms1 ms rows : tried (ZRem id) ms1 → scanned p cur ids ms rows →
    scanned p cur (id :: ids) (MReq (GetJob id) None :: ms1 ++ ms) rows
| scanned_job id ids j ms rows : scanned p cur ids ms rows →
    scanned p cur (id :: ids) (MReq (GetJob id) (Some j) :: ms)
      (if keepRow p cur (jobToRow j) then jobToRow j :: rows else rows).

Definition cursorOf (p : JobListParams) (cur : option (Instant * string)) : Prop :=
  if bool_decide (jl_Cursor p = "") then cur = None else ∃ c, DecodeJobCursor (jl_Cursor p) = Ok c ∧ cur = Some c.

Definition scannedAll (p : JobListParams) (ms : list move) (rows : list JobRow) : Prop :=
  ∃ cur ids ms' kept, cursorOf p cur ∧ ms = MReq ZRangeIndex ids :: ms' ∧ scanned p cur ids ms' kept ∧ rows = sort_by listLess kept.

(** The queues that a listing has found. *)
Inductive queuesRead (cursor : string) : list string → list move → list QueueRow → Prop :=
| queuesRead_none : queuesRead cursor [] [] []
| queuesRead_before n ns ms rows : str_lt cursor n = false → queuesRead cursor ns ms rows → queuesRead cursor (n :: ns) ms rows
| queuesRead_skip n ns ms1 ms rows : str_lt cursor n = true → tried (HGetAllMeta n) ms1 →
    queuesRead cursor ns ms rows → queuesRead cursor (n :: ns) (ms1 ++ ms) rows
| queuesRead_row n ns m ms rows : str_lt cursor n = true → queuesRead cursor ns ms rows →
    queuesRead cursor (n :: ns) (MReq (HGetAllMeta n) (Some m) :: ms) (parseQueueRow n m :: rows).

Definition queueCursorOf (p : QueueListParams) (cursor : string) : Prop :=
  if bool_decide (ql_Cursor p = "") then cursor = "" else DecodeQueueCursor (ql_Cursor p) = Ok cursor.

Definition fetchRequest (p : FetchParams) (now : Instant) : request :=
  FetchOne (fp_Queue p) (fp_WorkerID p) (UnixMilli now) (ms_ (fp_LeaseDuration p)).
Definition claimOf (p : FetchParams) (now : Instant) (j : redisJob) : move := MReq (fetchRequest p now) (Some j).

(** How the rounds of claiming have ended. *)
Definition roundsEnd (p : FetchParams) (now : Instant) (claimed limit : nat) (err : option error) (ms : list move) : Prop :=
  match err with
  | None => claimed = limit ∧ ms = [] ∨ (claimed < limit)%nat ∧ ms = [MReq (fetchRequest p now) None]
  | Some _ => (claimed < limit)%nat ∧ tried (fetchRequest p now) ms
  end.

Definition rescueRequest (p : JobRescueParams) (id : string) : request :=
  RescueOne (rp_Queue p) id (UnixMilli (rp_At p)) (UnixMilli (rp_Before p)).
Definition rescueOf (p : JobRescueParams) (x : string * bool) : move := MReq (rescueRequest p x.1) x.2.

Definition heartbeatRequest (p : JobHeartbeatParams) (j : redisJob) : request :=
  Heartbeat (rj_Queue j) (hp_ID p) (hp_WorkerID p) (hp_Attempt p) (UnixMilli (UTC (renewalUntil p))).
Definition startRequest (p : JobMarkStartedParams) : request :=
  MarkStarted (ms_ID p) (ms_WorkerID p) (ms_Attempt p) (UnixMilli (UTC (ms_At p))).

(** The claim that a transition names, as a document shows it. *)
Definition holds (p : JobSetStateParams) (j : redisJob) : Prop :=
  rj_State j = JobStateRunning ∧ MatchesClaim p (default "" (rj_WorkerID j)) (rj_AttemptNum j) = true.

Definition settleRequest (p : JobSetStateParams) (now : Instant) (j : redisJob) : request :=
  Exec (sp_ID p) j (settleCommands p now (settledJob p now j)).
(** An attempt of a transition that another program's write has refused. *)
Definition refused (p : JobSetStateParams) (x : Instant * redisJob) : list move :=
  [MReq (GetJob (sp_ID p)) (Some x.2); MReq (settleRequest p x.1 x.2) false].

(** A document is read; the rest, of one pipeline, is made from it. *)
Definition readThen (id : string) (cs : redisJob → list command) (ms : list move) (err : option error) : Prop :=
  match err with
  | None => ∃ j, ms = MReq (GetJob id) (Some j) :: (MCmd <$> cs j)
  | Some e =>
      if errorsIs e ErrNotFound then ms = [MReq (GetJob id) None]
      else tried (GetJob id) ms ∨ ∃ j l, l `sublist_of` cs j ∧ ms = MReq (GetJob id) (Some j) :: (MCmd <$> l)
  end.

Definition cancellable (j : redisJob) : Prop := rj_State j = JobStateAvailable ∨ rj_State j = JobStateScheduled.
Definition freedKey (j : redisJob) : list command :=
  if bool_decide (rj_UniqueKey j ≠ "") && negb (IsPermanentUniqueKey (rj_UniqueKey j)) then [DelUniq (rj_UniqueKey j)] else [].

Definition pauseCommands (n : string) (b : bool) (now : Instant) : list command :=
  [SAddQueue n; HSetNXCreated n (UnixMilli now); HSetPaused n b (UnixMilli now)].

Definition promisedMoves (o : driverOp) (ms : list move) : ans o → Prop :=
  match o with
  | OInsert ps => λ a, ∃ now,
      match a with
      | Ok rs => ∃ groups, ms = mjoin groups ∧ Forall3 (insertedAs now) ps groups rs
      | Err _ => ∃ before p rest groups rs id last, ps = before ++ p :: rest ∧ ms = mjoin groups ++ last ∧
          Forall3 (insertedAs now) before groups rs ∧ tried (insertRequest p id now) last
      end
  | OGet id => λ a,
      match a with
      | Ok row => ∃ j, ms = [MReq (GetJob id) (Some j)] ∧ row = jobToRow j
      | Err e => if errorsIs e ErrNotFound then ms = [MReq (GetJob id) None] else tried (GetJob id) ms
      end
  | OList p => λ a,
      match a with
      | Ok rows => ∃ all, scannedAll p ms all ∧ rows = take (Z.to_nat (pageLimit (jl_Limit p))) all
      | Err _ => tried ZRangeIndex ms
      end
  | OStats q => λ a,
      match a with
      | Ok s => ∃ all, scannedAll (mkJobListParams q "" "" 0 "") ms all ∧ s = CountQueueStats q all
      | Err _ => tried ZRangeIndex ms
      end
  | OFetch p => λ '(rows, err),
      tried (HGetPaused (fp_Queue p)) ms ∧ rows = [] ∧ err ≠ None ∨
      ms = [MReq (HGetPaused (fp_Queue p)) (Some true)] ∧ rows = [] ∧ err = None ∨
      ∃ v now docs last, v ≠ Some true ∧ rows = jobToRow <$> docs ∧
        ms = MReq (HGetPaused (fp_Queue p)) v :: (claimOf p now <$> docs) ++ last ∧
        roundsEnd p now (length docs) (Z.to_nat (fp_Limit p)) err last
  | ORescue p => λ '(n, err),
      tried (HKeysRun (rp_Queue p)) ms ∧ n = 0 ∧ err ≠ None ∨
      ∃ ids xs last, ms = MReq (HKeysRun (rp_Queue p)) ids :: (rescueOf p <$> xs) ++ last ∧
        n = Z.of_nat (length (filter (λ x, x.2 = true) xs)) ∧
        match err with
        | None => xs.*1 = ids ∧ last = []
        | Some _ => ∃ id rest, ids = xs.*1 ++ id :: rest ∧ tried (rescueRequest p id) last
        end
  | OHeartbeat p => λ '(b, err),
      match err with
      | None => ∃ j, ms = [MReq (GetJob (hp_ID p)) (Some j); MReq (heartbeatRequest p j) b]
      | Some _ => b = false ∧ (tried (GetJob (hp_ID p)) ms ∨
          ∃ j last, ms = MReq (GetJob (hp_ID p)) (Some j) :: last ∧ tried (heartbeatRequest p j) last)
      end
  | OMarkStarted p => λ '(b, err),
      match err with None => ms = [MReq (startRequest p) b] | Some _ => b = false ∧ tried (startRequest p) ms end
  | OSetState p => λ err,
      ∃ fails last, ms = mjoin (refused p <$> fails) ++ last ∧ Forall (λ x, holds p x.2) fails ∧
      match err with
      | None => (length fails < 8)%nat ∧ ∃ j now, holds p j ∧
          last = [MReq (GetJob (sp_ID p)) (Some j); MReq (settleRequest p now j) true]
      | Some e =>
          if errorsIs e ErrStaleClaim
          then ∃ x, last = [MReq (GetJob (sp_ID p)) x] ∧ match x with Some j => ¬ holds p j | None => True end
          else length fails = 8%nat ∧ last = [] ∨ tried (GetJob (sp_ID p)) last ∨
               ∃ j now l, holds p j ∧ last = MReq (GetJob (sp_ID p)) (Some j) :: l ∧ tried (settleRequest p now j) l
      end
  | OCancel id => λ err,
      match err with
      | None => ∃ j now l, cancellable j ∧ l `sublist_of` freedKey j ∧
          ms = MReq (GetJob id) (Some j) :: (MCmd <$> l ++ cancelCommands id now j)
      | Some e =>
          if errorsIs e ErrNotFound then ms = [MReq (GetJob id) None]
          else if errorsIs e ErrConflict then ∃ j, ¬ cancellable j ∧ ms = [MReq (GetJob id) (Some j)]
          else tried (GetJob id) ms ∨ ∃ j now l, cancellable j ∧ l `sublist_of` freedKey j ++ cancelCommands id now j ∧
                 ms = MReq (GetJob id) (Some j) :: (MCmd <$> l)
      end
  | ODelete id => readThen id (deleteCommands id) ms
  | OReschedule p => readThen (rs_ID p) (rescheduleCommands p) ms
  | OQueueGet n => λ a,
      match a with
      | Ok row => ∃ m, ms = [MReq (HGetAllMeta n) (Some m)] ∧ row = parseQueueRow n m
      | Err e => if errorsIs e ErrNotFound then ms = [MReq (HGetAllMeta n) None] else tried (HGetAllMeta n) ms
      end
  | OSetPaused n b => λ err, ∃ now,
      match err with
      | None => ms = MCmd <$> pauseCommands n b now
      | Some _ => ∃ l, l `sublist_of` pauseCommands n b now ∧ ms = MCmd <$> l
      end
  | OQueueList p => λ a,
      match a with
      | Ok rows => ∃ cursor names l all, queueCursorOf p cursor ∧ ms = MReq SMembersQueues names :: l ∧
          queuesRead cursor names l all ∧ rows = take (Z.to_nat (pageLimit (ql_Limit p))) (sort_by queueLess all)
      | Err _ => tried SMembersQueues ms
      end
  | OElect p => λ '(b, err), let set := SetNXLease (le_Name p) (le_WorkerID p) (le_TTL p) in
      match err with
      | None =>
          if b : bool
          then ms = [MReq set true] ∨
               ∃ l, ms = MReq set false :: MReq (GetLease (le_Name p)) (Some (le_WorkerID p)) :: l ∧
                    tried (ExpireLease (le_Name p) (le_TTL p)) l
          else ∃ x, x ≠ Some (le_WorkerID p) ∧ ms = [MReq set false; MReq (GetLease (le_Name p)) x]
      | Some _ => b = false ∧ (tried set ms ∨ ∃ l, ms = MReq set false :: l ∧ tried (GetLease (le_Name p)) l)
      end
  | OResign p => λ err, let q := Resign (lr_Name p) (lr_WorkerID p) in
      match err with None => ms = [MReq q tt] | Some _ => tried q ms end
  | OCursorGet p => λ '(r, err), let set := HSetNXCursor (cc_ID p) (UnixNano (UTC (cc_InitialAt p))) in
      match err with
      | None => ∃ nanos, cr_At r = UTC (UnixFromNano nanos) ∧
          ms = [MReq set (cr_Created r); MReq (HGetCursor (cc_ID p)) (Some nanos)]
      | Some _ => r = emptyCursorResult ∧ (tried set ms ∨ ∃ b l, ms = MReq set b :: l ∧ tried (HGetCursor (cc_ID p)) l)
      end
  | OCursorAdvance p => λ '(b, err), let q := AdvanceCursor (ca_ID p) (UnixNano (UTC (ca_Expected p))) (UnixNano (UTC (ca_Next p))) in
      match err with None => ms = [MReq q b] | Some _ => b = false ∧ tried q ms end
  end.

Definition promised (o : driverOp) (acts : list (act move)) : ans o → Prop := promisedMoves o (did acts).

(** ** The operations keep their promises *)

Section refine.
Context {R : Type} `{Redis R} `{!RedisLaws R}.

Ltac finish := apply rd_ret; rewrite ?app_nil_r; simpl.
Lemma rd_foreign_is e : foreignErr e →
  errorsIs e ErrStaleClaim = false ∧ errorsIs e ErrConflict = false ∧ errorsIs e ErrNotFound = false.
Proof. by intros (_ & ? & ? & ?). Qed.

Ltac foreign He := destruct (rd_foreign_is _ He) as (?Hst & ?Hcf & ?Hnf).

(** A call: either an answer, or the request was tried. *)
Lemma rd_call_then {A} q (f : result (reply q) → io A) (Q : list (act move) → A → Prop) : saneRequest q = true →
  (∀ acts a, possible (MReq q a) → did acts = [MReq q a] → does (f (Ok a)) (λ acts2 y, Q (acts ++ acts2) y)) →
  (∀ acts e, foreignErr e → tried q (did acts) → does (f (Err e)) (λ acts2 y, Q (acts ++ acts2) y)) →
  does (r ← call q; f r) Q.
Proof. intros Hs HQ HE. apply rd_bind. by apply rd_does_call. Qed.

Ltac rd_call := refine (rd_call_then _ _ _ _ _ _); [done|..].

(** ** Inserting *)

Lemma skipped_key p id now : possible (MReq (insertRequest p id now) false) → ip_UniqueKey p ≠ "".
Proof.
  intros (d & d' & _ & Hs) E. unfold insertRequest in Hs. cbn [step serve] in Hs. destruct (saneRequest _); [|done].
  destruct (freshID id d); [|done]. apply agree_Some in Hs. unfold insertJobScript in Hs. rewrite bool_decide_eq_false_2 in Hs by auto.
  simpl in Hs. by simplify_eq.
Qed.

Lemma newJob_sane p id now : saneRequest (insertRequest p id now) = true.
Proof. unfold insertRequest. simpl. by apply bool_decide_eq_true. Qed.

Lemma rd_insertParam_keeps now p : does (insertParam now p) (λ acts r,
  match r with
  | Ok res => insertedAs now p (did acts) res
  | Err _ => ∃ id, tried (insertRequest p id now) (did acts)
  end).
Proof.
  unfold insertParam. apply rd_bind, rd_newID. intros id. simpl. refine (rd_call_then (insertRequest p id now) _ _ _ _ _); [apply newJob_sane|..].
  - intros acts [] Hp Hd; finish; exists id; simpl; [done|]. split_and!; [|done..]. by eapply skipped_key.
  - intros acts e _ Ht. finish. by exists id.
Qed.

Lemma rd_insertParams_keeps now ps : does (insertParams now ps) (λ acts a,
  match a with
  | Ok rs => ∃ groups, did acts = mjoin groups ∧ Forall3 (insertedAs now) ps groups rs
  | Err _ => ∃ before p rest groups rs id last, ps = before ++ p :: rest ∧ did acts = mjoin groups ++ last ∧
      Forall3 (insertedAs now) before groups rs ∧ tried (insertRequest p id now) last
  end).
Proof.
  induction ps as [|p ps IH]; simpl; [finish; exists []; split; [done|constructor]|].
  apply rd_bind. eapply rd_weaken; [apply rd_insertParam_keeps|]. intros a1 [res|e] H1; simpl in H1.
  - apply rd_bind. eapply rd_weaken; [apply IH|]. intros a2 [rs|e] H2; finish.
    + destruct H2 as (groups & Hd & Hf). exists (did a1 :: groups). rewrite did_app, Hd. split; [done|]. by constructor.
    + destruct H2 as (before & p' & rest & groups & rs & id & last & -> & Hd & Hf & Ht).
      exists (p :: before), p', rest, (did a1 :: groups), (res :: rs), id, last. rewrite did_app, Hd. simpl.
      split_and!; [done|by rewrite app_assoc|by constructor|done].
  - finish. destruct H1 as [id Ht]. exists [], p, ps, [], [], id, (did a1). split_and!; [done..|constructor|done].
Qed.

Lemma rd_insert_promise ps : does (execOp (OInsert ps)) (promised (OInsert ps)).
Proof.
  apply rd_bind, rd_now. intros now. simpl. eapply rd_weaken; [apply rd_insertParams_keeps|].
  intros acts a Ha. by exists now.
Qed.

(** ** Reading *)

Lemma readJob_keeps missing id (Q : list (act move) → result redisJob → Prop) :
  (∀ acts j, did acts = [MReq (GetJob id) (Some j)] → Q acts (Ok j)) →
  (∀ acts, did acts = [MReq (GetJob id) None] → Q acts (Err (jobError missing id))) →
  (∀ acts e, foreignErr e → tried (GetJob id) (did acts) → Q acts (Err e)) →
  does (readJob missing id) Q.
Proof.
  intros HQ HN HE. rd_call.
  - intros acts [j|] _ Hd; finish; auto.
  - intros acts e He Ht. finish. auto.
Qed.

Lemma jobGetByID_keeps id (Q : list (act move) → result JobRow → Prop) :
  (∀ acts j, did acts = [MReq (GetJob id) (Some j)] → Q acts (Ok (jobToRow j))) →
  (∀ acts, did acts = [MReq (GetJob id) None] → Q acts (Err (jobError ErrNotFound id))) →
  (∀ acts e, foreignErr e → tried (GetJob id) (did acts) → Q acts (Err e)) →
  does (jobGetByID id) Q.
Proof.
  intros HQ HN HE. apply rd_bind, readJob_keeps; intros; finish; auto.
Qed.

Lemma rd_get_promise id : does (execOp (OGet id)) (promised (OGet id)).
Proof.
  apply jobGetByID_keeps.
  - intros acts j Hd. exists j. done.
  - intros acts Hd. exact Hd.
  - intros acts e He Ht. foreign He. unfold promised. simpl. by rewrite Hnf.
Qed.

Lemma scanIDs_keeps p cur ids : does (scanIDs p cur ids) (λ acts rows, scanned p cur ids (did acts) rows).
Proof.
  induction ids as [|id ids IH]; simpl; [finish; constructor|]. rd_call.
  - intros a1 [j|] _ Hd.
    + apply rd_bind. eapply rd_weaken; [apply IH|]. intros a2 rows Hs. finish. rewrite did_app, Hd. by constructor.
    + rd_call.
      1: intros a2 [] _ Hd2. 2: intros a2 e _ Ht.
      all: eapply rd_weaken; [apply IH|]; intros a3 rows Hs; rewrite !did_app, Hd; simpl; constructor; [|done].
      * right. by exists tt.
      * done.
  - intros a1 e _ Ht. eapply rd_weaken; [apply IH|]. intros a2 rows Hs. rewrite did_app. by constructor.
Qed.

Lemma scanJobs_keeps p : does (scanJobs p) (λ acts r,
  match r with Ok all => scannedAll p (did acts) all | Err _ => tried ZRangeIndex (did acts) end).
Proof.
  assert (∀ cur, cursorOf p cur → does (r ← call ZRangeIndex;
    match r with
    | Err err => mret (Err err)
    | Ok ids => rows ← scanIDs p cur ids; mret (Ok (sort_by listLess rows))
    end) (λ acts r, match r with Ok all => scannedAll p (did acts) all | Err _ => tried ZRangeIndex (did acts) end)) as Hgo.
  { intros cur Hc. rd_call.
    - intros a1 ids _ Hd. apply rd_bind. eapply rd_weaken; [apply scanIDs_keeps|]. intros a2 rows Hs. finish.
      exists cur, ids, (did a2), rows. by rewrite did_app, Hd.
    - intros a1 e _ Ht. by finish. }
  unfold scanJobs. case_bool_decide as Hc; [apply Hgo; unfold cursorOf; by rewrite bool_decide_eq_true_2|].
  destruct (DecodeJobCursor (jl_Cursor p)) as [c|err] eqn:E; [|finish; by left].
  apply Hgo. unfold cursorOf. rewrite bool_decide_eq_false_2 by done. eauto.
Qed.

Lemma rd_list_promise p : does (execOp (OList p)) (promised (OList p)).
Proof.
  apply rd_bind. eapply rd_weaken; [apply scanJobs_keeps|]. intros acts [all|e] Hs; finish; [|exact Hs].
  unfold promised. simpl. rewrite ?app_nil_r. by exists all.
Qed.

Lemma rd_stats_promise q : does (execOp (OStats q)) (promised (OStats q)).
Proof.
  apply rd_bind. eapply rd_weaken; [apply scanJobs_keeps|]. intros acts [all|e] Hs; finish; [|exact Hs].
  unfold promised. simpl. rewrite ?app_nil_r. by exists all.
Qed.

Lemma queueRows_keeps cursor ns : does (queueRows cursor ns) (λ acts rows, queuesRead cursor ns (did acts) rows).
Proof.
  induction ns as [|n ns IH]; simpl; [finish; constructor|]. destruct (str_lt cursor n) eqn:Hlt; simpl.
  - rd_call.
    + intros a1 m _ Hd. apply rd_bind. eapply rd_weaken; [apply IH|]. intros a2 rows Hs. finish. rewrite did_app.
      destruct m as [m|]; [rewrite Hd; by constructor|]. constructor; [done| |done]. right. by exists None.
    + intros a1 e _ Ht. apply rd_bind. eapply rd_weaken; [apply IH|]. intros a2 rows Hs. finish. rewrite did_app. by constructor.
  - eapply rd_weaken; [apply IH|]. intros a2 rows Hs. by constructor.
Qed.

Lemma rd_queueList_promise p : does (execOp (OQueueList p)) (promised (OQueueList p)).
Proof.
  assert (∀ cursor, queueCursorOf p cursor → does (r ← call SMembersQueues;
    match r with
    | Err err => mret (Err err)
    | Ok names => rows ← queueRows cursor names;
        mret (Ok (take (Z.to_nat (pageLimit (ql_Limit p))) (sort_by queueLess rows)))
    end) (promised (OQueueList p))) as Hgo.
  { intros cursor Hc. rd_call.
    - intros a1 names _ Hd. apply rd_bind. eapply rd_weaken; [apply queueRows_keeps|]. intros a2 rows Hs. finish.
      exists cursor, names, (did a2), rows. by rewrite did_app, Hd.
    - intros a1 e _ Ht. by finish. }
  simpl. unfold queueList. case_bool_decide as Hc; [apply Hgo; unfold queueCursorOf; by rewrite bool_decide_eq_true_2|].
  destruct (DecodeQueueCursor (ql_Cursor p)) as [c|err] eqn:E; [|finish; by left].
  apply Hgo. unfold queueCursorOf. by rewrite bool_decide_eq_false_2.
Qed.

Lemma rd_queueGet_promise n : does (execOp (OQueueGet n)) (promised (OQueueGet n)).
Proof.
  rd_call.
  - intros acts [m|] _ Hd; finish; unfold promised; simpl; rewrite ?app_nil_r; [by exists m|done].
  - intros acts e He Ht. finish. foreign He. unfold promised. simpl. by rewrite Hnf.
Qed.

(** ** Fetching *)

Lemma rd_claimLoop_keeps p now n :
  does (claimLoop (fp_Queue p) (fp_WorkerID p) (UnixMilli now) (ms_ (fp_LeaseDuration p)) n) (λ acts r, ∃ docs last,
    did acts = (claimOf p now <$> docs) ++ last ∧ r.1 = jobToRow <$> docs ∧ roundsEnd p now (length docs) n r.2 last).
Proof.
  induction n as [|n IH]; cbn [claimLoop].
  { finish. exists [], []. split_and!; [done..|by left]. }
  rd_call.
  - intros acts [j|] _ Hd.
    + apply rd_bind. eapply rd_weaken; [apply IH|]. intros a2 [rows err] (docs & last & Hd2 & Hrows & Hend).
      finish. simpl in *. exists (j :: docs), last. rewrite did_app, Hd, Hd2, Hrows. split_and!; [done..|].
      unfold roundsEnd in *. simpl. destruct err; [naive_solver lia|]. destruct Hend as [[-> ->]|[? ->]]; [by left|right; split; [lia|done]].
    + finish. exists [], [MReq (fetchRequest p now) None]. split_and!; [done..|]. right. simpl. split; [lia|done].
  - intros acts e He Ht. finish. exists [], (did acts). split_and!; [done..|simpl; lia|exact Ht].
Qed.

Lemma rd_fetch_promise p : does (execOp (OFetch p)) (promised (OFetch p)).
Proof.
  assert (∀ v (a1 : list (act move)), v ≠ Some true → did a1 = [MReq (HGetPaused (fp_Queue p)) v] →
    does (now ← clkNow; claimLoop (fp_Queue p) (fp_WorkerID p) (UnixMilli now) (ms_ (fp_LeaseDuration p)) (Z.to_nat (fp_Limit p)))
      (λ acts, promised (OFetch p) (a1 ++ acts))) as Hgo.
  { intros v a1 Hv Hd1. apply rd_bind, rd_now. intros now. simpl. eapply rd_weaken; [apply rd_claimLoop_keeps|].
    intros acts [rows err] (docs & last & Hd & Hr & He). right. right. exists v, now, docs, last.
    rewrite did_app, Hd1, Hd. simpl in *. split_and!; done. }
  apply rd_bind. rd_call.
  - intros acts v _ Hd. finish. destruct v as [[]|]; simpl.
    + finish. right. left. done.
    + exact (Hgo (Some false) acts ltac:(done) Hd).
    + exact (Hgo None acts ltac:(done) Hd).
  - intros acts e He Ht. finish. finish. by left.
Qed.

(** ** Claims *)

Lemma rescueIDs_keeps p ids : ∀ n0, does (rescueIDs p ids n0) (λ acts r, ∃ xs last,
  did acts = (rescueOf p <$> xs) ++ last ∧ r.1 = n0 + Z.of_nat (length (filter (λ x, x.2 = true) xs)) ∧
  match r.2 with
  | None => xs.*1 = ids ∧ last = []
  | Some _ => ∃ id rest, ids = xs.*1 ++ id :: rest ∧ tried (rescueRequest p id) last
  end).
Proof.
  induction ids as [|id ids IH]; intros n0; cbn [rescueIDs].
  { finish. exists [], []. split_and!; [done|simpl; lia|done..]. }
  rd_call.
  - intros a1 b _ Hd. eapply rd_weaken; [apply IH|]. intros a2 [n err] (xs & last & Hd2 & Hn & He). simpl in *.
    exists ((id, b) :: xs), last. rewrite did_app, Hd, Hd2. split_and!; [done|destruct b|].
    + rewrite filter_cons_True by done. simpl. lia.
    + rewrite filter_cons_False by done. lia.
    + destruct err; [|destruct He as [He ->]; by rewrite fmap_cons, He]. destruct He as (id' & rest & -> & Ht). by exists id', rest.
  - intros a1 e He Ht. finish. exists [], (did a1). split_and!; [done|simpl; lia|]. by exists id, ids.
Qed.

Lemma rd_rescue_promise p : does (execOp (ORescue p)) (promised (ORescue p)).
Proof.
  rd_call.
  - intros a1 ids _ Hd. eapply rd_weaken; [apply rescueIDs_keeps|]. intros a2 [n err] (xs & last & Hd2 & Hn & He).
    right. exists ids, xs, last. simpl in *. rewrite did_app, Hd, Hd2, Hn. split_and!; done.
  - intros a1 e He Ht. finish. by left.
Qed.

Lemma rd_heartbeat_promise p : does (execOp (OHeartbeat p)) (promised (OHeartbeat p)).
Proof.
  apply rd_bind, jobGetByID_keeps.
  - intros a1 j Hd. rd_call; intros a2; [intros b _ Hd2|intros e _ Ht]; finish; unfold promised; simpl; rewrite did_app, Hd.
    + exists j. by rewrite Hd2.
    + split; [done|]. right. by exists j, (did a2).
  - intros a1 Hd. finish. split; [done|]. left. right. by exists None.
  - intros a1 e He Ht. finish. split; [done|]. by left.
Qed.

Lemma rd_markStarted_promise p : does (execOp (OMarkStarted p)) (promised (OMarkStarted p)).
Proof. rd_call; intros acts; [intros b _ Hd|intros e _ Ht]; finish; done. Qed.

(** ** Outcomes *)

Lemma recoded_ID j : rj_ID (recoded j) = rj_ID j.
Proof. done. Qed.

Lemma settled_ID p now j : rj_ID (settledJob p now j) = rj_ID j.
Proof. unfold settledJob. destruct (sp_Yield p), (sp_Err p); [done..| |]; by case_bool_decide. Qed.

Lemma settle_sane p now j : rj_ID j = sp_ID p → saneRequest (settleRequest p now j) = true.
Proof.
  intros Hid. unfold settleRequest, settleCommands. simpl. rewrite settled_ID, bool_decide_eq_true_2 by done.
  by repeat case_match.
Qed.

Lemma GetJob_ID id j : possible (MReq (GetJob id) (Some j)) → rj_ID j = id.
Proof. intros (d & d' & Hk & Hs). cbn [step serve saneRequest] in Hs. apply seen_Some in Hs as [_ Hj]. by apply Hk. Qed.

Lemma readJob_keeps' missing id (Q : list (act move) → result redisJob → Prop) :
  (∀ acts j, rj_ID j = id → did acts = [MReq (GetJob id) (Some j)] → Q acts (Ok j)) →
  (∀ acts, did acts = [MReq (GetJob id) None] → Q acts (Err (jobError missing id))) →
  (∀ acts e, foreignErr e → tried (GetJob id) (did acts) → Q acts (Err e)) →
  does (readJob missing id) Q.
Proof.
  intros HQ HN HE. rd_call.
  - intros acts [j|] Hp Hd; finish; [|by apply HN]. apply HQ; [by apply GetJob_ID|done].
  - intros acts e He Ht. finish. auto.
Qed.

Definition holdsb (p : JobSetStateParams) (j : redisJob) : bool :=
  bool_decide (rj_State j = JobStateRunning) && MatchesClaim p (default "" (rj_WorkerID j)) (rj_AttemptNum j).

Lemma holdsb_spec p j : holds p j ↔ holdsb p j = true.
Proof.
  unfold holds, holdsb. by rewrite andb_true_iff, bool_decide_eq_true.
Qed.

(** One attempt of a transition. *)
Definition attempted (p : JobSetStateParams) (ms : list move) (r : option (option error)) : Prop :=
  match r with
  | None => ∃ now j, holds p j ∧ ms = refused p (now, j)
  | Some None => ∃ j now, holds p j ∧ ms = [MReq (GetJob (sp_ID p)) (Some j); MReq (settleRequest p now j) true]
  | Some (Some e) =>
      if errorsIs e ErrStaleClaim
      then ∃ x, ms = [MReq (GetJob (sp_ID p)) x] ∧ match x with Some j => ¬ holds p j | None => True end
      else tried (GetJob (sp_ID p)) ms ∨
           ∃ j now l, holds p j ∧ ms = MReq (GetJob (sp_ID p)) (Some j) :: l ∧ tried (settleRequest p now j) l
  end.

Lemma settleOnce_keeps p : does (settleOnce p) (λ acts r, attempted p (did acts) r).
Proof.
  apply rd_bind, readJob_keeps'.
  - intros a1 j Hid Hd. rewrite <-negb_andb. fold (holdsb p j). pose proof (holdsb_spec p j) as Hh. destruct (holdsb p j); simpl.
    2: { finish. exists (Some j). split; [done|]. by intros ?%Hh. }
    + assert (holds p j) by tauto.
      apply rd_bind, rd_now. intros now. simpl.
      refine (rd_call_then (settleRequest p now j) _ _ _ _ _); [by apply settle_sane|..].
      * intros a2 [] _ Hd2; finish; unfold attempted; rewrite did_app, Hd, Hd2; eauto 10.
      * intros a2 e He Ht. finish. foreign He. unfold attempted. rewrite Hst, did_app, Hd. right. by exists j, now, (did a2).
  - intros a1 Hd. finish. exists None. done.
  - intros a1 e He Ht. finish. foreign He. unfold attempted. rewrite Hst. by left.
Qed.

Lemma settleLoop_keeps p n : does (settleLoop p n) (λ acts err,
  ∃ fails last, did acts = mjoin (refused p <$> fails) ++ last ∧ Forall (λ x, holds p x.2) fails ∧
    (length fails = n ∧ last = [] ∧ err = Some (ENew ("set state for job " +:+ sp_ID p +:+ ": too much concurrent contention")) ∨
     (length fails < n)%nat ∧ attempted p last (Some err))).
Proof.
  induction n as [|n IH]; cbn [settleLoop].
  { finish. exists [], []. split_and!; [done|constructor|by left]. }
  apply rd_bind. eapply rd_weaken; [apply settleOnce_keeps|]. intros a1 [err|] Ha; simpl in Ha.
  - finish. exists [], (did a1). split_and!; [done|constructor|]. right. split; [simpl; lia|done].
  - destruct Ha as (now & j & Hh & Hd). eapply rd_weaken; [apply IH|]. intros a2 err (fails & last & Hd2 & Hf & He).
    exists ((now, j) :: fails), last. rewrite did_app, Hd, Hd2. split_and!; [done|by constructor|].
    destruct He as [(<- & -> & ->)|[? ?]]; [by left|right; split; [simpl; lia|done]].
Qed.

Lemma rd_setState_promise p : does (execOp (OSetState p)) (promised (OSetState p)).
Proof.
  eapply rd_weaken; [apply settleLoop_keeps|]. intros acts err (fails & last & Hd & Hf & He).
  exists fails, last. split_and!; [done..|]. destruct He as [(Hn & -> & ->)|[Hn Ha]]; [simpl; by left|].
  destruct err as [e|]; simpl in Ha; [|done]. destruct (errorsIs e ErrStaleClaim); [done|]. by right.
Qed.

(** ** Cancelling, deleting, rescheduling *)

Lemma did_see_cmds q x (a1 a2 : list (act move)) l :
  did a1 = [MReq q x] → did a2 = MCmd <$> l → did (a1 ++ a2) = MReq q x :: (MCmd <$> l).
Proof. intros H1 H2. by rewrite did_app, H1, H2. Qed.

Lemma freed_sane j : forallb saneCommand (freedKey j) = true.
Proof. unfold freedKey. by destruct (_ && _). Qed.

Lemma rd_cancel_promise id : does (execOp (OCancel id)) (promised (OCancel id)).
Proof.
  apply rd_bind, readJob_keeps'.
  - intros a1 j Hid Hd.
    destruct (negb (bool_decide (rj_State j = JobStateAvailable)) && negb (bool_decide (rj_State j = JobStateScheduled))) eqn:Hn.
    { finish. exists j. split; [|done]. apply andb_true_iff in Hn as [H1 H2]. bool_to_prop. unfold cancellable. tauto. }
    assert (cancellable j) as Hc.
    { apply andb_false_iff in Hn as [Hn|Hn]; bool_to_prop; [by left|by right]. }
    apply rd_bind, rd_now. intros now. simpl.
    (* the pipeline, after what the first has done *)
    assert (∀ a2 l, l `sublist_of` freedKey j → did a2 = MCmd <$> l → does (pipeline (cancelCommands id now j))
      (λ a3, promised (OCancel id) (a1 ++ a2 ++ a3))) as Hgo.
    { intros a2 l Hl Hd2. refine (rd_does_pipeline _ _ _ _ _); [simpl; by rewrite bool_decide_eq_true_2|..].
      - intros a3 Hd3. exists j, now, l. split_and!; [done..|]. rewrite !did_app, Hd, Hd2, Hd3, fmap_app. done.
      - intros a3 e l3 He Hl3 Hd3. foreign He. unfold promised. simpl. rewrite Hnf, Hcf. right.
        exists j, now, (l ++ l3). split_and!; [done|by apply sublist_app|]. rewrite !did_app, Hd, Hd2, Hd3, fmap_app. done. }
    apply rd_bind. match goal with |- does (if ?b then _ else _) _ => destruct b eqn:Hf end.
    2: { apply rd_ret. apply (Hgo [] []); [apply sublist_nil_l|done]. }
    assert (freedKey j = [DelUniq (rj_UniqueKey j)]) as Hfk by (unfold freedKey; by rewrite Hf). rewrite Hfk in Hgo.
    refine (rd_does_pipeline _ _ _ _ _); [done|..].
    + intros a2 Hd2. by apply (Hgo a2 [DelUniq (rj_UniqueKey j)]).
    + intros a2 e l _ Hl Hd2. by apply (Hgo a2 l).
  - intros a1 Hd. finish. exact Hd.
  - intros a1 e He Ht. finish. foreign He. unfold promised. simpl. rewrite Hnf, Hcf. by left.
Qed.

(** A document is read, and one pipeline is made from it. *)
Lemma readThen_keeps id cs : (∀ j, rj_ID j = id → forallb saneCommand (cs j) = true) →
  does (r ← readJob ErrNotFound id; match r with Err err => mret (Some err) | Ok job => pipeline (cs job) end)
    (λ acts err, readThen id cs (did acts) err).
Proof.
  intros Hs. apply rd_bind, readJob_keeps'.
  - intros a1 j Hid Hd. refine (rd_does_pipeline _ _ _ _ _); [by apply Hs|..].
    + intros a2 Hd2. exists j. by apply did_see_cmds.
    + intros a2 e l He Hl Hd2. foreign He. simpl. rewrite Hnf. right. exists j, l. split; [done|]. by apply did_see_cmds.
  - intros a1 Hd. finish. exact Hd.
  - intros a1 e He Ht. finish. foreign He. rewrite Hnf. by left.
Qed.

Lemma rd_delete_promise id : does (execOp (ODelete id)) (promised (ODelete id)).
Proof. apply readThen_keeps. intros j _. unfold deleteCommands. by case_bool_decide. Qed.

Lemma rd_reschedule_promise p : does (execOp (OReschedule p)) (promised (OReschedule p)).
Proof. apply readThen_keeps. intros j Hid. simpl. by rewrite bool_decide_eq_true_2. Qed.

(** ** Queues, leases and schedule cursors *)

Lemma rd_setPaused_promise n b : does (execOp (OSetPaused n b)) (promised (OSetPaused n b)).
Proof.
  apply rd_bind, rd_now. intros now. simpl. refine (rd_does_pipeline _ _ _ _ _); [done|..].
  - intros acts Hd. by exists now.
  - intros acts e l _ Hl Hd. exists now, l. done.
Qed.

Lemma rd_elect_promise p : does (execOp (OElect p)) (promised (OElect p)).
Proof.
  rd_call.
  - intros a1 [] _ Hd; [finish; by left|]. rd_call.
    + intros a2 [cur|] _ Hd2.
      2: { finish. unfold promised. rewrite did_app, Hd, Hd2. by exists None. }
      case_bool_decide as Hc.
      2: { finish. unfold promised. rewrite did_app, Hd, Hd2. exists (Some cur). split; [by intros [= ?]|done]. }
      subst cur. rd_call; [intros a3 [] _ Hd3|intros a3 e _ Ht]; finish; unfold promised; rewrite !did_app, Hd, Hd2; right.
      * exists (did a3). split; [done|]. right. by exists tt.
      * by exists (did a3).
    + intros a2 e _ Ht. finish. unfold promised. rewrite did_app, Hd. split; [done|]. right. by exists (did a2).
  - intros a1 e _ Ht. finish. split; [done|]. by left.
Qed.

Lemma rd_resign_promise p : does (execOp (OResign p)) (promised (OResign p)).
Proof. rd_call; intros acts; [intros [] _ Hd|intros e _ Ht]; finish; done. Qed.

Lemma rd_cursorGet_promise p : does (execOp (OCursorGet p)) (promised (OCursorGet p)).
Proof.
  rd_call.
  - intros a1 b _ Hd. rd_call.
    + intros a2 [nanos|] _ Hd2; finish; unfold promised; simpl; rewrite did_app, Hd, Hd2; [by exists nanos|].
      split; [done|]. right. exists b, [MReq (HGetCursor (cc_ID p)) None]. split; [done|]. right. by exists None.
    + intros a2 e _ Ht. finish. unfold promised. simpl. rewrite did_app, Hd. split; [done|]. right. by exists b, (did a2).
  - intros a1 e _ Ht. finish. split; [done|]. by left.
Qed.

Lemma rd_cursorAdvance_promise p : does (execOp (OCursorAdvance p)) (promised (OCursorAdvance p)).
Proof. rd_call; intros acts; [intros b _ Hd|intros e _ Ht]; finish; done. Qed.

(** ** All of them *)

Lemma rd_operation_does o : does (execOp o) (promised o).
Proof.
  destruct o; [apply rd_insert_promise|apply rd_get_promise|apply rd_list_promise|apply rd_stats_promise|apply rd_fetch_promise
    |apply rd_rescue_promise|apply rd_heartbeat_promise|apply rd_markStarted_promise|apply rd_setState_promise
    |apply rd_cancel_promise|apply rd_delete_promise|apply rd_reschedule_promise|apply rd_queueGet_promise
    |apply rd_setPaused_promise|apply rd_queueList_promise|apply rd_elect_promise|apply rd_resign_promise
    |apply rd_cursorGet_promise|apply rd_cursorAdvance_promise].
Qed.

Lemma rd_operation_keeps o (e : RdEnv (R := R)) :
  keyedDb (rd_db (rv_rd e)) →
  ∃ tr, runMoves rd_px rd_ex (trMoves tr) (rd_db (rv_rd e)) = Some (rd_db (rv_rd (execOp o e).1)) ∧
    promised o (trOwn tr) (execOp o e).2.
Proof. intros He. destruct (rd_operation_does o e He) as (acts & (tr & Hr & <-) & Hp). eauto. Qed.

(** C40: the Redis backend refines the moves.  Take any sequence of operations of
    one program.  Whatever other programs do to the keys between two of its calls,
    and whether or not the server fails: what the program does is a sequence of
    atomic moves, and the answer of every operation is what [promised] says of its
    own.  A fetch claims, one script each, exactly the jobs it returns, and it stops
    early only when the script has found none; a batch that fails has inserted the
    parameters before the one that failed; a transition is written by a transaction
    on the very document that shows its claim, after at most seven that were
    refused, and a stale claim has written nothing; an election is won by the
    request that writes the lease, or by having seen oneself as its owner. *)
Theorem redis_operations_refine os (e : RdEnv (R := R)) :
  keyedDb (rd_db (rv_rd e)) →
  ∃ trs, runMoves rd_px rd_ex (trMoves (mjoin trs)) (rd_db (rv_rd e)) = Some (rd_db (rv_rd (execAll os e).1)) ∧
    Forall2 (λ tr (oa : {o : driverOp & ans o}), promised (projT1 oa) (trOwn tr) (projT2 oa)) trs (execAll os e).2 ∧
    (λ oa : {o : driverOp & ans o}, projT1 oa) <$> (execAll os e).2 = os.
Proof.
  revert e. induction os as [|o os IH]; intros e He; simpl; [exists []; split_and!; by try constructor|].
  destruct (rd_operation_keeps o e He) as (tr & Hr & Hp). destruct (execOp o e) as [e1 a]. simpl in *.
  destruct (IH e1) as (trs & Hrs & Hf & Ho); [by eapply runMoves_inv; [apply rd_step_keyed|..]|].
  destruct (execAll os e1) as [e2 as_]. simpl in *. exists (tr :: trs). split_and!.
  - simpl. rewrite trMoves_app. by eapply runMoves_trans.
  - by constructor.
  - f_equal; exact Ho.
Qed.
End refine.
