(* ===== verification/RedisSafety.v ===== *)
(** * driver/redis: what no interleaving of moves can break

    A job waits in at most one list, and a running one in none, so that it cannot be
    claimed again before something puts it back.  The one operation that can put
    back a running job is a reschedule: it reads the state of the job before it
    writes, and does not look at it.  A unique key is taken until a command deletes
    it; a lease has one owner until it is resigned or runs out. *)

From S2P Require Import Prelude GoBase Json Codec Driver Moves Memory Redis RedisLaws RedisRefine.
From Stdlib Require Import ZArith Lia.

(** ** Lists *)

Section lists.
Context (id : string).

(** The score of the job in a list: [(true, q)] is the scheduled list of [q]. *)
Definition listAt (d : Db) (k : bool * string) : option Z := (if k.1 then db_sched d else db_avail d) !! (k.2, id).

Definition inNoList (d : Db) : Prop := ∀ k, listAt d k = None.
Definition onlyIn (k : bool * string) (d : Db) : Prop := ∀ k', is_Some (listAt d k') ↔ k' = k.
Definition listedOnce (d : Db) : Prop := inNoList d ∨ ∃ k, onlyIn k d.

Definition runningIn (d : Db) : Prop := ∃ j, db_jobs d !! id = Some j ∧ rj_State j = JobStateRunning.

(** The invariant. *)
Definition fairlyListed (d : Db) : Prop := listedOnce d ∧ (runningIn d → inNoList d).

Lemma listedOnce_same d d' : (∀ k, listAt d' k = listAt d k) → listedOnce d → listedOnce d'.
Proof.
  intros He [Hn|[k Ho]]; [left; intros k; by rewrite He|right]. exists k. intros k'. rewrite He. apply Ho.
Qed.

(** A list that the job is taken from. *)
Lemma listedOnce_take d d' k0 : (∀ k, listAt d' k = if decide (k = k0) then None else listAt d k) → listedOnce d → listedOnce d'.
Proof.
  intros He [Hn|[k Ho]].
  - left. intros k. rewrite He. by case_decide.
  - destruct (decide (k = k0)) as [->|Hk].
    + left. intros k. rewrite He. case_decide; [done|]. apply eq_None_not_Some. by intros ?%Ho.
    + right. exists k. intros k'. rewrite He. case_decide; [|apply Ho]. subst. split; [by intros [? ?]|by intros <-].
Qed.

Lemma inNoList_take d d' k0 : (∀ k, listAt d' k = if decide (k = k0) then None else listAt d k) → inNoList d → inNoList d'.
Proof. intros He Hn k. rewrite He. by case_decide. Qed.

(** A list that the job is put into, when it was in none. *)
Lemma listedOnce_put d d' k0 s : (∀ k, listAt d' k = if decide (k = k0) then Some s else listAt d k) → inNoList d → listedOnce d'.
Proof.
  intros He Hn. right. exists k0. intros k. rewrite He. case_decide; [by subst; split; [|eauto]|]. rewrite Hn. split; [by intros [? ?]|done].
Qed.

Lemma fairlyListed_same d d' :
  (∀ k, listAt d' k = listAt d k) → (runningIn d' → runningIn d) → fairlyListed d → fairlyListed d'.
Proof.
  intros He Hr [Ho Hn]. split; [by eapply listedOnce_same|]. intros Hr'%Hr k. rewrite He. by apply Hn.
Qed.

(** *** Commands *)

Lemma command_lists c d : (∀ q i s, c ≠ ZAddAvail q i s ∧ c ≠ ZAddSched q i s ∨ i ≠ id) →
  (∀ k, listAt (runCommand c d) k = listAt d k) ∨
  ∃ k0, ∀ k, listAt (runCommand c d) k = if decide (k = k0) then None else listAt d k.
Proof.
  intros Hc. destruct c; try (left; intros k; done).
  - destruct (Hc q id0 score) as [[? _]|Hi]; [done|]. left. intros [[] q']; [done|]. unfold listAt. simpl. by rewrite lookup_insert_ne by congruence.
  - destruct (Hc q id0 score) as [[_ ?]|Hi]; [done|]. left. intros [[] q']; [|done]. unfold listAt. simpl. by rewrite lookup_insert_ne by congruence.
  - destruct (decide (id0 = id)) as [->|Hi].
    + right. exists (false, q). intros [[] q']; case_decide as E; simplify_eq; [done|by apply lookup_delete_eq|].
      apply lookup_delete_ne. by intros [= ->].
    + left. intros [[] q']; [done|]. unfold listAt. simpl. by rewrite lookup_delete_ne by congruence.
  - destruct (decide (id0 = id)) as [->|Hi].
    + right. exists (true, q). intros [[] q']; case_decide as E; simplify_eq; [by apply lookup_delete_eq| |done].
      apply lookup_delete_ne. by intros [= ->].
    + left. intros [[] q']; [|done]. unfold listAt. simpl. by rewrite lookup_delete_ne by congruence.
Qed.

(** Whether a command may be used without putting the job into a list. *)
Definition keepsListing (c : command) : Prop :=
  match c with
  | ZAddAvail _ i _ | ZAddSched _ i _ => i ≠ id
  | SetJob i j => i = id → rj_State j ≠ JobStateRunning
  | _ => True
  end.

Lemma keeps_command_lists c d : keepsListing c →
  (listedOnce d → listedOnce (runCommand c d)) ∧ (inNoList d → inNoList (runCommand c d)).
Proof.
  intros Hk. destruct (command_lists c d) as [He|[k0 He]].
  - intros q i s. destruct (decide (i = id)) as [->|]; [left|by right]. split; intros ->; by simpl in Hk.
  - split; [by apply listedOnce_same|]. intros Hn k. by rewrite He.
  - split; [by eapply listedOnce_take|by eapply inNoList_take].
Qed.

Lemma keeps_command_running c d : keepsListing c → runningIn (runCommand c d) → runningIn d.
Proof.
  intros Hk (j & Hj & Hs). destruct c; try (by exists j); simpl in Hj.
  - apply lookup_insert_Some in Hj as [[<- <-]|[_ Hj]]; [by apply Hk in Hs|by exists j].
  - apply lookup_delete_Some in Hj as [_ Hj]. by exists j.
Qed.

Lemma keeps_command_fair c d : keepsListing c → fairlyListed d → fairlyListed (runCommand c d).
Proof.
  intros Hk [Ho Hn]. destruct (keeps_command_lists c d Hk) as [H1 H2]. split; [auto|].
  intros Hr%keeps_command_running; auto.
Qed.

(** *** Promoting *)

Lemma zrange_listed q i s z : (i, s) ∈ zrange q z → z !! (q, i) = Some s.
Proof.
  unfold zrange, zmembers. rewrite sort_by_perm, list_elem_of_omap. intros ([[q' i'] s'] & Hin & Hd).
  apply elem_of_map_to_list in Hin. case_decide; by simplify_eq.
Qed.

Lemma due_listed q nowMs d i : i ∈ due q nowMs d → is_Some (db_sched d !! (q, i)).
Proof.
  unfold due. intros ([i' s] & -> & Hin)%list_elem_of_fmap. apply elem_of_take in Hin as (n & Hn & _).
  apply list_elem_of_lookup_2, list_elem_of_filter in Hn as [_ Hin]. apply zrange_listed in Hin. by exists s.
Qed.

Lemma promoteOne_other q i d k : i ≠ id → listAt (promoteOne q d i) k = listAt d k.
Proof.
  intros Hi. unfold promoteOne. destruct (db_jobs d !! i); [|done]. destruct k as [[] q']; unfold listAt; simpl;
    [by rewrite lookup_delete_ne by congruence|by rewrite lookup_insert_ne by congruence].
Qed.

Lemma promoteOne_self q d k : onlyIn k d → k = (true, q) ∨ k = (false, q) →
  ∃ k', onlyIn k' (promoteOne q d id) ∧ (k' = (true, q) ∨ k' = (false, q)).
Proof.
  intros Ho Hk. unfold promoteOne. destruct (db_jobs d !! id) as [j|]; [|by exists k]. exists (false, q). split; [|by right].
  assert (∀ b q', q' ≠ q → listAt d (b, q') = None) as Hother.
  { intros b q' Hq. apply eq_None_not_Some. intros ?%Ho. destruct Hk; simplify_eq. }
  intros [[] q']; unfold listAt; simpl; (destruct (decide (q' = q)) as [->|Hq]).
  - rewrite lookup_delete_eq. split; [by intros [? ?]|done].
  - rewrite lookup_delete_ne by congruence. specialize (Hother true q' Hq). unfold listAt in Hother. simpl in Hother. rewrite Hother.
    split; [by intros [? ?]|done].
  - rewrite lookup_insert_eq. split; [done|eauto].
  - rewrite lookup_insert_ne by congruence. specialize (Hother false q' Hq). unfold listAt in Hother. simpl in Hother. rewrite Hother.
    split; [by intros [? ?]|by intros [= ?]].
Qed.

Lemma promoteAll_lists q l : ∀ d, (id ∈ l → is_Some (listAt d (true, q)) ∨ is_Some (listAt d (false, q))) → listedOnce d →
  listedOnce (foldl (promoteOne q) d l) ∧ (inNoList d → inNoList (foldl (promoteOne q) d l)).
Proof.
  induction l as [|i l IH]; intros d Hin Ho; simpl; [done|]. destruct (decide (i = id)) as [->|Hi].
  - specialize (Hin ltac:(by left)). destruct Ho as [Hn|[k Ho]]; [rewrite !Hn in Hin; by destruct Hin as [[? ?]|[? ?]]|].
    assert (k = (true, q) ∨ k = (false, q)) as Hk by (destruct Hin as [Hs|Hs]; apply Ho in Hs; auto).
    destruct (promoteOne_self q d k Ho Hk) as (k' & Ho' & Hk'). split.
    + apply IH; [|right; by exists k']. intros _. destruct Hk' as [-> | ->]; [left|right]; by apply Ho'.
    + intros Hn. exfalso. destruct Hin as [[? Hs]|[? Hs]]; by rewrite Hn in Hs.
  - assert (∀ k, listAt (promoteOne q d i) k = listAt d k) as He by (intros; by apply promoteOne_other).
    destruct (IH (promoteOne q d i)) as [H1 H2].
    + intros Hl. rewrite !He. apply Hin. by right.
    + by eapply listedOnce_same.
    + split; [done|]. intros Hn. apply H2. intros k. by rewrite He.
Qed.

Lemma promote_lists q nowMs d : listedOnce d → listedOnce (promote q nowMs d) ∧ (inNoList d → inNoList (promote q nowMs d)).
Proof. intros Ho. apply promoteAll_lists; [|done]. intros Hin. left. by apply due_listed in Hin. Qed.

(** *** Claiming *)

(** The document that a move claims. *)
Definition claimedDoc (m : move) : option redisJob :=
  match m with
  | MReq q a => match q return reply q → option redisJob with FetchOne _ _ _ _ => λ a, a | _ => λ _, None end a
  | _ => None
  end.

Definition claims (m : move) : Prop := ∃ j, claimedDoc m = Some j ∧ rj_ID j = id.

Lemma fetchOne_lists q w nowMs leaseMs d d' r : keyedDb d → fairlyListed d → fetchOneScript q w nowMs leaseMs d = (d', r) →
  fairlyListed d' ∧ (inNoList d → inNoList d') ∧
  (∀ j, r = Some j → rj_ID j = id → ¬ inNoList d ∧ inNoList d').
Proof.
  intros Hk [Ho Hn]. unfold fetchOneScript. destruct (promote_lists q nowMs d Ho) as [Ho1 Hn1].
  pose proof (promote_jobs q nowMs d) as Hj1. set (d1 := promote q nowMs d) in *.
  assert (fairlyListed d1) as Hf1. { split; [done|]. intros (j & Hj & Hs). apply Hn1, Hn. exists j. by rewrite Hj1 in Hj. }
  destruct (zrange q (db_avail d1)) as [|[i s] rest] eqn:Hz; [by intros [= <- <-]|].
  assert (db_avail d1 !! (q, i) = Some s) as Hav by (apply zrange_listed; rewrite Hz; by left). simpl. rewrite Hj1.
  assert (keepsListing (ZRemAvail q i)) as Hkl by done.
  pose proof (keeps_command_lists _ d1 Hkl) as [Hl1 Hl2]. pose proof (keeps_command_fair _ _ Hkl Hf1) as Hf2.
  destruct (db_jobs d !! i) as [j|] eqn:Hj; intros [= <- <-]; [|split_and!; [exact Hf2|auto|done]].
  set (j' := claimed w nowMs leaseMs j) in *.
  assert (rj_ID j' = i) as Hid by (by apply Hk in Hj).
  assert (i = id → inNoList (runCommand (ZRemAvail q i) d1) ∧ ¬ inNoList d) as Hself.
  { intros ->. split; [|intros Hno; specialize (Hn1 Hno (false, q)); unfold listAt in Hn1; simpl in Hn1; by rewrite Hav in Hn1].
    destruct Ho1 as [Hno|[k Hok]]; [by apply Hl2|]. assert ((false, q) = k) as <- by (apply Hok; by exists s).
    intros [b q']. destruct (decide ((b, q') = (false, q))) as [[= -> ->]|Hne]; [by apply lookup_delete_eq|].
    apply eq_None_not_Some. intros Hs. apply Hne, Hok. destruct b; [done|].
    unfold listAt in *. simpl in *. by rewrite lookup_delete_ne in Hs by congruence. }
  split_and!.
  - split; [apply Hl1, Ho1|]. intros (j0 & Hj0 & Hs0). cbn in Hj0. apply lookup_insert_Some in Hj0 as [[-> _]|[Hne Hj0]].
    + by apply Hself.
    + apply Hl2, Hn1, Hn. by exists j0.
  - intros Hno. apply Hl2, Hn1, Hno.
  - intros j0 [= <-] Hi. rewrite Hid in Hi. by destruct (Hself Hi).
Qed.

(** *** Transitions *)

(** The end of a transition's commands. *)
Lemma settle_tail p now j : ∃ q tail,
  settleCommands p now (settledJob p now j) =
    HDelRun q (sp_ID p) :: SetJob (sp_ID p) (recoded (settledJob p now j)) :: tail ∧
  (tail = [] ∨ (∃ key, tail = [DelUniq key]) ∨
   rj_State (settledJob p now j) = JobStateAvailable ∧ ∃ q' s, tail = [ZAddAvail q' (sp_ID p) s] ∨ tail = [ZAddSched q' (sp_ID p) s]).
Proof.
  unfold settleCommands. exists (rj_Queue (settledJob p now j)). simpl. eexists. split; [done|].
  unfold settledJob. destruct (sp_Yield p); simpl; [right; right; split; [done|eauto]|].
  destruct (bool_decide (sp_State p = JobStateRetryable)); simpl.
  - right; right. split; [done|]. case_match; eauto.
  - case_match; eauto.
Qed.

Definition runCommands_keeps cs := Forall keepsListing cs.

Lemma keeps_commands cs : ∀ d, Forall keepsListing cs → fairlyListed d →
  fairlyListed (runCommands cs d) ∧ (inNoList d → inNoList (runCommands cs d)).
Proof.
  induction cs as [|c cs IH]; intros d Hk Hf; simpl; [done|]. apply Forall_cons in Hk as [Hc Hk].
  destruct (IH (runCommand c d)) as [H1 H2]; [done|by apply keeps_command_fair|].
  split; [done|]. intros Hn. by apply H2, (keeps_command_lists c d Hc).
Qed.

Lemma settle_fair p now j d : fairlyListed d → (sp_ID p = id → inNoList d) →
  fairlyListed (runCommands (settleCommands p now (settledJob p now j)) d) ∧
  (sp_ID p ≠ id → inNoList d → inNoList (runCommands (settleCommands p now (settledJob p now j)) d)).
Proof.
  intros Hf Hn. destruct (settle_tail p now j) as (q & tail & -> & Ht).
  destruct (decide (sp_ID p = id)) as [Hid|Hid].
  - specialize (Hn Hid). split; [|done]. rewrite Hid in *. simpl.
    assert (inNoList (runCommand (SetJob id (recoded (settledJob p now j))) (runCommand (HDelRun q id) d))) as Hn2 by exact Hn.
    destruct Ht as [-> |[[key ->]|(Hs & q' & s & Ht)]]; [by split; [left|]..|]. split.
    + eapply (listedOnce_put (runCommand (SetJob id (recoded (settledJob p now j))) (runCommand (HDelRun q id) d)) _
        (match tail with ZAddSched _ _ _ :: _ => true | _ => false end, q') s); [|exact Hn2].
      destruct Ht as [-> | ->]; intros [[] q'']; case_decide as E; simplify_eq; try done; try apply lookup_insert_eq; apply lookup_insert_ne; by intros [= ->].
    + intros (j' & Hj' & Hr). exfalso. destruct Ht as [-> | ->]; cbn in Hj'; rewrite lookup_insert_eq in Hj'; injection Hj' as <-; change (rj_State (settledJob p now j) = JobStateRunning) in Hr; by rewrite Hs in Hr.
  - assert (Forall keepsListing (HDelRun q (sp_ID p) :: SetJob (sp_ID p) (recoded (settledJob p now j)) :: tail)) as Hk.
    { apply Forall_cons; split; [done|]. apply Forall_cons; split; [by intros ?|]. destruct Ht as [-> |[[key ->]|(_ & q' & s & [-> | ->])]]; by repeat constructor. }
    destruct (keeps_commands _ d Hk Hf) as [H1 H2]. by split.
Qed.

(** *** Moves *)

(** A move that the driver makes outside of a reschedule of the job. *)
Definition ordinary (m : move) : Prop :=
  match m with
  | MCmd c => keepsListing c
  | MReq (InsertJob _ _ i j _ _ _ _ _) _ => rj_State j ≠ JobStateRunning
  | MReq (Exec i seen cs) _ => ∃ p now, sp_ID p = i ∧ rj_State seen = JobStateRunning ∧ cs = settleCommands p now (settledJob p now seen)
  | _ => True
  end.

(** A move that puts the job back, ends it, or makes another of its id. *)
Definition releases (m : move) : bool :=
  match m with
  | MReq q a =>
      match q return reply q → bool with
      | RescueOne _ i _ _ | Exec i _ _ | InsertJob _ _ i _ _ _ _ _ _ => λ b, b && bool_decide (i = id)
      | _ => λ _, false
      end a
  | _ => false
  end.

(** A document is written that runs only if the one before did. *)
Lemma fairlyListed_write i j j' d d' : db_jobs d !! i = Some j → (rj_State j' = JobStateRunning → rj_State j = JobStateRunning) →
  db_jobs d' = <[i := j']> (db_jobs d) → (∀ k, listAt d' k = listAt d k) → fairlyListed d → fairlyListed d'.
Proof.
  intros Hj Hs Hd Hl. apply fairlyListed_same; [done|]. intros (j0 & Hj0 & Hr). rewrite Hd in Hj0.
  apply lookup_insert_Some in Hj0 as [[-> <-]|[_ ?]]; [exists j; auto|by exists j0].
Qed.

Lemma insert_writes hu key i j sc s q n c d d' : insertJobScript hu key i j sc s q n c d = (d', true) →
  db_jobs d' = <[i := j]> (db_jobs d) ∧ ∀ k, listAt d' k = if decide (i = id ∧ k = (sc, q)) then Some s else listAt d k.
Proof.
  unfold insertJobScript. destruct (_ && _); [done|]. intros [= <-]. split; [by destruct sc, hu|].
  intros [b q']. case_decide as E; [destruct E; simplify_eq; destruct sc, hu; apply lookup_insert_eq|].
  destruct b, sc, hu; try done; apply lookup_insert_ne; intros [= -> ->]; by apply E.
Qed.

Lemma fresh_inNoList d : freshID id d = true → inNoList d.
Proof.
  unfold freshID, unlisted. rewrite !andb_true_iff, !bool_decide_eq_true, !Forall_forall. intros [[_ Ha] Hs] [b q].
  apply eq_None_not_Some. intros [x Hx]. unfold listAt in Hx. simpl in Hx.
  destruct b; apply elem_of_map_to_list in Hx; [by apply Hs in Hx|by apply Ha in Hx].
Qed.

Lemma insert_fair hu key i j sc s q n c d d' : fairlyListed d → rj_State j ≠ JobStateRunning → freshID i d = true →
  insertJobScript hu key i j sc s q n c d = (d', true) →
  fairlyListed d' ∧ (i ≠ id → inNoList d → inNoList d').
Proof.
  intros Hf Hj Hfr E. apply insert_writes in E as [Hd Hl]. destruct (decide (i = id)) as [->|Hi].
  - split; [|done]. split.
    + apply (listedOnce_put d d' (sc, q) s); [|by apply fresh_inNoList]. intros k. rewrite Hl. by repeat case_decide; naive_solver.
    + intros (j0 & Hj0 & Hr). exfalso. rewrite Hd, lookup_insert_eq in Hj0. by simplify_eq.
  - assert (∀ k, listAt d' k = listAt d k) as Hl' by (intros k; rewrite Hl, decide_False; [done|tauto]). split.
    + eapply fairlyListed_same; [exact Hl'| |done]. intros (j0 & Hj0 & Hr). rewrite Hd, lookup_insert_ne in Hj0 by done. by exists j0.
    + intros _ Hn k. by rewrite Hl'.
Qed.

Lemma rescue_fair q i a b d d' r : fairlyListed d → rescueOneScript q i a b d = (d', r) →
  fairlyListed d' ∧ (i ≠ id ∨ r = false → inNoList d → inNoList d').
Proof.
  intros Hf. unfold rescueOneScript. destruct (db_jobs d !! i) as [j|] eqn:Hj; [|by intros [= <- <-]].
  case_bool_decide as Hs; [|by intros [= <- <-]]. simpl. destruct (negb _); intros [= <- <-]; [done|].
  destruct (decide (i = id)) as [->|Hi].
  - split; [|intros [?|?]; done]. assert (inNoList d) as Hn by (apply Hf; by exists j). split.
    + apply (listedOnce_put d _ (false, q) (scoreOf (rj_Priority j) (rj_RunAtMs j))); [|exact Hn].
      intros [[] q']; case_decide as E; simplify_eq; [done|apply lookup_insert_eq|apply lookup_insert_ne; by intros [= ->]].
    + intros (j0 & Hj0 & Hr). exfalso. cbn in Hj0. rewrite lookup_insert_eq in Hj0. by simplify_eq.
  - assert (∀ k, listAt (runCommands [SetJob i (released j); HDelRun q i; ZAddAvail q i (scoreOf (rj_Priority j) (rj_RunAtMs j))] d) k = listAt d k) as Hl.
    { intros [[] q']; [done|]. apply lookup_insert_ne. by intros [= _ ->]. }
    split; [|intros _ Hn k; by rewrite Hl]. by eapply (fairlyListed_write i j (released j)).
Qed.

(** What a move does to the job, if it is ordinary. *)
Lemma ordinary_step px ex m d d' : keyedDb d → fairlyListed d → ordinary m → step px ex m d = Some d' →
  fairlyListed d' ∧ (releases m = false → inNoList d → inNoList d') ∧ (claims m → ¬ inNoList d ∧ inNoList d').
Proof.
  intros Hk Hf Hm Hs.
  assert (fairlyListed d' ∧ (releases m = false → inNoList d → inNoList d') →
    claimedDoc m = None →
    fairlyListed d' ∧ (releases m = false → inNoList d → inNoList d') ∧ (claims m → ¬ inNoList d ∧ inNoList d')) as Hno.
  { intros [H1 H2] Hc. split_and!; [done..|]. intros (j & Hj & _). by rewrite Hc in Hj. }
  assert (∀ d', db_jobs d' = db_jobs d → db_avail d' = db_avail d → db_sched d' = db_sched d →
    fairlyListed d' ∧ (releases m = false → inNoList d → inNoList d')) as Hsame.
  { intros d0 H1 H2 H3. assert (∀ k, listAt d0 k = listAt d k) as Hl by (intros [b q]; unfold listAt; by rewrite H2, H3).
    split; [|intros _ Hn k; by rewrite Hl]. eapply fairlyListed_same; [done| |done]. unfold runningIn. by rewrite H1. }
  assert (∀ i j j' d0, db_jobs d !! i = Some j → (rj_State j' = JobStateRunning → rj_State j = JobStateRunning) →
    db_jobs d0 = <[i := j']> (db_jobs d) → (∀ k, listAt d0 k = listAt d k) →
    fairlyListed d0 ∧ (releases m = false → inNoList d → inNoList d0)) as Hwrite.
  { intros i j j' d0 H1 H2 H3 H4. split; [by eapply fairlyListed_write|]. intros _ Hn k. by rewrite H4. }
  destruct m as [r a|c|t]; cbn [step] in Hs.
  2: { destruct (saneCommand c); [|done]. simplify_eq. apply Hno; [|done]. split; [by apply keeps_command_fair|].
       intros _. by apply (keeps_command_lists c d). }
  2: { destruct (_ <=? _); [|done]. simplify_eq. apply Hno; [|done]. by apply Hsame. }
  destruct (saneRequest r); [|done]. destruct r; cbn [serve] in Hs.
  - apply Hno; [|done]. destruct (freshID id0 d) eqn:Hfr; [|done]. apply agree_Some in Hs. destruct a.
    + destruct (insert_fair _ _ _ _ _ _ _ _ _ _ _ Hf Hm Hfr Hs) as [H1 H2]. split; [done|]. intros Hr. apply H2. simpl in Hr. by bool_to_prop.
    + unfold insertJobScript in Hs. destruct (_ && _); [|done]. simplify_eq. by apply Hsame.
  - apply seen_Some in Hs as [-> _]. apply Hno; [|done]. by apply Hsame.
  - apply agree_Some in Hs. destruct (fetchOne_lists _ _ _ _ _ _ _ Hk Hf Hs) as (H1 & H2 & H3). split_and!; [done|auto|].
    intros (j & Hj & Hid). by apply (H3 j).
  - apply agree_Some in Hs. destruct (rescue_fair _ _ _ _ _ _ _ Hf Hs) as [H1 H2]. apply Hno; [|done]. split; [done|].
    intros Hr. apply H2. destruct a; [left|by right]. simpl in Hr. by bool_to_prop.
  - apply agree_Some in Hs. apply Hno; [|done]. unfold heartbeatScript in Hs. destruct (db_jobs d !! id0) as [j|] eqn:Hj; [|simplify_eq; by apply Hsame].
    repeat (destruct (negb _); [simplify_eq; by apply Hsame|]). simplify_eq. by apply (Hwrite id0 j (job_LeaseExpiresAt (Some leaseMs) j)).
  - apply agree_Some in Hs. apply Hno; [|done]. unfold markStartedScript in Hs. destruct (db_jobs d !! id0) as [j|] eqn:Hj; [|simplify_eq; by apply Hsame].
    destruct (negb _); [simplify_eq; by apply Hsame|]. destruct (_ || _); simplify_eq; [by apply Hsame|]. by apply (Hwrite id0 j (job_StartedAt (Some atMs) j)).
  - apply Hno; [|done]. destruct a; [|simplify_eq; by apply Hsame]. case_bool_decide as Hj; [|done]. simplify_eq.
    destruct Hm as (p & now & Hid & Hrun & ->). destruct (settle_fair p now seen d Hf) as [H1 H2].
    { intros Hi. apply Hf. exists seen. by rewrite <-Hi, Hid. }
    split; [done|]. intros Hr. apply H2. simpl in Hr. rewrite Hid. by bool_to_prop.
  - apply Hno; [|done]. simplify_eq. by apply Hsame.
  - apply Hno; [|done]. destruct (listsOnce _ _); simplify_eq. by apply Hsame.
  - apply Hno; [|done]. destruct (listsOnce _ _); simplify_eq. by apply Hsame.
  - apply seen_Some in Hs as [-> _]. apply Hno; [|done]. by apply Hsame.
  - apply seen_Some in Hs as [-> _]. apply Hno; [|done]. by apply Hsame.
  - apply Hno; [|done]. destruct (listsOnce _ _); simplify_eq. by apply Hsame.
  - apply agree_Some in Hs. apply Hno; [|done]. unfold setNXLease in Hs. destruct (leaseOf name d); simplify_eq; by apply Hsame.
  - apply seen_Some in Hs as [-> _]. apply Hno; [|done]. by apply Hsame.
  - apply Hno; [|done]. simplify_eq. unfold expireLease. destruct (leaseOf name d); by apply Hsame.
  - apply Hno; [|done]. simplify_eq. unfold resignLeaderScript. destruct (leaseOf name d); [case_bool_decide|]; by apply Hsame.
  - apply agree_Some in Hs. apply Hno; [|done]. destruct (db_cursors d !! id0); simplify_eq; by apply Hsame.
  - apply seen_Some in Hs as [-> _]. apply Hno; [|done]. by apply Hsame.
  - apply agree_Some in Hs. apply Hno; [|done]. unfold advanceCursorScript in Hs. case_bool_decide; simplify_eq; by apply Hsame.
  - apply Hno; [|done]. simplify_eq. by apply Hsame.
  - apply Hno; [|done]. simplify_eq. by apply Hsame.
  - apply Hno; [|done]. simplify_eq. by apply Hsame.
Qed.

(** *** Runs *)

Lemma ordinary_run px ex ms : ∀ d d', keyedDb d → fairlyListed d → Forall ordinary ms → runMoves px ex ms d = Some d' →
  fairlyListed d' ∧ (inNoList d → inNoList d' ∨ Exists (λ m, releases m = true) ms).
Proof.
  induction ms as [|m ms IH]; intros d d' Hk Hf Ho Hr; simpl in *; [simplify_eq; auto|].
  destruct (step px ex m d) as [d1|] eqn:Hs; [|done]. apply Forall_cons in Ho as [Hm Ho].
  destruct (ordinary_step _ _ _ _ _ Hk Hf Hm Hs) as (Hf1 & Hn1 & _).
  destruct (IH d1 d') as [H1 H2]; [by eapply rd_step_keyed|done..|]. split; [done|]. intros Hn.
  destruct (releases m) eqn:Hrel; [right; by left|]. destruct (H2 (Hn1 eq_refl Hn)) as [?|?]; [by left|right; by right].
Qed.

Lemma claim_ordinary m : claims m → ordinary m.
Proof. intros (j & Hj & _). destruct m as [[] a| |]; done. Qed.

(** Between two claims of a job there is a move that puts it back. *)
Lemma claims_apart px ex pre m1 mid m2 post d d' : keyedDb d → fairlyListed d →
  runMoves px ex (pre ++ m1 :: mid ++ m2 :: post) d = Some d' → claims m1 → claims m2 →
  Forall ordinary (pre ++ mid) → Exists (λ m, releases m = true) mid.
Proof.
  intros Hk Hf Hr H1 H2 [Hop Hom]%Forall_app.
  apply runMoves_split in Hr as (d1 & d2 & Hpre & Hs1 & Hr). apply runMoves_split in Hr as (d3 & d4 & Hmid & Hs2 & _).
  assert (keyedDb d1) as Hk1 by (by eapply runMoves_inv; [apply rd_step_keyed|..]).
  destruct (ordinary_run _ _ _ _ _ Hk Hf Hop Hpre) as [Hf1 _].
  destruct (ordinary_step _ _ _ _ _ Hk1 Hf1 (claim_ordinary _ H1) Hs1) as (Hf2 & _ & Hc1).
  assert (keyedDb d2) as Hk2 by (by eapply rd_step_keyed).
  destruct (ordinary_run _ _ _ _ _ Hk2 Hf2 Hom Hmid) as [Hf3 Hn3].
  destruct (Hn3 (proj2 (Hc1 H1))) as [Hn|?]; [|done].
  assert (keyedDb d3) as Hk3 by (by eapply runMoves_inv; [apply rd_step_keyed|..]).
  by destruct (ordinary_step _ _ _ _ _ Hk3 Hf3 (claim_ordinary _ H2) Hs2) as (_ & _ & [? _]).
Qed.
End lists.

(** ** The operations make ordinary moves *)

Definition reschedules (id : string) (o : driverOp) : bool :=
  match o with OReschedule p => bool_decide (rs_ID p = id) | _ => false end.

Section ordinary.
Context (id : string).

Lemma tried_ordinary q ms : tried q ms → (∀ a, ordinary id (MReq q a)) → Forall (ordinary id) ms.
Proof. intros [->|[a ->]] Hq; by repeat constructor. Qed.

Lemma insert_ordinary p i now b : ordinary id (MReq (insertRequest p i now) b).
Proof. unfold insertRequest, newJob. simpl. by destruct (After _ now). Qed.

Lemma settle_ordinary p now j b : holds p j → ordinary id (MReq (settleRequest p now j) b).
Proof. intros [Hs _]. simpl. exists p, now. done. Qed.

Lemma cmds_ordinary cs l : Forall (keepsListing id) cs → l `sublist_of` cs → Forall (ordinary id) (MCmd <$> l).
Proof.
  intros Hc Hl. apply Forall_fmap, Forall_forall. intros c Hin. rewrite Forall_forall in Hc. apply Hc.
  eapply elem_of_submseteq; [exact Hin|]. by apply sublist_submseteq.
Qed.

Lemma freed_keeps j : Forall (keepsListing id) (freedKey j).
Proof. unfold freedKey. destruct (_ && _); by repeat constructor. Qed.
Lemma cancel_keeps i now j : Forall (keepsListing id) (cancelCommands i now j).
Proof. by repeat constructor. Qed.
Lemma delete_keeps i j : Forall (keepsListing id) (deleteCommands i j).
Proof. unfold deleteCommands. case_bool_decide; by repeat constructor. Qed.
Lemma reschedule_keeps p j : rs_ID p ≠ id → Forall (keepsListing id) (rescheduleCommands p j).
Proof. intros Hi. repeat constructor; [done|]. by intros ?. Qed.

Lemma insertedAs_ordinary now p ms r : insertedAs now p ms r → Forall (ordinary id) ms.
Proof.
  intros (i & Hr). destruct (ir_UniqueSkip r); destruct_and!; subst; apply Forall_singleton, insert_ordinary.
Qed.

Lemma groups_ordinary now ps groups rs : Forall3 (insertedAs now) ps groups rs → Forall (ordinary id) (mjoin groups).
Proof. induction 1; simpl; [done|]. apply Forall_app. split; [by eapply insertedAs_ordinary|done]. Qed.

Lemma scanned_ordinary p cur ids ms rows : scanned p cur ids ms rows → Forall (ordinary id) ms.
Proof.
  induction 1; simpl; [done|..]; rewrite ?Forall_cons, ?Forall_app; split_and?; try done; by eapply tried_ordinary.
Qed.

Lemma queuesRead_ordinary c ns ms rows : queuesRead c ns ms rows → Forall (ordinary id) ms.
Proof.
  induction 1; simpl; [done|done|..]; rewrite ?Forall_cons, ?Forall_app; split_and?; try done; by eapply tried_ordinary.
Qed.

Lemma readThen_ordinary i cs ms err : (∀ j, Forall (keepsListing id) (cs j)) → readThen i cs ms err → Forall (ordinary id) ms.
Proof.
  intros Hc Hr. destruct err as [e|]; simpl in Hr.
  - destruct (errorsIs e ErrNotFound); [subst; by repeat constructor|]. destruct Hr as [Ht|(j & l & Hl & ->)]; [by eapply tried_ordinary|].
    constructor; [done|]. by eapply cmds_ordinary.
  - destruct Hr as (j & ->). constructor; [done|]. by eapply cmds_ordinary.
Qed.

Lemma refused_ordinary p fails : Forall (λ x, holds p x.2) fails → Forall (ordinary id) (mjoin (refused p <$> fails)).
Proof.
  induction 1 as [|[now j] fails Hh _ IH]; [done|]. simpl. constructor; [done|]. constructor; [by apply (settle_ordinary p now j)|exact IH].
Qed.

Ltac ordinary := repeat first
  [ apply Forall_nil; exact I | apply Forall_cons; split | apply Forall_app; split | exact I | done
  | eapply tried_ordinary; [eassumption|intros ?] ].

(** Whatever an operation has done, short of a reschedule of the job. *)
Lemma promised_ordinary o ms a : reschedules id o = false → promisedMoves o ms a → Forall (ordinary id) ms.
Proof.
  intros Hr Hp. destruct o; simpl in Hp.
  - destruct Hp as (now & Hp). destruct a as [rs|e].
    + destruct Hp as (groups & -> & Hf). by eapply groups_ordinary.
    + destruct Hp as (before & p & rest & groups & rs & i & last & _ & -> & Hf & Ht). apply Forall_app.
      split; [by eapply groups_ordinary|]. eapply tried_ordinary; [exact Ht|]. intros b. apply insert_ordinary.
  - destruct a as [row|e]; [destruct Hp as (j & -> & _); ordinary|]. destruct (errorsIs e ErrNotFound); [subst|]; ordinary.
  - destruct a as [rows|e]; [|ordinary]. destruct Hp as (all & (cur & ids & l & kept & _ & -> & Hs & _) & _).
    constructor; [done|]. by eapply scanned_ordinary.
  - destruct a as [s|e]; [|ordinary]. destruct Hp as (all & (cur & ids & l & kept & _ & -> & Hs & _) & _).
    constructor; [done|]. by eapply scanned_ordinary.
  - destruct a as [rows err]. destruct Hp as [(Ht & _)|[(-> & _)|(v & now & docs & last & _ & _ & -> & He)]]; ordinary.
    + apply Forall_fmap, Forall_true. done.
    + destruct err; simpl in He; [destruct He as [_ ?]; ordinary|]. destruct He as [[_ ->]|[_ ->]]; ordinary.
  - destruct a as [n err]. destruct Hp as [(Ht & _)|(ids & xs & last & -> & _ & He)]; ordinary.
    + apply Forall_fmap, Forall_true. done.
    + destruct err; [destruct He as (i & rest & _ & ?); ordinary|]. destruct He as [_ ->]. done.
  - destruct a as [b [e|]]; [|destruct Hp as (j & ->); ordinary]. destruct Hp as [_ [?|(j & last & -> & ?)]]; ordinary.
  - destruct a as [b [e|]]; [destruct Hp as [_ ?]|subst]; ordinary.
  - destruct Hp as (fails & last & -> & Hf & He). apply Forall_app. split; [by apply refused_ordinary|].
    destruct a as [e|].
    + destruct (errorsIs e ErrStaleClaim); [destruct He as (x & -> & _); ordinary|].
      destruct He as [[_ ->]|[?|(j & now & l & Hh & -> & Ht)]]; [done|ordinary|]. constructor; [done|].
      eapply tried_ordinary; [exact Ht|]. intros b. by apply settle_ordinary.
    + destruct He as (_ & j & now & Hh & ->). constructor; [done|]. constructor; [by apply settle_ordinary|done].
  - destruct a as [e|].
    + destruct (errorsIs e ErrNotFound); [subst; ordinary|]. destruct (errorsIs e ErrConflict); [destruct Hp as (j & _ & ->); ordinary|].
      destruct Hp as [?|(j & now & l & _ & Hl & ->)]; [ordinary|]. constructor; [done|]. eapply cmds_ordinary; [|exact Hl].
      apply Forall_app. split; [apply freed_keeps|apply cancel_keeps].
    + destruct Hp as (j & now & l & _ & Hl & ->). constructor; [done|]. rewrite fmap_app. apply Forall_app. split.
      * eapply cmds_ordinary; [apply freed_keeps|exact Hl].
      * eapply cmds_ordinary; [apply cancel_keeps|done].
  - eapply readThen_ordinary; [|exact Hp]. intros j. apply delete_keeps.
  - eapply readThen_ordinary; [|exact Hp]. intros j. apply reschedule_keeps. simpl in Hr. by bool_to_prop.
  - destruct a as [row|e]; [destruct Hp as (m & -> & _); ordinary|]. destruct (errorsIs e ErrNotFound); [subst|]; ordinary.
  - destruct Hp as (now & Hp). destruct a as [e|].
    + destruct Hp as (l & Hl & ->). eapply cmds_ordinary; [|exact Hl]. by repeat constructor.
    + subst. by repeat constructor.
  - destruct a as [rows|e]; [|ordinary]. destruct Hp as (c & names & l & all & _ & -> & Hq & _). constructor; [done|]. by eapply queuesRead_ordinary.
  - destruct a as [b [e|]]; [destruct Hp as [_ [?|(l & -> & ?)]]; ordinary|]. destruct b; [destruct Hp as [->|(l & -> & ?)]|destruct Hp as (x & _ & ->)]; ordinary.
  - destruct a as [e|]; [|subst]; ordinary.
  - destruct a as [r [e|]]; [|destruct Hp as (n & _ & ->); ordinary]. destruct Hp as [_ [?|(b & l & -> & ?)]]; ordinary.
  - destruct a as [b [e|]]; [destruct Hp as [_ ?]|subst]; ordinary.
Qed.
End ordinary.

(** ** Unique keys and leases *)

Section keys.
Context (px : Duration → option Duration) (ex : Duration → Duration).

(** A move that lets a unique key go. *)
Definition frees (key : string) (m : move) : bool :=
  match m with
  | MCmd c => bool_decide (c = DelUniq key)
  | MReq q a => match q return reply q → bool with Exec _ _ cs => λ b, b && bool_decide (DelUniq key ∈ cs) | _ => λ _, false end a
  | MTime _ => false
  end.

Definition keyHeld (key : string) (d : Db) : Prop := is_Some (db_uniq d !! key).

Lemma command_key key c d : c ≠ DelUniq key → keyHeld key d → keyHeld key (runCommand c d).
Proof.
  intros Hc Hh. destruct c; try exact Hh. unfold keyHeld. simpl. rewrite lookup_delete_ne; [done|]. by intros ->.
Qed.

Lemma commands_key key cs : ∀ d, DelUniq key ∉ cs → keyHeld key d → keyHeld key (runCommands cs d).
Proof.
  induction cs as [|c cs IH]; intros d Hn Hh; simpl; [done|]. apply not_elem_of_cons in Hn as [Hc Hn].
  apply IH; [done|]. by apply command_key.
Qed.

Lemma promote_key q nowMs d : db_uniq (promote q nowMs d) = db_uniq d.
Proof.
  unfold promote. generalize (due q nowMs d). intros l. revert d. induction l as [|id l IH]; intros d; simpl; [done|].
  rewrite IH. unfold promoteOne. by destruct (db_jobs d !! id).
Qed.

Lemma step_key key m d d' : keyHeld key d → step px ex m d = Some d' → frees key m = false → keyHeld key d'.
Proof.
  intros Hh Hs Hf. destruct m as [r a|c|t]; cbn [step] in Hs; [|destruct (saneCommand c); [|done]; simplify_eq; apply command_key; [|done]; simpl in Hf; by bool_to_prop|destruct (_ <=? _); by simplify_eq].
  destruct (saneRequest r); [|done]. destruct r; cbn [serve] in Hs; try (by simplify_eq); try (apply seen_Some in Hs as [-> _]; done);
    try (destruct (listsOnce _ _); by simplify_eq); try apply agree_Some in Hs.
  - destruct (freshID id d); [|done]. apply agree_Some in Hs. unfold insertJobScript in Hs. destruct (_ && _); [by simplify_eq|]. injection Hs as <- <-.
    unfold keyHeld. destruct hasUnique, scheduled; simpl; try exact Hh; (destruct (decide (uniqueKey = key)) as [->|];
      [by rewrite lookup_insert_eq|by rewrite lookup_insert_ne]).
  - unfold fetchOneScript in Hs. unfold keyHeld in *. pose proof (promote_key queue nowMs d) as Hp. revert Hs. set (d1 := promote queue nowMs d) in *.
    destruct (zrange queue (db_avail d1)) as [|[i s] rest]; [intros [= <- <-]; by rewrite Hp|]. simpl. destruct (db_jobs d1 !! i); intros [= <- <-]; simpl; by rewrite Hp.
  - unfold rescueOneScript in Hs. destruct (db_jobs d !! id) as [j|]; [|by simplify_eq].
    destruct (negb _); [by simplify_eq|]. destruct (negb _); by simplify_eq.
  - unfold heartbeatScript in Hs. destruct (db_jobs d !! id) as [j|]; [|by simplify_eq]. repeat (destruct (negb _); [by simplify_eq|]). by simplify_eq.
  - unfold markStartedScript in Hs. destruct (db_jobs d !! id) as [j|]; [|by simplify_eq].
    destruct (negb _); [by simplify_eq|]. destruct (_ || _); by simplify_eq.
  - destruct a; [|by simplify_eq]. case_bool_decide; simplify_eq. apply commands_key; [|done]. simpl in Hf. by bool_to_prop.
  - unfold setNXLease in Hs. destruct (leaseOf name d); by simplify_eq.
  - simplify_eq. unfold expireLease. by destruct (leaseOf name d).
  - simplify_eq. unfold resignLeaderScript. destruct (leaseOf name d); [by case_bool_decide|done].
  - destruct (db_cursors d !! id); by simplify_eq.
  - unfold advanceCursorScript in Hs. case_bool_decide; by simplify_eq.
Qed.

Lemma run_key key ms : ∀ d d', keyHeld key d → runMoves px ex ms d = Some d' → keyHeld key d' ∨ Exists (λ m, frees key m = true) ms.
Proof.
  induction ms as [|m ms IH]; intros d d' Hh Hr; simpl in *; [simplify_eq; by left|].
  destruct (step px ex m d) as [d1|] eqn:Hs; [|done]. destruct (frees key m) eqn:Hf; [right; by left|].
  destruct (IH d1 d') as [?|?]; [by eapply step_key|done|by left|right; by right].
Qed.

Lemma inserted_key p i now d d' : ip_UniqueKey p ≠ "" → step px ex (MReq (insertRequest p i now) true) d = Some d' →
  ¬ keyHeld (ip_UniqueKey p) d ∧ keyHeld (ip_UniqueKey p) d'.
Proof.
  intros Hk Hs. unfold insertRequest in Hs. cbn [step serve] in Hs. destruct (saneRequest _); [|done]. destruct (freshID i d); [|done].
  apply agree_Some in Hs. unfold insertJobScript in Hs. rewrite bool_decide_eq_true_2 in Hs by done. simpl in Hs. unfold keyHeld.
  case_bool_decide as Hh; [done|]. injection Hs as <-. split; [done|].
  destruct (After _ now); simpl; by rewrite lookup_insert_eq.
Qed.

(** Of two jobs that are both inserted under a unique key, the second comes after a
    move that has let the key go. *)
Theorem redis_keys_apart p1 i1 now1 p2 i2 now2 mid d d' : ip_UniqueKey p1 ≠ "" → ip_UniqueKey p1 = ip_UniqueKey p2 →
  runMoves px ex (MReq (insertRequest p1 i1 now1) true :: mid ++ [MReq (insertRequest p2 i2 now2) true]) d = Some d' →
  Exists (λ m, frees (ip_UniqueKey p1) m = true) mid.
Proof.
  intros Hk Heq Hr. apply (runMoves_split _ []) in Hr as (d0 & d1 & _ & H1 & Hr). apply runMoves_split in Hr as (d2 & d3 & Hmid & H2 & _).
  apply inserted_key in H1 as [_ H1]; [|done]. destruct (run_key _ _ _ _ H1 Hmid) as [Hh|?]; [|done].
  apply inserted_key in H2 as [H2 _]; [|congruence]. by rewrite Heq in Hh.
Qed.

(** Who holds the lease now. *)
Definition ownerOf (name : string) (d : Db) : option string := ls_Owner <$> leaseOf name d.

(** A move that can end the lease of a worker: its own resignation, or time. *)
Definition endsLease (name workerID : string) (m : move) : bool :=
  match m with
  | MReq q _ =>
      match q with
      | Resign n w => bool_decide (n = name) && bool_decide (w = workerID)
      | ExpireLease n ttl => bool_decide (n = name) && (ex ttl <=? 0)
      | _ => false
      end
  | MTime _ => true
  | MCmd _ => false
  end.

Lemma runCommand_leases c d : db_leases (runCommand c d) = db_leases d ∧ db_time (runCommand c d) = db_time d.
Proof. by destruct c. Qed.
Lemma runCommands_leases cs : ∀ d, db_leases (runCommands cs d) = db_leases d ∧ db_time (runCommands cs d) = db_time d.
Proof.
  induction cs as [|c cs IH]; intros d; simpl; [done|]. destruct (IH (runCommand c d)) as [-> ->]. apply runCommand_leases.
Qed.
Lemma promote_leases q nowMs d : db_leases (promote q nowMs d) = db_leases d ∧ db_time (promote q nowMs d) = db_time d.
Proof.
  unfold promote. generalize (due q nowMs d). intros l. revert d. induction l as [|id l IH]; intros d; simpl; [done|].
  destruct (IH (promoteOne q d id)) as [-> ->]. unfold promoteOne. by destruct (db_jobs d !! id).
Qed.

Lemma ownerOf_same name d d' : db_leases d' = db_leases d → db_time d' = db_time d → ownerOf name d' = ownerOf name d.
Proof. intros H1 H2. unfold ownerOf, leaseOf. by rewrite H1, H2. Qed.

Lemma ownerOf_ne name n x d : n ≠ name → ownerOf name (set_leases (<[n := x]> (db_leases d)) d) = ownerOf name d ∧
  ownerOf name (set_leases (delete n (db_leases d)) d) = ownerOf name d.
Proof. intros Hn. unfold ownerOf, leaseOf. simpl. by rewrite lookup_insert_ne, lookup_delete_ne by done. Qed.

Lemma rd_step_lease name w m d d' : ownerOf name d = Some w → step px ex m d = Some d' → endsLease name w m = false → ownerOf name d' = Some w.
Proof.
  intros Ho Hs He. destruct m as [r a|c|t]; cbn [step] in Hs; [|destruct (saneCommand c); [|done]; simplify_eq; destruct (runCommand_leases c d); by rewrite (ownerOf_same _ d)|done].
  destruct (saneRequest r); [|done]. destruct r; cbn [serve] in Hs; try (by simplify_eq); try (apply seen_Some in Hs as [-> _]; done);
    try (destruct (listsOnce _ _); by simplify_eq); try apply agree_Some in Hs.
  - destruct (freshID id d); [|done]. apply agree_Some in Hs. unfold insertJobScript in Hs. destruct (_ && _); [by simplify_eq|]. injection Hs as <- <-.
    by destruct hasUnique, scheduled.
  - unfold fetchOneScript in Hs. destruct (promote_leases queue nowMs d) as [H1 H2]. revert Hs. set (d1 := promote queue nowMs d) in *.
    destruct (zrange queue (db_avail d1)) as [|[i s] rest]; [intros [= <- <-]; by rewrite (ownerOf_same _ d)|]. simpl.
    destruct (db_jobs d1 !! i); intros [= <- <-]; by rewrite (ownerOf_same _ d).
  - unfold rescueOneScript in Hs. destruct (db_jobs d !! id) as [j|]; [|by simplify_eq].
    destruct (negb _); [by simplify_eq|]. destruct (negb _); by simplify_eq.
  - unfold heartbeatScript in Hs. destruct (db_jobs d !! id) as [j|]; [|by simplify_eq]. repeat (destruct (negb _); [by simplify_eq|]). by simplify_eq.
  - unfold markStartedScript in Hs. destruct (db_jobs d !! id) as [j|]; [|by simplify_eq].
    destruct (negb _); [by simplify_eq|]. destruct (_ || _); by simplify_eq.
  - destruct a; [|by simplify_eq]. case_bool_decide; simplify_eq. destruct (runCommands_leases cs d). by rewrite (ownerOf_same _ d).
  - unfold setNXLease in Hs. destruct (leaseOf name0 d) eqn:El; [by simplify_eq|]. injection Hs as <- <-.
    destruct (decide (name0 = name)) as [->|Hn]; [unfold ownerOf in Ho; by rewrite El in Ho|]. by rewrite (proj1 (ownerOf_ne name name0 _ d Hn)).
  - simplify_eq. unfold expireLease. destruct (leaseOf name0 d) as [l|] eqn:El; [|done].
    destruct (decide (name0 = name)) as [->|Hn]; [|by rewrite (proj1 (ownerOf_ne name name0 _ d Hn))].
    unfold ownerOf, leaseOf in *. simpl in *. rewrite lookup_insert_eq. rewrite bool_decide_eq_true_2 in He by done. simpl in He. unfold Add. simpl.
    rewrite (proj2 (Z.leb_gt _ _)) by (apply Z.leb_gt in He; lia). rewrite El in Ho. done.
  - simplify_eq. unfold resignLeaderScript. destruct (leaseOf name0 d) as [l|] eqn:El; [|done]. case_bool_decide as Hw; [|done].
    destruct (decide (name0 = name)) as [->|Hn]; [|by rewrite (proj2 (ownerOf_ne name name0 l d Hn))].
    unfold ownerOf in Ho. rewrite El in Ho. simpl in *. simplify_eq. by rewrite !bool_decide_eq_true_2 in He.
  - destruct (db_cursors d !! id); by simplify_eq.
  - unfold advanceCursorScript in Hs. case_bool_decide; by simplify_eq.
Qed.

(** A lease stays with its owner, until the owner resigns, time passes, or it is
    given no time at all. *)
Theorem redis_lease_stays name w ms : ∀ d d', ownerOf name d = Some w → runMoves px ex ms d = Some d' →
  Forall (λ m, endsLease name w m = false) ms → ownerOf name d' = Some w.
Proof.
  induction ms as [|m ms IH]; intros d d' Ho Hr Hn; simpl in *; [by simplify_eq|].
  destruct (step px ex m d) as [d1|] eqn:Hs; [|done]. apply Forall_cons in Hn as [Hm Hn]. eapply IH; [|done..]. by eapply rd_step_lease.
Qed.
End keys.

(** ** Of the operations *)

Section operations.
Context {R : Type} `{Redis R} `{!RedisLaws R}.
Abbreviation dbOf e := (rd_db (rv_rd e)).

(** The move that has claimed a row. *)
Definition claimedRow (p : FetchParams) (row : JobRow) (m : move) : Prop :=
  ∃ now j, m = claimOf p now j ∧ row = jobToRow j.

Lemma rd_fetched_claim p acts rows err row : promised (OFetch p) acts (rows, err) → row ∈ rows →
  ∃ m, m ∈ did acts ∧ claimedRow p row m.
Proof.
  intros [(_ & -> & _)|[(_ & -> & _)|(v & now & docs & last & _ & -> & Hd & _)]] Hin; try by apply not_elem_of_nil in Hin.
  apply list_elem_of_fmap in Hin as (j & -> & Hj). exists (claimOf p now j). split; [|by exists now, j].
  rewrite Hd. right. apply elem_of_app. left. apply list_elem_of_fmap. eauto.
Qed.

Lemma claimedRow_claims p row m : claimedRow p row m → claims (ID row) m.
Proof. intros (now & j & -> & ->). by exists j. Qed.

(** C12: on Redis, too, a claim is exclusive unless the job is rescheduled.  If two
    fetches, of any workers and with anything happening meanwhile, both return a
    job, then in between it has been put back: by a rescue, or by the transaction of
    a transition of the claimed job (or the job was deleted, and its id given to
    another).  This holds as long as all moves on the way, from a database in which
    the job waits in one list at most and, if it runs, in none, are ordinary.  The
    lists of a queue are separate keys, so this invariant ties them together; all
    moves of all operations keep it, a reschedule of the very job excepted: see
    [promised_ordinary], and [redis_reschedule_race] for the exception. *)
Theorem redis_claims_exclusive p1 p2 (e1 e2 : RdEnv (R := R)) ms rows1 err1 rows2 err2 row1 row2 :
  keyedDb (dbOf e1) → fairlyListed (ID row1) (dbOf e1) →
  (execOp (OFetch p1) e1).2 = (rows1, err1) → row1 ∈ rows1 →
  runMoves rd_px rd_ex ms (dbOf (execOp (OFetch p1) e1).1) = Some (dbOf e2) →
  (execOp (OFetch p2) e2).2 = (rows2, err2) → row2 ∈ rows2 → ID row1 = ID row2 →
  ∃ pre m1 mid m2 post, claimedRow p1 row1 m1 ∧ claimedRow p2 row2 m2 ∧
    runMoves rd_px rd_ex (pre ++ m1 :: mid ++ m2 :: post) (dbOf e1) = Some (dbOf (execOp (OFetch p2) e2).1) ∧
    (Forall (ordinary (ID row1)) (pre ++ mid) → Exists (λ m, releases (ID row1) m = true) mid).
Proof.
  intros Hk Hf Ha1 Hin1 Hms Ha2 Hin2 Hid.
  edestruct (does_two (step rd_px rd_ex) (λ e, dbOf e) keyedDb (rd_step_keyed rd_px rd_ex) (execOp (OFetch p1)) (execOp (OFetch p2))
    (promised (OFetch p1)) (promised (OFetch p2)) e1 e2 ms (claimedRow p1 row1) (claimedRow p2 row2))
    as (pre & m1 & mid & m2 & post & H1 & H2 & Hr);
    [done|apply rd_operation_does|apply rd_operation_does|exact Hms|..].
  - intros acts Hp. rewrite Ha1 in Hp. by eapply rd_fetched_claim.
  - intros acts Hp. rewrite Ha2 in Hp. by eapply rd_fetched_claim.
  - exists pre, m1, mid, m2, post. split_and!; [done..|]. intros Ho.
    eapply (claims_apart _ _ _ _ _ _ _ _ _ _ Hk Hf Hr); [by eapply claimedRow_claims| |done].
    rewrite Hid. by eapply claimedRow_claims.
Qed.
End operations.
