(* ===== verification/RedisStores.v ===== *)
(** * driver/redis behind the interfaces, and its listener

    The Redis backend as the store of a client ([EnqueueStore]), of a worker pool
    ([WorkerStore]), of the rate limiter ([CursorStore]) and of the periodic
    scheduler ([LeaseStore]); then the listener.  A subscription has a goroutine of
    its own that forwards what arrives to a buffered channel, and drops what does
    not fit; it closes the channel when the subscription is closed. *)

From S2P Require Import Prelude GoBase Json Codec Driver Moves RateLimit Client Cron WorkerRun WorkerMachine.
From S2P Require Import Redis.
From Stdlib Require Import ZArith Lia.

Definition redisName : string := "redis".
Definition newRedis {R} (rdb : R) (clk : Clock) : RdEnv (R := R) := mkRdEnv rdb clk.

(** ** Stores *)

Section stores.
Context {R : Type} `{Redis R}.

(** A value with an error, as Go returns them. *)
Definition orErr {A} (r : RdEnv (R := R) * (A * option error)) : RdEnv (R := R) * result A :=
  (r.1, match r.2.2 with Some e => Err e | None => Ok r.2.1 end).
Definition insertedOrErr (r : RdEnv (R := R) * result (list JobInsertResult)) : RdEnv (R := R) * inserted :=
  (r.1, match r.2 with Ok rs => (rs, None) | Err e => ([], Some e) end).

(** The driver's [NoTx]: an executor that is no transaction. *)
#[export] Instance redisEnqueueStore : EnqueueStore (RdEnv (R := R)) unit := {|
  es_Name := redisName;
  es_Capabilities := RedisCapabilities;
  es_JobInsertMany e ps := insertedOrErr (jobInsertMany ps e);
  es_JobInsertManyTx _ e ps := insertedOrErr (jobInsertMany ps e);
  es_JobCancel e id := jobCancel id e;
  es_QueueStats := Some (λ e queue, (queueStats queue e).2)
|}.

#[export] Instance redisWorkerStore : WorkerStore (RdEnv (R := R)) := {|
  ws_fetch e p := orErr (jobFetchBatch p e);
  ws_setState e p := jobSetStateIfRunning p e;
  ws_markStarted := Some (λ e p, orErr (jobMarkStarted p e));
  ws_heartbeat := Some (λ e p, orErr (jobHeartbeat p e));
  ws_rescue := Some (λ e p, orErr (jobRescueStuck p e));
  ws_elect e p := orErr (leaderAttemptElect p e);
  ws_resign e p := leaderResign p e
|}.

#[export] Instance redisCursorStore : CursorStore (RdEnv (R := R)) := {|
  cs_getOrCreate e p := orErr (scheduleCursorGetOrCreate p e);
  cs_advance e p := orErr (scheduleCursorAdvance p e);
  cs_native := None
|}.

#[export] Instance redisLeaseStore : LeaseStore (RdEnv (R := R)) := {|
  ls_elect e p := orErr (leaderAttemptElect p e);
  ls_resign e p := leaderResign p e
|}.
End stores.

(** ** The listener *)

(** A subscription and the channel that its goroutine feeds. *)
Record redisSub := mkRedisSub { ss_ps : nat; ss_ch : nat }.
Record chanState := mkChan { ch_len : nat; ch_closed : bool }.

(** What the listener and its goroutines share.  [n_pumps] are the goroutines that
    have not returned, by subscription, with the channel of each. *)
Record Net := mkNet {
  n_subs : gmap string redisSub;
  n_open : gmap nat string;                (* the open subscriptions, and to what *)
  n_pumps : gmap nat nat;
  n_chans : gmap nat chanState;
  n_next : nat
}.

Definition bufferSize : nat := 16.

Definition Listen (queue : string) (n : Net) : Net * nat :=
  match n_subs n !! queue with
  | Some sub => (n, ss_ch sub)
  | None =>
      let x := n_next n in
      (mkNet (<[queue := mkRedisSub x x]> (n_subs n)) (<[x := notifyChannel queue]> (n_open n)) (<[x := x]> (n_pumps n))
         (<[x := mkChan 0 false]> (n_chans n)) (S x), x)
  end.

(** [sub.ps.Close()], for the subscriptions of a listener. *)
Definition closeSub (n : Net) (sub : redisSub) : Net :=
  mkNet (n_subs n) (delete (ss_ps sub) (n_open n)) (n_pumps n) (n_chans n) (n_next n).

Definition setSubs (subs : gmap string redisSub) (n : Net) : Net := mkNet subs (n_open n) (n_pumps n) (n_chans n) (n_next n).

Definition Unlisten (queue : string) (n : Net) : Net :=
  match n_subs n !! queue with Some sub => setSubs (delete queue (n_subs n)) (closeSub n sub) | None => n end.

Definition CloseListener (n : Net) : Net := setSubs ∅ (foldl closeSub n (map_to_list (n_subs n)).*2).

(** One message, and the end, of the goroutine of a subscription.  [None]: Go would
    panic, since the channel is closed. *)
Definition send (c : chanState) : option chanState :=
  if ch_closed c then None else Some (if decide (ch_len c < bufferSize)%nat then mkChan (S (ch_len c)) false else c).
Definition closeCh (c : chanState) : option chanState := if ch_closed c then None else Some (mkChan (ch_len c) true).

Definition onChan (f : chanState → option chanState) (ch : nat) (n : Net) : option Net :=
  match n_chans n !! ch with
  | Some c => (λ c', mkNet (n_subs n) (n_open n) (n_pumps n) (<[ch := c']> (n_chans n)) (n_next n)) <$> f c
  | None => None
  end.

Definition forward (ch : nat) (n : Net) : option Net := onChan send ch n.
Definition pumpEnds (ps ch : nat) (n : Net) : option Net :=
  (λ n', mkNet (n_subs n') (n_open n') (delete ps (n_pumps n')) (n_chans n') (n_next n')) <$> onChan closeCh ch n.

(** What can happen next. *)
Inductive netEvent :=
| NListen (queue : string)
| NUnlisten (queue : string)
| NClose
| NMessage (ps : nat)          (* the goroutine of a subscription takes a message *)
| NEnd (ps : nat)              (* or sees the end, once the subscription is closed *)
| NReceive (ch : nat).         (* somebody takes a notification *)

(** [None]: not possible now; [Some None]: a panic. *)
Definition netStep (ev : netEvent) (n : Net) : option (option Net) :=
  match ev with
  | NListen queue => Some (Some (Listen queue n).1)
  | NUnlisten queue => Some (Some (Unlisten queue n))
  | NClose => Some (Some (CloseListener n))
  | NMessage ps => match n_pumps n !! ps with Some ch => Some (forward ch n) | None => None end
  | NEnd ps =>
      match n_pumps n !! ps with
      | Some ch => if decide (n_open n !! ps = None) then Some (pumpEnds ps ch n) else None
      | None => None
      end
  | NReceive ch =>
      match n_chans n !! ch with
      | Some (mkChan (S k) closed) => Some (Some (mkNet (n_subs n) (n_open n) (n_pumps n) (<[ch := mkChan k closed]> (n_chans n)) (n_next n)))
      | _ => None
      end
  end.

Fixpoint netRun (evs : list netEvent) (n : Net) : option (option Net) :=
  match evs with
  | [] => Some (Some n)
  | ev :: evs' => match netStep ev n with Some (Some n') => netRun evs' n' | r => r end
  end.

Definition emptyNet : Net := mkNet ∅ ∅ ∅ ∅ 0.

(** *** Its invariant *)

Record netOk (n : Net) : Prop := mkNetOk {
  no_fresh x : (n_next n ≤ x)%nat → n_open n !! x = None ∧ n_pumps n !! x = None ∧ n_chans n !! x = None;
  no_sub q s : n_subs n !! q = Some s → ss_ch s = ss_ps s ∧ n_open n !! ss_ps s = Some (notifyChannel q);
  no_open x name : n_open n !! x = Some name → (∃ q, n_subs n !! q = Some (mkRedisSub x x)) ∧ n_pumps n !! x = Some x;
  no_pump x ch : n_pumps n !! x = Some ch → ch = x ∧ ∃ k, n_chans n !! x = Some (mkChan k false);
  no_chan x c : n_chans n !! x = Some c → (ch_len c ≤ bufferSize)%nat ∧ (ch_closed c = false → n_pumps n !! x = Some x)
}.

Lemma notifyChannel_inj q1 q2 : notifyChannel q1 = notifyChannel q2 → q1 = q2.
Proof. unfold notifyChannel. intros Hq. by apply (inj (String.append "goncordia:notify:")). Qed.

Lemma netOk_empty : netOk emptyNet.
Proof. split; simpl; intros *; rewrite ?lookup_empty; naive_solver. Qed.

Lemma netOk_listen queue n : netOk n → netOk (Listen queue n).1.
Proof.
  intros [Hf Hs Ho Hp Hc]. unfold Listen. destruct (n_subs n !! queue) as [sub|] eqn:Hq; [done|]. simpl.
  destruct (Hf (n_next n) ltac:(lia)) as (Fo & Fp & Fc). split; simpl.
  - intros x Hx. rewrite !lookup_insert_ne by lia. apply Hf. lia.
  - intros q s. rewrite lookup_insert_Some. intros [[<- <-]|[Hne Hl]]; simpl; [by rewrite lookup_insert_eq|].
    destruct (Hs _ _ Hl) as [H1 H2]. split; [done|]. rewrite lookup_insert_ne; [done|]. intros Heq. rewrite <-Heq, Fo in H2. done.
  - intros x name. rewrite lookup_insert_Some. intros [[<- <-]|[Hne Hl]].
    + split; [exists queue|]; by rewrite lookup_insert_eq.
    + destruct (Ho _ _ Hl) as [[q Hl'] Hp']. rewrite (lookup_insert_ne (n_pumps n)) by done. split; [|done].
      exists q. rewrite lookup_insert_ne; [done|]. intros ->. congruence.
  - intros x ch. rewrite lookup_insert_Some. intros [[<- <-]|[Hne Hl]].
    + split; [done|]. exists 0%nat. by rewrite lookup_insert_eq.
    + rewrite lookup_insert_ne by done. by apply Hp.
  - intros x c. rewrite lookup_insert_Some. intros [[<- <-]|[Hne Hl]]; simpl.
    + rewrite lookup_insert_eq. split; [lia|done].
    + rewrite lookup_insert_ne by done. by apply Hc.
Qed.

(** The subscriptions of the queues in [keep] stay, all others are closed. *)
Lemma netOk_closed n n' : netOk n → n_pumps n' = n_pumps n → n_chans n' = n_chans n → n_next n' = n_next n →
  (∀ q s, n_subs n' !! q = Some s → n_subs n !! q = Some s ∧ n_open n' !! ss_ps s = n_open n !! ss_ps s) →
  (∀ x name, n_open n' !! x = Some name → n_open n !! x = Some name ∧ ∀ q, n_subs n !! q = Some (mkRedisSub x x) → n_subs n' !! q = Some (mkRedisSub x x)) →
  netOk n'.
Proof.
  intros [Hf Hs Ho Hp Hc] E1 E2 E3 Hs' Ho'. split.
  - intros x Hx. rewrite E1, E2, E3 in *. destruct (Hf x Hx) as (? & ? & ?). split_and!; [|done..].
    destruct (n_open n' !! x) as [name|] eqn:E; [|done]. apply Ho' in E as [E _]. congruence.
  - intros q s Hq. apply Hs' in Hq as [Hq ->]. by apply Hs.
  - intros x name Hx. rewrite E1. apply Ho' in Hx as [Hx Hk]. destruct (Ho _ _ Hx) as [[q Hq] ?]. split; [exists q; auto|done].
  - intros x ch. rewrite E1, E2. apply Hp.
  - intros x c. rewrite E1, E2. apply Hc.
Qed.

Lemma netOk_unlisten queue n : netOk n → netOk (Unlisten queue n).
Proof.
  intros Hn. unfold Unlisten. destruct (n_subs n !! queue) as [sub|] eqn:Hq; [|done].
  destruct (no_sub _ Hn _ _ Hq) as [Hch Hop]. apply (netOk_closed n); [done..| |]; simpl.
  - intros q s. rewrite lookup_delete_Some. intros [Hne Hl]. split; [done|]. apply lookup_delete_ne. intros Heq.
    destruct (no_sub _ Hn _ _ Hl) as [_ Hop']. apply Hne, notifyChannel_inj. rewrite Heq in Hop. congruence.
  - intros x name. rewrite lookup_delete_Some. intros [Hne Hl]. split; [done|]. intros q Hqx. rewrite lookup_delete_ne; [done|].
    intros ->. rewrite Hq in Hqx. by simplify_eq.
Qed.

Lemma closeSubs_frame l : ∀ n, n_pumps (foldl closeSub n l) = n_pumps n ∧ n_chans (foldl closeSub n l) = n_chans n ∧
  n_next (foldl closeSub n l) = n_next n ∧
  ∀ x, n_open (foldl closeSub n l) !! x = if decide (x ∈ ss_ps <$> l) then None else n_open n !! x.
Proof.
  induction l as [|s l IH]; intros n; cbn [foldl]; [by split_and!|]. destruct (IH (closeSub n s)) as (-> & -> & -> & Ho).
  split_and!; [done..|]. intros x. rewrite Ho. simpl. destruct (decide (x = ss_ps s)) as [->|Hne].
  - rewrite lookup_delete_eq. repeat case_decide; try done; exfalso; set_solver.
  - rewrite lookup_delete_ne by done. repeat case_decide; try done; exfalso; set_solver.
Qed.

(** No subscription is left open. *)
Lemma close_none_open n : netOk n → n_open (CloseListener n) = ∅.
Proof.
  intros Hn. apply map_eq. intros x. rewrite lookup_empty. unfold CloseListener. simpl.
  destruct (closeSubs_frame (map_to_list (n_subs n)).*2 n) as (_ & _ & _ & ->). case_decide as Hx; [done|].
  destruct (n_open n !! x) as [name|] eqn:E; [|done]. destruct (no_open _ Hn _ _ E) as [[q Hq] _]. destruct Hx.
  apply list_elem_of_fmap. exists (mkRedisSub x x). split; [done|]. apply list_elem_of_fmap. exists (q, mkRedisSub x x).
  split; [done|]. by apply elem_of_map_to_list.
Qed.

Lemma netOk_close n : netOk n → netOk (CloseListener n).
Proof.
  intros Hn. pose proof (close_none_open n Hn) as Ho. unfold CloseListener in *.
  destruct (closeSubs_frame (map_to_list (n_subs n)).*2 n) as (E1 & E2 & E3 & _).
  apply (netOk_closed n); [done|exact E1|exact E2|exact E3|..].
  - intros q s. simpl. by rewrite lookup_empty.
  - intros x name. rewrite Ho. by rewrite lookup_empty.
Qed.

(** Something becomes of one channel. *)
Lemma netOk_chan n x c c' : netOk n → n_chans n !! x = Some c → (ch_len c' ≤ bufferSize)%nat → ch_closed c' = ch_closed c →
  netOk (mkNet (n_subs n) (n_open n) (n_pumps n) (<[x := c']> (n_chans n)) (n_next n)).
Proof.
  intros [Hf Hs Ho Hp Hc] Hx Hlen Hcl. split; simpl; [|done|done|..].
  - intros y Hy. destruct (Hf y Hy) as (? & ? & ?). rewrite lookup_insert_ne; [done|]. intros ->. congruence.
  - intros y ch Hy. destruct (Hp _ _ Hy) as [-> [k Hk]]. split; [done|]. destruct (decide (x = y)) as [->|].
    + rewrite lookup_insert_eq. destruct c' as [k' b]. simplify_eq/=. by exists k'.
    + rewrite lookup_insert_ne by done. by exists k.
  - intros y c0. rewrite lookup_insert_Some. intros [[<- <-]|[_ Hy]]; [|by apply Hc]. split; [done|]. rewrite Hcl. by apply Hc.
Qed.

Lemma netOk_step ev n r : netOk n → netStep ev n = Some r → ∃ n', r = Some n' ∧ netOk n'.
Proof.
  intros Hn. destruct ev; simpl.
  - intros [= <-]. eexists. split; [done|]. by apply netOk_listen.
  - intros [= <-]. eexists. split; [done|]. by apply netOk_unlisten.
  - intros [= <-]. eexists. split; [done|]. by apply netOk_close.
  - destruct (n_pumps n !! ps) as [ch|] eqn:Hp; [|done]. intros [= <-]. destruct (no_pump _ Hn _ _ Hp) as [-> [k Hk]].
    unfold forward, onChan. rewrite Hk. eexists. split; [reflexivity|]. destruct (no_chan _ Hn _ _ Hk) as [Hlen _]. simpl in Hlen.
    unfold bufferSize in *.
    apply (netOk_chan n ps (mkChan k false)); [done..| |]; case_decide; unfold bufferSize; simpl; first [done|lia].
  - destruct (n_pumps n !! ps) as [ch|] eqn:Hp; [|done]. case_decide as Ho; [|done]. intros [= <-]. destruct (no_pump _ Hn _ _ Hp) as [-> [k Hk]].
    unfold pumpEnds, onChan. rewrite Hk. eexists. split; [reflexivity|]. simpl. destruct Hn as [Hf Hs Hop Hpm Hc]. split; simpl; [|done|..].
    + intros y Hy. destruct (Hf y Hy) as (? & ? & ?). rewrite lookup_delete_None, lookup_insert_ne by congruence. auto.
    + intros x name Hx. rewrite lookup_delete_ne by congruence. by eapply Hop.
    + intros x ch. rewrite lookup_delete_Some. intros [Hne Hx]. rewrite lookup_insert_ne by done. by apply Hpm.
    + intros x c. rewrite lookup_insert_Some. intros [[<- <-]|[Hne Hx]]; simpl; [split; [by apply (Hc _ _ Hk)|done]|].
      rewrite lookup_delete_ne by done. by apply Hc.
  - destruct (n_chans n !! ch) as [[[|k] closed]|] eqn:Hc; [done| |done]. intros [= <-]. eexists. split; [done|].
    destruct (no_chan _ Hn _ _ Hc) as [Hlen _]. simpl in Hlen. eapply netOk_chan; [done|exact Hc|simpl; lia|done].
Qed.

(** Whatever is listened to and given up, and however the goroutines interleave:
    none sends on a closed channel or closes one twice, no channel holds more than
    sixteen notifications, every queue listened to has one open subscription with a
    goroutine that serves it, and nothing else is open; once the listener is closed
    nothing is. *)
Theorem redis_listener_sound evs r : netRun evs emptyNet = Some r →
  ∃ n, r = Some n ∧ netOk n ∧ n_open (CloseListener n) = ∅.
Proof.
  assert (∀ evs n, netOk n → netRun evs n = Some r → ∃ n', r = Some n' ∧ netOk n') as Hrun.
  { clear evs. intros evs. induction evs as [|ev evs IH]; intros n Hn; simpl; [intros [= <-]; eauto|].
    destruct (netStep ev n) as [r'|] eqn:E; [|done]. destruct (netOk_step _ _ _ Hn E) as (n' & -> & Hn'). by apply IH. }
  intros Hr. destruct (Hrun _ _ netOk_empty Hr) as (n & -> & Hn). exists n. split_and!; [done..|]. by apply close_none_open.
Qed.
