(* ===== verification/RedisDemo.v ===== *)
(** * driver/redis: a concrete server, and runs on it

    A concrete server over the keys that keeps the laws.  It answers a request with
    what the request makes of the keys, and refuses what cannot happen.  [sm_races]
    says, call by call, what other programs do just before.

    The theorems about the backend applied to concrete runs, and runs that show what
    does not hold: a reschedule that takes a job from its worker, or loses it, a
    deletion that frees the unique key of another job, an election that two workers
    win, and a fetch that stops early. *)

From S2P Require Import Prelude GoBase Json Codec Driver Moves Memory Redis RedisLaws RedisRefine RedisSafety.
From Stdlib Require Import ZArith Lia.

(** * The concrete server *)

Record Sim := mkSim { sm_db : Db; sm_next : Z; sm_races : list (list move) }.

(** SET takes milliseconds, EXPIRE seconds, at least one; SET without a time keeps
    the key forever. *)
Definition simPx (t : Duration) : option Duration := if 0 <? t then Some (Z.max Millisecond (Truncate t Millisecond)) else None.
Definition simEx (t : Duration) : Duration := if (0 <? t) && (t <? Second) then Second else Truncate t Second.

Definition simFailed : error := ENew "failed".

(** What the server answers. *)
Definition answer (q : request) (d : Db) : reply q :=
  match q with
  | InsertJob hu key id job sc score queue nowMs createdMs => (insertJobScript hu key id job sc score queue nowMs createdMs d).2
  | GetJob id => db_jobs d !! id
  | FetchOne queue w nowMs leaseMs => (fetchOneScript queue w nowMs leaseMs d).2
  | RescueOne queue id atMs beforeMs => (rescueOneScript queue id atMs beforeMs d).2
  | Heartbeat queue id w attempt leaseMs => (heartbeatScript queue id w attempt leaseMs d).2
  | MarkStarted id w attempt atMs => (markStartedScript id w attempt atMs d).2
  | Exec id job _ => bool_decide (db_jobs d !! id = Some job)
  | ZRem _ | ExpireLease _ _ | Resign _ _ | Ping | ZAddJobIndex _ _ => tt
  | ZRangeIndex => elements (dom (db_index d))
  | HKeysRun queue => elements (runIDs queue d)
  | HGetPaused queue => qm_Paused (metaOf queue d)
  | HGetAllMeta name => db_meta d !! name
  | SMembersQueues => elements (db_queues d)
  | SetNXLease name w ttl => (setNXLease simPx name w ttl d).2
  | GetLease name => ls_Owner <$> leaseOf name d
  | HSetNXCursor id _ => bool_decide (db_cursors d !! id = None)
  | HGetCursor id => db_cursors d !! id
  | AdvanceCursor id expected next => (advanceCursorScript id expected next d).2
  | ScanJobs _ => (elements (dom (db_jobs d)), 0)
  end.

(** Others come first. *)
Definition raced (s : Sim) : Sim :=
  match sm_races s with
  | [] => s
  | ms :: rest => mkSim (default (sm_db s) (runMoves simPx simEx ms (sm_db s))) (sm_next s) rest
  end.

Definition served (q : request) (s : Sim) : Sim * result (reply q) :=
  match step simPx simEx (MReq q (answer q (sm_db s))) (sm_db s) with
  | Some d => (mkSim d (sm_next s) (sm_races s), Ok (answer q (sm_db s)))
  | None => (s, Err simFailed)
  end.

Definition piped (cs : list command) (s : Sim) : Sim * option error :=
  match runMoves simPx simEx (MCmd <$> cs) (sm_db s) with
  | Some d => (mkSim d (sm_next s) (sm_races s), None)
  | None => (s, Some simFailed)
  end.

#[export] Instance simRedis : Redis Sim := {|
  rd_call q s := served q (raced s);
  rd_pipeline cs s := piped cs (raced s);
  rd_uuid s := (mkSim (sm_db s) (sm_next s + 1) (sm_races s), FormatInt (sm_next s));
  rd_Nil := ENew "redis: nil"
|}.

Lemma rd_sim_foreign msg : foreignErr (ENew msg).
Proof. by repeat split. Qed.

Lemma rd_raced_others s : others simPx simEx (sm_db s) (sm_db (raced s)).
Proof.
  unfold raced. destruct (sm_races s) as [|ms rest]; [reflexivity|]. simpl.
  destruct (Moves.runMoves (step simPx simEx) ms (sm_db s)) as [d|] eqn:E; simpl; [by exists ms|reflexivity].
Qed.

#[export] Program Instance simRedisLaws : RedisLaws Sim := {|
  rd_px := simPx;
  rd_ex := simEx;
  rd_db := sm_db
|}.
Next Obligation. apply rd_sim_foreign. Qed.
Next Obligation. intros s. simpl. reflexivity. Qed.
Next Obligation.
  intros q s _ _. cbn [rd_call simRedis]. pose proof (rd_raced_others s) as Ho. set (s1 := raced s) in *. unfold served.
  destruct (step simPx simEx (MReq q (answer q (sm_db s1))) (sm_db s1)) as [d|] eqn:E; cbn [fst snd sm_db].
  - exists (Did <$> [MReq q (answer q (sm_db s1))]). rewrite did_did. split; [|done].
    eapply happens_between; [exact Ho| |reflexivity]. apply happens_did. cbn [Moves.runMoves]. by rewrite E.
  - exists []. split; [by apply happens_others|]. split; [apply rd_sim_foreign|by left].
Qed.
Next Obligation.
  intros cs s _ _. cbn [rd_pipeline simRedis]. pose proof (rd_raced_others s) as Ho. set (s1 := raced s) in *. unfold piped.
  destruct (runMoves simPx simEx (MCmd <$> cs) (sm_db s1)) as [d|] eqn:E; cbn [fst snd sm_db].
  - exists (Did <$> (MCmd <$> cs)). rewrite did_did. split; [|done].
    eapply happens_between; [exact Ho| |reflexivity]. by apply happens_did.
  - exists []. split; [by apply happens_others|]. split; [apply rd_sim_foreign|]. exists []. split; [apply sublist_nil_l|done].
Qed.

(** * Runs *)

Definition noon : Instant := unixEpoch + 20000 * 24 * Hour.
Definition emptyDb : Db := mkDb ∅ ∅ ∅ ∅ ∅ ∅ ∅ ∅ ∅ ∅ noon.
Definition simEnv (d : Db) (now : Instant) (races : list (list move)) : RdEnv (R := Sim) := mkRdEnv (mkSim d 1 races) (frozenClock now).
Definition dbAfter (e : RdEnv (R := Sim)) : Db := rd_db (rv_rd e).

Lemma rd_keyed_empty : keyedDb emptyDb.
Proof. intros id j. simpl. by rewrite lookup_empty. Qed.

(** Equations between databases are decided, not compared as terms. *)
Lemma rd_dbs_decided (x y : option Db) : bool_decide (x = y) = true → x = y.
Proof. apply bool_decide_eq_true. Qed.
Ltac decide_dbs := apply rd_dbs_decided; vm_compute; reflexivity.

Definition simParams (queue key : string) : JobInsertParams := mkJobInsertParams queue "email" "{}" 0 0 key 3 Minute [] "".
Definition simFetch (w : string) : FetchParams := mkFetchParams "mail" 5 w Minute.
Definition simOutcome (state id w : string) : JobSetStateParams := mkJobSetStateParams id state None None 0 0 w 1 false.

Definition demoProgram : list driverOp :=
  [OInsert [simParams "mail" "k"; simParams "mail" "k"]; OFetch (simFetch "w1");
   OSetState (simOutcome JobStateCompleted "1" "w2"); OSetState (simOutcome JobStateCompleted "1" "w1"); OStats "mail"; ODelete "1"].

Lemma redis_operations_refine_witness :
  keyedDb emptyDb ∧
  ∃ trs, runMoves simPx simEx (trMoves (mjoin trs)) emptyDb = Some (dbAfter (execAll demoProgram (simEnv emptyDb noon [])).1) ∧
    Forall2 (λ tr (oa : {o : driverOp & ans o}), promised (projT1 oa) (trOwn tr) (projT2 oa)) trs
      (execAll demoProgram (simEnv emptyDb noon [])).2 ∧
    (λ oa : {o : driverOp & ans o}, projT1 oa) <$> (execAll demoProgram (simEnv emptyDb noon [])).2 = demoProgram.
Proof. split; [exact rd_keyed_empty|]. exact (redis_operations_refine demoProgram (simEnv emptyDb noon []) rd_keyed_empty). Defined.

(** A claim, and then its rescue an hour later. *)
Definition insertedEnv : RdEnv (R := Sim) := (execOp (OInsert [simParams "mail" "k"]) (simEnv emptyDb noon [])).1.
Definition claimedEnv : RdEnv (R := Sim) := (execOp (OFetch (simFetch "w1")) insertedEnv).1.
Definition rescueMove : move := MReq (RescueOne "mail" "1" (UnixMilli (noon + Hour)) (UnixMilli noon)) true.
Definition rescuedEnv : RdEnv (R := Sim) := simEnv (default emptyDb (step simPx simEx rescueMove (dbAfter claimedEnv))) (noon + Hour) [].

Definition claimedRows (e : RdEnv (R := Sim)) (w : string) : list JobRow := (execOp (OFetch (simFetch w)) e).2.1.
Definition firstRow (rows : list JobRow) : JobRow := default (newRow (simParams "" "") "" 0) (head rows).

Lemma rd_inserted_keyed : keyedDb (dbAfter insertedEnv).
Proof.
  apply (runMoves_inv (step simPx simEx) keyedDb (rd_step_keyed simPx simEx) [MReq (insertRequest (simParams "mail" "k") "1" noon) true] emptyDb);
    [exact rd_keyed_empty|decide_dbs].
Qed.

Lemma rd_inserted_fair : fairlyListed "1" (dbAfter insertedEnv).
Proof.
  destruct (ordinary_run "1" simPx simEx [MReq (insertRequest (simParams "mail" "k") "1" noon) true] emptyDb (dbAfter insertedEnv));
    [exact rd_keyed_empty|..|decide_dbs|done].
  - split; [left; intros [[] q]; apply lookup_empty|]. intros (j & Hj & _). simpl in Hj. by rewrite lookup_empty in Hj.
  - constructor; [by apply insert_ordinary|done].
Qed.

Lemma rd_head_elem {A} (l : list A) x : head l = Some x → x ∈ l.
Proof. destruct l; [done|]. intros [= ->]. by left. Qed.

Lemma redis_claims_exclusive_witness :
  ID (firstRow (claimedRows insertedEnv "w1")) = "1" ∧
  ∃ pre m1 mid m2 post, claimedRow (simFetch "w1") (firstRow (claimedRows insertedEnv "w1")) m1 ∧
    claimedRow (simFetch "w2") (firstRow (claimedRows rescuedEnv "w2")) m2 ∧
    runMoves simPx simEx (pre ++ m1 :: mid ++ m2 :: post) (dbAfter insertedEnv)
      = Some (dbAfter (execOp (OFetch (simFetch "w2")) rescuedEnv).1) ∧
    (Forall (ordinary (ID (firstRow (claimedRows insertedEnv "w1")))) (pre ++ mid) →
     Exists (λ m, releases (ID (firstRow (claimedRows insertedEnv "w1"))) m = true) mid).
Proof.
  assert (ID (firstRow (claimedRows insertedEnv "w1")) = "1") as Hid by (vm_compute; reflexivity). split; [exact Hid|].
  refine (redis_claims_exclusive (simFetch "w1") (simFetch "w2") insertedEnv rescuedEnv [rescueMove]
           (claimedRows insertedEnv "w1") None (claimedRows rescuedEnv "w2") None (firstRow (claimedRows insertedEnv "w1"))
           (firstRow (claimedRows rescuedEnv "w2")) _ _ _ _ _ _ _ _).
  - exact rd_inserted_keyed.
  - rewrite Hid. exact rd_inserted_fair.
  - vm_compute. reflexivity.
  - apply rd_head_elem. vm_compute. reflexivity.
  - decide_dbs.
  - vm_compute. reflexivity.
  - apply rd_head_elem. vm_compute. reflexivity.
  - vm_compute. reflexivity.
Defined.

(** ** What does not hold *)

(** Between the two steps of a reschedule a worker claims the job.  The reschedule
    answers success, a second worker gets the job, too, and the first one, whose
    claim nobody has released, finds that it is stale. *)
Definition claimNow (w : string) (now : Instant) (d : Db) : move :=
  let q := FetchOne "mail" w (UnixMilli now) (ms_ Minute) in MReq q (answer q d).

Lemma redis_reschedule_race :
  let e := simEnv (dbAfter insertedEnv) noon [[]; [claimNow "w1" noon (dbAfter insertedEnv)]] in
  let r := execOp (OReschedule (mkRescheduleParams "1" (noon + Second))) e in
  let e2 := simEnv (dbAfter r.1) (noon + Minute) [] in
  r.2 = None ∧
  (rj_State <$> db_jobs (dbAfter claimedEnv) !! "1") = Some JobStateRunning ∧
  (λ row, (ID row, WorkerID row, AttemptNum row)) <$> claimedRows e2 "w2" = [("1", "w2", 1)] ∧
  (execOp (OSetState (simOutcome JobStateCompleted "1" "w1")) (execOp (OFetch (simFetch "w2")) e2).1).2 ≠ None.
Proof. vm_compute. done. Qed.

(** The commands of a reschedule are not one transaction: a worker that claims the
    job between the second and the third of them leaves a job that is scheduled and
    in no list, which nothing finds again. *)
Lemma redis_reschedule_loses :
  let p := mkRescheduleParams "1" noon in
  let j := default (newJob (simParams "" "") "" 0) (db_jobs (dbAfter insertedEnv) !! "1") in
  let d1 := runCommands (take 2 (rescheduleCommands p j)) (dbAfter insertedEnv) in
  let claim := claimNow "w1" noon d1 in
  ∃ d2, runMoves simPx simEx ([MReq (GetJob "1") (Some j)] ++ (MCmd <$> take 2 (rescheduleCommands p j)) ++ [claim] ++ (MCmd <$> drop 2 (rescheduleCommands p j)))
    (dbAfter insertedEnv) = Some d2 ∧
  claims "1" claim ∧ (rj_State <$> db_jobs d2 !! "1") = Some JobStateScheduled ∧
  db_avail d2 = ∅ ∧ db_sched d2 = ∅.
Proof.
  cbv zeta. eexists. split; [vm_compute; reflexivity|]. split; [eexists; split; vm_compute; reflexivity|]. vm_compute. done.
Qed.

(** A job of the same unique key has been inserted after the first was done; to
    delete the first lets the key of the second go, and a third gets it. *)
Lemma redis_delete_frees_live_key :
  let e1 := (execOp (OSetState (simOutcome JobStateCompleted "1" "w1")) claimedEnv).1 in
  let r2 := execOp (OInsert [simParams "mail" "k"]) e1 in
  let e3 := (execOp (ODelete "1") r2.1).1 in
  let r4 := execOp (OInsert [simParams "mail" "k"]) e3 in
  let inserted (r : result (list JobInsertResult)) := match r with Ok rs => ir_UniqueSkip <$> rs | Err _ => [] end in
  inserted r2.2 = [false] ∧ inserted r4.2 = [false] ∧
  (λ j, (rj_State j, rj_UniqueKey j)) <$> (map_to_list (db_jobs (dbAfter r4.1))).*2 = [(JobStateAvailable, "k"); (JobStateAvailable, "k")].
Proof. vm_compute. done. Qed.

(** The lease of the first worker runs out between its reading and its renewal, and
    a second worker gets it: both are told that they are elected, and the renewal
    is of the lease of the other. *)
Lemma redis_two_leaders :
  let p w := mkLeaderElectParams "scheduler" w (10 * Second) in
  let e1 := (execOp (OElect (p "w1")) (simEnv emptyDb noon [])).1 in
  let e2 := simEnv (dbAfter e1) noon [[]; []; [MTime (noon + Minute); MReq (SetNXLease "scheduler" "w2" (10 * Second)) true]] in
  let r := execOp (OElect (p "w1")) e2 in
  r.2 = (true, None) ∧ ownerOf "scheduler" (dbAfter r.1) = Some "w2".
Proof. vm_compute. done. Qed.

(** A job is being deleted: its document is gone, its id not yet.  A fetch takes the
    id, finds no document, and stops, although another job waits. *)
Lemma redis_fetch_stops_early :
  let e := (execOp (OInsert [simParams "mail" ""; simParams "mail" ""]) (simEnv emptyDb noon [])).1 in
  let j := default (newJob (simParams "" "") "" 0) (db_jobs (dbAfter e) !! "1") in
  let d := runCommands (take 1 (deleteCommands "1" j)) (dbAfter e) in
  let r := execOp (OFetch (simFetch "w1")) (simEnv d noon []) in
  r.2 = ([], None) ∧ ID <$> claimedRows r.1 "w1" = ["2"].
Proof. vm_compute. done. Qed.
